(* ===== verification/_CoqProject ===== *)
-Q . S2P
Prelude.v
TreapTree.v
AesHash.v
TreapNode.v
TreapUpdate.v
TreapQuery.v
Owned.v
TreapBuild.v
Scheduler.v
SchedulerTree.v
SchedulerMem.v
SchedulerInv.v
SchedulerSafe.v
SchedulerWork.v
SchedulerLive.v
SchedulerCorrect.v
SchedulerFindings.v
PamNode.v
PamBuild.v
PamQuery.v
PamUpdate.v
Pam.v
QueryProcessor.v
Database.v
Sequential.v
YcsbUtils.v
YcsbProperties.v
ExportDb.v
Driver.v
Generators.v
Workload.v
Client.v
YcsbMain.v
Batch.v
Contreap.v
Methods.v
QueryLatency.v
ShoppingSystem.v
ParArray.v
Monoid.v
SequenceOps.v
ParMem.v
Merge.v
Primitives.v
PrimitivesSpec.v
WsDeque.v
ForkJoin.v
ForkJoinInv.v
ForkJoinBound.v
ForkJoinCorrect.v
Relocation.v
HeapLogic.v
SequenceBase.v
Sequence.v
SequenceSpec.v
SequenceCorrect.v
Hashing.v
HashTable.v
HashTableCorrect.v
HashTablePhase.v
HashTableMap.v
HashTableDelete.v
HashTableRuns.v
MemRelocation.v
CountingSort.v
IntegerSort.v
IntegerCounts.v
