(* ===== verification/Prelude.v ===== *)
(** * Contreap: a verification development

    Contreap is a concurrent treap that executes a stream of insertions, deletions and
    range queries strictly in the order in which they were issued.  The repository has the
    concurrent treap, a batched treap, three databases built on them with a driver, and a
    generator of workload files derived from YCSB.

    ** The parts of the program

    - [src/lib/treap]: path-copying treap whose nodes carry the version that made them.
      [node.hpp], [search_insert.hpp], [search_delete.hpp], [augment.hpp], [query.hpp],
      [build.hpp], and the pipeline of threads in [scheduler.hpp].
    - [src/lib/pam]: the batched treap, whose nodes hold one value for each version of a
      batch, with merge and subtraction by copying.
    - [src/lib/aes_hash.hpp]: the priorities of the nodes.
    - [src/db]: the databases [Sequential], [Contreap] and [Batch<pam::interface>], each with
      a [QueryProcessor]; [src/main.cpp] reads a workload file and drives one of them.
    - [src/ycsbc]: the workload generator, whose database [Export] writes that file.
    - [src/test]: two benchmark programs.
    - [src/lib/parlay]: the parallel algorithms that the batched treap is built on, down to
      the work-stealing scheduler that runs [par_do] and [parallel_for].

    ** How the development follows it

    A pointer is an option of a location, a heap a finite map of nodes, and an operation a
    program of the monad [M] (this file) that returns a value and a heap, or the undefined
    behaviour it ran into ([err]).  Operations on the state of a class are programs of the
    monad [SM] ([Database]).  [size_t] and [uint64_t] are integers with [wrap64].  Recursion
    that is not structural takes fuel; every total-correctness theorem states the fuel that
    is enough (more than the number of nodes), and running out of it is an error the theorems
    exclude.

    - [TreapTree]: pure treaps, the bag they stand for, uniqueness of the shape.
    - [AesHash]: [aes_hash.hpp] over a parameter for the AESENC instruction.
    - [TreapNode], [TreapUpdate], [TreapQuery]: nodes, insertion and deletion, aggregates
      and queries as heap programs, refining [TreapTree].  [Owned], [TreapBuild]: ownership
      of nodes not yet shared, and bulk construction by in-place split and merge.
    - [Scheduler]: contexts, threads and one function for each method of [scheduler.hpp];
      [exec] is one atomic step, [history] the reachable states.  [SchedulerTree],
      [SchedulerMem], [SchedulerInv], [SchedulerSafe], [SchedulerWork], [SchedulerLive]: the
      invariant, its preservation by every thread, and progress.  [SchedulerCorrect]: strict
      ordering, absence of faults and of deadlock.  [SchedulerFindings]: runs that show what
      estimation and [get_snapshot] do wrong.
    - [PamNode], [PamBuild], [PamQuery], [PamUpdate], [Pam]: the batched treap; [Pam] has
      the operations of [interface.hpp] and what each snapshot answers.
    - [QueryProcessor]: the pool of query threads as a transition system: no query is lost,
      duplicated or answered wrongly while it works, and [Stop] terminates if the accepted
      queries can be answered.
    - [Database]: the class [Interface] of [interface.hpp], requests, and the contents they
      specify.  [Sequential], [Contreap], [Batch]: the three databases; [Batch] is written
      against the class [BatchTree] with its laws [BatchTreeLaws], which [Pam] satisfies.
      [Methods]: the databases compared.
    - [YcsbUtils], [YcsbProperties], [Generators], [Workload]: strings and numbers of the C++
      library as far as the code uses them, property files, the number generators over
      classes for floating-point numbers ([Doubles]) and random engines ([Random]), and
      [core_workload.h].  [ExportDb]: [db.h] and the file format.  [Driver]: command line
      and workload file of [main.cpp], and the round trip with [ExportDb].  [Client],
      [YcsbMain]: [client.h] and [ycsbc.cc], up to the file that [main] leaves behind.
    - [QueryLatency], [ShoppingSystem]: the programs of [src/test], for all random numbers.
    - [ParArray]: ranges ([slice.h], [delayed_sequence.h]), arrays whose cells may be
      uninitialized, and the loops of [parallel.h] over the class [Schedule]: any order of the
      iterations.  [Monoid]: [monoid.h].  [SequenceOps]: [sequence_ops.h].  [ParMem], [Merge]:
      memory with moves and relocations, searches, merges and merge sort.  [Primitives],
      [PrimitivesSpec]: [primitives.h] and what its algorithms compute.  [MemRelocation]:
      [relocation.h] on that memory.  [CountingSort]: [counting_sort.h], stable for every number of blocks and schedule.  [IntegerSort],
      [IntegerCounts]: [integer_sort.h], a radix sort in both directions, and key counts.
    - [Relocation], [HeapLogic]: construction, destruction and relocation of objects in
      buffers ([relocation.h]), and a separation logic, an instance of the Iris proof mode, for
      heap programs.  [SequenceBase], [Sequence]: the storage of a sequence with its small-size
      optimization and every method of [sequence.h], with iterators that may dangle and
      arguments that may be references to elements.  [SequenceSpec], [SequenceCorrect]: their
      triples, and programs of method calls against lists.
    - [Hashing]: the integer hashes of [utilities.h].  [HashTable]: [hash_table.h], insertions
      as interleaved reads and compare-and-swaps, deletions by one thread.
      [HashTableCorrect], [HashTablePhase], [HashTableMap], [HashTableDelete]: the order of
      probing, phases of insertions, the table as a map, and deletion.  [HashTableRuns]: runs
      of tables of integers.
    - [WsDeque]: [work_stealing_deque.h], one atomic access a step.  [ForkJoin],
      [ForkJoinInv], [ForkJoinBound], [ForkJoinCorrect]: the pool of workers of
      [scheduler.h], which uses such deques, how full these get, and the parallel loops as
      thunks of the pool.

    ** What the theorems show

    The concurrent scheduler builds, for every interleaving of its threads, exactly the
    tree that the sequential algorithm builds for the operations in their order of issue; it
    never faults and never deadlocks.  The databases refine a bag of counters (the batching
    one for the queries whose version no later update of its batch spoils), and the concurrent
    one gives the answers of the sequential one.  Heap programs refine pure trees, and pure trees bags.  The batched
    treap answers, at every version, what its batches define.  The generator writes files
    that the driver reads back as the operations its clients chose.  Parallel reductions,
    scans, packs, searches, merges and sorts compute what their sequential definitions do, for
    every schedule; the pool of workers runs each action of nested [par_do]s once, in an order
    they allow, and terminates; its deque is linearizable.  Sequences behave like lists for
    every program of method calls within the preconditions.  The hash table is determined by
    its keys, whatever the interleaving of the insertions, which terminate.  Where the code does something it
    does not mean to, a theorem exhibits a run.

    ** Bounds and assumptions

    Memory accesses of the threads interleave at sequential consistency; one node operation
    of a task is one step, since it writes only nodes of its own task.  The priorities are
    assumed to be injective ([PerfectHash]), which [AesHash] derives from the definition of
    the AES round.  The queue of the query processor is first-in first-out for its single
    producer.  [operator new] does not fail.  In the sequence algorithms the iterations of a
    parallel loop run in any order but one at a time, each as a whole; they touch different
    cells, except in [find_if_index], whose shared minimum is updated atomically.  Sizes and
    indices are natural numbers; subtractions that can wrap around are written [size_sub], and
    counts that can overflow [size_add].  Doubling block sizes are taken not to overflow,
    which they do not below 2^63 elements.  In [ForkJoin] a deque operation is one step; a
    worker that spawns a job into a full deque is aborted, so that the theorems bound by 1024
    how deep a thunk nests [par_do]s on the left ([nesting]), which the parallel loops over
    64-bit indices respect.
    Forked tasks of the treaps run one after the other, in an order that is chosen for each
    fork separately: it is a function of the path of forks that leads to it ([branch]).  In
    [Sequence] the raw bytes of the union that holds a short sequence are the constructors
    of a type, allocation does not fail, sequences have at most [_max_size] elements, and the
    theorems take elements of at most 8192 bytes ([FitsChunk]), beyond which the code divides
    by zero; those about the sorts do so for elements that are trivially relocatable
    ([fits_chunk]), and where the code copies bytes onto themselves with [memcpy] they assume
    that these stay the same ([stays_in_place]).  The keys of a workload have at least four
    characters ([long_key]), field lengths are not negative, and bounds of uniform
    distributions are in order, or the model fails as the code does.  A snapshot is only asked
    of a scheduler whose block size is positive.  The accesses of the hash table are sequentially consistent; the fuel of an
    insertion is [insertion_bound], a function of the sizes of the table and of the phase.

    ** Not modelled

    Logging ([src/utils/log.h]), timers, printing of results, and destructors of the databases.
    The queues and semaphores of [src/lib/moodycamel], third-party code that is used through
    the interface stated in [QueryProcessor].  Of [src/lib/parlay], which nothing outside of it
    needs: the allocators, whose contract (fresh memory) the heap of [Prelude] states; sample
    sort, grouping and what is built on them ([group_by], [collect_reduce],
    [kth_smallest]); delayed block streams; file and string formatting; storage for each
    thread and hazard pointers; how idle workers sleep and wake up. *)

From stdpp Require Export base numbers list gmap option.

#[global] Open Scope Z_scope.

(** ** Machine integers

    [uint64_t] and [size_t] values are integers of [Z] in the range
    [0 .. 2^64-1]; every operation of the source that can wrap around is
    written with [wrap64]. *)

Definition two64 : Z := 2 ^ 64.
Definition wrap64 (x : Z) : Z := x mod two64.
Definition u64 (x : Z) : Prop := 0 <= x < two64.

#[global] Instance u64_dec x : Decision (u64 x).
Proof. unfold u64. apply _. Defined.

Lemma two64_pos : 0 < two64.
Proof. reflexivity. Qed.

Lemma wrap64_u64 x : u64 (wrap64 x).
Proof. apply Z.mod_pos_bound, two64_pos. Qed.

Lemma wrap64_small x : u64 x -> wrap64 x = x.
Proof. apply Z.mod_small. Qed.

Lemma wrap64_add_l x y : wrap64 (wrap64 x + y) = wrap64 (x + y).
Proof. apply Zplus_mod_idemp_l. Qed.

Lemma wrap64_add_r x y : wrap64 (x + wrap64 y) = wrap64 (x + y).
Proof. apply Zplus_mod_idemp_r. Qed.

Lemma wrap64_idemp x : wrap64 (wrap64 x) = wrap64 x.
Proof. apply wrap64_small, wrap64_u64. Qed.

Lemma wrap64_0 : wrap64 0 = 0.
Proof. reflexivity. Qed.

Create HintDb u64.
#[export] Hint Resolve wrap64_u64 two64_pos : u64.
Create Rewrite HintDb u64.
#[export] Hint Rewrite wrap64_add_l wrap64_add_r wrap64_idemp wrap64_0 : u64.

(** ** Sums over lists *)

Section sums.
#[local] Open Scope nat_scope.

Lemma sum_insert {X} (f : X -> nat) (l : list X) w a b :
  l !! w = Some a -> list_sum (f <$> <[w := b]> l) + f a = list_sum (f <$> l) + f b.
Proof.
  revert w. induction l as [|x l IH]; intros w Hw; [done|]. destruct w as [|w]; simpl in Hw.
  - simplify_eq. change (<[0 := b]> (a :: l)) with (b :: l). rewrite !fmap_cons. unfold list_sum. simpl. lia.
  - change (<[S w := b]> (x :: l)) with (x :: <[w := b]> l). specialize (IH w Hw). rewrite !fmap_cons.
    unfold list_sum in *. cbn [fold_right]. lia.
Qed.

Lemma sum_bound {X} (f : X -> nat) (l : list X) b : (forall x, x ∈ l -> f x <= b) -> list_sum (f <$> l) <= length l * b.
Proof.
  induction l as [|x l IH]; intros Hb; [done|]. rewrite fmap_cons. unfold list_sum in *. simpl.
  assert (f x <= b) by (apply Hb; left). assert (forall y, y ∈ l -> f y <= b) as Hl by (intros y Hy; apply Hb; by right). specialize (IH Hl). lia.
Qed.
End sums.

(** ** Errors, heaps and heap programs

    The code under [src/lib] works on nodes reached through raw pointers.  A
    pointer is an [option loc] ([nullptr] is [None]); a heap maps the allocated
    locations to nodes.  A heap program returns a value and the new heap, or
    the undefined behaviour it ran into. *)

Abbreviation loc := positive (only parsing).
Abbreviation ptr := (option positive) (only parsing).

Inductive err :=
  | NullDeref    (** dereference of [nullptr] *)
  | BadPtr       (** access through a dangling pointer, or out of an array *)
  | AssertFail   (** an [assert] of the source failed *)
  | Aborted      (** [abort()] *)
  | Exited       (** [exit(0)] *)
  | Thrown       (** an exception of the C++ library *)
  | DivZero      (** an integer division by zero *)
  | OutOfFuel    (** the recursion bound of the model was too small *)
  | Blocked.     (** not an error: spinning on a condition that does not hold yet *)

Inductive res (A : Type) :=
  | Ok (a : A)
  | Err (e : err).
Arguments Ok {A} a.
Arguments Err {A} e.

(** ** Programs that may fail *)

#[global] Instance res_ret : MRet res := fun A a => Ok a.
#[global] Instance res_bind : MBind res := fun A B f m => match m with Ok a => f a | Err e => Err e end.

Lemma res_bind_inv {A B} (m : res A) (f : A -> res B) b : m ≫= f = Ok b -> exists a, m = Ok a /\ f a = Ok b.
Proof. destruct m as [a|e]; [|done]. intros H. by exists a. Qed.

Ltac res_inv :=
  repeat lazymatch goal with
  | H : mbind _ _ = Ok _ |- _ => apply res_bind_inv in H as (? & ? & H)
  | H : (let '(_, _) := ?x in _) = Ok _ |- _ => destruct x
  | H : (if decide ?P then _ else _) = Ok _ |- _ => destruct (decide P)
  | H : mret _ = Ok _ |- _ => injection H as <-
  | H : Err _ = Ok _ |- _ => done
  | H : Ok _ = Ok _ |- _ => injection H as <-
  end.

(** Total correctness: the program does not fail, and its result satisfies [Q]. *)
Definition ok {A} (m : res A) (Q : A -> Prop) : Prop := exists a, m = Ok a /\ Q a.

Lemma ok_ret {A} (a : A) (Q : A -> Prop) : Q a -> ok (mret a) Q.
Proof. intros HQ. by exists a. Qed.

Lemma ok_bind {A B} (m : res A) (f : A -> res B) Q : ok m (fun a => ok (f a) Q) -> ok (m ≫= f) Q.
Proof. intros (a & -> & b & Hb & HQ). exists b. split; [exact Hb|done]. Qed.

Lemma ok_mono {A} (m : res A) (Q Q' : A -> Prop) : ok m Q -> (forall a, Q a -> Q' a) -> ok m Q'.
Proof. intros (a & Hm & HQ) H. exists a. auto. Qed.

Lemma ok_eq {A} (m : res A) (a : A) (Q : A -> Prop) : m = Ok a -> Q a -> ok m Q.
Proof. intros Hm HQ. by exists a. Qed.

Lemma ok_inv {A} (m : res A) (Q : A -> Prop) a : ok m Q -> m = Ok a -> Q a.
Proof. intros (b & -> & HQ). by intros [= ->]. Qed.

Section heap_programs.
Context {N : Type}.
Implicit Types (h : gmap loc N) (l : loc) (p : ptr).

Definition M (A : Type) : Type := gmap loc N -> res (A * gmap loc N).

#[global] Instance M_ret : MRet M := fun A a h => Ok (a, h).
#[global] Instance M_bind : MBind M := fun A B f m h =>
  match m h with
  | Ok (a, h') => f a h'
  | Err e => Err e
  end.

Definition fail {A} (e : err) : M A := fun _ => Err e.

(** [fresh_loc h] is a location outside [h]: the allocator. *)
Definition fresh_loc (h : gmap loc N) : loc :=
  Pos.succ (map_fold (fun l _ m => Pos.max l m) 1%positive h).

(** Reading [*p]. *)
Definition load (p : ptr) : M N := fun h =>
  match p with
  | None => Err NullDeref
  | Some l => match h !! l with Some n => Ok (n, h) | None => Err BadPtr end
  end.

(** Writing [*p]: [f] is the assignment to one or more fields. *)
Definition store (p : ptr) (f : N -> N) : M unit := fun h =>
  match p with
  | None => Err NullDeref
  | Some l =>
      match h !! l with Some n => Ok (tt, <[l := f n]> h) | None => Err BadPtr end
  end.

(** [new node_t{...}] *)
Definition new (n : N) : M ptr := fun h =>
  Ok (Some (fresh_loc h), <[fresh_loc h := n]> h).

(** [delete p] *)
Definition free (p : ptr) : M unit := fun h =>
  match p with
  | None => Err NullDeref
  | Some l => match h !! l with Some _ => Ok (tt, delete l h) | None => Err BadPtr end
  end.

(** Fork-join: [left] and [right] run as two tasks and the call returns when
    both have finished.  [left_first] says which one the scheduler ran first;
    the results below hold for every choice. *)
Definition par_do {A B} (left_first : bool) (left : M A) (right : M B) : M (A * B) :=
  if left_first then x ← left; y ← right; mret (x, y)
  else y ← right; x ← left; mret (x, y).

(** A run of nested forks is scheduled by an [order], which says for every fork whether the
    left task runs first.  Forks are named by the path of calls that leads to them, so no two
    forks of a run share a choice: a function decides its own fork with [order []], and
    its [i]-th call has the order [branch i order]. *)
Definition branch (i : nat) (order : list nat -> bool) : list nat -> bool := fun path => order (i :: path).

(** For examples: the order changes from every level of calls to the next. *)
Definition alternating (path : list nat) : bool := Nat.even (length path).

(** [while (!b) { }]: the program can go on only once [b] holds. *)
Definition await (b : bool) : M unit := if b then mret tt else fail Blocked.

(** Total correctness of a heap program: it runs without error and its
    result satisfies the postcondition. *)
Definition wp {A} (m : M A) (Q : A -> gmap loc N -> Prop) (h : gmap loc N) : Prop :=
  exists a h', m h = Ok (a, h') /\ Q a h'.

(** The same for a program that may be blocked in a spin loop, but only if the
    condition [B] holds. *)
Definition wpb (B : Prop) {A} (m : M A) (Q : A -> gmap loc N -> Prop) (h : gmap loc N) : Prop :=
  B /\ m h = Err Blocked \/ wp m Q h.

Lemma fresh_loc_fresh h : h !! fresh_loc h = None.
Proof.
  destruct (h !! fresh_loc h) as [n|] eqn:E; [exfalso|done].
  assert (forall l, is_Some (h !! l) ->
            (l <= map_fold (fun l _ m => Pos.max l m) 1%positive h)%positive) as Hmax.
  { apply (map_fold_weak_ind
      (fun r (m : gmap loc N) => forall l, is_Some (m !! l) -> (l <= r)%positive)).
    - intros l [? Hl]. by rewrite lookup_empty in Hl.
    - intros i x m r _ IH l [y Hy].
      destruct (decide (i = l)) as [->|Hne]; [lia|].
      rewrite lookup_insert_ne in Hy by done.
      specialize (IH l (mk_is_Some _ _ Hy)). lia. }
  specialize (Hmax _ (mk_is_Some _ _ E)). unfold fresh_loc in Hmax. lia.
Qed.

Lemma wp_ret {A} (a : A) (Q : A -> gmap loc N -> Prop) h : Q a h -> wp (mret a) Q h.
Proof. intros HQ. by exists a, h. Qed.

Lemma wp_bind {A B} (m : M A) (f : A -> M B) Q h :
  wp m (fun a h' => wp (f a) Q h') h -> wp (m ≫= f) Q h.
Proof.
  intros (a & h' & Hm & b & h'' & Hf & HQ). exists b, h''. split; [|done].
  unfold mbind, M_bind. by rewrite Hm.
Qed.

Lemma wpb_wp B {A} (m : M A) Q h : wp m Q h -> wpb B m Q h.
Proof. by right. Qed.

Lemma wpb_bind (C : Prop) {A B} (m : M A) (f : A -> M B) Q h :
  wpb C m (fun a h' => wpb C (f a) Q h') h -> wpb C (m ≫= f) Q h.
Proof.
  intros [[HC Hb] | (a & h' & Hm & [[HC Hf] | (b & h'' & Hf & HQ)])]; unfold mbind, M_bind.
  - left. by rewrite Hb.
  - left. by rewrite Hm.
  - right. exists b, h''. by rewrite Hm.
Qed.

Lemma wpb_await (B : Prop) b Q h :
  (b = false -> B) -> (b = true -> Q tt h) -> wpb B (await b) Q h.
Proof. intros HB HQ. destruct b; [right; exists tt, h; auto|left; auto]. Qed.

Lemma wp_mono {A} (m : M A) (Q Q' : A -> gmap loc N -> Prop) h :
  (forall a h', Q a h' -> Q' a h') -> wp m Q h -> wp m Q' h.
Proof. intros HQ (a & h' & Hm & Ha). exists a, h'. eauto. Qed.

Lemma wpb_mono B {A} (m : M A) (Q Q' : A -> gmap loc N -> Prop) h :
  (forall a h', Q a h' -> Q' a h') -> wpb B m Q h -> wpb B m Q' h.
Proof. intros HQ [Hb|H]; [by left|right; by eapply wp_mono]. Qed.

Lemma wp_load l n Q h : h !! l = Some n -> Q n h -> wp (load (Some l)) Q h.
Proof. intros Hl HQ. exists n, h. unfold load. by rewrite Hl. Qed.

Lemma wp_store l n f (Q : unit -> gmap loc N -> Prop) h :
  h !! l = Some n -> Q tt (<[l := f n]> h) -> wp (store (Some l) f) Q h.
Proof. intros Hl HQ. exists tt, (<[l := f n]> h). unfold store. by rewrite Hl. Qed.

Lemma wp_new n (Q : ptr -> gmap loc N -> Prop) h :
  (forall l, h !! l = None -> Q (Some l) (<[l := n]> h)) -> wp (new n) Q h.
Proof. intros HQ. eexists _, _. split; [done|]. apply HQ, fresh_loc_fresh. Qed.

Lemma wp_free l n (Q : unit -> gmap loc N -> Prop) h :
  h !! l = Some n -> Q tt (delete l h) -> wp (free (Some l)) Q h.
Proof. intros Hl HQ. exists tt, (delete l h). unfold free. by rewrite Hl. Qed.
End heap_programs.

Arguments M : clear implicits.

(** ** Arrays and loops

    An array that is filled from the front is the list of its initialised elements;
    reading beyond them, or filling it beyond its capacity, is an error. *)

Section arrays.
Context {N : Type}.

Definition array_get {A} (xs : list A) (i : nat) : M N A :=
  match xs !! i with Some x => mret x | None => fail BadPtr end.

Definition array_push {A} (cap : nat) (x : A) (xs : list A) : M N (list A) :=
  if (length xs <? cap)%nat then mret (xs ++ [x]) else fail BadPtr.

(** [std::swap(xs[i], xs[j])] *)
Definition swap {A} (i j : nat) (xs : list A) : M N (list A) :=
  x ← array_get xs i; y ← array_get xs j; mret (<[j := x]> (<[i := y]> xs)).

(** Unsigned division and remainder. *)
Definition u_div (x y : Z) : M N Z := if y =? 0 then fail DivZero else mret (x / y).
Definition u_mod (x y : Z) : M N Z := if y =? 0 then fail DivZero else mret (x mod y).

(** [for (size_t j = i; j < i + k; j++)] *)
Fixpoint for_loop {T} (i k : nat) (body : nat -> T -> M N T) (s : T) : M N T :=
  match k with
  | O => mret s
  | S k => s ← body i s; for_loop (S i) k body s
  end.

Lemma wp_array_get {A} (xs : list A) i x (Q : A -> gmap loc N -> Prop) h :
  xs !! i = Some x -> Q x h -> wp (array_get xs i) Q h.
Proof. intros Hx HQ. unfold array_get. rewrite Hx. by apply wp_ret. Qed.

Lemma wp_array_push {A} cap (x : A) xs (Q : list A -> gmap loc N -> Prop) h :
  (length xs < cap)%nat -> Q (xs ++ [x]) h -> wp (array_push cap x xs) Q h.
Proof. intros Hx HQ. unfold array_push. apply Nat.ltb_lt in Hx as ->. by apply wp_ret. Qed.

Lemma wp_array_swap {A} i j (xs : list A) (Q : list A -> gmap loc N -> Prop) h :
  (i < length xs)%nat -> (j < length xs)%nat -> (forall ys, ys ≡ₚ xs -> Q ys h) -> wp (swap i j xs) Q h.
Proof.
  intros [x Hx]%lookup_lt_is_Some [y Hy]%lookup_lt_is_Some HQ. unfold swap.
  apply wp_bind. eapply wp_array_get; [done|]. apply wp_bind. eapply wp_array_get; [done|].
  apply wp_ret, HQ. by apply Permutation_insert_swap.
Qed.

Lemma wp_u_div x y (Q : Z -> gmap loc N -> Prop) h : y <> 0 -> Q (x / y) h -> wp (u_div x y) Q h.
Proof. intros Hy HQ. unfold u_div. destruct (Z.eqb_spec y 0); [done|]. by apply wp_ret. Qed.

Lemma wp_u_mod x y (Q : Z -> gmap loc N -> Prop) h : y <> 0 -> Q (x mod y) h -> wp (u_mod x y) Q h.
Proof. intros Hy HQ. unfold u_mod. destruct (Z.eqb_spec y 0); [done|]. by apply wp_ret. Qed.

(** The rule of the loop: [I j] holds before the iteration [j]. *)
Lemma wp_for {T} (I : nat -> T -> gmap loc N -> Prop) i k (body : nat -> T -> M N T) (s : T) Q h :
  I i s h ->
  (forall j s h, (i <= j < i + k)%nat -> I j s h -> wp (body j s) (I (S j)) h) ->
  (forall s h, I (i + k)%nat s h -> Q s h) ->
  wp (for_loop i k body s) Q h.
Proof.
  revert i s h. induction k as [|k IH]; intros i s h HI Hb HQ; simpl.
  { apply wp_ret, HQ. by rewrite Nat.add_0_r. }
  apply wp_bind. eapply wp_mono; [|apply Hb; [lia|exact HI]]. intros s' h' HI'. apply IH; [done| |].
  - intros j s1 h1 Hj. apply Hb. lia.
  - intros s1 h1 H1. apply HQ. by rewrite Nat.add_succ_r.
Qed.
End arrays.

(** One symbolic-execution step of a heap program under [wp]. *)
Ltac wp_step :=
  lazymatch goal with
  | |- wp (mbind _ _) _ _ => apply wp_bind
  | |- wp (mret _) _ _ => apply wp_ret
  | |- wp (load _) _ _ => eapply wp_load; [eassumption|]
  | |- wp (store _ _) _ _ => eapply wp_store; [eassumption|]
  | |- wp (new _) _ _ => apply wp_new; intros ? ?
  | |- wp (free _) _ _ => eapply wp_free; [eassumption|]
  end.

(** Case analysis on the comparisons of integers the code branches on. *)
Ltac zcases :=
  repeat match goal with
  | |- context [?a <? ?b] => destruct (Z.ltb_spec a b)
  | |- context [?a =? ?b] => destruct (Z.eqb_spec a b)
  | |- context [?a <=? ?b] => destruct (Z.leb_spec a b)
  | H : context [?a <? ?b] |- _ => destruct (Z.ltb_spec a b)
  | H : context [?a =? ?b] |- _ => destruct (Z.eqb_spec a b)
  | H : context [?a <=? ?b] |- _ => destruct (Z.leb_spec a b)
  end.
