(* ===== verification/TreapTree.v ===== *)
(** * The treap as a value

    Functional counterparts of the persistent treap algorithms of
    [src/lib/treap]: the trees the pointer structures stand for, the operations
    on them, their well-formedness invariant and the abstract specification (a
    finite map from keys to counters).  The pointer programs of [TreapHeap] and
    the concurrent scheduler of [Scheduler] are proved to compute exactly these
    trees. *)

From S2P Require Import Prelude.

(** The versioned binary tree a [node_ptr] stands for: version, priority, key,
    value (the counter of the key) and the two subtrees. *)
Inductive tree :=
  | Leaf
  | Node (v : nat) (p k x : Z) (l r : tree).

#[global] Instance tree_eq_dec : EqDecision tree.
Proof. solve_decision. Defined.

(** What the treap needs from the hash function that draws priorities. *)
Class PerfectHash (hash : Z -> Z) : Prop := {
  hash_inj : forall j k, u64 j -> u64 k -> hash j = hash k -> j = k;
  hash_u64 : forall k, u64 (hash k);
}.

(** The identity on the 64-bit range, a hash function for examples. *)
#[global] Instance wrap64_perfect : PerfectHash wrap64.
Proof.
  split; [|apply wrap64_u64]. intros j k Hj Hk E. by rewrite !wrap64_small in E.
Qed.

(** ** Operations *)

Fixpoint t_split (ver : nat) (t : tree) (key : Z) : tree * tree :=
  match t with
  | Leaf => (Leaf, Leaf)
  | Node v p k x l r =>
      if key <? k then
        let '(tl, tr) := t_split ver l key in (tl, Node ver p k x tr r)
      else
        let '(tl, tr) := t_split ver r key in (Node ver p k x l tl, tr)
  end.

Definition t_deploy (ver : nat) (t : tree) (pry key : Z) : tree :=
  let '(tl, tr) := t_split ver t key in Node ver pry key 1 tl tr.

Fixpoint t_insert (ver : nat) (t : tree) (pry key : Z) : tree :=
  match t with
  | Leaf => Node ver pry key 1 Leaf Leaf
  | Node v p k x l r =>
      if pry <? p then
        if key <? k then Node ver p k x (t_insert ver l pry key) r
        else Node ver p k x l (t_insert ver r pry key)
      else if k =? key then Node ver p k (wrap64 (x + 1)) l r
      else t_deploy ver t pry key
  end.

Fixpoint t_concat (ver : nat) (tl : tree) : tree -> tree :=
  fix go (tr : tree) : tree :=
    match tl, tr with
    | Leaf, _ => tr
    | _, Leaf => tl
    | Node _ p1 k1 x1 l1 r1, Node _ p2 k2 x2 l2 r2 =>
        if p2 <? p1 then Node ver p1 k1 x1 l1 (t_concat ver r1 tr)
        else Node ver p2 k2 x2 (go l2) r2
    end.

Fixpoint t_delete (ver : nat) (t : tree) (pry key : Z) : tree :=
  match t with
  | Leaf => Leaf
  | Node v p k x l r =>
      if pry <? p then
        if key <? k then Node ver p k x (t_delete ver l pry key) r
        else Node ver p k x l (t_delete ver r pry key)
      else if k =? key then
        if x =? 1 then t_concat ver l r
        else Node ver p k (wrap64 (x - 1)) l r
      else t
  end.

Fixpoint t_lookup (t : tree) (key : Z) : option Z :=
  match t with
  | Leaf => None
  | Node _ _ k x l r =>
      if key =? k then Some x
      else if key <? k then t_lookup l key else t_lookup r key
  end.

(** The sum of all counters, and of those in a key range (not yet wrapped). *)
Fixpoint t_sum (t : tree) : Z :=
  match t with
  | Leaf => 0
  | Node _ _ _ x l r => t_sum l + x + t_sum r
  end.

Definition in_range (lo hi k : Z) : bool := (lo <=? k) && (k <=? hi).

Fixpoint t_range_sum (lo hi : Z) (t : tree) : Z :=
  match t with
  | Leaf => 0
  | Node _ _ k x l r =>
      t_range_sum lo hi l + (if in_range lo hi k then x else 0) + t_range_sum lo hi r
  end.

Fixpoint size (t : tree) : nat :=
  match t with Leaf => O | Node _ _ _ _ l r => S (size l + size r) end.

Fixpoint height (t : tree) : nat :=
  match t with Leaf => O | Node _ _ _ _ l r => S (height l `max` height r) end.

(** ** Abstract specification: a finite map from keys to counters *)

Abbreviation bag := (gmap Z Z).

Definition bag_insert (key : Z) (m : bag) : bag :=
  <[key := wrap64 (default 0 (m !! key) + 1)]> m.

Definition bag_delete (key : Z) (m : bag) : bag :=
  match m !! key with
  | None => m
  | Some x => if x =? 1 then delete key m else <[key := wrap64 (x - 1)]> m
  end.

Definition bag_range_sum (lo hi : Z) (m : bag) : Z :=
  map_fold (fun k x s => (if in_range lo hi k then x else 0) + s) 0 m.

Fixpoint to_bag (t : tree) : bag :=
  match t with
  | Leaf => ∅
  | Node _ _ k x l r => <[k := x]> (to_bag l ∪ to_bag r)
  end.

(** ** Invariants *)

Fixpoint all_keys (P : Z -> Prop) (t : tree) : Prop :=
  match t with
  | Leaf => True
  | Node _ _ k _ l r => P k /\ all_keys P l /\ all_keys P r
  end.

(** Every version in the tree is at most [v]. *)
Fixpoint vers_le (v : nat) (t : tree) : Prop :=
  match t with
  | Leaf => True
  | Node w _ _ _ l r => (w <= v)%nat /\ vers_le v l /\ vers_le v r
  end.

(** Versions do not increase from a node to its children. *)
Fixpoint vers_mono (t : tree) : Prop :=
  match t with
  | Leaf => True
  | Node w _ _ _ l r => vers_le w l /\ vers_le w r /\ vers_mono l /\ vers_mono r
  end.

Section wf.
Context (hash : Z -> Z).

(** Search-tree order on keys, strict heap order on priorities, priorities
    drawn by [hash], counters and keys in the 64-bit range. *)
Fixpoint wf (t : tree) : Prop :=
  match t with
  | Leaf => True
  | Node _ p k x l r =>
      p = hash k /\ u64 k /\ u64 x /\
      all_keys (fun j => j < k /\ hash j < p) l /\
      all_keys (fun j => k < j /\ hash j < p) r /\
      wf l /\ wf r
  end.
End wf.

(** ** Generic lemmas *)

Lemma all_keys_impl (P Q : Z -> Prop) t :
  (forall k, P k -> Q k) -> all_keys P t -> all_keys Q t.
Proof. intros HPQ. induction t; naive_solver. Qed.

Lemma all_keys_and (P Q : Z -> Prop) t :
  all_keys (fun k => P k /\ Q k) t <-> all_keys P t /\ all_keys Q t.
Proof. induction t; naive_solver. Qed.

Lemma all_keys_lookup P t k x : all_keys P t -> t_lookup t k = Some x -> P k.
Proof.
  induction t as [|v p k' x' l IHl r IHr]; simpl; [done|].
  intros (Hk & Hl & Hr) H. zcases; subst; naive_solver.
Qed.

Lemma all_keys_notin (P : Z -> Prop) t k : all_keys P t -> ~ P k -> t_lookup t k = None.
Proof.
  intros HP Hk. destruct (t_lookup t k) eqn:E; [|done].
  by destruct Hk; eapply all_keys_lookup.
Qed.

Lemma vers_le_trans v w t : (v <= w)%nat -> vers_le v t -> vers_le w t.
Proof. intros Hvw. induction t; simpl; [done|]. intuition lia. Qed.

Create HintDb treap.
#[export] Hint Resolve all_keys_impl vers_le_trans : treap.

Lemma to_bag_lookup hash t k : wf hash t -> to_bag t !! k = t_lookup t k.
Proof.
  revert k. induction t as [|v p k' x l IHl r IHr]; simpl; intros k.
  { by rewrite lookup_empty. }
  intros (_ & _ & _ & Hl & Hr & Wl & Wr).
  destruct (decide (k' = k)) as [->|Hne].
  { by rewrite lookup_insert_eq, Z.eqb_refl. }
  rewrite lookup_insert_ne by done.
  destruct (Z.eqb_spec k k'); [congruence|].
  rewrite lookup_union, IHl, IHr by done. destruct (Z.ltb_spec k k').
  - rewrite (all_keys_notin _ _ _ Hr) by lia. by destruct (t_lookup l k).
  - rewrite (all_keys_notin _ _ _ Hl) by lia. by destruct (t_lookup r k).
Qed.

Lemma bag_range_sum_tree hash lo hi t :
  wf hash t -> bag_range_sum lo hi (to_bag t) = t_range_sum lo hi t.
Proof.
  unfold bag_range_sum.
  induction t as [|v p k x l IHl r IHr]; simpl; [done|].
  intros W. assert (W' := W). destruct W' as (_ & _ & _ & Hl & Hr & Wl & Wr).
  assert (to_bag l ##ₘ to_bag r) as Hdisj.
  { intros j. rewrite !(to_bag_lookup hash) by done.
    destruct (t_lookup l j) eqn:El, (t_lookup r j) eqn:Er; simpl; try done.
    apply (all_keys_lookup _ _ _ _ Hl) in El. apply (all_keys_lookup _ _ _ _ Hr) in Er. lia. }
  assert ((to_bag l ∪ to_bag r) !! k = None) as Hk.
  { rewrite lookup_union, !(to_bag_lookup hash) by done.
    rewrite (all_keys_notin _ _ _ Hl), (all_keys_notin _ _ _ Hr) by lia. done. }
  rewrite map_fold_insert_L; [|intros; lia|done].
  rewrite map_fold_disj_union; [|done|intros; lia].
  assert (forall m a, map_fold (fun k x s => (if in_range lo hi k then x else 0) + s) a m
    = a + map_fold (fun k x s => (if in_range lo hi k then x else 0) + s) 0 (m : bag)) as Hshift.
  { intros m a. induction m as [|j y m Hj IH] using map_ind.
    - rewrite !map_fold_empty. lia.
    - rewrite !map_fold_insert_L by (done || (intros; lia)). rewrite IH. lia. }
  rewrite Hshift, IHl, IHr by done. lia.
Qed.

(** ** Equations of [t_concat], and its induction principle *)

Lemma t_concat_leaf_l ver t : t_concat ver Leaf t = t.
Proof. by destruct t. Qed.

Lemma t_concat_leaf_r ver t : t_concat ver t Leaf = t.
Proof. by destruct t. Qed.

Lemma t_concat_node ver v1 p1 k1 x1 l1 r1 v2 p2 k2 x2 l2 r2 :
  t_concat ver (Node v1 p1 k1 x1 l1 r1) (Node v2 p2 k2 x2 l2 r2) =
    if p2 <? p1
    then Node ver p1 k1 x1 l1 (t_concat ver r1 (Node v2 p2 k2 x2 l2 r2))
    else Node ver p2 k2 x2 (t_concat ver (Node v1 p1 k1 x1 l1 r1) l2) r2.
Proof. done. Qed.

#[global] Arguments t_concat : simpl never.

Lemma t_concat_ind ver (P : tree -> tree -> tree -> Prop) :
  (forall t, P Leaf t t) ->
  (forall t, P t Leaf t) ->
  (forall v1 p1 k1 x1 l1 r1 v2 p2 k2 x2 l2 r2,
     p2 < p1 ->
     P r1 (Node v2 p2 k2 x2 l2 r2) (t_concat ver r1 (Node v2 p2 k2 x2 l2 r2)) ->
     P (Node v1 p1 k1 x1 l1 r1) (Node v2 p2 k2 x2 l2 r2)
       (Node ver p1 k1 x1 l1 (t_concat ver r1 (Node v2 p2 k2 x2 l2 r2)))) ->
  (forall v1 p1 k1 x1 l1 r1 v2 p2 k2 x2 l2 r2,
     p1 <= p2 ->
     P (Node v1 p1 k1 x1 l1 r1) l2 (t_concat ver (Node v1 p1 k1 x1 l1 r1) l2) ->
     P (Node v1 p1 k1 x1 l1 r1) (Node v2 p2 k2 x2 l2 r2)
       (Node ver p2 k2 x2 (t_concat ver (Node v1 p1 k1 x1 l1 r1) l2) r2)) ->
  forall tl tr, P tl tr (t_concat ver tl tr).
Proof.
  intros HL HR H1 H2 tl. induction tl as [|v1 p1 k1 x1 l1 _ r1 IHr].
  { intros tr. rewrite t_concat_leaf_l. apply HL. }
  intros tr. induction tr as [|v2 p2 k2 x2 l2 IHl r2 _].
  { rewrite t_concat_leaf_r. apply HR. }
  rewrite t_concat_node. destruct (Z.ltb_spec p2 p1); auto.
Qed.

(** ** Versions *)

Lemma t_split_vers ver t key w :
  vers_le w t -> (ver <= w)%nat ->
  vers_le w (t_split ver t key).1 /\ vers_le w (t_split ver t key).2.
Proof.
  intros Ht Hw. induction t as [|v p k x l IHl r IHr]; simpl in *; [done|].
  destruct Ht as (Hv & Hl & Hr). specialize (IHl Hl). specialize (IHr Hr).
  zcases; [destruct (t_split ver l key) | destruct (t_split ver r key)]; simpl in *; tauto.
Qed.

Lemma t_concat_vers ver tl tr w :
  vers_le w tl -> vers_le w tr -> (ver <= w)%nat -> vers_le w (t_concat ver tl tr).
Proof.
  apply (t_concat_ind ver
    (fun tl tr t => vers_le w tl -> vers_le w tr -> (ver <= w)%nat -> vers_le w t));
    simpl; tauto.
Qed.

Lemma t_insert_vers ver t pry key w :
  vers_le w t -> (ver <= w)%nat -> vers_le w (t_insert ver t pry key).
Proof.
  intros Ht Hw. induction t as [|v p k x l IHl r IHr]; simpl; [done|].
  pose proof (t_split_vers ver (Node v p k x l r) key w Ht Hw) as [H1 H2].
  destruct Ht as (Hv & Hl & Hr). specialize (IHl Hl). specialize (IHr Hr).
  destruct (pry <? p); [destruct (key <? k); simpl; tauto|].
  destruct (k =? key); [simpl; tauto|].
  unfold t_deploy. destruct (t_split ver (Node v p k x l r) key); simpl in *; tauto.
Qed.

Lemma t_delete_vers ver t pry key w :
  vers_le w t -> (ver <= w)%nat -> vers_le w (t_delete ver t pry key).
Proof.
  intros Ht Hw. induction t as [|v p k x l IHl r IHr]; simpl; [done|].
  destruct Ht as (Hv & Hl & Hr). specialize (IHl Hl). specialize (IHr Hr).
  zcases; simpl; intuition auto using t_concat_vers.
Qed.

Lemma t_split_mono ver t key :
  vers_mono t -> vers_le ver t ->
  vers_mono (t_split ver t key).1 /\ vers_mono (t_split ver t key).2.
Proof.
  intros Hm Ht. induction t as [|v p k x l IHl r IHr]; simpl in *; [done|].
  destruct Ht as (Hv & Hl & Hr), Hm as (Ml & Mr & Hml & Hmr).
  specialize (IHl Hml Hl). specialize (IHr Hmr Hr).
  pose proof (t_split_vers ver l key ver Hl (le_n _)).
  pose proof (t_split_vers ver r key ver Hr (le_n _)).
  zcases; [destruct (t_split ver l key) | destruct (t_split ver r key)]; simpl in *; tauto.
Qed.

Lemma t_concat_mono ver tl tr :
  vers_mono tl -> vers_mono tr -> vers_le ver tl -> vers_le ver tr ->
  vers_mono (t_concat ver tl tr).
Proof.
  apply (t_concat_ind ver (fun tl tr t =>
    vers_mono tl -> vers_mono tr -> vers_le ver tl -> vers_le ver tr -> vers_mono t));
    try done; intros * _ IH Ml Mr Hl Hr; cbn [vers_mono vers_le] in *; split_and!;
    try tauto; try (apply IH; simpl; tauto); apply t_concat_vers; simpl; intuition lia.
Qed.

Lemma t_insert_mono ver t pry key :
  vers_mono t -> vers_le ver t -> vers_mono (t_insert ver t pry key).
Proof.
  intros Hm Ht. induction t as [|v p k x l IHl r IHr]; simpl; [done|].
  pose proof (t_split_vers ver (Node v p k x l r) key ver Ht (le_n _)) as [H1 H2].
  pose proof (t_split_mono ver (Node v p k x l r) key Hm Ht) as [H3 H4].
  destruct Ht as (Hv & Hl & Hr), Hm as (Ml & Mr & Hml & Hmr).
  pose proof (t_insert_vers ver l pry key ver Hl (le_n _)).
  pose proof (t_insert_vers ver r pry key ver Hr (le_n _)).
  destruct (pry <? p); [destruct (key <? k); simpl; tauto|].
  destruct (k =? key); [simpl; tauto|].
  unfold t_deploy. destruct (t_split ver (Node v p k x l r) key); simpl in *; tauto.
Qed.

Lemma t_delete_mono ver t pry key :
  vers_mono t -> vers_le ver t -> vers_mono (t_delete ver t pry key).
Proof.
  intros Hm Ht. induction t as [|v p k x l IHl r IHr]; simpl; [done|].
  destruct Ht as (Hv & Hl & Hr), Hm as (Ml & Mr & Hml & Hmr).
  pose proof (t_delete_vers ver l pry key ver Hl (le_n _)).
  pose proof (t_delete_vers ver r pry key ver Hr (le_n _)).
  zcases; simpl; intuition auto using t_concat_mono.
Qed.

(** ** Sizes: an update adds at most one node *)

Lemma t_split_size ver t key :
  (size (t_split ver t key).1 + size (t_split ver t key).2 = size t)%nat.
Proof.
  induction t as [|v p k x l IHl r IHr]; simpl; [done|].
  zcases; [destruct (t_split ver l key) | destruct (t_split ver r key)]; simpl in *; lia.
Qed.

Lemma t_concat_size ver tl tr : size (t_concat ver tl tr) = (size tl + size tr)%nat.
Proof.
  apply (t_concat_ind ver (fun tl tr t => size t = (size tl + size tr)%nat));
    intros; simpl in *; lia.
Qed.

Lemma t_insert_size ver t pry key : (size (t_insert ver t pry key) <= S (size t))%nat.
Proof.
  induction t as [|v p k x l IHl r IHr]; simpl; [done|].
  pose proof (t_split_size ver (Node v p k x l r) key) as H.
  unfold t_deploy. destruct (t_split ver (Node v p k x l r) key).
  destruct (pry <? p), (key <? k), (k =? key); simpl in *; lia.
Qed.

Lemma t_delete_size ver t pry key : (size (t_delete ver t pry key) <= size t)%nat.
Proof.
  induction t as [|v p k x l IHl r IHr]; simpl; [done|].
  pose proof (t_concat_size ver l r). zcases; simpl; lia.
Qed.

(** ** Functional correctness of the operations *)

Section correctness.
Context {hash : Z -> Z} `{HPH : !PerfectHash hash}.
Implicit Types (t tl tr : tree).

Lemma t_split_all P ver t key :
  all_keys P t ->
  all_keys P (t_split ver t key).1 /\ all_keys P (t_split ver t key).2.
Proof.
  induction t as [|v p k x l IHl r IHr]; simpl; [done|]. intros (Hk & Hl & Hr).
  specialize (IHl Hl). specialize (IHr Hr).
  zcases; [destruct (t_split ver l key) | destruct (t_split ver r key)]; simpl in *; tauto.
Qed.

(** Splitting at [key]: the left part holds the keys up to [key], the right
    part the keys above it, and both are treaps. *)
Lemma t_split_spec ver t key tl tr :
  t_split ver t key = (tl, tr) -> wf hash t ->
  wf hash tl /\ wf hash tr /\ all_keys (fun j => j <= key) tl /\
  all_keys (fun j => key < j) tr /\
  forall j, t_lookup t j = if j <=? key then t_lookup tl j else t_lookup tr j.
Proof.
  revert tl tr. induction t as [|v p k x l IHl r IHr]; simpl; intros tl tr.
  { intros [= <- <-] _. split_and!; try done. intros j. by destruct (j <=? key). }
  intros Hs (Hp & Uk & Ux & Hl & Hr & Wl & Wr).
  destruct (Z.ltb_spec key k).
  - pose proof (t_split_all _ ver l key Hl) as [Hl1 Hl2].
    destruct (t_split ver l key) as [a b]. injection Hs as <- <-. simpl in *.
    destruct (IHl _ _ eq_refl Wl) as (Wa & Wb & Ha & Hb & Hlk).
    split_and!; try done.
    + eapply all_keys_impl; [|exact Hr]. simpl; intros; lia.
    + intros j. rewrite Hlk. zcases; try lia; auto.
  - pose proof (t_split_all _ ver r key Hr) as [Hr1 Hr2].
    destruct (t_split ver r key) as [a b]. injection Hs as <- <-. simpl in *.
    destruct (IHr _ _ eq_refl Wr) as (Wa & Wb & Ha & Hb & Hlk).
    split_and!; try done.
    + eapply all_keys_impl; [|exact Hl]. simpl; intros; lia.
    + intros j. rewrite Hlk. zcases; try lia; auto.
Qed.

Lemma wf_absent t key :
  wf hash t -> t_lookup t key = None -> all_keys (fun j => j <> key) t.
Proof.
  induction t as [|v p k x l IHl r IHr]; simpl; [done|].
  intros (_ & _ & _ & Hl & Hr & Wl & Wr) H. zcases; try done.
  - split_and!; [lia|auto|]. eapply all_keys_impl; [|exact Hr]. simpl; intros; lia.
  - split_and!; [lia| |auto]. eapply all_keys_impl; [|exact Hl]. simpl; intros; lia.
Qed.

Lemma t_insert_all P ver t pry key :
  all_keys P t -> P key -> all_keys P (t_insert ver t pry key).
Proof.
  intros Ht Hk. induction t as [|v p k x l IHl r IHr]; simpl; [done|].
  pose proof (t_split_all P ver _ key Ht) as Hsplit. destruct Ht as (Hk' & Hl & Hr).
  destruct (pry <? p); [destruct (key <? k); simpl; tauto|].
  destruct (k =? key); [simpl; tauto|].
  unfold t_deploy. destruct (t_split ver (Node v p k x l r) key); simpl in *; tauto.
Qed.

Lemma t_lookup_deploy_notin v p k x l r key :
  wf hash (Node v p k x l r) -> u64 key -> p <= hash key -> k <> key ->
  p < hash key /\ t_lookup (Node v p k x l r) key = None.
Proof.
  intros (-> & Uk & Ux & Hl & Hr & Wl & Wr) U Hp Hne.
  assert (hash k <> hash key) as Hh by (intros E; by apply (hash_inj k key) in E).
  split; [lia|]. simpl. zcases; try congruence.
  - apply (all_keys_notin _ _ _ Hl). lia.
  - apply (all_keys_notin _ _ _ Hr). lia.
Qed.

Lemma t_insert_spec ver t key :
  wf hash t -> u64 key ->
  wf hash (t_insert ver t (hash key) key) /\
  forall j, t_lookup (t_insert ver t (hash key) key) j =
    if j =? key then Some (wrap64 (default 0 (t_lookup t key) + 1)) else t_lookup t j.
Proof.
  intros W U. induction t as [|v p k x l IHl r IHr].
  { simpl. split; [split_and!; done|]. intros j. by destruct (j =? key), (j <? key). }
  assert (W' := W). destruct W' as (Hp & Uk & Ux & Hl & Hr & Wl & Wr).
  specialize (IHl Wl). specialize (IHr Wr). destruct IHl as [IWl ILl], IHr as [IWr ILr].
  cbn [t_insert]. destruct (Z.ltb_spec (hash key) p) as [Hlt|Hge].
  - assert (key <> k) by (intros ->; lia). destruct (Z.ltb_spec key k); split.
    + simpl. split_and!; try done. by apply t_insert_all.
    + intros j. simpl. rewrite ILl. zcases; try lia; congruence.
    + simpl. split_and!; try done. apply t_insert_all; [done|lia].
    + intros j. simpl. rewrite ILr. zcases; try lia; congruence.
  - destruct (Z.eqb_spec k key) as [->|Hne].
    + split; [simpl; split_and!; auto with u64|].
      intros j. simpl. rewrite Z.eqb_refl. by destruct (j =? key).
    + destruct (t_lookup_deploy_notin _ _ _ _ _ _ _ W U Hge Hne) as [Hgt Hnone].
      unfold t_deploy. destruct (t_split ver (Node v p k x l r) key) as [a b] eqn:E.
      destruct (t_split_spec _ _ _ _ _ E W) as (Wa & Wb & Ha & Hb & Hlk).
      assert (all_keys (fun j => hash j < hash key) (Node v p k x l r)) as Hheap.
      { simpl. split_and!; [by rewrite <- Hp| |];
          (eapply all_keys_impl; [|eassumption]); simpl; intros; lia. }
      apply (t_split_all _ ver _ key) in Hheap. rewrite E in Hheap.
      destruct Hheap as [Hpa Hpb]. split.
      * simpl. split_and!; try done.
        -- apply all_keys_and. split; [|done].
           assert (all_keys (fun j => j <> key) a) as Hnk.
           { pose proof (t_split_all _ ver _ key (wf_absent _ _ W Hnone)) as H.
             rewrite E in H. apply H. }
           eapply all_keys_impl; [|apply all_keys_and; split; [exact Ha|exact Hnk]].
           simpl; intros; lia.
        -- by apply all_keys_and.
      * intros j. rewrite Hnone, Hlk. simpl. zcases; first [lia|done|congruence].
Qed.

Lemma t_concat_all P ver tl tr :
  all_keys P tl -> all_keys P tr -> all_keys P (t_concat ver tl tr).
Proof.
  apply (t_concat_ind ver (fun tl tr t => all_keys P tl -> all_keys P tr -> all_keys P t));
    simpl; tauto.
Qed.

(** Joining two treaps separated by a pivot. *)
Lemma t_concat_spec ver m tl tr :
  wf hash tl -> wf hash tr ->
  all_keys (fun j => j < m) tl -> all_keys (fun j => m < j) tr ->
  wf hash (t_concat ver tl tr) /\
  forall j, t_lookup (t_concat ver tl tr) j =
    if j <? m then t_lookup tl j else t_lookup tr j.
Proof.
  apply (t_concat_ind ver (fun tl tr t =>
    wf hash tl -> wf hash tr ->
    all_keys (fun j => j < m) tl -> all_keys (fun j => m < j) tr ->
    wf hash t /\ forall j, t_lookup t j = if j <? m then t_lookup tl j else t_lookup tr j)).
  - intros t _ W _ H. split; [done|]. intros j. simpl. destruct (Z.ltb_spec j m); [|done].
    apply (all_keys_notin _ _ _ H). lia.
  - intros t W _ H _. split; [done|]. intros j. simpl. destruct (Z.ltb_spec j m); [done|].
    apply (all_keys_notin _ _ _ H). lia.
  - intros * Hlt IH W1 W2 B1 B2.
    assert (W1' := W1). destruct W1' as (-> & Uk & Ux & Hl & Hr & Wl & Wr).
    assert (W2' := W2). destruct W2' as (-> & Uk2 & Ux2 & Hl2 & Hr2 & Wl2 & Wr2).
    assert (B1' := B1). destruct B1' as (Bk & Bl & Br).
    assert (B2' := B2). destruct B2' as (Bk2 & Bl2 & Br2).
    destruct (IH Wr W2 Br B2) as [IW IL]. split.
    + cbn [wf]. split_and!; try done. apply t_concat_all; [done|].
      cbn [all_keys]. split_and!; try lia.
      * eapply all_keys_impl; [|apply all_keys_and; split; [exact Hl2|exact Bl2]].
        simpl; intros; lia.
      * eapply all_keys_impl; [|exact Hr2]. simpl; intros; lia.
    + intros j. cbn [t_lookup]. rewrite IL. cbn [t_lookup]. zcases; try lia; try done.
  - intros * Hle IH W1 W2 B1 B2.
    assert (W1' := W1). destruct W1' as (-> & Uk & Ux & Hl & Hr & Wl & Wr).
    assert (W2' := W2). destruct W2' as (-> & Uk2 & Ux2 & Hl2 & Hr2 & Wl2 & Wr2).
    assert (B1' := B1). destruct B1' as (Bk & Bl & Br).
    assert (B2' := B2). destruct B2' as (Bk2 & Bl2 & Br2).
    assert (hash k1 <> hash k2).
    { intros E. apply hash_inj in E; [lia|done|done]. }
    destruct (IH W1 Wl2 B1 Bl2) as [IW IL]. split.
    + cbn [wf]. split_and!; try done. apply t_concat_all; [|done].
      cbn [all_keys]. split_and!; try lia.
      * eapply all_keys_impl; [|exact Hl]. simpl; intros; lia.
      * eapply all_keys_impl; [|apply all_keys_and; split; [exact Hr|exact Br]].
        simpl; intros; lia.
    + intros j. cbn [t_lookup]. rewrite IL. cbn [t_lookup]. zcases; try lia; try done.
Qed.

Lemma t_delete_all P ver t pry key :
  all_keys P t -> all_keys P (t_delete ver t pry key).
Proof.
  induction t as [|v p k x l IHl r IHr]; simpl; [done|]. intros (Hk & Hl & Hr).
  zcases; simpl; intuition auto using t_concat_all.
Qed.

Lemma t_delete_spec ver t key :
  wf hash t -> u64 key ->
  wf hash (t_delete ver t (hash key) key) /\
  forall j, t_lookup (t_delete ver t (hash key) key) j =
    if j =? key then
      match t_lookup t key with
      | Some x => if x =? 1 then None else Some (wrap64 (x - 1))
      | None => None
      end
    else t_lookup t j.
Proof.
  intros W U. induction t as [|v p k x l IHl r IHr].
  { simpl. split; [done|]. intros j. by destruct (j =? key). }
  assert (W' := W). destruct W' as (Hp & Uk & Ux & Hl & Hr & Wl & Wr).
  specialize (IHl Wl). specialize (IHr Wr). destruct IHl as [IWl ILl], IHr as [IWr ILr].
  cbn [t_delete]. destruct (Z.ltb_spec (hash key) p) as [Hlt|Hge].
  - assert (key <> k) by (intros ->; lia). destruct (Z.ltb_spec key k); split.
    + simpl. split_and!; try done. by apply t_delete_all.
    + intros j. simpl. rewrite ILl. zcases; try lia; congruence.
    + simpl. split_and!; try done. by apply t_delete_all.
    + intros j. simpl. rewrite ILr. zcases; try lia; congruence.
  - destruct (Z.eqb_spec k key) as [->|Hne].
    + destruct (Z.eqb_spec x 1) as [->|Hx1].
      * destruct (t_concat_spec ver key l r Wl Wr) as [Wc Lc].
        { eapply all_keys_impl; [|exact Hl]. simpl; intros; lia. }
        { eapply all_keys_impl; [|exact Hr]. simpl; intros; lia. }
        split; [done|]. intros j. rewrite Lc. simpl. rewrite Z.eqb_refl.
        destruct (Z.eqb_spec j key) as [->|]; simpl; [|done].
        rewrite Z.ltb_irrefl. apply (all_keys_notin _ _ _ Hr). lia.
      * split; [simpl; split_and!; auto with u64|]. intros j. simpl. rewrite Z.eqb_refl.
        destruct (Z.eqb_spec x 1); [done|]. by destruct (j =? key).
    + destruct (t_lookup_deploy_notin _ _ _ _ _ _ _ W U Hge Hne) as [Hgt Hnone].
      split; [done|]. intros j. rewrite Hnone.
      destruct (Z.eqb_spec j key) as [->|]; done.
Qed.

Lemma to_bag_wf_lookup t k : wf hash t -> to_bag t !! k = t_lookup t k.
Proof. apply to_bag_lookup. Qed.

Lemma t_insert_wf ver t key :
  wf hash t -> u64 key -> wf hash (t_insert ver t (hash key) key).
Proof. intros W U. by apply t_insert_spec. Qed.

Lemma t_delete_wf ver t key :
  wf hash t -> u64 key -> wf hash (t_delete ver t (hash key) key).
Proof. intros W U. by apply t_delete_spec. Qed.

Lemma t_insert_bag ver t key :
  wf hash t -> u64 key ->
  to_bag (t_insert ver t (hash key) key) = bag_insert key (to_bag t).
Proof.
  intros W U. destruct (t_insert_spec ver t key W U) as [W' L].
  apply map_eq. intros j. unfold bag_insert.
  rewrite !to_bag_wf_lookup, L, lookup_insert, to_bag_wf_lookup by done.
  destruct (Z.eqb_spec j key), (decide (key = j)); congruence.
Qed.

Lemma t_delete_bag ver t key :
  wf hash t -> u64 key ->
  to_bag (t_delete ver t (hash key) key) = bag_delete key (to_bag t).
Proof.
  intros W U. destruct (t_delete_spec ver t key W U) as [W' L].
  apply map_eq. intros j. unfold bag_delete.
  rewrite !to_bag_wf_lookup, L by done.
  destruct (t_lookup t key) as [x|] eqn:E; [destruct (x =? 1)|];
    destruct (Z.eqb_spec j key) as [->|Hne].
  - by rewrite lookup_delete_eq.
  - by rewrite lookup_delete_ne, to_bag_wf_lookup.
  - by rewrite lookup_insert_eq.
  - by rewrite lookup_insert_ne, to_bag_wf_lookup.
  - by rewrite to_bag_wf_lookup.
  - by rewrite to_bag_wf_lookup.
Qed.

(** A treap is determined by its contents: forgetting versions, two treaps
    with the same counters are the same tree. *)
Fixpoint strip (t : tree) : tree :=
  match t with
  | Leaf => Leaf
  | Node _ p k x l r => Node O p k x (strip l) (strip r)
  end.

Lemma lookup_root_below v p k x l r j y :
  wf hash (Node v p k x l r) -> t_lookup (Node v p k x l r) j = Some y -> j <> k ->
  hash j < p.
Proof.
  intros (_ & _ & _ & Hl & Hr & _ & _) H Hne. simpl in H. zcases; try congruence.
  - apply (all_keys_lookup _ _ _ _ Hl) in H. lia.
  - apply (all_keys_lookup _ _ _ _ Hr) in H. lia.
Qed.

Lemma t_lookup_root v p k x l r : t_lookup (Node v p k x l r) k = Some x.
Proof. simpl. by rewrite Z.eqb_refl. Qed.

Lemma t_lookup_left v p k x l r j :
  wf hash (Node v p k x l r) ->
  t_lookup l j = if j <? k then t_lookup (Node v p k x l r) j else None.
Proof.
  intros (_ & _ & _ & Hl & _). simpl. zcases; try done; try lia;
    apply (all_keys_notin _ _ _ Hl); lia.
Qed.

Lemma t_lookup_right v p k x l r j :
  wf hash (Node v p k x l r) ->
  t_lookup r j = if k <? j then t_lookup (Node v p k x l r) j else None.
Proof.
  intros (_ & _ & _ & _ & Hr & _). simpl. zcases; try done; try lia;
    apply (all_keys_notin _ _ _ Hr); lia.
Qed.

Lemma treap_unique t1 t2 :
  wf hash t1 -> wf hash t2 -> (forall j, t_lookup t1 j = t_lookup t2 j) ->
  strip t1 = strip t2.
Proof.
  revert t2. induction t1 as [|v p k x l IHl r IHr]; intros [|v' p' k' x' l' r'] W1 W2 HL.
  - done.
  - specialize (HL k'). by rewrite t_lookup_root in HL.
  - specialize (HL k). by rewrite t_lookup_root in HL.
  - assert (k = k') as <-.
    { destruct (decide (k = k')) as [|Hne]; [done|exfalso].
      pose proof (HL k) as H1. rewrite t_lookup_root in H1.
      pose proof (HL k') as H2. rewrite t_lookup_root in H2. symmetry in H1.
      apply lookup_root_below in H1; [|done|done]. apply lookup_root_below in H2; [|done|done].
      destruct W1 as (-> & _), W2 as (-> & _). lia. }
    pose proof (HL k) as Hx. rewrite !t_lookup_root in Hx. injection Hx as <-.
    assert (strip l = strip l') as El.
    { apply IHl; [apply W1|apply W2|]. intros j.
      by rewrite (t_lookup_left _ _ _ _ _ _ j W1), (t_lookup_left _ _ _ _ _ _ j W2), HL. }
    assert (strip r = strip r') as Er.
    { apply IHr; [apply W1|apply W2|]. intros j.
      by rewrite (t_lookup_right _ _ _ _ _ _ j W1), (t_lookup_right _ _ _ _ _ _ j W2), HL. }
    destruct W1 as (-> & _), W2 as (-> & _). simpl. by rewrite El, Er.
Qed.

Lemma treap_unique_bag t1 t2 :
  wf hash t1 -> wf hash t2 -> to_bag t1 = to_bag t2 -> strip t1 = strip t2.
Proof.
  intros W1 W2 E. apply treap_unique; [done|done|]. intros j.
  by rewrite <- !to_bag_wf_lookup, E by done.
Qed.
End correctness.

(** ** Range queries *)

Inductive range_cover := OPEN_OPEN | OPEN_CLOSE | CLOSE_OPEN | CLOSE_CLOSE.

#[global] Instance range_cover_eq_dec : EqDecision range_cover.
Proof. solve_decision. Defined.

(** The bounds [lo <= k], [k <= hi] that the search has already established when
    it is called with a cover. *)
Definition cover_ok (lo hi : Z) (d : range_cover) (k : Z) : Prop :=
  match d with
  | OPEN_OPEN => True
  | OPEN_CLOSE => k <= hi
  | CLOSE_OPEN => lo <= k
  | CLOSE_CLOSE => lo <= k <= hi
  end.

Lemma t_range_sum_none lo hi t :
  all_keys (fun k => in_range lo hi k = false) t -> t_range_sum lo hi t = 0.
Proof. induction t as [|v p k x l IHl r IHr]; simpl; [done|]. intros (-> & Hl & Hr). rewrite IHl, IHr by done. lia. Qed.

Lemma t_range_sum_all lo hi t :
  all_keys (fun k => lo <= k <= hi) t -> t_range_sum lo hi t = t_sum t.
Proof.
  induction t as [|v p k x l IHl r IHr]; simpl; [done|]. intros (Hk & Hl & Hr).
  rewrite IHl, IHr by done. unfold in_range. zcases; simpl; lia.
Qed.
