(* ===== verification/AesHash.v ===== *)
(** * The hash that draws priorities

    [src/lib/aes_hash.hpp].  The class mixes an integer with one or two rounds of
    the [aesenc] instruction under random keys.  The instruction itself is a
    parameter, assumed to behave as documented (FIPS-197: SubBytes, ShiftRows,
    MixColumns, then the exclusive or with the key).  The comment of the source
    calls the result a perfect hash; the theorems show that every width is
    injective, and that [hash64] has the two properties the treap relies on
    ([PerfectHash]). *)

From Stdlib Require Import Btauto.
From S2P Require Import Prelude TreapTree.

(** ** Bytes and registers *)

Definition is_byte (b : Z) : Prop := 0 <= b < 256.

#[global] Instance is_byte_dec b : Decision (is_byte b).
Proof. unfold is_byte. apply _. Defined.

(** The little-endian bytes of an integer, and back. *)
Fixpoint bytes_of (n : nat) (x : Z) : list Z :=
  match n with O => [] | S n => x mod 256 :: bytes_of n (x / 256) end.

Fixpoint le_value (l : list Z) : Z :=
  match l with [] => 0 | b :: l => b + 256 * le_value l end.

(** [_mm_set1_epi64x], [_mm_set1_epi32], [_mm_set1_epi16], [_mm_set1_epi8]: a
    register (16 bytes, the lowest first) filled with copies of an integer. *)
Definition set1 (width : nat) (x : Z) : list Z :=
  mjoin (replicate (16 / width) (bytes_of width x)).

(** Reading the low [width] bytes of a register as an integer. *)
Definition low (width : nat) (r : list Z) : Z := le_value (take width r).

(** ** The class *)

Inductive int_type := U8 | I8 | U16 | I16 | U32 | I32 | U64 | I64.

Definition width (T : int_type) : nat :=
  match T with U8 | I8 => 1 | U16 | I16 => 2 | U32 | I32 => 4 | U64 | I64 => 8 end%nat.

(** The conversion of an argument to the unsigned type of the same width. *)
Definition to_unsigned (T : int_type) (x : Z) : Z := x mod 256 ^ Z.of_nat (width T).

Section aes_hash.
Context (aesenc : list Z -> list Z -> list Z).
(** The static keys drawn by [aes_keygen]: [_key] of each function, and
    [_key64]. *)
Context (key8 key16 key32 key_ key64 : list Z).

Definition hash64 (x : Z) : Z :=
  let r := set1 8 x in
  let r := aesenc r key_ in
  let r := aesenc r key64 in
  low 8 r.

Definition hash32 (x : Z) : Z := low 4 (aesenc (set1 4 x) key32).
Definition hash16 (x : Z) : Z := low 2 (aesenc (set1 2 x) key16).
Definition hash8 (x : Z) : Z := low 1 (aesenc (set1 1 x) key8).

Definition hash (T : int_type) (x : Z) : Z :=
  match T with
  | U8 | I8 => hash8 (to_unsigned T x)
  | U16 | I16 => hash16 (to_unsigned T x)
  | U32 | I32 => hash32 (to_unsigned T x)
  | U64 | I64 => hash64 (to_unsigned T x)
  end.
End aes_hash.

(** ** The documented behaviour of [aesenc] *)

(** Multiplication by 2 in the field of AES (a left shift reduced by the
    polynomial 283), and by 3. *)
Definition xtime (a : Z) : Z := Z.lxor (2 * a) (if Z.testbit a 7 then 283 else 0).
Definition mul3 (a : Z) : Z := Z.lxor (xtime a) a.

Definition xor4 (a b c d : Z) : Z := Z.lxor (Z.lxor a b) (Z.lxor c d).

Definition mix_column (a b c d : Z) : list Z :=
  [xor4 (xtime a) (mul3 b) c d; xor4 a (xtime b) (mul3 c) d;
   xor4 a b (xtime c) (mul3 d); xor4 (mul3 a) b c (xtime d)].

Fixpoint mix_columns (s : list Z) : list Z :=
  match s with
  | a :: b :: c :: d :: s => mix_column a b c d ++ mix_columns s
  | _ => []
  end.

Definition shift_rows (s : list Z) : list Z :=
  (fun i => nth i s 0) <$> [0; 5; 10; 15; 4; 9; 14; 3; 8; 13; 2; 7; 12; 1; 6; 11]%nat.

Definition sbox_table : list Z :=
  [
   99; 124; 119; 123; 242; 107; 111; 197; 48; 1; 103; 43; 254; 215; 171; 118;
   202; 130; 201; 125; 250; 89; 71; 240; 173; 212; 162; 175; 156; 164; 114; 192;
   183; 253; 147; 38; 54; 63; 247; 204; 52; 165; 229; 241; 113; 216; 49; 21;
   4; 199; 35; 195; 24; 150; 5; 154; 7; 18; 128; 226; 235; 39; 178; 117;
   9; 131; 44; 26; 27; 110; 90; 160; 82; 59; 214; 179; 41; 227; 47; 132;
   83; 209; 0; 237; 32; 252; 177; 91; 106; 203; 190; 57; 74; 76; 88; 207;
   208; 239; 170; 251; 67; 77; 51; 133; 69; 249; 2; 127; 80; 60; 159; 168;
   81; 163; 64; 143; 146; 157; 56; 245; 188; 182; 218; 33; 16; 255; 243; 210;
   205; 12; 19; 236; 95; 151; 68; 23; 196; 167; 126; 61; 100; 93; 25; 115;
   96; 129; 79; 220; 34; 42; 144; 136; 70; 238; 184; 20; 222; 94; 11; 219;
   224; 50; 58; 10; 73; 6; 36; 92; 194; 211; 172; 98; 145; 149; 228; 121;
   231; 200; 55; 109; 141; 213; 78; 169; 108; 86; 244; 234; 101; 122; 174; 8;
   186; 120; 37; 46; 28; 166; 180; 198; 232; 221; 116; 31; 75; 189; 139; 138;
   112; 62; 181; 102; 72; 3; 246; 14; 97; 53; 87; 185; 134; 193; 29; 158;
   225; 248; 152; 17; 105; 217; 142; 148; 155; 30; 135; 233; 206; 85; 40; 223;
   140; 161; 137; 13; 191; 230; 66; 104; 65; 153; 45; 15; 176; 84; 187; 22].

Definition sbox (b : Z) : Z := nth (Z.to_nat b) sbox_table 0.

Definition fips_aesenc (s key : list Z) : list Z :=
  zip_with Z.lxor (mix_columns (shift_rows (sbox <$> s))) key.

(** What the theorems assume of the instruction. *)
Definition aesenc_spec (aesenc : list Z -> list Z -> list Z) : Prop :=
  forall s key, length s = 16%nat -> length key = 16%nat -> Forall is_byte s -> Forall is_byte key ->
    aesenc s key = fips_aesenc s key.

Definition is_key (key : list Z) : Prop := length key = 16%nat /\ Forall is_byte key.

#[global] Instance is_key_dec key : Decision (is_key key).
Proof. unfold is_key. apply _. Defined.

(** ** Bytes *)

Lemma bytes_of_length n x : length (bytes_of n x) = n.
Proof. revert x. induction n; intros x; simpl; [done|]. by rewrite IHn. Qed.

Lemma bytes_of_bytes n x : Forall is_byte (bytes_of n x).
Proof.
  revert x. induction n; intros x; simpl; constructor; [|done].
  apply Z.mod_pos_bound. lia.
Qed.

Lemma le_value_bytes_of n x : le_value (bytes_of n x) = x mod 256 ^ Z.of_nat n.
Proof.
  revert x. induction n as [|n IH]; intros x.
  { simpl. by rewrite Z.mod_1_r. }
  cbn [bytes_of le_value]. rewrite IH, Nat2Z.inj_succ, Z.pow_succ_r by lia.
  rewrite Z.rem_mul_r; [lia|lia|]. apply Z.pow_pos_nonneg; lia.
Qed.

Lemma le_value_inj l l' :
  length l = length l' -> Forall is_byte l -> Forall is_byte l' -> le_value l = le_value l' -> l = l'.
Proof.
  revert l'. induction l as [|b l IH]; intros [|b' l'] Hlen Hl Hl' E; try done.
  inversion Hl as [|?? Hb Hl1]; inversion Hl' as [|?? Hb' Hl2]; subst. simpl in E.
  unfold is_byte in *. assert (b = b') as -> by lia. f_equal.
  apply IH; [simpl in *; lia|done|done|lia].
Qed.

Lemma le_value_bound l :
  Forall is_byte l -> 0 <= le_value l < 256 ^ Z.of_nat (length l).
Proof.
  induction l as [|b l IH]; intros Hl; cbn [le_value length]; [simpl; lia|].
  inversion Hl as [|?? Hb Hl1]; subst. specialize (IH Hl1). unfold is_byte in Hb.
  rewrite Nat2Z.inj_succ, Z.pow_succ_r by lia. lia.
Qed.

Lemma lxor_bound n a b : 0 <= n -> 0 <= a < 2 ^ n -> 0 <= b < 2 ^ n -> 0 <= Z.lxor a b < 2 ^ n.
Proof.
  intros Hn Ha Hb. assert (0 <= Z.lxor a b) as H0 by (apply Z.lxor_nonneg; lia). split; [done|].
  destruct (decide (Z.lxor a b = 0)) as [->|Hne]; [by apply Z.pow_pos_nonneg|].
  apply Z.log2_lt_pow2; [lia|]. eapply Z.le_lt_trans; [apply Z.log2_lxor; lia|].
  assert (forall c, 0 <= c < 2 ^ n -> Z.lxor a b <> 0 -> Z.log2 c < n \/ c = 0) as Hl.
  { intros c Hc _. destruct (decide (c = 0)); [by right|]. left. apply Z.log2_lt_pow2; lia. }
  assert (0 < n) as Hpos.
  { destruct (decide (n = 0)) as [->|]; [|lia]. simpl in *. assert (a = 0) as -> by lia.
    assert (b = 0) as -> by lia. done. }
  apply Z.max_lub_lt; [destruct (Hl a Ha Hne) as [?| ->]|destruct (Hl b Hb Hne) as [?| ->]];
    first [done|simpl; lia].
Qed.

Lemma lxor_byte a b : is_byte a -> is_byte b -> is_byte (Z.lxor a b).
Proof. apply (lxor_bound 8). lia. Qed.

Lemma lxor_cancel a b k : Z.lxor a k = Z.lxor b k -> a = b.
Proof.
  intros E. assert (Z.lxor (Z.lxor a k) k = Z.lxor (Z.lxor b k) k) as E' by by rewrite E.
  by rewrite !Z.lxor_assoc, Z.lxor_nilpotent, !Z.lxor_0_r in E'.
Qed.

(** A boolean property of bytes is decided by evaluation. *)
Lemma byte_forall (P : Z -> bool) :
  forallb P (Z.of_nat <$> seq 0 256) = true -> forall b, is_byte b -> P b = true.
Proof.
  intros H b Hb. rewrite forallb_forall in H. apply H. apply list_elem_of_In.
  apply list_elem_of_fmap. exists (Z.to_nat b). unfold is_byte in Hb. split; [lia|].
  apply elem_of_seq. lia.
Qed.

(** ** SubBytes is a permutation of the bytes *)

Definition unsbox_table : list Z :=
  [
   82; 9; 106; 213; 48; 54; 165; 56; 191; 64; 163; 158; 129; 243; 215; 251;
   124; 227; 57; 130; 155; 47; 255; 135; 52; 142; 67; 68; 196; 222; 233; 203;
   84; 123; 148; 50; 166; 194; 35; 61; 238; 76; 149; 11; 66; 250; 195; 78;
   8; 46; 161; 102; 40; 217; 36; 178; 118; 91; 162; 73; 109; 139; 209; 37;
   114; 248; 246; 100; 134; 104; 152; 22; 212; 164; 92; 204; 93; 101; 182; 146;
   108; 112; 72; 80; 253; 237; 185; 218; 94; 21; 70; 87; 167; 141; 157; 132;
   144; 216; 171; 0; 140; 188; 211; 10; 247; 228; 88; 5; 184; 179; 69; 6;
   208; 44; 30; 143; 202; 63; 15; 2; 193; 175; 189; 3; 1; 19; 138; 107;
   58; 145; 17; 65; 79; 103; 220; 234; 151; 242; 207; 206; 240; 180; 230; 115;
   150; 172; 116; 34; 231; 173; 53; 133; 226; 249; 55; 232; 28; 117; 223; 110;
   71; 241; 26; 113; 29; 41; 197; 137; 111; 183; 98; 14; 170; 24; 190; 27;
   252; 86; 62; 75; 198; 210; 121; 32; 154; 219; 192; 254; 120; 205; 90; 244;
   31; 221; 168; 51; 136; 7; 199; 49; 177; 18; 16; 89; 39; 128; 236; 95;
   96; 81; 127; 169; 25; 181; 74; 13; 45; 229; 122; 159; 147; 201; 156; 239;
   160; 224; 59; 77; 174; 42; 245; 176; 200; 235; 187; 60; 131; 83; 153; 97;
   23; 43; 4; 126; 186; 119; 214; 38; 225; 105; 20; 99; 85; 33; 12; 125].

Definition unsbox (b : Z) : Z := nth (Z.to_nat b) unsbox_table 0.

Lemma sbox_facts b : is_byte b -> is_byte (sbox b) /\ unsbox (sbox b) = b.
Proof.
  intros Hb. assert ((0 <=? sbox b) && (sbox b <? 256) && (unsbox (sbox b) =? b) = true) as H.
  { revert b Hb. by apply (byte_forall (fun b =>
      (0 <=? sbox b) && (sbox b <? 256) && (unsbox (sbox b) =? b))). }
  unfold is_byte. lia.
Qed.

Lemma sbox_inj a b : is_byte a -> is_byte b -> sbox a = sbox b -> a = b.
Proof.
  intros Ha Hb E. destruct (sbox_facts a Ha) as [_ Ea], (sbox_facts b Hb) as [_ Eb]. congruence.
Qed.

(** ** MixColumns is invertible *)

Lemma xtime_byte a : is_byte a -> is_byte (xtime a).
Proof.
  intros Ha. assert ((0 <=? xtime a) && (xtime a <? 256) = true) as H.
  { revert a Ha. by apply (byte_forall (fun a => (0 <=? xtime a) && (xtime a <? 256))). }
  unfold is_byte. lia.
Qed.

Lemma xtime_lxor a b : xtime (Z.lxor a b) = Z.lxor (xtime a) (xtime b).
Proof.
  unfold xtime. rewrite Z.lxor_spec.
  assert (2 * Z.lxor a b = Z.lxor (2 * a) (2 * b)) as ->.
  { rewrite !(Z.mul_comm 2), <- !(Z.shiftl_mul_pow2 _ 1) by lia. by rewrite Z.shiftl_lxor. }
  destruct (Z.testbit a 7), (Z.testbit b 7); simpl; apply Z.bits_inj'; intros n _;
    rewrite !Z.lxor_spec, ?Z.bits_0; btauto.
Qed.

(** The first row of the inverse of the matrix of MixColumns. *)
Definition unmix (a b c d : Z) : Z :=
  let m8 a := xtime (xtime (xtime a)) in
  xor4 (xor4 (m8 a) (xtime (xtime a)) (xtime a) 0) (xor4 (m8 b) (xtime b) b 0)
       (xor4 (m8 c) (xtime (xtime c)) c 0) (xor4 (m8 d) d 0 0).

Lemma unmix_mix a b c d :
  unmix (xor4 (xtime a) (mul3 b) c d) (xor4 a (xtime b) (mul3 c) d)
        (xor4 a b (xtime c) (mul3 d)) (xor4 (mul3 a) b c (xtime d)) = a.
Proof.
  unfold unmix, xor4, mul3. rewrite !xtime_lxor. apply Z.bits_inj'. intros n _.
  rewrite !Z.lxor_spec, ?Z.bits_0. btauto.
Qed.

Lemma xor4_rot a b c d : xor4 a b c d = xor4 b c d a.
Proof.
  unfold xor4. apply Z.bits_inj'. intros n _. rewrite !Z.lxor_spec. btauto.
Qed.

(** The four rows of MixColumns are rotations of the first one. *)
Lemma mix_column_inj a b c d a' b' c' d' :
  mix_column a b c d = mix_column a' b' c' d' -> a = a' /\ b = b' /\ c = c' /\ d = d'.
Proof.
  assert (forall a b c d a' b' c' d', mix_column a b c d = mix_column a' b' c' d' -> a = a') as Hfst.
  { clear. unfold mix_column. intros a b c d a' b' c' d' E. injection E as E0 E1 E2 E3.
    rewrite <- (unmix_mix a b c d), <- (unmix_mix a' b' c' d'). by rewrite E0, E1, E2, E3. }
  assert (forall a b c d a' b' c' d', mix_column a b c d = mix_column a' b' c' d' ->
    mix_column b c d a = mix_column b' c' d' a') as Hrot.
  { clear. unfold mix_column. intros a b c d a' b' c' d' E. injection E as E0 E1 E2 E3.
    rewrite (xor4_rot a), (xor4_rot a') in E1. rewrite (xor4_rot a), (xor4_rot a') in E2.
    rewrite (xor4_rot (mul3 a)), (xor4_rot (mul3 a')) in E3.
    rewrite (xor4_rot (xtime a)), (xor4_rot (xtime a')) in E0. by rewrite E0, E1, E2, E3. }
  intros E. assert (E1 := Hrot _ _ _ _ _ _ _ _ E). assert (E2 := Hrot _ _ _ _ _ _ _ _ E1).
  assert (E3 := Hrot _ _ _ _ _ _ _ _ E2). split_and!; by eapply Hfst.
Qed.

(** Bytes are closed under the operations of the field. *)
Ltac byte_closed := repeat first [assumption|apply xtime_byte|apply lxor_byte].

Lemma mix_column_bytes a b c d :
  is_byte a -> is_byte b -> is_byte c -> is_byte d -> Forall is_byte (mix_column a b c d).
Proof.
  intros Ha Hb Hc Hd. unfold mix_column, xor4, mul3.
  repeat (apply Forall_cons_2; [byte_closed|]). done.
Qed.

Lemma mix_column_sbox_inj a b c d a' b' c' d' :
  is_byte a -> is_byte b -> is_byte c -> is_byte d ->
  is_byte a' -> is_byte b' -> is_byte c' -> is_byte d' ->
  mix_column (sbox a) (sbox b) (sbox c) (sbox d) = mix_column (sbox a') (sbox b') (sbox c') (sbox d') ->
  a = a' /\ b = b' /\ c = c' /\ d = d'.
Proof.
  intros * ???????? (?&?&?&?)%mix_column_inj. split_and!; by apply sbox_inj.
Qed.

(** ** The widths *)

(** Write a list of known length as its elements, with their ranges. *)
Ltac list_cases l Hlen HF :=
  repeat (destruct l as [|? l]; [discriminate Hlen|]); destruct l; [|discriminate Hlen];
  repeat match type of HF with
  | Forall _ (_ :: _) => inversion HF as [|?? ?HB HF']; subst; clear HF; rename HF' into HF
  end; clear Hlen HF.

(** One round on a register filled with copies of an integer, and the second
    round of [hash64]; [zip_with Z.lxor] with the key is undone by [lxor_cancel]. *)
Lemma round_bytes s key :
  length s = 16%nat -> Forall is_byte s -> is_key key ->
  length (fips_aesenc s key) = 16%nat /\ Forall is_byte (fips_aesenc s key).
Proof.
  intros Hs HF [Hk HK]. list_cases s Hs HF. list_cases key Hk HK.
  split; [done|]. unfold fips_aesenc. simpl.
  repeat (apply Forall_cons_2; [apply lxor_byte; [|done]|]); try done;
    unfold xor4, mul3; repeat first [apply sbox_facts; assumption|apply xtime_byte|apply lxor_byte].
Qed.

Lemma low_inj n r r' :
  length r = 16%nat -> length r' = 16%nat -> Forall is_byte r -> Forall is_byte r' ->
  low n r = low n r' -> take n r = take n r'.
Proof.
  intros Hr Hr' HF HF' E. apply le_value_inj; [rewrite !length_take; lia| | |exact E];
    by apply Forall_take.
Qed.

Lemma bytes_of_inj n x y :
  0 <= x < 256 ^ Z.of_nat n -> 0 <= y < 256 ^ Z.of_nat n -> bytes_of n x = bytes_of n y -> x = y.
Proof.
  intros Hx Hy E. assert (le_value (bytes_of n x) = le_value (bytes_of n y)) as E' by by rewrite E.
  by rewrite !le_value_bytes_of, !Z.mod_small in E'.
Qed.

(** One round on a register whose two halves are equal, written out. *)
Lemma round_halves l key :
  length l = 8%nat -> Forall is_byte l -> is_key key ->
  exists a b, length a = 4%nat /\ length b = 4%nat /\ Forall is_byte a /\ Forall is_byte b /\
    fips_aesenc (l ++ l) key = zip_with Z.lxor (a ++ b ++ a ++ b) key /\
    a = mix_column (sbox (nth 0 l 0)) (sbox (nth 5 l 0)) (sbox (nth 2 l 0)) (sbox (nth 7 l 0)) /\
    b = mix_column (sbox (nth 4 l 0)) (sbox (nth 1 l 0)) (sbox (nth 6 l 0)) (sbox (nth 3 l 0)).
Proof.
  intros Hl HF _. list_cases l Hl HF. eexists _, _.
  split; [|split; [|split; [|split; [|split; [|split; reflexivity]]]]]; try reflexivity;
    by apply mix_column_bytes; apply sbox_facts.
Qed.

(** A column of the state determines the four bytes it was computed from. *)
Ltac column_inj E0 E1 E2 E3 :=
  lazymatch type of E0 with
  | xor4 (xtime (sbox ?a)) (mul3 (sbox ?b)) (sbox ?c) (sbox ?d) =
    xor4 (xtime (sbox ?a')) (mul3 (sbox ?b')) (sbox ?c') (sbox ?d') =>
      destruct (mix_column_sbox_inj a b c d a' b' c' d') as (? & ? & ? & ?);
        [byte_closed..|unfold mix_column; congruence|]
  end.

(** The low half of a second round on such a register determines it. *)
Lemma round_mixed_inj a b a' b' key key' :
  length a = 4%nat -> length b = 4%nat -> length a' = 4%nat -> length b' = 4%nat ->
  Forall is_byte a -> Forall is_byte b -> Forall is_byte a' -> Forall is_byte b' ->
  is_key key -> is_key key' ->
  take 8 (fips_aesenc (zip_with Z.lxor (a ++ b ++ a ++ b) key) key') =
  take 8 (fips_aesenc (zip_with Z.lxor (a' ++ b' ++ a' ++ b') key) key') ->
  a = a' /\ b = b'.
Proof.
  intros La Lb La' Lb' Fa Fb Fa' Fb' [Hk HK] [Hk' HK'] E.
  list_cases a La Fa. list_cases b Lb Fb. list_cases a' La' Fa'. list_cases b' Lb' Fb'.
  list_cases key Hk HK. list_cases key' Hk' HK'.
  unfold fips_aesenc in E. cbn -[mix_column xtime sbox Z.lxor] in E. unfold mix_column in E. simpl in E.
  injection E as E0 E1 E2 E3 E4 E5 E6 E7.
  repeat match goal with H : Z.lxor _ ?k = Z.lxor _ ?k |- _ => apply lxor_cancel in H end.
  column_inj E0 E1 E2 E3. column_inj E4 E5 E6 E7.
  repeat match goal with H : Z.lxor _ ?k = Z.lxor _ ?k |- _ => apply lxor_cancel in H end.
  by subst.
Qed.

(** ** The theorems about the class *)

(** The registers the functions start from. *)
Lemma set1_8 x : set1 8 x = bytes_of 8 x ++ bytes_of 8 x.
Proof. reflexivity. Qed.

Lemma set1_bytes n x : (n = 1 \/ n = 2 \/ n = 4 \/ n = 8)%nat ->
  length (set1 n x) = 16%nat /\ Forall is_byte (set1 n x).
Proof.
  assert (forall m, Forall is_byte (mjoin (replicate m (bytes_of n x)))) as HF.
  { induction m; simpl; [done|]. apply Forall_app. split; [apply bytes_of_bytes|done]. }
  intros [->|[->|[->| ->]]]; split; done || apply HF.
Qed.

Lemma zip_lxor_bytes l key :
  Forall is_byte l -> Forall is_byte key -> Forall is_byte (zip_with Z.lxor l key).
Proof.
  intros Hl. revert key. induction Hl as [|a l Ha Hl IH]; intros [|k key] HK; simpl; try done.
  inversion HK; subst. apply Forall_cons_2; [by apply lxor_byte|by apply IH].
Qed.

Lemma hash64_inj aesenc key key64 x y :
  aesenc_spec aesenc -> is_key key -> is_key key64 -> u64 x -> u64 y ->
  hash64 aesenc key key64 x = hash64 aesenc key key64 y -> x = y.
Proof.
  intros Hspec Hk Hk64 Hx Hy E. unfold hash64 in E.
  assert (Hrounds : forall z, aesenc (aesenc (set1 8 z) key) key64 =
      fips_aesenc (fips_aesenc (set1 8 z) key) key64 /\
      length (fips_aesenc (fips_aesenc (set1 8 z) key) key64) = 16%nat /\
      Forall is_byte (fips_aesenc (fips_aesenc (set1 8 z) key) key64)).
  { intros z. destruct (set1_bytes 8 z) as [L F]; [auto|].
    destruct (round_bytes _ _ L F Hk) as [L1 F1]. destruct (round_bytes _ _ L1 F1 Hk64) as [L2 F2].
    split; [|done]. rewrite (Hspec (set1 8 z)); [|done|apply Hk|done|apply Hk].
    apply Hspec; [done|apply Hk64|done|apply Hk64]. }
  destruct (Hrounds x) as (Ex & Lx & Fx). destruct (Hrounds y) as (Ey & Ly & Fy).
  rewrite Ex, Ey in E. apply low_inj in E; [|done..].
  apply (bytes_of_inj 8); [exact Hx|exact Hy|].
  destruct (round_halves (bytes_of 8 x) key) as (a & b & La & Lb & Fa & Fb & Er & Ea & Eb);
    [apply bytes_of_length|apply bytes_of_bytes|done|].
  destruct (round_halves (bytes_of 8 y) key) as (a' & b' & La' & Lb' & Fa' & Fb' & Er' & Ea' & Eb');
    [apply bytes_of_length|apply bytes_of_bytes|done|].
  rewrite set1_8, set1_8, Er, Er' in E.
  apply round_mixed_inj in E as [<- <-]; [|done..].
  clear -Ea Ea' Eb Eb'. rewrite Ea in Ea'. rewrite Eb in Eb'. clear Ea Eb.
  assert (Fx := bytes_of_bytes 8 x). assert (Fy := bytes_of_bytes 8 y).
  assert (Lx := bytes_of_length 8 x). assert (Ly := bytes_of_length 8 y).
  set (lx := bytes_of 8 x) in *. set (ly := bytes_of 8 y) in *. clearbody lx ly.
  list_cases lx Lx Fx. list_cases ly Ly Fy. simpl in Ea', Eb'.
  apply mix_column_sbox_inj in Ea' as (-> & -> & -> & ->); [|done..].
  by apply mix_column_sbox_inj in Eb' as (-> & -> & -> & ->).
Qed.

Lemma hash64_u64 aesenc key key64 x :
  aesenc_spec aesenc -> is_key key -> is_key key64 -> u64 (hash64 aesenc key key64 x).
Proof.
  intros Hspec Hk Hk64. unfold hash64.
  destruct (set1_bytes 8 x) as [L F]; [auto|].
  destruct (round_bytes _ _ L F Hk) as [L1 F1]. destruct (round_bytes _ _ L1 F1 Hk64) as [L2 F2].
  rewrite (Hspec (set1 8 x)); [|done|apply Hk|done|apply Hk].
  rewrite Hspec; [|done|apply Hk64|done|apply Hk64].
  pose proof (le_value_bound (take 8 (fips_aesenc (fips_aesenc (set1 8 x) key) key64))
    ltac:(by apply Forall_take)) as Hb.
  rewrite length_take, L2 in Hb. exact Hb.
Qed.

Lemma hash32_inj aesenc key x y :
  aesenc_spec aesenc -> is_key key -> 0 <= x < 2 ^ 32 -> 0 <= y < 2 ^ 32 ->
  hash32 aesenc key x = hash32 aesenc key y -> x = y.
Proof.
  intros Hspec Hk Hx Hy E. unfold hash32 in E.
  destruct (set1_bytes 4 x) as [Lx Fx]; [auto|]. destruct (set1_bytes 4 y) as [Ly Fy]; [auto|].
  destruct (round_bytes _ _ Lx Fx Hk) as [Lx1 Fx1]. destruct (round_bytes _ _ Ly Fy Hk) as [Ly1 Fy1].
  rewrite !Hspec in E by (done || apply Hk). apply low_inj in E; [|done..].
  apply (bytes_of_inj 4); [exact Hx|exact Hy|].
  assert (Bx := bytes_of_bytes 4 x). assert (By := bytes_of_bytes 4 y).
  assert (Bl := bytes_of_length 4 x). assert (Bl' := bytes_of_length 4 y).
  unfold set1 in E. set (lx := bytes_of 4 x) in *. set (ly := bytes_of 4 y) in *.
  clearbody lx ly. clear -E Bx By Bl Bl' Hk.
  list_cases lx Bl Bx. list_cases ly Bl' By. destruct Hk as [Lk Fk]. list_cases key Lk Fk.
  cbn -[mix_column xtime sbox Z.lxor] in E. unfold mix_column in E. simpl in E.
  injection E as E0 E1 E2 E3.
  repeat match goal with H : Z.lxor _ ?k = Z.lxor _ ?k |- _ => apply lxor_cancel in H end.
  column_inj E0 E1 E2 E3. by subst.
Qed.

Lemma hash16_inj aesenc key x y :
  aesenc_spec aesenc -> is_key key -> 0 <= x < 2 ^ 16 -> 0 <= y < 2 ^ 16 ->
  hash16 aesenc key x = hash16 aesenc key y -> x = y.
Proof.
  intros Hspec Hk Hx Hy E. unfold hash16 in E.
  destruct (set1_bytes 2 x) as [Lx Fx]; [auto|]. destruct (set1_bytes 2 y) as [Ly Fy]; [auto|].
  destruct (round_bytes _ _ Lx Fx Hk) as [Lx1 Fx1]. destruct (round_bytes _ _ Ly Fy Hk) as [Ly1 Fy1].
  rewrite !Hspec in E by (done || apply Hk). apply low_inj in E; [|done..].
  apply (bytes_of_inj 2); [exact Hx|exact Hy|].
  assert (Bx := bytes_of_bytes 2 x). assert (By := bytes_of_bytes 2 y).
  assert (Bl := bytes_of_length 2 x). assert (Bl' := bytes_of_length 2 y).
  unfold set1 in E. set (lx := bytes_of 2 x) in *. set (ly := bytes_of 2 y) in *.
  clearbody lx ly. clear -E Bx By Bl Bl' Hk.
  list_cases lx Bl Bx. list_cases ly Bl' By. destruct Hk as [Lk Fk]. list_cases key Lk Fk.
  cbn -[mix_column xtime sbox Z.lxor] in E. unfold mix_column in E. simpl in E.
  injection E as E0 E1.
  repeat match goal with H : Z.lxor _ ?k = Z.lxor _ ?k |- _ => apply lxor_cancel in H end.
  (* the two bytes solve a linear system of determinant 1 *)
  assert (forall p q, Z.lxor (mul3 (xor4 (xtime p) (mul3 q) p q)) (xtime (xor4 p (xtime q) (mul3 p) q)) = p
    /\ Z.lxor (xtime (xor4 (xtime p) (mul3 q) p q)) (mul3 (xor4 p (xtime q) (mul3 p) q)) = q) as Hsolve.
  { intros p q. unfold mul3, xor4. rewrite !xtime_lxor.
    split; apply Z.bits_inj'; intros n _; rewrite !Z.lxor_spec; btauto. }
  match type of E0 with xor4 (xtime (sbox ?a)) (mul3 (sbox ?b)) _ _ = xor4 (xtime (sbox ?a')) (mul3 (sbox ?b')) _ _ =>
    destruct (Hsolve (sbox a) (sbox b)) as [Ha Hb], (Hsolve (sbox a') (sbox b')) as [Ha' Hb'];
    rewrite E0, E1 in Ha, Hb; rewrite Ha' in Ha; rewrite Hb' in Hb;
    apply sbox_inj in Ha; [|done..]; apply sbox_inj in Hb; [|done..]; by subst
  end.
Qed.

Lemma hash8_inj aesenc key x y :
  aesenc_spec aesenc -> is_key key -> 0 <= x < 2 ^ 8 -> 0 <= y < 2 ^ 8 ->
  hash8 aesenc key x = hash8 aesenc key y -> x = y.
Proof.
  intros Hspec Hk Hx Hy E. unfold hash8 in E.
  destruct (set1_bytes 1 x) as [Lx Fx]; [auto|]. destruct (set1_bytes 1 y) as [Ly Fy]; [auto|].
  destruct (round_bytes _ _ Lx Fx Hk) as [Lx1 Fx1]. destruct (round_bytes _ _ Ly Fy Hk) as [Ly1 Fy1].
  rewrite !Hspec in E by (done || apply Hk). apply low_inj in E; [|done..].
  apply (bytes_of_inj 1); [exact Hx|exact Hy|].
  assert (Bx := bytes_of_bytes 1 x). assert (By := bytes_of_bytes 1 y).
  assert (Bl := bytes_of_length 1 x). assert (Bl' := bytes_of_length 1 y).
  unfold set1 in E. set (lx := bytes_of 1 x) in *. set (ly := bytes_of 1 y) in *.
  clearbody lx ly. clear -E Bx By Bl Bl' Hk.
  list_cases lx Bl Bx. list_cases ly Bl' By. destruct Hk as [Lk Fk]. list_cases key Lk Fk.
  cbn -[mix_column xtime sbox Z.lxor] in E. unfold mix_column in E. simpl in E.
  injection E as E0.
  repeat match goal with H : Z.lxor _ ?k = Z.lxor _ ?k |- _ => apply lxor_cancel in H end.
  assert (forall p, xor4 (xtime p) (mul3 p) p p = p) as Hid.
  { intros p. unfold xor4, mul3. apply Z.bits_inj'. intros n _. rewrite !Z.lxor_spec. btauto. }
  rewrite !Hid in E0. apply sbox_inj in E0; [|done..]. by subst.
Qed.

(** The values of an integer type. *)
Definition in_type (T : int_type) (x : Z) : Prop :=
  match T with
  | U8 | U16 | U32 | U64 => 0 <= x < 256 ^ Z.of_nat (width T)
  | _ => - (256 ^ Z.of_nat (width T) / 2) <= x < 256 ^ Z.of_nat (width T) / 2
  end.

Lemma mod_inj m x y : 0 < m -> - m < x - y < m -> x mod m = y mod m -> x = y.
Proof.
  intros Hm Hxy E. rewrite (Z.div_mod x m), (Z.div_mod y m) in Hxy |- * by lia.
  rewrite E in *. f_equal. f_equal. nia.
Qed.

Lemma to_unsigned_inj T x y :
  in_type T x -> in_type T y -> to_unsigned T x = to_unsigned T y -> x = y.
Proof.
  assert (0 < 256 ^ Z.of_nat (width T)) as Hm by (apply Z.pow_pos_nonneg; lia).
  intros Hx Hy. apply mod_inj; [done|]. unfold in_type in *.
  set (m := 256 ^ Z.of_nat (width T)) in *. pose proof (Z.div_mod m 2) as D.
  pose proof (Z.mod_pos_bound m 2). destruct T; lia.
Qed.

(** The hash with fixed keys satisfies what the treap relies on. *)
Lemma aes_perfect aesenc key key64 :
  aesenc_spec aesenc -> is_key key -> is_key key64 -> PerfectHash (hash64 aesenc key key64).
Proof.
  intros H Hk Hk64. split.
  - intros x y Hx Hy. by apply hash64_inj.
  - intros x. by apply hash64_u64.
Qed.

(** ** Properties *)

(** C12: every [aes_hash::hash] is perfect, as the comment of the class says: for
    each of the eight integer types and whatever keys were drawn, two different
    values of the type have different hashes. *)
Theorem hash_perfect (aesenc : list Z -> list Z -> list Z)
    (key8 key16 key32 key_ key64 : list Z) (T : int_type) (x y : Z) :
  aesenc_spec aesenc ->
  is_key key8 -> is_key key16 -> is_key key32 -> is_key key_ -> is_key key64 ->
  in_type T x -> in_type T y -> x <> y ->
  hash aesenc key8 key16 key32 key_ key64 T x <> hash aesenc key8 key16 key32 key_ key64 T y.
Proof.
  intros Hs K8 K16 K32 K K64 Hx Hy Hne E. apply Hne. apply (to_unsigned_inj T); [done|done|].
  assert (0 <= to_unsigned T x < 256 ^ Z.of_nat (width T) /\
          0 <= to_unsigned T y < 256 ^ Z.of_nat (width T)) as [Bx By].
  { split; apply Z.mod_pos_bound, Z.pow_pos_nonneg; lia. }
  destruct T; simpl in E.
  1,2: by apply (hash8_inj aesenc key8).
  1,2: by apply (hash16_inj aesenc key16).
  1,2: by apply (hash32_inj aesenc key32).
  all: by apply (hash64_inj aesenc key_ key64).
Qed.

(** The instruction with its documented behaviour, and the all-zero keys. *)
Definition zero_key : list Z := replicate 16 0.

Lemma zero_key_ok : is_key zero_key.
Proof. by apply (bool_decide_unpack _). Qed.

Lemma fips_aesenc_spec : aesenc_spec fips_aesenc.
Proof. done. Qed.

Example hash_perfect_witness :
  7 <> -7 /\
  hash fips_aesenc zero_key zero_key zero_key zero_key zero_key I64 7
    <> hash fips_aesenc zero_key zero_key zero_key zero_key zero_key I64 (-7).
Proof.
  split; [done|].
  apply (hash_perfect fips_aesenc zero_key zero_key zero_key zero_key zero_key I64);
    [apply fips_aesenc_spec|apply zero_key_ok..| | |done]; vm_compute; split; congruence.
Defined.

(** Small hashes under the all-zero keys, used by the concrete runs. *)
Definition hash0 : Z -> Z := hash64 fips_aesenc zero_key zero_key.

Lemma hash0_perfect : PerfectHash hash0.
Proof. apply aes_perfect; [apply fips_aesenc_spec|apply zero_key_ok..]. Qed.
