(* ===== verification/TreapNode.v ===== *)
(** * Treap nodes in memory

    [src/lib/treap/node.hpp]: the node structure, its constructors and
    destructors as heap programs, and the predicate [rep] that says which tree
    of [TreapTree] a pointer stands for. *)

From S2P Require Import Prelude TreapTree.

(** ** The node structure *)

Record node_t := mk_node {
  n_ver : nat;
  n_pry : Z;
  n_key : Z;
  n_val : Z;
  n_aug : Z;
  n_lch : ptr;
  n_rch : ptr;
}.

Definition aug_uninitialized : Z := 0.

Definition set_val (x : Z) (n : node_t) : node_t :=
  mk_node (n_ver n) (n_pry n) (n_key n) x (n_aug n) (n_lch n) (n_rch n).
Definition set_aug (a : Z) (n : node_t) : node_t :=
  mk_node (n_ver n) (n_pry n) (n_key n) (n_val n) a (n_lch n) (n_rch n).
Definition set_lch (p : ptr) (n : node_t) : node_t :=
  mk_node (n_ver n) (n_pry n) (n_key n) (n_val n) (n_aug n) p (n_rch n).
Definition set_rch (p : ptr) (n : node_t) : node_t :=
  mk_node (n_ver n) (n_pry n) (n_key n) (n_val n) (n_aug n) (n_lch n) p.

Abbreviation heap := (gmap loc node_t).

(** ** Constructors and destructors *)

Definition make_node_pry (ver : nat) (pry key : Z) : M node_t ptr :=
  new (mk_node ver pry key 1 aug_uninitialized None None).

Definition make_node (hash : Z -> Z) (ver : nat) (key : Z) : M node_t ptr :=
  make_node_pry ver (hash key) key.

Definition make_weak_copy (t : ptr) : M node_t ptr :=
  n ← load t;
  new (mk_node (n_ver n) (n_pry n) (n_key n) (n_val n) aug_uninitialized None None).

Definition make_weak_copy_ver (t : ptr) (ver : nat) : M node_t ptr :=
  n ← load t;
  new (mk_node ver (n_pry n) (n_key n) (n_val n) aug_uninitialized None None).

Definition release_node (t : ptr) : M node_t unit := free t.

Fixpoint release_tree (fuel : nat) (t : ptr) : M node_t unit :=
  match fuel with
  | O => fail OutOfFuel
  | S fuel =>
      match t with
      | None => mret tt
      | Some _ =>
          n ← load t;
          release_tree fuel (n_lch n);;
          release_tree fuel (n_rch n);;
          release_node t
      end
  end.

(** ** Representation *)

Definition node_data (n : node_t) : nat * Z * Z * Z := (n_ver n, n_pry n, n_key n, n_val n).

Fixpoint rep (h : heap) (p : ptr) (t : tree) : Prop :=
  match t with
  | Leaf => p = None
  | Node v pr k x l r =>
      exists a n, p = Some a /\ h !! a = Some n /\ node_data n = (v, pr, k, x) /\
        rep h (n_lch n) l /\ rep h (n_rch n) r
  end.

(** Two heaps agree, and the second extends the first, up to the cached
    aggregates. *)
Definition heap_le (h h' : heap) : Prop :=
  forall a n, h !! a = Some n -> exists x, h' !! a = Some (set_aug x n).

#[global] Instance heap_le_preorder : PreOrder heap_le.
Proof.
  split.
  - intros h a n Hn. exists (n_aug n). by destruct n.
  - intros h1 h2 h3 H12 H23 a n Hn. destruct (H12 a n Hn) as [x Hx].
    destruct (H23 a _ Hx) as [y Hy]. exists y. by destruct n.
Qed.

Lemma heap_le_subseteq h h' : h ⊆ h' -> heap_le h h'.
Proof.
  intros Hs a n Hn. exists (n_aug n). destruct n. by apply (lookup_weaken _ h' _ _ Hn).
Qed.

Lemma rep_heap_le h h' p t : heap_le h h' -> rep h p t -> rep h' p t.
Proof.
  intros Hle. revert p. induction t as [|v pr k x l IHl r IHr]; simpl; [done|].
  intros p (a & n & -> & Hn & Hd & Hl & Hr). destruct (Hle a n Hn) as [y Hy].
  exists a, (set_aug y n). split_and!; [done|done|by destruct n|by apply IHl|by apply IHr].
Qed.

Lemma rep_weaken h h' p t : h ⊆ h' -> rep h p t -> rep h' p t.
Proof. intros Hs. by apply rep_heap_le, heap_le_subseteq. Qed.

#[global] Instance rep_proper : Proper (heap_le ==> eq ==> eq ==> impl) rep.
Proof. intros h h' Hle p ? <- t ? <- Hrep. by eapply rep_heap_le. Qed.

Lemma rep_det h p t t' : rep h p t -> rep h p t' -> t = t'.
Proof.
  revert p t'. induction t as [|v pr k x l IHl r IHr]; intros p [|v' pr' k' x' l' r']; simpl.
  - done.
  - intros -> (a & n & ? & _). done.
  - intros (a & n & -> & _) ?. done.
  - intros (a & n & -> & Hn & Hd & Hl & Hr) (a' & n' & Ha & Hn' & Hd' & Hl' & Hr').
    simplify_eq. rewrite Hd in Hd'. simplify_eq. f_equal; eauto.
Qed.

Lemma rep_null h t : rep h None t <-> t = Leaf.
Proof. split; [|by intros ->]. destruct t; [done|]. intros (a & n & ? & _). done. Qed.

(** ** Allocating operations

    [ext g h g' h']: running an operation in the heap [h] on a tree that lives
    in the part [g] of it gave the heap [h'] and a tree that lives in [g'];
    nothing was overwritten, and what [g'] adds to [g] is newly allocated. *)
Definition ext (g h g' h' : heap) : Prop :=
  g ⊆ g' /\ g' ⊆ h' /\ h ⊆ h' /\
  (forall a, is_Some (g' !! a) -> g !! a = None -> h !! a = None).

Lemma ext_refl g h : g ⊆ h -> ext g h g h.
Proof. intros Hg. split_and!; [done|done|done|]. intros a [n Hn] H. congruence. Qed.

(** A freshly allocated node whose fields are completed after the operation. *)
Lemma ext_node g h g' h' a n n' :
  g ⊆ h -> h !! a = None -> ext g (<[a := n]> h) g' h' ->
  g' !! a = None /\ ext g h (<[a := n']> g') (<[a := n']> h').
Proof.
  intros Hg Ha (H1 & H2 & H3 & H4).
  assert (g !! a = None) as Hga by (eapply lookup_weaken_None; [exact Ha|done]).
  assert (g' !! a = None) as Hg'.
  { destruct (g' !! a) eqn:E; [|done]. exfalso.
    specialize (H4 a (mk_is_Some _ _ E) Hga). by rewrite lookup_insert_eq in H4. }
  split; [done|]. split_and!.
  - etrans; [exact H1|]. by apply insert_subseteq.
  - by apply insert_mono.
  - apply map_subseteq_spec. intros b m Hb.
    assert (a <> b) by congruence. rewrite lookup_insert_ne by done.
    eapply lookup_weaken; [|exact H3]. by rewrite lookup_insert_ne.
  - intros b [m Hb] Hgb. destruct (decide (a = b)) as [<-|Hne]; [done|].
    rewrite lookup_insert_ne in Hb by done.
    specialize (H4 b (mk_is_Some _ _ Hb) Hgb). by rewrite lookup_insert_ne in H4.
Qed.

(** The operation returned a pointer to a tree [t] it may have built. *)
Definition returns (g h : heap) (t : tree) (p : ptr) (h' : heap) : Prop :=
  exists g', ext g h g' h' /\ rep g' p t.

Lemma returns_old g h t p : g ⊆ h -> rep g p t -> returns g h t p h.
Proof. intros Hg Hr. exists g. split; [by apply ext_refl|done]. Qed.

Lemma returns_node g h g' h' a n n' l r :
  g ⊆ h -> h !! a = None -> ext g (<[a := n]> h) g' h' ->
  rep g' (n_lch n') l -> rep g' (n_rch n') r ->
  returns g h (Node (n_ver n') (n_pry n') (n_key n') (n_val n') l r)
    (Some a) (<[a := n']> h').
Proof.
  intros Hg Ha Hext Hl Hr. destruct (ext_node _ _ _ _ _ _ n' Hg Ha Hext) as [Hg' Hext'].
  exists (<[a := n']> g'). split; [done|].
  pose proof (insert_subseteq g' a n' Hg') as Hsub.
  exists a, n'. rewrite lookup_insert_eq.
  split_and!; try done; (eapply rep_weaken; [exact Hsub|done]).
Qed.

Lemma returns_rep h t p h' : returns h h t p h' -> h ⊆ h' /\ rep h' p t.
Proof.
  intros (g' & (H1 & H2 & H3 & H4) & Hrep). split; [done|]. eapply rep_weaken; [exact H2|done].
Qed.

Lemma ext_sub g h g' h' : ext g h g' h' -> g ⊆ g' /\ g' ⊆ h' /\ h ⊆ h'.
Proof. intros (? & ? & ? & ?). done. Qed.

(** Case analysis on the tree a pointer stands for: a null pointer, or a node
    found in the heap. *)
Ltac rep_cases t H :=
  destruct t as [|?v ?p ?k ?x ?l ?r]; simpl in H;
  [subst | destruct H as (?a & ?n & -> & ?Hn & ?Hd & ?Hl & ?Hr);
           unfold node_data in *; simplify_eq].

(** ** A small heap for examples: the keys 7 (twice), 5 and 2, with priorities
    drawn by the identity. *)
Definition tree_ex : tree := Node 0 7 7 2 (Node 0 5 5 1 (Node 0 2 2 1 Leaf Leaf) Leaf) Leaf.

Definition heap_ex : heap := list_to_map [
  (1%positive, mk_node 0 2 2 1 1 None None);
  (2%positive, mk_node 0 5 5 1 2 (Some 1%positive) None);
  (3%positive, mk_node 0 7 7 2 4 (Some 2%positive) None)].

Lemma heap_ex_rep : rep heap_ex (Some 3%positive) tree_ex.
Proof.
  eexists 3%positive, _. split_and!; try done. eexists 2%positive, _. split_and!; try done.
  eexists 1%positive, _. by split_and!.
Qed.

Lemma tree_ex_wf : wf wrap64 tree_ex.
Proof. simpl. unfold u64. by vm_compute; intuition. Qed.
