(* ===== verification/TreapUpdate.v ===== *)
(** * Path-copying updates

    [src/lib/treap/search_insert.hpp] and [src/lib/treap/search_delete.hpp] as
    heap programs, and their refinement of the tree operations of [TreapTree].
    The recursion is bounded by a fuel argument; any fuel above the number of
    nodes of the tree is enough, so the operations are total. *)

From S2P Require Import Prelude TreapTree TreapNode.

(** ** search_insert.hpp *)

Fixpoint split_copy (fuel : nat) (ver : nat) (t : ptr) (key : Z) : M node_t (ptr * ptr) :=
  match fuel with
  | O => fail OutOfFuel
  | S fuel =>
      match t with
      | None => mret (None, None)
      | Some _ =>
          n ← load t;
          if key <? n_key n then
            t_r ← make_weak_copy_ver t ver;
            store t_r (set_rch (n_rch n));;
            lr ← split_copy fuel ver (n_lch n) key;
            store t_r (set_lch lr.2);;
            mret (lr.1, t_r)
          else
            t_l ← make_weak_copy_ver t ver;
            store t_l (set_lch (n_lch n));;
            lr ← split_copy fuel ver (n_rch n) key;
            store t_l (set_rch lr.1);;
            mret (t_l, lr.2)
      end
  end.

Definition process_deploy (fuel : nat) (ver : nat) (t_past : ptr) (pry key : Z) : M node_t ptr :=
  t_new ← make_node_pry ver pry key;
  lr ← split_copy fuel ver t_past key;
  store t_new (set_lch lr.1);;
  store t_new (set_rch lr.2);;
  mret t_new.

Fixpoint search_insert (fuel : nat) (ver : nat) (t_past : ptr) (pry key : Z) : M node_t ptr :=
  match fuel with
  | O => fail OutOfFuel
  | S fuel =>
      match t_past with
      | None => make_node_pry ver pry key
      | Some _ =>
          n ← load t_past;
          if pry <? n_pry n then
            t_new ← make_weak_copy_ver t_past ver;
            if key <? n_key n then
              store t_new (set_rch (n_rch n));;
              c ← search_insert fuel ver (n_lch n) pry key;
              store t_new (set_lch c);;
              mret t_new
            else
              store t_new (set_lch (n_lch n));;
              c ← search_insert fuel ver (n_rch n) pry key;
              store t_new (set_rch c);;
              mret t_new
          else if n_key n =? key then
            t_new ← make_weak_copy_ver t_past ver;
            store t_new (fun m => set_val (wrap64 (n_val m + 1)) m);;
            store t_new (set_lch (n_lch n));;
            store t_new (set_rch (n_rch n));;
            mret t_new
          else process_deploy (S fuel) ver t_past pry key
      end
  end.

(** ** search_delete.hpp *)

Fixpoint process_concat (fuel : nat) (ver : nat) (t_l t_r : ptr) : M node_t ptr :=
  match fuel with
  | O => fail OutOfFuel
  | S fuel =>
      match t_l, t_r with
      | None, _ => mret t_r
      | _, None => mret t_l
      | Some _, Some _ =>
          nl ← load t_l;
          nr ← load t_r;
          if n_pry nr <? n_pry nl then
            t_new ← make_weak_copy_ver t_l ver;
            store t_new (set_lch (n_lch nl));;
            c ← process_concat fuel ver (n_rch nl) t_r;
            store t_new (set_rch c);;
            mret t_new
          else
            t_new ← make_weak_copy_ver t_r ver;
            store t_new (set_rch (n_rch nr));;
            c ← process_concat fuel ver t_l (n_lch nr);
            store t_new (set_lch c);;
            mret t_new
      end
  end.

Fixpoint search_delete (fuel : nat) (ver : nat) (t_past : ptr) (pry key : Z) : M node_t ptr :=
  match fuel with
  | O => fail OutOfFuel
  | S fuel' =>
      match t_past with
      | None => mret None
      | Some _ =>
          n ← load t_past;
          if pry <? n_pry n then
            t_new ← make_weak_copy_ver t_past ver;
            if key <? n_key n then
              store t_new (set_rch (n_rch n));;
              c ← search_delete fuel' ver (n_lch n) pry key;
              store t_new (set_lch c);;
              mret t_new
            else
              store t_new (set_lch (n_lch n));;
              c ← search_delete fuel' ver (n_rch n) pry key;
              store t_new (set_rch c);;
              mret t_new
          else if n_key n =? key then
            if n_val n =? 1 then process_concat fuel ver (n_lch n) (n_rch n)
            else
              t_new ← make_weak_copy_ver t_past ver;
              store t_new (fun m => set_val (wrap64 (n_val m - 1)) m);;
              store t_new (set_lch (n_lch n));;
              store t_new (set_rch (n_rch n));;
              mret t_new
          else mret t_past
      end
  end.

(** ** Refinement *)

(** Symbolic execution of a node copy: the fresh node and its initial fields. *)
Lemma wp_make_weak_copy_ver a n ver (Q : ptr -> heap -> Prop) h :
  h !! a = Some n ->
  (forall b, h !! b = None ->
     Q (Some b) (<[b := mk_node ver (n_pry n) (n_key n) (n_val n) aug_uninitialized None None]> h)) ->
  wp (make_weak_copy_ver (Some a) ver) Q h.
Proof. intros Ha HQ. unfold make_weak_copy_ver. repeat wp_step. by apply HQ. Qed.

(** The shape shared by all path-copying steps: copy the node, fill one child,
    compute the other child recursively, and store it.  [R] is what the
    recursive call guarantees of its result. *)
Lemma wp_copy_step {A B} (R : heap -> A -> Prop) (rec : M node_t A)
    (f1 : node_t -> node_t) (f2 : A -> node_t -> node_t) (k : A -> ptr -> B)
    (Q : B -> heap -> Prop) g h a n ver :
  h !! a = Some n -> g ⊆ h ->
  (forall h1, g ⊆ h1 -> wp rec (fun c h' => exists g', ext g h1 g' h' /\ R g' c) h1) ->
  (forall b c g' h' n',
     n' = f2 c (f1 (mk_node ver (n_pry n) (n_key n) (n_val n) aug_uninitialized None None)) ->
     R g' c -> g ⊆ g' -> g' ⊆ <[b := n']> g' -> ext g h (<[b := n']> g') h' ->
     Q (k c (Some b)) h') ->
  wp (t_new ← make_weak_copy_ver (Some a) ver;
      store t_new f1;;
      c ← rec;
      store t_new (f2 c);;
      mret (k c t_new)) Q h.
Proof.
  intros Ha Hg Hrec HQ. wp_step. eapply wp_make_weak_copy_ver; [done|]. intros b Hb.
  wp_step. eapply wp_store; [apply lookup_insert_eq|]. rewrite insert_insert_eq.
  set (n1 := f1 _). wp_step.
  eapply wp_mono; [|apply Hrec; etrans; [exact Hg|by apply insert_subseteq]].
  intros c h' (g' & Hext & HR). destruct (ext_node _ _ _ _ _ _ (f2 c n1) Hg Hb Hext) as [Hgb Hext'].
  assert (h' !! b = Some n1) as Hb'.
  { apply ext_sub in Hext. eapply lookup_weaken; [|apply Hext]. apply lookup_insert_eq. }
  wp_step. wp_step. wp_step.
  eapply HQ; [done|done|apply (ext_sub _ _ _ _ Hext)|by apply insert_subseteq|done].
Qed.

Lemma split_copy_spec fuel ver t p key g h :
  rep g p t -> g ⊆ h -> (size t < fuel)%nat ->
  wp (split_copy fuel ver p key)
     (fun lr h' => exists g', ext g h g' h' /\
        rep g' lr.1 (t_split ver t key).1 /\ rep g' lr.2 (t_split ver t key).2) h.
Proof.
  revert t p g h. induction fuel as [|fuel IH]; intros t p g h Hrep Hg Hf; [lia|].
  rep_cases t Hrep; simpl.
  { wp_step. exists g. split_and!; [by apply ext_refl|done|done]. }
  assert (Hn' := lookup_weaken _ h _ _ Hn Hg). simpl in Hf. repeat wp_step.
  destruct (Z.ltb_spec key (n_key n)).
  - eapply (wp_copy_step _ _ _ _ (fun lr t_r => (lr.1, t_r))); [done|done| |].
    { intros h1 Hh1. by eapply (IH l); [done|done|lia]. }
    intros b [p1 p2] g' h' n' -> [Hp1 Hp2] Hgg' Hsub Hext. simpl in *.
    destruct (t_split ver l key) as [a1 a2]. simpl in *.
    eexists. split_and!; [exact Hext|by eapply rep_weaken|].
    eexists b, _. rewrite lookup_insert_eq. split_and!; [done|done|done| |];
      eapply rep_weaken; [exact Hsub|done|exact Hsub|by eapply rep_weaken].
  - eapply (wp_copy_step _ _ _ _ (fun lr t_l => (t_l, lr.2))); [done|done| |].
    { intros h1 Hh1. by eapply (IH r); [done|done|lia]. }
    intros b [p1 p2] g' h' n' -> [Hp1 Hp2] Hgg' Hsub Hext. simpl in *.
    destruct (t_split ver r key) as [a1 a2]. simpl in *.
    eexists. split_and!; [exact Hext| |by eapply rep_weaken].
    eexists b, _. rewrite lookup_insert_eq. split_and!; [done|done|done| |];
      eapply rep_weaken; [exact Hsub|by eapply rep_weaken|exact Hsub|done].
Qed.

(** The two instances of [wp_copy_step] the recursive updates use: the left, or
    the right, child is computed recursively. *)
Lemma wp_copy_left g h a n ver rec tl tr :
  h !! a = Some n -> g ⊆ h -> rep g (n_rch n) tr ->
  (forall h1, g ⊆ h1 -> wp rec (returns g h1 tl) h1) ->
  wp (t_new ← make_weak_copy_ver (Some a) ver;
      store t_new (set_rch (n_rch n));;
      c ← rec;
      store t_new (set_lch c);;
      mret t_new)
     (returns g h (Node ver (n_pry n) (n_key n) (n_val n) tl tr)) h.
Proof.
  intros Ha Hg Hr Hrec.
  eapply (wp_copy_step (fun g c => rep g c tl) _ _ _ (fun _ t => t)); [done|done|done|].
  intros b c g' h' n' -> Hc Hgg' Hsub Hext. eexists. split; [exact Hext|].
  eexists b, _. rewrite lookup_insert_eq.
  split_and!; [done|done|done| |]; eapply rep_weaken;
    [exact Hsub|done|exact Hsub|by eapply rep_weaken].
Qed.

Lemma wp_copy_right g h a n ver rec tl tr :
  h !! a = Some n -> g ⊆ h -> rep g (n_lch n) tl ->
  (forall h1, g ⊆ h1 -> wp rec (returns g h1 tr) h1) ->
  wp (t_new ← make_weak_copy_ver (Some a) ver;
      store t_new (set_lch (n_lch n));;
      c ← rec;
      store t_new (set_rch c);;
      mret t_new)
     (returns g h (Node ver (n_pry n) (n_key n) (n_val n) tl tr)) h.
Proof.
  intros Ha Hg Hl Hrec.
  eapply (wp_copy_step (fun g c => rep g c tr) _ _ _ (fun _ t => t)); [done|done|done|].
  intros b c g' h' n' -> Hc Hgg' Hsub Hext. eexists. split; [exact Hext|].
  eexists b, _. rewrite lookup_insert_eq.
  split_and!; [done|done|done| |]; eapply rep_weaken;
    [exact Hsub|by eapply rep_weaken|exact Hsub|done].
Qed.

Lemma process_deploy_spec fuel ver t p pry key g h :
  rep g p t -> g ⊆ h -> (size t < fuel)%nat ->
  wp (process_deploy fuel ver p pry key) (returns g h (t_deploy ver t pry key)) h.
Proof.
  intros Hrep Hg Hf. unfold process_deploy, make_node_pry.
  wp_step. apply wp_new. intros b Hb.
  wp_step. eapply wp_mono; [|eapply (split_copy_spec fuel ver t p key g); [done| |done]].
  2: { etrans; [exact Hg|by apply insert_subseteq]. }
  intros [p1 p2] h' (g' & Hext & Hp1 & Hp2). simpl in *.
  assert (h' !! b = Some (mk_node ver pry key 1 aug_uninitialized None None)) as Hb'.
  { apply ext_sub in Hext. eapply lookup_weaken; [|apply Hext]. apply lookup_insert_eq. }
  wp_step. wp_step. wp_step. eapply wp_store; [apply lookup_insert_eq|].
  rewrite insert_insert_eq. wp_step. unfold t_deploy.
  destruct (t_split ver t key) as [a1 a2]. simpl in *.
  by eapply (returns_node g h g' h' b _ (mk_node ver pry key 1 aug_uninitialized p1 p2)).
Qed.

(** A node copy whose value and children are set without recursion. *)
Lemma wp_copy_val g h a n ver y l r :
  h !! a = Some n -> g ⊆ h -> rep g (n_lch n) l -> rep g (n_rch n) r ->
  wp (t_new ← make_weak_copy_ver (Some a) ver;
      store t_new (fun m => set_val (y (n_val m)) m);;
      store t_new (set_lch (n_lch n));;
      store t_new (set_rch (n_rch n));;
      mret t_new)
     (returns g h (Node ver (n_pry n) (n_key n) (y (n_val n)) l r)) h.
Proof.
  intros Ha Hg Hl Hr. wp_step. eapply wp_make_weak_copy_ver; [done|]. intros b Hb.
  do 3 (wp_step; eapply wp_store; [apply lookup_insert_eq|]; rewrite insert_insert_eq).
  wp_step. set (n' := set_rch _ _). rewrite <- (insert_insert_eq h b n' n').
  eapply (returns_node g h g _ b n' n'); [done|done| |done|done].
  apply ext_refl. etrans; [exact Hg|by apply insert_subseteq].
Qed.

Lemma search_insert_spec fuel ver t p pry key g h :
  rep g p t -> g ⊆ h -> (size t < fuel)%nat ->
  wp (search_insert fuel ver p pry key) (returns g h (t_insert ver t pry key)) h.
Proof.
  revert t p g h. induction fuel as [|fuel IH]; intros t p g h Hrep Hg Hf; [lia|].
  assert (Hrep' := Hrep). rep_cases t Hrep; cbn [search_insert t_insert].
  { apply wp_new. intros b Hb. set (n' := mk_node _ _ _ _ _ _ _).
    rewrite <- (insert_insert_eq h b n' n').
    eapply (returns_node g h g _ b n' n'); [done|done| |done|done].
    apply ext_refl. etrans; [exact Hg|by apply insert_subseteq]. }
  assert (Hn' := lookup_weaken _ h _ _ Hn Hg). simpl in Hf. wp_step. wp_step.
  destruct (Z.ltb_spec pry (n_pry n)); [destruct (Z.ltb_spec key (n_key n))|].
  - apply wp_copy_left; [done|done|done|]. intros h1 Hh1. apply IH; [done|done|lia].
  - apply wp_copy_right; [done|done|done|]. intros h1 Hh1. apply IH; [done|done|lia].
  - destruct (Z.eqb_spec (n_key n) key).
    + by apply (wp_copy_val _ _ _ _ _ (fun x => wrap64 (x + 1))).
    + by apply process_deploy_spec.
Qed.

Lemma process_concat_spec fuel ver tl tr p q g h :
  rep g p tl -> rep g q tr -> g ⊆ h -> (size tl + size tr < fuel)%nat ->
  wp (process_concat fuel ver p q) (returns g h (t_concat ver tl tr)) h.
Proof.
  revert tl tr p q g h. induction fuel as [|fuel IH]; intros tl tr p q g h Hp Hq Hg Hf; [lia|].
  assert (Hp' := Hp). assert (Hq' := Hq). cbn [process_concat].
  rep_cases tl Hp.
  { rewrite t_concat_leaf_l. wp_step. by apply returns_old. }
  rep_cases tr Hq.
  { rewrite t_concat_leaf_r. wp_step. by apply returns_old. }
  rewrite t_concat_node. simpl in Hf.
  assert (Hn' := lookup_weaken _ h _ _ Hn Hg). assert (Hn0' := lookup_weaken _ h _ _ Hn0 Hg).
  do 4 wp_step. destruct (Z.ltb_spec (n_pry n0) (n_pry n)).
  - apply wp_copy_right; [done|done|done|]. intros h1 Hh1.
    apply IH; [done|exact Hq'|done|simpl; lia].
  - apply wp_copy_left; [done|done|done|]. intros h1 Hh1.
    apply IH; [exact Hp'|done|done|simpl; lia].
Qed.

Lemma search_delete_spec fuel ver t p pry key g h :
  rep g p t -> g ⊆ h -> (size t < fuel)%nat ->
  wp (search_delete fuel ver p pry key) (returns g h (t_delete ver t pry key)) h.
Proof.
  revert t p g h. induction fuel as [|fuel IH]; intros t p g h Hrep Hg Hf; [lia|].
  assert (Hrep' := Hrep). rep_cases t Hrep; cbn [search_delete t_delete].
  { wp_step. by apply returns_old. }
  assert (Hn' := lookup_weaken _ h _ _ Hn Hg). simpl in Hf. wp_step. wp_step.
  destruct (Z.ltb_spec pry (n_pry n)); [destruct (Z.ltb_spec key (n_key n))|].
  - apply wp_copy_left; [done|done|done|]. intros h1 Hh1. apply IH; [done|done|lia].
  - apply wp_copy_right; [done|done|done|]. intros h1 Hh1. apply IH; [done|done|lia].
  - destruct (Z.eqb_spec (n_key n) key); [destruct (Z.eqb_spec (n_val n) 1)|].
    + apply process_concat_spec; [done|done|done|lia].
    + by apply (wp_copy_val _ _ _ _ _ (fun x => wrap64 (x - 1))).
    + wp_step. by apply returns_old.
Qed.

(** ** The updates against the specification *)

(** C8: an insertion terminates without error, leaves every existing node (so
    every earlier version of the tree) as it was, and returns the root of a
    well-formed treap in which exactly the counter of [key] is one higher; nodes
    of the new version [ver] never point to later versions. *)
Theorem search_insert_correct hash `{!PerfectHash hash} fuel ver h p t key :
  rep h p t -> wf hash t -> vers_le ver t -> vers_mono t -> u64 key -> (size t < fuel)%nat ->
  wp (search_insert fuel ver p (hash key) key)
     (fun q h' => h ⊆ h' /\ rep h' p t /\ exists t', rep h' q t' /\ wf hash t' /\
        to_bag t' = bag_insert key (to_bag t) /\ vers_le ver t' /\ vers_mono t') h.
Proof.
  intros Hr W V Vm U Hf. eapply wp_mono; [|by apply (search_insert_spec fuel ver t p _ key h h)].
  intros q h' [Hs Hq]%returns_rep. split_and!; [done|by eapply rep_weaken|].
  eexists. split_and!; [exact Hq|by apply t_insert_wf|by apply t_insert_bag|by apply t_insert_vers|].
  by apply t_insert_mono.
Qed.

Theorem search_insert_correct_witness :
  wp (search_insert 9 1 (Some 3%positive) (wrap64 5) 5)
     (fun q h' => heap_ex ⊆ h' /\ rep h' (Some 3%positive) tree_ex /\
        exists t', rep h' q t' /\ wf wrap64 t' /\
        to_bag t' = bag_insert 5 (to_bag tree_ex) /\ vers_le 1 t' /\ vers_mono t') heap_ex.
Proof.
  apply (search_insert_correct wrap64);
    [exact heap_ex_rep|exact tree_ex_wf|vm_compute; intuition lia|vm_compute; intuition lia|done|
     vm_compute; lia].
Defined.

(** C9: a deletion terminates without error, leaves every existing node as it
    was, and returns the root of a well-formed treap in which the counter of [key]
    is one lower: the key is gone when the counter was 1, and the tree is as
    before when the key was absent. *)
Theorem search_delete_correct hash `{!PerfectHash hash} fuel ver h p t key :
  rep h p t -> wf hash t -> vers_le ver t -> vers_mono t -> u64 key -> (size t < fuel)%nat ->
  wp (search_delete fuel ver p (hash key) key)
     (fun q h' => h ⊆ h' /\ rep h' p t /\ exists t', rep h' q t' /\ wf hash t' /\
        to_bag t' = bag_delete key (to_bag t) /\ vers_le ver t' /\ vers_mono t') h.
Proof.
  intros Hr W V Vm U Hf. eapply wp_mono; [|by apply (search_delete_spec fuel ver t p _ key h h)].
  intros q h' [Hs Hq]%returns_rep. split_and!; [done|by eapply rep_weaken|].
  eexists. split_and!; [exact Hq|by apply t_delete_wf|by apply t_delete_bag|by apply t_delete_vers|].
  by apply t_delete_mono.
Qed.

Theorem search_delete_correct_witness :
  wp (search_delete 9 1 (Some 3%positive) (wrap64 5) 5)
     (fun q h' => heap_ex ⊆ h' /\ rep h' (Some 3%positive) tree_ex /\
        exists t', rep h' q t' /\ wf wrap64 t' /\
        to_bag t' = bag_delete 5 (to_bag tree_ex) /\ vers_le 1 t' /\ vers_mono t') heap_ex.
Proof.
  apply (search_delete_correct wrap64);
    [exact heap_ex_rep|exact tree_ex_wf|vm_compute; intuition lia|vm_compute; intuition lia|done|
     vm_compute; lia].
Defined.
