(* ===== verification/TreapQuery.v ===== *)
(** * Aggregates and queries

    [src/lib/treap/augment.hpp] (the cached subtree sums) and
    [src/lib/treap/query.hpp] (point and range queries) as heap programs. *)

From S2P Require Import Prelude TreapTree TreapNode.

(** ** augment.hpp *)

Fixpoint augment (fuel : nat) (t : ptr) : M node_t Z :=
  match fuel with
  | O => fail OutOfFuel
  | S fuel =>
      match t with
      | None => mret 0
      | Some _ =>
          n ← load t;
          if negb (n_aug n =? aug_uninitialized) then mret (n_aug n)
          else
            aug_l ← augment fuel (n_lch n);
            aug_r ← augment fuel (n_rch n);
            store t (set_aug (wrap64 (aug_l + n_val n + aug_r)));;
            n' ← load t;
            mret (n_aug n')
      end
  end.

(** [augment_parallel] forks on the two children; [order] decides, for every
    fork, which task the scheduler runs first. *)
Fixpoint augment_parallel (order : list nat -> bool) (fuel : nat) (t : ptr) : M node_t Z :=
  match fuel with
  | O => fail OutOfFuel
  | S fuel' =>
      match t with
      | None => mret 0
      | Some _ =>
          n ← load t;
          if negb (n_aug n =? aug_uninitialized) then mret (n_aug n)
          else
            lr ← par_do (order [])
                   (augment_parallel (branch 1 order) fuel' (n_lch n))
                   (augment_parallel (branch 2 order) fuel' (n_rch n));
            store t (set_aug (wrap64 (lr.1 + n_val n + lr.2)));;
            n' ← load t;
            mret (n_aug n')
      end
  end.

(** ** query.hpp *)

Fixpoint find (fuel : nat) (t : ptr) (key : Z) : M node_t ptr :=
  match fuel with
  | O => fail OutOfFuel
  | S fuel =>
      match t with
      | None => mret None
      | Some _ =>
          n ← load t;
          if key =? n_key n then mret t
          else find fuel (if key <? n_key n then n_lch n else n_rch n) key
      end
  end.

Fixpoint range_estimate (fuel : nat) (t : ptr) (l r : Z) (d : range_cover) : M node_t Z :=
  match fuel with
  | O => fail OutOfFuel
  | S fuel =>
      match t with
      | None => mret 0
      | Some _ =>
          n ← load t;
          let both dl dr :=
            ret_l ← range_estimate fuel (n_lch n) l r dl;
            ret_r ← range_estimate fuel (n_rch n) l r dr;
            mret (wrap64 (ret_l + n_val n + ret_r)) in
          match d with
          | OPEN_OPEN =>
              if r <? n_key n then range_estimate fuel (n_lch n) l r d
              else if n_key n <? l then range_estimate fuel (n_rch n) l r d
              else both OPEN_CLOSE CLOSE_OPEN
          | OPEN_CLOSE =>
              if n_key n <? l then range_estimate fuel (n_rch n) l r d
              else both d CLOSE_CLOSE
          | CLOSE_OPEN =>
              if r <? n_key n then range_estimate fuel (n_lch n) l r d
              else both CLOSE_CLOSE d
          | CLOSE_CLOSE => mret (n_aug n)
          end
      end
  end.

Definition range_estimate_open (fuel : nat) (t : ptr) (l r : Z) : M node_t Z :=
  range_estimate fuel t l r OPEN_OPEN.

(** ** Cached aggregates *)

(** The tree at [p] is [t] and every node of it caches its subtree sum. *)
Fixpoint auged (h : heap) (p : ptr) (t : tree) : Prop :=
  match t with
  | Leaf => p = None
  | Node v pr k x l r =>
      exists a n, p = Some a /\ h !! a = Some n /\ node_data n = (v, pr, k, x) /\
        n_aug n = wrap64 (t_sum t) /\ auged h (n_lch n) l /\ auged h (n_rch n) r
  end.

(** An initialised aggregate is right, and so are those below it. *)
Definition aug_wf (h : heap) : Prop :=
  forall a n, h !! a = Some n -> n_aug n <> aug_uninitialized -> exists t, auged h (Some a) t.

Lemma auged_rep h p t : auged h p t -> rep h p t.
Proof.
  revert p. induction t as [|v pr k x l IHl r IHr]; simpl; [done|].
  intros p (a & n & -> & Hn & Hd & Ha & Hl & Hr). exists a, n. split_and!; auto.
Qed.

Lemma auged_weaken h h' p t : h ⊆ h' -> auged h p t -> auged h' p t.
Proof.
  intros Hs. revert p. induction t as [|v pr k x l IHl r IHr]; simpl; [done|].
  intros p (a & n & -> & Hn & Hd & Ha & Hl & Hr).
  exists a, n. split_and!; eauto using lookup_weaken.
Qed.

(** Allocation of nodes without aggregate keeps the invariant. *)
Lemma aug_wf_weaken h h' :
  h ⊆ h' -> (forall a n, h' !! a = Some n -> h !! a = None -> n_aug n = aug_uninitialized) ->
  aug_wf h -> aug_wf h'.
Proof.
  intros Hs Hnew Hwf a n Hn Hne. destruct (h !! a) as [m|] eqn:E.
  - assert (m = n) as -> by (eapply lookup_weaken in E; [|exact Hs]; congruence).
    destruct (Hwf a n E Hne) as [t Ht]. exists t. by eapply auged_weaken.
  - by destruct Hne; eapply Hnew.
Qed.

(** What filling in aggregates does to the heap: only [aug] fields change, and
    what was known to be right stays so. *)
Definition aug_step (h h' : heap) : Prop :=
  (forall a n, h !! a = Some n -> exists x, h' !! a = Some (set_aug x n)) /\
  (forall a, h !! a = None -> h' !! a = None) /\
  (forall p t, auged h p t -> auged h' p t).

#[global] Instance aug_step_preorder : PreOrder aug_step.
Proof.
  split.
  - intros h. split_and!; [|done|done]. intros a n Hn. exists (n_aug n). by destruct n.
  - intros h1 h2 h3 (A1 & B1 & C1) (A2 & B2 & C2). split_and!; [|auto|auto].
    intros a n Hn. destruct (A1 a n Hn) as [x Hx]. destruct (A2 a _ Hx) as [y Hy].
    exists y. by destruct n.
Qed.

Lemma aug_step_heap_le h h' : aug_step h h' -> heap_le h h'.
Proof. intros (H & _ & _). exact H. Qed.

Lemma set_aug_id n : set_aug (n_aug n) n = n.
Proof. by destruct n. Qed.

(** Writing the right sum into a node is an [aug_step] that keeps [aug_wf]. *)
Lemma aug_step_store h a n v pr k x l r :
  h !! a = Some n -> node_data n = (v, pr, k, x) ->
  auged h (n_lch n) l -> auged h (n_rch n) r ->
  let n' := set_aug (wrap64 (t_sum (Node v pr k x l r))) n in
  aug_step h (<[a := n']> h) /\ auged (<[a := n']> h) (Some a) (Node v pr k x l r).
Proof.
  intros Hn Hd Hl Hr n'.
  assert (forall p t, auged h p t -> auged (<[a := n']> h) p t) as Hstable.
  { intros p t. revert p. induction t as [|v' pr' k' x' l' IHl r' IHr]; [done|].
    intros p Hau. assert (Hrep := auged_rep _ _ _ Hau).
    destruct Hau as (b & m & -> & Hm & Hdm & Ha & Hl' & Hr').
    destruct (decide (a = b)) as [<-|Hne].
    - assert (rep h (Some a) (Node v pr k x l r)) as Hrep'.
      { exists a, n. split_and!; auto using auged_rep. }
      pose proof (rep_det _ _ _ _ Hrep Hrep') as E. injection E as -> -> -> -> -> ->.
      assert (m = n) as -> by congruence.
      exists a, n'. rewrite lookup_insert_eq. split_and!; try done; auto.
    - exists b, m. rewrite lookup_insert_ne by done. split_and!; auto. }
  split; [split_and!|].
  - intros b m Hm. destruct (decide (a = b)) as [<-|Hne].
    + rewrite lookup_insert_eq. eexists. assert (m = n) as -> by congruence. done.
    + rewrite lookup_insert_ne by done. exists (n_aug m). by rewrite set_aug_id.
  - intros b Hb. rewrite lookup_insert_ne; [done|congruence].
  - done.
  - exists a, n'. rewrite lookup_insert_eq. split_and!; try done; by apply Hstable.
Qed.

Lemma aug_wf_step h a n t s :
  h !! a = Some n -> aug_wf h -> aug_step h (<[a := set_aug s n]> h) ->
  auged (<[a := set_aug s n]> h) (Some a) t -> aug_wf (<[a := set_aug s n]> h).
Proof.
  intros Hn Hwf (_ & _ & Hst) Ht b m Hm Hne. destruct (decide (a = b)) as [<-|Hab].
  - by exists t.
  - rewrite lookup_insert_ne in Hm by done. destruct (Hwf b m Hm Hne) as [t' Ht'].
    exists t'. by apply Hst.
Qed.

(** ** Correctness of [augment] *)

(** What a call on a pointer to [t] guarantees. *)
Definition augmented (h : heap) (p : ptr) (t : tree) (s : Z) (h' : heap) : Prop :=
  s = wrap64 (t_sum t) /\ aug_step h h' /\ auged h' p t /\ aug_wf h'.

Lemma augmented_old h a t n :
  h !! a = Some n -> rep h (Some a) t -> aug_wf h -> n_aug n <> aug_uninitialized ->
  augmented h (Some a) t (n_aug n) h.
Proof.
  intros Hn Hrep Hwf Hne. destruct (Hwf a n Hn Hne) as [t' Ht'].
  assert (t' = t) as -> by (eapply rep_det; [by eapply auged_rep|done]).
  split_and!; [|done|done|done].
  destruct t; [done|]. destruct Ht' as (b & m & [= <-] & Hm & _ & Ha & _). congruence.
Qed.

(** Storing the sum once both children are aggregated. *)
Lemma wp_augment_node h0 h a n v pr k x l r al ar :
  h !! a = Some n -> node_data n = (v, pr, k, x) -> aug_step h0 h -> aug_wf h ->
  auged h (n_lch n) l -> auged h (n_rch n) r ->
  al = wrap64 (t_sum l) -> ar = wrap64 (t_sum r) ->
  wp (store (Some a) (set_aug (wrap64 (al + n_val n + ar)));; n' ← load (Some a); mret (n_aug n'))
     (augmented h0 (Some a) (Node v pr k x l r)) h.
Proof.
  intros Hn Hd Hst Hwf Hl Hr -> ->. unfold node_data in Hd. simplify_eq.
  assert (wrap64 (wrap64 (t_sum l) + n_val n + wrap64 (t_sum r)) =
          wrap64 (t_sum (Node (n_ver n) (n_pry n) (n_key n) (n_val n) l r))) as E.
  { simpl. rewrite wrap64_add_r, <- Z.add_assoc, wrap64_add_l. f_equal. lia. }
  rewrite E. destruct (aug_step_store h a n _ _ _ _ l r Hn eq_refl Hl Hr) as [Hst' Hau].
  wp_step. wp_step. wp_step. eapply wp_load; [apply lookup_insert_eq|]. wp_step.
  split_and!; [done|by etrans|done|]. by eapply aug_wf_step.
Qed.

Lemma aug_step_rep h h' p t : aug_step h h' -> rep h p t -> rep h' p t.
Proof. intros Hst. by apply rep_heap_le, aug_step_heap_le. Qed.

Lemma augment_parallel_spec order fuel h p t :
  rep h p t -> aug_wf h -> (size t < fuel)%nat ->
  wp (augment_parallel order fuel p) (augmented h p t) h.
Proof.
  revert order h p t. induction fuel as [|fuel IH]; intros order h p t Hrep Hwf Hf; [lia|].
  assert (Hrep' := Hrep). rep_cases t Hrep; cbn [augment_parallel].
  { wp_step. by split_and!. }
  simpl in Hf. wp_step. wp_step.
  destruct (Z.eqb_spec (n_aug n) aug_uninitialized); simpl.
  2: { wp_step. by apply augmented_old. }
  wp_step.
  (* either order leaves both children aggregated *)
  assert (wp (par_do (order []) (augment_parallel (branch 1 order) fuel (n_lch n))
                (augment_parallel (branch 2 order) fuel (n_rch n)))
             (fun lr h' => lr.1 = wrap64 (t_sum l) /\ lr.2 = wrap64 (t_sum r) /\
                aug_step h h' /\ auged h' (n_lch n) l /\ auged h' (n_rch n) r /\ aug_wf h') h)
    as Hpar.
  { unfold par_do. destruct (order []).
    - wp_step. eapply wp_mono; [|apply (IH _ h _ l); [done|done|lia]].
      intros al h1 (-> & S1 & A1 & W1). wp_step.
      eapply wp_mono; [|apply (IH _ h1 _ r); [by eapply aug_step_rep|done|lia]].
      intros ar h2 (-> & S2 & A2 & W2). wp_step.
      split_and!; [done|done|by etrans|by apply S2|done|done].
    - wp_step. eapply wp_mono; [|apply (IH _ h _ r); [done|done|lia]].
      intros ar h1 (-> & S1 & A1 & W1). wp_step.
      eapply wp_mono; [|apply (IH _ h1 _ l); [by eapply aug_step_rep|done|lia]].
      intros al h2 (-> & S2 & A2 & W2). wp_step.
      split_and!; [done|done|by etrans|done|by apply S2|done]. }
  eapply wp_mono; [|exact Hpar]. intros [al ar] h' (Eal & Ear & Hst & Al & Ar & Hwf').
  simpl in *. destruct (aug_step_heap_le _ _ Hst a n Hn) as [y Hy].
  by eapply (wp_augment_node h h' a (set_aug y n)).
Qed.

Lemma augment_spec fuel h p t :
  rep h p t -> aug_wf h -> (size t < fuel)%nat ->
  wp (augment fuel p) (augmented h p t) h.
Proof.
  revert h p t. induction fuel as [|fuel IH]; intros h p t Hrep Hwf Hf; [lia|].
  assert (Hrep' := Hrep). rep_cases t Hrep; cbn [augment].
  { wp_step. by split_and!. }
  simpl in Hf. wp_step. wp_step.
  destruct (Z.eqb_spec (n_aug n) aug_uninitialized); simpl.
  2: { wp_step. by apply augmented_old. }
  wp_step. eapply wp_mono; [|apply (IH h _ l); [done|done|lia]].
  intros al h1 (Eal & S1 & A1 & W1). wp_step.
  eapply wp_mono; [|apply (IH h1 _ r); [by eapply aug_step_rep|done|lia]].
  intros ar h2 (Ear & S2 & A2 & W2).
  assert (Hst : aug_step h h2) by by etrans.
  destruct (aug_step_heap_le _ _ Hst a n Hn) as [y Hy].
  eapply (wp_augment_node h h2 a (set_aug y n)); try done. by apply S2.
Qed.

(** ** Correctness of the queries *)

Lemma find_spec {hash} fuel h p t key :
  rep h p t -> wf hash t -> (size t < fuel)%nat ->
  wp (find fuel p key)
     (fun q h' => h' = h /\
        match t_lookup t key with
        | None => q = None
        | Some x => exists a n, q = Some a /\ h !! a = Some n /\ n_key n = key /\ n_val n = x
        end) h.
Proof.
  revert h p t. induction fuel as [|fuel IH]; intros h p t Hrep W Hf; [lia|].
  rep_cases t Hrep; cbn [find].
  { by wp_step. }
  simpl in Hf. destruct W as (_ & _ & _ & _ & _ & Wl & Wr). wp_step. wp_step. simpl.
  destruct (Z.eqb_spec key (n_key n)) as [->|Hne].
  { wp_step. split; [done|]. by exists a, n. }
  destruct (Z.ltb_spec key (n_key n)); apply IH; done || lia.
Qed.

Lemma range_estimate_spec {hash} fuel h p t lo hi d :
  auged h p t -> wf hash t -> all_keys (cover_ok lo hi d) t -> (size t < fuel)%nat ->
  wp (range_estimate fuel p lo hi d) (fun s h' => h' = h /\ s = wrap64 (t_range_sum lo hi t)) h.
Proof.
  revert h p t d. induction fuel as [|fuel IH]; intros h p t d Hau W Hc Hf; [lia|].
  destruct t as [|v pr k x l r].
  { simpl in Hau. subst p. cbn [range_estimate]. by wp_step. }
  assert (Hc' := Hc). simpl in Hf. destruct Hau as (a & n & -> & Hn & Hd & Ha & Hl & Hr).
  unfold node_data in Hd. simplify_eq.
  destruct W as (_ & _ & _ & Bl & Br & Wl & Wr). cbn [range_estimate].
  destruct Hc' as (Ck & Cl & Cr). wp_step. wp_step. cbn [t_range_sum].
  (* one child is out of range *)
  assert (forall dl dr,
    all_keys (cover_ok lo hi dl) l -> all_keys (cover_ok lo hi dr) r ->
    lo <= n_key n <= hi ->
    wp (ret_l ← range_estimate fuel (n_lch n) lo hi dl;
        ret_r ← range_estimate fuel (n_rch n) lo hi dr;
        mret (wrap64 (ret_l + n_val n + ret_r)))
       (fun s h' => h' = h /\ s = wrap64 (t_range_sum lo hi l +
          (if in_range lo hi (n_key n) then n_val n else 0) + t_range_sum lo hi r)) h) as Hboth.
  { intros dl dr Hdl Hdr Hin. wp_step.
    eapply wp_mono; [|apply (IH h _ l dl); done || lia]. intros sl h1 [-> ->]. wp_step.
    eapply wp_mono; [|apply (IH h _ r dr); done || lia]. intros sr h2 [-> ->]. wp_step.
    split; [done|]. unfold in_range. rewrite wrap64_add_r, <- Z.add_assoc, wrap64_add_l.
    zcases; simpl; f_equal; lia. }
  assert (hi < n_key n -> in_range lo hi (n_key n) = false /\ t_range_sum lo hi r = 0) as Hright.
  { intros Hlt. split; [unfold in_range; zcases; simpl; lia || done|].
    apply t_range_sum_none. eapply all_keys_impl; [|exact Br].
    simpl; intros; unfold in_range; zcases; simpl; lia || done. }
  assert (n_key n < lo -> in_range lo hi (n_key n) = false /\ t_range_sum lo hi l = 0) as Hleft.
  { intros Hlt. split; [unfold in_range; zcases; simpl; lia || done|].
    apply t_range_sum_none. eapply all_keys_impl; [|exact Bl].
    simpl; intros; unfold in_range; zcases; simpl; lia || done. }
  assert (forall Q, (forall s h', h' = h /\ s = wrap64 (t_range_sum lo hi l) -> Q s h') ->
    all_keys (cover_ok lo hi d) l -> wp (range_estimate fuel (n_lch n) lo hi d) Q h) as Hgl.
  { intros Q HQ Hd. eapply wp_mono; [exact HQ|]. apply IH; done || lia. }
  assert (forall Q, (forall s h', h' = h /\ s = wrap64 (t_range_sum lo hi r) -> Q s h') ->
    all_keys (cover_ok lo hi d) r -> wp (range_estimate fuel (n_rch n) lo hi d) Q h) as Hgr.
  { intros Q HQ Hd. eapply wp_mono; [exact HQ|]. apply IH; done || lia. }
  assert (forall d', (forall j, j < n_key n -> cover_ok lo hi d j -> cover_ok lo hi d' j) ->
    all_keys (cover_ok lo hi d') l) as Hcl.
  { intros d' Hi. eapply all_keys_impl; [|apply all_keys_and; split; [exact Bl|exact Cl]].
    simpl; intros j [[??]?]; auto. }
  assert (forall d', (forall j, n_key n < j -> cover_ok lo hi d j -> cover_ok lo hi d' j) ->
    all_keys (cover_ok lo hi d') r) as Hcr.
  { intros d' Hi. eapply all_keys_impl; [|apply all_keys_and; split; [exact Br|exact Cr]].
    simpl; intros j [[??]?]; auto. }
  destruct d; simpl in Ck.
  - destruct (Z.ltb_spec hi (n_key n)).
    { destruct Hright as [-> ->]; [lia|]. apply Hgl; [|done].
      intros ? ? [-> ->]. split; [done|f_equal; lia]. }
    destruct (Z.ltb_spec (n_key n) lo).
    { destruct Hleft as [-> ->]; [lia|]. apply Hgr; [|done].
      intros ? ? [-> ->]. split; [done|f_equal; lia]. }
    apply Hboth; [apply Hcl|apply Hcr|lia]; simpl; lia.
  - destruct (Z.ltb_spec (n_key n) lo).
    { destruct Hleft as [-> ->]; [lia|]. apply Hgr; [|done].
      intros ? ? [-> ->]. split; [done|f_equal; lia]. }
    apply Hboth; [apply Hcl|apply Hcr|lia]; simpl; lia.
  - destruct (Z.ltb_spec hi (n_key n)).
    { destruct Hright as [-> ->]; [lia|]. apply Hgl; [|done].
      intros ? ? [-> ->]. split; [done|f_equal; lia]. }
    apply Hboth; [apply Hcl|apply Hcr|lia]; simpl; lia.
  - wp_step. split; [done|]. rewrite Ha. f_equal. simpl.
    rewrite !t_range_sum_all by done. unfold in_range. zcases; simpl; lia.
Qed.

(** ** Aggregates and queries against the specification *)

Lemma heap_ex_auged : auged heap_ex (Some 3%positive) tree_ex.
Proof.
  eexists 3%positive, _. split_and!; try done. eexists 2%positive, _. split_and!; try done.
  eexists 1%positive, _. by split_and!.
Qed.

(** [find] terminates, changes nothing, and returns the node that holds the
    counter of [key], or the null pointer exactly when the key is absent. *)
Theorem find_correct hash `{!PerfectHash hash} fuel h p t key :
  rep h p t -> wf hash t -> (size t < fuel)%nat ->
  wp (find fuel p key)
     (fun q h' => h' = h /\
        match to_bag t !! key with
        | None => q = None
        | Some x => exists a n, q = Some a /\ h !! a = Some n /\ n_key n = key /\ n_val n = x
        end) h.
Proof.
  intros Hr W Hf. rewrite (to_bag_lookup hash) by done. by apply (find_spec (hash := hash)).
Qed.

Theorem find_correct_witness :
  wp (find 9 (Some 3%positive) 5)
     (fun q h' => h' = heap_ex /\
        match to_bag tree_ex !! 5 with
        | None => q = None
        | Some x => exists a n, q = Some a /\ heap_ex !! a = Some n /\ n_key n = 5 /\ n_val n = x
        end) heap_ex.
Proof.
  apply (find_correct wrap64); [exact heap_ex_rep|exact tree_ex_wf|vm_compute; lia].
Defined.

(** C11: on an aggregated tree, [range_estimate] terminates, changes nothing and
    returns the sum of the counters of the keys from [lo] to [hi], both included,
    modulo 2^64, although it reads the cached sums of covered subtrees only. *)
Theorem range_estimate_correct hash `{!PerfectHash hash} fuel h p t lo hi :
  auged h p t -> wf hash t -> (size t < fuel)%nat ->
  wp (range_estimate_open fuel p lo hi)
     (fun s h' => h' = h /\ s = wrap64 (bag_range_sum lo hi (to_bag t))) h.
Proof.
  intros Ha W Hf. rewrite (bag_range_sum_tree hash) by done.
  apply (range_estimate_spec (hash := hash)); try done.
  clear. induction t; simpl; auto.
Qed.

Theorem range_estimate_correct_witness :
  wp (range_estimate_open 9 (Some 3%positive) 3 7)
     (fun s h' => h' = heap_ex /\ s = wrap64 (bag_range_sum 3 7 (to_bag tree_ex))) heap_ex.
Proof.
  apply (range_estimate_correct wrap64); [exact heap_ex_auged|exact tree_ex_wf|vm_compute; lia].
Defined.

(** Whatever the order in which the forked tasks run, the parallel
    aggregation terminates and leaves the sum of its subtree in every node of the
    tree; keys, counters, versions and links of all nodes stay as they were, and
    so do the aggregates of trees that were complete before. *)
Theorem augment_parallel_correct order fuel h p t :
  rep h p t -> aug_wf h -> (size t < fuel)%nat ->
  wp (augment_parallel order fuel p)
     (fun s h' => s = wrap64 (t_sum t) /\ auged h' p t /\ aug_wf h' /\ heap_le h h' /\
        forall q t', auged h q t' -> auged h' q t') h.
Proof.
  intros Hr W Hf. eapply wp_mono; [|by apply augment_parallel_spec].
  intros s h' (-> & Hst & Ha & Hw). split_and!; try done; [by apply aug_step_heap_le|apply Hst].
Qed.

Lemma aug_wf_uninit h : (forall a n, h !! a = Some n -> n_aug n = aug_uninitialized) -> aug_wf h.
Proof. intros H a n Hn Hne. destruct Hne. by apply (H a). Qed.

Theorem augment_parallel_correct_witness :
  wp (augment_parallel (fun _ => false) 9 (Some 3%positive))
     (fun s h' => s = wrap64 (t_sum tree_ex) /\ auged h' (Some 3%positive) tree_ex /\ aug_wf h' /\
        heap_le (set_aug 0 <$> heap_ex) h' /\
        forall q t', auged (set_aug 0 <$> heap_ex) q t' -> auged h' q t') (set_aug 0 <$> heap_ex).
Proof.
  apply augment_parallel_correct; [|apply aug_wf_uninit|vm_compute; lia].
  - eexists 3%positive, _. split_and!; try done. eexists 2%positive, _. split_and!; try done.
    eexists 1%positive, _. by split_and!.
  - intros a n Hn. rewrite lookup_fmap in Hn. apply fmap_Some in Hn as (m & _ & ->). done.
Defined.
