(* ===== verification/Owned.v ===== *)
(** * Exclusive ownership of heap locations

    The bulk operations ([build], [merge], the batch updates of [src/lib/pam])
    overwrite nodes in place and run on both subtrees in parallel.  A set of
    locations says what an operation may overwrite or release: [acts h D h' D']
    means that running from [h] with the locations [D] gave [h'] and the
    locations [D'], that everything else in [h] was left alone, that what [D']
    adds to [D] is newly allocated, and that nothing is leaked: every location
    allocated in [h'] is one of [D'] or one that was left alone. *)

From S2P Require Import Prelude.
From stdpp Require Export sets.

#[global] Open Scope Z_scope.

Section owned.
Context {N : Type}.
Implicit Types (h : gmap loc N) (D : gset loc).

Record acts h D h' D' : Prop := {
  acts_keep : forall a n, h !! a = Some n -> a ∉ D -> h' !! a = Some n;
  acts_fresh : forall a, a ∈ D' -> a ∈ D \/ h !! a = None;
  acts_leak : forall a, is_Some (h' !! a) -> a ∈ D' \/ (is_Some (h !! a) /\ (a ∉ D));
}.

Lemma acts_refl h D : acts h D h D.
Proof. split; auto. intros a Ha. destruct (decide (a ∈ D)); auto. Qed.

Lemma acts_trans h D h1 D1 h2 D2 : acts h D h1 D1 -> acts h1 D1 h2 D2 -> acts h D h2 D2.
Proof.
  intros [A1 B1 C1] [A2 B2 C2]. split.
  - intros a n Ha HD. apply A2; [by apply A1|]. intros HD1. destruct (B1 a HD1); congruence.
  - intros a HD2. destruct (B2 a HD2) as [HD1|Hnone]; [by apply B1|].
    destruct (h !! a) as [n|] eqn:E; [|by right]. destruct (decide (a ∈ D)); [by left|].
    rewrite (A1 a n E) in Hnone by done. done.
  - intros a Ha. destruct (C2 a Ha) as [H|[H1 H2]]; [by left|].
    destruct (C1 a H1); [done|by right].
Qed.

(** An operation on [D1] leaves the rest of [D1 ∪ E] alone. *)
Lemma acts_frame h D h' D' E :
  (forall a, a ∈ E -> is_Some (h !! a)) -> D ## E -> acts h D h' D' ->
  acts h (D ∪ E) h' (D' ∪ E) /\ D' ## E /\ (forall a, a ∈ E -> h' !! a = h !! a).
Proof.
  intros HE Hdisj [A B C]. split_and!.
  - split; [set_solver| |].
    + intros a [Ha|Ha]%elem_of_union; [destruct (B a Ha)|]; set_solver.
    + intros a Ha. destruct (C a Ha) as [?|[??]]; [set_solver|].
      destruct (decide (a ∈ E)); [set_solver|right; set_solver].
  - intros a Ha HaE. destruct (HE a HaE) as [n Hn]. destruct (B a Ha); [set_solver|congruence].
  - intros a Ha. destruct (HE a Ha) as [n Hn]. rewrite Hn. apply A; [done|set_solver].
Qed.

(** An operation on [D], after which the node [a] outside [D] is overwritten;
    the locations [R] are left alone. *)
Lemma acts_child h a n n' D R h1 D' :
  h !! a = Some n -> a ∉ D -> a ∉ R -> D ## R -> (forall b, b ∈ R -> is_Some (h !! b)) ->
  acts h D h1 D' ->
  h1 !! a = Some n /\ acts h ({[a]} ∪ D ∪ R) (<[a := n']> h1) ({[a]} ∪ D' ∪ R) /\
  (a ∉ D') /\ D' ## R /\ (forall b, b ∈ R -> <[a := n']> h1 !! b = h !! b) /\
  (forall b, b ∈ D' -> <[a := n']> h1 !! b = h1 !! b).
Proof.
  intros Ha HD HR HDR Hdom Hacts.
  destruct (acts_frame h D h1 D' ({[a]} ∪ R)) as (A & Hdisj & Hkeep); [|set_solver|done|].
  { intros b [->%elem_of_singleton|Hb]%elem_of_union; [by exists n|by apply Hdom]. }
  split_and!.
  - rewrite Hkeep; [done|set_solver].
  - destruct A as [A1 A2 A3]. split.
    + intros b m Hb Hn. rewrite lookup_insert_ne by set_solver. apply A1; [done|set_solver].
    + intros b Hb. destruct (A2 b); [set_solver|left; set_solver|by right].
    + intros b Hb. destruct (decide (a = b)) as [<-|Hab]; [set_solver|].
      rewrite lookup_insert_ne in Hb by done. destruct (A3 b Hb) as [?|[??]]; [left; set_solver|].
      right. set_solver.
  - set_solver.
  - set_solver.
  - intros b Hb. rewrite lookup_insert_ne by set_solver. apply Hkeep. set_solver.
  - intros b Hb. rewrite lookup_insert_ne; [done|set_solver].
Qed.

(** Changing the footprint by a set equality. *)
Lemma acts_equiv h D h' D' D0 D0' : D ≡ D0 -> D' ≡ D0' -> acts h D h' D' -> acts h D0 h' D0'.
Proof.
  intros E E' [A B C]. split.
  - intros a n Ha. rewrite <- E. by apply A.
  - intros a. rewrite <- E, <- E'. apply B.
  - intros a. rewrite <- E, <- E'. apply C.
Qed.

Lemma acts_store h a n D : a ∈ D -> acts h D (<[a := n]> h) D.
Proof.
  intros Ha. split; [|auto|].
  - intros b m Hb Hn. rewrite lookup_insert_ne; [done|set_solver].
  - intros b. destruct (decide (a = b)) as [<-|Hab]; [by left|]. rewrite lookup_insert_ne by done.
    destruct (decide (b ∈ D)); auto.
Qed.

Lemma acts_free h a D : a ∈ D -> acts h D (delete a h) (D ∖ {[a]}).
Proof.
  intros Ha. split; [|set_solver|].
  - intros b m Hb Hn. rewrite lookup_delete_ne; [done|set_solver].
  - intros b [m Hb]. apply lookup_delete_Some in Hb as [Hne Hb].
    destruct (decide (b ∈ D)); [left; set_solver|right; by split].
Qed.

Lemma acts_subseteq h h' D' : acts h ∅ h' D' -> h ⊆ h'.
Proof. intros [A _ _]. apply map_subseteq_spec. intros a n Ha. apply A; [done|set_solver]. Qed.

Lemma acts_new h a n : h !! a = None -> acts h ∅ (<[a := n]> h) {[a]}.
Proof.
  intros Ha. split; [|set_solver|].
  - intros b m Hb Hn. rewrite lookup_insert_ne; [done|congruence].
  - intros b. destruct (decide (a = b)) as [<-|Hab]; [set_solver|].
    rewrite lookup_insert_ne by done. right. set_solver.
Qed.
(** Allocation next to a working set. *)
Lemma acts_alloc h a n D : h !! a = None -> acts h D (<[a := n]> h) ({[a]} ∪ D).
Proof.
  intros Ha. split.
  - intros b m Hb Hn. rewrite lookup_insert_ne; [done|congruence].
  - intros b Hb. destruct (decide (b ∈ D)); [by left|right]. assert (b = a) as -> by set_solver. done.
  - intros b. destruct (decide (a = b)) as [<-|Hab]; [left; set_solver|].
    rewrite lookup_insert_ne by done. intros Hb. destruct (decide (b ∈ D)); [left; set_solver|by right].
Qed.
End owned.

(** ** Trees of owned nodes

    What the two node structures of the library ([treap::node_t], [pam::node_t])
    have in common: two child pointers, and a notion of an exclusively owned
    tree. *)

Class TreeNode (N : Type) := {
  get_l : N -> ptr;
  get_r : N -> ptr;
  put_l : ptr -> N -> N;
  put_r : ptr -> N -> N;
  get_r_put_l p n : get_r (put_l p n) = get_r n;
  get_l_put_r p n : get_l (put_r p n) = get_l n;
  put_comm p q n : put_r q (put_l p n) = put_l p (put_r q n);
}.

Class OwnedTree (N T : Type) := {
  owns : gmap loc N -> ptr -> T -> gset loc -> Prop;
  owns_dom h p t D : owns h p t D -> forall a, a ∈ D -> is_Some (h !! a);
  owns_frame h h' p t D : (forall a, a ∈ D -> h' !! a = h !! a) -> owns h p t D -> owns h' p t D;
}.

Section children.
Context {N T : Type} `{!TreeNode N, !OwnedTree N T}.

(** The two assignments [t->lch = lm] and [t->rch = rm], run in parallel. *)
Definition par_children (left_first : bool) (t : ptr) (lm rm : M N ptr) : M N (unit * unit) :=
  par_do left_first (c ← lm; store t (put_l c)) (c ← rm; store t (put_r c)).

(** [m], run with the locations [D], returns an owned tree that satisfies [Q]. *)
Definition makes (D : gset loc) (m : M N ptr) (Q : T -> Prop) (h : gmap loc N) : Prop :=
  wp m (fun c h' => exists t D', acts h D h' D' /\ owns h' c t D' /\ Q t) h.

Lemma makes_equiv D D' m Q h : D ≡ D' -> makes D m Q h -> makes D' m Q h.
Proof.
  intros E H. eapply wp_mono; [|exact H]. intros c h' (t & D1 & A & O & HQ).
  exists t, D1. split_and!; try done. by eapply acts_equiv; [exact E| |exact A].
Qed.

(** What the two tasks may rely on: their own locations and the read-only
    locations [E] are as at the fork, and so is their child field of [a]. *)
Definition forked (h h1 : gmap loc N) (D E : gset loc) (a : loc) (g : N -> ptr) (n : N) : Prop :=
  (forall b, b ∈ D ∪ E -> h1 !! b = h !! b) /\
  exists n1, h1 !! a = Some n1 /\ g n1 = g n.

(** What holds after the join; [n'] is the node with both fields assigned. *)
Record joined (h : gmap loc N) (a : loc) (Dl Dr E : gset loc) (Ql Qr : T -> Prop)
    (h' : gmap loc N) (n' : N) (cl cr : ptr) (tl tr : T) (Dl' Dr' : gset loc) : Prop := {
  j_acts : acts h ({[a]} ∪ Dl ∪ Dr) h' ({[a]} ∪ Dl' ∪ Dr');
  j_node : h' !! a = Some n';
  j_left : owns h' cl tl Dl';
  j_right : owns h' cr tr Dr';
  j_disj : Dl' ## Dr';
  j_fresh : (a ∉ Dl') /\ (a ∉ Dr');
  j_env : (forall b, b ∈ E -> h' !! b = h !! b) /\ E ## Dl' /\ E ## Dr';
  j_ql : Ql tl;
  j_qr : Qr tr;
}.

(** One task: it may overwrite [D], and assigns its result to a field of [a];
    [R] is left alone. *)
Lemma wp_child_task h a n D R m Q (put : ptr -> N -> N) :
  h !! a = Some n -> a ∉ D -> a ∉ R -> D ## R -> (forall b, b ∈ D ∪ R -> is_Some (h !! b)) ->
  makes D m Q h ->
  wp (c ← m; store (Some a) (put c))
     (fun _ h' => exists c t D', acts h ({[a]} ∪ D) h' ({[a]} ∪ D') /\
        h' !! a = Some (put c n) /\ owns h' c t D' /\ (a ∉ D') /\ R ## D' /\
        (forall b, b ∈ R -> h' !! b = h !! b) /\ Q t) h.
Proof.
  intros Ha HaD HaR HDR Hdom Hm. apply wp_bind. eapply wp_mono; [|exact Hm].
  intros c h1 (t & D' & Hacts & Ht & HQ).
  destruct (acts_frame h D h1 D' ({[a]} ∪ R)) as (Hacts1 & Hdisj & Hkeep); [|set_solver|done|].
  { intros b [->%elem_of_singleton|Hb]%elem_of_union; [by exists n|]. apply Hdom. set_solver. }
  assert (h1 !! a = Some n) as Ha1 by (rewrite Hkeep; [done|set_solver]).
  apply wp_store with n; [done|]. exists c, t, D'. split_and!.
  - eapply acts_trans; [|apply acts_store; set_solver].
    destruct (acts_frame h D h1 D' {[a]}) as (A & _ & _); [|set_solver|done|].
    { intros b ->%elem_of_singleton. by exists n. }
    eapply acts_equiv; [| |exact A]; set_solver.
  - apply lookup_insert_eq.
  - eapply owns_frame; [|exact Ht]. intros b Hb. rewrite lookup_insert_ne; [done|set_solver].
  - set_solver.
  - set_solver.
  - intros b Hb. rewrite lookup_insert_ne by set_solver. apply Hkeep. set_solver.
  - done.
Qed.

(** The pair of results does not depend on the order. *)
Lemma wp_bind_swap (x y : M N unit) (Q : unit * unit -> gmap loc N -> Prop) h :
  wp (a ← x; b ← y; mret (a, b)) (fun r h' => Q (r.2, r.1) h') h ->
  wp (a ← x; b ← y; mret (b, a)) Q h.
Proof.
  intros (r & h' & E & HQ). unfold mbind, M_bind, mret, M_ret in *.
  exists (r.2, r.1), h'. split; [|done].
  destruct (x h) as [[a h1]|]; [|done]. destruct (y h1) as [[b h2]|]; [|done]. by simplify_eq.
Qed.

(** The two tasks one after the other; [g2] is the field the second assigns. *)
Lemma wp_two_tasks h a n D1 D2 E m1 m2 Q1 Q2 (put1 put2 : ptr -> N -> N) (g2 : N -> ptr) :
  (forall c, g2 (put1 c n) = g2 n) ->
  h !! a = Some n -> a ∉ D1 -> a ∉ D2 -> a ∉ E -> D1 ## D2 -> D1 ## E -> D2 ## E ->
  (forall b, b ∈ D1 ∪ D2 ∪ E -> is_Some (h !! b)) ->
  makes D1 m1 Q1 h -> (forall h1, forked h h1 D2 E a g2 n -> makes D2 m2 Q2 h1) ->
  wp (x ← (c ← m1; store (Some a) (put1 c)); y ← (c ← m2; store (Some a) (put2 c)); mret (x, y))
     (fun _ h' => exists c1 c2 t1 t2 D1' D2',
        joined h a D1 D2 E Q1 Q2 h' (put2 c2 (put1 c1 n)) c1 c2 t1 t2 D1' D2') h.
Proof.
  intros Hg Ha Ha1 Ha2 HaE H12 H1E H2E Hdom Hm1 Hm2.
  apply wp_bind. eapply wp_mono; [|eapply (wp_child_task h a n D1 (D2 ∪ E) m1 Q1 put1);
    [done|done|set_solver|set_solver|set_solver|done]].
  intros [] h1 (c1 & t1 & D1' & A1 & N1 & O1 & F1 & R1 & K1 & X1).
  apply wp_bind. eapply wp_mono;
    [|eapply (wp_child_task h1 a (put1 c1 n) D2 (D1' ∪ E) m2 Q2 put2);
      [done|done|set_solver|set_solver| |apply Hm2; split]].
  - intros [] h2 (c2 & t2 & D2' & A2 & N2 & O2 & F2 & R2 & K2 & X2). apply wp_ret.
    exists c1, c2, t1, t2, D1', D2'. split; try done.
    + destruct A1 as [A1 B1 C1], A2 as [A2 B2 C2]. split.
      { intros b m Hb Hn. apply A2; [apply A1; [done|set_solver]|set_solver]. }
      2: { intros b Hb. destruct (C2 b Hb) as [?|[Hb1 ?]]; [left; set_solver|].
        destruct (C1 b Hb1) as [?|[??]]; [left; set_solver|right; set_solver]. }
      intros b Hb. destruct (decide (b ∈ {[a]} ∪ D1 ∪ D2)); [by left|]. right.
      assert (b ∈ D1' \/ b ∈ D2') as [Hb'|Hb'] by set_solver.
      { destruct (B1 b); [set_solver|set_solver|done]. }
      destruct (B2 b) as [?|Hnone]; [set_solver|set_solver|].
      destruct (h !! b) as [m|] eqn:Eb; [|done]. rewrite (A1 b m Eb) in Hnone by set_solver. done.
    + eapply owns_frame; [|exact O1]. intros b Hb. apply K2. set_solver.
    + set_solver.
    + split_and!; [|set_solver|set_solver]. intros b Hb. rewrite K2, K1 by set_solver. done.
  - intros b [Hb|[Hb|Hb]%elem_of_union]%elem_of_union.
    + rewrite K1 by set_solver. apply Hdom. set_solver.
    + by eapply owns_dom.
    + rewrite K1 by set_solver. apply Hdom. set_solver.
  - intros b Hb. apply K1. set_solver.
  - exists (put1 c1 n). split; [done|]. apply Hg.
Qed.

Lemma joined_swap h a Dl Dr E Ql Qr h' n' cl cr tl tr Dl' Dr' :
  joined h a Dr Dl E Qr Ql h' n' cr cl tr tl Dr' Dl' ->
  joined h a Dl Dr E Ql Qr h' n' cl cr tl tr Dl' Dr'.
Proof.
  intros [J1 J2 J3 J4 J5 J6 J7 J8 J9]. split; try done; [|tauto|tauto].
  eapply acts_equiv; [| |exact J1]; set_solver.
Qed.

Lemma wp_par_children (o : bool) h a n Dl Dr E lm rm Ql Qr :
  h !! a = Some n -> a ∉ Dl -> a ∉ Dr -> a ∉ E -> Dl ## Dr -> Dl ## E -> Dr ## E ->
  (forall b, b ∈ Dl ∪ Dr ∪ E -> is_Some (h !! b)) ->
  (forall h1, forked h h1 Dl E a get_l n -> makes Dl lm Ql h1) ->
  (forall h1, forked h h1 Dr E a get_r n -> makes Dr rm Qr h1) ->
  wp (par_children o (Some a) lm rm)
     (fun _ h' => exists cl cr tl tr Dl' Dr',
        joined h a Dl Dr E Ql Qr h' (put_r cr (put_l cl n)) cl cr tl tr Dl' Dr') h.
Proof.
  intros Ha Hal Har HaE Hlr HlE HrE Hdom Hl Hr. unfold par_children, par_do. destruct o.
  - eapply (wp_two_tasks h a n Dl Dr E lm rm Ql Qr put_l put_r get_r); try done.
    + intros c. apply get_r_put_l.
    + apply Hl. split; [done|by exists n].
  - assert (forall b, b ∈ Dr ∪ Dl ∪ E -> is_Some (h !! b)) as Hdom'
      by (intros b Hb; apply Hdom; set_solver).
    pose proof (wp_two_tasks h a n Dr Dl E rm lm Qr Ql put_r put_l get_l) as H.
    apply wp_bind_swap. eapply wp_mono; [|apply H; try done].
    + intros _ h' (cr & cl & tr & tl & Dr' & Dl' & J). exists cl, cr, tl, tr, Dl', Dr'.
      rewrite put_comm. by apply joined_swap.
    + intros c. apply get_l_put_r.
    + apply Hr. split; [done|by exists n].
Qed.
(** Two tasks with disjoint locations; the locations [E] are only read. *)
Lemma wp_par_owned (o : bool) h m1 m2 D1 D2 E Q1 Q2 :
  D1 ## D2 -> D1 ## E -> D2 ## E -> (forall b, b ∈ D1 ∪ D2 ∪ E -> is_Some (h !! b)) ->
  (forall h1, (forall b, b ∈ D1 ∪ E -> h1 !! b = h !! b) -> makes D1 m1 Q1 h1) ->
  (forall h1, (forall b, b ∈ D2 ∪ E -> h1 !! b = h !! b) -> makes D2 m2 Q2 h1) ->
  wp (par_do o m1 m2)
     (fun ts h' => exists t1 t2 D1' D2', acts h (D1 ∪ D2) h' (D1' ∪ D2') /\ D1' ## D2' /\
        owns h' ts.1 t1 D1' /\ owns h' ts.2 t2 D2' /\
        ((forall b, b ∈ E -> h' !! b = h !! b) /\ E ## D1' ∪ D2') /\ Q1 t1 /\ Q2 t2) h.
Proof.
  assert (forall h m1 m2 D1 D2 Q1 Q2,
    D1 ## D2 -> D1 ## E -> D2 ## E -> (forall b, b ∈ D1 ∪ D2 ∪ E -> is_Some (h !! b)) ->
    makes D1 m1 Q1 h ->
    (forall h1, (forall b, b ∈ D2 ∪ E -> h1 !! b = h !! b) -> makes D2 m2 Q2 h1) ->
    forall Q : ptr -> ptr -> gmap loc N -> Prop,
    (forall c1 c2 h' t1 t2 D1' D2', acts h (D1 ∪ D2) h' (D1' ∪ D2') -> D1' ## D2' ->
       owns h' c1 t1 D1' -> owns h' c2 t2 D2' ->
       (forall b, b ∈ E -> h' !! b = h !! b) /\ E ## D1' ∪ D2' -> Q1 t1 -> Q2 t2 -> Q c1 c2 h') ->
    wp m1 (fun c1 h1 => wp m2 (fun c2 h' => Q c1 c2 h') h1) h) as Hseq.
  { clear. intros h m1 m2 D1 D2 Q1 Q2 H12 H1E H2E Hdom Hm1 Hm2 Q HQ.
    eapply wp_mono; [|exact Hm1]. intros c1 h1 (t1 & D1' & A1 & O1 & X1).
    destruct (acts_frame h D1 h1 D1' (D2 ∪ E)) as (A1' & F1 & K1); [set_solver|set_solver|done|].
    assert (forall b, b ∈ D1' ∪ E -> is_Some (h1 !! b)) as Hd1.
    { intros b [Hb|Hb]%elem_of_union; [by eapply owns_dom|]. rewrite K1 by set_solver.
      apply Hdom. set_solver. }
    eapply wp_mono; [|apply (Hm2 h1); intros b Hb; apply K1; set_solver].
    intros c2 h2 (t2 & D2' & A2 & O2 & X2).
    destruct (acts_frame h1 D2 h2 D2' (D1' ∪ E)) as (_ & F2 & K2); [done|set_solver|done|].
    destruct (acts_frame h1 D2 h2 D2' D1') as (A2' & _ & _); [set_solver|set_solver|done|].
    destruct (acts_frame h D1 h1 D1' D2) as (A1'' & _ & _); [set_solver|set_solver|done|].
    apply (HQ c1 c2 h2 t1 t2 D1' D2'); try done.
    - eapply acts_trans; [exact A1''|]. eapply acts_equiv; [| |exact A2']; set_solver.
    - set_solver.
    - eapply owns_frame; [|exact O1]. intros b Hb. apply K2. set_solver.
    - split; [|set_solver]. intros b Hb. rewrite K2, K1 by set_solver. done. }
  intros H12 H1E H2E Hdom Hm1 Hm2. unfold par_do. destruct o.
  - apply wp_bind. eapply wp_mono; [|apply (Hseq h m1 m2 D1 D2 Q1 Q2 H12 H1E H2E Hdom
      (Hm1 h (fun _ _ => eq_refl)) Hm2 (fun c1 c2 h' => exists t1 t2 D1' D2',
        acts h (D1 ∪ D2) h' (D1' ∪ D2') /\ D1' ## D2' /\ owns h' c1 t1 D1' /\ owns h' c2 t2 D2' /\
        ((forall b, b ∈ E -> h' !! b = h !! b) /\ E ## D1' ∪ D2') /\ Q1 t1 /\ Q2 t2))].
    + intros c1 h1 H. apply wp_bind. eapply wp_mono; [|exact H]. intros c2 h2 HQ. by apply wp_ret.
    + intros c1 c2 h' t1 t2 D1' D2' ? ? ? ? ? ? ?. by exists t1, t2, D1', D2'.
  - apply wp_bind. eapply wp_mono; [|apply (Hseq h m2 m1 D2 D1 Q2 Q1 ltac:(done) H2E H1E
      ltac:(intros b Hb; apply Hdom; set_solver)
      (Hm2 h (fun _ _ => eq_refl)) Hm1 (fun c2 c1 h' => exists t1 t2 D1' D2',
        acts h (D1 ∪ D2) h' (D1' ∪ D2') /\ D1' ## D2' /\ owns h' c1 t1 D1' /\ owns h' c2 t2 D2' /\
        ((forall b, b ∈ E -> h' !! b = h !! b) /\ E ## D1' ∪ D2') /\ Q1 t1 /\ Q2 t2))].
    + intros c1 h1 H. apply wp_bind. eapply wp_mono; [|exact H]. intros c2 h2 HQ. by apply wp_ret.
    + intros c2 c1 h' t2 t1 D2' D1' A HD O2 O1 [K F] X2 X1. exists t1, t2, D1', D2'.
      split_and!; try done; [eapply acts_equiv; [| |exact A]; set_solver|set_solver].
Qed.

(** Two allocating tasks: their results are disjoint. *)
Lemma wp_par_fresh (o : bool) h m1 m2 Q1 Q2 :
  (forall h1, h ⊆ h1 -> makes ∅ m1 Q1 h1) -> (forall h1, h ⊆ h1 -> makes ∅ m2 Q2 h1) ->
  wp (par_do o m1 m2)
     (fun ts h' => exists t1 t2 D1 D2, acts h ∅ h' (D1 ∪ D2) /\ D1 ## D2 /\
        owns h' ts.1 t1 D1 /\ owns h' ts.2 t2 D2 /\ Q1 t1 /\ Q2 t2) h.
Proof.
  assert (forall h1, (forall b, b ∈ ∅ ∪ dom h -> h1 !! b = h !! b) -> h ⊆ h1) as Hsub.
  { intros h1 Hk. apply map_subseteq_spec. intros a n Ha. rewrite Hk; [done|].
    apply elem_of_dom_2 in Ha. set_solver. }
  intros H1 H2. eapply wp_mono; [|apply (wp_par_owned o h m1 m2 ∅ ∅ (dom h) Q1 Q2);
    [set_solver|set_solver|set_solver| | |]].
  - intros ts h' (t1 & t2 & D1 & D2 & A & HD & O1 & O2 & _ & X). exists t1, t2, D1, D2.
    split_and!; try done; try apply X.
  - intros b Hb. apply elem_of_dom. set_solver.
  - intros h1 Hk. by apply H1, Hsub.
  - intros h1 Hk. by apply H2, Hsub.
Qed.
End children.
