(* ===== verification/TreapBuild.v ===== *)
(** * Bulk construction of a treap

    [src/lib/treap/build.hpp]: [split] and [merge] work in place on nodes owned by
    the construction, [build] runs them in parallel over an array of elements.
    The result is a treap of version 0 that counts the elements, whatever the
    order in which the forked tasks run. *)

From S2P Require Import Prelude Owned TreapTree TreapNode TreapQuery.

(** ** build.hpp *)

Fixpoint split (fuel : nat) (t : ptr) (key : Z) : M node_t (ptr * ptr) :=
  match fuel with
  | O => fail OutOfFuel
  | S fuel =>
      match t with
      | None => mret (None, None)
      | Some _ =>
          n ← load t;
          if key <? n_key n then
            lr ← split fuel (n_lch n) key;
            store t (set_lch lr.2);;
            mret (lr.1, t)
          else
            lr ← split fuel (n_rch n) key;
            store t (set_rch lr.1);;
            mret (t, lr.2)
      end
  end.

#[global] Program Instance treap_node : TreeNode node_t := {
  get_l := n_lch; get_r := n_rch; put_l := set_lch; put_r := set_rch;
}.
Solve All Obligations with done.

(** [order] decides which of the two forked tasks runs first. *)
Fixpoint merge (order : list nat -> bool) (fuel : nat) (t_0 t_1 : ptr) : M node_t ptr :=
  match fuel with
  | O => fail OutOfFuel
  | S fuel' =>
      match t_0, t_1 with
      | None, _ => mret t_1
      | _, None => mret t_0
      | Some _, Some _ =>
          n_0 ← load t_0;
          n_1 ← load t_1;
          if n_key n_0 =? n_key n_1 then
            store t_1 (fun m => set_val (wrap64 (n_val m + n_val n_0)) m);;
            par_children (order []) t_1
              (n_0 ← load t_0; n_1 ← load t_1; merge (branch 1 order) fuel' (n_lch n_0) (n_lch n_1))
              (n_0 ← load t_0; n_1 ← load t_1; merge (branch 2 order) fuel' (n_rch n_0) (n_rch n_1));;
            release_node t_0;;
            mret t_1
          else if n_pry n_1 <? n_pry n_0 then
            lr ← split fuel t_1 (n_key n_0);
            par_children (order []) t_0
              (n_0 ← load t_0; merge (branch 1 order) fuel' (n_lch n_0) lr.1)
              (n_0 ← load t_0; merge (branch 2 order) fuel' (n_rch n_0) lr.2);;
            mret t_0
          else
            lr ← split fuel t_0 (n_key n_1);
            par_children (order []) t_1
              (n_1 ← load t_1; merge (branch 1 order) fuel' lr.1 (n_lch n_1))
              (n_1 ← load t_1; merge (branch 2 order) fuel' lr.2 (n_rch n_1));;
            mret t_1
      end
  end.

Section build.
Context (hash : Z -> Z).

(** The array [elems] is a list; [elems + n / 2] is [drop (n / 2) elems]. *)
Fixpoint build (order : list nat -> bool) (fuel : nat) (n : nat) (elems : list Z) : M node_t ptr :=
  match fuel with
  | O => fail OutOfFuel
  | S fuel' =>
      match n, elems with
      | O, _ => mret None
      | 1%nat, e :: _ => make_node hash 0 e
      | _, [] => fail BadPtr
      | _, _ =>
          ts ← par_do (order [])
                 (build (branch 1 order) fuel' (n / 2) elems)
                 (build (branch 2 order) fuel' (n - n / 2) (drop (n / 2) elems));
          merge (branch 3 order) fuel ts.1 ts.2
      end
  end.

(** [build_parallel], under [execute_with_scheduler]. *)
Definition build_parallel (order : list nat -> bool) (fuel : nat) (n : nat) (elems : list Z) : M node_t ptr :=
  t ← build (branch 1 order) fuel n elems;
  augment_parallel (branch 2 order) fuel t;;
  mret t.
End build.

(** ** Owned trees *)

Fixpoint treap_owns (h : heap) (p : ptr) (t : tree) (D : gset loc) : Prop :=
  match t with
  | Leaf => p = None /\ D = ∅
  | Node v pr k x l r =>
      exists a n Dl Dr, p = Some a /\ h !! a = Some n /\ node_data n = (v, pr, k, x) /\
        n_aug n = aug_uninitialized /\ treap_owns h (n_lch n) l Dl /\ treap_owns h (n_rch n) r Dr /\
        (a ∉ Dl) /\ (a ∉ Dr) /\ Dl ## Dr /\ D = {[a]} ∪ Dl ∪ Dr
  end.

Lemma treap_owns_dom h p t D : treap_owns h p t D -> forall a, a ∈ D -> is_Some (h !! a).
Proof.
  revert p D. induction t as [|v pr k x l IHl r IHr]; simpl; intros p D.
  - intros [_ E] a Ha. set_solver.
  - intros (a & n & Dl & Dr & -> & Hn & _ & _ & Hl & Hr & _ & _ & _ & E) b Hb.
    rewrite E in Hb. apply elem_of_union in Hb as [[->%elem_of_singleton|Hb]%elem_of_union|Hb]; eauto.
Qed.

Lemma treap_owns_frame h h' p t D :
  (forall a, a ∈ D -> h' !! a = h !! a) -> treap_owns h p t D -> treap_owns h' p t D.
Proof.
  revert p D. induction t as [|v pr k x l IHl r IHr]; simpl; intros p D Hk; [done|].
  intros (a & n & Dl & Dr & -> & Hn & Hd & Ha & Hl & Hr & H1 & H2 & H3 & E).
  exists a, n, Dl, Dr. split_and!; try done.
  - rewrite Hk; [done|set_solver].
  - apply IHl; [|done]. intros b Hb. apply Hk. set_solver.
  - apply IHr; [|done]. intros b Hb. apply Hk. set_solver.
Qed.

#[global] Instance treap_owned : OwnedTree node_t tree := {
  owns := treap_owns; owns_dom := treap_owns_dom; owns_frame := treap_owns_frame;
}.

Lemma treap_owns_rep h p t D : treap_owns h p t D -> rep h p t.
Proof.
  revert p D. induction t as [|v pr k x l IHl r IHr]; simpl; intros p D; [by intros [-> _]|].
  intros (a & n & Dl & Dr & -> & Hn & Hd & _ & Hl & Hr & _). exists a, n. split_and!; eauto.
Qed.

(** ** split *)

Lemma split_spec fuel h p t D key :
  treap_owns h p t D -> vers_le 0 t -> (size t < fuel)%nat ->
  wp (split fuel p key)
     (fun lr h' => exists D1 D2, acts h D h' (D1 ∪ D2) /\ D1 ## D2 /\
        treap_owns h' lr.1 (t_split 0 t key).1 D1 /\ treap_owns h' lr.2 (t_split 0 t key).2 D2) h.
Proof.
  revert h p t D. induction fuel as [|fuel IH]; intros h p t D Ho Hv Hf; [lia|].
  destruct t as [|v pr k x l r]; simpl in Ho.
  { destruct Ho as [-> E]. cbn [split]. wp_step. exists ∅, ∅. split_and!; [|done..].
    eapply acts_equiv; [reflexivity| |apply acts_refl]. set_solver. }
  destruct Ho as (a & n & Dl & Dr & -> & Hn & Hd & Ha & Hl & Hr & F1 & F2 & F3 & E).
  unfold node_data in Hd. simplify_eq. simpl in Hv, Hf. destruct Hv as (Hv & Hvl & Hvr).
  cbn [split t_split]. wp_step. wp_step.
  assert (n_ver n = 0%nat) as Ev by lia.
  destruct (Z.ltb_spec key (n_key n)); wp_step.
  - eapply wp_mono; [|apply (IH h _ l Dl); [done|done|lia]].
    intros [q1 q2] h1 (D1 & D2 & Hacts & HD & O1 & O2).
    destruct (t_split 0 l key) as [tl tr]. simpl in *.
    destruct (acts_child h a n (set_lch q2 n) Dl Dr h1 (D1 ∪ D2))
      as (Ha1 & A & F4 & F5 & K1 & K2); try done; [by eapply treap_owns_dom|].
    repeat wp_step. exists D1, ({[a]} ∪ D2 ∪ Dr). split_and!.
    + eapply acts_equiv; [| |exact A]; clear; set_solver.
    + clear -HD F4 F5. set_solver.
    + eapply treap_owns_frame; [|exact O1]. intros b Hb. apply K2. set_solver.
    + exists a, (set_lch q2 n), D2, Dr. rewrite lookup_insert_eq.
      split_and!; try done; try (clear -F4 F5; set_solver).
      * unfold node_data. simpl. by rewrite Ev.
      * eapply treap_owns_frame; [|exact O2]. intros b Hb. apply K2. set_solver.
      * by eapply treap_owns_frame.
  - eapply wp_mono; [|apply (IH h _ r Dr); [done|done|lia]].
    intros [q1 q2] h1 (D1 & D2 & Hacts & HD & O1 & O2).
    destruct (t_split 0 r key) as [tl tr]. simpl in *.
    destruct (acts_child h a n (set_rch q1 n) Dr Dl h1 (D1 ∪ D2))
      as (Ha1 & A & F4 & F5 & K1 & K2); try done; [by eapply treap_owns_dom|].
    repeat wp_step. exists ({[a]} ∪ Dl ∪ D1), D2. split_and!.
    + eapply acts_equiv; [| |exact A]; clear; set_solver.
    + clear -HD F4 F5. set_solver.
    + exists a, (set_rch q1 n), Dl, D1. rewrite lookup_insert_eq.
      split_and!; try done; try (clear -F4 F5; set_solver).
      * unfold node_data. simpl. by rewrite Ev.
      * by eapply treap_owns_frame.
      * eapply treap_owns_frame; [|exact O1]. intros b Hb. apply K2. set_solver.
    + eapply treap_owns_frame; [|exact O2]. intros b Hb. apply K2. set_solver.
Qed.

(** ** What a merged treap is *)

(** Counters of the same key are added up. *)
Definition val_add (x y : option Z) : option Z := union_with (fun a b => Some (wrap64 (b + a))) x y.

Section merged.
Context {hash : Z -> Z} `{HPH : !PerfectHash hash}.

Record merged (t0 t1 t : tree) : Prop := {
  mg_wf : wf hash t;
  mg_vers : vers_le 0 t;
  mg_size : (size t <= size t0 + size t1)%nat;
  mg_all P : all_keys P t0 -> all_keys P t1 -> all_keys P t;
  mg_lookup k : t_lookup t k = val_add (t_lookup t0 k) (t_lookup t1 k);
}.

Lemma merged_leaf_l t : wf hash t -> vers_le 0 t -> merged Leaf t t.
Proof. intros W V. split; try done. intros k. simpl. by destruct (t_lookup t k). Qed.

Lemma merged_leaf_r t : wf hash t -> vers_le 0 t -> merged t Leaf t.
Proof. intros W V. split; try done; [lia|]. intros k. simpl. by destruct (t_lookup t k). Qed.

(** [t] looks up as the pieces [l] and [r] around the pivot [k]. *)
Definition pieces (k : Z) (x : option Z) (l r t : tree) : Prop :=
  wf hash l /\ wf hash r /\ vers_le 0 l /\ vers_le 0 r /\
  all_keys (fun j => j < k /\ hash j < hash k) l /\
  all_keys (fun j => k < j /\ hash j < hash k) r /\
  (forall P, all_keys P t -> all_keys P l /\ all_keys P r) /\
  (size l + size r <= size t)%nat /\
  (forall j, t_lookup t j = if j =? k then x else if j <? k then t_lookup l j else t_lookup r j).

Lemma pieces_node v p k x l r :
  wf hash (Node v p k x l r) -> vers_le 0 (Node v p k x l r) ->
  p = hash k /\ u64 k /\ u64 x /\ v = O /\ pieces k (Some x) l r (Node v p k x l r).
Proof.
  intros (-> & Uk & Ux & Hl & Hr & Wl & Wr) (Hv & Vl & Vr).
  split_and!; [done..|lia|]. unfold pieces. split_and!; try done; try (simpl; lia).
  intros P HP. simpl in HP. tauto.
Qed.

(** Splitting a treap whose root has a lower priority than [key]. *)
Lemma pieces_split v p k x l r key :
  let t := Node v p k x l r in
  wf hash t -> vers_le 0 t -> p < hash key ->
  pieces key None (t_split 0 t key).1 (t_split 0 t key).2 t.
Proof.
  intros t W V Hp.
  assert (all_keys (fun j => hash j < hash key) t) as Hlow.
  { destruct W as (-> & _ & _ & Hl & Hr & _). simpl. split_and!; [done| |];
      (eapply all_keys_impl; [|eassumption]); simpl; intros; lia. }
  assert (t_lookup t key = None) as Hnone by (apply (all_keys_notin _ _ _ Hlow); lia).
  pose proof (t_split_all _ 0 t key Hlow) as [L1 L2].
  pose proof (t_split_all _ 0 t key (wf_absent _ _ W Hnone)) as [N1 N2].
  pose proof (t_split_vers 0 t key 0 V (le_n _)) as [V1 V2].
  pose proof (t_split_size 0 t key) as Hs.
  pose proof (fun P => t_split_all P 0 t key) as HP.
  destruct (t_split 0 t key) as [a b] eqn:E. cbn [fst snd] in *.
  destruct (t_split_spec _ _ _ _ _ E W) as (Wa & Wb & Ha & Hb & Hlk).
  unfold pieces. split_and!; try done.
  - eapply all_keys_impl; [|apply all_keys_and; split; [exact Ha|apply all_keys_and; split;
      [exact N1|exact L1]]]. simpl; intros; lia.
  - by apply all_keys_and.
  - lia.
  - intros j. destruct (Z.eqb_spec j key) as [->|Hj]; [done|].
    rewrite Hlk. zcases; done || lia.
Qed.

Lemma merged_node k x x0 x1 l0 r0 l1 r1 t0 t1 l r :
  u64 k -> u64 x -> Some x = val_add x0 x1 -> (1 + size l0 + size r0 + size l1 + size r1 <=
    size t0 + size t1)%nat ->
  (forall P, all_keys P t0 -> all_keys P t1 -> P k) ->
  pieces k x0 l0 r0 t0 -> pieces k x1 l1 r1 t1 ->
  merged l0 l1 l -> merged r0 r1 r -> merged t0 t1 (Node 0 (hash k) k x l r).
Proof.
  intros Uk Ux Hx Hs HP (Wl0 & Wr0 & _ & _ & Bl0 & Br0 & P0 & _ & L0)
    (Wl1 & Wr1 & _ & _ & Bl1 & Br1 & P1 & _ & L1) [Wl Vl Sl Al Kl] [Wr Vr Sr Ar Kr].
  split.
  - simpl. split_and!; try done; auto.
  - simpl. auto.
  - simpl. lia.
  - intros P H0 H1. simpl. specialize (P0 P H0). specialize (P1 P H1).
    split_and!; [by apply HP|apply Al; tauto|apply Ar; tauto].
  - intros j. rewrite L0, L1. simpl. rewrite Kl, Kr. by zcases.
Qed.
End merged.

(** ** merge *)

Lemma wp_merge_children o h a n Dl Dr E lm rm Ql Qr :
  h !! a = Some n -> n_aug n = aug_uninitialized -> a ∉ Dl -> a ∉ Dr -> a ∉ E ->
  Dl ## Dr -> Dl ## E -> Dr ## E -> (forall b, b ∈ Dl ∪ Dr ∪ E -> is_Some (h !! b)) ->
  (forall h1, forked h h1 Dl E a n_lch n -> makes Dl lm Ql h1) ->
  (forall h1, forked h h1 Dr E a n_rch n -> makes Dr rm Qr h1) ->
  wp (par_children o (Some a) lm rm)
     (fun _ h' => exists tl tr D', acts h ({[a]} ∪ Dl ∪ Dr) h' D' /\
        treap_owns h' (Some a) (Node (n_ver n) (n_pry n) (n_key n) (n_val n) tl tr) D' /\
        (forall b, b ∈ E -> h' !! b = h !! b) /\ E ## D' /\ Ql tl /\ Qr tr) h.
Proof.
  intros Ha Hu Hal Har HaE Hlr HlE HrE Hdom Hl Hr.
  eapply wp_mono; [|apply (wp_par_children o h a n Dl Dr E lm rm Ql Qr); done].
  intros _ h' (cl & cr & tl & tr & Dl' & Dr' & [J1 J2 J3 J4 J5 [J6 J6'] (J7 & J8 & J9) J10 J11]).
  exists tl, tr, ({[a]} ∪ Dl' ∪ Dr'). split_and!; try done; [|clear -HaE J8 J9; set_solver].
  eexists a, _, Dl', Dr'. by split_and!.
Qed.

(** The two forked merges below the root [a]: [l] and [r] are its subtrees,
    [ta] and [tb] the trees to merge into them. *)
Lemma wp_merge_root o h a n Dl Dr Da Db E l r ql qr ta tb lm rm Ql Qr :
  h !! a = Some n -> n_aug n = aug_uninitialized ->
  treap_owns h (n_lch n) l Dl -> treap_owns h (n_rch n) r Dr ->
  treap_owns h ql ta Da -> treap_owns h qr tb Db ->
  a ∉ Dl -> a ∉ Dr -> Dl ## Dr -> Da ## Db -> Da ∪ Db ## {[a]} ∪ Dl ∪ Dr ->
  E ## {[a]} ∪ Dl ∪ Dr ∪ (Da ∪ Db) -> (forall b, b ∈ E -> is_Some (h !! b)) ->
  (forall h1 n1, h1 !! a = Some n1 -> n_lch n1 = n_lch n -> (forall b, b ∈ E -> h1 !! b = h !! b) ->
     treap_owns h1 (n_lch n) l Dl -> treap_owns h1 ql ta Da -> makes (Dl ∪ Da) lm Ql h1) ->
  (forall h1 n1, h1 !! a = Some n1 -> n_rch n1 = n_rch n -> (forall b, b ∈ E -> h1 !! b = h !! b) ->
     treap_owns h1 (n_rch n) r Dr -> treap_owns h1 qr tb Db -> makes (Dr ∪ Db) rm Qr h1) ->
  wp (par_children o (Some a) lm rm)
     (fun _ h' => exists tl tr D', acts h ({[a]} ∪ Dl ∪ Dr ∪ (Da ∪ Db)) h' D' /\
        treap_owns h' (Some a) (Node (n_ver n) (n_pry n) (n_key n) (n_val n) tl tr) D' /\
        (forall b, b ∈ E -> h' !! b = h !! b) /\ E ## D' /\ Ql tl /\ Qr tr) h.
Proof.
  intros Ha Hu Hl Hr Hqa Hqb Hal Har Hlr Hab Hd HE Hdom Htl Htr.
  eapply wp_mono; [|apply (wp_merge_children o h a n (Dl ∪ Da) (Dr ∪ Db) E lm rm Ql Qr)];
    [..|done|done| | | | | | | | |].
  - intros _ h' (tl & tr & D' & A & O & K & F & HQ). exists tl, tr, D'. split_and!; try done; try apply HQ.
    eapply acts_equiv; [|reflexivity|exact A]. clear. set_solver.
  - clear -Hal Hd. set_solver.
  - clear -Har Hd. set_solver.
  - clear -HE. set_solver.
  - clear -Hlr Hab Hd. set_solver.
  - clear -HE. set_solver.
  - clear -HE. set_solver.
  - intros b Hb. assert (b ∈ Dl \/ b ∈ Dr \/ b ∈ Da \/ b ∈ Db \/ b ∈ E) as Hb' by (clear -Hb; set_solver).
    destruct Hb' as [H|[H|[H|[H|H]]]]; eauto using treap_owns_dom.
  - intros h1 [Hk (n1 & Hn1 & Hg)]. apply (Htl h1 n1 Hn1 Hg).
    + intros b Hb. apply Hk. set_solver.
    + eapply treap_owns_frame; [|exact Hl]. intros b Hb. apply Hk. clear -Hb. set_solver.
    + eapply treap_owns_frame; [|exact Hqa]. intros b Hb. apply Hk. clear -Hb. set_solver.
  - intros h1 [Hk (n1 & Hn1 & Hg)]. apply (Htr h1 n1 Hn1 Hg).
    + intros b Hb. apply Hk. set_solver.
    + eapply treap_owns_frame; [|exact Hr]. intros b Hb. apply Hk. clear -Hb. set_solver.
    + eapply treap_owns_frame; [|exact Hqb]. intros b Hb. apply Hk. clear -Hb. set_solver.
Qed.

Section merge.
Context {hash : Z -> Z} `{HPH : !PerfectHash hash}.

(** What a call [m p q] promises of two owned treaps. *)
Definition merges (fuel : nat) (m : ptr -> ptr -> M node_t ptr) (Q : tree -> tree -> tree -> Prop)
    : Prop := forall h p q t0 t1 D0 D1,
  treap_owns h p t0 D0 -> treap_owns h q t1 D1 -> D0 ## D1 ->
  wf hash t0 -> wf hash t1 -> vers_le 0 t0 -> vers_le 0 t1 ->
  (size t0 + size t1 < fuel)%nat -> makes (D0 ∪ D1) (m p q) (Q t0 t1) h.

(** The two trees may be passed in either order. *)
Lemma merges_swap fuel m Q :
  merges fuel m Q -> merges fuel (fun p q => m q p) (fun t0 t1 => Q t1 t0).
Proof.
  intros H h p q t0 t1 D0 D1 O0 O1 HD W0 W1 V0 V1 Hf.
  apply (makes_equiv (D1 ∪ D0)); [set_solver|]. apply H; try done. lia.
Qed.

(** [t] has the root of higher priority: [u] is split around it, and its parts
    are merged with the subtrees of [t]. *)
Lemma merge_around o fuel m1 m2 (Q : tree -> tree -> tree -> Prop) h p q
    v k x l r v' p' k' x' l' r' D D' :
  let t := Node v (hash k) k x l r in let u := Node v' p' k' x' l' r' in
  merges fuel m1 Q -> merges fuel m2 Q ->
  (forall ta tb tl tr, pieces (hash := hash) k (Some x) l r t ->
     pieces (hash := hash) k None ta tb u ->
     Q l ta tl -> Q r tb tr -> Q t u (Node 0 (hash k) k x tl tr)) ->
  treap_owns h p t D -> treap_owns h q u D' -> D ## D' ->
  wf hash t -> wf hash u -> vers_le 0 t -> vers_le 0 u ->
  (size t + size u < S fuel)%nat -> p' < hash k ->
  makes (D ∪ D')
    (lr ← split (S fuel) q k;
     par_children o p (n ← load p; m1 (n_lch n) lr.1) (n ← load p; m2 (n_rch n) lr.2);;
     mret p) (Q t u) h.
Proof.
  intros t u IH1 IH2 HQ O O' HD W W' V V' Hf Hp. assert (O1 := O).
  destruct O1 as (a & n & Dl & Dr & -> & Hn & Hd & Hu & Hl & Hr & F1 & F2 & F3 & E).
  destruct (pieces_node _ _ _ _ _ _ W V) as (_ & Uk & Ux & Ev & P0).
  pose proof (pieces_split _ _ _ _ _ _ k W' V' Hp) as P1. fold t in P0. fold u in P1.
  unfold makes. wp_step.
  eapply wp_mono; [|apply (split_spec _ h q u D'); [done|done|lia]].
  intros [ql qr] h1 (Da & Db & A & Hab & Oa & Ob). cbn [fst snd] in Oa, Ob.
  destruct (acts_frame h D' h1 (Da ∪ Db) D) as (A1 & Hdisj & Hkeep);
    [by eapply treap_owns_dom|done|done|].
  assert (h1 !! a = Some n) as Hn1 by (rewrite Hkeep; [done|clear -E; set_solver]).
  assert (P1' := P1). assert (P0' := P0).
  destruct P0' as (Wl & Wr & Vl & Vr & _ & _ & _ & S0 & _).
  destruct P1' as (Wa & Wb & Va & Vb & _ & _ & _ & S1 & _).
  destruct (t_split 0 u k) as [ta tb]. cbn [fst snd] in *.
  assert (forall c s Ds, treap_owns h c s Ds -> Ds ⊆ D -> treap_owns h1 c s Ds) as Hold.
  { intros c s Ds Hs HDs. eapply treap_owns_frame; [|exact Hs]. auto. }
  wp_step. eapply wp_mono; [|eapply (wp_merge_root o h1 a n Dl Dr Da Db ∅ l r ql qr ta tb
    _ _ (Q l ta) (Q r tb)); try done].
  - intros _ h2 (tl & tr & D2 & A2 & O2 & _ & _ & Ql & Qr). wp_step.
    injection Hd as Ev' Ep Ek Ex. rewrite Ev', Ep, Ek, Ex, Ev in O2.
    eexists _, D2. split_and!; [|exact O2|by eapply HQ].
    eapply acts_trans; [|exact A2].
    eapply acts_equiv; [| |exact A1]; [clear|clear -E]; set_solver.
  - apply Hold; [done|clear -E; set_solver].
  - apply Hold; [done|clear -E; set_solver].
  - clear -Hdisj E. set_solver.
  - intros h2 n2 H2 Hc _ Ol Ot. unfold makes. wp_step. eapply wp_load; [exact H2|].
    rewrite Hc. (apply IH1 || apply IH2); try done; [clear -Hdisj E; set_solver|subst t; simpl in *; lia].
  - intros h2 n2 H2 Hc _ Ol Ot. unfold makes. wp_step. eapply wp_load; [exact H2|].
    rewrite Hc. (apply IH1 || apply IH2); try done; [clear -Hdisj E; set_solver|subst t; simpl in *; lia].
Qed.

(** Equal keys: the counter of the first root is added to the second, and the
    first root is released. *)
Lemma merge_equal o o1 o2 fuel h p q v0 x0 l0 r0 v1 k x1 l1 r1 D0 D1 :
  let t0 := Node v0 (hash k) k x0 l0 r0 in let t1 := Node v1 (hash k) k x1 l1 r1 in
  (forall order, merges fuel (merge order fuel) (merged (hash := hash))) ->
  treap_owns h p t0 D0 -> treap_owns h q t1 D1 -> D0 ## D1 ->
  wf hash t0 -> wf hash t1 -> vers_le 0 t0 -> vers_le 0 t1 ->
  (size t0 + size t1 < S fuel)%nat ->
  makes (D0 ∪ D1)
    (store q (fun m => set_val (wrap64 (n_val m + x0)) m);;
     par_children o q
       (n_0 ← load p; n_1 ← load q; merge o1 fuel (n_lch n_0) (n_lch n_1))
       (n_0 ← load p; n_1 ← load q; merge o2 fuel (n_rch n_0) (n_rch n_1));;
     release_node p;;
     mret q) (merged (hash := hash) t0 t1) h.
Proof.
  intros t0 t1 IH O0 O1 HD W0 W1 V0 V1 Hf.
  destruct O0 as (a0 & n0 & Dl0 & Dr0 & -> & Hn0 & Hd0 & Hu0 & Hl0 & Hr0 & F1 & F2 & F3 & ->).
  destruct O1 as (a1 & n1 & Dl1 & Dr1 & -> & Hn1 & Hd1 & Hu1 & Hl1 & Hr1 & G1 & G2 & G3 & ->).
  destruct (pieces_node _ _ _ _ _ _ W0 V0) as (_ & Uk & Ux0 & _ & P0).
  destruct (pieces_node _ _ _ _ _ _ W1 V1) as (_ & _ & Ux1 & Ev1 & P1). fold t0 in P0. fold t1 in P1.
  assert (P1' := P1). assert (P0' := P0).
  destruct P0' as (Wl0 & Wr0 & Vl0 & Vr0 & _). destruct P1' as (Wl1 & Wr1 & Vl1 & Vr1 & _).
  unfold makes. wp_step. wp_step. set (n1' := set_val _ n1). set (h1 := <[a1 := n1']> h).
  assert (forall c s Ds, treap_owns h c s Ds -> a1 ∉ Ds -> treap_owns h1 c s Ds) as Hold.
  { intros c s Ds Hs HDs. eapply treap_owns_frame; [|exact Hs]. intros b Hb.
    unfold h1. rewrite lookup_insert_ne; [done|congruence]. }
  assert (a1 <> a0) as Hne by (clear -HD; set_solver).
  assert (h1 !! a0 = Some n0) as Hn0' by (unfold h1; by rewrite lookup_insert_ne).
  wp_step. eapply wp_mono; [|eapply (wp_merge_root o h1 a1 n1' Dl1 Dr1 Dl0 Dr0 {[a0]}
    l1 r1 (n_lch n0) (n_rch n0) l0 r0 _ _ (merged (hash := hash) l0 l1) (merged (hash := hash) r0 r1));
    [apply lookup_insert_eq|done|..]; try done].
  - intros _ h2 (tl & tr & D2 & A2 & O2 & K2 & E2 & Ql & Qr).
    assert (h2 !! a0 = Some n0) as Hn2 by (rewrite K2; [done|set_solver]).
    unfold release_node. repeat wp_step.
    injection Hd1 as Ev Ep Ek Ex. unfold n1' in O2.
    cbn [set_val n_ver n_pry n_key n_val] in O2. rewrite Ev, Ep, Ek, Ex, Ev1 in O2.
    eexists _, D2. split_and!; [|eapply treap_owns_frame; [|exact O2]|].
    + assert (acts h ({[a0]} ∪ Dl0 ∪ Dr0 ∪ ({[a1]} ∪ Dl1 ∪ Dr1)) h1
        ({[a1]} ∪ Dl1 ∪ Dr1 ∪ (Dl0 ∪ Dr0) ∪ {[a0]})) as A1.
      { eapply acts_equiv; [reflexivity| |apply acts_store]; clear; set_solver. }
      eapply acts_trans; [exact A1|].
      destruct (acts_frame h1 ({[a1]} ∪ Dl1 ∪ Dr1 ∪ (Dl0 ∪ Dr0)) h2 D2 {[a0]})
        as (A3 & _ & _); [| |exact A2|].
      * intros b ->%elem_of_singleton. by exists n0.
      * clear -HD F1 F2 Hne. set_solver.
      * eapply acts_trans; [exact A3|].
        eapply acts_equiv; [reflexivity| |apply acts_free]; clear -E2; set_solver.
    + intros b Hb. rewrite lookup_delete_ne; [done|]. clear -E2 Hb. set_solver.
    + eapply (merged_node k _ (Some x0) (Some x1)); [done| | | | |exact P0|exact P1|done|done]; [|done| |].
      * auto with u64.
      * subst t0 t1. cbn [size]. lia.
      * intros P HP _. apply HP.
  - apply Hold; [done|]. clear -G1. set_solver.
  - apply Hold; [done|]. clear -G2. set_solver.
  - apply Hold; [done|]. clear -HD. set_solver.
  - apply Hold; [done|]. clear -HD. set_solver.
  - clear -HD. set_solver.
  - clear -HD F1 F2 Hne. set_solver.
  - intros b ->%elem_of_singleton. by exists n0.
  - intros h2 n2 H2 Hc K2 Ol Ot. unfold makes. wp_step.
    eapply wp_load; [rewrite K2; [exact Hn0'|set_solver]|]. wp_step. eapply wp_load; [exact H2|].
    rewrite Hc. apply (makes_equiv (Dl0 ∪ Dl1)); [clear; set_solver|].
    apply IH; try done; [clear -HD; set_solver|subst t0 t1; simpl in *; lia].
  - intros h2 n2 H2 Hc K2 Ol Ot. unfold makes. wp_step.
    eapply wp_load; [rewrite K2; [exact Hn0'|set_solver]|]. wp_step. eapply wp_load; [exact H2|].
    rewrite Hc. apply (makes_equiv (Dr0 ∪ Dr1)); [clear; set_solver|].
    apply IH; try done; [clear -HD; set_solver|subst t0 t1; simpl in *; lia].
Qed.
End merge.

Section merge_spec.
Context {hash : Z -> Z} `{HPH : !PerfectHash hash}.

Lemma val_add_comm x y : val_add x y = val_add y x.
Proof. destruct x, y; simpl; try done. do 2 f_equal. lia. Qed.

Lemma merged_sym t0 t1 t : merged (hash := hash) t0 t1 t -> merged (hash := hash) t1 t0 t.
Proof.
  intros [H1 H2 H3 H4 H5]. split; auto; [lia|]. intros k. rewrite H5. apply val_add_comm.
Qed.

Lemma merge_spec order fuel : merges (hash := hash) fuel (merge order fuel) (merged (hash := hash)).
Proof.
  revert order. induction fuel as [|fuel IH]; intros order h p q t0 t1 D0 D1 O0 O1 HD W0 W1 V0 V1 Hf; [lia|].
  unfold makes. cbn [merge].
  destruct t0 as [|v0 p0 k0 x0 l0 r0].
  { destruct O0 as [-> ->]. wp_step. exists t1, D1. split_and!; [|done|by apply merged_leaf_l].
    eapply acts_equiv; [|done|apply acts_refl]. set_solver. }
  assert (O0' := O0). destruct O0' as (a0 & n0 & _ & _ & -> & Hn0 & Hd0 & _).
  destruct t1 as [|v1 p1 k1 x1 l1 r1].
  { destruct O1 as [-> ->]. wp_step. exists (Node v0 p0 k0 x0 l0 r0), D0.
    split_and!; [|done|by apply merged_leaf_r].
    eapply acts_equiv; [|done|apply acts_refl]. set_solver. }
  assert (O1' := O1). destruct O1' as (a1 & n1 & _ & _ & -> & Hn1 & Hd1 & _).
  injection Hd0 as _ Ep0 Ek0 Ex0. injection Hd1 as _ Ep1 Ek1 Ex1.
  destruct (pieces_node _ _ _ _ _ _ W0 V0) as (Hp0 & Uk0 & Ux0 & _ & _).
  destruct (pieces_node _ _ _ _ _ _ W1 V1) as (Hp1 & Uk1 & Ux1 & _ & _).
  do 4 wp_step. rewrite Ek0, Ek1, Ep0, Ep1, Ex0. clear Ep0 Ep1.
  destruct (Z.eqb_spec k0 k1) as [<-|Hne]; [|destruct (Z.ltb_spec p1 p0) as [Hlt|Hle]]; subst p0 p1.
  - by eapply merge_equal.
  - eapply (merge_around (order []) fuel); try apply IH; try done.
    intros ta tb tl tr P0 P1 M1 M2.
    eapply (merged_node k0 x0 (Some x0) None); try done; [|by intros P [HP _]].
    destruct P1 as (_ & _ & _ & _ & _ & _ & _ & S1 & _). simpl in *. lia.
  - assert (hash k0 < hash k1).
    { destruct (decide (hash k0 = hash k1)) as [E|]; [|lia]. by apply hash_inj in E. }
    apply (makes_equiv (D1 ∪ D0)); [set_solver|].
    eapply (merge_around (order []) fuel (fun p q => merge _ fuel q p) (fun p q => merge _ fuel q p)
      (fun t0 t1 => merged (hash := hash) t1 t0)); try apply merges_swap, IH; try done; [|simpl in *; lia].
    intros ta tb tl tr P0 P1 M1 M2.
    eapply (merged_node k1 x1 None (Some x1)); try done; [|by intros P _ [HP _]].
    destruct P1 as (_ & _ & _ & _ & _ & _ & _ & S1 & _). simpl in *. lia.
Qed.
End merge_spec.

(** ** build *)

(** The counters of a list of elements. *)
Definition bag_of (es : list Z) : bag := foldr bag_insert ∅ es.

Definition count (k : Z) (es : list Z) : Z := Z.of_nat (length (filter (fun e => e = k) es)).

Lemma count_cons k e es : count k (e :: es) = (if decide (e = k) then 1 else 0) + count k es.
Proof. unfold count. rewrite filter_cons. destruct (decide (e = k)); simpl; lia. Qed.

Lemma count_app k es es' : count k (es ++ es') = count k es + count k es'.
Proof. unfold count. rewrite filter_app, length_app. lia. Qed.

Lemma bag_of_lookup k es :
  bag_of es !! k = if count k es =? 0 then None else Some (wrap64 (count k es)).
Proof.
  induction es as [|e es IH]; [done|]. rewrite count_cons. simpl. unfold bag_insert.
  destruct (decide (e = k)) as [->|Hne].
  - rewrite lookup_insert_eq, IH. assert (0 <= count k es) by (unfold count; lia).
    zcases; try lia.
    + rewrite (Z.add_comm 1). simpl. congruence.
    + simpl. rewrite wrap64_add_l. do 2 f_equal. lia.
  - by rewrite lookup_insert_ne, IH by done.
Qed.

Lemma bag_of_app k es es' : bag_of (es ++ es') !! k = val_add (bag_of es !! k) (bag_of es' !! k).
Proof.
  rewrite !bag_of_lookup, count_app.
  assert (0 <= count k es) by (unfold count; lia).
  assert (0 <= count k es') by (unfold count; lia).
  zcases; try lia; simpl; try done.
  - do 2 f_equal. lia.
  - do 2 f_equal. lia.
  - rewrite wrap64_add_l, wrap64_add_r. do 2 f_equal. lia.
Qed.

Section build_spec.
Context {hash : Z -> Z} `{HPH : !PerfectHash hash}.

Definition built (es : list Z) (t : tree) : Prop :=
  wf hash t /\ vers_le 0 t /\ (size t <= length es)%nat /\
  forall k, t_lookup t k = bag_of es !! k.

Lemma built_merged es es' t t' r :
  built es t -> built es' t' -> merged (hash := hash) t t' r -> built (es ++ es') r.
Proof.
  intros (W & V & S & L) (W' & V' & S' & L') [H1 H2 H3 _ H5].
  split_and!; [done|done|rewrite length_app; lia|].
  intros k. by rewrite H5, L, L', bag_of_app.
Qed.

Lemma makes_node h e : u64 e -> makes ∅ (make_node hash 0 e) (built [e]) h.
Proof.
  intros U. unfold makes, make_node, make_node_pry. apply wp_new. intros a Ha.
  exists (Node 0 (hash e) e 1 Leaf Leaf), {[a]}. split_and!; [by apply acts_new| |].
  - eexists a, _, ∅, ∅. rewrite lookup_insert_eq. split_and!; try done; set_solver.
  - split_and!; simpl; try done; try lia. intros k. unfold bag_insert.
    rewrite lookup_empty. simpl. destruct (Z.eqb_spec k e) as [->|].
    + by rewrite lookup_insert_eq.
    + rewrite lookup_insert_ne, lookup_empty by done. by destruct (k <? e).
Qed.

Lemma build_spec order fuel h n es :
  (n < fuel)%nat -> (n <= length es)%nat -> Forall u64 es ->
  makes ∅ (build hash order fuel n es) (built (take n es)) h.
Proof.
  revert order h n es. induction fuel as [|fuel IH]; intros order h n es Hf Hn Hu; [lia|].
  cbn [build]. destruct n as [|[|n']].
  { unfold makes. wp_step. exists Leaf, ∅. split_and!; try done. apply acts_refl. }
  { destruct es as [|e es]; simpl in Hn; [lia|]. apply makes_node. by inversion Hu. }
  destruct es as [|e es']; [simpl in Hn; lia|]. set (es := e :: es') in *. set (n := S (S n')) in *.
  assert (n / 2 < n)%nat by (apply Nat.div_lt; lia).
  assert (0 < n / 2)%nat by (apply Nat.div_str_pos; lia).
  unfold makes. wp_step.
  eapply wp_mono; [|apply (wp_par_fresh (order []) h _ _
    (built (take (n / 2) es)) (built (take (n - n / 2) (drop (n / 2) es)))); intros h1 _; apply IH;
    rewrite ?length_drop; try lia; auto using Forall_drop].
  intros ts h1 (t1 & t2 & D1 & D2 & A & HD & O1 & O2 & B1 & B2).
  eapply wp_mono; [|apply (merge_spec (hash := hash) (branch 3 order) (S fuel) h1 _ _ t1 t2 D1 D2 O1 O2 HD);
    try apply B1; try apply B2].
  - intros c h2 (t & D & A2 & O & HM). exists t, D. split_and!; [by eapply acts_trans|done|].
    replace (take n es) with (take (n / 2) es ++ take (n - n / 2) (drop (n / 2) es)).
    + by eapply built_merged.
    + rewrite <- (take_drop (n / 2) (take n es)), take_take, skipn_firstn_comm.
      f_equal. f_equal. lia.
  - destruct B1 as (_ & _ & S1 & _), B2 as (_ & _ & S2 & _).
    rewrite length_take in S1, S2. rewrite length_drop in S2. lia.
Qed.

(** The heap after [build]: the new nodes, without aggregates. *)
Lemma treap_owns_uninit h p t D a n :
  treap_owns h p t D -> a ∈ D -> h !! a = Some n -> n_aug n = aug_uninitialized.
Proof.
  revert p D. induction t as [|v pr k x l IHl r IHr]; simpl; intros p D.
  - intros [_ ->]. set_solver.
  - intros (b & m & Dl & Dr & -> & Hm & _ & Hu & Hl & Hr & _ & _ & _ & ->) Ha Hn.
    apply elem_of_union in Ha as [[->%elem_of_singleton|Ha]%elem_of_union|Ha]; eauto; congruence.
Qed.

Lemma acts_empty_aug_wf h h' p t D :
  acts h ∅ h' D -> treap_owns h' p t D -> aug_wf h -> aug_wf h'.
Proof.
  intros [A B C] O. apply aug_wf_weaken.
  - apply map_subseteq_spec. intros a n Ha. apply A; [done|set_solver].
  - intros a n Ha Hnone. eapply treap_owns_uninit; [exact O| |exact Ha].
    destruct (C a) as [?|[[m Hm] _]]; [by exists n|done|congruence].
Qed.

(** The locations of the nodes that are reached from [p] along the tree *)
Fixpoint nodes (h : heap) (p : ptr) (t : tree) : gset loc :=
  match t, p with
  | Node _ _ _ _ l r, Some a =>
      match h !! a with
      | Some n => {[a]} ∪ nodes h (n_lch n) l ∪ nodes h (n_rch n) r
      | None => ∅
      end
  | _, _ => ∅
  end.

Lemma treap_owns_nodes h p t D : treap_owns h p t D -> nodes h p t = D /\ base.size D = size t.
Proof.
  revert p D. induction t as [|v pr k x l IHl r IHr]; simpl; intros p D; [intros [-> ->]; by rewrite size_empty|].
  intros (a & n & Dl & Dr & -> & Hn & _ & _ & Hl & Hr & F1 & F2 & F3 & ->).
  destruct (IHl _ _ Hl) as [El Sl], (IHr _ _ Hr) as [Er Sr]. rewrite Hn, El, Er. split; [done|].
  rewrite !size_union by set_solver. rewrite size_singleton. lia.
Qed.

(** Aggregation does not change links. *)
Lemma nodes_heap_le h h' p t : heap_le h h' -> rep h p t -> nodes h' p t = nodes h p t.
Proof.
  intros Hle. revert p. induction t as [|v pr k x l IHl r IHr]; intros p; [done|].
  intros (a & n & -> & Hn & _ & Hl & Hr). simpl. destruct (Hle a n Hn) as [y ->].
  rewrite Hn. simpl. by rewrite IHl, IHr.
Qed.

Lemma aug_step_dom h h' : aug_step h h' -> dom h' = dom h.
Proof.
  intros (A & B & _). apply set_eq. intros a. rewrite !elem_of_dom. split; intros [n Hn].
  - destruct (h !! a) eqn:E; [done|]. rewrite (B a E) in Hn. done.
  - destruct (A a n Hn) as [y ->]. done.
Qed.

(** The program allocates exactly the nodes of the tree, one for each. *)
Definition allocates (h h' : heap) (p : ptr) (t : tree) : Prop :=
  dom h ## nodes h' p t /\ dom h' = dom h ∪ nodes h' p t /\ base.size (nodes h' p t) = size t.

Lemma acts_allocates h h' p t D : acts h ∅ h' D -> treap_owns h' p t D -> allocates h h' p t.
Proof.
  intros [A B C] O. unfold allocates. destruct (treap_owns_nodes _ _ _ _ O) as [-> HS]. split_and!; [| |done].
  - intros a Ha%elem_of_dom HD. destruct (B a HD) as [?|Hn]; [set_solver|]. rewrite Hn in Ha. by destruct Ha.
  - apply set_eq. intros a. rewrite elem_of_union, !elem_of_dom. split.
    + intros Ha. destruct (C a Ha) as [?|[? _]]; [by right|by left].
    + intros [[n Hn]|HD]; [|by eapply treap_owns_dom]. exists n. apply A; [done|set_solver].
Qed.

Lemma build_parallel_spec order fuel h n es :
  (n < fuel)%nat -> (n <= length es)%nat -> Forall u64 es -> aug_wf h ->
  wp (build_parallel hash order fuel n es)
     (fun p h' => exists t, auged h' p t /\ built (take n es) t /\ aug_wf h' /\ heap_le h h' /\ allocates h h' p t) h.
Proof.
  intros Hf Hn Hu Hw. unfold build_parallel. wp_step.
  eapply wp_mono; [|by apply build_spec]. intros p h1 (t & D & A & O & B). wp_step.
  assert (size t < fuel)%nat by (destruct B as (_ & _ & S & _); rewrite length_take in S; lia).
  assert (rep h1 p t) as Hrep by by eapply treap_owns_rep.
  eapply wp_mono; [|apply (augment_parallel_spec (branch 2 order) fuel h1 p t);
    [done|by eapply acts_empty_aug_wf|done]].
  intros s h2 (_ & Hst & Hau & Hw2). wp_step. exists t. split_and!; try done.
  - transitivity h1; [|by apply aug_step_heap_le]. apply heap_le_subseteq, map_subseteq_spec.
    intros a m Ha. eapply acts_keep; [exact A|done|set_solver].
  - unfold allocates. rewrite (nodes_heap_le h1 h2), (aug_step_dom h1 h2) by (done || by apply aug_step_heap_le).
    by eapply acts_allocates.
Qed.
End build_spec.

(** C10: building a treap from an array of elements terminates without error
    whichever of its forked tasks the scheduler runs first at each fork (in-place
    merges of both subtrees included), overwrites no existing node, and returns a
    well-formed and fully aggregated treap that counts every element as often as
    it occurs in the array.  No node is leaked or shared: the nodes that the heap
    has in addition are exactly those of the treap, one for each. *)
Theorem build_parallel_correct hash `{!PerfectHash hash} order fuel h es :
  Forall u64 es -> aug_wf h -> (length es < fuel)%nat ->
  wp (build_parallel hash order fuel (length es) es)
     (fun p h' => heap_le h h' /\ aug_wf h' /\
        exists t, auged h' p t /\ wf hash t /\ vers_le 0 t /\ to_bag t = bag_of es /\
          dom h ## nodes h' p t /\ dom h' = dom h ∪ nodes h' p t /\ base.size (nodes h' p t) = size t) h.
Proof.
  intros Hu Hw Hf. eapply wp_mono; [|by apply (build_parallel_spec (hash := hash))].
  intros p h' (t & Ha & (W & V & _ & L) & Hw' & Hle & HA1 & HA2 & HA3). split_and!; [done|done|].
  exists t. split_and!; try done. apply map_eq. intros k.
  by rewrite (to_bag_lookup hash), L, firstn_all by done.
Qed.

Theorem build_parallel_correct_witness :
  wp (build_parallel wrap64 alternating 9 4 [7; 5; 7; 2])
     (fun p h' => heap_le heap_ex h' /\ aug_wf h' /\
        exists t, auged h' p t /\ wf wrap64 t /\ vers_le 0 t /\ to_bag t = bag_of [7; 5; 7; 2] /\
          dom heap_ex ## nodes h' p t /\ dom h' = dom heap_ex ∪ nodes h' p t /\ base.size (nodes h' p t) = size t)
     heap_ex.
Proof.
  apply (build_parallel_correct wrap64 alternating 9 heap_ex [7; 5; 7; 2]).
  - repeat constructor; done.
  - intros a n Hn _. unfold heap_ex in Hn. simpl in Hn.
    repeat (apply lookup_insert_Some in Hn as [[<- <-]|[_ Hn]]; [eexists|]); [..|done].
    + instantiate (1 := Node 0 2 2 1 Leaf Leaf). eexists 1%positive, _. by split_and!.
    + instantiate (1 := Node 0 5 5 1 (Node 0 2 2 1 Leaf Leaf) Leaf).
      eexists 2%positive, _. split_and!; try done. eexists 1%positive, _. by split_and!.
    + exact heap_ex_auged.
  - simpl. lia.
Defined.
