(* ===== verification/Scheduler.v ===== *)
(** * The concurrent scheduler: state and steps

    [src/lib/treap/scheduler.hpp].  The shared memory of the scheduler, its
    threads with their program counters, and one function per method.  [exec]
    runs one atomic step of one thread; [history] collects the states that
    interleavings of the threads reach.

    Granularity.  Every access to an atomic counter ([tokens_],
    [num_submitted_], [num_fetched_], [num_committed_], [num_estimated_],
    [stage]) is a step of its own, and threads interleave arbitrarily at
    sequential consistency.  One call of [execute_one_step_],
    [execute_to_complete_] or [augment] is one step: it writes only the context
    and the nodes of its own task (for [augment], the [aug] fields).  A spin
    loop is a step that is not enabled until its condition holds. *)

From S2P Require Import Prelude TreapTree TreapNode TreapUpdate TreapQuery.

(** ** Task contexts *)

Inductive status := ST_RUNNING | ST_DONE.
Inductive operation := OP_NONE | OP_INSERT | OP_DELETE.
Inductive functor := FN_SEARCH | FN_SETREF | FN_CONCAT.
Inductive direction := DIR_NONE | DIR_LEFT | DIR_RIGHT.

#[global] Instance status_eq_dec : EqDecision status.
Proof. solve_decision. Defined.
#[global] Instance operation_eq_dec : EqDecision operation.
Proof. solve_decision. Defined.
#[global] Instance functor_eq_dec : EqDecision functor.
Proof. solve_decision. Defined.
#[global] Instance direction_eq_dec : EqDecision direction.
Proof. solve_decision. Defined.

(** The counter [stage]: a round number, or [STAGE_DONE], the largest
    [size_t]. *)
Inductive stage_t := Stage (s : nat) | STAGE_DONE.

Definition stage_le (g : stage_t) (s : nat) : bool :=
  match g with Stage s' => (s' <=? s)%nat | STAGE_DONE => false end.

Record context := mk_context {
  st : status;
  op : operation;
  fn : functor;
  dir : direction;
  t_cur : ptr;
  t_past : ptr;
  c_ver : nat;
  c_pry : Z;
  c_key : Z;
  t_l : ptr;
  t_r : ptr;
  stage : stage_t;
  root : ptr;
}.

Definition new_context : context :=
  mk_context ST_RUNNING OP_NONE FN_SEARCH DIR_NONE None None 0 0 0 None None (Stage 0) None.

Definition set_fn f c := mk_context (st c) (op c) f (dir c) (t_cur c) (t_past c) (c_ver c)
  (c_pry c) (c_key c) (t_l c) (t_r c) (stage c) (root c).
Definition set_dir d c := mk_context (st c) (op c) (fn c) d (t_cur c) (t_past c) (c_ver c)
  (c_pry c) (c_key c) (t_l c) (t_r c) (stage c) (root c).
Definition set_t_cur p c := mk_context (st c) (op c) (fn c) (dir c) p (t_past c) (c_ver c)
  (c_pry c) (c_key c) (t_l c) (t_r c) (stage c) (root c).
Definition set_t_past p c := mk_context (st c) (op c) (fn c) (dir c) (t_cur c) p (c_ver c)
  (c_pry c) (c_key c) (t_l c) (t_r c) (stage c) (root c).
Definition set_t_l p c := mk_context (st c) (op c) (fn c) (dir c) (t_cur c) (t_past c) (c_ver c)
  (c_pry c) (c_key c) p (t_r c) (stage c) (root c).
Definition set_t_r p c := mk_context (st c) (op c) (fn c) (dir c) (t_cur c) (t_past c) (c_ver c)
  (c_pry c) (c_key c) (t_l c) p (stage c) (root c).
Definition set_stage g c := mk_context (st c) (op c) (fn c) (dir c) (t_cur c) (t_past c) (c_ver c)
  (c_pry c) (c_key c) (t_l c) (t_r c) g (root c).
Definition set_root p c := mk_context (st c) (op c) (fn c) (dir c) (t_cur c) (t_past c) (c_ver c)
  (c_pry c) (c_key c) (t_l c) (t_r c) (stage c) p.
Definition set_task o v pr k c := mk_context (st c) o (fn c) (dir c) (t_cur c) (t_past c) v
  pr k (t_l c) (t_r c) (stage c) (root c).

(** [context::done] and [context::is_done] *)
Definition done_ (c : context) : context :=
  mk_context ST_DONE (op c) (fn c) (dir c) (t_cur c) (t_past c) (c_ver c)
    (c_pry c) (c_key c) (t_l c) (t_r c) STAGE_DONE (root c).

Definition is_done (c : context) : bool :=
  match stage c with STAGE_DONE => true | Stage _ => false end.

(** ** The work of a task

    [concat_] and [update_] return the pointer they assign to [*tp]. *)

Section work.
Context (fuel : nat).

Definition concat_ (ctx : context) : M node_t (ptr * context) :=
  match t_l ctx, t_r ctx with
  | None, _ => mret (t_r ctx, done_ ctx)
  | _, None => mret (t_l ctx, done_ ctx)
  | Some _, Some _ =>
      nl ← load (t_l ctx);
      nr ← load (t_r ctx);
      if n_pry nr <? n_pry nl then
        c ← make_weak_copy_ver (t_l ctx) (c_ver ctx);
        mret (c, set_dir DIR_RIGHT ctx)
      else
        c ← make_weak_copy_ver (t_r ctx) (c_ver ctx);
        mret (c, set_dir DIR_LEFT ctx)
  end.

Definition update_ (num_committed : nat) (ctx : context) : M node_t (ptr * context) :=
  match t_past ctx with
  | None =>
      match op ctx with
      | OP_INSERT =>
          c ← make_node_pry (c_ver ctx) (c_pry ctx) (c_key ctx);
          mret (c, done_ ctx)
      | _ => mret (None, done_ ctx)
      end
  | Some _ =>
      n ← load (t_past ctx);
      if c_pry ctx <? n_pry n then
        c ← make_weak_copy_ver (t_past ctx) (c_ver ctx);
        mret (c, set_dir (if c_key ctx <? n_key n then DIR_LEFT else DIR_RIGHT) ctx)
      else if n_key n =? c_key ctx then
        match op ctx with
        | OP_INSERT =>
            c ← make_weak_copy_ver (t_past ctx) (c_ver ctx);
            store c (fun m => set_val (wrap64 (n_val m + 1)) m);;
            mret (c, set_fn FN_SETREF ctx)
        | _ =>
            if n_val n =? 1 then
              let vdep := n_ver n in
              await (vdep <=? num_committed)%nat;;
              concat_ (set_fn FN_CONCAT (set_t_r (n_rch n) (set_t_l (n_lch n) ctx)))
            else
              c ← make_weak_copy_ver (t_past ctx) (c_ver ctx);
              store c (fun m => set_val (wrap64 (n_val m - 1)) m);;
              mret (c, set_fn FN_SETREF ctx)
        end
      else
        match op ctx with
        | OP_INSERT =>
            let vdep := n_ver n in
            await (vdep <=? num_committed)%nat;;
            c ← process_deploy fuel (c_ver ctx) (t_past ctx) (c_pry ctx) (c_key ctx);
            mret (c, done_ ctx)
        | _ => mret (t_past ctx, done_ ctx)
        end
  end.

Definition execute_one_step_ (num_committed : nat) (ctx : context) : M node_t context :=
  match fn ctx with
  | FN_SEARCH =>
      n ← load (t_past ctx);
      match dir ctx with
      | DIR_LEFT =>
          store (t_cur ctx) (set_rch (n_rch n));;
          r ← update_ num_committed (set_t_past (n_lch n) ctx);
          store (t_cur ctx) (set_lch r.1);;
          mret (set_t_cur r.1 r.2)
      | _ =>
          store (t_cur ctx) (set_lch (n_lch n));;
          r ← update_ num_committed (set_t_past (n_rch n) ctx);
          store (t_cur ctx) (set_rch r.1);;
          mret (set_t_cur r.1 r.2)
      end
  | FN_SETREF =>
      n ← load (t_past ctx);
      store (t_cur ctx) (set_lch (n_lch n));;
      store (t_cur ctx) (set_rch (n_rch n));;
      mret (done_ ctx)
  | FN_CONCAT =>
      match dir ctx with
      | DIR_LEFT =>
          n ← load (t_r ctx);
          store (t_cur ctx) (set_rch (n_rch n));;
          r ← concat_ (set_t_r (n_lch n) ctx);
          store (t_cur ctx) (set_lch r.1);;
          mret (set_t_cur r.1 r.2)
      | _ =>
          n ← load (t_l ctx);
          store (t_cur ctx) (set_lch (n_lch n));;
          r ← concat_ (set_t_l (n_rch n) ctx);
          store (t_cur ctx) (set_rch r.1);;
          mret (set_t_cur r.1 r.2)
      end
  end.

Definition search_op (o : operation) (ver : nat) (t : ptr) (pry key : Z) : M node_t ptr :=
  match o with
  | OP_INSERT => search_insert fuel ver t pry key
  | _ => search_delete fuel ver t pry key
  end.

Definition execute_to_complete_ (ctx : context) : M node_t context :=
  match fn ctx with
  | FN_SEARCH =>
      n ← load (t_past ctx);
      match dir ctx with
      | DIR_LEFT =>
          store (t_cur ctx) (set_rch (n_rch n));;
          c ← search_op (op ctx) (c_ver ctx) (n_lch n) (c_pry ctx) (c_key ctx);
          store (t_cur ctx) (set_lch c);;
          mret (done_ (set_t_past (n_lch n) ctx))
      | _ =>
          store (t_cur ctx) (set_lch (n_lch n));;
          c ← search_op (op ctx) (c_ver ctx) (n_rch n) (c_pry ctx) (c_key ctx);
          store (t_cur ctx) (set_rch c);;
          mret (done_ (set_t_past (n_rch n) ctx))
      end
  | FN_SETREF =>
      n ← load (t_past ctx);
      store (t_cur ctx) (set_lch (n_lch n));;
      store (t_cur ctx) (set_rch (n_rch n));;
      mret (done_ ctx)
  | FN_CONCAT =>
      match dir ctx with
      | DIR_LEFT =>
          n ← load (t_r ctx);
          store (t_cur ctx) (set_rch (n_rch n));;
          c ← process_concat fuel (c_ver ctx) (t_l ctx) (n_lch n);
          store (t_cur ctx) (set_lch c);;
          mret (done_ (set_t_r (n_lch n) ctx))
      | _ =>
          n ← load (t_l ctx);
          store (t_cur ctx) (set_lch (n_lch n));;
          c ← process_concat fuel (c_ver ctx) (n_rch n) (t_r ctx);
          store (t_cur ctx) (set_rch c);;
          mret (done_ (set_t_l (n_rch n) ctx))
      end
  end.
End work.

(** ** Threads and shared state *)

Inductive pipe_pc := PFetch | PWait | PExec | PSend.

(** [pipe_thread_]: the loop variable [pos] and the point in the loop body. *)
Record pipe := mk_pipe { p_pos : nat; p_pc : pipe_pc }.

(** [boarder_thread_]: [local_submitted], and whether it has yet to be stored
    into [num_submitted_]. *)
Record boarder := mk_boarder { b_local : nat; b_store : bool }.

Inductive worker_pc :=
  | WHead                            (** loop test of [worker_thread_], fetch *)
  | WSubmit                          (** wait until the task is submitted *)
  | WTest (stage : nat)              (** loop test [st != ST_DONE], store [stage] *)
  | WGuard (stage : nat)             (** read [t_past->ver] and [num_committed_] *)
  | WComplete (stage : nat)          (** [execute_to_complete_] *)
  | WDepend (stage : nat) (vdep : nat) (** spin on [ctxs_[vdep].stage] *)
  | WStep (stage : nat) (vdep : nat)   (** [execute_one_step_] *)
  | WCheck                           (** test [task_id >= block_end] *)
  | WEstimate (task_id : nat)        (** loop of [work_estimate_] *)
  | WPublish                         (** store into [num_estimated_] *)
  | WStop.

Record worker := mk_worker {
  w_pc : worker_pc;
  w_task : nat;      (** [task_id] *)
  w_cached : nat;    (** [cached_submit] *)
  w_count : nat;     (** [block_count] *)
  w_start : nat;     (** [block_start] *)
  w_end : nat;       (** [block_end] *)
}.

(** [collector_thread_] *)
Record collector := mk_collector { c_local : nat; c_next : nat }.

Record sched := mk_sched {
  s_heap : heap;
  s_ctxs : list context;
  s_tokens : list Z;
  s_estimated : list nat;
  s_issued : nat;
  s_pending : bool;      (** [init_context_] has yet to add its token *)
  s_submitted : nat;
  s_fetched : nat;
  s_committed : nat;
  s_pipes : list pipe;
  s_board : boarder;
  s_workers : list worker;
  s_coll : collector;
}.

Definition set_heap h σ := mk_sched h (s_ctxs σ) (s_tokens σ) (s_estimated σ) (s_issued σ)
  (s_pending σ) (s_submitted σ) (s_fetched σ) (s_committed σ) (s_pipes σ) (s_board σ)
  (s_workers σ) (s_coll σ).
Definition set_ctx v c σ := mk_sched (s_heap σ) (<[v := c]> (s_ctxs σ)) (s_tokens σ)
  (s_estimated σ) (s_issued σ) (s_pending σ) (s_submitted σ) (s_fetched σ) (s_committed σ)
  (s_pipes σ) (s_board σ) (s_workers σ) (s_coll σ).
Definition set_token i z σ := mk_sched (s_heap σ) (s_ctxs σ) (<[i := z]> (s_tokens σ))
  (s_estimated σ) (s_issued σ) (s_pending σ) (s_submitted σ) (s_fetched σ) (s_committed σ)
  (s_pipes σ) (s_board σ) (s_workers σ) (s_coll σ).
Definition set_estimated i n σ := mk_sched (s_heap σ) (s_ctxs σ) (s_tokens σ)
  (<[i := n]> (s_estimated σ)) (s_issued σ) (s_pending σ) (s_submitted σ) (s_fetched σ)
  (s_committed σ) (s_pipes σ) (s_board σ) (s_workers σ) (s_coll σ).
Definition set_issued n b σ := mk_sched (s_heap σ) (s_ctxs σ) (s_tokens σ) (s_estimated σ) n
  b (s_submitted σ) (s_fetched σ) (s_committed σ) (s_pipes σ) (s_board σ) (s_workers σ) (s_coll σ).
Definition set_submitted n σ := mk_sched (s_heap σ) (s_ctxs σ) (s_tokens σ) (s_estimated σ)
  (s_issued σ) (s_pending σ) n (s_fetched σ) (s_committed σ) (s_pipes σ) (s_board σ)
  (s_workers σ) (s_coll σ).
Definition set_fetched n σ := mk_sched (s_heap σ) (s_ctxs σ) (s_tokens σ) (s_estimated σ)
  (s_issued σ) (s_pending σ) (s_submitted σ) n (s_committed σ) (s_pipes σ) (s_board σ)
  (s_workers σ) (s_coll σ).
Definition set_committed n σ := mk_sched (s_heap σ) (s_ctxs σ) (s_tokens σ) (s_estimated σ)
  (s_issued σ) (s_pending σ) (s_submitted σ) (s_fetched σ) n (s_pipes σ) (s_board σ)
  (s_workers σ) (s_coll σ).
Definition set_pipe i p σ := mk_sched (s_heap σ) (s_ctxs σ) (s_tokens σ) (s_estimated σ)
  (s_issued σ) (s_pending σ) (s_submitted σ) (s_fetched σ) (s_committed σ)
  (<[i := p]> (s_pipes σ)) (s_board σ) (s_workers σ) (s_coll σ).
Definition set_board b σ := mk_sched (s_heap σ) (s_ctxs σ) (s_tokens σ) (s_estimated σ)
  (s_issued σ) (s_pending σ) (s_submitted σ) (s_fetched σ) (s_committed σ) (s_pipes σ) b
  (s_workers σ) (s_coll σ).
Definition set_worker i w σ := mk_sched (s_heap σ) (s_ctxs σ) (s_tokens σ) (s_estimated σ)
  (s_issued σ) (s_pending σ) (s_submitted σ) (s_fetched σ) (s_committed σ) (s_pipes σ)
  (s_board σ) (<[i := w]> (s_workers σ)) (s_coll σ).
Definition set_coll c σ := mk_sched (s_heap σ) (s_ctxs σ) (s_tokens σ) (s_estimated σ)
  (s_issued σ) (s_pending σ) (s_submitted σ) (s_fetched σ) (s_committed σ) (s_pipes σ)
  (s_board σ) (s_workers σ) c.

Definition set_pc pc w :=
  mk_worker pc (w_task w) (w_cached w) (w_count w) (w_start w) (w_end w).

(** The outcome of one step of a thread. *)
Inductive outcome :=
  | Next (σ : sched)
  | Wait                 (** the thread is spinning, or has finished *)
  | Fault (e : err).

(** The parameters of the constructor, the hash function and the recursion
    bound of the node operations. *)
Record config := mk_config {
  num_pipes_ : nat;
  num_workers_ : nat;
  block_size_ : nat;
  num_tasks_ : nat;
  cfg_hash : Z -> Z;
  cfg_fuel : nat;
}.

(** [decide_num_pipes_] and [decide_num_workers_]: [ceil (2 * log2 n)] is the
    least [p] with [n * n <= 2 ^ p]. *)
Definition decide_num_pipes_ (num_threads : nat) : nat :=
  if (num_threads <? 16)%nat then (num_threads / 2)%nat
  else Nat.log2_up (num_threads * num_threads).

Definition decide_num_workers_ (num_threads : nat) : nat :=
  let p := (num_threads - decide_num_pipes_ num_threads)%nat in
  if (0 <? p)%nat then p else 1%nat.

(** The configuration the constructor computes from its arguments. *)
Definition scheduler_config (num_threads num_tasks block_size : nat) (hash : Z -> Z) (fuel : nat)
    : config :=
  mk_config (decide_num_pipes_ num_threads) (decide_num_workers_ num_threads)
    block_size num_tasks hash fuel.

Definition size_max : Z := two64 - 1.

(** Running a node operation of the scheduler on the shared heap. *)
Definition run {A} (m : M node_t A) (σ : sched) (k : A -> sched -> outcome) : outcome :=
  match m (s_heap σ) with
  | Ok (a, h) => k a (set_heap h σ)
  | Err Blocked => Wait
  | Err e => Fault e
  end.

Definition get {A} (l : list A) (i : nat) (k : A -> outcome) : outcome :=
  match l !! i with Some x => k x | None => Fault BadPtr end.

Inductive label :=
  | LInit (o : operation) (elem : Z)   (** [init_context_], up to the token *)
  | LPush                              (** [init_context_], adding the token *)
  | LPipe (id : nat)                   (** a step of pipe [id+1] *)
  | LBoard
  | LWork (id : nat)                   (** a step of worker [id+1] *)
  | LCollect.

Section exec.
Context (cfg : config).

Definition init_context_ (o : operation) (elem : Z) (σ : sched) : outcome :=
  if s_pending σ then Wait
  else
    let v := S (s_issued σ) in
    get (s_ctxs σ) v (fun ctx =>
    get (s_ctxs σ) (s_issued σ) (fun prev =>
      match o with
      | OP_NONE =>
          let ctx := set_task OP_NONE v (c_pry ctx) (c_key ctx) ctx in
          Next (set_issued v true (set_ctx v (done_ (set_root (root prev) ctx)) σ))
      | _ =>
          let ctx := set_t_past (root prev) (set_task o v (cfg_hash cfg elem) elem ctx) in
          run (update_ (cfg_fuel cfg) (s_committed σ) ctx) σ (fun r σ =>
            Next (set_issued v true (set_ctx v (set_t_cur r.1 (set_root r.1 r.2)) σ)))
      end)).

(** [tokens_[i].data.fetch_add(1)] *)
Definition push_token (i : nat) (σ : sched) (k : sched -> outcome) : outcome :=
  get (s_tokens σ) i (fun z => k (set_token i (wrap64 (z + 1)) σ)).

Definition init_push_ (σ : sched) : outcome :=
  if s_pending σ then push_token 0 σ (fun σ => Next (set_issued (s_issued σ) false σ))
  else Wait.

Definition pipe_thread_ (id : nat) (σ : sched) : outcome :=
  get (s_pipes σ) id (fun p =>
    let pos := p_pos p in
    if (num_tasks_ cfg <? pos)%nat then Wait
    else match p_pc p with
    | PFetch =>
        get (s_tokens σ) id (fun my_token =>
          Next (set_pipe id (mk_pipe pos (if my_token =? 0 then PWait else PExec))
                  (set_token id (wrap64 (my_token - 1)) σ)))
    | PWait =>
        get (s_tokens σ) id (fun z =>
          if z =? size_max then Wait else Next (set_pipe id (mk_pipe pos PExec) σ))
    | PExec =>
        get (s_ctxs σ) pos (fun ctx =>
          match st ctx with
          | ST_DONE => Next (set_pipe id (mk_pipe pos PSend) σ)
          | ST_RUNNING =>
              run (execute_one_step_ (cfg_fuel cfg) (s_committed σ) ctx) σ (fun ctx σ =>
                Next (set_pipe id (mk_pipe pos PSend) (set_ctx pos ctx σ)))
          end)
    | PSend =>
        push_token (S id) σ (fun σ => Next (set_pipe id (mk_pipe (S pos) PFetch) σ))
    end).

Definition boarder_thread_ (σ : sched) : outcome :=
  let b := s_board σ in
  if b_store b then Next (set_board (mk_boarder (b_local b) false) (set_submitted (b_local b) σ))
  else if (b_local b <? num_tasks_ cfg)%nat then
    get (s_tokens σ) (num_pipes_ cfg) (fun num_tokens =>
      if 0 <? num_tokens then
        Next (set_board (mk_boarder (b_local b + Z.to_nat num_tokens) true)
                (set_token (num_pipes_ cfg) 0 σ))
      else Wait)
  else Wait.

Definition worker_thread_ (id : nat) (σ : sched) : outcome :=
  get (s_workers σ) id (fun w =>
    let goto pc σ := Next (set_worker id (set_pc pc w) σ) in
    match w_pc w with
    | WHead =>
        if (w_task w <=? num_tasks_ cfg)%nat then
          let task_id := S (s_fetched σ) in
          Next (set_worker id (mk_worker
                  (if (num_tasks_ cfg <? task_id)%nat then WCheck else WSubmit)
                  task_id (w_cached w) (w_count w) (w_start w) (w_end w))
                  (set_fetched task_id σ))
        else goto WStop σ
    | WSubmit =>
        if (w_task w <=? w_cached w)%nat then goto (WTest 1) σ
        else if (w_cached w =? s_submitted σ)%nat then Wait
        else Next (set_worker id (mk_worker WSubmit (w_task w) (s_submitted σ)
               (w_count w) (w_start w) (w_end w)) σ)
    | WTest stage =>
        get (s_ctxs σ) (w_task w) (fun ctx =>
          match st ctx with
          | ST_DONE => goto WCheck σ
          | ST_RUNNING =>
              goto (WGuard stage) (set_ctx (w_task w) (set_stage (Stage stage) ctx) σ)
          end)
    | WGuard stage =>
        get (s_ctxs σ) (w_task w) (fun ctx =>
          run (load (t_past ctx)) σ (fun n σ =>
            let vdep := n_ver n in
            if (vdep <=? s_committed σ)%nat then goto (WComplete stage) σ
            else goto (WDepend stage vdep) σ))
    | WComplete stage =>
        get (s_ctxs σ) (w_task w) (fun ctx =>
          run (execute_to_complete_ (cfg_fuel cfg) ctx) σ (fun ctx σ =>
            goto (WTest (S stage)) (set_ctx (w_task w) ctx σ)))
    | WDepend stage vdep =>
        get (s_ctxs σ) vdep (fun dep =>
          if stage_le (Scheduler.stage dep) stage then Wait else goto (WStep stage vdep) σ)
    | WStep stage vdep =>
        get (s_ctxs σ) (w_task w) (fun ctx =>
          run (execute_one_step_ (cfg_fuel cfg) (s_committed σ) ctx) σ (fun ctx σ =>
            goto (WTest (S stage)) (set_ctx (w_task w) ctx σ)))
    | WCheck =>
        if (w_end w <=? w_task w)%nat then
          if (w_end w <? w_start w)%nat then goto WPublish σ else goto (WEstimate (w_end w)) σ
        else goto WHead σ
    | WEstimate task_id =>
        get (s_ctxs σ) task_id (fun ctx =>
          run (augment (cfg_fuel cfg) (root ctx)) σ (fun _ σ =>
            if (w_start w <=? task_id - 1)%nat && (0 <? task_id)%nat
            then goto (WEstimate (task_id - 1)) σ else goto WPublish σ))
    | WPublish =>
        let start := (w_start w + num_workers_ cfg * block_size_ cfg)%nat in
        Next (set_worker id (mk_worker WHead (w_task w) (w_cached w) (S (w_count w)) start
                (Nat.min (start + block_size_ cfg - 1) (num_tasks_ cfg)))
                (set_estimated id (S (w_count w)) σ))
    | WStop => Wait
    end).

Definition collector_thread_ (σ : sched) : outcome :=
  let c := s_coll σ in
  if (c_local c <? num_tasks_ cfg)%nat then
    let commit :=
      if (c_local c <? c_next c)%nat then
        Next (set_coll (mk_collector (c_next c) (c_next c)) (set_committed (c_next c) σ))
      else Wait in
    if (c_next c <? num_tasks_ cfg)%nat then
      get (s_ctxs σ) (S (c_next c)) (fun ctx =>
        if is_done ctx then Next (set_coll (mk_collector (c_local c) (S (c_next c))) σ)
        else commit)
    else commit
  else Wait.

Definition exec (l : label) (σ : sched) : outcome :=
  match l with
  | LInit o elem => init_context_ o elem σ
  | LPush => init_push_ σ
  | LPipe id => pipe_thread_ id σ
  | LBoard => boarder_thread_ σ
  | LWork id => worker_thread_ id σ
  | LCollect => collector_thread_ σ
  end.

(** The state the constructor leaves: [t0] is the root of version 0. *)
Definition init_worker (id : nat) : worker :=
  mk_worker WHead 0 0 0 (id * block_size_ cfg + 1)
    (Nat.min (id * block_size_ cfg + 1 + block_size_ cfg - 1) (num_tasks_ cfg)).

Definition scheduler_init (h : heap) (t0 : ptr) : sched :=
  mk_sched h
    (done_ (set_root t0 new_context) :: replicate (num_tasks_ cfg) new_context)
    (replicate (S (num_pipes_ cfg)) 0)
    (replicate (num_workers_ cfg) 0%nat)
    0 false 0 0 0
    (replicate (num_pipes_ cfg) (mk_pipe 1 PFetch))
    (mk_boarder 0 false)
    (init_worker <$> seq 0 (num_workers_ cfg))
    (mk_collector 0 0).

(** Running a given interleaving: the labels in order; a label whose thread
    is waiting is skipped. *)
Fixpoint run_schedule (ls : list label) (σ : sched) : outcome :=
  match ls with
  | [] => Next σ
  | l :: ls =>
      match exec l σ with
      | Next σ' => run_schedule ls σ'
      | Wait => run_schedule ls σ
      | Fault e => Fault e
      end
  end.

(** [get_snapshot]: [Err Blocked] while it spins, since the block of the version is not estimated;
    the divisions fault when there are no workers or the blocks are empty. *)
Definition get_snapshot (ver : nat) (σ : sched) : res ptr :=
  if (s_issued σ <? ver)%nat then Ok None
  else if ((block_size_ cfg =? 0) || (num_workers_ cfg =? 0))%nat then Err DivZero
  else
    let block_id := (ver / block_size_ cfg)%nat in
    let block_worker := (block_id mod num_workers_ cfg)%nat in
    let block_pos := (block_id / num_workers_ cfg)%nat in
    match s_estimated σ !! block_worker with
    | None => Err BadPtr
    | Some n =>
        if (n <=? block_pos)%nat then Err Blocked
        else match s_ctxs σ !! ver with Some c => Ok (root c) | None => Err BadPtr end
    end.

Definition last_version (σ : sched) : nat := s_issued σ.
End exec.

(** The operations a step of the client thread issues. *)
Definition issued_by (l : label) : list (operation * Z) :=
  match l with LInit o elem => [(o, elem)] | _ => [] end.

(** [history cfg σ0 ops σ]: some interleaving of the threads leads from [σ0] to
    [σ] while the client issues [ops], in this order. *)
Inductive history (cfg : config) (σ0 : sched) : list (operation * Z) -> sched -> Prop :=
  | history_init : history cfg σ0 [] σ0
  | history_step ops l σ σ' :
      history cfg σ0 ops σ -> exec cfg l σ = Next σ' ->
      history cfg σ0 (ops ++ issued_by l) σ'.
