(* ===== verification/SchedulerTree.v ===== *)
(** * What a pointer of the scheduler will become

    While tasks are in flight the heap holds incomplete nodes: the node
    [t_cur] of a running task whose children the task has yet to set.  The
    relation [dn] says which tree a pointer denotes once every task it depends
    on has finished.  Its depth index ties an open node to the number of steps
    its task has made.  The file proves that the work of one task
    ([update_], [concat_], [execute_one_step_], [execute_to_complete_]) keeps
    all denotations. *)

From S2P Require Import Prelude TreapTree TreapNode TreapUpdate TreapQuery Scheduler.

(** ** Open nodes *)

Definition open_of (c : context) : option loc :=
  match st c with ST_RUNNING => t_cur c | ST_DONE => None end.

(** [a] is the current node of the running task [u]. *)
Definition is_open (cs : list context) (u : nat) (c : context) (a : loc) : Prop :=
  cs !! u = Some c /\ open_of c = Some a.

Definition open_locs (cs : list context) : list loc := omap open_of cs.

(** The part of the heap without the open nodes. *)
Definition closed_part (h : heap) (cs : list context) : heap :=
  filter (fun an => an.1 ∉ open_locs cs) h.

Lemma open_locs_spec cs a : a ∈ open_locs cs <-> exists u c, is_open cs u c a.
Proof.
  unfold open_locs, is_open. rewrite list_elem_of_omap. split.
  - intros (c & Hc & Ho). apply list_elem_of_lookup in Hc as [u Hu]. eauto.
  - intros (u & c & Hu & Ho). exists c. split; [|done]. by eapply list_elem_of_lookup_2.
Qed.

Lemma closed_part_Some h cs a n :
  closed_part h cs !! a = Some n <-> h !! a = Some n /\ (forall u c, ~ is_open cs u c a).
Proof.
  unfold closed_part. rewrite map_lookup_filter_Some. simpl. rewrite open_locs_spec.
  naive_solver.
Qed.

Lemma closed_part_sub h cs : closed_part h cs ⊆ h.
Proof. apply map_filter_subseteq. Qed.

(** Decide whether a location is open. *)
Lemma open_dec cs a : (exists u c, is_open cs u c a) \/ (forall u c, ~ is_open cs u c a).
Proof.
  destruct (decide (a ∈ open_locs cs)) as [H|H]; rewrite open_locs_spec in H; [by left|].
  right. naive_solver.
Qed.

(** ** Denotation *)

(** The tree operation a task performs. *)
Definition t_op (c : context) (t : tree) : tree :=
  match op c with
  | OP_INSERT => t_insert (c_ver c) t (c_pry c) (c_key c)
  | _ => t_delete (c_ver c) t (c_pry c) (c_key c)
  end.

Lemma t_op_down c v p k x l r :
  c_pry c < p ->
  t_op c (Node v p k x l r) =
    if c_key c <? k then Node (c_ver c) p k x (t_op c l) r
    else Node (c_ver c) p k x l (t_op c r).
Proof.
  intros H. unfold t_op. simpl. destruct (Z.ltb_spec (c_pry c) p); [|lia].
  by destruct (op c), (c_key c <? k).
Qed.

Lemma t_op_here c v p k x l r :
  p <= c_pry c ->
  t_op c (Node v p k x l r) =
    match op c with
    | OP_INSERT =>
        if k =? c_key c then Node (c_ver c) p k (wrap64 (x + 1)) l r
        else t_deploy (c_ver c) (Node v p k x l r) (c_pry c) (c_key c)
    | _ =>
        if k =? c_key c then
          if x =? 1 then t_concat (c_ver c) l r
          else Node (c_ver c) p k (wrap64 (x - 1)) l r
        else Node v p k x l r
    end.
Proof.
  intros H. unfold t_op. simpl. destruct (Z.ltb_spec (c_pry c) p); [lia|]. by destruct (op c).
Qed.

Section denotation.
Context (fuel : nat).

(** A tree of versions before [u] on which the node operations have enough
    fuel. *)
Definition good (u : nat) (t : tree) : Prop :=
  vers_le (u - 1) t /\ vers_mono t /\ (size t < fuel)%nat.

(** The open node [n] of a task that works on the old tree [tp] will become
    the tree [t]. *)
Definition past_result (n : node_t) (c : context) (tp t : tree) : Prop :=
  good (c_ver c) tp /\
  match tp with
  | Leaf => False
  | Node v p key x l r =>
      p = n_pry n /\ key = n_key n /\
      match fn c with
      | FN_SEARCH =>
          x = n_val n /\
          match dir c with
          | DIR_LEFT => t = Node (n_ver n) p key x (t_op c l) r
          | _ => t = Node (n_ver n) p key x l (t_op c r)
          end
      | FN_SETREF => t = Node (n_ver n) p key (n_val n) l r
      | FN_CONCAT => False
      end
  end.

(** The same for a task that joins the two complete trees at [t_l], [t_r]. *)
Definition concat_result (g : heap) (n : node_t) (c : context) (t : tree) : Prop :=
  fn c = FN_CONCAT /\
  (exists a m, t_past c = Some a /\ g !! a = Some m /\ (n_ver m <= c_ver c - 1)%nat) /\
  exists tl tr, rep g (t_l c) tl /\ rep g (t_r c) tr /\
    good (c_ver c) tl /\ good (c_ver c) tr /\ (size tl + size tr < fuel)%nat /\
    match dir c with
    | DIR_LEFT =>
        match tr with
        | Leaf => False
        | Node v p key x l r =>
            p = n_pry n /\ key = n_key n /\ x = n_val n /\
            t = Node (n_ver n) p key x (t_concat (c_ver c) tl l) r
        end
    | _ =>
        match tl with
        | Leaf => False
        | Node v p key x l r =>
            p = n_pry n /\ key = n_key n /\ x = n_val n /\
            t = Node (n_ver n) p key x l (t_concat (c_ver c) r tr)
        end
    end.

Section state.
Context (h : heap) (cs : list context) (k : nat -> nat).

(** [dn d p t]: [p], reached at depth [d] of a version, denotes [t].
    [k u] is the number of steps task [u] has made. *)
Inductive dn : nat -> ptr -> tree -> Prop :=
  | dn_complete d p t :
      rep (closed_part h cs) p t -> dn d p t
  | dn_closed d a n l r :
      closed_part h cs !! a = Some n ->
      dn (S d) (n_lch n) l -> dn (S d) (n_rch n) r ->
      dn d (Some a) (Node (n_ver n) (n_pry n) (n_key n) (n_val n) l r)
  | dn_past a n u c tp t :
      h !! a = Some n -> is_open cs u c a -> n_ver n = u -> c_ver c = u ->
      n_lch n = None -> n_rch n = None ->
      dn (k u) (t_past c) tp -> past_result n c tp t ->
      dn (k u) (Some a) t
  | dn_concat a n u c t :
      h !! a = Some n -> is_open cs u c a -> n_ver n = u -> c_ver c = u ->
      n_lch n = None -> n_rch n = None ->
      concat_result (closed_part h cs) n c t ->
      dn (k u) (Some a) t.
End state.

Lemma past_result_root n c tp t :
  past_result n c tp t ->
  exists l r, t = Node (n_ver n) (n_pry n) (n_key n) (n_val n) l r.
Proof.
  intros [_ H]. destruct tp as [|v p key x l r]; [done|]. destruct H as (-> & -> & H).
  destruct (fn c); [|eauto|done]. destruct H as [-> H]. destruct (dir c); eauto.
Qed.

Lemma concat_result_root g n c t :
  concat_result g n c t ->
  exists l r, t = Node (n_ver n) (n_pry n) (n_key n) (n_val n) l r.
Proof.
  intros (_ & _ & tl & tr & _ & _ & _ & _ & _ & H).
  destruct (dir c), tl, tr; naive_solver eauto.
Qed.

(** A denoted non-empty tree has its root in the heap, with its data. *)
Lemma dn_root h cs k d p t :
  dn h cs k d p t ->
  match t with
  | Leaf => p = None
  | Node v pr key x _ _ =>
      exists a n, p = Some a /\ h !! a = Some n /\ node_data n = (v, pr, key, x)
  end.
Proof.
  intros H. destruct H as [d p t Hr|d a n l r Hn _ _|a n u c tp t Hn _ _ _ _ _ _ Hp|a n u c t Hn _ _ _ _ _ Hp].
  - destruct t; [done|]. destruct Hr as (a & n & -> & Hn & Hd & _).
    apply closed_part_Some in Hn as [Hn _]. naive_solver.
  - apply closed_part_Some in Hn as [Hn _]. naive_solver.
  - destruct (past_result_root _ _ _ _ Hp) as (? & ? & ->). naive_solver.
  - destruct (concat_result_root _ _ _ _ Hp) as (? & ? & ->). naive_solver.
Qed.

(** Reading the children of a closed node. *)
Lemma dn_children h cs k d a n t :
  dn h cs k d (Some a) t -> closed_part h cs !! a = Some n ->
  exists l r, t = Node (n_ver n) (n_pry n) (n_key n) (n_val n) l r /\
    dn h cs k (S d) (n_lch n) l /\ dn h cs k (S d) (n_rch n) r.
Proof.
  intros H Hc. inversion H as [d' p t' Hr|d' a' m l r Hm Hl Hr|a' m u c tp t' Hm Ho|a' m u c t' Hm Ho];
    subst; clear H.
  - destruct t as [|v pr key x l r]; [done|].
    destruct Hr as (a' & m & [= <-] & Hm & Hd & Hl & Hr).
    assert (m = n) as -> by congruence. unfold node_data in Hd. simplify_eq.
    exists l, r. split_and!; [done|by apply dn_complete|by apply dn_complete].
  - assert (m = n) as -> by congruence. eauto.
  - apply closed_part_Some in Hc as [_ Hc]. by destruct (Hc _ _ Ho).
  - apply closed_part_Some in Hc as [_ Hc]. by destruct (Hc _ _ Ho).
Qed.

(** If every task up to [w] has finished, what has versions up to [w] is
    complete. *)
Lemma dn_rep h cs k d p t w :
  dn h cs k d p t -> vers_le w t ->
  (forall u c, cs !! u = Some c -> (u <= w)%nat -> st c = ST_DONE) ->
  rep (closed_part h cs) p t.
Proof.
  intros H Hv Hdone.
  induction H as [d p t Hr|d a n l r Hn _ IHl _ IHr
    |a n u c tp t Hn [Hu Ho] Hver _ _ _ _ _ Hp|a n u c t Hn [Hu Ho] Hver _ _ _ Hp].
  - done.
  - destruct Hv as (_ & Hvl & Hvr). exists a, n. split_and!; auto.
  - destruct (past_result_root _ _ _ _ Hp) as (? & ? & ->).
    destruct Hv as [Hv _]. unfold open_of in Ho.
    rewrite (Hdone u c Hu) in Ho; [done|lia].
  - destruct (concat_result_root _ _ _ _ Hp) as (? & ? & ->).
    destruct Hv as [Hv _]. unfold open_of in Ho.
    rewrite (Hdone u c Hu) in Ho; [done|lia].
Qed.

(** An open node is seen at the depth of its task, and only as such. *)
Lemma dn_open_inv h cs k d a u c t :
  dn h cs k d (Some a) t -> is_open cs u c a ->
  exists n u' c', h !! a = Some n /\ is_open cs u' c' a /\ n_ver n = u' /\ c_ver c' = u' /\
    n_lch n = None /\ n_rch n = None /\ d = k u' /\
    ((exists tp, dn h cs k (k u') (t_past c') tp /\ past_result n c' tp t) \/
     concat_result (closed_part h cs) n c' t).
Proof.
  intros H Ho. inversion H as [d' p t' Hr|d' a' m l r Hm _ _|a' m u' c' tp t' Hm Ho'|a' m u' c' t' Hm Ho'];
    subst; clear H.
  - destruct t as [|v pr key x l r]; [done|].
    destruct Hr as (a' & m & [= <-] & Hm & _). apply closed_part_Some in Hm as [_ Hm].
    by destruct (Hm _ _ Ho).
  - apply closed_part_Some in Hm as [_ Hm]. by destruct (Hm _ _ Ho).
  - eauto 20.
  - eauto 20.
Qed.

Lemma good_left u v p key x l r : good u (Node v p key x l r) -> good u l.
Proof. unfold good. simpl. intuition lia. Qed.

Lemma good_right u v p key x l r : good u (Node v p key x l r) -> good u r.
Proof. unfold good. simpl. intuition lia. Qed.

Lemma past_result_det n c tp t t' :
  past_result n c tp t -> past_result n c tp t' -> t = t'.
Proof.
  intros [_ H] [_ H']. destruct tp as [|v p key x l r]; [done|].
  destruct H as (_ & _ & H), H' as (_ & _ & H').
  destruct (fn c); [destruct (dir c)| |]; naive_solver.
Qed.

Lemma concat_result_det g n c t t' :
  concat_result g n c t -> concat_result g n c t' -> t = t'.
Proof.
  intros (_ & _ & tl & tr & Hl & Hr & _ & _ & _ & H)
    (_ & _ & tl' & tr' & Hl' & Hr' & _ & _ & _ & H').
  assert (tl' = tl) as -> by (by eapply rep_det). assert (tr' = tr) as -> by (by eapply rep_det).
  destruct (dir c), tl, tr; naive_solver.
Qed.

Lemma past_concat_excl g n c tp t t' :
  past_result n c tp t -> concat_result g n c t' -> False.
Proof.
  intros [_ H] [Hfn _]. rewrite Hfn in H. destruct tp; [done|]. by destruct H as (_ & _ & H).
Qed.

(** A pointer denotes one tree. *)
Lemma dn_det h cs k d p t t' : dn h cs k d p t -> dn h cs k d p t' -> t = t'.
Proof.
  intros H. revert t'.
  induction H as [d p t Hr|d a n l r Hn _ IHl _ IHr
    |a n u c tp t Hn Ho Hv _ _ _ _ IH Hp|a n u c t Hn Ho Hv _ _ _ Hp]; intros t' H'.
  - revert d p Hr t' H'. induction t as [|v pr key x l IHl r IHr]; intros d p Hr t' H'.
    + simpl in Hr. subst p. apply dn_root in H'. destruct t'; [done|]. naive_solver.
    + destruct Hr as (a & n & -> & Hn & Hd & Hl & Hr). unfold node_data in Hd. simplify_eq.
      destruct (dn_children _ _ _ _ _ _ _ H' Hn) as (l' & r' & -> & Hl' & Hr').
      f_equal; eauto.
  - destruct (dn_children _ _ _ _ _ _ _ H' Hn) as (l' & r' & -> & Hl' & Hr').
    f_equal; eauto.
  - destruct (dn_open_inv _ _ _ _ _ _ _ _ H' Ho) as
      (n' & u' & c' & Hn' & Ho' & Hv' & _ & _ & _ & _ & Hres).
    assert (n' = n) as -> by congruence. assert (u' = u) as -> by congruence.
    assert (c' = c) as -> by (destruct Ho, Ho'; congruence).
    destruct Hres as [(tp' & Hdn' & Hp')|Hc'].
    + apply IH in Hdn' as <-. by eapply past_result_det.
    + destruct (past_concat_excl _ _ _ _ _ _ Hp Hc').
  - destruct (dn_open_inv _ _ _ _ _ _ _ _ H' Ho) as
      (n' & u' & c' & Hn' & Ho' & Hv' & _ & _ & _ & _ & Hres).
    assert (n' = n) as -> by congruence. assert (u' = u) as -> by congruence.
    assert (c' = c) as -> by (destruct Ho, Ho'; congruence).
    destruct Hres as [(tp' & Hdn' & Hp')|Hc'].
    + destruct (past_concat_excl _ _ _ _ _ _ Hp' Hp).
    + by eapply concat_result_det.
Qed.

(** ** The work of one task

    [g] is the closed part of the heap before the step; the step may already
    have written into the node [lo] of its own task. *)

(** What a step keeps of its context. *)
Definition ctx_frame (c c' : context) : Prop :=
  op c' = op c /\ c_ver c' = c_ver c /\ c_pry c' = c_pry c /\ c_key c' = c_key c /\
  root c' = root c /\
  match st c' with
  | ST_RUNNING => stage c' = stage c
  | ST_DONE => stage c' = STAGE_DONE
  end.

(** The states the step of task [u] may end in, after it returned the pointer
    [p'] and the context [c'] in the heap [h1]. *)
Record fin (u d : nat) (lo : option loc) (g' h1 : heap) (p' : ptr) (c' : context)
    (h' : heap) (cs' : list context) (k' : nat -> nat) : Prop := {
  fin_heap : forall a n, h1 !! a = Some n -> Some a <> lo -> h' !! a = Some n;
  fin_closed : g' ⊆ closed_part h' cs';
  fin_ctx : exists rt, cs' !! u = Some (set_t_cur p' (set_root rt c'));
  fin_k : k' u = d;
}.

(** The pointer returned denotes [t'] wherever [p] still denotes [t]. *)
Definition work_post (g h0 : heap) (u d : nat) (lo : option loc) (p : ptr) (t t' : tree)
    (c : context) (r : ptr * context) (h1 : heap) : Prop :=
  exists g', ext g h0 g' h1 /\ ctx_frame c r.2 /\
    (st r.2 = ST_RUNNING ->
       g' = g /\ exists b n, r.1 = Some b /\ h0 !! b = None /\ h1 !! b = Some n /\ n_ver n = u) /\
    forall h' cs' k',
      fin u d lo g' h1 r.1 r.2 h' cs' k' -> dn h' cs' k' d p t -> dn h' cs' k' d r.1 t'.

Lemma ctx_frame_running c c' :
  st c = ST_RUNNING -> st c' = ST_RUNNING ->
  op c' = op c -> c_ver c' = c_ver c -> c_pry c' = c_pry c -> c_key c' = c_key c ->
  root c' = root c -> stage c' = stage c -> ctx_frame c c'.
Proof. intros Hst Hst' *. unfold ctx_frame. rewrite Hst'. auto 10. Qed.

Lemma ext_alloc g h0 b n : g ⊆ h0 -> h0 !! b = None -> ext g h0 g (<[b := n]> h0).
Proof.
  intros Hg Hb. pose proof (insert_subseteq h0 b n Hb). split_and!; [done|by etrans|done|].
  intros a [m Hm] Hn. congruence.
Qed.

(** A finished task: the result is a complete tree. *)
Lemma work_done g h0 u d lo p t t' c c' p' h1 :
  ctx_frame c (done_ c') -> returns g h0 t' p' h1 ->
  work_post g h0 u d lo p t t' c (p', done_ c') h1.
Proof.
  intros Hf (g' & Hext & Hrep). exists g'. split_and!; [done|done|done|].
  intros h' cs' k' [_ Hc _ _] _. apply dn_complete. by eapply rep_weaken.
Qed.

(** A running task: a fresh open node. *)
Lemma work_open g h0 u d lo p t t' c c' b n :
  g ⊆ h0 -> h0 !! b = None -> (forall a, lo = Some a -> is_Some (h0 !! a)) ->
  st c = ST_RUNNING -> st c' = ST_RUNNING ->
  op c' = op c -> c_ver c' = c_ver c -> c_pry c' = c_pry c -> c_key c' = c_key c ->
  root c' = root c -> stage c' = stage c -> n_ver n = u -> c_ver c' = u ->
  n_lch n = None -> n_rch n = None ->
  (forall h' cs' k', g ⊆ closed_part h' cs' -> dn h' cs' k' d p t ->
     (t_past c' = p /\ past_result n c' t t') \/ concat_result (closed_part h' cs') n c' t') ->
  work_post g h0 u d lo p t t' c (Some b, c') (<[b := n]> h0).
Proof.
  intros Hg Hb Hlo Hst0 Hst ? ? ? ? ? ? Hv Hcv Hl Hr Hres. exists g.
  split_and!; [by apply ext_alloc|by apply ctx_frame_running| |].
  { intros _. split; [done|]. exists b, n. by rewrite lookup_insert_eq. }
  intros h' cs' k' [Hh Hc [rt Hcs] Hk] Hdn. simpl in *.
  assert (h' !! b = Some n) as Hb'.
  { apply Hh; [by rewrite lookup_insert_eq|]. intros E. destruct (Hlo b (eq_sym E)). congruence. }
  assert (is_open cs' u (set_t_cur (Some b) (set_root rt c')) b) as Ho.
  { split; [done|]. unfold open_of. simpl. by rewrite Hst. }
  destruct (Hres h' cs' k' Hc Hdn) as [[Hp Hpast]|Hcat]; rewrite <- Hk in *.
  - rewrite <- Hp in Hdn. by eapply dn_past.
  - by eapply dn_concat.
Qed.

Lemma concat_spec g h0 u d lo c tl tr p t :
  g ⊆ h0 -> (forall a, lo = Some a -> is_Some (h0 !! a)) ->
  rep g (t_l c) tl -> rep g (t_r c) tr -> fn c = FN_CONCAT -> st c = ST_RUNNING ->
  c_ver c = u -> good u tl -> good u tr -> (size tl + size tr < fuel)%nat ->
  (exists a m, t_past c = Some a /\ g !! a = Some m /\ (n_ver m <= c_ver c - 1)%nat) ->
  wp (concat_ c) (work_post g h0 u d lo p t (t_concat u tl tr) c) h0.
Proof.
  intros Hg Hlo Hl Hr Hfn Hst Hv Gl Gr Hsz (x & m & Hx & Hm & Hmv). unfold concat_.
  assert (forall h' cs', g ⊆ closed_part h' cs' ->
    rep (closed_part h' cs') (t_l c) tl /\ rep (closed_part h' cs') (t_r c) tr /\
    closed_part h' cs' !! x = Some m) as Hmono.
  { intros h' cs' Hc. split_and!;
      [by eapply rep_weaken|by eapply rep_weaken|by eapply lookup_weaken]. }
  destruct tl as [|vl pl kl xl ll rl].
  { simpl in Hl. rewrite Hl, t_concat_leaf_l. wp_step.
    apply work_done; [done|]. by apply returns_old. }
  destruct tr as [|vr pr kr xr lr rr].
  { simpl in Hr. rewrite Hr. destruct Hl as (a & n & El & Hn & Hd & Hll).
    rewrite El, t_concat_leaf_r. wp_step. apply work_done; [done|].
    apply returns_old; [done|]. exists a, n. done. }
  assert (Hl' := Hl). destruct Hl' as (a & n & El & Hn & Hd & _).
  assert (Hr' := Hr). destruct Hr' as (b & n' & Er & Hn' & Hd' & _).
  rewrite El, Er, t_concat_node. unfold node_data in *. simplify_eq.
  assert (h0 !! a = Some n) by (by eapply lookup_weaken).
  assert (h0 !! b = Some n') by (by eapply lookup_weaken).
  do 4 wp_step. destruct (n_pry n' <? n_pry n); wp_step;
    (eapply wp_make_weak_copy_ver; [done|]); intros e He; wp_step;
    (apply work_open; try done); intros h' cs' k' Hc _; right;
    destruct (Hmono _ _ Hc) as (H1 & H2 & H3).
  - split; [done|]. split; [exists x, m; done|].
    exists (Node (n_ver n) (n_pry n) (n_key n) (n_val n) ll rl),
      (Node (n_ver n') (n_pry n') (n_key n') (n_val n') lr rr). split_and!; done.
  - split; [done|]. split; [exists x, m; done|].
    exists (Node (n_ver n) (n_pry n) (n_key n) (n_val n) ll rl),
      (Node (n_ver n') (n_pry n') (n_key n') (n_val n') lr rr). split_and!; done.
Qed.

Lemma update_spec h cs k h0 u d lo c t committed :
  let g := closed_part h cs in
  g ⊆ h0 -> (forall a, lo = Some a -> is_Some (h0 !! a)) ->
  (forall a n, h !! a = Some n -> exists n', h0 !! a = Some n' /\ node_data n' = node_data n) ->
  (forall v c, cs !! v = Some c -> (v <= committed)%nat -> st c = ST_DONE) ->
  dn h cs k d (t_past c) t -> good u t ->
  st c = ST_RUNNING -> fn c = FN_SEARCH -> c_ver c = u -> op c <> OP_NONE ->
  wpb (committed < u - 1)%nat (update_ fuel committed c) (work_post g h0 u d lo (t_past c) t (t_op c t) c) h0.
Proof.
  intros g Hg Hlo Hdata Hcommit Hdn Hgood Hst Hfn Hv Hop. unfold update_.
  pose proof (dn_root _ _ _ _ _ _ Hdn) as Hroot.
  destruct t as [|v pr key x l r].
  { (* empty subtree *)
    rewrite Hroot. destruct (op c) eqn:Eop; [done| |]; apply wpb_wp; unfold t_op; rewrite Eop; simpl.
    - wp_step. apply wp_new. intros b Hb. wp_step. apply work_done; [done|].
      rewrite Hv. set (n' := mk_node _ _ _ _ _ _ _). rewrite <- (insert_insert_eq h0 b n' n').
      eapply (returns_node g h0 g _ b n' n'); [done|done| |done|done].
      apply ext_refl. etrans; [exact Hg|by apply insert_subseteq].
    - wp_step. apply work_done; [done|]. by apply returns_old. }
  destruct Hroot as (a & n0 & Ea & Hn0 & Hd0). destruct (Hdata a n0 Hn0) as (n & Hn & Hd).
  rewrite Hd0 in Hd. unfold node_data in Hd. simplify_eq. rewrite Ea.
  apply wpb_bind, wpb_wp. wp_step.
  (* a node above the priority of the task is copied *)
  destruct (Z.ltb_spec (c_pry c) (n_pry n)) as [Hlt|Hge].
  { apply wpb_wp. wp_step. eapply wp_make_weak_copy_ver; [done|]. intros b Hb. wp_step.
    apply work_open; try done.
    intros h' cs' k' Hc Hdn'. left. split; [done|]. split; [done|].
    simpl. rewrite Hfn, (t_op_down _ _ _ _ _ _ _ Hlt).
    split_and!; [done|done|done|]. by destruct (c_key c <? n_key n). }
  (* the subtree is complete once its version is committed *)
  assert (Hcomplete : (n_ver n <= committed)%nat ->
    rep g (Some a) (Node (n_ver n) (n_pry n) (n_key n) (n_val n) l r)).
  { intros Hle. rewrite <- Ea. eapply (dn_rep _ _ _ _ _ _ (n_ver n)); [exact Hdn| |].
    - destruct Hgood as (_ & (? & ? & _) & _). simpl. auto.
    - intros v c' Hc' Hv'. eapply Hcommit; [done|lia]. }
  assert (Hblocked : (n_ver n <=? committed)%nat = false -> (committed < c_ver c - 1)%nat).
  { intros Hlt%Nat.leb_gt. destruct Hgood as ((? & _) & _). lia. }
  assert (Hval : forall y,
    t_op c (Node (n_ver n) (n_pry n) (n_key n) (n_val n) l r) =
      Node (c_ver c) (n_pry n) (n_key n) (y (n_val n)) l r ->
    wpb (committed < c_ver c - 1)%nat (t_new ← make_weak_copy_ver (Some a) (c_ver c);
         store t_new (fun m => set_val (y (n_val m)) m);;
         mret (t_new, set_fn FN_SETREF c))
      (work_post g h0 (c_ver c) d lo (Some a) (Node (n_ver n) (n_pry n) (n_key n) (n_val n) l r)
        (t_op c (Node (n_ver n) (n_pry n) (n_key n) (n_val n) l r)) c) h0).
  { intros y ->. apply wpb_wp. wp_step. eapply wp_make_weak_copy_ver; [done|]. intros b Hb.
    wp_step. eapply wp_store; [apply lookup_insert_eq|]. rewrite insert_insert_eq. wp_step.
    apply work_open; done || (intros h' cs' k' Hc Hdn'; left; done). }
  rewrite (t_op_here _ _ _ _ _ _ _ Hge) in *.
  destruct (op c) eqn:Eop; [done| |]; destruct (Z.eqb_spec (n_key n) (c_key c)) as [Ek|Ek].
  - by apply (Hval (fun x => wrap64 (x + 1))).
  - (* deploy *)
    apply wpb_bind, wpb_await; [exact Hblocked|]. intros Hle%Nat.leb_le. apply wpb_wp. wp_step.
    eapply wp_mono; [|eapply (process_deploy_spec _ _ _ _ _ _ g); [by apply Hcomplete|done|]].
    2: apply Hgood.
    intros p1 h1 Hret. wp_step. by apply work_done.
  - destruct (Z.eqb_spec (n_val n) 1) as [E1|E1].
    + apply wpb_bind, wpb_await; [exact Hblocked|]. intros Hle%Nat.leb_le. apply wpb_wp.
      destruct (Hcomplete Hle) as (a' & m & [= <-] & Hm & _ & Hl & Hr).
      assert (m = n) as -> by (eapply lookup_weaken in Hm; [|exact Hg]; congruence).
      assert (Gl := good_left _ _ _ _ _ _ _ Hgood). assert (Gr := good_right _ _ _ _ _ _ _ Hgood).
      eapply wp_mono; [|eapply (concat_spec g h0 (c_ver c) d lo _ l r (Some a)); try done].
      2: { destruct Hgood as (_ & _ & ?). simpl in *. lia. }
      2: { exists a, n. split_and!; [done|done|]. by destruct Hgood as ((? & _) & _). }
      intros [p1 c1] h1 (g' & He & Hf & Ho & Hfin). exists g'. done.
    + by apply (Hval (fun x => wrap64 (x - 1))).
  - apply wpb_wp. wp_step. (* deletion of an absent key *)
    exists g. split_and!; [by apply ext_refl|done|done|]. done.
Qed.

(** ** Preservation of all denotations *)

(** Every open node carries the version of its task. *)
Definition open_ok (h : heap) (cs : list context) : Prop :=
  forall u c a, is_open cs u c a -> exists n, h !! a = Some n /\ n_ver n = u.

Lemma open_unique h cs u c u' c' a :
  open_ok h cs -> is_open cs u c a -> is_open cs u' c' a -> u = u'.
Proof.
  intros Ho H1 H2. destruct (Ho _ _ _ H1) as (n & Hn & <-).
  destruct (Ho _ _ _ H2) as (n' & Hn' & <-). congruence.
Qed.

Lemma concat_result_mono g g' n c t x :
  heap_le g g' -> concat_result g n c t -> concat_result g' (set_aug x n) c t.
Proof.
  intros Hle (Hfn & (a & m & Ha & Hm & Hmv) & tl & tr & Hl & Hr & H). split; [done|]. split.
  - destruct (Hle a m Hm) as [y Hy]. exists a, (set_aug y m). done.
  - exists tl, tr. split; [by eapply rep_heap_le|]. split; [by eapply rep_heap_le|exact H].
Qed.

(** A step of task [u0] keeps every denotation if it does not touch the
    complete nodes and the open nodes of the other tasks, and keeps what its
    own open node denotes. *)
Lemma dn_preserve h cs k h' cs' k' u0 :
  heap_le (closed_part h cs) (closed_part h' cs') ->
  (forall a n u c, h !! a = Some n -> is_open cs u c a -> u <> u0 ->
     is_open cs' u c a /\ k' u = k u /\ exists x, h' !! a = Some (set_aug x n)) ->
  (forall a n c tp t, h !! a = Some n -> is_open cs u0 c a -> n_ver n = u0 -> c_ver c = u0 ->
     n_lch n = None -> n_rch n = None ->
     dn h cs k (k u0) (t_past c) tp -> dn h' cs' k' (k u0) (t_past c) tp ->
     past_result n c tp t -> dn h' cs' k' (k u0) (Some a) t) ->
  (forall a n c t, h !! a = Some n -> is_open cs u0 c a -> n_ver n = u0 -> c_ver c = u0 ->
     n_lch n = None -> n_rch n = None ->
     concat_result (closed_part h cs) n c t -> dn h' cs' k' (k u0) (Some a) t) ->
  forall d p t, dn h cs k d p t -> dn h' cs' k' d p t.
Proof.
  intros Hle Hother Hpast Hconcat d p t H.
  induction H as [d p t Hr|d a n l r Hn _ IHl _ IHr
    |a n u c tp t Hn Ho Hv Hcv Hl Hr Hold IH Hp|a n u c t Hn Ho Hv Hcv Hl Hr Hp].
  - apply dn_complete. by eapply rep_heap_le.
  - destruct (Hle a n Hn) as [x Hx].
    by apply (dn_closed h' cs' k' d a (set_aug x n) l r).
  - destruct (decide (u = u0)) as [->|Hne]; [by eapply Hpast|].
    destruct (Hother _ _ _ _ Hn Ho Hne) as (Ho' & Hk & x & Hx). rewrite <- Hk in *.
    by eapply (dn_past h' cs' k' a (set_aug x n)).
  - destruct (decide (u = u0)) as [->|Hne]; [by eapply Hconcat|].
    destruct (Hother _ _ _ _ Hn Ho Hne) as (Ho' & Hk & x & Hx). rewrite <- Hk.
    eapply (dn_concat h' cs' k' a (set_aug x n)); try done. by eapply concat_result_mono.
Qed.

(** What a step of task [u0] with context [c0] establishes. *)
Definition upd_k (k : nat -> nat) (u m : nat) : nat -> nat :=
  fun v => if decide (v = u) then m else k v.

Definition step_post (h : heap) (cs : list context) (k : nat -> nat) (u0 : nat) (c0 : context)
    (c' : context) (h' : heap) : Prop :=
  let cs' := <[u0 := c']> cs in
  let k' := upd_k k u0 (S (k u0)) in
  (forall d p t, dn h cs k d p t -> dn h' cs' k' d p t) /\
  open_ok h' cs' /\ ctx_frame c0 c' /\
  (st c' = ST_RUNNING -> exists b t, t_cur c' = Some b /\ dn h' cs' k' (S (k u0)) (Some b) t) /\
  (forall a n, h !! a = Some n -> exists n', h' !! a = Some n' /\ node_data n' = node_data n).

Section one_task.
Context (h : heap) (cs : list context) (k : nat -> nat).
Context (u0 : nat) (c0 : context) (l0 : loc) (n0 : node_t).
Context (Hc0 : cs !! u0 = Some c0) (Hst0 : st c0 = ST_RUNNING) (Hcur : t_cur c0 = Some l0).
Context (Hn0 : h !! l0 = Some n0) (Hopen : open_ok h cs).

Let g : heap := closed_part h cs.

Lemma own_open : is_open cs u0 c0 l0.
Proof. split; [done|]. unfold open_of. by rewrite Hst0. Qed.

Lemma own_open_inv c a : is_open cs u0 c a -> c = c0 /\ a = l0.
Proof. intros [H1 H2]. simplify_eq. unfold open_of in H2. rewrite Hst0 in H2. naive_solver. Qed.

Lemma own_not_closed : g !! l0 = None.
Proof.
  destruct (g !! l0) as [n|] eqn:E; [|done]. apply closed_part_Some in E as [_ H].
  by destruct (H _ _ own_open).
Qed.

Lemma closed_sub_store n1 : g ⊆ <[l0 := n1]> h.
Proof. apply insert_subseteq_r; [apply own_not_closed|apply closed_part_sub]. Qed.

(** The step has written its own node to [nf]; its new current node, if any,
    is fresh. *)
Lemma finish n1 nf g' h1 c' :
  ext g (<[l0 := n1]> h) g' h1 ->
  (st c' = ST_RUNNING -> g' = g /\ exists b n, t_cur c' = Some b /\
     <[l0 := n1]> h !! b = None /\ h1 !! b = Some n /\ n_ver n = u0) ->
  let h' := <[l0 := nf]> h1 in
  let cs' := <[u0 := c']> cs in
  g' ⊆ closed_part h' cs' /\ closed_part h' cs' !! l0 = Some nf /\ open_ok h' cs' /\
  (forall a n, h !! a = Some n -> a <> l0 -> h' !! a = Some n) /\
  (forall u c a, is_open cs u c a -> u <> u0 -> is_open cs' u c a).
Proof.
  intros Hext Hrun h' cs'. assert (Hext' := Hext). destruct Hext' as (E1 & E2 & E3 & E4).
  assert (forall a n, h !! a = Some n -> a <> l0 -> h' !! a = Some n) as Hkeep.
  { intros a n Ha Hne. unfold h'. rewrite lookup_insert_ne by done.
    eapply lookup_weaken; [|exact E3]. by rewrite lookup_insert_ne. }
  assert (g' !! l0 = None) as Hg'l0.
  { destruct (g' !! l0) eqn:E; [|done]. exfalso.
    specialize (E4 l0 (mk_is_Some _ _ E) own_not_closed). by rewrite lookup_insert_eq in E4. }
  assert (forall u c a, is_open cs' u c a ->
    (u = u0 /\ c = c' /\ <[l0 := n1]> h !! a = None /\ g' = g /\
       exists n, h1 !! a = Some n /\ n_ver n = u0) \/
    (u <> u0 /\ is_open cs u c a)) as Hcases.
  { intros u c a [Hu Ho]. destruct (decide (u = u0)) as [->|Hne].
    - left. unfold cs' in Hu. rewrite list_lookup_insert_eq in Hu by (by eapply lookup_lt_Some).
      simplify_eq. unfold open_of in Ho. destruct (st c) eqn:E; [|done].
      destruct (Hrun eq_refl) as (-> & b & n & Hb & Hf & Hn & Hv). simplify_eq. eauto 10.
    - right. split; [done|]. unfold cs' in Hu. rewrite list_lookup_insert_ne in Hu by done.
      by split. }
  split_and!.
  - apply map_subseteq_spec. intros a n Ha. apply closed_part_Some. split.
    + unfold h'. rewrite lookup_insert_ne by congruence. by eapply lookup_weaken.
    + intros u c Ho. destruct (Hcases _ _ _ Ho) as [(-> & -> & Hf & -> & _)|[Hne Ho']].
      * pose proof (lookup_weaken _ _ _ _ Ha (closed_sub_store n1)). congruence.
      * destruct (Hopen _ _ _ Ho') as (m & Hm & _). destruct (g !! a) as [m'|] eqn:Eg.
        { apply closed_part_Some in Eg as [_ Hno]. by destruct (Hno _ _ Ho'). }
        specialize (E4 a (mk_is_Some _ _ Ha) Eg). destruct (decide (l0 = a)) as [->|Hla].
        { by rewrite lookup_insert_eq in E4. }
        rewrite lookup_insert_ne in E4 by done. congruence.
  - apply closed_part_Some. split; [apply lookup_insert_eq|]. intros u c Ho.
    destruct (Hcases _ _ _ Ho) as [(-> & -> & Hf & _)|[Hne Ho']].
    + by rewrite lookup_insert_eq in Hf.
    + destruct Hne. by eapply open_unique, own_open.
  - intros u c a Ho. destruct (Hcases _ _ _ Ho) as [(-> & -> & Hf & _ & n & Hn & Hv)|[Hne Ho']].
    + exists n. split; [|done]. unfold h'. rewrite lookup_insert_ne; [done|].
      intros <-. by rewrite lookup_insert_eq in Hf.
    + destruct (Hopen _ _ _ Ho') as (m & Hm & Hv). exists m. split; [|done].
      apply Hkeep; [done|]. intros ->. destruct Hne. by eapply open_unique, own_open.
  - done.
  - intros u c a [Hu Ho] Hne. split; [|done]. unfold cs'. by rewrite list_lookup_insert_ne.
Qed.

(** From the two cases of the own node to the full postcondition. *)
Lemma step_post_intro n1 nf g' h1 c' :
  let h' := <[l0 := nf]> h1 in
  let cs' := <[u0 := c']> cs in
  let k' := upd_k k u0 (S (k u0)) in
  ext g (<[l0 := n1]> h) g' h1 ->
  (st c' = ST_RUNNING -> g' = g /\ exists b n, t_cur c' = Some b /\
     <[l0 := n1]> h !! b = None /\ h1 !! b = Some n /\ n_ver n = u0) ->
  node_data nf = node_data n0 ->
  ctx_frame c0 c' ->
  (g' ⊆ closed_part h' cs' -> closed_part h' cs' !! l0 = Some nf ->
   forall tp t, dn h cs k (k u0) (t_past c0) tp -> dn h' cs' k' (k u0) (t_past c0) tp ->
   past_result n0 c0 tp t -> dn h' cs' k' (k u0) (Some l0) t) ->
  (g' ⊆ closed_part h' cs' -> closed_part h' cs' !! l0 = Some nf ->
   forall t, concat_result g n0 c0 t -> dn h' cs' k' (k u0) (Some l0) t) ->
  ((forall d p t, dn h cs k d p t -> dn h' cs' k' d p t) -> g' ⊆ closed_part h' cs' ->
   st c' = ST_RUNNING -> exists t, dn h' cs' k' (S (k u0)) (t_cur c') t) ->
  step_post h cs k u0 c0 c' h'.
Proof.
  intros h' cs' k' Hext Hrun Hd Hframe Hpast Hconcat Hnew.
  destruct (finish n1 nf g' h1 c' Hext Hrun) as (Hsub & Hl0 & Hok & Hkeep & Hothers).
  assert (forall d p t, dn h cs k d p t -> dn h' cs' k' d p t) as Hpres.
  { apply (dn_preserve h cs k h' cs' k' u0).
    - apply heap_le_subseteq. etrans; [apply (ext_sub _ _ _ _ Hext)|exact Hsub].
    - intros a n u c Ha Ho Hne. split; [by apply Hothers|].
      unfold k', upd_k. destruct (decide (u = u0)); [done|]. split; [done|].
      exists (n_aug n). rewrite set_aug_id. apply Hkeep; [done|].
      intros ->. by eapply Hne, open_unique, own_open.
    - intros a n c tp t Ha Ho _ _ _ _ Hold Hdn Hp. destruct (own_open_inv _ _ Ho) as [-> ->].
      assert (n = n0) as -> by congruence. by eapply Hpast.
    - intros a n c t Ha Ho _ _ _ _ Hp. destruct (own_open_inv _ _ Ho) as [-> ->].
      assert (n = n0) as -> by congruence. by apply Hconcat. }
  split_and!; [done|done|done| |].
  - intros Hr. destruct (Hnew Hpres Hsub Hr) as [t Ht].
    destruct (Hrun Hr) as (_ & b & n & Hb & _). exists b, t. by rewrite <- Hb.
  - intros a n Ha. destruct (decide (a = l0)) as [->|Hne].
    + exists nf. unfold h'. rewrite lookup_insert_eq. split; [done|]. congruence.
    + exists n. split; [by apply Hkeep|done].
Qed.

Context (Hv0 : n_ver n0 = u0) (Hcv0 : c_ver c0 = u0) (Hop0 : op c0 <> OP_NONE).

(** The conditions under which the step is synchronised with the tasks
    before it: the old node it reads is closed. *)
Definition past_ready (tp t : tree) : Prop :=
  dn h cs k (k u0) (t_past c0) tp /\ past_result n0 c0 tp t /\
  forall a, t_past c0 = Some a -> exists n, g !! a = Some n.

Lemma past_ready_inv tp t :
  past_ready tp t ->
  exists a nx l r, t_past c0 = Some a /\ g !! a = Some nx /\ h !! a = Some nx /\
    tp = Node (n_ver nx) (n_pry nx) (n_key nx) (n_val nx) l r /\
    dn h cs k (S (k u0)) (n_lch nx) l /\ dn h cs k (S (k u0)) (n_rch nx) r /\
    n_pry nx = n_pry n0 /\ n_key nx = n_key n0 /\ good u0 l /\ good u0 r /\
    (fn c0 = FN_SEARCH /\ n_val nx = n_val n0 \/ fn c0 = FN_SETREF).
Proof.
  intros (Hdn & Hp & Hcl). assert (Hr := dn_root _ _ _ _ _ _ Hdn).
  destruct Hp as [Hg Hp]. destruct tp as [|v p key x l r]; [done|].
  destruct Hr as (a & n & Ea & Hn & _). destruct (Hcl a Ea) as [nx Hnx].
  assert (n = nx) as -> by (apply closed_part_Some in Hnx as [? _]; congruence).
  rewrite Ea in Hdn. destruct (dn_children _ _ _ _ _ _ _ Hdn Hnx) as (l' & r' & E & Hl & Hr).
  simplify_eq. destruct Hp as (Hpry & Hkey & Hp). rewrite Hcv0 in Hg.
  exists a, nx, l', r'. split_and!; try done.
  - by eapply good_left.
  - by eapply good_right.
  - destruct (fn c0); naive_solver.
Qed.

Lemma mk_fin (nf : node_t) (g' h1 : heap) (p : ptr) (c' : context) :
  g' ⊆ closed_part (<[l0 := nf]> h1) (<[u0 := set_t_cur p c']> cs) ->
  fin u0 (S (k u0)) (Some l0) g' h1 p c'
    (<[l0 := nf]> h1) (<[u0 := set_t_cur p c']> cs) (upd_k k u0 (S (k u0))).
Proof.
  intros Hsub. split; [|done| |].
  - intros a n Ha Hne. rewrite lookup_insert_ne; [done|congruence].
  - exists (root c'). rewrite list_lookup_insert_eq by (by eapply lookup_lt_Some).
    by destruct c'.
  - unfold upd_k. by destruct (decide (u0 = u0)).
Qed.

(** The node written last, with one child [p] returned by the work on the old
    subtree [q] and the other child [o] kept from the old node. *)
Lemma finish_search (q p : ptr) (tq tq' : tree) (h1 : heap) (c' c1 : context)
    (n1 nf : node_t) :
  dn h cs k (S (k u0)) q tq ->
  work_post g (<[l0 := n1]> h) u0 (S (k u0)) (Some l0) q tq tq' c1 (p, c') h1 ->
  (forall c', ctx_frame c1 c' -> ctx_frame c0 c') ->
  node_data nf = node_data n0 ->
  (forall (g' h' : heap) cs' k', g' = closed_part h' cs' -> g ⊆ g' ->
     (forall d l r, g' !! l0 = Some nf ->
        dn h' cs' k' (S d) (n_lch nf) l -> dn h' cs' k' (S d) (n_rch nf) r ->
        dn h' cs' k' d (Some l0) (Node (n_ver n0) (n_pry n0) (n_key n0) (n_val n0) l r)) ->
     g' !! l0 = Some nf ->
     (dn h' cs' k' (S (k u0)) q tq -> dn h' cs' k' (S (k u0)) p tq') ->
     (forall tp t, dn h cs k (k u0) (t_past c0) tp ->
        dn h' cs' k' (k u0) (t_past c0) tp ->
        past_result n0 c0 tp t -> dn h' cs' k' (k u0) (Some l0) t) /\
     (forall t, concat_result g n0 c0 t -> dn h' cs' k' (k u0) (Some l0) t)) ->
  step_post h cs k u0 c0 (set_t_cur p c') (<[l0 := nf]> h1).
Proof.
  intros Hq (g' & Hext & Hf & Hrun & Hfin) Hframe Hd Hclose. simpl in *.
  assert (forall h' cs' k' d l r, closed_part h' cs' !! l0 = Some nf ->
    dn h' cs' k' (S d) (n_lch nf) l -> dn h' cs' k' (S d) (n_rch nf) r ->
    dn h' cs' k' d (Some l0) (Node (n_ver n0) (n_pry n0) (n_key n0) (n_val n0) l r)) as Hnode.
  { intros h' cs' k' d l r Hl0 Hl Hr. injection Hd as <- <- <- <-. by apply dn_closed. }
  destruct (ext_sub _ _ _ _ Hext) as (Hgg' & _ & _).
  eapply (step_post_intro n1 nf g' h1); try done.
  - by apply Hframe.
  - intros Hsub Hl0. eapply Hclose; try done; [by etrans|by eauto|].
    intros Hdn. apply Hfin; [by apply mk_fin|done].
  - intros Hsub Hl0. eapply Hclose; try done; [by etrans|by eauto|].
    intros Hdn. apply Hfin; [by apply mk_fin|done].
  - intros Hpres Hsub _. exists tq'. apply Hfin; [by apply mk_fin|by apply Hpres].
Qed.

(** The shape of the result of a search step, on the two sides. *)
Lemma past_result_search nx l r t :
  past_result n0 c0 (Node (n_ver nx) (n_pry nx) (n_key nx) (n_val nx) l r) t ->
  fn c0 = FN_SEARCH ->
  t = match dir c0 with
      | DIR_LEFT => Node (n_ver n0) (n_pry n0) (n_key n0) (n_val n0) (t_op c0 l) r
      | _ => Node (n_ver n0) (n_pry n0) (n_key n0) (n_val n0) l (t_op c0 r)
      end.
Proof. intros [_ (-> & -> & H)] E. rewrite E in H. destruct H as [-> H]. by destruct (dir c0). Qed.

Lemma past_result_setref nx l r t :
  past_result n0 c0 (Node (n_ver nx) (n_pry nx) (n_key nx) (n_val nx) l r) t ->
  fn c0 = FN_SETREF ->
  t = Node (n_ver n0) (n_pry n0) (n_key n0) (n_val n0) l r.
Proof. intros [_ (-> & -> & H)] E. by rewrite E in H. Qed.

Lemma data_store n1 a n :
  node_data n1 = node_data n0 -> h !! a = Some n ->
  exists n', <[l0 := n1]> h !! a = Some n' /\ node_data n' = node_data n.
Proof.
  intros Hd Ha. destruct (decide (a = l0)) as [->|Hne].
  - exists n1. rewrite lookup_insert_eq. split; [done|]. congruence.
  - exists n. by rewrite lookup_insert_ne.
Qed.

(** The old subtrees are still denoted after the step. *)
Lemma ready_children a nx l r t tp' h' cs' k' :
  past_ready (Node (n_ver nx) (n_pry nx) (n_key nx) (n_val nx) l r) t ->
  t_past c0 = Some a -> g !! a = Some nx -> g ⊆ closed_part h' cs' ->
  dn h cs k (k u0) (t_past c0) tp' -> dn h' cs' k' (k u0) (t_past c0) tp' ->
  tp' = Node (n_ver nx) (n_pry nx) (n_key nx) (n_val nx) l r /\
  dn h' cs' k' (S (k u0)) (n_lch nx) l /\ dn h' cs' k' (S (k u0)) (n_rch nx) r.
Proof.
  intros Hready Ea Hga Hsub Hold Hnew.
  assert (tp' = Node (n_ver nx) (n_pry nx) (n_key nx) (n_val nx) l r) as ->.
  { eapply dn_det; [exact Hold|apply Hready]. }
  rewrite Ea in Hnew.
  destruct (dn_children _ _ _ _ _ _ _ Hnew (lookup_weaken _ _ _ _ Hga Hsub))
    as (l' & r' & E & Hl' & Hr'). by simplify_eq.
Qed.

Lemma own_store_kept g' h1 n1 : ext g (<[l0 := n1]> h) g' h1 -> h1 !! l0 = Some n1.
Proof.
  intros Hext. apply ext_sub in Hext as (_ & _ & Hs).
  eapply lookup_weaken; [|exact Hs]. apply lookup_insert_eq.
Qed.

(** The call of [update_] on the old subtree [q]. *)
Lemma update_call committed n1 q tq :
  fn c0 = FN_SEARCH -> node_data n1 = node_data n0 ->
  (forall v c, cs !! v = Some c -> (v <= committed)%nat -> st c = ST_DONE) ->
  dn h cs k (S (k u0)) q tq -> good u0 tq ->
  wpb (committed < u0 - 1)%nat (update_ fuel committed (set_t_past q c0))
    (fun r h1 => h1 !! l0 = Some n1 /\
       work_post g (<[l0 := n1]> h) u0 (S (k u0)) (Some l0) q tq (t_op c0 tq)
         (set_t_past q c0) r h1) (<[l0 := n1]> h).
Proof.
  intros Hfn Hd Hcommit Hq Hg.
  eapply wpb_mono; [|eapply (update_spec h cs k _ u0 (S (k u0)) (Some l0) _ tq)].
  2: apply closed_sub_store.
  2: { intros b [= ->]. rewrite lookup_insert_eq. eauto. }
  2: { intros b n Hb. by apply data_store. }
  2-8: done.
  intros r h1 Hpost. split; [|exact Hpost]. destruct Hpost as (g' & Hext & _).
  by eapply own_store_kept.
Qed.

Lemma search_step_spec committed tp t :
  past_ready tp t -> fn c0 = FN_SEARCH ->
  (forall v c, cs !! v = Some c -> (v <= committed)%nat -> st c = ST_DONE) ->
  wpb (committed < u0 - 1)%nat (execute_one_step_ fuel committed c0) (step_post h cs k u0 c0) h.
Proof.
  intros Hready Hfn Hcommit.
  destruct (past_ready_inv _ _ Hready) as
    (a & nx & l & r & Ea & Hga & Hha & -> & Hl & Hr & Hpry & Hkey & Gl & Gr & Hcase).
  unfold execute_one_step_. rewrite Hfn, Ea, Hcur.
  apply wpb_bind, wpb_wp. wp_step.
  destruct (dir c0) eqn:Hdir; apply wpb_bind, wpb_wp; wp_step; apply wpb_bind;
    (eapply wpb_mono; [|by apply update_call]); intros [p c'] h1 [Hl0 Hpost];
    apply wpb_wp; wp_step; wp_step; wp_step;
    (eapply finish_search; [|exact Hpost| | |]); try done;
    intros g'' h' cs' k' -> Hsub Hnode Hl0' Hdn; (split; [|by intros t' [E _]; congruence]);
    intros tp' t' Hold Hnew Hp;
    destruct (ready_children _ _ _ _ _ _ _ _ _ Hready Ea Hga Hsub Hold Hnew)
      as (-> & Hl' & Hr');
    rewrite (past_result_search _ _ _ _ Hp Hfn), Hdir; apply Hnode; auto.
Qed.

(** The task is done once its own node is written. *)
Lemma finish_done (g' h1 : heap) (n1 nf : node_t) (c' : context) :
  ext g (<[l0 := n1]> h) g' h1 -> ctx_frame c0 (done_ c') -> node_data nf = node_data n0 ->
  (forall h' cs' k', g' ⊆ closed_part h' cs' ->
     (forall d l r, dn h' cs' k' (S d) (n_lch nf) l -> dn h' cs' k' (S d) (n_rch nf) r ->
        dn h' cs' k' d (Some l0) (Node (n_ver n0) (n_pry n0) (n_key n0) (n_val n0) l r)) ->
     (forall tp t, dn h cs k (k u0) (t_past c0) tp ->
        dn h' cs' k' (k u0) (t_past c0) tp ->
        past_result n0 c0 tp t -> dn h' cs' k' (k u0) (Some l0) t) /\
     (forall t, concat_result g n0 c0 t -> dn h' cs' k' (k u0) (Some l0) t)) ->
  step_post h cs k u0 c0 (done_ c') (<[l0 := nf]> h1).
Proof.
  intros Hext Hf Hd Hclose.
  assert (forall h' cs' k' d l r, closed_part h' cs' !! l0 = Some nf ->
    dn h' cs' k' (S d) (n_lch nf) l -> dn h' cs' k' (S d) (n_rch nf) r ->
    dn h' cs' k' d (Some l0) (Node (n_ver n0) (n_pry n0) (n_key n0) (n_val n0) l r)) as Hnode.
  { intros h' cs' k' d l r Hl0 Hl Hr. injection Hd as <- <- <- <-. by apply dn_closed. }
  eapply (step_post_intro n1 nf g' h1); try done;
    intros Hsub Hl0; (eapply Hclose; [done|]); eauto.
Qed.

Lemma setref_finish tp t :
  past_ready tp t -> fn c0 = FN_SETREF -> forall a nx, t_past c0 = Some a -> h !! a = Some nx ->
  wp (store (Some l0) (set_lch (n_lch nx));; store (Some l0) (set_rch (n_rch nx));;
      mret (done_ c0)) (step_post h cs k u0 c0) h.
Proof.
  intros Hready Hfn a0 nx0 Ea0 Hnx0.
  destruct (past_ready_inv _ _ Hready) as
    (a & nx & l & r & Ea & Hga & Hha & -> & Hl & Hr & Hpry & Hkey & Gl & Gr & Hcase).
  assert (nx0 = nx) as -> by congruence.
  wp_step. wp_step. wp_step. eapply wp_store; [apply lookup_insert_eq|]. wp_step.
  eapply (finish_done g); [apply ext_refl, closed_sub_store|done|done|].
  intros h' cs' k' Hsub Hnode. split.
  - intros tp' t' Hold Hnew Hp.
    destruct (ready_children _ _ _ _ _ _ _ _ _ Hready Ea Hga Hsub Hold Hnew)
      as (-> & Hl' & Hr').
    rewrite (past_result_setref _ _ _ _ Hp Hfn). by apply Hnode.
  - intros t' [E _]. congruence.
Qed.

(** One descent step of a join, and the whole join. *)
Lemma concat_inv t :
  concat_result g n0 c0 t ->
  exists tl tr, rep g (t_l c0) tl /\ rep g (t_r c0) tr /\ good u0 tl /\ good u0 tr /\
    (size tl + size tr < fuel)%nat /\
    match dir c0 with
    | DIR_LEFT =>
        exists a n l r, t_r c0 = Some a /\ g !! a = Some n /\
          tr = Node (n_ver n) (n_pry n) (n_key n) (n_val n) l r /\
          rep g (n_lch n) l /\ rep g (n_rch n) r /\
          t = Node (n_ver n0) (n_pry n0) (n_key n0) (n_val n0) (t_concat u0 tl l) r
    | _ =>
        exists a n l r, t_l c0 = Some a /\ g !! a = Some n /\
          tl = Node (n_ver n) (n_pry n) (n_key n) (n_val n) l r /\
          rep g (n_lch n) l /\ rep g (n_rch n) r /\
          t = Node (n_ver n0) (n_pry n0) (n_key n0) (n_val n0) l (t_concat u0 r tr)
    end.
Proof.
  intros (Hfn & _ & tl & tr & Hl & Hr & Gl & Gr & Hsz & H). rewrite Hcv0 in *.
  exists tl, tr. split_and!; try done. destruct (dir c0).
  2: { destruct tr as [|v p key x l r]; [done|]. destruct H as (-> & -> & -> & ->).
       destruct Hr as (a & n & Ea & Hn & Hd & Hl' & Hr'). unfold node_data in Hd.
       exists a, n, l, r. split_and!; try done. congruence. }
  all: destruct tl as [|v p key x l r]; [done|]; destruct H as (-> & -> & -> & ->);
       destruct Hl as (a & n & Ea & Hn & Hd & Hl' & Hr'); unfold node_data in Hd;
       exists a, n, l, r; (split_and!; try done); congruence.
Qed.

Lemma concat_step_spec committed t :
  concat_result g n0 c0 t ->
  wp (execute_one_step_ fuel committed c0) (step_post h cs k u0 c0) h.
Proof.
  intros Hres. assert (Hres' := Hres). destruct Hres' as (Hfn & Hpast & _).
  destruct (concat_inv _ Hres) as (tl & tr & Hl & Hr & Gl & Gr & Hsz & H).
  unfold execute_one_step_. rewrite Hfn, Hcur.
  assert (dn h cs k (S (k u0)) None Leaf) as Hnull by by apply dn_complete.
  (* the call of [concat_] on two complete trees *)
  assert (forall n1 c1 tl tr,
    rep g (t_l c1) tl -> rep g (t_r c1) tr -> fn c1 = FN_CONCAT -> st c1 = ST_RUNNING ->
    c_ver c1 = u0 -> good u0 tl -> good u0 tr -> (size tl + size tr < fuel)%nat ->
    t_past c1 = t_past c0 ->
    wp (concat_ c1) (fun r h1 => h1 !! l0 = Some n1 /\
      work_post g (<[l0 := n1]> h) u0 (S (k u0)) (Some l0) None Leaf (t_concat u0 tl tr)
        c1 r h1) (<[l0 := n1]> h)) as Hcall.
  { intros n1 c1 tl' tr' H1 H2 H3 H4 H5 H6 H7 H8 H9.
    eapply wp_mono; [|eapply (concat_spec g _ u0 (S (k u0)) (Some l0) c1 tl' tr' None Leaf)];
      try done.
    - intros r h1 Hpost. split; [|exact Hpost]. destruct Hpost as (g' & Hext & _).
      by eapply own_store_kept.
    - apply closed_sub_store.
    - intros b [= ->]. rewrite lookup_insert_eq. eauto.
    - rewrite H9, H5. by rewrite Hcv0 in Hpast. }
  destruct (dir c0) eqn:Hdir; destruct H as (a & n & l & r & Ea & Hga & -> & Hgl & Hgr & ->);
    assert (h !! a = Some n) as Hha by (by apply closed_part_Some in Hga as [? _]);
    rewrite Ea; wp_step; wp_step; wp_step; wp_step; wp_step;
    (eapply wp_mono; [|apply (Hcall _ (set_t_l (n_rch n) c0) r tr) ||
                        apply (Hcall _ (set_t_r (n_lch n) c0) tl l)]); try done;
    try (by eapply good_left); try (by eapply good_right); try (simpl in Hsz; lia);
    intros [p c'] h1 [Hl0 Hpost]; wp_step; wp_step; wp_step;
    (eapply finish_search; [|exact Hpost| | |]); try done;
    intros g'' h' cs' k' -> Hsub Hnode Hl0' Hdn;
    (split; [intros tp' t' _ _ Hp; destruct (past_concat_excl _ _ _ _ _ _ Hp Hres)|]);
    intros t' Ht'; rewrite <- (concat_result_det _ _ _ _ _ Hres Ht'); apply Hnode; try done;
    (apply Hdn; by apply dn_complete) || (apply dn_complete; by eapply rep_weaken).
Qed.

(** [execute_one_step_], whatever the task is doing. *)
Definition task_ready : Prop :=
  (exists tp t, past_ready tp t) \/ (exists t, concat_result g n0 c0 t).

Lemma one_step_spec committed :
  task_ready ->
  (forall v c, cs !! v = Some c -> (v <= committed)%nat -> st c = ST_DONE) ->
  wpb (committed < u0 - 1)%nat (execute_one_step_ fuel committed c0) (step_post h cs k u0 c0) h.
Proof.
  intros [(tp & t & Hready)|[t Hres]] Hcommit;
    [|by apply wpb_wp, (concat_step_spec committed t)].
  destruct (past_ready_inv _ _ Hready) as
    (a & nx & l & r & Ea & Hga & Hha & E & _ & _ & _ & _ & _ & _ & Hcase).
  destruct Hcase as [[Hfn _]|Hfn]; [by eapply search_step_spec|].
  apply wpb_wp. unfold execute_one_step_. rewrite Hfn, Ea, Hcur. wp_step. wp_step.
  by eapply setref_finish.
Qed.

Lemma search_op_spec ver p t g' h' :
  rep g' p t -> g' ⊆ h' -> (size t < fuel)%nat -> c_ver c0 = ver ->
  wp (search_op fuel (op c0) ver p (c_pry c0) (c_key c0)) (returns g' h' (t_op c0 t)) h'.
Proof.
  intros Hrep Hsub Hsz <-. unfold search_op, t_op.
  destruct (op c0); [done| |]; by (apply search_insert_spec || apply search_delete_spec).
Qed.

Lemma complete_spec :
  task_ready ->
  (fn c0 <> FN_CONCAT -> exists tp, rep g (t_past c0) tp) ->
  wp (execute_to_complete_ fuel c0) (step_post h cs k u0 c0) h.
Proof.
  intros Htask Hcomplete. unfold execute_to_complete_.
  destruct Htask as [(tp & t & Hready)|[t Hres]].
  - destruct (past_ready_inv _ _ Hready) as
      (a & nx & l & r & Ea & Hga & Hha & -> & Hl & Hr & Hpry & Hkey & Gl & Gr & Hcase).
    rewrite Ea, Hcur. destruct Hcase as [[Hfn _]|Hfn]; rewrite Hfn; wp_step; wp_step.
    2: by eapply setref_finish.
    assert (rep g (n_lch nx) l /\ rep g (n_rch nx) r) as [Rl Rr].
    { destruct Hcomplete as [tp' Htp']; [congruence|].
      assert (tp' = Node (n_ver nx) (n_pry nx) (n_key nx) (n_val nx) l r) as ->.
      { eapply dn_det; [by apply dn_complete|apply Hready]. }
      rewrite Ea in Htp'. destruct Htp' as (a' & n' & [= <-] & Hn' & _ & ? & ?).
      assert (n' = nx) as -> by congruence. done. }
    destruct (dir c0) eqn:Hdir; wp_step; wp_step; wp_step;
      (eapply wp_mono; [|eapply search_op_spec;
         [(exact Rl || exact Rr)|apply closed_sub_store|apply Gl || apply Gr|done]]);
      intros p h1 (g' & Hext & Hp);
      assert (Hl0 := own_store_kept _ _ _ Hext); wp_step; wp_step; wp_step;
      (eapply (finish_done g'); [exact Hext|done|done|]);
      intros h' cs' k' Hsub Hnode;
      assert (g ⊆ closed_part h' cs') as Hgsub
        by (etrans; [apply (ext_sub _ _ _ _ Hext)|done]);
      (split; [|by intros t' [E _]; congruence]); intros tp' t' Hold Hnew Hp';
      destruct (ready_children _ _ _ _ _ _ _ _ _ Hready Ea Hga Hgsub Hold Hnew)
        as (-> & Hl' & Hr');
      rewrite (past_result_search _ _ _ _ Hp' Hfn), Hdir; apply Hnode; try done;
      apply dn_complete; (eapply rep_weaken; [exact Hsub|exact Hp]).
  - assert (Hres' := Hres). destruct Hres' as (Hfn & Hpast & _). rewrite Hfn, Hcur.
    destruct (concat_inv _ Hres) as (tl & tr & Hl & Hr & Gl & Gr & Hsz & H).
    destruct (dir c0) eqn:Hdir;
      destruct H as (a & n & l & r & Ea & Hga & -> & Hgl & Hgr & ->);
      assert (h !! a = Some n) as Hha by (by apply closed_part_Some in Hga as [? _]);
      rewrite Ea; wp_step; wp_step; wp_step; wp_step; wp_step;
      (eapply wp_mono; [|eapply process_concat_spec;
         [first [exact Hl|exact Hgr]|first [exact Hgl|exact Hr]|apply closed_sub_store|simpl in Hsz; lia]]);
      intros p h1 (g' & Hext & Hp);
      assert (Hl0 := own_store_kept _ _ _ Hext); wp_step; wp_step; wp_step;
      (eapply (finish_done g'); [exact Hext|done|done|]);
      intros h' cs' k' Hsub Hnode;
      assert (g ⊆ closed_part h' cs') as Hgsub
        by (etrans; [apply (ext_sub _ _ _ _ Hext)|done]);
      (split; [intros tp' t' _ _ Hp'; destruct (past_concat_excl _ _ _ _ _ _ Hp' Hres)|]);
      intros t' Ht'; rewrite <- (concat_result_det _ _ _ _ _ Hres Ht'); rewrite Hcv0 in *;
      apply Hnode; apply dn_complete; (eapply rep_weaken; [exact Hsub|exact Hp]) ||
      (eapply rep_weaken; [exact Hgsub|]; assumption).
Qed.
End one_task.
End denotation.
