(* ===== verification/SchedulerMem.v ===== *)
(** * Memory effects of the remaining scheduler steps

    What issuing a task ([init_context_]), publishing a stage and filling in
    aggregates ([work_estimate_]) do to the denotations of [SchedulerTree]. *)

From S2P Require Import Prelude TreapTree TreapNode TreapUpdate TreapQuery Scheduler.
From S2P Require Import SchedulerTree.

(** ** Publishing a stage *)

Lemma open_locs_insert cs u c c' :
  cs !! u = Some c -> open_of c' = open_of c -> open_locs (<[u := c']> cs) = open_locs cs.
Proof.
  intros Hu Ho. revert u Hu. induction cs as [|d cs IH]; intros [|u] Hu; simplify_eq/=.
  - unfold open_locs. simpl. by rewrite Ho.
  - unfold open_locs in *. simpl. by rewrite (IH u Hu).
Qed.

Lemma is_open_set_stage cs u c g v d a :
  cs !! u = Some c -> is_open cs v d a ->
  is_open (<[u := set_stage g c]> cs) v (if decide (v = u) then set_stage g d else d) a.
Proof.
  intros Hu [Hv Ho]. destruct (decide (v = u)) as [->|Hne].
  - simplify_eq. split; [|done]. apply list_lookup_insert_eq. by eapply lookup_lt_Some.
  - split; [|done]. by rewrite list_lookup_insert_ne.
Qed.

Lemma open_ok_set_stage h cs u c g :
  cs !! u = Some c -> open_ok h cs -> open_ok h (<[u := set_stage g c]> cs).
Proof.
  intros Hu Hok v d a [Hv Ho]. destruct (decide (v = u)) as [->|Hne].
  - rewrite list_lookup_insert_eq in Hv by (by eapply lookup_lt_Some). simplify_eq.
    by apply (Hok u c a).
  - rewrite list_lookup_insert_ne in Hv by done. by apply (Hok v d a).
Qed.

Lemma closed_part_set_stage h cs u c g :
  cs !! u = Some c -> closed_part h (<[u := set_stage g c]> cs) = closed_part h cs.
Proof. intros Hu. unfold closed_part. by rewrite (open_locs_insert _ _ c). Qed.

Lemma dn_set_stage fuel h cs k u c g d p t :
  cs !! u = Some c -> dn fuel h cs k d p t -> dn fuel h (<[u := set_stage g c]> cs) k d p t.
Proof.
  intros Hu. apply (dn_preserve fuel h cs k _ _ _ u).
  - by rewrite (closed_part_set_stage _ _ _ c).
  - intros a n v e Ha Ho Hne. split; [|split; [done|]].
    + pose proof (is_open_set_stage _ _ _ g _ _ _ Hu Ho) as H.
      by rewrite decide_False in H by done.
    + exists (n_aug n). by rewrite set_aug_id.
  - intros a n e tp t' Ha Ho Hv Hcv Hl Hr _ Hold Hp.
    pose proof (is_open_set_stage _ _ _ g _ _ _ Hu Ho) as H. rewrite decide_True in H by done.
    by apply (dn_past fuel _ _ _ a n u (set_stage g e) tp t').
  - intros a n e t' Ha Ho Hv Hcv Hl Hr Hp.
    pose proof (is_open_set_stage _ _ _ g _ _ _ Hu Ho) as H. rewrite decide_True in H by done.
    apply (dn_concat fuel _ _ _ a n u (set_stage g e) t'); try done.
    by rewrite (closed_part_set_stage _ _ _ c).
Qed.

(** ** Filling in aggregates *)

(** Only cached aggregates differ. *)
Definition aug_only (h h' : heap) : Prop :=
  heap_le h h' /\ forall a, h !! a = None -> h' !! a = None.

#[global] Instance aug_only_preorder : PreOrder aug_only.
Proof.
  split; [split; done|].
  intros h1 h2 h3 [A1 B1] [A2 B2]. split; [by etrans|auto].
Qed.

Lemma aug_only_store h a n s : h !! a = Some n -> aug_only h (<[a := set_aug s n]> h).
Proof.
  intros Hn. split.
  - intros b m Hm. destruct (decide (a = b)) as [<-|Hne].
    + exists s. rewrite lookup_insert_eq. congruence.
    + exists (n_aug m). by rewrite lookup_insert_ne, set_aug_id.
  - intros b Hb. rewrite lookup_insert_ne; [done|congruence].
Qed.

(** [augment] runs on every finite structure, complete or not. *)
Lemma augment_runs fuel h p t :
  rep h p t -> (size t < fuel)%nat -> wp (augment fuel p) (fun _ h' => aug_only h h') h.
Proof.
  revert h p t. induction fuel as [|fuel IH]; intros h p t Hrep Hf; [lia|].
  rep_cases t Hrep; cbn [augment]; [wp_step; reflexivity|].
  simpl in Hf. wp_step. wp_step. destruct (Z.eqb_spec (n_aug n) aug_uninitialized); simpl; wp_step; [|reflexivity].
  eapply wp_mono; [|apply (IH h _ l); [done|lia]]. intros al h1 Ha1. wp_step.
  eapply wp_mono; [|apply (IH h1 _ r); [eapply rep_heap_le; [apply Ha1|done]|lia]].
  intros ar h2 Ha2. assert (aug_only h h2) as Ha by (etrans; [exact Ha1|exact Ha2]).
  destruct (proj1 Ha a n Hn) as [x Hx]. wp_step. wp_step. wp_step.
  eapply wp_load; [apply lookup_insert_eq|]. wp_step. etrans; [exact Ha|]. by apply aug_only_store.
Qed.

(** What is physically reachable from a pointer while tasks are in flight. *)
Lemma dn_phys fuel h cs k d p t :
  dn fuel h cs k d p t -> exists t', rep h p t' /\ (size t' <= size t)%nat.
Proof.
  intros H.
  assert (forall a n t, h !! a = Some n -> n_lch n = None -> n_rch n = None ->
    (exists l r, t = Node (n_ver n) (n_pry n) (n_key n) (n_val n) l r) ->
    exists t', rep h (Some a) t' /\ (size t' <= size t)%nat) as Hopen.
  { intros a n t' Ha Hl Hr (l & r & ->).
    exists (Node (n_ver n) (n_pry n) (n_key n) (n_val n) Leaf Leaf). split; [|simpl; lia].
    exists a, n. done. }
  induction H as [d p t Hr|d a n l r Hn _ (l' & Rl & Sl) _ (r' & Rr & Sr)
    |a n u c tp t Hn _ _ _ Hl Hr _ _ Hp|a n u c t Hn _ _ _ Hl Hr Hp].
  - exists t. split; [|done]. eapply rep_weaken; [apply closed_part_sub|done].
  - apply closed_part_Some in Hn as [Hn _].
    exists (Node (n_ver n) (n_pry n) (n_key n) (n_val n) l' r'). split; [|simpl; lia].
    exists a, n. done.
  - eapply Hopen; try done. by eapply past_result_root.
  - eapply Hopen; try done. by eapply concat_result_root.
Qed.

Lemma closed_part_aug h h' cs :
  aug_only h h' -> heap_le (closed_part h cs) (closed_part h' cs).
Proof.
  intros [Hle _] a n Ha. apply closed_part_Some in Ha as [Ha Hno].
  destruct (Hle a n Ha) as [x Hx]. exists x. by apply closed_part_Some.
Qed.

Lemma open_ok_aug h h' cs : aug_only h h' -> open_ok h cs -> open_ok h' cs.
Proof.
  intros [Hle _] Hok u c a Ho. destruct (Hok u c a Ho) as (n & Hn & Hv).
  destruct (Hle a n Hn) as [x Hx]. by exists (set_aug x n).
Qed.

Lemma dn_aug fuel h h' cs k d p t :
  aug_only h h' -> dn fuel h cs k d p t -> dn fuel h' cs k d p t.
Proof.
  intros Ha. apply (dn_preserve fuel h cs k h' cs k (length cs)).
  - by apply closed_part_aug.
  - intros a n u c Hn Ho _. split; [done|]. split; [done|]. by apply Ha.
  - intros a n c tp t' _ [Hlt%lookup_lt_Some _]. lia.
  - intros a n c t' _ [Hlt%lookup_lt_Some _]. lia.
Qed.

(** ** Issuing a task *)

(** What issuing task [v] with the context [c'] guarantees; [T] is the tree of
    the version it creates. *)
Definition issue_post (fuel : nat) (h : heap) (cs : list context) (k : nat -> nat) (v : nat)
    (c c' : context) (T : tree) (h' : heap) : Prop :=
  let cs' := <[v := c']> cs in
  let k' := upd_k k v 1 in
  (forall d p t, dn fuel h cs k d p t -> dn fuel h' cs' k' d p t) /\
  open_ok h' cs' /\
  op c' = op c /\ c_ver c' = v /\
  match st c' with ST_RUNNING => stage c' = Stage 0 | ST_DONE => stage c' = STAGE_DONE end /\
  dn fuel h' cs' k' 1 (root c') T /\
  (st c' = ST_RUNNING -> exists b, t_cur c' = Some b /\ dn fuel h' cs' k' 1 (Some b) T) /\
  (forall a n, h !! a = Some n -> exists n', h' !! a = Some n' /\ node_data n' = node_data n).

Lemma issue_closed h cs v c c' g' h' :
  cs !! v = Some c -> open_of c = None -> open_ok h cs ->
  ext (closed_part h cs) h g' h' ->
  (forall a, open_of c' = Some a -> g' = closed_part h cs /\ h !! a = None /\
     exists n, h' !! a = Some n /\ n_ver n = v) ->
  let cs' := <[v := c']> cs in
  g' ⊆ closed_part h' cs' /\ open_ok h' cs' /\
  (forall u d a, is_open cs u d a -> is_open cs' u d a /\ u <> v).
Proof.
  intros Hv Hnone Hok (E1 & E2 & E3 & E4) Hnew cs'.
  pose proof (lookup_lt_Some _ _ _ Hv) as Hlt.
  assert (forall u d a, is_open cs' u d a -> u = v /\ d = c' \/ u <> v /\ is_open cs u d a)
    as Hcases.
  { intros u d a [Hu Ho]. destruct (decide (u = v)) as [->|Hne].
    - left. unfold cs' in Hu. rewrite list_lookup_insert_eq in Hu by done.
      naive_solver.
    - right. unfold cs' in Hu. rewrite list_lookup_insert_ne in Hu by done. done. }
  split_and!.
  - apply map_subseteq_spec. intros a n Ha. apply closed_part_Some. split; [by eapply lookup_weaken|].
    intros u d Ho. destruct (Hcases _ _ _ Ho) as [[-> ->]|[Hne Ho']].
    + destruct Ho as [_ Ho]. destruct (Hnew a Ho) as (-> & Hf & _).
      apply closed_part_Some in Ha as [Ha _]. congruence.
    + destruct (Hok _ _ _ Ho') as (m & Hm & _). destruct (closed_part h cs !! a) as [m'|] eqn:Eg.
      * apply closed_part_Some in Eg as [_ Hno]. by destruct (Hno _ _ Ho').
      * specialize (E4 a (mk_is_Some _ _ Ha) Eg). congruence.
  - intros u d a Ho. destruct (Hcases _ _ _ Ho) as [[-> ->]|[Hne Ho']].
    + destruct Ho as [_ Ho]. by destruct (Hnew a Ho) as (_ & _ & H).
    + destruct (Hok _ _ _ Ho') as (m & Hm & Hver). exists m. split; [|done].
      by eapply lookup_weaken.
  - intros u d a [Hu Ho]. assert (u <> v) as Hne.
    { intros ->. simplify_eq. }
    split; [|done]. split; [|done]. unfold cs'. by rewrite list_lookup_insert_ne.
Qed.

Lemma issue_preserve fuel h cs k v c' g' h' :
  ext (closed_part h cs) h g' h' ->
  g' ⊆ closed_part h' (<[v := c']> cs) ->
  (forall u d a, is_open cs u d a -> is_open (<[v := c']> cs) u d a /\ u <> v) ->
  forall d p t, dn fuel h cs k d p t -> dn fuel h' (<[v := c']> cs) (upd_k k v 1) d p t.
Proof.
  intros Hext Hsub Hopen. destruct Hext as (E1 & E2 & E3 & E4).
  apply (dn_preserve fuel h cs k _ _ _ v).
  - apply heap_le_subseteq. by etrans.
  - intros a n u d Ha Ho Hne. split; [by apply Hopen|]. unfold upd_k.
    rewrite decide_False by done. split; [done|]. exists (n_aug n). rewrite set_aug_id.
    by eapply lookup_weaken.
  - intros a n d tp t _ Ho. by destruct (Hopen _ _ _ Ho) as [_ Hne].
  - intros a n d t _ Ho. by destruct (Hopen _ _ _ Ho) as [_ Hne].
Qed.

(** Issuing [OP_NONE]: the new version is the previous one. *)
Lemma issue_nop fuel h cs k v c pr ke p t :
  cs !! v = Some c -> open_of c = None -> open_ok h cs -> dn fuel h cs k 1 p t ->
  issue_post fuel h cs k v (set_task OP_NONE v pr ke c)
    (done_ (set_root p (set_task OP_NONE v pr ke c))) t h.
Proof.
  intros Hv Ho Hok Hdn.
  set (c' := done_ _).
  destruct (issue_closed h cs v c c' (closed_part h cs) h) as (Hsub & Hok' & Hopen); try done.
  { apply ext_refl, closed_part_sub. }
  assert (Hpres := issue_preserve fuel h cs k v c' _ h (ext_refl _ _ (closed_part_sub h cs))
    Hsub Hopen).
  split_and!; try done; [|by eauto]. by apply Hpres.
Qed.

(** Issuing an insertion or deletion. *)
Lemma issue_update fuel h cs k v c0 c committed p t :
  cs !! v = Some c0 -> open_of c0 = None -> open_ok h cs ->
  (forall u d, cs !! u = Some d -> (u <= committed)%nat -> st d = ST_DONE) ->
  st c = ST_RUNNING -> fn c = FN_SEARCH -> c_ver c = v -> op c <> OP_NONE ->
  stage c = Stage 0 -> t_past c = p -> dn fuel h cs k 1 p t -> good fuel v t ->
  wpb (committed < v - 1)%nat (update_ fuel committed c)
    (fun r h' => issue_post fuel h cs k v c (set_t_cur r.1 (set_root r.1 r.2)) (t_op c t) h') h.
Proof.
  intros Hv Ho Hok Hcommit Hst Hfn Hver Hop Hstage Hpast Hdn Hgood. subst p.
  eapply wpb_mono; [|eapply (update_spec fuel h cs k h v 1 None c t committed); try done].
  2: apply closed_part_sub.
  2: by eauto.
  intros [p' c'] h' (g' & Hext & Hf & Hrun & Hfin). simpl in *.
  set (c'' := set_t_cur p' (set_root p' c')).
  destruct (issue_closed h cs v c0 c'' g' h') as (Hsub & Hok' & Hopen); try done.
  { intros a Ha. unfold open_of in Ha. simpl in Ha. destruct (st c') eqn:E; [|done].
    destruct (Hrun eq_refl) as (-> & b & n & Hb & Hfresh & Hn & Hvn). simplify_eq. eauto. }
  assert (Hpres := issue_preserve fuel h cs k v c'' g' h' Hext Hsub Hopen).
  assert (dn fuel h' (<[v := c'']> cs) (upd_k k v 1) 1 p' (t_op c t)) as Hnew.
  { apply (Hfin h' (<[v := c'']> cs) (upd_k k v 1)); [|by apply Hpres].
    split; [done|done| |].
    - exists p'. apply list_lookup_insert_eq. by eapply lookup_lt_Some.
    - unfold upd_k. by rewrite decide_True. }
  destruct Hf as (F1 & F2 & F3 & F4 & F5 & F6). unfold issue_post. simpl.
  split_and!; try done.
  - congruence.
  - destruct (st c'); congruence.
  - intros Hr. destruct (Hrun Hr) as (_ & b & n & -> & _). by exists b.
  - intros a n Ha. exists n. split; [|done]. destruct Hext as (_ & _ & H3 & _).
    by eapply lookup_weaken.
Qed.
