(* ===== verification/SchedulerInv.v ===== *)
(** * The invariant of the scheduler

    What holds in every reachable state of the scheduler, however its threads
    interleave: the denotation of every issued version ([mem_inv]), the
    accounting of the pipeline tokens ([tok_inv]), which threads have worked on
    a task ([task_inv]), and the threads' own states. *)

From S2P Require Import Prelude TreapTree TreapNode TreapUpdate TreapQuery Scheduler.
From S2P Require Import SchedulerTree SchedulerMem.

(** ** The sequential meaning of a list of operations *)

Definition t_apply (hash : Z -> Z) (v : nat) (oe : operation * Z) (t : tree) : tree :=
  match oe.1 with
  | OP_NONE => t
  | OP_INSERT => t_insert v t (hash oe.2) oe.2
  | OP_DELETE => t_delete v t (hash oe.2) oe.2
  end.

(** The tree of version [v] when [ops] run one after the other on [t0]. *)
Fixpoint version_tree (hash : Z -> Z) (t0 : tree) (ops : list (operation * Z)) (v : nat) : tree :=
  match v with
  | O => t0
  | S v' =>
      let t := version_tree hash t0 ops v' in
      match ops !! v' with Some oe => t_apply hash v oe t | None => t end
  end.

Lemma version_tree_app hash t0 ops ops' v :
  (v <= length ops)%nat -> version_tree hash t0 (ops ++ ops') v = version_tree hash t0 ops v.
Proof.
  induction v as [|v IH]; intros Hv; simpl; [done|].
  rewrite lookup_app_l by lia. by rewrite IH by lia.
Qed.

Lemma version_tree_snoc hash t0 ops oe :
  version_tree hash t0 (ops ++ [oe]) (S (length ops)) =
    t_apply hash (S (length ops)) oe (version_tree hash t0 ops (length ops)).
Proof. simpl. rewrite list_lookup_middle by done. by rewrite version_tree_app. Qed.

Lemma version_tree_props hash t0 ops v :
  vers_le 0 t0 -> vers_mono t0 ->
  vers_le v (version_tree hash t0 ops v) /\ vers_mono (version_tree hash t0 ops v) /\
  (size (version_tree hash t0 ops v) <= size t0 + v)%nat.
Proof.
  intros H0 M0. induction v as [|v (IHv & IHm & IHs)]; simpl; [split_and!; lia || done|].
  set (t := version_tree hash t0 ops v) in *.
  assert (vers_le (S v) t) as Hv by (eapply vers_le_trans; [|exact IHv]; lia).
  destruct (ops !! v) as [[[] e]|]; unfold t_apply; cbn [fst snd].
  - split_and!; [done|done|lia].
  - pose proof (t_insert_size (S v) t (hash e) e).
    split_and!; [by apply t_insert_vers|by apply t_insert_mono|lia].
  - pose proof (t_delete_size (S v) t (hash e) e).
    split_and!; [by apply t_delete_vers|by apply t_delete_mono|lia].
  - split_and!; [done|done|lia].
Qed.

(** ** The memory *)

Section inv.
Context (cfg : config) (t0 : tree).

Let N : nat := num_tasks_ cfg.
Let P : nat := num_pipes_ cfg.
Let W : nat := num_workers_ cfg.
Let fuel : nat := cfg_fuel cfg.


Definition version (ops : list (operation * Z)) (v : nat) : tree :=
  version_tree (cfg_hash cfg) t0 ops v.

Record mem_inv (h : heap) (cs : list context) (k : nat -> nat) (issued : nat)
    (ops : list (operation * Z)) : Prop := {
  mi_len : length cs = S N;
  mi_ops : length ops = issued;
  mi_issued : (issued <= N)%nat;
  mi_root : forall v c, (v <= issued)%nat -> cs !! v = Some c ->
    dn fuel h cs k 1 (root c) (version ops v);
  mi_open : open_ok h cs;
  mi_run : forall u c, cs !! u = Some c -> (u <= issued)%nat -> st c = ST_RUNNING ->
    (1 <= u)%nat /\ c_ver c = u /\ op c <> OP_NONE /\ (1 <= k u)%nat /\
    exists a t, t_cur c = Some a /\ dn fuel h cs k (k u) (Some a) t;
  mi_new : forall u c, cs !! u = Some c -> (issued < u)%nat -> c = new_context;
  mi_done : forall u c, cs !! u = Some c -> st c = ST_DONE <-> stage c = STAGE_DONE;
  mi_stage : forall u c g, cs !! u = Some c -> st c = ST_RUNNING -> stage c = Stage g ->
    g = 0%nat \/ (P + g <= k u)%nat;
}.

(** Nodes persist, with their data. *)
Definition data_kept (h h' : heap) : Prop :=
  forall a n, h !! a = Some n -> exists n', h' !! a = Some n' /\ node_data n' = node_data n.

(** Tasks only advance. *)
Definition tasks_advance (cs : list context) (k : nat -> nat) (cs' : list context)
    (k' : nat -> nat) (issued : nat) : Prop :=
  forall u c', (u <= issued)%nat -> cs' !! u = Some c' -> st c' = ST_RUNNING ->
    exists c, cs !! u = Some c /\ st c = ST_RUNNING /\ (k u <= k' u)%nat.

Lemma mem_task_step h cs k issued ops u c c' h' :
  mem_inv h cs k issued ops -> cs !! u = Some c -> (u <= issued)%nat -> st c = ST_RUNNING ->
  step_post fuel h cs k u c c' h' ->
  mem_inv h' (<[u := c']> cs) (upd_k k u (S (k u))) issued ops.
Proof.
  intros I Hu Hle Hst (Hpres & Hok & Hf & Hrun & _).
  destruct (mi_run _ _ _ _ _ I u c Hu Hle Hst) as (Hu1 & Hcv & Hop & Hk & _).
  destruct Hf as (F1 & F2 & F3 & F4 & F5 & F6). pose proof (lookup_lt_Some _ _ _ Hu) as Hlt.
  assert (forall v d, <[u := c']> cs !! v = Some d ->
    v = u /\ d = c' \/ v <> u /\ cs !! v = Some d) as Hcases.
  { intros v d Hv. destruct (decide (v = u)) as [->|Hne].
    - rewrite list_lookup_insert_eq in Hv by done. left. by simplify_eq.
    - rewrite list_lookup_insert_ne in Hv by done. by right. }
  assert (forall v, v <> u -> upd_k k u (S (k u)) v = k v) as Hk_ne.
  { intros v Hne. unfold upd_k. by rewrite decide_False. }
  assert (upd_k k u (S (k u)) u = S (k u)) as Hk_eq by (unfold upd_k; by rewrite decide_True).
  split.
  - rewrite length_insert. apply I.
  - apply I.
  - apply I.
  - intros v d Hv Hd. apply Hpres. destruct (Hcases _ _ Hd) as [[-> ->]|[Hne Hd']].
    + rewrite F5. by apply I.
    + by apply I.
  - done.
  - intros v d Hd Hv Hr. destruct (Hcases _ _ Hd) as [[-> ->]|[Hne Hd']].
    + destruct (Hrun Hr) as (b & t & Hb & Ht). rewrite Hk_eq. split_and!; [done|congruence|congruence|lia|].
      by exists b, t.
    + rewrite (Hk_ne v Hne). destruct (mi_run _ _ _ _ _ I v d Hd' Hv Hr) as (A & B & C & D & a & t & Ha & Ht).
      split_and!; [done|done|done|done|]. exists a, t. split; [done|]. by apply Hpres.
  - intros v d Hd Hv. destruct (Hcases _ _ Hd) as [[-> ->]|[Hne Hd']]; [lia|by eapply I].
  - intros v d Hd. destruct (Hcases _ _ Hd) as [[-> ->]|[Hne Hd']]; [|by eapply I].
    destruct (st c') eqn:E; [|done]. split; [done|]. intros Hs.
    rewrite F6 in Hs. apply (mi_done _ _ _ _ _ I u c Hu) in Hs. congruence.
  - intros v d g Hd Hr Hg. destruct (Hcases _ _ Hd) as [[-> ->]|[Hne Hd']].
    + rewrite Hk_eq. rewrite Hr in F6. destruct (mi_stage _ _ _ _ _ I u c g Hu Hst); [congruence|by left|right; lia].
    + rewrite (Hk_ne v Hne). by eapply I.
Qed.

Lemma mem_set_stage h cs k issued ops u c s :
  mem_inv h cs k issued ops -> cs !! u = Some c -> (u <= issued)%nat -> st c = ST_RUNNING ->
  (P + s <= k u)%nat ->
  mem_inv h (<[u := set_stage (Stage s) c]> cs) k issued ops.
Proof.
  intros I Hu Hle Hst Hs. pose proof (lookup_lt_Some _ _ _ Hu) as Hlt.
  assert (forall v d, <[u := set_stage (Stage s) c]> cs !! v = Some d ->
    v = u /\ d = set_stage (Stage s) c \/ v <> u /\ cs !! v = Some d) as Hcases.
  { intros v d Hv. destruct (decide (v = u)) as [->|Hne].
    - rewrite list_lookup_insert_eq in Hv by done. left. by simplify_eq.
    - rewrite list_lookup_insert_ne in Hv by done. by right. }
  split.
  - rewrite length_insert. apply I.
  - apply I.
  - apply I.
  - intros v d Hv Hd. apply dn_set_stage; [done|]. destruct (Hcases _ _ Hd) as [[-> ->]|[Hne Hd']].
    + by apply (mi_root _ _ _ _ _ I u c).
    + by apply I.
  - apply open_ok_set_stage; [done|apply I].
  - intros v d Hd Hv Hr. destruct (Hcases _ _ Hd) as [[-> ->]|[Hne Hd']].
    + destruct (mi_run _ _ _ _ _ I u c Hu Hle Hst) as (A & B & C & D & a & t & Ha & Ht).
      split_and!; try done. exists a, t. split; [done|]. by apply dn_set_stage.
    + destruct (mi_run _ _ _ _ _ I v d Hd' Hv Hr) as (A & B & C & D & a & t & Ha & Ht).
      split_and!; try done. exists a, t. split; [done|]. by apply dn_set_stage.
  - intros v d Hd Hv. destruct (Hcases _ _ Hd) as [[-> ->]|[Hne Hd']]; [lia|by eapply I].
  - intros v d Hd. destruct (Hcases _ _ Hd) as [[-> ->]|[Hne Hd']]; [|by eapply I].
    simpl. by rewrite Hst.
  - intros v d g Hd Hr Hg. destruct (Hcases _ _ Hd) as [[-> ->]|[Hne Hd']]; [|by eapply I].
    simpl in Hg. right. congruence.
Qed.

Lemma mem_aug h h' cs k issued ops :
  aug_only h h' -> mem_inv h cs k issued ops -> mem_inv h' cs k issued ops.
Proof.
  intros Ha I. split; try apply I.
  - intros v c Hv Hc. eapply dn_aug; [done|]. by apply I.
  - eapply open_ok_aug; [done|]. apply I.
  - intros u c Hc Hu Hr. destruct (mi_run _ _ _ _ _ I u c Hc Hu Hr) as (A & B & C & D & a & t & Hcur & Ht).
    split_and!; try done. exists a, t. split; [done|]. by eapply dn_aug.
Qed.

Lemma mem_issue h cs k issued ops c c' oe h' :
  mem_inv h cs k issued ops -> (issued < N)%nat -> cs !! S issued = Some new_context ->
  op c = oe.1 -> (oe.1 = OP_NONE -> st c' = ST_DONE) ->
  issue_post fuel h cs k (S issued) c c' (t_apply (cfg_hash cfg) (S issued) oe (version ops issued)) h' ->
  mem_inv h' (<[S issued := c']> cs) (upd_k k (S issued) 1) (S issued) (ops ++ [oe]).
Proof.
  intros I Hlt Hv Hop Hnone (Hpres & Hok & F1 & F2 & F3 & Hroot & Hrun & _).
  pose proof (lookup_lt_Some _ _ _ Hv) as Hlen.
  set (v := S issued) in *.
  assert (forall u d, <[v := c']> cs !! u = Some d ->
    u = v /\ d = c' \/ u <> v /\ cs !! u = Some d) as Hcases.
  { intros u d Hu. destruct (decide (u = v)) as [->|Hne].
    - rewrite list_lookup_insert_eq in Hu by done. left. by simplify_eq.
    - rewrite list_lookup_insert_ne in Hu by done. by right. }
  assert (forall u, u <> v -> upd_k k v 1 u = k u) as Hk_ne.
  { intros u Hne. unfold upd_k. by rewrite decide_False. }
  assert (upd_k k v 1 v = 1%nat) as Hk_eq by (unfold upd_k; by rewrite decide_True).
  pose proof (mi_ops _ _ _ _ _ I) as Hlops.
  split.
  - rewrite length_insert. apply I.
  - rewrite length_app, Hlops. simpl. lia.
  - lia.
  - intros u d Hu Hd. destruct (Hcases _ _ Hd) as [[-> ->]|[Hne Hd']].
    + pose proof (version_tree_snoc (cfg_hash cfg) t0 ops oe) as E. rewrite Hlops in E.
      unfold version, v in *. by rewrite E.
    + unfold version. rewrite version_tree_app by lia. apply Hpres. apply I; [lia|done].
  - done.
  - intros u d Hd Hu Hr. destruct (Hcases _ _ Hd) as [[-> ->]|[Hne Hd']].
    + destruct (Hrun Hr) as (b & Hb & Ht). rewrite Hk_eq. split_and!; [lia|done| |lia|by eauto].
      intros E. rewrite F1, Hop in E. specialize (Hnone E). congruence.
    + rewrite (Hk_ne u Hne). destruct (mi_run _ _ _ _ _ I u d Hd') as (A & B & C & D & a & t & Ha & Ht);
        [lia|done|].
      split_and!; try done. exists a, t. split; [done|]. by apply Hpres.
  - intros u d Hd Hu. destruct (Hcases _ _ Hd) as [[-> ->]|[Hne Hd']]; [lia|].
    eapply I; [done|lia].
  - intros u d Hd. destruct (Hcases _ _ Hd) as [[-> ->]|[Hne Hd']]; [|by eapply I].
    destruct (st c'); rewrite F3; done.
  - intros u d g Hd Hr Hg. destruct (Hcases _ _ Hd) as [[-> ->]|[Hne Hd']].
    + rewrite Hr in F3. left. congruence.
    + rewrite (Hk_ne u Hne). by eapply I.
Qed.

(** ** What a running task may do *)

Lemma run_inv h cs k issued ops u c :
  mem_inv h cs k issued ops -> cs !! u = Some c -> (u <= issued)%nat -> st c = ST_RUNNING ->
  exists l0 n0, t_cur c = Some l0 /\ h !! l0 = Some n0 /\ n_ver n0 = u /\
    ((exists tp t, dn fuel h cs k (k u) (t_past c) tp /\ past_result fuel n0 c tp t) \/
     exists t, concat_result fuel (closed_part h cs) n0 c t).
Proof.
  intros I Hu Hle Hst.
  destruct (mi_run _ _ _ _ _ I u c Hu Hle Hst) as (_ & _ & _ & _ & a & t & Ha & Ht).
  assert (is_open cs u c a) as Ho by (split; [done|]; unfold open_of; by rewrite Hst).
  destruct (dn_open_inv _ _ _ _ _ _ _ _ _ Ht Ho) as
    (n & u' & c' & Hn & Ho' & Hv & _ & _ & _ & _ & Hres).
  assert (u' = u) as -> by (eapply open_unique; [apply I|done|done]).
  assert (c' = c) as -> by (destruct Ho', Ho; congruence).
  exists a, n. split_and!; [done|done|done|]. destruct Hres as [(tp & H1 & H2)|H]; eauto.
Qed.

(** The node [t_past] of a running task exists, and is older than the task. *)
Lemma past_node h cs k issued ops u c :
  mem_inv h cs k issued ops -> cs !! u = Some c -> (u <= issued)%nat -> st c = ST_RUNNING ->
  exists a n, t_past c = Some a /\ h !! a = Some n /\ (n_ver n < u)%nat.
Proof.
  intros I Hu Hle Hst.
  destruct (mi_run _ _ _ _ _ I u c Hu Hle Hst) as (Hu1 & Hcv & _).
  destruct (run_inv _ _ _ _ _ _ _ I Hu Hle Hst) as
    (l0 & n0 & _ & _ & _ & [(tp & t & Hdn & Hg & Hp)|(t & _ & (a & m & Ha & Hm & Hv) & _)]).
  - destruct tp as [|v p key x l r]; [done|].
    destruct (dn_root _ _ _ _ _ _ _ Hdn) as (a & n & Ha & Hn & Hd).
    exists a, n. split_and!; [done|done|]. destruct Hg as ((Hv & _) & _).
    unfold node_data in Hd. simplify_eq. lia.
  - exists a, m. split_and!; [done| |lia]. by apply closed_part_Some in Hm as [? _].
Qed.

(** If no task at the same depth is working on the node [t_past], the task can
    make a step. *)
Lemma run_ready h cs k issued ops u c :
  mem_inv h cs k issued ops -> cs !! u = Some c -> (u <= issued)%nat -> st c = ST_RUNNING ->
  (forall a n d, t_past c = Some a -> h !! a = Some n -> (n_ver n < u)%nat ->
     cs !! n_ver n = Some d -> st d = ST_RUNNING -> k (n_ver n) <> k u) ->
  exists l0 n0, t_cur c = Some l0 /\ h !! l0 = Some n0 /\ n_ver n0 = u /\
    task_ready fuel h cs k u c n0.
Proof.
  intros I Hu Hle Hst Hsync.
  destruct (run_inv _ _ _ _ _ _ _ I Hu Hle Hst) as
    (l0 & n0 & Hl0 & Hn0 & Hv0 & [(tp & t & Hdn & Hp)|(t & Hc)]);
    exists l0, n0; (split_and!; [done|done|done|]); [left|right; by exists t].
  exists tp, t. split_and!; [done|done|]. intros a Ha.
  destruct (past_node _ _ _ _ _ _ _ I Hu Hle Hst) as (a' & n & Ha' & Hn & Hlt).
  assert (a' = a) as -> by congruence.
  destruct (open_dec cs a) as [(u' & d & Ho)|Hno];
    [|by exists n; apply closed_part_Some].
  exfalso. rewrite Ha in Hdn.
  destruct (dn_open_inv _ _ _ _ _ _ _ _ _ Hdn Ho) as
    (m & u'' & d' & Hm & Ho' & Hv & _ & _ & _ & Hk & _).
  assert (m = n) as -> by congruence. subst u''.
  destruct Ho' as [Hd' Hopen]. eapply (Hsync a n d'); try done.
  unfold open_of in Hopen. by destruct (st d').
Qed.

Lemma pipe_exec_spec h cs k issued ops u c committed :
  mem_inv h cs k issued ops -> cs !! u = Some c -> (u <= issued)%nat -> st c = ST_RUNNING ->
  (forall v d, cs !! v = Some d -> (v <= committed)%nat -> st d = ST_DONE) ->
  (forall a n d, t_past c = Some a -> h !! a = Some n -> (n_ver n < u)%nat ->
     cs !! n_ver n = Some d -> st d = ST_RUNNING -> k (n_ver n) <> k u) ->
  wpb (committed < u - 1)%nat (execute_one_step_ fuel committed c) (step_post fuel h cs k u c) h.
Proof.
  intros I Hu Hle Hst Hcommit Hsync.
  destruct (mi_run _ _ _ _ _ I u c Hu Hle Hst) as (Hu1 & Hcv & Hop & _).
  destruct (run_ready _ _ _ _ _ _ _ I Hu Hle Hst Hsync) as (l0 & n0 & Hl0 & Hn0 & Hv0 & Hr).
  eapply (one_step_spec fuel h cs k u c l0 n0); try done. apply I.
Qed.

Lemma complete_exec_spec h cs k issued ops u c committed :
  mem_inv h cs k issued ops -> cs !! u = Some c -> (u <= issued)%nat -> st c = ST_RUNNING ->
  (forall v d, cs !! v = Some d -> (v <= committed)%nat -> st d = ST_DONE) ->
  (forall a n, t_past c = Some a -> h !! a = Some n -> (n_ver n <= committed)%nat) ->
  wp (execute_to_complete_ fuel c) (step_post fuel h cs k u c) h.
Proof.
  intros I Hu Hle Hst Hcommit Hver.
  destruct (mi_run _ _ _ _ _ I u c Hu Hle Hst) as (Hu1 & Hcv & Hop & _).
  destruct (run_ready _ _ _ _ _ _ _ I Hu Hle Hst) as (l0 & n0 & Hl0 & Hn0 & Hv0 & Hr).
  { intros a n d Ha Hn _ Hd Hr. specialize (Hver a n Ha Hn).
    rewrite (Hcommit _ _ Hd Hver) in Hr. done. }
  eapply (complete_spec fuel h cs k u c l0 n0); try done; [apply I|]. intros Hfn.
  destruct Hr as [(tp & t & Hdn & Hp & _)|(t & E & _)]; [|done].
  exists tp. destruct Hp as [Hg Hp]. destruct tp as [|v p key x l r]; [done|].
  destruct (dn_root _ _ _ _ _ _ _ Hdn) as (a & n & Ha & Hn & Hd).
  unfold node_data in Hd. simplify_eq. specialize (Hver a n Ha Hn).
  eapply (dn_rep _ _ _ _ _ _ _ (n_ver n)); [exact Hdn| |].
  - destruct Hg as (_ & (? & ? & _) & _). simpl. auto.
  - intros w d Hw Hwv. eapply Hcommit; [done|lia].
Qed.

Lemma version_good ops v :
  vers_le 0 t0 -> vers_mono t0 -> (size t0 + N < fuel)%nat -> (v <= N)%nat ->
  good fuel (S v) (version ops v).
Proof.
  intros Hvers0 Hmono0 Hfuel Hv. destruct (version_tree_props (cfg_hash cfg) t0 ops v Hvers0 Hmono0) as (H1 & H2 & H3).
  unfold good. replace (S v - 1)%nat with v by lia. split_and!; [done|done|].
  unfold version. lia.
Qed.
End inv.

Section sync.
Context (cfg : config).

Let N : nat := num_tasks_ cfg.
Let P : nat := num_pipes_ cfg.
Let W : nat := num_workers_ cfg.

(** ** The pipeline *)

(** How many tasks have been handed to stage [j] of the pipeline (stage [P] is
    the boarder), and how many it has taken. *)
Definition sent (issued : nat) (pending : bool) (pipes : list pipe) (j : nat) : nat :=
  match j with
  | O => issued - (if pending then 1 else 0)
  | S id => match pipes !! id with Some p => p_pos p - 1 | None => 0 end
  end.

Definition taken (p : pipe) : nat :=
  match p_pc p with PFetch => p_pos p - 1 | _ => p_pos p end.

Definition consumed (pipes : list pipe) (b : boarder) (j : nat) : nat :=
  match pipes !! j with Some p => taken p | None => b_local b end.

(** The position of a pipe is consistent with the tasks handed to it. *)
Definition pipe_ok (sent : nat) (p : pipe) : Prop :=
  (1 <= p_pos p <= S N)%nat /\ (p_pos p - 1 <= sent)%nat /\
  match p_pc p with PExec | PSend => (p_pos p <= sent)%nat | _ => True end.

Record tok_inv (tokens : list Z) (pipes : list pipe) (b : boarder)
    (issued submitted : nat) (pending : bool) : Prop := {
  ti_pipes : length pipes = P;
  ti_tokens : forall j, (j <= P)%nat ->
    tokens !! j = Some (wrap64 (Z.of_nat (sent issued pending pipes j)
                                - Z.of_nat (consumed pipes b j)));
  ti_pipe : forall id p, pipes !! id = Some p -> pipe_ok (sent issued pending pipes id) p;
  ti_board : (submitted <= b_local b <= sent issued pending pipes P)%nat;
  ti_store : b_store b = false -> submitted = b_local b;
  ti_pending : pending = true -> (1 <= issued)%nat;
  ti_issued : (issued <= N)%nat;
}.

(** Pipe [id] has executed task [u]. *)
Definition passed (pipes : list pipe) (id u : nat) : Prop :=
  exists p, pipes !! id = Some p /\ ((u < p_pos p)%nat \/ u = p_pos p /\ p_pc p = PSend).

Section tokens.
Context (tokens : list Z) (pipes : list pipe) (b : boarder).
Context (issued submitted : nat) (pending : bool).
Context (HT : tok_inv tokens pipes b issued submitted pending).

Lemma sent_S_le j : (j < P)%nat ->
  (sent issued pending pipes (S j) <= sent issued pending pipes j)%nat.
Proof.
  intros Hj. cbn [sent]. destruct (lookup_lt_is_Some_2 pipes j) as [p Hp].
  { rewrite (ti_pipes _ _ _ _ _ _ HT). done. }
  rewrite Hp. by destruct (ti_pipe _ _ _ _ _ _ HT j p Hp) as (_ & H & _).
Qed.

Lemma sent_anti i j : (i <= j <= P)%nat ->
  (sent issued pending pipes j <= sent issued pending pipes i)%nat.
Proof.
  intros [Hij Hj]. induction j as [|j IH]; [by replace i with 0%nat by lia|].
  destruct (decide (i = S j)) as [->|]; [done|].
  pose proof (sent_S_le j ltac:(lia)). specialize (IH ltac:(lia) ltac:(lia)). lia.
Qed.

Lemma sent_le_issued j : (j <= P)%nat -> (sent issued pending pipes j <= issued)%nat.
Proof. intros Hj. pose proof (sent_anti 0 j ltac:(lia)). simpl in *. lia. Qed.

Lemma submitted_le_issued : (submitted <= issued)%nat.
Proof.
  pose proof (sent_le_issued P ltac:(lia)). pose proof (ti_board _ _ _ _ _ _ HT). lia.
Qed.

Lemma sent_passed id u : (id < P)%nat -> (1 <= u)%nat ->
  (u <= sent issued pending pipes (S id))%nat -> passed pipes id u.
Proof.
  intros Hid Hu Hs. destruct (lookup_lt_is_Some_2 pipes id) as [p Hp].
  { rewrite (ti_pipes _ _ _ _ _ _ HT). done. }
  cbn [sent] in Hs. rewrite Hp in Hs. exists p. split; [done|]. left. lia.
Qed.

Lemma submitted_passed id u : (id < P)%nat -> (1 <= u <= submitted)%nat -> passed pipes id u.
Proof.
  intros Hid Hu. apply sent_passed; [done|lia|].
  pose proof (sent_anti (S id) P ltac:(lia)). pose proof (ti_board _ _ _ _ _ _ HT). lia.
Qed.

(** The token counter of stage [j] read as a difference. *)
Context (HN64 : Z.of_nat (num_tasks_ cfg) < two64 - 1).

Lemma token_zero j : (j <= P)%nat ->
  wrap64 (Z.of_nat (sent issued pending pipes j) - Z.of_nat (consumed pipes b j)) = 0 ->
  (consumed pipes b j <= sent issued pending pipes j)%nat ->
  sent issued pending pipes j = consumed pipes b j.
Proof.
  intros Hj Hz Hle. pose proof (sent_le_issued j Hj). pose proof (ti_issued _ _ _ _ _ _ HT).
  rewrite wrap64_small in Hz; [lia|]. unfold u64, N in *. lia.
Qed.

Lemma token_max j : (j <= P)%nat ->
  (consumed pipes b j <= S (sent issued pending pipes j))%nat ->
  wrap64 (Z.of_nat (sent issued pending pipes j) - Z.of_nat (consumed pipes b j)) <> size_max ->
  (consumed pipes b j <= sent issued pending pipes j)%nat.
Proof.
  intros Hj Hle Hz. destruct (decide (consumed pipes b j = S (sent issued pending pipes j))); [|lia].
  destruct Hz. rewrite e.
  replace (Z.of_nat _ - Z.of_nat (S _)) with (-1) by lia. reflexivity.
Qed.
End tokens.

(** ** Who has worked on a task *)

(** The stage at which a worker is processing its task. *)
Definition handling (pc : worker_pc) : option nat :=
  match pc with
  | WTest s | WGuard s | WComplete s | WDepend s _ | WStep s _ => Some s
  | _ => None
  end.

(** The worker still has to finish the task it has fetched. *)
Definition holds (pc : worker_pc) : bool :=
  match pc with
  | WSubmit => true
  | _ => match handling pc with Some _ => true | None => false end
  end.

Record task_inv (cs : list context) (k : nat -> nat) (issued : nat) (pipes : list pipe)
    (workers : list worker) : Prop := {
  ki_passed : forall u c, (1 <= u <= issued)%nat -> cs !! u = Some c -> st c = ST_RUNNING ->
    forall id, (id < P)%nat -> passed pipes id u <-> (S id < k u)%nat;
  ki_bound : forall u c, (1 <= u <= issued)%nat -> cs !! u = Some c -> st c = ST_RUNNING ->
    (k u <= S P)%nat \/
    exists i w s, workers !! i = Some w /\ w_task w = u /\ handling (w_pc w) = Some s /\
      k u = (P + s)%nat;
}.

(** ** The workers *)

Definition at_work (cs : list context) (k : nat -> nat) (u s : nat) (c : context) : Prop :=
  cs !! u = Some c /\ st c = ST_RUNNING /\ k u = (P + s)%nat.

Definition past_ver (h : heap) (c : context) (v : nat) : Prop :=
  exists a n, t_past c = Some a /\ h !! a = Some n /\ n_ver n = v.

Definition pc_ok (h : heap) (cs : list context) (k : nat -> nat) (committed u : nat)
    (pc : worker_pc) : Prop :=
  match pc with
  | WTest s => forall c, cs !! u = Some c -> st c = ST_RUNNING -> k u = (P + s)%nat
  | WGuard s => exists c, at_work cs k u s c
  | WComplete s => exists c v, at_work cs k u s c /\ past_ver h c v /\ (v <= committed)%nat
  | WDepend s vdep => exists c, at_work cs k u s c /\ past_ver h c vdep /\ (vdep < u)%nat
  | WStep s vdep => exists c, at_work cs k u s c /\ past_ver h c vdep /\ (vdep < u)%nat /\
      forall d, cs !! vdep = Some d -> st d = ST_RUNNING -> (P + s < k vdep)%nat
  | WSubmit => (1 <= u <= N)%nat
  | WEstimate t => (t <= N)%nat
  | WStop => (N < u)%nat
  | _ => True
  end.

Definition worker_ok (h : heap) (cs : list context) (k : nat -> nat)
    (fetched submitted committed : nat) (w : worker) : Prop :=
  (w_task w <= fetched)%nat /\ (w_cached w <= submitted)%nat /\ (w_end w <= N)%nat /\
  (forall s, handling (w_pc w) = Some s -> (1 <= s)%nat /\ (1 <= w_task w <= submitted)%nat) /\
  pc_ok h cs k committed (w_task w) (w_pc w).

Record worker_inv (h : heap) (cs : list context) (k : nat -> nat)
    (fetched submitted committed : nat) (workers : list worker) : Prop := {
  wi_len : length workers = W;
  wi_ok : forall i w, workers !! i = Some w -> worker_ok h cs k fetched submitted committed w;
  wi_distinct : forall i j w w', workers !! i = Some w -> workers !! j = Some w' ->
    w_task w = w_task w' -> (1 <= w_task w)%nat -> i = j;
  wi_own : forall u c, (1 <= u <= fetched)%nat -> cs !! u = Some c -> st c = ST_RUNNING ->
    exists i w, workers !! i = Some w /\ w_task w = u /\ holds (w_pc w) = true;
}.

Record coll_inv (cs : list context) (issued committed : nat) (c : collector) : Prop := {
  ci_committed : committed = c_local c;
  ci_next : (c_local c <= c_next c <= issued)%nat;
  ci_done : forall u d, cs !! u = Some d -> (u <= c_next c)%nat -> st d = ST_DONE;
}.

(** ** The invariant *)

Record inv (t0 : tree) (σ : sched) (k : nat -> nat) (ops : list (operation * Z)) : Prop := {
  inv_mem : mem_inv cfg t0 (s_heap σ) (s_ctxs σ) k (s_issued σ) ops;
  inv_tok : tok_inv (s_tokens σ) (s_pipes σ) (s_board σ) (s_issued σ) (s_submitted σ)
              (s_pending σ);
  inv_task : task_inv (s_ctxs σ) k (s_issued σ) (s_pipes σ) (s_workers σ);
  inv_worker : worker_inv (s_heap σ) (s_ctxs σ) k (s_fetched σ) (s_submitted σ)
                 (s_committed σ) (s_workers σ);
  inv_coll : coll_inv (s_ctxs σ) (s_issued σ) (s_committed σ) (s_coll σ);
  inv_est : length (s_estimated σ) = W;
}.
End sync.

Arguments submitted_le_issued {cfg tokens pipes b issued submitted pending} HT.
Arguments sent_le_issued {cfg tokens pipes b issued submitted pending} HT j _.
Arguments sent_anti {cfg tokens pipes b issued submitted pending} HT i j _.
Arguments sent_passed {cfg tokens pipes b issued submitted pending} HT id u.
Arguments submitted_passed {cfg tokens pipes b issued submitted pending} HT id u.
Arguments token_zero {cfg tokens pipes b issued submitted pending} HT HN64 j.
Arguments token_max {cfg pipes b issued pending} j.
