(* ===== verification/SchedulerSafe.v ===== *)
(** * Every step of the scheduler keeps the invariant

    One lemma per thread.  Each says that the step of the thread, taken in a
    state that satisfies the invariant, either waits or ends in a state that
    satisfies it: no step runs into undefined behaviour. *)

From S2P Require Import Prelude TreapTree TreapNode TreapUpdate TreapQuery Scheduler.
From S2P Require Import SchedulerTree SchedulerMem SchedulerInv.

(** ** Outcomes *)

Definition ok_outcome (Q : sched -> Prop) (o : outcome) : Prop :=
  match o with Next σ => Q σ | Wait => True | Fault _ => False end.

Lemma ok_get {A} (l : list A) i x (kont : A -> outcome) Q :
  l !! i = Some x -> ok_outcome Q (kont x) -> ok_outcome Q (get l i kont).
Proof. intros Hx HQ. unfold get. by rewrite Hx. Qed.

Lemma ok_run {A} B (m : M node_t A) Qm σ (kont : A -> sched -> outcome) Q :
  wpb B m Qm (s_heap σ) ->
  (forall a h', Qm a h' -> ok_outcome Q (kont a (set_heap h' σ))) ->
  ok_outcome Q (run m σ kont).
Proof.
  intros [[_ Hb]|(a & h' & Hm & Ha)] HQ; unfold run.
  - by rewrite Hb.
  - rewrite Hm. by apply HQ.
Qed.

Section safe.
Context (cfg : config) (t0 : tree).

Let N : nat := num_tasks_ cfg.
Let P : nat := num_pipes_ cfg.
Let fuel : nat := cfg_fuel cfg.

(** ** Components that a step does not touch *)

Lemma advance_refl cs k issued : tasks_advance cs k cs k issued.
Proof. intros u c _ Hu Hr. eauto. Qed.

Lemma advance_step cs k issued u c c' :
  cs !! u = Some c -> st c = ST_RUNNING ->
  tasks_advance cs k (<[u := c']> cs) (upd_k k u (S (k u))) issued.
Proof.
  intros Hu Hst v d _ Hv Hr. unfold upd_k. destruct (decide (v = u)) as [->|Hne].
  - exists c. split_and!; [done|done|lia].
  - rewrite list_lookup_insert_ne in Hv by done. exists d. done.
Qed.

Lemma advance_stage cs k issued u c s :
  cs !! u = Some c -> st c = ST_RUNNING ->
  tasks_advance cs k (<[u := set_stage s c]> cs) k issued.
Proof.
  intros Hu Hst v d _ Hv Hr. destruct (decide (v = u)) as [->|Hne].
  - exists c. done.
  - rewrite list_lookup_insert_ne in Hv by done. exists d. done.
Qed.

Lemma advance_issue cs k issued c' m :
  tasks_advance cs k (<[S issued := c']> cs) (upd_k k (S issued) m) issued.
Proof.
  intros v d Hle Hv Hr. unfold upd_k. rewrite decide_False by lia.
  rewrite list_lookup_insert_ne in Hv by lia. exists d. done.
Qed.

(** No finished task becomes a running one. *)
Definition run_back (cs cs' : list context) : Prop :=
  forall u c', cs' !! u = Some c' -> st c' = ST_RUNNING ->
    exists c, cs !! u = Some c /\ st c = ST_RUNNING.

Lemma run_back_refl cs : run_back cs cs.
Proof. intros u c Hu Hr. eauto. Qed.

Lemma run_back_insert cs u c c' :
  cs !! u = Some c -> st c = ST_RUNNING -> run_back cs (<[u := c']> cs).
Proof.
  intros Hu Hr v d Hd Hrd. destruct (decide (v = u)) as [->|Hne]; [by exists c|].
  rewrite list_lookup_insert_ne in Hd by done. by exists d.
Qed.

Lemma data_kept_refl h : data_kept h h.
Proof. intros a n Hn. eauto. Qed.

Lemma data_kept_aug h h' : aug_only h h' -> data_kept h h'.
Proof. intros [Hle _] a n Hn. destruct (Hle a n Hn) as [x Hx]. by exists (set_aug x n). Qed.

Lemma past_ver_kept h h' c v : data_kept h h' -> past_ver h c v -> past_ver h' c v.
Proof.
  intros Hd (a & n & Ha & Hn & Hv). destruct (Hd a n Hn) as (n' & Hn' & E).
  exists a, n'. split_and!; [done|done|]. unfold node_data in E. by simplify_eq.
Qed.

Lemma worker_ok_mono h cs k F S C h' cs' k' F' S' C' issued w :
  worker_ok cfg h cs k F S C w -> data_kept h h' ->
  (forall s, handling (w_pc w) = Some s ->
     cs' !! w_task w = cs !! w_task w /\ k' (w_task w) = k (w_task w)) ->
  tasks_advance cs k cs' k' issued -> (S <= issued)%nat ->
  (F <= F')%nat -> (S <= S')%nat -> (C <= C')%nat ->
  worker_ok cfg h' cs' k' F' S' C' w.
Proof.
  intros (H1 & H2 & H3 & H4 & H5) Hd Hown Hadv HS HF HS' HC.
  split_and!; [lia|lia|done| |].
  { intros s Hs. destruct (H4 s Hs). lia. }
  destruct (w_pc w) as [| |s|s|s|s vdep|s vdep| |t| |] eqn:Epc; simpl in *; try done;
    destruct (Hown s eq_refl) as [E1 E2]; unfold at_work in *; rewrite E1, E2.
  - exact H5.
  - exact H5.
  - destruct H5 as (c & v & H & Hp & Hv). exists c, v.
    split; [exact H|split; [by eapply past_ver_kept|lia]].
  - destruct H5 as (c & H & Hp & Hv). exists c.
    split; [exact H|split; [by eapply past_ver_kept|done]].
  - destruct H5 as (c & H & Hp & Hv & Hdep). exists c.
    split; [exact H|split; [by eapply past_ver_kept|split; [done|]]].
    intros d Hdd Hr. destruct (H4 s eq_refl).
    destruct (Hadv vdep d) as (d0 & Hd0 & Hr0 & Hle); [lia|done|done|].
    specialize (Hdep d0 Hd0 Hr0). lia.
Qed.

(** A worker that handles a running task is ahead of the pipeline. *)
Lemma handling_k h cs k F S C w s c :
  worker_ok cfg h cs k F S C w -> handling (w_pc w) = Some s ->
  cs !! w_task w = Some c -> st c = ST_RUNNING -> (num_pipes_ cfg < k (w_task w))%nat.
Proof.
  intros (_ & _ & _ & H4 & H5) Hs Hc Hr. destruct (H4 s Hs) as [Hs1 _].
  destruct (w_pc w); simpl in *; simplify_eq; unfold at_work in *.
  - specialize (H5 c Hc Hr). lia.
  - destruct H5 as (d & ? & ? & ?). lia.
  - destruct H5 as (d & v & (? & ? & ?) & _). lia.
  - destruct H5 as (d & (? & ? & ?) & _). lia.
  - destruct H5 as (d & (? & ? & ?) & _). lia.
Qed.

Lemma coll_mono cs k cs' k' issued issued' C c :
  coll_inv cs issued C c -> tasks_advance cs k cs' k' issued -> (issued <= issued')%nat ->
  coll_inv cs' issued' C c.
Proof.
  intros [H1 H2 H3] Hadv Hle. split; [done|lia|]. intros u d Hd Hu.
  destruct (st d) eqn:E; [|done]. destruct (Hadv u d) as (d0 & Hd0 & Hr & _); [lia|done|done|].
  specialize (H3 u d0 Hd0 Hu). congruence.
Qed.

Lemma workers_mono h cs k F S C h' cs' k' S' C' issued ws :
  worker_inv cfg h cs k F S C ws -> data_kept h h' ->
  (forall w s, w ∈ ws -> handling (w_pc w) = Some s ->
     cs' !! w_task w = cs !! w_task w /\ k' (w_task w) = k (w_task w)) ->
  tasks_advance cs k cs' k' issued -> run_back cs cs' -> (S <= issued)%nat ->
  (S <= S')%nat -> (C <= C')%nat ->
  worker_inv cfg h' cs' k' F S' C' ws.
Proof.
  intros [L O D X] Hd Hown Hadv Hback HS HS' HC.
  split; [done| |done|].
  2: { intros u c' Hu Hc' Hr'. destruct (Hback u c' Hc' Hr') as (c & Hc & Hr). eauto. }
  intros i w Hw.
  eapply (worker_ok_mono h cs k F S C); [by eapply O|exact Hd| |exact Hadv|done..]. intros s Hs.
  apply (Hown w s); [by eapply list_elem_of_lookup_2|done].
Qed.

(** ** Updating one pipe *)

Lemma sent_insert issued pending pipes id p j :
  (id < length pipes)%nat ->
  sent issued pending (<[id := p]> pipes) j =
    if decide (j = S id) then (p_pos p - 1)%nat else sent issued pending pipes j.
Proof.
  intros Hlt. destruct j as [|j]; simpl; [done|]. destruct (decide (S j = S id)) as [[= ->]|Hne].
  - by rewrite list_lookup_insert_eq.
  - rewrite list_lookup_insert_ne by congruence. done.
Qed.

Lemma consumed_insert pipes b id p j :
  (id < length pipes)%nat ->
  consumed (<[id := p]> pipes) b j = if decide (j = id) then taken p else consumed pipes b j.
Proof.
  intros Hlt. unfold consumed. destruct (decide (j = id)) as [->|Hne].
  - by rewrite list_lookup_insert_eq.
  - by rewrite list_lookup_insert_ne.
Qed.

Lemma passed_insert pipes id p j u :
  (id < length pipes)%nat ->
  passed (<[id := p]> pipes) j u <->
    if decide (j = id) then (u < p_pos p)%nat \/ u = p_pos p /\ p_pc p = PSend
    else passed pipes j u.
Proof.
  intros Hlt. unfold passed. destruct (decide (j = id)) as [->|Hne].
  - rewrite list_lookup_insert_eq by done. naive_solver.
  - by rewrite list_lookup_insert_ne.
Qed.

Lemma passed_lookup pipes id p u :
  pipes !! id = Some p ->
  passed pipes id u <-> (u < p_pos p)%nat \/ u = p_pos p /\ p_pc p = PSend.
Proof. intros Hp. unfold passed. rewrite Hp. naive_solver. Qed.

(** ** The client *)

Definition keeps (ops : list (operation * Z)) (σ : sched) : Prop :=
  exists k, inv cfg t0 σ k ops.

Lemma sent_issue issued pipes j :
  sent (S issued) true pipes j = sent issued false pipes j.
Proof. destruct j; simpl; [lia|done]. Qed.

Lemma sent_push issued pipes j :
  (1 <= issued)%nat ->
  sent issued false pipes j =
    (sent issued true pipes j + if decide (j = 0) then 1 else 0)%nat.
Proof. destruct j; simpl; lia. Qed.

Lemma inv_issue σ k ops c c' oe h' :
  inv cfg t0 σ k ops -> s_pending σ = false -> (s_issued σ < N)%nat ->
  s_ctxs σ !! S (s_issued σ) = Some new_context ->
  op c = oe.1 -> (oe.1 = OP_NONE -> st c' = ST_DONE) ->
  issue_post fuel (s_heap σ) (s_ctxs σ) k (S (s_issued σ)) c c'
    (t_apply (cfg_hash cfg) (S (s_issued σ)) oe (version cfg t0 ops (s_issued σ))) h' ->
  inv cfg t0 (set_issued (S (s_issued σ)) true (set_ctx (S (s_issued σ)) c' (set_heap h' σ)))
    (upd_k k (S (s_issued σ)) 1) (ops ++ [oe]).
Proof.
  intros [IM IT IK IW IC IE] Hpend Hlt Hnew Hop Hnone Hpost. rewrite Hpend in *.
  assert (HS := submitted_le_issued IT).
  assert (Hadv := advance_issue (s_ctxs σ) k (s_issued σ) c' 1).
  split; simpl.
  - by eapply (mem_issue cfg t0); [exact IM|exact Hlt|exact Hnew|exact Hop|exact Hnone|].
  - destruct IT as [A B C D St E F]. split.
    + done.
    + intros j Hj. rewrite sent_issue. by apply B.
    + intros id p Hp. rewrite sent_issue. by apply C.
    + rewrite sent_issue. done.
    + done.
    + lia.
    + done.
  - assert (forall u d, (1 <= u <= S (s_issued σ))%nat ->
      <[S (s_issued σ) := c']> (s_ctxs σ) !! u = Some d -> st d = ST_RUNNING ->
      u = S (s_issued σ) /\ upd_k k (S (s_issued σ)) 1 u = 1%nat \/
      (u <= s_issued σ)%nat /\ s_ctxs σ !! u = Some d /\ upd_k k (S (s_issued σ)) 1 u = k u)
      as Hcases.
    { intros u d Hu Hd Hr. unfold upd_k. destruct (decide (u = S (s_issued σ))) as [->|Hne].
      - by left.
      - right. rewrite list_lookup_insert_ne in Hd by done. split_and!; [lia|done|done]. }
    split.
    + intros u d Hu Hd Hr id Hid. destruct (Hcases u d Hu Hd Hr) as [[-> ->]|(Hle & Hd' & ->)].
      * split; [|lia]. intros (p & Hp & Hpos).
        destruct (ti_pipe _ _ _ _ _ _ _ IT id p Hp) as (H1 & H2 & H3).
        pose proof (sent_le_issued IT id ltac:(lia)).
        destruct Hpos as [?|[? E]]; [lia|]. rewrite E in H3. lia.
      * apply (ki_passed _ _ _ _ _ _ IK u d); [lia|done|done|done].
    + intros u d Hu Hd Hr. destruct (Hcases u d Hu Hd Hr) as [[-> ->]|(Hle & Hd' & ->)]; [left; lia|].
      apply (ki_bound _ _ _ _ _ _ IK u d); [lia|done|done].
  - destruct Hpost as (_ & _ & _ & _ & _ & _ & _ & Hd).
    eapply (workers_mono (s_heap σ) (s_ctxs σ) k);
      [exact IW|exact Hd| |exact Hadv|by apply (run_back_insert _ _ new_context)|done..].
    intros w s Hw Hs. apply list_elem_of_lookup in Hw as [i Hw].
    destruct (wi_ok _ _ _ _ _ _ _ _ IW i w Hw) as (_ & _ & _ & H4 & _).
    destruct (H4 s Hs) as [_ Hle]. unfold upd_k. rewrite decide_False by lia.
    by rewrite list_lookup_insert_ne by lia.
  - eapply coll_mono; [done|done|lia].
  - done.
Qed.

Lemma committed_done σ k ops v d :
  inv cfg t0 σ k ops -> s_ctxs σ !! v = Some d -> (v <= s_committed σ)%nat -> st d = ST_DONE.
Proof.
  intros I Hd Hv. destruct (inv_coll _ _ _ _ _ I) as [H1 H2 H3]. eapply H3; [done|lia].
Qed.

Lemma ctx_exists σ k ops v :
  inv cfg t0 σ k ops -> (v <= N)%nat -> exists c, s_ctxs σ !! v = Some c.
Proof.
  intros I Hv. apply lookup_lt_is_Some_2. rewrite (mi_len _ _ _ _ _ _ _ (inv_mem _ _ _ _ _ I)).
  unfold N in *. lia.
Qed.

Lemma init_context_safe o e σ k ops :
  vers_le 0 t0 -> vers_mono t0 -> (size t0 + N < fuel)%nat ->
  inv cfg t0 σ k ops -> (s_issued σ < N)%nat ->
  ok_outcome (keeps (ops ++ [(o, e)])) (init_context_ cfg o e σ).
Proof.
  intros Hvers0 Hmono0 Hfuel I Hlt. unfold init_context_. destruct (s_pending σ) eqn:Hpend; [done|].
  destruct (ctx_exists _ _ _ (S (s_issued σ)) I) as [c Hc]; [lia|].
  destruct (ctx_exists _ _ _ (s_issued σ) I) as [prev Hprev]; [lia|].
  assert (IM := inv_mem _ _ _ _ _ I).
  assert (c = new_context) as -> by (by apply (mi_new _ _ _ _ _ _ _ IM (S (s_issued σ))); [|lia]).
  assert (Hroot := mi_root _ _ _ _ _ _ _ IM (s_issued σ) prev (le_n _) Hprev).
  assert (Hgood := version_good cfg t0 ops (s_issued σ) Hvers0 Hmono0 Hfuel (Nat.lt_le_incl _ _ Hlt)).
  eapply ok_get; [exact Hc|]. eapply ok_get; [exact Hprev|]. cbv zeta.
  assert (forall o', o' <> OP_NONE ->
    let ctx := set_t_past (root prev) (set_task o' (S (s_issued σ)) (cfg_hash cfg e) e new_context) in
    ok_outcome (keeps (ops ++ [(o', e)]))
      (run (update_ (cfg_fuel cfg) (s_committed σ) ctx) σ (fun r σ' =>
         Next (set_issued (S (s_issued σ)) true
           (set_ctx (S (s_issued σ)) (set_t_cur r.1 (set_root r.1 r.2)) σ'))))) as Hupd.
  { intros o' Ho' ctx. eapply ok_run.
    - assert (Hopen := mi_open _ _ _ _ _ _ _ IM).
      eapply (issue_update fuel (s_heap σ) (s_ctxs σ) k (S (s_issued σ)) new_context ctx
        (s_committed σ) (root prev) (version cfg t0 ops (s_issued σ))); try done.
      intros u d Hd Hu. by eapply committed_done.
    - intros [p c'] h' Hpost. simpl in *. eexists. eapply (inv_issue σ k ops ctx); try done.
      by destruct o'. }
  destruct o; [|by apply (Hupd OP_INSERT)|by apply (Hupd OP_DELETE)].
  eexists. eapply (inv_issue σ k ops (set_task OP_NONE (S (s_issued σ)) 0 0 new_context) _ (OP_NONE, e)
    (s_heap σ)); try done.
  apply issue_nop; [exact Hc|done|apply IM|exact Hroot].
Qed.

(** ** Tokens *)

Lemma pipe_ok_mono s s' p : pipe_ok cfg s p -> (s <= s')%nat -> pipe_ok cfg s' p.
Proof. intros (H1 & H2 & H3) Hle. split_and!; try lia. destruct (p_pc p); lia || done. Qed.

Lemma tok_set_pipe tokens tokens' pipes b issued submitted pending id p p' :
  tok_inv cfg tokens pipes b issued submitted pending -> pipes !! id = Some p ->
  (p_pos p <= p_pos p')%nat -> pipe_ok cfg (sent issued pending pipes id) p' ->
  (forall j, (j <= P)%nat ->
     tokens' !! j = Some (wrap64 (Z.of_nat (sent issued pending (<[id := p']> pipes) j)
                                  - Z.of_nat (consumed (<[id := p']> pipes) b j)))) ->
  tok_inv cfg tokens' (<[id := p']> pipes) b issued submitted pending.
Proof.
  intros [A B C D St E F] Hp Hpos Hok Htok. pose proof (lookup_lt_Some _ _ _ Hp) as Hlt.
  assert (forall j, (sent issued pending pipes j <= sent issued pending (<[id := p']> pipes) j)%nat)
    as Hmono.
  { intros j. rewrite sent_insert by done. destruct (decide (j = S id)) as [->|]; [|done].
    simpl. rewrite Hp. lia. }
  split; [by rewrite length_insert|done| | |done|done|done].
  - intros j q Hq. eapply pipe_ok_mono; [|apply Hmono]. destruct (decide (j = id)) as [->|Hne].
    + rewrite list_lookup_insert_eq in Hq by done. by simplify_eq.
    + rewrite list_lookup_insert_ne in Hq by done. by apply C.
  - specialize (Hmono (num_pipes_ cfg)). lia.
Qed.

(** A pipe that stays at its position and takes [n] tokens of its stage. *)
Lemma tok_set_pc tokens pipes b issued submitted pending id p pc' z n :
  tok_inv cfg tokens pipes b issued submitted pending -> pipes !! id = Some p ->
  tokens !! id = Some z ->
  Z.of_nat (taken (mk_pipe (p_pos p) pc')) = Z.of_nat (taken p) + n ->
  pipe_ok cfg (sent issued pending pipes id) (mk_pipe (p_pos p) pc') ->
  tok_inv cfg (<[id := wrap64 (z - n)]> tokens) (<[id := mk_pipe (p_pos p) pc']> pipes)
    b issued submitted pending.
Proof.
  intros HT Hp Hz Hn Hok. eapply tok_set_pipe; [done|done|done|done|]. intros j Hj.
  pose proof (lookup_lt_Some _ _ _ Hp) as Hlt. pose proof (lookup_lt_Some _ _ _ Hz) as Hlt'.
  assert (id <= P)%nat as HidP.
  { pose proof (ti_pipes _ _ _ _ _ _ _ HT) as HlP. unfold P. lia. }
  rewrite sent_insert, consumed_insert by done.
  assert ((if decide (j = S id) then p_pos (mk_pipe (p_pos p) pc') - 1 else sent issued pending pipes j)%nat
    = sent issued pending pipes j) as ->.
  { destruct (decide (j = S id)) as [->|]; [|done]. simpl. by rewrite Hp. }
  destruct (decide (j = id)) as [->|Hne].
  - rewrite list_lookup_insert_eq by done. rewrite (ti_tokens _ _ _ _ _ _ _ HT id HidP) in Hz.
    simplify_eq. f_equal. rewrite <- Z.add_opp_r, wrap64_add_l. f_equal.
    unfold consumed. rewrite Hp. lia.
  - rewrite list_lookup_insert_ne by done. by apply (ti_tokens _ _ _ _ _ _ _ HT).
Qed.

Lemma tok_push tokens pipes pipes' b issued submitted pending pending' j0 z :
  tok_inv cfg tokens pipes b issued submitted pending -> tokens !! j0 = Some z -> (j0 <= P)%nat ->
  length pipes' = P ->
  (forall j, (j <= P)%nat -> sent issued pending' pipes' j =
     (sent issued pending pipes j + if decide (j = j0) then 1 else 0)%nat) ->
  (forall j, (j <= P)%nat -> consumed pipes' b j = consumed pipes b j) ->
  (forall id p, pipes' !! id = Some p -> pipe_ok cfg (sent issued pending' pipes' id) p) ->
  (pending' = true -> pending = true) ->
  tok_inv cfg (<[j0 := wrap64 (z + 1)]> tokens) pipes' b issued submitted pending'.
Proof.
  intros [A B C D St E F] Hz Hj0 Hlen Hsent Hcons Hok Hpend. split; [done| |done| |done|auto|done].
  - intros j Hj. rewrite Hsent, Hcons by done. destruct (decide (j = j0)) as [->|Hne].
    + rewrite list_lookup_insert_eq by (by eapply lookup_lt_Some).
      rewrite (B j0 Hj0) in Hz. simplify_eq. rewrite wrap64_add_l. do 2 f_equal. lia.
    + rewrite list_lookup_insert_ne, Nat.add_0_r by done. by apply B.
  - rewrite Hsent by done. unfold P in *. lia.
Qed.

Lemma task_inv_pipes cs k issued pipes pipes' ws :
  task_inv cfg cs k issued pipes ws ->
  (forall id u, (1 <= u)%nat -> passed pipes' id u <-> passed pipes id u) ->
  task_inv cfg cs k issued pipes' ws.
Proof.
  intros [A B] Heq. split; [|done]. intros u c Hu Hc Hr id Hid. rewrite Heq by lia. by eapply A.
Qed.

Lemma init_push_safe σ k ops :
  inv cfg t0 σ k ops -> ok_outcome (keeps ops) (init_push_ σ).
Proof.
  intros I. assert (I' := I). destruct I' as [IM IT IK IW IC IE]. unfold init_push_, push_token.
  destruct (s_pending σ) eqn:Hpend; [|done].
  eapply ok_get; [apply (ti_tokens _ _ _ _ _ _ _ IT); lia|]. exists k. split; simpl; try done.
  eapply tok_push; [exact IT|apply (ti_tokens _ _ _ _ _ _ _ IT); lia|lia|apply IT| |done| |done].
  - intros j Hj. apply sent_push. by apply (ti_pending _ _ _ _ _ _ _ IT).
  - intros id p Hp. eapply pipe_ok_mono; [by eapply (ti_pipe _ _ _ _ _ _ _ IT)|].
    rewrite sent_push; [lia|]. by apply (ti_pending _ _ _ _ _ _ _ IT).
Qed.

(** ** A task step seen by the other threads *)

Lemma workers_step h cs k F S C h' u c c' issued ws :
  worker_inv cfg h cs k F S C ws -> (S <= issued)%nat ->
  cs !! u = Some c -> st c = ST_RUNNING -> step_post fuel h cs k u c c' h' ->
  (forall w s, w ∈ ws -> handling (w_pc w) = Some s -> w_task w <> u) ->
  worker_inv cfg h' (<[u := c']> cs) (upd_k k u (Datatypes.S (k u))) F S C ws.
Proof.
  intros IW HS Hu Hst (_ & _ & _ & _ & Hd) Hown.
  eapply (workers_mono h cs k);
    [exact IW|exact Hd| |by apply (advance_step _ _ issued _ c)|by apply (run_back_insert _ _ c)|done..].
  intros w s Hw Hs. specialize (Hown w s Hw Hs).
  unfold upd_k. rewrite decide_False by done. by rewrite list_lookup_insert_ne by done.
Qed.

(** Two tasks that are running at the depth of pipe [id]'s task: the other one
    has not been passed by pipe [id] either. *)
Lemma pipe_sync σ k ops id p c n d :
  inv cfg t0 σ k ops -> s_pipes σ !! id = Some p -> p_pc p = PExec ->
  s_ctxs σ !! p_pos p = Some c -> st c = ST_RUNNING ->
  (n < p_pos p)%nat -> s_ctxs σ !! n = Some d -> st d = ST_RUNNING ->
  k n <> k (p_pos p).
Proof.
  intros [IM IT IK IW IC IE] Hp Hpc Hc Hr Hlt Hd Hrd E.
  destruct (ti_pipe _ _ _ _ _ _ _ IT id p Hp) as (Hpos & _ & Hsent). rewrite Hpc in Hsent.
  assert (id < num_pipes_ cfg)%nat as Hid
    by (rewrite <- (ti_pipes _ _ _ _ _ _ _ IT); by eapply lookup_lt_Some).
  pose proof (sent_le_issued IT id ltac:(lia)) as Hle.
  assert (1 <= n)%nat as Hn.
  { destruct n; [|lia]. destruct (mi_run _ _ _ _ _ _ _ IM 0%nat d) as (? & _); done || lia. }
  assert (~ passed (s_pipes σ) id (p_pos p)) as H1.
  { rewrite (passed_lookup _ _ _ _ Hp), Hpc. intros [?|[_ ?]]; [lia|done]. }
  assert (passed (s_pipes σ) id n) as H2 by (rewrite (passed_lookup _ _ _ _ Hp); by left).
  rewrite (ki_passed _ _ _ _ _ _ IK (p_pos p) c) in H1 by (done || lia).
  rewrite (ki_passed _ _ _ _ _ _ IK n d) in H2 by (done || lia). lia.
Qed.

Lemma pipe_depth σ k ops id p c :
  inv cfg t0 σ k ops -> s_pipes σ !! id = Some p -> p_pc p = PExec ->
  s_ctxs σ !! p_pos p = Some c -> st c = ST_RUNNING ->
  (id < P)%nat /\ (1 <= p_pos p <= s_issued σ)%nat /\ k (p_pos p) = S id.
Proof.
  intros [IM IT IK IW IC IE] Hp Hpc Hc Hr.
  destruct (ti_pipe _ _ _ _ _ _ _ IT id p Hp) as (Hpos & _ & Hsent). rewrite Hpc in Hsent.
  assert (id < num_pipes_ cfg)%nat as Hid
    by (rewrite <- (ti_pipes _ _ _ _ _ _ _ IT); by eapply lookup_lt_Some).
  pose proof (sent_le_issued IT id ltac:(lia)) as Hle. split_and!; [done|lia|lia|].
  assert (~ passed (s_pipes σ) id (p_pos p)) as H1.
  { rewrite (passed_lookup _ _ _ _ Hp), Hpc. intros [?|[_ ?]]; [lia|done]. }
  rewrite (ki_passed _ _ _ _ _ _ IK (p_pos p) c) in H1 by (done || lia).
  destruct (mi_run _ _ _ _ _ _ _ IM (p_pos p) c) as (_ & _ & _ & Hk & _); [done|lia|done|].
  destruct id as [|id]; [lia|].
  assert (passed (s_pipes σ) id (p_pos p)) as H2 by (apply (sent_passed IT); lia).
  rewrite (ki_passed _ _ _ _ _ _ IK (p_pos p) c) in H2 by (done || lia). lia.
Qed.

Lemma pipe_done σ k ops id p :
  inv cfg t0 σ k ops -> s_pipes σ !! id = Some p -> p_pc p = PExec ->
  tok_inv cfg (s_tokens σ) (<[id := mk_pipe (p_pos p) PSend]> (s_pipes σ)) (s_board σ)
    (s_issued σ) (s_submitted σ) (s_pending σ).
Proof.
  intros [IM IT IK IW IC IE] Hp Hpc.
  pose proof (ti_pipe _ _ _ _ _ _ _ IT id p Hp) as (Hpos & Hpos' & Hsent). rewrite Hpc in Hsent.
  assert (id < num_pipes_ cfg)%nat as Hid
    by (rewrite <- (ti_pipes _ _ _ _ _ _ _ IT); by eapply lookup_lt_Some).
  assert (Hz := ti_tokens _ _ _ _ _ _ _ IT id ltac:(lia)).
  assert (Hz' := list_insert_id _ _ _ Hz).
  rewrite <- Hz'. rewrite <- (wrap64_idemp (_ - _)).
  replace (wrap64 (wrap64 _)) with (wrap64 (wrap64
    (Z.of_nat (sent (s_issued σ) (s_pending σ) (s_pipes σ) id)
      - Z.of_nat (consumed (s_pipes σ) (s_board σ) id)) - 0)) by (by rewrite Z.sub_0_r).
  apply (tok_set_pc _ _ _ _ _ _ _ _ _ _ 0 IT Hp Hz).
  - unfold taken. rewrite Hpc. simpl. lia.
  - split_and!; simpl; lia.
Qed.

Lemma passed_exec pipes id p j u :
  pipes !! id = Some p -> p_pc p = PExec ->
  passed (<[id := mk_pipe (p_pos p) PSend]> pipes) j u <->
    passed pipes j u \/ j = id /\ u = p_pos p.
Proof.
  intros Hp Hpc. rewrite passed_insert by (by eapply lookup_lt_Some).
  destruct (decide (j = id)) as [->|]; [|naive_solver].
  rewrite (passed_lookup _ _ _ _ Hp), Hpc. naive_solver.
Qed.

Lemma task_inv_step σ k ops id p c c' :
  inv cfg t0 σ k ops -> s_pipes σ !! id = Some p -> p_pc p = PExec ->
  s_ctxs σ !! p_pos p = Some c -> st c = ST_RUNNING ->
  task_inv cfg (<[p_pos p := c']> (s_ctxs σ)) (upd_k k (p_pos p) (S (k (p_pos p))))
    (s_issued σ) (<[id := mk_pipe (p_pos p) PSend]> (s_pipes σ)) (s_workers σ).
Proof.
  intros I Hp Hpc Hc Hr. destruct (pipe_depth _ _ _ _ _ _ I Hp Hpc Hc Hr) as (Hid & Hpos & Hk).
  assert (IK := inv_task _ _ _ _ _ I). unfold P in Hid. split.
  - intros u d Hu Hd Hrd j Hj. rewrite (passed_exec _ _ _ _ _ Hp Hpc). unfold upd_k.
    destruct (decide (u = p_pos p)) as [->|Hne].
    + rewrite (ki_passed _ _ _ _ _ _ IK (p_pos p) c) by done. rewrite Hk. lia.
    + rewrite list_lookup_insert_ne in Hd by done.
      rewrite (ki_passed _ _ _ _ _ _ IK u d) by done. naive_solver.
  - intros u d Hu Hd Hrd. unfold upd_k. destruct (decide (u = p_pos p)) as [->|Hne].
    + left. lia.
    + rewrite list_lookup_insert_ne in Hd by done. by apply (ki_bound _ _ _ _ _ _ IK u d).
Qed.

Lemma inv_pipe_step σ k ops id p c c' h' :
  inv cfg t0 σ k ops -> s_pipes σ !! id = Some p -> p_pc p = PExec ->
  s_ctxs σ !! p_pos p = Some c -> st c = ST_RUNNING ->
  step_post fuel (s_heap σ) (s_ctxs σ) k (p_pos p) c c' h' ->
  inv cfg t0 (set_pipe id (mk_pipe (p_pos p) PSend) (set_ctx (p_pos p) c' (set_heap h' σ)))
    (upd_k k (p_pos p) (S (k (p_pos p)))) ops.
Proof.
  intros I Hp Hpc Hc Hr Hpost.
  destruct (pipe_depth _ _ _ _ _ _ I Hp Hpc Hc Hr) as (Hid & Hpos & Hk).
  assert (HT := pipe_done _ _ _ _ _ I Hp Hpc).
  assert (HK := task_inv_step _ _ _ _ _ _ c' I Hp Hpc Hc Hr).
  destruct I as [IM IT IK IW IC IE]. split; simpl.
  - eapply mem_task_step; [exact IM|exact Hc|lia|done|exact Hpost].
  - exact HT.
  - exact HK.
  - eapply workers_step; [exact IW|exact (submitted_le_issued IT)|exact Hc|done|exact Hpost|].
    intros w s Hw Hs E. apply list_elem_of_lookup in Hw as [i Hw].
    pose proof (wi_ok _ _ _ _ _ _ _ _ IW i w Hw) as Hok. subst.
    rewrite <- E in Hc. pose proof (handling_k _ _ _ _ _ _ _ _ _ Hok Hs Hc Hr).
    rewrite E in *. unfold P in *. lia.
  - eapply coll_mono; [exact IC|exact (advance_step _ k _ _ _ c' Hc Hr)|done].
  - done.
Qed.

Lemma inv_pipe_skip σ k ops id p c :
  inv cfg t0 σ k ops -> s_pipes σ !! id = Some p -> p_pc p = PExec ->
  s_ctxs σ !! p_pos p = Some c -> st c = ST_DONE ->
  inv cfg t0 (set_pipe id (mk_pipe (p_pos p) PSend) σ) k ops.
Proof.
  intros I Hp Hpc Hc Hr. assert (HT := pipe_done _ _ _ _ _ I Hp Hpc).
  destruct I as [IM IT IK IW IC IE]. split; simpl; try done.
  split; [|by apply IK]. intros u d Hu Hd Hrd j Hj. rewrite (passed_exec _ _ _ _ _ Hp Hpc).
  rewrite (ki_passed _ _ _ _ _ _ IK u d) by done. split; [|by left].
  intros [?|[-> ->]]; [done|]. congruence.
Qed.

Lemma inv_pipe_send σ k ops id p z :
  inv cfg t0 σ k ops -> s_pipes σ !! id = Some p -> p_pc p = PSend ->
  (p_pos p <= N)%nat -> s_tokens σ !! S id = Some z ->
  inv cfg t0 (set_pipe id (mk_pipe (S (p_pos p)) PFetch) (set_token (S id) (wrap64 (z + 1)) σ))
    k ops.
Proof.
  intros [IM IT IK IW IC IE] Hp Hpc Hle Hz. pose proof (lookup_lt_Some _ _ _ Hp) as Hlt.
  pose proof (ti_pipe _ _ _ _ _ _ _ IT id p Hp) as (Hpos & Hpos' & Hsent). rewrite Hpc in Hsent.
  assert (Hlen := ti_pipes _ _ _ _ _ _ _ IT).
  assert (forall j, sent (s_issued σ) (s_pending σ)
      (<[id := mk_pipe (S (p_pos p)) PFetch]> (s_pipes σ)) j =
    (sent (s_issued σ) (s_pending σ) (s_pipes σ) j + if decide (j = S id) then 1 else 0)%nat)
    as Hs.
  { intros j. rewrite sent_insert by done. destruct (decide (j = S id)) as [->|]; [|lia].
    simpl. rewrite Hp. lia. }
  split; simpl; try done.
  - eapply tok_push; [exact IT|exact Hz|unfold P in *; lia|by rewrite length_insert|done| | |done].
    + intros j Hj. rewrite consumed_insert by done. destruct (decide (j = id)) as [->|]; [|done].
      unfold consumed, taken. rewrite Hp, Hpc. simpl. lia.
    + intros j q Hq. rewrite Hs. destruct (decide (j = id)) as [->|Hne].
      * rewrite list_lookup_insert_eq in Hq by done. simplify_eq.
        unfold N in *. split_and!; simpl; lia || done.
      * rewrite list_lookup_insert_ne in Hq by done.
        eapply pipe_ok_mono; [by eapply (ti_pipe _ _ _ _ _ _ _ IT)|lia].
  - eapply task_inv_pipes; [exact IK|]. intros j u Hu. rewrite passed_insert by done.
    destruct (decide (j = id)) as [->|]; [|done].
    rewrite (passed_lookup _ _ _ _ Hp), Hpc. simpl.
    destruct (decide (u = p_pos p)) as [->|]; [naive_solver lia|].
    split; [intros [?|[_ ?]]; [left; lia|done]|intros [?|[-> _]]; [left; lia|done]].
Qed.

Lemma pipe_thread_safe id σ k ops :
  inv cfg t0 σ k ops -> (id < P)%nat -> ok_outcome (keeps ops) (pipe_thread_ cfg id σ).
Proof.
  intros I Hid. assert (I' := I). destruct I' as [IM IT IK IW IC IE]. unfold pipe_thread_.
  destruct (lookup_lt_is_Some_2 (s_pipes σ) id) as [p Hp].
  { rewrite (ti_pipes _ _ _ _ _ _ _ IT). done. }
  pose proof (lookup_lt_Some _ _ _ Hp) as Hlt.
  eapply ok_get; [exact Hp|]. cbv zeta. destruct (Nat.ltb_spec (num_tasks_ cfg) (p_pos p)); [done|].
  assert (Hz := ti_tokens _ _ _ _ _ _ _ IT id ltac:(unfold P in *; lia)).
  pose proof (ti_pipe _ _ _ _ _ _ _ IT id p Hp) as (Hpos & Hpos' & Hsent).
  destruct (p_pc p) eqn:Hpc.
  - (* fetch a token *)
    eapply ok_get; [exact Hz|]. exists k. set (z := wrap64 _) in *.
    assert (consumed (s_pipes σ) (s_board σ) id = (p_pos p - 1)%nat) as Hc.
    { unfold consumed. rewrite Hp. unfold taken. by rewrite Hpc. }
    assert (tok_inv cfg (<[id := wrap64 (z - 1)]> (s_tokens σ))
      (<[id := mk_pipe (p_pos p) (if z =? 0 then PWait else PExec)]> (s_pipes σ)) (s_board σ)
      (s_issued σ) (s_submitted σ) (s_pending σ)) as HT.
    { eapply tok_set_pc; [exact IT|exact Hp|exact Hz| |].
      - unfold taken. rewrite Hpc. simpl. destruct (z =? 0); lia.
      - split_and!; simpl; [lia|lia|lia|]. destruct (Z.eqb_spec z 0) as [|Hne]; [done|].
        destruct (decide (p_pos p <= sent (s_issued σ) (s_pending σ) (s_pipes σ) id)%nat); [done|].
        destruct Hne. unfold z. rewrite Hc.
        replace (sent _ _ _ _) with (p_pos p - 1)%nat by lia. by rewrite Z.sub_diag. }
    split; simpl; try done. eapply task_inv_pipes; [exact IK|]. intros j u Hu.
    rewrite passed_insert by done. destruct (decide (j = id)) as [->|]; [|done].
    rewrite (passed_lookup _ _ _ _ Hp), Hpc. simpl. destruct (z =? 0); naive_solver.
  - (* wait for a token *)
    eapply ok_get; [exact Hz|]. set (z := wrap64 _) in *.
    destruct (Z.eqb_spec z size_max) as [|Hne]; [done|]. exists k.
    assert (consumed (s_pipes σ) (s_board σ) id = p_pos p) as Hc.
    { unfold consumed. rewrite Hp. unfold taken. by rewrite Hpc. }
    assert (p_pos p <= sent (s_issued σ) (s_pending σ) (s_pipes σ) id)%nat as Hle.
    { rewrite <- Hc. apply (token_max (cfg := cfg)); [unfold P in *; lia|rewrite Hc; lia|done]. }
    assert (tok_inv cfg (s_tokens σ)
      (<[id := mk_pipe (p_pos p) PExec]> (s_pipes σ)) (s_board σ)
      (s_issued σ) (s_submitted σ) (s_pending σ)) as HT.
    { rewrite <- (list_insert_id (s_tokens σ) id z Hz).
      replace z with (wrap64 (z - 0)) at 1 by (rewrite Z.sub_0_r; apply wrap64_idemp).
      eapply tok_set_pc; [exact IT|exact Hp|exact Hz| |split_and!; simpl; lia].
      unfold taken. rewrite Hpc. simpl. lia. }
    split; simpl; try done. eapply task_inv_pipes; [exact IK|]. intros j u Hu.
    rewrite passed_insert by done. destruct (decide (j = id)) as [->|]; [|done].
    rewrite (passed_lookup _ _ _ _ Hp), Hpc. simpl. naive_solver.
  - (* execute a step *)
    destruct (ctx_exists _ _ _ (p_pos p) I) as [c Hc]; [done|].
    eapply ok_get; [exact Hc|]. destruct (st c) eqn:Hr; [|exists k; by eapply inv_pipe_skip].
    destruct (pipe_depth _ _ _ _ _ _ I Hp Hpc Hc Hr) as (_ & Hin & Hk).
    eapply ok_run.
    + eapply pipe_exec_spec; [exact IM|exact Hc|lia|done| |].
      * intros v d Hd Hv. by eapply committed_done.
      * intros a n d _ _ Hn Hd Hrd. by eapply (pipe_sync σ k ops id p c).
    + intros c' h' Hpost. eexists. by eapply inv_pipe_step.
  - (* send a token *)
    assert (Hz' := ti_tokens _ _ _ _ _ _ _ IT (S id) ltac:(unfold P in *; lia)).
    unfold push_token. eapply ok_get; [exact Hz'|]. exists k. by eapply inv_pipe_send.
Qed.
End safe.
