(* ===== verification/SchedulerWork.v ===== *)
(** * Boarder, workers and collector keep the invariant

    The remaining threads of [src/lib/treap/scheduler.hpp], and the invariant of
    every history of the scheduler. *)

From S2P Require Import Prelude TreapTree TreapNode TreapUpdate TreapQuery Scheduler.
From S2P Require Import SchedulerTree SchedulerMem SchedulerInv SchedulerSafe.

Section work.
Context (cfg : config) (t0 : tree).

Let N : nat := num_tasks_ cfg.
Let P : nat := num_pipes_ cfg.
Let fuel : nat := cfg_fuel cfg.

(** ** Boarder *)

Lemma boarder_thread_safe σ k ops :
  Z.of_nat N < two64 - 1 ->
  inv cfg t0 σ k ops -> ok_outcome (keeps cfg t0 ops) (boarder_thread_ cfg σ).
Proof.
  intros HN64 [IM IT IK IW IC IE]. unfold boarder_thread_. destruct (b_store (s_board σ)).
  { exists k. destruct IT as [A B C D St E F]. split; simpl; try done.
    - split; simpl; try done. lia.
    - eapply (workers_mono cfg _ (s_ctxs σ) k); [exact IW|apply data_kept_refl|done
        |apply (advance_refl _ _ (s_submitted σ))|apply run_back_refl|done|lia|done]. }
  destruct (_ <? _)%nat; [|done].
  assert (Hz := ti_tokens _ _ _ _ _ _ _ IT P (le_n _)).
  eapply ok_get; [exact Hz|]. set (z := wrap64 _) in *.
  destruct (Z.ltb_spec 0 z) as [Hpos|]; [|done]. exists k.
  destruct IT as [A B C D St E F].
  assert (forall b, consumed (s_pipes σ) b P = b_local b) as Hcons.
  { intros b. unfold consumed. rewrite lookup_ge_None_2; [done|]. unfold P in *. lia. }
  assert (Hle := sent_le_issued (Build_tok_inv _ _ _ _ _ _ _ A B C D St E F) P (le_n _)).
  assert (z = Z.of_nat (sent (s_issued σ) (s_pending σ) (s_pipes σ) P) - Z.of_nat (b_local (s_board σ)))
    as Ez.
  { unfold z. rewrite Hcons. apply wrap64_small. unfold u64, P, N in *. lia. }
  split; simpl; try done. split; simpl; try done; [|unfold P in *; lia].
  intros j Hj. destruct (decide (j = P)) as [->|Hne].
  - rewrite list_lookup_insert_eq by (by eapply lookup_lt_Some). rewrite Hcons. simpl.
    replace (Z.of_nat (sent _ _ _ P) - Z.of_nat _) with 0 by lia. done.
  - rewrite list_lookup_insert_ne by done. rewrite (B j Hj). unfold consumed.
    destruct (lookup_lt_is_Some_2 (s_pipes σ) j) as [q ->]; [unfold P in *; lia|done].
Qed.

(** ** Collector *)

Lemma collector_thread_safe σ k ops :
  inv cfg t0 σ k ops -> ok_outcome (keeps cfg t0 ops) (collector_thread_ cfg σ).
Proof.
  intros I. assert (I' := I). destruct I' as [IM IT IK IW IC IE]. unfold collector_thread_. cbv zeta.
  destruct (_ <? _)%nat; [|done]. destruct IC as [C1 C2 C3].
  assert (ok_outcome (keeps cfg t0 ops)
    (if (c_local (s_coll σ) <? c_next (s_coll σ))%nat
     then Next (set_coll (mk_collector (c_next (s_coll σ)) (c_next (s_coll σ)))
                 (set_committed (c_next (s_coll σ)) σ)) else Wait)) as Hcommit.
  { destruct (_ <? _)%nat; [|done]. exists k. split; simpl; try done.
    - eapply (workers_mono cfg _ (s_ctxs σ) k); [exact IW|apply data_kept_refl|done
        |apply (advance_refl _ _ (s_submitted σ))|apply run_back_refl|done|done|lia].
    - split; simpl; [done|lia|done]. }
  destruct (Nat.ltb_spec (c_next (s_coll σ)) (num_tasks_ cfg)); [|done].
  destruct (ctx_exists _ _ _ _ _ (S (c_next (s_coll σ))) I) as [c Hc]; [lia|].
  eapply ok_get; [exact Hc|]. destruct (is_done c) eqn:Hdone; [|done].
  assert (st c = ST_DONE) as Hst.
  { apply (mi_done _ _ _ _ _ _ _ IM _ _ Hc). unfold is_done in Hdone. by destruct (stage c). }
  exists k. split; simpl; try done. split; simpl; [done| |].
  - split; [lia|]. destruct (decide (S (c_next (s_coll σ)) <= s_issued σ)%nat); [done|].
    rewrite (mi_new _ _ _ _ _ _ _ IM _ _ Hc) in Hst; [done|lia].
  - intros u d Hd Hu. destruct (decide (u = S (c_next (s_coll σ)))) as [->|]; [congruence|].
    eapply C3; [exact Hd|lia].
Qed.

(** ** Workers *)

Lemma workers_set h cs k F S C ws i w w' :
  worker_inv cfg h cs k F S C ws -> ws !! i = Some w ->
  worker_ok cfg h cs k F S C w' ->
  (w_task w' = w_task w \/ forall j v, ws !! j = Some v -> w_task v <> w_task w') ->
  (forall c, holds (w_pc w) = true -> cs !! w_task w = Some c -> st c = ST_RUNNING ->
     holds (w_pc w') = true /\ w_task w' = w_task w) ->
  worker_inv cfg h cs k F S C (<[i := w']> ws).
Proof.
  intros [L O D X] Hi Hok Htask Hkeep. pose proof (lookup_lt_Some _ _ _ Hi) as Hlt.
  split; [by rewrite length_insert| | |].
  - intros j v Hj. destruct (decide (j = i)) as [->|Hne].
    + rewrite list_lookup_insert_eq in Hj by done. by simplify_eq.
    + rewrite list_lookup_insert_ne in Hj by done. by eapply O.
  - intros j j' v v' Hj Hj' E Hpos.
    destruct (decide (j = i)) as [->|Hne], (decide (j' = i)) as [->|Hne'];
      rewrite ?list_lookup_insert_eq, ?list_lookup_insert_ne in Hj by done;
      rewrite ?list_lookup_insert_eq, ?list_lookup_insert_ne in Hj' by done; simplify_eq; [done| | |].
    + destruct Htask as [Ht|Ht]; [|by destruct (Ht j' v' Hj')].
      eapply D; [exact Hi|exact Hj'|congruence|lia].
    + destruct Htask as [Ht|Ht]; [|by destruct (Ht j v Hj)].
      eapply D; [exact Hj|exact Hi|congruence|lia].
    + by eapply D.
  - intros u c Hu Hc Hr. destruct (X u c Hu Hc Hr) as (j & v & Hj & Ht & Hh).
    destruct (decide (j = i)) as [->|Hne].
    + simplify_eq. destruct (Hkeep c Hh Hc Hr). exists i, w'. by rewrite list_lookup_insert_eq.
    + exists j, v. by rewrite list_lookup_insert_ne.
Qed.

Lemma task_inv_worker cs k issued pipes ws i w w' :
  task_inv cfg cs k issued pipes ws -> ws !! i = Some w ->
  (forall s c, handling (w_pc w) = Some s -> cs !! w_task w = Some c -> st c = ST_RUNNING ->
     handling (w_pc w') = Some s /\ w_task w' = w_task w) ->
  task_inv cfg cs k issued pipes (<[i := w']> ws).
Proof.
  intros [A B] Hi Hsame. pose proof (lookup_lt_Some _ _ _ Hi) as Hlt. split; [done|].
  intros u c Hu Hc Hr. destruct (B u c Hu Hc Hr) as [H|(j & v & s & Hj & Ht & Hs & Hk)]; [by left|].
  right. destruct (decide (j = i)) as [->|Hne].
  - simplify_eq. destruct (Hsame s c Hs Hc Hr) as [Hs' Ht'].
    exists i, w', s. rewrite list_lookup_insert_eq by done. done.
  - exists j, v, s. rewrite list_lookup_insert_ne by done. done.
Qed.

(** A step of worker [i] that only changes its own state. *)
Lemma inv_worker_set σ k ops i w w' :
  inv cfg t0 σ k ops -> s_workers σ !! i = Some w ->
  worker_ok cfg (s_heap σ) (s_ctxs σ) k (s_fetched σ) (s_submitted σ) (s_committed σ) w' ->
  w_task w' = w_task w ->
  (forall s c, handling (w_pc w) = Some s -> s_ctxs σ !! w_task w = Some c ->
     st c = ST_RUNNING -> handling (w_pc w') = Some s) ->
  (forall c, holds (w_pc w) = true -> s_ctxs σ !! w_task w = Some c -> st c = ST_RUNNING ->
     holds (w_pc w') = true) ->
  inv cfg t0 (set_worker i w' σ) k ops.
Proof.
  intros [IM IT IK IW IC IE] Hi Hok Ht Hs Hh. split; simpl; try done.
  - eapply task_inv_worker; [exact IK|exact Hi|]. intros s c H1 H2 H3. split; [by eapply Hs|done].
  - eapply workers_set; [exact IW|exact Hi|exact Hok|by left|]. intros c H1 H2 H3.
    split; [by eapply Hh|done].
Qed.

(** The step of task [w_task w] made by worker [i]. *)
Lemma inv_worker_step σ k ops i w s c c' h' :
  inv cfg t0 σ k ops -> s_workers σ !! i = Some w -> handling (w_pc w) = Some s ->
  at_work cfg (s_ctxs σ) k (w_task w) s c ->
  step_post fuel (s_heap σ) (s_ctxs σ) k (w_task w) c c' h' ->
  inv cfg t0 (set_worker i (set_pc (WTest (S s)) w) (set_ctx (w_task w) c' (set_heap h' σ)))
    (upd_k k (w_task w) (S (k (w_task w)))) ops.
Proof.
  intros I Hi Hs (Hc & Hr & Hk) Hpost. assert (I' := I). destruct I' as [IM IT IK IW IC IE].
  destruct (wi_ok _ _ _ _ _ _ _ _ IW i w Hi) as (H1 & H2 & H3 & H4 & H5).
  destruct (H4 s Hs) as [Hs1 Hsub]. pose proof (submitted_le_issued IT) as HSI.
  pose proof (lookup_lt_Some _ _ _ Hi) as Hlt. set (u := w_task w) in *.
  assert (upd_k k u (S (k u)) u = S (k u)) as Eu by (unfold upd_k; by rewrite decide_True).
  assert (forall v, v <> u -> upd_k k u (S (k u)) v = k v) as En
    by (intros; unfold upd_k; by rewrite decide_False).
  pose proof (lookup_lt_Some _ _ _ Hc) as Hcl.
  split; simpl; try done.
  - eapply mem_task_step; [exact IM|exact Hc|lia|done|exact Hpost].
  - split.
    + intros v d Hv Hd Hrd id Hid. destruct (decide (v = u)) as [->|Hne].
      * rewrite Eu. split; [intros _; lia|]. intros _. by apply (submitted_passed IT).
      * rewrite list_lookup_insert_ne in Hd by done. rewrite En by done.
        by apply (ki_passed _ _ _ _ _ _ IK v d).
    + intros v d Hv Hd Hrd. destruct (decide (v = u)) as [->|Hne].
      * rewrite Eu. right. exists i, (set_pc (WTest (S s)) w), (S s).
        rewrite list_lookup_insert_eq by done. split_and!; [done|done|done|lia].
      * rewrite list_lookup_insert_ne in Hd by done. rewrite En by done.
        destruct (ki_bound _ _ _ _ _ _ IK v d Hv Hd Hrd) as [?|(j & w' & s' & Hj & Ht & Hs' & Hk')];
          [by left|]. right. exists j, w', s'. split_and!; try done.
        rewrite list_lookup_insert_ne; [done|]. intros ->. simplify_eq.
  - assert (worker_inv cfg h' (<[u := c']> (s_ctxs σ)) (upd_k k u (S (k u))) (s_fetched σ)
      (s_submitted σ) (s_committed σ) (<[i := set_pc WSubmit w]> (s_workers σ))) as HW.
    { eapply workers_step.
      - eapply workers_set; [exact IW|exact Hi| |by left|done].
        pose proof (mi_issued _ _ _ _ _ _ _ IM). split_and!; [done|done|done|done|simpl; lia..].
      - exact HSI.
      - exact Hc.
      - exact Hr.
      - exact Hpost.
      - intros w' s' Hw' Hs' E. apply list_elem_of_lookup in Hw' as [j Hj].
        destruct (decide (j = i)) as [->|Hne].
        + rewrite list_lookup_insert_eq in Hj by done. by simplify_eq.
        + rewrite list_lookup_insert_ne in Hj by done. apply Hne.
          eapply (wi_distinct _ _ _ _ _ _ _ _ IW); [exact Hj|exact Hi|done|lia]. }
    rewrite <- (list_insert_insert_eq (s_workers σ) i (set_pc (WTest (S s)) w) (set_pc WSubmit w)).
    eapply workers_set; [exact HW|by apply list_lookup_insert_eq| |by left|done].
    split_and!; [done|done|done| |].
    + intros s' [= <-]. simpl. split; [lia|done].
    + simpl. intros d Hd Hrd. fold u. rewrite Eu. lia.
  - eapply (coll_mono cfg); [exact IC|exact (advance_step cfg _ k _ _ _ c' Hc Hr)|done].
Qed.

(** Aggregates are filled in while tasks are running. *)
Lemma inv_aug σ k ops h' :
  inv cfg t0 σ k ops -> aug_only (s_heap σ) h' -> inv cfg t0 (set_heap h' σ) k ops.
Proof.
  intros [IM IT IK IW IC IE] Ha. split; simpl; try done; [by eapply mem_aug|].
  eapply (workers_mono cfg (s_heap σ) (s_ctxs σ) k);
    [exact IW|by apply data_kept_aug|done|apply (advance_refl _ _ (s_submitted σ))
      |apply run_back_refl|done..].
Qed.

Lemma inv_stage σ k ops u c s :
  inv cfg t0 σ k ops -> at_work cfg (s_ctxs σ) k u s c -> (u <= s_submitted σ)%nat ->
  (forall w s, w ∈ s_workers σ -> w_task w = u -> handling (w_pc w) = Some s -> exists s', w_pc w = WTest s') ->
  inv cfg t0 (set_ctx u (set_stage (Stage s) c) σ) k ops.
Proof.
  intros [IM IT IK IW IC IE] (Hc & Hr & Hk) Hu Honly.
  pose proof (submitted_le_issued IT). pose proof (lookup_lt_Some _ _ _ Hc) as Hcl.
  assert (Hadv := advance_stage (s_ctxs σ) k (s_issued σ) u c (Stage s) Hc Hr).
  assert (forall v d, <[u := set_stage (Stage s) c]> (s_ctxs σ) !! v = Some d -> st d = ST_RUNNING ->
    exists d', s_ctxs σ !! v = Some d' /\ st d' = ST_RUNNING) as Hrun.
  { intros v d Hd Hrd. destruct (decide (v = u)) as [->|Hne]; [by exists c|].
    rewrite list_lookup_insert_ne in Hd by done. by exists d. }
  split; simpl; try done.
  - eapply mem_set_stage; [exact IM|exact Hc|lia|done|by rewrite Hk].
  - split; intros v d Hv Hd Hrd; destruct (Hrun v d Hd Hrd) as (d' & Hd' & Hrd').
    + by eapply (ki_passed _ _ _ _ _ _ IK v d').
    + by eapply (ki_bound _ _ _ _ _ _ IK v d').
  - destruct IW as [L O D X]. split; [done| |done|].
    2: { intros v d Hv Hd Hrd. destruct (Hrun v d Hd Hrd) as (d' & Hd' & Hrd'). eauto. }
    intros i w Hw. specialize (O i w Hw).
    destruct (decide (w_task w = u)) as [E|Hne].
    2: { eapply (worker_ok_mono cfg (s_heap σ) (s_ctxs σ) k); [exact O|apply data_kept_refl| |exact Hadv|done..].
         intros s' _. by rewrite list_lookup_insert_ne by done. }
    destruct O as (H1 & H2 & H3 & H4 & H5). split_and!; try done.
    destruct (handling (w_pc w)) as [s'|] eqn:Hs.
    + destruct (Honly w s') as [s'' Epc]; [by eapply list_elem_of_lookup_2|done|done|].
      rewrite Epc in *. simpl in *. intros d Hd Hrd. destruct (Hrun _ d Hd Hrd) as (d' & Hd' & Hrd').
      by eapply H5.
    + by destruct (w_pc w).
  - eapply (coll_mono cfg); [exact IC|exact Hadv|done].
Qed.

Lemma submitted_depth σ k ops u c i w :
  inv cfg t0 σ k ops -> s_workers σ !! i = Some w -> w_task w = u -> handling (w_pc w) = None ->
  (1 <= u <= s_submitted σ)%nat -> s_ctxs σ !! u = Some c -> st c = ST_RUNNING ->
  k u = (P + 1)%nat.
Proof.
  intros [IM IT IK IW IC IE] Hi Ht Hnone Hu Hc Hr. pose proof (submitted_le_issued IT) as HS.
  destruct (mi_run _ _ _ _ _ _ _ IM u c Hc ltac:(lia) Hr) as (_ & _ & _ & Hk1 & _).
  assert (P < k u)%nat.
  { destruct (decide (P = 0%nat)) as [E|Hne]; [lia|]. unfold P in *.
    assert (passed (s_pipes σ) (num_pipes_ cfg - 1) u) as Hp by (apply (submitted_passed IT); lia).
    apply (ki_passed _ _ _ _ _ _ IK u c) in Hp; [lia|lia|done|done|lia]. }
  destruct (ki_bound _ _ _ _ _ _ IK u c ltac:(lia) Hc Hr) as [?|(j & v & s & Hj & Hv & Hs & _)];
    [unfold P in *; lia|].
  assert (j = i) as -> by (eapply (wi_distinct _ _ _ _ _ _ _ _ IW); [exact Hj|exact Hi|congruence|lia]).
  congruence.
Qed.

(** Fetching the next task. *)
Lemma inv_fetch σ k ops i w :
  inv cfg t0 σ k ops -> s_workers σ !! i = Some w -> w_pc w = WHead ->
  let task_id := S (s_fetched σ) in
  inv cfg t0 (set_worker i (mk_worker (if (num_tasks_ cfg <? task_id)%nat then WCheck else WSubmit)
      task_id (w_cached w) (w_count w) (w_start w) (w_end w)) (set_fetched task_id σ)) k ops.
Proof.
  intros [IM IT IK IW IC IE] Hi Hpc task_id.
  assert (holds (w_pc w) = false) as Hnone by (by rewrite Hpc). split; simpl; try done.
  - eapply task_inv_worker; [exact IK|exact Hi|]. intros s c Hs. by rewrite Hpc in Hs.
  - pose proof (lookup_lt_Some _ _ _ Hi) as Hlt. destruct IW as [L O D X].
    set (w' := mk_worker _ _ _ _ _ _).
    assert (worker_ok cfg (s_heap σ) (s_ctxs σ) k task_id (s_submitted σ) (s_committed σ) w') as Hw'.
    { destruct (O i w Hi) as (H1 & H2 & H3 & _ & _). split_and!; simpl; [done|done|done| |].
      * by destruct (_ <? _)%nat.
      * destruct (Nat.ltb_spec (num_tasks_ cfg) task_id); [done|]. unfold task_id in *. simpl. lia. }
    assert (forall j v, s_workers σ !! j = Some v -> w_task v <> w_task w') as Hfresh.
    { intros j v Hj. destruct (O j v Hj) as (H1 & _). simpl. unfold task_id. lia. }
    split; [by rewrite length_insert| | |].
    + intros j v Hj. destruct (decide (j = i)) as [->|Hne].
      * rewrite list_lookup_insert_eq in Hj by done. by simplify_eq.
      * rewrite list_lookup_insert_ne in Hj by done.
        destruct (O j v Hj) as (H1 & H2). split; [unfold task_id; lia|exact H2].
    + intros j j' v v' Hj Hj' E Hpos.
      destruct (decide (j = i)) as [->|Hne], (decide (j' = i)) as [->|Hne'];
        rewrite ?list_lookup_insert_eq, ?list_lookup_insert_ne in Hj by done;
        rewrite ?list_lookup_insert_eq, ?list_lookup_insert_ne in Hj' by done; simplify_eq; [done| | |].
      * by destruct (Hfresh j' v' Hj').
      * by destruct (Hfresh j v Hj).
      * by eapply D.
    + intros u c Hu Hc Hr. destruct (decide (u = task_id)) as [->|Hne].
      * exists i, w'. rewrite list_lookup_insert_eq by done. split_and!; [done|done|].
        apply lookup_lt_Some in Hc. rewrite (mi_len _ _ _ _ _ _ _ IM) in Hc. simpl.
        destruct (Nat.ltb_spec (num_tasks_ cfg) task_id); [lia|done].
      * destruct (X u c) as (j & v & Hj & Ht & Hh); [unfold task_id in *; lia|done|done|].
        exists j, v. rewrite list_lookup_insert_ne; [done|]. intros ->. simplify_eq. congruence.
Qed.

(** ** The steps of one worker, one lemma per point of its loop *)

Section one_worker.
Context (σ : sched) (k : nat -> nat) (ops : list (operation * Z)) (i : nat) (w : worker).
Context (I : inv cfg t0 σ k ops) (Hw : s_workers σ !! i = Some w).

Let Q : sched -> Prop := keeps cfg t0 ops.

Lemma worker_facts :
  worker_ok cfg (s_heap σ) (s_ctxs σ) k (s_fetched σ) (s_submitted σ) (s_committed σ) w /\
  (s_submitted σ <= s_issued σ)%nat /\ (s_issued σ <= num_tasks_ cfg)%nat.
Proof.
  split_and!.
  - by eapply (wi_ok _ _ _ _ _ _ _ _ (inv_worker _ _ _ _ _ I)).
  - exact (submitted_le_issued (inv_tok _ _ _ _ _ I)).
  - exact (mi_issued _ _ _ _ _ _ _ (inv_mem _ _ _ _ _ I)).
Qed.

(** Steps that only move the program counter. *)
Lemma worker_goto pc h' :
  h' = s_heap σ ->
  (forall s, handling pc = Some s -> (1 <= s)%nat /\ (1 <= w_task w <= s_submitted σ)%nat) ->
  pc_ok cfg (s_heap σ) (s_ctxs σ) k (s_committed σ) (w_task w) pc ->
  (forall c, s_ctxs σ !! w_task w = Some c -> st c = ST_RUNNING ->
     (forall s, handling (w_pc w) = Some s -> handling pc = Some s) /\
     (holds (w_pc w) = true -> holds pc = true)) ->
  Q (set_worker i (set_pc pc w) (set_heap h' σ)).
Proof.
  intros -> Ha Hb Hc. exists k. destruct worker_facts as ((H1 & H2 & H3 & _) & _).
  apply (inv_worker_set (set_heap (s_heap σ) σ) k ops i w);
    [by destruct σ|done|by split_and!|done| |].
  - intros s c Hs Hu Hr. by apply (Hc c Hu Hr).
  - intros c Hs Hu Hr. by apply (Hc c Hu Hr).
Qed.

Lemma worker_goto' pc :
  (forall s, handling pc = Some s -> (1 <= s)%nat /\ (1 <= w_task w <= s_submitted σ)%nat) ->
  pc_ok cfg (s_heap σ) (s_ctxs σ) k (s_committed σ) (w_task w) pc ->
  (forall c, s_ctxs σ !! w_task w = Some c -> st c = ST_RUNNING ->
     (forall s, handling (w_pc w) = Some s -> handling pc = Some s) /\
     (holds (w_pc w) = true -> holds pc = true)) ->
  Q (set_worker i (set_pc pc w) σ).
Proof. intros Ha Hb Hc. assert (H := worker_goto pc _ eq_refl Ha Hb Hc). by destruct σ. Qed.

Lemma worker_head_safe : w_pc w = WHead -> ok_outcome Q (worker_thread_ cfg i σ).
Proof.
  intros Hpc. unfold worker_thread_. eapply ok_get; [exact Hw|]. cbv zeta. rewrite Hpc.
  destruct (Nat.leb_spec (w_task w) (num_tasks_ cfg)).
  - exists k. by apply inv_fetch.
  - apply worker_goto'; [done|done|]. rewrite Hpc. done.
Qed.

Lemma worker_submit_safe : w_pc w = WSubmit -> ok_outcome Q (worker_thread_ cfg i σ).
Proof.
  intros Hpc. destruct worker_facts as ((H1 & H2 & H3 & H4 & H5) & HSI & HIN).
  rewrite Hpc in *. simpl in H5.
  unfold worker_thread_. eapply ok_get; [exact Hw|]. cbv zeta. rewrite Hpc.
  destruct (Nat.leb_spec (w_task w) (w_cached w)).
  - apply worker_goto'; [| |rewrite Hpc; done].
    + intros s [= <-]. lia.
    + intros c Hc Hr. eapply (submitted_depth σ k ops _ c i w); try done; [by rewrite Hpc|lia].
  - destruct (_ =? _)%nat; [done|]. exists k.
    eapply inv_worker_set; [done|exact Hw| |done|by rewrite Hpc|done].
    split_and!; simpl; done || lia.
Qed.

Lemma worker_test_safe s : w_pc w = WTest s -> ok_outcome Q (worker_thread_ cfg i σ).
Proof.
  intros Hpc. destruct worker_facts as ((H1 & H2 & H3 & H4 & H5) & HSI & HIN).
  rewrite Hpc in *. simpl in H5. destruct (H4 s eq_refl) as [Hs1 Htask].
  unfold worker_thread_. eapply ok_get; [exact Hw|]. cbv zeta. rewrite Hpc.
  destruct (ctx_exists _ _ _ _ _ (w_task w) I) as [c Hc]; [lia|].
  eapply ok_get; [exact Hc|]. destruct (st c) eqn:Hr.
  2: { apply worker_goto'; [done|done|]. intros c' Hc' Hr'. congruence. }
  exists k. specialize (H5 c Hc Hr).
  eapply (inv_worker_set _ k ops i w (set_pc (WGuard s) w)); [|exact Hw| |done| |done].
  - eapply inv_stage; [exact I|split_and!; [exact Hc|exact Hr|exact H5]|lia|].
    intros w' s' Hw' Ht Hs'. apply list_elem_of_lookup in Hw' as [j Hj].
    assert (j = i) as ->.
    { eapply (wi_distinct _ _ _ _ _ _ _ _ (inv_worker _ _ _ _ _ I)); [exact Hj|exact Hw|done|lia]. }
    exists s. congruence.
  - split_and!; simpl; [done|done|done|by intros s' [= <-]|].
    exists (set_stage (Stage s) c). split_and!; [|done|done].
    apply list_lookup_insert_eq. by eapply lookup_lt_Some.
  - intros s' c' Hs' _ _. by rewrite Hpc in Hs'.
Qed.

Lemma worker_guard_safe s : w_pc w = WGuard s -> ok_outcome Q (worker_thread_ cfg i σ).
Proof.
  intros Hpc. destruct worker_facts as ((H1 & H2 & H3 & H4 & H5) & HSI & HIN).
  rewrite Hpc in *. simpl in H5. destruct (H4 s eq_refl) as [Hs1 Htask].
  destruct H5 as (c & Hwork). assert (Hwork' := Hwork). destruct Hwork' as (Hc & Hr & Hk).
  unfold worker_thread_. eapply ok_get; [exact Hw|]. cbv zeta. rewrite Hpc.
  eapply ok_get; [exact Hc|].
  destruct (past_node cfg t0 _ _ _ _ _ _ _ (inv_mem _ _ _ _ _ I) Hc ltac:(lia) Hr)
    as (a & n & Ha & Hn & Hlt).
  assert (past_ver (s_heap σ) c (n_ver n)) as Hpast by (by exists a, n).
  rewrite Ha. eapply (ok_run False _ (fun m h' => m = n /\ h' = s_heap σ));
    [apply wpb_wp; by eapply wp_load|].
  intros m h' [-> ->]. simpl. destruct (Nat.leb_spec (n_ver n) (s_committed σ));
    (apply worker_goto; [done|by intros s' [= <-]| |by rewrite Hpc]).
  - exists c, (n_ver n). done.
  - exists c. done.
Qed.

Lemma worker_complete_safe s : w_pc w = WComplete s -> ok_outcome Q (worker_thread_ cfg i σ).
Proof.
  intros Hpc. destruct worker_facts as ((H1 & H2 & H3 & H4 & H5) & HSI & HIN).
  rewrite Hpc in *. simpl in H5. destruct (H4 s eq_refl) as [Hs1 Htask].
  destruct H5 as (c & v & Hwork & (a & n & Ha & Hn & Hv) & Hle).
  assert (Hwork' := Hwork). destruct Hwork' as (Hc & Hr & Hk).
  unfold worker_thread_. eapply ok_get; [exact Hw|]. cbv zeta. rewrite Hpc.
  eapply ok_get; [exact Hc|]. eapply (ok_run False).
  - apply wpb_wp. eapply complete_exec_spec;
      [exact (inv_mem _ _ _ _ _ I)|exact Hc|lia|done| |].
    + intros u d Hd Hu. eapply committed_done; [exact I|exact Hd|exact Hu].
    + intros a' n' Ha' Hn'. simplify_eq. done.
  - intros c' h' Hpost. eexists. eapply inv_worker_step; [done|done|by rewrite Hpc|done|done].
Qed.

Lemma worker_depend_safe s vdep : w_pc w = WDepend s vdep -> ok_outcome Q (worker_thread_ cfg i σ).
Proof.
  intros Hpc. destruct worker_facts as ((H1 & H2 & H3 & H4 & H5) & HSI & HIN).
  rewrite Hpc in *. simpl in H5. destruct (H4 s eq_refl) as [Hs1 Htask].
  destruct H5 as (c & Hwork & Hp & Hlt). assert (IM := inv_mem _ _ _ _ _ I).
  unfold worker_thread_. eapply ok_get; [exact Hw|]. cbv zeta. rewrite Hpc.
  destruct (ctx_exists _ _ _ _ _ vdep I) as [dep Hdep]; [lia|].
  eapply ok_get; [exact Hdep|]. destruct (stage_le (stage dep) s) eqn:Hstage; [done|].
  apply worker_goto'; [by intros s' [= <-]| |by rewrite Hpc].
  exists c. split; [done|]. split; [done|]. split; [done|]. intros d Hd Hrd.
  assert (d = dep) as -> by congruence. destruct (stage dep) as [g|] eqn:Hg.
  - simpl in Hstage. apply Nat.leb_gt in Hstage.
    destruct (mi_stage _ _ _ _ _ _ _ IM vdep dep g Hd Hrd Hg); lia.
  - apply (mi_done _ _ _ _ _ _ _ IM vdep dep Hd) in Hg. congruence.
Qed.

Lemma worker_step_safe s vdep : w_pc w = WStep s vdep -> ok_outcome Q (worker_thread_ cfg i σ).
Proof.
  intros Hpc. destruct worker_facts as ((H1 & H2 & H3 & H4 & H5) & HSI & HIN).
  rewrite Hpc in *. simpl in H5. destruct (H4 s eq_refl) as [Hs1 Htask].
  destruct H5 as (c & Hwork & (a & n & Ha & Hn & Hv) & Hlt & Hdep).
  assert (Hwork' := Hwork). destruct Hwork' as (Hc & Hr & Hk).
  unfold worker_thread_. eapply ok_get; [exact Hw|]. cbv zeta. rewrite Hpc.
  eapply ok_get; [exact Hc|]. eapply ok_run.
  - eapply pipe_exec_spec; [exact (inv_mem _ _ _ _ _ I)|exact Hc|lia|done| |].
    + intros u d Hd Hu. eapply committed_done; [exact I|exact Hd|exact Hu].
    + intros a' n' d Ha' Hn' _ Hd Hrd. simplify_eq. specialize (Hdep d Hd Hrd). lia.
  - intros c' h' Hpost. eexists. eapply inv_worker_step; [done|done|by rewrite Hpc|done|done].
Qed.

Lemma worker_check_safe : w_pc w = WCheck -> ok_outcome Q (worker_thread_ cfg i σ).
Proof.
  intros Hpc. destruct worker_facts as ((H1 & H2 & H3 & _) & _).
  unfold worker_thread_. eapply ok_get; [exact Hw|]. cbv zeta. rewrite Hpc.
  destruct (_ <=? _)%nat; [destruct (_ <? _)%nat|]; apply worker_goto'; rewrite ?Hpc; done.
Qed.

(** The structure [augment] walks through is finite and has fuel. *)
Lemma estimate_runs t c :
  vers_le 0 t0 -> vers_mono t0 -> (size t0 + N < fuel)%nat -> (t <= num_tasks_ cfg)%nat ->
  s_ctxs σ !! t = Some c ->
  wp (augment fuel (root c)) (fun _ h' => aug_only (s_heap σ) h') (s_heap σ).
Proof.
  intros Hvers0 Hmono0 Hfuel Ht Hc. assert (IM := inv_mem _ _ _ _ _ I).
  destruct (decide (t <= s_issued σ)%nat) as [Hle|Hgt].
  - destruct (dn_phys _ _ _ _ _ _ _ (mi_root _ _ _ _ _ _ _ IM t c Hle Hc)) as (t' & Hrep & Hsz).
    eapply augment_runs; [exact Hrep|].
    destruct (version_good cfg t0 ops t Hvers0 Hmono0 Hfuel Ht) as (_ & _ & Hg).
    unfold fuel in *. lia.
  - rewrite (mi_new _ _ _ _ _ _ _ IM t c Hc) by lia.
    apply (augment_runs _ _ None Leaf); [done|]. simpl. unfold fuel in *. lia.
Qed.

Lemma worker_estimate_safe t :
  vers_le 0 t0 -> vers_mono t0 -> (size t0 + N < fuel)%nat ->
  w_pc w = WEstimate t -> ok_outcome Q (worker_thread_ cfg i σ).
Proof.
  intros Hvers0 Hmono0 Hfuel Hpc. destruct worker_facts as ((H1 & H2 & H3 & H4 & H5) & HSI & HIN).
  rewrite Hpc in *. simpl in H5.
  unfold worker_thread_. eapply ok_get; [exact Hw|]. cbv zeta. rewrite Hpc.
  destruct (ctx_exists _ _ _ _ _ t I) as [c Hc]; [done|]. eapply ok_get; [exact Hc|].
  eapply (ok_run False _ (fun _ h' => aug_only (s_heap σ) h')); [by apply wpb_wp, (estimate_runs t)|]. intros _ h' Ha.
  assert (Ia := inv_aug _ _ _ _ I Ha).
  assert (forall pc, handling pc = None ->
    pc_ok cfg h' (s_ctxs σ) k (s_committed σ) (w_task w) pc ->
    Q (set_worker i (set_pc pc w) (set_heap h' σ))) as Hgo.
  { intros pc Hh Hp. exists k.
    eapply inv_worker_set; [exact Ia|done| |done|by rewrite Hpc|by rewrite Hpc].
    split_and!; simpl; try done. intros s. by rewrite Hh. }
  destruct (_ && _); apply Hgo; try done. simpl. lia.
Qed.

Lemma worker_publish_safe : w_pc w = WPublish -> ok_outcome Q (worker_thread_ cfg i σ).
Proof.
  intros Hpc. destruct worker_facts as ((H1 & H2 & H3 & H4 & H5) & HSI & HIN).
  unfold worker_thread_. eapply ok_get; [exact Hw|]. cbv zeta. rewrite Hpc.
  exists k. destruct I as [IM IT IK IW IC IE]. split; simpl; try done.
  - eapply task_inv_worker; [exact IK|exact Hw|]. intros s c Hs. by rewrite Hpc in Hs.
  - eapply workers_set; [exact IW|exact Hw| |by left|by rewrite Hpc].
    split_and!; simpl; try done. lia.
  - by rewrite length_insert.
Qed.
End one_worker.

Lemma worker_thread_safe i σ k ops :
  vers_le 0 t0 -> vers_mono t0 -> (size t0 + N < fuel)%nat ->
  inv cfg t0 σ k ops -> (i < num_workers_ cfg)%nat ->
  ok_outcome (keeps cfg t0 ops) (worker_thread_ cfg i σ).
Proof.
  intros Hvers0 Hmono0 Hfuel I Hi. destruct (lookup_lt_is_Some_2 (s_workers σ) i) as [w Hw].
  { rewrite (wi_len _ _ _ _ _ _ _ _ (inv_worker _ _ _ _ _ I)). done. }
  destruct (w_pc w) as [| |s|s|s|s vdep|s vdep| |t| |] eqn:Hpc.
  - by eapply worker_head_safe.
  - by eapply worker_submit_safe.
  - by eapply worker_test_safe.
  - by eapply worker_guard_safe.
  - by eapply worker_complete_safe.
  - by eapply worker_depend_safe.
  - by eapply worker_step_safe.
  - by eapply worker_check_safe.
  - by eapply worker_estimate_safe.
  - by eapply worker_publish_safe.
  - unfold worker_thread_, get. rewrite Hw, Hpc. done.
Qed.

(** ** Every step *)

(** The labels of the threads the scheduler has, and of a client that issues at
    most [num_tasks_] operations. *)
Definition valid_label (σ : sched) (l : label) : Prop :=
  match l with
  | LInit _ _ => (s_issued σ < num_tasks_ cfg)%nat
  | LPipe id => (id < num_pipes_ cfg)%nat
  | LWork id => (id < num_workers_ cfg)%nat
  | _ => True
  end.

Lemma exec_safe l σ k ops :
  vers_le 0 t0 -> vers_mono t0 -> (size t0 + N < fuel)%nat -> Z.of_nat N < two64 - 1 ->
  inv cfg t0 σ k ops -> valid_label σ l ->
  ok_outcome (keeps cfg t0 (ops ++ issued_by l)) (exec cfg l σ).
Proof.
  intros Hv Hm Hf HN I Hl. destruct l as [o e| |id| |id|]; simpl in *; rewrite ?app_nil_r.
  - by eapply init_context_safe.
  - by eapply init_push_safe.
  - by eapply pipe_thread_safe.
  - by eapply boarder_thread_safe.
  - by eapply worker_thread_safe.
  - by eapply collector_thread_safe.
Qed.

Lemma exec_next_valid l σ σ' k ops :
  inv cfg t0 σ k ops -> exec cfg l σ = Next σ' -> valid_label σ l.
Proof.
  intros [IM IT IK IW IC IE] E. destruct l as [o e| |id| |id|]; simpl in *; try done.
  - unfold init_context_, get in E. destruct (s_pending σ); [done|].
    destruct (s_ctxs σ !! S (s_issued σ)) as [c|] eqn:Hc; [|done].
    apply lookup_lt_Some in Hc. rewrite (mi_len _ _ _ _ _ _ _ IM) in Hc. lia.
  - unfold pipe_thread_, get in E. destruct (s_pipes σ !! id) as [p|] eqn:Hp; [|done].
    apply lookup_lt_Some in Hp. by rewrite (ti_pipes _ _ _ _ _ _ _ IT) in Hp.
  - unfold worker_thread_, get in E. destruct (s_workers σ !! id) as [p|] eqn:Hp; [|done].
    apply lookup_lt_Some in Hp. by rewrite (wi_len _ _ _ _ _ _ _ _ IW) in Hp.
Qed.

(** ** The initial state *)

Lemma init_ctxs h p0 v c :
  s_ctxs (scheduler_init cfg h p0) !! v = Some c ->
  v = 0%nat /\ c = done_ (set_root p0 new_context) \/ (1 <= v)%nat /\ c = new_context.
Proof.
  simpl. destruct v as [|v]; simpl; [naive_solver|].
  intros [-> _]%lookup_replicate. right. split; [lia|done].
Qed.

Lemma init_not_open h p0 u c a : ~ is_open (s_ctxs (scheduler_init cfg h p0)) u c a.
Proof. intros [Hu Ho]. by destruct (init_ctxs _ _ _ _ Hu) as [[_ ->]|[_ ->]]. Qed.

Lemma inv_init h p0 :
  rep h p0 t0 -> inv cfg t0 (scheduler_init cfg h p0) (fun _ => 0%nat) [].
Proof.
  intros Hrep. set (σ := scheduler_init cfg h p0).
  assert (closed_part h (s_ctxs σ) = h) as Hclosed.
  { apply map_eq. intros a. destruct (h !! a) as [n|] eqn:E.
    - apply closed_part_Some. split; [done|]. intros u c. apply init_not_open.
    - destruct (closed_part h (s_ctxs σ) !! a) eqn:E'; [|done].
      apply closed_part_Some in E' as [? _]. congruence. }
  assert (forall id p, s_pipes σ !! id = Some p -> p = mk_pipe 1 PFetch) as Hpipes.
  { intros id p Hp. simpl in Hp. by apply lookup_replicate in Hp as [-> _]. }
  assert (forall j, sent 0 false (s_pipes σ) j = 0%nat) as Hsent.
  { intros [|j]; simpl; [done|]. destruct (_ !! j) as [p|] eqn:E; [|done].
    by rewrite (Hpipes j p E). }
  assert (forall j, consumed (s_pipes σ) (s_board σ) j = 0%nat) as Hcons.
  { intros j. unfold consumed. destruct (_ !! j) as [p|] eqn:E; [|done].
    by rewrite (Hpipes j p E). }
  split.
  - split; simpl; try lia.
    + by rewrite length_replicate.
    + intros v c Hv Hc. assert (v = 0%nat) as -> by lia. simplify_eq/=.
      apply dn_complete. unfold version. simpl. rewrite Hclosed. done.
    + intros u c a Ho. by destruct (init_not_open h p0 u c a).
    + intros u c Hu Hle Hr. destruct (init_ctxs h p0 u c Hu) as [[-> ->]|[? ->]]; [done|lia].
    + intros u c Hu Hle. destruct (init_ctxs h p0 u c Hu) as [[-> ->]|[? ->]]; [lia|done].
    + intros u c Hu. by destruct (init_ctxs h p0 u c Hu) as [[-> ->]|[? ->]].
    + intros u c g Hu Hr Hg. destruct (init_ctxs h p0 u c Hu) as [[-> ->]|[? ->]]; [done|].
      simpl in Hg. left. congruence.
  - split; simpl; try lia.
    + by rewrite length_replicate.
    + intros j Hj. change (replicate (num_pipes_ cfg) (mk_pipe 1 PFetch)) with (s_pipes σ).
      change (mk_boarder 0 false) with (s_board σ). rewrite Hsent, Hcons.
      destruct j as [|j]; [done|]. simpl. by rewrite lookup_replicate_2 by lia.
    + intros id p Hp. rewrite (Hpipes id p Hp). split_and!; simpl; lia || done.
  - split; simpl; intros; lia.
  - split.
    + simpl. by rewrite length_fmap, length_seq.
    + intros i w Hw. simpl in Hw. apply list_lookup_fmap_Some in Hw as (j & -> & _).
      split_and!; simpl; lia || done.
    + intros i j w w' Hw _ _ Hpos. simpl in Hw.
      apply list_lookup_fmap_Some in Hw as (j' & -> & _). simpl in Hpos. lia.
    + intros u c Hu. simpl in Hu. lia.
  - split; simpl; [done|lia|]. intros u d Hu Hle.
    destruct (init_ctxs h p0 u d Hu) as [[-> ->]|[? ->]]; [done|lia].
  - simpl. by rewrite length_replicate.
Qed.

Lemma history_inv h p0 ops σ :
  vers_le 0 t0 -> vers_mono t0 -> (size t0 + N < fuel)%nat -> Z.of_nat N < two64 - 1 ->
  rep h p0 t0 -> history cfg (scheduler_init cfg h p0) ops σ -> keeps cfg t0 ops σ.
Proof.
  intros Hv Hm Hf HN Hrep H. induction H as [|ops l σ σ' _ [k IH] E].
  - eexists. by apply inv_init.
  - assert (H := exec_safe l σ k ops Hv Hm Hf HN IH (exec_next_valid _ _ _ _ _ IH E)).
    by rewrite E in H.
Qed.
End work.
