(* ===== verification/SchedulerLive.v ===== *)
(** * The scheduler does not deadlock

    If every thread of the scheduler is spinning, then every issued task has been
    committed: no interleaving leaves a task unfinished for ever. *)

From S2P Require Import Prelude TreapTree TreapNode TreapUpdate TreapQuery Scheduler.
From S2P Require Import SchedulerTree SchedulerMem SchedulerInv SchedulerSafe SchedulerWork.

(** The labels of the scheduler's own threads (the client's pending push
    included). *)
Definition is_init (l : label) : bool := match l with LInit _ _ => true | _ => false end.

(** Every thread is spinning or has stopped. *)
Definition quiescent (cfg : config) (σ : sched) : Prop :=
  forall l, is_init l = false -> valid_label cfg σ l -> exec cfg l σ = Wait.

Lemma get_not_wait {A} (l : list A) i x (kont : A -> outcome) :
  l !! i = Some x -> get l i kont = Wait -> kont x = Wait.
Proof. unfold get. by intros ->. Qed.

(** Resolve a [get] in the step [H] of a thread that waits. *)
Ltac quiet_get H Hx := apply (get_not_wait _ _ _ _ Hx) in H; cbv beta zeta in H.

Lemma run_not_wait {A} (B : Prop) (m : M node_t A) Qm σ (kont : A -> sched -> outcome) :
  wpb B m Qm (s_heap σ) -> ~ B -> (forall a σ', kont a σ' <> Wait) -> run m σ kont <> Wait.
Proof.
  intros [[HB _]|(a & h' & Hm & _)] HnB Hk; unfold run; [done|]. rewrite Hm. apply Hk.
Qed.

Section live.
Context (cfg : config) (t0 : tree).
Context (Hvers0 : vers_le 0 t0) (Hmono0 : vers_mono t0).
Context (Hfuel : (size t0 + num_tasks_ cfg < cfg_fuel cfg)%nat).
Context (HN64 : Z.of_nat (num_tasks_ cfg) < two64 - 1).

Section state.
Context (σ : sched) (k : nat -> nat) (ops : list (operation * Z)).
Context (I : inv cfg t0 σ k ops) (Hquiet : quiescent cfg σ).

(** The first task that is not committed. *)
Definition first_task (u : nat) (c : context) : Prop :=
  u = S (s_committed σ) /\ (u <= s_issued σ)%nat /\ s_ctxs σ !! u = Some c /\
  st c = ST_RUNNING /\
  forall v d, (v < u)%nat -> s_ctxs σ !! v = Some d -> st d = ST_DONE.

Lemma quiet_first : (s_committed σ < s_issued σ)%nat -> exists u c, first_task u c.
Proof.
  intros Hlt. destruct (inv_coll _ _ _ _ _ I) as [C1 C2 C3].
  pose proof (mi_issued _ _ _ _ _ _ _ (inv_mem _ _ _ _ _ I)) as HN.
  pose proof (Hquiet LCollect eq_refl Logic.I) as H. simpl in H. unfold collector_thread_ in H.
  destruct (ctx_exists _ _ _ _ _ (S (s_committed σ)) I) as [c Hc]; [lia|].
  destruct (Nat.ltb_spec (c_local (s_coll σ)) (num_tasks_ cfg)); [|lia].
  destruct (Nat.ltb_spec (c_local (s_coll σ)) (c_next (s_coll σ))) as [Hcl|Hcl].
  { exfalso. destruct (c_next (s_coll σ) <? num_tasks_ cfg)%nat; [|done].
    unfold get in H. destruct (s_ctxs σ !! S (c_next (s_coll σ))); [|done].
    by destruct (is_done _). }
  assert (c_next (s_coll σ) = s_committed σ) as En by lia. rewrite En in *.
  destruct (Nat.ltb_spec (s_committed σ) (num_tasks_ cfg)); [|lia].
  exists (S (s_committed σ)), c. split_and!; [done|lia|done| |].
  - destruct (st c) eqn:E; [done|].
    apply (mi_done _ _ _ _ _ _ _ (inv_mem _ _ _ _ _ I) _ _ Hc) in E.
    unfold get in H. rewrite Hc in H. unfold is_done in H. by rewrite E in H.
  - intros v d Hv Hd. eapply C3; [done|lia].
Qed.

Lemma quiet_pending : s_pending σ = false.
Proof.
  pose proof (Hquiet LPush eq_refl Logic.I) as H. simpl in H. unfold init_push_, push_token, get in H.
  destruct (s_pending σ); [|done].
  by rewrite (ti_tokens _ _ _ _ _ _ _ (inv_tok _ _ _ _ _ I) 0 ltac:(lia)) in H.
Qed.

Section unfinished.
Context (u : nat) (c : context) (Hu : first_task u c).

Let snt : nat -> nat := sent (s_issued σ) (s_pending σ) (s_pipes σ).

(** A pipe at or before the first task can only be waiting for a token. *)
Lemma quiet_pipe id p :
  s_pipes σ !! id = Some p -> (p_pos p <= u)%nat -> (snt id < p_pos p)%nat.
Proof.
  intros Hp Hpos. destruct Hu as (E & Hin & Hc & Hr & Hdone). assert (IT := inv_tok _ _ _ _ _ I).
  pose proof (mi_issued _ _ _ _ _ _ _ (inv_mem _ _ _ _ _ I)) as HN.
  assert (id < num_pipes_ cfg)%nat as Hid
    by (rewrite <- (ti_pipes _ _ _ _ _ _ _ IT); by eapply lookup_lt_Some).
  pose proof (Hquiet (LPipe id) eq_refl Hid) as H. simpl in H. unfold pipe_thread_ in H.
  apply (get_not_wait _ _ _ _ Hp) in H. cbv beta zeta in H.
  destruct (Nat.ltb_spec (num_tasks_ cfg) (p_pos p)); [lia|].
  assert (Hz := ti_tokens _ _ _ _ _ _ _ IT id ltac:(lia)).
  destruct (p_pc p) eqn:Hpc.
  - by (quiet_get H Hz).
  - quiet_get H Hz. unfold consumed in H. rewrite Hp in H.
    unfold taken in H. rewrite Hpc in H. fold snt in H.
    destruct (Nat.ltb_spec (snt id) (p_pos p)) as [|Hge]; [done|]. exfalso.
    pose proof (sent_le_issued IT id ltac:(lia)) as Hs. fold snt in Hs.
    rewrite wrap64_small in H by (unfold u64; lia).
    destruct (Z.eqb_spec (Z.of_nat (snt id) - Z.of_nat (p_pos p)) size_max); [|done].
    unfold size_max in *. lia.
  - exfalso. destruct (ctx_exists _ _ _ _ _ (p_pos p) I) as [d Hd]; [done|].
    quiet_get H Hd. destruct (st d) eqn:Hrd; [|done].
    assert (p_pos p = u) as Eu.
    { destruct (decide (p_pos p = u)); [done|]. rewrite (Hdone (p_pos p) d) in Hrd; [done|lia|done]. }
    revert H. eapply run_not_wait; [|shelve|intros ??; discriminate].
    eapply pipe_exec_spec; [exact (inv_mem _ _ _ _ _ I)|exact Hd|lia|done| |].
    + intros v e He Hv. by eapply committed_done.
    + intros a n e _ _ Hn He Hre. by eapply (pipe_sync cfg t0 σ k ops id p d).
    Unshelve. lia.
  - by apply (get_not_wait _ _ _ _ (ti_tokens _ _ _ _ _ _ _ IT (S id) ltac:(lia))) in H.
Qed.

Lemma quiet_sent j : (j <= num_pipes_ cfg)%nat -> (u <= snt j)%nat.
Proof.
  destruct Hu as (E & Hin & _). induction j as [|j IH]; intros Hj.
  - unfold snt. simpl. rewrite quiet_pending. lia.
  - assert (IT := inv_tok _ _ _ _ _ I).
    destruct (lookup_lt_is_Some_2 (s_pipes σ) j) as [p Hp].
    { rewrite (ti_pipes _ _ _ _ _ _ _ IT). lia. }
    unfold snt. cbn [sent]. rewrite Hp.
    destruct (decide (p_pos p <= u)%nat) as [Hle|]; [|lia].
    pose proof (quiet_pipe j p Hp Hle). specialize (IH ltac:(lia)). lia.
Qed.

Lemma quiet_submitted : (u <= s_submitted σ)%nat.
Proof.
  pose proof (quiet_sent (num_pipes_ cfg) (le_n _)) as Hs. assert (IT := inv_tok _ _ _ _ _ I).
  pose proof (Hquiet LBoard eq_refl Logic.I) as H. simpl in H. unfold boarder_thread_ in H.
  destruct (b_store (s_board σ)) eqn:Hst; [done|].
  rewrite (ti_store _ _ _ _ _ _ _ IT Hst).
  pose proof (ti_board _ _ _ _ _ _ _ IT) as Hb. fold snt in Hb.
  pose proof (sent_le_issued IT (num_pipes_ cfg) (le_n _)) as Hi. fold snt in Hi.
  pose proof (mi_issued _ _ _ _ _ _ _ (inv_mem _ _ _ _ _ I)) as HN.
  destruct (Nat.ltb_spec (b_local (s_board σ)) (num_tasks_ cfg)); [|lia].
  quiet_get H (ti_tokens _ _ _ _ _ _ _ IT (num_pipes_ cfg) (le_n _)).
  unfold consumed in H.
  rewrite (lookup_ge_None_2 (s_pipes σ)) in H by (rewrite (ti_pipes _ _ _ _ _ _ _ IT); lia).
  fold snt in H. rewrite wrap64_small in H by (unfold u64; lia).
  destruct (Z.ltb_spec 0 (Z.of_nat (snt (num_pipes_ cfg)) - Z.of_nat (b_local (s_board σ))));
    [done|lia].
Qed.

(** No worker is waiting with a task up to the first one. *)
Lemma quiet_worker i w :
  s_workers σ !! i = Some w -> (w_task w <= u)%nat -> False.
Proof.
  intros Hw Ht. pose proof quiet_submitted as Hsub.
  destruct Hu as (E & Hin & Hc & Hr & Hdone).
  destruct (worker_facts cfg t0 σ k ops i w I Hw) as ((H1 & H2 & H3 & H4 & H5) & HSI & HIN).
  assert (i < num_workers_ cfg)%nat as Hi
    by (rewrite <- (wi_len _ _ _ _ _ _ _ _ (inv_worker _ _ _ _ _ I)); by eapply lookup_lt_Some).
  pose proof (Hquiet (LWork i) eq_refl Hi) as H. simpl in H. unfold worker_thread_ in H.
  apply (get_not_wait _ _ _ _ Hw) in H. cbv beta zeta in H.
  (* a task before the first one is done *)
  assert (forall s d, at_work cfg (s_ctxs σ) k (w_task w) s d -> w_task w = u) as Hat.
  { intros s d (Hd & Hrd & _). destruct (decide (w_task w = u)); [done|].
    rewrite (Hdone (w_task w) d) in Hrd; [done|lia|done]. }
  destruct (w_pc w) as [| |s|s|s|s vdep|s vdep| |t| |] eqn:Hpc; simpl in H5.
  - by destruct (_ <=? _)%nat.
  - destruct (Nat.leb_spec (w_task w) (w_cached w)); [done|].
    destruct (Nat.eqb_spec (w_cached w) (s_submitted σ)); [lia|done].
  - destruct (ctx_exists _ _ _ _ _ (w_task w) I) as [d Hd]; [lia|].
    quiet_get H Hd. by destruct (st d).
  - destruct H5 as (d & Hd & Hrd & Hk). destruct (H4 s eq_refl).
    quiet_get H Hd.
    destruct (past_node cfg t0 _ _ _ _ _ _ _ (inv_mem _ _ _ _ _ I) Hd ltac:(lia) Hrd)
      as (a & n & Ha & Hn & _).
    unfold run in H. rewrite Ha in H. simpl in H. rewrite Hn in H. by destruct (_ <=? _)%nat.
  - destruct H5 as (d & v & (Hd & Hrd & Hk) & (a & n & Ha & Hn & Hv) & Hle).
    quiet_get H Hd. revert H. destruct (H4 s eq_refl).
    eapply (run_not_wait False); [|tauto|intros ??; discriminate]. apply wpb_wp.
    eapply complete_exec_spec; [exact (inv_mem _ _ _ _ _ I)|exact Hd|lia|done| |].
    + intros v' e He Hv'. by eapply committed_done.
    + intros a' n' Ha' Hn'. simplify_eq. done.
  - destruct H5 as (d & Hd & _ & Hlt).
    destruct (ctx_exists _ _ _ _ _ vdep I) as [e He]; [lia|].
    quiet_get H He.
    assert (st e = ST_DONE) as Hde by (eapply Hdone; [|exact He]; lia).
    apply (mi_done _ _ _ _ _ _ _ (inv_mem _ _ _ _ _ I) vdep e He) in Hde.
    by rewrite Hde in H.
  - destruct H5 as (d & (Hd & Hrd & Hk) & (a & n & Ha & Hn & Hv) & Hlt & Hdep).
    quiet_get H Hd. revert H. destruct (H4 s eq_refl).
    eapply run_not_wait; [|shelve|intros ??; discriminate].
    eapply pipe_exec_spec; [exact (inv_mem _ _ _ _ _ I)|exact Hd|lia|done| |].
    + intros v' e He Hv'. by eapply committed_done.
    + intros a' n' e Ha' Hn' _ He Hre. simplify_eq. specialize (Hdep e He Hre). lia.
    Unshelve. lia.
  - by destruct (_ <=? _)%nat; [destruct (_ <? _)%nat|].
  - destruct (ctx_exists _ _ _ _ _ t I) as [d Hd]; [done|].
    quiet_get H Hd. revert H.
    eapply (run_not_wait False); [|tauto|intros a σ'; by destruct (_ && _)].
    apply wpb_wp. by apply (estimate_runs cfg t0 σ k ops I t d).
  - done.
  - lia.
Qed.

Lemma quiet_absurd : (1 <= num_workers_ cfg)%nat -> False.
Proof.
  intros HW. assert (IW := inv_worker _ _ _ _ _ I).
  destruct (decide (u <= s_fetched σ)%nat) as [Hle|Hgt].
  - destruct Hu as (E & Hin & Hc & Hr & _).
    destruct (wi_own _ _ _ _ _ _ _ _ IW u c ltac:(lia) Hc Hr) as (i & w & Hw & Ht & _).
    eapply quiet_worker; [exact Hw|lia].
  - destruct (lookup_lt_is_Some_2 (s_workers σ) 0) as [w Hw].
    { rewrite (wi_len _ _ _ _ _ _ _ _ IW). lia. }
    destruct (wi_ok _ _ _ _ _ _ _ _ IW 0%nat w Hw) as (H1 & _).
    eapply quiet_worker; [exact Hw|lia].
Qed.
End unfinished.

Lemma quiet_committed : (1 <= num_workers_ cfg)%nat -> s_committed σ = s_issued σ.
Proof.
  intros HW. destruct (inv_coll _ _ _ _ _ I) as [C1 C2 C3].
  destruct (decide (s_committed σ < s_issued σ)%nat) as [Hlt|]; [|lia].
  destruct (quiet_first Hlt) as (u & c & Hu). by destruct (quiet_absurd u c Hu).
Qed.
End state.
End live.

(** ** Deciding that all threads wait *)

Definition thread_labels (cfg : config) : list label :=
  [LPush; LBoard; LCollect] ++ (LPipe <$> seq 0 (num_pipes_ cfg)) ++
  (LWork <$> seq 0 (num_workers_ cfg)).

Definition waits (cfg : config) (σ : sched) (l : label) : bool :=
  match exec cfg l σ with Wait => true | _ => false end.

Definition quiescent_b (cfg : config) (σ : sched) : bool :=
  forallb (waits cfg σ) (thread_labels cfg).

Lemma quiescent_b_ok cfg σ : quiescent_b cfg σ = true -> quiescent cfg σ.
Proof.
  unfold quiescent_b. rewrite forallb_forall. intros H l Hl Hv.
  assert (In l (thread_labels cfg)) as Hin.
  { apply list_elem_of_In. unfold thread_labels. rewrite !elem_of_app, !list_elem_of_fmap.
    destruct l as [o e| |id| |id|]; simpl in Hv; [done| | | | |].
    - left. set_solver.
    - right. left. exists id. split; [done|]. apply elem_of_seq. lia.
    - left. set_solver.
    - right. right. exists id. split; [done|]. apply elem_of_seq. lia.
    - left. set_solver. }
  specialize (H l Hin). unfold waits in H. by destruct (exec cfg l σ).
Qed.
