(* ===== verification/SchedulerCorrect.v ===== *)
(** * What the concurrent scheduler guarantees

    Theorems about every history of [src/lib/treap/scheduler.hpp]: versions are
    strictly ordered, committed versions are complete and hold the result of the
    operations issued before them, and no thread runs into undefined behaviour. *)

From S2P Require Import Prelude TreapTree TreapNode TreapUpdate TreapQuery Scheduler.
From S2P Require Import SchedulerTree SchedulerMem SchedulerInv SchedulerSafe SchedulerWork.
From S2P Require Import SchedulerLive.

(** ** The abstract specification: a list of operations on a bag *)

Definition bag_apply (oe : operation * Z) (m : bag) : bag :=
  match oe.1 with
  | OP_NONE => m
  | OP_INSERT => bag_insert oe.2 m
  | OP_DELETE => bag_delete oe.2 m
  end.

Definition version_bag (m0 : bag) (ops : list (operation * Z)) (v : nat) : bag :=
  foldl (fun m oe => bag_apply oe m) m0 (take v ops).

Definition ops_u64 (ops : list (operation * Z)) : Prop := Forall (fun oe => u64 oe.2) ops.

#[global] Instance ops_u64_dec ops : Decision (ops_u64 ops).
Proof. unfold ops_u64. apply _. Defined.

Lemma version_bag_S m0 ops v :
  version_bag m0 ops (S v) =
    match ops !! v with
    | Some oe => bag_apply oe (version_bag m0 ops v)
    | None => version_bag m0 ops v
    end.
Proof.
  unfold version_bag. destruct (ops !! v) as [oe|] eqn:E.
  - by rewrite (take_S_r _ _ _ E), foldl_app.
  - apply lookup_ge_None in E. rewrite !take_ge by lia. done.
Qed.

Section refinement.
Context {hash : Z -> Z} `{HPH : !PerfectHash hash}.

(** The sequential treap implements the bag. *)
Lemma version_tree_bag t0 ops v :
  wf hash t0 -> ops_u64 ops ->
  wf hash (version_tree hash t0 ops v) /\
  to_bag (version_tree hash t0 ops v) = version_bag (to_bag t0) ops v.
Proof.
  intros W U. induction v as [|v [IHw IHb]]; [done|].
  rewrite version_bag_S. simpl. set (t := version_tree hash t0 ops v) in *.
  destruct (ops !! v) as [[o e]|] eqn:E; [|done].
  assert (u64 e) by (eapply (Forall_lookup_1 _ _ _ _ U E)).
  rewrite <- IHb. destruct o; unfold t_apply, bag_apply; cbn [fst snd]; [done| |].
  - split; [by apply t_insert_wf|by apply t_insert_bag].
  - split; [by apply t_delete_wf|by apply t_delete_bag].
Qed.
End refinement.

(** ** Running a schedule gives a history *)

Fixpoint schedule_ops (cfg : config) (ls : list label) (σ : sched) : list (operation * Z) :=
  match ls with
  | [] => []
  | l :: ls =>
      match exec cfg l σ with
      | Next σ' => issued_by l ++ schedule_ops cfg ls σ'
      | Wait => schedule_ops cfg ls σ
      | Fault _ => []
      end
  end.

Lemma schedule_history cfg σ0 ls ops σ σ' :
  history cfg σ0 ops σ -> run_schedule cfg ls σ = Next σ' ->
  history cfg σ0 (ops ++ schedule_ops cfg ls σ) σ'.
Proof.
  revert ops σ. induction ls as [|l ls IH]; simpl; intros ops σ H E.
  - simplify_eq. by rewrite app_nil_r.
  - destruct (exec cfg l σ) as [σ1| |] eqn:El; [|by apply IH|done].
    rewrite app_assoc. apply IH; [|done]. by eapply history_step.
Qed.

Lemma run_history cfg σ0 ls ops σ :
  run_schedule cfg ls σ0 = Next σ -> schedule_ops cfg ls σ0 = ops -> history cfg σ0 ops σ.
Proof. intros E <-. apply (schedule_history cfg σ0 ls [] σ0 σ); [constructor|done]. Qed.

(** ** Assumptions on the start of the scheduler *)

(** The number of tasks fits the counters, the recursion bound of the model is
    above the size of every version, and the root handed to the constructor is a
    well-formed treap of version 0. *)
Record good_start (cfg : config) (h : heap) (p0 : ptr) (t0 : tree) : Prop := {
  gs_rep : rep h p0 t0;
  gs_wf : wf (cfg_hash cfg) t0;
  gs_vers : vers_le 0 t0;
  gs_mono : vers_mono t0;
  gs_fuel : (size t0 + num_tasks_ cfg < cfg_fuel cfg)%nat;
  gs_tasks : Z.of_nat (num_tasks_ cfg) < two64 - 1;
}.

Lemma good_history cfg h p0 t0 ops σ :
  good_start cfg h p0 t0 -> history cfg (scheduler_init cfg h p0) ops σ ->
  exists k, inv cfg t0 σ k ops.
Proof. intros [] H. by eapply history_inv. Qed.

(** A version all whose predecessors are done is complete. *)
Lemma version_complete cfg t0 σ k ops v c :
  inv cfg t0 σ k ops -> vers_le 0 t0 -> vers_mono t0 -> (v <= s_issued σ)%nat ->
  (forall u d, s_ctxs σ !! u = Some d -> (u <= v)%nat -> st d = ST_DONE) ->
  s_ctxs σ !! v = Some c -> rep (s_heap σ) (root c) (version cfg t0 ops v).
Proof.
  intros I Hv0 Hm0 Hle Hdone Hc. assert (IM := inv_mem _ _ _ _ _ I).
  eapply rep_weaken; [apply closed_part_sub|].
  eapply dn_rep; [by eapply (mi_root _ _ _ _ _ _ _ IM)| |exact Hdone].
  by apply version_tree_props.
Qed.

(** ** Properties *)

(** C1: strict ordering of the concurrent treap.  However the client, the pipes,
    the boarder, the workers and the collector interleave, the root of every
    version up to [num_committed_] is a complete well-formed treap: exactly the
    tree the sequential algorithm builds from the operations issued up to that
    version, in the order of issue, so its contents are those operations applied
    in that order to the initial contents. *)
Theorem scheduler_strict_order (cfg : config) (Hhash : PerfectHash (cfg_hash cfg))
    (h : heap) (p0 : ptr) (t0 : tree) (ops : list (operation * Z)) (σ : sched) (v : nat) :
  good_start cfg h p0 t0 -> ops_u64 ops ->
  history cfg (scheduler_init cfg h p0) ops σ -> (v <= s_committed σ)%nat ->
  exists c, s_ctxs σ !! v = Some c /\ st c = ST_DONE /\
    rep (s_heap σ) (root c) (version_tree (cfg_hash cfg) t0 ops v) /\
    wf (cfg_hash cfg) (version_tree (cfg_hash cfg) t0 ops v) /\
    to_bag (version_tree (cfg_hash cfg) t0 ops v) = version_bag (to_bag t0) ops v.
Proof.
  intros G U H Hv. destruct (good_history _ _ _ _ _ _ G H) as [k I]. destruct G.
  destruct (inv_coll _ _ _ _ _ I) as [C1 C2 C3].
  pose proof (mi_issued _ _ _ _ _ _ _ (inv_mem _ _ _ _ _ I)).
  destruct (ctx_exists _ _ _ _ _ v I) as [c Hc]; [lia|].
  exists c. split; [done|]. split; [eapply C3; [done|lia]|]. split; [|by apply version_tree_bag].
  eapply version_complete; try done; [lia|]. intros u d Hd Hu. eapply C3; [done|lia].
Qed.

(** C2: no thread runs into undefined behaviour: in every reachable state, every
    step of every thread either waits or succeeds. No node is read through a null
    or dangling pointer, no context or token is accessed out of bounds, and the
    recursion bound of the model is never the reason to stop. *)
Theorem scheduler_no_fault (cfg : config) (h : heap) (p0 : ptr) (t0 : tree)
    (ops : list (operation * Z)) (σ : sched) (l : label) (e : err) :
  good_start cfg h p0 t0 -> history cfg (scheduler_init cfg h p0) ops σ ->
  valid_label cfg σ l -> exec cfg l σ <> Fault e.
Proof.
  intros G H Hl E. destruct (good_history _ _ _ _ _ _ G H) as [k I]. destruct G.
  assert (X := exec_safe cfg t0 l σ k ops gs_vers0 gs_mono0 gs_fuel0 gs_tasks0 I Hl).
  by rewrite E in X.
Qed.

(** C3: the scheduler does not deadlock: if all its threads are spinning or have
    stopped, whatever interleaving led there, then every issued task has been
    committed. *)
Theorem scheduler_no_deadlock (cfg : config) (h : heap) (p0 : ptr) (t0 : tree)
    (ops : list (operation * Z)) (σ : sched) :
  good_start cfg h p0 t0 -> (1 <= num_workers_ cfg)%nat ->
  history cfg (scheduler_init cfg h p0) ops σ -> quiescent cfg σ ->
  s_committed σ = s_issued σ.
Proof.
  intros G HW H Hq. destruct (good_history _ _ _ _ _ _ G H) as [k I]. destruct G.
  by eapply quiet_committed.
Qed.

(** A small scheduler: one pipe, two workers, four tasks, blocks of two. *)
Definition cfg_small : config := mk_config 1 2 2 4 wrap64 20.

Lemma cfg_small_good : good_start cfg_small ∅ None Leaf.
Proof. split; try done. simpl. lia. Qed.

(** Insert 7, 5 and 5 again, then delete 7, with the threads taking turns; the
    deletion at the root waits for the first three versions. *)
Definition rounds (n : nat) : list label :=
  mjoin (replicate n [LPipe 0; LBoard; LWork 0; LWork 1; LCollect]).

Definition schedule_small : list label :=
  [LInit OP_INSERT 7; LPush; LInit OP_INSERT 5; LPush; LInit OP_INSERT 5; LPush] ++ rounds 20 ++
  [LInit OP_DELETE 7; LPush] ++ rounds 20.

Definition ops_small : list (operation * Z) :=
  [(OP_INSERT, 7); (OP_INSERT, 5); (OP_INSERT, 5); (OP_DELETE, 7)].

Example scheduler_strict_order_witness :
  exists σ, run_schedule cfg_small schedule_small (scheduler_init cfg_small ∅ None) = Next σ /\
    s_committed σ = 4%nat /\
    exists c, s_ctxs σ !! 4%nat = Some c /\ st c = ST_DONE /\
      rep (s_heap σ) (root c) (version_tree wrap64 Leaf ops_small 4) /\
      wf wrap64 (version_tree wrap64 Leaf ops_small 4) /\
      to_bag (version_tree wrap64 Leaf ops_small 4) = version_bag (to_bag Leaf) ops_small 4.
Proof.
  destruct (run_schedule cfg_small schedule_small (scheduler_init cfg_small ∅ None))
    as [σ| |] eqn:E; [|by vm_compute in E|by vm_compute in E].
  exists σ. split; [done|].
  assert (s_committed σ = 4%nat) as Hc.
  { enough (match run_schedule cfg_small schedule_small (scheduler_init cfg_small ∅ None) with
            | Next σ => s_committed σ | _ => 0%nat end = 4%nat) as X by (by rewrite E in X).
    vm_compute. reflexivity. }
  split; [done|].
  apply (scheduler_strict_order cfg_small _ ∅ None Leaf ops_small σ 4 cfg_small_good).
  - by apply (bool_decide_unpack _); vm_compute.
  - apply (run_history _ _ schedule_small); [exact E|]. vm_compute. reflexivity.
  - rewrite Hc. done.
Defined.

(** The state before any step. *)
Example scheduler_no_fault_witness :
  exec cfg_small (LInit OP_DELETE 7) (scheduler_init cfg_small ∅ None) <> Fault NullDeref.
Proof.
  apply (scheduler_no_fault cfg_small ∅ None Leaf [] _ _ _ cfg_small_good); [constructor|].
  simpl. lia.
Defined.

(** The same run carried on until every thread has stopped. *)
Example scheduler_no_deadlock_witness :
  exists σ, run_schedule cfg_small (schedule_small ++ rounds 10) (scheduler_init cfg_small ∅ None) = Next σ /\
    s_committed σ = s_issued σ.
Proof.
  destruct (run_schedule cfg_small (schedule_small ++ rounds 10) (scheduler_init cfg_small ∅ None))
    as [σ| |] eqn:E; [|by vm_compute in E|by vm_compute in E].
  exists σ. split; [done|].
  apply (scheduler_no_deadlock cfg_small ∅ None Leaf ops_small σ cfg_small_good).
  - simpl. lia.
  - apply (run_history _ _ (schedule_small ++ rounds 10)); [exact E|]. vm_compute. reflexivity.
  - apply quiescent_b_ok.
    enough (match run_schedule cfg_small (schedule_small ++ rounds 10) (scheduler_init cfg_small ∅ None) with
            | Next σ => quiescent_b cfg_small σ | _ => false end = true) as X by (by rewrite E in X).
    vm_compute. reflexivity.
Defined.
