(* ===== verification/SchedulerFindings.v ===== *)
(** * Runs of the scheduler that go wrong

    Concrete interleavings of [src/lib/treap/scheduler.hpp] after which the
    aggregates, or [get_snapshot], are not what they should be.  Each run is a
    schedule of the executable model, with the real hash under all-zero keys and
    the thread counts the constructor computes. *)

From S2P Require Import Prelude TreapTree AesHash TreapNode TreapUpdate TreapQuery Scheduler.
From S2P Require Import SchedulerTree SchedulerMem SchedulerInv SchedulerSafe SchedulerWork.
From S2P Require Import SchedulerCorrect SchedulerLive.

(** What a client reads: a range query on the snapshot of a version. *)
Definition snapshot_query (cfg : config) (ver : nat) (lo hi : Z) (σ : sched) : res Z :=
  match get_snapshot cfg ver σ with
  | Ok p =>
      match range_estimate_open (cfg_fuel cfg) p lo hi (s_heap σ) with
      | Ok (s, _) => Ok s
      | Err e => Err e
      end
  | Err e => Err e
  end.

Definition issue (o : operation) (e : Z) : list label := [LInit o e; LPush].
Definition times (n : nat) (l : label) : list label := replicate n l.

(** Four threads: two pipes and two workers.  Keys 7, 1, 2, 4 make a path that
    turns right below 1. *)
Definition cfg_race : config := scheduler_config 4 5 4 hash0 20.

Definition ops_race : list (operation * Z) :=
  [(OP_INSERT, 7); (OP_INSERT, 1); (OP_INSERT, 2); (OP_INSERT, 4); (OP_NONE, 0)].

(** All tasks run through the pipes and are submitted; worker 1 completes tasks
    1 to 3; worker 2 fetches task 4 and is delayed; worker 1 fetches the last
    task, which ends its block, and estimates versions 4 to 1 while task 4 is
    still running; then worker 2 goes on. *)
Definition schedule_race : list label :=
  flat_map (fun oe => issue oe.1 oe.2) ops_race ++
  times 30 (LPipe 0) ++ times 30 (LPipe 1) ++ times 4 LBoard ++
  times 13 (LWork 0) ++ times 1 (LWork 1) ++ times 20 (LWork 0) ++
  times 30 (LWork 1) ++ times 30 (LWork 0) ++ times 20 LCollect.

(** ** Deciding facts about the end of a run *)

(** A boolean statement about the state a schedule ends in. *)
Definition after (cfg : config) (ls : list label) (P : sched -> bool) : bool :=
  match run_schedule cfg ls (scheduler_init cfg ∅ None) with Next σ => P σ | _ => false end.

Lemma after_history cfg ls ops P :
  after cfg ls P = true -> schedule_ops cfg ls (scheduler_init cfg ∅ None) = ops ->
  exists σ, history cfg (scheduler_init cfg ∅ None) ops σ /\ P σ = true.
Proof.
  unfold after. destruct (run_schedule cfg ls _) as [σ| |] eqn:E; [|done|done].
  intros HP Hops. exists σ. split; [by eapply run_history|done].
Qed.

(** All is committed, no thread will move again, and the query returned [x]. *)
Definition finished_with (cfg : config) (n ver : nat) (lo hi x : Z) (σ : sched) : bool :=
  (s_committed σ =? n)%nat && quiescent_b cfg σ &&
  match snapshot_query cfg ver lo hi σ with Ok y => y =? x | Err _ => false end.

Lemma finished_with_ok cfg n ver lo hi x σ :
  finished_with cfg n ver lo hi x σ = true ->
  s_committed σ = n /\ quiescent cfg σ /\ snapshot_query cfg ver lo hi σ = Ok x.
Proof.
  unfold finished_with. intros [[H1 H2]%andb_true_iff H3]%andb_true_iff.
  apply Nat.eqb_eq in H1. split_and!; [done|by apply quiescent_b_ok|].
  destruct (snapshot_query cfg ver lo hi σ) as [y|]; [|done]. apply Z.eqb_eq in H3. by subst.
Qed.

(** ** Properties *)

(** A worker estimates its block as soon as its own task lies beyond the
    block, even if another worker is still running a task of the block: there is
    a run in which version 4 gets wrong aggregates, which are never repaired.
    After everything has been committed and every thread has stopped, the range
    query on the snapshot counts 3 elements where the version holds 4. *)
Theorem estimate_race :
  exists σ, history cfg_race (scheduler_init cfg_race ∅ None) ops_race σ /\
    s_committed σ = 5%nat /\ quiescent cfg_race σ /\
    snapshot_query cfg_race 4 0 7 σ = Ok 3 /\
    bag_range_sum 0 7 (version_bag ∅ ops_race 4) = 4.
Proof.
  destruct (after_history cfg_race schedule_race ops_race (finished_with cfg_race 5 4 0 7 3))
    as (σ & Hh & Hf); [vm_compute; reflexivity|vm_compute; reflexivity|].
  exists σ. split; [done|]. destruct (finished_with_ok _ _ _ _ _ _ _ Hf) as (H1 & H2 & H3).
  split_and!; try done.
Qed.

(** The same keys, with a fifth task that copies the whole path.  Worker 1
    completes tasks 1 to 4 and is delayed before it estimates their block;
    worker 2 completes task 5 and estimates its own block, the second one. *)
Definition cfg_snapshot : config := scheduler_config 4 5 4 hash0 20.

Definition ops_snapshot : list (operation * Z) :=
  [(OP_INSERT, 7); (OP_INSERT, 1); (OP_INSERT, 2); (OP_INSERT, 4); (OP_INSERT, 4)].

Definition schedule_snapshot : list label :=
  flat_map (fun oe => issue oe.1 oe.2) ops_snapshot ++
  times 30 (LPipe 0) ++ times 30 (LPipe 1) ++ times 4 LBoard ++
  times 20 (LWork 0) ++ times 30 (LWork 1) ++ times 20 LCollect.

(** Blocks of one task.  Worker 1 runs all four tasks, and worker 2 only starts
    when none is left. *)
Definition cfg_hang : config := scheduler_config 4 4 1 hash0 20.

Definition ops_hang : list (operation * Z) :=
  [(OP_INSERT, 7); (OP_INSERT, 1); (OP_INSERT, 2); (OP_INSERT, 4)].

Definition schedule_hang : list label :=
  flat_map (fun oe => issue oe.1 oe.2) ops_hang ++
  times 30 (LPipe 0) ++ times 30 (LPipe 1) ++ times 4 LBoard ++
  times 80 (LWork 0) ++ times 30 (LWork 1) ++ times 20 LCollect.

(** [get_snapshot] looks at the wrong block when the version is a multiple of
    [block_size_] (blocks are [1..b], [b+1..2b], ... but the block of a version is
    computed as [ver / b]): there is a run in which the snapshot of version 4 is
    handed out before its block is estimated, and the range query on it counts 2
    elements where the version holds 4. *)
Theorem snapshot_wrong_block :
  exists σ, history cfg_snapshot (scheduler_init cfg_snapshot ∅ None) ops_snapshot σ /\
    s_committed σ = 5%nat /\ s_estimated σ !! 0%nat = Some 0%nat /\
    snapshot_query cfg_snapshot 4 0 7 σ = Ok 2 /\
    bag_range_sum 0 7 (version_bag ∅ ops_snapshot 4) = 4.
Proof.
  destruct (after_history cfg_snapshot schedule_snapshot ops_snapshot (fun σ =>
    (s_committed σ =? 5)%nat && bool_decide (s_estimated σ !! 0%nat = Some 0%nat) &&
    match snapshot_query cfg_snapshot 4 0 7 σ with Ok y => y =? 2 | Err _ => false end))
    as (σ & Hh & Hf); [vm_compute; reflexivity|vm_compute; reflexivity|].
  exists σ. apply andb_true_iff in Hf as [[H1 H2]%andb_true_iff H3].
  apply Nat.eqb_eq in H1. apply bool_decide_eq_true in H2.
  destruct (snapshot_query cfg_snapshot 4 0 7 σ) as [y|] eqn:E; [|done].
  apply Z.eqb_eq in H3. subst y. split_and!; done.
Qed.

(** A worker estimates at most one block for each task it fetches, and stops
    once the tasks run out: there is a run that commits every task and stops every
    thread while the block of version 3 has not been estimated, so [get_snapshot]
    spins for ever. *)
Theorem snapshot_hangs :
  exists σ, history cfg_hang (scheduler_init cfg_hang ∅ None) ops_hang σ /\
    s_committed σ = num_tasks_ cfg_hang /\ quiescent cfg_hang σ /\
    get_snapshot cfg_hang 3 σ = Err Blocked.
Proof.
  destruct (after_history cfg_hang schedule_hang ops_hang (fun σ =>
    (s_committed σ =? 4)%nat && quiescent_b cfg_hang σ &&
    match get_snapshot cfg_hang 3 σ with Err Blocked => true | _ => false end))
    as (σ & Hh & Hf); [vm_compute; reflexivity|vm_compute; reflexivity|].
  exists σ. apply andb_true_iff in Hf as [[H1 H2]%andb_true_iff H3].
  apply Nat.eqb_eq in H1. apply quiescent_b_ok in H2.
  split_and!; [done|done|done|]. by destruct (get_snapshot cfg_hang 3 σ) as [|[]].
Qed.
