(* ===== verification/PamNode.v ===== *)
(** * Nodes of the batched treap

    [src/lib/pam/node.hpp]: nodes that carry the values of a batch of versions,
    their constructors and destructors, the trees they stand for, and the
    ownership predicate the in-place and copying operations share. *)

From S2P Require Import Prelude Owned.
From stdpp Require Import sorting.

#[local] Open Scope Z_scope.

(** ** node.hpp *)

Record valver := mk_valver { val : Z; ver : Z }.

(** The array [vals] belongs to its node alone; it is kept in the node as a
    list, and [nvals] is its length. *)
Record node_t := mk_node {
  p_vstat : Z;
  p_pry : Z;
  p_key : Z;
  p_vals : list valver;
  p_aug : Z;
  p_lch : ptr;
  p_rch : ptr;
}.

Definition nvals (n : node_t) : nat := length (p_vals n).

Definition vstat_uninitialized : Z := two64 - 1.
Definition aug_uninitialized : Z := 0.

Definition set_vals (vs : list valver) (n : node_t) : node_t :=
  mk_node (p_vstat n) (p_pry n) (p_key n) vs (p_aug n) (p_lch n) (p_rch n).
Definition set_vstat (v : Z) (n : node_t) : node_t :=
  mk_node v (p_pry n) (p_key n) (p_vals n) (p_aug n) (p_lch n) (p_rch n).
Definition set_aug (a : Z) (n : node_t) : node_t :=
  mk_node (p_vstat n) (p_pry n) (p_key n) (p_vals n) a (p_lch n) (p_rch n).
Definition set_lch (p : ptr) (n : node_t) : node_t :=
  mk_node (p_vstat n) (p_pry n) (p_key n) (p_vals n) (p_aug n) p (p_rch n).
Definition set_rch (p : ptr) (n : node_t) : node_t :=
  mk_node (p_vstat n) (p_pry n) (p_key n) (p_vals n) (p_aug n) (p_lch n) p.

Abbreviation heap := (gmap loc node_t).

(** [t->vals[i]], for a node already read. *)
Definition get_val (n : node_t) (i : nat) : M node_t valver :=
  match p_vals n !! i with Some v => mret v | None => fail BadPtr end.

(** [t->vals[t->nvals-1]] *)
Definition last_val (n : node_t) : M node_t valver :=
  match nvals n with O => fail BadPtr | S i => get_val n i end.

Definition make_node_pry (ver pry key val : Z) : M node_t ptr :=
  new (mk_node vstat_uninitialized pry key [mk_valver val ver] aug_uninitialized None None).

Definition make_node (hash : Z -> Z) (ver key : Z) : M node_t ptr :=
  make_node_pry ver (hash key) key 1.

Definition make_weak_copy (t : ptr) : M node_t ptr :=
  n ← load t;
  v ← last_val n;
  make_node_pry (ver v) (p_pry n) (p_key n) (val v).

Definition subtree_vstat (t : ptr) : M node_t Z :=
  match t with
  | None => mret 0
  | Some _ =>
      n ← load t;
      if p_vstat n =? vstat_uninitialized then fail AssertFail else mret (p_vstat n)
  end.

Definition release_node (t : ptr) : M node_t unit := free t.

Fixpoint release_tree (fuel : nat) (t : ptr) : M node_t unit :=
  match fuel with
  | O => fail OutOfFuel
  | S fuel =>
      match t with
      | None => mret tt
      | Some _ =>
          n ← load t;
          release_tree fuel (p_lch n);;
          release_tree fuel (p_rch n);;
          release_node t
      end
  end.

(** ** Trees *)

Inductive tree :=
  | Leaf
  | Node (vs : list valver) (p k : Z) (l r : tree).

Fixpoint lookup_vals (t : tree) (key : Z) : option (list valver) :=
  match t with
  | Leaf => None
  | Node vs _ k l r =>
      if key =? k then Some vs
      else if key <? k then lookup_vals l key else lookup_vals r key
  end.

Fixpoint all_keys (P : Z -> Prop) (t : tree) : Prop :=
  match t with
  | Leaf => True
  | Node _ _ k l r => P k /\ all_keys P l /\ all_keys P r
  end.

Fixpoint size (t : tree) : nat :=
  match t with Leaf => O | Node _ _ _ l r => S (size l + size r) end.

(** The versions of the values of a node increase. *)
Definition vals_ok (vs : list valver) : Prop :=
  vs <> [] /\ StronglySorted (fun x y => ver x < ver y) vs /\
  Forall (fun x => u64 (val x) /\ 0 <= ver x < vstat_uninitialized) vs.

Section wf.
Context (hash : Z -> Z).

Fixpoint wf (t : tree) : Prop :=
  match t with
  | Leaf => True
  | Node vs p k l r =>
      p = hash k /\ u64 k /\ vals_ok vs /\
      all_keys (fun j => j < k /\ hash j < p) l /\
      all_keys (fun j => k < j /\ hash j < p) r /\
      wf l /\ wf r
  end.
End wf.

Lemma pam_all_keys_impl (P Q : Z -> Prop) t :
  (forall k, P k -> Q k) -> all_keys P t -> all_keys Q t.
Proof. intros HPQ. induction t; naive_solver. Qed.

Lemma pam_all_keys_and (P Q : Z -> Prop) t :
  all_keys (fun k => P k /\ Q k) t <-> all_keys P t /\ all_keys Q t.
Proof. induction t; naive_solver. Qed.

Lemma pam_all_keys_lookup P t k vs : all_keys P t -> lookup_vals t k = Some vs -> P k.
Proof.
  induction t as [|ws p k' l IHl r IHr]; simpl; [done|].
  intros (Hk & Hl & Hr) H. zcases; subst; naive_solver.
Qed.

Lemma pam_all_keys_notin (P : Z -> Prop) t k : all_keys P t -> ~ P k -> lookup_vals t k = None.
Proof.
  intros HP Hk. destruct (lookup_vals t k) eqn:E; [|done].
  by destruct Hk; eapply pam_all_keys_lookup.
Qed.

Lemma wf_lookup hash t k vs : wf hash t -> lookup_vals t k = Some vs -> vals_ok vs /\ u64 k.
Proof.
  induction t as [|ws p k' l IHl r IHr]; simpl; [done|].
  intros (_ & U & H & _ & _ & Wl & Wr) E. zcases; subst; simplify_eq; auto.
Qed.

Lemma pam_wf_absent hash t key :
  wf hash t -> lookup_vals t key = None -> all_keys (fun j => j <> key) t.
Proof.
  induction t as [|vs p k l IHl r IHr]; simpl; [done|].
  intros (_ & _ & _ & Hl & Hr & Wl & Wr) H. zcases; try done.
  - split_and!; [lia|auto|]. eapply pam_all_keys_impl; [|exact Hr]. simpl; intros; lia.
  - split_and!; [lia| |auto]. eapply pam_all_keys_impl; [|exact Hl]. simpl; intros; lia.
Qed.

(** ** Representation and ownership *)

Definition node_data (n : node_t) : list valver * Z * Z := (p_vals n, p_pry n, p_key n).

Fixpoint rep (h : heap) (p : ptr) (t : tree) : Prop :=
  match t with
  | Leaf => p = None
  | Node vs pr k l r =>
      exists a n, p = Some a /\ h !! a = Some n /\ node_data n = (vs, pr, k) /\
        rep h (p_lch n) l /\ rep h (p_rch n) r
  end.

Lemma pam_rep_weaken h h' p t : h ⊆ h' -> rep h p t -> rep h' p t.
Proof.
  intros Hs. revert p. induction t as [|vs pr k l IHl r IHr]; simpl; [done|].
  intros p (a & n & -> & Hn & Hd & Hl & Hr). exists a, n. split_and!; eauto using lookup_weaken.
Qed.

Lemma pam_rep_det h p t t' : rep h p t -> rep h p t' -> t = t'.
Proof.
  revert p t'. induction t as [|vs pr k l IHl r IHr]; intros p [|vs' pr' k' l' r']; simpl.
  - done.
  - intros -> (a & n & ? & _). done.
  - intros (a & n & -> & _) ?. done.
  - intros (a & n & -> & Hn & Hd & Hl & Hr) (a' & n' & Ha & Hn' & Hd' & Hl' & Hr').
    simplify_eq. rewrite Hd in Hd'. simplify_eq. f_equal; eauto.
Qed.

#[global] Program Instance pam_node : TreeNode node_t := {
  get_l := p_lch; get_r := p_rch; put_l := set_lch; put_r := set_rch;
}.
Solve All Obligations with done.

(** The locations of a working set are allocated, and none is persistent. *)
Definition allocated (g h : heap) (D : gset loc) : Prop :=
  forall a, a ∈ D -> is_Some (h !! a) /\ g !! a = None.

(** [powns g sh h p t D]: [p] points to the tree [t].  Its nodes without an
    aggregate belong to the running operation: they are among [D] and reached
    only once.  If [sh] holds, its other subtrees may be shared: they live in the
    persistent heap [g].  [D] may hold further, unreachable, nodes. *)
Fixpoint powns (g : heap) (sh : bool) (h : heap) (p : ptr) (t : tree) (D : gset loc) : Prop :=
  allocated g h D /\
  match t with
  | Leaf => p = None
  | Node vs pr k l r =>
      (sh = true /\ rep g p t) \/
      exists a n Dl Dr, p = Some a /\ h !! a = Some n /\ node_data n = (vs, pr, k) /\
        p_vstat n = vstat_uninitialized /\
        powns g sh h (p_lch n) l Dl /\ powns g sh h (p_rch n) r Dr /\
        (a ∉ Dl) /\ (a ∉ Dr) /\ Dl ## Dr /\ {[a]} ∪ Dl ∪ Dr ⊆ D
  end.

Lemma powns_allocated g sh h p t D : powns g sh h p t D -> allocated g h D.
Proof. destruct t; simpl; tauto. Qed.

Lemma powns_dom g sh h p t D : powns g sh h p t D -> forall a, a ∈ D -> is_Some (h !! a).
Proof. intros H a Ha. by apply (powns_allocated _ _ _ _ _ _ H). Qed.

Lemma powns_frame g sh h h' p t D :
  (forall a, a ∈ D -> h' !! a = h !! a) -> powns g sh h p t D -> powns g sh h' p t D.
Proof.
  revert p D. induction t as [|vs pr k l IHl r IHr]; simpl; intros p D Hk [HD H];
    (split; [intros a Ha; rewrite Hk by done; by apply HD|]); [done|].
  destruct H as [H|(a & n & Dl & Dr & -> & Hn & Hd & Hv & Hl & Hr & F1 & F2 & F3 & HS)]; [by left|right].
  exists a, n, Dl, Dr. split_and!; try done.
  - rewrite Hk; [done|set_solver].
  - apply IHl; [|done]. intros b Hb. apply Hk. set_solver.
  - apply IHr; [|done]. intros b Hb. apply Hk. set_solver.
Qed.

#[global] Instance pam_owned (g : heap) (sh : bool) : OwnedTree node_t tree := {
  owns := powns g sh; owns_dom := powns_dom g sh; owns_frame := powns_frame g sh;
}.

Lemma powns_grow g sh h p t D D' :
  D ⊆ D' -> allocated g h D' -> powns g sh h p t D -> powns g sh h p t D'.
Proof.
  destruct t as [|vs pr k l r]; simpl; intros HS HA [_ H]; [done|]. split; [done|].
  destruct H as [H|(a & n & Dl & Dr & H)]; [by left|right]. exists a, n, Dl, Dr.
  repeat (split; [apply H|]). etrans; [|exact HS]. apply H.
Qed.

Lemma powns_shared g h p t D : allocated g h D -> rep g p t -> powns g true h p t D.
Proof. intros HA. destruct t; [done|]. intros H. split; [done|]. by left. Qed.

Lemma powns_mix g h p t D : powns g false h p t D -> powns g true h p t D.
Proof.
  revert p D. induction t as [|vs pr k l IHl r IHr]; simpl; intros p D [HA H]; [done|].
  split; [done|]. destruct H as [[? _]|(a & n & Dl & Dr & H)]; [done|right].
  exists a, n, Dl, Dr. naive_solver.
Qed.

Lemma powns_rep g sh h p t D : g ⊆ h -> powns g sh h p t D -> rep h p t.
Proof.
  intros Hg. revert p D. induction t as [|vs pr k l IHl r IHr]; intros p D [HA H]; [done|].
  destruct H as [[_ H]|(a & n & Dl & Dr & -> & Hn & Hd & _ & Hl & Hr & _)].
  - by eapply pam_rep_weaken.
  - exists a, n. split_and!; eauto.
Qed.

Lemma allocated_sub g h D D' : D ⊆ D' -> allocated g h D' -> allocated g h D.
Proof. intros HS HA a Ha. apply HA. set_solver. Qed.

(** The persistent part survives an operation on a working set. *)
Lemma acts_persistent g h D h' D' : g ⊆ h -> allocated g h D -> acts h D h' D' -> g ⊆ h'.
Proof.
  intros Hg HA [A _ _]. apply map_subseteq_spec. intros a n Ha. apply A.
  - by eapply lookup_weaken.
  - intros Hin. destruct (HA a Hin). congruence.
Qed.

Lemma acts_allocated g h D h' D' :
  g ⊆ h -> allocated g h D -> acts h D h' D' -> (forall a, a ∈ D' -> is_Some (h' !! a)) ->
  allocated g h' D'.
Proof.
  intros Hg HA [_ B _] Hdom a Ha. split; [by apply Hdom|]. destruct (B a Ha) as [Hin|Hn].
  - by apply HA.
  - by eapply lookup_weaken_None.
Qed.

(** A node of the working set whose children are owned. *)
Lemma powns_node g sh h a n l r Dl Dr :
  h !! a = Some n -> p_vstat n = vstat_uninitialized -> g !! a = None ->
  powns g sh h (p_lch n) l Dl -> powns g sh h (p_rch n) r Dr ->
  a ∉ Dl -> a ∉ Dr -> Dl ## Dr ->
  powns g sh h (Some a) (Node (p_vals n) (p_pry n) (p_key n) l r) ({[a]} ∪ Dl ∪ Dr).
Proof.
  intros Hn Hv Hg Hl Hr F1 F2 F3. split.
  - intros b Hb. assert (b = a \/ b ∈ Dl \/ b ∈ Dr) as [->|[Hb'|Hb']] by set_solver.
    + split; [by exists n|done].
    + by apply (powns_allocated _ _ _ _ _ _ Hl).
    + by apply (powns_allocated _ _ _ _ _ _ Hr).
  - right. exists a, n, Dl, Dr. by split_and!.
Qed.

(** Reading the root to copy it: its locations go to the two subtrees. *)
Lemma powns_read g sh h p vs pr k l r D :
  g ⊆ h -> powns g sh h p (Node vs pr k l r) D ->
  exists a n Dl Dr, p = Some a /\ h !! a = Some n /\ node_data n = (vs, pr, k) /\
    powns g sh h (p_lch n) l Dl /\ powns g sh h (p_rch n) r Dr /\ Dl ## Dr /\ D = Dl ∪ Dr.
Proof.
  intros Hg [HA [[-> (a & n & -> & Hn & Hd & Hl & Hr)]|
    (a & n & Dl & Dr & -> & Hn & Hd & _ & Hl & Hr & F1 & F2 & F3 & HS)]].
  - exists a, n, D, ∅. split_and!; try done.
    + by eapply lookup_weaken.
    + by apply powns_shared.
    + apply powns_shared; [|done]. intros b Hb. set_solver.
    + apply leibniz_equiv. set_solver.
  - exists a, n, (D ∖ Dr), Dr. split_and!; try done.
    + eapply powns_grow; [|eapply allocated_sub; [|exact HA]|exact Hl]; set_solver.
    + set_solver.
    + apply leibniz_equiv. intros b. destruct (decide (b ∈ Dr)); set_solver.
Qed.

(** Taking over the root to overwrite it. *)
Lemma powns_own g h p vs pr k l r D sh :
  powns g sh h p (Node vs pr k l r) D ->
  (sh = true /\ rep g p (Node vs pr k l r)) \/
  exists a n Dl Dr, p = Some a /\ h !! a = Some n /\ node_data n = (vs, pr, k) /\
    p_vstat n = vstat_uninitialized /\
    powns g sh h (p_lch n) l Dl /\ powns g sh h (p_rch n) r Dr /\
    (a ∉ Dl) /\ (a ∉ Dr) /\ Dl ## Dr /\ D = {[a]} ∪ Dl ∪ Dr.
Proof.
  intros [HA [H|(a & n & Dl & Dr & -> & Hn & Hd & Hv & Hl & Hr & F1 & F2 & F3 & HS)]]; [by left|right].
  exists a, n, (D ∖ ({[a]} ∪ Dr)), Dr. split_and!; try done; try (clear -F2; set_solver).
  - eapply powns_grow; [|eapply allocated_sub; [|exact HA]|exact Hl]; set_solver.
  - apply leibniz_equiv. intros b. destruct (decide (b ∈ Dr)), (decide (b = a)); set_solver.
Qed.

Lemma powns_null g sh h D : allocated g h D -> powns g sh h None Leaf D.
Proof. done. Qed.

Lemma allocated_empty g h : allocated g h ∅.
Proof. intros a Ha. set_solver. Qed.

#[export] Hint Resolve powns_dom powns_allocated allocated_empty : core.

(** ** Parallel calls on the two subtrees *)

Abbreviation pmakes g sh := (makes (OwnedTree0 := pam_owned g sh)) (only parsing).

Lemma wp_children g sh o h a n Dl Dr E lm rm Ql Qr :
  g ⊆ h -> h !! a = Some n -> p_vstat n = vstat_uninitialized -> g !! a = None ->
  allocated g h Dl -> allocated g h Dr -> a ∉ Dl -> a ∉ Dr -> Dl ## Dr ->
  E ## {[a]} ∪ Dl ∪ Dr -> (forall b, b ∈ E -> is_Some (h !! b)) ->
  (forall h1 n1, g ⊆ h1 -> (forall b, b ∈ Dl ∪ E -> h1 !! b = h !! b) ->
     h1 !! a = Some n1 -> p_lch n1 = p_lch n -> pmakes g sh Dl lm Ql h1) ->
  (forall h1 n1, g ⊆ h1 -> (forall b, b ∈ Dr ∪ E -> h1 !! b = h !! b) ->
     h1 !! a = Some n1 -> p_rch n1 = p_rch n -> pmakes g sh Dr rm Qr h1) ->
  wp (par_children o (Some a) lm rm)
     (fun _ h' => exists tl tr D', acts h ({[a]} ∪ Dl ∪ Dr) h' D' /\
        powns g sh h' (Some a) (Node (p_vals n) (p_pry n) (p_key n) tl tr) D' /\
        g ⊆ h' /\ (forall b, b ∈ E -> h' !! b = h !! b) /\ E ## D' /\ Ql tl /\ Qr tr) h.
Proof.
  intros Hg Ha Hv Hga HAl HAr Hal Har Hlr HE Hdom Hl Hr.
  assert (forall D, allocated g h D -> D ## dom g) as Hgd.
  { intros D HA b Hb Hin. destruct (HA b Hb) as [_ Hn]. by apply elem_of_dom in Hin as [? ?]; congruence. }
  assert (a ∉ dom g) as Hag by (by apply not_elem_of_dom).
  pose proof (Hgd _ HAl) as Hgl. pose proof (Hgd _ HAr) as Hgr.
  assert (forall h1, (forall b, b ∈ dom g -> h1 !! b = h !! b) -> g ⊆ h1) as Hkeep.
  { intros h1 Hk. apply map_subseteq_spec. intros b m Hb. rewrite Hk.
    - by eapply lookup_weaken.
    - by eapply elem_of_dom_2. }
  eapply wp_mono; [|apply (wp_par_children (OwnedTree0 := pam_owned g sh) o h a n Dl Dr
    (E ∪ dom g) lm rm Ql Qr); try done].
  - intros _ h' (cl & cr & tl & tr & Dl' & Dr' & [J1 J2 J3 J4 J5 [J6 J6'] (J7 & J8 & J9) J10 J11]).
    exists tl, tr, ({[a]} ∪ Dl' ∪ Dr').
    assert (g ⊆ h') as Hg' by (apply Hkeep; intros b Hb; apply J7; set_solver).
    split_and!; try done; [|by intros b Hb; apply J7; set_solver|clear -HE J8 J9; set_solver].
    by apply (powns_node g sh h' a (set_rch cr (set_lch cl n)) tl tr).
  - clear -HE Hag. set_solver.
  - clear -HE Hgl. set_solver.
  - clear -HE Hgr. set_solver.
  - intros b Hb. assert (b ∈ Dl \/ b ∈ Dr \/ b ∈ E \/ b ∈ dom g) as Hb' by (clear -Hb; set_solver).
    destruct Hb' as [H|[H|[H|H]]]; [by apply HAl|by apply HAr|by apply Hdom|].
    apply elem_of_dom in H as [m Hm]. exists m. by eapply lookup_weaken.
  - intros h1 [Hk (n1 & Hn1 & Hc)]. apply (Hl h1 n1); [|set_solver|done|done].
    apply Hkeep. intros b Hb. apply Hk. set_solver.
  - intros h1 [Hk (n1 & Hn1 & Hc)]. apply (Hr h1 n1); [|set_solver|done|done].
    apply Hkeep. intros b Hb. apply Hk. set_solver.
Qed.

(** ** The last value *)

Lemma last_val_spec n (Q : valver -> heap -> Prop) h x :
  last (p_vals n) = Some x -> Q x h -> wp (last_val n) Q h.
Proof.
  intros Hl HQ. unfold last_val, nvals, get_val. rewrite last_lookup in Hl.
  destruct (length (p_vals n)) as [|i] eqn:E.
  - by rewrite (nil_length_inv _ E) in Hl.
  - simpl in Hl. rewrite Hl. by wp_step.
Qed.

Lemma last_nonempty {A} (xs : list A) : xs <> [] -> exists x, last xs = Some x.
Proof. intros H. destruct (last xs) eqn:E; [by eexists|]. by apply last_None in E. Qed.
