(* ===== verification/PamBuild.v ===== *)
(** * Bulk construction of a batched treap

    [src/lib/pam/build.hpp] and [src/lib/pam/build_versioned.hpp]: construction of
    a tree that counts the elements of an array, all at version 0 or one version
    per element. *)

From S2P Require Import Prelude Owned.
From S2P Require TreapTree.
From stdpp Require Import sorting.
From S2P Require Import PamNode.

#[local] Open Scope Z_scope.

(** ** build.hpp *)

Fixpoint split (fuel : nat) (t : ptr) (key : Z) : M node_t (ptr * ptr) :=
  match fuel with
  | O => fail OutOfFuel
  | S fuel =>
      match t with
      | None => mret (None, None)
      | Some _ =>
          n ← load t;
          if key <? p_key n then
            lr ← split fuel (p_lch n) key;
            store t (set_lch lr.2);;
            mret (lr.1, t)
          else
            lr ← split fuel (p_rch n) key;
            store t (set_rch lr.1);;
            mret (t, lr.2)
      end
  end.

(** [merge] and [merge_versioned] differ only in what they do with the values of
    a key that occurs in both trees. *)
Fixpoint merge_by (update : ptr -> ptr -> M node_t unit) (order : list nat -> bool) (fuel : nat)
    (t_0 t_1 : ptr) : M node_t ptr :=
  match fuel with
  | O => fail OutOfFuel
  | S fuel' =>
      match t_0, t_1 with
      | None, _ => mret t_1
      | _, None => mret t_0
      | Some _, Some _ =>
          n_0 ← load t_0;
          n_1 ← load t_1;
          if p_key n_0 =? p_key n_1 then
            update t_0 t_1;;
            par_children (order []) t_0
              (n_0 ← load t_0; n_1 ← load t_1;
               merge_by update (branch 1 order) fuel' (p_lch n_0) (p_lch n_1))
              (n_0 ← load t_0; n_1 ← load t_1;
               merge_by update (branch 2 order) fuel' (p_rch n_0) (p_rch n_1));;
            release_node t_1;;
            mret t_0
          else if p_pry n_1 <? p_pry n_0 then
            lr ← split fuel t_1 (p_key n_0);
            par_children (order []) t_0
              (n_0 ← load t_0; merge_by update (branch 1 order) fuel' (p_lch n_0) lr.1)
              (n_0 ← load t_0; merge_by update (branch 2 order) fuel' (p_rch n_0) lr.2);;
            mret t_0
          else
            lr ← split fuel t_0 (p_key n_1);
            par_children (order []) t_1
              (n_1 ← load t_1; merge_by update (branch 1 order) fuel' lr.1 (p_lch n_1))
              (n_1 ← load t_1; merge_by update (branch 2 order) fuel' lr.2 (p_rch n_1));;
            mret t_1
      end
  end.

(** [t_0->vals[0].val += t_1->vals[0].val] *)
Definition add_values (t_0 t_1 : ptr) : M node_t unit :=
  n_1 ← load t_1;
  v_1 ← get_val n_1 0;
  n_0 ← load t_0;
  v_0 ← get_val n_0 0;
  store t_0 (set_vals (<[0%nat := mk_valver (wrap64 (val v_0 + val v_1)) (ver v_0)]> (p_vals n_0))).

Definition merge : (list nat -> bool) -> nat -> ptr -> ptr -> M node_t ptr := merge_by add_values.

(** ** build_versioned.hpp *)

Definition merge_values (t_0 t_1 : ptr) : M node_t unit :=
  n_0 ← load t_0;
  n_1 ← load t_1;
  val_base ← last_val n_0;
  store t_0 (set_vals (p_vals n_0 ++
    ((fun v => mk_valver (wrap64 (val val_base + val v)) (ver v)) <$> p_vals n_1))).

Definition merge_versioned : (list nat -> bool) -> nat -> ptr -> ptr -> M node_t ptr :=
  merge_by merge_values.

Section build.
Context (hash : Z -> Z).

Fixpoint build (order : list nat -> bool) (fuel : nat) (n : nat) (elems : list Z) : M node_t ptr :=
  match fuel with
  | O => fail OutOfFuel
  | S fuel' =>
      match n, elems with
      | O, _ => mret None
      | 1%nat, e :: _ => make_node hash 0 e
      | _, [] => fail BadPtr
      | _, _ =>
          ts ← par_do (order [])
                 (build (branch 1 order) fuel' (n / 2) elems)
                 (build (branch 2 order) fuel' (n - n / 2) (drop (n / 2) elems));
          merge (branch 3 order) fuel ts.1 ts.2
      end
  end.

Fixpoint build_versioned (order : list nat -> bool) (fuel : nat) (ver : Z) (n : nat) (elems : list Z) : M node_t ptr :=
  match fuel with
  | O => fail OutOfFuel
  | S fuel' =>
      match n, elems with
      | O, _ => mret None
      | 1%nat, e :: _ => make_node hash ver e
      | _, [] => fail BadPtr
      | _, _ =>
          ts ← par_do (order [])
                 (build_versioned (branch 1 order) fuel' ver (n / 2) elems)
                 (build_versioned (branch 2 order) fuel' (wrap64 (ver + Z.of_nat (n / 2))) (n - n / 2)
                    (drop (n / 2) elems));
          merge_versioned (branch 3 order) fuel ts.1 ts.2
      end
  end.
End build.

(** ** Splitting as a function on trees *)

(** [f] is applied to the values of the nodes on the path of [key]. *)
Fixpoint t_split_by (f : list valver -> list valver) (t : tree) (key : Z) : tree * tree :=
  match t with
  | Leaf => (Leaf, Leaf)
  | Node vs p k l r =>
      if key <? k then
        let '(tl, tr) := t_split_by f l key in (tl, Node (f vs) p k tr r)
      else
        let '(tl, tr) := t_split_by f r key in (Node (f vs) p k l tl, tr)
  end.

Lemma pam_t_split_all f P t key :
  all_keys P t -> all_keys P (t_split_by f t key).1 /\ all_keys P (t_split_by f t key).2.
Proof.
  induction t as [|vs p k l IHl r IHr]; simpl; [done|]. intros (Hk & Hl & Hr).
  specialize (IHl Hl). specialize (IHr Hr).
  zcases; [destruct (t_split_by f l key) | destruct (t_split_by f r key)]; simpl in *; tauto.
Qed.

Lemma pam_t_split_size f t key :
  (size (t_split_by f t key).1 + size (t_split_by f t key).2 = size t)%nat.
Proof.
  induction t as [|vs p k l IHl r IHr]; simpl; [done|].
  zcases; [destruct (t_split_by f l key) | destruct (t_split_by f r key)]; simpl in *; lia.
Qed.

Section pieces.
Context {hash : Z -> Z} `{HPH : !TreapTree.PerfectHash hash}.

(** What [f] does to the values of a key is allowed by [R]. *)
Definition keeps (R : relation (option (list valver))) (f : list valver -> list valver) : Prop :=
  (forall x, R x x) /\ (forall vs, vals_ok vs -> vals_ok (f vs) /\ R (Some vs) (Some (f vs))).

Lemma keeps_id : keeps eq id.
Proof. by split. Qed.

Lemma pam_t_split_spec R f t key tl tr :
  keeps R f -> t_split_by f t key = (tl, tr) -> wf hash t ->
  wf hash tl /\ wf hash tr /\ all_keys (fun j => j <= key) tl /\
  all_keys (fun j => key < j) tr /\
  (forall j, j <= key -> R (lookup_vals t j) (lookup_vals tl j)) /\
  (forall j, key < j -> R (lookup_vals t j) (lookup_vals tr j)).
Proof.
  intros [HR Hf]. revert tl tr. induction t as [|vs p k l IHl r IHr]; simpl; intros tl tr.
  { intros [= <- <-] _. by split_and!. }
  intros Hs (Hp & Uk & Hv & Hl & Hr & Wl & Wr). destruct (Hf vs Hv) as [Hv' HRv].
  destruct (Z.ltb_spec key k).
  - pose proof (pam_t_split_all f _ l key Hl) as [Hl1 Hl2].
    destruct (t_split_by f l key) as [a b]. injection Hs as <- <-. simpl in *.
    destruct (IHl _ _ eq_refl Wl) as (Wa & Wb & Ha & Hb & L1 & L2).
    split_and!; try done.
    + eapply pam_all_keys_impl; [|exact Hr]. simpl; intros; lia.
    + intros j Hj. zcases; try lia; auto.
    + intros j Hj. zcases; try lia; auto.
  - pose proof (pam_t_split_all f _ r key Hr) as [Hr1 Hr2].
    destruct (t_split_by f r key) as [a b]. injection Hs as <- <-. simpl in *.
    destruct (IHr _ _ eq_refl Wr) as (Wa & Wb & Ha & Hb & L1 & L2).
    split_and!; try done.
    + eapply pam_all_keys_impl; [|exact Hl]. simpl; intros; lia.
    + intros j Hj. zcases; try lia; auto.
    + intros j Hj. zcases; try lia; auto.
Qed.

(** [l] and [r] hold the keys of [t] below and above [k], where [t] has the
    values [x]; [R] says what may have happened to the values of a key. *)
Record pieces (R : relation (option (list valver))) (k : Z) (x : option (list valver))
    (l r t : tree) : Prop := {
  pc_wf_l : wf hash l;
  pc_wf_r : wf hash r;
  pc_below : all_keys (fun j => j < k /\ hash j < hash k) l;
  pc_above : all_keys (fun j => k < j /\ hash j < hash k) r;
  pc_all P : all_keys P t -> all_keys P l /\ all_keys P r;
  pc_size : (size l + size r <= size t)%nat;
  pc_at : lookup_vals t k = x;
  pc_lookup_l j : j < k -> R (lookup_vals t j) (lookup_vals l j);
  pc_lookup_r j : k < j -> R (lookup_vals t j) (lookup_vals r j);
}.

Lemma pam_pieces_node vs p k l r :
  wf hash (Node vs p k l r) ->
  p = hash k /\ u64 k /\ vals_ok vs /\ pieces eq k (Some vs) l r (Node vs p k l r).
Proof.
  intros (-> & Uk & Hv & Hl & Hr & Wl & Wr). split_and!; [done..|].
  split; try done; try (simpl; lia).
  - intros P HP. simpl in HP. tauto.
  - simpl. by rewrite Z.eqb_refl.
  - intros j Hj. simpl. zcases; done || lia.
  - intros j Hj. simpl. zcases; done || lia.
Qed.

(** Splitting a tree whose root has a lower priority than [key]. *)
Lemma pam_pieces_split R f vs p k l r key :
  let t := Node vs p k l r in
  keeps R f -> wf hash t -> p < hash key ->
  pieces R key None (t_split_by f t key).1 (t_split_by f t key).2 t.
Proof.
  intros t HR W Hp.
  assert (all_keys (fun j => hash j < hash key) t) as Hlow.
  { destruct W as (-> & _ & _ & Hl & Hr & _). simpl. split_and!; [done| |];
      (eapply pam_all_keys_impl; [|eassumption]); simpl; intros; lia. }
  assert (lookup_vals t key = None) as Hnone by (apply (pam_all_keys_notin _ _ _ Hlow); lia).
  pose proof (pam_t_split_all f _ t key Hlow) as [L1 L2].
  pose proof (pam_t_split_all f _ t key (pam_wf_absent _ _ _ W Hnone)) as [N1 N2].
  pose proof (pam_t_split_size f t key) as Hs.
  pose proof (fun P => pam_t_split_all f P t key) as HP.
  destruct (t_split_by f t key) as [a b] eqn:E. cbn [fst snd] in *.
  destruct (pam_t_split_spec _ _ _ _ _ _ HR E W) as (Wa & Wb & Ha & Hb & K1 & K2).
  split; try done.
  - eapply pam_all_keys_impl; [|apply pam_all_keys_and; split; [exact Ha|apply pam_all_keys_and; split;
      [exact N1|exact L1]]]. simpl; intros; lia.
  - by apply pam_all_keys_and.
  - lia.
  - intros j Hj. apply K1. lia.
Qed.

(** What an operation on the trees [t0] and [t1] returns: [C] relates the values
    of each key in [t0], [t1] and the result. *)
Definition result_rel : Type :=
  option (list valver) -> option (list valver) -> option (list valver) -> Prop.

Record combines (C : result_rel) (t0 t1 t : tree) : Prop := {
  cb_wf : wf hash t;
  cb_size : (size t <= size t0 + size t1)%nat;
  cb_all P : all_keys P t0 -> all_keys P t1 -> all_keys P t;
  cb_lookup k : C (lookup_vals t0 k) (lookup_vals t1 k) (lookup_vals t k);
}.

(** Results for the pieces below and above [k] give a result for the whole. *)
Lemma combines_node (C : result_rel) R0 R1 k vs x0 x1 l0 r0 l1 r1 t0 t1 l r :
  (forall a a' b b' c, R0 a a' -> R1 b b' -> C a' b' c -> C a b c) ->
  u64 k -> vals_ok vs -> C x0 x1 (Some vs) -> (S (size l0 + size r0 + size l1 + size r1) <=
    size t0 + size t1)%nat ->
  (forall P, all_keys P t0 -> all_keys P t1 -> P k) ->
  pieces R0 k x0 l0 r0 t0 -> pieces R1 k x1 l1 r1 t1 ->
  combines C l0 l1 l -> combines C r0 r1 r -> combines C t0 t1 (Node vs (hash k) k l r).
Proof.
  intros HC Uk Hv Hx Hs HP P0 P1 [Wl Sl Al Kl] [Wr Sr Ar Kr]. split.
  - simpl. split_and!; try done; [apply Al; [apply P0|apply P1]|apply Ar; [apply P0|apply P1]].
  - simpl. lia.
  - intros P H0 H1. destruct (pc_all _ _ _ _ _ _ P0 P H0), (pc_all _ _ _ _ _ _ P1 P H1).
    simpl. split_and!; [by apply (HP P)|auto|auto].
  - intros j. simpl. destruct (Z.eqb_spec j k) as [->|Hj].
    { by rewrite (pc_at _ _ _ _ _ _ P0), (pc_at _ _ _ _ _ _ P1). }
    destruct (Z.ltb_spec j k).
    + eapply HC; [by eapply pc_lookup_l; [exact P0|]|by eapply pc_lookup_l; [exact P1|]|apply Kl].
    + eapply HC; [eapply pc_lookup_r; [exact P0|lia]|eapply pc_lookup_r; [exact P1|lia]|apply Kr].
Qed.
End pieces.

(** ** split *)

Lemma pam_split_spec g fuel h p t D key :
  powns g false h p t D -> (size t < fuel)%nat ->
  wp (split fuel p key)
     (fun lr h' => exists D1 D2, acts h D h' (D1 ∪ D2) /\ D1 ## D2 /\
        powns g false h' lr.1 (t_split_by id t key).1 D1 /\
        powns g false h' lr.2 (t_split_by id t key).2 D2) h.
Proof.
  revert h p t D. induction fuel as [|fuel IH]; intros h p t D Ho Hf; [lia|].
  destruct t as [|vs pr k l r].
  { assert (HA := powns_allocated _ _ _ _ _ _ Ho). destruct Ho as [_ ->].
    cbn [split]. wp_step. exists D, ∅. split_and!; try done.
    eapply acts_equiv; [reflexivity| |apply acts_refl]. set_solver. }
  assert (HA := powns_allocated _ _ _ _ _ _ Ho).
  apply powns_own in Ho as [[? _]|(a & n & Dl & Dr & -> & Hn & Hd & Hv & Hl & Hr & F1 & F2 & F3 & ->)];
    [done|].
  unfold node_data in Hd. simplify_eq. simpl in Hf. cbn [split t_split_by]. wp_step. wp_step.
  assert (is_Some (h !! a) /\ g !! a = None) as [_ Hga] by (apply HA; set_solver).
  destruct (Z.ltb_spec key (p_key n)); wp_step.
  - eapply wp_mono; [|apply (IH h _ l Dl); [done|lia]].
    intros [q1 q2] h1 (D1 & D2 & Hacts & HD & O1 & O2).
    destruct (t_split_by id l key) as [tl tr]. cbn [fst snd] in *.
    destruct (acts_child h a n (set_lch q2 n) Dl Dr h1 (D1 ∪ D2))
      as (Ha1 & A & F4 & F5 & K1 & K2); try done; [by eapply powns_dom|].
    repeat wp_step. exists D1, ({[a]} ∪ D2 ∪ Dr).
    split_and!.
    + eapply acts_equiv; [| |exact A]; clear; set_solver.
    + clear -HD F4 F5. set_solver.
    + eapply powns_frame; [|exact O1]. intros b Hb. apply K2. set_solver.
    + apply (powns_node g false _ a (set_lch q2 n)); try done; try (clear -F4 F5; set_solver).
      * apply lookup_insert_eq.
      * eapply powns_frame; [|exact O2]. intros b Hb. apply K2. set_solver.
      * by eapply powns_frame.
  - eapply wp_mono; [|apply (IH h _ r Dr); [done|lia]].
    intros [q1 q2] h1 (D1 & D2 & Hacts & HD & O1 & O2).
    destruct (t_split_by id r key) as [tl tr]. cbn [fst snd] in *.
    destruct (acts_child h a n (set_rch q1 n) Dr Dl h1 (D1 ∪ D2))
      as (Ha1 & A & F4 & F5 & K1 & K2); try done; [by eapply powns_dom|].
    repeat wp_step. exists ({[a]} ∪ Dl ∪ D1), D2.
    split_and!.
    + eapply acts_equiv; [| |exact A]; clear; set_solver.
    + clear -HD F4 F5. set_solver.
    + apply (powns_node g false _ a (set_rch q1 n)); try done; try (clear -F4 F5; set_solver).
      * apply lookup_insert_eq.
      * by eapply powns_frame.
      * eapply powns_frame; [|exact O1]. intros b Hb. apply K2. set_solver.
    + eapply powns_frame; [|exact O2]. intros b Hb. apply K2. set_solver.
Qed.

(** ** Merging owned trees *)

Section merge.
Context {hash : Z -> Z} `{HPH : !TreapTree.PerfectHash hash} (g : heap).

(** [K] must hold of the values of a key that occurs in both trees. *)
Definition compatible (K : relation (list valver)) (t0 t1 : tree) : Prop :=
  forall k x y, lookup_vals t0 k = Some x -> lookup_vals t1 k = Some y -> K x y.

(** What a call [m p q] promises of two owned trees. *)
Definition merges (fuel : nat) (m : ptr -> ptr -> M node_t ptr) (K : relation (list valver))
    (C : result_rel) : Prop := forall h p q t0 t1 D0 D1,
  g ⊆ h -> powns g false h p t0 D0 -> powns g false h q t1 D1 -> D0 ## D1 ->
  wf hash t0 -> wf hash t1 -> compatible K t0 t1 ->
  (size t0 + size t1 < fuel)%nat ->
  pmakes g false (D0 ∪ D1) (m p q) (combines (hash := hash) C t0 t1) h.

Lemma pam_merges_swap fuel m K C :
  merges fuel m K C -> merges fuel (fun p q => m q p) (flip K) (fun x y => C y x).
Proof.
  intros H h p q t0 t1 D0 D1 Hg O0 O1 HD W0 W1 HK Hf.
  apply (makes_equiv (D1 ∪ D0)); [set_solver|].
  eapply wp_mono; [|apply (H h q p t1 t0 D1 D0); try done; [intros k x y Hx Hy; by eapply HK|lia]].
  intros c h' (t & D & A & O & [W S P L]). exists t, D. split_and!; try done.
  split; auto. lia.
Qed.

Lemma compatible_below R0 R1 K k x0 x1 l0 r0 l1 r1 t0 t1 :
  (forall a a' x, R0 a a' -> a' = Some x -> a = Some x) ->
  (forall a a' x, R1 a a' -> a' = Some x -> a = Some x) ->
  pieces (hash := hash) R0 k x0 l0 r0 t0 -> pieces (hash := hash) R1 k x1 l1 r1 t1 ->
  compatible K t0 t1 -> compatible K l0 l1 /\ compatible K r0 r1.
Proof.
  intros H0 H1 P0 P1 HK. split; intros j x y Hx Hy.
  - assert (j < k) by apply (pam_all_keys_lookup _ _ _ _ (pc_below _ _ _ _ _ _ P0) Hx).
    eapply HK; [eapply H0|eapply H1]; try done; by eapply pc_lookup_l.
  - assert (k < j) by apply (pam_all_keys_lookup _ _ _ _ (pc_above _ _ _ _ _ _ P0) Hx).
    eapply HK; [eapply H0|eapply H1]; try done; by eapply pc_lookup_r.
Qed.

(** [t] has the root of higher priority: [u] is split around it, and its parts
    are merged with the subtrees of [t]. *)
Lemma pam_merge_around o fuel m1 m2 K (C : result_rel) h p q vs k l r vs' p' k' l' r' D D' :
  let t := Node vs (hash k) k l r in let u := Node vs' p' k' l' r' in
  merges fuel m1 K C -> merges fuel m2 K C -> C (Some vs) None (Some vs) ->
  g ⊆ h -> powns g false h p t D -> powns g false h q u D' -> D ## D' ->
  wf hash t -> wf hash u -> compatible K t u ->
  (size t + size u < S fuel)%nat -> p' < hash k ->
  pmakes g false (D ∪ D')
    (lr ← split (S fuel) q k;
     par_children o p (n ← load p; m1 (p_lch n) lr.1) (n ← load p; m2 (p_rch n) lr.2);;
     mret p) (combines (hash := hash) C t u) h.
Proof.
  intros t u IH1 IH2 HC Hg O O' HD W W' HK Hf Hp.
  assert (HA := powns_allocated _ _ _ _ _ _ O).
  assert (HA' := powns_allocated _ _ _ _ _ _ O').
  apply powns_own in O as [[? _]|(a & n & Dl & Dr & -> & Hn & Hd & Hv & Hl & Hr & F1 & F2 & F3 & ->)];
    [done|].
  destruct (pam_pieces_node _ _ _ _ _ W) as (_ & Uk & Uv & P0).
  pose proof (pam_pieces_split eq id _ _ _ _ _ k keeps_id W' Hp) as P1. fold t in P0. fold u in P1.
  destruct (HA a) as [_ Hga]; [set_solver|].
  unfold makes. wp_step. eapply wp_mono; [|apply (pam_split_spec g _ h q u D'); [done|lia]].
  intros [ql qr] h1 (Da & Db & A & Hab & Oa & Ob). cbn [fst snd] in Oa, Ob.
  assert (g ⊆ h1) as Hg1 by by eapply acts_persistent.
  destruct (acts_frame h D' h1 (Da ∪ Db) ({[a]} ∪ Dl ∪ Dr)) as (A1 & Hdisj & Hkeep); [|done|done|].
  { intros b Hb. by apply HA. }
  assert (h1 !! a = Some n) as Hn1 by (rewrite Hkeep; [done|set_solver]).
  destruct (t_split_by id u k) as [ta tb]. cbn [fst snd] in *.
  destruct (compatible_below eq eq K k _ _ _ _ _ _ _ _ ltac:(congruence) ltac:(congruence) P0 P1 HK)
    as [HKl HKr].
  pose proof (pc_size _ _ _ _ _ _ P0). pose proof (pc_size _ _ _ _ _ _ P1).
  assert (powns g false h1 (p_lch n) l Dl) as Hl1.
  { eapply powns_frame; [|exact Hl]. intros b Hb. apply Hkeep. set_solver. }
  assert (powns g false h1 (p_rch n) r Dr) as Hr1.
  { eapply powns_frame; [|exact Hr]. intros b Hb. apply Hkeep. set_solver. }
  assert (forall D1 D2, allocated g h1 D1 -> allocated g h1 D2 -> allocated g h1 (D1 ∪ D2)) as HAU.
  { intros D1 D2 H1 H2 b [Hb|Hb]%elem_of_union; auto. }
  wp_step. eapply wp_mono; [|eapply (wp_children g false o h1 a n (Dl ∪ Da) (Dr ∪ Db) ∅ _ _
    (combines (hash := hash) C l ta) (combines (hash := hash) C r tb)); try done].
  - intros _ h2 (tl & tr & D2 & A2 & O2 & _ & _ & _ & Ql & Qr). wp_step.
    injection Hd as Ev Ep Ek. rewrite Ev, Ep, Ek in O2.
    eexists _, D2. split_and!; [|exact O2|].
    + eapply acts_trans; [|exact A2].
      eapply acts_equiv; [| |exact A1]; clear; set_solver.
    + eapply combines_node; [|done|done|exact HC| | |exact P0|exact P1|done|done].
      * intros; congruence.
      * subst t. simpl in *. lia.
      * intros P HP _. apply HP.
  - apply HAU; eauto.
  - apply HAU; eauto.
  - clear -F1 Hdisj. set_solver.
  - clear -F2 Hdisj. set_solver.
  - clear -F3 Hab Hdisj. set_solver.
  - intros h2 n2 Hg2 K2 H2 Hc. unfold makes. wp_step. eapply wp_load; [exact H2|].
    rewrite Hc. apply IH1; try done.
    + eapply powns_frame; [|exact Hl1]. intros b Hb. apply K2. set_solver.
    + eapply powns_frame; [|exact Oa]. intros b Hb. apply K2. set_solver.
    + clear -Hdisj. set_solver.
    + apply P0.
    + apply P1.
    + subst t; simpl in *; lia.
  - intros h2 n2 Hg2 K2 H2 Hc. unfold makes. wp_step. eapply wp_load; [exact H2|].
    rewrite Hc. apply IH2; try done.
    + eapply powns_frame; [|exact Hr1]. intros b Hb. apply K2. set_solver.
    + eapply powns_frame; [|exact Ob]. intros b Hb. apply K2. set_solver.
    + clear -Hdisj. set_solver.
    + apply P0.
    + apply P1.
    + subst t; simpl in *; lia.
Qed.

Context (update : ptr -> ptr -> M node_t unit)
  (comb : list valver -> list valver -> list valver).

(** Both trees have values for the keys that [comb] joins. *)
Definition joins : result_rel :=
  fun x y z => z = union_with (fun a b => Some (comb a b)) x y.

Definition comb_ok : relation (list valver) := fun x y => vals_ok (comb x y).

(** [update] replaces the values of the first node. *)
Definition updates : Prop := forall h a0 n0 a1 n1,
  h !! a0 = Some n0 -> h !! a1 = Some n1 -> p_vals n0 <> [] -> p_vals n1 <> [] ->
  wp (update (Some a0) (Some a1))
     (fun _ h' => h' = <[a0 := set_vals (comb (p_vals n0) (p_vals n1)) n0]> h) h.

Lemma pam_merge_equal o o1 o2 fuel h p q vs0 l0 r0 k vs1 l1 r1 D0 D1 :
  let t0 := Node vs0 (hash k) k l0 r0 in let t1 := Node vs1 (hash k) k l1 r1 in
  updates -> (forall order, merges fuel (merge_by update order fuel) comb_ok joins) ->
  g ⊆ h -> powns g false h p t0 D0 -> powns g false h q t1 D1 -> D0 ## D1 ->
  wf hash t0 -> wf hash t1 -> compatible comb_ok t0 t1 ->
  (size t0 + size t1 < S fuel)%nat ->
  pmakes g false (D0 ∪ D1)
    (update p q;;
     par_children o p
       (n_0 ← load p; n_1 ← load q; merge_by update o1 fuel (p_lch n_0) (p_lch n_1))
       (n_0 ← load p; n_1 ← load q; merge_by update o2 fuel (p_rch n_0) (p_rch n_1));;
     release_node q;;
     mret p) (combines (hash := hash) joins t0 t1) h.
Proof.
  intros t0 t1 Hup IH Hg O0 O1 HD W0 W1 HK Hf.
  assert (HA0 := powns_allocated _ _ _ _ _ _ O0).
  assert (HA1 := powns_allocated _ _ _ _ _ _ O1).
  apply powns_own in O0
    as [[? _]|(a0 & n0 & Dl0 & Dr0 & -> & Hn0 & Hd0 & Hv0 & Hl0 & Hr0 & F1 & F2 & F3 & ->)]; [done|].
  apply powns_own in O1
    as [[? _]|(a1 & n1 & Dl1 & Dr1 & -> & Hn1 & Hd1 & Hv1 & Hl1 & Hr1 & G1 & G2 & G3 & ->)]; [done|].
  destruct (pam_pieces_node _ _ _ _ _ W0) as (_ & Uk & Uv0 & P0).
  destruct (pam_pieces_node _ _ _ _ _ W1) as (_ & _ & Uv1 & P1). fold t0 in P0. fold t1 in P1.
  destruct (compatible_below eq eq comb_ok k _ _ _ _ _ _ _ _ ltac:(congruence) ltac:(congruence)
    P0 P1 HK) as [HKl HKr].
  assert (vals_ok (comb vs0 vs1)) as Hok.
  { apply (HK k); [apply P0|apply P1]. }
  destruct (HA0 a0) as [_ Hga0]; [set_solver|]. destruct (HA1 a1) as [_ Hga1]; [set_solver|].
  injection Hd0 as Ev0 Ep0 Ek0. injection Hd1 as Ev1 Ep1 Ek1.
  unfold makes. wp_step.
  eapply wp_mono; [|apply (Hup h a0 n0 a1 n1); [done|done|rewrite Ev0; apply Uv0|rewrite Ev1; apply Uv1]].
  intros _ h1 ->. rewrite Ev0, Ev1. set (n0' := set_vals _ n0). set (h1 := <[a0 := n0']> h).
  assert (forall c s Ds, powns g false h c s Ds -> a0 ∉ Ds -> powns g false h1 c s Ds) as Hold.
  { intros c s Ds Hs HDs. eapply powns_frame; [|exact Hs]. intros b Hb.
    unfold h1. rewrite lookup_insert_ne; [done|congruence]. }
  assert (a0 <> a1) as Hne by (clear -HD; set_solver).
  assert (h1 !! a1 = Some n1) as Hn1' by (unfold h1; by rewrite lookup_insert_ne).
  assert (acts h ({[a0]} ∪ Dl0 ∪ Dr0 ∪ ({[a1]} ∪ Dl1 ∪ Dr1)) h1
      ({[a0]} ∪ (Dl0 ∪ Dl1) ∪ (Dr0 ∪ Dr1) ∪ {[a1]})) as A1.
  { eapply acts_equiv; [reflexivity| |apply acts_store]; clear; set_solver. }
  assert (g ⊆ h1) as Hg1.
  { apply insert_subseteq_r; [done|done]. }
  assert (forall D D', allocated g h D -> allocated g h D' -> a0 ∉ D ∪ D' ->
    allocated g h1 (D ∪ D')) as HAU.
  { intros D D' HA HA' Hn b Hb. unfold h1. rewrite lookup_insert_ne by (clear -Hb Hn; set_solver).
    apply elem_of_union in Hb as [Hb|Hb]; auto. }
  wp_step. eapply wp_mono; [|eapply (wp_children g false o h1 a0 n0' (Dl0 ∪ Dl1) (Dr0 ∪ Dr1) {[a1]} _ _
    (combines (hash := hash) joins l0 l1) (combines (hash := hash) joins r0 r1));
    [done|apply lookup_insert_eq|done|done|..]; try done].
  - intros _ h2 (tl & tr & D2 & A2 & O2 & Hg2 & K2 & E2 & Ql & Qr).
    assert (h2 !! a1 = Some n1) as Hn2 by (rewrite K2; [done|set_solver]).
    unfold release_node. repeat wp_step.
    unfold n0' in O2. cbn [set_vals p_vals p_pry p_key] in O2. rewrite Ep0, Ek0 in O2.
    eexists _, D2. split_and!; [|eapply powns_frame; [|exact O2]|].
    + eapply acts_trans; [exact A1|].
      destruct (acts_frame h1 ({[a0]} ∪ (Dl0 ∪ Dl1) ∪ (Dr0 ∪ Dr1)) h2 D2 {[a1]})
        as (A3 & _ & _); [| |exact A2|].
      * intros b ->%elem_of_singleton. by exists n1.
      * clear -HD G1 G2 Hne. set_solver.
      * eapply acts_trans; [exact A3|].
        eapply acts_equiv; [reflexivity| |apply acts_free]; clear -E2; set_solver.
    + intros b Hb. rewrite lookup_delete_ne; [done|]. clear -E2 Hb. set_solver.
    + eapply (combines_node joins eq eq k _ (Some vs0) (Some vs1));
        [|done|done|done| | |exact P0|exact P1|done|done].
      * intros; congruence.
      * subst t0 t1. cbn [size]. lia.
      * intros P HP _. apply HP.
  - apply HAU; eauto. clear -HD F1. set_solver.
  - apply HAU; eauto. clear -HD F2. set_solver.
  - clear -HD F1. set_solver.
  - clear -HD F2. set_solver.
  - clear -HD F3 G3. set_solver.
  - clear -HD G1 G2 Hne. set_solver.
  - intros b ->%elem_of_singleton. by exists n1.
  - intros h2 n2 Hg2 K2 H2 Hc. unfold makes. wp_step. eapply wp_load; [exact H2|]. wp_step.
    eapply wp_load; [rewrite K2; [exact Hn1'|set_solver]|]. rewrite Hc. apply IH; try done.
    + eapply powns_frame; [|apply (Hold _ _ _ Hl0); done]. intros b Hb. apply K2. set_solver.
    + eapply powns_frame; [|apply (Hold _ _ _ Hl1); clear -HD; set_solver].
      intros b Hb. apply K2. set_solver.
    + clear -HD. set_solver.
    + apply P0.
    + apply P1.
    + subst t0 t1; simpl in *; lia.
  - intros h2 n2 Hg2 K2 H2 Hc. unfold makes. wp_step. eapply wp_load; [exact H2|]. wp_step.
    eapply wp_load; [rewrite K2; [exact Hn1'|set_solver]|]. rewrite Hc. apply IH; try done.
    + eapply powns_frame; [|apply (Hold _ _ _ Hr0); done]. intros b Hb. apply K2. set_solver.
    + eapply powns_frame; [|apply (Hold _ _ _ Hr1); clear -HD; set_solver].
      intros b Hb. apply K2. set_solver.
    + clear -HD. set_solver.
    + apply P0.
    + apply P1.
    + subst t0 t1; simpl in *; lia.
Qed.

Lemma merge_by_spec order fuel :
  updates -> merges fuel (merge_by update order fuel) comb_ok joins.
Proof.
  intros Hup. revert order. induction fuel as [|fuel IH]; intros order h p q t0 t1 D0 D1 Hg O0 O1 HD W0 W1 HK Hf; [lia|].
  assert (forall D E h, allocated g h D -> allocated g h E -> allocated g h (D ∪ E)) as HAU.
  { intros D E h0 HA HE b [Hb|Hb]%elem_of_union; auto. }
  unfold makes. cbn [merge_by].
  destruct t0 as [|vs0 p0 k0 l0 r0].
  { assert (HA := powns_allocated _ _ _ _ _ _ O0). destruct O0 as [_ ->]. wp_step.
    exists t1, (D0 ∪ D1). split_and!; [apply acts_refl| |].
    - eapply powns_grow; [| |exact O1]; [set_solver|]. apply HAU; eauto.
    - split; try done. intros k. simpl. by destruct (lookup_vals t1 k). }
  assert (O0' := O0). apply powns_own in O0' as [[? _]|(a0 & n0 & _ & _ & -> & Hn0 & Hd0 & _)]; [done|].
  destruct t1 as [|vs1 p1 k1 l1 r1].
  { assert (HA := powns_allocated _ _ _ _ _ _ O1). destruct O1 as [_ ->]. wp_step.
    exists (Node vs0 p0 k0 l0 r0), (D0 ∪ D1). split_and!; [apply acts_refl| |].
    - eapply powns_grow; [| |exact O0]; [set_solver|]. apply HAU; eauto.
    - split; try done; [simpl; lia|]. intros k. simpl (lookup_vals Leaf k).
      by destruct (lookup_vals (Node vs0 p0 k0 l0 r0) k). }
  assert (O1' := O1). apply powns_own in O1' as [[? _]|(a1 & n1 & _ & _ & -> & Hn1 & Hd1 & _)]; [done|].
  injection Hd0 as _ Ep0 Ek0. injection Hd1 as _ Ep1 Ek1.
  destruct (pam_pieces_node _ _ _ _ _ W0) as (Hp0 & Uk0 & _ & _).
  destruct (pam_pieces_node _ _ _ _ _ W1) as (Hp1 & Uk1 & _ & _).
  do 4 wp_step. rewrite Ek0, Ek1, Ep0, Ep1. clear Ep0 Ep1.
  destruct (Z.eqb_spec k0 k1) as [<-|Hne]; [|destruct (Z.ltb_spec p1 p0) as [Hlt|Hle]]; subst p0 p1.
  - by eapply pam_merge_equal.
  - eapply (pam_merge_around (order []) fuel _ _ comb_ok joins); try apply IH; try done.
  - assert (hash k0 < hash k1).
    { destruct (decide (hash k0 = hash k1)) as [E|]; [|lia]. by apply TreapTree.hash_inj in E. }
    apply (makes_equiv (D1 ∪ D0)); [set_solver|].
    eapply wp_mono; [|eapply (pam_merge_around (order []) fuel (fun p q => merge_by update _ fuel q p) (fun p q => merge_by update _ fuel q p)
      (flip comb_ok) (fun x y => joins y x)); try apply pam_merges_swap, IH; try done; [|simpl in *; lia]].
    + intros c h' (t & D & A & O & [W S P L]). exists t, D. split_and!; try done.
      split; auto. lia.
    + intros k x y Hx Hy. by eapply HK.
Qed.
End merge.

(** ** build *)

Definition add_first (xs ys : list valver) : list valver :=
  match xs, ys with
  | x :: xs', y :: _ => mk_valver (wrap64 (val x + val y)) (ver x) :: xs'
  | _, _ => xs
  end.

Lemma add_values_updates : updates add_values add_first.
Proof.
  intros h a0 n0 a1 n1 H0 H1 V0 V1. unfold add_values, get_val.
  destruct n0 as [s0 p0 k0 [|x xs] g0 l0 r0], n1 as [s1 p1 k1 [|y ys] g1 l1 r1]; try done.
  simpl. repeat (wp_step; simpl). done.
Qed.

(** [t_1]'s values count on from the last value of [t_0]. *)
Definition rebase (base : Z) (vs : list valver) : list valver :=
  (fun v => mk_valver (wrap64 (base + val v)) (ver v)) <$> vs.

Definition append_values (xs ys : list valver) : list valver :=
  match last xs with Some b => xs ++ rebase (val b) ys | None => xs end.

Lemma merge_values_updates : updates merge_values append_values.
Proof.
  intros h a0 n0 a1 n1 H0 H1 V0 V1. unfold merge_values.
  destruct (last_nonempty _ V0) as [b Hb].
  do 4 wp_step. wp_step. eapply last_val_spec; [exact Hb|].
  eapply wp_store; [done|]. unfold append_values. by rewrite Hb.
Qed.

(** The values of [k] after each of its occurrences in [es], when the first
    element has version [v] and [c] occurrences came before. *)
Fixpoint hist (v c : Z) (k : Z) (es : list Z) : list valver :=
  match es with
  | [] => []
  | e :: es =>
      if e =? k then mk_valver (wrap64 (c + 1)) v :: hist (v + 1) (c + 1) k es
      else hist (v + 1) c k es
  end.

Fixpoint count (k : Z) (es : list Z) : Z :=
  match es with [] => 0 | e :: es => (if e =? k then 1 else 0) + count k es end.

Lemma pam_count_app k es es' : count k (es ++ es') = count k es + count k es'.
Proof. induction es; simpl; lia. Qed.

Lemma count_nonneg k es : 0 <= count k es.
Proof. induction es as [|e es IH]; simpl; [lia|]. destruct (e =? k); lia. Qed.

Lemma hist_app v c k es es' :
  hist v c k (es ++ es') = hist v c k es ++ hist (v + Z.of_nat (length es)) (c + count k es) k es'.
Proof.
  revert v c. induction es as [|e es IH]; intros v c; simpl.
  - f_equal; lia.
  - rewrite !IH.
    destruct (e =? k); simpl; [replace (v + 1 + _) with (v + Z.of_nat (S (length es))) by lia;
      replace (c + 1 + _) with (c + (1 + count k es)) by lia; done|].
    replace (v + 1 + _) with (v + Z.of_nat (S (length es))) by lia. done.
Qed.

Lemma hist_rebase v c d k es : hist v (c + d) k es = rebase (wrap64 c) (hist v d k es).
Proof.
  revert v d. induction es as [|e es IH]; intros v d; simpl; [done|].
  destruct (e =? k); simpl.
  - rewrite wrap64_add_l, wrap64_add_r. f_equal; [f_equal; f_equal; lia|].
    by rewrite <- IH, Z.add_assoc.
  - apply IH.
Qed.

Lemma hist_nil v c k es : hist v c k es = [] <-> count k es = 0.
Proof.
  revert v c. induction es as [|e es IH]; intros v c; simpl; [done|].
  destruct (e =? k); simpl; [|apply IH]. pose proof (count_nonneg k es). split; [done|lia].
Qed.

Lemma hist_last v c k es x : last (hist v c k es) = Some x -> val x = wrap64 (c + count k es).
Proof.
  revert v c. induction es as [|e es IH]; intros v c; simpl; [done|].
  destruct (e =? k).
  - rewrite last_cons. destruct (last (hist (v + 1) (c + 1) k es)) eqn:E.
    + intros [= ->]. rewrite (IH _ _ E). f_equal. lia.
    + intros [= <-]. simpl. apply last_None, hist_nil in E. f_equal. lia.
  - intros H. rewrite (IH _ _ H). f_equal.
Qed.

Lemma hist_versions v c k es x :
  x ∈ hist v c k es -> u64 (val x) /\ v <= ver x < v + Z.of_nat (length es).
Proof.
  revert v c. induction es as [|e es IH]; intros v c; simpl; [by intros ?%elem_of_nil|].
  destruct (e =? k).
  - intros [->|H]%elem_of_cons; simpl; [split; [auto with u64|lia]|].
    destruct (IH _ _ H). split; [done|lia].
  - intros H. destruct (IH _ _ H). split; [done|lia].
Qed.

Lemma hist_sorted v c k es : StronglySorted (fun x y => ver x < ver y) (hist v c k es).
Proof.
  revert v c. induction es as [|e es IH]; intros v c; simpl; [constructor|].
  destruct (e =? k); [|apply IH]. constructor; [apply IH|].
  apply Forall_forall. intros x Hx. apply hist_versions in Hx. simpl. lia.
Qed.

Lemma hist_ok v c k es :
  0 <= v -> v + Z.of_nat (length es) <= vstat_uninitialized -> hist v c k es <> [] -> vals_ok (hist v c k es).
Proof.
  intros H0 Hv Hne. split_and!; [done|apply hist_sorted|].
  apply Forall_forall. intros x Hx. apply hist_versions in Hx as [??]. split; [done|lia].
Qed.

(** The values [build] gives a key: its number of occurrences, at version 0. *)
Definition total (k : Z) (es : list Z) : list valver :=
  if count k es =? 0 then [] else [mk_valver (wrap64 (count k es)) 0].

Definition nonempty {A} (l : list A) : option (list A) :=
  match l with [] => None | _ => Some l end.

Lemma take_halves {A} n n1 (es : list A) :
  (n1 <= n)%nat -> take n es = take n1 es ++ take (n - n1) (drop n1 es).
Proof.
  intros H. rewrite <- (take_drop n1 (take n es)), take_take, skipn_firstn_comm.
  f_equal. f_equal. lia.
Qed.

Lemma total_join k es es' :
  nonempty (total k (es ++ es')) =
    union_with (fun a b => Some (add_first a b)) (nonempty (total k es)) (nonempty (total k es')).
Proof.
  unfold total. rewrite pam_count_app. pose proof (count_nonneg k es). pose proof (count_nonneg k es').
  zcases; try lia; simpl; try done.
  - do 3 f_equal. f_equal. lia.
  - do 3 f_equal. f_equal. lia.
  - rewrite wrap64_add_l, wrap64_add_r. done.
Qed.

Lemma total_ok k es : total k es <> [] -> total k es = [mk_valver (wrap64 (count k es)) 0].
Proof. unfold total. by destruct (count k es =? 0). Qed.

Lemma first_ok x : u64 x -> vals_ok [mk_valver x 0].
Proof.
  intros H. split_and!; [done|repeat constructor|]. apply Forall_singleton. by split.
Qed.

Lemma hist_join v k es es' :
  nonempty (hist v 0 k (es ++ es')) =
    union_with (fun a b => Some (append_values a b)) (nonempty (hist v 0 k es))
      (nonempty (hist (v + Z.of_nat (length es)) 0 k es')).
Proof.
  rewrite hist_app, Z.add_0_l.
  destruct (hist v 0 k es) as [|x xs] eqn:E.
  - apply hist_nil in E. rewrite E. simpl. by destruct (hist _ 0 k es').
  - assert (count k es <> 0) as Hc by (intros H; apply (hist_nil v 0) in H; congruence).
    rewrite <- E. destruct (last_nonempty (hist v 0 k es)) as [b Hb]; [by rewrite E|].
    assert (append_values (hist v 0 k es) (hist (v + Z.of_nat (length es)) 0 k es') =
      hist v 0 k es ++ hist (v + Z.of_nat (length es)) (count k es) k es') as <-.
    { unfold append_values. rewrite Hb, (hist_last _ _ _ _ _ Hb), Z.add_0_l.
      by rewrite <- hist_rebase, Z.add_0_r. }
    set (w := v + Z.of_nat (length es)). destruct (hist w 0 k es') as [|y ys] eqn:E'.
    + unfold append_values. rewrite Hb. simpl. rewrite app_nil_r, E. done.
    + rewrite E. simpl. unfold append_values. rewrite <- E, Hb, E. done.
Qed.

Section pam_build_spec.
Context {hash : Z -> Z} `{HPH : !TreapTree.PerfectHash hash} (g : heap).

(** [t] holds the values [H] of the elements [es]. *)
Definition built (H : Z -> list valver) (es : list Z) (t : tree) : Prop :=
  wf hash t /\ (size t <= length es)%nat /\ forall k, lookup_vals t k = nonempty (H k).

Lemma built_combines comb H0 H1 H es es' t t' r :
  (forall k, nonempty (H k) =
     union_with (fun a b => Some (comb a b)) (nonempty (H0 k)) (nonempty (H1 k))) ->
  built H0 es t -> built H1 es' t' -> combines (hash := hash) (joins comb) t t' r ->
  built H (es ++ es') r.
Proof.
  intros HH (W & S & L) (W' & S' & L') [H2 H3 _ H5].
  split_and!; [done|rewrite length_app; lia|].
  intros k. by rewrite H5, L, L', HH.
Qed.

Lemma pam_makes_node h v e (H : Z -> list valver) :
  g ⊆ h -> u64 e -> 0 <= v < vstat_uninitialized ->
  (forall k, H k = if e =? k then [mk_valver 1 v] else []) ->
  pmakes g false ∅ (make_node hash v e) (built H [e]) h.
Proof.
  intros Hg U Hv HH. unfold makes, make_node, make_node_pry. apply wp_new. intros a Ha.
  assert (g !! a = None) as Hga by by eapply lookup_weaken_None.
  set (n := mk_node _ _ _ _ _ _ _).
  exists (Node [mk_valver 1 v] (hash e) e Leaf Leaf), ({[a]} ∪ ∅ ∪ ∅). split_and!.
  - eapply acts_equiv; [reflexivity| |by apply acts_new]. set_solver.
  - apply (powns_node g false _ a n Leaf Leaf ∅ ∅); try done; try set_solver.
    apply lookup_insert_eq.
  - split_and!; [|simpl; lia|].
    + simpl. split_and!; try done. split_and!; [done|repeat constructor|].
      constructor; [|constructor]. simpl. split; [done|lia].
    + intros k. rewrite HH. simpl. rewrite (Z.eqb_sym k e). destruct (e =? k); [done|].
      by destruct (k <? e).
Qed.

(** The common shape of [build] and [build_versioned]: two halves in parallel,
    and the merge of their trees. *)
Lemma join_halves o order fuel h m1 m2 update comb n es H1 H2 H (n1 := (n / 2)%nat) :
  updates update comb ->
  (n <= fuel)%nat -> (n <= length es)%nat -> (n1 <= n)%nat -> g ⊆ h ->
  (forall h1, g ⊆ h1 -> pmakes g false ∅ m1 (built H1 (take n1 es)) h1) ->
  (forall h1, g ⊆ h1 -> pmakes g false ∅ m2 (built H2 (take (n - n1) (drop n1 es))) h1) ->
  (forall k x y, H1 k <> [] -> H2 k <> [] -> x = H1 k -> y = H2 k -> vals_ok (comb x y)) ->
  (forall k, nonempty (H k) =
     union_with (fun a b => Some (comb a b)) (nonempty (H1 k)) (nonempty (H2 k))) ->
  pmakes g false ∅
    (ts ← par_do o m1 m2; merge_by update order (S fuel) ts.1 ts.2)
    (built H (take n es)) h.
Proof.
  intros Hup Hf Hn Hn1 Hg Hm1 Hm2 Hok HH. unfold makes. wp_step.
  eapply wp_mono; [|apply (wp_par_fresh (OwnedTree0 := pam_owned g false) o h m1 m2
    (built H1 (take n1 es)) (built H2 (take (n - n1) (drop n1 es))))].
  - intros ts h1 (t1 & t2 & D1 & D2 & A & HD & O1 & O2 & B1 & B2).
    assert (g ⊆ h1) as Hg1 by (by eapply acts_persistent).
    assert (length (take n1 es) <= n1)%nat by (rewrite length_take; lia).
    assert (length (take (n - n1) (drop n1 es)) <= n - n1)%nat by (rewrite length_take; lia).
    eapply wp_mono; [|apply (merge_by_spec (hash := hash) g update comb order (S fuel) Hup
      h1 _ _ t1 t2 D1 D2 Hg1 O1 O2 HD)]; [|apply B1|apply B2| |].
    + intros c h2 (t & D & A2 & O & HM). exists t, D. split_and!; [by eapply acts_trans|done|].
      rewrite (take_halves n n1) by done. by eapply built_combines.
    + intros k x y Hx Hy. destruct B1 as (_ & _ & L1), B2 as (_ & _ & L2).
      rewrite L1 in Hx. rewrite L2 in Hy. unfold comb_ok.
      destruct (H1 k) eqn:E1, (H2 k) eqn:E2; try done. simpl in Hx, Hy. simplify_eq.
      apply (Hok k); congruence.
    + destruct B1 as (_ & S1 & _), B2 as (_ & S2 & _). lia.
  - intros h1 Hh1. apply Hm1. by etrans.
  - intros h1 Hh1. apply Hm2. by etrans.
Qed.

Lemma makes_empty h H m :
  (forall k, H k = []) -> m = mret None -> pmakes g false ∅ m (built H []) h.
Proof.
  intros HH ->. unfold makes. wp_step. exists Leaf, ∅. split_and!; [apply acts_refl|by split|].
  split_and!; try done. intros k. by rewrite HH.
Qed.

Lemma pam_build_spec order fuel h n es :
  (n < fuel)%nat -> (n <= length es)%nat -> Forall u64 es -> g ⊆ h ->
  pmakes g false ∅ (build hash order fuel n es)
    (built (fun k => total k (take n es)) (take n es)) h.
Proof.
  revert order h n es. induction fuel as [|fuel IH]; intros order h n es Hf Hn Hu Hg; [lia|].
  cbn [build]. destruct n as [|[|n']].
  { by apply makes_empty. }
  { destruct es as [|e es]; simpl in Hn; [lia|]. apply pam_makes_node; [done|by inversion Hu|done|].
    intros k. unfold total. simpl. destruct (e =? k); done. }
  destruct es as [|e es']; [simpl in Hn; lia|]. set (es := e :: es') in *. set (n := S (S n')) in *.
  assert (n / 2 < n)%nat by (apply Nat.div_lt; lia).
  assert (0 < n / 2)%nat by (apply Nat.div_str_pos; lia).
  eapply (join_halves _ _ fuel h _ _ add_values add_first n es
    (fun k => total k (take (n / 2) es)) (fun k => total k (take (n - n / 2) (drop (n / 2) es))));
    [apply add_values_updates|lia|done|lia|done| | | |].
  - intros h1 Hg1. apply IH; [lia|lia|done|done].
  - intros h1 Hg1. apply IH; [lia|rewrite length_drop; lia|by apply Forall_drop|done].
  - intros k x y H1 H2 -> ->. rewrite (total_ok _ _ H1), (total_ok _ _ H2). simpl.
    auto using first_ok with u64.
  - intros k. rewrite (take_halves n (n / 2) es) by lia. apply total_join.
Qed.

Lemma build_versioned_spec order fuel h v n es :
  (n < fuel)%nat -> (n <= length es)%nat -> Forall u64 es -> g ⊆ h ->
  0 <= v -> v + Z.of_nat n <= vstat_uninitialized ->
  pmakes g false ∅ (build_versioned hash order fuel v n es)
    (built (fun k => hist v 0 k (take n es)) (take n es)) h.
Proof.
  revert order h v n es. induction fuel as [|fuel IH]; intros order h v n es Hf Hn Hu Hg Hv Hvn; [lia|].
  cbn [build_versioned]. destruct n as [|[|n']].
  { by apply makes_empty. }
  { destruct es as [|e es]; simpl in Hn; [lia|]. apply pam_makes_node; [done|by inversion Hu|lia|].
    intros k. simpl. by destruct (e =? k). }
  destruct es as [|e es']; [simpl in Hn; lia|]. set (es := e :: es') in *. set (n := S (S n')) in *.
  assert (n / 2 < n)%nat by (apply Nat.div_lt; lia).
  assert (0 < n / 2)%nat by (apply Nat.div_str_pos; lia).
  assert (length (take (n / 2) es) = n / 2)%nat as Hlen by (rewrite length_take; lia).
  rewrite wrap64_small by (unfold u64, vstat_uninitialized in *; lia).
  eapply (join_halves _ _ fuel h _ _ merge_values append_values n es
    (fun k => hist v 0 k (take (n / 2) es))
    (fun k => hist (v + Z.of_nat (n / 2)) 0 k (take (n - n / 2) (drop (n / 2) es))));
    [apply merge_values_updates|lia|done|lia|done| | | |].
  - intros h1 Hg1. apply IH; [lia|lia|done|done|done|lia].
  - intros h1 Hg1. apply IH; [lia|rewrite length_drop; lia|by apply Forall_drop|done|lia|lia].
  - clearbody n es. intros k x y H1 H2 -> ->.
    pose proof (hist_join v k (take (n / 2) es) (take (n - n / 2) (drop (n / 2) es))) as Hj.
    rewrite Hlen, <- take_halves in Hj by lia.
    destruct (hist v 0 k (take (n / 2) es)) eqn:E1; [done|].
    destruct (hist (v + Z.of_nat (n / 2)) 0 k _) eqn:E2; [done|]. simpl in Hj.
    destruct (hist v 0 k (take n es)) eqn:E; [done|]. injection Hj as <-. rewrite <- E.
    apply hist_ok; [done| |by rewrite E]. rewrite length_take. lia.
  - intros k. rewrite (take_halves n (n / 2) es) by lia. by rewrite hist_join, Hlen.
Qed.
End pam_build_spec.
