(* ===== verification/PamQuery.v ===== *)
(** * Aggregates and versioned queries of the batched treap

    [src/lib/pam/augment.hpp] and [src/lib/pam/query.hpp]. *)

From S2P Require Import Prelude Owned TreapTree.
From stdpp Require Import sorting.
From S2P Require Import PamNode.

#[local] Open Scope Z_scope.

(** ** augment.hpp *)

Fixpoint augment_parallel (order : list nat -> bool) (fuel : nat) (t : ptr) : M node_t Z :=
  match fuel with
  | O => fail OutOfFuel
  | S fuel' =>
      match t with
      | None => mret 0
      | Some _ =>
          n ← load t;
          if negb (p_vstat n =? vstat_uninitialized) then mret (p_aug n)
          else
            lr ← par_do (order [])
                   (augment_parallel (branch 1 order) fuel' (p_lch n))
                   (augment_parallel (branch 2 order) fuel' (p_rch n));
            v ← last_val n;
            store t (set_aug (wrap64 (lr.1 + val v + lr.2)));;
            vl ← subtree_vstat (p_lch n);
            vr ← subtree_vstat (p_rch n);
            store t (set_vstat (Z.max (ver v) (Z.max vl vr)));;
            n' ← load t;
            mret (p_aug n')
      end
  end.

(** ** query.hpp *)

(** The loop of [find_value]: [x] is [t->vals[i]] and [xs] what follows it. *)
Fixpoint find_value_loop (v : Z) (x : valver) (xs : list valver) : Z :=
  match xs with
  | [] => val x
  | y :: ys => if v <? ver y then val x else find_value_loop v y ys
  end.

Definition find_value (t : ptr) (v : Z) : M node_t Z :=
  n ← load t;
  match p_vals n with
  | [] => fail BadPtr
  | x :: xs => mret (if v <? ver x then 0 else find_value_loop v x xs)
  end.

Fixpoint find (fuel : nat) (t : ptr) (v k : Z) : M node_t Z :=
  match fuel with
  | O => fail OutOfFuel
  | S fuel =>
      match t with
      | None => mret 0
      | Some _ =>
          n ← load t;
          if k =? p_key n then find_value t v
          else find fuel (if k <? p_key n then p_lch n else p_rch n) v k
      end
  end.

Fixpoint range_estimate (fuel : nat) (t : ptr) (v l r : Z) (d : range_cover) : M node_t Z :=
  match fuel with
  | O => fail OutOfFuel
  | S fuel =>
      match t with
      | None => mret 0
      | Some _ =>
          n ← load t;
          let both dl dr :=
            ret_l ← range_estimate fuel (p_lch n) v l r dl;
            ret_r ← range_estimate fuel (p_rch n) v l r dr;
            x ← find_value t v;
            mret (wrap64 (ret_l + x + ret_r)) in
          match d with
          | OPEN_OPEN =>
              if r <? p_key n then range_estimate fuel (p_lch n) v l r d
              else if p_key n <? l then range_estimate fuel (p_rch n) v l r d
              else both OPEN_CLOSE CLOSE_OPEN
          | OPEN_CLOSE =>
              if p_key n <? l then range_estimate fuel (p_rch n) v l r d
              else both d CLOSE_CLOSE
          | CLOSE_OPEN =>
              if r <? p_key n then range_estimate fuel (p_lch n) v l r d
              else both CLOSE_CLOSE d
          | CLOSE_CLOSE =>
              if p_vstat n <=? v then mret (p_aug n) else both d d
          end
      end
  end.

Definition range_estimate_open (fuel : nat) (t : ptr) (v l r : Z) : M node_t Z :=
  range_estimate fuel t v l r OPEN_OPEN.

(** ** Values of a key over the versions *)

(** The current value, its version, and the value at a version. *)
Definition cur (vs : list valver) : Z := from_option val 0 (last vs).
Definition last_ver (vs : list valver) : Z := from_option ver 0 (last vs).

Definition value_at (v : Z) (vs : list valver) : Z :=
  match vs with
  | [] => 0
  | x :: xs => if v <? ver x then 0 else find_value_loop v x xs
  end.

Lemma value_at_last v vs : vals_ok vs -> last_ver vs <= v -> value_at v vs = cur vs.
Proof.
  intros (Hne & Hs & _) Hv. destruct vs as [|x xs]; [done|]. clear Hne. unfold cur, last_ver in *.
  simpl value_at.
  assert (ver x <= v) as Hx.
  { destruct (last_nonempty (x :: xs)) as [y Hy]; [done|]. rewrite Hy in Hv. simpl in Hv.
    apply last_Some_elem_of in Hy. apply elem_of_cons in Hy as [->|Hy]; [done|].
    apply StronglySorted_inv in Hs as [_ Hs]. eapply Forall_forall in Hs; [|exact Hy]. lia. }
  destruct (Z.ltb_spec v (ver x)); [lia|].
  clear Hx H. revert x Hs Hv. induction xs as [|y ys IH]; intros x Hs Hv; [done|].
  simpl find_value_loop. rewrite last_cons_cons in Hv |- *.
  apply StronglySorted_inv in Hs as [Hs _].
  assert (ver y <= v) as Hy.
  { destruct (last_nonempty (y :: ys)) as [z Hz]; [done|]. rewrite Hz in Hv. simpl in Hv.
    apply last_Some_elem_of in Hz. apply elem_of_cons in Hz as [->|Hz]; [done|].
    apply StronglySorted_inv in Hs as [_ Hs]. eapply Forall_forall in Hs; [|exact Hz]. lia. }
  destruct (Z.ltb_spec v (ver y)); [lia|]. by apply IH.
Qed.

Fixpoint t_sum (t : tree) : Z :=
  match t with
  | Leaf => 0
  | Node vs _ _ l r => t_sum l + cur vs + t_sum r
  end.

Fixpoint t_vstat (t : tree) : Z :=
  match t with
  | Leaf => 0
  | Node vs _ _ l r => Z.max (last_ver vs) (Z.max (t_vstat l) (t_vstat r))
  end.

(** The sum of the values at version [v] of the keys in a range. *)
Fixpoint t_range_at (v lo hi : Z) (t : tree) : Z :=
  match t with
  | Leaf => 0
  | Node vs _ k l r =>
      t_range_at v lo hi l + (if in_range lo hi k then value_at v vs else 0) + t_range_at v lo hi r
  end.

(** ** Aggregated trees *)

Fixpoint auged (h : heap) (p : ptr) (t : tree) : Prop :=
  match t with
  | Leaf => p = None
  | Node vs pr k l r =>
      exists a n, p = Some a /\ h !! a = Some n /\ node_data n = (vs, pr, k) /\
        p_aug n = wrap64 (t_sum t) /\ p_vstat n = t_vstat t /\
        auged h (p_lch n) l /\ auged h (p_rch n) r
  end.

(** A heap of complete trees: the persistent part. *)
Definition persistent (hash : Z -> Z) (g : heap) : Prop :=
  forall a n, g !! a = Some n ->
    p_vstat n <> vstat_uninitialized /\ exists t, auged g (Some a) t /\ wf hash t.

Lemma pam_auged_rep h p t : auged h p t -> rep h p t.
Proof.
  revert p. induction t as [|vs pr k l IHl r IHr]; simpl; [done|].
  intros p (a & n & -> & Hn & Hd & _ & _ & Hl & Hr). exists a, n. split_and!; auto.
Qed.

Lemma pam_auged_weaken h h' p t : h ⊆ h' -> auged h p t -> auged h' p t.
Proof.
  intros Hs. revert p. induction t as [|vs pr k l IHl r IHr]; simpl; [done|].
  intros p (a & n & -> & Hn & Hd & Ha & Hv & Hl & Hr).
  exists a, n. split_and!; eauto using lookup_weaken.
Qed.

Lemma persistent_auged hash g p t : persistent hash g -> rep g p t -> auged g p t.
Proof.
  intros Hp Hr. destruct t as [|vs pr k l r]; [done|]. assert (Hr' := Hr).
  destruct Hr' as (a & n & -> & Hn & _). destruct (Hp a n Hn) as [_ (t & Ht & _)].
  by rewrite (pam_rep_det _ _ _ _ Hr (pam_auged_rep _ _ _ Ht)).
Qed.

Lemma t_vstat_bound hash t : wf hash t -> 0 <= t_vstat t < vstat_uninitialized.
Proof.
  induction t as [|vs pr k l IHl r IHr]; simpl; [done|].
  intros (_ & _ & (Hne & _ & Hv) & _ & _ & Wl & Wr). specialize (IHl Wl). specialize (IHr Wr).
  destruct (last_nonempty vs Hne) as [x Hx]. unfold last_ver. rewrite Hx. simpl.
  apply last_Some_elem_of in Hx. eapply Forall_forall in Hv; [|exact Hx]. lia.
Qed.

Lemma subtree_vstat_spec hash h p t (Q : Z -> heap -> Prop) :
  auged h p t -> wf hash t -> Q (t_vstat t) h -> wp (subtree_vstat p) Q h.
Proof.
  intros Ha W HQ. pose proof (t_vstat_bound hash t W). destruct t as [|vs pr k l r].
  - simpl in Ha. subst p. by apply wp_ret.
  - destruct Ha as (a & n & -> & Hn & _ & _ & Hv & _). unfold subtree_vstat. wp_step. wp_step.
    destruct (Z.eqb_spec (p_vstat n) vstat_uninitialized) as [E|]; [lia|].
    rewrite Hv. by apply wp_ret.
Qed.

(** ** Correctness of [augment_parallel] *)

(** The operation returned the persistent part [g'], in which [p] is complete;
    it changed the locations [D] only. *)
Definition completed (hash : Z -> Z) (g h : heap) (D : gset loc) (h' g' : heap) : Prop :=
  g ⊆ g' /\ g' ⊆ h' /\ persistent hash g' /\
  (forall a, is_Some (g' !! a) -> is_Some (g !! a) \/ a ∈ D) /\
  (forall b, b ∉ D -> h' !! b = h !! b) /\ (forall b, is_Some (h' !! b) <-> is_Some (h !! b)).

Lemma completed_refl hash g h D : g ⊆ h -> persistent hash g -> completed hash g h D h g.
Proof. intros Hg Hp. split_and!; auto. Qed.

Lemma completed_trans hash g h D1 h1 g1 D2 h2 g2 :
  completed hash g h D1 h1 g1 -> completed hash g1 h1 D2 h2 g2 ->
  completed hash g h (D1 ∪ D2) h2 g2.
Proof.
  intros (A1 & B1 & C1 & E1 & F1 & G1) (A2 & B2 & C2 & E2 & F2 & G2). split_and!; try done.
  - by etrans.
  - intros a Ha. destruct (E2 a Ha) as [H|H]; [destruct (E1 a H)|]; [by left|set_solver|set_solver].
  - intros b Hb. rewrite F2, F1; [done|set_solver|set_solver].
  - intros b. by rewrite G2.
Qed.

(** A larger persistent part. *)
Lemma powns_persist g g1 sh h p t D :
  g ⊆ g1 -> (forall a, a ∈ D -> g1 !! a = None) -> powns g sh h p t D -> powns g1 sh h p t D.
Proof.
  intros Hg. revert p D. induction t as [|vs pr k l IHl r IHr]; simpl; intros p D HD [HA H];
    (split; [intros a Ha; split; [by apply HA|by apply HD]|]); [done|].
  destruct H as [[Hs H]|(a & n & Dl & Dr & -> & Hn & Hd & Hv & Hl & Hr & F1 & F2 & F3 & HS)].
  - left. split; [done|]. exact (pam_rep_weaken g g1 p (Node vs pr k l r) Hg H).
  - right. exists a, n, Dl, Dr. split_and!; try done.
    + apply IHl; [|done]. intros b Hb. apply HD. set_solver.
    + apply IHr; [|done]. intros b Hb. apply HD. set_solver.
Qed.

Lemma completed_powns hash g h D1 h1 g1 p t D2 :
  completed hash g h D1 h1 g1 -> D1 ## D2 -> powns g true h p t D2 -> powns g1 true h1 p t D2.
Proof.
  intros (A & B & _ & E & F & G) HD Ho. apply (powns_persist g); [done| |].
  - intros a Ha. destruct (g1 !! a) as [m|] eqn:Hm; [|done].
    destruct (E a (mk_is_Some _ _ Hm)) as [[m' Hm']|]; [|set_solver].
    destruct (powns_allocated _ _ _ _ _ _ Ho a Ha). congruence.
  - eapply powns_frame; [|exact Ho]. intros b Hb. apply F. set_solver.
Qed.

(** Completing the root once its subtrees are complete. *)
Lemma complete_node hash g h a n vs pr k l r :
  g ⊆ h -> persistent hash g -> h !! a = Some n -> g !! a = None -> node_data n = (vs, pr, k) ->
  wf hash (Node vs pr k l r) -> rep g (p_lch n) l -> rep g (p_rch n) r ->
  let n' := set_vstat (t_vstat (Node vs pr k l r)) (set_aug (wrap64 (t_sum (Node vs pr k l r))) n) in
  completed hash g h {[a]} (<[a := n']> h) (<[a := n']> g) /\
  rep (<[a := n']> g) (Some a) (Node vs pr k l r).
Proof.
  intros Hg Hp Hn Hga Hd W Hl Hr n'.
  assert (g ⊆ <[a := n']> g) as Hs by by apply insert_subseteq.
  assert (auged (<[a := n']> g) (Some a) (Node vs pr k l r)) as Hau.
  { exists a, n'. rewrite lookup_insert_eq.
    split_and!; try done; (eapply pam_auged_weaken; [exact Hs|by eapply persistent_auged]). }
  split; [|by apply pam_auged_rep]. split_and!.
  - done.
  - by apply insert_mono.
  - intros b m Hb. destruct (decide (a = b)) as [<-|Hne].
    + rewrite lookup_insert_eq in Hb. injection Hb as <-. pose proof (t_vstat_bound _ _ W).
      split; [simpl; simpl in H; lia|]. by exists (Node vs pr k l r).
    + rewrite lookup_insert_ne in Hb by done. destruct (Hp b m Hb) as [Hv (t & Ht & Wt)].
      split; [done|]. exists t. split; [by eapply pam_auged_weaken|done].
  - intros b Hb. destruct (decide (a = b)) as [<-|Hne]; [right; set_solver|].
    rewrite lookup_insert_ne in Hb by done. by left.
  - intros b Hb. rewrite lookup_insert_ne; [done|set_solver].
  - intros b. destruct (decide (a = b)) as [<-|Hne].
    + rewrite lookup_insert_eq, Hn. split; by eexists.
    + by rewrite lookup_insert_ne.
Qed.

(** Two aggregations of disjoint parts, one after the other. *)
Lemma wp_augment_two hash g h m1 m2 p1 p2 t1 t2 D1 D2 :
  persistent hash g -> g ⊆ h -> powns g true h p1 t1 D1 -> powns g true h p2 t2 D2 -> D1 ## D2 ->
  (forall g h, persistent hash g -> g ⊆ h -> powns g true h p1 t1 D1 ->
     wp m1 (fun s h' => s = wrap64 (t_sum t1) /\ exists g', completed hash g h D1 h' g' /\ rep g' p1 t1) h) ->
  (forall g h, persistent hash g -> g ⊆ h -> powns g true h p2 t2 D2 ->
     wp m2 (fun s h' => s = wrap64 (t_sum t2) /\ exists g', completed hash g h D2 h' g' /\ rep g' p2 t2) h) ->
  wp (x ← m1; y ← m2; mret (x, y))
     (fun s h' => s = (wrap64 (t_sum t1), wrap64 (t_sum t2)) /\
        exists g', completed hash g h (D1 ∪ D2) h' g' /\ rep g' p1 t1 /\ rep g' p2 t2) h.
Proof.
  intros Hp Hg O1 O2 HD H1 H2. wp_step. eapply wp_mono; [|by apply H1].
  intros s1 h1 (-> & g1 & C1 & R1). assert (C1' := C1). destruct C1' as (A1 & B1 & P1 & _).
  wp_step. eapply wp_mono; [|apply (H2 g1 h1 P1 B1); by eapply completed_powns].
  intros s2 h2 (-> & g2 & C2 & R2). wp_step. split; [done|]. exists g2.
  split_and!; [by eapply completed_trans| |done]. eapply pam_rep_weaken; [apply C2|done].
Qed.

Lemma wp_swap {A B} (x : M node_t A) (y : M node_t B) (Q : A * B -> heap -> Prop) h :
  wp (a ← x; b ← y; mret (a, b)) (fun r h' => Q r h') h ->
  wp (a ← x; b ← y; mret (b, a)) (fun r h' => Q (r.2, r.1) h') h.
Proof.
  intros (r & h' & E & HQ). unfold mbind, M_bind, mret, M_ret in *.
  exists (r.2, r.1), h'. destruct r as [a b]. split; [|done].
  destruct (x h) as [[a' h1]|]; [|done]. destruct (y h1) as [[b' h2]|]; [|done]. by simplify_eq.
Qed.

Lemma pam_augment_parallel_spec hash order fuel : forall g h p t D,
  persistent hash g -> g ⊆ h -> powns g true h p t D -> wf hash t -> (size t < fuel)%nat ->
  wp (augment_parallel order fuel p)
     (fun s h' => s = wrap64 (t_sum t) /\ exists g', completed hash g h D h' g' /\ rep g' p t) h.
Proof.
  revert order. induction fuel as [|fuel IH]; intros order g h p t D Hp Hg Ho W Hf; [lia|].
  destruct t as [|vs pr k l r].
  { destruct Ho as [_ ->]. cbn [augment_parallel]. wp_step. split; [done|].
    exists g. split; [by apply completed_refl|done]. }
  assert (HA := powns_allocated _ _ _ _ _ _ Ho).
  apply powns_own in Ho as [[_ Hr]|(a & n & Dl & Dr & -> & Hn & Hd & Hv & Hl & Hr & F1 & F2 & F3 & ->)].
  - assert (Ha := persistent_auged _ _ _ _ Hp Hr). assert (Hr' := Hr).
    destruct Ha as (a & n & -> & Hn & _ & Hs & Hst & _). destruct (Hp a n Hn) as [Hne _].
    assert (Hn' := lookup_weaken _ h _ _ Hn Hg).
    cbn [augment_parallel]. wp_step. wp_step. destruct (Z.eqb_spec (p_vstat n) vstat_uninitialized);
      [done|]. cbn [negb]. wp_step. split; [done|]. exists g. split; [by apply completed_refl|done].
  - destruct (HA a) as [_ Hga]; [set_solver|]. assert (W' := W).
    destruct W' as (_ & _ & Hok & _ & _ & Wl & Wr). simpl in Hf.
    cbn [augment_parallel]. wp_step. wp_step. rewrite Hv, Z.eqb_refl. cbn [negb]. wp_step.
    assert (wp (par_do (order []) (augment_parallel (branch 1 order) fuel (p_lch n))
                  (augment_parallel (branch 2 order) fuel (p_rch n)))
               (fun s h' => s = (wrap64 (t_sum l), wrap64 (t_sum r)) /\
                  exists g', completed hash g h (Dl ∪ Dr) h' g' /\
                    rep g' (p_lch n) l /\ rep g' (p_rch n) r) h) as Hpar.
    { unfold par_do. destruct (order []).
      - eapply wp_augment_two; try done; intros; apply IH; try done; lia.
      - eapply wp_mono; [|apply wp_swap, (wp_augment_two hash g h _ _ (p_rch n) (p_lch n) r l Dr Dl);
          try done; intros; apply IH; try done; lia].
        intros [x y] h' ([= -> ->] & g' & C & R1 & R2). split; [done|]. exists g'.
        split; [|done]. replace (Dl ∪ Dr) with (Dr ∪ Dl); [done|]. apply leibniz_equiv. set_solver. }
    eapply wp_mono; [|exact Hpar]. intros s h1 (-> & g1 & C1 & R1 & R2).
    assert (h1 !! a = Some n) as Hn1.
    { destruct C1 as (_ & _ & _ & _ & F & _). rewrite F; [done|set_solver]. }
    assert (g1 !! a = None) as Hg1a.
    { destruct C1 as (_ & _ & _ & E & _). destruct (g1 !! a) as [m|] eqn:Em; [|done].
      destruct (E a (mk_is_Some _ _ Em)) as [[? ?]|?]; [congruence|set_solver]. }
    assert (C1' := C1). destruct C1' as (_ & B1 & P1 & _).
    injection Hd as Ev Ep Ek.
    destruct (last_nonempty vs) as [x Hx]; [apply Hok|].
    wp_step. eapply last_val_spec; [by rewrite Ev|]. wp_step. wp_step.
    set (n1 := set_aug _ n). set (h2 := <[a := n1]> h1).
    assert (g1 ⊆ h2) as Hg2 by by apply insert_subseteq_r.
    wp_step. eapply (subtree_vstat_spec hash _ _ l);
      [eapply pam_auged_weaken; [exact Hg2|by eapply persistent_auged]|done|].
    wp_step. eapply (subtree_vstat_spec hash _ _ r);
      [eapply pam_auged_weaken; [exact Hg2|by eapply persistent_auged]|done|].
    wp_step. eapply wp_store; [apply lookup_insert_eq|]. unfold h2. rewrite insert_insert_eq.
    wp_step. eapply wp_load; [apply lookup_insert_eq|]. wp_step.
    assert (wrap64 (wrap64 (t_sum l) + val x + wrap64 (t_sum r)) = wrap64 (t_sum (Node vs pr k l r)))
      as Es.
    { simpl. unfold cur. rewrite Hx. simpl.
      rewrite wrap64_add_r, <- Z.add_assoc, wrap64_add_l. f_equal. lia. }
    assert (Z.max (ver x) (Z.max (t_vstat l) (t_vstat r)) = t_vstat (Node vs pr k l r)) as Et.
    { simpl. unfold last_ver. by rewrite Hx. }
    unfold n1. cbn [fst snd] in *. rewrite Es, Et. split; [done|].
    destruct (complete_node hash g1 h1 a n vs pr k l r) as [C2 R3]; try done; [by rewrite <- Ev, <- Ep, <- Ek|].
    eexists. split; [|exact R3].
    replace ({[a]} ∪ Dl ∪ Dr) with ((Dl ∪ Dr) ∪ {[a]}); [by eapply completed_trans|].
    apply leibniz_equiv. set_solver.
Qed.

(** ** Correctness of the queries *)

(** The value of [k] at version [v] in a tree. *)
Definition query (t : tree) (v k : Z) : Z := from_option (value_at v) 0 (lookup_vals t k).

Lemma find_value_spec h a n v (Q : Z -> heap -> Prop) :
  h !! a = Some n -> p_vals n <> [] -> Q (value_at v (p_vals n)) h -> wp (find_value (Some a) v) Q h.
Proof.
  intros Hn Hne HQ. unfold find_value. wp_step. wp_step.
  destruct (p_vals n); [done|]. by wp_step.
Qed.

Lemma pam_find_spec hash fuel h p t v k :
  rep h p t -> wf hash t -> (size t < fuel)%nat ->
  wp (find fuel p v k) (fun x h' => h' = h /\ x = query t v k) h.
Proof.
  unfold query. revert p t. induction fuel as [|fuel IH]; intros p t Hr W Hf; [lia|].
  destruct t as [|vs pr j l r].
  { simpl in Hr. subst p. cbn [find]. by wp_step. }
  destruct Hr as (a & n & -> & Hn & Hd & Hl & Hr). injection Hd as Ev Ep Ek.
  simpl in Hf. destruct W as (_ & _ & Hok & _ & _ & Wl & Wr).
  cbn [find lookup_vals]. wp_step. wp_step. rewrite Ek. destruct (Z.eqb_spec k j) as [->|Hne].
  - eapply find_value_spec; [done|rewrite Ev; apply Hok|]. by rewrite Ev.
  - destruct (Z.ltb_spec k j); apply IH; done || lia.
Qed.

Lemma t_range_at_none v lo hi t :
  all_keys (fun k => in_range lo hi k = false) t -> t_range_at v lo hi t = 0.
Proof.
  induction t as [|vs p k l IHl r IHr]; simpl; [done|]. intros (-> & Hl & Hr).
  rewrite IHl, IHr by done. lia.
Qed.

Lemma t_range_at_all v lo hi t :
  all_keys (fun k => lo <= k <= hi) t -> (exists hash, wf hash t) -> t_vstat t <= v ->
  t_range_at v lo hi t = t_sum t.
Proof.
  intros Ha [hash W] Hv. induction t as [|vs p k l IHl r IHr]; simpl in *; [done|].
  destruct Ha as (Hk & Hl & Hr), W as (_ & _ & Hok & _ & _ & Wl & Wr).
  rewrite IHl, IHr, value_at_last by (done || lia). unfold in_range. zcases; simpl; lia.
Qed.

(** The search with one subtree out of range, or with both. *)
Lemma pam_range_estimate_spec hash fuel h p t v lo hi d :
  auged h p t -> wf hash t -> all_keys (cover_ok lo hi d) t -> (size t < fuel)%nat ->
  wp (range_estimate fuel p v lo hi d) (fun s h' => h' = h /\ s = wrap64 (t_range_at v lo hi t)) h.
Proof.
  revert h p t d. induction fuel as [|fuel IH]; intros h p t d Hau W Hc Hf; [lia|].
  destruct t as [|vs pr k l r].
  { simpl in Hau. subst p. cbn [range_estimate]. by wp_step. }
  assert (Hc' := Hc). assert (W0 := W).
  simpl in Hf. destruct Hau as (a & n & -> & Hn & Hd & Ha & Hst & Hl & Hr).
  injection Hd as Ev Ep Ek. destruct W as (_ & _ & Hok & Bl & Br & Wl & Wr). cbn [range_estimate].
  destruct Hc' as (Ck & Cl & Cr). wp_step. wp_step. rewrite Ek. cbn [t_range_at].
  assert (forall dl dr,
    all_keys (cover_ok lo hi dl) l -> all_keys (cover_ok lo hi dr) r -> lo <= k <= hi ->
    wp (ret_l ← range_estimate fuel (p_lch n) v lo hi dl;
        ret_r ← range_estimate fuel (p_rch n) v lo hi dr;
        x ← find_value (Some a) v;
        mret (wrap64 (ret_l + x + ret_r)))
       (fun s h' => h' = h /\ s = wrap64 (t_range_at v lo hi l +
          (if in_range lo hi k then value_at v vs else 0) + t_range_at v lo hi r)) h) as Hboth.
  { intros dl dr Hdl Hdr Hin. wp_step.
    eapply wp_mono; [|apply (IH h _ l dl); done || lia]. intros sl h1 [-> ->]. wp_step.
    eapply wp_mono; [|apply (IH h _ r dr); done || lia]. intros sr h2 [-> ->]. wp_step.
    eapply find_value_spec; [done|rewrite Ev; apply Hok|]. wp_step. split; [done|].
    unfold in_range. rewrite Ev, wrap64_add_r, <- Z.add_assoc, wrap64_add_l.
    zcases; simpl; f_equal; lia. }
  assert (hi < k -> in_range lo hi k = false /\ t_range_at v lo hi r = 0) as Hright.
  { intros Hlt. split; [unfold in_range; zcases; simpl; lia || done|].
    apply t_range_at_none. eapply pam_all_keys_impl; [|exact Br].
    simpl; intros; unfold in_range; zcases; simpl; lia || done. }
  assert (k < lo -> in_range lo hi k = false /\ t_range_at v lo hi l = 0) as Hleft.
  { intros Hlt. split; [unfold in_range; zcases; simpl; lia || done|].
    apply t_range_at_none. eapply pam_all_keys_impl; [|exact Bl].
    simpl; intros; unfold in_range; zcases; simpl; lia || done. }
  assert (forall d', (forall j, j < k -> cover_ok lo hi d j -> cover_ok lo hi d' j) ->
    all_keys (cover_ok lo hi d') l) as Hcl.
  { intros d' Hi. eapply pam_all_keys_impl; [|apply pam_all_keys_and; split; [exact Bl|exact Cl]].
    simpl; intros j [[??]?]; auto. }
  assert (forall d', (forall j, k < j -> cover_ok lo hi d j -> cover_ok lo hi d' j) ->
    all_keys (cover_ok lo hi d') r) as Hcr.
  { intros d' Hi. eapply pam_all_keys_impl; [|apply pam_all_keys_and; split; [exact Br|exact Cr]].
    simpl; intros j [[??]?]; auto. }
  assert (hi < k -> wp (range_estimate fuel (p_lch n) v lo hi d) (fun s h' => h' = h /\
    s = wrap64 (t_range_at v lo hi l + (if in_range lo hi k then value_at v vs else 0) +
      t_range_at v lo hi r)) h) as Hgl.
  { intros Hlt. destruct (Hright Hlt) as [-> ->]. rewrite !Z.add_0_r. apply IH; done || lia. }
  assert (k < lo -> wp (range_estimate fuel (p_rch n) v lo hi d) (fun s h' => h' = h /\
    s = wrap64 (t_range_at v lo hi l + (if in_range lo hi k then value_at v vs else 0) +
      t_range_at v lo hi r)) h) as Hgr.
  { intros Hlt. destruct (Hleft Hlt) as [-> ->]. apply IH; done || lia. }
  destruct d; simpl in Ck.
  - destruct (Z.ltb_spec hi k); [by apply Hgl|]. destruct (Z.ltb_spec k lo); [by apply Hgr|].
    apply Hboth; [apply Hcl|apply Hcr|lia]; simpl; lia.
  - destruct (Z.ltb_spec k lo); [by apply Hgr|].
    apply Hboth; [apply Hcl|apply Hcr|lia]; simpl; lia.
  - destruct (Z.ltb_spec hi k); [by apply Hgl|].
    apply Hboth; [apply Hcl|apply Hcr|lia]; simpl; lia.
  - destruct (Z.leb_spec (p_vstat n) v); [|by apply Hboth].
    wp_step. split; [done|]. rewrite Ha. f_equal. symmetry.
    change (t_range_at v lo hi (Node vs pr k l r) = t_sum (Node vs pr k l r)).
    apply t_range_at_all; [exact Hc|by exists hash|lia].
Qed.
