(* ===== verification/PamUpdate.v ===== *)
(** * Batch updates of the batched treap

    [src/lib/pam/copy_merge.hpp] and [src/lib/pam/copy_subtract.hpp]: a persistent
    tree is merged with, or reduced by, a tree that the update owns.  Nodes of the
    persistent tree are copied, nodes of the other tree are reused in place. *)

From S2P Require Import Prelude Owned.
From S2P Require TreapTree.
From stdpp Require Import sorting.
From S2P Require Import PamNode PamBuild PamQuery.

#[local] Open Scope Z_scope.

(** ** copy_merge.hpp *)

Definition update_values (t : ptr) (val_base : Z) : M node_t unit :=
  store t (fun n => set_vals
    ((fun x => mk_valver (wrap64 (val x + val_base)) (ver x)) <$> p_vals n) n).

Definition expose (t : ptr) : M node_t (ptr * ptr * ptr) :=
  n ← load t;
  store t (fun n => set_lch None (set_rch None n));;
  mret (p_lch n, t, p_rch n).

Fixpoint copy_split (fuel : nat) (t : ptr) (key : Z) : M node_t (ptr * ptr) :=
  match fuel with
  | O => fail OutOfFuel
  | S fuel =>
      match t with
      | None => mret (None, None)
      | Some _ =>
          n ← load t;
          if key <? p_key n then
            t_r ← make_weak_copy t;
            store t_r (set_rch (p_rch n));;
            lr ← copy_split fuel (p_lch n) key;
            store t_r (set_lch lr.2);;
            mret (lr.1, t_r)
          else
            t_l ← make_weak_copy t;
            store t_l (set_lch (p_lch n));;
            lr ← copy_split fuel (p_rch n) key;
            store t_l (set_rch lr.1);;
            mret (t_l, lr.2)
      end
  end.

Fixpoint copy_merge (order : list nat -> bool) (fuel : nat) (t_old t_ins : ptr) : M node_t ptr :=
  match fuel with
  | O => fail OutOfFuel
  | S fuel' =>
      match t_old, t_ins with
      | None, _ => mret t_ins
      | _, None => mret t_old
      | Some _, Some _ =>
          n_old ← load t_old;
          n_ins ← load t_ins;
          (* [t_new], and what to merge below it *)
          parts ←
            (if p_pry n_ins <? p_pry n_old then
               t_new ← make_weak_copy t_old;
               t_ins_lr ← split fuel t_ins (p_key n_old);
               mret (t_new, (p_lch n_old, p_rch n_old), t_ins_lr)
             else
               e ← expose t_ins;
               let '(t_ins_l, t_new, t_ins_r) := e in
               t_old_lr ←
                 (if p_key n_old =? p_key n_ins then
                    base ← last_val n_old;
                    update_values t_new (val base);;
                    mret (p_lch n_old, p_rch n_old)
                  else copy_split fuel t_old (p_key n_ins));
               mret (t_new, t_old_lr, (t_ins_l, t_ins_r)));
          let '(t_new, t_old_lr, t_ins_lr) := parts in
          par_children (order []) t_new
            (copy_merge (branch 1 order) fuel' t_old_lr.1 t_ins_lr.1)
            (copy_merge (branch 2 order) fuel' t_old_lr.2 t_ins_lr.2);;
          mret t_new
      end
  end.

(** ** copy_subtract.hpp *)

Definition make_copy_if_need (t : ptr) : M node_t ptr :=
  n ← load t;
  if p_vstat n =? vstat_uninitialized then mret t else make_weak_copy t.

Fixpoint copy_concat (fuel : nat) (t_l t_r : ptr) : M node_t ptr :=
  match fuel with
  | O => fail OutOfFuel
  | S fuel =>
      match t_l, t_r with
      | None, _ => mret t_r
      | _, None => mret t_l
      | Some _, Some _ =>
          n_l ← load t_l;
          n_r ← load t_r;
          if p_pry n_r <? p_pry n_l then
            t_new ← make_copy_if_need t_l;
            store t_new (set_lch (p_lch n_l));;
            n_l ← load t_l;
            c ← copy_concat fuel (p_rch n_l) t_r;
            store t_new (set_rch c);;
            mret t_new
          else
            t_new ← make_copy_if_need t_r;
            c ← copy_concat fuel t_l (p_lch n_r);
            store t_new (set_lch c);;
            n_r ← load t_r;
            store t_new (set_rch (p_rch n_r));;
            mret t_new
      end
  end.

Fixpoint copy_subtract (order : list nat -> bool) (fuel : nat) (t_old t_det : ptr) : M node_t ptr :=
  match fuel with
  | O => fail OutOfFuel
  | S fuel' =>
      match t_old, t_det with
      | None, _ => release_tree fuel t_det;; mret None
      | _, None => mret t_old
      | Some _, Some _ =>
          n_old ← load t_old;
          n_det ← load t_det;
          if p_key n_old =? p_key n_det then
            t_new ← par_do (order [])
              (copy_subtract (branch 1 order) fuel' (p_lch n_old) (p_lch n_det))
              (copy_subtract (branch 2 order) fuel' (p_rch n_old) (p_rch n_det));
            release_node t_det;;
            copy_concat fuel t_new.1 t_new.2
          else if p_pry n_det <? p_pry n_old then
            t_new ← make_weak_copy t_old;
            t_det_lr ← split fuel t_det (p_key n_old);
            par_children (order []) t_new
              (copy_subtract (branch 1 order) fuel' (p_lch n_old) t_det_lr.1)
              (copy_subtract (branch 2 order) fuel' (p_rch n_old) t_det_lr.2);;
            mret t_new
          else
            t_det_new ← copy_concat fuel (p_lch n_det) (p_rch n_det);
            release_node t_det;;
            copy_subtract order fuel' t_old t_det_new
      end
  end.

(** ** What a weak copy keeps *)

Definition last_only (vs : list valver) : list valver :=
  match last vs with Some b => [b] | None => [] end.

(** The values of a key before and after some of its nodes were copied. *)
Definition weak : relation (option (list valver)) :=
  fun x y => y = x \/ y = last_only <$> x.

Lemma last_only_idemp vs : last_only (last_only vs) = last_only vs.
Proof. unfold last_only. by destruct (last vs). Qed.

Lemma last_only_cur vs : cur (last_only vs) = cur vs.
Proof. unfold cur, last_only. by destruct (last vs). Qed.

#[global] Instance weak_preorder : PreOrder weak.
Proof.
  split; [by left|]. intros x y z [-> | ->] [-> | ->]; unfold weak; auto. right.
  destruct x as [vs|]; simpl; [by rewrite last_only_idemp|done].
Qed.

Lemma weak_none x y : weak x y -> x = None <-> y = None.
Proof. intros [-> | ->]; [done|]. by destruct x. Qed.

Lemma weak_cur vs ws : weak (Some vs) (Some ws) -> cur ws = cur vs.
Proof. intros [E|E]; injection E as ->; [done|apply last_only_cur]. Qed.

Lemma last_only_ok vs : vals_ok vs -> vals_ok (last_only vs) /\ last_only vs <> [].
Proof.
  intros (Hne & _ & Hv). unfold last_only. destruct (last_nonempty vs Hne) as [b Hb]. rewrite Hb.
  split; [|done]. split_and!; [done|repeat constructor|]. apply Forall_singleton.
  apply last_Some_elem_of in Hb. by eapply Forall_forall in Hv.
Qed.

Lemma keeps_weak : keeps weak last_only.
Proof. split; [by left|]. intros vs Hv. split; [by apply last_only_ok|by right]. Qed.

Lemma make_weak_copy_spec h a n b (Q : ptr -> heap -> Prop) :
  h !! a = Some n -> last (p_vals n) = Some b ->
  (forall a', h !! a' = None ->
     Q (Some a') (<[a' := mk_node vstat_uninitialized (p_pry n) (p_key n) [b] aug_uninitialized
                            None None]> h)) ->
  wp (make_weak_copy (Some a)) Q h.
Proof.
  intros Hn Hb HQ. unfold make_weak_copy, make_node_pry. wp_step. wp_step. wp_step.
  eapply last_val_spec; [exact Hb|]. apply wp_new. intros a' Ha'. destruct b. by apply HQ.
Qed.

(** ** copy_split *)

Section copies.
Context {hash : Z -> Z} `{HPH : !TreapTree.PerfectHash hash} (g : heap).

(** A fresh node is completed after an operation on the rest of the working set. *)
Lemma acts_fresh_node (h : heap) a m n' Dc Do h1 Dc' :
  h !! a = None -> (forall b, b ∈ Dc ∪ Do -> is_Some (h !! b)) -> Dc ## Do ->
  acts (<[a := m]> h) Dc h1 Dc' ->
  h1 !! a = Some m /\ acts h (Dc ∪ Do) (<[a := n']> h1) ({[a]} ∪ Dc' ∪ Do) /\
  (a ∉ Dc') /\ (a ∉ Do) /\ Dc' ## Do /\
  (forall b, b ∈ Do -> <[a := n']> h1 !! b = h !! b) /\
  (forall b, b ∈ Dc' -> <[a := n']> h1 !! b = h1 !! b).
Proof.
  intros Ha Hdom HD A.
  assert (a ∉ Dc ∪ Do) as Hn by (intros H; destruct (Hdom a H); congruence).
  destruct (acts_child (<[a := m]> h) a m n' Dc Do h1 Dc') as (H1 & A1 & F1 & F2 & K1 & K2);
    [apply lookup_insert_eq|set_solver|set_solver|done| |done|].
  { intros b Hb. rewrite lookup_insert_ne by set_solver. apply Hdom. set_solver. }
  split_and!; [done| |done|set_solver|done| |done].
  - eapply acts_trans; [by apply (acts_alloc h a m (Dc ∪ Do))|].
    eapply acts_equiv; [| |exact A1]; clear; set_solver.
  - intros b Hb. rewrite K1 by done. rewrite lookup_insert_ne; [done|set_solver].
Qed.

Lemma copy_split_spec fuel h p t D key :
  g ⊆ h -> powns g true h p t D -> wf hash t -> (size t < fuel)%nat ->
  wp (copy_split fuel p key)
     (fun lr h' => exists D1 D2, acts h D h' (D1 ∪ D2) /\ D1 ## D2 /\
        powns g true h' lr.1 (t_split_by last_only t key).1 D1 /\
        powns g true h' lr.2 (t_split_by last_only t key).2 D2) h.
Proof.
  revert h p t D. induction fuel as [|fuel IH]; intros h p t D Hg Ho W Hf; [lia|].
  assert (HA := powns_allocated _ _ _ _ _ _ Ho).
  destruct t as [|vs pr k l r].
  { destruct Ho as [_ ->]. cbn [copy_split]. wp_step. exists D, ∅. split_and!; try done.
    eapply acts_equiv; [reflexivity| |apply acts_refl]. set_solver. }
  apply powns_read in Ho as (a & n & Dl & Dr & -> & Hn & Hd & Hl & Hr & F1 & ->); [|done].
  injection Hd as Ev Ep Ek. simpl in Hf. destruct W as (_ & _ & Hok & _ & _ & Wl & Wr).
  destruct (last_nonempty vs) as [b Hb]; [apply Hok|].
  assert (last_only vs = [b]) as Elo by (unfold last_only; by rewrite Hb).
  cbn [copy_split t_split_by]. wp_step. wp_step. rewrite Ek, Elo.
  destruct (Z.ltb_spec key k); wp_step; (eapply make_weak_copy_spec; [exact Hn|by rewrite Ev|]);
    intros a' Ha'; rewrite Ep, Ek; set (m := mk_node _ _ _ _ _ _ _);
    assert (g !! a' = None) as Hga' by (by eapply lookup_weaken_None);
    (wp_step; eapply wp_store; [apply lookup_insert_eq|]; rewrite insert_insert_eq);
    (assert (forall b, b ∈ Dl ∪ Dr -> is_Some (h !! b)) as Hdom by (intros c Hc; by apply HA)).
  - set (m1 := set_rch (p_rch n) m).
    assert (g ⊆ <[a' := m1]> h) as Hg1 by by apply insert_subseteq_r.
    wp_step. eapply wp_mono; [|apply (IH _ _ l Dl); [done| |done|lia]].
    2: { eapply powns_frame; [|exact Hl]. intros c Hc. rewrite lookup_insert_ne; [done|].
         intros <-. destruct (Hdom a'); [set_solver|congruence]. }
    intros [q1 q2] h2 (D1 & D2 & A & HD & O1 & O2). destruct (t_split_by last_only l key) as [tl tr].
    cbn [fst snd] in *.
    destruct (acts_fresh_node h a' m1 (set_lch q2 m1) Dl Dr h2 (D1 ∪ D2))
      as (H2 & A2 & G1 & G2 & G3 & K1 & K2); try done.
    wp_step. wp_step. wp_step. exists D1, ({[a']} ∪ D2 ∪ Dr). split_and!.
    + eapply acts_equiv; [reflexivity| |exact A2]. clear; set_solver.
    + clear -HD G1 G3. set_solver.
    + eapply powns_frame; [|exact O1]. intros c Hc. apply K2. set_solver.
    + apply (powns_node g true _ a' (set_lch q2 m1)); try done; try (clear -G1 G2 G3; set_solver).
      * apply lookup_insert_eq.
      * eapply powns_frame; [|exact O2]. intros c Hc. apply K2. set_solver.
      * by eapply powns_frame.
  - set (m1 := set_lch (p_lch n) m).
    assert (g ⊆ <[a' := m1]> h) as Hg1 by by apply insert_subseteq_r.
    wp_step. eapply wp_mono; [|apply (IH _ _ r Dr); [done| |done|lia]].
    2: { eapply powns_frame; [|exact Hr]. intros c Hc. rewrite lookup_insert_ne; [done|].
         intros <-. destruct (Hdom a'); [set_solver|congruence]. }
    intros [q1 q2] h2 (D1 & D2 & A & HD & O1 & O2). destruct (t_split_by last_only r key) as [tl tr].
    cbn [fst snd] in *.
    destruct (acts_fresh_node h a' m1 (set_rch q1 m1) Dr Dl h2 (D1 ∪ D2))
      as (H2 & A2 & G1 & G2 & G3 & K1 & K2); try done; [set_solver|].
    wp_step. wp_step. wp_step. exists ({[a']} ∪ Dl ∪ D1), D2. split_and!.
    + eapply acts_equiv; [| |exact A2]; clear; set_solver.
    + clear -HD G1 G3. set_solver.
    + apply (powns_node g true _ a' (set_rch q1 m1)); try done; try (clear -G1 G2 G3; set_solver).
      * apply lookup_insert_eq.
      * by eapply powns_frame.
      * eapply powns_frame; [|exact O1]. intros c Hc. apply K2. set_solver.
    + eapply powns_frame; [|exact O2]. intros c Hc. apply K2. set_solver.
Qed.

(** ** copy_merge *)

Definition shift_values (base : Z) (vs : list valver) : list valver :=
  (fun x => mk_valver (wrap64 (val x + base)) (ver x)) <$> vs.

(** The values of a key in the old tree, the inserted tree and the new tree. *)
Definition ins_rel : result_rel := fun old ins new =>
  match ins, old with
  | None, _ => weak old new
  | Some vi, None => new = Some vi
  | Some vi, Some vo => new = Some (shift_values (cur vo) vi)
  end.

Lemma shift_values_ok b vs : vals_ok vs -> vals_ok (shift_values b vs).
Proof.
  intros (Hne & Hs & Hv). unfold shift_values. split_and!.
  - by destruct vs.
  - clear Hne Hv. induction Hs as [|x xs Hs IH Hx]; simpl; constructor; [done|].
    apply Forall_fmap. eapply Forall_impl; [exact Hx|]. done.
  - apply Forall_fmap. eapply Forall_impl; [exact Hv|]. simpl. intros x [_ ?].
    split; [auto with u64|done].
Qed.

Lemma ins_rel_weak a a' b b' c : weak a a' -> b = b' -> ins_rel a' b' c -> ins_rel a b c.
Proof.
  intros Ha <-. unfold ins_rel. destruct b as [vi|]; [|by etrans].
  destruct a as [vo|], a' as [vo'|]; try done.
  - by rewrite (weak_cur _ _ Ha).
  - apply weak_none in Ha. naive_solver.
  - apply weak_none in Ha. naive_solver.
Qed.

Lemma pieces_weak k x l r t : pieces (hash := hash) eq k x l r t -> pieces (hash := hash) weak k x l r t.
Proof.
  intros P. split; try apply P; intros j Hj.
  - rewrite (pc_lookup_l _ _ _ _ _ _ P j Hj). done.
  - rewrite (pc_lookup_r _ _ _ _ _ _ P j Hj). done.
Qed.

(** What a call promises of a possibly shared and an owned tree. *)
Definition ins_merges (fuel : nat) : Prop := forall order h p q t0 t1 D0 D1,
  g ⊆ h -> powns g true h p t0 D0 -> powns g false h q t1 D1 -> D0 ## D1 ->
  wf hash t0 -> wf hash t1 -> (size t0 + size t1 < fuel)%nat ->
  pmakes g true (D0 ∪ D1) (copy_merge order fuel p q) (combines (hash := hash) ins_rel t0 t1) h.

Lemma allocated_union h D1 D2 : allocated g h D1 -> allocated g h D2 -> allocated g h (D1 ∪ D2).
Proof. intros H1 H2 a [Ha|Ha]%elem_of_union; auto. Qed.

(** The recursive calls below the new root [a]. *)
Lemma copy_merge_below o1 o2 o fuel h a n k vs x0 x1 l0 r0 l1 r1 t0 t1 ql0 qr0 ql1 qr1
    Dl0 Dr0 Dl1 Dr1 :
  ins_merges fuel -> g ⊆ h ->
  h !! a = Some n -> p_vstat n = vstat_uninitialized -> g !! a = None ->
  node_data n = (vs, hash k, k) ->
  powns g true h ql0 l0 Dl0 -> powns g true h qr0 r0 Dr0 ->
  powns g false h ql1 l1 Dl1 -> powns g false h qr1 r1 Dr1 ->
  Dl0 ## Dr0 -> Dl1 ## Dr1 -> Dl0 ∪ Dr0 ## Dl1 ∪ Dr1 -> a ∉ Dl0 ∪ Dr0 -> a ∉ Dl1 ∪ Dr1 ->
  pieces (hash := hash) weak k x0 l0 r0 t0 -> pieces (hash := hash) eq k x1 l1 r1 t1 ->
  ins_rel x0 x1 (Some vs) -> vals_ok vs -> u64 k ->
  (S (size l0 + size r0 + size l1 + size r1) <= size t0 + size t1 < S fuel)%nat ->
  (forall P, all_keys P t0 -> all_keys P t1 -> P k) ->
  pmakes g true ({[a]} ∪ (Dl0 ∪ Dl1) ∪ (Dr0 ∪ Dr1))
    (par_children o (Some a) (copy_merge o1 fuel ql0 ql1) (copy_merge o2 fuel qr0 qr1);;
     mret (Some a)) (combines (hash := hash) ins_rel t0 t1) h.
Proof.
  intros IH Hg Hn Hv Hga Hd O1 O2 O3 O4 F1 F2 F3 F4 F5 P0 P1 HC Hok Uk Hs HP.
  unfold makes. wp_step.
  eapply wp_mono; [|eapply (wp_children g true o h a n (Dl0 ∪ Dl1) (Dr0 ∪ Dr1) ∅ _ _
    (combines (hash := hash) ins_rel l0 l1) (combines (hash := hash) ins_rel r0 r1)); try done].
  - intros _ h2 (tl & tr & D2 & A2 & Ot & _ & _ & _ & Ql & Qr). wp_step.
    injection Hd as Ev Ep Ek. rewrite Ev, Ep, Ek in Ot.
    eexists _, D2. split_and!; [exact A2|exact Ot|].
    eapply (combines_node ins_rel weak eq); try done; [|lia].
    intros; by eapply ins_rel_weak.
  - apply allocated_union; eauto.
  - apply allocated_union; eauto.
  - clear -F4 F5. set_solver.
  - clear -F4 F5. set_solver.
  - clear -F1 F2 F3. set_solver.
  - intros h1 n1 Hg1 K1 _ _. apply IH; try done.
    + eapply powns_frame; [|exact O1]. intros b Hb. apply K1. set_solver.
    + eapply powns_frame; [|exact O3]. intros b Hb. apply K1. set_solver.
    + clear -F3. set_solver.
    + apply P0.
    + apply P1.
    + lia.
  - intros h1 n1 Hg1 K1 _ _. apply IH; try done.
    + eapply powns_frame; [|exact O2]. intros b Hb. apply K1. set_solver.
    + eapply powns_frame; [|exact O4]. intros b Hb. apply K1. set_solver.
    + clear -F3. set_solver.
    + apply P0.
    + apply P1.
    + lia.
Qed.

(** The old root has the higher priority: it is copied. *)
Lemma copy_merge_old order fuel h p q vs0 k0 l0 r0 vs1 p1 k1 l1 r1 D0 D1 :
  let t0 := Node vs0 (hash k0) k0 l0 r0 in let t1 := Node vs1 p1 k1 l1 r1 in
  ins_merges fuel ->
  g ⊆ h -> powns g true h p t0 D0 -> powns g false h q t1 D1 -> D0 ## D1 ->
  wf hash t0 -> wf hash t1 -> (size t0 + size t1 < S fuel)%nat -> p1 < hash k0 ->
  forall n_old, (exists a0, p = Some a0 /\ h !! a0 = Some n_old) ->
  pmakes g true (D0 ∪ D1)
    (parts ← (t_new ← make_weak_copy p;
              t_ins_lr ← split (S fuel) q k0;
              mret (t_new, (p_lch n_old, p_rch n_old), t_ins_lr));
     let '(t_new, t_old_lr, t_ins_lr) := parts in
     par_children (order []) t_new
       (copy_merge (branch 1 order) fuel t_old_lr.1 t_ins_lr.1)
       (copy_merge (branch 2 order) fuel t_old_lr.2 t_ins_lr.2);;
     mret t_new) (combines (hash := hash) ins_rel t0 t1) h.
Proof.
  intros t0 t1 IH Hg O0 O1 HD W0 W1 Hf Hlt n_old (a0' & -> & Hn_old).
  assert (HA0 := powns_allocated _ _ _ _ _ _ O0). assert (HA1 := powns_allocated _ _ _ _ _ _ O1).
  apply powns_read in O0 as (a0 & n0 & Dl0 & Dr0 & [= <-] & Hn0 & Hd0 & Ol & Or & F0 & ->); [|done].
  assert (n_old = n0) as -> by congruence. injection Hd0 as Ev Ep Ek.
  destruct (pam_pieces_node _ _ _ _ _ W0) as (_ & Uk & Hok & P0). fold t0 in P0. apply pieces_weak in P0.
  pose proof (pam_pieces_split eq id _ _ _ _ _ k0 keeps_id W1 Hlt) as P1. fold t1 in P1.
  destruct (last_nonempty vs0) as [b Hb]; [apply Hok|].
  unfold makes. wp_step. wp_step. eapply make_weak_copy_spec; [done|by rewrite Ev|].
  intros a' Ha'. rewrite Ep, Ek. set (m := mk_node _ _ _ _ _ _ _). set (h1 := <[a' := m]> h).
  assert (g !! a' = None) as Hga' by (by eapply lookup_weaken_None).
  assert (a' ∉ Dl0 ∪ Dr0) as Fa0 by (intros H; destruct (HA0 a' H) as [[? ?] _]; congruence).
  assert (a' ∉ D1) as Fa1 by (intros H; destruct (HA1 a' H) as [[? ?] _]; congruence).
  assert (g ⊆ h1) as Hg1 by by apply insert_subseteq_r.
  assert (forall b, b <> a' -> h1 !! b = h !! b) as Hh1 by (intros; by apply lookup_insert_ne).
  assert (powns g false h1 q t1 D1) as O1'.
  { eapply powns_frame; [|exact O1]. intros c Hc. apply Hh1. congruence. }
  wp_step. eapply wp_mono; [|apply (pam_split_spec g (S fuel) h1 q t1 D1 k0 O1'); lia].
  intros [q1 q2] h2 (Da & Db & A & Hab & Oa & Ob).
  destruct (acts_frame h1 D1 h2 (Da ∪ Db) ({[a']} ∪ (Dl0 ∪ Dr0))) as (A2 & Hdisj & Hkeep);
    [|clear -Fa1 HD; set_solver|done|].
  { intros c [->%elem_of_singleton|Hc]%elem_of_union; [exists m; apply lookup_insert_eq|].
    rewrite Hh1 by congruence. by apply HA0. }
  assert (g ⊆ h2) as Hg2 by (eapply acts_persistent; [exact Hg1| |exact A]; eauto).
  destruct (t_split_by id t1 k0) as [ta tb]. cbn [fst snd] in *.
  pose proof (pc_size _ _ _ _ _ _ P0). pose proof (pc_size _ _ _ _ _ _ P1).
  wp_step. eapply wp_mono; [|apply (copy_merge_below _ _ (order []) fuel h2 a' m k0 (last_only vs0)
    (Some vs0) None l0 r0 ta tb t0 t1 (p_lch n0) (p_rch n0) q1 q2 Dl0 Dr0 Da Db); try done].
  - intros c h' (t & D' & A3 & O & HC). exists t, D'. split_and!; [|done|done].
    eapply acts_trans; [by apply (acts_alloc h a' m (Dl0 ∪ Dr0 ∪ D1))|]. fold h1.
    eapply acts_trans; [|eapply acts_equiv; [| |exact A3]; [|reflexivity]; reflexivity].
    eapply acts_equiv; [| |exact A2]; clear; set_solver.
  - rewrite Hkeep by set_solver. apply lookup_insert_eq.
  - unfold node_data, m, last_only. rewrite Hb. by simpl.
  - eapply powns_frame; [|exact Ol]. intros c Hc. rewrite Hkeep by set_solver. apply Hh1. set_solver.
  - eapply powns_frame; [|exact Or]. intros c Hc. rewrite Hkeep by set_solver. apply Hh1. set_solver.
  - clear -Hdisj. set_solver.
  - clear -Hdisj. set_solver.
  - by right.
  - apply last_only_ok. apply Hok.
  - subst t0. simpl in *. lia.
  - intros P HP _. apply HP.
Qed.

(** The inserted root has the priority: it is exposed, and the old tree is taken
    apart at its key. *)
Lemma copy_merge_ins order fuel h p q vs0 p0 k0 l0 r0 vs1 k1 l1 r1 D0 D1 :
  let t0 := Node vs0 p0 k0 l0 r0 in let t1 := Node vs1 (hash k1) k1 l1 r1 in
  ins_merges fuel ->
  g ⊆ h -> powns g true h p t0 D0 -> powns g false h q t1 D1 -> D0 ## D1 ->
  wf hash t0 -> wf hash t1 -> (size t0 + size t1 < S fuel)%nat -> p0 <= hash k1 ->
  forall n_old, (exists a0, p = Some a0 /\ h !! a0 = Some n_old) ->
  pmakes g true (D0 ∪ D1)
    (parts ← (e ← expose q;
              let '(t_ins_l, t_new, t_ins_r) := e in
              t_old_lr ←
                (if k0 =? k1 then
                   base ← last_val n_old;
                   update_values t_new (val base);;
                   mret (p_lch n_old, p_rch n_old)
                 else copy_split (S fuel) p k1);
              mret (t_new, t_old_lr, (t_ins_l, t_ins_r)));
     let '(t_new, t_old_lr, t_ins_lr) := parts in
     par_children (order []) t_new
       (copy_merge (branch 1 order) fuel t_old_lr.1 t_ins_lr.1)
       (copy_merge (branch 2 order) fuel t_old_lr.2 t_ins_lr.2);;
     mret t_new) (combines (hash := hash) ins_rel t0 t1) h.
Proof.
  intros t0 t1 IH Hg O0 O1 HD W0 W1 Hf Hle n_old (a0' & -> & Hn_old).
  assert (HA0 := powns_allocated _ _ _ _ _ _ O0). assert (HA1 := powns_allocated _ _ _ _ _ _ O1).
  apply powns_own in O1
    as [[? _]|(a & n & Dl1 & Dr1 & -> & Hn & Hd & Hv & Ol1 & Or1 & F1 & F2 & F3 & ->)]; [done|].
  destruct (HA1 a) as [_ Hga]; [set_solver|]. injection Hd as Ev Ep Ek.
  destruct (pam_pieces_node _ _ _ _ _ W1) as (_ & Uk & Hok & P1). fold t1 in P1.
  unfold makes. wp_step. wp_step. unfold expose. do 6 wp_step.
  set (n' := set_lch None (set_rch None n)). set (h1 := <[a := n']> h). cbn beta iota.
  assert (a ∉ D0) as Fa0 by (clear -HD; set_solver).
  assert (forall b, b <> a -> h1 !! b = h !! b) as Hh1 by (intros; by apply lookup_insert_ne).
  assert (acts h (D0 ∪ ({[a]} ∪ Dl1 ∪ Dr1)) h1 (D0 ∪ ({[a]} ∪ Dl1 ∪ Dr1))) as A1.
  { apply acts_store. set_solver. }
  assert (powns g false h1 (p_lch n) l1 Dl1) as Ol1'.
  { eapply powns_frame; [|exact Ol1]. intros c Hc. apply Hh1. congruence. }
  assert (powns g false h1 (p_rch n) r1 Dr1) as Or1'.
  { eapply powns_frame; [|exact Or1]. intros c Hc. apply Hh1. congruence. }
  destruct (Z.eqb_spec k0 k1) as [<-|Hne].
  - apply powns_read in O0 as (a0 & n0 & Dl0 & Dr0 & [= <-] & Hn0 & Hd0 & Ol & Or & F0 & ->); [|done].
    assert (n_old = n0) as -> by congruence. injection Hd0 as Ev0 Ep0 Ek0.
    destruct (pam_pieces_node _ _ _ _ _ W0) as (_ & _ & Hok0 & P0). fold t0 in P0. apply pieces_weak in P0.
    destruct (last_nonempty vs0) as [b Hb]; [apply Hok0|].
    wp_step. eapply last_val_spec; [by rewrite Ev0|]. unfold update_values. wp_step.
    eapply wp_store; [apply lookup_insert_eq|]. unfold h1. rewrite insert_insert_eq.
    set (n2 := set_vals _ n'). wp_step. wp_step. cbn beta iota. cbn [fst snd].
    pose proof (pc_size _ _ _ _ _ _ P0). pose proof (pc_size _ _ _ _ _ _ P1).
    eapply wp_mono; [|apply (copy_merge_below _ _ (order []) fuel (<[a := n2]> h) a n2 k0
      (shift_values (val b) vs1) (Some vs0) (Some vs1) l0 r0 l1 r1 t0 t1 (p_lch n0) (p_rch n0)
      (p_lch n) (p_rch n) Dl0 Dr0 Dl1 Dr1); try done].
    + intros c h' (t & D' & A3 & O & HC). exists t, D'. split_and!; [|done|done].
      eapply acts_trans; [by apply (acts_store h a n2); clear; set_solver|].
      eapply acts_equiv; [| |exact A3]; clear; set_solver.
    + by apply insert_subseteq_r.
    + apply lookup_insert_eq.
    + unfold node_data. simpl. by rewrite Ev, Ep, Ek.
    + eapply powns_frame; [|exact Ol]. intros c Hc. apply lookup_insert_ne. set_solver.
    + eapply powns_frame; [|exact Or]. intros c Hc. apply lookup_insert_ne. set_solver.
    + eapply powns_frame; [|exact Ol1]. intros c Hc. apply lookup_insert_ne. congruence.
    + eapply powns_frame; [|exact Or1]. intros c Hc. apply lookup_insert_ne. congruence.
    + clear -HD. set_solver.
    + clear -F1 F2. set_solver.
    + simpl. unfold cur. by rewrite Hb.
    + by apply shift_values_ok.
    + subst t0 t1. simpl in *. lia.
    + intros P HP _. apply HP.
  - assert (p0 < hash k1) as Hlt.
    { destruct W0 as (-> & Uk0 & _). destruct (decide (hash k0 = hash k1)) as [E|]; [|lia].
      by apply TreapTree.hash_inj in E. }
    pose proof (pam_pieces_split weak last_only _ _ _ _ _ k1 keeps_weak W0 Hlt) as P0. fold t0 in P0.
    assert (g ⊆ h1) as Hg1 by by apply insert_subseteq_r.
    eapply wp_mono; [|apply (copy_split_spec (S fuel) h1 (Some a0') t0 D0 k1 Hg1); [|done|lia]].
    2: { eapply powns_frame; [|exact O0]. intros c Hc. apply Hh1. congruence. }
    intros [q1 q2] h2 (Da & Db & A & Hab & Oa & Ob).
    destruct (acts_frame h1 D0 h2 (Da ∪ Db) ({[a]} ∪ Dl1 ∪ Dr1)) as (A2 & Hdisj & Hkeep);
      [|done|done|].
    { intros c Hc. destruct (decide (c = a)) as [->|]; [eexists; apply lookup_insert_eq|].
      rewrite Hh1 by done. by apply HA1. }
    assert (g ⊆ h2) as Hg2.
    { eapply acts_persistent; [exact Hg1| |exact A]. intros c Hc. rewrite Hh1 by congruence. by apply HA0. }
    destruct (t_split_by last_only t0 k1) as [ta tb]. cbn [fst snd] in *.
    pose proof (pc_size _ _ _ _ _ _ P0). pose proof (pc_size _ _ _ _ _ _ P1).
    wp_step. cbn beta iota. cbn [fst snd].
    eapply wp_mono; [|apply (copy_merge_below _ _ (order []) fuel h2 a n' k1 vs1
      None (Some vs1) ta tb l1 r1 t0 t1 q1 q2 (p_lch n) (p_rch n) Da Db Dl1 Dr1); try done].
    + intros c h' (t & D' & A3 & O & HC). exists t, D'. split_and!; [|done|done].
      eapply acts_trans; [exact A1|]. eapply acts_trans; [exact A2|].
      eapply acts_equiv; [| |exact A3]; clear; set_solver.
    + rewrite Hkeep by set_solver. apply lookup_insert_eq.
    + unfold node_data. simpl. by rewrite Ev, Ep, Ek.
    + eapply powns_frame; [|exact Ol1']. intros c Hc. apply Hkeep. set_solver.
    + eapply powns_frame; [|exact Or1']. intros c Hc. apply Hkeep. set_solver.
    + clear -Hdisj. set_solver.
    + clear -Hdisj. set_solver.
    + clear -F1 F2. set_solver.
    + subst t1. simpl in *. lia.
    + intros P _ HP. apply HP.
Qed.

Lemma copy_merge_spec fuel : ins_merges fuel.
Proof.
  induction fuel as [|fuel IH]; intros order h p q t0 t1 D0 D1 Hg O0 O1 HD W0 W1 Hf; [lia|].
  destruct t0 as [|vs0 p0 k0 l0 r0].
  { assert (HA := powns_allocated _ _ _ _ _ _ O0). destruct O0 as [_ ->].
    unfold makes. cbn [copy_merge]. wp_step.
    exists t1, (D0 ∪ D1). split_and!; [apply acts_refl| |].
    - eapply powns_grow; [| |by apply powns_mix]; [set_solver|]. apply allocated_union; eauto.
    - split; try done. intros k. simpl. by destruct (lookup_vals t1 k); [|left]. }
  assert (O0' := O0). apply powns_read in O0' as (a0 & n0 & _ & _ & -> & Hn0 & Hd0 & _); [|done].
  destruct t1 as [|vs1 p1 k1 l1 r1].
  { assert (HA := powns_allocated _ _ _ _ _ _ O1). destruct O1 as [_ ->].
    unfold makes. cbn [copy_merge]. wp_step.
    exists (Node vs0 p0 k0 l0 r0), (D0 ∪ D1). split_and!; [apply acts_refl| |].
    - eapply powns_grow; [| |exact O0]; [set_solver|]. apply allocated_union; eauto.
    - split; try done; [simpl; lia|]. intros k. by left. }
  assert (O1' := O1). apply powns_own in O1' as [[? _]|(a1 & n1 & _ & _ & -> & Hn1 & Hd1 & _)]; [done|].
  injection Hd0 as _ Ep0 Ek0. injection Hd1 as _ Ep1 Ek1.
  destruct (pam_pieces_node _ _ _ _ _ W0) as (-> & _). destruct (pam_pieces_node _ _ _ _ _ W1) as (-> & _).
  unfold makes. cbn [copy_merge]. do 4 wp_step. rewrite Ek0, Ek1, Ep0, Ep1.
  destruct (Z.ltb_spec (hash k1) (hash k0)).
  - eapply (copy_merge_old order fuel h _ _ vs0 k0 l0 r0 vs1 (hash k1) k1 l1 r1); try done. by exists a0.
  - eapply (copy_merge_ins order fuel h _ _ vs0 (hash k0) k0 l0 r0 vs1 k1 l1 r1); try done. by exists a0.
Qed.

(** ** copy_concat *)

(** [t] has the keys of [tl], all below [m], and those of [tr], all above [m]. *)
Record concats (m : Z) (tl tr t : tree) : Prop := {
  cc_wf : wf hash t;
  cc_size : (size t <= size tl + size tr)%nat;
  cc_all P : all_keys P tl -> all_keys P tr -> all_keys P t;
  cc_lookup_l j : j < m -> weak (lookup_vals tl j) (lookup_vals t j);
  cc_lookup_r j : m < j -> weak (lookup_vals tr j) (lookup_vals t j);
  cc_lookup_m : lookup_vals t m = None;
}.

(** The persistent nodes are those with an aggregate. *)
Definition complete : Prop := forall a n, g !! a = Some n -> p_vstat n <> vstat_uninitialized.

(** The root of a tree, copied unless it is owned; [Dx] is what lies beside it. *)
Lemma make_copy_if_need_spec sh h p vs pr k l r D R (Q : ptr -> heap -> Prop) n :
  complete -> g ⊆ h -> powns g sh h p (Node vs pr k l r) D -> vals_ok vs ->
  D ## R -> allocated g h R -> (exists a, p = Some a /\ h !! a = Some n) ->
  (forall a' n' vs' Dl Dr h', h' !! a' = Some n' ->
     acts h (D ∪ R) h' ({[a']} ∪ Dl ∪ Dr ∪ R) -> (a' ∉ R) -> Dl ∪ Dr ## R ->
     p_vstat n' = vstat_uninitialized -> g !! a' = None -> g ⊆ h' ->
     node_data n' = (vs', pr, k) -> vs' = vs \/ vs' = last_only vs ->
     (Some a' = p /\ n' = n \/ (p <> Some a' /\ forall a, p = Some a -> g !! a = Some n)) ->
     powns g sh h' (p_lch n) l Dl -> powns g sh h' (p_rch n) r Dr ->
     (a' ∉ Dl) -> (a' ∉ Dr) -> Dl ## Dr -> (forall b, b ∈ R -> h' !! b = h !! b) ->
     Q (Some a') h') ->
  wp (make_copy_if_need p) Q h.
Proof.
  intros Hc Hg Ho Hok HDR HAR (a & -> & Hn) HQ. assert (HA := powns_allocated _ _ _ _ _ _ Ho).
  unfold make_copy_if_need. wp_step. wp_step.
  apply powns_own in Ho as [[-> Hr]|(a0 & n0 & Dl & Dr & [= <-] & Hn0 & Hd & Hv & Hl & Hr & F1 & F2 & F3 & ->)].
  - destruct Hr as (a0 & n0 & [= <-] & Hn0 & Hd & Hl & Hr).
    assert (n0 = n) as -> by (eapply lookup_weaken in Hn0; [|exact Hg]; congruence).
    destruct (Z.eqb_spec (p_vstat n) vstat_uninitialized) as [E|_]; [by destruct (Hc a n)|].
    injection Hd as Ev Ep Ek. destruct (last_nonempty vs) as [b Hb]; [apply Hok|].
    eapply make_weak_copy_spec; [done|by rewrite Ev|]. intros a' Ha'.
    assert (g !! a' = None) as Hga' by by eapply lookup_weaken_None.
    assert (a <> a') by congruence. set (m := mk_node _ _ _ _ _ _ _).
    assert (forall b, h !! b <> None -> <[a' := m]> h !! b = h !! b) as Hk.
    { intros c Hc'. rewrite lookup_insert_ne; congruence. }
    assert (allocated g (<[a' := m]> h) D) as HA'.
    { intros c Hc'. destruct (HA c Hc') as [[x Hx] ?]. rewrite Hk by congruence. split; [by exists x|done]. }
    assert (a' ∉ D) as Hnin by (intros H'; destruct (HA a' H') as [[? ?] _]; congruence).
    assert (a' ∉ R) as HninR by (intros H'; destruct (HAR a' H') as [[? ?] _]; congruence).
    eapply (HQ a' m (last_only vs) D ∅).
    + apply lookup_insert_eq.
    + eapply acts_equiv; [reflexivity| |by apply (acts_alloc h a' m (D ∪ R))]. clear. set_solver.
    + done.
    + clear -HDR. set_solver.
    + done.
    + done.
    + by apply insert_subseteq_r.
    + unfold node_data, m, last_only. simpl. by rewrite Ep, Ek, Hb.
    + by right.
    + right. split; [congruence|]. intros c [= <-]. done.
    + apply powns_shared; [done|exact Hl].
    + apply powns_shared; [apply allocated_empty|exact Hr].
    + done.
    + clear. set_solver.
    + clear. set_solver.
    + intros c Hc'. apply lookup_insert_ne. congruence.
  - assert (n0 = n) as -> by congruence. rewrite Hv, Z.eqb_refl. wp_step.
    destruct (HA a) as [_ Hga]; [set_solver|].
    eapply (HQ a n vs Dl Dr h); first [done|apply acts_refl|by left|clear -HDR; set_solver].
Qed.

Lemma copied_ok vs vs' : vals_ok vs -> vs' = vs \/ vs' = last_only vs ->
  vals_ok vs' /\ weak (Some vs) (Some vs').
Proof.
  intros Hok [-> | ->]; [done|]. split; [by apply last_only_ok|by right].
Qed.

Lemma root_priority vs p k l r :
  wf hash (Node vs p k l r) -> all_keys (fun j => hash j <= p) (Node vs p k l r).
Proof.
  intros (-> & _ & _ & Hl & Hr & _). simpl. split_and!; [lia| |];
    (eapply pam_all_keys_impl; [|eassumption]); simpl; intros; lia.
Qed.

Lemma concats_left m vs vs' k l r tr t :
  let tl := Node vs (hash k) k l r in
  wf hash tl -> vs' = vs \/ vs' = last_only vs -> wf hash tr ->
  all_keys (fun j => j < m) tl -> all_keys (fun j => m < j) tr ->
  all_keys (fun j => hash j < hash k) tr ->
  concats m r tr t -> concats m tl tr (Node vs' (hash k) k l t).
Proof.
  intros tl (_ & Uk & Hok & Hl & Hr & Wl & Wr) Hvs Wtr (Hkm & Hlm & Hrm) Htr Hpr [W S A L R N].
  destruct (copied_ok _ _ Hok Hvs) as [Hok' Hw]. split.
  - simpl. split_and!; try done. apply A; [done|].
    eapply pam_all_keys_impl; [|apply pam_all_keys_and; split; [exact Htr|exact Hpr]]. simpl; intros; lia.
  - simpl. lia.
  - intros P (Pk & Pl & Pr) Ptr. simpl. split_and!; auto.
  - intros j Hj. simpl. destruct (Z.eqb_spec j k); [done|].
    destruct (Z.ltb_spec j k); [done|]. by apply L.
  - intros j Hj. simpl. zcases; try lia. by apply R.
  - simpl. zcases; try lia. done.
Qed.

Lemma concats_right m vs vs' k l r tl t :
  let tr := Node vs (hash k) k l r in
  wf hash tr -> vs' = vs \/ vs' = last_only vs -> wf hash tl ->
  all_keys (fun j => j < m) tl -> all_keys (fun j => m < j) tr ->
  all_keys (fun j => hash j < hash k) tl ->
  concats m tl l t -> concats m tl tr (Node vs' (hash k) k t r).
Proof.
  intros tr (_ & Uk & Hok & Hl & Hr & Wl & Wr) Hvs Wtl Htl (Hkm & Hlm & Hrm) Hpr [W S A L R N].
  destruct (copied_ok _ _ Hok Hvs) as [Hok' Hw]. split.
  - simpl. split_and!; try done. apply A; [|done].
    eapply pam_all_keys_impl; [|apply pam_all_keys_and; split; [exact Htl|exact Hpr]]. simpl; intros; lia.
  - simpl. lia.
  - intros P Ptl (Pk & Pl & Pr). simpl. split_and!; auto.
  - intros j Hj. simpl. zcases; try lia. by apply L.
  - intros j Hj. simpl. destruct (Z.eqb_spec j k); [done|].
    destruct (Z.ltb_spec j k); [by apply R|done].
  - simpl. zcases; try lia. done.
Qed.

Lemma copy_concat_spec sh fuel h p q tl tr D0 D1 m :
  complete -> g ⊆ h -> powns g sh h p tl D0 -> powns g sh h q tr D1 -> D0 ## D1 ->
  wf hash tl -> wf hash tr -> all_keys (fun j => j < m) tl -> all_keys (fun j => m < j) tr ->
  (size tl + size tr < fuel)%nat ->
  pmakes g sh (D0 ∪ D1) (copy_concat fuel p q) (concats m tl tr) h.
Proof.
  intros Hc. revert h p q tl tr D0 D1.
  induction fuel as [|fuel IH]; intros h p q tl tr D0 D1 Hg O0 O1 HD W0 W1 B0 B1 Hf; [lia|].
  assert (HA0 := powns_allocated _ _ _ _ _ _ O0). assert (HA1 := powns_allocated _ _ _ _ _ _ O1).
  unfold makes. cbn [copy_concat].
  destruct tl as [|vs0 p0 k0 l0 r0].
  { destruct O0 as [_ ->]. wp_step. exists tr, (D0 ∪ D1). split_and!; [apply acts_refl| |].
    - eapply powns_grow; [| |exact O1]; [set_solver|]. apply allocated_union; eauto.
    - split; try done.
      + intros j Hj. left. apply (pam_all_keys_notin _ _ _ B1). lia.
      + apply (pam_all_keys_notin _ _ _ B1). lia. }
  assert (O0' := O0). apply powns_read in O0' as (a0 & n0 & _ & _ & -> & Hn0 & Hd0 & _); [|done].
  destruct tr as [|vs1 p1 k1 l1 r1].
  { destruct O1 as [_ ->]. wp_step. exists (Node vs0 p0 k0 l0 r0), (D0 ∪ D1).
    split_and!; [apply acts_refl| |].
    - eapply powns_grow; [| |exact O0]; [set_solver|]. apply allocated_union; eauto.
    - split; try done; [simpl; lia| |].
      + intros j Hj. left. apply (pam_all_keys_notin _ _ _ B0). lia.
      + apply (pam_all_keys_notin _ _ _ B0). lia. }
  assert (O1' := O1). apply powns_read in O1' as (a1 & n1 & _ & _ & -> & Hn1 & Hd1 & _); [|done].
  assert (R0 := root_priority _ _ _ _ _ W0). assert (R1 := root_priority _ _ _ _ _ W1).
  assert (W0' := W0). assert (W1' := W1).
  destruct W0' as (-> & Uk0 & Hok0 & _ & _ & Wl0 & Wr0). destruct W1' as (-> & Uk1 & Hok1 & _ & _ & Wl1 & Wr1).
  injection Hd0 as _ Dp0 _. injection Hd1 as _ Dp1 _.
  do 4 wp_step. rewrite Dp0, Dp1. destruct (Z.ltb_spec (hash k1) (hash k0)) as [Hlt|Hge]; wp_step.
  - eapply (make_copy_if_need_spec sh h _ _ _ _ _ _ D0 D1); [done|done|exact O0|done|done|done|by exists a0|].
    intros a' n' vs' Dl Dr h1 Hn' A1 FR FD Hv' Hga' Hg1 Hd' Hvs Hroot Ol Or F1 F2 F3 Hk.
    wp_step. wp_step. set (n2 := set_lch (p_lch n0) n'). set (h2 := <[a' := n2]> h1).
    assert (forall b, b <> a' -> h2 !! b = h1 !! b) as Hh2 by (intros; by apply lookup_insert_ne).
    assert (g ⊆ h2) as Hg2 by by apply insert_subseteq_r.
    assert (exists n3, h2 !! a0 = Some n3 /\ p_rch n3 = p_rch n0) as (n3 & Hn3 & Hr3).
    { destruct Hroot as [[[= ->] ->]|[Hne Hg0]].
      - exists n2. split; [apply lookup_insert_eq|done].
      - exists n0. split; [|done]. rewrite Hh2 by congruence.
        eapply lookup_weaken; [by apply Hg0|done]. }
    wp_step. wp_step. rewrite Hr3. wp_step.
    eapply wp_mono; [|apply (IH h2 (p_rch n0) (Some a1) r0 (Node vs1 (hash k1) k1 l1 r1) Dr D1); try done].
    + intros c h3 (t & D' & A3 & O & HC).
      destruct (acts_child h2 a' n2 (set_rch c n2) (Dr ∪ D1) Dl h3 D') as (H3 & A4 & F4 & F5 & K1 & K2);
        [apply lookup_insert_eq|clear -F2 FR; set_solver|done|clear -F3 FD; set_solver| |done|].
      { intros b Hb. rewrite Hh2 by congruence. by apply (powns_dom _ _ _ _ _ _ Ol). }
      wp_step. wp_step. wp_step.
      injection Hd' as Ev' Ep' Ek'. exists (Node vs' (hash k0) k0 l0 t), ({[a']} ∪ Dl ∪ D').
      split_and!.
      * eapply acts_trans; [exact A1|]. eapply acts_trans; [apply (acts_store h1 a' n2); clear; set_solver|].
        fold h2. eapply acts_equiv; [| |exact A4]; clear; set_solver.
      * rewrite <- Ev', <- Ep', <- Ek'. change (p_vals n') with (p_vals (set_rch c n2)).
        apply (powns_node g sh _ a' (set_rch c n2)); try done; try (clear -F1 F4 F5; set_solver).
        -- apply lookup_insert_eq.
        -- eapply powns_frame; [|exact Ol]. intros b Hb. rewrite K1 by done. apply Hh2. congruence.
        -- by eapply powns_frame.
      * eapply (concats_left m vs0); [exact W0|exact Hvs|exact W1|exact B0|exact B1| |exact HC].
        eapply pam_all_keys_impl; [|exact R1]. simpl; intros; lia.
    + eapply powns_frame; [|exact Or]. intros b Hb. apply Hh2. congruence.
    + eapply powns_frame; [|exact O1]. intros b Hb. rewrite Hh2 by congruence. by apply Hk.
    + clear -FD. set_solver.
    + apply B0.
    + simpl in *. lia.
  - eapply (make_copy_if_need_spec sh h _ _ _ _ _ _ D1 D0); [done|done|exact O1|done|done|done|by exists a1|].
    intros a' n' vs' Dl Dr h1 Hn' A1 FR FD Hv' Hga' Hg1 Hd' Hvs Hroot Ol Or F1 F2 F3 Hk.
    wp_step. eapply wp_mono; [|apply (IH h1 (Some a0) (p_lch n1) (Node vs0 (hash k0) k0 l0 r0) l1 D0 Dl); try done].
    + intros c h2 (t & D' & A2 & O & HC).
      destruct (acts_child h1 a' n' (set_rch (p_rch n1) (set_lch c n')) (D0 ∪ Dl) Dr h2 D')
        as (H2 & A4 & F4 & F5 & K1 & K2);
        [done|clear -F1 FR; set_solver|done|clear -F3 FD; set_solver|by apply (powns_dom _ _ _ _ _ _ Or)|done|].
      assert (g ⊆ h2) as Hg2.
      { eapply acts_persistent; [exact Hg1| |exact A2]. apply allocated_union; [|by eauto].
        intros b Hb. rewrite Hk by done. by apply HA0. }
      wp_step. wp_step. set (h3 := <[a' := _]> h2).
      assert (exists n3, h3 !! a1 = Some n3 /\ p_rch n3 = p_rch n1) as (n3 & Hn3 & Hr3).
      { destruct Hroot as [[[= ->] ->]|[Hne Hg0]].
        - eexists. split; [apply lookup_insert_eq|done].
        - exists n1. split; [|done]. unfold h3. rewrite lookup_insert_ne by congruence.
          eapply lookup_weaken; [by apply Hg0|done]. }
      wp_step. wp_step. rewrite Hr3. wp_step. eapply wp_store; [apply lookup_insert_eq|].
      unfold h3. rewrite insert_insert_eq. wp_step.
      injection Hd' as Ev' Ep' Ek'. exists (Node vs' (hash k1) k1 t r1), ({[a']} ∪ D' ∪ Dr).
      split_and!.
      * eapply acts_trans; [|eapply acts_equiv; [| |exact A4]; [|reflexivity]; reflexivity].
        eapply acts_equiv; [| |exact A1]; clear; set_solver.
      * rewrite <- Ev', <- Ep', <- Ek'. set (n4 := set_rch (p_rch n1) (set_lch c n')).
        apply (powns_node g sh _ a' n4); try done; try (clear -F2 F4 F5; set_solver).
        -- apply lookup_insert_eq.
        -- by eapply powns_frame.
        -- eapply powns_frame; [|exact Or]. done.
      * eapply (concats_right m vs1); [exact W1|exact Hvs|exact W0|exact B0|exact B1| |exact HC].
        assert (hash k0 < hash k1).
        { destruct (decide (hash k0 = hash k1)) as [E|]; [|lia]. apply TreapTree.hash_inj in E; [|done|done].
          destruct B0 as [? _], B1 as [? _]. lia. }
        eapply pam_all_keys_impl; [|exact R0]. simpl; intros; lia.
    + eapply powns_frame; [|exact O0]. intros b Hb. by apply Hk.
    + clear -FD. set_solver.
    + apply B1.
    + simpl in *. lia.
Qed.

(** ** release_tree *)

Lemma release_tree_spec fuel h p t D :
  powns g false h p t D -> (size t < fuel)%nat ->
  wp (release_tree fuel p)
     (fun _ h' => exists D', D' ⊆ D /\ acts h D h' D' /\ allocated g h' D') h.
Proof.
  revert h p t D. induction fuel as [|fuel IH]; intros h p t D Ho Hf; [lia|].
  assert (HA := powns_allocated _ _ _ _ _ _ Ho).
  destruct t as [|vs pr k l r].
  { destruct Ho as [_ ->]. cbn [release_tree]. wp_step. exists D. split_and!; [done|apply acts_refl|done]. }
  apply powns_own in Ho as [[? _]|(a & n & Dl & Dr & -> & Hn & _ & _ & Hl & Hr & F1 & F2 & F3 & ->)]; [done|].
  simpl in Hf. cbn [release_tree]. wp_step. wp_step. wp_step.
  eapply wp_mono; [|apply (IH h (p_lch n) l Dl Hl); lia]. intros _ h1 (Dl' & Sl & Al & HAl).
  destruct (acts_frame h Dl h1 Dl' ({[a]} ∪ Dr)) as (A1 & _ & K1); [|clear -F1 F3; set_solver|done|].
  { intros b Hb. apply HA. clear -Hb. set_solver. }
  assert (h1 !! a = Some n) as Hn1 by (rewrite K1; [done|set_solver]).
  wp_step. eapply wp_mono; [|apply (IH h1 (p_rch n) r Dr); [|lia]].
  2: { eapply powns_frame; [|exact Hr]. intros b Hb. apply K1. set_solver. }
  intros _ h2 (Dr' & Sr & Ar & HAr).
  destruct (acts_frame h1 Dr h2 Dr' ({[a]} ∪ Dl')) as (A2 & _ & K2); [|clear -F2 F3 Sl; set_solver|done|].
  { intros b [->%elem_of_singleton|Hb]%elem_of_union; [by exists n|by apply HAl]. }
  assert (h2 !! a = Some n) as Hn2 by (rewrite K2; [done|set_solver]).
  unfold release_node. wp_step. exists (({[a]} ∪ Dl' ∪ Dr') ∖ {[a]}). split_and!.
  - clear -Sl Sr. set_solver.
  - eapply acts_trans; [|apply acts_free; clear; set_solver].
    eapply acts_trans; [eapply acts_equiv; [| |exact A1]; [clear; set_solver|reflexivity]|].
    eapply acts_equiv; [| |exact A2]; clear; set_solver.
  - intros b Hb. assert (b <> a /\ (b ∈ Dl' \/ b ∈ Dr')) as [Hne [Hb'|Hb']] by (clear -Hb; set_solver).
    + destruct (HAl b Hb') as [[x Hx] ?]. split; [exists x|done]. rewrite lookup_delete_ne by done.
      rewrite K2; [done|set_solver].
    + destruct (HAr b Hb') as [[x Hx] ?]. split; [exists x|done]. by rewrite lookup_delete_ne.
Qed.

(** ** copy_subtract *)

(** The values of a key in the old tree, the removed tree and the new tree. *)
Definition del_rel : result_rel := fun old det new =>
  match det with Some _ => new = None | None => weak old new end.

Lemma del_rel_weak a a' b b' c : weak a a' -> weak b b' -> del_rel a' b' c -> del_rel a b c.
Proof.
  intros Ha Hb. unfold del_rel. destruct b, b'; try done.
  - apply weak_none in Hb. naive_solver.
  - apply weak_none in Hb. naive_solver.
  - by etrans.
Qed.

Lemma weak_eq x y : x = y -> weak x y.
Proof. intros ->. by left. Qed.

Definition subtracts (fuel : nat) : Prop := forall order h p q t0 t1 D1,
  g ⊆ h -> rep g p t0 -> powns g false h q t1 D1 ->
  wf hash t0 -> wf hash t1 -> (size t0 + size t1 < fuel)%nat ->
  pmakes g true D1 (copy_subtract order fuel p q) (combines (hash := hash) del_rel t0 t1) h.

(** The pieces of both trees below and above a removed key are put together. *)
Lemma combines_concat k vs0 x1 l0 r0 l1 r1 t0 t1 tl tr t :
  pieces (hash := hash) eq k (Some vs0) l0 r0 t0 ->
  pieces (hash := hash) eq k (Some x1) l1 r1 t1 ->
  combines (hash := hash) del_rel l0 l1 tl -> combines (hash := hash) del_rel r0 r1 tr ->
  (size l0 + size r0 + size l1 + size r1 <= size t0 + size t1)%nat ->
  concats k tl tr t -> combines (hash := hash) del_rel t0 t1 t.
Proof.
  intros P0 P1 Cl Cr Hs [W S A L R N]. split; [done| | |].
  - pose proof (cb_size _ _ _ _ Cl). pose proof (cb_size _ _ _ _ Cr). lia.
  - intros P H0 H1. apply (pc_all _ _ _ _ _ _ P0) in H0 as [? ?].
    apply (pc_all _ _ _ _ _ _ P1) in H1 as [? ?].
    apply A; [by apply (cb_all _ _ _ _ Cl)|by apply (cb_all _ _ _ _ Cr)].
  - intros j. destruct (Z.lt_trichotomy j k) as [Hj|[-> |Hj]].
    + pose proof (cb_lookup _ _ _ _ Cl j) as C.
      rewrite (pc_lookup_l _ _ _ _ _ _ P0 j Hj), (pc_lookup_l _ _ _ _ _ _ P1 j Hj).
      specialize (L j Hj). unfold del_rel in *. destruct (lookup_vals l1 j).
      * rewrite C in L. by apply (weak_none _ _ L).
      * by etrans.
    + by rewrite (pc_at _ _ _ _ _ _ P1).
    + pose proof (cb_lookup _ _ _ _ Cr j) as C.
      rewrite (pc_lookup_r _ _ _ _ _ _ P0 j Hj), (pc_lookup_r _ _ _ _ _ _ P1 j Hj).
      specialize (R j Hj). unfold del_rel in *. destruct (lookup_vals r1 j).
      * rewrite C in R. by apply (weak_none _ _ R).
      * by etrans.
Qed.

(** The removed root is not in the old tree: it is dropped. *)
Lemma combines_dropped k vs l1 r1 t0 t1' t :
  let t1 := Node vs (hash k) k l1 r1 in
  lookup_vals t0 k = None -> wf hash t1 -> concats k l1 r1 t1' ->
  combines (hash := hash) del_rel t0 t1' t -> combines (hash := hash) del_rel t0 t1 t.
Proof.
  intros t1 Hk W1 [W S A L R N] [CW CS CA CL]. subst t1. destruct (pam_pieces_node _ _ _ _ _ W1) as (_ & _ & _ & P1).
  split; [done|simpl; lia| |].
  - intros P H0 H1. apply CA; [done|]. apply (pc_all _ _ _ _ _ _ P1) in H1 as [? ?]. by apply A.
  - intros j. destruct (Z.lt_trichotomy j k) as [Hj|[-> |Hj]].
    + rewrite (pc_lookup_l _ _ _ _ _ _ P1 j Hj).
      eapply (del_rel_weak _ _ _ _ _ (weak_eq _ _ eq_refl)); [exact (L j Hj)|apply CL].
    + rewrite (pc_at _ _ _ _ _ _ P1). specialize (CL k). rewrite N in CL. simpl in *.
      rewrite Hk in CL. by apply (weak_none _ _ CL).
    + rewrite (pc_lookup_r _ _ _ _ _ _ P1 j Hj).
      eapply (del_rel_weak _ _ _ _ _ (weak_eq _ _ eq_refl)); [exact (R j Hj)|apply CL].
Qed.

(** [t] is persistent, so the operation may not touch its locations. *)
Lemma keeps_persistent h (h1 : heap) D E :
  g ⊆ h -> (forall b, b ∈ D ∪ (E ∪ dom g) -> h1 !! b = h !! b) -> g ⊆ h1.
Proof.
  intros Hg Hk. apply map_subseteq_spec. intros a n Ha. rewrite Hk.
  - by eapply lookup_weaken.
  - apply elem_of_dom_2 in Ha. set_solver.
Qed.

Lemma allocated_disj h D : allocated g h D -> D ## dom g.
Proof.
  intros HA b Hb Hin. destruct (HA b Hb) as [_ Hn]. apply elem_of_dom in Hin as [? ?]. congruence.
Qed.

(** The three branches of [copy_subtract]. *)
Lemma copy_subtract_equal o1 o2 fuel h p q vs0 k l0 r0 vs1 l1 r1 D1 (o : bool) :
  let t0 := Node vs0 (hash k) k l0 r0 in let t1 := Node vs1 (hash k) k l1 r1 in
  complete -> subtracts fuel ->
  g ⊆ h -> rep g p t0 -> powns g false h q t1 D1 -> wf hash t0 -> wf hash t1 ->
  (size t0 + size t1 < S fuel)%nat ->
  forall n0 n1, (exists a, p = Some a /\ h !! a = Some n0) -> (exists a, q = Some a /\ h !! a = Some n1) ->
  pmakes g true D1
    (t_new ← par_do o (copy_subtract o1 fuel (p_lch n0) (p_lch n1))
                      (copy_subtract o2 fuel (p_rch n0) (p_rch n1));
     release_node q;;
     copy_concat (S fuel) t_new.1 t_new.2) (combines (hash := hash) del_rel t0 t1) h.
Proof.
  intros t0 t1 Hc IH Hg R0 O1 W0 W1 Hf n0 n1 (a0 & -> & Hn0) (a1 & -> & Hn1).
  assert (HA1 := powns_allocated _ _ _ _ _ _ O1).
  apply powns_own in O1 as [[? _]|(a & n & Dl & Dr & [= <-] & Hn & _ & _ & Hl & Hr & F1 & F2 & F3 & ->)]; [done|].
  assert (n1 = n) as -> by congruence.
  destruct R0 as (a & n0' & [= <-] & Hg0 & _ & Rl & Rr).
  assert (n0 = n0') as -> by (eapply lookup_weaken in Hg0; [|exact Hg]; congruence).
  destruct (pam_pieces_node _ _ _ _ _ W0) as (_ & _ & _ & P0). fold t0 in P0.
  destruct (pam_pieces_node _ _ _ _ _ W1) as (_ & _ & _ & P1). fold t1 in P1.
  assert (HDl := allocated_disj h Dl (powns_allocated _ _ _ _ _ _ Hl)).
  assert (HDr := allocated_disj h Dr (powns_allocated _ _ _ _ _ _ Hr)).
  unfold makes. wp_step.
  eapply wp_mono; [|apply (wp_par_owned (OwnedTree0 := pam_owned g true) o h _ _ Dl Dr ({[a1]} ∪ dom g)
    (combines (hash := hash) del_rel l0 l1) (combines (hash := hash) del_rel r0 r1)); [done| | | | |]].
  - intros [pl pr] h1 (tl & tr & Dl' & Dr' & A & HD & Ol & Or & [K F] & Cl & Cr). cbn [fst snd] in *.
    assert (h1 !! a1 = Some n) as Ha1 by (rewrite K; [done|set_solver]).
    assert (g ⊆ h1) as Hg1.
    { eapply (keeps_persistent h h1 ∅ ∅ Hg). intros b Hb. apply K. set_solver. }
    wp_step. unfold release_node. wp_step.
    pose proof (cb_size _ _ _ _ Cl). pose proof (cb_size _ _ _ _ Cr).
    assert (forall P, all_keys P l0 -> all_keys P l1 -> all_keys P tl) as PL by apply Cl.
    assert (forall P, all_keys P r0 -> all_keys P r1 -> all_keys P tr) as PR by apply Cr.
    assert (a1 ∉ dom g) as Hag.
    { apply not_elem_of_dom, HA1. set_solver. }
    eapply wp_mono; [|apply (copy_concat_spec true (S fuel) (delete a1 h1) pl pr tl tr Dl' Dr' k Hc)].
    + intros c h2 (t & D' & A2 & O & HC). exists t, D'. split_and!; [|done|].
      * eapply acts_trans; [|exact A2]. eapply acts_trans; [|
          eapply acts_equiv; [reflexivity| |apply (acts_free h1 a1 ({[a1]} ∪ (Dl' ∪ Dr')))];
          clear -F; set_solver].
        destruct (acts_frame h (Dl ∪ Dr) h1 (Dl' ∪ Dr') {[a1]}) as (A' & _ & _);
          [|clear -F1 F2; set_solver|exact A|].
        { intros b ->%elem_of_singleton. by exists n. }
        eapply acts_equiv; [| |exact A']; clear; set_solver.
      * eapply (combines_concat k vs0 vs1 l0 r0 l1 r1); try done. subst t0 t1; simpl; lia.
    + apply map_subseteq_spec. intros b m Hb. rewrite lookup_delete_ne.
      * by eapply lookup_weaken.
      * intros <-. apply Hag. by eapply elem_of_dom_2.
    + eapply powns_frame; [|exact Ol]. intros b Hb. apply lookup_delete_ne. set_solver.
    + eapply powns_frame; [|exact Or]. intros b Hb. apply lookup_delete_ne. set_solver.
    + done.
    + apply Cl.
    + apply Cr.
    + apply PL; (eapply pam_all_keys_impl; [|apply (pc_below _ _ _ _ _ _ P0) || apply (pc_below _ _ _ _ _ _ P1)]);
        simpl; intros; lia.
    + apply PR; (eapply pam_all_keys_impl; [|apply (pc_above _ _ _ _ _ _ P0) || apply (pc_above _ _ _ _ _ _ P1)]);
        simpl; intros; lia.
    + subst t0 t1. simpl in *. lia.
  - clear -F1 HDl. set_solver.
  - clear -F2 HDr. set_solver.
  - intros b Hb. assert (b ∈ {[a1]} ∪ Dl ∪ Dr \/ b ∈ dom g) as [Hb'|Hb'] by (clear -Hb; set_solver).
    + by apply HA1.
    + apply elem_of_dom in Hb' as [m Hm]. exists m. by eapply lookup_weaken.
  - intros h1 K. apply IH; try done.
    + by eapply keeps_persistent.
    + eapply powns_frame; [|exact Hl]. intros b Hb. apply K. set_solver.
    + apply P0.
    + apply P1.
    + subst t0 t1. simpl in *. lia.
  - intros h1 K. apply IH; try done.
    + by eapply keeps_persistent.
    + eapply powns_frame; [|exact Hr]. intros b Hb. apply K. set_solver.
    + apply P0.
    + apply P1.
    + subst t0 t1. simpl in *. lia.
Qed.

Lemma copy_subtract_keep o1 o2 fuel h p q vs0 k0 l0 r0 vs1 k1 l1 r1 D1 (o : bool) :
  let t0 := Node vs0 (hash k0) k0 l0 r0 in let t1 := Node vs1 (hash k1) k1 l1 r1 in
  subtracts fuel ->
  g ⊆ h -> rep g p t0 -> powns g false h q t1 D1 -> wf hash t0 -> wf hash t1 ->
  (size t0 + size t1 < S fuel)%nat -> hash k1 < hash k0 ->
  forall n0, (exists a, p = Some a /\ h !! a = Some n0) ->
  pmakes g true D1
    (t_new ← make_weak_copy p;
     t_det_lr ← split (S fuel) q k0;
     par_children o t_new
       (copy_subtract o1 fuel (p_lch n0) t_det_lr.1)
       (copy_subtract o2 fuel (p_rch n0) t_det_lr.2);;
     mret t_new) (combines (hash := hash) del_rel t0 t1) h.
Proof.
  intros t0 t1 IH Hg R0 O1 W0 W1 Hf Hlt n0 (a0 & -> & Hn0).
  assert (HA1 := powns_allocated _ _ _ _ _ _ O1).
  destruct R0 as (a & n0' & [= <-] & Hg0 & Hd & Rl & Rr).
  assert (n0 = n0') as <- by (eapply lookup_weaken in Hg0; [|exact Hg]; congruence).
  injection Hd as Ev Ep Ek.
  destruct (pam_pieces_node _ _ _ _ _ W0) as (_ & Uk & Hok & P0). fold t0 in P0. apply pieces_weak in P0.
  pose proof (pam_pieces_split eq id _ _ _ _ _ k0 keeps_id W1 Hlt) as P1. fold t1 in P1.
  destruct (last_nonempty vs0) as [b Hb]; [apply Hok|].
  unfold makes. wp_step. eapply make_weak_copy_spec; [done|by rewrite Ev|].
  intros a' Ha'. rewrite Ep, Ek. set (m := mk_node _ _ _ _ _ _ _). set (h1 := <[a' := m]> h).
  assert (g !! a' = None) as Hga' by (by eapply lookup_weaken_None).
  assert (a' ∉ D1) as Fa1 by (intros H; destruct (HA1 a' H) as [[? ?] _]; congruence).
  assert (g ⊆ h1) as Hg1 by by apply insert_subseteq_r.
  assert (powns g false h1 q t1 D1) as O1'.
  { eapply powns_frame; [|exact O1]. intros c Hc. apply lookup_insert_ne. congruence. }
  wp_step. eapply wp_mono; [|apply (pam_split_spec g (S fuel) h1 q t1 D1 k0 O1'); lia].
  intros [q1 q2] h2 (Da & Db & A & Hab & Oa & Ob).
  destruct (acts_frame h1 D1 h2 (Da ∪ Db) {[a']}) as (A2 & Hdisj & Hkeep);
    [|clear -Fa1; set_solver|done|].
  { intros c ->%elem_of_singleton. exists m. apply lookup_insert_eq. }
  assert (g ⊆ h2) as Hg2 by (eapply acts_persistent; [exact Hg1| |exact A]; eauto).
  destruct (t_split_by id t1 k0) as [ta tb]. cbn [fst snd] in *.
  pose proof (pc_size _ _ _ _ _ _ P0). pose proof (pc_size _ _ _ _ _ _ P1).
  wp_step. eapply wp_mono; [|eapply (wp_children g true o h2 a' m Da Db ∅ _ _
    (combines (hash := hash) del_rel l0 ta) (combines (hash := hash) del_rel r0 tb)); try done].
  - intros _ h3 (tl & tr & D2 & A3 & Ot & _ & _ & _ & Cl & Cr). wp_step.
    exists (Node (last_only vs0) (hash k0) k0 tl tr), D2. split_and!.
    + eapply acts_trans; [by apply (acts_alloc h a' m D1)|]. fold h1.
      eapply acts_trans; [|exact A3]. eapply acts_equiv; [| |exact A2]; clear; set_solver.
    + unfold last_only. rewrite Hb. exact Ot.
    + eapply (combines_node del_rel weak eq); try done.
      * intros x x' y y' c Hx ->. by apply del_rel_weak.
      * by apply last_only_ok.
      * by right.
      * subst t0. simpl in *. lia.
      * intros P HP _. apply HP.
  - rewrite Hkeep by set_solver. apply lookup_insert_eq.
  - eauto.
  - eauto.
  - clear -Hdisj. set_solver.
  - clear -Hdisj. set_solver.
  - intros h3 n3 Hg3 K3 _ _. apply IH; try done.
    + eapply powns_frame; [|exact Oa]. intros c Hc. apply K3. set_solver.
    + apply P0.
    + apply P1.
    + subst t0 t1. simpl in *. lia.
  - intros h3 n3 Hg3 K3 _ _. apply IH; try done.
    + eapply powns_frame; [|exact Ob]. intros c Hc. apply K3. set_solver.
    + apply P0.
    + apply P1.
    + subst t0 t1. simpl in *. lia.
Qed.

Lemma copy_subtract_drop order fuel h p q vs0 k0 l0 r0 vs1 k1 l1 r1 D1 :
  let t0 := Node vs0 (hash k0) k0 l0 r0 in let t1 := Node vs1 (hash k1) k1 l1 r1 in
  complete -> subtracts fuel ->
  g ⊆ h -> rep g p t0 -> powns g false h q t1 D1 -> wf hash t0 -> wf hash t1 ->
  (size t0 + size t1 < S fuel)%nat -> hash k0 < hash k1 ->
  forall n1, (exists a, q = Some a /\ h !! a = Some n1) ->
  pmakes g true D1
    (t_det_new ← copy_concat (S fuel) (p_lch n1) (p_rch n1);
     release_node q;;
     copy_subtract order fuel p t_det_new) (combines (hash := hash) del_rel t0 t1) h.
Proof.
  intros t0 t1 Hc IH Hg R0 O1 W0 W1 Hf Hlt n1 (a1 & -> & Hn1).
  assert (HA1 := powns_allocated _ _ _ _ _ _ O1).
  apply powns_own in O1 as [[? _]|(a & n & Dl & Dr & [= <-] & Hn & _ & _ & Hl & Hr & F1 & F2 & F3 & ->)]; [done|].
  assert (n1 = n) as -> by congruence.
  destruct (pam_pieces_node _ _ _ _ _ W1) as (_ & _ & _ & P1). fold t1 in P1.
  pose proof (pc_size _ _ _ _ _ _ P1).
  assert (lookup_vals t0 k1 = None) as Hk1.
  { eapply (pam_all_keys_notin (fun j => hash j <= hash k0)); [by apply root_priority|lia]. }
  unfold makes. wp_step.
  eapply wp_mono; [|apply (copy_concat_spec false (S fuel) h (p_lch n) (p_rch n) l1 r1 Dl Dr k1 Hc);
    try done].
  - intros c h1 (t & D' & A & O & HC).
    destruct (acts_frame h (Dl ∪ Dr) h1 D' {[a1]}) as (A' & F & K); [|clear -F1 F2; set_solver|done|].
    { intros b ->%elem_of_singleton. by exists n. }
    assert (h1 !! a1 = Some n) as Ha1 by (rewrite K; [done|set_solver]).
    assert (g ⊆ h1) as Hg1.
    { eapply acts_persistent; [exact Hg| |exact A]. apply allocated_union; eauto. }
    wp_step. unfold release_node. wp_step.
    assert (a1 ∉ dom g) as Hag.
    { apply not_elem_of_dom, HA1. set_solver. }
    pose proof (cc_size _ _ _ _ HC).
    eapply wp_mono; [|apply (IH order (delete a1 h1) p c t0 t D')]; try done.
    + intros c' h2 (t' & D2 & A2 & O2 & C2). exists t', D2. split_and!; [|done|].
      * eapply acts_trans; [|exact A2].
        eapply acts_trans; [eapply acts_equiv; [|reflexivity|exact A']; clear; set_solver|].
        eapply acts_equiv; [reflexivity| |apply acts_free; clear; set_solver]. clear -F. set_solver.
      * by eapply (combines_dropped k1 vs1 l1 r1 t0 t).
    + apply map_subseteq_spec. intros b m Hb. rewrite lookup_delete_ne.
      * by eapply lookup_weaken.
      * intros <-. apply Hag. by eapply elem_of_dom_2.
    + eapply powns_frame; [|exact O]. intros b Hb. apply lookup_delete_ne. set_solver.
    + apply HC.
    + subst t0 t1. simpl in *. lia.
  - apply P1.
  - apply P1.
  - eapply pam_all_keys_impl; [|apply (pc_below _ _ _ _ _ _ P1)]. simpl; intros; lia.
  - eapply pam_all_keys_impl; [|apply (pc_above _ _ _ _ _ _ P1)]. simpl; intros; lia.
  - subst t0 t1. simpl in *. lia.
Qed.

Lemma copy_subtract_spec fuel : complete -> subtracts fuel.
Proof.
  intros Hc. induction fuel as [|fuel IH]; intros order h p q t0 t1 D1 Hg R0 O1 W0 W1 Hf; [lia|].
  assert (HA1 := powns_allocated _ _ _ _ _ _ O1).
  destruct t0 as [|vs0 p0 k0 l0 r0].
  { simpl in R0. subst p. unfold makes. cbn [copy_subtract]. wp_step.
    eapply wp_mono; [|by apply (release_tree_spec (S fuel) h q t1 D1)].
    intros _ h1 (D' & _ & A & HA). wp_step. exists Leaf, D'. split_and!; [done|done|].
    split; try done; [simpl; lia|]. intros k. simpl. by destruct (lookup_vals t1 k); [|left]. }
  assert (R0' := R0). destruct R0' as (a0 & n0 & -> & Hg0 & Hd0 & _ & _).
  assert (h !! a0 = Some n0) as Hn0 by by eapply lookup_weaken.
  destruct t1 as [|vs1 p1 k1 l1 r1].
  { destruct O1 as [_ ->]. unfold makes. cbn [copy_subtract]. wp_step.
    exists (Node vs0 p0 k0 l0 r0), D1. split_and!; [apply acts_refl|by apply powns_shared|].
    split; try done; [simpl; lia|]. intros k. by left. }
  assert (O1' := O1). apply powns_own in O1' as [[? _]|(a1 & n1 & _ & _ & -> & Hn1 & Hd1 & _)]; [done|].
  injection Hd0 as _ Ep0 Ek0. injection Hd1 as _ Ep1 Ek1.
  destruct (pam_pieces_node _ _ _ _ _ W0) as (-> & U0 & _). destruct (pam_pieces_node _ _ _ _ _ W1) as (-> & U1 & _).
  unfold makes. cbn [copy_subtract]. do 4 wp_step. rewrite Ek0, Ek1, Ep0, Ep1.
  destruct (Z.eqb_spec k0 k1) as [<-|Hne].
  - eapply (copy_subtract_equal _ _ fuel h _ _ vs0 k0 l0 r0 vs1 l1 r1); try done; by eexists.
  - destruct (Z.ltb_spec (hash k1) (hash k0)).
    + eapply (copy_subtract_keep _ _ fuel h _ _ vs0 k0 l0 r0 vs1 k1 l1 r1); try done. by exists a0.
    + assert (hash k0 < hash k1).
      { destruct (decide (hash k0 = hash k1)) as [E|]; [|lia]. by apply TreapTree.hash_inj in E. }
      eapply (copy_subtract_drop order fuel h _ _ vs0 k0 l0 r0 vs1 k1 l1 r1); try done. by exists a1.
Qed.
End copies.
