(* ===== verification/Pam.v ===== *)
(** * The batched treap as its clients see it

    [src/lib/pam/interface.hpp]: a snapshot is the root of a complete tree in the
    persistent heap; [build], [inserted] and [deleted] make a new snapshot and
    leave every other one alone, [find] and [range_estimate] ask for the counter
    of a key, or the sum of a range, at a version. *)

From S2P Require Import Prelude Owned TreapTree.
From stdpp Require Import sorting.
From S2P Require Import PamNode PamBuild PamQuery PamUpdate.

#[local] Open Scope Z_scope.

Module interface.
Section interface.
Context (hash : Z -> Z) (order : list nat -> bool).

Definition build (fuel : nat) (n : nat) (elems : list Z) : M node_t ptr :=
  t ← PamBuild.build hash (branch 1 order) fuel n elems;
  augment_parallel (branch 3 order) fuel t;;
  mret t.

Definition inserted_one (fuel : nat) (t_old : ptr) (ver elem : Z) : M node_t ptr :=
  t_ins ← make_node hash ver elem;
  t ← copy_merge (branch 2 order) fuel t_old t_ins;
  augment_parallel (branch 3 order) fuel t;;
  mret t.

Definition inserted (fuel : nat) (t_old : ptr) (ver : Z) (n : nat) (elems : list Z) : M node_t ptr :=
  t_det ← build_versioned hash (branch 1 order) fuel ver n elems;
  t ← copy_merge (branch 2 order) fuel t_old t_det;
  augment_parallel (branch 3 order) fuel t;;
  mret t.

Definition deleted_one (fuel : nat) (t_old : ptr) (ver elem : Z) : M node_t ptr :=
  t_det ← make_node hash ver elem;
  t ← copy_subtract (branch 2 order) fuel t_old t_det;
  augment_parallel (branch 3 order) fuel t;;
  mret t.

Definition deleted (fuel : nat) (t_old : ptr) (ver : Z) (n : nat) (elems : list Z) : M node_t ptr :=
  t_det ← build_versioned hash (branch 1 order) fuel ver n elems;
  t ← copy_subtract (branch 2 order) fuel t_old t_det;
  augment_parallel (branch 3 order) fuel t;;
  mret t.

Definition find (fuel : nat) (t : ptr) (v k : Z) : M node_t Z := PamQuery.find fuel t v k.

Definition range_estimate (fuel : nat) (t : ptr) (v l r : Z) : M node_t Z :=
  range_estimate_open fuel t v l r.
End interface.
End interface.

(** ** Snapshots *)

(** [p] is a snapshot of the heap [h], whose persistent part is [g]; its last
    version is at most [v]. *)
Record snapshot (hash : Z -> Z) (g h : heap) (p : ptr) (t : tree) (v : Z) : Prop := {
  sn_heap : g ⊆ h;
  sn_complete : persistent hash g;
  sn_rep : rep g p t;
  sn_wf : wf hash t;
  sn_last : t_vstat t <= v;
}.

(** The newest value of a key. *)
Definition newest (t : tree) (k : Z) : Z := from_option cur 0 (lookup_vals t k).

Lemma t_vstat_lookup t k vs : lookup_vals t k = Some vs -> last_ver vs <= t_vstat t.
Proof.
  induction t as [|ws p j l IHl r IHr]; simpl; [done|]. intros H.
  destruct (k =? j); [simplify_eq; lia|].
  destruct (k <? j); [specialize (IHl H)|specialize (IHr H)]; lia.
Qed.

Lemma t_vstat_le hash t m :
  wf hash t -> 0 <= m -> (forall k vs, lookup_vals t k = Some vs -> last_ver vs <= m) -> t_vstat t <= m.
Proof.
  intros W Hm. induction t as [|ws p j l IHl r IHr]; simpl in *; intros H; [done|].
  destruct W as (_ & _ & _ & Bl & Br & Wl & Wr).
  assert (last_ver ws <= m) by (apply (H j); by rewrite Z.eqb_refl).
  assert (t_vstat l <= m).
  { apply IHl; [done|]. intros k vs E. assert (k < j) by (apply (pam_all_keys_lookup _ _ _ _ Bl E)).
    apply (H k). zcases; try lia. done. }
  assert (t_vstat r <= m).
  { apply IHr; [done|]. intros k vs E. assert (j < k) by (apply (pam_all_keys_lookup _ _ _ _ Br E)).
    apply (H k). zcases; try lia. done. }
  lia.
Qed.

(** Copies answer queries beyond the last version as the original does. *)
Lemma query_weak hash t t' w k :
  wf hash t -> wf hash t' -> t_vstat t <= w ->
  weak (lookup_vals t k) (lookup_vals t' k) -> query t' w k = newest t k.
Proof.
  intros W W' Hw Hk. unfold query, newest.
  destruct (lookup_vals t k) as [vs|] eqn:E, (lookup_vals t' k) as [ws|] eqn:E'.
  - simpl. pose proof (weak_cur _ _ Hk) as <-. apply value_at_last.
    + by eapply wf_lookup in E' as [? _].
    + pose proof (t_vstat_lookup _ _ _ E).
      destruct Hk as [Hk|Hk]; injection Hk as ->; [lia|].
      unfold last_ver, last_only in *. destruct (last vs); simpl in *; lia.
  - apply weak_none in Hk. naive_solver.
  - apply weak_none in Hk. naive_solver.
  - done.
Qed.

Lemma newest_query hash t w k : wf hash t -> t_vstat t <= w -> newest t k = query t w k.
Proof. intros W Hw. symmetry. eapply query_weak; [exact W|exact W|done|by left]. Qed.

Lemma newest_u64 hash t k : wf hash t -> u64 (newest t k).
Proof.
  intros W. unfold newest. destruct (lookup_vals t k) as [vs|] eqn:E; simpl; [|by split].
  apply (wf_lookup _ _ _ _ W) in E as [(Hne & _ & Hv) _]. unfold cur.
  destruct (last_nonempty vs Hne) as [x Hx]. rewrite Hx. simpl.
  apply last_Some_elem_of in Hx. by eapply Forall_forall in Hv as [? _].
Qed.

(** ** The values of a batch *)

Lemma shift_hist b v k es : u64 b -> shift_values b (hist v 0 k es) = hist v b k es.
Proof.
  intros Hb. rewrite <- (Z.add_0_r b) at 2. rewrite hist_rebase, wrap64_small by done.
  unfold shift_values, rebase. apply list_fmap_ext. intros i x _. by rewrite Z.add_comm.
Qed.

Lemma find_value_loop_hist w c v k es x :
  u64 c -> val x = c -> find_value_loop w x (hist v c k es) =
    wrap64 (c + count k (take (Z.to_nat (w - v + 1)) es)).
Proof.
  revert c v x. induction es as [|e es IH]; intros c v x Hc Hx; simpl.
  { rewrite take_nil. simpl. by rewrite Z.add_0_r, wrap64_small. }
  destruct (Z.eqb_spec e k) as [->|Hne].
  - simpl. destruct (Z.ltb_spec w v).
    + replace (Z.to_nat (w - v + 1)) with 0%nat by lia. simpl. by rewrite Z.add_0_r, wrap64_small.
    + replace (Z.to_nat (w - v + 1)) with (S (Z.to_nat (w - (v + 1) + 1))) by lia. simpl.
      rewrite Z.eqb_refl. pose proof (hist_rebase (v + 1) (c + 1) 0 k es) as E1.
      pose proof (hist_rebase (v + 1) (wrap64 (c + 1)) 0 k es) as E2.
      rewrite !Z.add_0_r in *. rewrite wrap64_idemp in E2. rewrite E1, <- E2.
      rewrite IH; [|auto with u64|done]. by rewrite wrap64_add_l, Z.add_assoc.
  - rewrite IH by done. destruct (Z.ltb_spec w v).
    + replace (Z.to_nat (w - (v + 1) + 1)) with 0%nat by lia.
      destruct (Z.to_nat (w - v + 1)) as [|n] eqn:E; [done|]. assert (n = 0%nat) as -> by lia.
      simpl. destruct (Z.eqb_spec e k); [done|]. f_equal.
    + replace (Z.to_nat (w - v + 1)) with (S (Z.to_nat (w - (v + 1) + 1))) by lia. simpl.
      destruct (Z.eqb_spec e k); [done|]. f_equal.
Qed.

(** The occurrences of [k] among the first elements of a batch, up to version [w]. *)
Definition upto (w v : Z) (k : Z) (es : list Z) : Z := count k (take (Z.to_nat (w - v + 1)) es).

Lemma value_at_hist w c v k es :
  u64 c -> value_at w (hist v c k es) =
    if upto w v k es =? 0 then 0 else wrap64 (c + upto w v k es).
Proof.
  unfold upto. revert v. induction es as [|e es IH]; intros v Hc; simpl; [by rewrite take_nil|].
  destruct (Z.eqb_spec e k) as [->|Hne].
  - simpl. destruct (Z.ltb_spec w v).
    + replace (Z.to_nat (w - v + 1)) with 0%nat by lia. done.
    + replace (Z.to_nat (w - v + 1)) with (S (Z.to_nat (w - (v + 1) + 1))) by lia. simpl.
      rewrite Z.eqb_refl. pose proof (hist_rebase (v + 1) (c + 1) 0 k es) as E1.
      pose proof (hist_rebase (v + 1) (wrap64 (c + 1)) 0 k es) as E2.
      rewrite !Z.add_0_r in *. rewrite wrap64_idemp in E2. rewrite E1, <- E2.
      rewrite find_value_loop_hist; [|auto with u64|done].
      pose proof (count_nonneg k (take (Z.to_nat (w - (v + 1) + 1)) es)).
      destruct (Z.eqb_spec (1 + count k (take (Z.to_nat (w - (v + 1) + 1)) es)) 0); [lia|].
      by rewrite wrap64_add_l, Z.add_assoc.
  - rewrite IH by done. destruct (Z.ltb_spec w v).
    + replace (Z.to_nat (w - (v + 1) + 1)) with 0%nat by lia.
      destruct (Z.to_nat (w - v + 1)) as [|n] eqn:E; [done|]. assert (n = 0%nat) as -> by lia.
      simpl. destruct (Z.eqb_spec e k); [done|]. done.
    + replace (Z.to_nat (w - v + 1)) with (S (Z.to_nat (w - (v + 1) + 1))) by lia. simpl.
      destruct (Z.eqb_spec e k); [done|]. done.
Qed.

(** ** Publishing a new tree *)

Section operations.
Context {hash : Z -> Z} `{HPH : !TreapTree.PerfectHash hash}.

Lemma persistent_complete g : persistent hash g -> complete g.
Proof. intros Hp a n Ha. by destruct (Hp a n Ha). Qed.

Lemma snapshot_weaken g g' h h' p t v :
  g ⊆ g' -> g' ⊆ h' -> persistent hash g' -> snapshot hash g h p t v -> snapshot hash g' h' p t v.
Proof. intros Hg Hh Hp [_ _ R W L]. split; try done. by eapply pam_rep_weaken. Qed.

(** What an operation promises: the result is a snapshot that satisfies [Q], and
    every snapshot there was is still one, with the same tree. *)
Definition publishes (g h : heap) (m : M node_t ptr) (v : Z) (Q : tree -> Prop) : Prop :=
  wp m (fun q h' => exists g' t', snapshot hash g' h' q t' v /\ Q t' /\
          forall q0 t0 v0, snapshot hash g h q0 t0 v0 -> snapshot hash g' h' q0 t0 v0) h.

Lemma publishes_mono g h m v (Q Q' : tree -> Prop) :
  publishes g h m v Q -> (forall t, Q t -> Q' t) -> publishes g h m v Q'.
Proof.
  intros Hm HQ. revert Hm. apply wp_mono. intros q h' (g' & t' & Hs & Ht & K). exists g', t'. split_and!; auto.
Qed.

Lemma publish_spec order fuel g h0 h D m v (Q : tree -> Prop) :
  persistent hash g -> g ⊆ h0 -> g ⊆ h -> acts h0 ∅ h D ->
  pmakes g true D m (fun t => wf hash t /\ (size t < fuel)%nat /\ t_vstat t <= v /\ Q t) h ->
  wp (t ← m; augment_parallel order fuel t;; mret t)
     (fun q h' => exists g' t', snapshot hash g' h' q t' v /\ Q t' /\
        forall q0 t0 v0, snapshot hash g h0 q0 t0 v0 -> snapshot hash g' h' q0 t0 v0) h.
Proof.
  intros Hp Hg0 Hg A0 Hm. wp_step. eapply wp_mono; [|exact Hm].
  intros q h1 (t & D1 & A1 & O & W & S & V & HQ).
  assert (acts h0 ∅ h1 D1) as A by by eapply acts_trans.
  assert (g ⊆ h1) as Hg1 by (etrans; [exact Hg0|by eapply acts_subseteq]).
  wp_step. eapply wp_mono; [|by apply (pam_augment_parallel_spec hash order fuel g h1 q t D1)].
  intros s h2 (_ & g' & (C1 & C2 & C3 & _ & C5 & _) & R). wp_step.
  exists g', t. split_and!; try done.
  intros q0 t0 v0 Hs. by eapply snapshot_weaken.
Qed.

Lemma made_build order fuel g h n es :
  g ⊆ h -> (n < fuel)%nat -> (n <= length es)%nat -> Forall u64 es -> persistent hash g ->
  publishes g h (interface.build hash order fuel n es) 0
    (fun t => (size t <= n)%nat /\ forall k w, 0 <= w -> query t w k = wrap64 (count k (take n es))).
Proof.
  intros Hg Hf Hn Hu Hp. unfold publishes, interface.build.
  eapply (publish_spec _ fuel g h h ∅); [done|done|done|apply acts_refl|].
  eapply wp_mono; [|by apply (pam_build_spec (hash := hash) g _ fuel h n es)].
  intros q h1 (t & D & A & O & W & S & L). exists t, D. split_and!; [done|by apply powns_mix|done| | | |].
  - rewrite length_take in S. lia.
  - eapply t_vstat_le; [done|done|]. intros k vs. rewrite L. unfold total.
    destruct (Z.eqb_spec (count k (take n es)) 0); intros E; simplify_eq/=. done.
  - rewrite length_take in S; lia.
  - intros k w Hw. unfold query. rewrite L. unfold total.
    destruct (Z.eqb_spec (count k (take n es)) 0) as [E|]; simpl; [by rewrite E|].
    destruct (Z.ltb_spec w 0); [lia|done].
Qed.

(** The batch of an update: the history of its keys. *)
Definition batch_of (v : Z) (es : list Z) (t : tree) : Prop := built (hash := hash) (fun k => hist v 0 k es) es t.

Lemma batch_one g h v e :
  g ⊆ h -> u64 e -> 0 <= v < vstat_uninitialized ->
  pmakes g false ∅ (make_node hash v e) (batch_of v [e]) h.
Proof. intros Hg Hu Hv. by apply pam_makes_node. Qed.

Lemma batch_many g order fuel h v n es :
  (n < fuel)%nat -> (n <= length es)%nat -> Forall u64 es -> g ⊆ h ->
  0 <= v -> v + Z.of_nat n <= vstat_uninitialized ->
  pmakes g false ∅ (build_versioned hash order fuel v n es) (batch_of v (take n es)) h.
Proof. intros. by apply build_versioned_spec. Qed.

(** What [k] holds at version [w] once the batch [es] was inserted at [v]. *)
Definition after_insert (t : tree) (v : Z) (es : list Z) (k w : Z) : Z :=
  if count k es =? 0 then newest t k
  else if upto w v k es =? 0 then 0
  else wrap64 (newest t k + upto w v k es).

Definition after_delete (t : tree) (es : list Z) (k : Z) : Z :=
  if count k es =? 0 then newest t k else 0.

Lemma nonempty_hist v k es :
  nonempty (hist v 0 k es) = if count k es =? 0 then None else Some (hist v 0 k es).
Proof.
  destruct (Z.eqb_spec (count k es) 0) as [E|Hne].
  - apply (hist_nil v 0) in E. by rewrite E.
  - destruct (hist v 0 k es) eqn:E; [|done]. by apply hist_nil in E.
Qed.

Lemma hist_last_ver v c k es :
  hist v c k es <> [] -> last_ver (hist v c k es) <= v + Z.of_nat (length es) - 1.
Proof.
  intros Hne. destruct (last_nonempty _ Hne) as [x Hx]. unfold last_ver. rewrite Hx. simpl.
  apply last_Some_elem_of, hist_versions in Hx. lia.
Qed.

Lemma shift_last_ver b vs : last_ver (shift_values b vs) = last_ver vs.
Proof. unfold last_ver, shift_values. rewrite fmap_last. by destruct (last vs). Qed.

Lemma weak_last_ver vs ws : weak (Some vs) (Some ws) -> last_ver ws = last_ver vs.
Proof.
  intros [E|E]; injection E as ->; [done|]. unfold last_ver, last_only. by destruct (last vs).
Qed.

Lemma inserted_values t0 v es t1 t v0 :
  wf hash t0 -> t_vstat t0 <= v0 < v -> batch_of v es t1 ->
  combines (hash := hash) ins_rel t0 t1 t ->
  t_vstat t <= Z.max v0 (v + Z.of_nat (length es) - 1) /\
  forall k w, v <= w -> query t w k = after_insert t0 v es k w.
Proof.
  intros W0 Hv (W1 & S1 & L1) C. pose proof (t_vstat_bound _ _ W0) as Hb.
  assert (W := cb_wf _ _ _ _ C). split.
  - apply (t_vstat_le hash); [done|lia|]. intros k vs E. pose proof (cb_lookup _ _ _ _ C k) as H.
    rewrite L1, nonempty_hist, E in H. destruct (Z.eqb_spec (count k es) 0); simpl in H.
    + destruct (lookup_vals t0 k) as [ws|] eqn:E0; [|by apply weak_none in H; naive_solver].
      apply weak_last_ver in H. pose proof (t_vstat_lookup _ _ _ E0). lia.
    + assert (hist v 0 k es <> []) as Hne by (intros H0; by apply hist_nil in H0).
      pose proof (hist_last_ver v 0 k es Hne).
      destruct (lookup_vals t0 k); injection H as ->; [rewrite shift_last_ver|]; lia.
  - intros k w Hw. pose proof (cb_lookup _ _ _ _ C k) as H. unfold after_insert.
    rewrite L1, nonempty_hist in H. destruct (Z.eqb_spec (count k es) 0); simpl in H.
    + eapply (query_weak hash t0 t); [done|done|lia|done].
    + pose proof (newest_u64 hash t0 k W0) as Hu. unfold query, newest in *.
      destruct (lookup_vals t0 k) as [ws|]; rewrite H; simpl.
      * rewrite shift_hist by done. by apply value_at_hist.
      * by apply value_at_hist.
Qed.

Lemma deleted_values t0 v es t1 t v0 :
  wf hash t0 -> t_vstat t0 <= v0 -> batch_of v es t1 ->
  combines (hash := hash) del_rel t0 t1 t ->
  t_vstat t <= v0 /\ forall k w, v0 <= w -> query t w k = after_delete t0 es k.
Proof.
  intros W0 Hv (W1 & S1 & L1) C. pose proof (t_vstat_bound _ _ W0) as Hb.
  assert (W := cb_wf _ _ _ _ C). split.
  - apply (t_vstat_le hash); [done|lia|]. intros k vs E. pose proof (cb_lookup _ _ _ _ C k) as H.
    rewrite L1, nonempty_hist, E in H. destruct (Z.eqb_spec (count k es) 0); simpl in H; [|done].
    destruct (lookup_vals t0 k) as [ws|] eqn:E0; [|by apply weak_none in H; naive_solver].
    apply weak_last_ver in H. pose proof (t_vstat_lookup _ _ _ E0). lia.
  - intros k w Hw. pose proof (cb_lookup _ _ _ _ C k) as H. unfold after_delete.
    rewrite L1, nonempty_hist in H. destruct (Z.eqb_spec (count k es) 0); simpl in H.
    + eapply (query_weak hash t0 t); [done|done|lia|done].
    + unfold query. by rewrite H.
Qed.

(** An update: a batch is made, and merged into (or subtracted from) the old tree. *)
Lemma inserted_spec o1 o2 fuel g h p t v0 v es (m : M node_t ptr) :
  snapshot hash g h p t v0 -> v0 < v -> (size t + length es < fuel)%nat ->
  pmakes g false ∅ m (batch_of v es) h ->
  publishes g h (t_ins ← m; t ← copy_merge o1 fuel p t_ins; augment_parallel o2 fuel t;; mret t)
    (Z.max v0 (v + Z.of_nat (length es) - 1))
    (fun t' => (size t' <= size t + length es)%nat /\ forall k w, v <= w -> query t' w k = after_insert t v es k w).
Proof.
  intros [Hg Hp R W V] Hv Hf Hm. unfold publishes. wp_step. eapply wp_mono; [|exact Hm].
  intros q h1 (t1 & D1 & A & O & B). assert (B' := B). destruct B' as (W1 & S1 & _).
  assert (g ⊆ h1) as Hg1 by (etrans; [exact Hg|by eapply acts_subseteq]).
  apply (publish_spec _ fuel g h h1 D1); [done|done|done|done|].
  eapply (makes_equiv (OwnedTree0 := pam_owned g true) (∅ ∪ D1)); [set_solver|].
  eapply wp_mono; [|apply (copy_merge_spec g fuel o1 h1 p q t t1 ∅ D1 Hg1); try done].
  - intros c h2 (t' & D' & A2 & O2 & C). exists t', D'. split_and!; [done|done|apply C| | | |].
    + pose proof (cb_size _ _ _ _ C). lia.
    + by eapply (inserted_values t v es t1 t' v0).
    + pose proof (cb_size _ _ _ _ C); lia.
    + by eapply (inserted_values t v es t1 t' v0).
  - apply powns_shared; [apply allocated_empty|exact R].
  - lia.
Qed.

Lemma deleted_spec o1 o2 fuel g h p t v0 v es (m : M node_t ptr) :
  snapshot hash g h p t v0 -> (size t + length es < fuel)%nat ->
  pmakes g false ∅ m (batch_of v es) h ->
  publishes g h (t_det ← m; t ← copy_subtract o1 fuel p t_det; augment_parallel o2 fuel t;; mret t)
    v0 (fun t' => (size t' <= size t + length es)%nat /\ forall k w, v0 <= w -> query t' w k = after_delete t es k).
Proof.
  intros [Hg Hp R W V] Hf Hm. unfold publishes. wp_step. eapply wp_mono; [|exact Hm].
  intros q h1 (t1 & D1 & A & O & B). assert (B' := B). destruct B' as (W1 & S1 & _).
  assert (g ⊆ h1) as Hg1 by (etrans; [exact Hg|by eapply acts_subseteq]).
  apply (publish_spec _ fuel g h h1 D1); [done|done|done|done|].
  eapply wp_mono; [|apply (copy_subtract_spec g fuel (persistent_complete g Hp) o1 h1 p q t t1 D1 Hg1);
    try done; lia].
  intros c h2 (t' & D' & A2 & O2 & C). exists t', D'. split_and!; [done|done|apply C| | | |].
  - pose proof (cb_size _ _ _ _ C). lia.
  - by eapply (deleted_values t v es t1 t' v0).
  - pose proof (cb_size _ _ _ _ C); lia.
  - by eapply (deleted_values t v es t1 t' v0).
Qed.
End operations.

(** ** Queries of a snapshot *)

(** The keys of a tree, in order. *)
Fixpoint keys (t : tree) : list Z :=
  match t with Leaf => [] | Node _ _ k l r => keys l ++ [k] ++ keys r end.

Definition sum_Z : list Z -> Z := foldr Z.add 0.

Lemma sum_Z_app xs ys : sum_Z (xs ++ ys) = sum_Z xs + sum_Z ys.
Proof. unfold sum_Z. induction xs as [|x xs IH]; simpl; [done|]. rewrite IH. lia. Qed.

Lemma keys_all P t : all_keys P t <-> Forall P (keys t).
Proof.
  induction t as [|vs p k l IHl r IHr]; simpl; [done|].
  rewrite Forall_app, Forall_cons, IHl, IHr. tauto.
Qed.

Lemma keys_sorted hash t : wf hash t -> StronglySorted Z.lt (keys t).
Proof.
  induction t as [|vs p k l IHl r IHr]; simpl; [constructor|].
  intros (_ & _ & _ & Bl & Br & Wl & Wr). apply keys_all in Bl, Br.
  apply StronglySorted_app_2; [|by apply IHl|].
  - intros x y Hx [->|Hy]%elem_of_cons.
    + eapply Forall_forall in Bl; [|exact Hx]. simpl in Bl. lia.
    + eapply Forall_forall in Bl; [|exact Hx]. eapply Forall_forall in Br; [|exact Hy]. simpl in *. lia.
  - constructor; [by apply IHr|]. eapply Forall_impl; [exact Br|]. simpl. lia.
Qed.

Lemma keys_lookup hash t k : wf hash t -> k ∈ keys t <-> is_Some (lookup_vals t k).
Proof.
  induction t as [|vs p j l IHl r IHr]; simpl.
  - intros _. split; [by intros ?%elem_of_nil|by intros []].
  - intros (_ & _ & _ & Bl & Br & Wl & Wr). specialize (IHl Wl). specialize (IHr Wr).
    apply keys_all in Bl, Br. rewrite Forall_forall in Bl, Br.
    rewrite elem_of_app, elem_of_cons. specialize (Bl k). specialize (Br k).
    destruct (Z.eqb_spec k j); [naive_solver|]. destruct (Z.ltb_spec k j).
    + rewrite <- IHl. split; [|tauto]. intros [Hin|[Hin|Hin]]; [done|done|]. apply Br in Hin. lia.
    + rewrite <- IHr. split; [|tauto]. intros [Hin|[Hin|Hin]]; [apply Bl in Hin; lia|done|done].
Qed.

(** The sum of the counters of the keys in a range, at a version. *)
Definition range_sum (t : tree) (w lo hi : Z) : Z :=
  sum_Z (query t w <$> filter (fun k => lo <= k <= hi) (keys t)).

Lemma t_range_at_ext w lo hi t (q : Z -> Z) :
  (forall k vs, lookup_vals t k = Some vs -> q k = value_at w vs) -> (exists hash, wf hash t) ->
  t_range_at w lo hi t = sum_Z (q <$> filter (fun k => lo <= k <= hi) (keys t)).
Proof.
  intros Hq [hash W]. induction t as [|vs p k l IHl r IHr]; simpl; [done|].
  destruct W as (_ & _ & _ & Bl & Br & Wl & Wr).
  rewrite filter_app, filter_cons, fmap_app, sum_Z_app.
  rewrite IHl, IHr; try done.
  - rewrite <- (Hq k vs) by (simpl; by rewrite Z.eqb_refl).
    unfold in_range. destruct (decide (lo <= k <= hi)); rewrite ?fmap_cons; zcases;
      cbn [sum_Z foldr andb]; unfold sum_Z; simpl foldr; lia.
  - intros j ws E. apply Hq. simpl.
    assert (k < j) by (apply (pam_all_keys_lookup _ _ _ _ Br E)). zcases; try lia. done.
  - intros j ws E. apply Hq. simpl.
    assert (j < k) by (apply (pam_all_keys_lookup _ _ _ _ Bl E)). zcases; try lia. done.
Qed.

(** ** An example *)

Definition pam_node_ex : node_t := mk_node 0 5 5 [mk_valver 3 0] 3 None None.
Definition pam_heap_ex : heap := {[1%positive := pam_node_ex]}.
Definition pam_tree_ex : tree := Node [mk_valver 3 0] 5 5 Leaf Leaf.

Lemma pam_snapshot_ex : snapshot wrap64 pam_heap_ex pam_heap_ex (Some 1%positive) pam_tree_ex 0.
Proof.
  assert (wf wrap64 pam_tree_ex) as W.
  { simpl. split_and!; try done. split_and!; [done|repeat constructor|].
    constructor; [|constructor]. by simpl. }
  assert (auged pam_heap_ex (Some 1%positive) pam_tree_ex) as A.
  { exists 1%positive, pam_node_ex. by split_and!. }
  split; [done| |by apply pam_auged_rep|done|done].
  unfold pam_heap_ex at 1. intros a n [<- <-]%lookup_singleton_Some. split; [done|]. by exists pam_tree_ex.
Qed.

(** ** Properties *)

(** C13: [inserted] of a batch [elems] whose first element has version [ver], on
    any snapshot of older versions and under every order in which the forked
    tasks run, terminates without error and returns a snapshot that answers, for
    every key and every version from [ver] on: the old counter for a key outside
    the batch; the old counter plus the occurrences of the key up to that version
    for a key of the batch, once it has occurred (and 0 before its first
    occurrence).  All snapshots that existed before keep their trees. *)
Theorem inserted_correct hash `{!PerfectHash hash} order fuel g h p t v0 ver n elems :
  snapshot hash g h p t v0 -> v0 < ver -> ver + Z.of_nat n <= vstat_uninitialized ->
  (n <= length elems)%nat -> Forall u64 elems -> (size t + n < fuel)%nat ->
  publishes (hash := hash) g h (interface.inserted hash order fuel p ver n elems)
    (Z.max v0 (ver + Z.of_nat n - 1))
    (fun t' => forall k w, ver <= w -> query t' w k = after_insert t ver (take n elems) k w).
Proof.
  intros Hs Hv Hm Hn Hu Hf. assert (length (take n elems) = n) as Hl by (rewrite length_take; lia).
  assert (0 <= v0). { destruct Hs as [_ _ _ W V]. pose proof (t_vstat_bound _ _ W). lia. }
  rewrite <- Hl at 2. eapply publishes_mono.
  - apply (inserted_spec _ _ fuel g h p t v0 ver (take n elems)); [done|done|lia|].
    apply batch_many; try done; try lia. apply Hs.
  - by intros t' [_ HQ].
Qed.

Theorem inserted_correct_witness :
  publishes (hash := wrap64) pam_heap_ex pam_heap_ex
    (interface.inserted wrap64 alternating 9 (Some 1%positive) 1 3 [7; 5; 7])
    (Z.max 0 (1 + Z.of_nat 3 - 1))
    (fun t' => forall k w, 1 <= w -> query t' w k = after_insert pam_tree_ex 1 (take 3 [7; 5; 7]) k w).
Proof.
  apply (inserted_correct wrap64 alternating 9 pam_heap_ex pam_heap_ex (Some 1%positive) pam_tree_ex 0).
  - exact pam_snapshot_ex.
  - lia.
  - vm_compute. discriminate.
  - simpl. lia.
  - repeat constructor; done.
  - simpl. lia.
Defined.

(** [inserted] of one element makes a snapshot in which, from its version
    on, the counter of the element is one higher (modulo [2^64]) and every other
    counter is unchanged. *)
Theorem inserted_one_correct hash `{!PerfectHash hash} order fuel g h p t v0 ver elem :
  snapshot hash g h p t v0 -> v0 < ver < vstat_uninitialized -> u64 elem -> (S (size t) < fuel)%nat ->
  publishes (hash := hash) g h (interface.inserted_one hash order fuel p ver elem) (Z.max v0 ver)
    (fun t' => forall k w, ver <= w ->
       query t' w k = if elem =? k then wrap64 (newest t k + 1) else newest t k).
Proof.
  intros Hs Hv Hu Hf.
  assert (0 <= v0). { destruct Hs as [_ _ _ W V]. pose proof (t_vstat_bound _ _ W). lia. }
  unfold publishes. eapply wp_mono;
    [|apply (inserted_spec _ _ fuel g h p t v0 ver [elem]); [done|lia|simpl; lia|];
      apply batch_one; [apply Hs|done|lia]].
  intros q h' (g' & t' & Hs' & (_ & Q) & K). exists g', t'. split_and!; [|intros k w Hw|done].
  - destruct Hs' as [S1 S2 S3 S4 S5]. split; try done. simpl in S5. lia.
  - rewrite Q by done. unfold after_insert, upto.
    replace (Z.to_nat (w - ver + 1)) with (S (Z.to_nat (w - ver))) by lia. simpl.
    rewrite take_nil. simpl. by destruct (elem =? k).
Qed.

Theorem inserted_one_correct_witness :
  publishes (hash := wrap64) pam_heap_ex pam_heap_ex
    (interface.inserted_one wrap64 alternating 9 (Some 1%positive) 4 5) (Z.max 0 4)
    (fun t' => forall k w, 4 <= w ->
       query t' w k = if 5 =? k then wrap64 (newest pam_tree_ex k + 1) else newest pam_tree_ex k).
Proof.
  apply (inserted_one_correct wrap64 alternating 9 pam_heap_ex pam_heap_ex (Some 1%positive) pam_tree_ex 0).
  - exact pam_snapshot_ex.
  - split; [lia|reflexivity].
  - done.
  - simpl. lia.
Defined.

(** C14: [deleted] of a batch, on any snapshot and under every order of the
    forked tasks, terminates without error and returns a snapshot in which the
    keys of the batch have counter 0 and every other key its newest counter; and
    older snapshots keep their trees. *)
Theorem deleted_correct hash `{!PerfectHash hash} order fuel g h p t v0 ver n elems :
  snapshot hash g h p t v0 -> 0 <= ver -> ver + Z.of_nat n <= vstat_uninitialized ->
  (n <= length elems)%nat -> Forall u64 elems -> (size t + n < fuel)%nat ->
  publishes (hash := hash) g h (interface.deleted hash order fuel p ver n elems) v0
    (fun t' => forall k w, v0 <= w -> query t' w k = after_delete t (take n elems) k).
Proof.
  intros Hs Hv Hm Hn Hu Hf. assert (length (take n elems) = n) as Hl by (rewrite length_take; lia).
  eapply publishes_mono.
  - apply (deleted_spec _ _ fuel g h p t v0 ver (take n elems)); [done|lia|].
    apply batch_many; try done; try lia. apply Hs.
  - by intros t' [_ HQ].
Qed.

Theorem deleted_correct_witness :
  publishes (hash := wrap64) pam_heap_ex pam_heap_ex
    (interface.deleted wrap64 alternating 9 (Some 1%positive) 1 3 [7; 5; 7]) 0
    (fun t' => forall k w, 0 <= w -> query t' w k = after_delete pam_tree_ex (take 3 [7; 5; 7]) k).
Proof.
  apply (deleted_correct wrap64 alternating 9 pam_heap_ex pam_heap_ex (Some 1%positive) pam_tree_ex 0).
  - exact pam_snapshot_ex.
  - lia.
  - vm_compute. discriminate.
  - simpl. lia.
  - repeat constructor; done.
  - simpl. lia.
Defined.

(** [build] makes a snapshot in which the counter of every key, at every
    version, is its number of occurrences modulo [2^64]. *)
Theorem build_correct hash `{!PerfectHash hash} order fuel g h n elems :
  g ⊆ h -> persistent hash g -> (n < fuel)%nat -> (n <= length elems)%nat -> Forall u64 elems ->
  publishes (hash := hash) g h (interface.build hash order fuel n elems) 0
    (fun t => forall k w, 0 <= w -> query t w k = wrap64 (count k (take n elems))).
Proof. intros Hg Hp Hf Hn Hu. eapply publishes_mono; [by apply made_build|by intros t [_ HQ]]. Qed.

Theorem build_correct_witness :
  publishes (hash := wrap64) pam_heap_ex pam_heap_ex
    (interface.build wrap64 alternating 9 4 [7; 5; 7; 2]) 0
    (fun t => forall k w, 0 <= w -> query t w k = wrap64 (count k (take 4 [7; 5; 7; 2]))).
Proof.
  apply (build_correct wrap64 alternating 9 pam_heap_ex pam_heap_ex 4 [7; 5; 7; 2]).
  - done.
  - apply pam_snapshot_ex.
  - lia.
  - simpl. lia.
  - repeat constructor; done.
Defined.



(** ** What the model shows *)

(** The value a heap program returns. *)
Definition outcome {A} (r : res (A * heap)) : option A :=
  match r with Ok (a, _) => Some a | Err _ => None end.

(** A key that is inserted by a batch loses its history: in the snapshot made
    by the batch [7, 5] at version 1, key 5 (whose counter is 3 at version 0, and
    still 3 at version 1, where only 7 was inserted) has value 0 at version 1 and
    4 at version 2. *)
Theorem inserted_forgets_history :
  outcome ((q ← interface.inserted wrap64 alternating 9 (Some 1%positive) 1 2 [7; 5];
   x0 ← interface.find 9 (Some 1%positive) 1 5;
   x1 ← interface.find 9 q 1 5;
   x2 ← interface.find 9 q 2 5;
   mret (x0, x1, x2)) pam_heap_ex) = Some (3, 0, 4).
Proof. vm_compute. reflexivity. Qed.
