(* ===== verification/QueryProcessor.v ===== *)
(** * The query processor of the databases

    [src/db/include/query_processor.hpp]: the client pushes queries into a
    concurrent queue, [num_threads_] threads take them out and append the answers
    to their own result lists, until [Stop] clears the [working_] flag.  The
    threads and the client interleave arbitrarily: the model is a step relation.
    The queue is [moodycamel::ConcurrentQueue] with one producer token, that is,
    first-in first-out.  [do_process_] is virtual: what a database does there to find an
    answer may wait for threads outside of the processor (and that of [Contreap] spins in
    [get_snapshot] until the version is there), so a call may take many steps, or never
    return. *)

From S2P Require Import Prelude.
From stdpp Require Import sorting relations.

#[local] Open Scope Z_scope.

(** ** Data *)

Record query_context := mk_query { q_ver : Z; q_idx : Z; q_l : Z; q_r : Z }.

(** The field [ver] of a result holds the index of its query. *)
Record result_context := mk_result { r_ver : Z; r_ret : Z }.

(** Where a thread is in [process_]: before the outer test, before the inner
    test, in [do_process_] with a query it has taken, or returned. *)
Inductive thread :=
  | Outer
  | Inner
  | Busy (q : query_context)
  | Returned.

#[global] Instance query_context_eq_dec : EqDecision query_context.
Proof. solve_decision. Defined.
#[global] Instance thread_eq_dec : EqDecision thread.
Proof. solve_decision. Defined.

Record processor := mk_processor {
  num_threads_ : nat;
  threads_ : list thread;
  num_queries_ : Z;
  queries_ : list query_context;
  results_ : list (list result_context);
  working_ : bool;
}.

Definition set_thread (i : nat) (t : thread) (s : processor) : processor :=
  mk_processor (num_threads_ s) (<[i := t]> (threads_ s)) (num_queries_ s) (queries_ s)
    (results_ s) (working_ s).
Definition set_queries (qs : list query_context) (s : processor) : processor :=
  mk_processor (num_threads_ s) (threads_ s) (num_queries_ s) qs (results_ s) (working_ s).
Definition set_working (b : bool) (s : processor) : processor :=
  mk_processor (num_threads_ s) (threads_ s) (num_queries_ s) (queries_ s) (results_ s) b.

(** ** Operations of the client *)

Definition new_processor (num_threads : nat) : processor :=
  mk_processor num_threads [] 0 [] (replicate num_threads []) false.

Definition Start (s : processor) : processor :=
  mk_processor (num_threads_ s) (replicate (num_threads_ s) Outer) (num_queries_ s) (queries_ s)
    (results_ s) true.

(** [Push]: [room] says whether the queue could allocate space for the element. *)
Definition Push (room : bool) (ver l r : Z) (s : processor) : Z * processor :=
  let n := wrap64 (num_queries_ s + 1) in
  let s := mk_processor (num_threads_ s) (threads_ s) n (queries_ s) (results_ s) (working_ s) in
  if room then (0, set_queries (queries_ s ++ [mk_query ver n l r]) s) else (-1, s).

(** [Stop] clears the flag, and then waits for every thread to return. *)
Definition Stop_signal (s : processor) : processor := set_working false s.

Definition Stop_joined (s : processor) : bool := forallb (fun t => bool_decide (t = Returned)) (threads_ s).

(** ** One step of a thread *)

(** [env] is the state of the rest of the program, which proceeds by its own steps.  The
    answer to a query is a function of its version and bounds, but [do_process_] returns
    it only in a state in which it is [available]; in any other state the call goes on. *)
Section process.
Context (do_process_ : Z -> Z -> Z -> Z).
Context {env : Type} (env_step : env -> env -> Prop) (available : env -> query_context -> bool).

Definition process_ (e : env) (i : nat) (s : processor) : option processor :=
  t ← threads_ s !! i;
  match t with
  | Outer => Some (set_thread i (if working_ s then Inner else Returned) s)
  | Inner =>
      match queries_ s with
      | q :: qs => Some (set_thread i (Busy q) (set_queries qs s))
      | [] => Some (set_thread i Outer s)
      end
  | Busy q =>
      if negb (available e q) then Some s
      else
      rs ← results_ s !! i;
      Some (mk_processor (num_threads_ s) (<[i := Inner]> (threads_ s)) (num_queries_ s) (queries_ s)
              (<[i := rs ++ [mk_result (q_idx q) (do_process_ (q_ver q) (q_l q) (q_r q))]]> (results_ s))
              (working_ s))
  | Returned => None
  end.

(** The steps of the client, of the threads and of the rest of the program; [pushed] is
    the list of the queries accepted so far. *)
Inductive step : env * processor * list query_context -> env * processor * list query_context -> Prop :=
  | step_push room ver l r e s pushed :
      step (e, s, pushed)
        (e, (Push room ver l r s).2,
         if room then pushed ++ [mk_query ver (wrap64 (num_queries_ s + 1)) l r] else pushed)
  | step_thread i e s s' pushed : process_ e i s = Some s' -> step (e, s, pushed) (e, s', pushed)
  | step_env e e' s pushed : env_step e e' -> step (e, s, pushed) (e', s, pushed)
  | step_stop e s pushed : step (e, s, pushed) (e, Stop_signal s, pushed).

Definition run (n : nat) (e0 e : env) (s : processor) (pushed : list query_context) : Prop :=
  rtc step (e0, Start (new_processor n), []) (e, s, pushed).

(** ** No query is lost, duplicated or answered wrongly *)

Definition answer (q : query_context) : result_context :=
  mk_result (q_idx q) (do_process_ (q_ver q) (q_l q) (q_r q)).

Definition answers (d : list (list query_context)) : list (list result_context) :=
  fmap (M := list) (fmap (M := list) answer) d.

Definition busy (t : thread) : list query_context := match t with Busy q => [q] | _ => [] end.

(** [done_ i] is the list of the queries thread [i] has answered. *)
Definition busy_all (ts : list thread) : list query_context := concat (fmap (M := list) busy ts).

Record accounted (s : processor) (pushed : list query_context) (done_ : list (list query_context)) : Prop := {
  ac_threads : length (threads_ s) = num_threads_ s;
  ac_done : results_ s = answers done_;
  ac_length : length done_ = num_threads_ s;
  ac_all : pushed ≡ₚ queries_ s ++ busy_all (threads_ s) ++ concat done_;
}.

Lemma concat_insert {A} (xss : list (list A)) i xs ys :
  xss !! i = Some xs -> xs ++ concat (<[i := ys]> xss) ≡ₚ ys ++ concat xss.
Proof.
  intros Hi. rewrite <- (take_drop_middle xss i xs Hi) at 2.
  rewrite insert_take_drop by (by eapply lookup_lt_Some).
  rewrite !concat_app. simpl. solve_Permutation.
Qed.

Lemma busy_insert ts i t t' :
  ts !! i = Some t -> busy t ++ busy_all (<[i := t']> ts) ≡ₚ busy t' ++ busy_all ts.
Proof. intros Hi. unfold busy_all. rewrite list_fmap_insert. apply concat_insert. by rewrite list_lookup_fmap, Hi. Qed.

Lemma accounted_start n : accounted (Start (new_processor n)) [] (replicate n []).
Proof.
  split; simpl.
  - apply length_replicate.
  - unfold answers. by rewrite fmap_replicate.
  - apply length_replicate.
  - induction n as [|n IH]; simpl; [done|]. exact IH.
Qed.

Lemma accounted_push room ver l r s pushed d :
  accounted s pushed d ->
  accounted (Push room ver l r s).2
    (if room then pushed ++ [mk_query ver (wrap64 (num_queries_ s + 1)) l r] else pushed) d.
Proof.
  intros [T D L A]. unfold Push. destruct room; simpl; [|by split].
  split; simpl; try done. rewrite A. solve_Permutation.
Qed.

Lemma accounted_thread e i s s' pushed d :
  accounted s pushed d -> process_ e i s = Some s' -> exists d', accounted s' pushed d'.
Proof.
  intros [T D L A]. unfold process_. destruct (threads_ s !! i) as [t|] eqn:Ht; simpl; [|done].
  assert (forall t', length (<[i := t']> (threads_ s)) = num_threads_ s) as Hlen
    by (intros; by rewrite length_insert).
  destruct t as [| |q|].
  - intros [= <-]. exists d. split; simpl; try done.
    pose proof (busy_insert _ _ _ (if working_ s then Inner else Returned) Ht) as P.
    replace (busy (if working_ s then Inner else Returned)) with (@nil query_context) in P
      by (by destruct (working_ s)). simpl in P. by rewrite P.
  - destruct (queries_ s) as [|q qs] eqn:Eq; intros [= <-]; exists d; split; simpl; try done.
    + pose proof (busy_insert _ _ _ Outer Ht) as P. simpl in P. by rewrite P, A, Eq.
    + pose proof (busy_insert _ _ _ (Busy q) Ht) as P. simpl in P. rewrite P, A.
      simpl. solve_Permutation.
  - destruct (available e q); simpl; [|intros [= <-]; by exists d].
    destruct (results_ s !! i) as [rs|] eqn:Hr; simpl; [|done]. intros [= <-].
    rewrite D in Hr. unfold answers in Hr. rewrite list_lookup_fmap in Hr. destruct (d !! i) as [qs|] eqn:Hd; [|done].
    injection Hr as <-. exists (<[i := qs ++ [q]]> d). split; simpl; try done.
    + rewrite D. unfold answers. rewrite list_fmap_insert. by rewrite fmap_app.
    + by rewrite length_insert.
    + pose proof (busy_insert _ _ _ Inner Ht) as P. simpl in P.
      pose proof (concat_insert d i qs (qs ++ [q]) Hd) as P'.
      rewrite A, <- P. apply (Permutation_app_inv_l qs). 
      rewrite (Permutation_app_comm qs (queries_ s ++ _ ++ concat (<[_ := _]> d))).
      rewrite <- !(assoc_L (++)), (Permutation_app_comm (concat (<[_ := _]> d)) qs), P'.
      solve_Permutation.
  - done.
Qed.

Lemma step_accounted x y : step x y -> (exists d, accounted x.1.2 x.2 d) -> exists d, accounted y.1.2 y.2 d.
Proof.
  intros Hs [d A]. destruct Hs as [room ver l r e s pushed|i e s s' pushed H|e e' s pushed|e s pushed]; simpl in *.
  - exists d. by apply accounted_push.
  - by eapply accounted_thread.
  - by exists d.
  - exists d. destruct A. by split.
Qed.

Lemma process_num_threads e i s s' : process_ e i s = Some s' -> num_threads_ s' = num_threads_ s.
Proof.
  intros H. unfold process_ in H. destruct (threads_ s !! i) as [t|]; simpl in H; [|done].
  destruct t as [| |q|]; try done.
  - by injection H as <-.
  - by destruct (queries_ s); injection H as <-.
  - destruct (available e q); simpl in H; [|by injection H as <-].
    destruct (results_ s !! i); simpl in H; [by injection H as <-|done].
Qed.

Lemma step_num_threads x y : step x y -> num_threads_ y.1.2 = num_threads_ x.1.2.
Proof.
  intros [room ver l r e s pushed|i e s s' pushed H|e e' s pushed H|e s pushed]; simpl; [by destruct room| |done|done].
  by eapply process_num_threads.
Qed.

(** Every state that can be reached accounts for the queries, with [n] threads. *)
Lemma run_accounted n e0 e s pushed :
  run n e0 e s pushed -> num_threads_ s = n /\ exists d, accounted s pushed d.
Proof.
  unfold run. intros H. change (num_threads_ (e, s, pushed).1.2 = n /\ exists d, accounted (e, s, pushed).1.2 (e, s, pushed).2 d).
  set (x0 := (e0, Start (new_processor n), @nil query_context)) in H.
  assert (num_threads_ x0.1.2 = n /\ exists d, accounted x0.1.2 x0.2 d) as H0 by (split; [done|eexists; apply accounted_start]).
  set (x1 := (e, s, pushed)) in *. clearbody x0 x1.
  induction H as [x|x y z Hxy Hyz IH]; [done|]. apply IH. destruct H0 as [Hn Hd].
  split; [by rewrite (step_num_threads _ _ Hxy)|by eapply step_accounted].
Qed.

(** ** [Stop] returns *)

Definition weight (t : thread) : nat :=
  match t with Outer => 1 | Inner => 2 | Busy _ => 3 | Returned => 0 end.

Definition measure (s : processor) : nat :=
  2 * length (queries_ s) + sum_list_with weight (threads_ s).

(** What happens once nothing is pushed any more: the threads and the rest of the program
    make steps; [k] counts those of the threads. *)
Inductive stopping : nat -> env * processor -> env * processor -> Prop :=
  | stopping_refl x : stopping 0 x x
  | stopping_thread k i e s s' x : process_ e i s = Some s' -> stopping k (e, s') x -> stopping (S k) (e, s) x
  | stopping_env k e e' s x : env_step e e' -> stopping k (e', s) x -> stopping k (e, s) x.

(** From [e] on, the answers to these queries are available, whatever happens. *)
Definition answerable (e : env) (qs : list query_context) : Prop :=
  forall e' q, rtc env_step e e' -> q ∈ qs -> available e' q = true.

Lemma weight_insert ts i t t' :
  ts !! i = Some t ->
  (sum_list_with weight (<[i := t']> ts) + weight t = sum_list_with weight ts + weight t')%nat.
Proof.
  revert i. induction ts as [|u ts IH]; intros [|i]; simpl; intros H; simplify_eq; [lia|].
  specialize (IH i H). lia.
Qed.

Lemma measure_decreases e i s s' pushed d :
  accounted s pushed d -> working_ s = false -> (forall q, q ∈ pushed -> available e q = true) ->
  process_ e i s = Some s' -> working_ s' = false /\ (measure s' < measure s)%nat.
Proof.
  intros [_ _ _ A] Hw Ha H. unfold process_ in H. destruct (threads_ s !! i) as [t|] eqn:Ht; simpl in H; [|done].
  unfold measure. destruct t as [| |q|]; [| | |done].
  - rewrite Hw in H. injection H as <-. split; [done|].
    pose proof (weight_insert _ _ _ Returned Ht). simpl in *. lia.
  - destruct (queries_ s) as [|q qs] eqn:Eq; injection H as <-; (split; [done|]); simpl.
    + pose proof (weight_insert _ _ _ Outer Ht). rewrite Eq. simpl in *. lia.
    + pose proof (weight_insert _ _ _ (Busy q) Ht). simpl in *. lia.
  - rewrite Ha in H.
    2: { rewrite A, !elem_of_app. right. left. unfold busy_all. apply list_elem_of_In, in_concat.
         exists [q]. split; [|by left]. apply list_elem_of_In, list_elem_of_fmap. exists (Busy q).
         split; [done|]. by eapply list_elem_of_lookup_2. }
    simpl in H. destruct (results_ s !! i); simpl in H; [|done]. injection H as <-. split; [done|].
    pose proof (weight_insert _ _ _ Inner Ht). simpl in *. lia.
Qed.

(** The threads make a bounded number of steps, and remain accounted for. *)
Lemma stopping_bound k e s e' s' pushed :
  stopping k (e, s) (e', s') -> (exists d, accounted s pushed d) -> working_ s = false -> answerable e pushed ->
  (k + measure s' <= measure s)%nat /\ exists d, accounted s' pushed d.
Proof.
  intros H. remember (e, s) as x eqn:Ex. remember (e', s') as y eqn:Ey. revert e s Ex.
  induction H as [x|k i e1 s1 s2 x Hi H IH|k e1 e2 s1 x He H IH]; intros e s Ex [d A] Hw Ha; subst.
  - simplify_eq. split; [lia|by exists d].
  - simplify_eq. destruct (measure_decreases e i s s2 pushed d A Hw) as [Hw2 Hm]; [|done|].
    { intros q Hq. by apply (Ha e q). }
    destruct (IH eq_refl e s2 eq_refl) as [Hb Hd]; [by eapply accounted_thread|done|done|]. split; [lia|done].
  - simplify_eq. apply (IH eq_refl e2 s eq_refl); [by exists d|done|].
    intros e3 q H3 Hq. apply Ha; [by eapply rtc_l|done].
Qed.

Lemma thread_progress e s pushed d :
  accounted s pushed d -> (forall i, process_ e i s = None) -> Stop_joined s = true.
Proof.
  intros [T D L _] Hstuck. apply forallb_forall. intros t Hin. apply list_elem_of_In in Hin.
  apply list_elem_of_lookup in Hin as [i Hi]. apply bool_decide_eq_true.
  assert (is_Some (results_ s !! i)) as [rs Hr].
  { apply lookup_lt_is_Some. rewrite D. unfold answers. rewrite length_fmap, L, <- T.
    by eapply lookup_lt_Some. }
  specialize (Hstuck i). unfold process_ in Hstuck. rewrite Hi in Hstuck. simpl in Hstuck. destruct t; try done.
  - by destruct (queries_ s).
  - destruct (available e q); simpl in Hstuck; [|done]. by rewrite Hr in Hstuck.
Qed.

(** A thread whose answer never becomes available does not return. *)
Lemma stopping_busy k e s x i q :
  stopping k (e, s) x -> threads_ s !! i = Some (Busy q) ->
  (forall e', rtc env_step e e' -> available e' q = false) -> threads_ x.2 !! i = Some (Busy q).
Proof.
  intros H. remember (e, s) as y eqn:Ey. revert e s Ey.
  induction H as [x|k j e1 s1 s2 x Hj H IH|k e1 e2 s1 x He H IH]; intros e s Ey Hi Ha; simplify_eq.
  - done.
  - apply (IH e s2 eq_refl); [|done]. unfold process_ in Hj.
    destruct (threads_ s !! j) as [t|] eqn:Ht; simpl in Hj; [|done].
    assert (i = j -> t = Busy q) as Hij by (intros ->; congruence).
    destruct t as [| |q'|]; [| | |done].
    + injection Hj as <-. simpl. rewrite list_lookup_insert_ne; [done|]. by intros <-; specialize (Hij eq_refl).
    + destruct (queries_ s); injection Hj as <-; simpl;
        (rewrite list_lookup_insert_ne; [done|]; by intros <-; specialize (Hij eq_refl)).
    + destruct (available e q') eqn:Eq'; simpl in Hj; [|by injection Hj as <-].
      destruct (results_ s !! j); simpl in Hj; [|done]. injection Hj as <-. simpl.
      rewrite list_lookup_insert_ne; [done|]. intros <-. injection (Hij eq_refl) as ->.
      by rewrite (Ha e) in Eq'.
  - apply (IH e2 s eq_refl); [done|]. intros e' He'. apply Ha. by eapply rtc_l.
Qed.
End process.

(** ** Properties *)

(** C18: conservation of queries.  However the client, the threads and the rest of the
    program interleave, and however long the calls of [do_process_] take, the accepted
    queries are exactly (as multisets) those still in the
    queue, those a thread is working on and those answered; every thread's result
    list consists of the answers to its queries, each under the index the query
    was pushed with.  Once all threads have returned none is being worked on. *)
Theorem queries_conserved (f : Z -> Z -> Z -> Z) {env : Type} (env_step : env -> env -> Prop)
    (available : env -> query_context -> bool) n e0 e s pushed :
  run f env_step available n e0 e s pushed ->
  exists done_ : list (list query_context),
    length done_ = n /\ results_ s = answers f done_ /\
    pushed ≡ₚ queries_ s ++ busy_all (threads_ s) ++ concat done_ /\
    (Stop_joined s = true -> busy_all (threads_ s) = []).
Proof.
  intros H. destruct (run_accounted f env_step available n e0 e s pushed H) as [Hn [d [T D L A]]]. exists d.
  split_and!; [|done|done|].
  - by rewrite L.
  - intros Hj. unfold busy_all, Stop_joined in *. clear -Hj. induction (threads_ s) as [|t ts IH]; [done|].
    simpl in *. apply andb_prop in Hj as [Ht Hj]. apply bool_decide_eq_true in Ht as ->. by apply IH.
Qed.

(** A run with two threads: two queries are pushed, the second thread answers the
    first one, after waiting for its version, and the first thread takes the other.
    The state of the rest of the program is the number of versions there are. *)
Definition state_ex : processor :=
  mk_processor 2 [Busy (mk_query 7 2 1 9); Inner] 2 [] [[]; [mk_result 1 9]] true.

Definition next_version (v v' : Z) : Prop := v' = v + 1.
Definition version_there (v : Z) (q : query_context) : bool := q_ver q <=? v.

Lemma run_ex_reaches :
  run (fun v l r => v + l + r) next_version version_there 2 4 5 state_ex [mk_query 5 1 2 2; mk_query 7 2 1 9].
Proof.
  unfold run. eapply rtc_l; [by apply (step_push _ _ _ true 5 2 2)|].
  eapply rtc_l; [by apply (step_push _ _ _ true 7 1 9)|].
  do 3 (eapply rtc_l; [by eapply (step_thread _ _ _ 1)|]).
  eapply rtc_l; [by apply step_env|]. eapply rtc_l; [by eapply (step_thread _ _ _ 1)|].
  do 2 (eapply rtc_l; [by eapply (step_thread _ _ _ 0)|]). reflexivity.
Qed.

Theorem queries_conserved_witness :
  exists done_ : list (list query_context),
    length done_ = 2%nat /\ results_ state_ex = answers (fun v l r => v + l + r) done_ /\
    [mk_query 5 1 2 2; mk_query 7 2 1 9] ≡ₚ
      queries_ state_ex ++ busy_all (threads_ state_ex) ++ concat done_ /\
    (Stop_joined state_ex = true -> busy_all (threads_ state_ex) = []).
Proof.
  apply (queries_conserved (fun v l r => v + l + r) next_version version_there 2 4 5 state_ex). exact run_ex_reaches.
Defined.

(** C19: [Stop] returns, if the accepted queries can be answered.  Once the flag is cleared
    (and nothing is pushed any more), assume that from now on [do_process_] returns for
    every accepted query, whatever the rest of the program does.  Then the threads make at most
    [measure] further steps in all, whatever their interleaving, and when none can make a
    step all of them have returned.  The assumption is needed, and it is not granted: a thread
    whose answer never becomes available (the threads of [Contreap] spin in [get_snapshot]
    for a version whose block is never completed) keeps [Stop] waiting for ever. *)
Theorem Stop_terminates (f : Z -> Z -> Z -> Z) {env : Type} (env_step : env -> env -> Prop)
    (available : env -> query_context -> bool) n e0 e s pushed :
  run f env_step available n e0 e s pushed -> working_ s = false ->
  (answerable env_step available e pushed ->
   forall k e' s', stopping f env_step available k (e, s) (e', s') ->
     (k <= measure s)%nat /\ ((forall i, process_ f available e' i s' = None) -> Stop_joined s' = true)) /\
  (forall i q, threads_ s !! i = Some (Busy q) -> (forall e', rtc env_step e e' -> available e' q = false) ->
   forall k e' s', stopping f env_step available k (e, s) (e', s') -> Stop_joined s' = false).
Proof.
  intros H Hw. destruct (run_accounted f env_step available n e0 e s pushed H) as [_ Hd]. split.
  - intros Ha k e' s' Hk. destruct (stopping_bound f env_step available k e s e' s' pushed Hk Hd Hw Ha) as [Hb [d' A]].
    split; [lia|]. intros Hstuck. by eapply thread_progress.
  - intros i q Hi Ha k e' s' Hk. pose proof (stopping_busy f env_step available k e s _ i q Hk Hi Ha) as Hi'. simpl in Hi'.
    apply not_true_is_false. intros Hj. unfold Stop_joined in Hj. rewrite forallb_forall in Hj.
    specialize (Hj (Busy q)). rewrite bool_decide_eq_true in Hj.
    assert (Busy q = Returned); [|done]. apply Hj. apply list_elem_of_In. by eapply list_elem_of_lookup_2.
Qed.

(** In the run above, the second version, 7, is not there when the flag is cleared: [Stop]
    returns if it comes (from 7 on), and does not if no more versions are made. *)
Theorem Stop_terminates_witness :
  let s := Stop_signal state_ex in let f := fun v l r => v + l + r in
  (forall k e' s', stopping f next_version version_there k (7, s) (e', s') ->
     (k <= measure s)%nat /\ ((forall i, process_ f version_there e' i s' = None) -> Stop_joined s' = true)) /\
  (forall k e' s', stopping f (fun _ _ => False) version_there k (5, s) (e', s') -> Stop_joined s' = false).
Proof.
  intros s f. split.
  - apply (Stop_terminates f next_version version_there 2 4 7 s [mk_query 5 1 2 2; mk_query 7 2 1 9]); [|reflexivity|].
    + unfold run. etrans; [exact run_ex_reaches|]. eapply rtc_l; [by apply step_env|].
      eapply rtc_l; [by apply step_env|]. eapply rtc_l; [apply step_stop|reflexivity].
    + intros e' q He Hq. assert (7 <= e') as Hle.
      { clear -He. remember 7 as v eqn:Ev. clear Ev. induction He as [v|v v1 v2 H _ IH]; [done|]. unfold next_version in H. lia. }
      unfold version_there. apply Z.leb_le. set_unfold. naive_solver lia.
  - apply (Stop_terminates f (fun _ _ => False) version_there 2 5 5 s [mk_query 5 1 2 2; mk_query 7 2 1 9]) with (i := 0%nat) (q := mk_query 7 2 1 9);
      [|reflexivity|reflexivity|].
    + unfold run. eapply rtc_l; [by apply (step_push _ _ _ true 5 2 2)|].
      eapply rtc_l; [by apply (step_push _ _ _ true 7 1 9)|].
      do 3 (eapply rtc_l; [by eapply (step_thread _ _ _ 1)|]).
      do 2 (eapply rtc_l; [by eapply (step_thread _ _ _ 0)|]).
      eapply rtc_l; [apply step_stop|]. reflexivity.
    + intros e' He. by inversion He as [|? ? ? []].
Defined.

(** [Stop] may return while accepted queries are still in the queue: a query
    pushed before [Stop] is called need not be answered, because a thread tests
    the flag before it looks at the queue. *)
Theorem Stop_loses_queries :
  exists s pushed, run (fun _ _ _ => 0) eq (fun _ _ => true) 1 tt tt s pushed /\ working_ s = false /\
    Stop_joined s = true /\ length pushed = 1%nat /\ queries_ s = pushed /\ results_ s = [[]].
Proof.
  eexists _, _. split_and!.
  - unfold run. eapply rtc_l; [by apply (step_push _ _ _ true 5 2 2)|].
    eapply rtc_l; [by apply step_stop|]. eapply rtc_l; [by eapply (step_thread _ _ _ 0)|]. reflexivity.
  - reflexivity.
  - reflexivity.
  - reflexivity.
  - reflexivity.
  - reflexivity.
Qed.
