(* ===== verification/Database.v ===== *)
(** * What the databases share

    [src/db/include/interface.hpp]: the operations of a database, as programs over
    its state that may fail, and the specification the three implementations are
    measured against: the contents after a sequence of requests, and the answer to
    a query at a version.  Also here: the updates of [src/lib/treap] only add nodes
    without an aggregate, which the databases rely on when they aggregate a new
    version. *)

From S2P Require Import Prelude TreapTree TreapNode TreapUpdate TreapQuery.

#[local] Open Scope Z_scope.

(** ** Programs over a state *)

Definition SM (S A : Type) : Type := S -> res (A * S).

#[global] Typeclasses Opaque M SM.

Section state_programs.
Context {S : Type}.

#[global] Instance SM_ret : MRet (SM S) := fun A a s => Ok (a, s).
#[global] Instance SM_bind : MBind (SM S) := fun A B f m s =>
  match m s with Ok (a, s') => f a s' | Err e => Err e end.

Definition sm_fail {A} (e : err) : SM S A := fun _ => Err e.
Definition sm_get {A} (f : S -> A) : SM S A := fun s => Ok (f s, s).
Definition sm_modify (f : S -> S) : SM S unit := fun s => Ok (tt, f s).
Definition sm_await (f : S -> bool) : SM S unit := fun s => if f s then Ok (tt, s) else Err Blocked.

(** Running a heap program on the heap of the state. *)
Definition in_heap {N A} (get : S -> gmap loc N) (set : gmap loc N -> S -> S) (m : M N A) : SM S A :=
  fun s => match m (get s) with Ok (a, h) => Ok (a, set h s) | Err e => Err e end.

Lemma sm_bind_ok {A B} (m : SM S A) (f : A -> SM S B) s a s' :
  m s = Ok (a, s') -> (m ≫= f) s = f a s'.
Proof. intros H. unfold mbind, SM_bind. by rewrite H. Qed.

Lemma sm_bind_err {A B} (m : SM S A) (f : A -> SM S B) s e :
  m s = Err e -> (m ≫= f) s = Err e.
Proof. intros H. unfold mbind, SM_bind. by rewrite H. Qed.

Lemma in_heap_wp {N A} (get : S -> gmap loc N) set (m : M N A) Q s :
  wp m Q (get s) -> exists a h, in_heap get set m s = Ok (a, set h s) /\ Q a h.
Proof. intros (a & h & E & HQ). exists a, h. unfold in_heap. by rewrite E. Qed.
End state_programs.

(** ** Total correctness of an operation *)

(** The operation runs without error, and its result satisfies [Q]. *)
Definition runs {S A} (m : SM S A) (Q : A -> S -> Prop) (s : S) : Prop :=
  exists a s', m s = Ok (a, s') /\ Q a s'.

Lemma runs_ret {S A} (a : A) (Q : A -> S -> Prop) s : Q a s -> runs (mret a) Q s.
Proof. intros HQ. by exists a, s. Qed.

Lemma runs_get {S A} (f : S -> A) (Q : A -> S -> Prop) s : Q (f s) s -> runs (sm_get f) Q s.
Proof. intros HQ. by exists (f s), s. Qed.

Lemma runs_bind {S A B} (m : SM S A) (f : A -> SM S B) Q s :
  runs m (fun a s' => runs (f a) Q s') s -> runs (m ≫= f) Q s.
Proof.
  intros (a & s' & Em & b & s'' & Ef & HQ). exists b, s''. by rewrite (sm_bind_ok _ _ _ _ _ Em).
Qed.

Lemma runs_mono {S A} (m : SM S A) (Q Q' : A -> S -> Prop) s :
  (forall a s', Q a s' -> Q' a s') -> runs m Q s -> runs m Q' s.
Proof. intros HQ (a & s' & E & Ha). exists a, s'. eauto. Qed.

(** Computing a value that may fail. *)
Definition from_res {S A} (r : res A) : SM S A := fun s => match r with Ok a => Ok (a, s) | Err e => Err e end.

(** ** The interface *)

Class Interface (St : Type) := {
  Init : nat -> nat -> list Z -> SM St unit;
  Close : SM St unit;
  Query : Z -> Z -> SM St Z;
  Insert : Z -> SM St Z;
  Delete : Z -> SM St Z;
}.

Inductive request :=
  | RQuery (l r : Z)
  | RInsert (k : Z)
  | RDelete (k : Z).

Definition request_u64 (q : request) : Prop :=
  match q with RQuery l r => u64 l /\ u64 r | RInsert k => u64 k | RDelete k => u64 k end.

(** One request, and a sequence of requests. *)
Definition serve {St} `{!Interface St} (q : request) : SM St Z :=
  match q with
  | RQuery l r => Query l r
  | RInsert k => Insert k
  | RDelete k => Delete k
  end.

Fixpoint serve_all {St} `{!Interface St} (qs : list request) : SM St unit :=
  match qs with
  | [] => mret tt
  | q :: qs => serve q;; serve_all qs
  end.

Lemma serve_all_app {St} `{!Interface St} qs qs' (s s' : St) :
  serve_all qs s = Ok (tt, s') -> serve_all (qs ++ qs') s = serve_all qs' s'.
Proof.
  revert s. induction qs as [|q qs IH]; intros s; simpl; [by intros [= ->]|].
  unfold mbind, SM_bind. destruct (serve q s) as [[z s1]|]; [|done]. apply IH.
Qed.

(** ** The specification *)

(** What a request does to the contents. *)
Definition bag_request (q : request) (m : bag) : bag :=
  match q with
  | RQuery _ _ => m
  | RInsert k => bag_insert k m
  | RDelete k => bag_delete k m
  end.

(** The contents once the first [v] requests were served. *)
Definition contents (m0 : bag) (qs : list request) (v : nat) : bag :=
  foldl (fun m q => bag_request q m) m0 (take v qs).

(** The answer to a query: the counter of a key, or the sum of a range. *)
Definition bag_answer (m : bag) (l r : Z) : option Z :=
  if l =? r then m !! l else Some (wrap64 (bag_range_sum l r m)).

Lemma contents_S m0 qs q :
  contents m0 (qs ++ [q]) (S (length qs)) = bag_request q (contents m0 qs (length qs)).
Proof.
  unfold contents. rewrite take_ge by (rewrite length_app; simpl; lia).
  rewrite foldl_app, take_ge by done. done.
Qed.

Lemma contents_app m0 qs qs' v : (v <= length qs)%nat -> contents m0 (qs ++ qs') v = contents m0 qs v.
Proof. intros Hv. unfold contents. by rewrite take_app_le. Qed.

(** The number of distinct keys grows by one at most. *)
Lemma bag_request_size q m : (base.size (bag_request q m) <= S (base.size m))%nat.
Proof.
  destruct q as [l r|k|k]; simpl; [lia| |].
  - unfold bag_insert. rewrite map_size_insert. destruct (m !! k); simpl; lia.
  - unfold bag_delete. destruct (m !! k) as [x|] eqn:E; [|lia]. destruct (x =? 1).
    + rewrite map_size_delete, E. simpl. lia.
    + rewrite map_size_insert, E. simpl. lia.
Qed.

Lemma contents_size m0 qs v : (base.size (contents m0 qs v) <= base.size m0 + v)%nat.
Proof.
  unfold contents. revert m0 v. induction qs as [|q qs IH]; intros m0 [|v]; simpl; try lia.
  specialize (IH (bag_request q m0) v). pose proof (bag_request_size q m0). lia.
Qed.

Lemma size_to_bag hash t : wf hash t -> base.size (to_bag t) = TreapTree.size t.
Proof.
  induction t as [|v p k x l IHl r IHr]; simpl; [intros _; apply map_size_empty|].
  intros W. assert (W' := W). destruct W' as (_ & _ & _ & Hl & Hr & Wl & Wr).
  assert (to_bag l !! k = None /\ to_bag r !! k = None) as [El Er].
  { rewrite !(to_bag_lookup hash) by done.
    rewrite (all_keys_notin _ _ _ Hl), (all_keys_notin _ _ _ Hr) by lia. done. }
  rewrite map_size_insert_None by (by apply lookup_union_None).
  rewrite map_size_disj_union, IHl, IHr; [done|done|done|].
  intros j. rewrite !(to_bag_lookup hash) by done.
  destruct (t_lookup l j) eqn:Ej, (t_lookup r j) eqn:Ej'; simpl; try done.
  apply (all_keys_lookup _ _ _ _ Hl) in Ej. apply (all_keys_lookup _ _ _ _ Hr) in Ej'. lia.
Qed.

(** ** Updates add nodes without aggregate *)

(** Allocated nodes keep their aggregate, new ones have none. *)
Definition no_aug (h h' : heap) : Prop :=
  forall b, match h !! b with
    | Some n => exists n', h' !! b = Some n' /\ n_aug n' = n_aug n
    | None => forall n', h' !! b = Some n' -> n_aug n' = aug_uninitialized
    end.

#[global] Instance no_aug_preorder : PreOrder no_aug.
Proof.
  split.
  - intros h b. destruct (h !! b) as [n|] eqn:E; [by exists n|congruence].
  - intros h1 h2 h3 H12 H23 b. specialize (H12 b). specialize (H23 b).
    destruct (h1 !! b) as [n1|].
    + destruct H12 as (n2 & E & A). rewrite E in H23. destruct H23 as (n3 & E3 & A3).
      exists n3. by rewrite A3.
    + destruct (h2 !! b) as [n2|]; [|done]. specialize (H12 n2 eq_refl).
      destruct H23 as (n3 & E3 & A3). intros n' Hn'. congruence.
Qed.

Class NoAug {A} (m : M node_t A) : Prop :=
  no_aug_run h a h' : m h = Ok (a, h') -> no_aug h h'.

#[global] Instance no_aug_ret {A} (a : A) : NoAug (mret a).
Proof. intros h x h' [= -> ->]. reflexivity. Qed.

#[global] Instance no_aug_fail {A} e : NoAug (fail (A := A) e).
Proof. intros h x h'. done. Qed.

#[global] Instance no_aug_load p : NoAug (load p).
Proof.
  intros h x h' H. destruct p as [a|]; [|done]. unfold load in H.
  destruct (h !! a); [|done]. injection H as -> ->. reflexivity.
Qed.

Lemma no_aug_store p f : (forall n, n_aug (f n) = n_aug n) -> NoAug (store p f).
Proof.
  intros Hf h x h' H b. destruct p as [a|]; [|done]. unfold store in H.
  destruct (h !! a) as [n|] eqn:E; [|done]. injection H as <- <-.
  destruct (decide (a = b)) as [<-|Hne].
  - rewrite E. exists (f n). by rewrite lookup_insert_eq.
  - destruct (h !! b) as [m|] eqn:Eb; [exists m|intros n']; rewrite lookup_insert_ne by done; [done|congruence].
Qed.

Lemma no_aug_new n : n_aug n = aug_uninitialized -> NoAug (new n).
Proof.
  intros Hn h x h' [= <- <-] b. pose proof (fresh_loc_fresh h).
  destruct (decide (fresh_loc h = b)) as [<-|Hne].
  - rewrite H. intros n'. rewrite lookup_insert_eq. by intros [= <-].
  - destruct (h !! b) as [m|] eqn:Eb; [exists m|intros n']; rewrite lookup_insert_ne by done; [done|congruence].
Qed.

Lemma no_aug_bind {A B} (m : M node_t A) (f : A -> M node_t B) :
  NoAug m -> (forall a, NoAug (f a)) -> NoAug (m ≫= f).
Proof.
  intros Hm Hf h x h' H. unfold mbind, M_bind in H.
  destruct (m h) as [[a h1]|] eqn:E; [|done]. etrans; [exact (Hm _ _ _ E)|exact (Hf _ _ _ _ H)].
Qed.

(** Going through a program: allocations and assignments are checked by computation. *)
Ltac no_aug_step :=
  match goal with
  | |- NoAug (mbind _ _) => apply no_aug_bind; [|intros]
  | |- NoAug (store _ _) => apply no_aug_store; intros; reflexivity
  | |- NoAug (new _) => apply no_aug_new; reflexivity
  | |- NoAug (match ?x with _ => _ end) => destruct x
  | |- NoAug _ => solve [eauto with typeclass_instances]
  end.

#[global] Instance no_aug_split_copy fuel ver t key : NoAug (split_copy fuel ver t key).
Proof. revert t. induction fuel as [|fuel IH]; intros t; simpl; unfold make_weak_copy_ver; repeat no_aug_step. Qed.

#[global] Instance no_aug_insert fuel ver t pry key : NoAug (search_insert fuel ver t pry key).
Proof.
  revert t. induction fuel as [|fuel IH]; intros t; cbn [search_insert];
    unfold process_deploy, make_weak_copy_ver, make_node_pry; repeat no_aug_step.
Qed.

#[global] Instance no_aug_concat fuel ver t_l t_r : NoAug (process_concat fuel ver t_l t_r).
Proof.
  revert t_l t_r. induction fuel as [|fuel IH]; intros t_l t_r; simpl;
    unfold make_weak_copy_ver; repeat no_aug_step.
Qed.

#[global] Instance no_aug_delete fuel ver t pry key : NoAug (search_delete fuel ver t pry key).
Proof.
  revert t. induction fuel as [|fuel IH]; intros t; cbn [search_delete];
    unfold make_weak_copy_ver; repeat no_aug_step.
Qed.

(** So the cached aggregates stay right. *)
Lemma no_aug_wf h h' : h ⊆ h' -> no_aug h h' -> aug_wf h -> aug_wf h'.
Proof.
  intros Hs Hn. apply aug_wf_weaken; [done|]. intros a n Ha Hnone.
  specialize (Hn a). rewrite Hnone in Hn. by apply Hn.
Qed.

Lemma wp_no_aug {A} (m : M node_t A) `{!NoAug m} Q h :
  wp m Q h -> wp m (fun a h' => Q a h' /\ no_aug h h') h.
Proof. intros (a & h' & E & HQ). exists a, h'. split_and!; [done|done|exact (no_aug_run _ _ _ E)]. Qed.
