(* ===== verification/Sequential.v ===== *)
(** * The sequential database

    [src/db/sequential.hpp]: every request makes a version, whose root is stored in
    an array of [m+1] roots; updates are made one after the other by path copying,
    queries are handed to the query processor, which looks at the stored roots. *)

From S2P Require Import Prelude TreapTree TreapNode TreapUpdate TreapQuery Owned TreapBuild.
From S2P Require Import QueryProcessor Database.

#[local] Open Scope Z_scope.

(** ** State *)

(** An entry of [roots_] that was never assigned is [None]. *)
Record sequential := mk_sequential {
  sq_heap : heap;
  num_versions_ : nat;
  roots_ : list (option ptr);
  query_processor_ : processor;
}.

Definition set_heap (h : heap) (s : sequential) : sequential :=
  mk_sequential h (num_versions_ s) (roots_ s) (query_processor_ s).
Definition set_versions (v : nat) (s : sequential) : sequential :=
  mk_sequential (sq_heap s) v (roots_ s) (query_processor_ s).
Definition set_roots (rs : list (option ptr)) (s : sequential) : sequential :=
  mk_sequential (sq_heap s) (num_versions_ s) rs (query_processor_ s).
Definition set_processor (p : processor) (s : sequential) : sequential :=
  mk_sequential (sq_heap s) (num_versions_ s) (roots_ s) p.

(** [new Sequential(num_threads, num_clients)] *)
Definition new_sequential (num_clients : nat) : sequential :=
  mk_sequential ∅ 0 [] (new_processor num_clients).

(** [roots_[v]], and an assignment to it. *)
Definition get_root (v : nat) : SM sequential ptr := fun s =>
  match roots_ s !! v with Some (Some p) => Ok (p, s) | _ => Err BadPtr end.

Definition put_root (v : nat) (p : ptr) : SM sequential unit := fun s =>
  if (v <? length (roots_ s))%nat then Ok (tt, set_roots (<[v := Some p]> (roots_ s)) s) else Err BadPtr.

(** [1 + num_versions_.fetch_add(1)] *)
Definition next_version : SM sequential nat := fun s =>
  Ok (S (num_versions_ s), set_versions (S (num_versions_ s)) s).

Abbreviation on_heap := (in_heap sq_heap set_heap).

(** ** Operations *)

Section operations.
Context (hash : Z -> Z) (order : list nat -> bool) (fuel : nat) (room : processor -> bool).

(** What the query processor runs for a query. *)
Definition processor_function_ (ver : nat) (l r : Z) : SM sequential Z :=
  sm_await (fun s => ver <=? num_versions_ s)%nat;;
  t ← get_root ver;
  if l =? r then on_heap (q ← TreapQuery.find fuel t l; n ← load q; mret (n_val n))
  else on_heap (range_estimate_open fuel t l r).

Definition Sequential_Init (n m : nat) (elems : list Z) : SM sequential unit :=
  sm_modify (set_roots (replicate (m + 1) None));;
  t ← on_heap (build_parallel hash order fuel n elems);
  put_root 0 t;;
  sm_modify (fun s => set_processor (Start (query_processor_ s)) s).

(** The flag is cleared, and [join] waits until the threads have returned. *)
Definition Sequential_Close : SM sequential unit :=
  sm_modify (fun s => set_processor (Stop_signal (query_processor_ s)) s);;
  sm_await (fun s => Stop_joined (query_processor_ s)).

(** [query_processor_->Push(ver, l, r)] *)
Definition push_query (ver : nat) (l r : Z) : SM sequential Z := fun s =>
  let (z, p) := Push (room (query_processor_ s)) (Z.of_nat ver) l r (query_processor_ s) in
  Ok (z, set_processor p s).

Definition Sequential_Query (l r : Z) : SM sequential Z :=
  ver ← next_version;
  t ← get_root (ver - 1);
  put_root ver t;;
  push_query ver l r.

Definition Sequential_Insert (k : Z) : SM sequential Z :=
  ver ← next_version;
  t ← get_root (ver - 1);
  t' ← on_heap (search_insert fuel ver t (hash k) k);
  put_root ver t';;
  t'' ← get_root ver;
  on_heap (augment fuel t'');;
  mret 0.

Definition Sequential_Delete (k : Z) : SM sequential Z :=
  ver ← next_version;
  t ← get_root (ver - 1);
  t' ← on_heap (search_delete fuel ver t (hash k) k);
  put_root ver t';;
  t'' ← get_root ver;
  on_heap (augment fuel t'');;
  mret 0.

#[global] Instance Sequential : Interface sequential := {
  Init := Sequential_Init;
  Close := Sequential_Close;
  Query := Sequential_Query;
  Insert := Sequential_Insert;
  Delete := Sequential_Delete;
}.
End operations.

(** ** The invariant *)

Section correctness.
Context {hash : Z -> Z} `{HPH : !PerfectHash hash} (order : list nat -> bool) (fuel : nat)
  (room : processor -> bool) (m : nat) (m0 : bag).

(** The root of version [v] is a complete treap with the contents [b]. *)
Definition version_ok (h : heap) (p : ptr) (v : nat) (b : bag) : Prop :=
  exists t, auged h p t /\ wf hash t /\ vers_le v t /\ vers_mono t /\ to_bag t = b.

Record serving (qs : list request) (s : sequential) : Prop := {
  sv_versions : num_versions_ s = length qs;
  sv_roots : length (roots_ s) = (m + 1)%nat;
  sv_aug : aug_wf (sq_heap s);
  sv_root v : (v <= length qs)%nat ->
    exists p, roots_ s !! v = Some (Some p) /\ version_ok (sq_heap s) p v (contents m0 qs v);
}.

Lemma version_ok_le h h' p v b : (forall t, auged h p t -> auged h' p t) -> version_ok h p v b -> version_ok h' p v b.
Proof. intros Hau (t & A & W & V & M & B). exists t. split_and!; auto. Qed.

(** A new version whose root is known. *)
Lemma serving_next qs q s h' p qp :
  serving qs s -> (length qs < m)%nat -> aug_wf h' ->
  (forall p t, auged (sq_heap s) p t -> auged h' p t) ->
  version_ok h' p (S (length qs)) (bag_request q (contents m0 qs (length qs))) ->
  serving (qs ++ [q])
    (mk_sequential h' (S (length qs)) (<[S (length qs) := Some p]> (roots_ s)) qp).
Proof.
  intros [V L A R] Hm A' Hau Hp. split; simpl.
  - rewrite length_app. simpl. lia.
  - by rewrite length_insert.
  - done.
  - intros v Hv. rewrite length_app in Hv. simpl in Hv.
    destruct (decide (v = S (length qs))) as [->|Hne].
    + exists p. rewrite contents_S. split; [|done]. apply list_lookup_insert_eq. lia.
    + destruct (R v) as (p' & Hp' & Ho); [lia|]. exists p'.
      rewrite list_lookup_insert_ne by done. split; [done|]. rewrite contents_app by lia.
      eapply version_ok_le; [|exact Ho]. intros t0. apply Hau.
Qed.

Lemma get_root_ok (v : nat) p s : roots_ s !! v = Some (Some p) -> get_root v s = Ok (p, s).
Proof. intros H. unfold get_root. by rewrite H. Qed.

Lemma put_root_ok (v : nat) p s :
  (v < length (roots_ s))%nat -> put_root v p s = Ok (tt, set_roots (<[v := Some p]> (roots_ s)) s).
Proof. intros H. unfold put_root. by apply Nat.ltb_lt in H as ->. Qed.

(** The common part of [Insert] and [Delete]. *)
Lemma update_ok qs q s (upd : nat -> ptr -> M node_t ptr) :
  serving qs s -> (length qs < m)%nat ->
  (forall h p t, rep h p t -> wf hash t -> vers_le (S (length qs)) t -> vers_mono t ->
     to_bag t = contents m0 qs (length qs) ->
     wp (upd (S (length qs)) p) (fun p' h' => (h ⊆ h' /\ exists t', rep h' p' t' /\ wf hash t' /\
       to_bag t' = bag_request q (to_bag t) /\ vers_le (S (length qs)) t' /\ vers_mono t') /\ no_aug h h') h) ->
  (base.size m0 + S (length qs) < fuel)%nat ->
  exists s', (ver ← next_version;
     t ← get_root (ver - 1);
     t' ← on_heap (upd ver t);
     put_root ver t';;
     t'' ← get_root ver;
     on_heap (augment fuel t'');;
     mret 0) s = Ok (0, s') /\ serving (qs ++ [q]) s' /\ query_processor_ s' = query_processor_ s.
Proof.
  intros Sv Hm Hupd Hf. assert (Sv' := Sv). destruct Sv' as [V L A R].
  destruct (R (length qs)) as (p & Hp & t & Au & W & Vl & Vm & B); [done|].
  destruct (Hupd (sq_heap s) p t) as (p' & h1 & E & (Hs1 & t' & R' & W' & B' & Vl' & Vm') & Hna);
    [by apply auged_rep|done|eapply vers_le_trans; [|done]; lia|done|done|].
  assert (aug_wf h1) as A1 by by eapply no_aug_wf.
  assert (TreapTree.size t' < fuel)%nat as Hsz.
  { rewrite <- (size_to_bag hash t' W'), B', B.
    pose proof (bag_request_size q (contents m0 qs (length qs))).
    pose proof (contents_size m0 qs (length qs)). lia. }
  destruct (augment_spec fuel h1 p' t' R' A1 Hsz) as (z & h2 & E2 & _ & Hst & Au2 & A2).
  eexists. split_and!.
  - rewrite (sm_bind_ok _ _ s (S (length qs)) (set_versions (S (length qs)) s))
      by (unfold next_version; by rewrite V).
    simpl Nat.sub. rewrite Nat.sub_0_r.
    rewrite (sm_bind_ok _ _ _ p _) by (apply get_root_ok; exact Hp).
    rewrite (sm_bind_ok _ _ _ p' (set_heap h1 (set_versions (S (length qs)) s)))
      by (unfold in_heap; simpl; by rewrite E).
    rewrite (sm_bind_ok _ _ _ tt _) by (apply put_root_ok; simpl; rewrite L; lia).
    rewrite (sm_bind_ok _ _ _ p' _) by
      (apply get_root_ok; simpl; apply list_lookup_insert_eq; rewrite L; lia).
    rewrite (sm_bind_ok _ _ _ z _) by (unfold in_heap; simpl; by rewrite E2).
    reflexivity.
  - apply serving_next; try done.
    + intros p0 t0 H0. destruct Hst as (_ & _ & Hst). apply Hst. by eapply auged_weaken.
    + exists t'. split_and!; try done. by rewrite B', B.
  - done.
Qed.

Lemma insert_ok qs s k :
  serving qs s -> (length qs < m)%nat -> u64 k -> (base.size m0 + S (length qs) < fuel)%nat ->
  exists s', Sequential_Insert hash fuel k s = Ok (0, s') /\ serving (qs ++ [RInsert k]) s' /\
    query_processor_ s' = query_processor_ s.
Proof.
  intros Sv Hm Hk Hf.
  apply (update_ok qs (RInsert k) s (fun ver t => search_insert fuel ver t (hash k) k)); try done.
  intros h p t Hr W V Vm B. apply wp_no_aug; [apply _|].
  assert (TreapTree.size t < fuel)%nat as Hsz.
  { rewrite <- (size_to_bag hash t W), B. pose proof (contents_size m0 qs (length qs)). lia. }
  eapply wp_mono; [|by apply (search_insert_spec fuel (S (length qs)) t p (hash k) k h h)].
  intros p' h' [Hs Hq]%returns_rep. split; [done|].
  eexists. split_and!; [exact Hq|by apply t_insert_wf|by apply t_insert_bag|by apply t_insert_vers|].
  by apply t_insert_mono.
Qed.

Lemma delete_ok qs s k :
  serving qs s -> (length qs < m)%nat -> u64 k -> (base.size m0 + S (length qs) < fuel)%nat ->
  exists s', Sequential_Delete hash fuel k s = Ok (0, s') /\ serving (qs ++ [RDelete k]) s' /\
    query_processor_ s' = query_processor_ s.
Proof.
  intros Sv Hm Hk Hf.
  apply (update_ok qs (RDelete k) s (fun ver t => search_delete fuel ver t (hash k) k)); try done.
  intros h p t Hr W V Vm B. apply wp_no_aug; [apply _|].
  assert (TreapTree.size t < fuel)%nat as Hsz.
  { rewrite <- (size_to_bag hash t W), B. pose proof (contents_size m0 qs (length qs)). lia. }
  eapply wp_mono; [|by apply (search_delete_spec fuel (S (length qs)) t p (hash k) k h h)].
  intros p' h' [Hs Hq]%returns_rep. split; [done|].
  eexists. split_and!; [exact Hq|by apply t_delete_wf|by apply t_delete_bag|by apply t_delete_vers|].
  by apply t_delete_mono.
Qed.

Lemma query_ok qs s l r :
  serving qs s -> (length qs < m)%nat ->
  exists s', Sequential_Query room l r s = Ok ((Push (room (query_processor_ s)) (Z.of_nat (S (length qs))) l r
      (query_processor_ s)).1, s') /\ serving (qs ++ [RQuery l r]) s' /\
    query_processor_ s' = (Push (room (query_processor_ s)) (Z.of_nat (S (length qs))) l r (query_processor_ s)).2.
Proof.
  intros Sv Hm. assert (Sv' := Sv). destruct Sv' as [V L A R].
  destruct (R (length qs)) as (p & Hp & Ho); [done|].
  unfold Sequential_Query.
  rewrite (sm_bind_ok _ _ s (S (length qs)) (set_versions (S (length qs)) s))
    by (unfold next_version; by rewrite V).
  simpl Nat.sub. rewrite Nat.sub_0_r.
  rewrite (sm_bind_ok _ _ _ p _) by (apply get_root_ok; exact Hp).
  rewrite (sm_bind_ok _ _ _ tt _) by (apply put_root_ok; simpl; rewrite L; lia).
  unfold push_query. cbn [query_processor_ set_roots set_versions].
  destruct (Push _ _ _ _ _) as [z qp]. eexists. split_and!; [reflexivity| |reflexivity].
  apply (serving_next qs (RQuery l r) s); try done.
  destruct Ho as (t & Au & W & Vl & Vm & B). exists t. split_and!; try done.
  eapply vers_le_trans; [|done]. lia.
Qed.

Definition accepted (v : nat) (q : request) (qp : processor) : processor :=
  match q with
  | RQuery l r => (Push (room qp) (Z.of_nat v) l r qp).2
  | _ => qp
  end.

#[local] Instance this_sequential : Interface sequential := Sequential hash order fuel room.

Lemma serve_ok qs q s :
  serving qs s -> (length qs < m)%nat -> request_u64 q -> (base.size m0 + S (length qs) < fuel)%nat ->
  exists z s', serve q s = Ok (z, s') /\ serving (qs ++ [q]) s' /\
    query_processor_ s' = accepted (S (length qs)) q (query_processor_ s).
Proof.
  intros Sv Hm Hq Hf. destruct q as [l r|k|k].
  - destruct (query_ok qs s l r Sv Hm) as (s' & E & Sv' & P). eauto.
  - destruct (insert_ok qs s k Sv Hm Hq Hf) as (s' & E & Sv' & P). eauto.
  - destruct (delete_ok qs s k Sv Hm Hq Hf) as (s' & E & Sv' & P). eauto.
Qed.

(** The processor after the requests [qs'], the first of which has version [v]. *)
Fixpoint accept_all (v : nat) (qs' : list request) (qp : processor) : processor :=
  match qs' with [] => qp | q :: qs' => accept_all (S v) qs' (accepted v q qp) end.

Lemma serve_all_ok qs qs' s :
  serving qs s -> (length qs + length qs' <= m)%nat -> Forall request_u64 qs' ->
  (base.size m0 + m < fuel)%nat ->
  exists s', serve_all qs' s = Ok (tt, s') /\ serving (qs ++ qs') s' /\
    query_processor_ s' = accept_all (S (length qs)) qs' (query_processor_ s).
Proof.
  revert qs s. induction qs' as [|q qs' IH]; intros qs s Sv Hm Hq Hf.
  { exists s. by rewrite app_nil_r. }
  apply Forall_cons in Hq as [Hq Hqs]. simpl in Hm.
  destruct (serve_ok qs q s Sv) as (z & s1 & E & Sv1 & P1); [lia|done|lia|].
  destruct (IH (qs ++ [q]) s1 Sv1) as (s2 & E2 & Sv2 & P2); [rewrite length_app; simpl; lia|done|done|].
  exists s2. split_and!.
  - simpl. by rewrite (sm_bind_ok _ _ _ _ _ E).
  - by rewrite <- app_assoc in Sv2.
  - rewrite P2, P1, length_app, Nat.add_1_r. done.
Qed.

(** The answer the query processor computes. *)
Lemma processor_function_ok qs s (v : nat) l r :
  serving qs s -> (v <= length qs)%nat -> (base.size m0 + length qs < fuel)%nat ->
  processor_function_ fuel v l r s =
    match bag_answer (contents m0 qs v) l r with Some x => Ok (x, s) | None => Err NullDeref end.
Proof.
  intros [V L A R] Hv Hf. destruct (R v Hv) as (p & Hp & t & Au & W & _ & _ & B).
  assert (TreapTree.size t < fuel)%nat as Hsz.
  { rewrite <- (size_to_bag hash t W), B. pose proof (contents_size m0 qs v). lia. }
  unfold processor_function_.
  rewrite (sm_bind_ok _ _ s tt s) by (unfold sm_await; rewrite V; by apply Nat.leb_le in Hv as ->).
  rewrite (sm_bind_ok _ _ s p s) by by apply get_root_ok.
  assert (forall h, set_heap h s = s <-> h = sq_heap s) as Hset.
  { intros h. destruct s. simpl. split; [by intros [= ->]|by intros ->]. }
  unfold bag_answer. destruct (Z.eqb_spec l r) as [->|Hne].
  - destruct (find_spec (hash := hash) fuel (sq_heap s) p t r (auged_rep _ _ _ Au) W Hsz)
      as (q & h1 & E & -> & Hq).
    unfold in_heap, mbind, M_bind. rewrite E. rewrite <- B, (to_bag_lookup hash) by done.
    destruct (t_lookup t r) as [x|].
    + destruct Hq as (a & n & -> & Hn & _ & Hx). unfold load. rewrite Hn.
      unfold mret, M_ret. rewrite Hx. by rewrite (proj2 (Hset _)).
    + subst q. done.
  - destruct (range_estimate_spec (hash := hash) fuel (sq_heap s) p t l r OPEN_OPEN Au W) as (z & h1 & E & -> & ->);
      [|done|].
    { clear. induction t; simpl; auto. }
    unfold in_heap, range_estimate_open. rewrite E. rewrite (proj2 (Hset _)) by done.
    by rewrite <- B, (bag_range_sum_tree hash).
Qed.

(** After [Init]. *)
Lemma init_ok n elems s :
  aug_wf (sq_heap s) -> num_versions_ s = 0%nat -> (n <= length elems)%nat -> Forall u64 elems ->
  (n < fuel)%nat -> m0 = bag_of (take n elems) ->
  exists s', Sequential_Init hash order fuel n m elems s = Ok (tt, s') /\ serving [] s' /\
    query_processor_ s' = Start (query_processor_ s).
Proof.
  intros A V Hn Hu Hf Em. unfold Sequential_Init.
  destruct (build_parallel_spec (hash := hash) order fuel (sq_heap s) n elems) as
    (p & h1 & E & t & Au & (W & Vl & _ & L) & A1 & _); try done.
  rewrite (sm_bind_ok _ _ s tt (set_roots (replicate (m + 1) None) s)) by done.
  rewrite (sm_bind_ok _ _ _ p (set_heap h1 (set_roots (replicate (m + 1) None) s)))
    by (unfold in_heap; simpl; by rewrite E).
  rewrite (sm_bind_ok _ _ _ tt _) by (apply put_root_ok; simpl; rewrite length_replicate; lia).
  eexists. split_and!; [reflexivity| |reflexivity]. split; simpl.
  - done.
  - by rewrite length_insert, length_replicate.
  - done.
  - intros v Hv. assert (v = 0%nat) as -> by lia. exists p. split.
    + apply list_lookup_insert_eq. rewrite length_replicate. lia.
    + exists t. split_and!; [done|done|done| |].
      * clear -Vl. induction t as [|v q k x l IHl r IHr]; simpl in *; [done|].
        destruct Vl as (Hv & Hl & Hr). assert (v = 0%nat) as -> by lia. auto.
      * unfold contents. simpl. apply map_eq. intros k. by rewrite (to_bag_lookup hash), L, Em.
Qed.
End correctness.

Lemma bag_of_size es : (base.size (bag_of es) <= length es)%nat.
Proof.
  induction es as [|e es IH]; simpl; [by rewrite map_size_empty|].
  unfold bag_insert. rewrite map_size_insert. destruct (bag_of es !! e); simpl; lia.
Qed.

(** ** Properties *)

Section properties.
Context (hash : Z -> Z) `{HPH : !PerfectHash hash} (order : list nat -> bool) (fuel : nat)
  (room : processor -> bool).

#[local] Instance the_sequential : Interface sequential := Sequential hash order fuel room.

(** A database that was initialised and has served the requests [qs]. *)
Definition served (clients m : nat) (elems : list Z) (qs : list request) : res (unit * sequential) :=
  (Init (length elems) m elems;; serve_all qs) (new_sequential clients).

Lemma served_ok clients m elems qs :
  Forall u64 elems -> Forall request_u64 qs -> (length qs <= m)%nat -> (length elems + m < fuel)%nat ->
  exists s, served clients m elems qs = Ok (tt, s) /\ serving (hash := hash) m (bag_of elems) qs s /\
    query_processor_ s = accept_all room 1 qs (Start (new_processor clients)).
Proof.
  intros Hu Hq Hm Hf.
  destruct (init_ok (hash := hash) order fuel m (bag_of elems) (length elems) elems (new_sequential clients))
    as (s0 & E0 & Sv0 & P0); try done; [lia|by rewrite take_ge|].
  pose proof (bag_of_size elems).
  destruct (serve_all_ok (hash := hash) order fuel room m (bag_of elems) [] qs s0 Sv0) as (s & E & Sv & P);
    [done|done|lia|].
  exists s. split_and!; [|done|by rewrite P, P0].
  unfold served. by rewrite (sm_bind_ok _ _ _ _ _ E0).
Qed.
End properties.

(** C6: the sequential database implements its specification.  [Init] and every
    sequence of up to [m] requests run without error; the query processor is left
    with exactly the queries among them, each with the number of its version; and
    at any time from then on the answer to a query at version [v] is the counter
    of a key, or the sum of a range modulo [2^64], in the contents after the first
    [v] requests (a null pointer is dereferenced exactly when a point query asks
    for an absent key). *)
Theorem sequential_refines hash `{!PerfectHash hash} order fuel room clients m elems qs :
  Forall u64 elems -> Forall request_u64 qs -> (length qs <= m)%nat -> (length elems + m < fuel)%nat ->
  exists s, served hash order fuel room clients m elems qs = Ok (tt, s) /\
    query_processor_ s = accept_all room 1 qs (Start (new_processor clients)) /\
    forall (v : nat) l r, (v <= length qs)%nat ->
      processor_function_ fuel v l r s =
        match bag_answer (contents (bag_of elems) qs v) l r with
        | Some x => Ok (x, s)
        | None => Err NullDeref
        end.
Proof.
  intros Hu Hq Hm Hf. destruct (served_ok hash order fuel room clients m elems qs Hu Hq Hm Hf)
    as (s & E & Sv & P).
  exists s. split_and!; [done|done|]. intros v l r Hv. pose proof (bag_of_size elems).
  eapply (processor_function_ok (hash := hash)); [exact Sv|done|lia].
Qed.

Theorem sequential_refines_witness :
  let qs := [RInsert 5; RQuery 1 9; RDelete 7; RQuery 7 7] in
  exists s, served wrap64 alternating 20 (fun _ => true) 2 4 [7; 5; 7] qs = Ok (tt, s) /\
    query_processor_ s = accept_all (fun _ => true) 1 qs (Start (new_processor 2)) /\
    forall (v : nat) l r, (v <= length qs)%nat ->
      processor_function_ 20 v l r s =
        match bag_answer (contents (bag_of [7; 5; 7]) qs v) l r with
        | Some x => Ok (x, s)
        | None => Err NullDeref
        end.
Proof.
  intros qs. apply (sequential_refines wrap64).
  - repeat constructor; done.
  - repeat constructor; done.
  - simpl. lia.
  - simpl. lia.
Defined.

(** C21: the array of roots has room for the [m] requests announced to [Init] and
    no more: the next request, whatever it is, runs out of bounds. *)
Theorem sequential_out_of_bounds hash `{!PerfectHash hash} order fuel room clients m elems qs q :
  Forall u64 elems -> Forall request_u64 qs -> length qs = m -> request_u64 q ->
  (length elems + m + 1 < fuel)%nat ->
  served hash order fuel room clients m elems (qs ++ [q]) = Err BadPtr.
Proof.
  intros Hu Hq Hm Hq1 Hf.
  destruct (served_ok hash order fuel room clients m elems qs Hu Hq) as (s & E & Sv & _); [lia|lia|].
  pose proof (bag_of_size elems). assert (Sv' := Sv). destruct Sv' as [V L A R].
  assert (exists s1, Init (Interface := the_sequential hash order fuel room) (length elems) m elems
    (new_sequential clients) = Ok (tt, s1)) as [s1 E1].
  { unfold served, mbind, SM_bind in E. destruct (Init _ _ _ _) as [[[] s1]|]; [by exists s1|done]. }
  unfold served in *. rewrite (sm_bind_ok _ _ _ _ _ E1) in E. rewrite (sm_bind_ok _ _ _ _ _ E1).
  rewrite (serve_all_app _ [q] _ _ E). simpl. apply sm_bind_err.
  destruct (R (length qs)) as (p & Hp & t & Au & W & Vl & Vm & B); [done|].
  assert (TreapTree.size t < fuel)%nat as Hsz.
  { rewrite <- (size_to_bag hash t W), B. pose proof (contents_size (bag_of elems) qs (length qs)). lia. }
  assert (forall h s, length (roots_ s) = (m + 1)%nat -> put_root (S (length qs)) h s = Err BadPtr) as Hput.
  { intros x s' Hs'. unfold put_root. destruct (Nat.ltb_spec (S (length qs)) (length (roots_ s'))); [lia|done]. }
  assert (forall A (f : nat -> SM sequential A), (f (S (length qs))) (set_versions (S (length qs)) s) = Err BadPtr ->
    (next_version ≫= f) s = Err BadPtr) as Hnext.
  { intros X f Hf'. erewrite sm_bind_ok; [exact Hf'|]. unfold next_version. by rewrite V. }
  destruct q as [l r|k|k]; simpl; apply Hnext; simpl Nat.sub; rewrite Nat.sub_0_r;
    rewrite (sm_bind_ok _ _ _ p _) by (apply get_root_ok; exact Hp).
  - apply sm_bind_err. by apply Hput.
  - destruct (search_insert_spec fuel (S (length qs)) t p (hash k) k (sq_heap s) (sq_heap s)
      (auged_rep _ _ _ Au)) as (p' & h1 & E2 & _); [done|done|].
    rewrite (sm_bind_ok _ _ _ p' (set_heap h1 (set_versions (S (length qs)) s)))
      by (unfold in_heap; simpl; by rewrite E2).
    apply sm_bind_err. by apply Hput.
  - destruct (search_delete_spec fuel (S (length qs)) t p (hash k) k (sq_heap s) (sq_heap s)
      (auged_rep _ _ _ Au)) as (p' & h1 & E2 & _); [done|done|].
    rewrite (sm_bind_ok _ _ _ p' (set_heap h1 (set_versions (S (length qs)) s)))
      by (unfold in_heap; simpl; by rewrite E2).
    apply sm_bind_err. by apply Hput.
Qed.

Theorem sequential_out_of_bounds_witness :
  served wrap64 alternating 20 (fun _ => true) 2 2 [7; 5; 7] ([RInsert 5; RQuery 1 9] ++ [RDelete 7]) = Err BadPtr.
Proof.
  apply (sequential_out_of_bounds wrap64 alternating 20 (fun _ => true) 2 2 [7; 5; 7] [RInsert 5; RQuery 1 9] (RDelete 7)).
  - repeat constructor; done.
  - repeat constructor; done.
  - reflexivity.
  - done.
  - simpl. lia.
Defined.

(** A point query for a key that is not in the tree dereferences a null
    pointer: [find] returns [nullptr] for it and its [val] is read. *)
Theorem sequential_absent_key :
  (Init (Interface := the_sequential wrap64 alternating 20 (fun _ => true)) 2 1 [7; 5];;
   serve_all (Interface0 := the_sequential wrap64 alternating 20 (fun _ => true)) [RQuery 6 6];;
   processor_function_ 20 1 6 6) (new_sequential 2) = Err NullDeref.
Proof. vm_compute. reflexivity. Qed.
