(* ===== verification/YcsbUtils.v ===== *)
(** * Strings and numbers of the workload generator

    [src/ycsbc/core/utils.h], and the functions of the C++ library on strings and
    numbers that the generator and the drivers use ([std::to_string],
    [std::stoi], [std::strtoull]), in the "C" locale. *)

From S2P Require Import Prelude.
From Stdlib Require Import Ascii String.
From stdpp Require Import strings pretty.

#[local] Open Scope Z_scope.

(** ** Characters *)

(** [std::isspace]: space, \t, \n, \v, \f, \r. *)
Definition isspace (c : ascii) : bool :=
  let n := nat_of_ascii c in ((n =? 32) || ((9 <=? n) && (n <=? 13)))%nat.

(** The value of a decimal digit. *)
Definition digit (c : ascii) : option Z :=
  let n := Z.of_nat (nat_of_ascii c) in
  if (48 <=? n) && (n <=? 57) then Some (n - 48) else None.

(** [::tolower] *)
Definition tolower (c : ascii) : ascii :=
  let n := nat_of_ascii c in
  if ((65 <=? n) && (n <=? 90))%nat then ascii_of_nat (n + 32) else c.

Definition chars : string -> list ascii := list_ascii_of_string.
Definition of_chars : list ascii -> string := string_of_list_ascii.

Lemma of_chars_chars s : of_chars (chars s) = s.
Proof. apply string_of_list_ascii_of_string. Qed.

Lemma chars_of_chars l : chars (of_chars l) = l.
Proof. apply list_ascii_of_string_of_list_ascii. Qed.

Lemma chars_app s t : chars (s +:+ t) = chars s ++ chars t.
Proof. induction s as [|c s IH]; simpl; [done|]. unfold chars in *. simpl. by rewrite IH. Qed.

(** ** Numbers in strings *)

(** [std::to_string] of an unsigned number. *)
Definition to_string (x : Z) : string := pretty (Z.to_N x).

(** The leading digits of a string, after the value [acc] of those before; the
    flag says whether there was a digit. *)
Fixpoint parse_digits (acc : Z) (seen : bool) (l : list ascii) : Z * bool :=
  match l with
  | [] => (acc, seen)
  | c :: l' =>
      match digit c with
      | Some d => parse_digits (acc * 10 + d) true l'
      | None => (acc, seen)
      end
  end.

Fixpoint drop_spaces (l : list ascii) : list ascii :=
  match l with
  | c :: l' => if isspace c then drop_spaces l' else l
  | [] => []
  end.

(** An optional sign. *)
Definition take_sign (l : list ascii) : bool * list ascii :=
  match l with
  | c :: l' =>
      if decide (c = "-"%char) then (true, l')
      else if decide (c = "+"%char) then (false, l') else (false, l)
  | [] => (false, [])
  end.

(** [std::strtoull(s, &p, 10)]: saturates at the largest value; a minus sign
    negates modulo [2^64]; without digits the result is 0. *)
Definition strtoull (s : string) : Z :=
  let '(neg, l) := take_sign (drop_spaces (chars s)) in
  let '(x, _) := parse_digits 0 false l in
  if two64 <=? x then two64 - 1
  else if neg then wrap64 (- x) else x.

(** [std::stoi]: throws [invalid_argument] without digits, and [out_of_range]
    outside of [int]. *)
Definition stoi (s : string) : res Z :=
  let '(neg, l) := take_sign (drop_spaces (chars s)) in
  let '(x, seen) := parse_digits 0 false l in
  let y := if neg then - x else x in
  if negb seen then Err Thrown
  else if (- 2 ^ 31 <=? y) && (y <? 2 ^ 31) then Ok y else Err Thrown.

(** Conversion to [int]. *)
Definition to_int (x : Z) : Z := (x + 2 ^ 31) mod 2 ^ 32 - 2 ^ 31.

Lemma to_int_small x : - 2 ^ 31 <= x < 2 ^ 31 -> to_int x = x.
Proof. intros Hx. unfold to_int. rewrite Z.mod_small; lia. Qed.

(** ** utils.h *)

Definition kFNVOffsetBasis64 : Z := 0xCBF29CE484222325.
Definition kFNVPrime64 : Z := 1099511628211.

Fixpoint FNVHash64_loop (i : nat) (val hash : Z) : Z :=
  match i with
  | O => hash
  | S i =>
      let octet := Z.land val 0x00ff in
      let val := Z.shiftr val 8 in
      let hash := Z.lxor hash octet in
      let hash := wrap64 (hash * kFNVPrime64) in
      FNVHash64_loop i val hash
  end.

Definition FNVHash64 (val : Z) : Z := FNVHash64_loop 8 val kFNVOffsetBasis64.

Definition Hash (val : Z) : Z := FNVHash64 val.

(** [RandomPrintChar], given the number [rand()] returned. *)
Definition RandomPrintChar (rand : Z) : ascii := ascii_of_nat (Z.to_nat (Z.rem rand 94 + 33)).

Definition StrToBool (str : string) : res bool :=
  let str := of_chars (tolower <$> chars str) in
  if decide (str = "true" \/ str = "1") then Ok true
  else if decide (str = "false" \/ str = "0") then Ok false
  else Err Thrown.

Definition Trim (str : string) : string :=
  of_chars (reverse (drop_spaces (reverse (drop_spaces (chars str))))).

(** ** What they guarantee *)

Lemma FNVHash64_u64 val : u64 (FNVHash64 val).
Proof. unfold FNVHash64. simpl. auto with u64. Qed.

Lemma drop_spaces_suffix l : exists p, l = p ++ drop_spaces l /\ Forall (fun c => isspace c = true) p.
Proof.
  induction l as [|c l (p & E & Hp)]; simpl; [by exists []|].
  destruct (isspace c) eqn:Ec; [|by exists []]. exists (c :: p). simpl. rewrite <- E. auto.
Qed.

Lemma drop_spaces_head l c l' : drop_spaces l = c :: l' -> isspace c = false.
Proof.
  induction l as [|d l IH]; simpl; [done|]. destruct (isspace d) eqn:E; [apply IH|]. by intros [= -> ->].
Qed.

Lemma drop_spaces_idemp l : drop_spaces (drop_spaces l) = drop_spaces l.
Proof.
  destruct (drop_spaces l) as [|c l'] eqn:E; [done|]. simpl. by rewrite (drop_spaces_head _ _ _ E).
Qed.

(** A string without spaces around. *)
Definition trimmed (l : list ascii) : Prop := drop_spaces l = l /\ drop_spaces (reverse l) = reverse l.

Lemma Trim_trimmed_id s : trimmed (chars s) -> Trim s = s.
Proof.
  intros [H1 H2]. unfold Trim. rewrite H1, H2, reverse_involutive. apply of_chars_chars.
Qed.

Lemma Trim_trimmed s : trimmed (chars (Trim s)).
Proof.
  unfold Trim. rewrite chars_of_chars. set (l := drop_spaces (chars s)).
  assert (drop_spaces l = l) as Hl by apply drop_spaces_idemp. split.
  - destruct (drop_spaces_suffix (reverse l)) as (p & E & _).
    assert (l = reverse (drop_spaces (reverse l)) ++ reverse p) as E'.
    { rewrite <- reverse_app, <- E. by rewrite reverse_involutive. }
    destruct (reverse (drop_spaces (reverse l))) as [|c l'] eqn:Er; [done|].
    rewrite E' in Hl. simpl in Hl |- *. destruct (isspace c) eqn:Ec; [|done].
    exfalso. assert (length (drop_spaces (l' ++ reverse p)) <= length (l' ++ reverse p))%nat as Hle.
    { destruct (drop_spaces_suffix (l' ++ reverse p)) as (p' & E2 & _). rewrite E2 at 2.
      rewrite length_app. lia. }
    rewrite Hl in Hle. simpl in Hle. lia.
  - rewrite reverse_involutive. apply drop_spaces_idemp.
Qed.

(** Decimal printing is undone by parsing. *)
Lemma digit_pretty x : (x < 10)%N -> digit (pretty_N_char x) = Some (Z.of_N x).
Proof.
  intros Hx. assert (x = 0 \/ x = 1 \/ x = 2 \/ x = 3 \/ x = 4 \/ x = 5 \/ x = 6 \/ x = 7 \/ x = 8 \/ x = 9)%N
    as H by lia. by repeat destruct H as [->|H]; [..|subst x].
Qed.

Lemma parse_pretty_go x :
  exists d : nat, forall acc seen s, (0 < x)%N ->
    parse_digits acc seen (chars (pretty_N_go x s)) =
    parse_digits (acc * 10 ^ Z.of_nat d + Z.of_N x) true (chars s).
Proof.
  induction (N.lt_wf_0 x) as [x _ IH]. destruct (decide (0 < x)%N) as [Hx|]; [|exists 0%nat; lia].
  assert (x / 10 < x)%N as Hlt by (apply N.div_lt; lia). destruct (IH _ Hlt) as [d Hd].
  assert (Z.of_N x = Z.of_N (x / 10) * 10 + Z.of_N (x mod 10)) as Ex.
  { pose proof (N.div_mod x 10). rewrite <- N2Z.inj_mul with (m := 10%N), <- N2Z.inj_add. f_equal. lia. }
  assert (x mod 10 < 10)%N by (apply N.mod_lt; lia).
  destruct (decide (0 < x / 10)%N) as [Hq|Hq].
  - exists (S d). intros acc seen s _. rewrite pretty_N_go_step by done. rewrite Hd by done.
    unfold chars. simpl. rewrite digit_pretty by done.
    rewrite Nat2Z.inj_succ, Z.pow_succ_r by lia. f_equal. rewrite Ex. ring.
  - exists 1%nat. intros acc seen s _. rewrite pretty_N_go_step by done.
    assert (x / 10 = 0)%N as E0 by lia. rewrite E0, pretty_N_go_0. unfold chars. simpl.
    rewrite digit_pretty by done. f_equal. rewrite Ex, E0. lia.
Qed.

Lemma length_pretty_go n x s :
  (x < 10 ^ N.of_nat n)%N -> (length (chars (pretty_N_go x s)) <= n + length (chars s))%nat.
Proof.
  revert x s. induction n as [|n IH]; intros x s Hx.
  { assert (x = 0)%N as -> by (simpl in Hx; lia). by rewrite pretty_N_go_0. }
  destruct (decide (x = 0%N)) as [->|Hne]; [rewrite pretty_N_go_0; lia|].
  rewrite pretty_N_go_step by lia. etrans; [apply IH|simpl; lia].
  apply N.Div0.div_lt_upper_bound. rewrite Nat2N.inj_succ, N.pow_succ_r' in Hx. lia.
Qed.

(** A 64-bit number has at most 20 digits. *)
Lemma length_to_string x : u64 x -> (length (chars (to_string x)) <= 20)%nat.
Proof.
  intros Hx. unfold u64, two64 in Hx. unfold to_string, pretty, pretty_N.
  destruct (decide _); [simpl; lia|].
  etrans; [apply (length_pretty_go 20)|simpl; lia]. change (10 ^ N.of_nat 20)%N with 100000000000000000000%N. lia.
Qed.

Lemma parse_to_string x s :
  0 <= x -> parse_digits 0 false (chars (to_string x) ++ s) = parse_digits x true s.
Proof.
  intros Hx. unfold to_string, pretty, pretty_N.
  assert (forall n t, pretty_N_go n "" +:+ t = pretty_N_go n t) as Happ.
  { intros n. enough (forall u t, pretty_N_go n u +:+ t = pretty_N_go n (u +:+ t)) as H
      by (intros t; apply (H "")).
    induction (N.lt_wf_0 n) as [n _ IH]. intros u t.
    destruct (decide (0 < n)%N) as [Hn|].
    - rewrite !(pretty_N_go_step n) by done. rewrite IH by (apply N.div_lt; lia). done.
    - assert (n = 0)%N as -> by lia. by rewrite !pretty_N_go_0. }
  destruct (decide (Z.to_N x = 0%N)).
  - assert (x = 0) as -> by lia. done.
  - destruct (parse_pretty_go (Z.to_N x)) as [d Hd].
    rewrite <- (chars_of_chars s), <- chars_app, Happ, Hd by lia. f_equal. lia.
Qed.

Lemma digit_plain c d : digit c = Some d -> isspace c = false /\ c <> "-"%char /\ c <> "+"%char.
Proof.
  unfold digit, isspace. intros H.
  destruct (Z.leb_spec 48 (Z.of_nat (nat_of_ascii c))); [|done].
  destruct (Z.leb_spec (Z.of_nat (nat_of_ascii c)) 57); [|done]. split_and!.
  - destruct (Nat.eqb_spec (nat_of_ascii c) 32); [lia|]. simpl.
    destruct (Nat.leb_spec 9 (nat_of_ascii c)), (Nat.leb_spec (nat_of_ascii c) 13); simpl; lia || done.
  - intros ->. change (Z.of_nat (nat_of_ascii "-")) with 45 in *. lia.
  - intros ->. change (Z.of_nat (nat_of_ascii "+")) with 43 in *. lia.
Qed.

Lemma to_string_head x : 0 <= x -> exists c d l, chars (to_string x) = c :: l /\ digit c = Some d.
Proof.
  intros Hx. pose proof (parse_to_string x [] Hx) as H. rewrite app_nil_r in H.
  destruct (chars (to_string x)) as [|c l]; [done|]. simpl in H.
  destruct (digit c) as [d|] eqn:E; [by exists c, d, l|done].
Qed.

Lemma parse_zeros n seen l :
  parse_digits 0 seen (replicate n "0"%char ++ l) = parse_digits 0 (seen || (0 <? n)%nat) l.
Proof.
  revert seen. induction n as [|n IH]; intros seen; simpl; [by rewrite orb_false_r|].
  rewrite IH. f_equal. by destruct seen.
Qed.

(** Reading back a number that was printed, with zeros in front of it. *)
Lemma strtoull_padded n x :
  u64 x -> strtoull (of_chars (replicate n "0"%char) +:+ to_string x) = x.
Proof.
  intros [Hx Hlt]. unfold strtoull. rewrite chars_app, chars_of_chars.
  set (l := replicate n "0"%char ++ chars (to_string x)).
  assert (exists c d l', l = c :: l' /\ digit c = Some d) as (c & d & l' & El & Ed).
  { subst l. destruct n as [|n]; simpl; [by apply to_string_head|]. by eexists _, _, _. }
  destruct (digit_plain c d Ed) as (Hs & Hm & Hp).
  assert (take_sign (drop_spaces l) = (false, l)) as Et.
  { rewrite El. simpl. rewrite Hs. simpl. by rewrite !decide_False. }
  rewrite Et. subst l. rewrite parse_zeros.
  assert (forall b, parse_digits 0 b (chars (to_string x)) = (x, true)) as Hb.
  { intros b. pose proof (parse_to_string x [] Hx) as H. rewrite app_nil_r in H. simpl in H.
    destruct (to_string_head x Hx) as (c1 & d1 & l1 & E1 & D1). rewrite E1 in H |- *.
    simpl in *. by rewrite D1 in *. }
  rewrite Hb. destruct (Z.leb_spec two64 x); [lia|done].
Qed.

Lemma strtoull_to_string x : u64 x -> strtoull (to_string x) = x.
Proof. apply (strtoull_padded 0). Qed.

Lemma stoi_to_string x : 0 <= x < 2 ^ 31 -> stoi (to_string x) = Ok x.
Proof.
  intros Hx. unfold stoi. destruct (to_string_head x) as (c & d & l & E & Ed); [lia|].
  destruct (digit_plain c d Ed) as (Hs & Hm & Hp). pose proof (parse_to_string x [] ltac:(lia)) as Hq.
  rewrite app_nil_r in Hq. rewrite E in *. simpl drop_spaces. rewrite Hs. simpl take_sign.
  rewrite !decide_False by done. rewrite Hq. simpl.
  destruct (Z.leb_spec (-2 ^ 31) x); [|lia]. destruct (Z.ltb_spec x (2 ^ 31)); [done|lia].
Qed.
