(* ===== verification/YcsbProperties.v ===== *)
(** * Workload properties

    [src/ycsbc/core/properties.h]: a map from names to values, and its text form. *)

From S2P Require Import Prelude YcsbUtils.
From Stdlib Require Import Ascii String.
From stdpp Require Import gmap strings.

#[local] Open Scope Z_scope.

Record Properties := mk_properties { properties_ : gmap string string }.

Definition no_properties : Properties := mk_properties ∅.

Definition GetProperty (p : Properties) (key default_value : string) : string :=
  match properties_ p !! key with None => default_value | Some v => v end.

(** [operator[]] is [std::map::at]. *)
Definition at_property (p : Properties) (key : string) : res string :=
  match properties_ p !! key with Some v => Ok v | None => Err Thrown end.

Definition properties (p : Properties) : gmap string string := properties_ p.

Definition SetProperty (key value : string) (p : Properties) : Properties :=
  mk_properties (<[key := value]> (properties_ p)).

(** The part of a line before the first [=], and the part after it. *)
Fixpoint cut (l : list ascii) : option (list ascii * list ascii) :=
  match l with
  | [] => None
  | c :: l' =>
      if decide (c = "="%char) then Some ([], l')
      else ab ← cut l'; Some (c :: ab.1, ab.2)
  end.

(** The body of the loop of [Load]. *)
Definition Load_line (line : list ascii) (p : Properties) : Properties :=
  match line with
  | "#"%char :: _ => p
  | _ =>
      match cut line with
      | None => p
      | Some (k, v) => SetProperty (Trim (of_chars k)) (Trim (of_chars v)) p
      end
  end.

(** The lines [std::getline] returns until the end of the file is reached. *)
Fixpoint lines (l : list ascii) : list (list ascii) :=
  match l with
  | [] => [[]]
  | c :: l' =>
      match lines l' with
      | x :: xs => if decide (c = "010"%char) then [] :: x :: xs else (c :: x) :: xs
      | [] => []
      end
  end.

(** [Load]: [None] is a file that could not be opened. *)
Definition Load (input : option string) (p : Properties) : res (bool * Properties) :=
  match input with
  | None => Err Thrown
  | Some text => Ok (true, foldl (fun p line => Load_line line p) p (lines (chars text)))
  end.

(** ** Round trip *)

(** One property per line. *)
Definition show_line (kv : string * string) : list ascii :=
  chars kv.1 ++ "="%char :: chars kv.2 ++ ["010"%char].

Definition show (kvs : list (string * string)) : string := of_chars (concat (map show_line kvs)).

(** What can be written and read back. *)
Definition printable (kv : string * string) : Prop :=
  trimmed (chars kv.1) /\ trimmed (chars kv.2) /\
  Forall (fun c => c <> "="%char /\ c <> "010"%char) (chars kv.1) /\
  Forall (fun c => c <> "010"%char) (chars kv.2) /\
  head (chars kv.1) <> Some "#"%char.

Lemma cut_app k v : Forall (fun c => c <> "="%char) k -> cut (k ++ "="%char :: v) = Some (k, v).
Proof.
  induction k as [|c k IH]; intros Hk; simpl; [done|]. apply Forall_cons in Hk as [Hc Hk].
  rewrite decide_False by done. by rewrite IH.
Qed.

Lemma lines_nonempty l : lines l <> [].
Proof.
  induction l as [|c l IH]; simpl; [done|]. destruct (lines l); [done|]. by destruct (decide _).
Qed.

Lemma lines_app l r : Forall (fun c => c <> "010"%char) l -> lines (l ++ "010"%char :: r) = l :: lines r.
Proof.
  induction l as [|c l IH]; intros Hl.
  - simpl. destruct (lines r) eqn:E; [|done]. by apply lines_nonempty in E.
  - apply Forall_cons in Hl as [Hc Hl]. simpl. rewrite IH by done. by rewrite decide_False.
Qed.

Lemma Load_line_show kv p :
  printable kv -> Load_line (chars kv.1 ++ "="%char :: chars kv.2) p = SetProperty kv.1 kv.2 p.
Proof.
  intros (T1 & T2 & F1 & F2 & Hh).
  assert (cut (chars kv.1 ++ "="%char :: chars kv.2) = Some (chars kv.1, chars kv.2)) as Hc.
  { apply cut_app. eapply Forall_impl; [exact F1|]. by intros ? []. }
  unfold Load_line. rewrite Hc, !of_chars_chars, !Trim_trimmed_id by done.
  destruct (chars kv.1) as [|c k]; [done|]. simpl in Hh |- *.
  assert (c <> "#"%char) by congruence.
  by destruct c as [[] [] [] [] [] [] [] []].
Qed.

Lemma lines_show kvs :
  Forall printable kvs ->
  lines (concat (map show_line kvs)) = map (fun kv => chars kv.1 ++ "="%char :: chars kv.2) kvs ++ [[]].
Proof.
  induction kvs as [|kv kvs IH]; intros Hp; [done|]. apply Forall_cons in Hp as [Hkv Hp].
  destruct Hkv as (_ & _ & F1 & F2 & _). simpl. unfold show_line at 1.
  rewrite <- app_assoc, <- app_comm_cons, <- app_assoc. simpl.
  rewrite app_comm_cons, app_assoc, lines_app, IH by
    (done || (apply Forall_app; split; [eapply Forall_impl; [exact F1|]; by intros ? []|by constructor])).
  done.
Qed.

(** Writing properties one per line and loading the text gives them back: a
    later value of a name replaces an earlier one, and names not written keep the
    value they had. *)
Theorem Load_show (kvs : list (string * string)) (p : Properties) :
  Forall printable kvs ->
  Load (Some (show kvs)) p = Ok (true, foldl (fun p kv => SetProperty kv.1 kv.2 p) p kvs).
Proof.
  intros Hp. unfold Load, show. rewrite chars_of_chars, lines_show by done. f_equal. f_equal.
  rewrite foldl_app. simpl.
  revert p. induction kvs as [|kv kvs IH]; intros p; [done|]. apply Forall_cons in Hp as [Hkv Hp].
  simpl. rewrite Load_line_show by done. by apply IH.
Qed.

Definition spec_ex : list (string * string) :=
  [("recordcount", "1000"); ("requestdistribution", "zipfian"); ("recordcount", "20")]%string.

Theorem Load_show_witness :
  Load (Some (show spec_ex)) no_properties =
    Ok (true, foldl (fun p kv => SetProperty kv.1 kv.2 p) no_properties spec_ex).
Proof. apply Load_show. repeat constructor; vm_compute; congruence. Defined.
