(* ===== verification/ExportDb.v ===== *)
(** * The database interface of the workload generator, and its export database

    [src/ycsbc/core/db.h], [src/ycsbc/db/export.hpp] and
    [src/ycsbc/db/db_factory.hpp]: a "database" that writes the operations it is
    given to a file, in the binary format [src/main.cpp] reads (two counts, the
    keys, and 24-byte transaction records, all little-endian as on x86-64). *)

From S2P Require Import Prelude Database YcsbUtils YcsbProperties.
From Stdlib Require Import Ascii String.
From stdpp Require Import strings.

#[local] Open Scope Z_scope.

(** ** db.h *)

Definition KVPair : Type := string * string.

Definition kOK : Z := 0.
Definition kErrorNoData : Z := 1.
Definition kErrorConflict : Z := 2.

(** [result] is passed by reference: it is an argument and a result. *)
Class DB (St : Type) := {
  DB_Init : SM St unit;
  DB_Close : SM St unit;
  DB_Read : string -> string -> option (list string) -> list KVPair -> SM St (Z * list KVPair);
  DB_Scan : string -> string -> Z -> option (list string) -> list (list KVPair) ->
    SM St (Z * list (list KVPair));
  DB_Update : string -> string -> list KVPair -> SM St Z;
  DB_Insert : string -> string -> list KVPair -> SM St Z;
  DB_Delete : string -> string -> SM St Z;
}.

(** ** Bytes *)

Fixpoint le_bytes (n : nat) (x : Z) : list Z :=
  match n with O => [] | S n => x mod 256 :: le_bytes n (x / 256) end.

Fixpoint le_value (bs : list Z) : Z :=
  match bs with [] => 0 | b :: bs => b + 256 * le_value bs end.

Lemma length_le_bytes n x : length (le_bytes n x) = n.
Proof. revert x. induction n as [|n IH]; intros x; simpl; [done|]. by rewrite IH. Qed.

Lemma le_value_bytes n x : le_value (le_bytes n x) = x mod 256 ^ Z.of_nat n.
Proof.
  revert x. induction n as [|n IH]; intros x.
  - simpl. by rewrite Z.mod_1_r.
  - cbn [le_bytes le_value]. rewrite IH, Nat2Z.inj_succ, Z.pow_succ_r by lia.
    rewrite Z.rem_mul_r by lia. done.
Qed.

Lemma le_value_u64 x : u64 x -> le_value (le_bytes 8 x) = x.
Proof. intros Hx. rewrite le_value_bytes. apply Z.mod_small. exact Hx. Qed.

(** ** Transaction records *)

Record tx_context := mk_tx { tx_type : Z; tx_arg0 : Z; tx_arg1 : Z }.

Definition OP_QUERY : Z := 0.
Definition OP_INSERT : Z := 1.
Definition OP_DELETE : Z := 2.

(** [sizeof(tx_context)] *)
Definition tx_size : nat := 24.

(** The object representation: seven padding bytes follow the type. *)
Definition tx_bytes (pad : list Z) (tx : tx_context) : list Z :=
  tx_type tx :: pad ++ le_bytes 8 (tx_arg0 tx) ++ le_bytes 8 (tx_arg1 tx).

Definition tx_of_bytes (bs : list Z) : tx_context :=
  mk_tx (nth 0 bs 0) (le_value (take 8 (drop 8 bs))) (le_value (take 8 (drop 16 bs))).

Definition tx_ok (tx : tx_context) : Prop :=
  0 <= tx_type tx < 256 /\ u64 (tx_arg0 tx) /\ u64 (tx_arg1 tx).

Lemma length_tx_bytes pad tx : length pad = 7%nat -> length (tx_bytes pad tx) = tx_size.
Proof. intros Hp. unfold tx_bytes. rewrite length_cons, !length_app, Hp, !length_le_bytes. done. Qed.

Lemma tx_of_bytes_bytes pad tx : length pad = 7%nat -> tx_ok tx -> tx_of_bytes (tx_bytes pad tx) = tx.
Proof.
  intros Hp (_ & H0 & H1). unfold tx_of_bytes, tx_bytes.
  set (x := le_bytes 8 (tx_arg0 tx)). set (y := le_bytes 8 (tx_arg1 tx)).
  assert (length x = 8%nat) as Hx by apply length_le_bytes.
  assert (length y = 8%nat) as Hy by apply length_le_bytes.
  change (drop 8 (tx_type tx :: pad ++ x ++ y)) with (drop 7 (pad ++ x ++ y)).
  change (drop 16 (tx_type tx :: pad ++ x ++ y)) with (drop 15 (pad ++ x ++ y)).
  assert (drop 7 (pad ++ x ++ y) = x ++ y) as -> by (apply drop_app_length'; lia).
  assert (drop 15 (pad ++ x ++ y) = y) as ->
    by (rewrite (assoc_L (++)); apply drop_app_length'; rewrite length_app; lia).
  rewrite (take_app_length' x) by lia. rewrite (take_ge y) by lia.
  subst x y. rewrite !le_value_u64 by done. by destruct tx.
Qed.

(** ** export.hpp *)

Record Export := mk_export {
  fs_ : list Z;
  running_ : bool;
  inited_ : bool;
  num_records_ : Z;
  num_transactions_ : Z;
  update_delete_ : bool;
}.

Definition new_export (num_records num_transactions : Z) (update_delete : bool) : Export :=
  mk_export [] false false num_records num_transactions update_delete.

Definition set_running (b : bool) (e : Export) : Export :=
  mk_export (fs_ e) b (inited_ e) (num_records_ e) (num_transactions_ e) (update_delete_ e).
Definition set_inited (b : bool) (e : Export) : Export :=
  mk_export (fs_ e) (running_ e) b (num_records_ e) (num_transactions_ e) (update_delete_ e).

(** [fs_.write] *)
Definition write (bs : list Z) : SM Export unit := sm_modify (fun e =>
  mk_export (fs_ e ++ bs) (running_ e) (inited_ e) (num_records_ e) (num_transactions_ e)
    (update_delete_ e)).

(** [strtoull(str.c_str()+4, &p, 10)]: the first four characters are skipped, so that
    the terminating zero of a shorter string is passed over, and the conversion reads
    out of bounds. *)
Definition key_number (str : string) : Z := strtoull (of_chars (drop 4 (chars str))).

Definition long_key (str : string) : Prop := (4 <= length (chars str))%nat.

#[global] Instance long_key_dec str : Decision (long_key str).
Proof. unfold long_key. apply _. Defined.

Definition str2key_ (str : string) : res Z :=
  if decide (long_key str) then Ok (key_number str) else Err BadPtr.

Lemma str2key_long str : long_key str -> str2key_ str = Ok (key_number str).
Proof. intros H. unfold str2key_. by rewrite decide_True. Qed.

Section export.
(** The indeterminate padding of a record, which may depend on anything. *)
Context (pad : list Z -> list Z).

Definition write_tx (tx : tx_context) : SM Export unit :=
  e ← sm_get (fun e => e);
  write (tx_bytes (pad (fs_ e)) tx).

Definition export_insert_ (key : Z) : SM Export Z := write_tx (mk_tx OP_INSERT key key);; mret 0.
Definition export_delete_ (key : Z) : SM Export Z := write_tx (mk_tx OP_DELETE key key);; mret 0.
Definition export_query_ (l r : Z) : SM Export Z := write_tx (mk_tx OP_QUERY l r);; mret 0.

Definition Export_Init : SM Export unit :=
  e ← sm_get (fun e => e);
  if running_ e then sm_fail Aborted
  else
    sm_modify (set_running true);;
    if negb (inited_ e) then
      write (le_bytes 8 (num_records_ e));;
      write (le_bytes 8 (num_transactions_ e))
    else mret tt.

Definition Export_Close : SM Export unit :=
  sm_modify (set_inited true);;
  sm_modify (set_running false).

(** [if (!inited_) { ... abort(); }] *)
Definition check_inited : SM Export unit :=
  e ← sm_get (fun e => e);
  if inited_ e then mret tt else sm_fail Aborted.

Definition Export_Read (table key : string) (fields : option (list string)) (result : list KVPair) :
    SM Export (Z * list KVPair) :=
  check_inited;;
  k ← from_res (str2key_ key);
  s ← export_query_ k k;
  mret (s, result).

Definition Export_Scan (table key : string) (len : Z) (fields : option (list string))
    (result : list (list KVPair)) : SM Export (Z * list (list KVPair)) :=
  check_inited;;
  l ← from_res (str2key_ key);
  let r := wrap64 (l + (if 0 <? len then len - 1 else 0)) in
  s ← export_query_ l r;
  mret (s, result).

Definition Export_Update (table key : string) (values : list KVPair) : SM Export Z :=
  check_inited;;
  e ← sm_get (fun e => e);
  if update_delete_ e then k ← from_res (str2key_ key); export_delete_ k
  else k ← from_res (str2key_ key); export_insert_ k.

Definition Export_Insert (table key : string) (values : list KVPair) : SM Export Z :=
  e ← sm_get (fun e => e);
  if inited_ e then k ← from_res (str2key_ key); export_insert_ k
  else
    k ← from_res (str2key_ key);
    write (le_bytes 8 k);;
    mret 0.

Definition Export_Delete (table key : string) : SM Export Z :=
  check_inited;;
  k ← from_res (str2key_ key);
  export_delete_ k.

#[global] Instance ExportDB : DB Export := {
  DB_Init := Export_Init;
  DB_Close := Export_Close;
  DB_Read := Export_Read;
  DB_Scan := Export_Scan;
  DB_Update := Export_Update;
  DB_Insert := Export_Insert;
  DB_Delete := Export_Delete;
}.
End export.

(** ** db_factory.hpp *)

(** The name of the file and the database, or no database at all. *)
Definition CreateDB (props : Properties) : res (option (string * Export)) :=
  match at_property props "dbname" with
  | Err e => Err e
  | Ok dbname =>
      if decide (dbname = "export"%string) then
        match at_property props "filename",
              stoi (GetProperty props "recordcount" "0"),
              stoi (GetProperty props "operationcount" "0") with
        | Ok filename, Ok n, Ok m =>
            Ok (Some ("export/" +:+ filename +:+ ".data",
              new_export (wrap64 n) (wrap64 m)
                (bool_decide (GetProperty props "updatedelete" "false" = "true"))))
        | _, _, _ => Err Thrown
        end
      else Ok None
  end%string.
