(* ===== verification/Driver.v ===== *)
(** * The benchmark driver

    [src/main.cpp]: the command line, the workload file, and the loop that hands
    its transactions to a database. *)

From Stdlib Require Import Ascii String.
From stdpp Require Import strings.
From S2P Require Import Prelude YcsbUtils ExportDb Database.

#[local] Open Scope Z_scope.

(** ** The command line *)

Record options := mk_options {
  dbname : string;
  filename : string;
  num_threads : Z;
  num_clients : Z;
  batch_size : Z;
}.

Definition set_threads (n : Z) (o : options) : options :=
  mk_options (dbname o) (filename o) n (num_clients o) (batch_size o).
Definition set_clients (n : Z) (o : options) : options :=
  mk_options (dbname o) (filename o) (num_threads o) n (batch_size o).
Definition set_batch (n : Z) (o : options) : options :=
  mk_options (dbname o) (filename o) (num_threads o) (num_clients o) n.

(** [strncmp(s, "-", 1) == 0] *)
Definition dashed (s : string) : bool :=
  match s with String c _ => bool_decide (c = "-"%char) | EmptyString => false end.

(** The option a flag stands for: what the (converted) value is stored into. *)
Definition option_of (flag : string) : option (Z -> options -> options) :=
  if decide (flag = "-threads"%string) then Some set_threads
  else if decide (flag = "-clients"%string) then Some set_clients
  else if decide (flag = "-batchsize"%string) then Some (fun n => set_batch (if n =? 0 then 1 else n))
  else None.

(** The loop of [ParseCommandLine]; [ExitWithHint] leaves the program. *)
Fixpoint parse_options (args : list string) (o : options) : res options :=
  match args with
  | [] => Ok o
  | flag :: args =>
      if negb (dashed flag) then Err Exited
      else
        match option_of flag with
        | None => Err Exited
        | Some set =>
            match args with
            | [] => Err Exited
            | value :: args =>
                match stoi value with
                | Err e => Err e
                | Ok n => parse_options args (set (wrap64 n) o)
                end
            end
        end
  end.

(** [hardware] is [std::thread::hardware_concurrency()]. *)
Definition ParseCommandLine (hardware : Z) (argv : list string) : res options :=
  match argv with
  | _ :: db :: file :: args => parse_options args (mk_options db file hardware 1 1000)
  | _ => Err Exited
  end.

Inductive method := MSequential | MContreap | MPam.

Definition method_of (name : string) : res method :=
  if decide (name = "sequential"%string) then Ok MSequential
  else if decide (name = "contreap"%string) then Ok MContreap
  else if decide (name = "pam"%string) then Ok MPam
  else Err Exited.

(** ** The workload file *)

(** [fs.read] of [n] bytes; what a short file leaves in memory is indeterminate. *)
Definition read (n : nat) (bs : list Z) : res (list Z * list Z) :=
  if (n <=? length bs)%nat then Ok (take n bs, drop n bs) else Err BadPtr.

(** The bytes of an array of [n] objects of [size] bytes. *)
Fixpoint objects (size n : nat) (bs : list Z) : list (list Z) :=
  match n with O => [] | S n => take size bs :: objects size n (drop size bs) end.

Record workload := mk_workload { w_elems : list Z; w_txs : list tx_context }.

Definition load (bs : list Z) : res workload :=
  match read 8 bs with Err e => Err e | Ok (bn, bs) =>
  match read 8 bs with Err e => Err e | Ok (bm, bs) =>
  let n := Z.to_nat (le_value bn) in
  let m := Z.to_nat (le_value bm) in
  match read (n * 8) bs with Err e => Err e | Ok (belems, bs) =>
  match read (m * tx_size) bs with Err e => Err e | Ok (btxs, _) =>
  Ok (mk_workload (le_value <$> objects 8 n belems) (tx_of_bytes <$> objects tx_size m btxs))
  end end end end.

(** ** The transaction loop *)

Section run.
Context {St : Type} `{!Interface St}.

Definition transaction (tx : tx_context) : SM St unit :=
  if tx_type tx =? OP_QUERY then Query (tx_arg0 tx) (tx_arg1 tx);; mret tt
  else if tx_type tx =? OP_INSERT then Insert (tx_arg0 tx);; mret tt
  else if tx_type tx =? OP_DELETE then Delete (tx_arg0 tx);; mret tt
  else mret tt.

Fixpoint transactions (txs : list tx_context) : SM St unit :=
  match txs with
  | [] => mret tt
  | tx :: txs => transaction tx;; transactions txs
  end.

(** [main] on the contents [bs] of the workload file, once the database exists. *)
Definition process_file (bs : list Z) : SM St unit :=
  match load bs with
  | Err e => sm_fail e
  | Ok w =>
      Init (length (w_elems w)) (length (w_txs w)) (w_elems w);;
      transactions (w_txs w);;
      Close
  end.

(** The request a record stands for; other types are reported and skipped. *)
Definition request_of (tx : tx_context) : option request :=
  if tx_type tx =? OP_QUERY then Some (RQuery (tx_arg0 tx) (tx_arg1 tx))
  else if tx_type tx =? OP_INSERT then Some (RInsert (tx_arg0 tx))
  else if tx_type tx =? OP_DELETE then Some (RDelete (tx_arg0 tx))
  else None.

Lemma transactions_serve txs (s : St) : transactions txs s = serve_all (omap request_of txs) s.
Proof.
  revert s. induction txs as [|tx txs IH]; intros s; [done|]. cbn [transactions omap list_omap].
  unfold transaction, request_of.
  assert (forall m : SM St Z, ((m;; mret tt) ≫= fun _ => transactions txs) s =
    (m ≫= fun _ => serve_all (omap request_of txs)) s) as Hm.
  { intros m. unfold mbind, SM_bind. destruct (m s) as [[z s']|]; [|done]. apply IH. }
  destruct (tx_type tx =? OP_QUERY); [apply Hm|]. destruct (tx_type tx =? OP_INSERT); [apply Hm|].
  destruct (tx_type tx =? OP_DELETE); [apply Hm|]. apply IH.
Qed.
End run.

(** ** Round trips *)

(** The file of a workload; [pads] is the padding of each record. *)
Definition file_bytes (elems : list Z) (recs : list (list Z)) : list Z :=
  le_bytes 8 (Z.of_nat (length elems)) ++ le_bytes 8 (Z.of_nat (length recs)) ++
  concat (le_bytes 8 <$> elems) ++ concat recs.

Lemma read_app (n : nat) bs bs' : length bs = n -> read n (bs ++ bs') = Ok (bs, bs').
Proof.
  intros <-. unfold read. rewrite length_app. destruct (Nat.leb_spec (length bs) (length bs + length bs')); [|lia].
  by rewrite take_app_length, drop_app_length.
Qed.

Lemma objects_concat size (bss : list (list Z)) bs :
  Forall (fun b => length b = size) bss -> objects size (length bss) (concat bss ++ bs) = bss.
Proof.
  intros H. induction H as [|b bss Hb H IH]; simpl; [done|]. rewrite <- app_assoc.
  rewrite take_app_length', drop_app_length' by done. by rewrite IH.
Qed.

Lemma length_concat_const {A} size (bss : list (list A)) :
  Forall (fun b => length b = size) bss -> length (concat bss) = (length bss * size)%nat.
Proof. intros H. induction H as [|b bss Hb H IH]; simpl; [done|]. rewrite length_app. lia. Qed.

Lemma load_file elems recs :
  Forall u64 elems -> u64 (Z.of_nat (length elems)) -> u64 (Z.of_nat (length recs)) ->
  Forall (fun b => length b = tx_size) recs ->
  load (file_bytes elems recs) = Ok (mk_workload elems (tx_of_bytes <$> recs)).
Proof.
  intros Hu Hn Hm Hr. unfold load, file_bytes.
  rewrite read_app by apply length_le_bytes. rewrite read_app by apply length_le_bytes.
  rewrite !le_value_u64, !Nat2Z.id by done.
  assert (Forall (fun b => length b = 8%nat) (le_bytes 8 <$> elems)) as He.
  { apply Forall_fmap, Forall_forall. intros x _. apply length_le_bytes. }
  rewrite read_app by (rewrite (length_concat_const 8), length_fmap; done).
  rewrite <- (app_nil_r (concat recs)), read_app by (by rewrite (length_concat_const tx_size)).
  rewrite <- (app_nil_r (concat (le_bytes 8 <$> elems))), <- (length_fmap (le_bytes 8) elems).
  rewrite objects_concat by done. rewrite <- (app_nil_r (concat recs)), objects_concat by done.
  f_equal. f_equal. rewrite <- list_fmap_compose.
  clear -Hu. induction Hu as [|x xs Hx _ IH]; simpl; [done|]. f_equal; [by apply le_value_u64|done].
Qed.

(** ** From the export database to the driver *)

(** The operations a client performs on a database in its transaction phase. *)
Inductive db_op :=
  | ORead (table key : string) (fields : option (list string))
  | OScan (table key : string) (len : Z) (fields : option (list string))
  | OUpdate (table key : string) (values : list KVPair)
  | OInsert (table key : string) (values : list KVPair)
  | ODelete (table key : string).

Definition perform {St} `{!DB St} (op : db_op) : SM St Z :=
  match op with
  | ORead table key fields => r ← DB_Read table key fields []; mret r.1
  | OScan table key len fields => r ← DB_Scan table key len fields []; mret r.1
  | OUpdate table key values => DB_Update table key values
  | OInsert table key values => DB_Insert table key values
  | ODelete table key => DB_Delete table key
  end.

Fixpoint perform_all {St} `{!DB St} (ops : list db_op) : SM St unit :=
  match ops with [] => mret tt | op :: ops => perform op;; perform_all ops end.

(** The record [Export] writes for an operation. *)
Definition tx_of_op (update_delete : bool) (op : db_op) : tx_context :=
  match op with
  | ORead _ key _ => mk_tx OP_QUERY (key_number key) (key_number key)
  | OScan _ key len _ =>
      mk_tx OP_QUERY (key_number key) (wrap64 (key_number key + (if 0 <? len then len - 1 else 0)))
  | OUpdate _ key _ =>
      mk_tx (if update_delete then OP_DELETE else OP_INSERT) (key_number key) (key_number key)
  | OInsert _ key _ => mk_tx OP_INSERT (key_number key) (key_number key)
  | ODelete _ key => mk_tx OP_DELETE (key_number key) (key_number key)
  end.

Definition op_key (op : db_op) : string :=
  match op with
  | ORead _ key _ | OScan _ key _ _ | OUpdate _ key _ | OInsert _ key _ | ODelete _ key => key
  end.

Lemma strtoull_u64 s : u64 (strtoull s).
Proof.
  unfold strtoull. destruct (take_sign _) as [neg l].
  assert (forall acc b, 0 <= acc -> 0 <= (parse_digits acc b l).1) as Hpos.
  { induction l as [|c l IH]; intros acc b Hacc; simpl; [done|].
    destruct (digit c) as [d|] eqn:E; [|done]. apply IH. unfold digit in E.
    destruct (Z.leb_spec 48 (Z.of_nat (nat_of_ascii c))); [|done].
    destruct (Z.leb_spec (Z.of_nat (nat_of_ascii c)) 57); [|done]. simpl in E. simplify_eq. lia. }
  specialize (Hpos 0 false). destruct (parse_digits 0 false l) as [x b]. simpl in Hpos.
  destruct (Z.leb_spec two64 x); [by split|]. destruct neg; [auto with u64|]. split; [by apply Hpos|lia].
Qed.

Lemma key_number_u64 s : u64 (key_number s).
Proof. apply strtoull_u64. Qed.

Lemma tx_of_op_ok b op : tx_ok (tx_of_op b op).
Proof.
  destruct op; simpl; try (split_and!; simpl; [done|done|apply key_number_u64|apply key_number_u64]).
  - split_and!; simpl; [done|done|apply key_number_u64|auto with u64].
  - destruct b; (split_and!; simpl; [done|done|apply key_number_u64|apply key_number_u64]).
Qed.

(** Running an operation of the export database down to the number of its key. *)
Ltac perform_export :=
  cbv beta iota zeta delta [perform DB_Read DB_Scan DB_Update DB_Insert DB_Delete ExportDB
    Export_Read Export_Scan Export_Update Export_Insert Export_Delete check_inited from_res export_query_
    export_insert_ export_delete_ write_tx write sm_get sm_modify mbind SM_bind mret SM_ret inited_ update_delete_].

Section export_file.
Context (pad : list Z -> list Z) (Hpad : forall bs, length (pad bs) = 7%nat).

#[local] Instance this_export : DB Export := ExportDB pad.

Definition with_file (fs : list Z) (e : Export) : Export :=
  mk_export fs (running_ e) (inited_ e) (num_records_ e) (num_transactions_ e) (update_delete_ e).

(** Loading: the keys are appended as they come. *)
Lemma load_phase table (keys : list (string * list KVPair)) e :
  Forall long_key keys.*1 -> inited_ e = false ->
  perform_all (map (fun kv => OInsert table kv.1 kv.2) keys) e =
    Ok (tt, with_file (fs_ e ++ concat (le_bytes 8 <$> ((fun kv => key_number kv.1) <$> keys))) e).
Proof.
  revert e. induction keys as [|kv keys IH]; intros e Hk He.
  - simpl. rewrite app_nil_r. by destruct e.
  - apply Forall_cons_1 in Hk as [Hkv Hk]. cbn [map perform_all]. erewrite (sm_bind_ok _ _ e 0).
    2: { cbn [perform DB_Insert this_export ExportDB]. unfold Export_Insert.
         rewrite (sm_bind_ok _ _ e e e) by done. rewrite He, (str2key_long _ Hkv).
         reflexivity. }
    rewrite IH by done. f_equal. f_equal. unfold with_file. simpl. f_equal.
    by rewrite <- (assoc_L (++)).
Qed.

(** The transaction phase: one record for each operation. *)
Lemma transaction_phase ops e :
  Forall long_key (op_key <$> ops) -> inited_ e = true ->
  exists recs, perform_all ops e = Ok (tt, with_file (fs_ e ++ concat recs) e) /\
    tx_of_bytes <$> recs = tx_of_op (update_delete_ e) <$> ops /\
    Forall (fun b => length b = tx_size) recs.
Proof.
  revert e. induction ops as [|op ops IH]; intros e Hk He.
  - exists []. split_and!; try done. simpl. rewrite app_nil_r. by destruct e.
  - apply Forall_cons_1 in Hk as [Hop Hk].
    set (rec := tx_bytes (pad (fs_ e)) (tx_of_op (update_delete_ e) op)).
    destruct (IH (with_file (fs_ e ++ rec) e)) as (recs & E & Htx & Hlen); [done..|].
    exists (rec :: recs). split_and!.
    + cbn [perform_all]. rewrite (sm_bind_ok _ _ e 0 (with_file (fs_ e ++ rec) e)).
      * rewrite E. unfold with_file. cbn [fs_ running_ inited_ num_records_ num_transactions_ update_delete_].
        rewrite concat_cons. by rewrite <- (assoc_L (++)).
      * destruct e as [fs ru ini n m ud]. simpl in He. subst ini. subst rec. apply str2key_long in Hop.
        destruct op; cbv beta iota zeta delta [op_key] in Hop; unfold this_export; perform_export; rewrite Hop; try reflexivity.
        by destruct ud.
    + rewrite !fmap_cons. f_equal; [|exact Htx].
      apply tx_of_bytes_bytes; [apply Hpad|apply tx_of_op_ok].
    + constructor; [|done]. by apply length_tx_bytes.
Qed.

Definition export_run (table : string) (keys : list (string * list KVPair)) (ops : list db_op) : SM Export unit :=
  DB_Init;;
  perform_all (map (fun kv => OInsert table kv.1 kv.2) keys);;
  DB_Close;;
  DB_Init;;
  perform_all ops;;
  DB_Close.
End export_file.

Lemma export_run_loads (pad : list Z -> list Z) (table : string) (keys : list (string * list KVPair)) (ops : list db_op) (ud : bool) :
  (forall bs, length (pad bs) = 7%nat) -> Forall long_key keys.*1 -> Forall long_key (op_key <$> ops) ->
  u64 (Z.of_nat (length keys)) -> u64 (Z.of_nat (length ops)) ->
  exists e, export_run pad table keys ops
      (new_export (Z.of_nat (length keys)) (Z.of_nat (length ops)) ud) = Ok (tt, e) /\
    load (fs_ e) = Ok (mk_workload ((fun kv => key_number kv.1) <$> keys) (tx_of_op ud <$> ops)).
Proof.
  intros Hpad Hkeys Hops Hn Hm. unfold export_run. set (e0 := new_export _ _ _).
  set (e1 := mk_export (le_bytes 8 (num_records_ e0) ++ le_bytes 8 (num_transactions_ e0)) true false
    (num_records_ e0) (num_transactions_ e0) ud).
  rewrite (sm_bind_ok _ _ e0 tt e1) by done.
  rewrite (sm_bind_ok _ _ _ tt _) by by apply load_phase.
  set (e2 := with_file _ e1).
  rewrite (sm_bind_ok _ _ _ tt (set_running false (set_inited true e2))) by done.
  rewrite (sm_bind_ok _ _ _ tt (set_running true (set_inited true e2))) by done.
  destruct (transaction_phase pad Hpad ops (set_running true (set_inited true e2))) as (recs & E & Htx & Hlen);
    [done..|].
  rewrite (sm_bind_ok _ _ _ _ _ E). eexists. split; [reflexivity|].
  assert (length recs = length ops) as Hl.
  { apply (f_equal length) in Htx. by rewrite !length_fmap in Htx. }
  set (elems := (fun kv => key_number kv.1) <$> keys) in *.
  assert (length elems = length keys) as Hk by (subst elems; by rewrite length_fmap).
  assert (fs_ e2 ++ concat recs = file_bytes elems recs) as Ef.
  { unfold file_bytes. rewrite Hl, Hk. 
    change (fs_ e2) with ((le_bytes 8 (Z.of_nat (length keys)) ++ le_bytes 8 (Z.of_nat (length ops))) ++
      concat (le_bytes 8 <$> elems)). by rewrite <- !(assoc_L (++)). }
  cbn [fs_ with_file set_running set_inited]. rewrite Ef, load_file.
  - by rewrite Htx.
  - subst elems. apply Forall_fmap, Forall_forall. intros x _. apply key_number_u64.
  - by rewrite Hk.
  - by rewrite Hl.
  - done.
Qed.

(** C17: what the export database wrote is what the driver reads.  If the database
    is initialised, given the announced number of records, closed, opened again,
    given the announced number of operations and closed, then the file, read by
    [main], yields the keys in the order of insertion, and one transaction for
    each operation, in order; the padding bytes of the records do not matter.  Every
    key has at least four characters (a shorter one is read out of bounds), and the
    number of a key is what is written after its first four characters. *)
Theorem load_export (pad : list Z -> list Z) (table : string) (keys : list (string * list KVPair)) (ops : list db_op) (ud : bool) :
  (forall bs, length (pad bs) = 7%nat) -> Forall long_key keys.*1 -> Forall long_key (op_key <$> ops) ->
  u64 (Z.of_nat (length keys)) -> u64 (Z.of_nat (length ops)) ->
  exists e, export_run pad table keys ops
      (new_export (Z.of_nat (length keys)) (Z.of_nat (length ops)) ud) = Ok (tt, e) /\
    load (fs_ e) = Ok (mk_workload ((fun kv => key_number kv.1) <$> keys) (tx_of_op ud <$> ops)).
Proof. apply export_run_loads. Qed.

Theorem load_export_witness :
  exists e, export_run (fun _ => replicate 7 0) "t" [("user7", []); ("user05", [])]
      [ORead "t" "user7" None; OScan "t" "user3" 4 None; OUpdate "t" "user9" []; ODelete "t" "user5"]
      (new_export 2 4 false) = Ok (tt, e) /\
    load (fs_ e) = Ok (mk_workload [7; 5] [mk_tx 0 7 7; mk_tx 0 3 6; mk_tx 1 9 9; mk_tx 2 5 5]).
Proof.
  apply (load_export (fun _ => replicate 7 0) "t" [("user7", []); ("user05", [])]
    [ORead "t" "user7" None; OScan "t" "user3" 4 None; OUpdate "t" "user9" []; ODelete "t" "user5"] false).
  - done.
  - apply (bool_decide_unpack _). by vm_compute.
  - apply (bool_decide_unpack _). by vm_compute.
  - done.
  - done.
Defined.

(** A key of three characters is read past its end. *)
Theorem short_key_out_of_bounds (pad : list Z -> list Z) (table key : string) (e : Export) :
  ~ long_key key -> perform (DB0 := ExportDB pad) (OInsert table key []) e = Err BadPtr.
Proof.
  intros Hk. perform_export. assert (str2key_ key = Err BadPtr) as -> by (unfold str2key_; by rewrite decide_False).
  by destruct e as [fs ru [] n m ud].
Qed.

(** ** The command line *)

Inductive opt := OThreads (n : Z) | OClients (n : Z) | OBatchSize (n : Z).

Definition opt_value (o : opt) : Z := match o with OThreads n | OClients n | OBatchSize n => n end.

Definition show_opt (o : opt) : list string :=
  [match o with OThreads _ => "-threads" | OClients _ => "-clients" | OBatchSize _ => "-batchsize" end;
   to_string (opt_value o)]%string.

Definition apply_opt (os : options) (o : opt) : options :=
  match o with
  | OThreads n => set_threads n os
  | OClients n => set_clients n os
  | OBatchSize n => set_batch (Z.max 1 n) os
  end.

(** C22: the command line is read as it is meant: after the method and the file,
    options may come in any order and number, a later one overrides an earlier one,
    and a batch size of 0 counts as 1; anything else after them, a flag without
    value or an unknown flag ends the program with a hint. *)
Theorem ParseCommandLine_show hardware cmd db file (opts : list opt) (rest : list string) :
  Forall (fun o => 0 <= opt_value o < 2 ^ 31) opts ->
  ParseCommandLine hardware (cmd :: db :: file :: concat (map show_opt opts) ++ rest) =
    match rest with
    | [] => Ok (foldl apply_opt (mk_options db file hardware 1 1000) opts)
    | _ => parse_options rest (foldl apply_opt (mk_options db file hardware 1 1000) opts)
    end /\
  (forall flag rest', rest = flag :: rest' ->
     (dashed flag = false \/ option_of flag = None \/ rest' = []) ->
     ParseCommandLine hardware (cmd :: db :: file :: concat (map show_opt opts) ++ rest) = Err Exited).
Proof.
  intros Ho. unfold ParseCommandLine. set (o0 := mk_options db file hardware 1 1000). clearbody o0.
  assert (parse_options (concat (map show_opt opts) ++ rest) o0 =
    parse_options rest (foldl apply_opt o0 opts)) as E.
  { revert o0. induction Ho as [|o opts Hx Ho IH]; intros o0; [done|]. simpl concat.
    assert (wrap64 (opt_value o) = opt_value o) as Hw.
    { apply wrap64_small. unfold u64, two64. lia. }
    destruct o as [n|n|n]; cbn [show_opt app parse_options opt_value] in *; simpl;
      rewrite stoi_to_string by done; rewrite IH, Hw; try done.
    f_equal. simpl. f_equal. unfold apply_opt. destruct (Z.eqb_spec n 0) as [->|]; [done|].
    by rewrite Z.max_r by lia. }
  rewrite E. split; [by destruct rest|].
  intros flag rest' -> H. simpl. destruct (dashed flag) eqn:Hd; simpl; [|done].
  destruct H as [H|[H|H]]; [done|by rewrite H|]. rewrite H. by destruct (option_of flag).
Qed.

Theorem ParseCommandLine_show_witness :
  ParseCommandLine 8 ("main" :: "pam" :: "w.data" ::
      concat (map show_opt [OThreads 4; OBatchSize 0; OThreads 2]) ++ []) =
    Ok (foldl apply_opt (mk_options "pam" "w.data" 8 1 1000) [OThreads 4; OBatchSize 0; OThreads 2]) /\
  (forall flag rest', [] = flag :: rest' ->
     (dashed flag = false \/ option_of flag = None \/ rest' = []) ->
     ParseCommandLine 8 ("main" :: "pam" :: "w.data" ::
       concat (map show_opt [OThreads 4; OBatchSize 0; OThreads 2]) ++ []) = Err Exited).
Proof.
  apply (ParseCommandLine_show 8 "main" "pam" "w.data" [OThreads 4; OBatchSize 0; OThreads 2] []).
  repeat constructor; done.
Defined.
