(* ===== verification/Generators.v ===== *)
(** * Number generators of the workload generator

    [src/ycsbc/core/]: [counter_generator.h], [const_generator.h],
    [uniform_generator.h], [discrete_generator.h], [zipfian_generator.h],
    [scrambled_zipfian_generator.h], [skewed_latest_generator.h].

    Floating point numbers and the random engines of the C++ library are
    parameters: the classes [Doubles] and [Random]. *)

From S2P Require Import Prelude YcsbUtils.
From Stdlib Require Import String QArith Qpower Lqa.

#[local] Open Scope Z_scope.

(** ** The C++ library *)

(** [double]: [d_lit n k] is the decimal literal [n * 10^-k]. *)
Class Doubles := {
  double : Type;
  d_lit : Z -> nat -> double;
  d_of_Z : Z -> double;
  d_add : double -> double -> double;
  d_sub : double -> double -> double;
  d_mul : double -> double -> double;
  d_div : double -> double -> double;
  d_pow : double -> double -> double;
  d_lt : double -> double -> bool;
  d_to_Z : double -> Z;
  stod : string -> res double;
}.

(** [mt] is the state of a [std::mt19937_64], and [uniform_int] a draw from a
    [uniform_int_distribution] (both bounds included); [world] is the state of the
    static engine of [RandomDouble] and of [rand()]. *)
Class Random `{Doubles} := {
  mt : Type;
  mt_default : mt;
  uniform_int : Z -> Z -> mt -> Z * mt;
  world : Type;
  RandomDouble : world -> double * world;
  rand : world -> Z * world;
}.

Section generators.
Context `{HD : Doubles} `{HR : !Random}.

(** ** counter_generator.h *)

Record CounterGenerator := mk_counter { counter_ : Z }.

Definition Counter_Next (g : CounterGenerator) : Z * CounterGenerator :=
  (counter_ g, mk_counter (wrap64 (counter_ g + 1))).
Definition Counter_Last (g : CounterGenerator) : Z := wrap64 (counter_ g - 1).
Definition Counter_Set (start : Z) (g : CounterGenerator) : CounterGenerator := mk_counter start.

(** ** const_generator.h *)

Record ConstGenerator := mk_const { constant_ : Z }.

(** The constant is an [int], converted to [uint64_t]. *)
Definition new_const (constant : Z) : ConstGenerator := mk_const (wrap64 constant).
Definition Const_Next (g : ConstGenerator) : Z := constant_ g.
Definition Const_Last (g : ConstGenerator) : Z := constant_ g.

(** ** uniform_generator.h *)

Record UniformGenerator := mk_uniform {
  generator_ : mt;
  dist_ : Z * Z;
  last_int_ : Z;
}.

Definition Uniform_Next (g : UniformGenerator) : Z * UniformGenerator :=
  let (x, e) := uniform_int (dist_ g).1 (dist_ g).2 (generator_ g) in
  (x, mk_uniform e (dist_ g) x).
Definition Uniform_Last (g : UniformGenerator) : Z := last_int_ g.

(** A [uniform_int_distribution] must be given its bounds in order: that is an assertion
    of the library, and without assertions the behaviour is undefined. *)
Definition new_uniform (min max : Z) : res UniformGenerator :=
  if max <? min then Err AssertFail
  else Ok (Uniform_Next (mk_uniform mt_default (min, max) 0)).2.

Lemma new_uniform_ok min max g : new_uniform min max = Ok g -> min <= max /\ dist_ g = (min, max).
Proof.
  unfold new_uniform, Uniform_Next. destruct (Z.ltb_spec max min); [done|].
  destruct (uniform_int _ _ _). intros [= <-]. done.
Qed.

(** ** discrete_generator.h *)

Section discrete.
Context {Value : Type}.

Record DiscreteGenerator := mk_discrete {
  values_ : list (Value * double);
  sum_ : double;
  last_ : option Value;
}.

Definition new_discrete : DiscreteGenerator := mk_discrete [] (d_of_Z 0) None.

Definition AddValue (value : Value) (weight : double) (g : DiscreteGenerator) : DiscreteGenerator :=
  mk_discrete (values_ g ++ [(value, weight)]) (d_add (sum_ g) weight)
    (match values_ g with [] => Some value | _ => last_ g end).

(** The loop of [Next]. *)
Fixpoint Discrete_choose (sum chooser : double) (vs : list (Value * double)) : res Value :=
  match vs with
  | [] => Err AssertFail
  | p :: vs =>
      if d_lt chooser (d_div p.2 sum) then Ok p.1
      else Discrete_choose sum (d_sub chooser (d_div p.2 sum)) vs
  end.

Definition Discrete_Next (g : DiscreteGenerator) (w : world) : res (Value * DiscreteGenerator * world) :=
  let (chooser, w) := RandomDouble w in
  match Discrete_choose (sum_ g) chooser (values_ g) with
  | Err e => Err e
  | Ok v => Ok (v, mk_discrete (values_ g) (sum_ g) (Some v), w)
  end.

Definition Discrete_Last (g : DiscreteGenerator) : option Value := last_ g.
End discrete.

(** ** zipfian_generator.h *)

Definition kZipfianConst : double := d_lit 99 2.
Definition kMaxNumItems : Z := Z.shiftr (two64 - 1) 24.

Record ZipfianGenerator := mk_zipfian {
  num_items_ : Z;
  base_ : Z;
  theta_ : double;
  zeta_n_ : double;
  eta_ : double;
  alpha_ : double;
  zeta_2_ : double;
  n_for_zeta_ : Z;
  last_value_ : Z;
}.

(** The loop of [Zeta], [n] iterations from [i] on. *)
Fixpoint Zeta_loop (n : nat) (i : Z) (theta zeta : double) : double :=
  match n with
  | O => zeta
  | S n => Zeta_loop n (i + 1) theta (d_add zeta (d_div (d_of_Z 1) (d_pow (d_of_Z i) theta)))
  end.

Definition Zeta_from (last_num cur_num : Z) (theta last_zeta : double) : double :=
  Zeta_loop (Z.to_nat (cur_num - last_num)) (last_num + 1) theta last_zeta.

Definition Zeta (num : Z) (theta : double) : double := Zeta_from 0 num theta (d_of_Z 0).

Definition RaiseZeta (num : Z) (g : ZipfianGenerator) : res ZipfianGenerator :=
  if num <? n_for_zeta_ g then Err AssertFail
  else Ok (mk_zipfian (num_items_ g) (base_ g) (theta_ g)
             (Zeta_from (n_for_zeta_ g) num (theta_ g) (zeta_n_ g))
             (eta_ g) (alpha_ g) (zeta_2_ g) num (last_value_ g)).

Definition Eta (g : ZipfianGenerator) : double :=
  d_div (d_sub (d_of_Z 1) (d_pow (d_div (d_lit 2 0) (d_of_Z (num_items_ g))) (d_sub (d_of_Z 1) (theta_ g))))
        (d_sub (d_of_Z 1) (d_div (zeta_2_ g) (zeta_n_ g))).

Definition set_eta (e : double) (g : ZipfianGenerator) : ZipfianGenerator :=
  mk_zipfian (num_items_ g) (base_ g) (theta_ g) (zeta_n_ g) e (alpha_ g) (zeta_2_ g) (n_for_zeta_ g)
    (last_value_ g).
Definition set_last (v : Z) (g : ZipfianGenerator) : ZipfianGenerator :=
  mk_zipfian (num_items_ g) (base_ g) (theta_ g) (zeta_n_ g) (eta_ g) (alpha_ g) (zeta_2_ g)
    (n_for_zeta_ g) v.

(** The number [Next(num)] returns for the draw [u]. *)
Definition Zipfian_value (num : Z) (g : ZipfianGenerator) (u : double) : Z :=
  let uz := d_mul u (zeta_n_ g) in
  if d_lt uz (d_lit 1 0) then 0
  else if d_lt uz (d_add (d_lit 1 0) (d_pow (d_lit 5 1) (theta_ g))) then 1
  else d_to_Z (d_add (d_of_Z (base_ g))
         (d_mul (d_of_Z num)
           (d_pow (d_add (d_sub (d_mul (eta_ g) u) (eta_ g)) (d_of_Z 1)) (alpha_ g)))).

Definition Zipfian_Next_num (num : Z) (g : ZipfianGenerator) (w : world) : res (Z * ZipfianGenerator * world) :=
  if negb ((2 <=? num) && (num <? kMaxNumItems)) then Err AssertFail
  else
    match (if n_for_zeta_ g <? num
           then match RaiseZeta num g with Ok g => Ok (set_eta (Eta g) g) | Err e => Err e end
           else Ok g) with
    | Err e => Err e
    | Ok g =>
        let (u, w) := RandomDouble w in
        let v := Zipfian_value num g u in
        Ok (v, set_last v g, w)
    end.

Definition Zipfian_Next (g : ZipfianGenerator) (w : world) : res (Z * ZipfianGenerator * world) :=
  Zipfian_Next_num (num_items_ g) g w.

Definition Zipfian_Last (g : ZipfianGenerator) : Z := last_value_ g.

(** [last_value_] and [eta_] are not initialised before they are assigned; [0] is
    never read. *)
Definition new_zipfian (min max : Z) (zipfian_const : double) (w : world) : res (ZipfianGenerator * world) :=
  let n := wrap64 (max - min + 1) in
  if negb ((2 <=? n) && (n <? kMaxNumItems)) then Err AssertFail
  else
    let theta := zipfian_const in
    let g := mk_zipfian n min theta (d_of_Z 0) (d_of_Z 0)
               (d_div (d_lit 1 0) (d_sub (d_lit 1 0) theta)) (Zeta 2 theta) 0 0 in
    match RaiseZeta n g with
    | Err e => Err e
    | Ok g =>
        match Zipfian_Next (set_eta (Eta g) g) w with
        | Err e => Err e
        | Ok (_, g, w) => Ok (g, w)
        end
    end.

Definition new_zipfian_items (num_items : Z) : world -> res (ZipfianGenerator * world) :=
  new_zipfian 0 (wrap64 (num_items - 1)) kZipfianConst.

(** ** scrambled_zipfian_generator.h *)

Record ScrambledZipfianGenerator := mk_scrambled {
  s_base_ : Z;
  s_num_items_ : Z;
  s_generator_ : ZipfianGenerator;
}.

Definition new_scrambled (min max : Z) (zipfian_const : double) (w : world) :
    res (ScrambledZipfianGenerator * world) :=
  match new_zipfian min max zipfian_const w with
  | Err e => Err e
  | Ok (g, w) => Ok (mk_scrambled min (wrap64 (max - min + 1)) g, w)
  end.

Definition new_scrambled_items (num_items : Z) : world -> res (ScrambledZipfianGenerator * world) :=
  new_scrambled 0 (wrap64 (num_items - 1)) kZipfianConst.

Definition Scramble (value : Z) (g : ScrambledZipfianGenerator) : Z :=
  wrap64 (s_base_ g + FNVHash64 value mod s_num_items_ g).

Definition Scrambled_Next (g : ScrambledZipfianGenerator) (w : world) :
    res (Z * ScrambledZipfianGenerator * world) :=
  match Zipfian_Next (s_generator_ g) w with
  | Err e => Err e
  | Ok (v, z, w) => Ok (Scramble v g, mk_scrambled (s_base_ g) (s_num_items_ g) z, w)
  end.

Definition Scrambled_Last (g : ScrambledZipfianGenerator) : Z := Scramble (Zipfian_Last (s_generator_ g)) g.

(** ** skewed_latest_generator.h *)

(** The generator holds a reference to a counter, which is passed to it. *)
Record SkewedLatestGenerator := mk_skewed { zipfian_ : ZipfianGenerator; k_last_ : Z }.

Definition Skewed_Next (basis_ : CounterGenerator) (g : SkewedLatestGenerator) (w : world) :
    res (Z * SkewedLatestGenerator * world) :=
  let max := Counter_Last basis_ in
  match Zipfian_Next_num max (zipfian_ g) w with
  | Err e => Err e
  | Ok (v, z, w) => let x := wrap64 (max - v) in Ok (x, mk_skewed z x, w)
  end.

Definition Skewed_Last (g : SkewedLatestGenerator) : Z := k_last_ g.

Definition new_skewed (counter : CounterGenerator) (w : world) : res (SkewedLatestGenerator * world) :=
  match new_zipfian_items (Counter_Last counter) w with
  | Err e => Err e
  | Ok (z, w) =>
      match Skewed_Next counter (mk_skewed z 0) w with
      | Err e => Err e
      | Ok (_, g, w) => Ok (g, w)
      end
  end.

(** ** generator.h *)

(** An object of one of the classes derived from [Generator<uint64_t>]. *)
Inductive Generator :=
  | GCounter (g : CounterGenerator)
  | GConst (g : ConstGenerator)
  | GUniform (g : UniformGenerator)
  | GZipfian (g : ZipfianGenerator)
  | GScrambled (g : ScrambledZipfianGenerator)
  | GSkewed (g : SkewedLatestGenerator).

Definition Next (basis : CounterGenerator) (g : Generator) (w : world) : res (Z * Generator * world) :=
  match g with
  | GCounter g => let (x, g) := Counter_Next g in Ok (x, GCounter g, w)
  | GConst g => Ok (Const_Next g, GConst g, w)
  | GUniform g => let (x, g) := Uniform_Next g in Ok (x, GUniform g, w)
  | GZipfian g => match Zipfian_Next g w with Ok (x, g, w) => Ok (x, GZipfian g, w) | Err e => Err e end
  | GScrambled g => match Scrambled_Next g w with Ok (x, g, w) => Ok (x, GScrambled g, w) | Err e => Err e end
  | GSkewed g => match Skewed_Next basis g w with Ok (x, g, w) => Ok (x, GSkewed g, w) | Err e => Err e end
  end.

Definition Last (g : Generator) : Z :=
  match g with
  | GCounter g => Counter_Last g
  | GConst g => Const_Last g
  | GUniform g => Uniform_Last g
  | GZipfian g => Zipfian_Last g
  | GScrambled g => Scrambled_Last g
  | GSkewed g => Skewed_Last g
  end.
End generators.

(** ** Zipfian numbers *)

Section zipfian.
Context `{HD : Doubles} `{HR : !Random}.

Lemma Zeta_loop_app a b i theta z :
  Zeta_loop (a + b) i theta z = Zeta_loop b (i + Z.of_nat a) theta (Zeta_loop a i theta z).
Proof.
  revert i z. induction a as [|a IH]; intros i z; simpl.
  - by rewrite Z.add_0_r.
  - rewrite IH. f_equal. lia.
Qed.

Lemma Zeta_from_Zeta last_num num theta :
  0 <= last_num <= num -> Zeta_from last_num num theta (Zeta last_num theta) = Zeta num theta.
Proof.
  intros H. unfold Zeta, Zeta_from. rewrite !Z.sub_0_r, Z.add_0_l.
  replace (Z.to_nat num) with (Z.to_nat last_num + Z.to_nat (num - last_num))%nat by lia.
  rewrite Zeta_loop_app. f_equal. lia.
Qed.

(** The constants kept between calls are those of [n_for_zeta_] items. *)
Record zipfian_ok (g : ZipfianGenerator) : Prop := {
  zo_zeta : zeta_n_ g = Zeta (n_for_zeta_ g) (theta_ g);
  zo_zeta_2 : zeta_2_ g = Zeta 2 (theta_ g);
  zo_eta : eta_ g = Eta g;
  zo_n : 0 <= n_for_zeta_ g;
}.

Lemma RaiseZeta_ok num g :
  zeta_n_ g = Zeta (n_for_zeta_ g) (theta_ g) -> zeta_2_ g = Zeta 2 (theta_ g) ->
  0 <= n_for_zeta_ g <= num ->
  exists g', RaiseZeta num g = Ok g' /\ zipfian_ok (set_eta (Eta g') g') /\ n_for_zeta_ g' = num /\
    num_items_ g' = num_items_ g /\ base_ g' = base_ g /\ theta_ g' = theta_ g /\ alpha_ g' = alpha_ g.
Proof.
  intros Hz H2 Hn. unfold RaiseZeta. destruct (Z.ltb_spec num (n_for_zeta_ g)); [lia|].
  eexists. split; [reflexivity|]. split_and!; try done. split; simpl; try done; [|lia].
  rewrite Hz. by apply Zeta_from_Zeta.
Qed.

Lemma set_last_ok v g : zipfian_ok g -> zipfian_ok (set_last v g).
Proof. intros [A B C D]. by split. Qed.

(** What a call that is given [num] items does. *)
Lemma Zipfian_Next_ok num g w :
  zipfian_ok g -> 2 <= num < kMaxNumItems ->
  exists g', let (u, w') := RandomDouble w in
    Zipfian_Next_num num g w = Ok (Zipfian_value num g' u, g', w') /\ zipfian_ok g' /\
    n_for_zeta_ g' = Z.max num (n_for_zeta_ g) /\ num_items_ g' = num_items_ g /\ base_ g' = base_ g /\
    theta_ g' = theta_ g /\ alpha_ g' = alpha_ g /\ last_value_ g' = Zipfian_value num g' u.
Proof.
  intros Hg Hn. unfold Zipfian_Next_num.
  destruct (Z.leb_spec 2 num); [|lia]. destruct (Z.ltb_spec num kMaxNumItems); [simpl|lia].
  destruct (RandomDouble w) as [u w']. destruct (Z.ltb_spec (n_for_zeta_ g) num).
  - destruct Hg as [A B C D]. destruct (RaiseZeta_ok num g A B) as (g1 & E & Ok1 & F1 & F2 & F3 & F4 & F5); [lia|].
    rewrite E. set (g2 := set_eta (Eta g1) g1) in *.
    exists (set_last (Zipfian_value num g2 u) g2). split; [reflexivity|]. split; [by apply set_last_ok|].
    simpl. rewrite F1. split_and!; try done. lia.
  - exists (set_last (Zipfian_value num g u) g). split; [reflexivity|].
    split; [by apply set_last_ok|]. simpl. split_and!; try done. lia.
Qed.

Lemma Zipfian_Next_err num g w :
  ~ (2 <= num < kMaxNumItems) -> Zipfian_Next_num num g w = Err AssertFail.
Proof.
  intros Hn. unfold Zipfian_Next_num.
  destruct (Z.leb_spec 2 num); [|done]. destruct (Z.ltb_spec num kMaxNumItems); [lia|done].
Qed.

Lemma new_zipfian_ok min max c w :
  2 <= wrap64 (max - min + 1) < kMaxNumItems ->
  exists g w', new_zipfian min max c w = Ok (g, w') /\ zipfian_ok g /\
    num_items_ g = wrap64 (max - min + 1) /\ base_ g = min.
Proof.
  intros Hn. unfold new_zipfian. set (n := wrap64 (max - min + 1)) in *.
  destruct (Z.leb_spec 2 n); [|lia]. destruct (Z.ltb_spec n kMaxNumItems); [|lia]. cbn [negb andb].
  set (g0 := mk_zipfian _ _ _ _ _ _ _ _ _).
  destruct (RaiseZeta_ok n g0) as (g1 & E & Ok1 & F1 & F2 & F3 & F4 & F5); [done|done|simpl; lia|].
  rewrite E. pose proof (Zipfian_Next_ok n (set_eta (Eta g1) g1) w Ok1 Hn) as [g2 F6].
  destruct (RandomDouble w) as [u w']. destruct F6 as (E2 & Ok2 & _ & N2 & B2 & _).
  unfold Zipfian_Next. replace (num_items_ (set_eta (Eta g1) g1)) with n by (simpl; by rewrite F2).
  rewrite E2. exists g2, w'. split_and!; try done.
  - rewrite N2. simpl. by rewrite F2.
  - rewrite B2. simpl. by rewrite F3.
Qed.
End zipfian.

(** A zipfian generator recomputes its constants incrementally, and they are
    always those computed from scratch.  A generator over a range of 2 to
    [kMaxNumItems - 1] numbers is created without error, and every later call for
    such a number of items succeeds and draws from the distribution of the largest
    number of items seen so far; any other number of items fails the assertion. *)
Theorem zipfian_incremental `{HD : Doubles} `{HR : !Random} (g : ZipfianGenerator) (w : world) (num : Z) :
  (forall min max c, 2 <= wrap64 (max - min + 1) < kMaxNumItems ->
     exists g' w', new_zipfian min max c w = Ok (g', w') /\ zipfian_ok g') /\
  (zipfian_ok g -> 2 <= num < kMaxNumItems ->
     exists g', let (u, w') := RandomDouble w in
       Zipfian_Next_num num g w = Ok (Zipfian_value num g' u, g', w') /\ zipfian_ok g' /\
       n_for_zeta_ g' = Z.max num (n_for_zeta_ g)) /\
  (~ (2 <= num < kMaxNumItems) -> Zipfian_Next_num num g w = Err AssertFail).
Proof.
  split_and!.
  - intros min max c Hn. destruct (new_zipfian_ok min max c w Hn) as (g' & w' & E & O & _).
    by exists g', w'.
  - intros Hg Hn. destruct (Zipfian_Next_ok num g w Hg Hn) as [g' H]. exists g'.
    destruct (RandomDouble w). naive_solver.
  - apply Zipfian_Next_err.
Qed.

(** A scrambled number lies in the range the generator was made for. *)
Theorem scrambled_in_range `{HD : Doubles} `{HR : !Random} (g : ScrambledZipfianGenerator) (w : world) :
  0 < s_num_items_ g -> 0 <= s_base_ g -> s_base_ g + s_num_items_ g <= two64 ->
  s_base_ g <= Scrambled_Last g < s_base_ g + s_num_items_ g /\
  forall x g' w', Scrambled_Next g w = Ok (x, g', w') ->
    s_base_ g <= x < s_base_ g + s_num_items_ g /\ s_base_ g' = s_base_ g /\ s_num_items_ g' = s_num_items_ g.
Proof.
  intros Hn Hb Hs.
  assert (forall v, s_base_ g <= Scramble v g < s_base_ g + s_num_items_ g) as HS.
  { intros v. unfold Scramble. pose proof (Z.mod_pos_bound (FNVHash64 v) (s_num_items_ g) Hn).
    rewrite wrap64_small; [lia|]. unfold u64. lia. }
  split; [apply HS|]. intros x g' w'. unfold Scrambled_Next.
  destruct (Zipfian_Next (s_generator_ g) w) as [[[v z] w1]|]; [|done]. intros [= <- <- <-].
  split_and!; [apply HS|apply HS|done|done].
Qed.

(** ** Exact arithmetic

    Rational numbers, where nothing is rounded: an instance of the parameters for
    examples, and for results that hold up to rounding. *)

Definition exact_doubles : Doubles := {|
  double := Q;
  d_lit n k := (inject_Z n / inject_Z (10 ^ Z.of_nat k))%Q;
  d_of_Z := inject_Z;
  d_add := Qplus;
  d_sub := Qminus;
  d_mul := Qmult;
  d_div := Qdiv;
  d_pow x y := Qpower x (Qnum y / Zpos (Qden y));
  d_lt x y := negb (Qle_bool y x);
  d_to_Z x := Qnum x / Zpos (Qden x);
  stod s := match stoi s with Ok n => Ok (inject_Z n) | Err e => Err e end;
|}.

(** The draws are given in advance. *)
Definition listed_random : Random (H := exact_doubles) :=
  Build_Random exact_doubles (list Z) []
    (fun min max e => match e with x :: e => (min + x mod (max - min + 1), e) | [] => (min, []) end)
    (list Q)
    (fun w => match w with u :: w => (u, w) | [] => (0%Q, []) end)
    (fun w => (0, w)).

#[local] Existing Instance exact_doubles.
#[local] Existing Instance listed_random.

(** A zipfian generator may return a number below its range: made for the
    numbers from 1 to 10, it returns 0 whenever the draw is small enough, because
    the first two numbers are returned without adding [base_]. *)
Theorem zipfian_below_min :
  match new_zipfian (HD := exact_doubles) 1 10 (99 # 100)%Q [(1 # 2)%Q] with
  | Ok (g, _) =>
      base_ g = 1 /\ match Zipfian_Next g [(1 # 100)%Q] with Ok (x, _, _) => x = 0 | Err _ => False end
  | Err _ => False
  end.
Proof. vm_compute. split; reflexivity. Qed.

(** ** The discrete generator in exact arithmetic *)

Definition weights {V} (vs : list (V * Q)) : Q := foldr (fun p s => (p.2 + s)%Q) 0%Q vs.

(** [AddValue] for every element of a list. *)
Definition add_values {V} (vs : list (V * Q)) (g : DiscreteGenerator (Value := V)) : DiscreteGenerator (Value := V) :=
  foldl (fun g p => AddValue p.1 p.2 g) g vs.

Lemma add_values_spec {V} (vs : list (V * Q)) g :
  values_ (add_values vs g) = values_ g ++ vs /\ (sum_ (add_values vs g) == sum_ g + weights vs)%Q.
Proof.
  revert g. induction vs as [|p vs IH]; intros g; simpl.
  - rewrite app_nil_r. split; [done|]. symmetry. apply Qplus_0_r.
  - destruct (IH (AddValue (HD := exact_doubles) p.1 p.2 g)) as [E1 E2]. rewrite E1, E2. simpl. rewrite <- app_assoc.
    destruct p as [v x]. split; [done|]. symmetry. apply Qplus_assoc.
Qed.

Lemma Discrete_choose_exact {V} (vs : list (V * Q)) (s c : Q) :
  (0 < s)%Q -> (0 <= c)%Q -> (c * s < weights vs)%Q ->
  exists i p, vs !! i = Some p /\ Discrete_choose s c vs = Ok p.1 /\
    (weights (take i vs) <= c * s)%Q /\ (c * s < weights (take (S i) vs))%Q.
Proof.
  intros Hs. revert c. induction vs as [|p vs IH]; intros c Hc Hw.
  - exfalso. simpl in Hw. assert (0 <= c * s)%Q by (apply Qmult_le_0_compat; [done|by apply Qlt_le_weak]). lra.
  - assert (p.2 / s * s == p.2)%Q as Ep by (field; lra).
    cbn [Discrete_choose]. simpl d_lt. destruct (Qle_bool (p.2 / s) c) eqn:E; simpl negb; cbn iota.
    + apply Qle_bool_iff in E.
      assert (p.2 <= c * s)%Q as Hp.
      { rewrite <- Ep. apply Qmult_le_compat_r; [done|by apply Qlt_le_weak]. }
      assert ((c - p.2 / s) * s == c * s - p.2)%Q as Ec by (field; lra).
      destruct (IH (c - p.2 / s)%Q) as (i & q & Hi & Hq & H1 & H2).
      * lra.
      * rewrite Ec. simpl in Hw. lra.
      * exists (S i), q. split_and!; [done|exact Hq| |]; rewrite Ec in *; simpl in *; lra.
    + exists 0%nat, p. split_and!; [done|done| |].
      * simpl. apply Qmult_le_0_compat; [done|by apply Qlt_le_weak].
      * simpl. assert (c < p.2 / s)%Q as H.
        { apply Qnot_le_lt. intros H. apply Qle_bool_iff in H. congruence. }
        assert (c * s < p.2)%Q; [|lra]. rewrite <- Ep. by apply Qmult_lt_compat_r.
Qed.

(** Up to rounding, the discrete generator chooses by weight and never falls
    off its list: in exact arithmetic, with positive weights and a draw [u] from
    [0, 1), it returns the value whose share of the total weight, laid out in the
    order in which the values were added, contains [u]. *)
Theorem discrete_chooses {V} (vs : list (V * Q)) (u : Q) (w : list Q) :
  (0 < weights vs)%Q -> (0 <= u)%Q -> (u < 1)%Q ->
  exists i p g', vs !! i = Some p /\
    Discrete_Next (add_values vs new_discrete) (u :: w) = Ok (p.1, g', w) /\
    (weights (take i vs) <= u * weights vs)%Q /\ (u * weights vs < weights (take (S i) vs))%Q.
Proof.
  intros Hw Hu H1. destruct (add_values_spec vs new_discrete) as [Ev Es].
  assert (sum_ (add_values vs new_discrete) == weights vs)%Q as Es' by (rewrite Es; apply Qplus_0_l).
  destruct (Discrete_choose_exact vs (sum_ (add_values vs new_discrete)) u) as (i & p & Hi & E & H2 & H3).
  - by rewrite Es'.
  - done.
  - rewrite Es'. assert (u * weights vs < 1 * weights vs)%Q by (by apply Qmult_lt_compat_r). lra.
  - rewrite Es' in H2, H3. exists i, p. eexists. split_and!; [done| |done|done].
    unfold Discrete_Next. simpl RandomDouble. rewrite Ev. simpl app. rewrite E. reflexivity.
Qed.

Definition weights_ex : list (Z * Q) := [(7, (1 # 2)%Q); (5, (1 # 4)%Q)].

Theorem discrete_chooses_witness :
  exists i p g', weights_ex !! i = Some p /\
    Discrete_Next (add_values weights_ex new_discrete) [(3 # 4)%Q] = Ok (p.1, g', []) /\
    (weights (take i weights_ex) <= (3 # 4) * weights weights_ex)%Q /\
    ((3 # 4) * weights weights_ex < weights (take (S i) weights_ex))%Q.
Proof. apply (discrete_chooses weights_ex (3 # 4) []); vm_compute; congruence. Defined.

(** A scrambled generator for the numbers from 10 to 19. *)
Definition scrambled_ex : ScrambledZipfianGenerator :=
  mk_scrambled 10 10 (mk_zipfian 10 10 (99 # 100)%Q 1%Q 1%Q 1%Q 1%Q 10 4).

Theorem scrambled_in_range_witness :
  s_base_ scrambled_ex <= Scrambled_Last scrambled_ex < s_base_ scrambled_ex + s_num_items_ scrambled_ex /\
  forall x g' w', Scrambled_Next (HR := listed_random) scrambled_ex [(1 # 2)%Q] = Ok (x, g', w') ->
    s_base_ scrambled_ex <= x < s_base_ scrambled_ex + s_num_items_ scrambled_ex /\
    s_base_ g' = s_base_ scrambled_ex /\ s_num_items_ g' = s_num_items_ scrambled_ex.
Proof. apply (scrambled_in_range (HR := listed_random) scrambled_ex [(1 # 2)%Q]); simpl; [lia|lia|vm_compute; congruence]. Defined.

Theorem zipfian_incremental_witness :
  exists g w', new_zipfian (HD := exact_doubles) (HR := listed_random) 1 10 (99 # 100)%Q [(1 # 2)%Q] = Ok (g, w') /\
    zipfian_ok g.
Proof.
  apply (proj1 (zipfian_incremental (HR := listed_random) (s_generator_ scrambled_ex) [(1 # 2)%Q] 3)).
  vm_compute. split; congruence.
Defined.
