(* ===== verification/Workload.v ===== *)
(** * The core workload

    [src/ycsbc/core/core_workload.h]: the properties that describe a workload, the
    generators made from them, and the keys, fields and operations they produce. *)

From Stdlib Require Import Ascii String.
From stdpp Require Import strings.
From S2P Require Import Prelude YcsbUtils YcsbProperties Database ExportDb Generators.

#[local] Open Scope Z_scope.

(** ** Names and defaults of the properties *)

#[local] Open Scope string_scope.

Definition TABLENAME_PROPERTY : string := "table".
Definition TABLENAME_DEFAULT : string := "usertable".
Definition FIELD_COUNT_PROPERTY : string := "fieldcount".
Definition FIELD_COUNT_DEFAULT : string := "10".
Definition FIELD_LENGTH_DISTRIBUTION_PROPERTY : string := "field_len_dist".
Definition FIELD_LENGTH_DISTRIBUTION_DEFAULT : string := "constant".
Definition FIELD_LENGTH_PROPERTY : string := "fieldlength".
Definition FIELD_LENGTH_DEFAULT : string := "100".
Definition READ_ALL_FIELDS_PROPERTY : string := "readallfields".
Definition READ_ALL_FIELDS_DEFAULT : string := "true".
Definition WRITE_ALL_FIELDS_PROPERTY : string := "writeallfields".
Definition WRITE_ALL_FIELDS_DEFAULT : string := "false".
Definition READ_PROPORTION_PROPERTY : string := "readproportion".
Definition READ_PROPORTION_DEFAULT : string := "0.95".
Definition UPDATE_PROPORTION_PROPERTY : string := "updateproportion".
Definition UPDATE_PROPORTION_DEFAULT : string := "0.05".
Definition INSERT_PROPORTION_PROPERTY : string := "insertproportion".
Definition INSERT_PROPORTION_DEFAULT : string := "0.0".
Definition SCAN_PROPORTION_PROPERTY : string := "scanproportion".
Definition SCAN_PROPORTION_DEFAULT : string := "0.0".
Definition READMODIFYWRITE_PROPORTION_PROPERTY : string := "readmodifywriteproportion".
Definition READMODIFYWRITE_PROPORTION_DEFAULT : string := "0.0".
Definition REQUEST_DISTRIBUTION_PROPERTY : string := "requestdistribution".
Definition REQUEST_DISTRIBUTION_DEFAULT : string := "uniform".
Definition ZERO_PADDING_PROPERTY : string := "zeropadding".
Definition ZERO_PADDING_DEFAULT : string := "1".
Definition MAX_SCAN_LENGTH_PROPERTY : string := "maxscanlength".
Definition MAX_SCAN_LENGTH_DEFAULT : string := "1000".
Definition SCAN_LENGTH_DISTRIBUTION_PROPERTY : string := "scanlengthdistribution".
Definition SCAN_LENGTH_DISTRIBUTION_DEFAULT : string := "uniform".
Definition INSERT_ORDER_PROPERTY : string := "insertorder".
Definition INSERT_ORDER_DEFAULT : string := "hashed".
Definition INSERT_START_PROPERTY : string := "insertstart".
Definition INSERT_START_DEFAULT : string := "0".
Definition RECORD_COUNT_PROPERTY : string := "recordcount".
Definition OPERATION_COUNT_PROPERTY : string := "operationcount".

#[local] Close Scope string_scope.

Inductive Operation := INSERT | READ | UPDATE | SCAN | READMODIFYWRITE.

#[global] Instance operation_eq_dec : EqDecision Operation.
Proof. solve_decision. Defined.

Section workload.
Context `{HD : Doubles} `{HR : !Random}.

(** A null generator pointer is [None]; [world_] is the state of the random
    engines outside of the object. *)
Record CoreWorkload := mk_core {
  table_name_ : string;
  field_count_ : Z;
  read_all_fields_ : bool;
  write_all_fields_ : bool;
  field_len_generator_ : option Generator;
  key_generator_ : option Generator;
  op_chooser_ : DiscreteGenerator (Value := Operation);
  key_chooser_ : option Generator;
  field_chooser_ : option Generator;
  scan_len_chooser_ : option Generator;
  insert_key_sequence_ : CounterGenerator;
  ordered_inserts_ : bool;
  record_count_ : Z;
  zero_padding_ : Z;
  world_ : world;
}.

Definition new_core (w : world) : CoreWorkload :=
  mk_core "" 0 false false None None new_discrete None None None (mk_counter 3) true 0 0 w.

(** ** Making the generators *)

Definition GetFieldLenGenerator (p : Properties) (w : world) : res (Generator * world) :=
  let field_len_dist := GetProperty p FIELD_LENGTH_DISTRIBUTION_PROPERTY FIELD_LENGTH_DISTRIBUTION_DEFAULT in
  field_len ← stoi (GetProperty p FIELD_LENGTH_PROPERTY FIELD_LENGTH_DEFAULT);
  if decide (field_len_dist = "constant"%string) then mret (GConst (new_const field_len), w)
  else if decide (field_len_dist = "uniform"%string) then
    g ← new_uniform 1 (wrap64 field_len);
    mret (GUniform g, w)
  else if decide (field_len_dist = "zipfian"%string) then
    zw ← new_zipfian 1 (wrap64 field_len) kZipfianConst w;
    mret (GZipfian zw.1, zw.2)
  else Err Thrown.

(** [if (proportion > 0) op_chooser_.AddValue(op, proportion)] *)
Definition add_operation (op : Operation) (proportion : double) (g : DiscreteGenerator) : DiscreteGenerator :=
  if d_lt (d_of_Z 0) proportion then AddValue op proportion g else g.

(** The result of an [int] expression: overflow is undefined. *)
Definition checked_int (x : Z) : res Z :=
  if (x <? - 2 ^ 31) || (2 ^ 31 <=? x) then Err AssertFail else Ok x.

Definition Init (p : Properties) (c : CoreWorkload) : res CoreWorkload :=
  let table_name := GetProperty p TABLENAME_PROPERTY TABLENAME_DEFAULT in
  field_count ← stoi (GetProperty p FIELD_COUNT_PROPERTY FIELD_COUNT_DEFAULT);
  '(field_len_generator, w) ← GetFieldLenGenerator p (world_ c);
  read_proportion ← stod (GetProperty p READ_PROPORTION_PROPERTY READ_PROPORTION_DEFAULT);
  update_proportion ← stod (GetProperty p UPDATE_PROPORTION_PROPERTY UPDATE_PROPORTION_DEFAULT);
  insert_proportion ← stod (GetProperty p INSERT_PROPORTION_PROPERTY INSERT_PROPORTION_DEFAULT);
  scan_proportion ← stod (GetProperty p SCAN_PROPORTION_PROPERTY SCAN_PROPORTION_DEFAULT);
  readmodifywrite_proportion ←
    stod (GetProperty p READMODIFYWRITE_PROPORTION_PROPERTY READMODIFYWRITE_PROPORTION_DEFAULT);
  count ← stoi (GetProperty p RECORD_COUNT_PROPERTY "");
  let record_count := wrap64 count in
  let request_dist := GetProperty p REQUEST_DISTRIBUTION_PROPERTY REQUEST_DISTRIBUTION_DEFAULT in
  zero_padding ← stoi (GetProperty p ZERO_PADDING_PROPERTY ZERO_PADDING_DEFAULT);
  max_scan_len ← stoi (GetProperty p MAX_SCAN_LENGTH_PROPERTY MAX_SCAN_LENGTH_DEFAULT);
  let scan_len_dist := GetProperty p SCAN_LENGTH_DISTRIBUTION_PROPERTY SCAN_LENGTH_DISTRIBUTION_DEFAULT in
  insert_start ← stoi (GetProperty p INSERT_START_PROPERTY INSERT_START_DEFAULT);
  read_all ← StrToBool (GetProperty p READ_ALL_FIELDS_PROPERTY READ_ALL_FIELDS_DEFAULT);
  write_all ← StrToBool (GetProperty p WRITE_ALL_FIELDS_PROPERTY WRITE_ALL_FIELDS_DEFAULT);
  let ordered := negb (bool_decide (GetProperty p INSERT_ORDER_PROPERTY INSERT_ORDER_DEFAULT = "hashed"%string)) in
  let key_generator := GCounter (mk_counter (wrap64 insert_start)) in
  let op_chooser :=
    add_operation READMODIFYWRITE readmodifywrite_proportion
      (add_operation SCAN scan_proportion
        (add_operation INSERT insert_proportion
          (add_operation UPDATE update_proportion
            (add_operation READ read_proportion (op_chooser_ c))))) in
  let sequence := Counter_Set record_count (insert_key_sequence_ c) in
  '(key_chooser, w) ←
    (if decide (request_dist = "uniform"%string) then
       g ← new_uniform 0 (wrap64 (record_count - 1));
       mret (GUniform g, w)
     else if decide (request_dist = "zipfian"%string) then
       op_count ← stoi (GetProperty p OPERATION_COUNT_PROPERTY "");
       let new_keys := d_to_Z (d_mul (d_mul (d_of_Z op_count) insert_proportion) (d_of_Z 2)) in
       zw ← new_scrambled_items (wrap64 (record_count + new_keys)) w;
       mret (GScrambled zw.1, zw.2)
     else if decide (request_dist = "latest"%string) then
       zw ← new_skewed sequence w;
       mret (GSkewed zw.1, zw.2)
     else Err Thrown);
  last_field ← checked_int (field_count - 1);
  field_chooser ← new_uniform 0 (wrap64 last_field);
  '(scan_len_chooser, w) ←
    (if decide (scan_len_dist = "uniform"%string) then
       g ← new_uniform 1 (wrap64 max_scan_len);
       mret (GUniform g, w)
     else if decide (scan_len_dist = "zipfian"%string) then
       zw ← new_zipfian 1 (wrap64 max_scan_len) kZipfianConst w;
       mret (GZipfian zw.1, zw.2)
     else Err Thrown);
  mret (mk_core table_name field_count read_all write_all (Some field_len_generator) (Some key_generator)
          op_chooser (Some key_chooser) (Some (GUniform field_chooser)) (Some scan_len_chooser) sequence ordered
          record_count zero_padding w).

(** ** Assignments *)

Definition set_field_len (g : Generator) (w : world) (c : CoreWorkload) : CoreWorkload :=
  mk_core (table_name_ c) (field_count_ c) (read_all_fields_ c) (write_all_fields_ c) (Some g)
    (key_generator_ c) (op_chooser_ c) (key_chooser_ c) (field_chooser_ c) (scan_len_chooser_ c)
    (insert_key_sequence_ c) (ordered_inserts_ c) (record_count_ c) (zero_padding_ c) w.
Definition set_key_generator (g : Generator) (w : world) (c : CoreWorkload) : CoreWorkload :=
  mk_core (table_name_ c) (field_count_ c) (read_all_fields_ c) (write_all_fields_ c)
    (field_len_generator_ c) (Some g) (op_chooser_ c) (key_chooser_ c) (field_chooser_ c)
    (scan_len_chooser_ c) (insert_key_sequence_ c) (ordered_inserts_ c) (record_count_ c) (zero_padding_ c) w.
Definition set_key_chooser (g : Generator) (w : world) (c : CoreWorkload) : CoreWorkload :=
  mk_core (table_name_ c) (field_count_ c) (read_all_fields_ c) (write_all_fields_ c)
    (field_len_generator_ c) (key_generator_ c) (op_chooser_ c) (Some g) (field_chooser_ c)
    (scan_len_chooser_ c) (insert_key_sequence_ c) (ordered_inserts_ c) (record_count_ c) (zero_padding_ c) w.
Definition set_field_chooser (g : Generator) (w : world) (c : CoreWorkload) : CoreWorkload :=
  mk_core (table_name_ c) (field_count_ c) (read_all_fields_ c) (write_all_fields_ c)
    (field_len_generator_ c) (key_generator_ c) (op_chooser_ c) (key_chooser_ c) (Some g)
    (scan_len_chooser_ c) (insert_key_sequence_ c) (ordered_inserts_ c) (record_count_ c) (zero_padding_ c) w.
Definition set_scan_len (g : Generator) (w : world) (c : CoreWorkload) : CoreWorkload :=
  mk_core (table_name_ c) (field_count_ c) (read_all_fields_ c) (write_all_fields_ c)
    (field_len_generator_ c) (key_generator_ c) (op_chooser_ c) (key_chooser_ c) (field_chooser_ c)
    (Some g) (insert_key_sequence_ c) (ordered_inserts_ c) (record_count_ c) (zero_padding_ c) w.
Definition set_op_chooser (g : DiscreteGenerator) (w : world) (c : CoreWorkload) : CoreWorkload :=
  mk_core (table_name_ c) (field_count_ c) (read_all_fields_ c) (write_all_fields_ c)
    (field_len_generator_ c) (key_generator_ c) g (key_chooser_ c) (field_chooser_ c)
    (scan_len_chooser_ c) (insert_key_sequence_ c) (ordered_inserts_ c) (record_count_ c) (zero_padding_ c) w.
Definition set_world (w : world) (c : CoreWorkload) : CoreWorkload :=
  mk_core (table_name_ c) (field_count_ c) (read_all_fields_ c) (write_all_fields_ c)
    (field_len_generator_ c) (key_generator_ c) (op_chooser_ c) (key_chooser_ c) (field_chooser_ c)
    (scan_len_chooser_ c) (insert_key_sequence_ c) (ordered_inserts_ c) (record_count_ c) (zero_padding_ c) w.

(** [generator->Next()] *)
Definition next_of (get : CoreWorkload -> option Generator)
    (set : Generator -> world -> CoreWorkload -> CoreWorkload) : SM CoreWorkload Z := fun c =>
  match get c with
  | None => Err NullDeref
  | Some g =>
      match Next (insert_key_sequence_ c) g (world_ c) with
      | Err e => Err e
      | Ok (x, g, w) => Ok (x, set g w c)
      end
  end.

(** ** Operations *)

Definition NextTable : SM CoreWorkload string := sm_get table_name_.

Definition NextOperation : SM CoreWorkload Operation := fun c =>
  match Discrete_Next (op_chooser_ c) (world_ c) with
  | Err e => Err e
  | Ok (op, g, w) => Ok (op, set_op_chooser g w c)
  end.

Definition NextScanLength : SM CoreWorkload Z := next_of scan_len_chooser_ set_scan_len.

Definition next_print_char : SM CoreWorkload ascii := fun c =>
  let (r, w) := rand (world_ c) in Ok (RandomPrintChar r, set_world w c).

Definition BuildKeyName (key_num : Z) : SM CoreWorkload string :=
  c ← sm_get (fun c => c);
  let key_num := if negb (ordered_inserts_ c) then Hash key_num else key_num in
  let key_num_str := to_string key_num in
  let zeros := to_int (zero_padding_ c - Z.of_nat (length (chars key_num_str))) in
  let zeros := Z.max 0 zeros in
  mret ("user" +:+ of_chars (replicate (Z.to_nat zeros) "0"%char) +:+ key_num_str)%string.

Definition NextSequenceKey : SM CoreWorkload string :=
  key_num ← next_of key_generator_ set_key_generator;
  BuildKeyName key_num.

(** The loop draws until the key has been inserted; [fuel] bounds the draws. *)
Fixpoint NextTransactionKey_loop (fuel : nat) : SM CoreWorkload Z :=
  match fuel with
  | O => sm_fail OutOfFuel
  | S fuel =>
      key_num ← next_of key_chooser_ set_key_chooser;
      c ← sm_get (fun c => c);
      if Counter_Last (insert_key_sequence_ c) <? key_num then NextTransactionKey_loop fuel
      else mret key_num
  end.

Definition NextTransactionKey (fuel : nat) : SM CoreWorkload string :=
  key_num ← NextTransactionKey_loop fuel;
  BuildKeyName key_num.

Definition NextFieldName : SM CoreWorkload string :=
  x ← next_of field_chooser_ set_field_chooser;
  mret ("field" +:+ to_string x)%string.

(** [std::string::max_size()] of libstdc++. *)
Definition string_max_size : Z := 2 ^ 63 - 2.

(** A string of [n] copies of a random character: [append] throws [std::length_error] when
    the string would be longer than [max_size()]. *)
Definition random_field : SM CoreWorkload string :=
  n ← next_of field_len_generator_ set_field_len;
  ch ← next_print_char;
  if string_max_size <? n then sm_fail Thrown
  else mret (of_chars (replicate (Z.to_nat n) ch)).

(** The loop of [BuildValues], from [i] on. *)
Fixpoint BuildValues_loop (n : nat) (i : Z) : SM CoreWorkload (list KVPair) :=
  match n with
  | O => mret []
  | S n =>
      v ← random_field;
      vs ← BuildValues_loop n (i + 1);
      mret (("field" +:+ to_string i, v)%string :: vs)
  end.

Definition BuildValues (values : list KVPair) : SM CoreWorkload (list KVPair) :=
  c ← sm_get (fun c => c);
  vs ← BuildValues_loop (Z.to_nat (field_count_ c)) 0;
  mret (values ++ vs).

Definition BuildUpdate (update : list KVPair) : SM CoreWorkload (list KVPair) :=
  name ← NextFieldName;
  v ← random_field;
  mret (update ++ [(name, v)]).
End workload.

(** ** Repeating an operation *)

Fixpoint times {S A} (n : nat) (m : SM S A) : SM S (list A) :=
  match n with
  | O => mret []
  | S n => x ← m; xs ← times n m; mret (x :: xs)
  end.

(** ** Keys *)

Section keys.
Context `{HD : Doubles} `{HR : !Random}.

(** The name of a key. *)
Definition key_name (c : CoreWorkload) (k : Z) : string :=
  let k := if negb (ordered_inserts_ c) then Hash k else k in
  ("user" +:+ of_chars (replicate (Z.to_nat (Z.max 0
     (to_int (zero_padding_ c - Z.of_nat (length (chars (to_string k))))))) "0"%char) +:+ to_string k)%string.

Lemma BuildKeyName_name k c : BuildKeyName k c = Ok (key_name c k, c).
Proof. done. Qed.

Lemma chars_user s : drop 4 (chars ("user" +:+ s)) = chars s.
Proof. rewrite chars_app. done. Qed.

Lemma long_key_name c k : long_key (key_name c k).
Proof. unfold long_key, key_name. rewrite chars_app, length_app. simpl. lia. Qed.

Lemma key_number_name c k :
  u64 k -> key_number (key_name c k) = if ordered_inserts_ c then k else Hash k.
Proof.
  intros Hk. unfold key_number, key_name. rewrite chars_user, of_chars_chars, strtoull_padded.
  - by destruct (ordered_inserts_ c).
  - destruct (ordered_inserts_ c); [done|apply FNVHash64_u64].
Qed.

(** The key generator counts from [i], keys are chosen uniformly below [n]. *)
Record uniform_keys (n i : Z) (c : CoreWorkload) : Prop := {
  uk_counter : key_generator_ c = Some (GCounter (mk_counter i));
  uk_chooser : exists e x, key_chooser_ c = Some (GUniform (mk_uniform e (0, n - 1) x));
  uk_sequence : Counter_Last (insert_key_sequence_ c) = n - 1;
}.

(** What the C++ library promises of [uniform_int_distribution]. *)
Definition uniform_bounds : Prop :=
  forall a b e, a <= b -> a <= (uniform_int a b e).1 <= b.

Lemma stoi_range s n : stoi s = Ok n -> - 2 ^ 31 <= n < 2 ^ 31.
Proof.
  unfold stoi. destruct (take_sign _) as [neg l]. destruct (parse_digits _ _ _) as [x seen].
  destruct seen; simpl; [|done]. zcases; simpl; intros [= <-]; lia.
Qed.

Lemma Init_uniform p w c n i :
  Init p (new_core w) = Ok c ->
  GetProperty p REQUEST_DISTRIBUTION_PROPERTY REQUEST_DISTRIBUTION_DEFAULT = "uniform"%string ->
  stoi (GetProperty p RECORD_COUNT_PROPERTY "") = Ok n -> 0 < n ->
  stoi (GetProperty p INSERT_START_PROPERTY INSERT_START_DEFAULT) = Ok i ->
  uniform_keys n (wrap64 i) c.
Proof.
  intros HI Hd Hn Hpos Hi. pose proof (stoi_range _ _ Hn) as Hr. unfold Init in HI.
  rewrite Hd, Hn, Hi in HI. res_inv. all: try done.
  all: assert (wrap64 n = n) as En by (apply wrap64_small; unfold u64, two64; lia).
  all: assert (wrap64 (n - 1) = n - 1) as En1 by (apply wrap64_small; unfold u64, two64; lia).
  all: split; simpl; [done| |unfold Counter_Last; simpl; by rewrite En].
  all: repeat match goal with
    | H : new_uniform _ _ = Ok ?g |- _ => apply new_uniform_ok in H as [_ H]; destruct g; simpl in H; subst
    end; rewrite En, En1; by eexists _, _.
Qed.

Lemma key_name_ext c c' k :
  ordered_inserts_ c' = ordered_inserts_ c -> zero_padding_ c' = zero_padding_ c -> key_name c' k = key_name c k.
Proof. unfold key_name. by intros -> ->. Qed.

Lemma times_sequence m n i c :
  uniform_keys n i c -> 0 <= i -> i + Z.of_nat m < two64 ->
  exists c', times m NextSequenceKey c = Ok (map (key_name c) (seqZ i (Z.of_nat m)), c') /\
    uniform_keys n (i + Z.of_nat m) c' /\
    ordered_inserts_ c' = ordered_inserts_ c /\ zero_padding_ c' = zero_padding_ c.
Proof.
  revert i c. induction m as [|m IH]; intros i c Hc Hi Hm.
  { exists c. rewrite Z.add_0_r. done. }
  destruct Hc as [Hg (e & x & Hk) Hs].
  set (c1 := set_key_generator (GCounter (mk_counter (wrap64 (i + 1)))) (world_ c) c).
  assert (NextSequenceKey c = Ok (key_name c i, c1)) as E1.
  { unfold NextSequenceKey, next_of. unfold mbind, SM_bind. rewrite Hg. done. }
  assert (wrap64 (i + 1) = i + 1) as Ew by (apply wrap64_small; unfold u64; lia).
  destruct (IH (i + 1) c1) as (c' & E & Hu & Ho & Hz); [ |lia|lia| ].
  { split; simpl; [by rewrite Ew|by exists e, x|done]. }
  exists c'. cbn [times]. rewrite (sm_bind_ok _ _ _ _ _ E1), (sm_bind_ok _ _ _ _ _ E).
  split; [|split; [|done]].
  - rewrite Nat2Z.inj_succ, (seqZ_cons i) by lia. cbn [map]. rewrite Z.pred_succ.
    done.
  - by replace (i + Z.of_nat (S m)) with (i + 1 + Z.of_nat m) by lia.
Qed.

(** With uniformly chosen keys the loop of [NextTransactionKey] ends at the first draw. *)
Lemma NextTransactionKey_uniform f n i c :
  uniform_bounds -> uniform_keys n i c -> 0 < n ->
  exists j e, 0 <= j < n /\
    NextTransactionKey (S f) c =
      Ok (key_name c j, set_key_chooser (GUniform (mk_uniform e (0, n - 1) j)) (world_ c) c).
Proof.
  intros HU [Hg (e & x & Hk) Hs] Hn. pose proof (HU 0 (n - 1) e ltac:(lia)) as Hb.
  destruct (uniform_int 0 (n - 1) e) as [y e'] eqn:EU. simpl in Hb. exists y, e'. split; [lia|].
  set (c1 := set_key_chooser _ _ _).
  assert (next_of key_chooser_ set_key_chooser c = Ok (y, c1)) as E0.
  { unfold next_of. rewrite Hk. simpl. unfold Uniform_Next. simpl. by rewrite EU. }
  unfold NextTransactionKey. cbn [NextTransactionKey_loop].
  rewrite (sm_bind_ok _ _ _ y c1); [done|]. rewrite (sm_bind_ok _ _ _ _ _ E0).
  unfold mbind, SM_bind, sm_get. simpl. rewrite Hs. destruct (Z.ltb_spec (n - 1) y); [lia|done].
Qed.

Lemma times_transaction k n i c :
  uniform_bounds -> uniform_keys n i c -> 0 < n ->
  exists keys c', times k (NextTransactionKey 1) c = Ok (keys, c') /\ length keys = k /\
    Forall (fun s => exists j, 0 <= j < n /\ s = key_name c j) keys.
Proof.
  intros HU. revert c. induction k as [|k IH]; intros c Hc Hn.
  { by exists [], c. }
  destruct (NextTransactionKey_uniform 0 n i c HU Hc Hn) as (y & e' & Hy & E1).
  set (c1 := set_key_chooser _ _ _) in E1.
  destruct (IH c1) as (keys & c' & E & El & Hf); [|done|].
  { destruct Hc. split; simpl; [done|by exists e', y|done]. }
  exists (key_name c y :: keys), c'. cbn [times].
  rewrite (sm_bind_ok _ _ _ _ _ E1), (sm_bind_ok _ _ _ _ _ E).
  split; [done|split; [by rewrite <-El|]]. constructor; [by exists y|].
  eapply List.Forall_impl; [ |exact Hf]. intros s (j & Hj & ->). exists j. by split.
Qed.

(** The name of a key can be read back: for every 64-bit number, the name has the
    prefix [user], at least [zero_padding_] digits (unless that number is close to the
    lowest [int]), and [str2key_] of the exporting database gives the number of the key,
    hashed if the inserts are not ordered. *)
Theorem key_name_read_back (c : CoreWorkload) (k : Z) :
  u64 k -> - 2 ^ 31 + 20 <= zero_padding_ c < 2 ^ 31 ->
  exists s, BuildKeyName k c = Ok (s, c) /\
    str2key_ s = Ok (if ordered_inserts_ c then k else Hash k) /\
    take 4 (chars s) = chars "user" /\ zero_padding_ c + 4 <= Z.of_nat (length (chars s)).
Proof.
  intros Hk Hz. exists (key_name c k). split; [apply BuildKeyName_name|].
  split; [by rewrite str2key_long, key_number_name by (done || apply long_key_name)|]. unfold key_name.
  set (x := if negb (ordered_inserts_ c) then Hash k else k).
  assert (u64 x) as Hx by (subst x; destruct (ordered_inserts_ c); [done|apply FNVHash64_u64]).
  pose proof (length_to_string x Hx). rewrite to_int_small by lia.
  rewrite !chars_app, chars_of_chars, !length_app, length_replicate.
  split; [done|]. change (length (chars "user")) with 4%nat. lia.
Qed.

(** A negative field length is converted to a number of [uint64_t] close to 2^64, and the
    first field that is built throws. *)
Theorem negative_field_length (c : CoreWorkload) (n : Z) :
  - 2 ^ 31 <= n < 0 -> field_len_generator_ c = Some (GConst (new_const n)) -> random_field c = Err Thrown.
Proof.
  intros Hn Hg. unfold random_field, next_of, next_print_char, mbind, SM_bind. rewrite Hg. simpl.
  destruct (rand (world_ c)) as [r w]. unfold Const_Next, new_const, wrap64, string_max_size. simpl.
  destruct (Z.ltb_spec (2 ^ 63 - 2) (n mod two64)) as [_|H]; [done|].
  rewrite (Z.mod_eq n two64) in H by done. assert (n / two64 = -1) as E.
  { symmetry. apply (Z.div_unique _ _ _ (n + two64)); unfold two64; lia. }
  rewrite E in H. unfold two64 in H. lia.
Qed.

(** C20: after the initialisation with uniformly chosen keys starting at 0, the loading
    phase produces the names of the keys [0 .. recordcount-1], in this order, and
    every transaction key, however many are drawn, is one of them, found at the first
    draw of the loop. *)
Theorem transaction_keys_loaded (p : Properties) (w : world) (c : CoreWorkload) (n : Z) (k : nat) :
  uniform_bounds ->
  Init p (new_core w) = Ok c ->
  GetProperty p REQUEST_DISTRIBUTION_PROPERTY REQUEST_DISTRIBUTION_DEFAULT = "uniform"%string ->
  stoi (GetProperty p RECORD_COUNT_PROPERTY "") = Ok n -> 0 < n ->
  stoi (GetProperty p INSERT_START_PROPERTY INSERT_START_DEFAULT) = Ok 0 ->
  exists loaded c1 keys c2,
    times (Z.to_nat n) NextSequenceKey c = Ok (loaded, c1) /\
    loaded = map (key_name c) (seqZ 0 n) /\
    times k (NextTransactionKey 1) c1 = Ok (keys, c2) /\
    length keys = k /\ Forall (fun s => s ∈ loaded) keys.
Proof.
  intros HU HI Hd Hn Hpos Hi. pose proof (Init_uniform _ _ _ _ _ HI Hd Hn Hpos Hi) as Hu.
  pose proof (stoi_range _ _ Hn) as Hr.
  destruct (times_sequence (Z.to_nat n) n 0 c) as (c1 & E1 & Hu1 & Ho & Hz);
    [done|lia|unfold two64; lia|]. rewrite Z2Nat.id in E1, Hu1 by lia.
  destruct (times_transaction k n _ c1 HU Hu1 Hpos) as (keys & c2 & E2 & El & Hf).
  exists (map (key_name c) (seqZ 0 n)), c1, keys, c2. do 4 (split; [done|]).
  eapply List.Forall_impl; [ |exact Hf]. intros s (j & Hj & ->).
  rewrite (key_name_ext c c1) by done. apply list_elem_of_fmap. exists j. split; [done|].
  apply elem_of_seqZ. lia.
Qed.
End keys.

(** ** Examples *)

Definition core_ex : CoreWorkload (HD := exact_doubles) (HR := listed_random) :=
  mk_core (HD := exact_doubles) (HR := listed_random) "usertable" 10 true false None None
    (new_discrete (HD := exact_doubles)) None None None (mk_counter 3) true 3 6 [].

Theorem key_name_read_back_witness :
  exists s, BuildKeyName 42 core_ex = Ok (s, core_ex) /\ str2key_ s = Ok 42.
Proof.
  destruct (key_name_read_back core_ex 42) as (s & E & Ek & _); [by vm_compute|by vm_compute|].
  by exists s.
Defined.

(** The proportions of the operations have to be readable as integers here. *)
Definition props_ex : Properties := mk_properties (list_to_map
  [(RECORD_COUNT_PROPERTY, "3"); (READ_PROPORTION_PROPERTY, "1"); (UPDATE_PROPORTION_PROPERTY, "0");
   (INSERT_PROPORTION_PROPERTY, "0"); (SCAN_PROPORTION_PROPERTY, "0");
   (READMODIFYWRITE_PROPORTION_PROPERTY, "0")]%string).

Definition started_ex : CoreWorkload (HD := exact_doubles) (HR := listed_random) :=
  match Init (HD := exact_doubles) (HR := listed_random) props_ex (new_core (HD := exact_doubles) (HR := listed_random) []) with
  | Ok c => c
  | Err _ => core_ex
  end.

Definition is_ok {A} (r : res A) : bool := match r with Ok _ => true | Err _ => false end.

Lemma started_ok :
  is_ok (Init (HD := exact_doubles) (HR := listed_random) props_ex (new_core (HD := exact_doubles) (HR := listed_random) [])) = true ->
  Init (HD := exact_doubles) (HR := listed_random) props_ex (new_core (HD := exact_doubles) (HR := listed_random) []) = Ok started_ex.
Proof. unfold started_ex. by destruct (Init _ _). Qed.

Theorem transaction_keys_loaded_witness :
  exists loaded c1 keys c2,
    times (Z.to_nat 3) NextSequenceKey started_ex = Ok (loaded, c1) /\
    loaded = map (key_name started_ex) (seqZ 0 3) /\
    times 5 (NextTransactionKey 1) c1 = Ok (keys, c2) /\
    length keys = 5%nat /\ Forall (fun s => s ∈ loaded) keys.
Proof.
  apply (transaction_keys_loaded (HD := exact_doubles) (HR := listed_random) props_ex [] started_ex 3 5).
  2: { apply started_ok. by vm_compute. }
  2-5: by vm_compute.
  intros a b e Hab. simpl. destruct e as [|x e]; simpl; [lia|].
  pose proof (Z.mod_pos_bound x (b - a + 1) ltac:(lia)). lia.
Defined.
