(* ===== verification/Client.v ===== *)
(** * The client of the workload generator

    [src/ycsbc/core/client.h] and the function [DelegateClient] of
    [src/ycsbc/ycsbc.cc]: the records and the transactions of a workload, drawn from a
    [CoreWorkload] and performed on a [DB]. *)

From Stdlib Require Import Ascii String.
From stdpp Require Import strings.
From S2P Require Import Prelude YcsbUtils YcsbProperties Database ExportDb Driver Generators Workload.

#[local] Open Scope Z_scope.

Section client.
Context `{HD : Doubles} `{HR : !Random} {St : Type} `{HDB : !DB St}.

(** A client refers to a database and to a workload. *)
Definition Client : Type := St * CoreWorkload.

Definition db_ {A} (m : SM St A) : SM Client A := fun s =>
  match m s.1 with Ok (a, d) => Ok (a, (d, s.2)) | Err e => Err e end.
Definition workload_ {A} (m : SM CoreWorkload A) : SM Client A := fun s =>
  match m s.2 with Ok (a, c) => Ok (a, (s.1, c)) | Err e => Err e end.

(** The draws of [NextTransactionKey] are bounded by [fuel]. *)
Context (fuel : nat).

Definition DoInsert : SM Client bool :=
  key ← workload_ NextSequenceKey;
  pairs ← workload_ (BuildValues []);
  table ← workload_ NextTable;
  s ← db_ (DB_Insert table key pairs);
  mret (s =? kOK).

(** [if (!workload_.read_all_fields()) { fields.push_back(...) }], or [NULL] *)
Definition fields_to_read : SM Client (option (list string)) :=
  c ← sm_get snd;
  if negb (read_all_fields_ c) then
    name ← workload_ NextFieldName;
    mret (Some [("field" +:+ name)%string])
  else mret None.

(** [if (workload_.write_all_fields()) BuildValues(values) else BuildUpdate(values)] *)
Definition values_to_write : SM Client (list KVPair) :=
  c ← sm_get snd;
  if write_all_fields_ c then workload_ (BuildValues [])
  else workload_ (BuildUpdate []).

Definition TransactionRead : SM Client Z :=
  table ← workload_ NextTable;
  key ← workload_ (NextTransactionKey fuel);
  fields ← fields_to_read;
  r ← db_ (DB_Read table key fields []);
  mret r.1.

Definition TransactionReadModifyWrite : SM Client Z :=
  table ← workload_ NextTable;
  key ← workload_ (NextTransactionKey fuel);
  fields ← fields_to_read;
  db_ (DB_Read table key fields []);;
  values ← values_to_write;
  db_ (DB_Update table key values).

Definition TransactionScan : SM Client Z :=
  table ← workload_ NextTable;
  key ← workload_ (NextTransactionKey fuel);
  n ← workload_ NextScanLength;
  let len := to_int n in
  fields ← fields_to_read;
  r ← db_ (DB_Scan table key len fields []);
  mret r.1.

Definition TransactionUpdate : SM Client Z :=
  table ← workload_ NextTable;
  key ← workload_ (NextTransactionKey fuel);
  values ← values_to_write;
  db_ (DB_Update table key values).

Definition TransactionInsert : SM Client Z :=
  table ← workload_ NextTable;
  key ← workload_ NextSequenceKey;
  values ← workload_ (BuildValues []);
  db_ (DB_Insert table key values).

Definition DoTransaction : SM Client bool :=
  op ← workload_ NextOperation;
  status ← match op with
           | READ => TransactionRead
           | UPDATE => TransactionUpdate
           | INSERT => TransactionInsert
           | SCAN => TransactionScan
           | READMODIFYWRITE => TransactionReadModifyWrite
           end;
  if 0 <=? status then mret (status =? kOK)
  else sm_fail AssertFail.

(** ** ycsbc.cc *)

(** The loop of [DelegateClient]. *)
Fixpoint DelegateClient_loop (is_loading : bool) (n : nat) (oks : Z) : SM Client Z :=
  match n with
  | O => mret oks
  | S n =>
      b ← (if is_loading then DoInsert else DoTransaction);
      DelegateClient_loop is_loading n (oks + Z.b2z b)
  end.

Definition DelegateClient (num_ops : Z) (is_loading : bool) : SM Client Z :=
  db_ DB_Init;;
  oks ← DelegateClient_loop is_loading (Z.to_nat num_ops) 0;
  db_ DB_Close;;
  mret oks.
End client.

(** ** Workloads that never fail

    The generators other than the zipfian ones always return; the choice of an operation
    returns unless rounding makes it run off the end of its list. *)

Definition never_fails {HD : Doubles} {HR : Random} (g : Generator) : bool :=
  match g with GCounter _ | GConst _ | GUniform _ => true | _ => false end.

Section steady.
Context `{HD : Doubles} `{HR : !Random}.

(** The generator in a field of the workload. *)
Definition some_generator (g : option Generator) : Prop := exists g', g = Some g' /\ never_fails g' = true.

(** The field lengths it gives are small enough for a string. *)
Definition short_fields (g : Generator) : Prop :=
  match g with
  | GConst g => 0 <= constant_ g <= string_max_size
  | GUniform g => 0 <= (dist_ g).1 <= (dist_ g).2 /\ (dist_ g).2 <= string_max_size
  | _ => False
  end.

(** [c] is a workload with [n] records that started as [c0] and whose next new key is [i]. *)
Record steady (c0 : CoreWorkload) (n i : Z) (c : CoreWorkload) : Prop := {
  st_keys : uniform_keys n i c;
  st_len : exists g, field_len_generator_ c = Some g /\ short_fields g;
  st_field : some_generator (field_chooser_ c);
  st_scan : some_generator (scan_len_chooser_ c);
  st_values : values_ (op_chooser_ c) = values_ (op_chooser_ c0);
  st_sum : sum_ (op_chooser_ c) = sum_ (op_chooser_ c0);
  st_order : ordered_inserts_ c = ordered_inserts_ c0;
  st_padding : zero_padding_ c = zero_padding_ c0;
  st_table : table_name_ c = table_name_ c0;
}.

(** The [assert(false)] of the choice of an operation does not fail. *)
Definition always_chooses (c0 : CoreWorkload) : Prop :=
  forall w, exists op, Discrete_choose (sum_ (op_chooser_ c0)) (RandomDouble w).1 (values_ (op_chooser_ c0)) = Ok op.

Lemma Discrete_choose_in {V} s x (vs : list (V * double)) v : Discrete_choose s x vs = Ok v -> v ∈ vs.*1.
Proof.
  revert x. induction vs as [|[v' d] vs IH]; intros x; simpl; [done|].
  destruct (d_lt x (d_div d s)); [intros [= ->]; set_solver|]. intros H. apply IH in H. set_solver.
Qed.

Context (c0 : CoreWorkload) (n : Z).
Hypothesis (HU : uniform_bounds) (Hn : 0 < n) (Hops : always_chooses c0).

Ltac steady_with H := destruct H as [[? ? ?] ? ? ? ? ? ? ? ?]; split; [split| ..]; simpl; try done; by eexists.

Lemma runs_next get set c g (Q : Z -> CoreWorkload -> Prop) :
  get c = Some g -> never_fails g = true ->
  (forall x g', never_fails g' = true -> Q x (set g' (world_ c) c)) ->
  runs (next_of get set) Q c.
Proof.
  intros Hg Hf HQ. unfold next_of, runs. rewrite Hg.
  destruct g as [g|g|g| | |]; try done; simpl.
  - eexists _, _. split; [done|]. by apply HQ.
  - eexists _, _. split; [done|]. by apply HQ.
  - destruct (Uniform_Next g) as [x g']. eexists _, _. split; [done|]. by apply HQ.
Qed.

Lemma runs_next_short c g (Q : Z -> CoreWorkload -> Prop) :
  field_len_generator_ c = Some g -> short_fields g ->
  (forall x g', short_fields g' -> 0 <= x <= string_max_size -> Q x (set_field_len g' (world_ c) c)) ->
  runs (next_of field_len_generator_ set_field_len) Q c.
Proof using HU.
  intros Hg Hf HQ. unfold next_of, runs. rewrite Hg. destruct g as [g|g|g|g|g|g]; try done; simpl.
  - eexists _, _. split; [done|]. by apply HQ.
  - destruct Hf as [Hf Hmax]. pose proof (HU (dist_ g).1 (dist_ g).2 (generator_ g) (proj2 Hf)) as Hx.
    unfold Uniform_Next. destruct (uniform_int _ _ _) as [x e]. simpl in Hx.
    eexists _, _. split; [done|]. apply HQ; [done|lia].
Qed.

Lemma random_field_steady i c : steady c0 n i c -> runs random_field (fun _ => steady c0 n i) c.
Proof using HU.
  intros Hc. unfold random_field. apply runs_bind. destruct (st_len _ _ _ _ Hc) as (g & Hg & Hf).
  eapply runs_next_short; [done..|]. intros x g' Hf' Hx. apply runs_bind.
  unfold next_print_char, runs. destruct (rand _) as [r w]. eexists _, _. split; [done|].
  destruct (Z.ltb_spec string_max_size x); [lia|]. apply runs_ret. steady_with Hc.
Qed.

Lemma BuildValues_loop_steady m k i c : steady c0 n i c -> runs (BuildValues_loop m k) (fun _ => steady c0 n i) c.
Proof using HU.
  revert k c. induction m as [|m IH]; intros k c Hc; cbn [BuildValues_loop]; [by apply runs_ret|].
  apply runs_bind. eapply runs_mono; [|by eapply random_field_steady]. intros v c1 Hc1. simpl in *.
  apply runs_bind. eapply runs_mono; [|by apply IH]. intros vs c2 Hc2. by apply runs_ret.
Qed.

Lemma BuildValues_steady vs i c : steady c0 n i c -> runs (BuildValues vs) (fun _ => steady c0 n i) c.
Proof using HU.
  intros Hc. unfold BuildValues. apply runs_bind, runs_get, runs_bind.
  eapply runs_mono; [|by apply BuildValues_loop_steady]. intros v c1 Hc1. by apply runs_ret.
Qed.

Lemma NextFieldName_steady i c : steady c0 n i c -> runs NextFieldName (fun _ => steady c0 n i) c.
Proof.
  intros Hc. unfold NextFieldName. apply runs_bind. destruct (st_field _ _ _ _ Hc) as (g & Hg & Hf).
  eapply runs_next; [done..|]. intros x g' Hf'. apply runs_ret. steady_with Hc.
Qed.

Lemma BuildUpdate_steady vs i c : steady c0 n i c -> runs (BuildUpdate vs) (fun _ => steady c0 n i) c.
Proof using HU.
  intros Hc. unfold BuildUpdate. apply runs_bind.
  eapply runs_mono; [|by eapply NextFieldName_steady]. intros v c1 Hc1. simpl in *. apply runs_bind.
  eapply runs_mono; [|by eapply random_field_steady]. intros vs' c2 Hc2. by apply runs_ret.
Qed.

Lemma NextScanLength_steady i c : steady c0 n i c -> runs NextScanLength (fun _ => steady c0 n i) c.
Proof.
  intros Hc. unfold NextScanLength. destruct (st_scan _ _ _ _ Hc) as (g & Hg & Hf).
  eapply runs_next; [done..|]. intros x g' Hf'. steady_with Hc.
Qed.

Lemma NextOperation_steady i c :
  steady c0 n i c ->
  runs NextOperation (fun op c' => op ∈ (values_ (op_chooser_ c0)).*1 /\ steady c0 n i c') c.
Proof.
  intros Hc. unfold NextOperation, Discrete_Next, runs. destruct (Hops (world_ c)) as [op Hop].
  destruct (RandomDouble (world_ c)) as [u w]. simpl in Hop.
  rewrite (st_values _ _ _ _ Hc), (st_sum _ _ _ _ Hc), Hop. eexists _, _. split; [done|].
  split; [by eapply Discrete_choose_in|]. steady_with Hc.
Qed.

Lemma key_name_steady i c k : steady c0 n i c -> key_name c k = key_name c0 k.
Proof. intros Hc. apply key_name_ext; apply Hc. Qed.

Lemma NextTransactionKey_steady f i c :
  steady c0 n i c ->
  runs (NextTransactionKey (S f)) (fun s c' => (exists j, 0 <= j < n /\ s = key_name c0 j) /\ steady c0 n i c') c.
Proof.
  intros Hc. destruct (NextTransactionKey_uniform f n i c HU (st_keys _ _ _ _ Hc) Hn) as (j & e & Hj & E).
  eexists _, _. split; [exact E|]. split.
  - exists j. split; [done|]. by eapply key_name_steady.
  - destruct Hc as [[? ? ?] ? ? ? ? ? ? ? ?]. split; [split| ..]; simpl; try done. by eexists _, _.
Qed.

Lemma NextSequenceKey_steady i c :
  steady c0 n i c -> 0 <= i -> i + 1 < two64 ->
  runs NextSequenceKey (fun s c' => s = key_name c0 i /\ steady c0 n (i + 1) c') c.
Proof.
  intros Hc Hi Hlt. unfold NextSequenceKey. apply runs_bind.
  destruct Hc as [[Hg Hk Hs] ? ? ? ? ? ? ? ?]. unfold next_of, runs. rewrite Hg. simpl.
  eexists _, _. split; [done|]. eexists _, _. split; [apply BuildKeyName_name|]. split.
  - apply key_name_ext; done.
  - split; [split| ..]; simpl; try done. rewrite wrap64_small; [done|]. split; lia.
Qed.
End steady.

(** ** The operations of a client *)

(** The operations a transaction performs, for the key [i] to be inserted next. *)
Inductive transaction_ops {HD : Doubles} {HR : Random} (c0 : CoreWorkload) (n i : Z) : Operation -> list db_op -> Z -> Prop :=
  | ops_read j table fields :
      0 <= j < n -> transaction_ops c0 n i READ [ORead table (key_name c0 j) fields] i
  | ops_scan j table len fields :
      0 <= j < n -> transaction_ops c0 n i SCAN [OScan table (key_name c0 j) len fields] i
  | ops_update j table values :
      0 <= j < n -> transaction_ops c0 n i UPDATE [OUpdate table (key_name c0 j) values] i
  | ops_insert table values :
      transaction_ops c0 n i INSERT [OInsert table (key_name c0 i) values] (i + 1)
  | ops_readmodifywrite j table fields values :
      0 <= j < n ->
      transaction_ops c0 n i READMODIFYWRITE
        [ORead table (key_name c0 j) fields; OUpdate table (key_name c0 j) values] i.

(** The operations of several transactions, each with the operation chosen for it. *)
Inductive workload_ops {HD : Doubles} {HR : Random} (c0 : CoreWorkload) (n : Z) : Z -> list Operation -> list db_op -> Z -> Prop :=
  | wops_nil i : workload_ops c0 n i [] [] i
  | wops_cons i i' i'' op ops o os :
      transaction_ops c0 n i op o i' -> workload_ops c0 n i' ops os i'' ->
      workload_ops c0 n i (op :: ops) (o ++ os) i''.

(** They are performed on keys of the workload. *)
Lemma workload_ops_keys {HD : Doubles} {HR : Random} c0 n i ops os i' :
  workload_ops c0 n i ops os i' -> Forall (fun op => exists j, op_key op = key_name c0 j) os.
Proof.
  intros H. induction H as [|i i' i'' op ops o os Ho _ IH]; [constructor|].
  apply Forall_app. split; [|done]. destruct Ho; repeat constructor; by eexists.
Qed.

Section client_ops.
Context `{HD : Doubles} `{HR : !Random} {St : Type} `{HDB : !DB St}.
Context (c0 : CoreWorkload) (n : Z) (ready : St -> Prop).
Hypothesis (HU : uniform_bounds) (Hn : 0 < n) (Hops : always_chooses c0).
(** The database answers the [allowed] operations without error; the clients that only load
    records need the insertions of keys of the workload among them, the others every
    operation on such keys. *)
Context (allowed : db_op -> Prop).
Hypothesis (Hdb : forall op d, allowed op -> ready d -> runs (perform op) (fun r d' => 0 <= r /\ ready d') d).
Hypothesis (Hins : forall table j values, allowed (OInsert table (key_name c0 j) values)).
Hypothesis (Hkeys : forall op j, op_key op = key_name c0 j -> allowed op).

Lemma runs_workload {A} (m : SM CoreWorkload A) (Q : A -> Client (St := St) -> Prop) d c :
  runs m (fun a c' => Q a (d, c')) c -> runs (workload_ m) Q (d, c).
Proof. intros (a & c' & E & HQ). unfold runs, workload_. simpl. rewrite E. by eexists _, _. Qed.

(** Performing one more operation, after [os]. *)
Lemma perform_all_snoc os op d d' r d'' :
  perform_all os d = Ok (tt, d') -> perform op d' = Ok (r, d'') -> perform_all (os ++ [op]) d = Ok (tt, d'').
Proof.
  revert d. induction os as [|o os IH]; intros d H1 H2.
  - injection H1 as ->. cbn [app perform_all]. by rewrite (sm_bind_ok _ _ _ _ _ H2).
  - cbn [app perform_all] in *. unfold mbind, SM_bind in *. destruct (perform o d) as [[x d1]|]; [|done]. by apply IH.
Qed.

Lemma perform_all_app os os' (d d' : St) :
  perform_all os d = Ok (tt, d') -> perform_all (os ++ os') d = perform_all os' d'.
Proof.
  revert d. induction os as [|o os IH]; intros d H.
  - by injection H as ->.
  - cbn [app perform_all] in *. unfold mbind, SM_bind in *. destruct (perform o d) as [[x d1]|]; [|done]. by apply IH.
Qed.

Lemma runs_db {A} op (m : SM St A) (f : A -> Z) (Q : A -> Client (St := St) -> Prop) d c :
  (forall d, perform op d = (x ← m; mret (f x)) d) -> allowed op -> ready d ->
  (forall a d', perform op d = Ok (f a, d') -> 0 <= f a -> ready d' -> Q a (d', c)) ->
  runs (db_ m) Q (d, c).
Proof.
  intros Hm Ha Hd HQ. destruct (Hdb op d Ha Hd) as (r & d' & E & Hr & Hd'). pose proof E as E'. rewrite Hm in E.
  unfold mbind, SM_bind in E. unfold runs, db_. simpl. destruct (m d) as [[a d1]|]; [|done].
  injection E as <- <-. eexists _, _. split; [done|]. by apply HQ.
Qed.

Lemma fields_to_read_ok d i c (Q : option (list string) -> Client (St := St) -> Prop) :
  steady c0 n i c -> (forall fs c', steady c0 n i c' -> Q fs (d, c')) -> runs fields_to_read Q (d, c).
Proof.
  intros Hc HQ. unfold fields_to_read. apply runs_bind, runs_get. simpl.
  destruct (negb (read_all_fields_ c)).
  - apply runs_bind, runs_workload. eapply runs_mono; [|by apply (NextFieldName_steady c0 n i)].
    intros s c' Hc'. apply runs_ret. by apply HQ.
  - apply runs_ret. by apply HQ.
Qed.

Lemma values_to_write_ok d i c (Q : list KVPair -> Client (St := St) -> Prop) :
  steady c0 n i c -> (forall vs c', steady c0 n i c' -> Q vs (d, c')) -> runs values_to_write Q (d, c).
Proof.
  intros Hc HQ. unfold values_to_write. apply runs_bind, runs_get. simpl.
  destruct (write_all_fields_ c); apply runs_workload.
  - eapply runs_mono; [|by apply (BuildValues_steady c0 n HU [] i)]. intros vs c' Hc'. by apply HQ.
  - eapply runs_mono; [|by apply (BuildUpdate_steady c0 n HU [] i)]. intros vs c' Hc'. by apply HQ.
Qed.

(** What a transaction does. *)
Definition transacts (op : Operation) (d : St) (i : Z) (r : Z) (s : Client (St := St)) : Prop :=
  exists os i', transaction_ops c0 n i op os i' /\ perform_all os d = Ok (tt, s.1) /\
    ready s.1 /\ steady c0 n i' s.2 /\ 0 <= r.

Lemma TransactionRead_ok f d i c :
  steady c0 n i c -> ready d -> runs (TransactionRead (S f)) (transacts READ d i) (d, c).
Proof.
  intros Hc Hd. unfold TransactionRead. apply runs_bind. eexists _, _. split; [done|].
  apply runs_bind, runs_workload. eapply runs_mono; [|by apply (NextTransactionKey_steady c0 n HU Hn f i)].
  intros key c1 [(j & Hj & ->) Hc1]. apply runs_bind. apply (fields_to_read_ok _ i); [done|].
  intros fs c2 Hc2. apply runs_bind.
  apply (runs_db (ORead (table_name_ c) (key_name c0 j) fs) _ fst); [done|by eapply Hkeys|done|].
  intros r d' E Hr Hd'. apply runs_ret. eexists _, _. split; [by constructor|].
  split; [|done]. by apply (perform_all_snoc [] _ d d r.1 d').
Qed.

Lemma TransactionScan_ok f d i c :
  steady c0 n i c -> ready d -> runs (TransactionScan (S f)) (transacts SCAN d i) (d, c).
Proof.
  intros Hc Hd. unfold TransactionScan. apply runs_bind. eexists _, _. split; [done|].
  apply runs_bind, runs_workload. eapply runs_mono; [|by apply (NextTransactionKey_steady c0 n HU Hn f i)].
  intros key c1 [(j & Hj & ->) Hc1]. apply runs_bind, runs_workload.
  eapply runs_mono; [|by apply (NextScanLength_steady c0 n i)]. intros x c2 Hc2.
  apply runs_bind. apply (fields_to_read_ok _ i); [done|]. intros fs c3 Hc3. apply runs_bind.
  apply (runs_db (OScan (table_name_ c) (key_name c0 j) (to_int x) fs) _ fst); [done|by eapply Hkeys|done|].
  intros r d' E Hr Hd'. apply runs_ret. eexists _, _. split; [by constructor|].
  split; [|done]. by apply (perform_all_snoc [] _ d d r.1 d').
Qed.

Lemma db_update_ok os (op : Operation) i j vs table d d' c :
  transaction_ops c0 n i op (os ++ [OUpdate table (key_name c0 j) vs]) i ->
  perform_all os d = Ok (tt, d') -> ready d' -> steady c0 n i c ->
  runs (db_ (DB_Update table (key_name c0 j) vs)) (transacts op d i) (d', c).
Proof.
  intros Hop Hos Hd' Hc. apply (runs_db (OUpdate table (key_name c0 j) vs) _ id); [|by eapply Hkeys|done|].
  - intros d1. unfold mbind, SM_bind. simpl. by destruct (DB_Update table (key_name c0 j) vs d1) as [[]|].
  - intros r d1 E Hr Hd1. exists (os ++ [OUpdate table (key_name c0 j) vs]), i. split; [done|].
    split; [|done]. by eapply perform_all_snoc.
Qed.

Lemma TransactionUpdate_ok f d i c :
  steady c0 n i c -> ready d -> runs (TransactionUpdate (S f)) (transacts UPDATE d i) (d, c).
Proof.
  intros Hc Hd. unfold TransactionUpdate. apply runs_bind. eexists _, _. split; [done|].
  apply runs_bind, runs_workload. eapply runs_mono; [|by apply (NextTransactionKey_steady c0 n HU Hn f i)].
  intros key c1 [(j & Hj & ->) Hc1]. apply runs_bind. apply (values_to_write_ok _ i); [done|].
  intros vs c2 Hc2. by apply (db_update_ok []); [constructor| ..].
Qed.

Lemma TransactionReadModifyWrite_ok f d i c :
  steady c0 n i c -> ready d ->
  runs (TransactionReadModifyWrite (S f)) (transacts READMODIFYWRITE d i) (d, c).
Proof.
  intros Hc Hd. unfold TransactionReadModifyWrite. apply runs_bind. eexists _, _. split; [done|].
  apply runs_bind, runs_workload. eapply runs_mono; [|by apply (NextTransactionKey_steady c0 n HU Hn f i)].
  intros key c1 [(j & Hj & ->) Hc1]. apply runs_bind. apply (fields_to_read_ok _ i); [done|].
  intros fs c2 Hc2. apply runs_bind.
  apply (runs_db (ORead (table_name_ c) (key_name c0 j) fs) _ fst); [done|by eapply Hkeys|done|].
  intros r d' E Hr Hd'. apply runs_bind. apply (values_to_write_ok _ i); [done|].
  intros vs c3 Hc3. apply (db_update_ok [ORead (table_name_ c) (key_name c0 j) fs]); [by constructor| |done..].
  by apply (perform_all_snoc [] _ d d r.1 d').
Qed.

Lemma db_insert_ok (Q : Z -> Client (St := St) -> Prop) table j vs d c :
  ready d ->
  (forall r d', perform_all [OInsert table (key_name c0 j) vs] d = Ok (tt, d') -> ready d' -> 0 <= r -> Q r (d', c)) ->
  runs (db_ (DB_Insert table (key_name c0 j) vs)) Q (d, c).
Proof.
  intros Hd HQ. apply (runs_db (OInsert table (key_name c0 j) vs) _ id); [|apply Hins|done|].
  - intros d1. unfold mbind, SM_bind. simpl. by destruct (DB_Insert table (key_name c0 j) vs d1) as [[]|].
  - intros r d1 E Hr Hd1. apply HQ; [|done..]. by apply (perform_all_snoc [] _ d d r d1).
Qed.

Lemma TransactionInsert_ok d i c :
  steady c0 n i c -> 0 <= i -> i + 1 < two64 -> ready d -> runs TransactionInsert (transacts INSERT d i) (d, c).
Proof.
  intros Hc Hi Hlt Hd. unfold TransactionInsert. apply runs_bind. eexists _, _. split; [done|].
  apply runs_bind, runs_workload. eapply runs_mono; [|by apply (NextSequenceKey_steady c0 n i)].
  intros key c1 [-> Hc1]. apply runs_bind, runs_workload.
  eapply runs_mono; [|by apply (BuildValues_steady c0 n HU [] (i + 1))]. intros vs c2 Hc2.
  apply db_insert_ok; [done|]. intros r d' E Hd' Hr. eexists _, _. by split; [constructor|].
Qed.

Lemma DoTransaction_ok f d i c :
  steady c0 n i c -> 0 <= i -> i + 1 < two64 -> ready d ->
  runs (DoTransaction (S f)) (fun _ s => exists op os i',
    op ∈ (values_ (op_chooser_ c0)).*1 /\ transaction_ops c0 n i op os i' /\
    perform_all os d = Ok (tt, s.1) /\ ready s.1 /\ steady c0 n i' s.2) (d, c).
Proof.
  intros Hc Hi Hlt Hd. unfold DoTransaction. apply runs_bind, runs_workload.
  eapply runs_mono; [|by apply (NextOperation_steady c0 n Hops i)]. intros op c1 [Hin Hc1].
  apply runs_bind. apply (runs_mono _ (transacts op d i)).
  - intros r s (os & i' & Ho & Hp & Hs & Hc' & Hr). destruct (Z.leb_spec 0 r); [|lia].
    apply runs_ret. by exists op, os, i'.
  - destruct op; [by apply TransactionInsert_ok|by apply TransactionRead_ok|by apply TransactionUpdate_ok
      |by apply TransactionScan_ok|by apply TransactionReadModifyWrite_ok].
Qed.

Lemma DoInsert_ok d i c :
  steady c0 n i c -> 0 <= i -> i + 1 < two64 -> ready d ->
  runs DoInsert (fun _ s => exists vs,
    perform_all [OInsert (table_name_ c0) (key_name c0 i) vs] d = Ok (tt, s.1) /\ ready s.1 /\ steady c0 n (i + 1) s.2) (d, c).
Proof.
  intros Hc Hi Hlt Hd. unfold DoInsert.
  apply runs_bind, runs_workload. eapply runs_mono; [|by apply (NextSequenceKey_steady c0 n i)].
  intros key c1 [-> Hc1]. apply runs_bind, runs_workload.
  eapply runs_mono; [|by apply (BuildValues_steady c0 n HU [] (i + 1))]. intros vs c2 Hc2.
  apply runs_bind. eexists _, _. split; [done|]. apply runs_bind.
  apply db_insert_ok; [done|]. intros r d' E Hd' Hr. apply runs_ret. exists vs.
  by rewrite <- (st_table _ _ _ _ Hc2).
Qed.

Lemma insert_loop_ok f m oks d i c :
  steady c0 n i c -> 0 <= i -> i + Z.of_nat m < two64 -> ready d ->
  runs (DelegateClient_loop f true m oks) (fun _ s => exists kvs,
    kvs.*1 = key_name c0 <$> seqZ i (Z.of_nat m) /\
    perform_all (map (fun kv => OInsert (table_name_ c0) kv.1 kv.2) kvs) d = Ok (tt, s.1) /\
    ready s.1 /\ steady c0 n (i + Z.of_nat m) s.2) (d, c).
Proof.
  revert oks d i c. induction m as [|m IH]; intros oks d i c Hc Hi Hlt Hd; cbn [DelegateClient_loop].
  { apply runs_ret. exists []. by rewrite Z.add_0_r. }
  apply runs_bind. eapply runs_mono; [|apply (DoInsert_ok d i c); [done|done|lia|done]].
  intros b [d1 c1] (vs & Hp & Hd1 & Hc1). cbn [fst snd] in Hp, Hd1, Hc1.
  eapply runs_mono; [|apply (IH _ d1 (i + 1) c1); [done|lia|lia|done]].
  intros r s (kvs & Hk & Hps & Hs & Hc'). exists ((key_name c0 i, vs) :: kvs). split_and!.
  - rewrite fmap_cons, Hk, Nat2Z.inj_succ, (seqZ_cons i), Z.pred_succ by lia. done.
  - simpl map. change (OInsert ?t ?k ?v :: ?os) with ([OInsert t k v] ++ os).
    by rewrite (perform_all_app _ _ _ _ Hp).
  - done.
  - by replace (i + Z.of_nat (S m)) with (i + 1 + Z.of_nat m) by lia.
Qed.

Lemma transaction_ops_next i op os i' : transaction_ops c0 n i op os i' -> i <= i' <= i + 1.
Proof. intros H. destruct H; lia. Qed.

Lemma transaction_loop_ok f m oks d i c :
  steady c0 n i c -> 0 <= i -> i + Z.of_nat m < two64 -> ready d ->
  runs (DelegateClient_loop (S f) false m oks) (fun _ s => exists ops os i',
    length ops = m /\ Forall (fun op => op ∈ (values_ (op_chooser_ c0)).*1) ops /\
    workload_ops c0 n i ops os i' /\ perform_all os d = Ok (tt, s.1) /\ ready s.1 /\ steady c0 n i' s.2) (d, c).
Proof.
  revert oks d i c. induction m as [|m IH]; intros oks d i c Hc Hi Hlt Hd; cbn [DelegateClient_loop].
  { apply runs_ret. exists [], [], i. split_and!; try done. constructor. }
  apply runs_bind. eapply runs_mono; [|apply (DoTransaction_ok f d i c); [done|done|lia|done]].
  intros b [d1 c1] (op & os & i1 & Hin & Ho & Hp & Hd1 & Hc1). cbn [fst snd] in Hp, Hd1, Hc1.
  pose proof (transaction_ops_next _ _ _ _ Ho).
  eapply runs_mono; [|apply (IH _ d1 i1 c1); [done|lia|lia|done]].
  intros r s (ops & oss & i2 & Hl & Hf & Hw & Hps & Hs & Hc').
  exists (op :: ops), (os ++ oss), i2. split_and!; try done; [by rewrite <- Hl|by constructor| |].
  - by econstructor.
  - by rewrite (perform_all_app _ _ _ _ Hp).
Qed.
End client_ops.
