(* ===== verification/YcsbMain.v ===== *)
(** * The workload generator's program

    [src/ycsbc/ycsbc.cc]: command line, concurrent clients, and [main], which writes the
    file of a workload. *)

From Stdlib Require Import Ascii String.
From stdpp Require Import strings.
From S2P Require Import Prelude YcsbUtils YcsbProperties Database ExportDb Driver Generators Workload Client.

#[local] Open Scope Z_scope.

(** ** Command line *)

(** [strncmp(str, pre, strlen(pre)) == 0] *)
Definition StrStartWith (str pre : string) : bool :=
  bool_decide (take (length (chars pre)) (chars str) = chars pre).

(** The loop over the arguments, from [argindex] on; [files] are the contents of the
    files in the working directory. *)
Fixpoint parse_loop (files : string -> option string) (args : list string) (filename : string)
    (props : Properties) : res (list string * string * Properties) :=
  match args with
  | [] => Ok ([], filename, props)
  | arg :: args' =>
      if StrStartWith arg "-" then
        if decide (arg = "-threads"%string) then
          match args' with
          | [] => Err Exited
          | v :: args'' => parse_loop files args'' filename (SetProperty "threadcount" v props)
          end
        else if decide (arg = "-db"%string) then
          match args' with
          | [] => Err Exited
          | v :: args'' => parse_loop files args'' filename (SetProperty "dbname" v props)
          end
        else if decide (arg = "-P"%string) then
          match args' with
          | [] => Err Exited
          | filename :: args'' =>
              match Load (files ("workloads/" +:+ filename +:+ ".spec")%string) props with
              | Err e => Err e
              | Ok (_, props) => parse_loop files args'' filename (SetProperty "filename" filename props)
              end
          end
        else Err Exited
      else Ok (args, filename, props)
  end.

Definition ParseCommandLine (files : string -> option string) (argv : list string) (props : Properties) :
    res (string * Properties) :=
  '(rest, filename, props) ← parse_loop files (tail argv) "" props;
  if bool_decide (length rest = length (tail argv)) || negb (bool_decide (rest = [])) then Err Exited
  else Ok (filename, props).

(** ** Concurrent clients *)

(** A thread that runs [DelegateClient]: not started, in its loop with operations left,
    or finished with its result. *)
Inductive delegate := DStart | DLoop (left : nat) (oks : Z) | DDone (oks : Z).

Section main.
Context `{HD : Doubles} `{HR : !Random} (pad : list Z -> list Z) (fuel : nat).
#[local] Instance main_export : DB Export := ExportDB pad.

(** One step of a thread; the lock of [Init] and of [Close], and the check of [running_],
    make these steps the ones that can interleave. *)
Definition delegate_step (num_ops : Z) (is_loading : bool) (d : delegate) : SM Client delegate :=
  match d with
  | DStart => db_ DB_Init;; mret (DLoop (Z.to_nat num_ops) 0)
  | DLoop O oks => db_ DB_Close;; mret (DDone oks)
  | DLoop (S k) oks =>
      b ← (if is_loading then DoInsert else DoTransaction fuel);
      mret (DLoop k (oks + Z.b2z b))
  | DDone oks => mret (DDone oks)
  end.

(** The threads take their steps in the order of [sched]. *)
Fixpoint run_delegates (sched : list nat) (num_ops : Z) (is_loading : bool) (ds : list delegate) :
    SM Client (list delegate) :=
  match sched with
  | [] => mret ds
  | t :: sched =>
      match ds !! t with
      | None => run_delegates sched num_ops is_loading ds
      | Some d =>
          d' ← delegate_step num_ops is_loading d;
          run_delegates sched num_ops is_loading (<[t := d']> ds)
      end
  end.

(** [n.get()] for every future: waits until the thread is done. *)
Fixpoint get_all (ds : list delegate) : res Z :=
  match ds with
  | [] => Ok 0
  | DDone oks :: ds => match get_all ds with Ok sum => Ok (oks + sum) | Err e => Err e end
  | _ :: _ => Err Blocked
  end.

(** Starting the threads with their share of the operations, and waiting for them. *)
Definition phase (sched : list nat) (num_threads total_ops : Z) (is_loading : bool) : SM Client Z :=
  ds ← run_delegates sched (total_ops ÷ num_threads) is_loading (replicate (Z.to_nat num_threads) DStart);
  from_res (get_all ds).

(** The sums that are printed, the name of the file and the database that wrote it. *)
Definition main (files : string -> option string) (w : world) (loading running : list nat)
    (argv : list string) : res (Z * Z * string * Export) :=
  '(_, props) ← ParseCommandLine files argv no_properties;
  created ← CreateDB props;
  match created with
  | None => _ ← at_property props "dbname"; Err Exited
  | Some (file, db) =>
      wl ← Init props (new_core w);
      num_threads ← stoi (GetProperty props "threadcount" "1");
      record_count ← at_property props RECORD_COUNT_PROPERTY;
      total_ops ← stoi record_count;
      '(loaded, s) ← phase loading num_threads total_ops true (db, wl);
      operation_count ← at_property props OPERATION_COUNT_PROPERTY;
      total_ops ← stoi operation_count;
      '(sum, s) ← phase running num_threads total_ops false s;
      mret (loaded, sum, file, s.1)
  end.

(** ** A single thread *)

Lemma run_done_single sched num_ops b oks s :
  run_delegates sched num_ops b [DDone oks] s = Ok ([DDone oks], s).
Proof.
  revert s. induction sched as [|t sched IH]; intros s; [done|]. cbn [run_delegates].
  destruct t as [|t]; [|apply IH].
  cbn [lookup list_lookup]. by rewrite (sm_bind_ok _ _ s (DDone oks) s).
Qed.

(** With one thread, a schedule that is long enough runs [DelegateClient]. *)
Lemma run_loop_single sched num_ops b k oks s :
  (S k <= count_occ Nat.eq_dec sched 0)%nat ->
  run_delegates sched num_ops b [DLoop k oks] s =
    (oks ← DelegateClient_loop fuel b k oks; db_ DB_Close;; mret [DDone oks]) s.
Proof.
  revert k oks s. induction sched as [|t sched IH]; intros k oks s Hc; [simpl in Hc; lia|].
  cbn [run_delegates]. destruct t as [|t]; [|by apply IH].
  simpl in Hc. cbn [lookup list_lookup]. unfold mbind, SM_bind.
  destruct k as [|k]; cbn [delegate_step DelegateClient_loop]; unfold mbind, SM_bind.
  - unfold mret, SM_ret. destruct (db_ DB_Close s) as [[[] s']|e]; [|done]. apply run_done_single.
  - destruct ((if b then DoInsert else DoTransaction fuel) s) as [[x s']|e]; [|done].
    unfold mret, SM_ret at 1. cbn [insert list_insert]. rewrite IH by lia. done.
Qed.

Lemma phase_single sched total_ops b s :
  (S (S (Z.to_nat total_ops)) <= count_occ Nat.eq_dec sched 0)%nat ->
  phase sched 1 total_ops b s = DelegateClient fuel total_ops b s.
Proof.
  intros Hc. unfold phase, DelegateClient. rewrite Z.quot_1_r. change (replicate (Z.to_nat 1) DStart) with [DStart].
  assert (run_delegates sched total_ops b [DStart] s =
    (db_ DB_Init;; oks ← DelegateClient_loop fuel b (Z.to_nat total_ops) 0; db_ DB_Close;; mret [DDone oks]) s) as E.
  { induction sched as [|t sched IH]; [simpl in Hc; lia|]. cbn [run_delegates]. destruct t as [|t]; [|by apply IH].
    simpl in Hc. cbn [lookup list_lookup]. unfold mbind, SM_bind. cbn [delegate_step].
    unfold mbind, SM_bind. destruct (db_ DB_Init s) as [[[] s']|e]; [|done].
    unfold mret, SM_ret at 1. cbn [insert list_insert]. rewrite run_loop_single by lia. done. }
  unfold mbind at 1, SM_bind at 1. rewrite E. unfold mbind, SM_bind.
  destruct (db_ DB_Init s) as [[[] s']|e]; [|done].
  destruct (DelegateClient_loop _ _ _ _ s') as [[oks s'']|e]; [|done].
  destruct (db_ DB_Close s'') as [[[] s3]|e]; [|done]. unfold mret, SM_ret, from_res. simpl. by rewrite Z.add_0_r.
Qed.
End main.

(** ** The file that is written *)

Section written.
Context `{HD : Doubles} `{HR : !Random} (pad : list Z -> list Z).
Hypothesis (Hpad : forall bs, length (pad bs) = 7%nat).
#[local] Instance written_export : DB Export := ExportDB pad.

Ltac run_export :=
  unfold runs; cbv beta iota zeta delta [perform DB_Read DB_Scan DB_Update DB_Insert DB_Delete written_export ExportDB
    Export_Read Export_Scan Export_Update Export_Insert Export_Delete check_inited from_res export_query_ export_insert_
    export_delete_ write_tx write sm_get sm_modify mbind SM_bind mret SM_ret inited_ update_delete_].

(** An insertion under a key that can be read. *)
Definition is_insert (op : db_op) : Prop :=
  match op with OInsert _ key _ => long_key key | _ => False end.

(** Before and after its initialisation the export database accepts operations. *)
Lemma export_loading op e :
  is_insert op -> inited_ e = false -> runs (perform op) (fun r e' => 0 <= r /\ inited_ e' = false) e.
Proof.
  destruct op as [| | |t k vs|]; try done. intros Hk He. destruct e as [fs ru ini a b ud]. simpl in He. subst ini.
  apply str2key_long in Hk. run_export. rewrite Hk. eexists _, _. split; [reflexivity|]. by split.
Qed.

Lemma export_running op e :
  long_key (op_key op) -> inited_ e = true -> runs (perform op) (fun r e' => 0 <= r /\ inited_ e' = true) e.
Proof.
  intros Hk He. apply str2key_long in Hk. destruct e as [fs ru ini a b ud]. simpl in He. subst ini.
  destruct op; cbv beta iota delta [op_key] in Hk; [| |destruct ud| |]; run_export; rewrite Hk; (eexists _, _; split; [reflexivity|]; by split).
Qed.

(** What the properties of a workload need for its file to be complete. *)
Record simple_workload (p : Properties) (n m : Z) (ud : bool) : Prop := {
  sw_db : at_property p "dbname" = Ok "export"%string;
  sw_file : exists f, at_property p "filename" = Ok f;
  sw_records : exists s, at_property p RECORD_COUNT_PROPERTY = Ok s /\ stoi s = Ok n;
  sw_operations : exists s, at_property p OPERATION_COUNT_PROPERTY = Ok s /\ stoi s = Ok m;
  sw_range : 0 < n /\ 0 <= m;
  sw_request : GetProperty p REQUEST_DISTRIBUTION_PROPERTY REQUEST_DISTRIBUTION_DEFAULT = "uniform"%string;
  sw_start : stoi (GetProperty p INSERT_START_PROPERTY INSERT_START_DEFAULT) = Ok 0;
  sw_scan : GetProperty p SCAN_LENGTH_DISTRIBUTION_PROPERTY SCAN_LENGTH_DISTRIBUTION_DEFAULT = "uniform"%string;
  sw_length : GetProperty p FIELD_LENGTH_DISTRIBUTION_PROPERTY FIELD_LENGTH_DISTRIBUTION_DEFAULT <> "zipfian"%string;
  sw_field_length : exists l, stoi (GetProperty p FIELD_LENGTH_PROPERTY FIELD_LENGTH_DEFAULT) = Ok l /\ 0 <= l;
  sw_threads : stoi (GetProperty p "threadcount" "1") = Ok 1;
  sw_delete : ud = bool_decide (GetProperty p "updatedelete" "false" = "true"%string);
}.

Lemma at_GetProperty p k s d : at_property p k = Ok s -> GetProperty p k d = s.
Proof. unfold at_property, GetProperty. by destruct (properties_ p !! k); intros [= ->]. Qed.

Lemma GetFieldLenGenerator_simple p w g w' l :
  GetProperty p FIELD_LENGTH_DISTRIBUTION_PROPERTY FIELD_LENGTH_DISTRIBUTION_DEFAULT <> "zipfian"%string ->
  stoi (GetProperty p FIELD_LENGTH_PROPERTY FIELD_LENGTH_DEFAULT) = Ok l -> 0 <= l ->
  GetFieldLenGenerator p w = Ok (g, w') -> short_fields g.
Proof.
  intros Hz El Hl Hg. pose proof (stoi_range _ _ El) as Hr. unfold GetFieldLenGenerator in Hg. rewrite El in Hg.
  assert (wrap64 l = l) as Ew by (apply wrap64_small; split; unfold two64; lia).
  res_inv; try done; simpl; rewrite ?Ew in *; unfold string_max_size; [lia|].
  repeat match goal with H : new_uniform _ _ = Ok _ |- _ => apply new_uniform_ok in H as [? ->] end. simpl. lia.
Qed.

Lemma Init_steady p w c n m ud :
  simple_workload p n m ud -> Init p (new_core w) = Ok c -> steady c n 0 c.
Proof.
  intros Hp HI. destruct (sw_records _ _ _ _ Hp) as (s & Hs & Hn).
  pose proof (Init_uniform p w c n 0 HI (sw_request _ _ _ _ Hp)
    ltac:(by rewrite (at_GetProperty _ _ _ _ Hs)) (proj1 (sw_range _ _ _ _ Hp)) (sw_start _ _ _ _ Hp)) as Hu.
  rewrite wrap64_0 in Hu. split; try done; clear Hu Hs Hn.
  all: unfold Init in HI; rewrite (sw_request _ _ _ _ Hp), (sw_scan _ _ _ _ Hp) in HI; res_inv; try done.
  all: simpl; eexists; split; [done|]; try done.
  destruct (sw_field_length _ _ _ _ Hp) as (l & El & Hl).
  by eapply GetFieldLenGenerator_simple; [apply (sw_length _ _ _ _ Hp)|exact El| ..].
Qed.

Lemma CreateDB_simple p n m ud :
  simple_workload p n m ud -> exists file, CreateDB p = Ok (Some (file, new_export n m ud)).
Proof.
  intros Hp. destruct (sw_file _ _ _ _ Hp) as [f Hf]. destruct (sw_records _ _ _ _ Hp) as (s & Hs & Hn).
  destruct (sw_operations _ _ _ _ Hp) as (s' & Hs' & Hm). destruct (sw_range _ _ _ _ Hp) as [Hpos Hpos'].
  pose proof (stoi_range _ _ Hn). pose proof (stoi_range _ _ Hm).
  unfold CreateDB. rewrite (sw_db _ _ _ _ Hp), decide_True, Hf by done.
  unfold RECORD_COUNT_PROPERTY, OPERATION_COUNT_PROPERTY in *.
  rewrite (at_GetProperty _ _ _ "0" Hs), (at_GetProperty _ _ _ "0" Hs'), Hn, Hm, (sw_delete _ _ _ _ Hp).
  rewrite !wrap64_small by (unfold u64, two64; lia). by eexists.
Qed.

(** The two phases of one client leave behind the database of [export_run]. *)
Lemma phases_run f c0 n (m : nat) ud :
  uniform_bounds -> 0 < n < 2 ^ 31 -> Z.of_nat m < 2 ^ 31 -> steady c0 n 0 c0 -> always_chooses c0 ->
  exists oks s1 oks' s2 kvs ops os i',
    DelegateClient (S f) n true (new_export n (Z.of_nat m) ud, c0) = Ok (oks, s1) /\
    DelegateClient (S f) (Z.of_nat m) false s1 = Ok (oks', s2) /\
    kvs.*1 = key_name c0 <$> seqZ 0 n /\
    length ops = m /\ Forall (fun op => op ∈ (values_ (op_chooser_ c0)).*1) ops /\ workload_ops c0 n n ops os i' /\
    export_run pad (table_name_ c0) kvs os (new_export n (Z.of_nat m) ud) = Ok (tt, s2.1).
Proof.
  intros HU Hn Hm Hc Hops. set (e0 := new_export n (Z.of_nat m) ud).
  set (e1 := mk_export (le_bytes 8 n ++ le_bytes 8 (Z.of_nat m)) true false n (Z.of_nat m) ud).
  assert (forall B (k : unit -> SM Export B), (DB_Init ≫= k) e0 = k tt e1) as I1 by done.
  destruct (insert_loop_ok c0 n (fun e => inited_ e = false) HU is_insert export_loading
    (fun _ j _ => long_key_name c0 j)
    (S f) (Z.to_nat n) 0 e1 0 c0) as (oks & [e2 c2] & E2 & kvs & Hk & Hp & Hini & Hc2);
    [done|done|unfold two64; lia|done|]. cbn [fst snd] in *. rewrite Z2Nat.id in Hk, Hc2 by lia.
  set (e3 := set_running false (set_inited true e2)). set (e4 := set_running true e3).
  assert (forall B (k : unit -> SM Export B), (DB_Close ≫= k) e2 = k tt e3) as I3 by done.
  assert (forall B (k : unit -> SM Export B), (DB_Init ≫= k) e3 = k tt e4) as I4 by done.
  destruct (transaction_loop_ok c0 n (fun e => inited_ e = true) HU ltac:(lia) Hops (fun op => long_key (op_key op)) export_running
    (fun _ j _ => long_key_name c0 j) (fun op j E => eq_ind_r long_key (long_key_name c0 j) E) f m 0 e4 n c2) as (oks' & [e5 c5] & E5 & ops & os & i' & Hl & Hf & Hw & Hps & Hini' & Hc5);
    [done|lia|unfold two64; lia|done|]. cbn [fst snd] in *.
  exists oks, (e3, c2), oks', (set_running false (set_inited true e5), c5), kvs, ops, os, i'.
  split_and!; try done.
  - unfold DelegateClient. rewrite (sm_bind_ok _ _ (e0, c0) tt (e1, c0)) by done.
    by rewrite (sm_bind_ok _ _ _ _ _ E2).
  - unfold DelegateClient. rewrite (sm_bind_ok _ _ (e3, c2) tt (e4, c2)) by done.
    rewrite Nat2Z.id. by rewrite (sm_bind_ok _ _ _ _ _ E5).
  - unfold export_run. rewrite I1, (sm_bind_ok _ _ _ _ _ Hp), I3, I4, (sm_bind_ok _ _ _ _ _ Hps). done.
Qed.

Lemma transaction_ops_length c0 n i op os i' :
  transaction_ops c0 n i op os i' -> op <> READMODIFYWRITE -> length os = 1%nat.
Proof. intros H Hne. by destruct H. Qed.

Lemma workload_ops_length c0 n i ops os i' :
  workload_ops c0 n i ops os i' -> Forall (fun op => op <> READMODIFYWRITE) ops -> length os = length ops.
Proof.
  intros H. induction H as [|i i' i'' op ops o os Ho _ IH]; intros Hf; [done|].
  inversion_clear Hf. rewrite length_app, (transaction_ops_length _ _ _ _ _ _ Ho), IH by done. done.
Qed.
End written.

(** C16: with one thread the program writes a complete workload file.  For uniformly
    chosen keys starting at 0, field lengths and scan lengths that are not zipfian, a
    field length that is not negative, properties for which the initialisation of the
    workload succeeds (in particular the bounds of every uniform distribution are in
    order: no maximal scan length of 0, no uniform field length of 0), no
    read-modify-write operations, and proportions for which the choice of an operation
    does not fall off its list: [main] terminates without error, for every schedule
    that lets its thread finish, after the first draw of each key; the driver reads
    from its file the keys [0 .. recordcount-1] (hashed unless inserts are ordered),
    and as many transactions as [operationcount] says: those that the chosen operations
    perform, on keys that were loaded, or inserting the keys from [recordcount] on. *)
Theorem main_writes_workload `{HD : Doubles} `{HR : !Random} (pad : list Z -> list Z) (f : nat)
    (files : string -> option string) (w : world) (loading running : list nat) (argv : list string)
    (name : string) (p : Properties) (n m : Z) (ud : bool) (c0 : CoreWorkload) :
  (forall bs, length (pad bs) = 7%nat) -> uniform_bounds ->
  ParseCommandLine files argv no_properties = Ok (name, p) ->
  simple_workload p n m ud -> Init p (new_core w) = Ok c0 ->
  always_chooses c0 -> READMODIFYWRITE ∉ (values_ (op_chooser_ c0)).*1 ->
  (Z.to_nat n + 2 <= count_occ Nat.eq_dec loading 0)%nat ->
  (Z.to_nat m + 2 <= count_occ Nat.eq_dec running 0)%nat ->
  exists loaded sum file e ops os i',
    main pad (S f) files w loading running argv = Ok (loaded, sum, file, e) /\
    load (fs_ e) = Ok (mk_workload ((fun k => if ordered_inserts_ c0 then k else Hash k) <$> seqZ 0 n)
                        (tx_of_op ud <$> os)) /\
    Z.of_nat (length os) = m /\ length ops = length os /\
    Forall (fun op => op ∈ (values_ (op_chooser_ c0)).*1) ops /\ workload_ops c0 n n ops os i'.
Proof.
  intros Hpad HU Hparse Hp HI Hops Hrmw Hs1 Hs2.
  destruct (CreateDB_simple p n m ud Hp) as [file Hdb]. destruct (sw_range _ _ _ _ Hp) as [Hn Hm].
  destruct (sw_records _ _ _ _ Hp) as (s & Hs & Hsn). destruct (sw_operations _ _ _ _ Hp) as (s' & Hs' & Hsm).
  pose proof (stoi_range _ _ Hsn). pose proof (stoi_range _ _ Hsm).
  pose proof (Init_steady p w c0 n m ud Hp HI) as Hst.
  destruct (phases_run pad f c0 n (Z.to_nat m) ud HU) as (oks & d1 & oks' & d2 & kvs & ops & os & i' & E1 & E2 &
    Hk & Hl & Hf & Hw & Hrun); [lia|lia|done|done|]. rewrite Z2Nat.id in E1, E2, Hrun by lia.
  assert (length kvs = Z.to_nat n) as Hlk.
  { apply (f_equal length) in Hk. by rewrite !length_fmap, length_seqZ in Hk. }
  assert (length os = Z.to_nat m) as Hlo.
  { rewrite (workload_ops_length _ _ _ _ _ _ Hw), Hl; [done|]. eapply List.Forall_impl; [ |exact Hf].
    by intros op Hop ->. }
  assert (Forall long_key kvs.*1) as Hlong.
  { rewrite Hk. apply Forall_fmap, Forall_forall. intros j _. apply long_key_name. }
  assert (Forall long_key (op_key <$> os)) as Hlong'.
  { apply Forall_fmap. eapply List.Forall_impl; [|by eapply workload_ops_keys].
    intros op [j E]. simpl. rewrite E. apply long_key_name. }
  unfold written_export in *. destruct (export_run_loads pad (table_name_ c0) kvs os ud Hpad Hlong Hlong') as (e & Ee & El);
    [rewrite Hlk; split; unfold two64; lia|rewrite Hlo; split; unfold two64; lia|].
  rewrite Hlk, Hlo, !Z2Nat.id, Hrun in Ee by lia. injection Ee as <-.
  exists oks, oks', file, d2.1, ops, os, i'. split_and!; [| |lia|lia|done|done].
  - unfold main. rewrite Hparse. unfold mbind, res_bind. rewrite Hdb, HI, (sw_threads _ _ _ _ Hp), Hs, Hsn, Hs', Hsm.
    rewrite phase_single by lia. unfold main_export. rewrite E1. change (ExportDB pad) with (main_export pad).
    rewrite phase_single by lia. unfold main_export. rewrite E2. done.
  - rewrite El. do 2 f_equal. change ((fun kv => key_number kv.1) <$> kvs) with ((key_number ∘ fst) <$> kvs).
    rewrite list_fmap_compose, Hk, <- list_fmap_compose. apply list_fmap_ext. intros j k Hj. apply key_number_name.
    apply lookup_seqZ in Hj as [-> Hj]. split; unfold two64; lia.
Qed.


(** ** Examples *)

(** Random engines that always draw zero, and the least number of a range. *)
Definition zero_random : Random (H := exact_doubles) :=
  Build_Random exact_doubles unit tt (fun min max e => (min, e)) unit (fun w => (QArith_base.inject_Z 0, w)) (fun w => (0, w)).

#[local] Existing Instance exact_doubles.
#[local] Existing Instance zero_random.

Definition world0 : world := ().

Definition spec_file (props : list (string * string)) : string -> option string := fun f =>
  if decide (f = "workloads/w.spec"%string) then Some (show props) else None.

Definition argv_ex : list string := ["ycsbc"; "-db"; "export"; "-P"; "w"]%string.

Definition proportions (read rmw : string) : list (string * string) :=
  [(READ_PROPORTION_PROPERTY, read); (READMODIFYWRITE_PROPORTION_PROPERTY, rmw);
   (UPDATE_PROPORTION_PROPERTY, "0"); (INSERT_PROPORTION_PROPERTY, "0"); (SCAN_PROPORTION_PROPERTY, "0")]%string.

Definition simple_ex : list (string * string) :=
  (RECORD_COUNT_PROPERTY, "2") :: (OPERATION_COUNT_PROPERTY, "3") :: (INSERT_ORDER_PROPERTY, "ordered")
    :: proportions "1" "0".

Definition parsed_ex : Properties :=
  match ParseCommandLine (spec_file simple_ex) argv_ex no_properties with Ok (_, p) => p | Err _ => no_properties end.

Definition core0_ex : CoreWorkload :=
  match Init parsed_ex (new_core world0) with Ok c => c | Err _ => new_core world0 end.

Lemma parsed_ok :
  is_ok (ParseCommandLine (spec_file simple_ex) argv_ex no_properties) = true ->
  exists name, ParseCommandLine (spec_file simple_ex) argv_ex no_properties = Ok (name, parsed_ex).
Proof.
  unfold parsed_ex. destruct (ParseCommandLine _ _ _) as [[name p]|e]; [|done]. intros _. by exists name.
Qed.

Lemma core0_ok : is_ok (Init parsed_ex (new_core world0)) = true -> Init parsed_ex (new_core world0) = Ok core0_ex.
Proof. unfold core0_ex. by destruct (Init _ _). Qed.

Theorem main_writes_workload_witness :
  exists loaded sum file e ops os i',
    main (fun _ => replicate 7 0) 1 (spec_file simple_ex) world0 (replicate 4 0%nat) (replicate 5 0%nat) argv_ex =
      Ok (loaded, sum, file, e) /\
    load (fs_ e) = Ok (mk_workload ((fun k => if ordered_inserts_ core0_ex then k else Hash k) <$> seqZ 0 2)
                        (tx_of_op false <$> os)) /\
    Z.of_nat (length os) = 3 /\ length ops = length os /\
    Forall (fun op => op ∈ (values_ (op_chooser_ core0_ex)).*1) ops /\ workload_ops core0_ex 2 2 ops os i'.
Proof.
  destruct parsed_ok as [name Hname]; [by vm_compute|].
  apply (main_writes_workload (fun _ => replicate 7 0) 0 (spec_file simple_ex) world0 (replicate 4 0%nat) (replicate 5 0%nat)
    argv_ex name parsed_ex 2 3 false core0_ex); [done| |done| | | | | |].
  - intros a b e Hab. simpl. lia.
  - split; [|exists "w"%string|exists "2"%string|exists "3"%string| ..];
      try (vm_compute; reflexivity); [split; vm_compute; reflexivity..|by split|by vm_compute|].
    exists 100. split; [by vm_compute|done].
  - apply core0_ok. by vm_compute.
  - intros w. exists READ. by vm_compute.
  - apply (bool_decide_unpack _). by vm_compute.
  - by vm_compute; lia.
  - by vm_compute; lia.
Defined.

(** [-threads 2] never gives the announced workload: with two keys to load, 5 and 6,
    and the steps of the two threads interleaved, [Init] aborts; if the second thread
    starts after the first has closed the database, its key is written as a transaction,
    and the driver reads 1 for the second key. *)
Theorem two_threads_lose_records :
  let run loading running :=
    main (fun _ => replicate 7 0) 1
      (spec_file ((RECORD_COUNT_PROPERTY, "2") :: (OPERATION_COUNT_PROPERTY, "2") :: (INSERT_ORDER_PROPERTY, "ordered")
        :: (INSERT_START_PROPERTY, "5") :: proportions "1" "0")%string) world0
      loading running (argv_ex ++ ["-threads"%string; "2"%string])%list in
  is_ok (run [0; 1; 0; 0; 1; 1] [0; 0; 0; 1; 1; 1])%nat = false /\
  match run [0; 0; 0; 1; 1; 1]%nat [0; 0; 0; 1; 1; 1]%nat with
  | Ok (_, _, _, e) =>
      match load (fs_ e) with
      | Ok wl => num_records_ e = 2 /\ w_elems wl = [5; 1]
      | Err _ => False
      end
  | Err _ => False
  end.
Proof. vm_compute. by repeat split. Qed.

(** A read-modify-write operation is one operation for the header of the file and two
    records in it: with one such operation the driver reads only the query, and the
    update is never executed. *)
Theorem readmodifywrite_truncated :
  match main (fun _ => replicate 7 0) 1
      (spec_file ((RECORD_COUNT_PROPERTY, "1") :: (OPERATION_COUNT_PROPERTY, "1") :: (INSERT_ORDER_PROPERTY, "ordered")
        :: proportions "0" "1")%string) world0 (replicate 4 0%nat) (replicate 4 0%nat) argv_ex with
  | Ok (_, _, _, e) =>
      length (fs_ e) = (16 + 8 + 2 * tx_size)%nat /\
      load (fs_ e) = Ok (mk_workload [0] [mk_tx OP_QUERY 0 0])
  | Err _ => False
  end.
Proof. vm_compute. by repeat split. Qed.
