(* ===== verification/Batch.v ===== *)
(** * The batching database

    [src/db/batch.hpp]: updates are collected in a buffer and executed together; every
    batch makes a new root.  Queries carry the number of updates submitted before them,
    and look for the first root that is not older.  The tree is a parameter, the class
    [BatchTree], whose laws [BatchTreeLaws] state what the database relies on; at the end
    the tree of [src/lib/pam] is shown to satisfy them. *)

From stdpp Require Import sorting.
From S2P Require Import Prelude Owned TreapTree PamNode PamBuild PamQuery PamUpdate Pam.
From S2P Require Import QueryProcessor Database.

#[local] Open Scope Z_scope.

(** ** The tree: the template parameter [T] *)

Class BatchTree (N : Type) := {
  T_build : nat -> list Z -> M N ptr;
  T_inserted : ptr -> Z -> nat -> list Z -> M N ptr;
  T_deleted : ptr -> Z -> nat -> list Z -> M N ptr;
  T_find : ptr -> Z -> Z -> M N Z;
  T_range_estimate : ptr -> Z -> Z -> Z -> M N Z;
}.

(** ** State *)

Inductive operation := INSERT | DELETE.

#[global] Instance operation_eq_dec : EqDecision operation.
Proof. solve_decision. Defined.

(** A node of the list of roots.  The list is modelled by the sequence of its nodes:
    [prev] and [next] are the neighbours. *)
Record root_list := mk_root { r_version : Z; r_tree : ptr }.

Section batch.
Context {N : Type} `{HT : BatchTree N} (room : processor -> bool).

Record batch := mk_batch {
  bt_heap : gmap loc N;
  batch_size_ : nat;
  buffer_type_ : operation;
  buffer_count_ : nat;
  buffer_ : list Z;
  version_submitted_ : Z;
  version_committed_ : Z;
  query_processor_ : processor;
  roots : list root_list;
  num_versions_ : nat;
}.

Definition set_heap (h : gmap loc N) (s : batch) : batch :=
  mk_batch h (batch_size_ s) (buffer_type_ s) (buffer_count_ s) (buffer_ s) (version_submitted_ s)
    (version_committed_ s) (query_processor_ s) (roots s) (num_versions_ s).
Definition set_type (t : operation) (s : batch) : batch :=
  mk_batch (bt_heap s) (batch_size_ s) t (buffer_count_ s) (buffer_ s) (version_submitted_ s)
    (version_committed_ s) (query_processor_ s) (roots s) (num_versions_ s).
Definition set_buffer (n : nat) (b : list Z) (s : batch) : batch :=
  mk_batch (bt_heap s) (batch_size_ s) (buffer_type_ s) n b (version_submitted_ s)
    (version_committed_ s) (query_processor_ s) (roots s) (num_versions_ s).
Definition set_submitted (v : Z) (s : batch) : batch :=
  mk_batch (bt_heap s) (batch_size_ s) (buffer_type_ s) (buffer_count_ s) (buffer_ s) v
    (version_committed_ s) (query_processor_ s) (roots s) (num_versions_ s).
Definition set_committed (v : Z) (s : batch) : batch :=
  mk_batch (bt_heap s) (batch_size_ s) (buffer_type_ s) (buffer_count_ s) (buffer_ s) (version_submitted_ s)
    v (query_processor_ s) (roots s) (num_versions_ s).
Definition set_processor (p : processor) (s : batch) : batch :=
  mk_batch (bt_heap s) (batch_size_ s) (buffer_type_ s) (buffer_count_ s) (buffer_ s) (version_submitted_ s)
    (version_committed_ s) p (roots s) (num_versions_ s).
Definition set_roots (rs : list root_list) (n : nat) (s : batch) : batch :=
  mk_batch (bt_heap s) (batch_size_ s) (buffer_type_ s) (buffer_count_ s) (buffer_ s) (version_submitted_ s)
    (version_committed_ s) (query_processor_ s) rs n.

(** [new Batch<T>(num_threads, num_clients, batch_size)]; the buffer is not initialised. *)
Definition new_batch (num_clients batch_size : nat) : batch :=
  mk_batch ∅ batch_size INSERT 0 (replicate batch_size 0) 0 0 (new_processor num_clients) [] 0.

(** [root_], the last node of the list. *)
Definition get_root : SM batch root_list := fun s =>
  match last (roots s) with Some r => Ok (r, s) | None => Err NullDeref end.

Abbreviation on_heap := (in_heap bt_heap set_heap).

(** ** Updates *)

Definition do_update_ : SM batch unit :=
  root ← get_root;
  s ← sm_get (fun s => s);
  t_new ← match buffer_type_ s with
          | INSERT => on_heap (T_inserted (r_tree root) (wrap64 (version_committed_ s + 1)) (buffer_count_ s) (buffer_ s))
          | DELETE => on_heap (T_deleted (r_tree root) (wrap64 (version_committed_ s + 1)) (buffer_count_ s) (buffer_ s))
          end;
  sm_modify (fun s => set_committed (wrap64 (version_committed_ s + Z.of_nat (buffer_count_ s))) s);;
  sm_modify (fun s => set_buffer 0 (buffer_ s) s);;
  sm_modify (fun s => set_roots (roots s ++ [mk_root (version_committed_ s) t_new]) (S (num_versions_ s)) s).

(** [buffer_[buffer_count_++] = key] *)
Definition put_buffer (key : Z) : SM batch unit := fun s =>
  if (buffer_count_ s <? length (buffer_ s))%nat then
    Ok (tt, set_buffer (S (buffer_count_ s)) (<[buffer_count_ s := key]> (buffer_ s)) s)
  else Err BadPtr.

Definition update_enbuffer_ (type : operation) (key : Z) : SM batch unit :=
  s ← sm_get (fun s => s);
  (if decide (buffer_type_ s = type) then mret tt
   else do_update_;; sm_modify (set_type type));;
  put_buffer key;;
  sm_modify (fun s => set_submitted (wrap64 (version_submitted_ s + 1)) s);;
  s ← sm_get (fun s => s);
  if (buffer_count_ s =? batch_size_ s)%nat then do_update_ else mret tt.

(** ** Queries *)

(** The thread-local variables of [process_range_query_]; [cur_root] is a position in
    the list of roots. *)
Record local := mk_local { cur_vid : nat; last_vid : nat; cur_root : nat }.

Definition new_local : local := mk_local 0 0 0.

(** [cur_root->ver] *)
Definition root_ver (rs : list root_list) (i : nat) : res Z :=
  match rs !! i with Some r => Ok (r_version r) | None => Err NullDeref end.

(** [while (cur_root != root0_ && ver <= cur_root->prev->ver) { ... }], structural in
    [cur_root]. *)
Fixpoint go_back (rs : list root_list) (ver : Z) (vid cur : nat) : res (nat * nat) :=
  match cur with
  | O => Ok (vid, O)
  | S prev =>
      match root_ver rs prev with
      | Err e => Err e
      | Ok v => if ver <=? v then go_back rs ver (vid - 1) prev else Ok (vid, cur)
      end
  end.

(** [while (ver > cur_root->ver && cur_vid < last_vid) { ... }], for
    [n = last_vid - cur_vid]. *)
Fixpoint go_forward (rs : list root_list) (ver : Z) (n : nat) (vid cur : nat) : res (nat * nat) :=
  match root_ver rs cur with
  | Err e => Err e
  | Ok v =>
      if v <? ver then
        match n with
        | O => Ok (vid, cur)
        | S n => go_forward rs ver n (S vid) (S cur)
        end
      else Ok (vid, cur)
  end.

(** [while (ver > cur_root->ver) { ... }]: the first round uses the old [last_vid], the
    second one the current number of versions; after that, the thread spins until
    another version is committed. *)
Definition find_root (ver : Z) (c : local) : SM batch local := fun s =>
  match go_back (roots s) ver (cur_vid c) (cur_root c) with
  | Err e => Err e
  | Ok (vid, cur) =>
      match go_forward (roots s) ver (last_vid c - vid) vid cur with
      | Err e => Err e
      | Ok (vid, cur) =>
          match root_ver (roots s) cur with
          | Err e => Err e
          | Ok v =>
              if v <? ver then
                match go_forward (roots s) ver (num_versions_ s - vid) vid cur with
                | Err e => Err e
                | Ok (vid, cur) =>
                    match root_ver (roots s) cur with
                    | Err e => Err e
                    | Ok v => if v <? ver then Err Blocked else Ok (mk_local vid (num_versions_ s) cur, s)
                    end
                end
              else Ok (mk_local vid (last_vid c) cur, s)
          end
      end
  end.

Definition process_range_query_ (ver l r : Z) (c : local) : SM batch (Z * local) :=
  c ← find_root ver c;
  s ← sm_get (fun s => s);
  match roots s !! cur_root c with
  | None => sm_fail NullDeref
  | Some root =>
      x ← (if l =? r then on_heap (T_find (r_tree root) ver l)
           else on_heap (T_range_estimate (r_tree root) ver l r));
      mret (x, c)
  end.

(** ** The interface *)

(** The workers of the new [parlay::scheduler] run the forked tasks of the tree. *)
Definition Batch_Init (n m : nat) (elems : list Z) : SM batch unit :=
  t ← on_heap (T_build n elems);
  sm_modify (fun s => set_roots [mk_root 0 t] (num_versions_ s) s);;
  sm_modify (fun s => set_processor (Start (query_processor_ s)) s).

Definition flush : SM batch unit :=
  s ← sm_get (fun s => s);
  if (0 <? buffer_count_ s)%nat then do_update_ else mret tt.

Definition Batch_Close : SM batch unit :=
  flush;;
  sm_modify (fun s => set_processor (Stop_signal (query_processor_ s)) s);;
  sm_await (fun s => Stop_joined (query_processor_ s)).

Definition Batch_Query (l r : Z) : SM batch Z := fun s =>
  let (z, p) := Push (room (query_processor_ s)) (version_submitted_ s) l r (query_processor_ s) in
  Ok (z, set_processor p s).

Definition Batch_Insert (k : Z) : SM batch Z := update_enbuffer_ INSERT k;; mret 0.
Definition Batch_Delete (k : Z) : SM batch Z := update_enbuffer_ DELETE k;; mret 0.

#[global] Instance Batch : Interface batch := {
  Init := Batch_Init;
  Close := Batch_Close;
  Query := Batch_Query;
  Insert := Batch_Insert;
  Delete := Batch_Delete;
}.
End batch.
Arguments batch N : clear implicits.

(** ** What the database relies on *)

(** [bt_snapshot g h p a v]: in the heap [h], whose published part is [g], [p] is the root
    of the tree [a], made by updates up to version [v].  [bt_value a w k] is the counter of
    [k] in [a] at version [w].  The sum of the counters over a range is taken over all
    the keys of the range. *)
Definition range_total (f : Z -> Z) (l r : Z) : Z := sum_Z (f <$> seqZ l (r - l + 1)).

Class BatchTreeLaws (N : Type) `{BatchTree N} := {
  bt_published : Type;
  bt_tree : Type;
  bt_snapshot : bt_published -> gmap loc N -> ptr -> bt_tree -> Z -> Prop;
  bt_value : bt_tree -> Z -> Z -> Z;
  bt_size : bt_tree -> nat;
  bt_limit : nat;
  (** The operation [m] publishes a new tree that satisfies [Q]; all others stay. *)
  bt_publishes (g : bt_published) (h : gmap loc N) (m : M N ptr) (v : Z) (Q : bt_tree -> Prop) : Prop :=
    wp m (fun q h' => exists g' a, bt_snapshot g' h' q a v /\ Q a /\
      forall q0 a0 v0, bt_snapshot g h q0 a0 v0 -> bt_snapshot g' h' q0 a0 v0) h;
  law_build n es :
    (n < bt_limit)%nat -> (n <= length es)%nat -> Forall u64 es ->
    exists g, bt_publishes g ∅ (T_build n es) 0 (fun a => (bt_size a <= n)%nat /\
      forall k w, 0 <= w -> bt_value a w k = wrap64 (count k (take n es)));
  law_nonneg g h p a v : bt_snapshot g h p a v -> 0 <= v;
  law_last g h p a v v' : bt_snapshot g h p a v -> v <= v' -> bt_snapshot g h p a v';
  law_stable g h p a v k w : bt_snapshot g h p a v -> v <= w -> bt_value a w k = bt_value a v k;
  law_inserted g h p a v n es :
    bt_snapshot g h p a v -> v + 1 + Z.of_nat n <= vstat_uninitialized -> (n <= length es)%nat ->
    Forall u64 es -> (bt_size a + n < bt_limit)%nat ->
    bt_publishes g h (T_inserted p (v + 1) n es) (v + Z.of_nat n) (fun a' => (bt_size a' <= bt_size a + n)%nat /\
      forall k w, v < w -> bt_value a' w k =
        let upto := count k (take (Z.to_nat (w - v)) (take n es)) in
        if count k (take n es) =? 0 then bt_value a v k else if upto =? 0 then 0 else wrap64 (bt_value a v k + upto));
  law_deleted g h p a v n es :
    bt_snapshot g h p a v -> v + 1 + Z.of_nat n <= vstat_uninitialized -> (n <= length es)%nat ->
    Forall u64 es -> (bt_size a + n < bt_limit)%nat ->
    bt_publishes g h (T_deleted p (v + 1) n es) v (fun a' => (bt_size a' <= bt_size a + n)%nat /\
      forall k w, v <= w -> bt_value a' w k = if count k (take n es) =? 0 then bt_value a v k else 0);
  law_find g h p a v w k :
    bt_snapshot g h p a v -> (bt_size a < bt_limit)%nat ->
    wp (T_find p w k) (fun x h' => h' = h /\ x = bt_value a w k) h;
  law_range g h p a v w l r :
    bt_snapshot g h p a v -> (bt_size a < bt_limit)%nat ->
    wp (T_range_estimate p w l r) (fun x h' => h' = h /\ x = wrap64 (range_total (bt_value a w) l r)) h;
}.

(** ** The specification *)

(** An update of the counters: insertion adds one (modulo [2^64]), deletion forgets. *)
Definition counts_request (q : request) (f : Z -> Z) : Z -> Z :=
  match q with
  | RQuery _ _ => f
  | RInsert k => fun j => if k =? j then wrap64 (f j + 1) else f j
  | RDelete k => fun j => if k =? j then 0 else f j
  end.

(** The counters after the first [v] of the updates [us]. *)
Definition counts_at (f0 : Z -> Z) (us : list request) (v : nat) : Z -> Z :=
  foldl (fun f u => counts_request u f) f0 (take v us).

Definition is_update (q : request) : bool := match q with RQuery _ _ => false | _ => true end.

Definition update_of (t : operation) (k : Z) : request := match t with INSERT => RInsert k | DELETE => RDelete k end.

Definition updated_key (q : request) : option Z :=
  match q with RQuery _ _ => None | RInsert k | RDelete k => Some k end.

(** No update from version [v] to version [v'] is about [k]. *)
Definition untouched (us : list request) (v v' : nat) (k : Z) : Prop :=
  Some k ∉ updated_key <$> drop v (take v' us).

Lemma foldl_inserts es f k :
  u64 (f k) -> foldl (fun f u => counts_request u f) f (map RInsert es) k = wrap64 (f k + count k es).
Proof.
  revert f. induction es as [|e es IH]; intros f Hf; simpl; [by rewrite Z.add_0_r, wrap64_small|].
  rewrite IH; simpl.
  - destruct (Z.eqb_spec e k); [|done]. rewrite wrap64_add_l. f_equal. lia.
  - destruct (e =? k); [auto with u64|done].
Qed.

Lemma foldl_deletes es f k :
  foldl (fun f u => counts_request u f) f (map RDelete es) k = if count k es =? 0 then f k else 0.
Proof.
  revert f. induction es as [|e es IH]; intros f; simpl; [done|]. rewrite IH. simpl.
  pose proof (count_nonneg k es). zcases; try done; lia.
Qed.

Lemma count_zero k es : count k es = 0 <-> k ∉ es.
Proof.
  induction es as [|e es IH]; simpl; [split; [intros _ H; by apply elem_of_nil in H|done]|].
  pose proof (count_nonneg k es). rewrite not_elem_of_cons, <- IH.
  destruct (Z.eqb_spec e k); [split; [lia|naive_solver]|]. naive_solver.
Qed.

Lemma counts_at_app f0 us us' v : (v <= length us)%nat -> counts_at f0 (us ++ us') v = counts_at f0 us v.
Proof. intros Hv. unfold counts_at. by rewrite take_app_le. Qed.

Lemma counts_at_u64 f0 us v k : (forall k, u64 (f0 k)) -> u64 (counts_at f0 us v k).
Proof.
  intros Hf. unfold counts_at. generalize (take v us). intros l. revert f0 Hf.
  induction l as [|u l IH]; intros f0 Hf; simpl; [done|]. apply IH. intros j.
  destruct u; simpl; [done| |]; destruct (_ =? _); auto with u64. by split.
Qed.

(** ** Batches *)

Definition op_of (q : request) : option operation :=
  match q with RQuery _ _ => None | RInsert _ => Some INSERT | RDelete _ => Some DELETE end.

(** The number of updates of the kind [t] with which the list starts. *)
Fixpoint run_length (t : option operation) (us : list request) : nat :=
  match us with
  | u :: us => if decide (op_of u = t) then S (run_length t us) else 0%nat
  | [] => 0%nat
  end.

(** The length of the first batch of [us]: as many updates of one kind as there are, at most [bs]. *)
Definition batch_length (bs : nat) (us : list request) : nat :=
  match us with u :: _ => (bs `min` run_length (op_of u) us)%nat | [] => 0%nat end.

(** The batch that executes the update number [ver]: it starts after version [v'] and ends
    with version [v], and the next one starts where it ends. *)
Fixpoint batch_from (fuel bs : nat) (us : list request) (v' ver : nat) : nat * nat :=
  match fuel with
  | O => (v', v')
  | S fuel =>
      let v := (v' + batch_length bs (drop v' us))%nat in
      if (ver <=? v)%nat then (v', v) else batch_from fuel bs us v ver
  end.

Definition batch_of_version (bs : nat) (us : list request) (ver : nat) : nat * nat := batch_from ver bs us 0 ver.

(** The number of updates in the batches that are complete: all of them if the last one is full. *)
Definition complete_batches (bs : nat) (us : list request) : nat :=
  let '(v', v) := batch_of_version bs us (length us) in if (v - v' =? bs)%nat then v else v'.

(** What a query of version [w] sees in the tree that the batch from version [v'] to [v] made: a
    key that the batch updates after [w], but not up to [w], is forgotten. *)
Definition seen (f0 : Z -> Z) (us : list request) (v' v w : nat) (k : Z) : Z :=
  if decide (untouched us w v k) then counts_at f0 us w k
  else if decide (untouched us v' w k) then 0 else counts_at f0 us w k.

(** The counters that a query of version [ver] sees. *)
Definition batch_counts (f0 : Z -> Z) (bs : nat) (us : list request) (ver : nat) (k : Z) : Z :=
  let '(v', v) := batch_of_version bs us ver in seen f0 us v' v ver k.

Lemma op_of_update t k : op_of (update_of t k) = Some t.
Proof. by destruct t. Qed.

Lemma run_length_map t ks us : run_length (Some t) (map (update_of t) ks ++ us) = (length ks + run_length (Some t) us)%nat.
Proof. induction ks as [|k ks IH]; simpl; [done|]. rewrite op_of_update, decide_True by done. by rewrite IH. Qed.

Lemma run_length_other t us : (forall u, us !! 0%nat = Some u -> op_of u <> t) -> run_length t us = 0%nat.
Proof. intros Hne. destruct us as [|u us]; [done|]. simpl. rewrite decide_False; [done|]. by apply Hne. Qed.

(** A batch [ks] is closed by its size, by an update of the other kind, or by the end. *)
Lemma batch_length_closed bs t ks us : ks <> [] -> (length ks <= bs)%nat ->
  length ks = bs \/ (forall u, us !! 0%nat = Some u -> op_of u <> Some t) ->
  batch_length bs (map (update_of t) ks ++ us) = length ks.
Proof.
  intros Hne Hle Hend. destruct ks as [|k ks]; [done|]. unfold batch_length. cbn [map app].
  rewrite op_of_update. change (update_of t k :: map (update_of t) ks ++ us) with (map (update_of t) (k :: ks) ++ us).
  rewrite run_length_map. destruct Hend as [Hend|Hend]; [lia|]. rewrite run_length_other by done. lia.
Qed.

(** [v] is the end of a number of batches. *)
Inductive boundary (bs : nat) (us : list request) : nat -> nat -> Prop :=
  | boundary_here v : boundary bs us v v
  | boundary_next v' v : (0 < batch_length bs (drop v' us))%nat ->
      boundary bs us (v' + batch_length bs (drop v' us)) v -> boundary bs us v' v.

Lemma boundary_le bs us v' v : boundary bs us v' v -> (v' <= v)%nat.
Proof. induction 1; lia. Qed.

Lemma boundary_snoc bs us v0 v' : boundary bs us v0 v' -> boundary bs us v0 (v' + batch_length bs (drop v' us)).
Proof.
  induction 1 as [v|v0 v' Hpos _ IH]; [|by constructor].
  destruct (decide (batch_length bs (drop v us) = 0%nat)) as [->|]; [rewrite Nat.add_0_r; constructor|].
  apply boundary_next; [lia|constructor].
Qed.

Lemma batch_from_boundary bs us v0 v' ver fuel : boundary bs us v0 v' -> (ver <= v0 + fuel)%nat ->
  (v' < ver <= v' + batch_length bs (drop v' us))%nat ->
  batch_from fuel bs us v0 ver = (v', (v' + batch_length bs (drop v' us))%nat).
Proof.
  intros Hb. revert fuel. induction Hb as [v|v0 v' Hpos Hb IH]; intros fuel Hf Hver; (destruct fuel as [|fuel]; [apply boundary_le in Hb || idtac; lia|]).
  - cbn [batch_from]. cbv zeta. rewrite (proj2 (Nat.leb_le _ _)) by lia. done.
  - cbn [batch_from]. cbv zeta. assert (H := boundary_le _ _ _ _ Hb).
    destruct (Nat.leb_spec ver (v0 + batch_length bs (drop v0 us))); [lia|]. apply IH; lia.
Qed.

Lemma batch_of_version_boundary bs us v' v ver : boundary bs us 0 v' ->
  (v' < ver <= v)%nat -> (v = v' + batch_length bs (drop v' us))%nat -> batch_of_version bs us ver = (v', v).
Proof. intros Hb Hver ->. by apply batch_from_boundary. Qed.

(** Batches of one update end with every version. *)
Lemma batches_of_one us ver : Forall (fun u => is_update u = true) us -> (ver <= length us)%nat ->
  (batch_of_version 1 us ver).2 = ver.
Proof.
  intros Hus Hver. destruct (decide (ver = 0%nat)) as [->|Hne]; [done|].
  assert (forall v, (v < length us)%nat -> batch_length 1 (drop v us) = 1%nat) as Hone.
  { intros v Hv. destruct (lookup_lt_is_Some_2 us v Hv) as [u Hu]. rewrite (drop_S _ _ _ Hu). unfold batch_length.
    cbn [run_length]. rewrite decide_True by done. lia. }
  assert (forall n, (n <= length us)%nat -> boundary 1 us 0 n) as Hb.
  { intros n. induction n as [|n IH]; intros Hn; [constructor|].
    replace (S n) with (n + batch_length 1 (drop n us))%nat by (rewrite Hone; lia). apply boundary_snoc, IH. lia. }
  rewrite (batch_of_version_boundary 1 us (ver - 1) ver); [done|apply Hb; lia|lia|]. rewrite Hone by lia. lia.
Qed.

Lemma seen_end f0 us v' v k : seen f0 us v' v v k = counts_at f0 us v k.
Proof.
  unfold seen. rewrite decide_True; [done|]. unfold untouched. rewrite drop_ge; [by apply not_elem_of_nil|].
  rewrite length_take. lia.
Qed.

(** ** The invariant *)

Section correctness.
Context {N : Type} `{HT : BatchTree N} `{HL : !BatchTreeLaws N} (room : processor -> bool).
(** The counters and the number of the elements at the start. *)
Context (f0 : Z -> Z) (n0 : nat).
Hypothesis (Hf0 : forall k, u64 (f0 k)).

(** The root of version [v], made from the one of version [v']: from [v] on it has all
    the updates, and for the versions of its batch what [seen] says. *)
Definition root_ok (g : bt_published) (h : gmap loc N) (us : list request) (r : root_list) (v' v : nat) : Prop :=
  exists a, r_version r = Z.of_nat v /\ bt_snapshot g h (r_tree r) a (Z.of_nat v) /\ (bt_size a <= n0 + v)%nat /\
    (forall k w, Z.of_nat v <= w -> bt_value a w k = counts_at f0 us v k) /\
    (forall k (w : nat), (v' < w <= v)%nat -> bt_value a (Z.of_nat w) k = seen f0 us v' v w k).

(** The updates from [v'] to [v] are a batch: none, or at most [bs] of one kind, and then as many
    as fit, or followed by one of the other kind, or the last ones, of a kind that [w] allows. *)
Definition closed (w : operation -> Prop) (us : list request) (bs v' v : nat) : Prop :=
  v' = v \/ exists t ks, ks <> [] /\ length ks = (v - v')%nat /\ drop v' (take v us) = map (update_of t) ks /\
    (length ks = bs \/ (exists u, us !! v = Some u /\ op_of u <> Some t) \/ v = length us /\ w t).

(** The versions [vs] of the roots. *)
Definition roots_ok (w : operation -> Prop) (g : bt_published) (h : gmap loc N) (us : list request) (bs : nat)
    (vs : list nat) (rs : list root_list) : Prop :=
  length vs = length rs /\ vs !! 0%nat = Some 0%nat /\
  forall i r, rs !! i = Some r -> exists v' v,
    vs !! pred i = Some v' /\ vs !! i = Some v /\ (v' <= v <= v' + bs)%nat /\ (v <= length us)%nat /\
    root_ok g h us r v' v /\ closed w us bs v' v.

Record batching (w : operation -> Prop) (us : list request) (s : batch N) : Prop := {
  bg_count : (buffer_count_ s <= batch_size_ s)%nat;
  bg_buffer : length (buffer_ s) = batch_size_ s;
  bg_u64 : Forall u64 (buffer_ s);
  bg_submitted : version_submitted_ s = Z.of_nat (length us);
  bg_versions : S (num_versions_ s) = length (roots s);
  bg_roots : exists g vs cm, roots_ok w g (bt_heap s) us (batch_size_ s) vs (roots s) /\
    last vs = Some cm /\ version_committed_ s = Z.of_nat cm /\ (cm + buffer_count_ s = length us)%nat /\
    drop cm us = map (update_of (buffer_type_ s)) (take (buffer_count_ s) (buffer_ s));
}.

(** Room for the next updates. *)
Definition room_for (m : nat) : Prop :=
  (n0 + m < bt_limit)%nat /\ Z.of_nat m + 1 <= vstat_uninitialized.

Lemma u64_version m : room_for m -> u64 (Z.of_nat m + 1).
Proof. intros [_ H]. unfold vstat_uninitialized in H. split; lia. Qed.

Lemma untouched_app us us' v v' k : (v' <= length us)%nat -> untouched (us ++ us') v v' k <-> untouched us v v' k.
Proof. intros Hv. unfold untouched. by rewrite take_app_le. Qed.

Lemma seen_app us us' v' v w k : (v' <= w <= v)%nat -> (v <= length us)%nat ->
  seen f0 (us ++ us') v' v w k = seen f0 us v' v w k.
Proof.
  intros Hw Hv. unfold seen, untouched. by rewrite counts_at_app, !take_app_le by lia.
Qed.

Lemma root_ok_app g h us us' r v' v :
  (v' <= v)%nat -> (v <= length us)%nat -> root_ok g h us r v' v -> root_ok g h (us ++ us') r v' v.
Proof.
  intros Hv' Hv (a & E & Hs & Hz & H1 & H2). exists a. split_and!; try done.
  - intros k w Hw. by rewrite counts_at_app, H1.
  - intros k w Hw. rewrite seen_app by lia. by apply H2.
Qed.

Lemma closed_app w us bs v' v u : (v <= length us)%nat -> (forall t, w t -> op_of u <> Some t) ->
  closed w us bs v' v -> closed (fun _ => False) (us ++ [u]) bs v' v.
Proof.
  intros Hv Hw [->|(t & ks & Hne & Hl & Hd & Hend)]; [by left|]. right. exists t, ks.
  rewrite take_app_le by done. split_and!; try done. destruct Hend as [?|[(u' & Hu & Hne')|[-> Hwt]]]; [by left|..]; right; left.
  - exists u'. split; [|done]. by apply lookup_app_l_Some.
  - exists u. split; [by rewrite lookup_app_r, Nat.sub_diag|by apply Hw].
Qed.

Lemma closed_mono (w w' : operation -> Prop) us bs v' v : (forall t, w t -> w' t) -> closed w us bs v' v -> closed w' us bs v' v.
Proof.
  intros Hw [->|(t & ks & Hne & Hl & Hd & Hend)]; [by left|]. right. exists t, ks. split_and!; try done.
  destruct Hend as [?|[?|[? ?]]]; auto.
Qed.

(** So they are the batch that the specification says. *)
Lemma closed_length w us bs v' v : (v' <= v <= v' + bs)%nat -> (v <= length us)%nat -> closed w us bs v' v ->
  v' = v \/ (v = v' + batch_length bs (drop v' us))%nat.
Proof.
  intros Hv Hle [->|(t & ks & Hne & Hl & Hd & Hend)]; [by left|right].
  assert (drop v' us = map (update_of t) ks ++ drop v us) as ->.
  { rewrite <- Hd, <- (take_drop v us) at 1. by rewrite drop_app_le by (rewrite length_take; lia). }
  rewrite batch_length_closed; [lia|done|lia|]. destruct Hend as [?|[(u & Hu & Hne')|[-> _]]]; [by left|right..]; intros u' Hu'.
  - rewrite lookup_drop, Nat.add_0_r, Hu in Hu'. by injection Hu' as <-.
  - by rewrite drop_all in Hu'.
Qed.

Lemma roots_ok_app w g h us u bs vs rs : (forall t, w t -> op_of u <> Some t) ->
  roots_ok w g h us bs vs rs -> roots_ok (fun _ => False) g h (us ++ [u]) bs vs rs.
Proof.
  intros Hw (Hl & H0 & Hr). split_and!; [done|done|]. intros i r Hi.
  destruct (Hr i r Hi) as (v' & v & E' & E & Hv & Hle & Hok & Hcl). exists v', v. split_and!; try done.
  - lia.
  - lia.
  - rewrite length_app. lia.
  - apply root_ok_app; [lia|done|done].
  - by eapply closed_app.
Qed.

Lemma roots_ok_mono (w w' : operation -> Prop) g h us bs vs rs : (forall t, w t -> w' t) ->
  roots_ok w g h us bs vs rs -> roots_ok w' g h us bs vs rs.
Proof.
  intros Hw (Hl & H0 & Hr). split_and!; [done|done|]. intros i r Hi.
  destruct (Hr i r Hi) as (v' & v & E' & E & Hv & Hle & Hok & Hcl). exists v', v. split_and!; try done; [lia|lia|].
  by eapply closed_mono.
Qed.

Lemma batching_mono (w w' : operation -> Prop) us s : (forall t, w t -> w' t) -> batching w us s -> batching w' us s.
Proof.
  intros Hw [? ? ? ? ? (g & vs & cm & Hr & ?)]. split; try done. exists g, vs, cm. split; [|done]. by eapply roots_ok_mono.
Qed.

(** Every version of a root is the end of a number of batches. *)
Lemma roots_boundary w g h us bs vs rs i v : roots_ok w g h us bs vs rs -> vs !! i = Some v -> boundary bs us 0 v.
Proof.
  intros (Hl & H0 & Hr). revert v. induction i as [|i IH]; intros v Hv.
  { rewrite H0 in Hv. injection Hv as <-. constructor. }
  assert (exists r, rs !! S i = Some r) as [r Er].
  { apply lookup_lt_is_Some. rewrite <- Hl. by eapply lookup_lt_Some. }
  destruct (Hr _ _ Er) as (v' & v2 & E' & E & Hvv & Hle & _ & Hcl). rewrite Hv in E. injection E as <-. simpl in E'.
  destruct (closed_length _ _ _ _ _ Hvv Hle Hcl) as [->|Hn]; [by apply IH|]. rewrite Hn. by apply boundary_snoc, IH.
Qed.

(** The batch that ends with a root, which may be followed by empty ones *)
Lemma roots_nonempty w g h us bs vs rs i v : roots_ok w g h us bs vs rs -> vs !! i = Some v -> (0 < v)%nat ->
  exists v', (v' < v <= v' + bs)%nat /\ (v <= length us)%nat /\ closed w us bs v' v /\ boundary bs us 0 v'.
Proof.
  intros Hok Hv Hpos. assert (Hok' := Hok). destruct Hok as (Hl & H0 & Hr). revert Hv. induction i as [|i IH]; intros Hv.
  { rewrite H0 in Hv. injection Hv as <-. lia. }
  assert (exists r, rs !! S i = Some r) as [r Er].
  { apply lookup_lt_is_Some. rewrite <- Hl. by eapply lookup_lt_Some. }
  destruct (Hr _ _ Er) as (v' & v2 & E' & E & Hvv & Hle & _ & Hcl). rewrite Hv in E. injection E as <-. simpl in E'.
  destruct (decide (v' = v)) as [->|Hne]; [by apply IH|]. exists v'. split_and!; try done; [lia|lia|].
  by eapply roots_boundary.
Qed.

(** A new root. *)
Lemma roots_ok_snoc w g g' h h' us bs vs rs cm v r :
  roots_ok w g h us bs vs rs -> last vs = Some cm -> (cm <= v <= cm + bs)%nat -> (v <= length us)%nat ->
  (forall q0 a0 v0, bt_snapshot g h q0 a0 v0 -> bt_snapshot g' h' q0 a0 v0) ->
  root_ok g' h' us r cm v -> closed w us bs cm v -> roots_ok w g' h' us bs (vs ++ [v]) (rs ++ [r]).
Proof.
  intros (Hl & H0 & Hr) Hlast Hv Hle Hkeep Hok Hcl.
  assert (0 < length vs)%nat as Hpos by (destruct vs; [done|simpl; lia]).
  split_and!.
  - rewrite !length_app. simpl. lia.
  - rewrite lookup_app_l by done. done.
  - intros i r' Hi. destruct (decide (i < length rs)%nat) as [Hlt|Hge].
    + rewrite lookup_app_l in Hi by done. destruct (Hr i r' Hi) as (v1 & v2 & E1 & E2 & Hv12 & Hle2 & Hok2 & Hcl2).
      exists v1, v2. rewrite !lookup_app_l by lia. split_and!; try done; [lia|lia|].
      destruct Hok2 as (a & E & Hs & Hz & H1 & H2). exists a. split_and!; try done. by apply Hkeep.
    + rewrite lookup_app_r in Hi by lia. assert (i = length rs) as ->.
      { apply lookup_lt_Some in Hi. simpl in Hi. lia. }
      rewrite Nat.sub_diag in Hi. injection Hi as <-. exists cm, v.
      rewrite last_lookup in Hlast. rewrite <- Hl, lookup_app_l by lia. split_and!; try done; [|lia|lia].
      rewrite lookup_app_r, Nat.sub_diag by lia. done.
Qed.

(** The counters within a batch. *)
Lemma take_batch us cm t es w :
  (cm <= w)%nat -> drop cm us = map (update_of t) es -> take w us = take cm us ++ map (update_of t) (take (w - cm) es).
Proof.
  intros Hw Hd. rewrite <- firstn_map, <- Hd. rewrite <- (take_drop cm (take w us)), take_take, skipn_firstn_comm.
  by rewrite Nat.min_l.
Qed.

Lemma counts_batch us cm t es w k :
  (cm <= w)%nat -> drop cm us = map (update_of t) es ->
  counts_at f0 us w k =
    match t with
    | INSERT => wrap64 (counts_at f0 us cm k + count k (take (w - cm) es))
    | DELETE => if count k (take (w - cm) es) =? 0 then counts_at f0 us cm k else 0
    end.
Proof.
  intros Hle Hd. unfold counts_at at 1. rewrite (take_batch us cm t es w) by done.
  rewrite foldl_app. fold (counts_at f0 us cm). destruct t; simpl.
  - apply (foldl_inserts _ (counts_at f0 us cm)). by apply counts_at_u64.
  - apply (foldl_deletes _ (counts_at f0 us cm)).
Qed.

Lemma untouched_updates t es k : Some k ∉ updated_key <$> map (update_of t) es <-> count k es = 0.
Proof.
  rewrite count_zero. split; intros Hn Hin; apply Hn.
  - apply list_elem_of_fmap. exists (update_of t k). split; [by destruct t|].
    apply list_elem_of_fmap. by exists k.
  - apply list_elem_of_fmap in Hin as (u & Hu & Hin). apply list_elem_of_fmap in Hin as (j & -> & Hin).
    destruct t; simpl in Hu; by injection Hu as ->.
Qed.

Lemma untouched_before us cm t es w k : (cm <= w)%nat -> (cm <= length us)%nat -> drop cm us = map (update_of t) es ->
  untouched us cm w k <-> count k (take (w - cm) es) = 0.
Proof.
  intros Hw Hle Hd. unfold untouched. rewrite (take_batch us cm t es w) by done.
  rewrite drop_app_length' by (by rewrite length_take_le). apply untouched_updates.
Qed.

Lemma untouched_after us cm t es w k : (cm <= w)%nat -> drop cm us = map (update_of t) es ->
  untouched us w (length us) k <-> count k (drop (w - cm) es) = 0.
Proof.
  intros Hw Hd. unfold untouched. rewrite firstn_all.
  replace (drop w us) with (map (update_of t) (drop (w - cm) es)); [apply untouched_updates|].
  rewrite <- skipn_map, <- Hd, drop_drop. f_equal. lia.
Qed.

Lemma pam_count_app_split k (es : list Z) n : count k es = count k (take n es) + count k (drop n es).
Proof. rewrite <- (take_drop n es) at 1. generalize (take n es), (drop n es). intros xs ys.
  induction xs as [|x xs IH]; simpl; [done|]. rewrite IH. lia. Qed.

(** What a query sees within the batch [es] *)
Lemma seen_batch us cm t es w k :
  (cm <= w)%nat -> (cm <= length us)%nat -> drop cm us = map (update_of t) es ->
  let c := counts_at f0 us cm k in let upto := count k (take (w - cm) es) in
  seen f0 us cm (length us) w k =
    match t with
    | INSERT => if count k es =? 0 then c else if upto =? 0 then 0 else wrap64 (c + upto)
    | DELETE => if count k es =? 0 then c else 0
    end.
Proof.
  intros Hw Hle Hd. cbv zeta. unfold seen. rewrite (counts_batch us cm t es w) by done.
  pose proof (pam_count_app_split k es (w - cm)). pose proof (count_nonneg k (take (w - cm) es)).
  pose proof (count_nonneg k (drop (w - cm) es)). assert (u64 (counts_at f0 us cm k)) as Hu by by apply counts_at_u64.
  destruct (decide (untouched us w (length us) k)) as [Ha|Ha]; [apply (untouched_after us cm t es w k Hw Hd) in Ha|
    rewrite (untouched_after us cm t es w k Hw Hd) in Ha];
  destruct (decide (untouched us cm w k)) as [Hb|Hb];
    [apply (untouched_before us cm t es w k Hw Hle Hd) in Hb|rewrite (untouched_before us cm t es w k Hw Hle Hd) in Hb|
     apply (untouched_before us cm t es w k Hw Hle Hd) in Hb|rewrite (untouched_before us cm t es w k Hw Hle Hd) in Hb];
    destruct t; repeat case_match; try lia; try done; rewrite ?Hb, ?Z.add_0_r, ?wrap64_small by done; done.
Qed.

Lemma batch_get_root_ok w us s :
  batching w us s -> exists g vs cm r v', roots_ok w g (bt_heap s) us (batch_size_ s) vs (roots s) /\
    last vs = Some cm /\ version_committed_ s = Z.of_nat cm /\ (cm + buffer_count_ s = length us)%nat /\
    drop cm us = map (update_of (buffer_type_ s)) (take (buffer_count_ s) (buffer_ s)) /\
    get_root s = Ok (r, s) /\ root_ok g (bt_heap s) us r v' cm.
Proof.
  intros [_ _ _ _ Hn (g & vs & cm & Hr & Hl & Hc & Hcount & Hd)].
  pose proof Hr as (Hlen & H0 & Hok). assert (exists r, last (roots s) = Some r) as [r Er].
  { destruct (roots s) as [|r rs] eqn:E; [simpl in Hn; lia|]. apply last_is_Some. done. }
  pose proof Er as Er'. rewrite last_lookup in Er'. destruct (Hok _ _ Er') as (v' & v & E' & E & Hv & Hle & Hro & _).
  rewrite last_lookup, Hlen, E in Hl. injection Hl as ->.
  exists g, vs, cm, r, v'. split_and!; try done.
  - by rewrite last_lookup, Hlen.
  - unfold get_root. by rewrite Er.
Qed.

Lemma runs_heap {A} (m : M N A) (Q : A -> batch N -> Prop) s :
  wp m (fun a h => Q a (set_heap h s)) (bt_heap s) -> runs (in_heap bt_heap set_heap m) Q s.
Proof. intros (a & h & E & HQ). unfold runs, in_heap. rewrite E. by eexists _, _. Qed.

(** Executing the batch: afterwards every update is committed. *)
Lemma do_update_ok us s :
  batching (fun _ => False) us s -> room_for (length us) ->
  runs do_update_ (fun _ s' => batching (fun t => t = buffer_type_ s /\ buffer_count_ s < batch_size_ s)%nat us s' /\
    buffer_count_ s' = 0%nat /\ version_committed_ s' = Z.of_nat (length us) /\
    buffer_type_ s' = buffer_type_ s /\ batch_size_ s' = batch_size_ s /\ query_processor_ s' = query_processor_ s) s.
Proof.
  intros Hb [Hlim Hmax]. destruct (batch_get_root_ok _ us s Hb) as (g & vs & cm & r & v' & Hr & Hl & Hc & Hcount & Hd & Er & Hro).
  destruct Hb as [Hle Hlen Hu Hsub Hnum _]. destruct Hro as (a & Ev & Hs & Hz & H1 & H2).
  set (es := take (buffer_count_ s) (buffer_ s)) in *.
  unfold do_update_. apply runs_bind. eexists _, _. split; [exact Er|]. apply runs_bind, runs_get.
  assert (wrap64 (version_committed_ s + 1) = Z.of_nat cm + 1) as ->.
  { rewrite Hc. apply wrap64_small. unfold vstat_uninitialized in Hmax. split; lia. }
  apply runs_bind. apply (runs_mono _ (fun q s1 => exists h' g' , s1 = set_heap h' s /\
    root_ok g' h' us (mk_root (Z.of_nat (length us)) q) cm (length us) /\
    forall q0 a0 v0, bt_snapshot g (bt_heap s) q0 a0 v0 -> bt_snapshot g' h' q0 a0 v0)).
  - intros q s1 (h' & g' & -> & Hok & Hkeep).
    apply runs_bind. eexists _, _. split; [done|]. apply runs_bind. eexists _, _. split; [done|].
    eexists _, _. split; [done|]. simpl.
    assert (wrap64 (version_committed_ s + Z.of_nat (buffer_count_ s)) = Z.of_nat (length us)) as ->.
    { rewrite Hc. rewrite wrap64_small; [lia|]. unfold vstat_uninitialized in Hmax. split; lia. }
    split; [|done]. split; simpl; try done; [lia|rewrite length_app; simpl; lia|].
    exists g', (vs ++ [length us]), (length us). split_and!; try done.
    + eapply (roots_ok_snoc _ g g' (bt_heap s) h'); [eapply (roots_ok_mono (fun _ => False)); [done|exact Hr]|done|lia|lia|done|done|].
      destruct (decide (buffer_count_ s = 0%nat)); [left; lia|right]. exists (buffer_type_ s), es.
      assert (length es = buffer_count_ s) as Hles by (unfold es; rewrite length_take; lia).
      rewrite firstn_all. split_and!; [intros E; rewrite E in Hles; simpl in Hles; lia|lia|done|].
      destruct (decide (buffer_count_ s = batch_size_ s)); [left; lia|right; right]. split; [done|]. split; [done|lia].
    + by rewrite last_snoc.
    + by rewrite drop_all.
  - assert (length us = cm + buffer_count_ s)%nat as El by lia.
    assert (forall k, bt_value a (Z.of_nat cm) k = counts_at f0 us cm k) as Hcm by (intros k; by apply H1).
    destruct (buffer_type_ s) eqn:Et; apply runs_heap.
    + eapply wp_mono; [|apply (law_inserted g _ _ a (Z.of_nat cm) (buffer_count_ s) (buffer_ s)); try done; lia].
      intros q h' (g' & a' & Hs' & (Hz' & Hv') & Hkeep). exists h', g'. split_and!; try done.
      assert (forall k (w : nat), (cm < w <= length us)%nat -> bt_value a' (Z.of_nat w) k = seen f0 us cm (length us) w k) as Hseen.
      { intros k w Hw. rewrite (seen_batch us cm INSERT es) by (done || lia). rewrite Hv' by lia. fold es. rewrite Hcm.
        by replace (Z.to_nat (Z.of_nat w - Z.of_nat cm)) with (w - cm)%nat by lia. }
      exists a'. split_and!; [done|rewrite El, Nat2Z.inj_add; done|lia| |done].
      intros k w Hw. rewrite <- Nat2Z.inj_add, <- El in Hs'.
      rewrite (law_stable _ _ _ _ _ _ _ Hs') by done.
      rewrite <- (law_stable _ _ _ _ _ _ (Z.of_nat (S (length us))) Hs') by lia.
      rewrite <- (seen_end f0 us cm), (seen_batch us cm INSERT es) by (done || lia).
      rewrite Hv' by lia. fold es. rewrite Hcm. assert (length es <= length us - cm)%nat by (unfold es; rewrite length_take; lia).
      by rewrite !(take_ge es) by lia.
    + eapply wp_mono; [|apply (law_deleted g _ _ a (Z.of_nat cm) (buffer_count_ s) (buffer_ s)); try done; lia].
      intros q h' (g' & a' & Hs' & (Hz' & Hv') & Hkeep). exists h', g'. split_and!; try done.
      exists a'. split_and!; [done|eapply law_last; [done|lia]|lia| |].
      * intros k w Hw. rewrite Hv' by lia. fold es. by rewrite <- (seen_end f0 us cm), (seen_batch us cm DELETE es), Hcm by (done || lia).
      * intros k w Hw. rewrite Hv' by lia. fold es. by rewrite (seen_batch us cm DELETE es), Hcm by (done || lia).
Qed.

(** Between two requests the buffer is not full, and the executed batches are complete. *)
Definition serving (us : list request) (s : batch N) : Prop :=
  batching (fun _ => False) us s /\ (buffer_count_ s < batch_size_ s)%nat.

Lemma put_update w us s k :
  batching w us s -> ~ w (buffer_type_ s) -> (buffer_count_ s < batch_size_ s)%nat -> u64 k ->
  batching (fun _ => False) (us ++ [update_of (buffer_type_ s) k])
    (set_submitted (Z.of_nat (S (length us)))
       (set_buffer (S (buffer_count_ s)) (<[buffer_count_ s := k]> (buffer_ s)) s)).
Proof.
  intros [Hle Hlen Hu Hsub Hnum (g & vs & cm & Hr & Hl & Hc & Hcount & Hd)] Hw Hlt Hk.
  split; simpl.
  - lia.
  - by rewrite length_insert.
  - apply Forall_insert; done.
  - rewrite length_app. simpl. f_equal. lia.
  - done.
  - exists g, vs, cm. split_and!; [|done|done|rewrite length_app; simpl; lia|].
    { eapply roots_ok_app; [|exact Hr]. intros t Ht. rewrite op_of_update. congruence. }
    rewrite drop_app_le, Hd by lia.
    rewrite (take_S_r _ _ k) by (apply list_lookup_insert_eq; lia).
    rewrite take_insert_ge by lia. by rewrite map_app.
Qed.

Lemma update_enbuffer_ok us s t k :
  serving us s -> room_for (S (length us)) -> u64 k ->
  runs (update_enbuffer_ t k)
    (fun _ s' => serving (us ++ [update_of t k]) s' /\ batch_size_ s' = batch_size_ s /\
      query_processor_ s' = query_processor_ s) s.
Proof.
  intros [Hb Hlt] Hroom Hk. assert (room_for (length us)) as Hroom'.
  { destruct Hroom as [? ?]. split; lia. }
  unfold update_enbuffer_. apply runs_bind, runs_get, runs_bind.
  apply (runs_mono _ (fun _ s1 => exists w, batching w us s1 /\ ~ w t /\ (buffer_count_ s1 < batch_size_ s1)%nat /\
    buffer_type_ s1 = t /\ batch_size_ s1 = batch_size_ s /\ query_processor_ s1 = query_processor_ s)).
  - intros _ s1 (w & Hb1 & Hw & Hlt1 & <- & Hbs & Hq). apply runs_bind. eexists _, _. split.
    { unfold put_buffer. rewrite (bg_buffer _ _ _ Hb1). destruct (Nat.ltb_spec (buffer_count_ s1) (batch_size_ s1)); [done|lia]. }
    apply runs_bind. eexists _, _. split; [done|]. apply runs_bind, runs_get.
    cbn [version_submitted_ set_buffer set_submitted buffer_count_ batch_size_].
    pose proof (put_update w us s1 k Hb1 Hw Hlt1 Hk) as Hb2.
    rewrite (bg_submitted _ _ _ Hb1).
    assert (wrap64 (Z.of_nat (length us) + 1) = Z.of_nat (S (length us))) as ->.
    { rewrite wrap64_small; [lia|]. by apply u64_version. }
    destruct (Nat.eqb_spec (S (buffer_count_ s1)) (batch_size_ s1)).
    + eapply runs_mono; [|apply (do_update_ok _ _ Hb2)].
      * intros _ s3 (Hb3 & Hc3 & _ & _ & Hbs3 & Hq3). split; [split; [|]|split]; simpl in Hbs3, Hq3;
          [|lia|by rewrite Hbs3|by rewrite Hq3].
        eapply batching_mono; [|exact Hb3]. simpl. intros t [_ ?]. lia.
      * rewrite length_app, Nat.add_comm. done.
    + apply runs_ret. split; [|by split]. split; [done|]. simpl. destruct Hb1. lia.
  - destruct (decide (buffer_type_ s = t)) as [E|Hne]; [apply runs_ret; exists (fun _ => False); split_and!; [done|intros []|done..]|].
    apply runs_bind. eapply runs_mono; [|by apply (do_update_ok us s)].
    intros _ s1 (Hb1 & Hc1 & Hv1 & Ht1 & Hbs1 & Hq1). eexists _, _. split; [done|].
    exists (fun t' => t' = buffer_type_ s /\ buffer_count_ s < batch_size_ s)%nat.
    split; [|split; [by intros [-> _]|split; [simpl; lia|by split_and!]]]. destruct Hb1 as [? ? ? ? ? (g & vs & cm & ? & ? & ? & ? & Hd)]. split; try done.
    exists g, vs, cm. split_and!; try done. simpl in *. rewrite Hc1 in Hd |- *. by rewrite Hd.
Qed.

(** ** Looking for a root *)

(** The versions of the roots do not decrease. *)
Definition ascending (rs : list root_list) : Prop :=
  forall i j r r', (i <= j)%nat -> rs !! i = Some r -> rs !! j = Some r' -> r_version r <= r_version r'.

(** [i] is the first root that is not older than [ver]; the older ones end before. *)
Definition older (rs : list root_list) (ver : Z) (i : nat) : Prop :=
  forall j r, (j < i)%nat -> rs !! j = Some r -> r_version r < ver.

Lemma roots_ok_ascending w g h us bs vs rs : roots_ok w g h us bs vs rs -> ascending rs.
Proof.
  intros (Hl & H0 & Hr) i j r r' Hij. revert r'. induction Hij as [|j Hij IH]; intros r' Hi Hj.
  { rewrite Hi in Hj. by injection Hj as ->. }
  assert (exists rj, rs !! j = Some rj) as [rj Erj].
  { apply lookup_lt_is_Some. apply lookup_lt_Some in Hj. lia. }
  specialize (IH rj Hi Erj). destruct (Hr _ _ Hj) as (v' & v & E' & E & Hv & _ & (a & Ev & _) & _).
  destruct (Hr _ _ Erj) as (u' & u & _ & Eu & _ & _ & (b & Eu' & _) & _).
  simpl in E'. rewrite Eu in E'. injection E' as <-. lia.
Qed.

Lemma root_ver_ok (rs : list root_list) i : (i < length rs)%nat -> exists r, rs !! i = Some r /\ root_ver rs i = Ok (r_version r).
Proof.
  intros Hi. apply lookup_lt_is_Some in Hi as [r Er]. exists r. unfold root_ver. by rewrite Er.
Qed.

Lemma go_back_ok rs ver cur :
  ascending rs -> (cur < length rs)%nat ->
  exists cur', go_back rs ver cur cur = Ok (cur', cur') /\ (cur' <= cur)%nat /\ older rs ver cur'.
Proof.
  intros Ha. induction cur as [|cur IH]; intros Hlt; simpl.
  { exists 0%nat. split_and!; [done|lia|]. intros j r Hj. lia. }
  destruct (root_ver_ok rs cur ltac:(lia)) as (r & Er & Ev). rewrite Ev.
  destruct (Z.leb_spec ver (r_version r)) as [Hle|Hgt].
  - rewrite Nat.sub_0_r. destruct (IH ltac:(lia)) as (cur' & E & Hc & Ho). exists cur'. split_and!; [done|lia|done].
  - exists (S cur). split_and!; [done|lia|]. intros j r' Hj Er'.
    pose proof (Ha j cur r' r ltac:(lia) Er' Er). lia.
Qed.

Lemma go_forward_ok rs ver n cur :
  ascending rs -> (cur + n < length rs)%nat -> older rs ver cur ->
  exists cur' r, go_forward rs ver n cur cur = Ok (cur', cur') /\ (cur <= cur' <= cur + n)%nat /\ older rs ver cur' /\
    rs !! cur' = Some r /\ (r_version r < ver -> cur' = (cur + n)%nat).
Proof.
  intros Ha. revert cur. induction n as [|n IH]; intros cur Hlt Ho; simpl.
  - destruct (root_ver_ok rs cur ltac:(lia)) as (r & Er & Ev). rewrite Ev. exists cur, r.
    split_and!; try done; try lia. by destruct (r_version r <? ver).
  - destruct (root_ver_ok rs cur ltac:(lia)) as (r & Er & Ev). rewrite Ev.
    destruct (Z.ltb_spec (r_version r) ver).
    + destruct (IH (S cur)) as (cur' & r' & E & Hc & Ho' & Er' & Hend); [lia| |].
      { intros j r' Hj Er'. pose proof (Ha j cur r' r ltac:(lia) Er' Er). lia. }
      exists cur', r'. split_and!; try done; try lia.
    + exists cur, r. split_and!; try done; lia.
Qed.

(** The thread-local variables fit the state. *)
Definition consistent (c : local) (s : batch N) : Prop :=
  cur_vid c = cur_root c /\ (cur_root c <= num_versions_ s)%nat /\ (last_vid c <= num_versions_ s)%nat.

Lemma find_root_ok w us s ver c :
  batching w us s -> consistent c s ->
  (exists c' r, find_root ver c s = Ok (c', s) /\ consistent c' s /\ roots s !! cur_root c' = Some r /\
     ver <= r_version r /\ older (roots s) ver (cur_root c')) \/
  (find_root ver c s = Err Blocked /\ version_committed_ s < ver).
Proof.
  intros Hb (Hcv & Hcr & Hlv). destruct (bg_roots _ _ _ Hb) as (g & vs & cm & Hr & Hl & Hc & _).
  pose proof (roots_ok_ascending _ _ _ _ _ _ _ Hr) as Ha. pose proof (bg_versions _ _ _ Hb) as Hn.
  unfold find_root. rewrite Hcv.
  destruct (go_back_ok (roots s) ver (cur_root c) Ha ltac:(lia)) as (i1 & E1 & Hi1 & Ho1). rewrite E1.
  assert (exists i2 r2, go_forward (roots s) ver (last_vid c - i1) i1 i1 = Ok (i2, i2) /\ (i2 <= num_versions_ s)%nat /\
    older (roots s) ver i2 /\ roots s !! i2 = Some r2) as (i2 & r2 & E2 & Hi2 & Ho2 & Er2).
  { destruct (go_forward_ok (roots s) ver (last_vid c - i1) i1 Ha ltac:(lia) Ho1) as (i2 & r2 & ? & ? & ? & ? & _).
    exists i2, r2. split_and!; try done. lia. }
  rewrite E2. unfold root_ver. rewrite Er2. destruct (Z.ltb_spec (r_version r2) ver) as [Hlt|Hge].
  - destruct (go_forward_ok (roots s) ver (num_versions_ s - i2) i2 Ha ltac:(lia) Ho2) as (i3 & r3 & E3 & Hi3 & Ho3 & Er3 & Hend).
    rewrite E3, Er3. destruct (Z.ltb_spec (r_version r3) ver) as [Hlt3|Hge3].
    + right. split; [done|]. specialize (Hend Hlt3). destruct Hr as (Hlen & _ & Hr).
      destruct (Hr _ _ Er3) as (v' & v & _ & Ev & _ & _ & (a & Ev' & _) & _).
      rewrite last_lookup, Hlen in Hl. replace (pred (length (roots s))) with i3 in Hl by lia.
      rewrite Hl in Ev. injection Ev as <-. lia.
    + left. exists (mk_local i3 (num_versions_ s) i3), r3. unfold consistent. split_and!; try done; simpl; lia.
  - left. exists (mk_local i2 (last_vid c) i2), r2. unfold consistent. split_and!; try done; simpl; lia.
Qed.

(** What a query of version [ver] answers, from the counters [f]. *)
Definition counts_answer (f : Z -> Z) (l r : Z) : Z :=
  if l =? r then f l else wrap64 (range_total f l r).

Lemma counts_answer_ext f f' l r : (forall k, f k = f' k) -> counts_answer f l r = counts_answer f' l r.
Proof.
  intros Hf. unfold counts_answer, range_total. destruct (l =? r); [apply Hf|]. do 2 f_equal.
  apply list_fmap_ext. intros i k _. apply Hf.
Qed.

(** A query sees the counters that the batch of its version defines. *)
Lemma batch_process_ok w us s (ver : nat) l r c :
  batching w us s -> consistent c s -> room_for (length us) -> Z.of_nat ver <= version_committed_ s ->
  runs (process_range_query_ (Z.of_nat ver) l r c) (fun xc s' => s' = s /\ consistent xc.2 s /\
    xc.1 = counts_answer (batch_counts f0 (batch_size_ s) us ver) l r) s.
Proof.
  intros Hb Hcs [Hlim _] Hver.
  destruct (find_root_ok w us s (Z.of_nat ver) c Hb Hcs) as [(c' & root & E & Hc' & Er & Hge & Ho)|[_ Hlt]]; [|lia].
  destruct (bg_roots _ _ _ Hb) as (g & vs & cm & Hr & Hl & Hcm & _). assert (Hr' := Hr). destruct Hr as (Hlen & H0 & Hr).
  destruct (Hr _ _ Er) as (v' & v & Ev' & Ev & Hv & Hle & (a & Er' & Hs & Hz & H1 & H2) & Hcl).
  assert ((v' = 0 /\ v = 0 /\ ver = 0)%nat \/ (v' < ver)%nat) as Hlow.
  { destruct (cur_root c') as [|i] eqn:Ei; simpl in Ev'.
    - rewrite H0 in Ev, Ev'. injection Ev as <-. injection Ev' as <-. left. lia.
    - assert (exists ri, roots s !! i = Some ri) as [ri Eri].
      { apply lookup_lt_is_Some. apply lookup_lt_Some in Er. lia. }
      specialize (Ho i ri ltac:(lia) Eri). destruct (Hr _ _ Eri) as (u' & u & _ & Eu & _ & _ & (b & Eub & _) & _).
      rewrite Eu in Ev'. injection Ev' as ->. right. lia. }
  assert (forall k, bt_value a (Z.of_nat ver) k = batch_counts f0 (batch_size_ s) us ver k) as Hval.
  { intros k. unfold batch_counts. destruct Hlow as [(-> & -> & ->)|Hlow].
    - unfold batch_of_version. simpl. rewrite seen_end. by apply H1.
    - destruct (closed_length _ _ _ _ _ Hv Hle Hcl) as [->|Hn]; [lia|].
      rewrite (batch_of_version_boundary _ _ v' v); [apply H2; lia|by eapply roots_boundary|lia|done]. }
  assert ((bt_size a < bt_limit)%nat) as Hsz by lia.
  assert (set_heap (bt_heap s) s = s) as Eset by by destruct s.
  unfold process_range_query_. apply runs_bind. eexists _, _. split; [exact E|]. apply runs_bind, runs_get. rewrite Er.
  apply runs_bind.
  assert (runs (if l =? r then in_heap bt_heap set_heap (T_find (r_tree root) (Z.of_nat ver) l)
      else in_heap bt_heap set_heap (T_range_estimate (r_tree root) (Z.of_nat ver) l r))
    (fun x s' => s' = s /\ x = counts_answer (bt_value a (Z.of_nat ver)) l r) s) as Hx.
  { unfold counts_answer. destruct (l =? r); apply runs_heap.
    - eapply wp_mono; [|by apply (law_find g _ _ a (Z.of_nat v))]. intros x h' [-> ->]. by rewrite Eset.
    - eapply wp_mono; [|by apply (law_range g _ _ a (Z.of_nat v))]. intros x h' [-> ->]. by rewrite Eset. }
  eapply runs_mono; [|exact Hx]. intros x s' [-> ->]. apply runs_ret. split_and!; [done|done|].
  by apply counts_answer_ext.
Qed.

(** The committed version is the end of the complete batches. *)
Lemma serving_committed us s : serving us s -> version_committed_ s = Z.of_nat (complete_batches (batch_size_ s) us).
Proof.
  intros [Hb Hlt]. destruct (bg_roots _ _ _ Hb) as (g & vs & cm & Hr & Hl & -> & Hcount & Hd). f_equal.
  assert (Hr' := Hr). destruct Hr as (Hlen & H0 & Hr). unfold complete_batches.
  rewrite last_lookup in Hl. assert (Hbd := roots_boundary _ _ _ _ _ _ _ _ _ Hr' Hl).
  set (es := take (buffer_count_ s) (buffer_ s)) in *.
  assert (length es = buffer_count_ s) as Hes.
  { unfold es. rewrite length_take, (bg_buffer _ _ _ Hb). pose proof (bg_count _ _ _ Hb). lia. }
  destruct (decide (buffer_count_ s = 0%nat)) as [E0|E0].
  - assert (length us = cm) as -> by lia. destruct (decide (cm = 0%nat)) as [->|Hcm0].
    { unfold batch_of_version. cbn [batch_from]. by destruct (_ =? _)%nat. }
    destruct (roots_nonempty _ _ _ _ _ _ _ _ _ Hr' Hl) as (v' & Hv & Hle & Hcl & Hb0); [lia|].
    destruct (closed_length (fun _ => False) us (batch_size_ s) v' cm ltac:(lia) Hle Hcl) as [->|Hn]; [lia|].
    rewrite (batch_of_version_boundary _ _ v' cm); [|done|lia|done].
    destruct Hcl as [->|(t & ks & Hne & Hks & _ & [Hfull|[(u & Hu & _)|[_ []]]])]; [lia| |].
    + by rewrite (proj2 (Nat.eqb_eq _ _)) by lia.
    + apply lookup_lt_Some in Hu. lia.
  - assert (batch_length (batch_size_ s) (drop cm us) = buffer_count_ s) as Hn.
    { rewrite Hd, <- (app_nil_r (map _ _)), batch_length_closed; [done| |lia|by right].
      intros Hn. rewrite Hn in Hes. simpl in Hes. lia. }
    rewrite (batch_of_version_boundary _ _ cm (length us)); [|done|lia|lia].
    destruct (Nat.eqb_spec (length us - cm) (batch_size_ s)); [lia|done].
Qed.

(** ** Serving requests *)

#[local] Instance this_batch : Interface (batch N) := Batch room.

(** The queries that are handed to the query processor, with their versions. *)
Fixpoint pushes (v : Z) (qs : list request) (p : processor) : processor :=
  match qs with
  | [] => p
  | RQuery l r :: qs => pushes v qs (Push (room p) v l r p).2
  | _ :: qs => pushes (v + 1) qs p
  end.

Definition updates (qs : list request) : list request := filter (fun q => is_update q = true) qs.

Lemma batch_serve_ok us q s :
  serving us s -> room_for (S (length us)) -> request_u64 q ->
  runs (serve q) (fun _ s' => serving (us ++ updates [q]) s' /\ batch_size_ s' = batch_size_ s /\
    query_processor_ s' = pushes (Z.of_nat (length us)) [q] (query_processor_ s)) s.
Proof.
  intros Hs Hroom Hq. destruct q as [l r|k|k]; simpl in Hq.
  - simpl. rewrite app_nil_r. unfold Batch_Query, runs. eexists _, _. split.
    { by rewrite (surjective_pairing (Push _ _ _ _ _)). }
    destruct Hs as [[? ? ? Hsub ? Hr] ?]. rewrite Hsub. by repeat split.
  - simpl. unfold Batch_Insert. apply runs_bind.
    eapply runs_mono; [|by apply (update_enbuffer_ok us s INSERT)]. intros [] s' Hs'. by apply runs_ret.
  - simpl. unfold Batch_Delete. apply runs_bind.
    eapply runs_mono; [|by apply (update_enbuffer_ok us s DELETE)]. intros [] s' Hs'. by apply runs_ret.
Qed.

Lemma room_for_le m m' : (m <= m')%nat -> room_for m' -> room_for m.
Proof. intros Hm [? ?]. split; lia. Qed.

Lemma batch_serve_all_ok us qs s :
  serving us s -> room_for (S (length us + length qs)) -> Forall request_u64 qs ->
  runs (serve_all qs) (fun _ s' => serving (us ++ updates qs) s' /\ batch_size_ s' = batch_size_ s /\
    query_processor_ s' = pushes (Z.of_nat (length us)) qs (query_processor_ s)) s.
Proof.
  revert us s. induction qs as [|q qs IH]; intros us s Hs Hroom Hu.
  { apply runs_ret. by rewrite app_nil_r. }
  inversion_clear Hu. cbn [serve_all]. apply runs_bind. simpl in Hroom.
  eapply runs_mono; [|apply (batch_serve_ok us q s); [done| |done]].
  2: { eapply room_for_le; [|exact Hroom]. lia. }
  intros _ s1 (Hs1 & Hb1 & Hq1).
  assert (length (updates [q]) <= 1)%nat as Hl by (unfold updates; destruct q; simpl; lia).
  eapply runs_mono; [|apply (IH _ s1 Hs1); [|done]].
  - intros _ s2 (Hs2 & Hb2 & Hq2). rewrite <- (assoc_L (++)) in Hs2. unfold updates in *. rewrite <- filter_app in Hs2.
    split_and!; [exact Hs2|by rewrite Hb2|]. rewrite Hq2, Hq1, length_app. clear. destruct q; simpl;
      rewrite ?Nat.add_0_r, ?Nat2Z.inj_add; done.
  - eapply room_for_le; [|exact Hroom]. rewrite length_app. lia.
Qed.

Lemma flush_ok us s :
  serving us s -> room_for (length us) ->
  runs flush (fun _ s' => batching (fun _ => True) us s' /\ version_committed_ s' = Z.of_nat (length us) /\ batch_size_ s' = batch_size_ s) s.
Proof.
  intros [Hb _] Hroom. unfold flush. apply runs_bind, runs_get. destruct (Nat.ltb_spec 0 (buffer_count_ s)).
  - eapply runs_mono; [|by apply (do_update_ok us)]. intros _ s' (? & ? & ? & ? & ? & ?).
    split; [by eapply batching_mono|done].
  - apply runs_ret. split; [by eapply batching_mono|split; [|done]].
    destruct Hb as [_ _ _ _ _ (g & vs & cm & _ & _ & Hc & Hcount & _)]. lia.
Qed.

(** Every query of a version that is committed finds its answer. *)
Definition answers_queries (us : list request) (s : batch N) : Prop :=
  forall (ver : nat) l r c,
    consistent c s -> Z.of_nat ver <= version_committed_ s ->
    exists c', process_range_query_ (Z.of_nat ver) l r c s =
        Ok ((counts_answer (batch_counts f0 (batch_size_ s) us ver) l r, c'), s) /\ consistent c' s.

Lemma batching_answers w us s : batching w us s -> room_for (length us) -> answers_queries us s.
Proof.
  intros Hb Hroom ver l r c Hc Hv.
  destruct (batch_process_ok w us s ver l r c Hb Hc Hroom Hv) as ([x c'] & s' & E & -> & Hc' & Hx).
  simpl in Hx. subst x. by exists c'.
Qed.
End correctness.

(** The database after its initialisation. *)
Lemma batch_init_ok {N} `{HT : BatchTree N} `{HL : !BatchTreeLaws N} clients bs n m elems :
  (0 < bs)%nat -> (n < bt_limit)%nat -> (n <= length elems)%nat -> Forall u64 elems ->
  runs (Batch_Init n m elems) (fun _ s =>
    serving (fun k => wrap64 (count k (take n elems))) n [] s /\ batch_size_ s = bs /\
    query_processor_ s = Start (new_processor clients)) (new_batch clients bs).
Proof.
  intros Hbs Hlim Hn Hu. destruct (law_build n elems Hlim Hn Hu) as (g0 & Hb).
  unfold Batch_Init. apply runs_bind, runs_heap. eapply wp_mono; [|exact Hb].
  intros p h (g & a & Hs & (Hz & Hv) & _). apply runs_bind. eexists _, _. split; [done|].
  eexists _, _. split; [done|]. split; [|by split]. split; [|done].
  split; simpl; [lia|by rewrite length_replicate|by apply Forall_replicate|done|done|].
  exists g, [0%nat], 0%nat. split_and!; try done.
  split_and!; try done. intros i r Hi. apply list_lookup_singleton_Some in Hi as [-> <-].
  exists 0%nat, 0%nat. split_and!; try done; [lia| |by left]. exists a. split_and!; try done; try lia;
    intros; first [apply Hv; lia|lia].
Qed.

(** ** [Batch<pam::interface>] *)

Lemma sum_Z_zero {A} (f : A -> Z) (l : list A) : (forall x, x ∈ l -> f x = 0) -> sum_Z (f <$> l) = 0.
Proof.
  induction l as [|x l IH]; intros Hf; [done|]. rewrite fmap_cons. unfold sum_Z in *. simpl.
  rewrite (Hf x), IH; [done| |set_solver]. intros y Hy. apply Hf. set_solver.
Qed.

(** Only the keys of the tree count. *)
Lemma range_total_keys (f : Z -> Z) ks l r :
  NoDup ks -> (forall k, k ∉ ks -> f k = 0) ->
  range_total f l r = sum_Z (f <$> filter (fun k => l <= k <= r) ks).
Proof.
  intros Hks Hf. unfold range_total.
  transitivity (sum_Z (f <$> filter (fun k => k ∈ ks) (seqZ l (r - l + 1)))).
  - generalize (seqZ l (r - l + 1)). intros xs. induction xs as [|x xs IH]; [done|].
    rewrite fmap_cons, filter_cons. destruct (decide (x ∈ ks)) as [Hin|Hout].
    + rewrite fmap_cons. unfold sum_Z in *. simpl. by rewrite IH.
    + unfold sum_Z in *. simpl. by rewrite IH, Hf.
  - assert (forall xs ys : list Z, xs ≡ₚ ys -> sum_Z (f <$> xs) = sum_Z (f <$> ys)) as Hperm.
    { intros xs ys H. unfold sum_Z.
      induction H as [|x xs' ys' _ IH|x y xs'|xs1 xs2 xs3 _ IH1 _ IH2]; rewrite ?fmap_cons; simpl;
        [done|by rewrite IH|lia|by rewrite IH1]. }
    apply Hperm, NoDup_Permutation; [by apply NoDup_filter, NoDup_seqZ|by apply NoDup_filter|].
    intros x. rewrite !list_elem_of_filter, elem_of_seqZ. intuition lia.
Qed.

Section pam.
Context (hash : Z -> Z) (order : list nat -> bool) (fuel : nat).

#[global] Instance PamTree : BatchTree PamNode.node_t := {
  T_build := interface.build hash (branch 0 order) fuel;
  T_inserted p ver := interface.inserted hash (branch (Z.to_nat ver) order) fuel p ver;
  T_deleted p ver := interface.deleted hash (branch (Z.to_nat ver) order) fuel p ver;
  T_find := interface.find fuel;
  T_range_estimate := interface.range_estimate fuel;
}.

Context `{HPH : !TreapTree.PerfectHash hash}.

Lemma snapshot_last g h p t v v' : snapshot hash g h p t v -> v <= v' -> snapshot hash g h p t v'.
Proof. intros [? ? ? ? ?] Hv. split; try done. lia. Qed.

Lemma snapshot_nonneg g h p t v : snapshot hash g h p t v -> 0 <= v.
Proof. intros [_ _ _ W V]. pose proof (t_vstat_bound _ _ W). lia. Qed.

Lemma snapshot_stable g h p t v k w : snapshot hash g h p t v -> v <= w -> query t w k = newest t k.
Proof. intros [_ _ _ W V] Hw. symmetry. apply (newest_query hash); [done|lia]. Qed.

Lemma pam_build o n es :
  (n < fuel)%nat -> (n <= length es)%nat -> Forall u64 es ->
  publishes (hash := hash) ∅ ∅ (interface.build hash o fuel n es) 0
    (fun t => (size t <= n)%nat /\ forall k w, 0 <= w -> query t w k = wrap64 (count k (take n es))).
Proof. intros Hn Hl Hu. by apply made_build. Qed.

Lemma pam_inserted o g h p t v n es :
  snapshot hash g h p t v -> v + 1 + Z.of_nat n <= vstat_uninitialized -> (n <= length es)%nat ->
  Forall u64 es -> (size t + n < fuel)%nat ->
  publishes (hash := hash) g h (interface.inserted hash o fuel p (v + 1) n es) (v + Z.of_nat n)
    (fun t' => (size t' <= size t + n)%nat /\
      forall k w, v < w -> query t' w k =
        let upto := count k (take (Z.to_nat (w - v)) (take n es)) in
        if count k (take n es) =? 0 then query t v k else if upto =? 0 then 0 else wrap64 (query t v k + upto)).
Proof.
  intros Hs Hm Hn Hu Hf. assert (length (take n es) = n) as Hl by (rewrite length_take; lia).
  pose proof (snapshot_nonneg _ _ _ _ _ Hs). unfold publishes.
  eapply wp_mono; [|apply (inserted_spec _ _ fuel g h p t v (v + 1) (take n es)); [done|lia|lia|];
    apply batch_many; try done; try lia; apply Hs].
  intros q h' (g' & t' & Hs' & (Hz & HQ) & Hk). exists g', t'.
  replace (v `max` (v + 1 + Z.of_nat (length (take n es)) - 1)) with (v + Z.of_nat n) in Hs' by lia.
  split_and!; [done| | |done].
  - lia.
  - intros k w Hw. rewrite HQ by lia. unfold after_insert, upto. rewrite (snapshot_stable _ _ _ _ v k v Hs) by lia.
    by replace (w - (v + 1) + 1) with (w - v) by lia.
Qed.

Lemma pam_deleted o g h p t v n es :
  snapshot hash g h p t v -> v + 1 + Z.of_nat n <= vstat_uninitialized -> (n <= length es)%nat ->
  Forall u64 es -> (size t + n < fuel)%nat ->
  publishes (hash := hash) g h (interface.deleted hash o fuel p (v + 1) n es) v
    (fun t' => (size t' <= size t + n)%nat /\
      forall k w, v <= w -> query t' w k = if count k (take n es) =? 0 then query t v k else 0).
Proof.
  intros Hs Hm Hn Hu Hf. assert (length (take n es) = n) as Hl by (rewrite length_take; lia).
  pose proof (snapshot_nonneg _ _ _ _ _ Hs). unfold publishes.
  eapply wp_mono; [|apply (deleted_spec _ _ fuel g h p t v (v + 1) (take n es)); [done|lia|];
    apply batch_many; try done; try lia; apply Hs].
  intros q h' (g' & t' & Hs' & (Hz & HQ) & Hk). exists g', t'. split_and!; [done| | |done].
  - lia.
  - intros k w Hw. rewrite HQ by lia. unfold after_delete. by rewrite (snapshot_stable _ _ _ _ v k v Hs) by lia.
Qed.

Lemma pam_range g h p t v w l r :
  snapshot hash g h p t v -> (size t < fuel)%nat ->
  wp (interface.range_estimate fuel p w l r) (fun x h' => h' = h /\ x = wrap64 (range_total (query t w) l r)) h.
Proof.
  intros [Hg Hp R W V] Hf. rewrite (range_total_keys _ (keys t)).
  - eapply wp_mono; [|apply (pam_range_estimate_spec hash)]; try done.
    + intros s h' [-> ->]. split; [done|]. f_equal. apply t_range_at_ext; [|by exists hash].
      intros k vs E. unfold query. by rewrite E.
    + eapply pam_auged_weaken; [exact Hg|by eapply persistent_auged].
    + apply keys_all, Forall_forall. by intros.
  - assert (StronglySorted Z.lt (keys t)) as Hs by by eapply keys_sorted.
    induction Hs as [|x xs _ IH Hx]; constructor; [|done]. intros Hin.
    rewrite Forall_forall in Hx. specialize (Hx x Hin). lia.
  - intros k Hk. unfold query. destruct (lookup_vals t k) eqn:E; [|done].
    exfalso. apply Hk. apply (keys_lookup hash); [done|]. by eexists.
Qed.

#[global] Program Instance PamTreeLaws : BatchTreeLaws PamNode.node_t := {
  bt_published := PamNode.heap;
  bt_tree := PamNode.tree;
  bt_snapshot := snapshot hash;
  bt_value := query;
  bt_size := PamNode.size;
  bt_limit := fuel;
}.
Next Obligation. intros n es Hn Hl Hu. exists ∅. by apply pam_build. Qed.
Next Obligation. intros g h p t v Hs. by eapply snapshot_nonneg. Qed.
Next Obligation. intros g h p t v v' Hs Hv. by eapply snapshot_last. Qed.
Next Obligation. intros g h p t v k w Hs Hw. rewrite !(snapshot_stable _ _ _ _ _ _ _ Hs) by lia. done. Qed.
Next Obligation. intros. by apply pam_inserted. Qed.
Next Obligation. intros. by apply pam_deleted. Qed.
Next Obligation.
  intros g h p t v w k [Hg Hp R W V] Hf. eapply (pam_find_spec hash); [by eapply pam_rep_weaken|done|done].
Qed.
Next Obligation. intros. by eapply pam_range. Qed.
End pam.

(** ** Properties *)

Section database.
Context (hash : Z -> Z) (order : list nat -> bool) (fuel : nat) (room : processor -> bool).

#[local] Instance the_tree : BatchTree PamNode.node_t := PamTree hash order fuel.
#[local] Instance the_batch : Interface (batch PamNode.node_t) := Batch room.

(** [Init], and then the requests. *)
Definition batch_run (clients bs m : nat) (elems : list Z) (qs : list request) :
    res (unit * batch PamNode.node_t) :=
  (Init (length elems) m elems;; serve_all qs) (new_batch clients bs).

(** The state after [batch_run], or after its last batch has been executed too. *)
Definition batch_flushed (clients bs m : nat) (elems : list Z) (qs : list request) :
    res (unit * batch PamNode.node_t) :=
  (Init (length elems) m elems;; serve_all qs;; flush) (new_batch clients bs).

Definition batch_answer (ver l r : Z) (c : local) (s : batch PamNode.node_t) : res ((Z * local) * batch PamNode.node_t) :=
  process_range_query_ ver l r c s.

(** The counters at the start. *)
Definition counts_of (elems : list Z) (k : Z) : Z := wrap64 (count k elems).

Lemma batch_run_ok `{HPH : !TreapTree.PerfectHash hash} clients bs m elems qs :
  (0 < bs)%nat -> Forall u64 elems -> Forall request_u64 qs ->
  (length elems + length qs + 1 < fuel)%nat -> Z.of_nat (length qs) + 2 <= vstat_uninitialized ->
  exists s, batch_run clients bs m elems qs = Ok (tt, s) /\
    query_processor_ s = pushes room 0 qs (Start (new_processor clients)) /\
    answers_queries (counts_of elems) (updates qs) s /\ batch_size_ s = bs /\
    version_committed_ s = Z.of_nat (complete_batches bs (updates qs)) /\
    exists s', flush s = Ok (tt, s') /\ answers_queries (counts_of elems) (updates qs) s' /\
      version_committed_ s' = Z.of_nat (length (updates qs)) /\ batch_size_ s' = bs.
Proof.
  intros Hbs Hu Hq Hf Hv.
  assert (forall l, (length (updates l) <= length l)%nat) as Hlen by (intros l; apply length_filter).
  destruct (batch_init_ok clients bs (length elems) m elems) as ([] & s0 & E0 & Hs0 & Hb0 & Hq0); [done|simpl; lia|done|done|].
  rewrite firstn_all in Hs0. fold (counts_of elems) in Hs0.
  assert (forall k, u64 (counts_of elems k)) as Hc by (intros k; apply wrap64_u64).
  destruct (batch_serve_all_ok room (counts_of elems) (length elems) Hc [] qs s0) as ([] & s & E & Hs & Hb & Hqp);
    [done|split; simpl; lia|done|]. simpl in Hs.
  assert (room_for (length elems) (length (updates qs))) as Hroom.
  { specialize (Hlen qs). split; simpl; lia. }
  destruct (flush_ok (counts_of elems) (length elems) Hc (updates qs) s Hs Hroom) as ([] & s' & E' & Hs' & Hc' & Hb').
  exists s. split_and!.
  - unfold batch_run. by rewrite (sm_bind_ok _ _ _ _ _ E0).
  - by rewrite Hqp, Hq0.
  - eapply batching_answers; [apply Hs|done].
  - by rewrite Hb.
  - rewrite (serving_committed _ _ _ _ Hs). by rewrite Hb, Hb0.
  - exists s'. split_and!; [done| |done|by rewrite Hb', Hb]. by eapply batching_answers.
Qed.
End database.

(** C7: [Batch<pam::interface>] with a batch size of at least one refines a map of
    counters in which insertion adds one and deletion forgets the key.  [Init] and any
    sequence of requests run without error; the query processor holds exactly the queries,
    each with the number of the updates before it; and the updates of all complete batches
    are committed, where a batch is a run of insertions, or of deletions, up to the batch
    size.  Executing the last batch, as [Close] does, commits every update.  A query of a
    committed version returns, whatever roots its thread looked at before, the counter (or
    the sum of the range) after the first [ver] updates, for every key that the batch of its
    version does not update later (for all keys, when the version ends its batch); a key that
    this batch updates after the version, but not up to it, counts as 0; if it does both, the
    counter after the first [ver] updates is right again. *)
Theorem pam_database_refines hash `{!TreapTree.PerfectHash hash} order fuel room clients bs m elems qs :
  (0 < bs)%nat -> Forall u64 elems -> Forall request_u64 qs ->
  (length elems + length qs + 1 < fuel)%nat -> Z.of_nat (length qs) + 2 <= vstat_uninitialized ->
  exists s s', batch_run hash order fuel room clients bs m elems qs = Ok (tt, s) /\
    query_processor_ s = pushes room 0 qs (Start (new_processor clients)) /\
    version_committed_ s = Z.of_nat (complete_batches bs (updates qs)) /\
    flush (HT := PamTree hash order fuel) s = Ok (tt, s') /\
    version_committed_ s' = Z.of_nat (length (updates qs)) /\
    forall s1, s1 = s \/ s1 = s' -> forall (ver : nat) l r c,
      consistent c s1 -> Z.of_nat ver <= version_committed_ s1 ->
      exists c', process_range_query_ (HT := PamTree hash order fuel) (Z.of_nat ver) l r c s1 =
          Ok ((counts_answer (batch_counts (counts_of elems) bs (updates qs) ver) l r, c'), s1) /\
        consistent c' s1.
Proof.
  intros Hbs Hu Hq Hf Hv.
  destruct (batch_run_ok hash order fuel room clients bs m elems qs Hbs Hu Hq Hf Hv)
    as (s & E & Hqp & Ha & Hb & Hc & s' & E' & Ha' & Hc' & Hb').
  exists s, s'. split_and!; try done. intros s1 Hs1 ver l r c Hcs Hver.
  assert (batch_size_ s1 = bs) as <- by by destruct Hs1 as [->| ->].
  destruct Hs1 as [->| ->]; [by apply Ha|by apply Ha'].
Qed.

(** Batches of three: 5 is inserted twice, then 7 and 5 are deleted.  At version 1 a query of 5
    sees one more than at the start; at version 3 the batch that deletes 7 and 5 has begun: 7 is
    gone and 5, which is deleted after the version, counts as 0 though it is still there. *)
Theorem pam_database_refines_witness :
  let qs := [RInsert 5; RInsert 5; RQuery 1 9; RDelete 7; RDelete 5; RQuery 7 7] in
  exists s s', batch_run wrap64 alternating 20 (fun _ => true) 2 3 6 [7; 5; 7] qs = Ok (tt, s) /\
    query_processor_ s = pushes (fun _ => true) 0 qs (Start (new_processor 2)) /\
    version_committed_ s = 2 /\
    flush (HT := PamTree wrap64 alternating 20) s = Ok (tt, s') /\ version_committed_ s' = 4 /\
    (exists c', process_range_query_ (HT := PamTree wrap64 alternating 20) 2 1 9 new_local s = Ok ((5, c'), s)) /\
    (exists c', process_range_query_ (HT := PamTree wrap64 alternating 20) 1 5 5 new_local s' = Ok ((2, c'), s')) /\
    (exists c', process_range_query_ (HT := PamTree wrap64 alternating 20) 3 5 5 new_local s' = Ok ((0, c'), s')) /\
    counts_at (counts_of [7; 5; 7]) (updates qs) 3 5 = 3.
Proof.
  intros qs. destruct (pam_database_refines wrap64 alternating 20 (fun _ => true) 2 3 6 [7; 5; 7] qs)
    as (s & s' & E & Eq & Hc & Ef & Ec & Ha).
  - lia.
  - repeat constructor; done.
  - repeat constructor; done.
  - simpl. lia.
  - vm_compute. discriminate.
  - assert (forall s1 : batch PamNode.node_t, consistent new_local s1) as Hnew by (intros s1; unfold consistent; simpl; lia).
    exists s, s'. split; [exact E|]. split; [exact Eq|]. split; [exact Hc|]. split; [exact Ef|]. split; [exact Ec|].
    split; [|split; [|split; [|reflexivity]]].
    + destruct (Ha s (or_introl eq_refl) 2%nat 1 9 new_local (Hnew s)) as (c' & Eq' & _); [rewrite Hc; vm_compute; discriminate|].
      exists c'. etransitivity; [exact Eq'|]. reflexivity.
    + destruct (Ha s' (or_intror eq_refl) 1%nat 5 5 new_local (Hnew s')) as (c' & Eq' & _); [rewrite Ec; vm_compute; discriminate|].
      exists c'. etransitivity; [exact Eq'|]. reflexivity.
    + destruct (Ha s' (or_intror eq_refl) 3%nat 5 5 new_local (Hnew s')) as (c' & Eq' & _); [rewrite Ec; vm_compute; discriminate|].
      exists c'. etransitivity; [exact Eq'|]. reflexivity.
Defined.

(** With a batch size of one there are no exceptions: a query returns exactly the
    counter of the key, or the sum of the range, after the updates before it. *)
Theorem batch_size_one_exact hash `{!TreapTree.PerfectHash hash} order fuel room clients m elems qs :
  Forall u64 elems -> Forall request_u64 qs ->
  (length elems + length qs + 1 < fuel)%nat -> Z.of_nat (length qs) + 2 <= vstat_uninitialized ->
  exists s, batch_flushed hash order fuel room clients 1 m elems qs = Ok (tt, s) /\
    forall (ver : nat) l r, (ver <= length (updates qs))%nat ->
      exists c', process_range_query_ (HT := PamTree hash order fuel) (Z.of_nat ver) l r new_local s =
        Ok ((counts_answer (counts_at (counts_of elems) (updates qs) ver) l r, c'), s).
Proof.
  intros Hu Hq Hf Hv.
  destruct (batch_run_ok hash order fuel room clients 1 m elems qs ltac:(lia) Hu Hq Hf Hv)
    as (s & E & Hqp & Ha & Hb & _ & s' & E' & Ha' & Hc' & Hb').
  exists s'. split.
  { unfold batch_flushed, batch_run in *. unfold mbind, SM_bind in *.
    destruct (Init _ _ _ _) as [[[] s0]|]; [|done]. by rewrite E. }
  intros ver l r Hver. destruct (Ha' ver l r new_local) as (c' & Ex & _).
  - unfold consistent. simpl. lia.
  - lia.
  - exists c'. etrans; [exact Ex|]. rewrite Hb'. do 3 f_equal. apply counts_answer_ext. intros k.
    unfold batch_counts. assert ((batch_of_version 1 (updates qs) ver).2 = ver) as Hend.
    { apply batches_of_one; [|done]. apply Forall_forall. intros u Hin. unfold updates in Hin.
      by apply list_elem_of_filter in Hin as [? _]. }
    destruct (batch_of_version 1 (updates qs) ver) as [v' v]. simpl in Hend. subst v. apply seen_end.
Qed.

Theorem batch_size_one_exact_witness :
  let qs := [RInsert 5; RQuery 1 9; RDelete 7; RQuery 7 7] in
  exists s, batch_flushed wrap64 alternating 20 (fun _ => true) 2 1 4 [7; 5; 7] qs = Ok (tt, s) /\
    forall (ver : nat) l r, (ver <= 2)%nat ->
      exists c', process_range_query_ (HT := PamTree wrap64 alternating 20) (Z.of_nat ver) l r new_local s =
        Ok ((counts_answer (counts_at (counts_of [7; 5; 7]) (updates qs) ver) l r, c'), s).
Proof.
  intros qs. apply (batch_size_one_exact wrap64 alternating 20 (fun _ => true) 2 4 [7; 5; 7] qs).
  - repeat constructor; done.
  - repeat constructor; done.
  - simpl. lia.
  - vm_compute. discriminate.
Defined.

(** The answer to a query, with its thread at the start. *)
Definition answer_of (ver l r : Z) (r0 : res (unit * batch PamNode.node_t)) : option Z :=
  match r0 with
  | Ok (_, s) =>
      match process_range_query_ (HT := PamTree wrap64 alternating 20) ver l r new_local s with
      | Ok ((x, _), _) => Some x
      | Err _ => None
      end
  | Err _ => None
  end.

(** With larger batches a query may see updates that come after it: with a batch size
    of 2, after 7 is deleted, 9 queried and 9 deleted, the query (at version 1, when 9 had
    counter 1) answers 0, because the root it finds has the whole batch. *)
Theorem batch_query_sees_later_delete :
  let qs := [RDelete 7; RQuery 9 9; RDelete 9] in
  let s := batch_flushed wrap64 alternating 20 (fun _ => true) 1 2 3 [7; 9] qs in
  counts_at (counts_of [7; 9]) (updates qs) 1 9 = 1 /\ answer_of 1 9 9 s = Some 0.
Proof. vm_compute. by split. Qed.
