(* ===== verification/Contreap.v ===== *)
(** * The concurrent database

    [src/db/contreap.hpp]: every request is a task of the concurrent scheduler, whose
    threads run while the client issues requests; queries are handed to the query
    processor, which looks at the snapshot of their version. *)

From S2P Require Import Prelude TreapTree TreapNode TreapUpdate TreapQuery Owned TreapBuild.
From S2P Require Import Scheduler SchedulerTree SchedulerMem SchedulerInv SchedulerSafe SchedulerWork.
From S2P Require Import SchedulerLive SchedulerCorrect.
From S2P Require Import QueryProcessor Database.
From S2P Require Sequential.

#[local] Open Scope Z_scope.

(** ** State *)

(** [contreap_] is null until [Init]; then it points to a scheduler, with its
    parameters. *)
Record contreap := mk_contreap {
  num_threads_ : nat;
  ct_block_size_ : nat;
  contreap_ : option (config * sched);
  query_processor_ : processor;
}.

Definition set_scheduler (x : config * sched) (s : contreap) : contreap :=
  mk_contreap (num_threads_ s) (ct_block_size_ s) (Some x) (query_processor_ s).
Definition set_processor (p : processor) (s : contreap) : contreap :=
  mk_contreap (num_threads_ s) (ct_block_size_ s) (contreap_ s) p.

(** [new Contreap(num_threads, num_clients, block_size)] *)
Definition new_contreap (num_threads num_clients block_size : nat) : contreap :=
  mk_contreap num_threads block_size None (new_processor num_clients).

(** A step of one of the threads of the scheduler. *)
Definition thread_label (cfg : config) (l : label) : bool :=
  match l with
  | LPipe id => (id <? num_pipes_ cfg)%nat
  | LWork id => (id <? num_workers_ cfg)%nat
  | LBoard | LCollect => true
  | LInit _ _ | LPush => false
  end.

(** The joins of [process] return: every thread has left its loop. *)
Definition threads_joined (cfg : config) (σ : sched) : bool :=
  forallb (fun p => (num_tasks_ cfg <? p_pos p)%nat) (s_pipes σ) &&
  (negb (b_store (s_board σ)) && (num_tasks_ cfg <=? b_local (s_board σ))%nat) &&
  forallb (fun w => match w_pc w with WStop => true | _ => false end) (s_workers σ) &&
  (num_tasks_ cfg <=? c_local (s_coll σ))%nat.

Section operations.
Context (hash : Z -> Z) (order : list nat -> bool) (fuel : nat) (room : processor -> bool).
(** The steps the threads of the scheduler take before the next step of the client. *)
Context (others : sched -> list label).

Definition run_others (cfg : config) (σ : sched) : outcome :=
  run_schedule cfg (filter (fun l => thread_label cfg l = true) (others σ)) σ.

(** A step of the client. *)
Definition client_step (l : label) : SM contreap unit := fun s =>
  match contreap_ s with
  | None => Err NullDeref
  | Some (cfg, σ) =>
      match run_others cfg σ with
      | Next σ =>
          match exec cfg l σ with
          | Next σ => Ok (tt, set_scheduler (cfg, σ) s)
          | Wait => Err Blocked
          | Fault e => Err e
          end
      | Wait => Err Blocked
      | Fault e => Err e
      end
  end.

(** ** Methods of the scheduler, as the database calls them *)

Definition insert_elem (elem : Z) : SM contreap unit :=
  client_step (LInit OP_INSERT elem);; client_step LPush.

Definition delete_elem (elem : Z) : SM contreap unit :=
  client_step (LInit OP_DELETE elem);; client_step LPush.

Definition nop : SM contreap nat :=
  client_step (LInit OP_NONE 0);; client_step LPush;;
  x ← sm_get contreap_;
  match x with Some (_, σ) => mret (s_issued σ) | None => sm_fail NullDeref end.

Definition process : SM contreap unit := fun s =>
  match contreap_ s with
  | None => Err NullDeref
  | Some (cfg, σ) =>
      match run_others cfg σ with
      | Next σ => if threads_joined cfg σ then Ok (tt, set_scheduler (cfg, σ) s) else Err Blocked
      | Wait => Err Blocked
      | Fault e => Err e
      end
  end.

(** ** The database *)

(** What the query processor runs for a query. *)
Definition processor_function_ (ver : nat) (l r : Z) : SM contreap Z := fun s =>
  match contreap_ s with
  | None => Err NullDeref
  | Some (cfg, σ) =>
      match get_snapshot cfg ver σ with
      | Err e => Err e
      | Ok t =>
          match (if l =? r then q ← TreapQuery.find fuel t l; n ← load q; mret (n_val n)
                 else range_estimate_open fuel t l r) (s_heap σ) with
          | Ok (x, _) => Ok (x, s)
          | Err e => Err e
          end
      end
  end.

Definition Contreap_Init (n m : nat) (elems : list Z) : SM contreap unit := fun s =>
  match build_parallel hash order fuel n elems ∅ with
  | Err e => Err e
  | Ok (t, h) =>
      let cfg := scheduler_config (num_threads_ s) m (ct_block_size_ s) hash fuel in
      Ok (tt, set_processor (Start (query_processor_ s)) (set_scheduler (cfg, scheduler_init cfg h t) s))
  end.

Definition Contreap_Close : SM contreap unit :=
  process;;
  sm_modify (fun s => set_processor (Stop_signal (query_processor_ s)) s);;
  sm_await (fun s => Stop_joined (query_processor_ s)).

Definition push_query (ver : nat) (l r : Z) : SM contreap Z := fun s =>
  let (z, p) := Push (room (query_processor_ s)) (Z.of_nat ver) l r (query_processor_ s) in
  Ok (z, set_processor p s).

Definition Contreap_Query (l r : Z) : SM contreap Z :=
  ver ← nop;
  push_query ver l r.

Definition Contreap_Insert (k : Z) : SM contreap Z := insert_elem k;; mret 0.
Definition Contreap_Delete (k : Z) : SM contreap Z := delete_elem k;; mret 0.

#[global] Instance Contreap : Interface contreap := {
  Init := Contreap_Init;
  Close := Contreap_Close;
  Query := Contreap_Query;
  Insert := Contreap_Insert;
  Delete := Contreap_Delete;
}.
End operations.

(** ** Waiting *)

(** The operation runs without error, or its thread is spinning. *)
Definition runs_or_waits {S A} (m : SM S A) (Q : A -> S -> Prop) (s : S) : Prop :=
  m s = Err Blocked \/ runs m Q s.

Lemma rw_ret {S A} (a : A) (Q : A -> S -> Prop) s : Q a s -> runs_or_waits (mret a) Q s.
Proof. intros HQ. right. by apply runs_ret. Qed.

Lemma rw_bind {S A B} (m : SM S A) (f : A -> SM S B) Q s :
  runs_or_waits m (fun a s' => runs_or_waits (f a) Q s') s -> runs_or_waits (m ≫= f) Q s.
Proof.
  intros [E|(a & s' & E & [Ef|Hf])].
  - left. by apply sm_bind_err.
  - left. by rewrite (sm_bind_ok _ _ _ _ _ E).
  - right. apply runs_bind. by exists a, s'.
Qed.

Lemma rw_mono {S A} (m : SM S A) (Q Q' : A -> S -> Prop) s :
  (forall a s', Q a s' -> Q' a s') -> runs_or_waits m Q s -> runs_or_waits m Q' s.
Proof. intros HQ [E|H]; [by left|right]. by eapply runs_mono. Qed.

(** ** The invariant *)

(** The task of a request. *)
Definition task_of (q : request) : Scheduler.operation * Z :=
  match q with
  | RQuery _ _ => (OP_NONE, 0)
  | RInsert k => (OP_INSERT, k)
  | RDelete k => (OP_DELETE, k)
  end.

Lemma version_bag_contents m0 qs v : version_bag m0 (map task_of qs) v = contents m0 qs v.
Proof.
  unfold version_bag, contents. change (map task_of qs) with (task_of <$> qs). rewrite <- fmap_take.
  generalize (take v qs). intros l. revert m0. induction l as [|q l IH]; intros m0; [done|].
  rewrite fmap_cons. simpl. by destruct q; simpl; rewrite IH.
Qed.

Lemma tasks_u64 qs : Forall request_u64 qs -> ops_u64 (map task_of qs).
Proof.
  intros H. unfold ops_u64. apply Forall_fmap. eapply Forall_impl; [exact H|].
  intros [l r|k|k]; simpl; [by split|done|done].
Qed.

Section correctness.
Context (room : processor -> bool) (others : sched -> list label).
Context (cfg : config) (h0 : heap) (p0 : ptr) (t0 : tree).
Hypothesis (HG : good_start cfg h0 p0 t0).

Definition reached (ops : list (Scheduler.operation * Z)) (σ : sched) : Prop :=
  history cfg (scheduler_init cfg h0 p0) ops σ.

Definition serving (ops : list (Scheduler.operation * Z)) (s : contreap) : Prop :=
  exists σ, contreap_ s = Some (cfg, σ) /\ reached ops σ.

Lemma reached_inv ops σ : reached ops σ -> exists k, inv cfg t0 σ k ops.
Proof. by apply good_history. Qed.

Lemma exec_reached l ops σ :
  reached ops σ -> valid_label cfg σ l -> ok_outcome (fun σ' => reached (ops ++ issued_by l) σ') (exec cfg l σ).
Proof.
  intros H Hl. destruct (reached_inv _ _ H) as [k I].
  pose proof (exec_safe cfg t0 l σ k ops (gs_vers _ _ _ _ HG) (gs_mono _ _ _ _ HG) (gs_fuel _ _ _ _ HG)
    (gs_tasks _ _ _ _ HG) I Hl) as Hs.
  destruct (exec cfg l σ) as [σ'| |] eqn:E; [|done|done]. by eapply history_step.
Qed.

Lemma thread_label_valid l σ : thread_label cfg l = true -> valid_label cfg σ l /\ issued_by l = [].
Proof. destruct l; simpl; try done; intros H; (split; [|done]); by apply Nat.ltb_lt. Qed.

(** The threads of the scheduler keep running the same history. *)
Lemma run_others_ok ops σ : reached ops σ -> exists σ', run_others others cfg σ = Next σ' /\ reached ops σ'.
Proof.
  unfold run_others. generalize (others σ). intros ls. revert σ. induction ls as [|l ls IH]; intros σ H; simpl.
  { by exists σ. }
  rewrite filter_cons. destruct (decide (thread_label cfg l = true)) as [Hl|]; [|by apply IH].
  destruct (thread_label_valid l σ Hl) as [Hv Hi]. pose proof (exec_reached l ops σ H Hv) as Ho.
  rewrite Hi, app_nil_r in Ho. simpl. destruct (exec cfg l σ) as [σ'| |]; [by apply IH|by apply IH|done].
Qed.

Lemma reached_issued ops σ : reached ops σ -> s_issued σ = length ops.
Proof. intros H. destruct (reached_inv _ _ H) as [k I]. symmetry. apply (mi_ops _ _ _ _ _ _ _ (inv_mem _ _ _ _ _ I)). Qed.

(** A label of the client. *)
Definition client_label (l : label) : bool := match l with LInit _ _ | LPush => true | _ => false end.

Lemma client_step_ok l ops s :
  serving ops s -> client_label l = true -> (length ops < num_tasks_ cfg)%nat \/ l = LPush ->
  runs_or_waits (client_step others l) (fun _ s' => serving (ops ++ issued_by l) s' /\
    query_processor_ s' = query_processor_ s) s.
Proof.
  intros (σ & E & H) Hc Hl. unfold runs_or_waits, runs, client_step. rewrite E.
  destruct (run_others_ok ops σ H) as (σ1 & E1 & H1). rewrite E1.
  assert (valid_label cfg σ1 l) as Hv.
  { destruct l; try done. simpl. rewrite (reached_issued _ _ H1). naive_solver. }
  pose proof (exec_reached l ops σ1 H1 Hv) as Ho. destruct (exec cfg l σ1) as [σ2| |]; [|by left|done].
  right. eexists tt, _. split; [done|]. split; [|done]. by exists σ2.
Qed.

(** Issuing a task: [init_context_], and its token. *)
Lemma issue_ok o elem ops s :
  serving ops s -> (length ops < num_tasks_ cfg)%nat ->
  runs_or_waits (client_step others (LInit o elem);; client_step others LPush)
    (fun _ s' => serving (ops ++ [(o, elem)]) s' /\ query_processor_ s' = query_processor_ s) s.
Proof.
  intros Hs Hl. apply rw_bind. eapply rw_mono; [|apply (client_step_ok _ ops s Hs); [done|by left]].
  intros [] s1 [Hs1 Hq1]. eapply rw_mono; [|apply (client_step_ok LPush _ s1 Hs1); [done|by right]].
  intros [] s2 [Hs2 Hq2]. simpl in Hs2. rewrite app_nil_r in Hs2. split; [done|by rewrite Hq2].
Qed.

#[local] Instance this_contreap order : Interface contreap := Contreap (cfg_hash cfg) order (cfg_fuel cfg) room others.

Lemma contreap_serve_ok order q qs s :
  serving (map task_of qs) s -> (length qs < num_tasks_ cfg)%nat ->
  runs_or_waits (serve (Interface0 := this_contreap order) q) (fun _ s' => serving (map task_of (qs ++ [q])) s' /\
    query_processor_ s' = Sequential.accepted room (S (length qs)) q (query_processor_ s)) s.
Proof.
  intros Hs Hl. rewrite map_app.
  assert (length (map task_of qs) < num_tasks_ cfg)%nat as Hl' by by rewrite length_map.
  destruct q as [l r|k|k]; simpl.
  - unfold Contreap_Query. apply rw_bind. unfold nop.
    assert (runs_or_waits (client_step others (LInit OP_NONE 0);; client_step others LPush;;
      x ← sm_get contreap_; match x with Some (_, σ) => mret (s_issued σ) | None => sm_fail NullDeref end)
      (fun v s' => v = S (length qs) /\ serving (map task_of qs ++ [(OP_NONE, 0)]) s' /\
        query_processor_ s' = query_processor_ s) s) as Hnop.
    { apply rw_bind. eapply rw_mono; [|apply (client_step_ok _ _ s Hs); [done|by left]].
      intros [] s1 [Hs1 Hq1]. apply rw_bind. eapply rw_mono; [|apply (client_step_ok LPush _ s1 Hs1); [done|by right]].
      intros [] s2 [Hs2 Hq2]. simpl in Hs2. rewrite app_nil_r in Hs2. right. apply runs_bind, runs_get.
      destruct Hs2 as (σ & E & H). rewrite E. apply runs_ret. split_and!; [|by exists σ|by rewrite Hq2].
      rewrite (reached_issued _ _ H), length_app, length_map. simpl. lia. }
    eapply rw_mono; [|exact Hnop]. intros v s1 (-> & (σ & E & H) & Hq). right.
    unfold push_query, runs. rewrite (surjective_pairing (Push _ _ _ _ _)). eexists _, _. split; [done|].
    simpl. rewrite Hq. split; [by exists σ|done].
  - unfold Contreap_Insert, insert_elem. apply rw_bind. eapply rw_mono; [|by apply (issue_ok OP_INSERT k)].
    intros [] s1 Hs1. by apply rw_ret.
  - unfold Contreap_Delete, delete_elem. apply rw_bind. eapply rw_mono; [|by apply (issue_ok OP_DELETE k)].
    intros [] s1 Hs1. by apply rw_ret.
Qed.

Lemma contreap_serve_all_ok order qs qs' s :
  serving (map task_of qs) s -> (length qs + length qs' <= num_tasks_ cfg)%nat ->
  runs_or_waits (serve_all (Interface0 := this_contreap order) qs') (fun _ s' => serving (map task_of (qs ++ qs')) s' /\
    query_processor_ s' = Sequential.accept_all room (S (length qs)) qs' (query_processor_ s)) s.
Proof.
  revert qs s. induction qs' as [|q qs' IH]; intros qs s Hs Hl.
  { apply rw_ret. by rewrite app_nil_r. }
  simpl in Hl. cbn [serve_all]. apply rw_bind.
  eapply rw_mono; [|apply (contreap_serve_ok order q qs s Hs); lia]. intros z s1 [Hs1 Hq1].
  eapply rw_mono; [|apply (IH (qs ++ [q]) s1 Hs1)].
  - intros [] s2 [Hs2 Hq2]. rewrite <- app_assoc in Hs2. split; [done|].
    rewrite Hq2, Hq1, length_app, Nat.add_1_r. done.
  - rewrite length_app. simpl. lia.
Qed.

(** ** Answers *)

Lemma joined_committed ops σ :
  reached ops σ -> threads_joined cfg σ = true -> s_committed σ = num_tasks_ cfg.
Proof.
  intros H Hj. destruct (reached_inv _ _ H) as [k I]. destruct (inv_coll _ _ _ _ _ I) as [C1 C2 C3].
  pose proof (mi_issued _ _ _ _ _ _ _ (inv_mem _ _ _ _ _ I)).
  unfold threads_joined in Hj. apply andb_true_iff in Hj as [_ Hj]. apply Nat.leb_le in Hj. lia.
Qed.

Lemma contreap_process_ok ops s :
  serving ops s ->
  runs_or_waits (process others) (fun _ s' => (exists σ, contreap_ s' = Some (cfg, σ) /\ reached ops σ /\
    s_committed σ = num_tasks_ cfg) /\ query_processor_ s' = query_processor_ s) s.
Proof.
  intros (σ & E & H). unfold runs_or_waits, runs, process. rewrite E.
  destruct (run_others_ok ops σ H) as (σ1 & E1 & H1). rewrite E1.
  destruct (threads_joined cfg σ1) eqn:Hj; [right|by left].
  eexists tt, _. split; [done|]. split; [|done]. exists σ1. split_and!; [done|done|by eapply joined_committed].
Qed.

(** The snapshot of a committed version is not there yet, or it is the tree with the
    contents of the version. *)
Lemma snapshot_complete `{HPH : !PerfectHash (cfg_hash cfg)} qs σ (v : nat) :
  reached (map task_of qs) σ -> Forall request_u64 qs ->
  (1 <= num_workers_ cfg)%nat -> (0 < block_size_ cfg)%nat -> (v <= s_committed σ)%nat -> (TreapTree.size t0 + length qs < cfg_fuel cfg)%nat ->
  get_snapshot cfg v σ = Err Blocked \/
  exists p t, get_snapshot cfg v σ = Ok p /\ rep (s_heap σ) p t /\ wf (cfg_hash cfg) t /\
    to_bag t = contents (to_bag t0) qs v /\ (TreapTree.size t < cfg_fuel cfg)%nat.
Proof.
  intros H Hu HW Hbs Hv Hf. destruct (reached_inv _ _ H) as [kk I].
  destruct (inv_coll _ _ _ _ _ I) as [C1 C2 C3].
  pose proof (mi_issued _ _ _ _ _ _ _ (inv_mem _ _ _ _ _ I)) as HN.
  pose proof (reached_issued _ _ H) as Hi. rewrite length_map in Hi.
  destruct (ctx_exists _ _ _ _ _ v I) as [c Hc]; [lia|].
  assert (rep (s_heap σ) (root c) (version cfg t0 (map task_of qs) v)) as Hrep.
  { eapply (version_complete cfg t0); try apply HG; try done; [lia|]. intros u d Hd Hle. eapply C3; [done|lia]. }
  destruct (version_tree_bag t0 (map task_of qs) v (gs_wf _ _ _ _ HG) (tasks_u64 _ Hu)) as [W B].
  unfold version in Hrep. set (t := version_tree (cfg_hash cfg) t0 (map task_of qs) v) in *.
  rewrite version_bag_contents in B.
  assert (TreapTree.size t < cfg_fuel cfg)%nat as Hsz.
  { rewrite <- (size_to_bag _ t W), B. pose proof (contents_size (to_bag t0) qs v).
    rewrite (size_to_bag _ t0 (gs_wf _ _ _ _ HG)) in *. lia. }
  unfold get_snapshot. destruct (Nat.ltb_spec (s_issued σ) v); [lia|].
  destruct (Nat.eqb_spec (block_size_ cfg) 0) as [?|_]; [lia|]. destruct (Nat.eqb_spec (num_workers_ cfg) 0) as [?|_]; [lia|]. cbn [orb].
  assert (exists n, s_estimated σ !! ((v / block_size_ cfg) mod num_workers_ cfg)%nat = Some n) as [n En].
  { apply lookup_lt_is_Some. rewrite (inv_est _ _ _ _ _ I). apply Nat.mod_upper_bound. lia. }
  rewrite En. destruct (n <=? _)%nat; [by left|]. right. rewrite Hc. by exists (root c), t.
Qed.

(** A point query at a committed version waits for its snapshot, or finds the counter. *)
Lemma point_query_ok `{HPH : !PerfectHash (cfg_hash cfg)} qs s σ (v : nat) k :
  contreap_ s = Some (cfg, σ) -> reached (map task_of qs) σ -> Forall request_u64 qs ->
  (1 <= num_workers_ cfg)%nat -> (0 < block_size_ cfg)%nat -> (v <= s_committed σ)%nat -> (TreapTree.size t0 + length qs < cfg_fuel cfg)%nat ->
  processor_function_ (cfg_fuel cfg) v k k s = Err Blocked \/
  processor_function_ (cfg_fuel cfg) v k k s =
    match contents (to_bag t0) qs v !! k with Some x => Ok (x, s) | None => Err NullDeref end.
Proof.
  intros E H Hu HW Hbs Hv Hf. unfold processor_function_. rewrite E.
  destruct (snapshot_complete qs σ v H Hu HW Hbs Hv Hf) as [->|(p & t & -> & Hrep & W & B & Hsz)]; [by left|right].
  rewrite Z.eqb_refl.
  destruct (find_spec (hash := cfg_hash cfg) (cfg_fuel cfg) (s_heap σ) p t k Hrep W Hsz)
    as (q & h1 & Eq & -> & Hq).
  unfold mbind, M_bind. rewrite Eq. rewrite <- B, (to_bag_lookup (cfg_hash cfg)) by done.
  destruct (t_lookup t k) as [x|].
  - destruct Hq as (a & nd & -> & Hn & _ & Hx). unfold load. rewrite Hn. unfold mret, M_ret. by rewrite Hx.
  - by subst q.
Qed.
End correctness.

Lemma decide_num_workers_pos n : (1 <= decide_num_workers_ n)%nat.
Proof. unfold decide_num_workers_. destruct (Nat.ltb_spec 0 (n - decide_num_pipes_ n)%nat); lia. Qed.

Lemma vers_le_0_mono t : vers_le 0 t -> vers_mono t.
Proof.
  induction t as [|v q k x l IHl r IHr]; simpl; [done|].
  intros (Hv & Hl & Hr). assert (v = 0%nat) as -> by lia. auto.
Qed.

(** The tree that was built, and a new scheduler for [m] tasks, start a history. *)
Lemma contreap_start_ok {hash} `{HPH : !PerfectHash hash} order fuel threads bs (n m : nat) elems :
  (n <= length elems)%nat -> Forall u64 elems -> (n + m < fuel)%nat -> Z.of_nat m < two64 - 1 ->
  exists p h t, build_parallel hash order fuel n elems ∅ = Ok (p, h) /\
    good_start (scheduler_config threads m bs hash fuel) h p t /\ to_bag t = bag_of (take n elems).
Proof.
  intros Hn Hu Hf Hm. destruct (build_parallel_spec (hash := hash) order fuel ∅ n elems) as
    (p & h & E & t & Au & (W & Vl & Hsz & L) & A1 & _); try done; [lia|].
  exists p, h, t. split_and!; [done| |].
  - split; simpl.
    + by apply auged_rep.
    + exact W.
    + exact Vl.
    + by apply vers_le_0_mono.
    + rewrite length_take in Hsz. lia.
    + lia.
  - apply map_eq. intros k. by rewrite (to_bag_lookup hash), L.
Qed.

(** After [Init] the scheduler is at the start of a history. *)
Lemma contreap_init_ok {hash} `{HPH : !PerfectHash hash} order fuel s (n m : nat) elems :
  (n <= length elems)%nat -> Forall u64 elems -> (n + m < fuel)%nat -> Z.of_nat m < two64 - 1 ->
  exists cfg h p t s', Contreap_Init hash order fuel n m elems s = Ok (tt, s') /\
    good_start cfg h p t /\ to_bag t = bag_of (take n elems) /\
    cfg = scheduler_config (num_threads_ s) m (ct_block_size_ s) hash fuel /\ serving cfg h p [] s' /\
    query_processor_ s' = Start (query_processor_ s).
Proof.
  intros Hn Hu Hf Hm.
  destruct (contreap_start_ok order fuel (num_threads_ s) (ct_block_size_ s) n m elems) as
    (p & h & t & E & HG & B); try done.
  set (cfg := scheduler_config (num_threads_ s) m (ct_block_size_ s) hash fuel) in *.
  exists cfg, h, p, t. eexists. split_and!; [unfold Contreap_Init; by rewrite E|done|done|done| |done].
  exists (scheduler_init cfg h p). split; [done|constructor].
Qed.

(** ** Properties *)

Section database.
Context (hash : Z -> Z) (order : list nat -> bool) (fuel : nat) (room : processor -> bool) (others : sched -> list label).

#[local] Instance the_contreap : Interface contreap := Contreap hash order fuel room others.

(** [Init], and then the requests. *)
Definition contreap_run (m : nat) (elems : list Z) (qs : list request) : SM contreap unit :=
  Init (length elems) m elems;; serve_all qs.

(** The point queries of the versions up to [n] wait for their snapshot, or find the
    contents of their version. *)
Definition answers_points (elems : list Z) (qs : list request) (n : nat) (s : contreap) : Prop :=
  forall (v : nat) k, (v <= n)%nat ->
    processor_function_ fuel v k k s = Err Blocked \/
    processor_function_ fuel v k k s =
      match contents (bag_of elems) qs v !! k with Some x => Ok (x, s) | None => Err NullDeref end.

Lemma contreap_run_ok `{HPH : !PerfectHash hash} threads clients bs m elems qs :
  (0 < bs)%nat -> Forall u64 elems -> Forall request_u64 qs -> (length qs <= m)%nat -> (length elems + m < fuel)%nat ->
  Z.of_nat m < two64 - 1 ->
  runs_or_waits (contreap_run m elems qs) (fun _ s =>
    query_processor_ s = Sequential.accept_all room 1 qs (Start (new_processor clients)) /\
    (exists cfg σ, contreap_ s = Some (cfg, σ) /\ answers_points elems qs (s_committed σ) s) /\
    runs_or_waits (process others) (fun _ s' => answers_points elems qs m s') s)
    (new_contreap threads clients bs).
Proof.
  intros Hbs Hu Hq Hm Hf HN. unfold contreap_run. apply rw_bind.
  destruct (contreap_init_ok (hash := hash) order fuel (new_contreap threads clients bs) (length elems) m elems)
    as (cfg & h & p & t & s0 & E0 & HG & B & Ecfg & Hs0 & Hq0); [done|done|lia|done|].
  right. exists tt, s0. split; [exact E0|]. rewrite firstn_all in B.
  assert (cfg_hash cfg = hash) as Eh by by subst cfg. assert (cfg_fuel cfg = fuel) as Ef by by subst cfg.
  assert (num_tasks_ cfg = m) as En by by subst cfg.
  assert (1 <= num_workers_ cfg)%nat as HW by (subst cfg; apply decide_num_workers_pos).
  assert (0 < block_size_ cfg)%nat as HB by by subst cfg.
  assert (TreapTree.size t + num_tasks_ cfg < cfg_fuel cfg)%nat as Hsz by apply HG.
  pose proof (contreap_serve_all_ok room others cfg h p t HG order [] qs s0 Hs0) as H.
  unfold this_contreap in H. rewrite Eh, Ef in H. eapply rw_mono; [|apply H; simpl; lia]. intros [] s [Hs Hqp].
  assert (forall s σ, contreap_ s = Some (cfg, σ) -> reached cfg h p (map task_of qs) σ ->
    answers_points elems qs (s_committed σ) s) as Hans.
  { intros s1 σ E1 H1 v k Hv. rewrite <- Ef, <- B. assert (PerfectHash (cfg_hash cfg)) by by rewrite Eh.
    apply (point_query_ok cfg h p t HG qs s1 σ v k); try done. lia. }
  split_and!.
  - by rewrite Hqp, Hq0.
  - destruct Hs as (σ & E & Hr). exists cfg, σ. split; [done|by apply Hans].
  - eapply rw_mono; [|apply (contreap_process_ok others cfg h p t HG _ s Hs)]. intros [] s' [(σ & E & Hr & Hc) _].
    rewrite <- En, <- Hc. by apply Hans.
Qed.
End database.

(** C4: the concurrent database runs its requests in order.  Whatever steps the threads of
    the scheduler take between the steps of the client, [Init] and any sequence of up to [m]
    requests run without error, unless the client is left spinning; the query processor
    gets exactly the queries, each with the number of its request; the threads never fault;
    and a point query of a committed version (after [process] in [Close], of any version)
    either waits for its snapshot or finds the counter that the requests before it, in their
    order, leave in the bag (the null pointer is dereferenced exactly for absent keys). *)
Theorem contreap_refines hash `{!PerfectHash hash} order fuel room others threads clients bs m elems qs :
  (0 < bs)%nat -> Forall u64 elems -> Forall request_u64 qs -> (length qs <= m)%nat ->
  (length elems + m < fuel)%nat -> Z.of_nat m < two64 - 1 ->
  runs_or_waits (contreap_run hash order fuel room others m elems qs) (fun _ s =>
    query_processor_ s = Sequential.accept_all room 1 qs (Start (new_processor clients)) /\
    (exists cfg σ, contreap_ s = Some (cfg, σ) /\ answers_points fuel elems qs (s_committed σ) s) /\
    runs_or_waits (process others) (fun _ s' => answers_points fuel elems qs m s') s)
    (new_contreap threads clients bs).
Proof. intros Hbs Hu Hq Hm Hf HN. by apply contreap_run_ok. Qed.

(** Four threads: two pipes and two workers. *)
Definition busy_ex (_ : sched) : list label :=
  mjoin (replicate 30 [LPipe 0; LPipe 1; LBoard; LWork 0; LWork 1; LCollect]).

Definition qs_ex : list request := [RInsert 5; RQuery 5 5; RDelete 7; RQuery 7 7].

(** What an operation returned. *)
Definition outcome {S A} (r : res (A * S)) : option A := match r with Ok (a, _) => Some a | Err _ => None end.

(** The run that is not left spinning, its threads joined at the end. *)
Definition joined (serve join : SM contreap unit) (s : contreap) : res (unit * contreap) := (serve;; join) s.

Abbreviation run_ex :=
  (joined (contreap_run wrap64 alternating 20 (fun _ => true) busy_ex 4 [7; 5] qs_ex) (process busy_ex) (new_contreap 4 1 2)).

Lemma run_ex_value :
  match run_ex with Ok (_, s) => outcome (processor_function_ 20 2 5 5 s) = Some 2 | Err _ => False end.
Proof. vm_compute. reflexivity. Qed.

Theorem contreap_refines_witness :
  match run_ex with
  | Ok (_, s) => answers_points 20 [7; 5] qs_ex 4 s /\ processor_function_ 20 2 5 5 s = Ok (2, s)
  | Err _ => False
  end.
Proof.
  pose proof (contreap_refines wrap64 alternating 20 (fun _ => true) busy_ex 4 1 2 4 [7; 5] qs_ex
    ltac:(lia) ltac:(repeat constructor; done) ltac:(repeat constructor; done) ltac:(simpl; lia) ltac:(simpl; lia)
    ltac:(reflexivity)) as H.
  pose proof run_ex_value as Hv. revert H Hv.
  generalize (contreap_run wrap64 alternating 20 (fun _ => true) busy_ex 4 [7; 5] qs_ex), (process busy_ex),
    (new_contreap 4 1 2). intros m1 m2 s0 H Hv. unfold joined in *.
  destruct H as [E|(a & s & E & Hq & _ & [Ep|(b & s' & Ep & Ha)])].
  - rewrite (sm_bind_err _ _ _ _ E) in Hv. exfalso. exact Hv.
  - rewrite (sm_bind_ok _ _ _ _ _ E), Ep in Hv. exfalso. exact Hv.
  - rewrite (sm_bind_ok _ _ _ _ _ E), Ep in Hv |- *. split; [exact Ha|].
    destruct (Ha 2%nat 5 ltac:(lia)) as [Eb|Eb]; rewrite Eb in Hv |- *; [discriminate Hv|].
    destruct (contents _ _ _ !! 5); [|discriminate Hv]. injection Hv as ->. reflexivity.
Defined.
