(* ===== verification/Methods.v ===== *)
(** * The methods compared

    The three databases [src/main.cpp] chooses from, on the same requests: the sequential
    and the concurrent one give the same answers; the batching one counts deletions
    differently. *)

From S2P Require Import Prelude TreapTree TreapQuery TreapBuild.
From S2P Require Import QueryProcessor Database.
From S2P Require Scheduler Sequential Contreap Batch.

#[local] Open Scope Z_scope.

(** What an operation returned, without the state. *)
Definition result {S A} (r : res (A * S)) : res A := match r with Ok (a, _) => Ok a | Err e => Err e end.

(** C5: the concurrent database is equivalent to the sequential one.  For the same elements
    and requests, whatever the threads of the scheduler do, a point query at any version
    has, once the threads are joined and unless it waits for its snapshot, the same
    answer (or the same fault) in both, and the query processors are left with the same
    queries. *)
Theorem contreap_equals_sequential hash `{!PerfectHash hash} order fuel room others threads clients bs m elems qs :
  (0 < bs)%nat -> Forall u64 elems -> Forall request_u64 qs -> (length qs <= m)%nat ->
  (length elems + m < fuel)%nat -> Z.of_nat m < two64 - 1 ->
  exists s1, Sequential.served hash order fuel room clients m elems qs = Ok (tt, s1) /\
    Contreap.runs_or_waits (Contreap.contreap_run hash order fuel room others m elems qs) (fun _ s =>
      Contreap.query_processor_ s = Sequential.query_processor_ s1 /\
      Contreap.runs_or_waits (Contreap.process others) (fun _ s2 => forall (v : nat) k, (v <= length qs)%nat ->
        Contreap.processor_function_ fuel v k k s2 = Err Blocked \/
        result (Contreap.processor_function_ fuel v k k s2) = result (Sequential.processor_function_ fuel v k k s1)) s)
      (Contreap.new_contreap threads clients bs).
Proof.
  intros Hbs Hu Hq Hm Hf HN.
  destruct (Sequential.served_ok hash order fuel room clients m elems qs Hu Hq Hm Hf) as (s1 & E & Sv & P).
  exists s1. split; [done|].
  eapply Contreap.rw_mono; [|by apply (Contreap.contreap_run_ok hash order fuel room others threads clients bs)].
  intros [] s (Hp & _ & Hj). split; [by rewrite Hp, P|]. eapply Contreap.rw_mono; [|exact Hj].
  intros [] s2 Ha v k Hv. destruct (Ha v k ltac:(lia)) as [Eb|Eb]; [by left|right]. rewrite Eb.
  pose proof (Sequential.bag_of_size elems).
  rewrite (Sequential.processor_function_ok (hash := hash) fuel m (bag_of elems) qs s1 v k k Sv) by (done || lia).
  unfold bag_answer. rewrite Z.eqb_refl. by destruct (contents (bag_of elems) qs v !! k).
Qed.

Theorem contreap_equals_sequential_witness :
  exists s1, Sequential.served wrap64 alternating 20 (fun _ => true) 1 4 [7; 5] Contreap.qs_ex = Ok (tt, s1) /\
    Contreap.runs_or_waits (Contreap.contreap_run wrap64 alternating 20 (fun _ => true) Contreap.busy_ex 4 [7; 5] Contreap.qs_ex)
      (fun _ s => Contreap.query_processor_ s = Sequential.query_processor_ s1 /\
      Contreap.runs_or_waits (Contreap.process Contreap.busy_ex) (fun _ s2 => forall (v : nat) k,
        (v <= length Contreap.qs_ex)%nat ->
        Contreap.processor_function_ 20 v k k s2 = Err Blocked \/
        result (Contreap.processor_function_ 20 v k k s2) = result (Sequential.processor_function_ 20 v k k s1)) s)
      (Contreap.new_contreap 4 1 2).
Proof.
  apply (contreap_equals_sequential wrap64 alternating 20 (fun _ => true) Contreap.busy_ex 4 1 2 4 [7; 5] Contreap.qs_ex).
  - lia.
  - repeat constructor; done.
  - repeat constructor; done.
  - simpl. lia.
  - simpl. lia.
  - reflexivity.
Defined.

(** The methods disagree on deletion.  With two copies of the key 9, one deletion leaves
    the counter 1 in the sequential database, and 0 in the batching one, whose trees
    forget the key. *)
Theorem methods_disagree_on_delete :
  result (Sequential.processor_function_ 20 1 9 9
    match Sequential.served wrap64 alternating 20 (fun _ => true) 1 1 [9; 9] [RDelete 9] with
    | Ok (_, s) => s
    | Err _ => Sequential.new_sequential 1
    end) = Ok 1 /\
  Batch.answer_of 1 9 9 (Batch.batch_flushed wrap64 alternating 20 (fun _ => true) 1 1 1 [9; 9] [RDelete 9]) = Some 0.
Proof. vm_compute. by split. Qed.
