(* ===== verification/QueryLatency.v ===== *)
(** * The latency benchmark

    [src/test/query_latency.cpp] measures range queries on the treap of the sequential and
    concurrent databases, on the batched treap, and on a sorted list of blocks.  The clocks
    and the log are left out; what remains is the total that each test returns. *)

From stdpp Require Import sorting.
From S2P Require Import Prelude Owned TreapTree.
From S2P Require TreapNode TreapQuery TreapBuild.
From S2P Require Import PamNode PamBuild PamQuery PamUpdate Pam QueryProcessor Database Batch.

#[local] Open Scope Z_scope.

Record query_context := mk_query { q_ver : Z; q_l : Z; q_r : Z }.

(** The loop that adds up the answers to the queries. *)
Definition total_of {N} (queries : list query_context) (q : nat) (answer : query_context -> M N Z) : M N Z :=
  for_loop 0 q (fun i total =>
    qc ← array_get queries i; x ← answer qc; mret (wrap64 (total + x))) 0.

Lemma wp_total_of {N} queries q (answer : query_context -> M N Z) (f : query_context -> Z) h :
  (q <= length queries)%nat ->
  (forall qc, qc ∈ take q queries -> wp (answer qc) (fun x h' => h' = h /\ x = wrap64 (f qc)) h) ->
  wp (total_of queries q answer) (fun x h' => h' = h /\ x = wrap64 (sum_Z (f <$> take q queries))) h.
Proof.
  intros Hq Ha. unfold total_of.
  apply (wp_for (fun i x h' => h' = h /\ x = wrap64 (sum_Z (f <$> take i queries)))).
  - done.
  - intros i x h' Hi [-> ->]. destruct (lookup_lt_is_Some_2 queries i) as [qc Hqc]; [lia|].
    wp_step. eapply wp_array_get; [exact Hqc|]. wp_step. eapply wp_mono; [|apply Ha].
    + intros y h' [-> ->]. wp_step. split; [done|].
      rewrite (take_S_r _ _ qc) by done. rewrite fmap_app, sum_Z_app. simpl.
      rewrite wrap64_add_l, wrap64_add_r. f_equal. lia.
    + apply list_elem_of_lookup. exists i. by rewrite lookup_take_lt by lia.
  - intros x h' H. exact H.
Qed.

(** ** The sorted list of blocks *)

Record list_node := mk_list_node { ln_keys : list Z; ln_next : ptr }.

Definition set_key (j : nat) (x : Z) (nd : list_node) : list_node := mk_list_node (<[j := x]> (ln_keys nd)) (ln_next nd).
Definition set_next (p : ptr) (nd : list_node) : list_node := mk_list_node (ln_keys nd) p.

(** [(n+63)/64] *)
Definition blocks (n : nat) : nat := ((n + 63) / 64)%nat.

(** The nodes, in an order decided by [rand()]. *)
Definition make_list (rand : nat -> Z) (n : nat) : M list_node (list ptr) :=
  for_loop 0 (blocks n) (fun i list =>
    p ← new (mk_list_node (replicate 64 0) None);
    list ← array_push (blocks n) p list;
    j ← u_mod (rand i) (Z.of_nat i + 1);
    swap i (Z.to_nat j) list) [].

Definition fill_list (n : nat) (elems : list Z) (list : list ptr) : M list_node unit :=
  for_loop 0 n (fun i _ =>
    x ← array_get elems i; p ← array_get list (i / 64)%nat; store p (set_key (i mod 64)%nat x)) tt.

Definition link_list (n : nat) (list : list ptr) : M list_node unit :=
  for_loop 1 (blocks n - 1) (fun i _ =>
    q ← array_get list i; p ← array_get list (i - 1)%nat; store p (set_next q)) tt.

(** [std::sort] of the first [n] elements. *)
Definition sort (n : nat) (elems : list Z) : list Z := merge_sort Z.le (take n elems) ++ drop n elems.

(** [std::lower_bound]: the first element that is not below [l]. *)
Fixpoint lower_bound (l : Z) (xs : list Z) : nat :=
  match xs with [] => O | x :: xs => if x <? l then S (lower_bound l xs) else O end.

(** The loop over the elements from [j] on, in the block [it]. *)
Fixpoint scan_loop (fuel n : nat) (r : Z) (j : nat) (it : ptr) (total : Z) : M list_node Z :=
  match fuel with
  | O => fail OutOfFuel
  | S fuel =>
      if (j <? n)%nat then
        nd ← load it;
        key ← array_get (ln_keys nd) (j mod 64)%nat;
        if key <=? r then
          scan_loop fuel n r (S j) (if (S j mod 64 =? 0)%nat then ln_next nd else it) (wrap64 (total + key))
        else mret total
      else mret total
  end.

Definition test_scan (rand : nat -> Z) (n q : nat) (elems : list Z) (queries : list query_context) : M list_node Z :=
  list ← make_list rand n;
  let elems := sort n elems in
  fill_list n elems list;;
  link_list n list;;
  for_loop 0 q (fun i total =>
    qc ← array_get queries i;
    let j := lower_bound (q_l qc) (take n elems) in
    if (n <=? j)%nat then mret total
    else it ← array_get list (j / 64)%nat; scan_loop (S n) n (q_r qc) j it total) 0.

(** ** The treaps *)

Definition test_perversion (hash : Z -> Z) (order : list nat -> bool) (fuel n q : nat) (elems : list Z)
    (queries : list query_context) : M TreapNode.node_t Z :=
  t ← TreapBuild.build_parallel hash order fuel n elems;
  total_of queries q (fun qc => TreapQuery.range_estimate_open fuel t (q_l qc) (q_r qc)).

Definition test_batch (hash : Z -> Z) (order : list nat -> bool) (fuel n m b q : nat) (elems : list Z)
    (queries : list query_context) : M PamNode.node_t Z :=
  t ← interface.build hash (branch 0 order) fuel n elems;
  roots ← array_push (m + 1) t [];
  roots ← for_loop 0 m (fun i roots =>
    t ← array_get roots i;
    t' ← interface.inserted hash (branch (S i) order) fuel t (wrap64 (Z.of_nat (i * b) + 1)) b (drop (n + i * b) elems);
    array_push (m + 1) t' roots) roots;
  total_of queries q (fun qc =>
    bid ← u_div (wrap64 (q_ver qc + Z.of_nat b - 1)) (Z.of_nat b);
    t ← array_get roots (Z.to_nat bid);
    interface.range_estimate fuel t (q_ver qc) (q_l qc) (q_r qc)).

(** ** The program *)

(** [elems]: the numbers below [n], shuffled. *)
Definition make_elems {N} (rand : nat -> Z) (n : nat) : M N (list Z) :=
  for_loop 0 n (fun i elems =>
    elems ← array_push n (Z.of_nat i) elems;
    j ← u_mod (rand i) (Z.of_nat i + 1);
    swap i (Z.to_nat j) elems) [].

(** [queries]: [mb] is [m*b], and [k] the number of random numbers drawn before. *)
Definition make_queries {N} (rand : nat -> Z) (k n mb w q : nat) : M N (list query_context) :=
  for_loop 0 q (fun i queries =>
    ver ← u_mod (rand (k + 3 * i)%nat) (Z.of_nat mb + 1);
    len ← u_mod (rand (k + 3 * i + 1)%nat) (Z.of_nat w);
    l ← u_mod (rand (k + 3 * i + 2)%nat) (wrap64 (Z.of_nat n + Z.of_nat mb - len));
    array_push q (mk_query ver l (wrap64 (l + len))) queries) [].

(** Each kind of node has a heap of its own. *)
Definition own_heap {N N' A} (m : M N A) : M N' A := fun h =>
  match m ∅ with Ok (x, _) => Ok (x, h) | Err e => Err e end.

(** [main] for [n] elements, ranges below [w], [u] updates, and the numbers [b] and [q] that
    were read: the total that it logs.  The test that [b] is 0 has no [else]: the value of
    [test_perversion] is overwritten. *)
Definition main_with (n w u : nat) (rand : nat -> Z) (hash : Z -> Z) (order : list nat -> bool) (fuel : nat)
    (b q : nat) : M unit Z :=
  m ← u_div (Z.of_nat u) (Z.of_nat b);
  let m := Z.to_nat m in
  elems ← make_elems rand (n + m * b);
  queries ← make_queries rand (n + m * b) n (m * b) w q;
  (if (b =? 0)%nat then own_heap (test_perversion hash order fuel n q elems queries);; mret tt else mret tt);;
  let rand' i := rand (n + m * b + 3 * q + i)%nat in
  if (b =? 1)%nat then own_heap (test_scan rand' (n + m) q elems queries)
  else own_heap (test_batch hash order fuel n m b q elems queries).

Definition main : (nat -> Z) -> (Z -> Z) -> (list nat -> bool) -> nat -> nat -> nat -> M unit Z :=
  main_with (Z.to_nat 100000000) (Z.to_nat 10000000) (Z.to_nat 10000000).

(** ** The list is laid out in order *)

Definition node_at (h : gmap loc list_node) (list : list ptr) (b : nat) (nd : list_node) : Prop :=
  exists a, list !! b = Some (Some a) /\ h !! a = Some nd.

Record is_list (h : gmap loc list_node) (list : list ptr) (k : nat) : Prop := {
  il_length : length list = k;
  il_nodup : NoDup list;
  il_node b : (b < k)%nat -> exists nd, node_at h list b nd /\ length (ln_keys nd) = 64%nat;
}.

Lemma make_list_spec rand n :
  (forall i, 0 <= rand i) ->
  wp (make_list rand n) (fun list h => is_list h list (blocks n)) ∅.
Proof.
  intros Hr. unfold make_list.
  apply (wp_for (fun i list h => length list = i /\ NoDup list /\
    forall p, p ∈ list -> exists a nd, p = Some a /\ h !! a = Some nd /\ length (ln_keys nd) = 64%nat)).
  - split_and!; [done|constructor|]. intros p Hp. by apply elem_of_nil in Hp.
  - intros i list h Hi (Hl & Hnd & Hp). wp_step. wp_step. wp_step. apply wp_array_push; [lia|].
    wp_step. pose proof (Hr i). apply wp_u_mod; [lia|].
    pose proof (Z.mod_pos_bound (rand i) (Z.of_nat i + 1) ltac:(lia)).
    apply wp_array_swap; rewrite ?length_app; simpl; [lia|lia|]. intros ys Hys.
    assert (Some l ∉ list) as Hnew. { intros Hin. destruct (Hp _ Hin) as (a & nd & [= ->] & Ha & _). congruence. }
    split_and!.
    + apply Permutation_length in Hys. rewrite length_app in Hys. simpl in Hys. lia.
    + rewrite Hys. apply NoDup_app. split_and!; [done| |apply NoDup_singleton].
      intros x Hx ->%list_elem_of_singleton. done.
    + intros p. rewrite Hys, elem_of_app, list_elem_of_singleton. intros [Hin| ->].
      * destruct (Hp _ Hin) as (a & nd & -> & Ha & Hk). exists a, nd. split_and!; [done| |done].
        rewrite lookup_insert_ne; [done|]. congruence.
      * eexists _, _. split_and!; [done|by rewrite lookup_insert_eq|done].
  - intros list h (Hl & Hnd & Hp). split; [lia|done|]. intros b Hb.
    destruct (lookup_lt_is_Some_2 list b) as [p Hlp]; [lia|].
    destruct (Hp p) as (a & nd & -> & Ha & Hk); [by eapply list_elem_of_lookup_2|].
    exists nd. split; [by exists a|done].
Qed.

Lemma node_at_det h list b nd nd' : node_at h list b nd -> node_at h list b nd' -> nd = nd'.
Proof. intros (a & Ha & Hn) (a' & Ha' & Hn'). congruence. Qed.

(** Writing a node through the array. *)
Lemma store_node h list k b (f : list_node -> list_node) nd (Q : unit -> gmap loc list_node -> Prop) :
  is_list h list k -> node_at h list b nd -> length (ln_keys (f nd)) = length (ln_keys nd) ->
  (forall h', is_list h' list k -> node_at h' list b (f nd) ->
    (forall b' nd', b' <> b -> node_at h list b' nd' -> node_at h' list b' nd') -> Q tt h') ->
  wp (p ← array_get list b; store p f) Q h.
Proof.
  intros Hl (a & Hb & Ha) Hk HQ. wp_step. eapply wp_array_get; [exact Hb|]. eapply wp_store; [exact Ha|].
  assert (forall b' nd', b' <> b -> node_at h list b' nd' -> node_at (<[a:=f nd]> h) list b' nd') as Hne.
  { intros b' nd' Hne (a' & Hb' & Ha'). exists a'. split; [done|]. rewrite lookup_insert_ne; [done|].
    intros ->. apply Hne. eapply NoDup_lookup; [by eapply il_nodup|done|done]. }
  assert (node_at (<[a:=f nd]> h) list b (f nd)) as Hat by (exists a; by rewrite lookup_insert_eq).
  apply HQ; [|done|done]. destruct Hl as [L D N]. split; [done|done|]. intros b' Hb'.
  destruct (N b' Hb') as (nd' & Hn' & Hk'). destruct (decide (b' = b)) as [->|].
  - exists (f nd). split; [done|]. rewrite Hk. destruct Hn' as (a' & Hb1 & Ha1). congruence.
  - exists nd'. split; [by apply Hne|done].
Qed.

Lemma block_lt n i : (i < n)%nat -> (i / 64 < blocks n)%nat.
Proof.
  intros Hi. unfold blocks. apply Nat.Div0.div_lt_upper_bound.
  pose proof (Nat.div_mod_eq (n + 63) 64). pose proof (Nat.mod_upper_bound (n + 63) 64 ltac:(lia)). lia.
Qed.

(** The first [i] elements are in their blocks. *)
Definition filled (i : nat) (h : gmap loc list_node) (elems : list Z) (list : list ptr) : Prop :=
  forall j, (j < i)%nat -> exists nd, node_at h list (j / 64)%nat nd /\ ln_keys nd !! (j mod 64)%nat = elems !! j.

(** The first [i] blocks are linked. *)
Definition linked (i : nat) (h : gmap loc list_node) (list : list ptr) : Prop :=
  forall b, (S b < i)%nat -> exists nd, node_at h list b nd /\ list !! S b = Some (ln_next nd).

Lemma fill_list_spec n elems list h :
  (n <= length elems)%nat -> is_list h list (blocks n) ->
  wp (fill_list n elems list) (fun _ h' => is_list h' list (blocks n) /\ filled n h' elems list) h.
Proof.
  intros Hn Hl. unfold fill_list.
  apply (wp_for (fun i _ h => is_list h list (blocks n) /\ filled i h elems list)).
  - split; [done|]. intros j Hj. lia.
  - intros i [] h1 Hi [Hl1 Hf]. pose proof (block_lt n i ltac:(lia)) as Hb.
    destruct (lookup_lt_is_Some_2 elems i) as [x Hx]; [lia|]. wp_step. eapply wp_array_get; [exact Hx|].
    destruct (il_node _ _ _ Hl1 _ Hb) as (nd & Hnd & Hk).
    eapply store_node; [exact Hl1|exact Hnd|by simpl; rewrite length_insert|].
    intros h2 Hl2 Hat Hne. split; [done|]. intros j Hj.
    assert (i mod 64 < 64)%nat by (apply Nat.mod_upper_bound; lia).
    destruct (decide (j = i)) as [->|].
    + eexists. split; [exact Hat|]. cbn [set_key ln_keys]. by rewrite list_lookup_insert_eq by lia.
    + destruct (Hf j) as (nd' & Hnd' & Hkey); [lia|]. destruct (decide (j / 64 = i / 64)%nat) as [E|E].
      * exists (set_key (i mod 64) x nd). split; [by rewrite E|]. cbn [set_key ln_keys].
        rewrite list_lookup_insert_ne.
        -- rewrite <- Hkey. rewrite E in Hnd'. by rewrite (node_at_det _ _ _ _ _ Hnd Hnd').
        -- pose proof (Nat.div_mod_eq i 64). pose proof (Nat.div_mod_eq j 64). lia.
      * exists nd'. split; [by apply Hne|done].
  - intros [] h1 H. exact H.
Qed.

Lemma link_list_spec n elems list h :
  is_list h list (blocks n) -> filled n h elems list ->
  wp (link_list n list)
    (fun _ h' => is_list h' list (blocks n) /\ filled n h' elems list /\ linked (blocks n) h' list) h.
Proof.
  intros Hl Hf. unfold link_list.
  apply (wp_for (fun i _ h => is_list h list (blocks n) /\ filled n h elems list /\ linked i h list)).
  - split_and!; [done|done|]. intros b Hb. lia.
  - intros i [] h1 Hi (Hl1 & Hf1 & Hk1).
    destruct (il_node _ _ _ Hl1 i) as (nq & (q & Hq & _) & _); [lia|]. wp_step. eapply wp_array_get; [exact Hq|].
    destruct (il_node _ _ _ Hl1 (i - 1)%nat) as (nd & Hnd & Hk); [lia|].
    eapply store_node; [exact Hl1|exact Hnd|done|]. intros h2 Hl2 Hat Hne. split_and!; [done| |].
    + intros j Hj. destruct (Hf1 j Hj) as (nd' & Hnd' & Hkey).
      destruct (decide (j / 64 = i - 1)%nat) as [E|E].
      * exists (set_next (Some q) nd). split; [by rewrite E|]. cbn [set_next ln_keys]. rewrite <- Hkey. rewrite E in Hnd'.
        by rewrite (node_at_det _ _ _ _ _ Hnd Hnd').
      * exists nd'. split; [by apply Hne|done].
    + intros b Hb. destruct (decide (b = i - 1)%nat) as [->|].
      * eexists. split; [exact Hat|]. simpl. by replace (S (i - 1)) with i by lia.
      * destruct (Hk1 b) as (nd' & Hnd' & Hkey); [lia|]. exists nd'. split; [by apply Hne|done].
  - intros [] h1 (Hl1 & Hf1 & Hk1). split_and!; [done|done|]. intros b Hb. apply Hk1. lia.
Qed.

(** ** The scan *)

(** The sum of the elements in a range. *)
Definition between (l r : Z) (xs : list Z) : list Z := filter (fun x => l <= x <= r) xs.

(** The elements from [j] on, as long as they are at most [r]. *)
Fixpoint upto_sum (r : Z) (xs : list Z) : Z :=
  match xs with [] => 0 | x :: xs => if x <=? r then x + upto_sum r xs else 0 end.

Lemma scan_loop_spec h list n elems fuel r j it total :
  is_list h list (blocks n) -> filled n h elems list -> linked (blocks n) h list ->
  length elems = n -> (j <= n)%nat -> ((j < n)%nat -> list !! (j / 64)%nat = Some it) -> (n - j < fuel)%nat ->
  wp (scan_loop fuel n r j it (wrap64 total))
     (fun x h' => h' = h /\ x = wrap64 (total + upto_sum r (drop j elems))) h.
Proof.
  intros Hl Hf Hk Hn. revert j it total. induction fuel as [|fuel IH]; intros j it total Hj Hit Hfu; [lia|].
  cbn [scan_loop]. destruct (Nat.ltb_spec j n) as [Hlt|].
  2: { wp_step. split; [done|]. rewrite drop_ge by lia. simpl. by rewrite Z.add_0_r. }
  specialize (Hit Hlt). destruct (Hf j Hlt) as (nd & (a & Ha & Hh) & Hkey).
  assert (it = Some a) as -> by congruence. wp_step. eapply wp_load; [exact Hh|].
  destruct (lookup_lt_is_Some_2 elems j) as [x Hx]; [lia|]. wp_step. eapply wp_array_get; [by rewrite Hkey|].
  rewrite (drop_S _ _ _ Hx). simpl upto_sum. destruct (Z.leb_spec x r).
  2: { wp_step. by rewrite Z.add_0_r. }
  rewrite wrap64_add_l. eapply wp_mono; [|apply (IH (S j)); [lia| |lia]].
  - intros y h' [-> ->]. split; [done|]. f_equal. lia.
  - intros HSj. pose proof (Nat.div_mod_eq j 64). pose proof (Nat.div_mod_eq (S j) 64).
    pose proof (Nat.mod_upper_bound j 64 ltac:(lia)). pose proof (Nat.mod_upper_bound (S j) 64 ltac:(lia)).
    destruct (Nat.eqb_spec (S j mod 64) 0) as [E|E].
    + assert (S j / 64 = S (j / 64))%nat as E1 by lia. rewrite E1.
      destruct (Hk (j / 64)%nat) as (nd' & (a' & Ha' & Hh') & Hnext).
      { rewrite <- E1. by apply block_lt. }
      rewrite Hnext. congruence.
    + assert (S j / 64 = j / 64)%nat as -> by lia. done.
Qed.

Lemma between_perm l r xs ys : xs ≡ₚ ys -> between l r xs ≡ₚ between l r ys.
Proof. intros H. unfold between. by rewrite H. Qed.

Lemma sum_Z_perm xs ys : xs ≡ₚ ys -> sum_Z xs = sum_Z ys.
Proof. unfold sum_Z. induction 1; simpl; lia. Qed.

Lemma lower_bound_le l xs : (lower_bound l xs <= length xs)%nat.
Proof. induction xs as [|x xs IH]; simpl; [done|]. destruct (x <? l); lia. Qed.

(** From the lower bound up to [r] there are exactly the elements of the range. *)
Lemma upto_sum_between l r xs :
  StronglySorted Z.le xs -> upto_sum r (drop (lower_bound l xs) xs) = sum_Z (between l r xs).
Proof.
  induction 1 as [|x xs Hs IH Hx]; [done|]. unfold between in *. simpl lower_bound. rewrite filter_cons.
  destruct (Z.ltb_spec x l).
  { rewrite decide_False by lia. exact IH. }
  assert (drop (lower_bound l xs) xs = xs) as Hd.
  { destruct xs as [|y xs]; [done|]. apply Forall_cons in Hx as [Hx _]. simpl.
    destruct (Z.ltb_spec y l); [lia|done]. }
  rewrite Hd in IH. simpl drop. simpl upto_sum. destruct (Z.leb_spec x r).
  - rewrite decide_True by lia. simpl. by rewrite IH.
  - rewrite decide_False by lia. rewrite <- IH. symmetry. clear -Hx H0.
    destruct xs as [|y xs]; [done|]. apply Forall_cons in Hx as [Hx _]. simpl.
    destruct (Z.leb_spec y r); [lia|done].
Qed.

(** The number of elements in a range, and the bag. *)
Lemma bag_range_sum_insert l r k m :
  wrap64 (bag_range_sum l r (bag_insert k m)) = wrap64 (bag_range_sum l r m + if TreapTree.in_range l r k then 1 else 0).
Proof.
  unfold bag_insert, bag_range_sum.
  rewrite <- (insert_delete_eq m), map_fold_insert_L; [|intros; lia|by rewrite lookup_delete_eq].
  set (rest := map_fold _ _ (delete k m)).
  assert (map_fold (fun k x s => (if TreapTree.in_range l r k then x else 0) + s) 0 m =
    (if TreapTree.in_range l r k then default 0 (m !! k) else 0) + rest) as ->.
  { destruct (m !! k) as [x|] eqn:E; simpl.
    - rewrite (map_fold_delete_L _ _ k x m) by (done || intros; lia). done.
    - unfold rest. rewrite delete_id by done. by destruct (TreapTree.in_range l r k). }
  destruct (TreapTree.in_range l r k); rewrite ?wrap64_add_l; f_equal; lia.
Qed.

Lemma bag_of_range l r es :
  wrap64 (bag_range_sum l r (TreapBuild.bag_of es)) = wrap64 (Z.of_nat (length (between l r es))).
Proof.
  induction es as [|e es IH]; [done|]. unfold between in *. cbn [TreapBuild.bag_of foldr]. rewrite bag_range_sum_insert.
  rewrite <- wrap64_add_l. unfold TreapBuild.bag_of in IH. rewrite IH, wrap64_add_l, filter_cons.
  unfold TreapTree.in_range. destruct (Z.leb_spec l e), (Z.leb_spec e r); cbn [andb].
  { rewrite decide_True by lia. cbn [length]. f_equal. lia. }
  all: rewrite decide_False by lia; f_equal; lia.
Qed.

(** ** The scan computes the sums *)

Lemma sort_take n elems : (n <= length elems)%nat -> take n (sort n elems) = merge_sort Z.le (take n elems).
Proof.
  intros Hn. unfold sort.
  assert (length (merge_sort Z.le (take n elems)) = n) as Hl.
  { rewrite (Permutation_length (merge_sort_Permutation Z.le _)), length_take. lia. }
  rewrite <- Hl at 1. by rewrite take_app_length.
Qed.

(** The answer of [test_scan] to a query. *)
Definition keys_total (xs : list Z) (qc : query_context) : Z := sum_Z (between (q_l qc) (q_r qc) xs).
(** The answer of the tests on treaps. *)
Definition keys_count (xs : list Z) (qc : query_context) : Z := Z.of_nat (length (between (q_l qc) (q_r qc) xs)).

Lemma test_scan_spec rand n q elems queries :
  (forall i, 0 <= rand i) -> (n <= length elems)%nat -> (q <= length queries)%nat ->
  wp (test_scan rand n q elems queries)
     (fun x _ => x = wrap64 (sum_Z (keys_total (take n elems) <$> take q queries))) ∅.
Proof.
  intros Hr Hn Hq. unfold test_scan. wp_step. eapply wp_mono; [|by apply make_list_spec].
  intros list h Hl. assert (length (sort n elems) = length elems) as Hls.
  { unfold sort. rewrite length_app, (Permutation_length (merge_sort_Permutation Z.le _)), length_take, length_drop. lia. }
  wp_step. eapply wp_mono; [|by apply (fill_list_spec n (sort n elems)); [lia|]]. intros _ h1 [Hl1 Hf1].
  wp_step. eapply wp_mono; [|by apply link_list_spec]. intros _ h2 (Hl2 & Hf2 & Hk2).
  rewrite sort_take by done. set (xs := merge_sort Z.le (take n elems)).
  assert (length xs = n) as Hxs.
  { unfold xs. rewrite (Permutation_length (merge_sort_Permutation Z.le _)), length_take. lia. }
  assert (filled n h2 xs list) as Hf3.
  { intros j Hj. destruct (Hf2 j Hj) as (nd & Hnd & Hkey). exists nd. split; [done|]. rewrite Hkey.
    unfold sort. fold xs. by rewrite lookup_app_l by lia. }
  apply (wp_for (fun i x h' => h' = h2 /\ x = wrap64 (sum_Z (keys_total (take n elems) <$> take i queries)))).
  - done.
  - intros i x h' Hi [-> ->]. destruct (lookup_lt_is_Some_2 queries i) as [qc Hqc]; [lia|].
    wp_step. eapply wp_array_get; [exact Hqc|].
    assert (wrap64 (sum_Z (keys_total (take n elems) <$> take (S i) queries)) =
      wrap64 (sum_Z (keys_total (take n elems) <$> take i queries) + upto_sum (q_r qc) (drop (lower_bound (q_l qc) xs) xs))) as E.
    { rewrite (take_S_r _ _ qc) by done. rewrite fmap_app, sum_Z_app. simpl. unfold keys_total at 2.
      rewrite upto_sum_between by (apply StronglySorted_merge_sort; [apply _|intros ?; lia]).
      f_equal. rewrite Z.add_0_r. f_equal. apply sum_Z_perm, between_perm. symmetry. apply merge_sort_Permutation. }
    destruct (Nat.leb_spec n (lower_bound (q_l qc) xs)) as [Hge|Hlt].
    + wp_step. split; [done|]. rewrite E, drop_ge by lia. simpl. by rewrite Z.add_0_r.
    + destruct (il_node _ _ _ Hl2 (lower_bound (q_l qc) xs / 64)) as (nd & (a & Ha & Hh) & _); [by apply block_lt|].
      wp_step. eapply wp_array_get; [exact Ha|].
      eapply wp_mono; [|by eapply (scan_loop_spec h2 list n xs); try done; lia].
      intros y h' [-> ->]. by rewrite E.
  - intros x h' [_ ->]. done.
Qed.

Lemma test_perversion_spec hash `{!PerfectHash hash} order fuel n q elems queries :
  (n < fuel)%nat -> (n <= length elems)%nat -> (q <= length queries)%nat -> Forall u64 elems ->
  wp (test_perversion hash order fuel n q elems queries)
     (fun x _ => x = wrap64 (sum_Z (keys_count (take n elems) <$> take q queries))) ∅.
Proof.
  intros Hf Hn Hq Hu. unfold test_perversion. wp_step.
  eapply wp_mono; [|apply (TreapBuild.build_parallel_spec (hash := hash) order fuel ∅ n elems); try done].
  intros p h (t & Au & (W & _ & Hsz & L) & _ & _). rewrite length_take in Hsz.
  eapply wp_mono; [|apply (wp_total_of queries q _ (keys_count (take n elems)))]; [by intros x h' [_ ->]|done|].
  intros qc _. eapply wp_mono; [|apply (TreapQuery.range_estimate_spec (hash := hash) fuel h p t); try done].
  - intros x h' [-> ->]. split; [done|]. rewrite <- (bag_range_sum_tree hash) by done.
    unfold keys_count. rewrite <- bag_of_range. do 2 f_equal. apply map_eq. intros k.
    by rewrite (to_bag_lookup hash), L.
  - clear. induction t; simpl; auto.
  - lia.
Qed.

(** ** The batches *)

Lemma between_count l r xs :
  range_total (fun k => count k xs) l r = Z.of_nat (length (between l r xs)).
Proof.
  unfold range_total. induction xs as [|x xs IH].
  { apply sum_Z_zero. done. }
  unfold between in *. rewrite filter_cons.
  assert (forall ks, sum_Z ((fun k => count k (x :: xs)) <$> ks) =
    Z.of_nat (length (filter (fun k => x = k) ks)) + sum_Z ((fun k => count k xs) <$> ks)) as Hs.
  { induction ks as [|k ks IHk]; [done|]. rewrite !fmap_cons, filter_cons. unfold sum_Z in *. cbn [foldr].
    rewrite IHk. simpl count. destruct (Z.eqb_spec x k).
    - rewrite decide_True by done. cbn [length]. lia.
    - rewrite decide_False by done. lia. }
  rewrite Hs, IH.
  assert (length (filter (fun k => x = k) (seqZ l (r - l + 1))) = if decide (l <= x <= r) then 1%nat else 0%nat) as ->.
  { case_decide as Hx.
    - assert (filter (fun k => x = k) (seqZ l (r - l + 1)) ≡ₚ [x]) as Hp.
      { apply NoDup_Permutation; [apply NoDup_filter, NoDup_seqZ|apply NoDup_singleton|].
        intros k. rewrite list_elem_of_filter, elem_of_seqZ, list_elem_of_singleton. split; [naive_solver|intros ->; lia]. }
      by apply Permutation_length in Hp.
    - destruct (filter (fun k => x = k) (seqZ l (r - l + 1))) as [|k ks] eqn:E; [done|]. exfalso.
      assert (k ∈ filter (fun k => x = k) (seqZ l (r - l + 1))) as Hk by (rewrite E; left).
      apply list_elem_of_filter in Hk as [-> Hk%elem_of_seqZ]. lia. }
  case_decide; cbn [length]; lia.
Qed.

Section batches.
Context (hash : Z -> Z) `{HPH : !PerfectHash hash} (order : list nat -> bool) (fuel n m b : nat) (elems : list Z).
Hypothesis (Hb : (0 < b)%nat) (Hn : (n + m * b <= length elems)%nat) (Hu : Forall u64 elems)
  (Hd : NoDup (take (n + m * b) elems)) (Hf : (n + m * b < fuel)%nat)
  (Hv : Z.of_nat (n + m * b) < vstat_uninitialized).

(** The tree of the root [j]: since all keys are different, it is right at every version of
    its batch, and after it. *)
Definition tree_ok (j : nat) (t : tree) : Prop :=
  (size t <= n + j * b)%nat /\ forall (k : Z) (w : nat), (j * b < w + b)%nat ->
    query t (Z.of_nat w) k = count k (take (n + w `min` (j * b)) elems).

Definition roots_grown (i : nat) (roots : list ptr) (h : heap) : Prop :=
  length roots = S i /\ exists g, forall j, (j <= i)%nat -> exists p t,
    roots !! j = Some p /\ snapshot hash g h p t (Z.of_nat (j * b)) /\ tree_ok j t.

Lemma count_upto k (a c : nat) : (a <= c)%nat ->
  count k (take c elems) = count k (take a elems) + count k (take (c - a) (drop a elems)).
Proof.
  intros Hac. replace c with (a + (c - a))%nat at 1 by lia. by rewrite <- take_take_drop, pam_count_app.
Qed.

Lemma count_nodup k xs : NoDup xs -> count k xs <= 1.
Proof.
  induction 1 as [|x xs Hx _ IH]; simpl; [lia|]. destruct (Z.eqb_spec x k) as [->|]; [|lia].
  apply count_zero in Hx. lia.
Qed.

Lemma count_once k c : (c <= n + m * b)%nat -> 0 <= count k (take c elems) <= 1.
Proof.
  intros Hc. split; [apply count_nonneg|]. apply count_nodup. eapply sublist_NoDup; [exact Hd|].
  replace (take c elems) with (take c (take (n + m * b) elems)) by (rewrite take_take; f_equal; lia).
  apply sublist_take.
Qed.
Lemma batch_build :
  wp (interface.build hash (branch 0 order) fuel n elems)
     (fun p h' => exists g t, snapshot hash g h' p t 0 /\ tree_ok 0 t) ∅.
Proof using HPH Hb Hn Hu Hd Hf Hv.
  eapply wp_mono; [|apply (pam_build hash fuel _ n elems); [lia|lia|done]].
  intros p h' (g & t & Hs & (Hz & Hq) & _). exists g, t. split; [done|]. split; [lia|].
  intros k w Hw. rewrite Hq by lia. rewrite Nat.mul_0_l, Nat.min_0_r, Nat.add_0_r.
  apply wrap64_small. pose proof (count_once k n ltac:(lia)). unfold u64, two64. lia.
Qed.

Lemma tree_ok_inserted i t t' :
  (i < m)%nat -> tree_ok i t -> wf hash t -> t_vstat t <= Z.of_nat (i * b) ->
  (size t' <= size t + b)%nat ->
  (forall k w, Z.of_nat (i * b) + 1 <= w ->
    query t' w k = after_insert t (Z.of_nat (i * b) + 1) (take b (drop (n + i * b) elems)) k w) ->
  tree_ok (S i) t'.
Proof using Hb Hn Hd Hf Hv.
  intros Hi [Hz Hq] W V Hz' Hq'. assert (S i * b <= m * b)%nat by (apply Nat.mul_le_mono_r; lia).
  split; [simpl; lia|]. intros k w Hw. simpl in Hw. rewrite Hq' by lia.
  set (c := (n + i * b)%nat). set (es := take b (drop c elems)).
  assert (newest t k = count k (take c elems)) as Hnew.
  { rewrite (newest_query hash t (Z.of_nat (i * b)) k W V), Hq by lia. by rewrite Nat.min_id. }
  pose proof (count_upto k c (n + w `min` (S i * b)) ltac:(unfold c; simpl; lia)) as Hsplit.
  replace (take (n + w `min` (S i * b) - c) (drop c elems))
    with (take (w - i * b) es) in Hsplit.
  2: { unfold es. rewrite take_take. f_equal. unfold c. simpl. lia. }
  pose proof (count_once k (n + w `min` (S i * b)) ltac:(simpl in *; lia)) as H1.
  pose proof (count_nonneg k (take c elems)). pose proof (count_nonneg k (take (w - i * b) es)).
  assert (upto (Z.of_nat w) (Z.of_nat (i * b) + 1) k es = count k (take (w - i * b) es)) as Hup.
  { unfold upto. do 2 f_equal. lia. }
  unfold after_insert. rewrite Hup, Hnew, Hsplit.
  destruct (Z.eqb_spec (count k es) 0) as [E|E].
  - assert (count k (take (w - i * b) es) <= count k es).
    { rewrite <- (take_drop (w - i * b) es) at 2. rewrite pam_count_app.
      pose proof (count_nonneg k (drop (w - i * b) es)). lia. }
    lia.
  - assert (count k (take c elems) = 0) as Hc.
    { pose proof (count_once k (c + b) ltac:(unfold c; simpl in *; lia)) as Hcb.
      rewrite (count_upto k c (c + b)) in Hcb by lia. replace (c + b - c)%nat with b in Hcb by lia. fold es in Hcb.
      pose proof (count_nonneg k es). lia. }
    rewrite Hc in *. destruct (Z.eqb_spec (count k (take (w - i * b) es)) 0); [lia|].
    rewrite wrap64_small; [lia|]. unfold u64, two64. lia.
Qed.

Lemma batch_step i roots h :
  (i < m)%nat -> roots_grown i roots h ->
  wp (t ← array_get roots i;
      t' ← interface.inserted hash (branch (S i) order) fuel t (wrap64 (Z.of_nat (i * b) + 1)) b (drop (n + i * b) elems);
      array_push (m + 1) t' roots) (roots_grown (S i)) h.
Proof using HPH Hb Hn Hu Hd Hf Hv.
  intros Hi (Hl & g & Hr). assert (S i * b <= m * b)%nat as Him by (apply Nat.mul_le_mono_r; lia). simpl in Him.
  destruct (Hr i) as (p & t & Hp & Hs & Hok); [done|]. wp_step. eapply wp_array_get; [exact Hp|].
  rewrite wrap64_small by (unfold u64, vstat_uninitialized, two64 in *; lia).
  assert (length (take b (drop (n + i * b) elems)) = b) as Hlb by (rewrite length_take, length_drop; lia).
  wp_step. destruct Hok as [Hz Hq]. eapply wp_mono; [|apply (inserted_spec _ _ fuel g h p t (Z.of_nat (i * b))
    (Z.of_nat (i * b) + 1) (take b (drop (n + i * b) elems))); [done|lia|lia|];
    apply batch_many; [lia|rewrite length_drop; lia|by apply Forall_drop|apply Hs|lia|lia]].
  intros q h' (g' & t' & Hs' & (Hz' & Hq') & Hk). apply wp_array_push; [lia|].
  rewrite Hlb in *. split; [rewrite length_app; simpl; lia|]. exists g'. intros j Hj.
  destruct (decide (j = S i)) as [->|].
  - exists q, t'. split_and!; [rewrite lookup_app_r by lia; by replace (S i - length roots)%nat with 0%nat by lia| |].
    + replace (Z.of_nat (S i * b)) with (Z.of_nat (i * b) `max` (Z.of_nat (i * b) + 1 + Z.of_nat b - 1)) by lia. done.
    + by apply (tree_ok_inserted i t t'); try done; try apply Hs.
  - destruct (Hr j) as (p0 & t0 & Hp0 & Hs0 & Hok0); [lia|]. exists p0, t0. split_and!; [|by apply Hk|done].
    by rewrite lookup_app_l by lia.
Qed.

Lemma test_batch_spec q queries :
  (q <= length queries)%nat -> Forall (fun qc => 0 <= q_ver qc <= Z.of_nat (m * b)) queries ->
  Z.of_nat (m * b + b) < two64 ->
  wp (test_batch hash order fuel n m b q elems queries)
     (fun x _ => x = wrap64 (sum_Z ((fun qc => keys_count (take (n + Z.to_nat (q_ver qc)) elems) qc) <$> take q queries))) ∅.
Proof using HPH Hb Hn Hu Hd Hf Hv.
  intros Hq Hvs Hbv. unfold test_batch. wp_step. eapply wp_mono; [|apply batch_build]. intros p h (g & t & Hs & Hok).
  wp_step. apply wp_array_push; [simpl; lia|]. wp_step. apply (wp_for roots_grown).
  - split; [done|]. exists g. intros j Hj. assert (j = 0%nat) as -> by lia. by exists p, t.
  - intros j roots h1 Hj. apply batch_step. lia.
  - clear g t p h Hs Hok. intros roots h (Hl & g & Hr). simpl in Hr.
    eapply wp_mono; [|apply (wp_total_of queries q _ (fun qc => keys_count (take (n + Z.to_nat (q_ver qc)) elems) qc));
      [done|]]; [by intros x h' [_ ->]|].
    intros qc Hqc. assert (0 <= q_ver qc <= Z.of_nat (m * b)) as Hver.
    { rewrite Forall_forall in Hvs. apply Hvs. by eapply elem_of_take in Hqc as (? & ? & _); eapply list_elem_of_lookup_2. }
    set (v := Z.to_nat (q_ver qc)). replace (q_ver qc) with (Z.of_nat v) in * by lia.
    set (bid := ((v + b - 1) / b)%nat).
    assert (bid * b < v + b /\ v <= bid * b /\ bid <= m)%nat as (B1 & B2 & B3).
    { pose proof (Nat.div_mod_eq (v + b - 1) b) as E. fold bid in E.
      pose proof (Nat.mod_upper_bound (v + b - 1) b ltac:(lia)).
      assert (v <= m * b)%nat by lia. split_and!; [lia|lia|]. apply Nat.lt_succ_r, (Nat.mul_lt_mono_pos_r b); simpl; lia. }
    wp_step. rewrite wrap64_small by (unfold u64, vstat_uninitialized, two64 in *; lia). apply wp_u_div; [lia|].
    replace (Z.to_nat ((Z.of_nat v + Z.of_nat b - 1) / Z.of_nat b)) with bid.
    2: { unfold bid. replace (Z.of_nat v + Z.of_nat b - 1) with (Z.of_nat (v + b - 1)) by lia. by rewrite <- Nat2Z.inj_div, Nat2Z.id. }
    destruct (Hr bid B3) as (p & t & Hp & Hs & Hz & Hqt). assert (bid * b <= m * b)%nat by (apply Nat.mul_le_mono_r; lia).
    wp_step. eapply wp_array_get; [exact Hp|].
    eapply wp_mono; [|apply (pam_range hash fuel g h p t (Z.of_nat bid * Z.of_nat b)); [by replace (Z.of_nat bid * Z.of_nat b) with (Z.of_nat (bid * b)) by lia|lia]].
    intros x h' [-> ->]. split; [done|]. f_equal. unfold keys_count. rewrite <- between_count.
    unfold range_total. f_equal. apply list_fmap_ext. intros i k _. rewrite Hqt by lia. do 2 f_equal. lia.
Qed.
End batches.

(** ** The program *)

Lemma make_elems_spec {N} rand n (h : gmap loc N) :
  (forall i, 0 <= rand i) ->
  wp (make_elems rand n) (fun xs h' => h' = h /\ xs ≡ₚ seqZ 0 (Z.of_nat n)) h.
Proof.
  intros Hr. unfold make_elems. apply (wp_for (fun i xs h' => h' = h /\ xs ≡ₚ seqZ 0 (Z.of_nat i))).
  - done.
  - intros i xs h' Hi [-> Hxs]. pose proof (Permutation_length Hxs) as Hl. rewrite length_seqZ, Nat2Z.id in Hl.
    wp_step. apply wp_array_push; [lia|]. wp_step. apply wp_u_mod; [lia|]. pose proof (Hr i).
    pose proof (Z.mod_pos_bound (rand i) (Z.of_nat i + 1) ltac:(lia)).
    apply wp_array_swap; rewrite ?length_app; simpl; [lia|lia|]. intros ys Hys. split; [done|].
    rewrite Hys, Hxs. replace (Z.of_nat (S i)) with (Z.of_nat i + 1) by lia.
    rewrite seqZ_app by lia. by rewrite Z.add_0_l.
  - intros xs h' H. exact H.
Qed.

(** What [make_queries] draws. *)
Definition query_of (rand : nat -> Z) (k n mb w i : nat) : query_context :=
  let len := rand (k + 3 * i + 1)%nat mod Z.of_nat w in
  let l := rand (k + 3 * i + 2)%nat mod (Z.of_nat n + Z.of_nat mb - len) in
  mk_query (rand (k + 3 * i)%nat mod (Z.of_nat mb + 1)) l (l + len).

Definition queries_of (rand : nat -> Z) (k n mb w q : nat) : list query_context := query_of rand k n mb w <$> seq 0 q.

(** A query asks for a version there is, and a range of keys there may be. *)
Lemma query_of_ok rand k n mb w i :
  (forall i, 0 <= rand i) -> (0 < w <= n)%nat ->
  let qc := query_of rand k n mb w i in
  0 <= q_ver qc <= Z.of_nat mb /\ 0 <= q_l qc <= q_r qc /\ q_r qc < Z.of_nat n + Z.of_nat mb.
Proof.
  intros Hr Hw. unfold query_of. cbn zeta. cbn [q_ver q_l q_r].
  pose proof (Z.mod_pos_bound (rand (k + 3 * i)%nat) (Z.of_nat mb + 1) ltac:(lia)).
  pose proof (Z.mod_pos_bound (rand (k + 3 * i + 1)%nat) (Z.of_nat w) ltac:(lia)).
  set (len := rand (k + 3 * i + 1)%nat mod Z.of_nat w) in *.
  pose proof (Z.mod_pos_bound (rand (k + 3 * i + 2)%nat) (Z.of_nat n + Z.of_nat mb - len) ltac:(lia)). lia.
Qed.

Lemma make_queries_spec {N} rand k n mb w q (h : gmap loc N) :
  (forall i, 0 <= rand i) -> (0 < w <= n)%nat -> Z.of_nat n + Z.of_nat mb < two64 ->
  wp (make_queries rand k n mb w q) (fun qs h' => h' = h /\ qs = queries_of rand k n mb w q) h.
Proof.
  intros Hr Hw Hn. unfold make_queries. apply (wp_for (fun i qs h' => h' = h /\ qs = queries_of rand k n mb w i)).
  - done.
  - intros i qs h' Hi [-> ->]. pose proof (query_of_ok rand k n mb w i Hr Hw) as Hok. unfold query_of in Hok.
    cbn zeta in Hok. cbn [q_ver q_l q_r] in Hok.
    pose proof (Z.mod_pos_bound (rand (k + 3 * i + 1)%nat) (Z.of_nat w) ltac:(lia)).
    wp_step. apply wp_u_mod; [lia|]. wp_step. apply wp_u_mod; [lia|].
    rewrite wrap64_small by (unfold u64; lia). wp_step. apply wp_u_mod; [lia|]. rewrite wrap64_small by (unfold u64; lia).
    apply wp_array_push; [unfold queries_of; rewrite length_fmap, length_seq; lia|].
    split; [done|]. unfold queries_of. rewrite seq_S, fmap_app. done.
  - intros qs h' H. exact H.
Qed.

Lemma wp_own_heap {N N' A} (m : M N A) (Q : A -> gmap loc N' -> Prop) h :
  wp m (fun x _ => Q x h) ∅ -> wp (own_heap m) Q h.
Proof. intros (x & h' & E & HQ). exists x, h. unfold own_heap. by rewrite E. Qed.

(** All numbers of a range are elements. *)
Lemma keys_total_all N xs qc :
  xs ≡ₚ seqZ 0 N -> 0 <= q_l qc -> q_r qc < N -> keys_total xs qc = sum_Z (seqZ (q_l qc) (q_r qc - q_l qc + 1)).
Proof.
  intros Hxs Hl Hr. unfold keys_total. apply sum_Z_perm. rewrite (between_perm _ _ _ _ Hxs).
  apply NoDup_Permutation; [apply NoDup_filter, NoDup_seqZ|apply NoDup_seqZ|].
  intros x. unfold between. rewrite list_elem_of_filter, !elem_of_seqZ. lia.
Qed.

(** The answer to a query that [main] adds up. *)
Definition main_answer (n b : nat) (elems : list Z) (qc : query_context) : Z :=
  if (b =? 1)%nat then sum_Z (seqZ (q_l qc) (q_r qc - q_l qc + 1))
  else keys_count (take (n + Z.to_nat (q_ver qc)) elems) qc.

(** The latency benchmark logs what it claims to measure.  For a batch size [b] of at
    least one, [main] shuffles the numbers below [n+m*b] and draws [q] queries; it logs, modulo
    [2^64], for [b = 1] the sum of the keys in the ranges of the queries, found in the list of
    blocks, and otherwise the number of the keys that each range had at its version: those
    among the first [n] elements and as many batches, and parts of a batch, as the version
    says. *)
Theorem latency_total n w u rand hash `{!PerfectHash hash} order fuel b q :
  (forall i, 0 <= rand i) -> (0 < w <= n)%nat -> (0 < b)%nat -> (n + u < fuel)%nat ->
  Z.of_nat (n + u + b) < vstat_uninitialized ->
  let mb := (u / b * b)%nat in
  exists elems, make_elems rand (n + mb) (∅ : gmap loc unit) = Ok (elems, ∅) /\ elems ≡ₚ seqZ 0 (Z.of_nat (n + mb)) /\
    main_with n w u rand hash order fuel b q ∅ =
      Ok (wrap64 (sum_Z (main_answer n b elems <$> queries_of rand (n + mb) n mb w q)), ∅).
Proof.
  intros Hr Hw Hb Hf Hv mb. assert (mb <= u)%nat as Hmb.
  { unfold mb. pose proof (Nat.div_mod_eq u b). lia. }
  destruct (make_elems_spec rand (n + mb) (∅ : gmap loc unit) Hr) as (elems & h & E & -> & Hp).
  exists elems. split_and!; [done|done|].
  pose proof (Permutation_length Hp) as Hlen. rewrite length_seqZ, Nat2Z.id in Hlen.
  assert (Z.of_nat n + Z.of_nat mb < two64) as Hn by (unfold vstat_uninitialized, two64 in *; lia).
  destruct (make_queries_spec rand (n + mb) n mb w q (∅ : gmap loc unit) Hr Hw Hn) as (qs & h & E2 & -> & ->).
  set (qs := queries_of rand (n + mb) n mb w q) in *.
  assert (length qs = q) as Hlq by (unfold qs, queries_of; by rewrite length_fmap, length_seq).
  assert (Forall (fun qc => 0 <= q_ver qc <= Z.of_nat mb /\ 0 <= q_l qc /\ q_r qc < Z.of_nat (n + mb)) qs) as Hqs.
  { apply Forall_fmap, Forall_forall. intros i _. pose proof (query_of_ok rand (n + mb) n mb w i Hr Hw). simpl in *. lia. }
  assert (Forall u64 elems) as Hu.
  { rewrite Hp. apply Forall_seqZ. intros x Hx. unfold u64. lia. }
  assert (wp (main_with n w u rand hash order fuel b q)
    (fun x h => h = ∅ /\ x = wrap64 (sum_Z (main_answer n b elems <$> qs))) ∅) as (x & h & Ex & -> & ->); [|exact Ex].
  unfold main_with. wp_step. apply wp_u_div; [lia|]. rewrite <- Nat2Z.inj_div, Nat2Z.id. fold mb.
  wp_step. exists elems, ∅. split; [exact E|]. wp_step. exists qs, ∅. split; [exact E2|].
  destruct (Nat.eqb_spec b 0); [lia|]. wp_step. wp_step. unfold main_answer.
  destruct (Nat.eqb_spec b 1) as [->|Hb1]; apply wp_own_heap.
  - assert (n + u / 1 = n + mb)%nat as -> by (unfold mb; lia).
    eapply wp_mono; [|apply (test_scan_spec _ (n + mb) q elems qs); [intros i; apply Hr|lia|lia]].
    intros x h ->. split; [done|]. rewrite !take_ge by lia. do 2 f_equal.
    apply list_fmap_ext. intros i qc Hi. rewrite Forall_forall in Hqs.
    destruct (Hqs qc) as (_ & H1 & H2); [by eapply list_elem_of_lookup_2|].
    by apply (keys_total_all (Z.of_nat (n + mb))).
  - eapply wp_mono; [|apply (test_batch_spec hash order fuel n (u / b) b elems); try done; fold mb; try lia].
    + intros x h ->. split; [done|]. by rewrite take_ge by lia.
    + rewrite take_ge by lia. rewrite Hp. apply NoDup_seqZ.
    + eapply Forall_impl; [exact Hqs|]. by intros qc [? _].
    + unfold vstat_uninitialized in Hv. lia.
Qed.

Theorem latency_total_witness :
  exists elems, make_elems (fun i => Z.of_nat (i * 7)) (4 + 4) (∅ : gmap loc unit) = Ok (elems, ∅) /\
    elems ≡ₚ seqZ 0 (Z.of_nat (4 + 4)) /\
    main_with 4 3 5 (fun i => Z.of_nat (i * 7)) wrap64 alternating 20 2 3 ∅ =
      Ok (wrap64 (sum_Z (main_answer 4 2 elems <$> queries_of (fun i => Z.of_nat (i * 7)) (4 + 4) 4 4 3 3)), ∅).
Proof.
  apply (latency_total 4 3 5 (fun i => Z.of_nat (i * 7)) wrap64 alternating 20 2 3).
  - intros i. lia.
  - lia.
  - lia.
  - lia.
  - reflexivity.
Defined.

(** With a batch size of 0, which selects the treap of the other databases, the program
    divides by zero before it does anything else. *)
Theorem latency_batch_zero n w u rand hash order fuel q h : main_with n w u rand hash order fuel 0 q h = Err DivZero.
Proof. done. Qed.
