(* ===== verification/ShoppingSystem.v ===== *)
(** * The shopping benchmark

    [src/test/shopping_system.cpp] runs insertions and then range queries on the concurrent
    treap, on a chain of sequential versions, on the batched treap, and range queries on a
    sorted list of blocks.  The clocks and the log are left out. *)

From Stdlib Require Import QArith.
From S2P Require Import Prelude Owned TreapTree.
From S2P Require TreapNode TreapUpdate TreapQuery TreapBuild Scheduler SchedulerCorrect.
From S2P Require Import PamNode PamBuild PamQuery PamUpdate Pam QueryProcessor Database Batch.
From S2P Require Contreap.
From S2P Require Import YcsbUtils Generators QueryLatency.

#[local] Open Scope Z_scope.

(** [query_context], [list_node] and [test_scan] repeat those of the latency benchmark. *)
Definition test_scan : (nat -> Z) -> nat -> nat -> list Z -> list query_context -> M list_node Z :=
  QueryLatency.test_scan.

Definition num_threads : nat := 64.

(** ** The concurrent treap *)

Section contreap.
Context (hash : Z -> Z) (order : list nat -> bool) (fuel : nat) (others : Scheduler.sched -> list Scheduler.label).

(** The loop over [insert_elem]. *)
Fixpoint insert_records (i k : nat) (records : list Z) : SM Contreap.contreap unit :=
  match k with
  | O => mret tt
  | S k =>
      match records !! i with
      | Some e => Contreap.insert_elem others e;; insert_records (S i) k records
      | None => sm_fail BadPtr
      end
  end.

(** [range_estimate(contreap->get_snapshot(ver), l, r)] *)
Definition range_query (qc : query_context) : SM Contreap.contreap Z := fun s =>
  match Contreap.contreap_ s with
  | None => Err NullDeref
  | Some (cfg, σ) =>
      match Scheduler.get_snapshot cfg (Z.to_nat (q_ver qc)) σ with
      | Err e => Err e
      | Ok t =>
          match TreapQuery.range_estimate_open fuel t (q_l qc) (q_r qc) (Scheduler.s_heap σ) with
          | Ok (x, _) => Ok (x, s)
          | Err e => Err e
          end
      end
  end.

Fixpoint query_records (i k : nat) (queries : list query_context) (tot : Z) : SM Contreap.contreap Z :=
  match k with
  | O => mret tot
  | S k =>
      match queries !! i with
      | Some qc => x ← range_query qc; query_records (S i) k queries (wrap64 (tot + x))
      | None => sm_fail BadPtr
      end
  end.

(** The scheduler is made with [threads] threads and blocks of [bs] tasks. *)
Definition start_scheduler (threads n m bs : nat) (records : list Z) : SM Contreap.contreap unit := fun s =>
  match TreapBuild.build_parallel hash order fuel n records ∅ with
  | Err e => Err e
  | Ok (t, h) =>
      let cfg := Scheduler.scheduler_config threads m bs hash fuel in
      Ok (tt, Contreap.set_scheduler (cfg, Scheduler.scheduler_init cfg h t) s)
  end.

Definition test_contreap_with (threads bs n m q : nat) (records : list Z) (queries : list query_context) :
    SM Contreap.contreap Z :=
  start_scheduler threads n m bs records;;
  insert_records n m records;;
  Contreap.process others;;
  query_records 0 q queries 0.

Definition test_contreap : nat -> nat -> nat -> list Z -> list query_context -> SM Contreap.contreap Z :=
  test_contreap_with num_threads (Z.to_nat 10000).
End contreap.

(** ** The sequential versions *)

(** The versions are not aggregated. *)
Definition test_seq (hash : Z -> Z) (order : list nat -> bool) (fuel n m q : nat) (records : list Z)
    (queries : list query_context) : M TreapNode.node_t Z :=
  t0 ← TreapBuild.build_parallel hash order fuel n records;
  t ← array_push (m + 1) t0 [];
  t ← for_loop 0 m (fun i t =>
    ti ← array_get t i; x ← array_get records i;
    ti' ← TreapUpdate.search_insert fuel (i + 1) ti (hash x) x;
    array_push (m + 1) ti' t) t;
  total_of queries q (fun qc =>
    tv ← array_get t (Z.to_nat (q_ver qc)); TreapQuery.range_estimate_open fuel tv (q_l qc) (q_r qc)).

(** ** The batches *)

Definition test_pam (hash : Z -> Z) (order : list nat -> bool) (fuel n m b q : nat) (records : list Z)
    (queries : list query_context) : M PamNode.node_t Z :=
  cap ← u_div (Z.of_nat (m + b) - 1) (Z.of_nat b);
  let cap := (Z.to_nat cap + 1)%nat in
  t ← interface.build hash (branch 0 order) fuel n records;
  roots ← array_push cap t [];
  roots ← for_loop 0 (m / b) (fun i roots =>
    t ← array_get roots i;
    t' ← interface.inserted hash (branch (S i) order) fuel t (wrap64 (Z.of_nat (i * b) + 1)) b (drop (n + i * b) records);
    array_push cap t' roots) roots;
  roots ← (if (m mod b =? 0)%nat then mret roots
           else
             t ← array_get roots (m / b)%nat;
             t' ← interface.inserted hash (branch (S (m / b)) order) fuel t (wrap64 (Z.of_nat (m / b * b) + 1)) (m mod b)
                    (drop (n + m / b * b) records);
             array_push cap t' roots);
  total_of queries q (fun qc =>
    bid ← u_div (wrap64 (q_ver qc + Z.of_nat b - 1)) (Z.of_nat b);
    t ← array_get roots (Z.to_nat bid);
    interface.range_estimate fuel t (q_ver qc) (q_l qc) (q_r qc)).

(** ** The batches count right at their ends *)

Section batches.
Context (hash : Z -> Z) `{HPH : !PerfectHash hash} (order : list nat -> bool) (fuel n m b : nat) (records : list Z).
Hypothesis (Hb : (0 < b)%nat) (Hn : (n + m <= length records)%nat) (Hu : Forall u64 records)
  (Hf : (n + m < fuel)%nat) (Hv : Z.of_nat (n + m) < vstat_uninitialized).

(** From version [v] on, the tree has the records up to this version. *)
Definition tree_exact (v : nat) (t : tree) : Prop :=
  (size t <= n + v)%nat /\ forall k w, Z.of_nat v <= w -> query t w k = count k (take (n + v) records).

Lemma count_length k (xs : list Z) : 0 <= count k xs <= Z.of_nat (length xs).
Proof. induction xs as [|x xs IH]; simpl; [lia|]. destruct (x =? k); lia. Qed.

Lemma insert_exact o g h p t (v c : nat) :
  snapshot hash g h p t (Z.of_nat v) -> tree_exact v t -> (v + c <= m)%nat ->
  wp (interface.inserted hash o fuel p (wrap64 (Z.of_nat v + 1)) c (drop (n + v) records))
     (fun q h' => exists g' t', snapshot hash g' h' q t' (Z.of_nat (v + c)) /\ tree_exact (v + c) t' /\
        forall q0 t0 v0, snapshot hash g h q0 t0 v0 -> snapshot hash g' h' q0 t0 v0) h.
Proof using HPH Hb Hn Hu Hf Hv.
  intros Hs [Hz Hq] Hc. rewrite wrap64_small by (unfold u64, vstat_uninitialized, two64 in *; lia).
  eapply wp_mono; [|apply (pam_inserted hash fuel o g h p t (Z.of_nat v) c (drop (n + v) records));
    [done|lia|rewrite length_drop; lia|by apply Forall_drop|lia]].
  intros q h' (g' & t' & Hs' & (Hz' & Hat) & Hk). exists g', t'.
  replace (Z.of_nat v + Z.of_nat c) with (Z.of_nat (v + c)) in * by lia. split_and!; [done| |done].
  split; [lia|]. intros k w Hw. rewrite (snapshot_stable _ _ _ _ _ _ k w Hs') by lia.
  rewrite <- (snapshot_stable _ _ _ _ _ _ k (Z.of_nat (S (v + c))) Hs') by lia.
  rewrite Hat by lia. rewrite Hq by lia. cbv zeta.
  rewrite (take_ge (take c _)) by (rewrite length_take; lia).
  pose proof (pam_count_app k (take (n + v) records) (take c (drop (n + v) records))) as Happ.
  rewrite take_take_drop in Happ. rewrite Nat.add_assoc. destruct (Z.eqb_spec (count k (take c (drop (n + v) records))) 0) as [E|E]; [lia|].
  rewrite <- Happ. apply wrap64_small. pose proof (count_length k (take (n + v + c) records)) as Hl.
  rewrite length_take in Hl. unfold u64, vstat_uninitialized, two64 in *. lia.
Qed.

(** The version of the root [j]. *)
Definition version_of (j : nat) : nat := ((j * b) `min` m)%nat.

Definition roots_exact (i : nat) (roots : list ptr) (h : heap) : Prop :=
  length roots = S i /\ exists g, forall j, (j <= i)%nat -> exists p t,
    roots !! j = Some p /\ snapshot hash g h p t (Z.of_nat (version_of j)) /\ tree_exact (version_of j) t.

Lemma root_step o i c cap roots h :
  (version_of i = i * b)%nat -> (version_of (S i) = i * b + c)%nat -> (S i < cap)%nat ->
  roots_exact i roots h ->
  wp (t ← array_get roots i;
      t' ← interface.inserted hash o fuel t (wrap64 (Z.of_nat (i * b) + 1)) c (drop (n + i * b) records);
      array_push cap t' roots) (roots_exact (S i)) h.
Proof using HPH Hb Hn Hu Hf Hv.
  intros Hi HSi Hcap (Hl & g & Hr). assert (i * b + c <= m)%nat by (unfold version_of in HSi; lia).
  destruct (Hr i) as (p & t & Hp & Hs & Ht); [done|]. rewrite Hi in *. wp_step. eapply wp_array_get; [exact Hp|].
  wp_step. eapply wp_mono; [|apply (insert_exact o g h p t (i * b) c); done].
  intros q h' (g' & t' & Hs' & Ht' & Hk). apply wp_array_push; [lia|]. split; [rewrite length_app; simpl; lia|].
  exists g'. intros j Hj. destruct (decide (j = S i)) as [->|].
  - exists q, t'. rewrite HSi. split_and!; [|done|done]. rewrite lookup_app_r by lia.
    by replace (S i - length roots)%nat with 0%nat by lia.
  - destruct (Hr j) as (p0 & t0 & Hp0 & Hs0 & Ht0); [lia|]. exists p0, t0.
    split_and!; [by rewrite lookup_app_l by lia|by apply Hk|done].
Qed.

(** A query at the end of a batch. *)
Definition batch_end (qc : query_context) : Prop :=
  0 <= q_ver qc <= Z.of_nat m /\ (q_ver qc mod Z.of_nat b = 0 \/ q_ver qc = Z.of_nat m).

Lemma last_root_le : (m / b * b <= m /\ m = m / b * b + m mod b /\ m mod b < b)%nat.
Proof using Hb Hf Hn Hv. pose proof (Nat.div_mod_eq m b). pose proof (Nat.mod_upper_bound m b ltac:(lia)). lia. Qed.

Lemma capacity : Z.to_nat ((Z.of_nat (m + b) - 1) / Z.of_nat b) = ((m + b - 1) / b)%nat.
Proof using Hb Hf Hn Hv.
  replace (Z.of_nat (m + b) - 1) with (Z.of_nat (m + b - 1)) by lia. by rewrite <- Nat2Z.inj_div, Nat2Z.id.
Qed.

Lemma capacity_exact : ((m + b - 1) / b = m / b + if m mod b =? 0 then 0 else 1)%nat.
Proof using Hb Hf Hn Hv.
  destruct last_root_le as (H1 & H2 & H3). pose proof (Nat.div_mod_eq m b).
  destruct (Nat.eqb_spec (m mod b) 0) as [E|E]; symmetry.
  - apply (Nat.div_unique _ _ _ (b - 1)); lia.
  - apply (Nat.div_unique _ _ _ (m mod b - 1)); lia.
Qed.

Lemma test_pam_spec q queries :
  (q <= length queries)%nat -> Forall batch_end (take q queries) -> Z.of_nat (m + b) < two64 ->
  wp (test_pam hash order fuel n m b q records queries)
     (fun x _ => x = wrap64 (sum_Z ((fun qc => keys_count (take (n + Z.to_nat (q_ver qc)) records) qc) <$> take q queries))) ∅.
Proof using HPH Hb Hn Hu Hf Hv.
  intros Hq Hends Hbm. unfold test_pam. wp_step. apply wp_u_div; [lia|]. rewrite capacity, capacity_exact.
  set (cap := (m / b + _ + 1)%nat). destruct last_root_le as (M1 & M2 & M3).
  wp_step. eapply wp_mono; [|apply (pam_build hash fuel _ n records); [lia|lia|done]].
  intros p h (g & t & Hs & (Hz & Ht) & _). wp_step. apply wp_array_push; [simpl; lia|]. wp_step.
  apply (wp_for roots_exact).
  - split; [done|]. exists g. intros j Hj. assert (j = 0%nat) as -> by lia. exists p, t. split_and!; [done|done|].
    split; [simpl; lia|]. intros k w Hw. rewrite Ht by (simpl in Hw; lia). unfold version_of. simpl. rewrite Nat.add_0_r.
    apply wrap64_small. pose proof (count_length k (take n records)) as Hl.
    rewrite length_take in Hl. unfold u64, vstat_uninitialized, two64 in *. lia.
  - intros j roots h1 Hj. assert (S j * b <= m / b * b)%nat by (apply Nat.mul_le_mono_r; lia). simpl in *.
    apply root_step; unfold version_of; simpl; unfold cap; lia.
  - clear g t p h Hs Hz Ht. intros roots h Hroots. simpl in Hroots. wp_step.
    assert (wp (if (m mod b =? 0)%nat then mret roots
      else t ← array_get roots (m / b)%nat;
           t' ← interface.inserted hash (branch (S (m / b)) order) fuel t (wrap64 (Z.of_nat (m / b * b) + 1)) (m mod b) (drop (n + m / b * b) records);
           array_push cap t' roots) (roots_exact ((m + b - 1) / b)) h) as Hlast.
    { rewrite capacity_exact. assert (cap = S ((m + b - 1) / b)) as Hcap by (rewrite capacity_exact; unfold cap; lia).
      rewrite capacity_exact in Hcap. clearbody cap. destruct (Nat.eqb_spec (m mod b) 0) as [E|E].
      - apply wp_ret. by rewrite Nat.add_0_r.
      - rewrite Nat.add_1_r in Hcap |- *. apply root_step; unfold version_of; simpl; [lia|lia|lia|done]. }
    eapply wp_mono; [|exact Hlast]. clear roots h Hroots Hlast. intros roots h (Hl & g & Hr).
    eapply wp_mono; [|apply (wp_total_of queries q _ (fun qc => keys_count (take (n + Z.to_nat (q_ver qc)) records) qc));
      [done|]]; [by intros x h' [_ ->]|].
    intros qc Hqc. rewrite Forall_forall in Hends. destruct (Hends qc Hqc) as [Hver Hend].
    set (v := Z.to_nat (q_ver qc)). replace (q_ver qc) with (Z.of_nat v) in * by lia.
    set (bid := ((v + b - 1) / b)%nat).
    assert (bid <= (m + b - 1) / b)%nat as B1 by (apply Nat.Div0.div_le_mono; lia).
    assert (version_of bid = v) as B2.
    { unfold version_of. pose proof (Nat.div_mod_eq (v + b - 1) b) as E. fold bid in E.
      pose proof (Nat.mod_upper_bound (v + b - 1) b ltac:(lia)). destruct Hend as [Hend|Hend]; [|lia].
      rewrite <- Nat2Z.inj_mod in Hend. pose proof (Nat.div_mod_eq v b).
      assert (bid = v / b)%nat as ->; [|lia]. unfold bid. symmetry. apply (Nat.div_unique _ _ _ (b - 1)); lia. }
    wp_step. rewrite wrap64_small by (unfold u64; lia). apply wp_u_div; [lia|].
    replace (Z.to_nat ((Z.of_nat v + Z.of_nat b - 1) / Z.of_nat b)) with bid.
    2: { unfold bid. replace (Z.of_nat v + Z.of_nat b - 1) with (Z.of_nat (v + b - 1)) by lia. by rewrite <- Nat2Z.inj_div, Nat2Z.id. }
    destruct (Hr bid B1) as (p & t & Hp & Hs & Hz & Ht). rewrite B2 in *. wp_step. eapply wp_array_get; [exact Hp|].
    eapply wp_mono; [|apply (pam_range hash fuel g h p t (Z.of_nat v)); [done|lia]].
    intros x h' [-> ->]. split; [done|]. f_equal. unfold keys_count. rewrite <- between_count.
    unfold range_total. f_equal. apply list_fmap_ext. intros i k _. by rewrite Ht by lia.
Qed.
End batches.

(** ** The concurrent treap gets the records in their order *)

(** A range query does not fault, even on a tree without aggregates. *)
Lemma range_estimate_runs fuel h p t l r d :
  TreapNode.rep h p t -> (TreapTree.size t < fuel)%nat ->
  wp (TreapQuery.range_estimate fuel p l r d) (fun _ h' => h' = h) h.
Proof.
  revert p t d. induction fuel as [|fuel IH]; intros p t d Hr Hf; [lia|].
  destruct t as [|v pr k x tl tr]; simpl in Hr; cbn [TreapQuery.range_estimate].
  { subst p. by wp_step. }
  simpl in Hf. destruct Hr as (a & nd & -> & Hn & _ & Hl & Hr'). wp_step. wp_step.
  pose proof (fun d => IH (TreapNode.n_lch nd) tl d Hl ltac:(lia)) as IHl.
  pose proof (fun d => IH (TreapNode.n_rch nd) tr d Hr' ltac:(lia)) as IHr.
  assert (forall dl dr, wp (ret_l ← TreapQuery.range_estimate fuel (TreapNode.n_lch nd) l r dl;
     ret_r ← TreapQuery.range_estimate fuel (TreapNode.n_rch nd) l r dr;
     mret (wrap64 (ret_l + TreapNode.n_val nd + ret_r))) (fun _ h' => h' = h) h) as Hboth.
  { intros dl dr. wp_step. eapply wp_mono; [|apply IHl]. intros y h' ->. wp_step.
    eapply wp_mono; [|apply IHr]. intros z h' ->. by wp_step. }
  destruct d; repeat case_match; auto. by wp_step.
Qed.

(** The requests that the test issues. *)
Definition insertions (n m : nat) (records : list Z) : list request := RInsert <$> take m (drop n records).

Section updates.
Context (others : Scheduler.sched -> list Scheduler.label).
Context (cfg : Scheduler.config) (h0 : TreapNode.heap) (p0 : ptr) (t0 : TreapTree.tree).
Context `{HPH : !PerfectHash (Scheduler.cfg_hash cfg)}.
Hypothesis (HG : SchedulerCorrect.good_start cfg h0 p0 t0).

Lemma insert_records_ok qs records i k s :
  Contreap.serving cfg h0 p0 (map Contreap.task_of qs) s ->
  (i + k <= length records)%nat -> (length qs + k <= Scheduler.num_tasks_ cfg)%nat ->
  Contreap.runs_or_waits (insert_records others i k records)
    (fun _ s' => Contreap.serving cfg h0 p0 (map Contreap.task_of (qs ++ insertions i k records)) s') s.
Proof using HG.
  unfold insertions. revert qs i s. induction k as [|k IH]; intros qs i s Hs Hi Hk; simpl.
  { apply Contreap.rw_ret. by rewrite app_nil_r. }
  destruct (lookup_lt_is_Some_2 records i) as [e He]; [lia|]. rewrite He.
  apply Contreap.rw_bind. unfold Contreap.insert_elem.
  eapply Contreap.rw_mono; [|apply (Contreap.issue_ok others cfg h0 p0 t0 HG Scheduler.OP_INSERT e _ s Hs);
    rewrite length_map; lia].
  intros [] s1 [Hs1 _].
  rewrite (drop_S _ _ _ He), firstn_cons, fmap_cons. replace (qs ++ RInsert e :: (RInsert <$> take k (drop (S i) records)))
    with ((qs ++ [RInsert e]) ++ (RInsert <$> take k (drop (S i) records))) by by rewrite <- app_assoc.
  apply IH; [by rewrite map_app|lia|rewrite length_app; simpl; lia].
Qed.

(** A range query of a committed version waits, or returns a number. *)
Lemma range_query_ok qs qc s σ :
  Contreap.contreap_ s = Some (cfg, σ) -> Contreap.reached cfg h0 p0 (map Contreap.task_of qs) σ ->
  Forall request_u64 qs -> (1 <= Scheduler.num_workers_ cfg)%nat -> (0 < Scheduler.block_size_ cfg)%nat ->
  (Z.to_nat (q_ver qc) <= Scheduler.s_committed σ)%nat ->
  (TreapTree.size t0 + length qs < Scheduler.cfg_fuel cfg)%nat ->
  Contreap.runs_or_waits (range_query (Scheduler.cfg_fuel cfg) qc) (fun _ s' => s' = s) s.
Proof using HG HPH.
  intros E H Hu HW Hbs Hv Hf. unfold Contreap.runs_or_waits, runs, range_query. rewrite E.
  destruct (Contreap.snapshot_complete cfg h0 p0 t0 HG qs σ _ H Hu HW Hbs Hv Hf) as
    [->|(p & t & -> & Hrep & _ & _ & Hsz)]; [by left|right].
  destruct (range_estimate_runs (Scheduler.cfg_fuel cfg) (Scheduler.s_heap σ) p t (q_l qc) (q_r qc)
    OPEN_OPEN Hrep Hsz) as (x & h & Ex & _).
  unfold TreapQuery.range_estimate_open. rewrite Ex. by exists x, s.
Qed.

Lemma query_records_ok (Q : query_context -> Prop) fuel queries i k tot s :
  (forall qc, Q qc -> Contreap.runs_or_waits (range_query fuel qc) (fun _ s' => s' = s) s) ->
  Forall Q queries -> (i + k <= length queries)%nat ->
  Contreap.runs_or_waits (query_records fuel i k queries tot) (fun _ s' => s' = s) s.
Proof.
  intros HQ Hqs. revert i tot. induction k as [|k IH]; intros i tot Hi; simpl; [by apply Contreap.rw_ret|].
  destruct (lookup_lt_is_Some_2 queries i) as [qc Hqc]; [lia|]. rewrite Hqc.
  apply Contreap.rw_bind. eapply Contreap.rw_mono; [|apply HQ].
  - intros x s' ->. apply IH. lia.
  - rewrite Forall_forall in Hqs. apply Hqs. by eapply list_elem_of_lookup_2.
Qed.
End updates.

Lemma test_contreap_spec hash `{!PerfectHash hash} order fuel others threads bs n m q records queries s0 :
  (0 < bs)%nat -> (n + m <= length records)%nat -> Forall u64 records -> (n + m < fuel)%nat -> Z.of_nat m < two64 - 1 ->
  (q <= length queries)%nat -> Forall (fun qc => 0 <= q_ver qc <= Z.of_nat m) queries ->
  Contreap.runs_or_waits (test_contreap_with hash order fuel others threads bs n m q records queries)
    (fun _ s => Contreap.answers_points fuel (take n records) (insertions n m records) m s) s0.
Proof.
  intros Hbs Hn Hu Hf Hm Hq Hvs.
  destruct (Contreap.contreap_start_ok (hash := hash) order fuel threads bs n m records) as (p & h & t & E & HG & B);
    [lia|done|done|done|].
  set (cfg := Scheduler.scheduler_config threads m bs hash fuel) in *. assert (PerfectHash (Scheduler.cfg_hash cfg)) by done.
  set (qs := insertions n m records).
  assert (length qs = m) as Hlq by (unfold qs, insertions; rewrite length_fmap, length_take, length_drop; lia).
  assert (Forall request_u64 qs) as Hqu by (apply Forall_fmap, Forall_take, Forall_drop, Hu).
  assert (1 <= Scheduler.num_workers_ cfg)%nat as HW by apply Contreap.decide_num_workers_pos.
  assert (TreapTree.size t + length qs < Scheduler.cfg_fuel cfg)%nat as Hsz.
  { rewrite Hlq. apply HG. }
  unfold test_contreap_with. apply Contreap.rw_bind. unfold start_scheduler. right. unfold runs. rewrite E.
  eexists _, _. split; [done|]. fold cfg. set (s1 := Contreap.set_scheduler _ _).
  assert (Contreap.serving cfg h p (map Contreap.task_of []) s1) as Hs1.
  { exists (Scheduler.scheduler_init cfg h p). split; [done|]. constructor. }
  apply Contreap.rw_bind. eapply Contreap.rw_mono; [|apply (insert_records_ok others cfg h p t HG [] records n m s1 Hs1);
    [done|done]]. intros [] s2 Hs2. fold qs in Hs2. simpl app in Hs2.
  apply Contreap.rw_bind. eapply Contreap.rw_mono; [|apply (Contreap.contreap_process_ok others cfg h p t HG _ s2 Hs2)].
  intros [] s3 [(σ & E3 & H3 & Hc) _]. change (Scheduler.num_tasks_ cfg) with m in Hc.
  eapply Contreap.rw_mono; [|apply (query_records_ok (fun qc => 0 <= q_ver qc <= Z.of_nat m)); [|exact Hvs|exact Hq]].
  - intros _ s4 ->. intros v k Hv. rewrite <- B.
    by apply (Contreap.point_query_ok cfg h p t HG qs s3 σ v k); try done; rewrite Hc.
  - intros qc Hqc. apply (range_query_ok cfg h p t HG qs qc s3 σ); try done. lia.
Qed.

(** ** The inputs of the program *)

Section inputs.
Context `{HD : Doubles} `{HR : !Random}.
(** A draw from the [normal_distribution], [<=] on doubles, and [ceil]. *)
Context (normal : mt -> double * mt) (d_le : double -> double -> bool) (ceil : double -> double).

(** [do { w = d(gen); } while (w <= 0);] *)
Fixpoint draw_positive (fuel : nat) (gen : mt) : res (double * mt) :=
  match fuel with
  | O => Err OutOfFuel
  | S fuel => let (w, gen) := normal gen in if d_le w (d_of_Z 0) then draw_positive fuel gen else Ok (w, gen)
  end.

(** The price that follows: [ceil(k * w)]. *)
Definition draw_price (fuel : nat) (k : Z) (gen : mt) : res (Z * mt) :=
  match draw_positive fuel gen with
  | Ok (w, gen) => Ok (d_to_Z (ceil (d_mul (d_of_Z k) w)), gen)
  | Err e => Err e
  end.

Fixpoint make_prices (fuel : nat) (k : Z) (i : nat) (prices : list Z) (gen : mt) : res (list Z * mt) :=
  match i with
  | O => Ok (prices, gen)
  | S i =>
      match draw_price fuel k gen with
      | Ok (p, gen) => make_prices fuel k i (prices ++ [p]) gen
      | Err e => Err e
      end
  end.

(** [records[i] = prices[upd_keygen.Next()]] *)
Fixpoint make_records (prices : list Z) (i : nat) (records : list Z) (g : ScrambledZipfianGenerator) (wd : world) :
    res (list Z * ScrambledZipfianGenerator * world) :=
  match i with
  | O => Ok (records, g, wd)
  | S i =>
      match Scrambled_Next g wd with
      | Ok (x, g, wd) =>
          match prices !! Z.to_nat x with
          | Some p => make_records prices i (records ++ [p]) g wd
          | None => Err BadPtr
          end
      | Err e => Err e
      end
  end.

(** The bounds of a query, swapped if they are not in order. *)
Definition make_query (fuel : nat) (k m : Z) (gen : mt) : res (query_context * mt) :=
  let (ver, gen) := uniform_int 0 m gen in
  match draw_price fuel k gen with
  | Err e => Err e
  | Ok (l, gen) =>
      match draw_price fuel k gen with
      | Err e => Err e
      | Ok (r, gen) => Ok (if r <? l then mk_query ver r l else mk_query ver l r, gen)
      end
  end.

Fixpoint make_shopping_queries (fuel : nat) (k m : Z) (i : nat) (queries : list query_context) (gen : mt) :
    res (list query_context * mt) :=
  match i with
  | O => Ok (queries, gen)
  | S i =>
      match make_query fuel k m gen with
      | Ok (qc, gen) => make_shopping_queries fuel k m i (queries ++ [qc]) gen
      | Err e => Err e
      end
  end.

(** The part of [main] before the tests, for [k] prices, [n] records and [m] updates: the
    prices, the records and the queries, and whether the scan was asked for. *)
Definition main_inputs_with (k n m fuel b q : nat) (gen : mt) (wd : world) :
    res (list Z * list Z * list query_context * bool) :=
  match make_prices fuel (Z.of_nat k) k [] gen with
  | Err e => Err e
  | Ok (prices, gen) =>
      let is_scan := (q =? 0)%nat in
      let q := if is_scan then b else q in
      match new_scrambled_items (Z.of_nat k) wd with
      | Err e => Err e
      | Ok (upd_keygen, wd) =>
          match make_records prices (n + m) [] upd_keygen wd with
          | Err e => Err e
          | Ok (records, _, _) =>
              match make_shopping_queries fuel (Z.of_nat k) (Z.of_nat m) q [] gen with
              | Err e => Err e
              | Ok (queries, _) => Ok (prices, records, queries, is_scan)
              end
          end
      end
  end.

Definition main_inputs : nat -> nat -> nat -> mt -> world -> res (list Z * list Z * list query_context * bool) :=
  main_inputs_with (Z.to_nat 100000000) (Z.to_nat 100000000) (Z.to_nat 10000000).

(** What the program relies on: draws are eventually positive, prices fit in [uint64_t],
    integers are drawn between their bounds. *)
Record inputs_ok (fuel k : nat) : Prop := {
  io_positive gen : exists w gen', draw_positive fuel gen = Ok (w, gen');
  io_price gen w gen' : draw_positive fuel gen = Ok (w, gen') -> u64 (d_to_Z (ceil (d_mul (d_of_Z (Z.of_nat k)) w)));
  io_uniform lo hi gen : lo <= hi -> lo <= (uniform_int lo hi gen).1 <= hi;
}.

Section correctness.
Context (fuel k : nat) (HI : inputs_ok fuel k).

Lemma draw_price_ok gen : exists p gen', draw_price fuel (Z.of_nat k) gen = Ok (p, gen') /\ u64 p.
Proof using HI.
  destruct (io_positive _ _ HI gen) as (w & gen' & E). unfold draw_price. rewrite E. eexists _, _.
  split; [done|]. by apply (io_price _ _ HI gen w gen').
Qed.

Lemma make_prices_ok i prices gen : Forall u64 prices ->
  exists prices' gen', make_prices fuel (Z.of_nat k) i prices gen = Ok (prices', gen') /\
    Forall u64 prices' /\ length prices' = (length prices + i)%nat.
Proof using HI.
  revert prices gen. induction i as [|i IH]; intros prices gen Hp; simpl; [exists prices, gen; auto with lia|].
  destruct (draw_price_ok gen) as (p & gen1 & -> & Hu).
  destruct (IH (prices ++ [p]) gen1) as (prices' & gen' & E & Hp' & Hl); [by apply Forall_app_2; [|constructor]|].
  exists prices', gen'. split_and!; [done|done|]. rewrite Hl, length_app. simpl. lia.
Qed.

Lemma make_records_ok prices i records g wd :
  Forall u64 prices -> Forall u64 records -> length prices = k -> zipfian_ok (s_generator_ g) ->
  num_items_ (s_generator_ g) = Z.of_nat k -> s_base_ g = 0 -> s_num_items_ g = Z.of_nat k -> 2 <= Z.of_nat k < kMaxNumItems ->
  exists records' g' wd', make_records prices i records g wd = Ok (records', g', wd') /\
    Forall u64 records' /\ length records' = (length records + i)%nat.
Proof.
  intros Hp Hr Hl. revert records g wd Hr. induction i as [|i IH]; intros records g wd Hr Hz Hn Hb Hs Hk; simpl.
  { exists records, g, wd. auto with lia. }
  unfold Scrambled_Next, Zipfian_Next. rewrite Hn.
  destruct (Zipfian_Next_ok (Z.of_nat k) (s_generator_ g) wd Hz Hk) as (z & Hz').
  destruct (RandomDouble wd) as [u wd1]. destruct Hz' as (-> & Hz' & _ & Hn' & _). cbn [s_base_ s_num_items_].
  set (v := Zipfian_value _ _ _). assert (0 <= Scramble v g < Z.of_nat k) as Hx.
  { unfold Scramble. rewrite Hb, Hs. pose proof (Z.mod_pos_bound (FNVHash64 v) (Z.of_nat k) ltac:(lia)).
    assert (kMaxNumItems < two64) by reflexivity. rewrite wrap64_small; [lia|]. unfold u64. lia. }
  destruct (lookup_lt_is_Some_2 prices (Z.to_nat (Scramble v g))) as [p Hpr]; [lia|]. rewrite Hpr.
  destruct (IH (records ++ [p]) (mk_scrambled (s_base_ g) (s_num_items_ g) z) wd1) as (records' & g' & wd' & E & Hr' & Hl');
    try done; simpl.
  - apply Forall_app_2; [done|]. constructor; [|done]. eapply Forall_lookup_1; [exact Hp|exact Hpr].
  - by rewrite Hn'.
  - exists records', g', wd'. split_and!; [done|done|]. rewrite Hl', length_app. simpl. lia.
Qed.

(** A query as the tests need it. *)
Definition query_ok (m : Z) (qc : query_context) : Prop :=
  0 <= q_ver qc <= m /\ u64 (q_l qc) /\ u64 (q_r qc) /\ q_l qc <= q_r qc.

Lemma make_queries_ok m i queries gen : 0 <= m -> Forall (query_ok m) queries ->
  exists queries' gen', make_shopping_queries fuel (Z.of_nat k) m i queries gen = Ok (queries', gen') /\
    Forall (query_ok m) queries' /\ length queries' = (length queries + i)%nat.
Proof using HI.
  intros Hm. revert queries gen. induction i as [|i IH]; intros queries gen Hq; simpl.
  { exists queries, gen. auto with lia. }
  unfold make_query. pose proof (io_uniform _ _ HI 0 m gen Hm) as Hu. destruct (uniform_int 0 m gen) as [ver gen1].
  destruct (draw_price_ok gen1) as (l & gen2 & -> & Hl). destruct (draw_price_ok gen2) as (r & gen3 & -> & Hr).
  edestruct (IH (queries ++ [if r <? l then mk_query ver r l else mk_query ver l r]) gen3) as (queries' & gen' & E & Hq' & Hl').
  - apply Forall_app_2; [done|]. constructor; [|done]. simpl in Hu. unfold query_ok.
    destruct (Z.ltb_spec r l); simpl; split_and!; try done; lia.
  - exists queries', gen'. split_and!; [exact E|done|]. rewrite Hl', length_app. simpl. lia.
Qed.
Lemma main_inputs_ok n m b q gen wd :
  2 <= Z.of_nat k < kMaxNumItems ->
  exists prices records queries,
    main_inputs_with k n m fuel b q gen wd = Ok (prices, records, queries, (q =? 0)%nat) /\
    Forall u64 prices /\ length prices = k /\ Forall u64 records /\ length records = (n + m)%nat /\
    Forall (query_ok (Z.of_nat m)) queries /\ length queries = (if (q =? 0)%nat then b else q).
Proof using HI.
  intros Hk. unfold main_inputs_with.
  destruct (make_prices_ok k [] gen ltac:(constructor)) as (prices & gen1 & -> & Hp & Hlp). simpl in Hlp.
  assert (kMaxNumItems < two64) by reflexivity.
  assert (wrap64 (wrap64 (Z.of_nat k - 1) - 0 + 1) = Z.of_nat k) as Hw.
  { rewrite (wrap64_small (Z.of_nat k - 1)) by (unfold u64; lia). rewrite wrap64_small; [lia|unfold u64; lia]. }
  unfold new_scrambled_items, new_scrambled.
  destruct (new_zipfian_ok 0 (wrap64 (Z.of_nat k - 1)) kZipfianConst wd ltac:(by rewrite Hw)) as
    (g & wd1 & -> & Hz & Hni & _).
  destruct (make_records_ok prices (n + m) [] (mk_scrambled 0 (wrap64 (wrap64 (Z.of_nat k - 1) - 0 + 1)) g) wd1)
    as (records & g' & wd2 & -> & Hr & Hlr); try done; [by simpl; rewrite Hni|].
  destruct (make_queries_ok (Z.of_nat m) (if (q =? 0)%nat then b else q) [] gen1 ltac:(lia) ltac:(constructor))
    as (queries & gen2 & -> & Hq & Hlq).
  exists prices, records, queries. by split_and!.
Qed.
End correctness.
End inputs.

(** ** The program *)

(** The test that [main] calls, and what it returns ([main] ignores it). *)
Definition main_with `{HD : Doubles} `{HR : !Random} (normal : mt -> double * mt) (d_le : double -> double -> bool)
    (ceil : double -> double) (hash : Z -> Z) (order : list nat -> bool) (fuel : nat)
    (others : Scheduler.sched -> list Scheduler.label) (rand : nat -> Z)
    (k n m b q : nat) (gen : mt) (wd : world) : res Z :=
  let result {S} (r : res (Z * S)) : res Z := match r with Ok (x, _) => Ok x | Err e => Err e end in
  match main_inputs_with normal d_le ceil k n m fuel b q gen wd with
  | Err e => Err e
  | Ok (prices, records, queries, is_scan) =>
      let q := if is_scan then b else q in
      if is_scan then result (test_scan rand k q prices queries ∅)
      else if (b =? 0)%nat then
        result (test_contreap hash order fuel others n m q records queries (Contreap.new_contreap 0 0 0))
      else if (b =? 1)%nat then result (test_seq hash order fuel n m q records queries ∅)
      else result (test_pam hash order fuel n m b q records queries ∅)
  end.

(** What the program depends on, beside its numbers. *)
Definition tests_ok (n m b : nat) (fuel : nat) : Prop :=
  (n + m < fuel)%nat /\ Z.of_nat (n + m + b) < vstat_uninitialized.

(** The shopping benchmark.  If draws of the normal distribution are eventually positive
    and prices fit in 64 bits, [main] makes, without error, prices, records and queries that
    are in order and ask for versions that exist.  With [q = 0] it adds up, modulo [2^64],
    the prices in the ranges of [b] queries, found in the list of blocks; with [b = 0] the
    concurrent treap runs without fault, unless a thread is left spinning; and with a batch size
    of at least two, if all queries ask for the end of a batch, it counts the records that the
    ranges had at their versions. *)
Theorem shopping_main `{HD : Doubles} `{HR : !Random} normal d_le ceil hash `{!PerfectHash hash} order fuel others rand
    k n m b q gen wd :
  inputs_ok normal d_le ceil fuel k -> 2 <= Z.of_nat k < kMaxNumItems -> tests_ok n m b fuel -> (forall i, 0 <= rand i) ->
  exists prices records queries,
    main_inputs_with normal d_le ceil k n m fuel b q gen wd = Ok (prices, records, queries, (q =? 0)%nat) /\
    length prices = k /\ length records = (n + m)%nat /\ Forall (query_ok (Z.of_nat m)) queries /\
    let r := main_with normal d_le ceil hash order fuel others rand k n m b q gen wd in
    if (q =? 0)%nat then r = Ok (wrap64 (sum_Z (keys_total prices <$> queries)))
    else if (b =? 0)%nat then r = Err Blocked \/ exists x, r = Ok x
    else if (b =? 1)%nat then True
    else Forall (batch_end m b) queries ->
      r = Ok (wrap64 (sum_Z ((fun qc => keys_count (take (n + Z.to_nat (q_ver qc)) records) qc) <$> queries))).
Proof.
  intros HI Hk [Hf Hv] Hr.
  destruct (main_inputs_ok normal d_le ceil fuel k HI n m b q gen wd Hk) as
    (prices & records & queries & E & Hp & Hlp & Hu & Hlr & Hqs & Hlq).
  exists prices, records, queries. split_and!; try done. cbv zeta. unfold main_with. rewrite E.
  assert (Z.of_nat m < two64 - 1) as Hm by (unfold vstat_uninitialized in Hv; lia).
  destruct (Nat.eqb_spec q 0) as [_|Hq0].
  - destruct (test_scan_spec rand k b prices queries Hr) as (x & h & Ex & ->); [lia|by rewrite Hlq|].
    unfold test_scan. rewrite Ex. by rewrite !take_ge by lia.
  - destruct (Nat.eqb_spec b 0) as [_|Hb0].
    + destruct (test_contreap_spec hash order fuel others num_threads (Z.to_nat 10000) n m q records queries
        (Contreap.new_contreap 0 0 0)) as [Eb|(x & s & Ex & _)]; try done; try lia.
      * eapply Forall_impl; [exact Hqs|]. by intros qc [? _].
      * left. unfold test_contreap. by rewrite Eb.
      * right. exists x. unfold test_contreap. by rewrite Ex.
    + destruct (Nat.eqb_spec b 1) as [_|Hb1]; [done|]. intros Hends.
      destruct (test_pam_spec hash order fuel n m b records ltac:(lia) ltac:(lia) Hu Hf ltac:(lia) q queries) as (x & h & Ex & ->).
      * by rewrite Hlq.
      * by apply Forall_take.
      * unfold vstat_uninitialized in Hv. lia.
      * rewrite Ex. rewrite (take_ge queries) by (by rewrite Hlq). done.
Qed.

#[local] Existing Instance exact_doubles.
#[local] Existing Instance listed_random.

(** Every draw is 1. *)
Definition normal_ex (gen : mt) : double * mt := (d_of_Z 1, gen).

Lemma inputs_ex : inputs_ok normal_ex Qle_bool (fun x => x) 20 4.
Proof.
  split.
  - intros gen. by exists (d_of_Z 1), gen.
  - intros gen w gen' [= <- _]. split; reflexivity || discriminate.
  - intros lo hi gen H. destruct gen as [|x gen]; simpl; [lia|].
    pose proof (Z.mod_pos_bound x (hi - lo + 1) ltac:(lia)). lia.
Qed.

Theorem shopping_main_witness :
  exists prices records queries,
    main_inputs_with normal_ex Qle_bool (fun x => x) 4 3 4 20 2 3 [1; 2; 3] [] =
      Ok (prices, records, queries, false) /\
    length prices = 4%nat /\ length records = 7%nat /\ Forall (query_ok 4) queries /\
    (Forall (batch_end 4 2) queries ->
      main_with normal_ex Qle_bool (fun x => x) wrap64 alternating 20 Contreap.busy_ex Z.of_nat 4 3 4 2 3 [1; 2; 3] [] =
      Ok (wrap64 (sum_Z ((fun qc => keys_count (take (3 + Z.to_nat (q_ver qc)) records) qc) <$> queries)))).
Proof.
  apply (shopping_main normal_ex Qle_bool (fun x => x) wrap64 alternating 20 Contreap.busy_ex Z.of_nat 4 3 4 2 3 [1; 2; 3] []).
  - exact inputs_ex.
  - split; [lia|reflexivity].
  - split; [lia|reflexivity].
  - intros i. lia.
Defined.

(** The benchmark drives the concurrent treap as a database would.  Whatever the threads do
    between the steps of the client, [test_contreap] runs without fault unless it is left
    spinning; then every version [v] holds the first [n] records and the [v] records that
    follow, and point queries of it find their counters. *)
Theorem contreap_benchmark hash `{!PerfectHash hash} order fuel others n m q records queries s0 :
  (n + m <= length records)%nat -> Forall u64 records -> (n + m < fuel)%nat -> Z.of_nat m < two64 - 1 ->
  (q <= length queries)%nat -> Forall (fun qc => 0 <= q_ver qc <= Z.of_nat m) queries ->
  Contreap.runs_or_waits (test_contreap hash order fuel others n m q records queries)
    (fun _ s => Contreap.answers_points fuel (take n records) (insertions n m records) m s) s0.
Proof. apply (test_contreap_spec hash). lia. Qed.

Theorem contreap_benchmark_witness :
  Contreap.runs_or_waits
    (test_contreap wrap64 alternating 20 Contreap.busy_ex 2 3 1 [7; 5; 7; 3; 9] [mk_query 2 3 8])
    (fun _ s => Contreap.answers_points 20 [7; 5] [RInsert 7; RInsert 3; RInsert 9] 3 s)
    (Contreap.new_contreap 0 0 0).
Proof.
  apply (contreap_benchmark wrap64 alternating 20 Contreap.busy_ex 2 3 1 [7; 5; 7; 3; 9] [mk_query 2 3 8]).
  - simpl. lia.
  - repeat constructor; done.
  - lia.
  - reflexivity.
  - simpl. lia.
  - repeat constructor; simpl; lia.
Defined.

(** ** What the model shows *)

(** What a test returned. *)
Definition returned {N} (r : res (Z * gmap loc N)) : option Z := match r with Ok (x, _) => Some x | Err _ => None end.

Definition hash_ex (k : Z) : Z := (k * 7) mod 11.

(** The sequential test of the shopping benchmark counts wrong, twice.  Its versions are
    never aggregated, so that new subtrees count as 0; and it inserts the first records again
    instead of those that follow.  With the records 4, 2, 6, 1, 5, and the updates 9, 8 and 7, it
    answers 3 to a query for all keys at version 3, where the batched test counts 8; and it
    answers 0 for the key 9. *)
Theorem seq_benchmark_wrong :
  let records := [4; 2; 6; 1; 5; 9; 8; 7] in
  returned (test_seq hash_ex alternating 20 5 3 1 records [mk_query 3 0 20] ∅) = Some 3 /\
  returned (test_pam hash_ex alternating 20 5 3 2 1 records [mk_query 3 0 20] ∅) = Some 8 /\
  returned (test_seq hash_ex alternating 20 5 3 1 records [mk_query 3 9 9] ∅) = Some 0 /\
  returned (test_pam hash_ex alternating 20 5 3 2 1 records [mk_query 3 9 9] ∅) = Some 1.
Proof. vm_compute. split_and!; reflexivity. Qed.

(** Within a batch, the batched test forgets the counter of a key that the batch inserts
    later: of the four records 5, 2, 8, 7 at version 1 it counts three. *)
Theorem pam_benchmark_within_batch :
  returned (test_pam wrap64 alternating 20 3 3 2 1 [5; 2; 8; 7; 2; 1] [mk_query 1 0 10] ∅) = Some 3.
Proof. vm_compute. reflexivity. Qed.
