(* ===== verification/ParArray.v ===== *)
(** * Arrays and parallel loops of parlay

    [src/lib/parlay/slice.h], [delayed_sequence.h], the loops of [parallel.h], and the parts
    of [utilities.h] that write to uninitialised memory.

    A random-access range is its size and a subscript operator that may fail; [r ▷ xs] says
    that [r] shows the elements [xs].  An array is a list of cells, [None] where no object
    has been constructed.  The iterations of a parallel loop are atomic and run in the order
    an instance of [Schedule] picks: the loops of the library write to disjoint cells and read
    none that another iteration writes, so interleavings of their accesses add nothing.
    [ForkJoin] shows that the scheduler runs every iteration once.  Sizes and indices are
    [nat]: they are bounded by the lengths of sequences in memory; where the code subtracts
    sizes that may wrap around, the model has [size_sub]. *)

From S2P Require Import Prelude.
From stdpp Require Import list.

#[local] Open Scope nat_scope.

(** Equality of tuples, by components. *)
Ltac tuple_eq := repeat lazymatch goal with |- (_, _) = (_, _) => apply f_equal2 end; try done; try lia.

(** ** Sizes *)

(** [x - y] on [size_t]. *)
Definition size_sub (x y : nat) : nat := if y <=? x then x - y else Z.to_nat (wrap64 (Z.of_nat x - Z.of_nat y)).

Lemma size_sub_le x y : y <= x -> size_sub x y = x - y.
Proof. intros H. unfold size_sub. by apply Nat.leb_le in H as ->. Qed.

Lemma size_sub_wraps x y : x < y -> (Z.of_nat y < 2 ^ 63)%Z -> (2 ^ 63 <= Z.of_nat (size_sub x y))%Z.
Proof.
  intros H Hy. unfold size_sub. assert ((y <=? x) = false) as -> by (apply Nat.leb_gt; lia).
  assert (wrap64 (Z.of_nat x - Z.of_nat y) = Z.of_nat x - Z.of_nat y + two64)%Z as ->.
  { unfold wrap64. rewrite <- (Z.mod_add _ 1) by done. rewrite Z.mul_1_l. apply Z.mod_small.
    unfold two64. lia. }
  unfold two64. rewrite Z2Nat.id by lia. lia.
Qed.

Definition assert (b : bool) : res unit := if b then Ok tt else Err AssertFail.

(** ** Ranges and slices *)

Record range (T : Type) := Range { range_size : nat; subscript : nat -> res T }.
Arguments Range {T} range_size subscript.
Arguments range_size {T} r.
Arguments subscript {T} r i.

(** [make_slice(r)] of a sequence with the elements [xs] *)
Definition of_list {T} (xs : list T) : range T :=
  Range (length xs) (fun i => match xs !! i with Some x => Ok x | None => Err BadPtr end).

Definition cut {T} (r : range T) (ss ee : nat) : range T := Range (ee - ss) (fun i => subscript r (ss + i)).

(** [delayed_tabulate] *)
Definition delayed_tabulate {T} (n : nat) (f : nat -> res T) : range T := Range n f.

Definition delayed_map {A B} (r : range A) (f : A -> B) : range B :=
  delayed_tabulate (range_size r) (fun i => x ← subscript r i; Ok (f x)).

(** [delayed_sequence::at], [front], [back] *)
Definition at_ {T} (r : range T) (i : nat) : res T := if i <? range_size r then subscript r i else Err Thrown.
Definition front {T} (r : range T) : res T := assert (negb (range_size r =? 0)) ≫= fun _ => subscript r 0.
Definition back {T} (r : range T) : res T := assert (negb (range_size r =? 0)) ≫= fun _ => subscript r (range_size r - 1).

Definition shows {T} (r : range T) (xs : list T) : Prop :=
  range_size r = length xs /\ forall i x, xs !! i = Some x -> subscript r i = Ok x.

Declare Scope par_scope.
Delimit Scope par_scope with par.
Notation "r ▷ xs" := (shows r xs) (at level 70) : par_scope.
#[global] Open Scope par_scope.

(** Elements [ss .. ee-1] *)
Definition slice_of {T} (ss ee : nat) (xs : list T) : list T := take (ee - ss) (drop ss xs).

Lemma lookup_slice_of {T} ss ee (xs : list T) i : i < ee - ss -> slice_of ss ee xs !! i = xs !! (ss + i).
Proof. intros H. unfold slice_of. by rewrite lookup_take_lt, lookup_drop. Qed.

Lemma length_slice_of {T} ss ee (xs : list T) : ee <= length xs -> length (slice_of ss ee xs) = ee - ss.
Proof. intros H. unfold slice_of. rewrite length_take, length_drop. lia. Qed.

Lemma shows_of_list {T} (xs : list T) : of_list xs ▷ xs.
Proof. split; [done|]. intros i x Hx. simpl. by rewrite Hx. Qed.

Lemma shows_size {T} (r : range T) xs : r ▷ xs -> range_size r = length xs.
Proof. by intros []. Qed.

Lemma shows_get {T} (r : range T) xs i x : r ▷ xs -> xs !! i = Some x -> subscript r i = Ok x.
Proof. intros []. auto. Qed.

Lemma shows_cut {T} (r : range T) xs ss ee : r ▷ xs -> ee <= length xs -> cut r ss ee ▷ slice_of ss ee xs.
Proof.
  intros Hr He. split; [symmetry; by apply length_slice_of|]. intros i x Hx.
  assert (Hi := lookup_lt_Some _ _ _ Hx). rewrite length_slice_of in Hi by done.
  rewrite lookup_slice_of in Hx by done. simpl. by eapply shows_get.
Qed.

Lemma shows_tabulate {T} n (f : nat -> res T) (g : nat -> T) :
  (forall i, i < n -> f i = Ok (g i)) -> delayed_tabulate n f ▷ (g <$> seq 0 n).
Proof.
  intros H. split; [by rewrite length_fmap, length_seq|]. intros i x Hx.
  apply list_lookup_fmap_Some in Hx as (j & -> & Hj). apply lookup_seq in Hj as [-> Hj]. by apply H.
Qed.

Lemma shows_map {A B} (r : range A) (f : A -> B) xs : r ▷ xs -> delayed_map r f ▷ (f <$> xs).
Proof.
  intros Hr. split; [simpl; by rewrite length_fmap, (shows_size _ _ Hr)|]. intros i y Hy.
  apply list_lookup_fmap_Some in Hy as (x & -> & Hx). simpl. by rewrite (shows_get _ _ _ _ Hr Hx).
Qed.

Create HintDb par.
#[export] Hint Resolve shows_of_list shows_cut shows_map : par.

(** ** Arrays *)

Abbreviation array T := (list (option T)) (only parsing).

Definition uninitialized {T} (n : nat) : array T := replicate n None.

Definition get {T} (a : array T) (i : nat) : res T :=
  match a !! i with Some (Some x) => Ok x | _ => Err BadPtr end.

Definition assign_uninitialized {T} (a : array T) (i : nat) (x : T) : res (array T) :=
  if i <? length a then Ok (<[i := Some x]> a) else Err BadPtr.

(** [a[i] = x], which needs an object to assign to *)
Definition assign {T} (a : array T) (i : nat) (x : T) : res (array T) :=
  _ ← get a i; Ok (<[i := Some x]> a).

(** [using std::swap; swap(A[i], A[j])] *)
Definition swap_cells {T} (a : array T) (i j : nat) : res (array T) :=
  x ← get a i; y ← get a j; Ok (<[j := Some x]> (<[i := Some y]> a)).

(** The array as a range *)
Definition of_array {T} (a : array T) : range T := Range (length a) (get a).

(** The elements of a fully constructed array, such as a sequence that is returned. *)
Fixpoint elements {T} (a : array T) : res (list T) :=
  match a with
  | [] => Ok []
  | Some x :: a => xs ← elements a; Ok (x :: xs)
  | None :: a => Err BadPtr
  end.

Lemma length_uninitialized {T} n : length (uninitialized n : array T) = n.
Proof. apply length_replicate. Qed.

Lemma get_eq {T} (a : array T) i x : a !! i = Some (Some x) -> get a i = Ok x.
Proof. unfold get. by intros ->. Qed.

Lemma assign_eq {T} (a : array T) i x : i < length a -> assign_uninitialized a i x = Ok (<[i := Some x]> a).
Proof. intros H. unfold assign_uninitialized. by apply Nat.ltb_lt in H as ->. Qed.

Lemma elements_eq {T} (xs : list T) : elements (Some <$> xs) = Ok xs.
Proof. induction xs as [|x xs IH]; [done|]. rewrite fmap_cons. cbn [elements]. by rewrite IH. Qed.

Lemma shows_of_array {T} (xs : list T) : of_array (Some <$> xs) ▷ xs.
Proof.
  split; [simpl; by rewrite length_fmap|]. intros i x Hx. apply get_eq. by rewrite list_lookup_fmap, Hx.
Qed.
#[export] Hint Resolve shows_of_array : par.

(** ** Loops *)

Section loops.
Context {S : Type}.

(** The body runs for the indices of [l], one after the other. *)
Fixpoint run (l : list nat) (body : nat -> S -> res S) (s : S) : res S :=
  match l with
  | [] => Ok s
  | i :: l => s ← body i s; run l body s
  end.

Lemma run_app l l' body s : run (l ++ l') body s = run l body s ≫= run l' body.
Proof.
  revert s. induction l as [|i l IH]; intros s; [done|]. simpl.
  destruct (body i s) as [s'|e]; simpl; [apply IH|done].
Qed.

Lemma ok_iterate (I : list nat -> S -> Prop) l body s :
  I [] s ->
  (forall d i d' s, l = d ++ i :: d' -> I d s -> ok (body i s) (I (d ++ [i]))) ->
  ok (run l body s) (I l).
Proof.
  intros HI Hb. enough (forall l2 l1 s, l = l1 ++ l2 -> I l1 s -> ok (run l2 body s) (I l)) as H by (by apply (H l [])).
  clear s HI. induction l2 as [|i l2 IH]; intros l1 s -> HI; simpl.
  - rewrite app_nil_r in *. by apply ok_ret.
  - apply ok_bind. eapply ok_mono; [by eapply Hb|]. intros s' HI'. apply (IH (l1 ++ [i])); [|done].
    by rewrite <- app_assoc.
Qed.
End loops.

(** [for (size_t i = start; i < end; i++)] *)
Definition for_ {S} (start end_ : nat) : (nat -> S -> res S) -> S -> res S := run (seq start (end_ - start)).

Lemma ok_for {S} (I : nat -> S -> Prop) start end_ (body : nat -> S -> res S) s :
  start <= end_ -> I start s ->
  (forall i s, start <= i < end_ -> I i s -> ok (body i s) (I (i + 1))) ->
  ok (for_ start end_ body s) (I end_).
Proof.
  intros Hle HI Hb. unfold for_. replace end_ with (start + (end_ - start)) at 2 by lia.
  assert (forall i s, start <= i < start + (end_ - start) -> I i s -> ok (body i s) (I (i + 1))) as Hb'
    by (intros; apply Hb; [lia|done]).
  clear Hb Hle. revert Hb'. generalize (end_ - start). intros k. revert start s HI. induction k as [|k IH]; intros i s HI Hb; simpl.
  - apply ok_ret. by rewrite Nat.add_0_r.
  - apply ok_bind. eapply ok_mono; [apply Hb; [lia|done]|]. intros s' HI'. rewrite <- Nat.add_succ_comm.
    apply IH; [by rewrite <- Nat.add_1_r|]. intros j s'' Hj. apply Hb. lia.
Qed.

Lemma ok_exact {A} (m : res A) a : ok m (fun b => b = a) -> m = Ok a.
Proof. by intros (b & -> & ->). Qed.

(** The choices of the scheduler. *)
Class Schedule := {
  order : list nat -> list nat;
  order_perm l : order l ≡ₚ l;
  left_first : list nat -> bool
}.

(** Everything from left to right. *)
#[export] Instance in_order : Schedule | 100 := { order := id; order_perm := fun l => reflexivity l; left_first := fun _ => true }.

(** The opposite schedule, for examples. *)
Definition backwards : Schedule := {| order := reverse; order_perm := reverse_Permutation; left_first := fun _ => false |}.

Section parallel.
Context `{Schedule} {S : Type}.

Definition parallel_for (start end_ : nat) (f : nat -> S -> res S) (granularity : nat) (s : S) : res S :=
  if start + 1 =? end_ then f start s
  else if end_ - start <=? granularity then for_ start end_ f s
  else if start <? end_ then run (order (seq start (end_ - start))) f s
  else Ok s.

(** [k] tells the forks apart: the scheduler decides anew for each.  A recursive function gives
    its forks the path from the first call, so that no two forks of a run share a choice. *)
Definition par_do (k : list nat) (left_ right_ : S -> res S) (s : S) : res S :=
  if left_first k then s ← left_ s; right_ s else s ← right_ s; left_ s.

Definition parallel_do := par_do.

Definition blocked_for (start end_ block_size : nat) (f : nat -> nat -> nat -> S -> res S) (s : S) : res S :=
  _ ← assert (0 <? block_size);
  if start <? end_ then
    let n_blocks := (end_ - start + block_size - 1) / block_size in
    parallel_for 0 n_blocks (fun i =>
      let s := start + i * block_size in
      let e := (s + block_size) `min` end_ in f i s e) 0 s
  else Ok s.

Definition par_do_if (do_parallel : bool) (k : list nat) (left_ right_ : S -> res S) (s : S) : res S :=
  if do_parallel then par_do k left_ right_ s else s ← left_ s; right_ s.

Definition par_do3 (k : list nat) (left_ mid right_ : S -> res S) (s : S) : res S :=
  let left_mid := par_do (1 :: k) left_ mid in par_do (0 :: k) left_mid right_ s.

Definition par_do3_if (do_parallel : bool) (k : list nat) (left_ mid right_ : S -> res S) (s : S) : res S :=
  if do_parallel then par_do3 k left_ mid right_ s else s ← left_ s; s ← mid s; right_ s.

Lemma parallel_for_run start end_ f g s :
  exists l, l ≡ₚ seq start (end_ - start) /\ parallel_for start end_ f g s = run l f s.
Proof.
  unfold parallel_for, for_. destruct (Nat.eqb_spec (start + 1) end_) as [<-|Hne].
  { exists [start]. replace (start + 1 - start) with 1 by lia. split; [done|]. simpl.
    by destruct (f start s). }
  destruct (Nat.leb_spec (end_ - start) g); [by eexists|].
  destruct (Nat.ltb_spec start end_).
  - eexists. split; [apply order_perm|done].
  - exists []. by replace (end_ - start) with 0 by lia.
Qed.

Lemma run_ext l (f f' : nat -> S -> res S) s : (forall i s, i ∈ l -> f i s = f' i s) -> run l f s = run l f' s.
Proof.
  revert s. induction l as [|i l IH]; intros s Hf; [done|]. simpl. rewrite Hf by left.
  destruct (f' i s); [|done]. simpl. apply IH. intros j s' Hj. apply Hf. by right.
Qed.

Lemma run_sim {S'} (p : S -> S') l (f : nat -> S -> res S) (f' : nat -> S' -> res S') s :
  (forall i s, i ∈ l -> f' i (p s) = (s ← f i s; Ok (p s))) -> run l f' (p s) = (s ← run l f s; Ok (p s)).
Proof.
  revert s. induction l as [|i l IH]; intros s Hf; [done|]. simpl. rewrite Hf by left.
  destruct (f i s); [|done]. simpl. apply IH. intros j s' Hj. apply Hf. by right.
Qed.

Lemma parallel_for_ext start end_ f f' g s :
  (forall i s, start <= i < end_ -> f i s = f' i s) -> parallel_for start end_ f g s = parallel_for start end_ f' g s.
Proof.
  intros Hf. unfold parallel_for, for_. destruct (Nat.eqb_spec (start + 1) end_); [apply Hf; lia|].
  destruct (_ <=? _); [|destruct (_ <? _); [|done]]; apply run_ext; intros i s' Hi; apply Hf.
  - apply elem_of_seq in Hi. lia.
  - rewrite order_perm in Hi. apply elem_of_seq in Hi. lia.
Qed.

(** The rule of the parallel loop: [I d] holds when the iterations [d] have run. *)
Lemma ok_parallel_for (I : list nat -> S -> Prop) start end_ f g s :
  I [] s ->
  (forall d i s, start <= i < end_ -> i ∉ d -> I d s -> ok (f i s) (I (d ++ [i]))) ->
  ok (parallel_for start end_ f g s) (fun s' => exists d, d ≡ₚ seq start (end_ - start) /\ I d s').
Proof.
  intros HI Hf. destruct (parallel_for_run start end_ f g s) as (l & Hl & ->).
  eapply ok_mono; [apply (ok_iterate I l); [done|]|intros s' Hs'; by exists l].
  intros d i d' s1 -> HI'. assert (NoDup (d ++ i :: d')) as Hnd by (rewrite Hl; apply NoDup_seq).
  apply Hf; [|by apply NoDup_app in Hnd as (_ & Hd & _); intros Hi; apply (Hd i Hi); left|done].
  assert (i ∈ seq start (end_ - start)) as Hi%elem_of_seq by (rewrite <- Hl; set_solver). lia.
Qed.
End parallel.

(** ** Scattered writes

    [scatter ws a] writes the cell [v] at position [k] for each pair of [ws]. *)

Section scatter.
Context {C : Type}.
Implicit Types (ws : list (nat * C)) (a : list C).

Fixpoint scatter ws a : list C :=
  match ws with
  | [] => a
  | (k, v) :: ws => scatter ws (<[k := v]> a)
  end.

Lemma scatter_app ws ws' a : scatter (ws ++ ws') a = scatter ws' (scatter ws a).
Proof. revert a. induction ws as [|[k v] ws IH]; intros a; [done|]. apply IH. Qed.

Lemma length_scatter ws a : length (scatter ws a) = length a.
Proof. revert a. induction ws as [|[k v] ws IH]; intros a; [done|]. simpl. by rewrite IH, length_insert. Qed.

Lemma scatter_ne ws a k : k ∉ ws.*1 -> scatter ws a !! k = a !! k.
Proof.
  revert a. induction ws as [|[k' v] ws IH]; intros a; [done|]. simpl. intros [Hk Hws]%not_elem_of_cons.
  rewrite IH by done. by apply list_lookup_insert_ne.
Qed.

Lemma scatter_eq ws a k v : NoDup ws.*1 -> (k, v) ∈ ws -> k < length a -> scatter ws a !! k = Some v.
Proof.
  revert a. induction ws as [|[k' v'] ws IH]; intros a; [by intros _ ?%not_elem_of_nil|].
  simpl. intros [Hk' Hnd]%NoDup_cons [[= -> ->]|Hin]%elem_of_cons Hk.
  - rewrite scatter_ne by done. by apply list_lookup_insert_eq.
  - apply IH; [done..|]. by rewrite length_insert.
Qed.

Lemma scatter_insert ws a k v : k ∉ ws.*1 -> <[k := v]> (scatter ws a) = scatter ws (<[k := v]> a).
Proof.
  revert a. induction ws as [|[k' v'] ws IH]; intros a; [done|]. simpl. intros [Hk Hws]%not_elem_of_cons.
  rewrite IH by done. f_equal. by apply list_insert_insert_ne.
Qed.

Lemma scatter_perm ws ws' a : NoDup ws.*1 -> ws ≡ₚ ws' -> scatter ws a = scatter ws' a.
Proof.
  intros Hnd Hp. revert a. induction Hp as [|[k v] ws ws' _ IH|[k v] [k' v'] ws|ws1 ws2 ws3 H1 IH1 _ IH2]; intros a.
  - done.
  - simpl in *. apply NoDup_cons in Hnd as [_ Hnd]. by apply IH.
  - simpl in *. apply NoDup_cons in Hnd as [Hk _]. rewrite not_elem_of_cons in Hk. f_equal.
    apply list_insert_insert_ne. naive_solver.
  - rewrite IH1 by done. apply IH2. by rewrite <- H1.
Qed.

(** The writes that put [xs] at [o], [o + 1], ... *)
Definition block (o : nat) (xs : list C) : list (nat * C) := zip (seq o (length xs)) xs.

Lemma block_app o xs ys : block o (xs ++ ys) = block o xs ++ block (o + length xs) ys.
Proof. unfold block. rewrite length_app, seq_app. apply zip_with_app. by rewrite length_seq. Qed.

Lemma block_keys o xs : (block o xs).*1 = seq o (length xs).
Proof. unfold block. apply fst_zip. by rewrite length_seq. Qed.

Lemma elem_of_block o xs k v : (k, v) ∈ block o xs <-> o <= k /\ xs !! (k - o) = Some v.
Proof.
  unfold block. rewrite list_elem_of_lookup. setoid_rewrite lookup_zip_Some. setoid_rewrite lookup_seq. split.
  - intros (i & [-> Hi] & Hv). split; [lia|]. by replace (o + i - o) with i by lia.
  - intros [Hk Hv]. exists (k - o). repeat split; [lia| |done]. by eapply lookup_lt_Some.
Qed.

Lemma scatter_block o xs a i : o + length xs <= length a ->
  scatter (block o xs) a !! i = if decide (o <= i < o + length xs) then xs !! (i - o) else a !! i.
Proof.
  intros Hl. destruct (decide (o <= i < o + length xs)) as [Hi|Hi].
  - destruct (lookup_lt_is_Some_2 xs (i - o)) as [x Hx]; [lia|]. rewrite Hx.
    apply scatter_eq; [rewrite block_keys; apply NoDup_seq|apply elem_of_block; split; [lia|done]|lia].
  - apply scatter_ne. rewrite block_keys. intros Hk%elem_of_seq. lia.
Qed.

Lemma scatter_all xs a : length a = length xs -> scatter (block 0 xs) a = xs.
Proof.
  intros Hl. apply list_eq. intros i. rewrite scatter_block by lia.
  destruct (decide (0 <= i < 0 + length xs)) as [Hi|Hi]; [f_equal; lia|].
  rewrite !lookup_ge_None_2; [done|lia..].
Qed.
End scatter.

(** ** Loops that scatter

    When iteration [i] performs the writes [W i], no cell is written twice, and no iteration
    reads what another one writes, a loop performs all writes, in whatever order it runs. *)

Definition agree {C} (ws : list (nat * C)) (a a' : list C) : Prop :=
  length a' = length a /\ forall k, k ∈ ws.*1 -> a' !! k = a !! k.

Lemma agree_refl {C} (ws : list (nat * C)) a : agree ws a a.
Proof. done. Qed.

Lemma agree_scatter {C} (ws ws' : list (nat * C)) a0 a :
  NoDup (ws' ++ ws).*1 -> agree ws (scatter ws' a0) a -> agree ws a0 a.
Proof.
  intros Hnd [Hl Ha]. rewrite length_scatter in Hl. split; [done|]. intros k Hk. rewrite Ha by done.
  apply scatter_ne. rewrite fmap_app in Hnd. apply NoDup_app in Hnd as (_ & Hd & _).
  intros Hk'. by apply (Hd k).
Qed.

Lemma joined_nodup {C} (W : nat -> list (nat * C)) i j l :
  j ∈ l -> NoDup (mjoin (W <$> i :: l)).*1 -> NoDup (W i ++ W j).*1.
Proof.
  intros Hj HW. eapply sublist_NoDup; [exact HW|]. apply fmap_sublist. simpl. apply sublist_app; [done|].
  apply list_elem_of_split in Hj as (l1 & l2 & ->). rewrite fmap_app, join_app. simpl.
  by apply sublist_inserts_l, sublist_inserts_r.
Qed.

Section run_scatter.
Context {C D : Type}.

Lemma run_scatter2 (W : nat -> list (nat * C)) (V : nat -> list (nat * D)) l body a0 b0 :
  (forall i a b, i ∈ l -> agree (W i) a0 a -> agree (V i) b0 b ->
     body i (a, b) = Ok (scatter (W i) a, scatter (V i) b)) ->
  NoDup (mjoin (W <$> l)).*1 -> NoDup (mjoin (V <$> l)).*1 ->
  run l body (a0, b0) = Ok (scatter (mjoin (W <$> l)) a0, scatter (mjoin (V <$> l)) b0).
Proof.
  revert a0 b0. induction l as [|i l IH]; intros a0 b0 Hb HW HV; [done|]. cbn [run fmap list_fmap mjoin list_join].
  rewrite (Hb i a0 b0) by (done || left). simpl. rewrite !scatter_app. apply IH.
  - intros j a b Hj Ha Hb'. apply Hb; [by right| |].
    + eapply agree_scatter; [|exact Ha]. by eapply joined_nodup.
    + eapply agree_scatter; [|exact Hb']. by eapply joined_nodup.
  - simpl in HW. rewrite fmap_app in HW. by apply NoDup_app in HW as (_ & _ & HW).
  - simpl in HV. rewrite fmap_app in HV. by apply NoDup_app in HV as (_ & _ & HV).
Qed.

Lemma run_scatter (W : nat -> list (nat * C)) l body a0 :
  (forall i a, i ∈ l -> agree (W i) a0 a -> body i a = Ok (scatter (W i) a)) ->
  NoDup (mjoin (W <$> l)).*1 ->
  run l body a0 = Ok (scatter (mjoin (W <$> l)) a0).
Proof.
  revert a0. induction l as [|i l IH]; intros a0 Hb HW; [done|]. cbn [run fmap list_fmap mjoin list_join].
  rewrite (Hb i a0) by (done || left). simpl. rewrite scatter_app. apply IH.
  - intros j a Hj Ha. apply Hb; [by right|]. eapply agree_scatter; [|exact Ha]. by eapply joined_nodup.
  - simpl in HW. rewrite fmap_app in HW. by apply NoDup_app in HW as (_ & _ & HW).
Qed.
End run_scatter.

Section parallel_scatter.
Context `{Schedule} {C D : Type}.

Lemma join_perm {X Y} (W : X -> list Y) l l' : l ≡ₚ l' -> mjoin (W <$> l) ≡ₚ mjoin (W <$> l').
Proof.
  induction 1; simpl; [done|by f_equiv| |by etrans]. rewrite !app_assoc. f_equiv. apply Permutation_app_comm.
Qed.

Lemma parallel_for_scatter2 (W : nat -> list (nat * C)) (V : nat -> list (nat * D)) start end_ g body a0 b0 :
  (forall i a b, start <= i < end_ -> agree (W i) a0 a -> agree (V i) b0 b ->
     body i (a, b) = Ok (scatter (W i) a, scatter (V i) b)) ->
  NoDup (mjoin (W <$> seq start (end_ - start))).*1 -> NoDup (mjoin (V <$> seq start (end_ - start))).*1 ->
  parallel_for start end_ body g (a0, b0) =
    Ok (scatter (mjoin (W <$> seq start (end_ - start))) a0, scatter (mjoin (V <$> seq start (end_ - start))) b0).
Proof.
  intros Hb HW HV. destruct (parallel_for_run start end_ body g (a0, b0)) as (l & Hl & ->).
  assert (HW' := fmap_Permutation fst _ _ (join_perm W _ _ Hl)).
  assert (HV' := fmap_Permutation fst _ _ (join_perm V _ _ Hl)).
  rewrite (run_scatter2 W V); [| |by rewrite HW'|by rewrite HV'].
  - do 2 f_equal; (apply scatter_perm; [|by apply join_perm]); [by rewrite HW'|by rewrite HV'].
  - intros i a b Hi. apply Hb. rewrite Hl in Hi. apply elem_of_seq in Hi. lia.
Qed.

Lemma parallel_for_scatter (W : nat -> list (nat * C)) start end_ g body a0 :
  (forall i a, start <= i < end_ -> agree (W i) a0 a -> body i a = Ok (scatter (W i) a)) ->
  NoDup (mjoin (W <$> seq start (end_ - start))).*1 ->
  parallel_for start end_ body g a0 = Ok (scatter (mjoin (W <$> seq start (end_ - start))) a0).
Proof.
  intros Hb HW. destruct (parallel_for_run start end_ body g a0) as (l & Hl & ->).
  assert (HW' := fmap_Permutation fst _ _ (join_perm W _ _ Hl)).
  rewrite (run_scatter W); [| |by rewrite HW'].
  - f_equal. apply scatter_perm; [by rewrite HW'|by apply join_perm].
  - intros i a Hi. apply Hb. rewrite Hl in Hi. apply elem_of_seq in Hi. lia.
Qed.

(** Consecutive blocks: the iterations write [ys 0], [ys 1], ... side by side. *)
Definition offset {X} (ys : nat -> list X) (i : nat) : nat := length (mjoin (ys <$> seq 0 i)).

Lemma offset_S {X} (ys : nat -> list X) i : offset ys (S i) = offset ys i + length (ys i).
Proof. unfold offset. rewrite seq_S, fmap_app, join_app, length_app. simpl. by rewrite app_nil_r. Qed.

Lemma join_blocks (ys : nat -> list C) n o :
  mjoin ((fun i => block (o + offset ys i) (ys i)) <$> seq 0 n) = block o (mjoin (ys <$> seq 0 n)).
Proof.
  induction n as [|n IH]; [done|]. rewrite seq_S, !fmap_app, !join_app, IH. simpl. rewrite !app_nil_r.
  by rewrite block_app.
Qed.

Lemma offset_const {X} (ys : nat -> list X) k n i :
  (forall j, j < n -> length (ys j) = k) -> i <= n -> offset ys i = i * k.
Proof. intros Hk. induction i as [|i IH]; intros Hi; [done|]. rewrite offset_S, IH, Hk by lia. lia. Qed.

Lemma parallel_for_blocks (ys : nat -> list C) n g o body a0 :
  (forall i a, i < n -> agree (block (o + offset ys i) (ys i)) a0 a ->
     body i a = Ok (scatter (block (o + offset ys i) (ys i)) a)) ->
  parallel_for 0 n body g a0 = Ok (scatter (block o (mjoin (ys <$> seq 0 n))) a0).
Proof.
  intros Hb. rewrite (parallel_for_scatter (fun i => block (o + offset ys i) (ys i))).
  - by rewrite Nat.sub_0_r, join_blocks.
  - intros i a Hi. apply Hb. lia.
  - rewrite Nat.sub_0_r, join_blocks, block_keys. apply NoDup_seq.
Qed.

(** One cell for each iteration. *)
Lemma join_singletons {X} (zs : list X) i : mjoin ((fun j => take 1 (drop j zs)) <$> seq 0 i) = take i zs.
Proof.
  induction i as [|i IH]; [done|]. rewrite seq_S, fmap_app, join_app, IH. simpl. rewrite app_nil_r, take_take_drop.
  f_equal. lia.
Qed.

Lemma parallel_for_cells (zs : list C) n g o body a0 :
  length zs = n ->
  (forall i z a, zs !! i = Some z -> length a = length a0 -> a !! (o + i) = a0 !! (o + i) ->
     body i a = Ok (<[o + i := z]> a)) ->
  parallel_for 0 n body g a0 = Ok (scatter (block o zs) a0).
Proof.
  intros <- Hb. rewrite (parallel_for_blocks (fun j => take 1 (drop j zs)) _ g o).
  - by rewrite join_singletons, take_ge.
  - intros i a Hi [Hl Ha]. destruct (lookup_lt_is_Some_2 zs i Hi) as [z Hz].
    assert (offset (fun j => take 1 (drop j zs)) i = i) as Ho.
    { unfold offset. rewrite join_singletons, length_take. lia. }
    rewrite Ho, (drop_S _ _ _ Hz) in *. cbn [take] in *. rewrite take_0 in *.
    apply Hb; [done..|]. apply Ha. simpl. by left.
Qed.
End parallel_scatter.
