(* ===== verification/Monoid.v ===== *)
(** * Monoids

    [src/lib/parlay/monoid.h]: an identity and a binary operator, which may fail since the
    operators of some callers read memory.  [Semigroup] and [MonoidLaws] are what reductions
    and scans require; the instances show that the library's monoids provide it. *)

From S2P Require Import Prelude.
From stdpp Require Import list.

#[local] Open Scope nat_scope.

Record monoid (T : Type) := make_monoid { op : T -> T -> res T; identity : T }.
Arguments make_monoid {T} op identity.
Arguments op {T} m x y.
Arguments identity {T} m.

(** On the values [D] the operator does not fail, and computes the associative [g]. *)
Class Semigroup {T} (m : monoid T) (D : T -> Prop) (g : T -> T -> T) : Prop := {
  op_eq x y : D x -> D y -> op m x y = Ok (g x y);
  op_closed x y : D x -> D y -> D (g x y);
  op_assoc x y z : D x -> D y -> D z -> g x (g y z) = g (g x y) z
}.

Class MonoidLaws {T} (m : monoid T) (D : T -> Prop) (g : T -> T -> T) : Prop := {
  #[global] monoid_semigroup :: Semigroup m D g;
  identity_closed : D (identity m);
  identity_l x : D x -> g (identity m) x = x;
  identity_r x : D x -> g x (identity m) = x
}.

(** ** Folds *)

Section folds.
Context {T} (m : monoid T) (D : T -> Prop) (g : T -> T -> T) `{!Semigroup m D g}.

Lemma foldl_closed x xs : D x -> Forall D xs -> D (foldl g x xs).
Proof.
  revert x. induction xs as [|y xs IH]; intros x Hx Hxs; [done|]. apply Forall_cons in Hxs as [Hy Hxs].
  simpl. apply IH; [|done]. by apply op_closed.
Qed.

Lemma foldl_op x y xs : D x -> D y -> Forall D xs -> foldl g (g x y) xs = g x (foldl g y xs).
Proof.
  revert y. induction xs as [|z xs IH]; intros y Hx Hy Hxs; [done|]. apply Forall_cons in Hxs as [Hz Hxs].
  simpl. rewrite <- op_assoc by done. apply IH; [done|by apply op_closed|done].
Qed.

Lemma foldl_app_op x y xs ys : D x -> D y -> Forall D xs -> Forall D ys ->
  foldl g x (xs ++ y :: ys) = g (foldl g x xs) (foldl g y ys).
Proof.
  intros Hx Hy Hxs Hys. rewrite foldl_app. simpl. apply foldl_op; [by apply foldl_closed|done..].
Qed.

(** The reduction of a nonempty list. *)
Definition fold1 (xs : list T) : option T :=
  match xs with [] => None | x :: xs => Some (foldl g x xs) end.

Lemma fold1_blocks (bs : list (list T)) : Forall (fun b => b <> []) bs -> Forall (Forall D) bs ->
  exists ys, mapM fold1 bs = Some ys /\ Forall D ys /\ length ys = length bs /\ fold1 ys = fold1 (mjoin bs).
Proof.
  intros Hne HD. induction bs as [|b bs IH]; [by exists []|].
  apply Forall_cons in Hne as [Hb Hne]. apply Forall_cons in HD as [HDb HD].
  destruct IH as (ys & Hys & HDys & Hl & Hf); [done..|]. destruct b as [|x b]; [done|].
  apply Forall_cons in HDb as [Hx HDb]. exists (foldl g x b :: ys). simpl. rewrite Hys. simpl.
  repeat split; [constructor; [by apply foldl_closed|done]|by rewrite Hl|]. f_equal.
  destruct (mjoin bs) as [|y l] eqn:Hj.
  - destruct ys; [|done]. by rewrite app_nil_r.
  - assert (Forall D (y :: l)) as [Hy Hl']%Forall_cons.
    { rewrite <- Hj. apply Forall_forall. intros z (c & Hz & Hc)%list_elem_of_join.
      rewrite Forall_forall in HD. specialize (HD _ Hc). rewrite Forall_forall in HD. by apply HD. }
    destruct ys as [|y' ys]; [done|]. simpl in Hf. injection Hf as Hf.
    apply Forall_cons in HDys as [Hy' HDys].
    simpl. rewrite foldl_app_op, foldl_op, <- Hf by (done || by apply foldl_closed). done.
Qed.
End folds.

(** The identity starts a fold of a monoid. *)
Lemma foldl_identity {T} (m : monoid T) D g `{!MonoidLaws m D g} xs : Forall D xs ->
  fold1 g xs = match xs with [] => None | _ => Some (foldl g (identity m) xs) end.
Proof.
  intros HD. destruct xs as [|x xs]; [done|]. apply Forall_cons in HD as [Hx _]. simpl.
  by rewrite (identity_l (m := m) (D := D)).
Qed.

(** ** The arithmetic types *)

Class Num (T : Type) := {
  add : T -> T -> T; mul : T -> T -> T;
  bor : T -> T -> T; bxor : T -> T -> T; band : T -> T -> T;
  zero : T; one : T; ones : T;
  ltb : T -> T -> bool; lowest : T; highest : T
}.

(** [uint64_t] *)
#[export] Instance u64_num : Num Z := {
  add x y := wrap64 (x + y); mul x y := wrap64 (x * y);
  bor := Z.lor; bxor := Z.lxor; band := Z.land;
  zero := 0%Z; one := 1%Z; ones := (two64 - 1)%Z;
  ltb := Z.ltb; lowest := 0%Z; highest := (two64 - 1)%Z
}.

(** Addition of [size_t], where it counts elements *)
Definition size_add (x y : nat) : nat := Z.to_nat (wrap64 (Z.of_nat (x + y))).

(** [std::max], [std::min] *)
Definition max_ `{Num T} (a b : T) : T := if ltb a b then b else a.
Definition min_ `{Num T} (a b : T) : T := if ltb b a then b else a.

(** [std::pair] compares lexicographically. *)
Definition pair_ltb `{Num T1, Num T2} (a b : T1 * T2) : bool :=
  ltb a.1 b.1 || negb (ltb b.1 a.1) && ltb a.2 b.2.

(** ** The monoids *)

Definition pure_monoid {T} (f : T -> T -> T) (id : T) : monoid T := make_monoid (fun x y => Ok (f x y)) id.

Section monoids.
Context `{Num T}.

Definition plus_of (identity_ : T) : monoid T := pure_monoid add identity_.
Definition plus : monoid T := plus_of zero.
Definition multiplies_of (identity_ : T) : monoid T := pure_monoid mul identity_.
Definition multiplies : monoid T := multiplies_of one.
Definition bit_or_of (identity_ : T) : monoid T := pure_monoid bor identity_.
Definition bit_or : monoid T := bit_or_of zero.
Definition bit_xor_of (identity_ : T) : monoid T := pure_monoid bxor identity_.
Definition bit_xor : monoid T := bit_xor_of zero.
Definition bit_and_of (identity_ : T) : monoid T := pure_monoid band identity_.
Definition bit_and : monoid T := bit_and_of ones.
Definition maximum_of (identity_ : T) : monoid T := pure_monoid max_ identity_.
Definition maximum : monoid T := maximum_of lowest.
Definition minimum_of (identity_ : T) : monoid T := pure_monoid min_ identity_.
Definition minimum : monoid T := minimum_of highest.
End monoids.

Definition plus_size : monoid nat := pure_monoid size_add 0.

Definition logical_and : monoid bool := pure_monoid andb true.
Definition logical_or : monoid bool := pure_monoid orb false.

(** ** Legacy monoids

    They name their operation [f] instead of having an [operator()], so they are a type of
    their own: [pair_monoid] and [array_monoid] take legacy monoids only, and make monoids
    of the new kind. *)

Record legacy_monoid (T : Type) := make_legacy { f : T -> T -> res T; legacy_identity : T }.
Arguments make_legacy {T} f legacy_identity.
Arguments f {T} l x y.
Arguments legacy_identity {T} l.

Definition legacy_monoid_adapter {T} (m : legacy_monoid T) : monoid T := make_monoid (f m) (legacy_identity m).

Definition pure_legacy {T} (g : T -> T -> T) (id : T) : legacy_monoid T := make_legacy (fun x y => Ok (g x y)) id.

Section legacy.
Context `{Num T}.

Definition addm : legacy_monoid T := pure_legacy add zero.
Definition maxm : legacy_monoid T := pure_legacy max_ lowest.
Definition minm : legacy_monoid T := pure_legacy min_ highest.
Definition xorm : legacy_monoid T := pure_legacy bxor zero.
Definition minmaxm : legacy_monoid (T * T) :=
  pure_legacy (fun a b => (min_ a.1 b.1, max_ a.2 b.2)) (highest, lowest).
End legacy.

Definition maxm_pair `{Num T1, Num T2} : legacy_monoid (T1 * T2) :=
  pure_legacy (fun a b => if pair_ltb a b then b else a) (lowest, lowest).
Definition minm_pair `{Num T1, Num T2} : legacy_monoid (T1 * T2) :=
  pure_legacy (fun a b => if pair_ltb b a then b else a) (highest, highest).

Definition pair_monoid {T1 T2} (m1 : legacy_monoid T1) (m2 : legacy_monoid T2) : monoid (T1 * T2) :=
  make_monoid (fun a b => x ← f m1 a.1 b.1; y ← f m2 a.2 b.2; Ok (x, y)) (legacy_identity m1, legacy_identity m2).

(** [for (size_t i = 0; i < n; i++) r[i] = m.f(a[i], b[i])] on arrays of the length [n] *)
Fixpoint array_op {T} (m : legacy_monoid T) (n : nat) (a b : list T) : res (list T) :=
  match n, a, b with
  | O, _, _ => Ok []
  | S n, x :: a, y :: b => z ← f m x y; r ← array_op m n a b; Ok (z :: r)
  | S _, _, _ => Err BadPtr
  end.

Definition array_monoid {T} (n : nat) (m : legacy_monoid T) : monoid (list T) :=
  make_monoid (array_op m n) (replicate n (legacy_identity m)).

(** ** Their laws *)

(** The laws of a legacy monoid *)
Abbreviation LegacyLaws m := (MonoidLaws (legacy_monoid_adapter m)) (only parsing).

Lemma pure_laws {T} (D : T -> Prop) (g : T -> T -> T) id :
  (forall x y, D x -> D y -> D (g x y)) -> (forall x y z, D x -> D y -> D z -> g x (g y z) = g (g x y) z) ->
  D id -> (forall x, D x -> g id x = x) -> (forall x, D x -> g x id = x) ->
  MonoidLaws (pure_monoid g id) D g.
Proof. intros. constructor; [constructor|..]; simpl; auto. Qed.

Lemma u64_bits (f : Z -> Z -> Z) (b : bool -> bool -> bool) :
  (forall x y i, (0 <= i)%Z -> Z.testbit (f x y) i = b (Z.testbit x i) (Z.testbit y i)) -> b false false = false ->
  (forall x y, (0 <= x)%Z -> (0 <= y)%Z -> (0 <= f x y)%Z) ->
  forall x y, u64 x -> u64 y -> u64 (f x y).
Proof.
  intros Hf Hb H0 x y Hx Hy. unfold u64 in *. specialize (H0 x y ltac:(lia) ltac:(lia)). split; [done|].
  enough (f x y = f x y mod 2 ^ 64)%Z as -> by (by apply Z.mod_pos_bound).
  apply Z.bits_inj'. intros i Hi. destruct (decide (i < 64)%Z) as [Hlt|Hge].
  - by rewrite Z.mod_pow2_bits_low.
  - rewrite Z.mod_pow2_bits_high by lia. rewrite Hf by done.
    rewrite <- (Z.mod_small x (2 ^ 64)), <- (Z.mod_small y (2 ^ 64)) by (unfold two64 in *; lia).
    by rewrite !Z.mod_pow2_bits_high by lia.
Qed.

Lemma wrap64_mul_l x y : wrap64 (wrap64 x * y) = wrap64 (x * y).
Proof. apply Zmult_mod_idemp_l. Qed.

Lemma wrap64_mul_r x y : wrap64 (x * wrap64 y) = wrap64 (x * y).
Proof. apply Zmult_mod_idemp_r. Qed.

Lemma u64_0 : u64 0.
Proof. done. Qed.

Lemma u64_1 : u64 1.
Proof. done. Qed.

Lemma u64_ones : u64 (two64 - 1).
Proof. done. Qed.
#[local] Hint Resolve u64_0 u64_1 u64_ones : u64.

#[export] Instance plus_laws : MonoidLaws (plus (T := Z)) u64 add.
Proof.
  apply pure_laws; simpl; intros; auto with u64.
  - rewrite wrap64_add_l, wrap64_add_r. f_equal. lia.
  - by apply wrap64_small.
  - rewrite Z.add_0_r. by apply wrap64_small.
Qed.

#[export] Instance multiplies_laws : MonoidLaws (multiplies (T := Z)) u64 mul.
Proof.
  apply pure_laws; intros; cbn [mul one u64_num]; auto with u64.
  - rewrite wrap64_mul_l, wrap64_mul_r. f_equal. lia.
  - rewrite Z.mul_1_l. by apply wrap64_small.
  - rewrite Z.mul_1_r. by apply wrap64_small.
Qed.

#[export] Instance bit_or_laws : MonoidLaws (bit_or (T := Z)) u64 bor.
Proof.
  apply pure_laws; simpl; intros; auto with u64.
  - apply (u64_bits Z.lor orb); [|done| |done..]; [intros; apply Z.lor_spec|intros; by apply Z.lor_nonneg].
  - apply Z.lor_assoc.
  - apply Z.lor_0_r.
Qed.

#[export] Instance bit_xor_laws : MonoidLaws (bit_xor (T := Z)) u64 bxor.
Proof.
  apply pure_laws; cbn [bxor zero u64_num]; intros; auto with u64.
  - apply (u64_bits Z.lxor xorb); [|done| |done..]; [intros; apply Z.lxor_spec|intros; by apply Z.lxor_nonneg].
  - symmetry. apply Z.lxor_assoc.
  - apply Z.lxor_0_r.
Qed.

#[export] Instance bit_and_laws : MonoidLaws (bit_and (T := Z)) u64 band.
Proof.
  assert (forall x, u64 x -> Z.land x (two64 - 1) = x) as Hones.
  { intros x Hx. change (two64 - 1)%Z with (Z.ones 64). rewrite Z.land_ones by done. by apply Z.mod_small. }
  apply pure_laws; cbn [band ones u64_num]; intros; auto with u64.
  - apply (u64_bits Z.land andb); [|done| |done..]; [intros; apply Z.land_spec|intros; apply Z.land_nonneg; by left].
  - apply Z.land_assoc.
  - rewrite Z.land_comm. auto.
Qed.

#[export] Instance logical_and_laws : MonoidLaws logical_and (fun _ => True) andb.
Proof. apply pure_laws; try done; intros; [apply andb_assoc|apply andb_true_r]. Qed.

#[export] Instance logical_or_laws : MonoidLaws logical_or (fun _ => True) orb.
Proof. apply pure_laws; try done; intros; [apply orb_assoc|apply orb_false_r]. Qed.

Lemma max_u64 (x y : Z) : max_ x y = Z.max x y.
Proof. unfold max_, ltb, u64_num. zcases; lia. Qed.

Lemma min_u64 (x y : Z) : min_ x y = Z.min x y.
Proof. unfold min_, ltb, u64_num. zcases; lia. Qed.

#[export] Instance maximum_laws : MonoidLaws (maximum (T := Z)) u64 max_.
Proof.
  unfold u64. apply pure_laws; intros; rewrite ?max_u64; cbn [lowest u64_num]; unfold two64 in *; lia.
Qed.

#[export] Instance minimum_laws : MonoidLaws (minimum (T := Z)) u64 min_.
Proof.
  unfold u64. apply pure_laws; intros; rewrite ?min_u64; cbn [highest u64_num]; unfold two64 in *; lia.
Qed.

(** Sums of sizes wrap around like those of [uint64_t]. *)
Definition size_t (x : nat) : Prop := u64 (Z.of_nat x).

Lemma size_add_size x y : size_t (size_add x y).
Proof. unfold size_t, size_add. rewrite Z2Nat.id by apply wrap64_u64. apply wrap64_u64. Qed.

Lemma size_add_small x y : size_t (x + y) -> size_add x y = x + y.
Proof. intros H. unfold size_add. rewrite wrap64_small by done. apply Nat2Z.id. Qed.

#[export] Instance plus_size_laws : MonoidLaws plus_size size_t size_add.
Proof.
  apply pure_laws; intros; [apply size_add_size| |done|..].
  - unfold size_add. rewrite !Nat2Z.inj_add, !Z2Nat.id by apply wrap64_u64. autorewrite with u64. do 2 f_equal. lia.
  - by rewrite size_add_small.
  - rewrite size_add_small; [lia|]. by rewrite Nat.add_0_r.
Qed.

Lemma foldl_size_add x xs : size_t (x + list_sum xs) -> foldl size_add x xs = x + list_sum xs.
Proof.
  revert x. induction xs as [|y xs IH]; intros x Hs; simpl in *; [lia|].
  unfold size_t, u64 in *. rewrite size_add_small by (unfold size_t, u64; lia). rewrite IH by lia. lia.
Qed.

Lemma legacy_eq {T} (m : legacy_monoid T) D g `{!LegacyLaws m D g} x y : D x -> D y -> f m x y = Ok (g x y).
Proof. apply (op_eq (m := legacy_monoid_adapter m)). Qed.

#[export] Instance pair_laws {T1 T2} (m1 : legacy_monoid T1) (m2 : legacy_monoid T2) D1 D2 g1 g2
    `{!LegacyLaws m1 D1 g1, !LegacyLaws m2 D2 g2} :
  MonoidLaws (pair_monoid m1 m2) (fun p => D1 p.1 /\ D2 p.2) (fun a b => (g1 a.1 b.1, g2 a.2 b.2)).
Proof.
  constructor; [constructor|..].
  - intros x y [] []. simpl. rewrite (legacy_eq m1 D1 g1), (legacy_eq m2 D2 g2) by done. done.
  - intros x y [] []. split; simpl;
      [by apply (op_closed (m := legacy_monoid_adapter m1))|by apply (op_closed (m := legacy_monoid_adapter m2))].
  - intros x y z [] [] []. simpl. by rewrite (op_assoc (D := D1)), (op_assoc (D := D2)) by done.
  - split; [apply (identity_closed (m := legacy_monoid_adapter m1))|apply (identity_closed (m := legacy_monoid_adapter m2))].
  - intros [x y] []. apply pair_eq. split; [by apply (identity_l (m := legacy_monoid_adapter m1) (D := D1))|].
    by apply (identity_l (m := legacy_monoid_adapter m2) (D := D2)).
  - intros [x y] []. apply pair_eq. split; [by apply (identity_r (m := legacy_monoid_adapter m1) (D := D1))|].
    by apply (identity_r (m := legacy_monoid_adapter m2) (D := D2)).
Qed.

Section array_laws.
Context {T} (m : legacy_monoid T) (D : T -> Prop) (g : T -> T -> T) `{!LegacyLaws m D g}.

Definition array_of (n : nat) (a : list T) : Prop := length a = n /\ Forall D a.

Lemma array_op_eq n a b : array_of n a -> array_of n b -> array_op m n a b = Ok (zip_with g a b).
Proof using All.
  intros [Ha HDa] [Hb HDb]. revert b Hb HDb. subst n. induction HDa as [|x a Hx HDa IH]; intros [|y b] Hl HDb; try done.
  apply Forall_cons in HDb as [Hy HDb]. simpl in *. rewrite (legacy_eq m D g) by done. simpl.
  by rewrite IH by (done || lia).
Qed.

#[export] Instance array_laws n : MonoidLaws (array_monoid n m) (array_of n) (zip_with g).
Proof using All.
  constructor; [constructor|..].
  - intros. by apply array_op_eq.
  - intros a b [Ha HDa] [Hb HDb]. split; [rewrite length_zip_with; lia|].
    eapply Forall_zip_with_fst; [exact HDa|]. eapply Forall_impl; [exact HDb|]. intros y Hy x Hx.
    by apply (op_closed (m := legacy_monoid_adapter m)).
  - intros a b c [Ha HDa] [Hb HDb] [Hc HDc]. clear n Ha Hb Hc. revert b c HDb HDc.
    induction HDa as [|x a Hx HDa IH]; intros b c HDb HDc; [done|].
    destruct HDb as [|y b Hy HDb], HDc as [|z c Hz HDc]; try done. simpl. rewrite IH by done.
    by rewrite (op_assoc (m := legacy_monoid_adapter m) (D := D)).
  - split; [apply length_replicate|]. apply Forall_replicate, (identity_closed (m := legacy_monoid_adapter m)).
  - intros a [<- HDa]. induction HDa as [|x a Hx HDa IH]; [done|]. cbn [length replicate identity array_monoid] in *.
    cbn [zip_with]. f_equal; [by apply (identity_l (m := legacy_monoid_adapter m) (D := D))|done].
  - intros a [<- HDa]. induction HDa as [|x a Hx HDa IH]; [done|]. cbn [length replicate identity array_monoid] in *.
    cbn [zip_with]. f_equal; [by apply (identity_r (m := legacy_monoid_adapter m) (D := D))|done].
Qed.
End array_laws.

(** Pairs, compared lexicographically *)
Definition u64_pair (p : Z * Z) : Prop := u64 p.1 /\ u64 p.2.

Lemma pair_ltb_lt (a b : Z * Z) : pair_ltb a b = true <-> (a.1 < b.1 \/ a.1 = b.1 /\ a.2 < b.2)%Z.
Proof.
  unfold pair_ltb. cbn [ltb u64_num]. rewrite orb_true_iff, andb_true_iff, negb_true_iff, !Z.ltb_lt, Z.ltb_ge. lia.
Qed.

Lemma pair_ltb_ge (a b : Z * Z) : pair_ltb a b = false <-> (b.1 < a.1 \/ b.1 = a.1 /\ b.2 <= a.2)%Z.
Proof. rewrite <- not_true_iff_false, pair_ltb_lt. lia. Qed.

Ltac pair_order := rewrite ?pair_ltb_lt, ?pair_ltb_ge in *; cbn [fst snd lowest highest u64_num] in *;
  unfold u64_pair, u64, two64 in *; try (exfalso; cbn [fst snd] in *; lia); try (apply pair_eq; cbn [fst snd] in *; lia).

#[export] Instance maxm_pair_laws : LegacyLaws (maxm_pair (T1 := Z) (T2 := Z)) u64_pair (fun a b => if pair_ltb a b then b else a).
Proof.
  apply (pure_laws _ _ (lowest, lowest)).
  - intros x y. by destruct (pair_ltb x y).
  - intros x y z _ _ _. destruct (pair_ltb y z) eqn:E1, (pair_ltb x y) eqn:E2; rewrite ?E1, ?E2; [|done|done|];
      destruct (pair_ltb x z) eqn:E3; try done; pair_order.
  - done.
  - intros [x y] H. destruct (pair_ltb _ _) eqn:E; [done|]. pair_order.
  - intros [x y] H. destruct (pair_ltb _ _) eqn:E; [|done]. pair_order.
Qed.

#[export] Instance minm_pair_laws : LegacyLaws (minm_pair (T1 := Z) (T2 := Z)) u64_pair (fun a b => if pair_ltb b a then b else a).
Proof.
  apply (pure_laws _ _ (highest, highest)).
  - intros x y. by destruct (pair_ltb y x).
  - intros x y z _ _ _. destruct (pair_ltb z y) eqn:E1, (pair_ltb y x) eqn:E2; rewrite ?E1, ?E2; [|done|done|];
      destruct (pair_ltb z x) eqn:E3; try done; pair_order.
  - done.
  - intros [x y] H. destruct (pair_ltb _ _) eqn:E; [done|]. pair_order.
  - intros [x y] H. destruct (pair_ltb _ _) eqn:E; [|done]. pair_order.
Qed.

#[export] Instance minmaxm_laws : LegacyLaws (minmaxm (T := Z)) u64_pair (fun a b => (min_ a.1 b.1, max_ a.2 b.2)).
Proof.
  apply (pure_laws _ _ (highest, lowest)); unfold u64_pair, u64; cbn [fst snd].
  - intros x y. rewrite min_u64, max_u64. lia.
  - intros x y z. rewrite !min_u64, !max_u64. intros. f_equal; lia.
  - done.
  - intros [x y]. rewrite min_u64, max_u64. cbn [fst snd lowest highest u64_num]. intros. unfold two64 in *. f_equal; lia.
  - intros [x y]. rewrite min_u64, max_u64. cbn [fst snd lowest highest u64_num]. intros. unfold two64 in *. f_equal; lia.
Qed.

#[export] Instance addm_laws : LegacyLaws (addm (T := Z)) u64 add := plus_laws.
#[export] Instance xorm_laws : LegacyLaws (xorm (T := Z)) u64 bxor := bit_xor_laws.
#[export] Instance maxm_laws : LegacyLaws (maxm (T := Z)) u64 max_ := maximum_laws.
#[export] Instance minm_laws : LegacyLaws (minm (T := Z)) u64 min_ := minimum_laws.

(** C32: every monoid of the file with its default identity is one on 64-bit numbers (or on
    bits, and on pairs of such numbers): the operation maps such values to such values and never
    fails, it is associative, and the identity is one.  The legacy monoids are, through their
    adapter; and [pair_monoid] and [array_monoid] make monoids of any legacy monoids that are:
    on the pairs, and on the arrays of any length, component by component. *)
Theorem built_in_monoids n {T1 T2} (m1 : legacy_monoid T1) (m2 : legacy_monoid T2) D1 D2 g1 g2 :
  LegacyLaws m1 D1 g1 -> LegacyLaws m2 D2 g2 ->
  MonoidLaws (plus (T := Z)) u64 add /\ LegacyLaws (addm (T := Z)) u64 add /\
  MonoidLaws (multiplies (T := Z)) u64 mul /\
  MonoidLaws (bit_or (T := Z)) u64 bor /\ MonoidLaws (bit_and (T := Z)) u64 band /\
  MonoidLaws (bit_xor (T := Z)) u64 bxor /\ LegacyLaws (xorm (T := Z)) u64 bxor /\
  MonoidLaws (maximum (T := Z)) u64 max_ /\ LegacyLaws (maxm (T := Z)) u64 max_ /\
  MonoidLaws (minimum (T := Z)) u64 min_ /\ LegacyLaws (minm (T := Z)) u64 min_ /\
  MonoidLaws logical_and (fun _ => True) andb /\ MonoidLaws logical_or (fun _ => True) orb /\
  LegacyLaws (minmaxm (T := Z)) u64_pair (fun a b => (min_ a.1 b.1, max_ a.2 b.2)) /\
  LegacyLaws (maxm_pair (T1 := Z) (T2 := Z)) u64_pair (fun a b => if pair_ltb a b then b else a) /\
  LegacyLaws (minm_pair (T1 := Z) (T2 := Z)) u64_pair (fun a b => if pair_ltb b a then b else a) /\
  MonoidLaws (pair_monoid m1 m2) (fun p => D1 p.1 /\ D2 p.2) (fun a b => (g1 a.1 b.1, g2 a.2 b.2)) /\
  MonoidLaws (array_monoid n m1) (array_of D1 n) (zip_with g1).
Proof. intros H1 H2. repeat match goal with |- _ /\ _ => split end; apply _. Qed.

(** The sums of pairs of numbers and largest pairs, and arrays of three numbers *)
Lemma built_in_monoids_witness :
  op (pair_monoid (addm (T := Z)) maxm_pair) (3, (1, 4))%Z (5, (2, 0))%Z = Ok (8, (2, 0))%Z /\
  op (array_monoid 3 (addm (T := Z))) [1; 2; 3]%Z [10; 20; 30]%Z = Ok [11; 22; 33]%Z.
Proof.
  destruct (built_in_monoids 3 addm maxm_pair u64 u64_pair add _ addm_laws maxm_pair_laws)
    as (_ & _ & _ & _ & _ & _ & _ & _ & _ & _ & _ & _ & _ & _ & _ & _ & Hp & Ha).
  split; [by rewrite (op_eq (D := fun p => u64 p.1 /\ u64_pair p.2))|].
  rewrite (op_eq (D := array_of u64 3)); [done|..]; (split; [done|by repeat constructor]).
Defined.
