(* ===== verification/SequenceOps.v ===== *)
(** * Sequence operations

    [src/lib/parlay/internal/sequence_ops.h]: the parallel loops over blocks behind maps,
    reductions, scans, packs, filters and splits.  The theorems say that each computes what
    its sequential description computes, whatever the schedule.  Output slices are given by
    the array and the position where they begin; a function that may read the array it
    writes takes its input as a function of that array. *)

From S2P Require Import Prelude.
From stdpp Require Import list.
From S2P Require Import ParArray Monoid.

#[local] Open Scope nat_scope.

(** ** Flags *)

Definition flags := Z.
Definition no_flag : flags := 0%Z.
Definition fl_sequential : flags := 1%Z.
Definition fl_scan_inclusive : flags := Z.shiftl 1 4.
Definition flag_set (fl bit : flags) : bool := negb (Z.land fl bit =? 0)%Z.

(** ** Blocks *)

Definition _log_block_size : nat := 10.
Definition _block_size : nat := Nat.shiftl 1 _log_block_size.

Definition num_blocks (n block_size : nat) : nat := if n =? 0 then 0 else 1 + (n - 1) / block_size.

Lemma ceil_div n k : 0 < k -> (n + k - 1) / k = num_blocks n k.
Proof.
  intros Hk. unfold num_blocks. destruct (Nat.eqb_spec n 0) as [->|Hn]; [apply Nat.div_small; lia|].
  replace (n + k - 1) with (n - 1 + 1 * k) by lia. rewrite Nat.div_add by lia. lia.
Qed.

(** [1024 * sizeof(size_t)]: the bytes that [relocation.h] copies in one piece *)
Definition chunk_bytes : nat := 1024 * 8.

Section sequence_ops.
Context `{Schedule}.

Definition sliced_for {S} (n block_size : nat) (f : nat -> nat -> nat -> S -> res S) : S -> res S :=
  let l := num_blocks n block_size in
  let body i :=
    let s := i * block_size in
    let e := (s + block_size) `min` n in
    f i s e in
  parallel_for 0 l body 1.

(** ** Maps *)

(** [sequence::from_function] *)
Definition from_function {T} (n : nat) (f : nat -> res T) (granularity : nat) : res (array T) :=
  parallel_for 0 n (fun i buffer => x ← f i; assign_uninitialized buffer i x) granularity (uninitialized n).

Definition tabulate {T} (n : nat) (f : nat -> res T) (granularity : nat) : res (array T) := from_function n f granularity.

Definition map {A B} (r : range A) (f : A -> B) (granularity : nat) : res (array B) :=
  tabulate (range_size r) (fun i => x ← subscript r i; Ok (f x)) granularity.

Definition singleton {T} (v : T) : array T := [Some v].

Definition copy {T} (A : range T) (R : nat) (a : array T) : res (array T) :=
  parallel_for 0 (range_size A) (fun i a => x ← subscript A i; assign a (R + i) x) 0 a.

(** ** Reductions *)

Section monoid.
Context {T : Type} (m : monoid T).

Definition reduce_serial (A : range T) : res T :=
  if range_size A =? 0 then Ok (identity m)
  else r ← subscript A 0; for_ 1 (range_size A) (fun j r => x ← subscript A j; op m r x) r.

(** The recursion is on a sequence of fewer elements. *)
Fixpoint reduce_fuel (fuel : nat) (A : range T) (fl : flags) : res T :=
  match fuel with
  | O => Err OutOfFuel
  | S fuel =>
      let n := range_size A in
      let block_size := _block_size `max` (4 * Nat.sqrt_up n) in
      let l := num_blocks n block_size in
      if l =? 0 then Ok (identity m)
      else if (l =? 1) || flag_set fl fl_sequential then reduce_serial A
      else
        sums ← sliced_for n block_size (fun i s e sums =>
          x ← reduce_serial (cut A s e); assign_uninitialized sums i x) (uninitialized l);
        reduce_fuel fuel (of_array sums) no_flag
  end.

Definition reduce (A : range T) (fl : flags) : res T := reduce_fuel (range_size A + 1) A fl.

(** ** Scans *)

Definition put (out_uninitialized : bool) (a : array T) (i : nat) (x : T) : res (array T) :=
  if out_uninitialized then assign_uninitialized a i x else assign a i x.

(** The input [In] is what the range shows while the array has the given cells. *)
Definition scan_serial (In : array T -> range T) (Out : nat) (offset : T) (fl : flags) (out_uninitialized : bool)
    (a : array T) : res (T * array T) :=
  let n := range_size (In a) in
  let inclusive := flag_set fl fl_scan_inclusive in
  if inclusive then
    for_ 0 n (fun i '(r, a) =>
      x ← subscript (In a) i; r ← op m r x;
      a ← put out_uninitialized a (Out + i) r; Ok (r, a)) (offset, a)
  else
    for_ 0 n (fun i '(r, a) =>
      t ← subscript (In a) i;
      a ← put out_uninitialized a (Out + i) r;
      r ← op m r t; Ok (r, a)) (offset, a).

Definition scan_ (In : array T -> range T) (Out : nat) (fl : flags) (out_uninitialized : bool) (a : array T)
    : res (T * array T) :=
  let n := range_size (In a) in
  let l := num_blocks n _block_size in
  if (l <=? 2) || flag_set fl fl_sequential then scan_serial In Out (identity m) fl out_uninitialized a
  else
    sums ← sliced_for n _block_size (fun i s e sums =>
      x ← reduce_serial (cut (In a) s e); assign_uninitialized sums i x) (uninitialized l);
    '(total, sums) ← scan_serial of_array 0 (identity m) 0%Z false sums;
    a ← sliced_for n _block_size (fun i s e a =>
      offset ← get sums i;
      '(_, a) ← scan_serial (fun a => cut (In a) s e) (Out + s) offset fl out_uninitialized a; Ok a) a;
    Ok (total, a).

(** The slice [lo .. hi-1] of an array *)
Definition scan_inplace (lo hi : nat) (fl : flags) (a : array T) : res (T * array T) :=
  scan_ (fun a => cut (of_array a) lo hi) lo fl false a.

Definition scan (In : range T) (fl : flags) : res (array T * T) :=
  '(total, Out) ← scan_ (fun _ => In) 0 fl true (uninitialized (range_size In)); Ok (Out, total).

(** of an rvalue sequence *)
Definition scan_move (In : array T) (fl : flags) : res (array T * T) :=
  '(total, Out) ← scan_ of_array 0 fl false In; Ok (Out, total).
End monoid.

(** ** Packs *)

Definition sum_bools_serial (I : range bool) : res nat :=
  for_ 0 (range_size I) (fun j r => b ← subscript I j; Ok (size_add r (Nat.b2n b))) 0.

Section pack.
Context {T : Type}.

(** Returns the number of elements written, and the array. *)
Definition pack_serial_at (In : range T) (Fl : range bool) (Out : nat) (a : array T) : res (nat * array T) :=
  for_ 0 (range_size In) (fun i '(k, a) =>
    b ← subscript Fl i;
    if (b : bool) then x ← subscript In i; a ← assign_uninitialized a (Out + k) x; Ok (k + 1, a) else Ok (k, a)) (0, a).

Definition pack_serial (In : range T) (Fl : range bool) : res (array T) :=
  let n := range_size In in
  m ← sum_bools_serial Fl;
  '(_, Out) ← for_ 0 n (fun i '(k, Out) =>
    b ← subscript Fl i;
    if (b : bool) then x ← subscript In i; Out ← assign_uninitialized Out k x; Ok (k + 1, Out) else Ok (k, Out))
    (0, uninitialized m);
  Ok Out.

(** [make_slice(Out).cut(sums[i], (i == l - 1) ? m : sums[i + 1])]: where it begins *)
Definition out_slice (sums : array nat) (l m i : nat) : res nat :=
  k ← get sums i; _ ← (if i =? l - 1 then Ok m else get sums (i + 1)); Ok k.

Definition pack_blocks (In : range T) (Fl : range bool) (Out : nat) (sums : array nat) (m : nat) (a : array T)
    : res (array T) :=
  let n := range_size In in
  let l := num_blocks n _block_size in
  sliced_for n _block_size (fun i s e a =>
    k ← out_slice sums l m i;
    '(_, a) ← pack_serial_at (cut In s e) (cut Fl s e) (Out + k) a; Ok a) a.

Definition pack (In : range T) (Fl : range bool) (fl : flags) : res (array T) :=
  let n := range_size In in
  let l := num_blocks n _block_size in
  if (l =? 1) || flag_set fl fl_sequential then pack_serial In Fl
  else
    sums ← sliced_for n _block_size (fun i s e sums =>
      x ← sum_bools_serial (cut Fl s e); assign_uninitialized sums i x) (uninitialized l);
    '(m, sums) ← scan_inplace plus_size 0 l no_flag sums;
    pack_blocks In Fl 0 sums m (uninitialized m).

Definition pack_out (In : range T) (Fl : range bool) (Out : nat) (fl : flags) (a : array T) : res (nat * array T) :=
  let n := range_size In in
  let l := num_blocks n _block_size in
  if (l <=? 1) || flag_set fl fl_sequential then pack_serial_at In (cut Fl 0 n) Out a
  else
    Sums ← sliced_for n _block_size (fun i s e Sums =>
      x ← sum_bools_serial (cut Fl s e); assign Sums i x) (replicate l (Some 0));
    '(m, Sums) ← scan_inplace plus_size 0 l no_flag Sums;
    a ← pack_blocks In Fl Out Sums m a; Ok (m, a).
End pack.

(** ** Filters *)

(** [for (j = s; j < e; j++) r += (Fl[j] = f(In[j])); Sums[i] = r;] *)
Definition filter_flags {A} (In : range A) (f : A -> bool) (i s e : nat) (st : array bool * array nat)
    : res (array bool * array nat) :=
  let '(Fl, Sums) := st in
  '(r, Fl) ← for_ s e (fun j '(r, Fl) =>
    x ← subscript In j; Fl ← assign Fl j (f x); Ok (size_add r (Nat.b2n (f x)), Fl)) (0, Fl);
  Sums ← assign Sums i r; Ok (Fl, Sums).

Definition filter_map {A B} (In : range A) (f : A -> bool) (g : A -> B) : res (array B) :=
  let n := range_size In in
  let l := num_blocks n _block_size in
  let in_mapped := delayed_tabulate n (fun i => x ← subscript In i; Ok (g x)) in
  '(Fl, Sums) ← sliced_for n _block_size (filter_flags In f) (replicate n (Some false), replicate l (Some 0));
  '(m, Sums) ← scan_inplace plus_size 0 l no_flag Sums;
  pack_blocks in_mapped (of_array Fl) 0 Sums m (uninitialized m).

Definition filter {A} (In : range A) (f : A -> bool) : res (array A) := filter_map In f (fun x => x).

Definition filter_out {A} (In : range A) (Out : nat) (f : A -> bool) (a : array A) : res (nat * array A) :=
  let n := range_size In in
  let l := num_blocks n _block_size in
  '(Fl, Sums) ← sliced_for n _block_size (filter_flags In f) (replicate n (Some false), replicate l (Some 0));
  '(m, Sums) ← scan_inplace plus_size 0 l no_flag Sums;
  a ← pack_blocks In (of_array Fl) Out Sums m a; Ok (m, a).

Definition pack_index (Fl : range bool) (fl : flags) : res (array nat) :=
  pack (delayed_tabulate (range_size Fl) (fun i => Ok i)) Fl fl.

(** ** Splits *)

(** The counting loop of [split_three] over one block *)
Definition count_three (Fl : range nat) (i s e : nat) (st : array nat * array nat) : res (array nat * array nat) :=
  let '(Sums0, Sums1) := st in
  '(c0, c1) ← for_ s e (fun j '(c0, c1) =>
    c ← subscript Fl j;
    if c =? 0 then Ok (c0 + 1, c1) else if c =? 1 then Ok (c0, c1 + 1) else Ok (c0, c1)) (0, 0);
  Sums0 ← assign Sums0 i c0; Sums1 ← assign Sums1 i c1; Ok (Sums0, Sums1).

(** [assignment_tag] copies into uninitialised memory. *)
Definition split_three {T} (In : range T) (Out : nat) (Fl : range nat) (a : array T)
    : res ((nat * nat) * array T) :=
  let n := range_size In in
  let l := num_blocks n _block_size in
  '(Sums0, Sums1) ← sliced_for n _block_size (count_three Fl) (replicate l (Some 0), replicate l (Some 0));
  '(m0, Sums0) ← scan_inplace plus_size 0 l no_flag Sums0;
  '(m1, Sums1) ← scan_inplace plus_size 0 l no_flag Sums1;
  a ← sliced_for n _block_size (fun i s e a =>
    c0 ← get Sums0 i; s1 ← get Sums1 i;
    let c1 := m0 + s1 in
    let c2 := m0 + m1 + (s - c0 - s1) in
    '(_, _, _, a) ← for_ s e (fun j '(c0, c1, c2, a) =>
      c ← subscript Fl j; x ← subscript In j;
      if c =? 0 then a ← assign_uninitialized a (Out + c0) x; Ok (c0 + 1, c1, c2, a)
      else if c =? 1 then a ← assign_uninitialized a (Out + c1) x; Ok (c0, c1 + 1, c2, a)
      else a ← assign_uninitialized a (Out + c2) x; Ok (c0, c1, c2 + 1, a)) (c0, c1, c2, a);
    Ok a) a;
  Ok ((m0, m1), a).

Definition split_two {T} (In : range T) (Fl : range bool) : res (array T * nat) :=
  let n := range_size In in
  let l := num_blocks n _block_size in
  Sums ← sliced_for n _block_size (fun i s e Sums =>
    c ← for_ s e (fun j c => b ← subscript Fl j; Ok (c + Nat.b2n (negb b))) 0; assign Sums i c) (replicate l (Some 0));
  '(m, Sums) ← scan_inplace plus_size 0 l no_flag Sums;
  Out ← sliced_for n _block_size (fun i s e Out =>
    c0 ← get Sums i;
    let c1 := s + (m - c0) in
    '(_, _, Out) ← for_ s e (fun j '(c0, c1, Out) =>
      b ← subscript Fl j; x ← subscript In j;
      if negb b then Out ← assign_uninitialized Out c0 x; Ok (c0 + 1, c1, Out)
      else Out ← assign_uninitialized Out c1 x; Ok (c0, c1 + 1, Out)) (c0, c1, Out);
    Ok Out) (uninitialized n);
  Ok (Out, m).
End sequence_ops.

(** ** The blocks of a list *)

Lemma block_size_gt : 1 < _block_size.
Proof. unfold _block_size. cbn. lia. Qed.

Lemma block_size_pos : 0 < _block_size.
Proof. assert (H := block_size_gt). lia. Qed.

#[export] Hint Resolve block_size_pos : par.
#[global] Opaque _block_size.

Lemma num_blocks_0 n k : num_blocks n k = 0 <-> n = 0.
Proof. unfold num_blocks. destruct (Nat.eqb_spec n 0); lia. Qed.

Lemma num_blocks_S n k : 0 < n -> num_blocks n k = S ((n - 1) / k).
Proof. intros Hn. unfold num_blocks. destruct (Nat.eqb_spec n 0); lia. Qed.

Lemma num_blocks_lower n k i : 0 < k -> i < num_blocks n k <-> i * k < n.
Proof.
  intros Hk. destruct (decide (n = 0)) as [->|Hn]; [unfold num_blocks; simpl; lia|].
  rewrite num_blocks_S by lia. assert (Hd := Nat.div_mod (n - 1) k ltac:(lia)).
  assert (Hm := Nat.mod_upper_bound (n - 1) k ltac:(lia)). split; intros Hi; nia.
Qed.

Lemma num_blocks_upper n k : 0 < k -> n <= num_blocks n k * k.
Proof. intros Hk. destruct (num_blocks_lower n k (num_blocks n k) Hk) as [_ H]. lia. Qed.

Lemma num_blocks_lt n k : 1 < k -> 1 < n -> num_blocks n k < n.
Proof.
  intros Hk Hn. rewrite num_blocks_S by lia. assert ((n - 1) / k < n - 1); [|lia]. apply Nat.div_lt; lia.
Qed.

Section slices.
Context {T : Type} (k : nat).

(** Block [i] of a list *)
Definition block_of (xs : list T) (i : nat) : list T := slice_of (i * k) ((i * k + k) `min` length xs) xs.

Lemma length_block_of xs i : length (block_of xs i) = (i * k + k) `min` length xs - i * k.
Proof. apply length_slice_of. lia. Qed.

Lemma block_of_take xs i : block_of xs i = take k (drop (i * k) xs).
Proof.
  unfold block_of, slice_of. destruct (decide (i * k + k <= length xs)).
  - f_equal. lia.
  - rewrite !take_ge; [done|rewrite length_drop; lia..].
Qed.

Lemma join_block_of xs i : mjoin (block_of xs <$> seq 0 i) = take (i * k) xs.
Proof.
  induction i as [|i IH]; [done|]. rewrite seq_S, fmap_app, join_app, IH. simpl. rewrite app_nil_r, block_of_take.
  rewrite take_take_drop. f_equal. lia.
Qed.

Lemma Forall_block_of (P : T -> Prop) xs i : Forall P xs -> Forall P (block_of xs i).
Proof. intros HP. rewrite block_of_take. by apply Forall_take, Forall_drop. Qed.

Context (Hk : 0 < k).

Lemma block_of_nonempty xs i : i < num_blocks (length xs) k -> block_of xs i <> [].
Proof using Hk.
  intros Hi%num_blocks_lower; [|done]. intros He. apply (f_equal length) in He. rewrite length_block_of in He. simpl in He. lia.
Qed.

Lemma join_all_blocks xs : mjoin (block_of xs <$> seq 0 (num_blocks (length xs) k)) = xs.
Proof using Hk. rewrite join_block_of. apply take_ge, num_blocks_upper, Hk. Qed.

Lemma offset_block_of xs i : i < num_blocks (length xs) k -> offset (block_of xs) i = i * k.
Proof using Hk.
  intros Hi%num_blocks_lower; [|done]. unfold offset. rewrite join_block_of, length_take. lia.
Qed.
End slices.

Lemma block_of_fmap {A B} k (f : A -> B) xs i : block_of k (f <$> xs) i = f <$> block_of k xs i.
Proof. by rewrite !block_of_take, fmap_take, fmap_drop. Qed.

Lemma shows_block {T} k (r : range T) xs i : r ▷ xs ->
  cut r (i * k) ((i * k + k) `min` range_size r) ▷ block_of k xs i.
Proof. intros Hr. rewrite (shows_size _ _ Hr). apply shows_cut; [done|lia]. Qed.
#[export] Hint Resolve shows_block : par.

(** ** Parallel loops over blocks *)

Lemma sliced_for_ext `{Schedule} {S} n k (f f' : nat -> nat -> nat -> S -> res S) s :
  (forall i s, i < num_blocks n k -> f i (i * k) ((i * k + k) `min` n) s = f' i (i * k) ((i * k + k) `min` n) s) ->
  sliced_for n k f s = sliced_for n k f' s.
Proof. intros Hf. apply parallel_for_ext. intros i s' Hi. apply Hf. lia. Qed.

Section sliced.
Context `{Schedule} {C : Type}.

(** Each iteration writes its block of [zs]. *)
Lemma sliced_for_slices k n o (zs : list C) body a0 : 0 < k -> length zs = n ->
  (forall i a, i < num_blocks n k -> agree (block (o + i * k) (block_of k zs i)) a0 a ->
     body i (i * k) ((i * k + k) `min` n) a = Ok (scatter (block (o + i * k) (block_of k zs i)) a)) ->
  sliced_for n k body a0 = Ok (scatter (block o zs) a0).
Proof.
  intros Hk <- Hb. unfold sliced_for. rewrite (parallel_for_blocks (block_of k zs) _ _ o).
  - by rewrite join_all_blocks.
  - intros i a Hi. rewrite offset_block_of by done. auto.
Qed.

(** Each iteration writes the cell with its number. *)
Lemma sliced_for_cells k n (zs : list C) body a0 : length zs = num_blocks n k ->
  (forall i z a, zs !! i = Some z -> length a = length a0 -> a !! i = a0 !! i ->
     body i (i * k) ((i * k + k) `min` n) a = Ok (<[i := z]> a)) ->
  sliced_for n k body a0 = Ok (scatter (block 0 zs) a0).
Proof. intros Hl Hb. unfold sliced_for. apply parallel_for_cells; [done|]. intros i z a Hz. by apply Hb. Qed.

(** Each iteration writes [ys i] behind what those before it write. *)
Lemma sliced_for_blocks k n o (ys : nat -> list C) body a0 :
  (forall i a, i < num_blocks n k -> agree (block (o + offset ys i) (ys i)) a0 a ->
     body i (i * k) ((i * k + k) `min` n) a = Ok (scatter (block (o + offset ys i) (ys i)) a)) ->
  sliced_for n k body a0 = Ok (scatter (block o (mjoin (ys <$> seq 0 (num_blocks n k)))) a0).
Proof. intros Hb. unfold sliced_for. apply (parallel_for_blocks ys). auto. Qed.
End sliced.

(** ** Maps *)

Section maps.
Context `{Schedule}.

Lemma uninitialized_all {T} (xs : list T) : scatter (block 0 (Some <$> xs)) (uninitialized (length xs)) = Some <$> xs.
Proof. apply scatter_all. by rewrite length_uninitialized, length_fmap. Qed.

Lemma tabulate_eq {T} (ys : list T) n f g : length ys = n ->
  (forall i y, ys !! i = Some y -> f i = Ok y) -> tabulate n f g = Ok (Some <$> ys).
Proof.
  intros <- Hf. unfold tabulate, from_function. rewrite (parallel_for_cells (Some <$> ys) _ _ 0).
  - by rewrite uninitialized_all.
  - by rewrite length_fmap.
  - intros i z a Hz Hl _. apply list_lookup_fmap_Some in Hz as (y & -> & Hy). rewrite (Hf _ _ Hy). simpl.
    apply assign_eq. rewrite Hl, length_uninitialized. by eapply lookup_lt_Some.
Qed.

(** [map] returns the sequence of the images, for every schedule. *)
Lemma map_eq {A B} (r : range A) xs (f : A -> B) g :
  r ▷ xs -> map r f g = Ok (Some <$> (f <$> xs)).
Proof.
  intros Hr. apply tabulate_eq; [by rewrite length_fmap, (shows_size _ _ Hr)|]. intros i y Hy.
  apply list_lookup_fmap_Some in Hy as (x & -> & Hx). by rewrite (shows_get _ _ _ _ Hr Hx).
Qed.
End maps.

(** ** Reductions *)

Section reductions.
Context `{Schedule} {T : Type} (m : monoid T) (D : T -> Prop) (g : T -> T -> T) `{!Semigroup m D g}.

Lemma reduce_serial_eq A x xs : A ▷ (x :: xs) -> Forall D (x :: xs) -> reduce_serial m A = Ok (foldl g x xs).
Proof using Semigroup0.
  intros HA [Hx Hxs]%Forall_cons. unfold reduce_serial. rewrite (shows_size _ _ HA). simpl.
  rewrite (shows_get A (x :: xs) 0 x) by done. simpl. apply ok_exact.
  eapply ok_mono; [apply (ok_for (fun i r => r = foldl g x (take (i - 1) xs)))|].
  - lia.
  - done.
  - intros i r Hi ->. destruct (lookup_lt_is_Some_2 xs (i - 1)) as [y Hy]; [lia|].
    assert ((x :: xs) !! i = Some y) as Hy' by (destruct i; [lia|]; simpl in *; by rewrite Nat.sub_0_r in Hy).
    rewrite (shows_get _ _ _ _ HA Hy'). simpl. eapply ok_eq; [apply (op_eq (D := D))|].
    + eapply foldl_closed; [done..|]. by apply Forall_take.
    + rewrite Forall_forall in Hxs. by eapply Hxs, list_elem_of_lookup_2.
    + replace (i + 1 - 1) with (S (i - 1)) by lia. by rewrite (take_S_r _ _ _ Hy), foldl_app.
  - intros r ->. simpl. by rewrite Nat.sub_0_r, firstn_all.
Qed.

Lemma block_sums k xs : 0 < k -> Forall D xs -> exists sums,
  length sums = num_blocks (length xs) k /\ Forall D sums /\ fold1 g sums = fold1 g xs /\
  (forall i s, sums !! i = Some s -> exists x ys, block_of k xs i = x :: ys /\ s = foldl g x ys) /\
  (forall i, i < num_blocks (length xs) k -> fold1 g (take i sums) = fold1 g (take (i * k) xs)).
Proof using Semigroup0.
  intros Hk HD.
  assert (forall j, j <= num_blocks (length xs) k -> exists sums, mapM (fold1 g) (block_of k xs <$> seq 0 j) = Some sums /\
    Forall D sums /\ length sums = j /\ fold1 g sums = fold1 g (take (j * k) xs)) as Hj.
  { intros j Hj. rewrite <- join_block_of. destruct (fold1_blocks m D g (block_of k xs <$> seq 0 j)) as (ys & ? & ? & Hl & ?).
    - apply Forall_fmap, Forall_forall. intros i [_ Hi]%elem_of_seq. apply block_of_nonempty; [done|lia].
    - apply Forall_fmap, Forall_forall. intros i _. by apply Forall_block_of.
    - exists ys. rewrite Hl, length_fmap, length_seq. done. }
  destruct (Hj (num_blocks (length xs) k)) as (sums & Hs & HDs & Hl & Hf); [done|].
  exists sums. rewrite Hf, Hl, take_ge by (by apply num_blocks_upper). repeat split; [done| |].
  - intros i s Hi. apply mapM_Some in Hs. rewrite Forall2_fmap_l in Hs.
    destruct (Forall2_lookup_r _ _ _ _ _ Hs Hi) as (i' & Hi' & Hb). apply lookup_seq in Hi' as [-> _].
    simpl in Hb. destruct (block_of k xs i) as [|x ys]; [done|]. injection Hb as <-. by exists x, ys.
  - intros i Hi. destruct (Hj i) as (sums' & Hs' & _ & Hl' & <-); [lia|]. f_equal.
    apply mapM_Some in Hs. apply (Forall2_take _ _ _ i) in Hs. rewrite <- fmap_take, take_seq in Hs.
    replace (i `min` num_blocks (length xs) k) with i in Hs by lia. apply mapM_Some in Hs. congruence.
Qed.

(** The loop that reduces the blocks *)
Lemma reduce_blocks k A xs (body : nat -> nat -> nat -> array T -> res (array T)) : 0 < k -> A ▷ xs -> Forall D xs ->
  (forall i s e sums, body i s e sums = (x ← reduce_serial m (cut A s e); assign_uninitialized sums i x)) ->
  exists sums, sliced_for (length xs) k body (uninitialized (num_blocks (length xs) k)) = Ok (Some <$> sums) /\
    length sums = num_blocks (length xs) k /\ Forall D sums /\ fold1 g sums = fold1 g xs /\
    (forall i, i < num_blocks (length xs) k -> fold1 g (take i sums) = fold1 g (take (i * k) xs)).
Proof using Semigroup0.
  intros Hk HA HD Hbody. destruct (block_sums k xs Hk HD) as (sums & Hl & HDs & Hf & Hs & Ht).
  exists sums. split; [|done]. rewrite <- Hl, <- uninitialized_all. apply sliced_for_cells; [by rewrite length_fmap|].
  intros i z a Hz Hla _. apply list_lookup_fmap_Some in Hz as (s & -> & Hsi). rewrite Hbody.
  destruct (Hs _ _ Hsi) as (x & ys & Hb & ->).
  assert (Hsh := shows_block k A xs i HA). rewrite (shows_size _ _ HA), Hb in Hsh.
  rewrite (reduce_serial_eq _ x ys); [|done|rewrite <- Hb; by apply Forall_block_of].
  apply assign_eq. rewrite Hla, length_uninitialized. by eapply lookup_lt_Some.
Qed.

Lemma reduce_fuel_eq fuel A xs fl r : A ▷ xs -> Forall D xs -> length xs < fuel -> fold1 g xs = Some r ->
  reduce_fuel m fuel A fl = Ok r.
Proof using Semigroup0.
  revert A xs fl. induction fuel as [|fuel IH]; intros A xs fl HA HD Hl Hr; [lia|].
  cbn [reduce_fuel]. rewrite (shows_size _ _ HA).
  assert (0 < length xs) as Hn by (destruct xs; [done|simpl; lia]).
  set (k := _block_size `max` (4 * Nat.sqrt_up (length xs))).
  assert (1 < k) as Hk by (assert (Hb := block_size_gt); lia).
  destruct (Nat.eqb_spec (num_blocks (length xs) k) 0) as [H0|H0]; [apply num_blocks_0 in H0; lia|].
  destruct (Nat.eqb_spec (num_blocks (length xs) k) 1) as [H1|H1]; simpl.
  { destruct xs as [|x xs]; [done|]. injection Hr as <-. by apply reduce_serial_eq. }
  destruct (flag_set fl fl_sequential).
  { destruct xs as [|x xs]; [done|]. injection Hr as <-. by apply reduce_serial_eq. }
  destruct (reduce_blocks k A xs (fun i s e sums => x ← reduce_serial m (cut A s e); assign_uninitialized sums i x))
    as (sums & -> & Hls & HDs & Hf & _); [lia|done..|].
  simpl. apply (IH _ sums); [apply shows_of_array|done| |by rewrite Hf].
  rewrite Hls. assert (num_blocks (length xs) k < length xs); [|lia]. apply num_blocks_lt; [done|].
  destruct (decide (length xs = 1)) as [He|]; [|lia]. rewrite He, num_blocks_S in H1 by lia. 
  rewrite Nat.div_small in H1 by lia. lia.
Qed.

(** [reduce] of a nonempty range combines its elements from left to right, for every
    associative operator and every schedule; of the empty range it is the identity. *)
Lemma reduce_eq A xs fl : A ▷ xs -> Forall D xs ->
  reduce m A fl = Ok (match fold1 g xs with Some r => r | None => identity m end).
Proof using Semigroup0.
  intros HA HD. unfold reduce. destruct xs as [|x xs].
  - rewrite (shows_size _ _ HA). cbn [length Nat.add reduce_fuel]. by rewrite (shows_size _ _ HA).
  - simpl. eapply reduce_fuel_eq; [done..| |done]. rewrite (shows_size _ _ HA). lia.
Qed.
End reductions.

(** ** Scans *)

(** The results of a scan that starts at [r] *)
Definition scans {T} (inclusive : bool) (g : T -> T -> T) (r : T) (xs : list T) : list T :=
  (fun i => foldl g r (take (if inclusive then S i else i) xs)) <$> seq 0 (length xs).

Lemma length_scans {T} b (g : T -> T -> T) r xs : length (scans b g r xs) = length xs.
Proof. unfold scans. by rewrite length_fmap, length_seq. Qed.

Lemma lookup_scans {T} b (g : T -> T -> T) r xs i : i < length xs ->
  scans b g r xs !! i = Some (foldl g r (take (if b then S i else i) xs)).
Proof. intros Hi. unfold scans. by rewrite list_lookup_fmap, lookup_seq_lt. Qed.

Lemma scans_drop {T} b (g : T -> T -> T) r xs s :
  scans b g (foldl g r (take s xs)) (drop s xs) = drop s (scans b g r xs).
Proof.
  apply list_eq. intros i. rewrite lookup_drop. destruct (decide (s + i < length xs)) as [Hi|Hi].
  - rewrite !lookup_scans by (rewrite ?length_drop; lia). f_equal. rewrite <- foldl_app, take_take_drop. do 2 f_equal.
    destruct b; lia.
  - rewrite !lookup_ge_None_2; rewrite ?length_scans, ?length_drop; [done|lia..].
Qed.

Lemma scans_take {T} b (g : T -> T -> T) r xs k : scans b g r (take k xs) = take k (scans b g r xs).
Proof.
  apply list_eq. intros i. destruct (decide (i < k /\ i < length xs)) as [[Hi Hx]|Hi].
  - rewrite lookup_take_lt, !lookup_scans by (rewrite ?length_take; lia). f_equal. rewrite take_take. do 2 f_equal.
    destruct b; lia.
  - rewrite !lookup_ge_None_2; [done|rewrite ?length_take, ?length_scans; rewrite ?length_take; lia..].
Qed.

(** A loop that writes one cell after the other *)
Lemma scatter_snoc {C} o (zs : list C) z i a :
  zs !! i = Some z -> <[o + i := z]> (scatter (block o (take i zs)) a) = scatter (block o (take (i + 1) zs)) a.
Proof.
  intros Hz. rewrite Nat.add_1_r, (take_S_r _ _ _ Hz), block_app, scatter_app. simpl.
  rewrite length_take_le; [done|]. apply lookup_lt_Some in Hz. lia.
Qed.

Lemma scatter_take {C} o (zs : list C) i a :
  scatter (block o (take i zs)) a !! (o + i) = a !! (o + i).
Proof.
  apply scatter_ne. rewrite block_keys. intros Hi%elem_of_seq. rewrite length_take in Hi. lia.
Qed.

Section scan_spec.
Context `{Schedule} {T : Type} (m : monoid T) (D : T -> Prop) (g : T -> T -> T).

(** [In] shows [xs] while the cells from [o] on are those of [a] that are still to be overwritten. *)
Definition input (In : array T -> range T) (o : nat) (xs : list T) (a : array T) : Prop :=
  forall a', length a' = length a -> range_size (In a') = length xs /\
    forall i x, xs !! i = Some x -> a' !! (o + i) = a !! (o + i) -> subscript (In a') i = Ok x.

Lemma input_other In o xs a : In ▷ xs -> input (fun _ => In) o xs a.
Proof. intros HIn a' _. split; [by apply shows_size|]. intros i x Hx _. by eapply shows_get. Qed.

Lemma input_self o xs a : (forall i x, xs !! i = Some x -> a !! (o + i) = Some (Some x)) ->
  input (fun a => cut (of_array a) o (o + length xs)) o xs a.
Proof.
  intros Ha a' Hl. split; [simpl; lia|]. intros i x Hx He. simpl. apply get_eq. rewrite He. by apply Ha.
Qed.

Lemma input_whole xs : input of_array 0 xs (Some <$> xs).
Proof.
  intros a' Hl. split; [simpl; by rewrite Hl, length_fmap|]. intros i x Hx He. apply get_eq. simpl in He.
  by rewrite He, list_lookup_fmap, Hx.
Qed.

Definition writable (out_uninitialized : bool) (o n : nat) (a : array T) : Prop :=
  o + n <= length a /\ (out_uninitialized = false -> forall i, i < n -> exists x, a !! (o + i) = Some (Some x)).

Lemma writable_whole b xs : writable b 0 (length xs) (Some <$> xs).
Proof.
  split; [by rewrite length_fmap|]. intros _ i Hi. destruct (lookup_lt_is_Some_2 xs i Hi) as [x Hx]. exists x.
  simpl. by rewrite list_lookup_fmap, Hx.
Qed.

Lemma writable_uninitialized n : writable true 0 n (uninitialized n).
Proof. split; [by rewrite length_uninitialized|done]. Qed.

Lemma put_eq b o n a a' i x : writable b o n a -> length a' = length a -> i < n -> a' !! (o + i) = a !! (o + i) ->
  put b a' (o + i) x = Ok (<[o + i := Some x]> a').
Proof.
  intros [Hl Hw] Ha' Hi He. unfold put. destruct b; [apply assign_eq; lia|].
  destruct (Hw eq_refl i Hi) as [y Hy]. unfold assign. by rewrite (get_eq _ _ y) by (by rewrite He).
Qed.

Lemma scan_serial_eq `{!Semigroup m D g} In o offset fl b a xs :
  input In o xs a -> D offset -> Forall D xs -> writable b o (length xs) a ->
  scan_serial m In o offset fl b a =
    Ok (foldl g offset xs, scatter (block o (Some <$> scans (flag_set fl fl_scan_inclusive) g offset xs)) a).
Proof using Type.
  intros HIn Hoff HD Hw. set (incl := flag_set fl fl_scan_inclusive). set (zs := Some <$> scans incl g offset xs).
  unfold scan_serial. fold incl. destruct (HIn a eq_refl) as [Hn _]. rewrite Hn.
  pose (I i (st : T * array T) := st.1 = foldl g offset (take i xs) /\ st.2 = scatter (block o (take i zs)) a).
  assert (forall st, I (length xs) st -> st = (foldl g offset xs, scatter (block o zs) a)) as HI.
  { intros [r a'] [Hr Ha]. simpl in *. subst. rewrite firstn_all. do 2 f_equal.
    by rewrite take_ge by (unfold zs; rewrite length_fmap, length_scans; lia). }
  assert (forall i a', i < length xs -> a' = scatter (block o (take i zs)) a -> exists x,
    xs !! i = Some x /\ D x /\ subscript (In a') i = Ok x /\ (forall z, put b a' (o + i) z = Ok (<[o + i := Some z]> a')) /\
    take (i + 1) xs = take i xs ++ [x]) as Hstep.
  { intros i a' Hi Ha'. destruct (lookup_lt_is_Some_2 xs i Hi) as [x Hx]. exists x.
    assert (length a' = length a) as Hl by (subst a'; apply length_scatter).
    assert (a' !! (o + i) = a !! (o + i)) as He by (subst a'; apply scatter_take).
    repeat split; [done|..].
    - rewrite Forall_forall in HD. by eapply HD, list_elem_of_lookup_2.
    - by apply HIn.
    - intros z. by eapply put_eq.
    - rewrite Nat.add_1_r. by apply take_S_r. }
  assert (forall i, i < length xs -> zs !! i = Some (Some (foldl g offset (take (if incl then S i else i) xs)))) as Hz.
  { intros i Hi. unfold zs. by rewrite list_lookup_fmap, lookup_scans. }
  assert (forall i, D (foldl g offset (take i xs))) as HDr.
  { intros i. eapply foldl_closed; [done..|]. by apply Forall_take. }
  apply ok_exact. destruct incl; (eapply ok_mono; [apply (ok_for I)|exact HI]; [lia|done|]); intros i [r a'] [_ Hi] [Hr Ha];
    simpl in Hr, Ha; destruct (Hstep i a' Hi Ha) as (x & Hx & HDx & Hg & Hp & Ht); rewrite Hg; simpl.
  - rewrite (op_eq (D := D)) by (subst; done). simpl. rewrite Hp. simpl. apply ok_ret. split; simpl.
    + by rewrite Ht, foldl_app, Hr.
    + subst. apply scatter_snoc. rewrite Hz by done. by rewrite <- Nat.add_1_r, Ht, foldl_app.
  - rewrite Hp. simpl. rewrite (op_eq (D := D)) by (subst; done). apply ok_ret. split; simpl.
    + by rewrite Ht, foldl_app, Hr.
    + subst. apply scatter_snoc. by rewrite Hz.
Qed.

Lemma block_of_scans k incl r xs i :
  block_of k (scans incl g r xs) i = scans incl g (foldl g r (take (i * k) xs)) (block_of k xs i).
Proof. by rewrite !block_of_take, scans_take, scans_drop. Qed.

Lemma agree_block {C} o (zs : list C) (a a' : list C) j :
  agree (block o zs) a a' -> j < length zs -> a' !! (o + j) = a !! (o + j).
Proof. intros [_ Ha] Hj. apply Ha. rewrite block_keys. apply elem_of_seq. lia. Qed.

Lemma input_agree In o xs a a' : input In o xs a -> length a' = length a ->
  (forall j, j < length xs -> a' !! (o + j) = a !! (o + j)) -> input In o xs a'.
Proof.
  intros HIn Hl Ha a2 Hl2. destruct (HIn a2) as [Hn Hx]; [congruence|]. split; [done|].
  intros i x Hi He. apply Hx; [done|]. rewrite He. apply Ha. by eapply lookup_lt_Some.
Qed.

Lemma input_block k In o xs a i : input In o xs a ->
  input (fun a => cut (In a) (i * k) ((i * k + k) `min` length xs)) (o + i * k) (block_of k xs i) a.
Proof.
  intros HIn a' Hl. destruct (HIn a' Hl) as [Hn Hx]. split; [simpl; by rewrite length_block_of|].
  intros j x Hj He. simpl. apply Hx.
  - unfold block_of in Hj. assert (Hlt := lookup_lt_Some _ _ _ Hj). rewrite length_slice_of in Hlt by lia.
    by rewrite lookup_slice_of in Hj.
  - by rewrite Nat.add_assoc.
Qed.

Lemma writable_block b k o (xs : list T) a a' i : writable b o (length xs) a -> length a' = length a ->
  i < num_blocks (length xs) k -> 0 < k ->
  (forall j, j < length (block_of k xs i) -> a' !! (o + i * k + j) = a !! (o + i * k + j)) ->
  writable b (o + i * k) (length (block_of k xs i)) a'.
Proof.
  intros [Hl Hw] Hl' Hi Hk Ha. apply num_blocks_lower in Hi; [|done]. rewrite length_block_of in *. split; [lia|]. intros Hb j Hj.
  rewrite Ha, <- Nat.add_assoc by done. apply Hw; [done|lia].
Qed.

(** The blocks are scanned from the sums of those before them. *)
Lemma scan_blocks `{!Semigroup m D g} k In o fl b a xs offs :
  0 < k -> input In o xs a -> D offs -> Forall D xs -> writable b o (length xs) a ->
  sliced_for (length xs) k (fun i s e a =>
    '(_, a) ← scan_serial m (fun a => cut (In a) s e) (o + s) (foldl g offs (take s xs)) fl b a; Ok a) a
  = Ok (scatter (block o (Some <$> scans (flag_set fl fl_scan_inclusive) g offs xs)) a).
Proof using Type.
  intros Hk HIn HD0 HD Hw. apply sliced_for_slices; [done|by rewrite length_fmap, length_scans|].
  intros i a' Hi Ha. rewrite block_of_fmap, block_of_scans in *.
  assert (forall j, j < length (block_of k xs i) -> a' !! (o + i * k + j) = a !! (o + i * k + j)) as Ha'.
  { intros j Hj. eapply agree_block; [done|]. by rewrite length_fmap, length_scans. }
  rewrite (scan_serial_eq _ _ _ _ _ _ (block_of k xs i)); [done|..].
  - eapply input_agree; [by apply input_block|apply Ha|done].
  - eapply foldl_closed; [done..|]. by apply Forall_take.
  - by apply Forall_block_of.
  - eapply writable_block; [done|apply Ha|done..].
Qed.

Lemma fold1_identity `{!MonoidLaws m D g} xs ys : Forall D xs -> Forall D ys -> fold1 g xs = fold1 g ys ->
  foldl g (identity m) xs = foldl g (identity m) ys.
Proof using Type.
  intros Hxs Hys. rewrite !(foldl_identity m D g) by done. destruct xs, ys; intros; congruence.
Qed.

Lemma scan__eq `{!MonoidLaws m D g} In o fl b a xs : input In o xs a -> Forall D xs -> writable b o (length xs) a ->
  scan_ m In o fl b a =
    Ok (foldl g (identity m) xs, scatter (block o (Some <$> scans (flag_set fl fl_scan_inclusive) g (identity m) xs)) a).
Proof using Type.
  intros HIn HD Hw. assert (HDi := identity_closed (m := m) (D := D) (g := g)).
  unfold scan_. destruct (HIn a eq_refl) as [Hn Hx]. rewrite Hn.
  destruct ((num_blocks (length xs) _block_size <=? 2) || flag_set fl fl_sequential); [by apply scan_serial_eq|].
  edestruct (reduce_blocks m D g _block_size (In a) xs) as (sums & -> & Hl & HDs & Hf & Ht);
    [apply block_size_pos|split; [done|intros; by apply Hx]|done|done|].
  simpl. rewrite (scan_serial_eq _ _ _ _ _ _ sums); [|..].
  - simpl. assert (flag_set 0%Z fl_scan_inclusive = false) as -> by done.
    rewrite scatter_all by (by rewrite !length_fmap, length_scans).
    erewrite (fold1_identity sums xs) by done.
    erewrite (sliced_for_ext _ _ _ (fun i s e a =>
      '(_, a) ← scan_serial m (fun a => cut (In a) s e) (o + s) (foldl g (identity m) (take s xs)) fl b a; Ok a)).
    + rewrite (scan_blocks _block_size In o fl b a xs (identity m)) by (done || apply block_size_pos). done.
    + intros i a' Hi. erewrite get_eq; [done|]. rewrite list_lookup_fmap, lookup_scans by lia. simpl. do 2 f_equal.
      apply fold1_identity; [by apply Forall_take..|]. by apply Ht.
  - apply input_whole.
  - done.
  - done.
  - apply writable_whole.
Qed.

Lemma scan_inplace_eq `{!MonoidLaws m D g} lo hi fl a xs : hi = lo + length xs ->
  (forall i x, xs !! i = Some x -> a !! (lo + i) = Some (Some x)) -> hi <= length a -> Forall D xs ->
  scan_inplace m lo hi fl a =
    Ok (foldl g (identity m) xs, scatter (block lo (Some <$> scans (flag_set fl fl_scan_inclusive) g (identity m) xs)) a).
Proof using Type.
  intros -> Ha Hl HD. apply scan__eq; [by apply input_self|done|]. split; [done|]. intros _ i Hi.
  destruct (lookup_lt_is_Some_2 xs i Hi) as [x Hx]. exists x. by apply Ha.
Qed.

Lemma scan_eq `{!MonoidLaws m D g} In fl xs : In ▷ xs -> Forall D xs ->
  scan m In fl =
    Ok (Some <$> scans (flag_set fl fl_scan_inclusive) g (identity m) xs, foldl g (identity m) xs).
Proof using Type.
  intros HIn HD. unfold scan. rewrite (shows_size _ _ HIn).
  rewrite (scan__eq _ 0 _ _ _ xs); [|by apply input_other|done|apply writable_uninitialized]. simpl.
  by rewrite scatter_all by (by rewrite length_uninitialized, length_fmap, length_scans).
Qed.

Lemma scan_move_eq `{!MonoidLaws m D g} fl xs : Forall D xs ->
  scan_move m (Some <$> xs) fl =
    Ok (Some <$> scans (flag_set fl fl_scan_inclusive) g (identity m) xs, foldl g (identity m) xs).
Proof using Type.
  intros HD. unfold scan_move. rewrite (scan__eq _ 0 _ _ _ xs); [|apply input_whole|done|apply writable_whole]. simpl.
  by rewrite scatter_all by (by rewrite !length_fmap, length_scans).
Qed.
End scan_spec.

(** ** Packs *)

Fixpoint packed {T} (xs : list T) (bs : list bool) : list T :=
  match xs, bs with
  | x :: xs, b :: bs => if b : bool then x :: packed xs bs else packed xs bs
  | _, _ => []
  end.

Definition count_true (bs : list bool) : nat := list_sum (Nat.b2n <$> bs).

Lemma count_true_cons b bs : count_true (b :: bs) = Nat.b2n b + count_true bs.
Proof. done. Qed.

Lemma packed_app {T} (xs xs' : list T) bs bs' : length xs = length bs ->
  packed (xs ++ xs') (bs ++ bs') = packed xs bs ++ packed xs' bs'.
Proof.
  revert bs. induction xs as [|x xs IH]; intros [|b bs] Hl; try done. simpl in *. rewrite IH by lia. by destruct b.
Qed.

Lemma length_packed {T} (xs : list T) bs : length xs = length bs -> length (packed xs bs) = count_true bs.
Proof.
  revert bs. induction xs as [|x xs IH]; intros [|b bs] Hl; try done. simpl in Hl. specialize (IH bs ltac:(lia)).
  rewrite count_true_cons. destruct b; simpl; lia.
Qed.

Lemma count_true_app bs bs' : count_true (bs ++ bs') = count_true bs + count_true bs'.
Proof. unfold count_true. by rewrite fmap_app, list_sum_app. Qed.

Lemma count_true_le bs : count_true bs <= length bs.
Proof. induction bs as [|b bs IH]; [done|]. rewrite count_true_cons. destruct b; simpl; lia. Qed.

Lemma count_true_take i bs : count_true (take i bs) <= count_true bs.
Proof. rewrite <- (take_drop i bs) at 2. rewrite count_true_app. lia. Qed.

Lemma count_true_take_S bs i b : bs !! i = Some b ->
  count_true (take (i + 1) bs) = count_true (take i bs) + Nat.b2n b.
Proof.
  intros Hb. rewrite Nat.add_1_r, (take_S_r _ _ _ Hb), count_true_app. f_equal. unfold count_true. simpl. lia.
Qed.

Lemma size_t_le x y : x <= y -> size_t y -> size_t x.
Proof. unfold size_t, u64. lia. Qed.

Lemma packed_fmap {A} (f : A -> bool) xs : packed xs (f <$> xs) = base.filter f xs.
Proof.
  induction xs as [|x xs IH]; [done|]. rewrite fmap_cons, filter_cons. cbn [packed]. rewrite IH.
  destruct (f x); [by rewrite decide_True|by rewrite decide_False by (by intros [])].
Qed.

Section packs.
Context `{Schedule} {T : Type}.

Lemma sum_bools_serial_eq I bs : I ▷ bs -> size_t (length bs) -> sum_bools_serial I = Ok (count_true bs).
Proof.
  intros HI Hs. unfold sum_bools_serial. rewrite (shows_size _ _ HI). apply ok_exact.
  eapply ok_mono; [apply (ok_for (fun i r => r = count_true (take i bs)))|]; [lia|done| |intros r ->; by rewrite firstn_all].
  intros i r [_ Hi] ->. destruct (lookup_lt_is_Some_2 bs i Hi) as [b Hb]. rewrite (shows_get _ _ _ _ HI Hb). simpl.
  apply ok_ret. rewrite (count_true_take_S _ _ _ Hb). apply size_add_small. rewrite <- (count_true_take_S _ _ _ Hb).
  eapply size_t_le, Hs. etrans; [apply count_true_take|apply count_true_le].
Qed.

(** One iteration of the loops that pack *)
Lemma packed_take (xs : list T) (bs : list bool) i x (b : bool) : length xs = length bs -> xs !! i = Some x -> bs !! i = Some b ->
  packed (take (i + 1) xs) (take (i + 1) bs) = packed (take i xs) (take i bs) ++ (if b then [x] else []) /\
  count_true (take (i + 1) bs) = count_true (take i bs) + Nat.b2n b.
Proof.
  intros Hl Hx Hb. rewrite Nat.add_1_r, (take_S_r _ _ _ Hx), (take_S_r _ _ _ Hb), packed_app
    by (rewrite !length_take; lia).
  split; [by destruct b|]. by rewrite <- (count_true_take_S _ _ _ Hb), Nat.add_1_r, (take_S_r _ _ _ Hb).
Qed.

Lemma pack_loop (In : range T) Fl xs bs o a : In ▷ xs -> Fl ▷ bs -> length xs = length bs -> o + count_true bs <= length a ->
  for_ 0 (length xs) (fun i '(k, a) =>
    b ← subscript Fl i;
    if (b : bool) then x ← subscript In i; a ← assign_uninitialized a (o + k) x; Ok (k + 1, a) else Ok (k, a)) (0, a)
  = Ok (count_true bs, scatter (block o (Some <$> packed xs bs)) a).
Proof.
  intros HIn HFl Hl Ho. apply ok_exact.
  eapply ok_mono; [apply (ok_for (fun i (st : nat * array T) => st.1 = count_true (take i bs) /\
    st.2 = scatter (block o (Some <$> packed (take i xs) (take i bs))) a))|]; [lia|done| |].
  - intros i [k a'] [_ Hi] [Hk Ha]. simpl in Hk, Ha.
    destruct (lookup_lt_is_Some_2 xs i Hi) as [x Hx]. destruct (lookup_lt_is_Some_2 bs i) as [b Hb]; [lia|].
    destruct (packed_take xs bs i x b Hl Hx Hb) as [Hp Hc]. rewrite (shows_get _ _ _ _ HFl Hb). simpl.
    destruct b; [|apply ok_ret; simpl; rewrite Hp, Hc, app_nil_r; split; [simpl; lia|done]].
    rewrite (shows_get _ _ _ _ HIn Hx). simpl in *.
    assert (Hle := count_true_take (i + 1) bs). rewrite assign_eq by (subst; rewrite length_scatter; lia).
    apply ok_ret. simpl. split; [lia|]. subst. rewrite Hp, fmap_app, block_app, scatter_app. simpl. do 2 f_equal.
    rewrite length_fmap, length_packed; [done|]. rewrite !length_take. lia.
  - intros [k a'] [Hk Ha]. simpl in *. subst k a'. by rewrite Hl, firstn_all, <- Hl, firstn_all.
Qed.

Lemma pack_serial_at_eq (In : range T) Fl xs bs o a :
  In ▷ xs -> Fl ▷ bs -> length xs = length bs -> o + count_true bs <= length a ->
  pack_serial_at In Fl o a = Ok (count_true bs, scatter (block o (Some <$> packed xs bs)) a).
Proof. intros HIn HFl Hl Ho. unfold pack_serial_at. rewrite (shows_size _ _ HIn). by apply pack_loop. Qed.

Lemma pack_serial_eq (In : range T) Fl xs bs : In ▷ xs -> Fl ▷ bs -> length xs = length bs -> size_t (length xs) ->
  pack_serial In Fl = Ok (Some <$> packed xs bs).
Proof.
  intros HIn HFl Hl Hs. unfold pack_serial. rewrite (sum_bools_serial_eq _ _ HFl) by (by rewrite <- Hl). simpl.
  rewrite (shows_size _ _ HIn). assert (Hp := pack_loop In Fl xs bs 0 (uninitialized (count_true bs)) HIn HFl Hl).
  simpl in Hp. rewrite Hp by (by rewrite length_uninitialized). simpl.
  by rewrite <- (length_packed xs bs Hl), uninitialized_all.
Qed.

(** Where the output of each block begins *)
Definition starts (k : nat) (bs : list bool) : list nat :=
  (fun i => count_true (take (i * k) bs)) <$> seq 0 (num_blocks (length bs) k).
Definition counts (k : nat) (bs : list bool) : list nat :=
  (fun i => count_true (block_of k bs i)) <$> seq 0 (num_blocks (length bs) k).

Lemma sum_counts k bs i : i <= num_blocks (length bs) k -> list_sum (take i (counts k bs)) = count_true (take (i * k) bs).
Proof.
  intros Hi. unfold counts. rewrite <- fmap_take, take_seq. replace (i `min` _) with i by lia. clear Hi.
  induction i as [|i IH]; [done|]. rewrite seq_S, fmap_app, list_sum_app, IH. simpl. rewrite Nat.add_0_r.
  rewrite block_of_take, (Nat.add_comm k), <- take_take_drop, count_true_app. done.
Qed.

Lemma length_counts k bs : length (counts k bs) = num_blocks (length bs) k.
Proof. unfold counts. by rewrite length_fmap, length_seq. Qed.

Lemma scan_counts k bs : 0 < k -> size_t (length bs) ->
  scan_inplace plus_size 0 (num_blocks (length bs) k) no_flag (Some <$> counts k bs) = Ok (count_true bs, Some <$> starts k bs).
Proof.
  intros Hk Hs.
  assert (Forall size_t (counts k bs)) as HD.
  { apply Forall_fmap, Forall_forall. intros i _. simpl. eapply size_t_le, Hs.
    assert (Hc := count_true_le (block_of k bs i)). rewrite length_block_of in Hc. lia. }
  assert (forall i, i <= num_blocks (length bs) k -> foldl size_add 0 (take i (counts k bs)) = count_true (take (i * k) bs)) as Hf.
  { intros i Hi. assert (size_t (count_true (take (i * k) bs))) as Hc.
    { eapply size_t_le; [|exact Hs]. etrans; [apply count_true_take|apply count_true_le]. }
    rewrite foldl_size_add; rewrite sum_counts; done. }
  rewrite (scan_inplace_eq plus_size size_t size_add 0 _ _ _ (counts k bs)).
  - simpl. assert (flag_set no_flag fl_scan_inclusive = false) as -> by done.
    rewrite scatter_all by (by rewrite !length_fmap, length_scans). f_equal. f_equal.
    + rewrite <- (firstn_all (counts k bs)), Hf, length_counts, take_ge by (rewrite ?length_counts; auto using num_blocks_upper). done.
    + f_equal. apply list_eq. intros i. destruct (decide (i < num_blocks (length bs) k)) as [Hi|Hi].
      * rewrite lookup_scans, Hf by (rewrite ?length_counts; lia). unfold starts. by rewrite list_lookup_fmap, lookup_seq_lt.
      * rewrite !lookup_ge_None_2; [done|unfold starts; rewrite length_fmap, length_seq; lia|rewrite length_scans, length_counts; lia].
  - simpl. by rewrite length_counts.
  - intros i x Hx. simpl. by rewrite list_lookup_fmap, Hx.
  - rewrite length_fmap, length_counts. done.
  - done.
Qed.

Lemma packed_block k (xs : list T) bs i : length xs = length bs ->
  packed (take (i * k) xs) (take (i * k) bs) ++ packed (block_of k xs i) (block_of k bs i) =
  packed (take (S i * k) xs) (take (S i * k) bs).
Proof.
  intros Hl. rewrite <- packed_app by (rewrite !length_take; lia). rewrite !block_of_take, !take_take_drop.
  do 2 f_equal; lia.
Qed.

Lemma join_packed k (xs : list T) bs i : length xs = length bs ->
  mjoin ((fun i => Some <$> packed (block_of k xs i) (block_of k bs i)) <$> seq 0 i) =
  Some <$> packed (take (i * k) xs) (take (i * k) bs).
Proof.
  intros Hl. induction i as [|i IH]; [done|]. rewrite seq_S, fmap_app, join_app, IH. simpl. rewrite app_nil_r.
  by rewrite <- fmap_app, packed_block.
Qed.

Lemma offset_packed k (xs : list T) bs i : length xs = length bs ->
  offset (fun i => Some <$> packed (block_of k xs i) (block_of k bs i)) i = count_true (take (i * k) bs).
Proof.
  intros Hl. unfold offset. rewrite join_packed, length_fmap, length_packed by (rewrite ?length_take; lia). done.
Qed.

Lemma lookup_starts k bs i : i < num_blocks (length bs) k ->
  (Some <$> starts k bs) !! i = Some (Some (count_true (take (i * k) bs))).
Proof. intros Hi. rewrite list_lookup_fmap. unfold starts. by rewrite list_lookup_fmap, lookup_seq_lt. Qed.

Lemma pack_blocks_eq (In : range T) Fl xs bs o a : In ▷ xs -> Fl ▷ bs -> length xs = length bs ->
  o + count_true bs <= length a ->
  pack_blocks In Fl o (Some <$> starts _block_size bs) (count_true bs) a = Ok (scatter (block o (Some <$> packed xs bs)) a).
Proof.
  intros HIn HFl Hl Ho. assert (Hk := block_size_pos). unfold pack_blocks. rewrite (shows_size _ _ HIn), Hl.
  rewrite (sliced_for_blocks _ _ o (fun i => Some <$> packed (block_of _block_size xs i) (block_of _block_size bs i))).
  { rewrite join_packed by done. rewrite !take_ge by (rewrite ?Hl; auto using num_blocks_upper). done. }
  intros i a' Hi Ha.
  rewrite offset_packed in * by done. unfold out_slice.
  rewrite (get_eq _ i _ (lookup_starts _ _ _ Hi)). simpl.
  assert (ok (if i =? num_blocks (length bs) _block_size - 1 then Ok (count_true bs) else get (Some <$> starts _block_size bs) (i + 1))
    (fun _ => True)) as (e & -> & _).
  { destruct (Nat.eqb_spec i (num_blocks (length bs) _block_size - 1)); [by apply ok_ret|].
    eapply ok_eq; [|done]. apply get_eq, lookup_starts. lia. }
  simpl. rewrite (pack_serial_at_eq _ _ (block_of _block_size xs i) (block_of _block_size bs i)); [done|..].
  - rewrite <- Hl, <- (shows_size _ _ HIn). by apply shows_block.
  - rewrite <- (shows_size _ _ HFl). by apply shows_block.
  - rewrite !length_block_of. lia.
  - destruct Ha as [-> _]. etrans; [|exact Ho]. rewrite <- Nat.add_assoc, <- count_true_app.
    rewrite block_of_take, take_take_drop. assert (Ht := count_true_take (i * _block_size + _block_size) bs). lia.
Qed.

(** The loop that counts the flags of each block *)
Lemma count_blocks Fl bs a (body : nat -> nat -> nat -> array nat -> res (array nat)) :
  Fl ▷ bs -> size_t (length bs) -> length a = num_blocks (length bs) _block_size ->
  (forall i s e a' c, i < length a -> length a' = length a -> a' !! i = a !! i ->
     sum_bools_serial (cut Fl s e) = Ok c -> body i s e a' = Ok (<[i := Some c]> a')) ->
  sliced_for (length bs) _block_size body a = Ok (Some <$> counts _block_size bs).
Proof.
  intros HFl Hs Hla Hb. rewrite (sliced_for_cells _ _ (Some <$> counts _block_size bs)).
  - f_equal. apply scatter_all. by rewrite length_fmap, length_counts.
  - by rewrite length_fmap, length_counts.
  - intros i z a' Hz Hl Ha. apply list_lookup_fmap_Some in Hz as (c & -> & Hc). apply Hb; [|done..|].
    + rewrite Hla, <- length_counts. by eapply lookup_lt_Some.
    + unfold counts in Hc. apply list_lookup_fmap_Some in Hc as (j & -> & Hj). apply lookup_seq in Hj as [-> Hj].
      apply sum_bools_serial_eq; [rewrite <- (shows_size _ _ HFl); by apply shows_block|].
      eapply size_t_le, Hs. rewrite length_block_of. lia.
Qed.

Lemma pack_eq (In : range T) Fl xs bs fl : In ▷ xs -> Fl ▷ bs -> length xs = length bs -> size_t (length xs) ->
  pack In Fl fl = Ok (Some <$> packed xs bs).
Proof.
  intros HIn HFl Hl Hs. unfold pack. destruct (_ || _); [by apply pack_serial_eq|].
  rewrite (shows_size _ _ HIn), Hl in *. rewrite (count_blocks Fl bs); [|done|done|by rewrite length_uninitialized|].
  - simpl. rewrite scan_counts by (done || apply block_size_pos). simpl.
    rewrite (pack_blocks_eq _ _ xs bs); [|done..|by rewrite length_uninitialized].
    by rewrite <- (length_packed xs bs), uninitialized_all.
  - intros i s e a' c Hi Hla _ ->. simpl. apply assign_eq. by rewrite Hla.
Qed.

Lemma pack_out_eq (In : range T) Fl xs bs o fl a : In ▷ xs -> Fl ▷ bs -> length xs = length bs -> size_t (length xs) ->
  o + count_true bs <= length a ->
  pack_out In Fl o fl a = Ok (count_true bs, scatter (block o (Some <$> packed xs bs)) a).
Proof.
  intros HIn HFl Hl Hs Ho. unfold pack_out. rewrite (shows_size _ _ HIn), Hl in *. destruct (_ || _).
  { apply pack_serial_at_eq; [done| |done..]. assert (Hc := shows_cut Fl bs 0 (length bs) HFl ltac:(lia)).
    unfold slice_of in Hc. rewrite drop_0, Nat.sub_0_r, firstn_all in Hc. done. }
  rewrite (count_blocks Fl bs); [|done|done|by rewrite length_replicate|].
  - simpl. rewrite scan_counts by (done || apply block_size_pos). simpl. by rewrite (pack_blocks_eq _ _ xs bs).
  - intros i s e a' c Hi Hla Ha ->. simpl. unfold assign. rewrite length_replicate in Hi.
    erewrite get_eq; [done|]. rewrite Ha. by apply lookup_replicate_2.
Qed.
End packs.

(** ** Filters *)

Section filters.
Context `{Schedule}.

(** Loops over blocks that write their block of one array and a cell of another *)
Lemma sliced_for_slices_cells {C D} k n (zs : list C) (cs : list D) body a0 b0 : 0 < k ->
  length zs = n -> length cs = num_blocks n k ->
  (forall i c a b, cs !! i = Some c -> agree (block (i * k) (block_of k zs i)) a0 a -> length b = length b0 -> b !! i = b0 !! i ->
     body i (i * k) ((i * k + k) `min` n) (a, b) = Ok (scatter (block (i * k) (block_of k zs i)) a, <[i := c]> b)) ->
  sliced_for n k body (a0, b0) = Ok (scatter (block 0 zs) a0, scatter (block 0 cs) b0).
Proof.
  intros Hk <- Hl Hb. unfold sliced_for.
  rewrite (parallel_for_scatter2 (fun i => block (0 + offset (block_of k zs) i) (block_of k zs i))
    (fun i => block (0 + offset (fun j => take 1 (drop j cs)) i) (take 1 (drop i cs)))).
  - rewrite Nat.sub_0_r, !join_blocks, join_all_blocks, join_singletons by done. by rewrite take_ge by lia.
  - intros i a b [_ Hi] Ha [Hlb Hcb]. destruct (lookup_lt_is_Some_2 cs i) as [c Hc]; [lia|].
    assert (offset (fun j => take 1 (drop j cs)) i = i) as Ho.
    { unfold offset. rewrite join_singletons, length_take. lia. }
    rewrite offset_block_of, Ho, (drop_S _ _ _ Hc) in * by done. cbn [take] in *. rewrite take_0 in *. simpl in *.
    apply Hb; [done..|]. apply Hcb. by left.
  - rewrite Nat.sub_0_r, join_blocks, block_keys. apply NoDup_seq.
  - rewrite Nat.sub_0_r, join_blocks, block_keys. apply NoDup_seq.
Qed.

Lemma filter_flags_eq {A} (In : range A) (f : A -> bool) xs i a b : In ▷ xs -> size_t (length xs) ->
  i * _block_size <= length xs ->
  agree (block (i * _block_size) (Some <$> (f <$> block_of _block_size xs i))) (replicate (length xs) (Some false)) a ->
  (exists c, b !! i = Some (Some c)) ->
  filter_flags In f i (i * _block_size) ((i * _block_size + _block_size) `min` length xs) (a, b) =
  Ok (scatter (block (i * _block_size) (Some <$> (f <$> block_of _block_size xs i))) a,
      <[i := Some (count_true (f <$> block_of _block_size xs i))]> b).
Proof.
  intros HIn Hs Hi Ha [c Hb]. set (s := i * _block_size) in *. set (ys := block_of _block_size xs i) in *.
  set (e := (s + _block_size) `min` length xs).
  assert (length ys = e - s) as Hys by apply length_block_of.
  assert (count_true (f <$> ys) <= length xs) as Hc.
  { etrans; [apply count_true_le|]. rewrite length_fmap, Hys. unfold e. lia. }
  unfold filter_flags.
  assert (for_ s e (fun j '(r, Fl) =>
    x ← subscript In j; Fl ← assign Fl j (f x); Ok (size_add r (Nat.b2n (f x)), Fl)) (0, a) =
    Ok (count_true (f <$> ys), scatter (block s (Some <$> (f <$> ys))) a)) as ->.
  { apply ok_exact. eapply ok_mono; [apply (ok_for (fun j (st : nat * array bool) =>
      st.1 = count_true (take (j - s) (f <$> ys)) /\ st.2 = scatter (block s (take (j - s) (Some <$> (f <$> ys)))) a))|].
    - unfold e. lia.
    - simpl. by rewrite Nat.sub_diag.
    - intros j [r a'] Hj [Hr Ha']. simpl in Hr, Ha'. destruct (lookup_lt_is_Some_2 ys (j - s)) as [y Hy]; [lia|].
      assert (xs !! j = Some y) as Hxy.
      { unfold ys in Hy. rewrite block_of_take, lookup_take_lt, lookup_drop in Hy by (unfold e in Hj; lia).
        unfold s in *. by replace (i * _block_size + (j - i * _block_size)) with j in Hy by lia. }
      rewrite (shows_get _ _ _ _ HIn Hxy). simpl.
      assert (get a' j = Ok false) as Hg.
      { apply get_eq. subst a'. replace j with (s + (j - s)) at 1 by lia. rewrite scatter_take.
        rewrite (agree_block _ _ _ _ (j - s) Ha) by (rewrite !length_fmap; lia).
        apply lookup_replicate_2. unfold e in Hj. lia. }
      unfold assign. rewrite Hg. simpl. apply ok_ret. simpl. replace (j + 1 - s) with (j - s + 1) by lia.
      assert ((f <$> ys) !! (j - s) = Some (f y)) as Hfy by by rewrite list_lookup_fmap, Hy. split.
      + subst r. rewrite (count_true_take_S _ _ _ Hfy). apply size_add_small. rewrite <- (count_true_take_S _ _ _ Hfy).
        eapply size_t_le, Hs. etrans; [apply count_true_take|done].
      + subst a'. replace j with (s + (j - s)) at 1 by lia. apply scatter_snoc. by rewrite list_lookup_fmap, Hfy.
    - intros [r a'] [Hr Ha']. simpl in *. subst. rewrite !take_ge by (rewrite !length_fmap; lia). done. }
  simpl. unfold assign. by rewrite (get_eq _ _ _ Hb).
Qed.

(** The counting phase of the filters *)
Lemma filter_count {A} (In : range A) (f : A -> bool) xs : In ▷ xs -> size_t (length xs) ->
  sliced_for (length xs) _block_size (filter_flags In f)
    (replicate (length xs) (Some false), replicate (num_blocks (length xs) _block_size) (Some 0)) =
  Ok (Some <$> (f <$> xs), Some <$> counts _block_size (f <$> xs)).
Proof.
  intros HIn Hs. rewrite (sliced_for_slices_cells _ _ (Some <$> (f <$> xs)) (Some <$> counts _block_size (f <$> xs))).
  - rewrite !scatter_all; [done|by rewrite length_replicate, length_fmap, length_counts, length_fmap|
      by rewrite length_replicate, !length_fmap].
  - apply block_size_pos.
  - by rewrite !length_fmap.
  - by rewrite length_fmap, length_counts, length_fmap.
  - intros i c a b Hc Ha Hlb Hb. rewrite !block_of_fmap in *.
    assert (i < num_blocks (length xs) _block_size) as Hi.
    { apply lookup_lt_Some in Hc. by rewrite length_fmap, length_counts, length_fmap in Hc. }
    assert (c = Some (count_true (f <$> block_of _block_size xs i))) as ->.
    { apply list_lookup_fmap_Some in Hc as (n & -> & Hn). unfold counts in Hn.
      apply list_lookup_fmap_Some in Hn as (j & -> & Hj). apply lookup_seq in Hj as [-> _]. by rewrite block_of_fmap. }
    apply filter_flags_eq; [done..| |done|].
    + apply num_blocks_lower in Hi; [lia|apply block_size_pos].
    + exists 0. rewrite Hb. by apply lookup_replicate_2.
Qed.

Lemma packed_perm {T} (xs : list T) bs : length bs = length xs -> packed xs (negb <$> bs) ++ packed xs bs ≡ₚ xs.
Proof.
  revert bs. induction xs as [|x xs IH]; intros [|b bs] Hl; try done. rewrite fmap_cons. cbn [packed]. simpl in Hl.
  destruct b; simpl; [rewrite <- Permutation_middle|]; f_equiv; apply IH; lia.
Qed.

Lemma packed_map {A B} (g : A -> B) xs bs : packed (g <$> xs) bs = g <$> packed xs bs.
Proof. revert bs. induction xs as [|x xs IH]; intros [|b bs]; try done. rewrite fmap_cons. cbn [packed]. rewrite IH. by destruct b. Qed.

Lemma filter_map_eq {A B} (In : range A) (f : A -> bool) (g : A -> B) xs : In ▷ xs -> size_t (length xs) ->
  filter_map In f g = Ok (Some <$> (g <$> base.filter f xs)).
Proof.
  intros HIn Hs. unfold filter_map. rewrite (shows_size _ _ HIn), filter_count by done. cbn [mbind res_bind].
  assert (length (f <$> xs) = length xs) as Hlf by apply length_fmap.
  rewrite <- Hlf at 1. rewrite scan_counts by (rewrite ?Hlf; done || apply block_size_pos). cbn [mbind res_bind].
  rewrite (pack_blocks_eq _ _ (g <$> xs) (f <$> xs)); [|..|by rewrite length_uninitialized].
  - rewrite <- (length_packed (g <$> xs) (f <$> xs)), uninitialized_all by (by rewrite !length_fmap).
    by rewrite packed_map, packed_fmap.
  - assert (Hd := shows_map In g xs HIn). unfold delayed_map in Hd. by rewrite (shows_size _ _ HIn) in Hd.
  - apply shows_of_array.
  - by rewrite !length_fmap.
Qed.

Lemma filter_eq {A} (In : range A) (f : A -> bool) xs : In ▷ xs -> size_t (length xs) ->
  filter In f = Ok (Some <$> base.filter f xs).
Proof. intros HIn Hs. unfold filter. rewrite (filter_map_eq _ _ _ xs) by done. by rewrite list_fmap_id. Qed.

Lemma filter_out_eq {A} (In : range A) (f : A -> bool) xs o a : In ▷ xs -> size_t (length xs) ->
  o + length (base.filter f xs) <= length a ->
  filter_out In o f a = Ok (length (base.filter f xs), scatter (block o (Some <$> base.filter f xs)) a).
Proof.
  intros HIn Hs Ho. unfold filter_out. rewrite (shows_size _ _ HIn), filter_count by done. cbn [mbind res_bind].
  assert (length (f <$> xs) = length xs) as Hlf by apply length_fmap.
  rewrite <- Hlf at 1. rewrite scan_counts by (rewrite ?Hlf; done || apply block_size_pos). cbn [mbind res_bind].
  rewrite <- packed_fmap, length_packed in * by done.
  rewrite (pack_blocks_eq _ _ xs (f <$> xs)); [done|done|apply shows_of_array|done|done].
Qed.

(** The indices of the true flags *)
Lemma pack_index_eq (Fl : range bool) bs fl : Fl ▷ bs -> size_t (length bs) ->
  pack_index Fl fl = Ok (Some <$> packed (seq 0 (length bs)) bs).
Proof.
  intros HFl Hs. unfold pack_index. rewrite (shows_size _ _ HFl). apply pack_eq; [|done|by rewrite length_seq|by rewrite length_seq].
  split; [by rewrite length_seq|]. intros i x Hx. apply lookup_seq in Hx as [-> _]. done.
Qed.
End filters.

(** ** Splits *)

Definition is0 (c : nat) : bool := c =? 0.
Definition is1 (c : nat) : bool := c =? 1.
Definition is2 (c : nat) : bool := negb (is0 c || is1 c).

Lemma count_classes cs : count_true (is0 <$> cs) + count_true (is1 <$> cs) + count_true (is2 <$> cs) = length cs.
Proof.
  induction cs as [|c cs IH]; [done|]. rewrite !fmap_cons, !count_true_cons. cbn [length].
  destruct c as [|[|c]]; cbn [is0 is1 is2 Nat.eqb orb negb Nat.b2n]; lia.
Qed.

Section splits.
Context `{Schedule}.

Lemma count_true_fmap_S (f : nat -> bool) cs i c : cs !! i = Some c ->
  count_true (f <$> take (i + 1) cs) = count_true (f <$> take i cs) + Nat.b2n (f c).
Proof. intros Hc. rewrite !fmap_take. apply count_true_take_S. by rewrite list_lookup_fmap, Hc. Qed.

Lemma lookup_block k {T} (xs : list T) i j x : block_of k xs i !! j = Some x -> xs !! (i * k + j) = Some x.
Proof.
  intros Hx. unfold block_of in Hx. assert (Hlt := lookup_lt_Some _ _ _ Hx). rewrite length_slice_of in Hlt by lia.
  by rewrite lookup_slice_of in Hx.
Qed.

(** A loop over a block, stated over the block's elements *)
Lemma for_block {T S} (I : nat -> S -> Prop) k (xs : list T) i (body : nat -> S -> res S) s :
  i < num_blocks (length xs) k -> 0 < k -> I 0 s ->
  (forall j x s, block_of k xs i !! j = Some x -> xs !! (i * k + j) = Some x -> I j s -> ok (body (i * k + j) s) (I (j + 1))) ->
  ok (for_ (i * k) ((i * k + k) `min` length xs) body s) (I (length (block_of k xs i))).
Proof.
  intros Hi Hk HI Hb. apply num_blocks_lower in Hi; [|done]. assert (Hlen := length_block_of k xs i).
  eapply ok_mono; [apply (ok_for (fun j => I (j - i * k)))|].
  - lia.
  - by rewrite Nat.sub_diag.
  - intros j s' Hj HI'. destruct (lookup_lt_is_Some_2 (block_of k xs i) (j - i * k)) as [x Hx]; [lia|].
    replace (body j) with (body (i * k + (j - i * k))) by (f_equal; lia). replace (j + 1 - i * k) with (j - i * k + 1) by lia.
    apply (Hb _ x); [done|by apply lookup_block|done].
  - intros s'. by rewrite Hlen.
Qed.

Lemma sliced_for_cells2 {C D} k n (ys : list C) (zs : list D) body a0 b0 :
  length ys = num_blocks n k -> length zs = num_blocks n k ->
  (forall i y z a b, ys !! i = Some y -> zs !! i = Some z -> length a = length a0 -> a !! i = a0 !! i ->
     length b = length b0 -> b !! i = b0 !! i ->
     body i (i * k) ((i * k + k) `min` n) (a, b) = Ok (<[i := y]> a, <[i := z]> b)) ->
  sliced_for n k body (a0, b0) = Ok (scatter (block 0 ys) a0, scatter (block 0 zs) b0).
Proof.
  intros Hy Hz Hb. unfold sliced_for.
  rewrite (parallel_for_scatter2 (fun i => block (0 + offset (fun j => take 1 (drop j ys)) i) (take 1 (drop i ys)))
    (fun i => block (0 + offset (fun j => take 1 (drop j zs)) i) (take 1 (drop i zs)))).
  - rewrite Nat.sub_0_r, !join_blocks, !join_singletons. by rewrite !take_ge by lia.
  - intros i a b [_ Hi] [Hla Hca] [Hlb Hcb]. destruct (lookup_lt_is_Some_2 ys i) as [y Hyi]; [lia|].
    destruct (lookup_lt_is_Some_2 zs i) as [z Hzi]; [lia|].
    assert (forall X (l : list X), length l = num_blocks n k -> offset (fun j => take 1 (drop j l)) i = i) as Ho.
    { intros X l Hl. unfold offset. rewrite join_singletons, length_take. lia. }
    rewrite !Ho, (drop_S _ _ _ Hyi), (drop_S _ _ _ Hzi) in * by done. cbn [take] in *. rewrite !take_0 in *. simpl in *.
    apply Hb; [done..|apply Hca; by left|done|apply Hcb; by left].
  - rewrite Nat.sub_0_r, join_blocks, block_keys. apply NoDup_seq.
  - rewrite Nat.sub_0_r, join_blocks, block_keys. apply NoDup_seq.
Qed.

Lemma lookup_counts k bs i c : counts k bs !! i = Some c -> i < num_blocks (length bs) k /\ c = count_true (block_of k bs i).
Proof.
  intros Hc. unfold counts in Hc. apply list_lookup_fmap_Some in Hc as (j & -> & Hj). by apply lookup_seq in Hj as [-> ?].
Qed.

Lemma count_three_eq Fl cs : Fl ▷ cs ->
  sliced_for (length cs) _block_size (count_three Fl)
    (replicate (num_blocks (length cs) _block_size) (Some 0), replicate (num_blocks (length cs) _block_size) (Some 0)) =
  Ok (Some <$> counts _block_size (is0 <$> cs), Some <$> counts _block_size (is1 <$> cs)).
Proof.
  intros HFl. rewrite (sliced_for_cells2 _ _ (Some <$> counts _block_size (is0 <$> cs)) (Some <$> counts _block_size (is1 <$> cs))).
  - by rewrite !scatter_all by (by rewrite length_replicate, length_fmap, length_counts, length_fmap).
  - by rewrite length_fmap, length_counts, length_fmap.
  - by rewrite length_fmap, length_counts, length_fmap.
  - intros i y z a b Hy Hz Hla Ha Hlb Hb.
    apply list_lookup_fmap_Some in Hy as (n0 & -> & [Hi ->]%lookup_counts).
    apply list_lookup_fmap_Some in Hz as (n1 & -> & [_ ->]%lookup_counts). rewrite length_fmap, !block_of_fmap in *.
    unfold count_three.
    assert (for_ (i * _block_size) ((i * _block_size + _block_size) `min` length cs) (fun j '(c0, c1) =>
      c ← subscript Fl j; if c =? 0 then Ok (c0 + 1, c1) else if c =? 1 then Ok (c0, c1 + 1) else Ok (c0, c1)) (0, 0) =
      Ok (count_true (is0 <$> block_of _block_size cs i), count_true (is1 <$> block_of _block_size cs i))) as ->.
    { apply ok_exact. eapply ok_mono; [apply (for_block (fun j (st : nat * nat) =>
        st = (count_true (is0 <$> take j (block_of _block_size cs i)), count_true (is1 <$> take j (block_of _block_size cs i)))))|].
      - done.
      - apply block_size_pos.
      - done.
      - intros j c st Hc Hcs ->. rewrite (shows_get _ _ _ _ HFl Hcs). simpl. rewrite !(count_true_fmap_S _ _ _ _ Hc).
        unfold is0, is1. destruct (Nat.eqb_spec c 0) as [->|]; [|destruct (Nat.eqb_spec c 1)]; apply ok_ret; simpl; f_equal; lia.
      - intros st ->. by rewrite firstn_all. }
    simpl. unfold assign. rewrite (get_eq a i 0) by (rewrite Ha; by apply lookup_replicate_2). simpl.
    by rewrite (get_eq b i 0) by (rewrite Hb; by apply lookup_replicate_2).
Qed.

(** The three output streams of a block: [z c] are the elements of the class [c]. *)
Definition class_of {T} (f : nat -> bool) (xs : list T) (cs : list nat) : list T := packed xs (f <$> cs).

Definition streams {T} (o c0 c1 c2 : nat) (xs : list T) (cs : list nat) : list (nat * option T) :=
  block (o + c0) (Some <$> class_of is0 xs cs) ++ block (o + c1) (Some <$> class_of is1 xs cs) ++
  block (o + c2) (Some <$> class_of is2 xs cs).

Lemma class_of_take {T} f (xs : list T) cs j x c : length xs = length cs -> xs !! j = Some x -> cs !! j = Some c ->
  class_of f (take (j + 1) xs) (take (j + 1) cs) = class_of f (take j xs) (take j cs) ++ (if f c then [x] else []).
Proof.
  intros Hl Hx Hc. unfold class_of. rewrite !fmap_take.
  destruct (packed_take xs (f <$> cs) j x (f c)) as [-> _]; [by rewrite length_fmap|done|by rewrite list_lookup_fmap, Hc|done].
Qed.

Lemma length_class_of {T} f (xs : list T) cs : length xs = length cs -> length (class_of f xs cs) = count_true (f <$> cs).
Proof. intros Hl. apply length_packed. by rewrite length_fmap. Qed.

(** One more element for one of the streams *)
Lemma block_snoc {C} o (zs : list C) z a : scatter (block o (zs ++ [z])) a = <[o + length zs := z]> (scatter (block o zs) a).
Proof. by rewrite block_app, scatter_app. Qed.

Lemma streams_snoc {T} o c0 c1 c2 (xs : list T) cs j x c a : length xs = length cs -> xs !! j = Some x -> cs !! j = Some c ->
  c0 + count_true (is0 <$> cs) <= c1 -> c1 + count_true (is1 <$> cs) <= c2 ->
  scatter (streams o c0 c1 c2 (take (j + 1) xs) (take (j + 1) cs)) a =
  <[o + (if is0 c then c0 + count_true (is0 <$> take j cs) else if is1 c then c1 + count_true (is1 <$> take j cs)
         else c2 + count_true (is2 <$> take j cs)) := Some x]> (scatter (streams o c0 c1 c2 (take j xs) (take j cs)) a).
Proof.
  intros Hl Hx Hc H0 H1. unfold streams. rewrite !(class_of_take _ _ _ _ _ _ Hl Hx Hc), !fmap_app, !scatter_app.
  assert (length (take j xs) = length (take j cs)) as Hlt by (rewrite !length_take; lia).
  assert (forall f, count_true (f <$> take j cs) + Nat.b2n (f c) <= count_true (f <$> cs)) as Hn.
  { intros f. rewrite <- (count_true_fmap_S _ _ _ _ Hc), fmap_take. apply count_true_take. }
  assert (H0' := Hn is0). assert (H1' := Hn is1). destruct (is0 c) eqn:E0; [|destruct (is1 c) eqn:E1].
  - assert (is1 c = false) as -> by (unfold is0, is1 in *; destruct (Nat.eqb_spec c 0) as [->|]; done).
    assert (is2 c = false) as -> by (unfold is2; by rewrite E0). rewrite !app_nil_r. cbn [fmap list_fmap].
    rewrite block_snoc, length_fmap, length_class_of by done. rewrite !Nat.add_assoc. 
    rewrite !scatter_insert; [done|rewrite block_keys, length_fmap, length_class_of by done; rewrite elem_of_seq; simpl in *; lia..].
  - assert (is2 c = false) as -> by (unfold is2; by rewrite E0, E1). rewrite !app_nil_r. cbn [fmap list_fmap].
    rewrite block_snoc, length_fmap, length_class_of by done. rewrite !Nat.add_assoc.
    rewrite !scatter_insert; [done|rewrite block_keys, length_fmap, length_class_of by done; rewrite elem_of_seq; simpl in *; lia..].
  - assert (is2 c = true) as -> by (unfold is2; by rewrite E0, E1). rewrite !app_nil_r. cbn [fmap list_fmap].
    by rewrite block_snoc, length_fmap, length_class_of, !Nat.add_assoc.
Qed.

(** The second loop of [split_three] over one block *)
Lemma split_loop {T} (In : range T) Fl o xs cs i c0 c1 c2 a : In ▷ xs -> Fl ▷ cs -> length xs = length cs ->
  i < num_blocks (length xs) _block_size ->
  c0 + count_true (is0 <$> block_of _block_size cs i) <= c1 -> c1 + count_true (is1 <$> block_of _block_size cs i) <= c2 ->
  o + c2 + count_true (is2 <$> block_of _block_size cs i) <= length a ->
  ok (for_ (i * _block_size) ((i * _block_size + _block_size) `min` length xs) (fun j '(c0, c1, c2, a) =>
      c ← subscript Fl j; x ← subscript In j;
      if c =? 0 then a ← assign_uninitialized a (o + c0) x; Ok (c0 + 1, c1, c2, a)
      else if c =? 1 then a ← assign_uninitialized a (o + c1) x; Ok (c0, c1 + 1, c2, a)
      else a ← assign_uninitialized a (o + c2) x; Ok (c0, c1, c2 + 1, a)) (c0, c1, c2, a))
    (fun st => st.2 = scatter (streams o c0 c1 c2 (block_of _block_size xs i) (block_of _block_size cs i)) a).
Proof.
  intros HIn HFl Hl Hi H0 H1 H2. set (ys := block_of _block_size xs i) in *. set (ds := block_of _block_size cs i) in *.
  assert (length ys = length ds) as Hl' by (unfold ys, ds; rewrite !length_block_of; lia).
  eapply ok_mono; [apply (for_block (fun j (st : nat * nat * nat * array T) =>
    st = (c0 + count_true (is0 <$> take j ds), c1 + count_true (is1 <$> take j ds), c2 + count_true (is2 <$> take j ds),
          scatter (streams o c0 c1 c2 (take j ys) (take j ds)) a)))|].
  - done.
  - apply block_size_pos.
  - unfold count_true. simpl. tuple_eq.
  - intros j x st Hx Hxs ->. fold ys in Hx. destruct (lookup_lt_is_Some_2 ds j) as [c Hc].
    { rewrite <- Hl'. by eapply lookup_lt_Some. }
    rewrite (shows_get _ _ _ _ HFl (lookup_block _ _ _ _ _ Hc)). simpl. rewrite (shows_get _ _ _ _ HIn Hxs). simpl.
    rewrite (streams_snoc _ _ _ _ ys ds j x c), !(count_true_fmap_S _ _ _ _ Hc) by done.
    assert (forall f, count_true (f <$> take j ds) + Nat.b2n (f c) <= count_true (f <$> ds)) as Hn.
    { intros f. rewrite <- (count_true_fmap_S _ _ _ _ Hc), fmap_take. apply count_true_take. }
    assert (Hn0 := Hn is0). assert (Hn1 := Hn is1). assert (Hn2 := Hn is2). unfold is2 in *.
    change (c =? 0) with (is0 c). change (c =? 1) with (is1 c).
    destruct (is0 c) eqn:E0; [|destruct (is1 c) eqn:E1]; simpl in *.
    + assert (is1 c = false) as -> by (unfold is0, is1 in *; destruct (Nat.eqb_spec c 0) as [->|]; done).
      rewrite assign_eq by (rewrite length_scatter; lia). apply ok_ret. simpl. tuple_eq.
    + rewrite assign_eq by (rewrite length_scatter; lia). apply ok_ret. simpl. tuple_eq.
    + rewrite assign_eq by (rewrite length_scatter; lia). apply ok_ret. simpl. tuple_eq.
  - intros st. rewrite !take_ge by (unfold ys, ds in *; lia). by intros ->.
Qed.

Lemma join_app_perm {X Y} (A B : X -> list Y) l : mjoin ((fun i => A i ++ B i) <$> l) ≡ₚ mjoin (A <$> l) ++ mjoin (B <$> l).
Proof. induction l as [|i l IH]; [done|]. simpl. rewrite IH. solve_Permutation. Qed.

(** What all iterations write *)
Lemma join_streams {T} o m0 m1 k (xs : list T) cs : 0 < k -> length xs = length cs ->
  let z f i := Some <$> class_of f (block_of k xs i) (block_of k cs i) in
  mjoin ((fun i => streams o (offset (z is0) i) (m0 + offset (z is1) i) (m0 + m1 + offset (z is2) i)
    (block_of k xs i) (block_of k cs i)) <$> seq 0 (num_blocks (length xs) k)) ≡ₚ
  streams o 0 m0 (m0 + m1) xs cs.
Proof.
  intros Hk Hl z.
  assert (forall f o', mjoin ((fun i => block (o' + offset (z f) i) (z f i)) <$> seq 0 (num_blocks (length xs) k)) =
    block o' (Some <$> class_of f xs cs)) as Hz.
  { intros f o'. rewrite join_blocks. f_equal. unfold z, class_of.
    rewrite (list_fmap_ext _ (fun i => Some <$> packed (block_of k xs i) (block_of k (f <$> cs) i))).
    - rewrite join_packed by (by rewrite length_fmap). rewrite !take_ge; [done|..]; rewrite ?length_fmap, <- ?Hl; by apply num_blocks_upper.
    - intros i j _. by rewrite block_of_fmap. }
  unfold streams. rewrite !join_app_perm. rewrite Nat.add_0_r. repeat f_equiv.
  - by rewrite <- (Hz is0 o).
  - rewrite <- (Hz is1 (o + m0)). apply reflexive_eq. f_equal. apply list_fmap_ext. intros i j _. f_equal. unfold z. lia.
  - rewrite <- (Hz is2 (o + (m0 + m1))). apply reflexive_eq. f_equal. apply list_fmap_ext. intros i j _. f_equal. unfold z. lia.
Qed.

Lemma streams_all {T} o (xs : list T) cs : length xs = length cs ->
  streams o 0 (count_true (is0 <$> cs)) (count_true (is0 <$> cs) + count_true (is1 <$> cs)) xs cs =
  block o (Some <$> (class_of is0 xs cs ++ class_of is1 xs cs ++ class_of is2 xs cs)).
Proof.
  intros Hl. unfold streams. rewrite !fmap_app, !block_app, !length_fmap, !length_class_of by done.
  by rewrite Nat.add_0_r, Nat.add_assoc.
Qed.

Lemma offset_class {T} f k (xs : list T) cs i : length xs = length cs ->
  offset (fun i => Some <$> class_of f (block_of k xs i) (block_of k cs i)) i = count_true (take (i * k) (f <$> cs)).
Proof.
  intros Hl. rewrite <- (offset_packed k xs) by (by rewrite length_fmap). unfold offset, class_of. f_equal. f_equal.
  apply list_fmap_ext. intros j ? _. by rewrite block_of_fmap.
Qed.

Lemma split_three_eq {T} (In : range T) o Fl xs cs a : In ▷ xs -> Fl ▷ cs -> length xs = length cs ->
  size_t (length xs) -> o + length xs <= length a ->
  split_three In o Fl a =
    Ok ((count_true (is0 <$> cs), count_true (is1 <$> cs)),
        scatter (block o (Some <$> (class_of is0 xs cs ++ class_of is1 xs cs ++ class_of is2 xs cs))) a).
Proof.
  intros HIn HFl Hl Hs Ho. assert (Hk := block_size_pos). unfold split_three.
  rewrite (shows_size _ _ HIn), Hl, count_three_eq by done. cbn [mbind res_bind].
  assert (forall f : nat -> bool, length (f <$> cs) = length cs) as Hlf by (intros; apply length_fmap).
  rewrite <- (Hlf is0) at 1. rewrite scan_counts by (rewrite ?Hlf, <- ?Hl; done). cbn [mbind res_bind].
  rewrite <- (Hlf is1) at 1. rewrite scan_counts by (rewrite ?Hlf, <- ?Hl; done). cbn [mbind res_bind].
  set (m0 := count_true (is0 <$> cs)). set (m1 := count_true (is1 <$> cs)).
  pose (z f i := Some <$> class_of (T := T) f (block_of _block_size xs i) (block_of _block_size cs i)).
  assert (Hperm := join_streams o m0 m1 _block_size xs cs Hk Hl). cbv zeta in Hperm. fold z in Hperm.
  assert (Hst := streams_all o xs cs Hl). fold m0 m1 in Hst.
  unfold sliced_for. rewrite (parallel_for_scatter (fun i => streams o (offset (z is0) i) (m0 + offset (z is1) i)
    (m0 + m1 + offset (z is2) i) (block_of _block_size xs i) (block_of _block_size cs i))).
  - rewrite Nat.sub_0_r, <- Hl. cbn [mbind res_bind]. do 2 f_equal. rewrite <- Hst. apply scatter_perm, Hperm.
    rewrite Hperm, Hst, block_keys. apply NoDup_seq.
  - intros i a' [_ Hi] [Hla _]. unfold z. rewrite !offset_class by done.
    assert (forall f : nat -> bool, i < num_blocks (length (f <$> cs)) _block_size) as Hi' by (intros; by rewrite Hlf).
    rewrite (get_eq _ _ _ (lookup_starts _ _ _ (Hi' is0))), (get_eq _ _ _ (lookup_starts _ _ _ (Hi' is1))). cbn [mbind res_bind].
    assert (Hcl := count_classes (take (i * _block_size) cs)).
    rewrite length_take_le in Hcl by (apply num_blocks_lower in Hi; [lia|done]). rewrite !fmap_take in Hcl.
    replace (i * _block_size - count_true (take (i * _block_size) (is0 <$> cs)) - count_true (take (i * _block_size) (is1 <$> cs)))
      with (count_true (take (i * _block_size) (is2 <$> cs))) by lia.
    assert (forall f : nat -> bool, count_true (take (i * _block_size) (f <$> cs)) + count_true (f <$> block_of _block_size cs i)
      <= count_true (f <$> cs)) as Hc.
    { intros f. rewrite <- block_of_fmap, <- count_true_app, block_of_take, take_take_drop. apply count_true_take. }
    assert (Hall := count_classes cs). fold m0 m1 in Hall.
    destruct (split_loop In Fl o xs cs i (count_true (take (i * _block_size) (is0 <$> cs)))
      (m0 + count_true (take (i * _block_size) (is1 <$> cs)))
      (m0 + m1 + count_true (take (i * _block_size) (is2 <$> cs))) a') as ([[[? ?] ?] a2] & Hloop & Ha2);
      [done..|by rewrite Hl|specialize (Hc is0); fold m0 in Hc; lia|specialize (Hc is1); fold m1 in Hc; lia|
       specialize (Hc is2); lia|].
    rewrite Hl in Hloop. rewrite Hloop. simpl in *. by rewrite Ha2.
  - rewrite Nat.sub_0_r, <- Hl, Hperm, Hst, block_keys. apply NoDup_seq.
Qed.

(** [split_two] writes what [split_three] writes for the classes 0 and 1. *)
Lemma split_two_loop {T} (In : range T) Fl s e c0 c1 c2 (a : array T) :
  for_ s e (fun j '(c0, c1, Out) =>
      b ← subscript Fl j; x ← subscript In j;
      if negb b then Out ← assign_uninitialized Out c0 x; Ok (c0 + 1, c1, Out)
      else Out ← assign_uninitialized Out c1 x; Ok (c0, c1 + 1, Out)) (c0, c1, a) =
  (st ← for_ s e (fun j '(c0, c1, c2, a) =>
      c ← subscript (delayed_map Fl Nat.b2n) j; x ← subscript In j;
      if c =? 0 then a ← assign_uninitialized a (0 + c0) x; Ok (c0 + 1, c1, c2, a)
      else if c =? 1 then a ← assign_uninitialized a (0 + c1) x; Ok (c0, c1 + 1, c2, a)
      else a ← assign_uninitialized a (0 + c2) x; Ok (c0, c1, c2 + 1, a)) (c0, c1, c2, a);
   Ok (st.1.1, st.2)).
Proof.
  unfold for_. apply (run_sim (fun st : nat * nat * nat * array T => (st.1.1, st.2)) (seq s (e - s))
    (fun j '(c0, c1, c2, a) => c ← subscript (delayed_map Fl Nat.b2n) j; x ← subscript In j;
      if c =? 0 then a ← assign_uninitialized a (0 + c0) x; Ok (c0 + 1, c1, c2, a)
      else if c =? 1 then a ← assign_uninitialized a (0 + c1) x; Ok (c0, c1 + 1, c2, a)
      else a ← assign_uninitialized a (0 + c2) x; Ok (c0, c1, c2 + 1, a)) _ (c0, c1, c2, a)).
  intros j [[[k0 k1] k2] b] _. simpl. destruct (subscript Fl j) as [[]|]; simpl; [| |done];
    (destruct (subscript In j); simpl; [|done]).
  - by destruct (assign_uninitialized b k1 _).
  - by destruct (assign_uninitialized b k0 _).
Qed.

Lemma count_falses (Fl : range bool) bs : Fl ▷ bs ->
  sliced_for (length bs) _block_size (fun i s e Sums =>
    c ← for_ s e (fun j c => b ← subscript Fl j; Ok (c + Nat.b2n (negb b))) 0; assign Sums i c)
    (replicate (num_blocks (length bs) _block_size) (Some 0)) =
  Ok (Some <$> counts _block_size (negb <$> bs)).
Proof.
  intros HFl. rewrite (sliced_for_cells _ _ (Some <$> counts _block_size (negb <$> bs))).
  - by rewrite scatter_all by (by rewrite length_replicate, length_fmap, length_counts, length_fmap).
  - by rewrite length_fmap, length_counts, length_fmap.
  - intros i y a Hy Hla Ha. apply list_lookup_fmap_Some in Hy as (n & -> & [Hi ->]%lookup_counts).
    rewrite length_fmap, !block_of_fmap in *.
    assert (for_ (i * _block_size) ((i * _block_size + _block_size) `min` length bs)
      (fun j c => b ← subscript Fl j; Ok (c + Nat.b2n (negb b))) 0 = Ok (count_true (negb <$> block_of _block_size bs i))) as ->.
    { apply ok_exact. eapply ok_mono; [apply (for_block (fun j (c : nat) => c = count_true (negb <$> take j (block_of _block_size bs i))))|].
      - done.
      - apply block_size_pos.
      - done.
      - intros j b c Hb Hbs ->. rewrite (shows_get _ _ _ _ HFl Hbs). simpl. apply ok_ret.
        rewrite !fmap_take, (count_true_take_S _ _ (negb b)); [done|]. by rewrite list_lookup_fmap, Hb.
      - intros c ->. by rewrite firstn_all. }
    simpl. unfold assign. by rewrite (get_eq a i 0) by (rewrite Ha; by apply lookup_replicate_2).
Qed.

Lemma bool_classes bs : is0 <$> (Nat.b2n <$> bs) = negb <$> bs /\ is1 <$> (Nat.b2n <$> bs) = bs /\
  count_true (is2 <$> (Nat.b2n <$> bs)) = 0.
Proof.
  induction bs as [|b bs (IH0 & IH1 & IH2)]; [done|]. rewrite !fmap_cons, count_true_cons, IH0, IH1, IH2. by destruct b.
Qed.

Lemma packed_none {T} (xs : list T) bs : length xs = length bs -> count_true bs = 0 -> packed xs bs = [].
Proof. intros Hl Hc. apply nil_length_inv. by rewrite length_packed. Qed.

Lemma split_two_eq {T} (In : range T) Fl xs bs : In ▷ xs -> Fl ▷ bs -> length xs = length bs -> size_t (length xs) ->
  split_two In Fl = Ok (Some <$> (packed xs (negb <$> bs) ++ packed xs bs), count_true (negb <$> bs)).
Proof.
  intros HIn HFl Hl Hs. assert (Hk := block_size_pos). unfold split_two.
  rewrite (shows_size _ _ HIn), Hl, count_falses by done. cbn [mbind res_bind].
  assert (length (negb <$> bs) = length bs) as Hlf by apply length_fmap.
  rewrite <- Hlf at 1. rewrite scan_counts by (rewrite ?Hlf, <- ?Hl; done). cbn [mbind res_bind].
  destruct (bool_classes bs) as (H0 & H1 & H2). set (cs := Nat.b2n <$> bs) in *.
  assert (length xs = length cs) as Hlc by (unfold cs; by rewrite length_fmap).
  assert (HFl' := shows_map Fl Nat.b2n bs HFl). fold cs in HFl'.
  assert (Hall := count_classes cs). rewrite H0, H1, H2 in Hall.
  set (m0 := count_true (negb <$> bs)) in *. set (m1 := count_true bs) in *.
  pose (z f i := Some <$> class_of (T := T) f (block_of _block_size xs i) (block_of _block_size cs i)).
  assert (Hperm := join_streams 0 m0 m1 _block_size xs cs Hk Hlc). cbv zeta in Hperm. fold z in Hperm.
  assert (Hst := streams_all 0 xs cs Hlc). rewrite H0, H1 in Hst. fold m0 m1 in Hst.
  unfold sliced_for. rewrite (parallel_for_scatter (fun i => streams 0 (offset (z is0) i) (m0 + offset (z is1) i)
    (m0 + m1 + offset (z is2) i) (block_of _block_size xs i) (block_of _block_size cs i))).
  - rewrite Nat.sub_0_r, <- Hl. cbn [mbind res_bind]. do 2 f_equal.
    etrans; [apply scatter_perm, Hperm; rewrite Hperm, Hst, block_keys; apply NoDup_seq|]. rewrite Hst.
    unfold class_of. rewrite H0, H1, (packed_none _ (is2 <$> cs)), app_nil_r by (rewrite ?length_fmap; done).
    apply scatter_all. rewrite length_uninitialized, length_fmap, length_app, !length_packed by (rewrite ?length_fmap; done).
    fold m0 m1. rewrite Hl. unfold cs in Hall. rewrite length_fmap in Hall. lia.
  - intros i a' [_ Hi] [Hla _]. unfold z. rewrite !offset_class, H0, H1 by done.
    assert (i < num_blocks (length (negb <$> bs)) _block_size) as Hi' by (by rewrite length_fmap).
    rewrite (get_eq _ _ _ (lookup_starts _ _ _ Hi')). cbn [mbind res_bind].
    set (c0 := count_true (take (i * _block_size) (negb <$> bs))).
    set (c2 := m0 + m1 + count_true (take (i * _block_size) (is2 <$> cs))).
    assert (forall f : nat -> bool, count_true (take (i * _block_size) (f <$> cs)) + count_true (f <$> block_of _block_size cs i)
      <= count_true (f <$> cs)) as Hc.
    { intros f. rewrite <- block_of_fmap, <- count_true_app, block_of_take, take_take_drop. apply count_true_take. }
    assert (Hcl := count_classes (take (i * _block_size) cs)). rewrite !fmap_take, H0, H1 in Hcl.
    rewrite length_take_le in Hcl by (rewrite <- Hlc, Hl; apply num_blocks_lower in Hi; [lia|done]).
    assert (count_true (take (i * _block_size) (is2 <$> cs)) = 0) as E2 by (specialize (Hc is2); lia).
    assert (Hc0 := Hc is0). assert (Hc1 := Hc is1). assert (Hc2 := Hc is2). rewrite H0 in Hc0. rewrite H1 in Hc1.
    fold m0 c0 in Hc0. fold m1 in Hc1. fold c0 in Hcl.
    replace (i * _block_size + (m0 - c0)) with (m0 + count_true (take (i * _block_size) bs)) by lia.
    rewrite (split_two_loop _ _ _ _ _ _ c2).
    assert (length cs = length bs) as Hlcb by (unfold cs; apply length_fmap).
    destruct (split_loop In (delayed_map Fl Nat.b2n) 0 xs cs i c0 (m0 + count_true (take (i * _block_size) bs)) c2 a')
      as ([[[? ?] ?] a2] & Hloop & Ha2); [done..|by rewrite Hl|lia|unfold c2; lia| |].
    { rewrite Hla, length_uninitialized. unfold c2. lia. }
    rewrite Hl in Hloop. simpl in Hloop. simpl. rewrite Hloop. simpl in *. by rewrite Ha2.
  - rewrite Nat.sub_0_r, <- Hl, Hperm, Hst, block_keys. apply NoDup_seq.
Qed.
End splits.

(** ** What the operations compute *)

Section properties.
Context `{Schedule}.

(** C24: reductions and scans over blocks compute the folds over all prefixes, from left to
    right, for every monoid, every schedule and every size; the operator is applied only to
    values on which it is defined. *)
Theorem reduce_scan_correct {T} (m : monoid T) D g `{!MonoidLaws m D g} (In : range T) xs :
  In ▷ xs -> Forall D xs ->
  reduce m In no_flag = Ok (foldl g (identity m) xs) /\
  scan m In no_flag =
    Ok (Some <$> ((fun i => foldl g (identity m) (take i xs)) <$> seq 0 (length xs)), foldl g (identity m) xs) /\
  scan m In fl_scan_inclusive =
    Ok (Some <$> ((fun i => foldl g (identity m) (take (S i) xs)) <$> seq 0 (length xs)), foldl g (identity m) xs) /\
  scan_move m (Some <$> xs) no_flag = scan m In no_flag.
Proof.
  intros HIn HD. rewrite (reduce_eq m D g _ xs), !(scan_eq m D g _ _ xs), (scan_move_eq m D g) by done.
  repeat split; [|done..]. rewrite (foldl_identity m D g) by done. by destruct xs.
Qed.

(** C25: packing and filtering by blocks return the selected elements in their order, however
    the blocks are scheduled; the version with an output range writes them from its start
    and returns their number. *)
Theorem pack_filter_correct {T} (In : range T) (Fl : range bool) xs bs (f : T -> bool) o a fl :
  In ▷ xs -> Fl ▷ bs -> length bs = length xs -> (Z.of_nat (length xs) < 2 ^ 64)%Z -> o + length xs <= length a ->
  filter In f = Ok (Some <$> base.filter f xs) /\
  filter_out In o f a = Ok (length (base.filter f xs), scatter (block o (Some <$> base.filter f xs)) a) /\
  pack In Fl fl = Ok (Some <$> packed xs bs) /\
  pack_out In Fl o fl a = Ok (count_true bs, scatter (block o (Some <$> packed xs bs)) a) /\
  pack_index Fl fl = Ok (Some <$> packed (seq 0 (length bs)) bs).
Proof.
  intros HIn HFl Hl Hs Ho. assert (size_t (length xs)) as Hs' by (split; [lia|exact Hs]).
  assert (length (base.filter f xs) <= length xs) as Hf by apply length_filter.
  assert (Hc := count_true_le bs).
  repeat split; [by apply filter_eq|apply filter_out_eq; [done..|lia]|by apply pack_eq|apply pack_out_eq; [done..|lia]|].
  apply pack_index_eq; [done|by rewrite Hl].
Qed.

(** [split_two] is a stable partition: the elements with a false flag, then those with a
    true flag, each in their order; nothing is lost or duplicated. *)
Theorem split_two_stable {T} (In : range T) (Fl : range bool) xs bs :
  In ▷ xs -> Fl ▷ bs -> length bs = length xs -> (Z.of_nat (length xs) < 2 ^ 64)%Z ->
  exists out n, split_two In Fl = Ok (Some <$> out, n) /\ out ≡ₚ xs /\
    take n out = packed xs (negb <$> bs) /\ drop n out = packed xs bs.
Proof.
  intros HIn HFl Hl Hs. exists (packed xs (negb <$> bs) ++ packed xs bs), (count_true (negb <$> bs)).
  assert (length (packed xs (negb <$> bs)) = count_true (negb <$> bs)) as Hp by (apply length_packed; by rewrite length_fmap).
  split; [apply split_two_eq; [done..|split; [lia|exact Hs]]|]. rewrite take_app_length', drop_app_length' by done.
  split; [|done]. by apply packed_perm.
Qed.
End properties.

Lemma reduce_scan_correct_witness :
  plus (T := Z) = pure_monoid (fun x y => wrap64 (x + y)) 0%Z /\
  reduce plus (of_list [5; 7; 18446744073709551610]%Z) no_flag = Ok 6%Z.
Proof.
  split; [done|].
  destruct (@reduce_scan_correct backwards Z plus u64 add _ (of_list [5; 7; 18446744073709551610]%Z) _ (shows_of_list _)) as [Hr _].
  - repeat constructor; unfold two64; lia.
  - exact Hr.
Defined.

Lemma pack_filter_correct_witness :
  @filter backwards nat (of_list [3; 1; 2]) (fun x => 1 <? x) = Ok [Some 3; Some 2] /\
  @pack backwards nat (of_list [3; 1; 2]) (of_list [true; false; true]) no_flag = Ok [Some 3; Some 2].
Proof.
  destruct (@pack_filter_correct backwards nat (of_list [3; 1; 2]) (of_list [true; false; true]) [3; 1; 2] [true; false; true]
    (fun x => 1 <? x) 0 (uninitialized 3) no_flag) as (Hf & _ & Hp & _); try done; try apply shows_of_list.
Defined.

Lemma split_two_stable_witness : exists out n,
  @split_two backwards nat (of_list [3; 1; 2]) (of_list [true; false; true]) = Ok (Some <$> out, n) /\
  take n out = [1] /\ drop n out = [3; 2].
Proof.
  destruct (@split_two_stable backwards nat (of_list [3; 1; 2]) (of_list [true; false; true]) [3; 1; 2] [true; false; true])
    as (out & n & Hs & _ & Ht & Hd); try done; try apply shows_of_list. exists out, n. done.
Defined.
