(* ===== verification/ParMem.v ===== *)
(** * Memory of the sorting routines

    The routines under [src/lib/parlay/internal] that move elements between arrays see
    memory: a cell for each index of each array, [None] when no object lives in it.  A slice
    of [slice.h] is a pair of pointers into one array.  Constructing over a live object,
    reading a dead one and leaving the allocated cells are errors, as the library's debugging
    asserts have it.  [triple] is total correctness with the slices a command may change, and
    two commands that may change different slices can run in parallel ([triple_par_do]). *)

From S2P Require Import Prelude.
From stdpp Require Import list.
From S2P Require Import ParArray.

#[local] Open Scope nat_scope.

Abbreviation addr := (nat * nat)%type (only parsing).
Abbreviation mem T := (@gmap (nat * nat) (@prod_eq_dec nat Nat.eq_dec nat Nat.eq_dec)
  (@prod_countable nat Nat.eq_dec nat_countable nat Nat.eq_dec nat_countable) (option T)) (only parsing).

Record slice := Slice { arr : nat; s_begin : nat; s_end : nat }.
Definition slice_size (s : slice) : nat := s_end s - s_begin s.
Definition nth (s : slice) (i : nat) : addr := (arr s, s_begin s + i).
Definition scut (s : slice) (ss ee : nat) : slice := Slice (arr s) (s_begin s + ss) (s_begin s + ee).

Section mem.
Context {T : Type}.
Implicit Types (m : mem T) (s : slice) (p : addr).

Definition read p m : res T := match m !! p with Some (Some x) => Ok x | _ => Err BadPtr end.

(** [assign_uninitialized] *)
Definition construct p (x : T) m : res (mem T) :=
  match m !! p with
  | Some None => Ok (<[p := Some x]> m)
  | Some (Some _) => Err AssertFail
  | None => Err BadPtr
  end.

(** [*p = x] *)
Definition assign_at p (x : T) m : res (mem T) := _ ← read p m; Ok (<[p := Some x]> m).

Definition relocate_at (source dest : addr) m : res (mem T) :=
  x ← read source m; m ← construct dest x m; Ok (<[source := None]> m).

Definition swap_at (p q : addr) m : res (mem T) :=
  x ← read p m; y ← read q m; Ok (<[q := Some x]> (<[p := Some y]> m)).

(** A slice as a range *)
Definition range_of s m : range T := Range (slice_size s) (fun i => read (nth s i) m).

Inductive assignment_tag :=
  | move_assign_tag | uninitialized_move_tag | copy_assign_tag | uninitialized_copy_tag | uninitialized_relocate_tag.

Definition constructs (tag : assignment_tag) : bool :=
  match tag with move_assign_tag | copy_assign_tag => false | _ => true end.
(** What is left of a moved object may not be read. *)
Definition consumes (tag : assignment_tag) : bool :=
  match tag with copy_assign_tag | uninitialized_copy_tag => false | _ => true end.

Definition assign_dispatch (tag : assignment_tag) (dest val : addr) m : res (mem T) :=
  match tag with
  | uninitialized_relocate_tag => relocate_at val dest m
  | _ =>
      x ← read val m;
      m ← (if constructs tag then construct dest x m else assign_at dest x m);
      if consumes tag then Ok (<[val := None]> m) else Ok m
  end.

(** [sequence<T>::uninitialized(n)], [uninitialized_sequence<T>(n)] *)
Definition fresh_array m : nat := S (map_fold (fun (p : addr) _ r => p.1 `max` r) 0 m).
Definition cells (a : nat) (n : nat) : mem T := list_to_map ((fun i => ((a, i), None)) <$> seq 0 n).
Definition allocate (n : nat) m : slice * mem T :=
  let a := fresh_array m in (Slice a 0 n, cells a n ∪ m).
(** The destructor of [uninitialized_sequence] *)
Definition deallocate s m : mem T := filter (fun c : addr * option T => c.1.1 <> arr s) m.

(** ** Slices of memory *)

Definition in_slice p s : Prop := p.1 = arr s /\ s_begin s <= p.2 < s_end s.

#[export] Instance in_slice_dec p s : Decision (in_slice p s).
Proof. unfold in_slice. apply _. Defined.

Definition holds s (cs : list (option T)) m : Prop :=
  s_end s = s_begin s + length cs /\ forall i c, cs !! i = Some c -> m !! nth s i = Some c.

Definition covers (F : list slice) p : Prop := exists s, s ∈ F /\ in_slice p s.
Definition same_outside (F : list slice) m m' : Prop := forall p, ~ covers F p -> m' !! p = m !! p.
Definition same_on (F : list slice) m m' : Prop := forall p, covers F p -> m' !! p = m !! p.
Definition apart (F1 F2 : list slice) : Prop := forall p, covers F1 p -> ~ covers F2 p.
Definition stable (F : list slice) (P : mem T -> Prop) : Prop := forall m m', same_on F m m' -> P m -> P m'.

Definition triple (F : list slice) (P : mem T -> Prop) (c : mem T -> res (mem T)) (Q : mem T -> Prop) : Prop :=
  forall m, P m -> ok (c m) (fun m' => same_outside F m m' /\ Q m').

Lemma covers_cons s F p : covers (s :: F) p <-> in_slice p s \/ covers F p.
Proof.
  unfold covers. setoid_rewrite elem_of_cons. naive_solver.
Qed.

Lemma covers_app F1 F2 p : covers (F1 ++ F2) p <-> covers F1 p \/ covers F2 p.
Proof. unfold covers. setoid_rewrite elem_of_app. naive_solver. Qed.

Lemma covers_nil p : ~ covers [] p.
Proof. intros (s & Hs & _). by apply not_elem_of_nil in Hs. Qed.

Lemma same_outside_refl F m : same_outside F m m.
Proof. done. Qed.

Lemma same_outside_trans F m1 m2 m3 : same_outside F m1 m2 -> same_outside F m2 m3 -> same_outside F m1 m3.
Proof. intros H1 H2 p Hp. by rewrite H2, H1. Qed.

Lemma same_outside_mono F F' m m' : (forall p, covers F p -> covers F' p) -> same_outside F m m' -> same_outside F' m m'.
Proof. intros HF Hs p Hp. apply Hs. intros Hc. by apply Hp, HF. Qed.

Lemma same_outside_insert F m m' p c : covers F p -> same_outside F m m' -> same_outside F m (<[p := c]> m').
Proof. intros Hc Hs q Hq. rewrite lookup_insert_ne by (intros <-; done). by apply Hs. Qed.

Lemma holds_in s cs m i : holds s cs m -> i < length cs -> in_slice (nth s i) s.
Proof. intros [He _] Hi. unfold in_slice, nth. simpl. lia. Qed.

Lemma holds_read s cs m i x : holds s cs m -> cs !! i = Some (Some x) -> read (nth s i) m = Ok x.
Proof. intros [_ Hl] Hi. unfold read. by rewrite (Hl _ _ Hi). Qed.

Lemma nth_inj s i j : nth s i = nth s j -> i = j.
Proof. unfold nth. intros [= H]. lia. Qed.

Lemma holds_insert s cs m i c : holds s cs m -> i < length cs -> holds s (<[i := c]> cs) (<[nth s i := c]> m).
Proof.
  intros [He Hl] Hi. split; [by rewrite length_insert|]. intros j d Hj. destruct (decide (i = j)) as [<-|Hne].
  - rewrite list_lookup_insert_eq in Hj by done. injection Hj as <-. apply lookup_insert_eq.
  - rewrite list_lookup_insert_ne in Hj by done. rewrite lookup_insert_ne; [by apply Hl|]. intros E%nth_inj. done.
Qed.

Lemma holds_other s cs m p c : holds s cs m -> ~ in_slice p s -> holds s cs (<[p := c]> m).
Proof.
  intros Hh Hp. split; [apply Hh|]. intros j d Hj. rewrite lookup_insert_ne; [by apply Hh|].
  intros ->. apply Hp. eapply holds_in; [done|]. by eapply lookup_lt_Some.
Qed.

Lemma holds_stable F s cs : s ∈ F -> stable F (holds s cs).
Proof.
  intros Hs m m' Hm Hh. split; [apply Hh|]. intros i c Hi. rewrite Hm; [by apply Hh|]. exists s. split; [done|].
  eapply holds_in; [done|]. by eapply lookup_lt_Some.
Qed.

Lemma holds_same_outside F s cs m m' : holds s cs m -> same_outside F m m' -> (forall p, in_slice p s -> ~ covers F p) ->
  holds s cs m'.
Proof.
  intros Hh Hs Hd. split; [apply Hh|]. intros i c Hi. rewrite Hs; [by apply Hh|]. apply Hd.
  eapply holds_in; [done|]. by eapply lookup_lt_Some.
Qed.

Lemma holds_cut s cs ds m : holds s (cs ++ ds) m <->
  s_end s = s_begin s + length cs + length ds /\ 
  holds (scut s 0 (length cs)) cs m /\ holds (scut s (length cs) (slice_size s)) ds m.
Proof.
  unfold holds, scut, nth, slice_size. cbn [arr s_begin s_end]. rewrite length_app. split.
  - intros [He Hl]. split; [lia|]. split; (split; [lia|]); intros i c Hi.
    + rewrite Nat.add_0_r. apply Hl. by apply lookup_app_l_Some.
    + rewrite <- Nat.add_assoc. apply Hl. rewrite lookup_app_r by lia. by replace (length cs + i - length cs) with i by lia.
  - intros (He & [_ Hl1] & [_ Hl2]). split; [lia|]. intros i c [Hi|[Hle Hi]]%lookup_app_Some.
    + rewrite <- (Hl1 i c Hi). do 2 f_equal. lia.
    + rewrite <- (Hl2 _ _ Hi). do 2 f_equal. lia.
Qed.

Lemma holds_range s xs m : holds s (Some <$> xs) m -> range_of s m ▷ xs.
Proof.
  intros Hh. split.
  - destruct Hh as [He _]. rewrite length_fmap in He. simpl. unfold slice_size. lia.
  - intros i x Hx. simpl. eapply holds_read; [done|]. by rewrite list_lookup_fmap, Hx.
Qed.

Lemma holds_size s cs m : holds s cs m -> slice_size s = length cs.
Proof. intros [He _]. unfold slice_size. lia. Qed.

(** ** Triples *)

Lemma triple_conseq F F' (P P' Q Q' : mem T -> Prop) c : triple F P c Q -> (forall p, covers F p -> covers F' p) ->
  (forall m, P' m -> P m) -> (forall m, Q m -> Q' m) -> triple F' P' c Q'.
Proof.
  intros Hc HF HP HQ m Hm. eapply ok_mono; [by apply Hc, HP|]. intros m' [Hs Hm']. split; [|by apply HQ].
  by eapply same_outside_mono.
Qed.

Lemma triple_seq F (P Q R : mem T -> Prop) c d : triple F P c Q -> triple F Q d R ->
  triple F P (fun m => c m ≫= d) R.
Proof.
  intros Hc Hd m Hm. apply ok_bind. eapply ok_mono; [by apply Hc|]. intros m1 [Hs1 H1].
  eapply ok_mono; [by apply Hd|]. intros m2 [Hs2 H2]. split; [|done]. by eapply same_outside_trans.
Qed.

Lemma triple_exists {X} F (P : X -> mem T -> Prop) c Q : (forall x, triple F (P x) c Q) -> triple F (fun m => exists x, P x m) c Q.
Proof. intros Hc m [x Hx]. by eapply Hc. Qed.

Lemma stable_and F (P Q : mem T -> Prop) : stable F P -> stable F Q -> stable F (fun m => P m /\ Q m).
Proof. intros HP HQ m m' Hm [Hp Hq]. split; eauto. Qed.

Lemma stable_exists {X} F (P : X -> mem T -> Prop) : (forall x, stable F (P x)) -> stable F (fun m => exists x, P x m).
Proof. intros HP m m' Hm [x Hx]. exists x. by eapply HP. Qed.

Lemma stable_pure F (P : Prop) : stable F (fun _ => P).
Proof. by intros m m' _. Qed.

(** A command leaves alone what another one needs. *)
Lemma triple_frame F1 F2 (P Q R : mem T -> Prop) c : triple F1 P c Q -> apart F1 F2 -> stable F2 R ->
  triple F1 (fun m => P m /\ R m) c (fun m => Q m /\ R m).
Proof.
  intros Hc Ha HR m [HP Hr]. eapply ok_mono; [by apply Hc|]. intros m' [Hs HQ]. repeat split; [done..|].
  eapply HR; [|done]. intros p Hp. apply Hs. intros Hp'. by apply (Ha p).
Qed.

Lemma apart_sym F1 F2 : apart F1 F2 -> apart F2 F1.
Proof. intros Ha p H2 H1. by apply (Ha p). Qed.

Lemma triple_left F1 F2 (P Q R : mem T -> Prop) c : triple F1 P c Q -> apart F1 F2 -> stable F2 R ->
  triple (F1 ++ F2) (fun m => P m /\ R m) c (fun m => Q m /\ R m).
Proof.
  intros Hc Ha HR. eapply triple_conseq; [by apply (triple_frame F1 F2 P Q R)| |done..].
  intros p Hp. apply covers_app. by left.
Qed.

Lemma triple_right F1 F2 (P Q R : mem T -> Prop) c : triple F2 P c Q -> apart F1 F2 -> stable F1 R ->
  triple (F1 ++ F2) (fun m => R m /\ P m) c (fun m => R m /\ Q m).
Proof.
  intros Hc Ha HR. eapply triple_conseq; [apply (triple_frame F2 F1 P Q R); [done|by apply apart_sym|done]| | |].
  - intros p Hp. apply covers_app. by right.
  - by intros m [].
  - by intros m [].
Qed.

Lemma triple_par_do `{Schedule} F1 F2 (P1 P2 Q1 Q2 : mem T -> Prop) c1 c2 k :
  triple F1 P1 c1 Q1 -> triple F2 P2 c2 Q2 -> apart F1 F2 ->
  stable F1 P1 -> stable F1 Q1 -> stable F2 P2 -> stable F2 Q2 ->
  triple (F1 ++ F2) (fun m => P1 m /\ P2 m) (par_do k c1 c2) (fun m => Q1 m /\ Q2 m).
Proof.
  intros H1 H2 Ha SP1 SQ1 SP2 SQ2. unfold par_do. destruct (left_first k).
  - eapply triple_seq; [by apply (triple_left F1 F2 P1 Q1 P2)|by apply (triple_right F1 F2 P2 Q2 Q1)].
  - eapply triple_seq; [by apply (triple_right F1 F2 P2 Q2 P1)|by apply (triple_left F1 F2 P1 Q1 Q2)].
Qed.

Lemma triple_both F1 F2 (P1 P2 Q1 Q2 : mem T -> Prop) c1 c2 :
  triple F1 P1 c1 Q1 -> triple F2 P2 c2 Q2 -> apart F1 F2 -> stable F1 Q1 -> stable F2 P2 ->
  triple (F1 ++ F2) (fun m => P1 m /\ P2 m) (fun m => c1 m ≫= c2) (fun m => Q1 m /\ Q2 m).
Proof.
  intros H1 H2 Ha SQ1 SP2. eapply triple_seq; [by apply (triple_left F1 F2 P1 Q1 P2)|by apply (triple_right F1 F2 P2 Q2 Q1)].
Qed.

Lemma triple_par_do_if `{Schedule} b F1 F2 (P1 P2 Q1 Q2 : mem T -> Prop) c1 c2 k :
  triple F1 P1 c1 Q1 -> triple F2 P2 c2 Q2 -> apart F1 F2 ->
  stable F1 P1 -> stable F1 Q1 -> stable F2 P2 -> stable F2 Q2 ->
  triple (F1 ++ F2) (fun m => P1 m /\ P2 m) (par_do_if b k c1 c2) (fun m => Q1 m /\ Q2 m).
Proof. intros. destruct b; [by apply triple_par_do|by apply triple_both]. Qed.

(** ** Allocation *)

Lemma fresh_array_lt m p : is_Some (m !! p) -> p.1 < fresh_array m.
Proof.
  unfold fresh_array. revert p.
  apply (map_fold_weak_ind (fun r (m : mem T) => forall p, is_Some (m !! p) -> p.1 < S r)).
  - intros p [? Hp]. by rewrite lookup_empty in Hp.
  - intros q c m' r _ IH p Hp. destruct (decide (q = p)) as [->|Hne]; [lia|].
    rewrite lookup_insert_ne in Hp by done. specialize (IH p Hp). lia.
Qed.

Lemma lookup_cells a n p : (cells a n : mem T) !! p = if decide (p.1 = a /\ p.2 < n) then Some None else None.
Proof.
  unfold cells. destruct (decide (p.1 = a /\ p.2 < n)) as [[<- Hp]|Hp].
  - apply elem_of_list_to_map.
    + rewrite <- list_fmap_compose. apply NoDup_fmap_2_strong; [|apply NoDup_seq]. by intros x y _ _ [= ->].
    + apply list_elem_of_fmap. exists p.2. split; [by destruct p|]. apply elem_of_seq. lia.
  - apply not_elem_of_list_to_map. intros (c & -> & Hc)%list_elem_of_fmap.
    apply list_elem_of_fmap in Hc as (i & -> & Hi%elem_of_seq). apply Hp. simpl. lia.
Qed.

(** The new slice is empty and apart from every slice in use; nothing else changes. *)
Lemma allocate_spec n m B m' : allocate n m = (B, m') ->
  holds B (replicate n None) m' /\ slice_size B = n /\
  (forall s cs, holds s cs m -> apart [s] [B] /\ holds s cs m') /\
  (forall p, p.1 <> arr B -> m' !! p = m !! p) /\ (forall p, p.1 = arr B -> m !! p = None).
Proof.
  intros [= <- <-].
  assert (forall p, p.1 <> fresh_array m -> (cells (fresh_array m) n ∪ m) !! p = m !! p) as Hother.
  { intros p Hp. rewrite lookup_union, lookup_cells, decide_False by naive_solver. by destruct (m !! p). }
  assert (forall p, p.1 = fresh_array m -> m !! p = None) as Hfresh.
  { intros p Hp. destruct (m !! p) eqn:E; [|done]. assert (Hlt := fresh_array_lt m p (mk_is_Some _ _ E)). lia. }
  assert (forall s cs, holds s cs m -> forall p, in_slice p s -> p.1 <> fresh_array m) as Hin.
  { intros s cs [He Hl] p [Ha Hp] E. destruct (lookup_lt_is_Some_2 cs (p.2 - s_begin s)) as [c Hc]; [lia|].
    specialize (Hl _ _ Hc). rewrite Hfresh in Hl; [done|]. simpl. by rewrite <- Ha. }
  repeat split; simpl.
  - by rewrite length_replicate.
  - intros i c Hc%lookup_replicate. destruct Hc as [-> Hi]. unfold nth. simpl.
    rewrite lookup_union, lookup_cells, decide_True by done. by destruct (m !! _).
  - unfold slice_size. simpl. lia.
  - intros p (s' & Hs' & Hp) (s2 & Hs2 & Hp2). apply list_elem_of_singleton in Hs' as ->, Hs2 as ->.
    apply (Hin s cs H p Hp). apply Hp2.
  - apply H.
  - intros i c Hi. rewrite Hother; [by apply H|]. apply (Hin s cs H). eapply holds_in; [done|]. by eapply lookup_lt_Some.
  - exact Hother.
  - exact Hfresh.
Qed.

Lemma lookup_deallocate s m p : deallocate s m !! p = if decide (p.1 = arr s) then None else m !! p.
Proof.
  unfold deallocate. destruct (decide (p.1 = arr s)) as [Hp|Hp].
  - apply map_lookup_filter_None. right. intros x _ Hx. by apply Hx.
  - destruct (m !! p) eqn:E.
    + by apply map_lookup_filter_Some.
    + apply map_lookup_filter_None. by left.
Qed.
End mem.


(** Stability of assertions that talk about slices of the footprint *)
Ltac solve_stable :=
  repeat first [apply holds_stable; set_solver |
    apply stable_and | apply stable_exists; intros ? | apply stable_pure].
