(* ===== verification/Merge.v ===== *)
(** * Searching, merging and stable sorting

    [binary_search.h], [merge.h], [merge_sort.h] and [insertion_sort] of [quicksort.h], all
    under [src/lib/parlay/internal].  Comparisons are strict weak orders ([StrictWeak]).
    Merging two sorted slices gives their stable merge, whatever the schedule, and merge sort
    sorts stably; both on memory, where every element is moved and none is copied. *)

From Stdlib Require Import Sorted.
From S2P Require Import Prelude.
From stdpp Require Import list.
From S2P Require Import ParArray ParMem.

#[local] Open Scope nat_scope.

(** ** Searching *)

Section search.
Context {T : Type}.

(** [for (i = start; i < start + k; i++) if (p(i)) return i;] and what follows it *)
Fixpoint first_index (p : nat -> res bool) (start k : nat) : res nat :=
  match k with
  | O => Ok start
  | S k => b ← p start; if (b : bool) then Ok start else first_index p (S start) k
  end.

Definition linear_search (I : range T) (v : T) (less : T -> T -> bool) : res nat :=
  first_index (fun i => x ← subscript I i; Ok (negb (less x v))) 0 (range_size I).

Definition _binary_search_base : nat := 16.

(** The loop halves [end - start], which is enough fuel. *)
Fixpoint binary_search_loop (fuel : nat) (I : range T) (v : T) (less : T -> T -> bool) (start end_ : nat) : res (nat * nat) :=
  match fuel with
  | O => Err OutOfFuel
  | S fuel =>
      if _binary_search_base <? end_ - start then
        let mid := (end_ + start) / 2 in
        x ← subscript I mid;
        if negb (less x v) then binary_search_loop fuel I v less start mid
        else binary_search_loop fuel I v less (mid + 1) end_
      else Ok (start, end_)
  end.

Definition binary_search (I : range T) (v : T) (less : T -> T -> bool) : res nat :=
  '(start, end_) ← binary_search_loop (range_size I + 1) I v less 0 (range_size I);
  i ← linear_search (ParArray.cut I start end_) v less; Ok (start + i).

(** The versions whose [less] is a predicate *)
Definition linear_search_if (I : range T) (less : T -> bool) : res nat :=
  first_index (fun i => x ← subscript I i; Ok (negb (less x))) 0 (range_size I).

Fixpoint binary_search_if_loop (fuel : nat) (I : range T) (less : T -> bool) (start end_ : nat) : res (nat * nat) :=
  match fuel with
  | O => Err OutOfFuel
  | S fuel =>
      if _binary_search_base <? end_ - start then
        let mid := (end_ + start) / 2 in
        x ← subscript I mid;
        if negb (less x) then binary_search_if_loop fuel I less start mid
        else binary_search_if_loop fuel I less (mid + 1) end_
      else Ok (start, end_)
  end.

Definition binary_search_if (I : range T) (less : T -> bool) : res nat :=
  '(start, end_) ← binary_search_if_loop (range_size I + 1) I less 0 (range_size I);
  i ← linear_search_if (ParArray.cut I start end_) less; Ok (start + i).

(** [binary_search] is [binary_search_if] with the comparison to [v]. *)
Lemma binary_search_if_loop_same fuel I v less s e :
  binary_search_loop fuel I v less s e = binary_search_if_loop fuel I (fun x => less x v) s e.
Proof.
  revert s e. induction fuel as [|fuel IH]; intros s e; [done|]. simpl. destruct (_ <? _); [|done].
  destruct (subscript I _); [|done]. simpl. by destruct (negb _).
Qed.

Lemma binary_search_if_eq I v less : binary_search I v less = binary_search_if I (fun x => less x v).
Proof. unfold binary_search, binary_search_if. by rewrite binary_search_if_loop_same. Qed.

Lemma first_index_eq (p : nat -> res bool) (q : nat -> bool) start k n :
  (forall i, start <= i < start + k -> p i = Ok (q i)) -> start <= n <= start + k ->
  (forall i, start <= i < n -> q i = false) -> (n < start + k -> q n = true) ->
  first_index p start k = Ok n.
Proof.
  revert start. induction k as [|k IH]; intros start Hp Hn Hf Ht; simpl.
  - f_equal. lia.
  - rewrite Hp by lia. simpl. destruct (decide (start = n)) as [->|Hne].
    + by rewrite Ht by lia.
    + rewrite Hf by lia. apply IH; [intros; apply Hp; lia|lia|intros; apply Hf; lia|intros; apply Ht; lia].
Qed.

(** The first [k] elements are those that satisfy the predicate. *)
Definition partitioned_at (less : T -> bool) (xs : list T) (k : nat) : Prop :=
  k <= length xs /\ forall i x, xs !! i = Some x -> less x = (i <? k).

Lemma linear_search_if_eq I less xs k : I ▷ xs -> partitioned_at less xs k -> linear_search_if I less = Ok k.
Proof.
  intros HI [Hk Hp]. unfold linear_search_if. rewrite (shows_size _ _ HI).
  apply (first_index_eq _ (fun i => negb (i <? k))); [|lia|..].
  - intros i Hi. destruct (lookup_lt_is_Some_2 xs i) as [x Hx]; [lia|]. rewrite (shows_get _ _ _ _ HI Hx). simpl.
    by rewrite (Hp _ _ Hx).
  - intros i Hi. by rewrite (proj2 (Nat.ltb_lt i k)) by lia.
  - intros _. by rewrite Nat.ltb_irrefl.
Qed.

Lemma binary_search_if_loop_eq fuel I less xs k start end_ : I ▷ xs -> partitioned_at less xs k ->
  start <= k <= end_ -> end_ <= length xs -> end_ - start < fuel ->
  ok (binary_search_if_loop fuel I less start end_) (fun '(s, e) => s <= k <= e /\ e <= length xs).
Proof.
  intros HI [Hk Hp]. revert start end_. induction fuel as [|fuel IH]; intros start end_ Hse He Hf; [lia|].
  cbn [binary_search_if_loop]. destruct (Nat.ltb_spec _binary_search_base (end_ - start)) as [Hb|Hb]; [|by apply ok_ret].
  cbv zeta. set (mid := (end_ + start) / 2).
  assert (start <= mid < end_) as Hm.
  { unfold mid. split; [apply Nat.div_le_lower_bound; lia|apply Nat.Div0.div_lt_upper_bound; lia]. }
  destruct (lookup_lt_is_Some_2 xs mid) as [x Hx]; [lia|]. rewrite (shows_get _ _ _ _ HI Hx). simpl.
  rewrite (Hp _ _ Hx). destruct (Nat.ltb_spec mid k); simpl; apply IH; lia.
Qed.

Lemma binary_search_if_correct I less xs k : I ▷ xs -> partitioned_at less xs k -> binary_search_if I less = Ok k.
Proof.
  intros HI HP. unfold binary_search_if. assert (HP' := HP). destruct HP as [Hk Hp].
  rewrite (shows_size _ _ HI).
  destruct (binary_search_if_loop_eq (length xs + 1) I less xs k 0 (length xs)) as ([s e] & -> & Hs & He); [done|done|lia..|].
  simpl. rewrite (linear_search_if_eq _ _ (slice_of s e xs) (k - s)).
  - simpl. f_equal. lia.
  - by apply shows_cut.
  - split; [rewrite length_slice_of; lia|]. intros i x Hx. assert (Hlt := lookup_lt_Some _ _ _ Hx).
    rewrite length_slice_of in Hlt by lia. rewrite lookup_slice_of in Hx by done. rewrite (Hp _ _ Hx).
    destruct (Nat.ltb_spec (s + i) k), (Nat.ltb_spec i (k - s)); lia || done.
Qed.
End search.

(** ** Orders and stable merges *)

Class StrictWeak {T} (f : T -> T -> bool) : Prop := {
  sw_irrefl x : f x x = false;
  sw_trans x y z : f x y = true -> f y z = true -> f x z = true;
  sw_split x y z : f x z = true -> f x y = true \/ f y z = true
}.

#[export] Instance nat_ltb_weak : StrictWeak Nat.ltb.
Proof.
  split.
  - apply Nat.ltb_irrefl.
  - intros x y z. rewrite !Nat.ltb_lt. lia.
  - intros x y z. rewrite !Nat.ltb_lt. lia.
Qed.

(** Comparing by a key *)
#[export] Instance key_weak {A B} (f : B -> B -> bool) (key : A -> B) `{!StrictWeak f} : StrictWeak (fun x y => f (key x) (key y)).
Proof. split; intros; [apply sw_irrefl|by eapply sw_trans|by apply sw_split]. Qed.

Section order.
Context {T : Type} (f : T -> T -> bool) `{!StrictWeak f}.

(** [a] may stand before [b]. *)
Definition le_by (a b : T) : Prop := f b a = false.
Definition sorted_by : list T -> Prop := StronglySorted le_by.
(** [a] and [b] are equivalent. *)
Definition equiv_by (a b : T) : bool := negb (f a b) && negb (f b a).

Definition stable_sort_of (xs ys : list T) : Prop :=
  sorted_by ys /\ ys ≡ₚ xs /\ forall z, List.filter (equiv_by z) ys = List.filter (equiv_by z) xs.

Fixpoint merge_list (A : list T) : list T -> list T :=
  fix go (B : list T) : list T :=
    match A, B with
    | [], _ => B
    | _, [] => A
    | a :: A', b :: B' => if f b a then b :: go B' else a :: merge_list A' B
    end.

Lemma merge_nil_r A : merge_list A [] = A.
Proof. by destruct A. Qed.

Lemma merge_nil_l B : merge_list [] B = B.
Proof. by destruct B. Qed.

Lemma merge_cons a A b B : merge_list (a :: A) (b :: B) =
  if f b a then b :: merge_list (a :: A) B else a :: merge_list A (b :: B).
Proof. done. Qed.

(** Induction over the steps of a merge *)
Lemma merge_ind (P : list T -> list T -> Prop) :
  (forall B, P [] B) -> (forall A, P A []) ->
  (forall a A b B, f b a = true -> P (a :: A) B -> P (a :: A) (b :: B)) ->
  (forall a A b B, f b a = false -> P A (b :: B) -> P (a :: A) (b :: B)) ->
  forall A B, P A B.
Proof.
  intros H1 H2 H3 H4. induction A as [|a A IHA]; [done|]. induction B as [|b B IHB]; [done|].
  destruct (f b a) eqn:E; [by apply H3|by apply H4].
Qed.

Lemma merge_perm A B : merge_list A B ≡ₚ A ++ B.
Proof.
  pattern A, B. apply merge_ind; clear A B.
  - intros B. by rewrite merge_nil_l.
  - intros A. by rewrite merge_nil_r, app_nil_r.
  - intros a A b B E IH. rewrite merge_cons, E, IH. by rewrite <- (Permutation_middle _ B b).
  - intros a A b B E IH. rewrite merge_cons, E, IH. done.
Qed.

Lemma length_merge A B : length (merge_list A B) = length A + length B.
Proof. by rewrite merge_perm, length_app. Qed.

Lemma le_by_trans a b c : le_by a b -> le_by b c -> le_by a c.
Proof using StrictWeak0.
  unfold le_by. intros Hab Hbc. destruct (f c a) eqn:E; [|done]. destruct (sw_split _ b _ E); congruence.
Qed.

Lemma lt_le_by a b : f a b = true -> le_by a b.
Proof using StrictWeak0.
  unfold le_by. intros Hab. destruct (f b a) eqn:E; [|done]. assert (H := sw_trans _ _ _ Hab E). by rewrite sw_irrefl in H.
Qed.

Lemma merge_sorted A B : sorted_by A -> sorted_by B -> sorted_by (merge_list A B).
Proof using StrictWeak0.
  pattern A, B. apply merge_ind; clear A B.
  - intros B. by rewrite merge_nil_l.
  - intros A. by rewrite merge_nil_r.
  - intros a A b B E IH HA HB. rewrite merge_cons, E. apply StronglySorted_inv in HB as [HB Hb].
    constructor; [by apply IH|]. rewrite merge_perm. apply Forall_app. split; [|done].
    apply StronglySorted_inv in HA as [HA Ha]. assert (Hba := lt_le_by _ _ E).
    constructor; [done|]. eapply Forall_impl; [exact Ha|]. intros x Hx. by eapply le_by_trans.
  - intros a A b B E IH HA HB. rewrite merge_cons, E. apply StronglySorted_inv in HA as [HA Ha].
    constructor; [by apply IH|]. rewrite merge_perm. apply Forall_app. split; [done|].
    apply StronglySorted_inv in HB as [HB Hb]. constructor; [done|].
    eapply Forall_impl; [exact Hb|]. intros x Hx. by eapply le_by_trans.
Qed.
End order.

Section order_lemmas.
Context {T : Type} (f : T -> T -> bool) `{!StrictWeak f}.

Lemma filter_none (P : T -> bool) xs : Forall (fun x => P x = false) xs -> List.filter P xs = [].
Proof. induction 1 as [|x xs Hx _ IH]; [done|]. simpl. by rewrite Hx. Qed.

Lemma equiv_lt z a b : equiv_by f z b = true -> f b a = true -> equiv_by f z a = false.
Proof using StrictWeak0.
  unfold equiv_by. rewrite andb_true_iff, !negb_true_iff. intros [Hzb Hbz] Hba.
  destruct (sw_split _ z _ Hba) as [|Hza]; [congruence|]. by rewrite Hza.
Qed.

Lemma merge_stable A B : sorted_by f A -> sorted_by f B -> forall z,
  List.filter (equiv_by f z) (merge_list f A B) = List.filter (equiv_by f z) A ++ List.filter (equiv_by f z) B.
Proof using StrictWeak0.
  pattern A, B. apply (merge_ind f); clear A B.
  - intros B _ _ z. by rewrite merge_nil_l.
  - intros A _ _ z. by rewrite merge_nil_r, app_nil_r.
  - intros a A b B E IH HA HB z. rewrite merge_cons, E. apply StronglySorted_inv in HB as [HB Hb].
    cbn [List.filter]. specialize (IH HA HB z). cbn [List.filter] in IH. rewrite IH.
    destruct (equiv_by f z b) eqn:Ez; [|done]. assert (equiv_by f z a = false) as -> by (by eapply equiv_lt).
    rewrite (filter_none _ A); [done|]. apply StronglySorted_inv in HA as [_ Ha].
    eapply Forall_impl; [exact Ha|]. intros x Hx. eapply equiv_lt; [done|].
    destruct (sw_split _ x _ E) as [|Hxa]; [done|]. unfold le_by in Hx. congruence.
  - intros a A b B E IH HA HB z. rewrite merge_cons, E. apply StronglySorted_inv in HA as [HA Ha].
    cbn [List.filter]. specialize (IH HA HB z). cbn [List.filter] in IH. rewrite IH. by destruct (equiv_by f z a).
Qed.

Lemma merge_split A1 A2 B1 B2 :
  (forall a b, a ∈ A2 -> b ∈ B1 -> f b a = true) -> (forall a b, a ∈ A1 -> b ∈ B2 -> f b a = false) ->
  merge_list f (A1 ++ A2) (B1 ++ B2) = merge_list f A1 B1 ++ merge_list f A2 B2.
Proof.
  pattern A1, B1. apply (merge_ind f); clear A1 B1.
  - intros B1 H2 _. rewrite merge_nil_l. destruct A2 as [|a A2]; [by cbn [app]; rewrite !merge_nil_l|]. simpl ([] ++ _).
    induction B1 as [|b B1 IH]; [done|]. cbn [app]. rewrite merge_cons, H2 by left. f_equal. apply IH.
    intros a' b' Ha Hb. apply H2; [done|by right].
  - intros A1 _ H1. rewrite merge_nil_r. destruct B2 as [|b B2]; [by cbn [app]; rewrite !merge_nil_r|]. simpl ([] ++ _).
    induction A1 as [|a A1 IH]; [done|]. cbn [app]. rewrite merge_cons, H1 by left. f_equal. apply IH.
    intros a' b' Ha Hb. apply H1; [by right|done].
  - intros a A1 b B1 E IH H2 H1. cbn [app] in *. rewrite !merge_cons, E. cbn [app]. f_equal. apply IH; [|done].
    intros a' b' Ha Hb. apply H2; [done|by right].
  - intros a A1 b B1 E IH H2 H1. cbn [app] in *. rewrite !merge_cons, E. cbn [app]. f_equal. apply IH; [done|].
    intros a' b' Ha Hb. apply H1; [by right|done].
Qed.

(** In a sorted list the elements before [v] come first. *)
Lemma sorted_partition xs v : sorted_by f xs -> exists k, partitioned_at (fun x => f x v) xs k /\
  Forall (fun x => f x v = true) (take k xs) /\ Forall (fun x => f x v = false) (drop k xs).
Proof using StrictWeak0.
  induction xs as [|x xs IH]; intros HS.
  { exists 0. split; [by split|by split]. }
  apply StronglySorted_inv in HS as [HS Hx]. destruct (f x v) eqn:E.
  - destruct (IH HS) as (k & [Hk Hp] & Ht & Hd). exists (S k). split.
    + split; [simpl; lia|]. intros [|i] y Hy; simpl in Hy; [by injection Hy as ->|]. by rewrite (Hp _ _ Hy).
    + split; [by constructor|done].
  - assert (Forall (fun y => f y v = false) xs) as Hall.
    { eapply Forall_impl; [exact Hx|]. intros y Hy. unfold le_by in Hy. destruct (f y v) eqn:Ey; [|done].
      destruct (sw_split _ x _ Ey); congruence. }
    exists 0. split; [split; [lia|]|split; [done|by constructor]].
    intros [|i] y Hy; simpl in Hy; [by injection Hy as ->|]. rewrite Forall_lookup in Hall. by apply (Hall i).
Qed.

Lemma sorted_app xs ys : sorted_by f (xs ++ ys) <->
  sorted_by f xs /\ sorted_by f ys /\ forall x y, x ∈ xs -> y ∈ ys -> le_by f x y.
Proof.
  induction xs as [|x xs IH]; simpl.
  { split; [intros H; repeat split; [constructor|done|intros ? ? []%not_elem_of_nil]|by intros (_ & ? & _)]. }
  split.
  - intros [HS Hx]%StronglySorted_inv. apply IH in HS as (H1 & H2 & H3). apply Forall_app in Hx as [Hx1 Hx2].
    repeat split; [by constructor|done|]. intros a b [->|Ha]%elem_of_cons Hb; [|by apply H3].
    rewrite Forall_forall in Hx2. by apply Hx2.
  - intros ([H1 Hx]%StronglySorted_inv & H2 & H3). constructor.
    + apply IH. repeat split; [done..|]. intros a b Ha Hb. apply H3; [by right|done].
    + apply Forall_app. split; [done|]. apply Forall_forall. intros y Hy. apply H3; [by left|done].
Qed.
End order_lemmas.

(** ** The merge *)

Definition _merge_base : nat := 2000.
#[global] Opaque _merge_base.

Section merge_program.
Context `{Schedule} {T : Type}.

(** One more than the number of elements left is enough fuel. *)
Fixpoint seq_merge_loop (fuel : nat) (tag : assignment_tag) (A B R : slice) (f : T -> T -> bool) (i j : nat) (m : mem T)
    : res (mem T) :=
  match fuel with
  | O => Err OutOfFuel
  | S fuel =>
      let nA := slice_size A in
      let nB := slice_size B in
      if i =? nA then for_ j nB (fun j m => assign_dispatch tag (nth R (i + j)) (nth B j) m) m
      else if j =? nB then for_ i nA (fun i m => assign_dispatch tag (nth R (i + j)) (nth A i) m) m
      else
        b ← read (nth B j) m; a ← read (nth A i) m;
        if f b a then
          m ← assign_dispatch tag (nth R (i + j)) (nth B j) m; seq_merge_loop fuel tag A B R f i (j + 1) m
        else
          m ← assign_dispatch tag (nth R (i + j)) (nth A i) m; seq_merge_loop fuel tag A B R f (i + 1) j m
  end.

Definition seq_merge (tag : assignment_tag) (A B R : slice) (f : T -> T -> bool) (m : mem T) : res (mem T) :=
  seq_merge_loop (slice_size A + slice_size B + 1) tag A B R f 0 0 m.

(** The halves of a merge are smaller than it.  [path] leads from the first call to this one. *)
Fixpoint merge_into_fuel (fuel : nat) (path : list nat) (tag : assignment_tag) (A B R : slice) (f : T -> T -> bool) (m : mem T) : res (mem T) :=
  match fuel with
  | O => Err OutOfFuel
  | S fuel =>
      let nA := slice_size A in
      let nB := slice_size B in
      let nR := nA + nB in
      if nR <? _merge_base then seq_merge tag A B R f m
      else if nA =? 0 then parallel_for 0 nB (fun i m => assign_dispatch tag (nth R i) (nth B i) m) 0 m
      else if nB =? 0 then parallel_for 0 nA (fun i m => assign_dispatch tag (nth R i) (nth A i) m) 0 m
      else
        let mA := nA / 2 in
        v ← read (nth A mA) m;
        mB ← binary_search (range_of B m) v f;
        let mA := if mB =? 0 then mA + 1 else mA in
        let mR := mA + mB in
        par_do path
          (merge_into_fuel fuel (0 :: path) tag (scut A 0 mA) (scut B 0 mB) (scut R 0 mR) f)
          (merge_into_fuel fuel (1 :: path) tag (scut A mA nA) (scut B mB nB) (scut R mR nR) f) m
  end.

Definition merge_into (path : list nat) (tag : assignment_tag) (A B R : slice) (f : T -> T -> bool) (m : mem T) : res (mem T) :=
  merge_into_fuel (slice_size A + slice_size B + 1) path tag A B R f m.

(** They return the slice of the new sequence. *)
Definition merge (A B : slice) (f : T -> T -> bool) (m : mem T) : res (slice * mem T) :=
  let '(R, m) := allocate (slice_size A + slice_size B) m in
  m ← merge_into [] uninitialized_copy_tag A B R f m; Ok (R, m).

Definition merge_move (A B : slice) (f : T -> T -> bool) (m : mem T) : res (slice * mem T) :=
  let '(R, m) := allocate (slice_size A + slice_size B) m in
  m ← merge_into [] uninitialized_move_tag A B R f m; Ok (R, m).

(** ** Insertion sort and merge sort *)

(** [while (--j >= 0 && f(A[j + 1], A[j])) swap(A[j + 1], A[j]);] from [j] *)
Fixpoint sift (A : slice) (f : T -> T -> bool) (j : nat) (m : mem T) : res (mem T) :=
  match j with
  | O => Ok m
  | S j =>
      x ← read (nth A (j + 1)) m; y ← read (nth A j) m;
      if f x y then m ← swap_at (nth A (j + 1)) (nth A j) m; sift A f j m else Ok m
  end.

Definition insertion_sort (A : slice) (n : nat) (f : T -> T -> bool) (m : mem T) : res (mem T) :=
  for_ 1 n (fun i m => sift A f i m) m.

Definition MERGE_SORT_BASE : nat := 48.

Fixpoint merge_sort_fuel (fuel : nat) (path : list nat) (In Out : slice) (f : T -> T -> bool) (inplace : bool) (m : mem T) : res (mem T) :=
  match fuel with
  | O => Err OutOfFuel
  | S fuel =>
      let n := slice_size In in
      if n <? MERGE_SORT_BASE then
        m ← insertion_sort In n f m;
        if negb inplace then for_ 0 n (fun i m => relocate_at (nth In i) (nth Out i) m) m else Ok m
      else
        let mid := n / 2 in
        m ← par_do_if (64 <? n) path
          (merge_sort_fuel fuel (0 :: path) (scut In 0 mid) (scut Out 0 mid) f (negb inplace))
          (merge_sort_fuel fuel (1 :: path) (scut In mid n) (scut Out mid n) f (negb inplace)) m;
        if inplace then merge_into (2 :: path) uninitialized_relocate_tag (scut Out 0 mid) (scut Out mid n) In f m
        else merge_into (2 :: path) uninitialized_relocate_tag (scut In 0 mid) (scut In mid n) Out f m
  end.

Definition merge_sort_ (In Out : slice) (f : T -> T -> bool) (inplace : bool) (m : mem T) : res (mem T) :=
  merge_sort_fuel (slice_size In + 1) [] In Out f inplace m.

Definition merge_sort_inplace (In : slice) (f : T -> T -> bool) (m : mem T) : res (mem T) :=
  let n := slice_size In in
  if n <=? MERGE_SORT_BASE then insertion_sort In n f m
  else
    let '(B, m) := allocate n m in
    m ← merge_sort_ In B f true m; Ok (deallocate B m).

(** [parlay::sequence<value_type>(In.begin(), In.end())] *)
Definition copy_of (In : slice) (m : mem T) : res (slice * mem T) :=
  let '(A, m) := allocate (slice_size In) m in
  m ← parallel_for 0 (slice_size In) (fun i m => assign_dispatch uninitialized_copy_tag (nth A i) (nth In i) m) 0 m;
  Ok (A, m).

Definition merge_sort (In : slice) (f : T -> T -> bool) (m : mem T) : res (slice * mem T) :=
  '(A, m) ← copy_of In m;
  m ← merge_sort_inplace A f m; Ok (A, m).
End merge_program.
Lemma merge_sort_base_gt : 2 < MERGE_SORT_BASE.
Proof. unfold MERGE_SORT_BASE. lia. Qed.
#[global] Opaque MERGE_SORT_BASE.

(** ** Moving elements between slices *)

Section moves.
Context {T : Type}.
Implicit Types (m : mem T).

(** What an element leaves behind *)
Definition left_over (tag : assignment_tag) (x : T) : option T := if consumes tag then None else Some x.

(** A slice whose first elements [xs] have been moved or copied *)
Definition consumed (tag : assignment_tag) (xs ys : list T) : list (option T) := (left_over tag <$> xs) ++ (Some <$> ys).
(** A slice that has been filled with [xs], with room for [n] more *)
Definition filled (xs : list T) (n : nat) : list (option T) := (Some <$> xs) ++ replicate n None.

Lemma apart_in A R p : apart [A] [R] -> in_slice p A -> ~ in_slice p R.
Proof. intros Ha HA HR. apply (Ha p); [exists A|exists R]; (split; [left|done]). Qed.

Lemma apart_intro A R : (forall p, in_slice p A -> ~ in_slice p R) -> apart [A] [R].
Proof.
  intros Ha p (s & Hs & Hp) (s' & Hs' & Hp'). apply list_elem_of_singleton in Hs as ->, Hs' as ->. by apply (Ha p).
Qed.

Lemma dispatch_spec tag A R cs ds m i k x : constructs tag = true -> apart [A] [R] ->
  holds A cs m -> cs !! i = Some (Some x) -> holds R ds m -> ds !! k = Some None ->
  ok (assign_dispatch tag (nth R k) (nth A i) m) (fun m' =>
    same_outside [A; R] m m' /\ holds A (<[i := left_over tag x]> cs) m' /\ holds R (<[k := Some x]> ds) m').
Proof.
  intros Ht Ha HA Hi HR Hk. assert (Hic := lookup_lt_Some _ _ _ Hi). assert (Hkd := lookup_lt_Some _ _ _ Hk).
  assert (Hr := holds_read _ _ _ _ _ HA Hi).
  assert (in_slice (nth A i) A) as HinA by (by eapply holds_in). assert (in_slice (nth R k) R) as HinR by (by eapply holds_in).
  assert (construct (nth R k) x m = Ok (<[nth R k := Some x]> m)) as Hcon.
  { unfold construct. by rewrite (proj2 HR k None Hk). }
  assert (holds A cs (<[nth R k := Some x]> m)) as HA'.
  { apply holds_other; [done|]. intros HAk. by eapply (apart_in A R). }
  assert (holds R (<[k := Some x]> ds) (<[nth R k := Some x]> m)) as HR' by (by apply holds_insert).
  assert (same_outside [A; R] m (<[nth R k := Some x]> m)) as Hs.
  { apply same_outside_insert; [|done]. exists R. split; [right; left|done]. }
  assert (consumes tag = true -> holds A (<[i := left_over tag x]> cs) (<[nth A i := None]> (<[nth R k := Some x]> m)) /\
    holds R (<[k := Some x]> ds) (<[nth A i := None]> (<[nth R k := Some x]> m)) /\
    same_outside [A; R] m (<[nth A i := None]> (<[nth R k := Some x]> m))) as Hc.
  { intros Hcs. unfold left_over. rewrite Hcs. split; [by apply holds_insert|]. split.
    - apply holds_other; [done|]. by apply (apart_in A R).
    - apply same_outside_insert; [|done]. exists A. split; [left|done]. }
  assert (consumes tag = false -> <[i := left_over tag x]> cs = cs) as Hn.
  { intros Hcs. unfold left_over. rewrite Hcs. by apply list_insert_id. }
  destruct tag; try done; cbn [assign_dispatch relocate_at constructs consumes]; unfold relocate_at; rewrite Hr; cbn [mbind res_bind];
    rewrite Hcon; cbn [mbind res_bind]; (eapply ok_eq; [reflexivity|]).
  - destruct Hc as (? & ? & ?); done.
  - by rewrite Hn.
  - destruct Hc as (? & ? & ?); done.
Qed.

Lemma lookup_consumed tag xs y ys : consumed tag xs (y :: ys) !! length xs = Some (Some y).
Proof. unfold consumed. rewrite lookup_app_r, length_fmap, Nat.sub_diag by (rewrite length_fmap; lia). done. Qed.

Lemma insert_consumed tag xs y ys : <[length xs := left_over tag y]> (consumed tag xs (y :: ys)) = consumed tag (xs ++ [y]) ys.
Proof.
  unfold consumed. rewrite <- (length_fmap (left_over tag) xs) at 1. rewrite <- (Nat.add_0_r (length _)), insert_app_r.
  rewrite fmap_app, <- app_assoc. done.
Qed.

Lemma lookup_filled xs n : filled xs (S n) !! length xs = Some None.
Proof. unfold filled. rewrite lookup_app_r, length_fmap, Nat.sub_diag by (rewrite length_fmap; lia). done. Qed.

Lemma insert_filled xs y n : <[length xs := Some y]> (filled xs (S n)) = filled (xs ++ [y]) n.
Proof.
  unfold filled. rewrite <- (length_fmap Some xs) at 1. rewrite <- (Nat.add_0_r (length _)), insert_app_r.
  rewrite fmap_app, <- app_assoc. done.
Qed.

Lemma length_consumed tag xs ys : length (consumed tag xs ys) = length xs + length ys.
Proof. unfold consumed. by rewrite length_app, !length_fmap. Qed.

Lemma length_filled xs n : length (filled xs n) = length xs + n.
Proof. unfold filled. by rewrite length_app, length_fmap, length_replicate. Qed.

(** The next element of [A] goes to the next free cell of [R]. *)
Lemma dispatch_next tag A R xs y ys zs n m i k : constructs tag = true -> apart [A] [R] ->
  holds A (consumed tag xs (y :: ys)) m -> holds R (filled zs (S n)) m -> i = length xs -> k = length zs ->
  ok (assign_dispatch tag (nth R k) (nth A i) m) (fun m' =>
    same_outside [A; R] m m' /\ holds A (consumed tag (xs ++ [y]) ys) m' /\ holds R (filled (zs ++ [y]) n) m').
Proof.
  intros Ht Ha HA HR -> ->. eapply ok_mono; [by eapply (dispatch_spec tag A R); eauto using lookup_consumed, lookup_filled|].
  intros m' (Hs & HA' & HR'). rewrite insert_consumed in HA'. by rewrite insert_filled in HR'.
Qed.

(** The rest of [A] goes to [R]. *)
Lemma dispatch_rest tag A R xs ys zs n m (pos : nat -> nat) o : constructs tag = true -> apart [A] [R] ->
  holds A (consumed tag xs ys) m -> holds R (filled zs (length ys + n)) m ->
  length zs = o + length xs -> (forall i, pos i = o + i) ->
  ok (for_ (length xs) (length xs + length ys) (fun i m => assign_dispatch tag (nth R (pos i)) (nth A i) m) m) (fun m' =>
    same_outside [A; R] m m' /\ holds A (consumed tag (xs ++ ys) []) m' /\ holds R (filled (zs ++ ys) n) m').
Proof.
  intros Ht Ha HA HR Ho Hpos. unfold for_. replace (length xs + length ys - length xs) with (length ys) by lia.
  revert xs zs m HA HR Ho. induction ys as [|y ys IH]; intros xs zs m HA HR Ho.
  { apply ok_ret. by rewrite !app_nil_r. }
  cbn [length seq run] in *. cbn [Nat.add] in HR. apply ok_bind. rewrite Hpos. eapply ok_mono; [by eapply dispatch_next|]. intros m1 (Hs & HA1 & HR1).
  assert (length (xs ++ [y]) = S (length xs)) as Hx by (rewrite length_app; simpl; lia).
  assert (length (zs ++ [y]) = o + S (length xs)) as Hz by (rewrite length_app; simpl; lia).
  specialize (IH (xs ++ [y]) (zs ++ [y]) m1 HA1 HR1). rewrite Hx, <- !app_assoc in IH.
  eapply ok_mono; [by apply IH|]. intros m2 (Hs2 & HA2 & HR2). split; [by eapply same_outside_trans|done].
Qed.

(** A list that has been processed at the positions [d] *)
Definition marked {C} (g h : T -> C) (d : list nat) (xs : list T) : list C :=
  imap (fun i x => if decide (i ∈ d) then g x else h x) xs.

Lemma marked_nil {C} (g h : T -> C) xs : marked g h [] xs = h <$> xs.
Proof.
  apply list_eq. intros i. unfold marked. rewrite list_lookup_imap, list_lookup_fmap. destruct (xs !! i); [|done].
  simpl. f_equal.
Qed.

Lemma lookup_marked {C} (g h : T -> C) d xs i x : i ∉ d -> xs !! i = Some x -> marked g h d xs !! i = Some (h x).
Proof. intros Hi Hx. unfold marked. rewrite list_lookup_imap, Hx. simpl. by rewrite decide_False. Qed.

Lemma marked_insert {C} (g h : T -> C) d xs i x : xs !! i = Some x ->
  <[i := g x]> (marked g h d xs) = marked g h (d ++ [i]) xs.
Proof.
  intros Hx. apply list_eq. intros j. unfold marked. destruct (decide (i = j)) as [<-|Hne].
  - rewrite list_lookup_insert_eq by (rewrite length_imap; by eapply lookup_lt_Some).
    rewrite list_lookup_imap, Hx. simpl. rewrite decide_True; [done|set_solver].
  - rewrite list_lookup_insert_ne, !list_lookup_imap by done. destruct (xs !! j); [|done]. simpl. f_equal.
    apply decide_ext. set_solver.
Qed.

Lemma marked_all {C} (g h : T -> C) d xs : (forall i, i < length xs -> i ∈ d) -> marked g h d xs = g <$> xs.
Proof.
  intros Hd. apply list_eq. intros i. unfold marked. rewrite list_lookup_imap, list_lookup_fmap.
  destruct (xs !! i) eqn:Hx; [|done]. simpl. rewrite decide_True; [done|]. apply Hd. by eapply lookup_lt_Some.
Qed.

(** ** Correctness of the merge *)

Section merging.
Context `{Schedule} (tag : assignment_tag) (f : T -> T -> bool) (Htag : constructs tag = true).

(** A merge under way: [as1], [bs1] have gone to [zs]. *)
Definition merging (A B R : slice) (as1 as2 bs1 bs2 zs : list T) (m : mem T) : Prop :=
  holds A (consumed tag as1 as2) m /\ holds B (consumed tag bs1 bs2) m /\
  holds R (filled zs (length as2 + length bs2)) m.

Definition three_apart (A B R : slice) : Prop := apart [A] [B] /\ apart [A] [R] /\ apart [B] [R].

Lemma covers_three_A A B R p : covers [A; R] p -> covers [A; B; R] p.
Proof. rewrite !covers_cons. tauto. Qed.

Lemma covers_three_B A B R p : covers [B; R] p -> covers [A; B; R] p.
Proof. rewrite !covers_cons. tauto. Qed.

Lemma not_covered_two S A R p : apart [S] [A] -> apart [S] [R] -> in_slice p S -> ~ covers [A; R] p.
Proof.
  intros H1 H2 Hp. rewrite !covers_cons. intros [Hc|[Hc|Hc]]; [by apply (apart_in S A p)|by apply (apart_in S R p)|].
  by apply covers_nil in Hc.
Qed.

Lemma merging_A A B R as1 a as2 bs1 bs2 zs m : three_apart A B R -> merging A B R as1 (a :: as2) bs1 bs2 zs m ->
  length zs = length as1 + length bs1 ->
  ok (assign_dispatch tag (nth R (length as1 + length bs1)) (nth A (length as1)) m) (fun m' =>
    same_outside [A; B; R] m m' /\ merging A B R (as1 ++ [a]) as2 bs1 bs2 (zs ++ [a]) m').
Proof using Htag.
  intros (HAB & HAR & HBR) (HA & HB & HR) Hz. cbn [length Nat.add] in HR.
  eapply ok_mono; [by eapply (dispatch_next tag A R)|]. intros m' (Hs & HA' & HR').
  split; [eapply same_outside_mono, Hs; apply covers_three_A|]. split; [done|]. split; [|done].
  eapply holds_same_outside; [done..|]. intros p. apply not_covered_two; [by apply apart_sym|done].
Qed.

Lemma merging_B A B R as1 as2 bs1 b bs2 zs m : three_apart A B R -> merging A B R as1 as2 bs1 (b :: bs2) zs m ->
  length zs = length as1 + length bs1 ->
  ok (assign_dispatch tag (nth R (length as1 + length bs1)) (nth B (length bs1)) m) (fun m' =>
    same_outside [A; B; R] m m' /\ merging A B R as1 as2 (bs1 ++ [b]) bs2 (zs ++ [b]) m').
Proof using Htag.
  intros (HAB & HAR & HBR) (HA & HB & HR) Hz. cbn [length] in HR. rewrite Nat.add_succ_r in HR.
  eapply ok_mono; [by eapply (dispatch_next tag B R)|]. intros m' (Hs & HB' & HR').
  split; [eapply same_outside_mono, Hs; apply covers_three_B|]. split; [|done].
  eapply holds_same_outside; [done..|]. intros p. by apply not_covered_two.
Qed.

Lemma seq_merge_loop_eq fuel A B R as1 as2 bs1 bs2 zs m : three_apart A B R -> merging A B R as1 as2 bs1 bs2 zs m ->
  length zs = length as1 + length bs1 -> length as2 + length bs2 < fuel ->
  ok (seq_merge_loop fuel tag A B R f (length as1) (length bs1) m) (fun m' =>
    same_outside [A; B; R] m m' /\ merging A B R (as1 ++ as2) [] (bs1 ++ bs2) [] (zs ++ merge_list f as2 bs2) m').
Proof using Htag.
  intros Hap. revert as1 as2 bs1 bs2 zs m. induction fuel as [|fuel IH]; intros as1 as2 bs1 bs2 zs m Hm Hz Hf; [lia|].
  assert (Hm' := Hm). destruct Hm as (HA & HB & HR). assert (Hap' := Hap). destruct Hap' as (HAB & HAR & HBR).
  cbn [seq_merge_loop]. rewrite (holds_size _ _ _ HA), (holds_size _ _ _ HB), !length_consumed.
  destruct as2 as [|a as2].
  { cbn [length] in *. rewrite Nat.add_0_r, Nat.eqb_refl, merge_nil_l, app_nil_r.
    eapply ok_mono; [apply (dispatch_rest tag B R bs1 bs2 zs 0 m _ (length as1) Htag HBR HB); [by rewrite Nat.add_0_r|done..]|].
    intros m' (Hs & HB' & HR'). split; [eapply same_outside_mono, Hs; apply covers_three_B|].
    split; [|done]. eapply holds_same_outside; [done..|]. intros p. by apply not_covered_two. }
  destruct (Nat.eqb_spec (length as1) (length as1 + length (a :: as2))); [simpl in *; lia|].
  destruct bs2 as [|b bs2].
  { cbn [length] in *. rewrite Nat.add_0_r, Nat.eqb_refl, merge_nil_r, app_nil_r.
    eapply ok_mono; [apply (dispatch_rest tag A R as1 (a :: as2) zs 0 m _ (length bs1) Htag HAR HA); [done|lia|intros; lia]|].
    intros m' (Hs & HA' & HR'). split; [eapply same_outside_mono, Hs; apply covers_three_A|].
    split; [done|]. split; [|done]. eapply holds_same_outside; [done..|]. intros p. apply not_covered_two; [by apply apart_sym|done]. }
  destruct (Nat.eqb_spec (length bs1) (length bs1 + length (b :: bs2))); [simpl in *; lia|].
  rewrite (holds_read _ _ _ _ _ HB (lookup_consumed _ _ _ _)), (holds_read _ _ _ _ _ HA (lookup_consumed _ _ _ _)).
  cbn [mbind res_bind]. rewrite merge_cons. cbn [length] in Hf. destruct (f b a) eqn:E; apply ok_bind.
  - eapply ok_mono; [by eapply merging_B|]. intros m1 (Hs1 & Hm1).
    replace (length bs1 + 1) with (length (bs1 ++ [b])) by (by rewrite length_app).
    eapply ok_mono; [apply (IH _ _ _ _ _ _ Hm1); [rewrite !length_app; simpl; lia|simpl; lia]|].
    intros m2 (Hs2 & Hm2). split; [by eapply same_outside_trans|]. by rewrite <- !app_assoc in Hm2.
  - eapply ok_mono; [by eapply merging_A|]. intros m1 (Hs1 & Hm1).
    replace (length as1 + 1) with (length (as1 ++ [a])) by (by rewrite length_app).
    eapply ok_mono; [apply (IH _ _ _ _ _ _ Hm1); [rewrite !length_app; simpl; lia|simpl; lia]|].
    intros m2 (Hs2 & Hm2). split; [by eapply same_outside_trans|]. by rewrite <- !app_assoc in Hm2.
Qed.

Definition merge_pre (A B R : slice) (xs ys : list T) (m : mem T) : Prop :=
  holds A (Some <$> xs) m /\ holds B (Some <$> ys) m /\ holds R (replicate (length xs + length ys) None) m.
Definition merge_post (A B R : slice) (xs ys : list T) (m : mem T) : Prop :=
  holds A (left_over tag <$> xs) m /\ holds B (left_over tag <$> ys) m /\ holds R (Some <$> merge_list f xs ys) m.

Lemma seq_merge_eq A B R xs ys : three_apart A B R ->
  triple [A; B; R] (merge_pre A B R xs ys) (seq_merge tag A B R f) (merge_post A B R xs ys).
Proof using Htag.
  intros Hap m (HA & HB & HR). unfold seq_merge. rewrite (holds_size _ _ _ HA), (holds_size _ _ _ HB), !length_fmap.
  eapply ok_mono; [apply (seq_merge_loop_eq _ A B R [] xs [] ys [] m Hap); [done|done|lia]|].
  intros m' (Hs & HA' & HB' & HR'). unfold consumed, filled in *. cbn [fmap list_fmap app replicate length Nat.add] in *.
  rewrite !app_nil_r in *. done.
Qed.

(** Copying in parallel *)
Lemma dispatch_parallel A R xs g : apart [A] [R] ->
  triple [A; R] (fun m => holds A (Some <$> xs) m /\ holds R (replicate (length xs) None) m)
    (parallel_for 0 (length xs) (fun i m => assign_dispatch tag (nth R i) (nth A i) m) g)
    (fun m => holds A (left_over tag <$> xs) m /\ holds R (Some <$> xs) m).
Proof using Htag.
  intros Hap m0 (HA & HR).
  assert (replicate (length xs) (@None T) = (fun _ => None) <$> xs) as Hrep by (symmetry; by apply const_fmap).
  pose (I (d : list nat) (m : mem T) := same_outside [A; R] m0 m /\
    holds A (marked (left_over tag) Some d xs) m /\ holds R (marked Some (fun _ => None) d xs) m).
  eapply ok_mono; [apply (ok_parallel_for I)|].
  - split; [done|]. by rewrite !marked_nil, <- Hrep.
  - intros d i m [_ Hi] Hd (Hs & HA' & HR'). destruct (lookup_lt_is_Some_2 xs i Hi) as [x Hx].
    eapply ok_mono; [eapply (dispatch_spec tag A R _ _ m i i x Htag Hap HA');
      [by rewrite (lookup_marked _ _ _ _ _ x)|exact HR'|by rewrite (lookup_marked _ _ _ _ _ x)]|].
    intros m' (Hs' & HA2 & HR2). rewrite marked_insert in HA2, HR2 by done.
    split; [by eapply same_outside_trans|done].
  - intros m (d & Hd & Hs & HA' & HR'). split; [done|]. rewrite Nat.sub_0_r in Hd.
    rewrite !marked_all in * by (intros i Hi; rewrite Hd; apply elem_of_seq; lia). done.
Qed.

(** *** Cutting the slices of a merge *)

Lemma in_scut p s i j : j <= slice_size s -> in_slice p (scut s i j) -> in_slice p s.
Proof. unfold in_slice, scut, slice_size. cbn [arr s_begin s_end]. lia. Qed.

Lemma in_scut_both p s i j k : in_slice p (scut s i j) -> ~ in_slice p (scut s j k).
Proof. unfold in_slice, scut. cbn [arr s_begin s_end]. lia. Qed.

Lemma three_apart_cut A B R i i' j j' k k' : three_apart A B R ->
  i' <= slice_size A -> j' <= slice_size B -> k' <= slice_size R -> three_apart (scut A i i') (scut B j j') (scut R k k').
Proof.
  intros (HAB & HAR & HBR) HA HB HR. repeat split; apply apart_intro; intros p H1 H2; apply in_scut in H1, H2; try done.
  - by apply (apart_in A B p).
  - by apply (apart_in A R p).
  - by apply (apart_in B R p).
Qed.

Lemma cuts_apart A B R i j k nA nB nR : three_apart A B R ->
  i <= slice_size A -> j <= slice_size B -> k <= slice_size R ->
  nA <= slice_size A -> nB <= slice_size B -> nR <= slice_size R ->
  apart [scut A 0 i; scut B 0 j; scut R 0 k] [scut A i nA; scut B j nB; scut R k nR].
Proof.
  intros (HAB & HAR & HBR) HA HB HR HA' HB' HR' p H1 H2. rewrite !covers_cons in H1, H2.
  destruct H1 as [H1|[H1|[H1|H1]]]; [| | |by apply covers_nil in H1];
    destruct H2 as [H2|[H2|[H2|H2]]]; try (by apply covers_nil in H2); try (exact (in_scut_both _ _ _ _ _ H1 H2));
    apply in_scut in H1, H2; try done.
  - by apply (apart_in A B p).
  - by apply (apart_in A R p).
  - by apply (apart_in A B p).
  - by apply (apart_in B R p).
  - by apply (apart_in A R p).
  - by apply (apart_in B R p).
Qed.

Lemma covers_cuts A B R i j k p : i <= slice_size A -> j <= slice_size B -> k <= slice_size R ->
  covers ([scut A 0 i; scut B 0 j; scut R 0 k] ++ [scut A i (slice_size A); scut B j (slice_size B); scut R k (slice_size R)]) p ->
  covers [A; B; R] p.
Proof.
  intros HA HB HR. rewrite covers_app, !covers_cons.
  intros [[H1|[H1|[H1|H1]]]|[H1|[H1|[H1|H1]]]]; try (by apply covers_nil in H1); apply in_scut in H1; tauto || lia.
Qed.

(** Slices that hold a list hold its two parts. *)
Lemma holds_take_drop {C} (g : C -> option T) s xs k m : k <= length xs ->
  holds s (g <$> xs) m <->
  s_end s = s_begin s + length xs /\
  holds (scut s 0 k) (g <$> take k xs) m /\ holds (scut s k (slice_size s)) (g <$> drop k xs) m.
Proof.
  intros Hk. rewrite <- (take_drop k xs) at 1. rewrite fmap_app, holds_cut, !length_fmap, length_take_le by done.
  rewrite length_drop. split; intros (H1 & H2 & H3); (split; [lia|done]).
Qed.

Lemma merge_pre_cut A B R xs ys i j m : i <= length xs -> j <= length ys -> merge_pre A B R xs ys m ->
  merge_pre (scut A 0 i) (scut B 0 j) (scut R 0 (i + j)) (take i xs) (take j ys) m /\
  merge_pre (scut A i (slice_size A)) (scut B j (slice_size B)) (scut R (i + j) (slice_size R)) (drop i xs) (drop j ys) m.
Proof.
  intros Hi Hj (HA & HB & HR). apply (holds_take_drop _ _ _ i) in HA as (_ & HA1 & HA2); [|done].
  apply (holds_take_drop _ _ _ j) in HB as (_ & HB1 & HB2); [|done].
  replace (length xs + length ys) with ((i + j) + (length (drop i xs) + length (drop j ys))) in HR by (rewrite !length_drop; lia).
  rewrite replicate_add in HR. apply holds_cut in HR as (_ & HR1 & HR2). rewrite length_replicate in HR1, HR2.
  split; (split; [done|split; [done|]]); [|done]. by rewrite !length_take_le.
Qed.

Lemma merge_post_cut A B R xs ys i j m : i <= length xs -> j <= length ys ->
  slice_size A = length xs -> slice_size B = length ys -> slice_size R = length xs + length ys -> s_begin A <= s_end A ->
  s_begin B <= s_end B -> s_begin R <= s_end R ->
  merge_list f xs ys = merge_list f (take i xs) (take j ys) ++ merge_list f (drop i xs) (drop j ys) ->
  merge_post (scut A 0 i) (scut B 0 j) (scut R 0 (i + j)) (take i xs) (take j ys) m ->
  merge_post (scut A i (slice_size A)) (scut B j (slice_size B)) (scut R (i + j) (slice_size R)) (drop i xs) (drop j ys) m ->
  merge_post A B R xs ys m.
Proof.
  intros Hi Hj HsA HsB HsR HbA HbB HbR Hsplit (HA1 & HB1 & HR1) (HA2 & HB2 & HR2). unfold slice_size in HsA, HsB, HsR. split; [|split].
  - apply (holds_take_drop _ _ _ i); [done|]. split; [lia|done].
  - apply (holds_take_drop _ _ _ j); [done|]. split; [lia|done].
  - rewrite Hsplit, fmap_app. apply holds_cut. rewrite !length_fmap, !length_merge, !length_take_le, !length_drop by done.
    split; [lia|done].
Qed.

Lemma merge_pre_stable A B R xs ys : stable [A; B; R] (merge_pre A B R xs ys).
Proof. unfold merge_pre. solve_stable. Qed.

Lemma merge_post_stable A B R xs ys : stable [A; B; R] (merge_post A B R xs ys).
Proof. unfold merge_post. solve_stable. Qed.

(** What [merge_into] computes from the positions where it cuts *)
Lemma cut_merge `{!StrictWeak f} xs ys i v mB : sorted_by f xs -> xs !! i = Some v ->
  Forall (fun y => f y v = true) (take mB ys) -> Forall (fun y => f y v = false) (drop mB ys) ->
  let mA := if mB =? 0 then i + 1 else i in
  merge_list f xs ys = merge_list f (take mA xs) (take mB ys) ++ merge_list f (drop mA xs) (drop mB ys).
Proof using Type.
  intros HS Hv Ht Hd mA. rewrite <- merge_split, !take_drop; [done|..].
  - intros a b Ha Hb. rewrite Forall_forall in Ht. specialize (Ht b Hb).
    unfold mA in Ha. destruct (Nat.eqb_spec mB 0) as [->|]; [by apply not_elem_of_nil in Hb|].
    rewrite (drop_S _ _ _ Hv) in Ha. apply elem_of_cons in Ha as [->|Ha]; [done|].
    destruct (sw_split b a v Ht) as [|Hav]; [done|]. exfalso.
    rewrite <- (take_drop i xs), (drop_S _ _ _ Hv) in HS. apply sorted_app in HS as (_ & HS & _).
    apply StronglySorted_inv in HS as [_ HS]. rewrite Forall_forall in HS. specialize (HS a Ha). unfold le_by in HS. congruence.
  - intros a b Ha Hb. rewrite Forall_forall in Hd. specialize (Hd b Hb). destruct (f b a) eqn:E; [|done]. exfalso.
    destruct (sw_split b v a E) as [|Hva]; [congruence|].
    assert (a = v \/ a ∈ take i xs) as [->|Ha'].
    { unfold mA in Ha. destruct (mB =? 0); [|by right]. rewrite Nat.add_1_r, (take_S_r _ _ _ Hv), elem_of_app in Ha.
      destruct Ha as [Ha|Ha%list_elem_of_singleton]; [by right|by left]. }
    + by rewrite sw_irrefl in Hva.
    + rewrite <- (take_drop i xs), (drop_S _ _ _ Hv) in HS. apply sorted_app in HS as (_ & _ & HS).
      specialize (HS a v Ha' ltac:(left)). unfold le_by in HS. congruence.
Qed.

Lemma merge_into_fuel_eq `{!StrictWeak f} fuel path A B R xs ys : three_apart A B R -> sorted_by f xs -> sorted_by f ys ->
  length xs + length ys < fuel ->
  triple [A; B; R] (merge_pre A B R xs ys) (merge_into_fuel fuel path tag A B R f) (merge_post A B R xs ys).
Proof using Htag.
  revert path A B R xs ys. induction fuel as [|fuel IH]; intros path A B R xs ys Hap Hxs Hys Hf m Hpre; [lia|].
  assert (Hpre' := Hpre). destruct Hpre' as (HA & HB & HR). assert (Hap' := Hap). destruct Hap' as (HAB & HAR & HBR).
  assert (slice_size A = length xs) as HsA by (by rewrite (holds_size _ _ _ HA), length_fmap).
  assert (slice_size B = length ys) as HsB by (by rewrite (holds_size _ _ _ HB), length_fmap).
  assert (slice_size R = length xs + length ys) as HsR by (by rewrite (holds_size _ _ _ HR), length_replicate).
  cbn [merge_into_fuel]. cbv zeta. rewrite HsA, HsB.
  destruct (_ <? _); [by apply seq_merge_eq|].
  destruct (Nat.eqb_spec (length xs) 0) as [H0|H0].
  { apply nil_length_inv in H0 as ->. eapply ok_mono; [apply (dispatch_parallel B R ys 0 HBR); by split|].
    intros m' [Hs [HB' HR']]. split; [eapply same_outside_mono, Hs; apply covers_three_B|].
    split; [|split; [done|by rewrite merge_nil_l]]. eapply holds_same_outside; [done..|]. intros p. by apply not_covered_two. }
  destruct (Nat.eqb_spec (length ys) 0) as [H1|H1].
  { apply nil_length_inv in H1 as ->. rewrite Nat.add_0_r in HR.
    eapply ok_mono; [apply (dispatch_parallel A R xs 0 HAR); by split|].
    intros m' [Hs [HA' HR']]. split; [eapply same_outside_mono, Hs; apply covers_three_A|].
    split; [done|split; [|by rewrite merge_nil_r]]. eapply holds_same_outside; [done..|]. intros p.
    apply not_covered_two; [by apply apart_sym|done]. }
  assert (length xs / 2 < length xs) as Hhalf by (apply Nat.div_lt; lia).
  destruct (lookup_lt_is_Some_2 xs (length xs / 2)) as [v Hv]; [done|].
  rewrite (holds_read A (Some <$> xs) m _ v HA) by (by rewrite list_lookup_fmap, Hv). cbn [mbind res_bind].
  destruct (sorted_partition f ys v Hys) as (mB & Hpart & Ht & Hd).
  rewrite binary_search_if_eq, (binary_search_if_correct _ _ ys mB) by (done || by apply holds_range). cbn [mbind res_bind].
  assert (mB <= length ys) as HmB by apply Hpart.
  assert (Hcut := cut_merge xs ys _ v mB Hxs Hv Ht Hd). cbv zeta in Hcut.
  set (mA := if mB =? 0 then length xs / 2 + 1 else length xs / 2) in *.
  assert (mA <= length xs /\ 0 < mA + mB /\ mA + mB < length xs + length ys) as (HmA & Hpos & Hlt).
  { unfold mA. destruct (Nat.eqb_spec mB 0); lia. }
  assert (three_apart (scut A 0 mA) (scut B 0 mB) (scut R 0 (mA + mB))) as Hap1 by (apply three_apart_cut; [done|lia..]).
  assert (three_apart (scut A mA (length xs)) (scut B mB (length ys)) (scut R (mA + mB) (length xs + length ys))) as Hap2
    by (apply three_apart_cut; [done|lia..]).
  rewrite <- (take_drop mA xs) in Hxs at 1. rewrite <- (take_drop mB ys) in Hys at 1.
  apply sorted_app in Hxs as (Hxs1 & Hxs2 & _). apply sorted_app in Hys as (Hys1 & Hys2 & _).
  destruct (merge_pre_cut A B R xs ys mA mB m HmA HmB Hpre) as [Hp1 Hp2]. rewrite HsA, HsB, HsR in Hp2.
  eapply ok_mono; [apply (triple_par_do _ _ _ _ _ _ _ _ path (IH _ _ _ _ _ _ Hap1 Hxs1 Hys1 ltac:(rewrite !length_take_le by done; lia))
    (IH _ _ _ _ _ _ Hap2 Hxs2 Hys2 ltac:(rewrite !length_drop; lia)))|].
  - apply cuts_apart; [done|lia..].
  - apply merge_pre_stable.
  - apply merge_post_stable.
  - apply merge_pre_stable.
  - apply merge_post_stable.
  - by split.
  - intros m' (Hs & Hq1 & Hq2). split.
    + eapply same_outside_mono, Hs. intros p. rewrite <- HsA, <- HsB, <- HsR at 1. apply covers_cuts; lia.
    + destruct HA as [HeA _], HB as [HeB _], HR as [HeR _].
      apply (merge_post_cut A B R xs ys mA mB); [done..|lia|lia|lia|done|done|]. by rewrite HsA, HsB, HsR.
Qed.

Lemma merge_into_eq `{!StrictWeak f} path A B R xs ys : three_apart A B R -> sorted_by f xs -> sorted_by f ys ->
  triple [A; B; R] (merge_pre A B R xs ys) (merge_into path tag A B R f) (merge_post A B R xs ys).
Proof using Htag.
  intros Hap Hxs Hys m Hpre. unfold merge_into. assert (Hpre' := Hpre). destruct Hpre' as (HA & HB & HR).
  rewrite (holds_size _ _ _ HA), (holds_size _ _ _ HB), !length_fmap. apply merge_into_fuel_eq; [done..|lia|done].
Qed.
End merging.
End moves.

(** ** Insertion sort *)

Section sorting.
Context `{Schedule} {T : Type} (f : T -> T -> bool) `{!StrictWeak f}.
Implicit Types (m : mem T).

Lemma swap_next A (xs : list T) y x ys m j : holds A (Some <$> (xs ++ y :: x :: ys)) m -> j = length xs ->
  ok (swap_at (nth A (j + 1)) (nth A j) m) (fun m' => same_outside [A] m m' /\ holds A (Some <$> (xs ++ x :: y :: ys)) m').
Proof.
  intros HA ->. unfold swap_at.
  assert ((Some <$> (xs ++ y :: x :: ys)) !! length xs = Some (Some y)) as Hy.
  { by rewrite list_lookup_fmap, list_lookup_middle. }
  assert ((Some <$> (xs ++ y :: x :: ys)) !! (length xs + 1) = Some (Some x)) as Hx.
  { rewrite list_lookup_fmap, lookup_app_r by lia. by replace (length xs + 1 - length xs) with 1 by lia. }
  rewrite (holds_read _ _ _ _ _ HA Hx), (holds_read _ _ _ _ _ HA Hy). cbn [mbind res_bind].
  assert (Hlx := lookup_lt_Some _ _ _ Hx). assert (Hly := lookup_lt_Some _ _ _ Hy).
  eapply ok_eq; [reflexivity|]. split.
  - apply same_outside_insert; [exists A; split; [left|by eapply holds_in]|].
    apply same_outside_insert; [exists A; split; [left|by eapply holds_in]|done].
  - replace (Some <$> (xs ++ x :: y :: ys)) with
      (<[length xs := Some x]> (<[length xs + 1 := Some y]> (Some <$> (xs ++ y :: x :: ys)))).
    + apply holds_insert; [by apply holds_insert|by rewrite length_insert].
    + rewrite !fmap_app, !fmap_cons, <- (length_fmap Some xs), insert_app_r.
      rewrite <- (Nat.add_0_r (length (Some <$> xs))), insert_app_r. done.
Qed.

Lemma sift_eq A xs x ys m : holds A (Some <$> (xs ++ x :: ys)) m ->
  ok (sift A f (length xs) m) (fun m' => same_outside [A] m m' /\ exists l r, xs = l ++ r /\
    Forall (fun y => f x y = true) r /\ (forall y, last l = Some y -> f x y = false) /\
    holds A (Some <$> (l ++ x :: r ++ ys)) m').
Proof using Type.
  revert ys m. induction xs as [|y xs IH] using rev_ind; intros ys m HA.
  { apply ok_ret. split; [done|]. by exists [], []. }
  rewrite length_app, Nat.add_1_r. cbn [sift]. rewrite <- app_assoc in HA. cbn [app] in HA.
  assert ((Some <$> (xs ++ y :: x :: ys)) !! length xs = Some (Some y)) as Hy.
  { by rewrite list_lookup_fmap, list_lookup_middle. }
  assert ((Some <$> (xs ++ y :: x :: ys)) !! (length xs + 1) = Some (Some x)) as Hx.
  { rewrite list_lookup_fmap, lookup_app_r by lia. by replace (length xs + 1 - length xs) with 1 by lia. }
  rewrite (holds_read _ _ _ _ _ HA Hx), (holds_read _ _ _ _ _ HA Hy). cbn [mbind res_bind].
  destruct (f x y) eqn:E.
  - apply ok_bind. eapply ok_mono; [by eapply swap_next|]. intros m1 [Hs1 H1].
    eapply ok_mono; [by apply (IH (y :: ys))|]. intros m2 (Hs2 & l & r & -> & Hr & Hl & H2).
    split; [by eapply same_outside_trans|]. exists l, (r ++ [y]). rewrite app_assoc. split; [done|].
    split; [apply Forall_app; split; [done|by constructor]|]. split; [done|]. by rewrite <- app_assoc.
  - apply ok_ret. split; [done|]. exists (xs ++ [y]), []. rewrite app_nil_r. split; [done|]. split; [constructor|].
    split; [intros z; rewrite last_snoc; by intros [= <-]|]. by rewrite <- app_assoc.
Qed.

(** Inserting behind the last element that may stand before it keeps a stable sort. *)
Lemma insert_stable xs x l r : stable_sort_of f xs (l ++ r) -> Forall (fun y => f x y = true) r ->
  (forall y, last l = Some y -> f x y = false) -> stable_sort_of f (xs ++ [x]) (l ++ x :: r).
Proof using StrictWeak0.
  intros (HS & HP & HF) Hr Hl. apply sorted_app in HS as (HSl & HSr & Hlr).
  assert (forall y, y ∈ l -> le_by f y x) as Hlx.
  { intros y Hy. destruct l as [|z l _] using rev_ind; [by apply not_elem_of_nil in Hy|].
    specialize (Hl z ltac:(by rewrite last_snoc)). apply sorted_app in HSl as (_ & _ & HSl).
    apply elem_of_app in Hy as [Hy|Hy%list_elem_of_singleton]; [|by subst].
    apply (le_by_trans f _ z); [apply HSl; [done|left]|done]. }
  split; [|split].
  - apply sorted_app. split; [done|]. split.
    + constructor; [done|]. eapply Forall_impl; [exact Hr|]. intros y Hy. by apply lt_le_by.
    + intros a b Ha [->|Hb]%elem_of_cons; [by apply Hlx|by apply Hlr].
  - rewrite <- Permutation_middle, HP. apply Permutation_cons_append.
  - intros z. specialize (HF z). rewrite !List.filter_app in *. cbn [List.filter]. rewrite <- HF, <- app_assoc. f_equal.
    destruct (equiv_by f z x) eqn:Ez; [|by rewrite app_nil_r]. rewrite (filter_none _ r); [done|].
    eapply Forall_impl; [exact Hr|]. intros y Hy. by eapply equiv_lt.
Qed.

Lemma stable_sort_nil : stable_sort_of f [] [].
Proof. split; [constructor|done]. Qed.

Lemma insertion_sort_eq A xs :
  triple [A] (holds A (Some <$> xs)) (insertion_sort A (length xs) f)
    (fun m => exists ys, stable_sort_of f xs ys /\ holds A (Some <$> ys) m).
Proof using StrictWeak0.
  intros m0 HA. unfold insertion_sort. destruct xs as [|x0 xs0] eqn:Exs.
  { apply ok_ret. split; [done|]. exists []. split; [apply stable_sort_nil|done]. }
  rewrite <- Exs in *. assert (1 <= length xs) as Hlen by (subst; simpl; lia).
  eapply ok_mono; [apply (ok_for (fun i m => same_outside [A] m0 m /\
    exists ys, stable_sort_of f (take i xs) ys /\ holds A (Some <$> (ys ++ drop i xs)) m))|].
  - done.
  - split; [done|]. exists (take 1 xs). rewrite take_drop. split; [|done]. subst. cbn [take]. rewrite take_0.
    split; [constructor; constructor|done].
  - intros i m [_ Hi] (Hs & ys & Hys & HA'). destruct (lookup_lt_is_Some_2 xs i Hi) as [x Hx].
    rewrite (drop_S _ _ _ Hx) in HA'.
    assert (length ys = i) as Hly. { destruct Hys as (_ & HP & _). rewrite HP, length_take. lia. }
    rewrite <- Hly at 1. eapply ok_mono; [by apply sift_eq|]. intros m' (Hs' & l & r & -> & Hr & Hl & HA2).
    split; [by eapply same_outside_trans|]. exists (l ++ x :: r). rewrite Nat.add_1_r, (take_S_r _ _ _ Hx).
    split; [by apply insert_stable|]. by rewrite <- app_assoc.
  - intros m (Hs & ys & Hys & HA'). split; [done|]. exists ys. rewrite firstn_all in Hys.
    by rewrite drop_all, app_nil_r in HA'.
Qed.

(** ** Merge sort *)

Lemma merge_stable_sort xs1 xs2 ys1 ys2 : stable_sort_of f xs1 ys1 -> stable_sort_of f xs2 ys2 ->
  stable_sort_of f (xs1 ++ xs2) (merge_list f ys1 ys2).
Proof using StrictWeak0.
  intros (HS1 & HP1 & HF1) (HS2 & HP2 & HF2). split; [by apply merge_sorted|]. split.
  - by rewrite merge_perm, HP1, HP2.
  - intros z. rewrite merge_stable by done. by rewrite HF1, HF2, List.filter_app.
Qed.

Definition sort_pre (In Out : slice) (xs : list T) m : Prop :=
  holds In (Some <$> xs) m /\ holds Out (replicate (length xs) None) m.
(** The sorted elements end in [In] or [Out], and the other one is empty. *)
Definition sort_post (In Out : slice) (inplace : bool) (xs : list T) m : Prop :=
  exists ys, stable_sort_of f xs ys /\ holds (if inplace then In else Out) (Some <$> ys) m /\
    holds (if inplace then Out else In) (replicate (length xs) None) m.

Lemma left_over_relocate (xs : list T) : left_over uninitialized_relocate_tag <$> xs = replicate (length xs) None.
Proof. by apply const_fmap. Qed.

Lemma sort_pre_stable In Out xs : stable [In; Out] (sort_pre In Out xs).
Proof. unfold sort_pre. solve_stable. Qed.

Lemma sort_post_stable In Out b xs : stable [In; Out] (sort_post In Out b xs).
Proof. unfold sort_post. destruct b; solve_stable. Qed.

(** The base case *)
Lemma sort_base In Out b xs : apart [In] [Out] ->
  triple [In; Out] (sort_pre In Out xs) (fun m =>
    m ← insertion_sort In (length xs) f m;
    if negb b then for_ 0 (length xs) (fun i m => relocate_at (nth In i) (nth Out i) m) m else Ok m)
  (sort_post In Out b xs).
Proof using StrictWeak0.
  intros Hap m (HIn & HOut). apply ok_bind. eapply ok_mono; [by apply insertion_sort_eq|]. intros m1 (Hs1 & ys & Hys & H1).
  assert (same_outside [In; Out] m m1) as Hs by (eapply same_outside_mono, Hs1; intros p; rewrite !covers_cons; tauto).
  assert (holds Out (replicate (length xs) None) m1) as HOut1.
  { apply (holds_same_outside [In] Out _ m m1 HOut Hs1). intros p Hp Hc. rewrite covers_cons in Hc. destruct Hc as [Hc|Hc]; [|by apply covers_nil in Hc].
    by apply (apart_in In Out p). }
  assert (length ys = length xs) as Hl by (destruct Hys as (_ & HP & _); by rewrite HP).
  destruct b; simpl; [apply ok_ret; split; [done|]; by exists ys|].
  rewrite <- Hl in HOut1 |- *.
  eapply ok_mono; [apply (dispatch_rest uninitialized_relocate_tag In Out [] ys [] 0 m1 (fun i => i) 0 eq_refl Hap H1)|].
  - unfold filled. by rewrite Nat.add_0_r.
  - done.
  - done.
  - intros m2 (Hs2 & H2 & HOut2). split; [by eapply same_outside_trans|]. exists ys. split; [done|].
    unfold consumed, filled in *. cbn [app] in *. rewrite !app_nil_r in *. rewrite left_over_relocate in H2. by rewrite <- Hl.
Qed.

(** The merge at the end of a step *)
Lemma sort_merge path In Out (xs ys1 ys2 : list T) k : apart [Out] [In] -> sorted_by f ys1 -> sorted_by f ys2 ->
  length ys1 = k -> length ys1 + length ys2 = length xs -> slice_size Out = length xs ->
  triple [Out; In] (fun m => holds (scut Out 0 k) (Some <$> ys1) m /\ holds (scut Out k (length xs)) (Some <$> ys2) m /\
      holds In (replicate (length xs) None) m)
    (merge_into path uninitialized_relocate_tag (scut Out 0 k) (scut Out k (length xs)) In f)
    (fun m => holds (scut Out 0 k) (replicate (length ys1) None) m /\ 
      holds (scut Out k (length xs)) (replicate (length ys2) None) m /\ holds In (Some <$> merge_list f ys1 ys2) m).
Proof using StrictWeak0.
  intros Hap HS1 HS2 <- Hl HsO. eapply triple_conseq; [apply (merge_into_eq uninitialized_relocate_tag f eq_refl _ _ _ In ys1 ys2)|..].
  - split; [|split]; apply apart_intro; intros p H1 H2.
    + exact (in_scut_both _ _ _ _ _ H1 H2).
    + apply in_scut in H1; [|lia]. by apply (apart_in Out In p).
    + apply in_scut in H1; [|lia]. by apply (apart_in Out In p).
  - done.
  - done.
  - intros p. rewrite !covers_cons. intros [Hp|[Hp|[Hp|Hp]]]; [apply in_scut in Hp; [tauto|lia]..|tauto|tauto].
  - intros m (H1 & H2 & H3). split; [done|split; [done|]]. by rewrite Hl.
  - intros m (H1 & H2 & H3). by rewrite !left_over_relocate in *.
Qed.

Lemma holds_empty_cut s (n k : nat) m : k <= n ->
  holds s (replicate n (@None T)) m <-> s_end s = s_begin s + n /\
    holds (scut s 0 k) (replicate k None) m /\ holds (scut s k (slice_size s)) (replicate (n - k) None) m.
Proof.
  intros Hk. replace n with (k + (n - k)) at 1 by lia. rewrite replicate_add, holds_cut, !length_replicate.
  split; intros (H1 & H2 & H3); (split; [lia|done]).
Qed.

(** The halves of the slices *)
Lemma sort_pre_cut In Out xs k m : k <= length xs -> sort_pre In Out xs m ->
  sort_pre (scut In 0 k) (scut Out 0 k) (take k xs) m /\
  sort_pre (scut In k (slice_size In)) (scut Out k (slice_size Out)) (drop k xs) m.
Proof.
  intros Hk (HIn & HOut). apply (holds_take_drop _ _ _ k) in HIn as (_ & HIn1 & HIn2); [|done].
  apply (holds_empty_cut _ _ k) in HOut as (_ & HOut1 & HOut2); [|done].
  split; (split; [done|]); [by rewrite length_take_le|by rewrite length_drop].
Qed.

Lemma two_cuts_apart In Out k n : apart [In] [Out] -> k <= slice_size In -> k <= slice_size Out ->
  n <= slice_size In -> n <= slice_size Out ->
  apart [scut In 0 k; scut Out 0 k] [scut In k n; scut Out k n].
Proof.
  intros Hap HkI HkO HnI HnO p H1 H2. rewrite !covers_cons in H1, H2.
  destruct H1 as [H1|[H1|H1]]; [| |by apply covers_nil in H1];
    destruct H2 as [H2|[H2|H2]]; try (by apply covers_nil in H2); try (exact (in_scut_both _ _ _ _ _ H1 H2));
    apply in_scut in H1, H2; try done; by apply (apart_in In Out p).
Qed.

Lemma merge_sort_fuel_eq fuel path In Out b xs : apart [In] [Out] -> length xs < fuel ->
  triple [In; Out] (sort_pre In Out xs) (merge_sort_fuel fuel path In Out f b) (sort_post In Out b xs).
Proof using StrictWeak0.
  revert path In Out b xs. induction fuel as [|fuel IH]; intros path In Out b xs Hap Hf m Hpre; [lia|].
  assert (slice_size In = length xs) as HsI by (destruct Hpre as [HI _]; by rewrite (holds_size _ _ _ HI), length_fmap).
  assert (slice_size Out = length xs) as HsO by (destruct Hpre as [_ HO]; by rewrite (holds_size _ _ _ HO), length_replicate).
  cbn [merge_sort_fuel]. cbv zeta. rewrite HsI.
  destruct (Nat.ltb_spec (length xs) MERGE_SORT_BASE) as [Hb|Hb]; [by apply (sort_base In Out b xs)|].
  assert (Hbase := merge_sort_base_gt).
  set (k := length xs / 2).
  assert (0 < k /\ k < length xs) as [Hk0 Hk].
  { unfold k. split; [apply Nat.div_str_pos; lia|apply Nat.div_lt; lia]. }
  destruct (sort_pre_cut In Out xs k m ltac:(lia) Hpre) as [Hp1 Hp2]. rewrite HsI, HsO in Hp2.
  assert (apart [scut In 0 k] [scut Out 0 k]) as Hap1.
  { apply apart_intro. intros p H1 H2. apply in_scut in H1, H2; [by apply (apart_in In Out p)|lia..]. }
  assert (apart [scut In k (length xs)] [scut Out k (length xs)]) as Hap2.
  { apply apart_intro. intros p H1 H2. apply in_scut in H1, H2; [by apply (apart_in In Out p)|lia..]. }
  apply ok_bind. eapply ok_mono; [apply (triple_par_do_if (64 <? length xs) _ _ _ _ _ _ _ _ path
    (IH _ _ _ (negb b) (take k xs) Hap1 ltac:(rewrite length_take_le; lia))
    (IH _ _ _ (negb b) (drop k xs) Hap2 ltac:(rewrite length_drop; lia)))|].
  - apply two_cuts_apart; [done|lia..].
  - apply sort_pre_stable.
  - apply sort_post_stable.
  - apply sort_pre_stable.
  - apply sort_post_stable.
  - by split.
  - intros m1 (Hs1 & (ys1 & Hy1 & H1 & H1') & (ys2 & Hy2 & H2 & H2')).
    assert (same_outside [In; Out] m m1) as Hs.
    { eapply same_outside_mono, Hs1. intros p. rewrite covers_app, !covers_cons.
      intros [[Hc|[Hc|Hc]]|[Hc|[Hc|Hc]]]; try (by apply covers_nil in Hc); (apply in_scut in Hc; [tauto|lia]). }
    assert (stable_sort_of f xs (merge_list f ys1 ys2)) as Hsort.
    { rewrite <- (take_drop k xs). by apply merge_stable_sort. }
    assert (length ys1 = k) as Hl1 by (destruct Hy1 as (_ & -> & _); apply length_take_le; lia).
    assert (length ys2 = length xs - k) as Hl2 by (destruct Hy2 as (_ & -> & _); apply length_drop).
    rewrite length_take_le in H1' by lia. rewrite length_drop in H2'.
    assert (s_end In = s_begin In + length xs) as HeI.
    { destruct Hpre as [[HI _] _]. by rewrite length_fmap in HI. }
    assert (s_end Out = s_begin Out + length xs) as HeO.
    { destruct Hpre as [_ [HO _]]. by rewrite length_replicate in HO. }
    destruct b; cbn [negb] in *.
    + eapply ok_mono; [apply (sort_merge _ In Out xs ys1 ys2 k); [by apply apart_sym|apply Hy1|apply Hy2|done|lia|done|]|].
      { split; [done|split; [done|]]. apply (holds_empty_cut In _ k); [lia|]. by rewrite HsI. }
      intros m2 (Hs2 & HO1 & HO2 & HI). split.
      { eapply same_outside_trans, same_outside_mono, Hs2; [done|]. intros p. rewrite !covers_cons. tauto. }
      exists (merge_list f ys1 ys2). split; [done|split; [done|]].
      apply (holds_empty_cut Out _ k); [lia|]. rewrite HsO. split; [done|]. by rewrite Hl1, Hl2 in *.
    + eapply ok_mono; [apply (sort_merge _ Out In xs ys1 ys2 k); [done|apply Hy1|apply Hy2|done|lia|done|]|].
      { split; [done|split; [done|]]. apply (holds_empty_cut Out _ k); [lia|]. by rewrite HsO. }
      intros m2 (Hs2 & HI1 & HI2 & HO). split.
      { eapply same_outside_trans, same_outside_mono, Hs2; [done|]. intros p. rewrite !covers_cons. tauto. }
      exists (merge_list f ys1 ys2). split; [done|split; [done|]].
      apply (holds_empty_cut In _ k); [lia|]. rewrite HsI. split; [done|]. by rewrite Hl1, Hl2 in *.
Qed.

Lemma merge_sort_inplace_eq In xs :
  triple [In] (holds In (Some <$> xs)) (merge_sort_inplace In f)
    (fun m => exists ys, stable_sort_of f xs ys /\ holds In (Some <$> ys) m).
Proof using StrictWeak0.
  intros m HIn. assert (slice_size In = length xs) as HsI by (by rewrite (holds_size _ _ _ HIn), length_fmap).
  unfold merge_sort_inplace. rewrite HsI. destruct (_ <=? _); [by apply insertion_sort_eq|].
  destruct (allocate (length xs) m) as [B m1] eqn:Ha.
  destruct (allocate_spec _ _ _ _ Ha) as (HB & HsB & Hother & Hsame & Hfresh).
  destruct (Hother _ _ HIn) as [Hap HIn1].
  unfold merge_sort_. rewrite HsI. apply ok_bind.
  eapply ok_mono; [apply (merge_sort_fuel_eq (length xs + 1) [] In B true xs Hap); [lia|by split]|].
  intros m2 (Hs2 & ys & Hys & HIn2 & HB2). apply ok_ret. split.
  - intros p Hp. rewrite lookup_deallocate. destruct (decide (p.1 = arr B)) as [E|E]; [by rewrite Hfresh|].
    rewrite Hs2; [by apply Hsame|]. rewrite !covers_cons. intros [Hc|[Hc|Hc]].
    + apply Hp. by exists In; split; [left|].
    + by apply E, Hc.
    + by apply covers_nil in Hc.
  - exists ys. split; [done|]. split; [apply HIn2|]. intros i c Hi. rewrite lookup_deallocate, decide_False; [by apply HIn2|].
    intros E. assert (length ys = length xs) as Hl by (destruct Hys as (_ & -> & _); done).
    destruct (lookup_lt_is_Some_2 (Some <$> xs) i) as [d Hd].
    { apply lookup_lt_Some in Hi. by rewrite length_fmap in *; rewrite <- Hl. }
    assert (Hm := proj2 HIn i d Hd). by rewrite Hfresh in Hm.
Qed.

Lemma copy_of_eq In xs m : holds In (Some <$> xs) m ->
  ok (copy_of In m) (fun '(A, m') => holds A (Some <$> xs) m' /\ holds In (Some <$> xs) m' /\
    (forall p, p.1 <> arr A -> m' !! p = m !! p) /\ (forall p, p.1 = arr A -> m !! p = None)).
Proof.
  intros HIn. assert (slice_size In = length xs) as HsI by (by rewrite (holds_size _ _ _ HIn), length_fmap).
  unfold copy_of. rewrite HsI. destruct (allocate (length xs) m) as [A m1] eqn:Ha.
  destruct (allocate_spec _ _ _ _ Ha) as (HA & HsA & Hother & Hsame & Hfresh).
  destruct (Hother _ _ HIn) as [Hap HIn1]. apply ok_bind.
  assert (forall p, p.1 <> arr A -> ~ covers [A] p) as HnA.
  { intros p Hp. rewrite covers_cons. intros [Hc|Hc]; [by apply Hp, Hc|by apply covers_nil in Hc]. }
  eapply ok_mono; [apply (dispatch_parallel uninitialized_copy_tag eq_refl In A xs 0 Hap); by split|].
  intros m2 (Hs2 & HIn2 & HA2). apply ok_ret. split; [done|]. split; [done|]. split; [|done].
  intros p Hp. destruct (decide (in_slice p In)) as [[Harr Hi]|Hni].
  - destruct (lookup_lt_is_Some_2 (Some <$> xs) (p.2 - s_begin In)) as [c Hc]; [destruct HIn; lia|].
    assert (nth In (p.2 - s_begin In) = p) as Hnth.
    { unfold nth. rewrite <- Harr. destruct p; simpl in *. f_equal. lia. }
    assert (H1 := proj2 HIn _ _ Hc). assert (H2 := proj2 HIn2 _ _ Hc). rewrite Hnth in H1, H2. by rewrite H1, H2.
  - rewrite Hs2; [by apply Hsame|]. rewrite covers_cons. intros [Hc|Hc]; [done|]. by apply (HnA p).
Qed.

(** C26: merge sort on memory: for every schedule, [merge_sort] leaves its input alone and
    returns a new sequence with the stable sort of its elements; the routine in place puts it
    where they were.  No element is lost or duplicated, no cell is read uninitialised or
    overwritten alive, nothing else in memory changes, and the scratch space is returned. *)
Theorem merge_sort_correct In xs m : holds In (Some <$> xs) m ->
  ok (merge_sort In f m) (fun '(A, m') => exists ys, stable_sort_of f xs ys /\ holds A (Some <$> ys) m' /\
    (forall p, p.1 <> arr A -> m' !! p = m !! p) /\ (forall p, p.1 = arr A -> m !! p = None)) /\
  ok (merge_sort_inplace In f m) (fun m' => exists ys, stable_sort_of f xs ys /\ holds In (Some <$> ys) m' /\
    (forall p, ~ in_slice p In -> m' !! p = m !! p)).
Proof using StrictWeak0.
  intros HIn. split.
  - unfold merge_sort. apply ok_bind. eapply ok_mono; [by apply copy_of_eq|]. intros [A m1] (HA & _ & Hsame & Hfresh).
    apply ok_bind. eapply ok_mono; [by apply merge_sort_inplace_eq|]. intros m2 (Hs2 & ys & Hys & HA2). apply ok_ret.
    exists ys. split; [done|split; [done|]]. split; [|done]. intros p Hp. rewrite Hs2; [by apply Hsame|].
    rewrite covers_cons. intros [Hc|Hc]; [by apply Hp, Hc|by apply covers_nil in Hc].
  - eapply ok_mono; [by apply merge_sort_inplace_eq|]. intros m' (Hs & ys & Hys & HA). exists ys. split; [done|split; [done|]].
    intros p Hp. apply Hs. rewrite covers_cons. intros [Hc|Hc]; [done|by apply covers_nil in Hc].
Qed.

(** C27: merging two sorted slices, with binary searches that split the work among the
    workers, gives in a new sequence the sorted, stable merge: equivalent elements keep their
    order, those of the first slice first. *)
Theorem merge_correct A B xs ys m : apart [A] [B] -> holds A (Some <$> xs) m -> holds B (Some <$> ys) m ->
  sorted_by f xs -> sorted_by f ys ->
  ok (merge A B f m) (fun '(R, m') => holds A (Some <$> xs) m' /\ holds B (Some <$> ys) m' /\
    exists zs, holds R (Some <$> zs) m' /\ zs = merge_list f xs ys /\ stable_sort_of f (xs ++ ys) zs).
Proof using StrictWeak0.
  intros Hap HA HB Hxs Hys. unfold merge. rewrite (holds_size _ _ _ HA), (holds_size _ _ _ HB), !length_fmap.
  destruct (allocate _ m) as [R m1] eqn:Ha. destruct (allocate_spec _ _ _ _ Ha) as (HR & HsR & Hother & _ & _).
  destruct (Hother _ _ HA) as [HapA HA1]. destruct (Hother _ _ HB) as [HapB HB1]. apply ok_bind.
  eapply ok_mono; [apply (merge_into_eq uninitialized_copy_tag f eq_refl [] A B R xs ys); done|].
  intros m2 (_ & HA2 & HB2 & HR2). apply ok_ret. split; [done|split; [done|]]. exists (merge_list f xs ys).
  split; [done|split; [done|]]. apply merge_stable_sort; by split.
Qed.
End sorting.

(** ** The theorems at work *)

Definition ex_mem : mem nat := <[(0, 0) := Some 5]> (<[(0, 1) := Some 3]> (<[(0, 2) := Some 4]> ∅)).
Definition ex_slice : slice := Slice 0 0 3.

Lemma ex_holds : holds ex_slice (Some <$> [5; 3; 4]) ex_mem.
Proof. split; [done|]. intros [|[|[|i]]] c [= <-]; done. Qed.

Lemma merge_sort_correct_witness : exists A m' ys,
  @merge_sort backwards nat ex_slice Nat.ltb ex_mem = Ok (A, m') /\ holds A (Some <$> ys) m' /\ ys ≡ₚ [5; 3; 4].
Proof.
  destruct (@merge_sort_correct backwards nat Nat.ltb _ ex_slice [5; 3; 4] ex_mem ex_holds) as (([A m'] & He & ys & Hys & HA & _) & _).
  exists A, m', ys. split; [exact He|]. split; [exact HA|apply Hys].
Defined.

Definition ex_mem2 : mem nat := <[(1, 0) := Some 1]> (<[(1, 1) := Some 4]> (<[(2, 0) := Some 2]> ∅)).

Lemma merge_correct_witness : exists R m',
  @merge backwards nat (Slice 1 0 2) (Slice 2 0 1) Nat.ltb ex_mem2 = Ok (R, m') /\ holds R (Some <$> [1; 2; 4]) m'.
Proof.
  destruct (@merge_correct backwards nat Nat.ltb _ (Slice 1 0 2) (Slice 2 0 1) [1; 4] [2] ex_mem2) as ([R m'] & He & _ & _ & zs & HR & Hz & _).
  - apply apart_intro. intros p [H1 _] [H2 _]. simpl in *. congruence.
  - split; [done|]. intros [|[|i]] c [= <-]; done.
  - split; [done|]. intros [|i] c [= <-]; done.
  - constructor; [constructor; [constructor|constructor]|]. constructor; [done|constructor].
  - constructor; [constructor|constructor].
  - exists R, m'. split; [exact He|]. rewrite Hz in HR. exact HR.
Defined.
