(* ===== verification/Primitives.v ===== *)
(** * The primitives of parlay

    [src/lib/parlay/primitives.h]: the public algorithms on ranges.  An iterator into a range
    is an index; the end iterator is its size.  Predicates and comparisons are functions of
    the elements.  The theorems compare each algorithm with the list function it stands for;
    where the code subtracts sizes that may wrap around ([size_sub]), the hypotheses say when
    it does not, and the findings at the end show what happens when it does. *)

From S2P Require Import Prelude.
From stdpp Require Import list.
From S2P Require Import ParArray Monoid SequenceOps ParMem Merge.

#[local] Open Scope nat_scope.

Section primitives.
Context `{Schedule}.

(** ** Copying, reductions and scans *)

Definition copy {T} (in_ : range T) (out : array T) : res (array T) :=
  _ ← assert (range_size in_ <=? length out);
  parallel_for 0 (range_size in_) (fun i out => x ← subscript in_ i; assign out i x) 0 out.

Section scans.
Context {T : Type}.

Definition reduce (r : range T) (m : monoid T) : res T := SequenceOps.reduce m r no_flag.
Definition reduce_plus `{Num T} (r : range T) : res T := reduce r plus.

Definition scan (r : range T) (m : monoid T) : res (array T * T) := SequenceOps.scan m r no_flag.
Definition scan_plus `{Num T} (r : range T) : res (array T * T) := scan r plus.

Definition scan_inclusive (r : range T) (m : monoid T) : res (array T) :=
  '(out, _) ← SequenceOps.scan m r fl_scan_inclusive; Ok out.
Definition scan_inclusive_plus `{Num T} (r : range T) : res (array T) := scan_inclusive r plus.

Definition scan_inplace (r : array T) (m : monoid T) : res (T * array T) :=
  SequenceOps.scan_inplace m 0 (length r) no_flag r.
Definition scan_inplace_plus `{Num T} (r : array T) : res (T * array T) := scan_inplace r plus.

Definition scan_inclusive_inplace (r : array T) (m : monoid T) : res (T * array T) :=
  SequenceOps.scan_inplace m 0 (length r) fl_scan_inclusive r.
Definition scan_inclusive_inplace_plus `{Num T} (r : array T) : res (T * array T) := scan_inclusive_inplace r plus.
End scans.

(** ** Packs and filters *)

Section packs.
Context {T : Type}.

Definition pack (r : range T) (b : range bool) : res (array T) := SequenceOps.pack r b no_flag.
Definition pack_into (in_ : range T) (b : range bool) (out : array T) : res (nat * array T) :=
  pack_out in_ b 0 no_flag out.
Definition pack_into_uninitialized (in_ : range T) (b : range bool) (out : array T) : res (nat * array T) :=
  pack_out in_ b 0 no_flag out.
Definition pack_index (b : range bool) : res (array nat) := SequenceOps.pack_index b no_flag.

Definition filter (r : range T) (f : T -> bool) : res (array T) := SequenceOps.filter r f.
Definition filter_into (in_ : range T) (out : array T) (f : T -> bool) : res (nat * array T) := filter_out in_ 0 f out.
Definition filter_into_uninitialized (in_ : range T) (out : array T) (f : T -> bool) : res (nat * array T) :=
  filter_out in_ 0 f out.
End packs.

(** ** Merging and sorting *)

Definition merge {T} (r1 r2 : slice) (pred : T -> T -> bool) (m : mem T) : res (slice * mem T) := Merge.merge r1 r2 pred m.
Definition stable_sort_inplace {T} (in_ : slice) (comp : T -> T -> bool) (m : mem T) : res (mem T) :=
  merge_sort_inplace in_ comp m.

(** ** Counting and finding *)

Definition count_if_index (n : nat) (p : nat -> res bool) : res nat :=
  let BS := delayed_tabulate n (fun i => b ← p i; Ok (Nat.b2n b)) in
  SequenceOps.reduce plus_size BS no_flag.

(** The compare-and-swap loop of [write_min] ends with the smaller value stored. *)
Definition write_min (a b : nat) : nat := if b <? a then b else a.

(** The blocks grow, so [n] iterations are enough. *)
Fixpoint find_blocks (fuel : nat) (n : nat) (p : nat -> res bool) (granularity start block_size result : nat) : res nat :=
  match fuel with
  | O => Err OutOfFuel
  | S fuel =>
      if start <? n then
        let end_ := n `min` (start + block_size) in
        result ← parallel_for start end_ (fun j result =>
          b ← p j; Ok (if (b : bool) then write_min result j else result)) granularity result;
        if result <? n then Ok result
        else find_blocks fuel n p granularity (start + block_size) (block_size * 2) result
      else Ok n
  end.

Definition find_if_index (n : nat) (p : nat -> res bool) (granularity : nat) : res nat :=
  i ← first_index p 0 (granularity `min` n);
  if i <? granularity `min` n then Ok i
  else if i =? n then Ok n
  else find_blocks (n + 1) n p granularity granularity (2 * granularity) n.

Definition default_granularity : nat := 1000.
#[local] Abbreviation find_index_if n p := (find_if_index n p default_granularity).

Definition for_each {T S} (r : range T) (f : T -> S -> res S) (s : S) : res S :=
  parallel_for 0 (range_size r) (fun i s => x ← subscript r i; f x s) 0 s.

Section finding.
Context {T : Type}.
Implicit Types (r : range T) (p : T -> bool).

Definition count_if r p : res nat := count_if_index (range_size r) (fun i => x ← subscript r i; Ok (p x)).
Definition count `{EqDecision T} r (value : T) : res nat :=
  count_if_index (range_size r) (fun i => x ← subscript r i; Ok (bool_decide (x = value))).

Definition all_of r p : res bool := c ← count_if r p; Ok (c =? range_size r).
Definition any_of r p : res bool := c ← count_if r p; Ok (0 <? c).
Definition none_of r p : res bool := c ← count_if r p; Ok (c =? 0).

Definition find_if r p : res nat := find_index_if (range_size r) (fun i => x ← subscript r i; Ok (p x)).
Definition find `{EqDecision T} r (value : T) : res nat := find_if r (fun x => bool_decide (x = value)).
Definition find_if_not r p : res nat := find_index_if (range_size r) (fun i => x ← subscript r i; Ok (negb (p x))).

Definition adjacent_find r (p : T -> T -> bool) : res nat :=
  idx ← find_index_if (size_sub (range_size r) 1) (fun i => x ← subscript r i; y ← subscript r (i + 1); Ok (p x y));
  Ok (if idx =? size_sub (range_size r) 1 then range_size r else idx).
Definition adjacent_find_equal `{EqDecision T} r : res nat := adjacent_find r (fun x y => bool_decide (x = y)).

Definition is_partitioned r p : res bool :=
  let n := range_size r in
  d ← find_index_if n (fun i => x ← subscript r i; Ok (negb (p x)));
  if d =? n then Ok true
  else
    d2 ← find_index_if (n - d - 1) (fun i => x ← subscript r (d + 1 + i); Ok (p x));
    Ok (d2 =? n - d - 1).

Definition is_sorted r (comp : T -> T -> bool) : res bool :=
  if range_size r =? 0 then Ok true
  else
    let B := delayed_tabulate (range_size r - 1) (fun i => x ← subscript r (i + 1); y ← subscript r i; Ok (comp x y)) in
    b ← SequenceOps.reduce logical_or B no_flag; Ok (negb b).

Definition is_sorted_until r (comp : T -> T -> bool) : res nat :=
  if range_size r =? 0 then Ok 0
  else
    i ← find_index_if (range_size r - 1) (fun i => x ← subscript r (i + 1); y ← subscript r i; Ok (comp x y));
    Ok (i + 1).
End finding.

(** ** Two ranges *)

Section two_ranges.
Context {T1 T2 : Type}.
(** The predicate gets the element of the second range first. *)
Definition find_first_of (r1 : range T1) (r2 : range T2) (p : T2 -> T1 -> bool) : res nat :=
  find_index_if (range_size r1) (fun i =>
    y ← subscript r1 i; k ← find_if r2 (fun x => p x y); Ok (negb (k =? range_size r2))).

(** Both iterators *)
Definition mismatch (r1 : range T1) (r2 : range T2) (p : T1 -> T2 -> bool) : res (nat * nat) :=
  d ← find_index_if (range_size r1 `min` range_size r2) (fun i =>
    x ← subscript r1 i; y ← subscript r2 i; Ok (negb (p x y)));
  Ok (d, d).

(** [for (j = 0; j < n2; j++) if (!pred(r1[o + j], r2[j])) break; return j == n2;] *)
Definition matches_at (r1 : range T1) (r2 : range T2) (pred : T1 -> T2 -> bool) (o : nat) : res bool :=
  let n2 := range_size r2 in
  j ← first_index (fun j => x ← subscript r1 (o + j); y ← subscript r2 j; Ok (negb (pred x y))) 0 n2;
  Ok (j =? n2).

Definition search (r1 : range T1) (r2 : range T2) (pred : T1 -> T2 -> bool) : res nat :=
  find_index_if (range_size r1) (fun i =>
    if range_size r1 <? i + range_size r2 then Ok false else matches_at r1 r2 pred i).

Definition find_end (r1 : range T1) (r2 : range T2) (p : T1 -> T2 -> bool) : res nat :=
  let n1 := range_size r1 in
  let n2 := range_size r2 in
  if n2 =? 0 then Ok n1
  else
    let n := if n1 + 1 =? n2 then 0 else size_sub n1 n2 + 1 in
    idx ← find_index_if n (fun i => matches_at r1 r2 p (size_sub (size_sub n1 i) n2));
    Ok (if idx =? n then n1 else size_sub (n1 - idx) n2).

Definition equal (r1 : range T1) (r2 : range T2) (p : T1 -> T2 -> bool) : res bool :=
  if range_size r1 =? range_size r2 then
    k ← find_index_if (range_size r1) (fun i => x ← subscript r1 i; y ← subscript r2 i; Ok (negb (p x y)));
    Ok (k =? range_size r1)
  else Ok false.
End two_ranges.

Definition find_first_of_equal `{EqDecision T} (r1 r2 : range T) : res nat := find_first_of r1 r2 (fun x y => bool_decide (x = y)).
Definition mismatch_equal `{EqDecision T} (r1 r2 : range T) : res (nat * nat) := mismatch r1 r2 (fun x y => bool_decide (x = y)).
Definition search_equal `{EqDecision T} (r1 r2 : range T) : res nat := search r1 r2 (fun x y => bool_decide (x = y)).
Definition find_end_equal `{EqDecision T} (r1 r2 : range T) : res nat := find_end r1 r2 (fun x y => bool_decide (x = y)).
Definition equal_equal `{EqDecision T} (r1 r2 : range T) : res bool := equal r1 r2 (fun x y => bool_decide (x = y)).

Section comparing.
Context {T : Type}.
Implicit Types (r : range T).

Definition lexicographical_compare (r1 r2 : range T) (less : T -> T -> bool) : res bool :=
  let m := range_size r1 `min` range_size r2 in
  i ← find_index_if m (fun i => x ← subscript r1 i; y ← subscript r2 i; Ok (less x y || less y x));
  if i <? m then x ← subscript r1 i; y ← subscript r2 i; Ok (less x y) else Ok (range_size r1 <? range_size r2).

Definition unique r (eq : T -> T -> bool) : res (array T) :=
  let b := delayed_tabulate (range_size r) (fun i =>
    if i =? 0 then Ok true else x ← subscript r i; y ← subscript r (i - 1); Ok (negb (eq x y))) in
  pack r b.
Definition unique_equal `{EqDecision T} r : res (array T) := unique r (fun x y => bool_decide (x = y)).

(** [!comp(it[r], it[l]) ? l : r] *)
Definition min_index (it : range T) (comp : T -> T -> bool) (l r : nat) : res nat :=
  x ← subscript it r; y ← subscript it l; Ok (if negb (comp x y) then l else r).

Definition min_element r (comp : T -> T -> bool) : res nat :=
  let n := range_size r in
  if n =? 0 then Ok 0
  else SequenceOps.reduce (make_monoid (min_index r comp) n) (delayed_tabulate n (fun i => Ok i)) no_flag.

Definition max_element r (comp : T -> T -> bool) : res nat := min_element r (fun a b => comp b a).

Definition minmax_index (it : range T) (comp : T -> T -> bool) (l r : nat * nat) : res (nat * nat) :=
  i ← min_index it comp l.1 r.1;
  x ← subscript it l.2; y ← subscript it r.2;
  Ok (i, if negb (comp x y) then l.2 else r.2).

Definition minmax_element r (comp : T -> T -> bool) : res (nat * nat) :=
  let n := range_size r in
  if n =? 0 then Ok (0, 0)
  else SequenceOps.reduce (make_monoid (minmax_index r comp) (n, n)) (delayed_tabulate n (fun i => Ok (i, i))) no_flag.
End comparing.

(** ** Permutations and copies *)

Section permutations.
Context {T : Type}.
Implicit Types (r : range T).

Definition reverse r : res (array T) :=
  let n := range_size r in tabulate n (fun i => subscript r (n - i - 1)) 0.

Definition reverse_inplace (r : array T) : res (array T) :=
  let n := length r in parallel_for 0 (n / 2) (fun i a => swap_cells a i (n - i - 1)) 0 r.

Definition rotate r (t : nat) : res (array T) :=
  let n := range_size r in
  tabulate n (fun i => let j := if i + t <? n then i + t else i + t - n in subscript r j) 0.

Definition remove_if r (pred : T -> bool) : res (array T) :=
  let flags := delayed_tabulate (range_size r) (fun i => x ← subscript r i; Ok (negb (pred x))) in
  SequenceOps.pack r flags no_flag.
Definition remove `{EqDecision T} r (v : T) : res (array T) := remove_if r (fun x => bool_decide (x = v)).

Definition append (s1 s2 : range T) : res (array T) :=
  let n1 := range_size s1 in
  tabulate (n1 + range_size s2) (fun i => if i <? n1 then subscript s1 i else subscript s2 (i - n1)) 0.

(** The inner ranges are references. *)
Definition flatten (r : range (range T)) : res (array T) :=
  offsets ← tabulate (range_size r) (fun i => x ← subscript r i; Ok (range_size x)) 0;
  '(len, offsets) ← SequenceOps.scan_inplace plus_size 0 (range_size r) no_flag offsets;
  parallel_for 0 (range_size r) (fun i res =>
    dit ← get offsets i;
    inner ← subscript r i;
    parallel_for 0 (range_size inner) (fun j res =>
      x ← subscript inner j; assign_uninitialized res (dit + j) x) 1000 res) 0 (uninitialized len).

Definition map_split_at {B} (R : range T) (flags : range bool) (f : range T -> res B) : res (array B) :=
  let n := range_size R in
  _ ← assert (range_size flags =? n);
  Locations ← pack_index flags;
  let m := length Locations in
  tabulate (m + 1) (fun i =>
    start ← (if i =? 0 then Ok 0 else l ← get Locations (i - 1); Ok (l + 1));
    end_ ← (if i =? m then Ok n else l ← get Locations i; Ok (l + 1));
    f (ParArray.cut R start end_)) 0.
End permutations.

Definition iota (n : nat) : range nat := delayed_tabulate n (fun i => Ok i).
End primitives.

(** ** Searching for an index *)

(** [k] is the first index below [n] where [q] holds, or [n]. *)
Definition is_first (q : nat -> bool) (n k : nat) : Prop :=
  k <= n /\ (forall i, i < k -> q i = false) /\ (k < n -> q k = true).

Lemma is_first_unique q n k k' : is_first q n k -> is_first q n k' -> k = k'.
Proof.
  intros (H1 & H2 & H3) (H1' & H2' & H3'). destruct (lt_eq_lt_dec k k') as [[Hlt|]|Hlt]; [|done|].
  - rewrite H2' in H3 by done. specialize (H3 ltac:(lia)). done.
  - rewrite H2 in H3' by done. specialize (H3' ltac:(lia)). done.
Qed.

Lemma exists_first q n : exists k, is_first q n k.
Proof.
  induction n as [|n (k & Hk & Hf & Ht)]; [exists 0; split; [done|]; split; intros; lia|].
  destruct (decide (k < n)) as [Hlt|Hge]; [exists k; split; [lia|]; split; auto|].
  assert (k = n) as -> by lia. exists (if q n then n else S n). destruct (q n) eqn:E.
  - split; [lia|]. split; auto.
  - split; [lia|]. split; [|lia]. intros i Hi. destruct (decide (i = n)) as [->|]; [done|]. apply Hf. lia.
Qed.

Section find_if_index.
Context `{Schedule} (n : nat) (p : nat -> res bool) (q : nat -> bool) (k : nat).
Context (Hp : forall i, i < n -> p i = Ok (q i)) (Hk : is_first q n k).

(** One round of the parallel search *)
Lemma find_block_eq start end_ g : end_ <= n -> start `min` n <= k ->
  ok (parallel_for start end_ (fun j result => b ← p j; Ok (if (b : bool) then write_min result j else result)) g n)
    (fun r => r = if (k <? end_) then k else n).
Proof using Hp Hk.
  intros He Hs. destruct Hk as (Hkn & Hf & Ht).
  eapply ok_mono; [apply (ok_parallel_for (fun d r => (r = n \/ (r ∈ d /\ q r = true)) /\
    (forall i, i ∈ d -> q i = true -> r <= i)))|].
  - split; [by left|]. intros i Hi. by apply not_elem_of_nil in Hi.
  - intros d i r Hi Hd [Hr Hle]. rewrite Hp by lia. simpl. apply ok_ret. unfold write_min. split.
    + destruct (q i) eqn:Eq; [destruct (Nat.ltb_spec i r)|]; set_solver.
    + intros j Hj Hq. apply elem_of_app in Hj as [Hj|Hj%list_elem_of_singleton].
      * specialize (Hle j Hj Hq). destruct (q i); [destruct (Nat.ltb_spec i r)|]; lia.
      * subst j. rewrite Hq. destruct (Nat.ltb_spec i r); lia.
  - intros r (d & Hd & Hr & Hle). 
    assert (forall i, i ∈ d <-> start <= i < start + (end_ - start)) as Hin by (intros i; by rewrite Hd, elem_of_seq).
    destruct (Nat.ltb_spec k end_) as [Hlt|Hge].
    + assert (r <= k) as Hrk by (apply Hle; [apply Hin; lia|apply Ht; lia]).
      destruct Hr as [->|[_ Hq]]; [lia|]. destruct (decide (r < k)); [|lia]. rewrite Hf in Hq by done. done.
    + destruct Hr as [->|[Hr Hq]]; [done|]. apply Hin in Hr. rewrite Hf in Hq by lia. done.
Qed.

Lemma find_blocks_eq fuel g start bs : 0 < bs -> n - start < fuel -> start `min` n <= k ->
  find_blocks fuel n p g start bs n = Ok k.
Proof using Hp Hk.
  revert start bs. induction fuel as [|fuel IH]; intros start bs Hbs Hfuel Hs; [lia|]. cbn [find_blocks].
  assert (k <= n) as Hkn by apply Hk.
  destruct (Nat.ltb_spec start n) as [Hlt|Hge]; [|f_equal; lia].
  destruct (find_block_eq start (n `min` (start + bs)) g) as (r & -> & ->); [lia|done|]. cbn [mbind res_bind].
  destruct (Nat.ltb_spec k (n `min` (start + bs))) as [Hk1|Hk1].
  - destruct (Nat.ltb_spec k n); [done|lia].
  - rewrite Nat.ltb_irrefl. apply IH; lia.
Qed.

Lemma find_if_index_eq g : 0 < g -> find_if_index n p g = Ok k.
Proof using Hp Hk.
  intros Hg. assert (Hk' := Hk). destruct Hk' as (Hkn & Hf & Ht). unfold find_if_index.
  rewrite (first_index_eq p q 0 (g `min` n) (k `min` (g `min` n))).
  - cbn [mbind res_bind]. destruct (Nat.ltb_spec (k `min` (g `min` n)) (g `min` n)) as [Hlt|Hge]; [f_equal; lia|].
    destruct (Nat.eqb_spec (k `min` (g `min` n)) n); [f_equal; lia|]. apply find_blocks_eq; lia.
  - intros i Hi. apply Hp. lia.
  - lia.
  - intros i Hi. apply Hf. lia.
  - intros Hlt. replace (k `min` (g `min` n)) with k by lia. apply Ht. lia.
Qed.
End find_if_index.

Section list_search.
Context {T : Type}.

(** The index of the first element with the property, or the length *)
Fixpoint find_index (P : T -> bool) (xs : list T) : nat :=
  match xs with [] => 0 | x :: xs => if P x then 0 else S (find_index P xs) end.

Lemma find_index_first P xs : is_first (fun i => from_option P false (xs !! i)) (length xs) (find_index P xs).
Proof.
  induction xs as [|x xs (IH1 & IH2 & IH3)]; [split; [done|]; simpl; split; intros; lia|].
  cbn [find_index length]. destruct (P x) eqn:E.
  - split; [lia|]. split; [intros; lia|]. done.
  - split; [lia|]. split; [|intros; apply IH3; lia]. intros [|i] Hi; [done|]. apply IH2. lia.
Qed.

Lemma find_index_length P xs : find_index P xs = length xs <-> forallb (fun x => negb (P x)) xs = true.
Proof.
  induction xs as [|x xs IH]; [done|]. cbn [find_index length forallb]. destruct (P x); cbn [negb andb].
  - split; [lia|done].
  - rewrite <- IH. split; [intros [=]; done|intros ->; done].
Qed.

Lemma find_index_le P xs : find_index P xs <= length xs.
Proof. apply find_index_first. Qed.

(** Reading the elements through a range *)
Lemma find_range_eq `{Schedule} (xs : list T) (P : T -> bool) (p : nat -> res bool) n :
  n = length xs -> (forall i x, xs !! i = Some x -> p i = Ok (P x)) ->
  find_if_index n p default_granularity = Ok (find_index P xs).
Proof.
  intros -> Hp. eapply find_if_index_eq; [|apply find_index_first|unfold default_granularity; lia].
  intros i Hi. destruct (lookup_lt_is_Some_2 xs i Hi) as [x Hx]. rewrite (Hp _ _ Hx), Hx. done.
Qed.
End list_search.
Lemma default_granularity_pos : 0 < default_granularity.
Proof. unfold default_granularity. lia. Qed.
#[global] Opaque default_granularity.

(** ** Counting *)

Section counting.
Context `{Schedule} {T : Type}.
Implicit Types (r : range T) (P : T -> bool).

Lemma count_if_index_eq n p bs : length bs = n -> size_t n -> (forall i b, bs !! i = Some b -> p i = Ok b) ->
  count_if_index n p = Ok (count_true bs).
Proof.
  intros <- Hs Hp. unfold count_if_index.
  rewrite (reduce_eq plus_size size_t size_add _ (Nat.b2n <$> bs)).
  - rewrite (foldl_identity plus_size size_t size_add).
    + destruct bs as [|b bs]; [done|]. f_equal. change (identity plus_size) with 0.
      rewrite foldl_size_add; [done|]. eapply size_t_le; [|exact Hs]. apply (count_true_le (b :: bs)).
    + apply Forall_fmap, Forall_forall. intros b _. destruct b; split; simpl; unfold two64; lia.
  - split; [simpl; by rewrite length_fmap|]. intros i x Hx. apply list_lookup_fmap_Some in Hx as (b & -> & Hb).
    simpl. by rewrite (Hp _ _ Hb).
  - apply Forall_fmap, Forall_forall. intros b _. destruct b; split; simpl; unfold two64; lia.
Qed.

Lemma count_if_eq r xs P : r ▷ xs -> size_t (length xs) -> count_if r P = Ok (count_true (P <$> xs)).
Proof.
  intros Hr Hs. unfold count_if. rewrite (shows_size _ _ Hr). apply count_if_index_eq; [by rewrite length_fmap|done|].
  intros i b Hb. apply list_lookup_fmap_Some in Hb as (x & -> & Hx). by rewrite (shows_get _ _ _ _ Hr Hx).
Qed.

Lemma count_true_all P xs : (count_true (P <$> xs) =? length xs) = forallb P xs.
Proof.
  induction xs as [|x xs IH]; [done|]. rewrite fmap_cons, count_true_cons. cbn [length forallb].
  assert (Hle := count_true_le (P <$> xs)). rewrite length_fmap in Hle.
  destruct (P x); cbn [Nat.b2n andb]; [by rewrite <- IH|]. apply Nat.eqb_neq. lia.
Qed.

Lemma count_true_any P xs : (0 <? count_true (P <$> xs)) = existsb P xs.
Proof.
  induction xs as [|x xs IH]; [done|]. rewrite fmap_cons, count_true_cons. cbn [existsb].
  destruct (P x); [done|]. by rewrite <- IH.
Qed.

Lemma count_true_none P xs : (count_true (P <$> xs) =? 0) = negb (existsb P xs).
Proof. rewrite <- count_true_any. by destruct (count_true (P <$> xs)). Qed.

Lemma count_true_filter P xs : count_true (P <$> xs) = length (List.filter P xs).
Proof.
  induction xs as [|x xs IH]; [done|]. rewrite fmap_cons, count_true_cons, IH. cbn [List.filter]. by destruct (P x).
Qed.

(** Counting and the three quantifiers: for every schedule they agree with the count and
    the quantifiers over the elements. *)
Theorem counting_correct r xs P : r ▷ xs -> (Z.of_nat (length xs) < 2 ^ 64)%Z ->
  count_if r P = Ok (length (List.filter P xs)) /\
  all_of r P = Ok (forallb P xs) /\ any_of r P = Ok (existsb P xs) /\ none_of r P = Ok (negb (existsb P xs)).
Proof.
  intros Hr Hs. assert (size_t (length xs)) as Hs' by (split; [lia|exact Hs]).
  unfold all_of, any_of, none_of. rewrite (count_if_eq _ _ _ Hr Hs'). cbn [mbind res_bind].
  rewrite (shows_size _ _ Hr), count_true_all, count_true_any, count_true_none.
  by rewrite count_true_filter.
Qed.
End counting.

(** ** Finding *)

Section finding_spec.
Context `{Schedule} {T : Type}.
Implicit Types (r : range T) (P : T -> bool).

Lemma find_if_eq r xs P : r ▷ xs -> find_if r P = Ok (find_index P xs).
Proof.
  intros Hr. apply (find_range_eq xs P); [by apply shows_size|]. intros i x Hx. by rewrite (shows_get _ _ _ _ Hr Hx).
Qed.

Lemma find_if_not_eq r xs P : r ▷ xs -> find_if_not r P = Ok (find_index (fun x => negb (P x)) xs).
Proof.
  intros Hr. apply (find_range_eq xs (fun x => negb (P x))); [by apply shows_size|]. intros i x Hx.
  by rewrite (shows_get _ _ _ _ Hr Hx).
Qed.

(** Neighbours *)
Definition pairs (xs : list T) : list (T * T) := zip xs (tail xs).

Lemma length_pairs xs : length (pairs xs) = length xs - 1.
Proof. unfold pairs. destruct xs as [|x xs]; [done|]. rewrite length_zip. cbn [tail length]. lia. Qed.

Lemma lookup_pairs xs i x y : pairs xs !! i = Some (x, y) <-> xs !! i = Some x /\ xs !! (i + 1) = Some y.
Proof.
  unfold pairs. rewrite lookup_zip_Some, Nat.add_1_r. destruct xs as [|z xs]; [|done].
  split; [intros [[=]]|intros [[=]]].
Qed.

Lemma adjacent_find_eq r xs p : r ▷ xs -> xs <> [] ->
  adjacent_find r p = Ok (let k := find_index (uncurry p) (pairs xs) in if k =? length xs - 1 then length xs else k).
Proof.
  intros Hr Hne. unfold adjacent_find. rewrite (shows_size _ _ Hr).
  rewrite size_sub_le by (destruct xs; [done|simpl; lia]).
  rewrite (find_range_eq (pairs xs) (uncurry p)); [done|by rewrite length_pairs|].
  intros i [x y] [Hx Hy]%lookup_pairs. by rewrite (shows_get _ _ _ _ Hr Hx), (shows_get _ _ _ _ Hr Hy).
Qed.

Lemma is_sorted_until_eq r xs comp : r ▷ xs ->
  is_sorted_until r comp = Ok (match xs with [] => 0 | _ => find_index (fun c => comp c.2 c.1) (pairs xs) + 1 end).
Proof.
  intros Hr. unfold is_sorted_until. rewrite (shows_size _ _ Hr). destruct xs as [|x0 xs0] eqn:E; [done|]. rewrite <- E in *.
  replace (length xs =? 0) with false by (by subst).
  rewrite (find_range_eq (pairs xs) (fun c => comp c.2 c.1)); [by subst|by rewrite length_pairs|].
  intros i [x y] [Hx Hy]%lookup_pairs. by rewrite (shows_get _ _ _ _ Hr Hx), (shows_get _ _ _ _ Hr Hy).
Qed.

Lemma is_sorted_eq r xs comp : r ▷ xs ->
  is_sorted r comp = Ok (negb (existsb (fun c => comp c.2 c.1) (pairs xs))).
Proof.
  intros Hr. unfold is_sorted. rewrite (shows_size _ _ Hr). destruct xs as [|x0 xs0] eqn:E; [done|]. rewrite <- E in *.
  replace (length xs =? 0) with false by (by subst). cbv zeta.
  rewrite (reduce_eq logical_or (fun _ => True) orb _ ((fun c => comp c.2 c.1) <$> pairs xs)).
  - rewrite (foldl_identity logical_or (fun _ => True) orb) by (by apply Forall_true).
    assert (forall (l : list bool) b, foldl orb b l = b || existsb id l) as Hf.
    { induction l as [|c l IH]; intros b; simpl; [by rewrite orb_false_r|]. by rewrite IH, orb_assoc. }
    assert (existsb id ((fun c => comp c.2 c.1) <$> pairs xs) = existsb (fun c => comp c.2 c.1) (pairs xs)) as He.
    { clear. induction (pairs xs) as [|c l IH]; [done|]. rewrite fmap_cons. cbn [existsb]. by rewrite IH. }
    rewrite <- He. destruct ((fun c => comp c.2 c.1) <$> pairs xs) as [|b l]; [done|]. simpl. do 2 f_equal. apply Hf.
  - split; [simpl; by rewrite length_fmap, length_pairs|]. intros i b Hb.
    apply list_lookup_fmap_Some in Hb as ([x y] & -> & [Hx Hy]%lookup_pairs). simpl.
    by rewrite (shows_get _ _ _ _ Hr Hx), (shows_get _ _ _ _ Hr Hy).
  - by apply Forall_true.
Qed.

Lemma is_partitioned_eq r xs P : r ▷ xs ->
  is_partitioned r P = Ok (negb (existsb P (drop (find_index (fun x => negb (P x)) xs) xs))).
Proof.
  intros Hr. unfold is_partitioned. rewrite (shows_size _ _ Hr).
  rewrite (find_range_eq xs (fun x => negb (P x))); [|done|intros i x Hx; by rewrite (shows_get _ _ _ _ Hr Hx)].
  cbn [mbind res_bind]. set (d := find_index (fun x => negb (P x)) xs).
  destruct (find_index_first (fun x => negb (P x)) xs) as (Hd & Hf & Ht). fold d in Hd, Hf, Ht.
  destruct (Nat.eqb_spec d (length xs)) as [->|Hne]; [by rewrite drop_all|].
  destruct (lookup_lt_is_Some_2 xs d) as [x Hx]; [lia|].
  rewrite (find_range_eq (drop (d + 1) xs) P).
  - cbn [mbind res_bind]. f_equal. rewrite (drop_S _ _ _ Hx), Nat.add_1_r. cbn [existsb].
    specialize (Ht ltac:(lia)). rewrite Hx in Ht. simpl in Ht. apply negb_true_iff in Ht as ->. cbn [orb].
    replace (length xs - d - 1) with (length (drop (S d) xs)) by (rewrite length_drop; lia).
    apply eq_true_iff_eq. rewrite Nat.eqb_eq, find_index_length, negb_true_iff.
    clear. induction (drop (S d) xs) as [|y l IH]; [done|]. cbn [forallb existsb].
    destruct (P y); cbn [negb andb orb]; [done|]. exact IH.
  - rewrite length_drop. lia.
  - intros i y Hy. rewrite lookup_drop in Hy. by rewrite (shows_get _ _ _ _ Hr Hy).
Qed.
End finding_spec.

(** C28: finding in one range: for every schedule, [find_if] and [find_if_not] return the first
    element with or without the property (or the end), [is_partitioned] says whether nothing
    with the property comes after something without it, [is_sorted] whether no neighbours are
    out of order, and [is_sorted_until] returns the end of the longest sorted beginning, on the
    empty range too; and [adjacent_find] returns the first pair of neighbours with the property
    (or the end), provided that the range is not empty (it reads out of bounds if it is). *)
Theorem finding_correct `{Schedule} {T} (r : range T) xs P (comp : T -> T -> bool) : r ▷ xs ->
  let first_of P := find_index P xs in
  let first_pair := find_index (uncurry comp) (pairs xs) in
  find_if r P = Ok (first_of P) /\ find_if_not r P = Ok (first_of (fun x => negb (P x))) /\
  is_partitioned r P = Ok (negb (existsb P (drop (first_of (fun x => negb (P x))) xs))) /\
  is_sorted r comp = Ok (negb (existsb (fun c => comp c.2 c.1) (pairs xs))) /\
  is_sorted_until r comp =
    Ok (if length xs =? 0 then 0 else find_index (fun c => comp c.2 c.1) (pairs xs) + 1) /\
  (xs <> [] -> adjacent_find r comp = Ok (if first_pair =? length xs - 1 then length xs else first_pair)).
Proof.
  intros Hr. cbv zeta. split; [by apply find_if_eq|]. split; [by apply find_if_not_eq|].
  split; [by apply is_partitioned_eq|]. split; [by apply is_sorted_eq|].
  split; [|intros Hne; by rewrite (adjacent_find_eq _ xs)].
  rewrite (is_sorted_until_eq _ _ _ Hr). by destruct xs.
Qed.

(** ** The theorems at work *)

Lemma counting_correct_witness : @count_if backwards nat (of_list [3; 4; 6]) Nat.even = Ok 2.
Proof.
  destruct (@counting_correct backwards nat (of_list [3; 4; 6]) [3; 4; 6] Nat.even (shows_of_list _) ltac:(done)) as (-> & _).
  reflexivity.
Defined.

Lemma finding_correct_witness : @find_if backwards nat (of_list [3; 4; 6]) Nat.even = Ok 1 /\
  @is_sorted backwards nat (of_list [3; 4; 6]) Nat.ltb = Ok true /\
  @adjacent_find backwards nat (of_list [3; 4; 6]) (fun x y => Nat.even y) = Ok 0 /\
  @is_sorted_until backwards nat (of_list []) Nat.ltb = Ok 0.
Proof.
  destruct (@finding_correct backwards nat (of_list [3; 4; 6]) [3; 4; 6] Nat.even (fun x y => Nat.even y) (shows_of_list _))
    as (-> & _ & _ & _ & _ & ->); [|done].
  destruct (@finding_correct backwards nat (of_list [3; 4; 6]) [3; 4; 6] Nat.even Nat.ltb (shows_of_list _))
    as (_ & _ & _ & -> & _).
  destruct (@finding_correct backwards nat (of_list []) [] Nat.even Nat.ltb (shows_of_list _)) as (_ & _ & _ & _ & -> & _).
  split_and!; reflexivity.
Defined.
