(* ===== verification/PrimitivesSpec.v ===== *)
(** * What the primitives compute

    Theorems about the algorithms of [Primitives] on two ranges, on permutations and copies,
    and on extreme elements, against list functions; then the cases in which sizes wrap
    around. *)

From S2P Require Import Prelude.
From stdpp Require Import list.
From S2P Require Import ParArray Monoid SequenceOps ParMem Merge Primitives.

#[local] Open Scope nat_scope.

(** ** Two ranges *)

Section specifications.
Context {A B : Type}.

(** [ys] matches the beginning of [xs]. *)
Fixpoint prefix_match (p : A -> B -> bool) (xs : list A) (ys : list B) : bool :=
  match xs, ys with
  | _, [] => true
  | x :: xs, y :: ys => p x y && prefix_match p xs ys
  | [], _ :: _ => false
  end.

(** The elements agree pairwise. *)
Fixpoint all2 (p : A -> B -> bool) (xs : list A) (ys : list B) : bool :=
  match xs, ys with
  | [], [] => true
  | x :: xs, y :: ys => p x y && all2 p xs ys
  | _, _ => false
  end.

Lemma prefix_match_long p xs ys : length xs < length ys -> prefix_match p xs ys = false.
Proof.
  revert ys. induction xs as [|x xs IH]; intros [|y ys]; simpl; [lia|done|lia|]. intros Hl.
  rewrite IH by lia. apply andb_false_r.
Qed.

Lemma prefix_match_zip p xs ys : length ys <= length xs ->
  prefix_match p xs ys = (find_index (fun c => negb (p c.1 c.2)) (zip xs ys) =? length ys).
Proof.
  revert ys. induction xs as [|x xs IH]; intros [|y ys] Hl; [done|simpl in Hl; lia|done|].
  cbn [prefix_match zip zip_with find_index length fst snd]. destruct (p x y); cbn [negb andb]; [|done].
  apply IH. simpl in Hl. lia.
Qed.

Lemma all2_prefix p xs ys : all2 p xs ys = (length xs =? length ys) && prefix_match p xs ys.
Proof.
  revert ys. induction xs as [|x xs IH]; intros [|y ys]; [done..|]. cbn [all2 prefix_match length Nat.eqb]. rewrite IH.
  by destruct (p x y), (_ =? _).
Qed.
End specifications.

(** The order of dictionaries *)
Fixpoint lexicographic {T} (less : T -> T -> bool) (xs ys : list T) : bool :=
  match xs, ys with
  | _, [] => false
  | [], _ :: _ => true
  | x :: xs, y :: ys => less x y || (negb (less y x) && lexicographic less xs ys)
  end.

Section two_ranges.
Context `{Schedule} {A B : Type}.

Lemma length_zip_min (xs : list A) (ys : list B) : length (zip xs ys) = length xs `min` length ys.
Proof. apply length_zip. Qed.

Lemma mismatch_eq (r1 : range A) (r2 : range B) xs ys p : r1 ▷ xs -> r2 ▷ ys ->
  let d := find_index (fun c => negb (p c.1 c.2)) (zip xs ys) in mismatch r1 r2 p = Ok (d, d).
Proof.
  intros H1 H2. unfold mismatch. rewrite (shows_size _ _ H1), (shows_size _ _ H2).
  rewrite (find_range_eq (zip xs ys) (fun c => negb (p c.1 c.2))); [done|by rewrite length_zip_min|].
  intros i [x y] (Hx & Hy)%lookup_zip_Some. by rewrite (shows_get _ _ _ _ H1 Hx), (shows_get _ _ _ _ H2 Hy).
Qed.

Lemma equal_eq (r1 : range A) (r2 : range B) xs ys p : r1 ▷ xs -> r2 ▷ ys -> equal r1 r2 p = Ok (all2 p xs ys).
Proof.
  intros H1 H2. unfold equal. rewrite (shows_size _ _ H1), (shows_size _ _ H2), all2_prefix.
  destruct (Nat.eqb_spec (length xs) (length ys)) as [Hl|]; [|done].
  rewrite (find_range_eq (zip xs ys) (fun c => negb (p c.1 c.2))).
  - cbn [mbind res_bind andb]. by rewrite prefix_match_zip, Hl by lia.
  - rewrite length_zip_min. lia.
  - intros i [x y] (Hx & Hy)%lookup_zip_Some. by rewrite (shows_get _ _ _ _ H1 Hx), (shows_get _ _ _ _ H2 Hy).
Qed.

Lemma matches_at_eq (r1 : range A) (r2 : range B) xs ys p o : r1 ▷ xs -> r2 ▷ ys -> o + length ys <= length xs ->
  matches_at r1 r2 p o = Ok (prefix_match p (drop o xs) ys).
Proof.
  intros H1 H2 Ho. unfold matches_at. rewrite (shows_size _ _ H2).
  assert (length (zip (drop o xs) ys) = length ys) as Hz by (rewrite length_zip, length_drop; lia).
  assert (Hi := find_index_first (fun c => negb (p c.1 c.2)) (zip (drop o xs) ys)). destruct Hi as (Hi1 & Hi2 & Hi3).
  rewrite (first_index_eq _ (fun i => from_option (fun c => negb (p c.1 c.2)) false (zip (drop o xs) ys !! i)) 0 _
    (find_index (fun c => negb (p c.1 c.2)) (zip (drop o xs) ys))).
  - cbn [mbind res_bind]. rewrite prefix_match_zip by (rewrite length_drop; lia). done.
  - intros i Hi. destruct (lookup_lt_is_Some_2 (zip (drop o xs) ys) i) as [[x y] Hc]; [lia|]. rewrite Hc.
    apply lookup_zip_Some in Hc as [Hx Hy]. rewrite lookup_drop in Hx.
    by rewrite (shows_get _ _ _ _ H1 Hx), (shows_get _ _ _ _ H2 Hy).
  - lia.
  - intros i Hi. apply Hi2. lia.
  - intros Hi. apply Hi3. lia.
Qed.

Lemma search_first (r1 : range A) (r2 : range B) xs ys p : r1 ▷ xs -> r2 ▷ ys ->
  exists k, search r1 r2 p = Ok k /\ is_first (fun i => prefix_match p (drop i xs) ys) (length xs) k.
Proof.
  intros H1 H2. set (q i := prefix_match p (drop i xs) ys).
  destruct (exists_first q (length xs)) as [k Hk].
  exists k. split; [|done]. unfold search. rewrite (shows_size _ _ H1), (shows_size _ _ H2).
  apply (find_if_index_eq _ _ q k); [|done|apply default_granularity_pos].
  intros i Hi. destruct (Nat.ltb_spec (length xs) (i + length ys)) as [Hlt|Hge].
  - unfold q. rewrite prefix_match_long by (rewrite length_drop; lia). done.
  - by apply matches_at_eq.
Qed.

(** The last index below [n] where [q] holds, or [n] *)
Definition is_last (q : nat -> bool) (n k : nat) : Prop :=
  (k = n /\ forall i, i < n -> q i = false) \/ (k < n /\ q k = true /\ forall i, k < i < n -> q i = false).

Lemma find_end_last (r1 : range A) (r2 : range B) xs ys p : r1 ▷ xs -> r2 ▷ ys -> 0 < length ys <= length xs + 1 ->
  exists k, find_end r1 r2 p = Ok k /\ is_last (fun i => prefix_match p (drop i xs) ys) (length xs) k.
Proof.
  intros H1 H2 Hl. set (q i := prefix_match p (drop i xs) ys).
  assert (forall i, length xs < i + length ys -> q i = false) as Hq
    by (intros i Hi; apply prefix_match_long; rewrite length_drop; lia).
  unfold find_end. rewrite (shows_size _ _ H1), (shows_size _ _ H2). cbv zeta.
  replace (length ys =? 0) with false by (symmetry; apply Nat.eqb_neq; lia).
  set (n := if length xs + 1 =? length ys then 0 else size_sub (length xs) (length ys) + 1).
  assert (n = length xs + 1 - length ys) as Hn.
  { unfold n. destruct (Nat.eqb_spec (length xs + 1) (length ys)); [lia|]. rewrite size_sub_le by lia. lia. }
  clearbody n. destruct (exists_first (fun i => q (length xs - i - length ys)) n) as [k Hk].
  rewrite (find_if_index_eq n _ (fun i => q (length xs - i - length ys)) k);
    [|intros i Hi; rewrite (size_sub_le (length xs) i), size_sub_le by lia; apply matches_at_eq; [done..|lia]|done|apply default_granularity_pos].
  destruct Hk as (Hk1 & Hk2 & Hk3). cbn [mbind res_bind]. destruct (Nat.eqb_spec k n) as [->|Hne].
  - exists (length xs). split; [done|]. left. split; [done|]. intros i Hi.
    destruct (decide (length xs < i + length ys)); [by apply Hq|].
    specialize (Hk2 (length xs - i - length ys) ltac:(lia)).
    by replace (length xs - (length xs - i - length ys) - length ys) with i in Hk2 by lia.
  - rewrite size_sub_le by lia. exists (length xs - k - length ys). split; [done|]. right.
    split; [lia|]. split; [apply Hk3; lia|]. intros i Hi.
    destruct (decide (length xs < i + length ys)); [by apply Hq|].
    specialize (Hk2 (length xs - i - length ys) ltac:(lia)).
    by replace (length xs - (length xs - i - length ys) - length ys) with i in Hk2 by lia.
Qed.

Lemma find_first_of_eq (r1 : range A) (r2 : range B) xs ys p : r1 ▷ xs -> r2 ▷ ys ->
  find_first_of r1 r2 p = Ok (find_index (fun y => existsb (fun x => p x y) ys) xs).
Proof.
  intros H1 H2. unfold find_first_of. rewrite (shows_size _ _ H1), (shows_size _ _ H2).
  apply find_range_eq; [done|]. intros i y Hy. rewrite (shows_get _ _ _ _ H1 Hy). cbn [mbind res_bind].
  rewrite (find_if_eq _ _ _ H2). cbn [mbind res_bind]. f_equal. clear.
  induction ys as [|x ys IH]; [done|]. cbn [find_index length existsb]. by destruct (p x y).
Qed.
End two_ranges.

Section lexicographic.
Context `{Schedule} {T : Type} (less : T -> T -> bool).

Lemma lexicographic_find xs ys :
  lexicographic less xs ys =
    match zip xs ys !! find_index (fun c => less c.1 c.2 || less c.2 c.1) (zip xs ys) with
    | Some c => less c.1 c.2
    | None => length xs <? length ys
    end.
Proof.
  revert ys. induction xs as [|x xs IH]; intros [|y ys]; [done..|].
  cbn [lexicographic zip zip_with find_index fst snd length]. rewrite IH.
  destruct (less x y) eqn:E1, (less y x) eqn:E2; cbn; rewrite ?E1; done.
Qed.

Lemma lexicographical_compare_eq (r1 r2 : range T) xs ys : r1 ▷ xs -> r2 ▷ ys ->
  lexicographical_compare r1 r2 less = Ok (lexicographic less xs ys).
Proof.
  intros H1 H2. unfold lexicographical_compare. rewrite (shows_size _ _ H1), (shows_size _ _ H2), <- length_zip_min. cbv zeta.
  rewrite (find_range_eq (zip xs ys) (fun c => less c.1 c.2 || less c.2 c.1)); [|done|].
  - cbn [mbind res_bind]. rewrite lexicographic_find.
    set (k := find_index _ _). destruct (Nat.ltb_spec k (length (zip xs ys))) as [Hlt|Hge].
    + destruct (lookup_lt_is_Some_2 _ _ Hlt) as [[x y] Hc]. rewrite Hc. apply lookup_zip_Some in Hc as [Hx Hy].
      by rewrite (shows_get _ _ _ _ H1 Hx), (shows_get _ _ _ _ H2 Hy).
    + by rewrite (lookup_ge_None_2 (zip xs ys)).
  - intros i [x y] (Hx & Hy)%lookup_zip_Some. by rewrite (shows_get _ _ _ _ H1 Hx), (shows_get _ _ _ _ H2 Hy).
Qed.
End lexicographic.

(** ** Copies and permutations *)

Section copies.
Context `{Schedule} {T : Type}.
Implicit Types (r : range T) (xs : list T).

Lemma shows_flags r xs (f : T -> bool) (g : nat -> res bool) : r ▷ xs ->
  (forall i x, xs !! i = Some x -> g i = Ok (f x)) -> delayed_tabulate (range_size r) g ▷ (f <$> xs).
Proof.
  intros Hr Hg. split; [simpl; by rewrite length_fmap, (shows_size _ _ Hr)|].
  intros i b Hb. apply list_lookup_fmap_Some in Hb as (x & -> & Hx). by apply Hg.
Qed.

Lemma remove_if_eq r xs P : r ▷ xs -> size_t (length xs) ->
  remove_if r P = Ok (Some <$> base.filter (fun x => negb (P x)) xs).
Proof.
  intros Hr Hs. unfold remove_if. rewrite (pack_eq _ _ xs ((fun x => negb (P x)) <$> xs));
    [by rewrite packed_fmap|done| |by rewrite length_fmap|done].
  apply shows_flags; [done|]. intros i x Hx. by rewrite (shows_get _ _ _ _ Hr Hx).
Qed.

(** [xs] without the elements equivalent to the one before them; [prev] stands before [xs] *)
Fixpoint distinct_from (eq : T -> T -> bool) (prev : T) (xs : list T) : list T :=
  match xs with
  | [] => []
  | x :: xs => if eq x prev then distinct_from eq x xs else x :: distinct_from eq x xs
  end.

Definition distinct (eq : T -> T -> bool) (xs : list T) : list T :=
  match xs with [] => [] | x :: xs => x :: distinct_from eq x xs end.

Lemma packed_distinct eq prev xs :
  packed xs ((fun c => negb (eq c.2 c.1)) <$> zip (prev :: xs) xs) = distinct_from eq prev xs.
Proof.
  revert prev. induction xs as [|x xs IH]; intros prev; [done|].
  change (zip (prev :: x :: xs) (x :: xs)) with ((prev, x) :: zip (x :: xs) xs). rewrite fmap_cons. cbn [packed distinct_from fst snd]. rewrite IH. by destruct (eq x prev).
Qed.

Lemma unique_eq r xs eq : r ▷ xs -> size_t (length xs) -> unique r eq = Ok (Some <$> distinct eq xs).
Proof.
  intros Hr Hs. unfold unique, pack.
  set (bs := match xs with [] => [] | _ => true :: ((fun c => negb (eq c.2 c.1)) <$> pairs xs) end).
  assert (length bs = length xs) as Hl.
  { unfold bs. destruct xs as [|x xs']; [done|]. cbn [length]. rewrite length_fmap, length_pairs. cbn [length]. lia. }
  rewrite (pack_eq _ _ xs bs); [|done| |done|done].
  - do 2 f_equal. unfold bs, pairs. destruct xs as [|x xs']; [done|]. cbn [packed tail]. by rewrite packed_distinct.
  - split; [cbn; by rewrite Hl, (shows_size _ _ Hr)|]. intros i b Hb. cbn [delayed_tabulate subscript].
    destruct xs as [|x0 xs']; [done|]. unfold bs in Hb. destruct i as [|i]; [by injection Hb as <-|].
    cbn [Nat.eqb lookup list_lookup] in *. apply list_lookup_fmap_Some in Hb as ([x y] & -> & [Hx Hy]%lookup_pairs).
    rewrite Nat.add_1_r in Hy. rewrite (shows_get _ _ _ _ Hr Hy). cbn [mbind res_bind].
    replace (S i - 1) with i by lia. by rewrite (shows_get _ _ _ _ Hr Hx).
Qed.

Lemma reverse_eq r xs : r ▷ xs -> reverse r = Ok (Some <$> list.reverse xs).
Proof.
  intros Hr. unfold reverse. apply tabulate_eq; [by rewrite length_reverse, (shows_size _ _ Hr)|].
  intros i y [Hy Hi]%reverse_lookup_Some. apply (shows_get _ _ _ _ Hr).
  rewrite (shows_size _ _ Hr). rewrite <- Hy. f_equal. lia.
Qed.

Lemma rotate_eq r xs t : r ▷ xs -> t <= length xs -> rotate r t = Ok (Some <$> drop t xs ++ take t xs).
Proof.
  intros Hr Ht. unfold rotate. rewrite (shows_size _ _ Hr). apply tabulate_eq.
  - rewrite length_app, length_drop, length_take. lia.
  - intros i y Hy. cbv zeta. apply (shows_get _ _ _ _ Hr). apply lookup_app_Some in Hy as [Hy|[Hi Hy]].
    + rewrite lookup_drop in Hy. rewrite (proj2 (Nat.ltb_lt _ _)) by (apply lookup_lt_Some in Hy; lia).
      by rewrite Nat.add_comm.
    + rewrite length_drop in Hi, Hy. rewrite (proj2 (Nat.ltb_ge _ _)) by lia.
      apply lookup_take_Some in Hy as [Hy _]. rewrite <- Hy. f_equal. lia.
Qed.

Lemma append_eq r1 r2 xs ys : r1 ▷ xs -> r2 ▷ ys -> append r1 r2 = Ok (Some <$> xs ++ ys).
Proof.
  intros H1 H2. unfold append. rewrite (shows_size _ _ H1), (shows_size _ _ H2).
  apply tabulate_eq; [by rewrite length_app|]. intros i y [Hy|[Hi Hy]]%lookup_app_Some.
  - rewrite (proj2 (Nat.ltb_lt _ _)) by (by eapply lookup_lt_Some). by apply (shows_get _ _ _ _ H1).
  - rewrite (proj2 (Nat.ltb_ge _ _)) by done. by apply (shows_get _ _ _ _ H2).
Qed.

(** After the iterations [d], the cells they touch hold the elements of the opposite ends. *)
Definition swapped xs (d : list nat) (a : array T) : Prop :=
  length a = length xs /\ (forall j, j ∈ d -> j < length xs / 2) /\
  forall j, j < length xs ->
    a !! j = Some <$> (if decide (j ∈ d \/ length xs - j - 1 ∈ d) then xs !! (length xs - j - 1) else xs !! j).

Lemma half_lt n i : i < n / 2 -> 2 * i + 1 < n.
Proof. intros Hi. assert (2 * (n / 2) <= n) by (apply Nat.Div0.mul_div_le). lia. Qed.

Lemma swap_step xs d a i : i < length xs / 2 -> i ∉ d -> swapped xs d a ->
  ok (swap_cells a i (length xs - i - 1)) (swapped xs (d ++ [i])).
Proof.
  intros Hi Hd (Hl & Hb & Ha). assert (Hi' := half_lt _ _ Hi). set (n := length xs) in *.
  destruct (lookup_lt_is_Some_2 xs i) as [x Hx]; [fold n; lia|].
  destruct (lookup_lt_is_Some_2 xs (n - i - 1)) as [y Hy]; [fold n; lia|].
  assert (forall j, j ∈ d -> 2 * j + 1 < n) as Hd' by (intros j Hj; by apply half_lt, Hb).
  assert (n - i - 1 ∉ d) as Hd2 by (intros Hin; specialize (Hd' _ Hin); lia).
  unfold swap_cells. rewrite (get_eq a i x), (get_eq a (n - i - 1) y).
  - apply ok_ret. split; [by rewrite !length_insert|]. split; [intros j [?| ->%list_elem_of_singleton]%elem_of_app; auto|].
    intros j Hj. fold n in Hj |- *. destruct (decide (j = n - i - 1)) as [->|Hne1].
    + rewrite list_lookup_insert_eq by (rewrite length_insert; lia).
      replace (n - (n - i - 1) - 1) with i by lia. rewrite decide_True by set_solver. by rewrite Hx.
    + rewrite list_lookup_insert_ne by done. destruct (decide (j = i)) as [->|Hne2].
      * rewrite list_lookup_insert_eq by lia. rewrite decide_True by set_solver. by rewrite Hy.
      * rewrite list_lookup_insert_ne by done. rewrite Ha by done. f_equal.
        destruct (decide (j ∈ d \/ n - j - 1 ∈ d)) as [Hin|Hin]; [rewrite decide_True by set_solver; done|].
        rewrite decide_False; [done|]. rewrite !elem_of_app, !list_elem_of_singleton. intros [[?|?]|[?|?]]; [naive_solver..|lia].
  - rewrite Ha by lia. replace (n - (n - i - 1) - 1) with i by lia. rewrite decide_False by tauto. by rewrite Hy.
  - rewrite Ha by lia. rewrite decide_False by tauto. by rewrite Hx.
Qed.

Lemma reverse_inplace_eq xs : reverse_inplace (Some <$> xs) = Ok (Some <$> list.reverse xs).
Proof.
  unfold reverse_inplace. rewrite length_fmap. cbv zeta.
  apply ok_exact. eapply ok_mono; [apply (ok_parallel_for (swapped xs))|].
  - split; [by rewrite length_fmap|]. split; [set_solver|]. intros j Hj. rewrite decide_False by set_solver. by rewrite list_lookup_fmap.
  - intros d i a Hi Hd Ha. apply swap_step; [lia|done..].
  - intros a (d & Hd & Hl & _ & Ha). apply list_eq. intros j. destruct (decide (j < length xs)) as [Hj|Hj].
    + rewrite Ha by done. rewrite list_lookup_fmap, reverse_lookup by done. f_equal.
      replace (length xs - S j) with (length xs - j - 1) by lia.
      assert (forall k, k < length xs / 2 -> k ∈ d) as Hin by (intros k Hk; rewrite Hd; apply elem_of_seq; lia).
      destruct (decide _) as [|Hno]; [done|]. f_equal.
      assert (length xs < 2 * S (length xs / 2)) by (apply Nat.mul_succ_div_gt; lia).
      destruct (decide (j < length xs / 2)); [naive_solver|].
      destruct (decide (length xs - j - 1 < length xs / 2)); [naive_solver|]. lia.
    + rewrite !lookup_ge_None_2; [done|rewrite length_fmap, length_reverse; lia|lia].
Qed.
End copies.

(** ** Extreme elements *)

#[export] Instance flip_weak {T} (f : T -> T -> bool) `{!StrictWeak f} : StrictWeak (fun a b => f b a).
Proof.
  split; [intros; apply sw_irrefl|intros x y z ??; by apply (sw_trans z y x)|].
  intros x y z Hf. destruct (sw_split z y x Hf); auto.
Qed.

Section extremes.
Context `{Schedule} {T : Type} (comp : T -> T -> bool) `{!StrictWeak comp} (xs : list T).

(** The position [min_index] chooses *)
Definition pick (a b : nat) : nat :=
  match xs !! a, xs !! b with Some x, Some y => if comp y x then b else a | _, _ => a end.

(** [k] is the first position of a least element. *)
Definition first_least (k : nat) : Prop :=
  exists x, xs !! k = Some x /\ (forall j y, xs !! j = Some y -> comp y x = false) /\
    (forall j y, j < k -> xs !! j = Some y -> comp x y = true).

Lemma pick_assoc a b c : a < length xs -> b < length xs -> c < length xs ->
  pick a (pick b c) = pick (pick a b) c.
Proof using StrictWeak0.
  intros [x Hx]%lookup_lt_is_Some_2 [y Hy]%lookup_lt_is_Some_2 [z Hz]%lookup_lt_is_Some_2.
  unfold pick. rewrite Hy, Hz, Hx. destruct (comp z y) eqn:E1, (comp y x) eqn:E2; rewrite ?Hx, ?Hy, ?Hz, ?E1, ?E2; try done.
  - by rewrite (sw_trans z y x).
  - destruct (comp z x) eqn:E3; [|done]. destruct (sw_split z y x E3); congruence.
Qed.

Lemma pick_lt a b : a < length xs -> b < length xs -> pick a b < length xs.
Proof. intros Ha Hb. unfold pick. destruct (xs !! a), (xs !! b); try done. by destruct (comp _ _). Qed.

Lemma min_index_eq r a b : r ▷ xs -> a < length xs -> b < length xs -> min_index r comp a b = Ok (pick a b).
Proof.
  intros Hr [x Hx]%lookup_lt_is_Some_2 [y Hy]%lookup_lt_is_Some_2. unfold min_index, pick.
  rewrite (shows_get _ _ _ _ Hr Hx), (shows_get _ _ _ _ Hr Hy). cbn [mbind res_bind]. rewrite Hx, Hy.
  by destruct (comp y x).
Qed.

Lemma min_index_semigroup r n : r ▷ xs -> Semigroup (make_monoid (min_index r comp) n) (fun i => i < length xs) pick.
Proof using StrictWeak0.
  intros Hr. split; [intros; by apply min_index_eq|apply pick_lt|intros; by apply pick_assoc].
Qed.

Lemma pick_prefix m : S m <= length xs ->
  let k := foldl pick 0 (seq 1 m) in
  exists x, xs !! k = Some x /\ k <= m /\ (forall j y, j <= m -> xs !! j = Some y -> comp y x = false) /\
    (forall j y, j < k -> xs !! j = Some y -> comp x y = true).
Proof using StrictWeak0.
  induction m as [|m IH]; intros Hm.
  - destruct (lookup_lt_is_Some_2 xs 0) as [x Hx]; [lia|]. exists x. split; [done|]. split; [done|]. split; [|intros; simpl in *; lia].
    intros j y Hj Hy. replace j with 0 in Hy by lia. simplify_eq. apply sw_irrefl.
  - destruct IH as (x & Hx & Hk & Hle & Hlt); [lia|]. cbv zeta. rewrite seq_S, foldl_app. cbn [foldl Nat.add].
    set (k := foldl pick 0 (seq 1 m)) in *. destruct (lookup_lt_is_Some_2 xs (S m)) as [y Hy]; [lia|].
    unfold pick. rewrite Hx, Hy. destruct (comp y x) eqn:E.
    + exists y. split; [done|]. split; [done|]. split.
      * intros j z Hj Hz. destruct (decide (j = S m)) as [->|]; [simplify_eq; apply sw_irrefl|].
        destruct (comp z y) eqn:E2; [|done]. assert (comp z x = true) by (by eapply sw_trans).
        rewrite (Hle j z) in *; [done|lia|done].
      * intros j z Hj Hz. destruct (sw_split y z x E) as [|Hc]; [done|]. rewrite (Hle j z) in Hc; [done|lia|done].
    + exists x. split; [done|]. split; [lia|]. split; [|done].
      intros j z Hj Hz. destruct (decide (j = S m)) as [->|]; [by simplify_eq|]. apply (Hle j); [lia|done].
Qed.

Lemma seq_cons n : 0 < n -> seq 0 n = 0 :: seq 1 (n - 1).
Proof. intros Hn. destruct n; [lia|]. simpl. by rewrite Nat.sub_0_r. Qed.

Lemma pick_all : xs <> [] -> first_least (foldl pick 0 (seq 1 (length xs - 1))).
Proof using StrictWeak0.
  intros Hne. destruct (pick_prefix (length xs - 1)) as (x & Hx & Hk & Hle & Hlt); [destruct xs; [done|simpl; lia]|].
  exists x. split; [done|]. split; [|done]. intros j y Hy. apply (Hle j); [|done]. apply lookup_lt_Some in Hy. lia.
Qed.

Lemma shows_iota n : delayed_tabulate n (fun i => Ok i) ▷ seq 0 n.
Proof. split; [by rewrite length_seq|]. intros i x [-> Hi]%lookup_seq. done. Qed.

Lemma min_element_eq r : r ▷ xs -> xs <> [] -> exists k, min_element r comp = Ok k /\ first_least k.
Proof using StrictWeak0.
  intros Hr Hne. assert (0 < length xs) by (destruct xs; [done|simpl; lia]). eexists. split; [|by apply pick_all].
  unfold min_element. rewrite (shows_size _ _ Hr). cbv zeta. rewrite (proj2 (Nat.eqb_neq _ _)) by lia.
  pose proof (min_index_semigroup r (length xs) Hr).
  rewrite (reduce_eq _ (fun i => i < length xs) pick _ (seq 0 (length xs))); [|apply shows_iota|].
  - rewrite seq_cons by done. done.
  - apply Forall_forall. intros i Hi%elem_of_seq. lia.
Qed.
End extremes.

Section both_extremes.
Context `{Schedule} {T : Type} (comp : T -> T -> bool) `{!StrictWeak comp} (xs : list T).

Definition pick2 (a b : nat * nat) : nat * nat := (pick comp xs a.1 b.1, pick (fun x y => comp y x) xs a.2 b.2).

Lemma pick2_foldl l a : foldl pick2 a ((fun i => (i, i)) <$> l) =
  (foldl (pick comp xs) a.1 l, foldl (pick (fun x y => comp y x) xs) a.2 l).
Proof. revert a. induction l as [|i l IH]; intros [a b]; [done|]. rewrite fmap_cons. cbn [foldl]. by rewrite IH. Qed.

Lemma minmax_semigroup r n : r ▷ xs ->
  Semigroup (make_monoid (minmax_index r comp) n) (fun i => i.1 < length xs /\ i.2 < length xs) pick2.
Proof using StrictWeak0.
  intros Hr. split.
  - intros [a1 a2] [b1 b2] [Ha1 Ha2] [Hb1 Hb2]. cbn [op fst snd] in *. unfold minmax_index, pick2. cbn [fst snd].
    rewrite (min_index_eq comp xs) by done. cbn [mbind res_bind].
    apply lookup_lt_is_Some_2 in Ha2 as [x Hx], Hb2 as [y Hy]. unfold pick at 3.
    rewrite (shows_get _ _ _ _ Hr Hx), (shows_get _ _ _ _ Hr Hy), Hx, Hy. cbn [mbind res_bind]. by destruct (comp x y).
  - intros a b [] []. split; by apply pick_lt.
  - intros a b c [] [] []. unfold pick2. cbn [fst snd]. apply f_equal2; apply pick_assoc; done || apply _.
Qed.

Lemma minmax_element_eq r : r ▷ xs -> xs <> [] ->
  exists k l, minmax_element r comp = Ok (k, l) /\ first_least comp xs k /\ first_least (fun x y => comp y x) xs l.
Proof using StrictWeak0.
  intros Hr Hne. assert (0 < length xs) by (destruct xs; [done|simpl; lia]). do 2 eexists.
  split; [|split; by apply pick_all; [apply _|]]. unfold minmax_element. rewrite (shows_size _ _ Hr). cbv zeta.
  rewrite (proj2 (Nat.eqb_neq _ _)) by lia.
  pose proof (minmax_semigroup r (length xs, length xs) Hr).
  rewrite (reduce_eq _ (fun i => i.1 < length xs /\ i.2 < length xs) pick2 _ ((fun i => (i, i)) <$> seq 0 (length xs))).
  - rewrite seq_cons by done. rewrite fmap_cons. cbn [fold1]. by rewrite pick2_foldl.
  - apply shows_tabulate. done.
  - apply Forall_fmap, Forall_forall. intros i Hi%elem_of_seq. simpl. lia.
Qed.
End both_extremes.

(** ** Flattening and splitting *)

Section flattening.
Context `{Schedule} {T : Type}.

Lemma list_sum_take i ls : list_sum (take i ls) <= list_sum ls.
Proof. rewrite <- (take_drop i ls) at 2. rewrite list_sum_app. lia. Qed.

Lemma list_sum_elem l ls : l ∈ ls -> l <= list_sum ls.
Proof. induction 1; simpl; lia. Qed.

Lemma scan_sizes ls : size_t (list_sum ls) ->
  SequenceOps.scan_inplace plus_size 0 (length ls) no_flag (Some <$> ls) =
    Ok (list_sum ls, Some <$> ((fun i => list_sum (take i ls)) <$> seq 0 (length ls))).
Proof.
  intros Hs. rewrite (scan_inplace_eq plus_size size_t size_add 0 _ _ _ ls); [|done| |by rewrite length_fmap|].
  - simpl. assert (flag_set no_flag fl_scan_inclusive = false) as -> by done.
    rewrite scatter_all by (by rewrite !length_fmap, length_scans). rewrite foldl_size_add by done. do 3 f_equal.
    unfold scans. apply list_fmap_ext. intros i k Hk. rewrite foldl_size_add; [done|].
    eapply size_t_le, Hs. apply (list_sum_take k).
  - intros i x Hx. simpl. by rewrite list_lookup_fmap, Hx.
  - apply Forall_forall. intros l Hl. eapply size_t_le, Hs. by apply list_sum_elem.
Qed.

Lemma default_all {X} (xss : list (list X)) : (fun i => default [] (xss !! i)) <$> seq 0 (length xss) = xss.
Proof.
  apply list_eq. intros i. rewrite list_lookup_fmap. destruct (decide (i < length xss)) as [Hi|Hi].
  - rewrite lookup_seq_lt by done. simpl. by destruct (lookup_lt_is_Some_2 xss i Hi) as [xs ->].
  - rewrite !lookup_ge_None_2; [done|lia|rewrite length_seq; lia].
Qed.

Lemma join_defaults {X Y} (f : X -> Y) (xss : list (list X)) :
  mjoin ((fun i => f <$> default [] (xss !! i)) <$> seq 0 (length xss)) = f <$> mjoin xss.
Proof.
  trans (mjoin ((fmap f : list X -> list Y) <$> xss)).
  - change (fun i => f <$> default [] (xss !! i)) with (fmap f ∘ (fun i => default [] (xss !! i))).
    by rewrite list_fmap_compose, default_all.
  - induction xss as [|xs xss IH]; [done|]. rewrite fmap_cons. change (mjoin (xs :: xss)) with (xs ++ mjoin xss).
    rewrite fmap_app, <- IH. done.
Qed.

Lemma offset_sum {X} (xss : list (list X)) i : i <= length xss ->
  offset (fun i => default [] (xss !! i)) i = list_sum (take i (length <$> xss)).
Proof.
  induction i as [|i IH]; intros Hi; [done|]. rewrite offset_S, IH by lia.
  destruct (lookup_lt_is_Some_2 xss i) as [xs Hx]; [lia|]. rewrite Hx. simpl.
  rewrite (take_S_r _ _ (length xs)) by (by rewrite list_lookup_fmap, Hx). rewrite list_sum_app. simpl. lia.
Qed.

Lemma length_mjoin {X} (xss : list (list X)) : length (mjoin xss) = list_sum (length <$> xss).
Proof. induction xss as [|xs xss IH]; [done|]. change (mjoin (xs :: xss)) with (xs ++ mjoin xss). rewrite length_app, IH, fmap_cons. done. Qed.

Lemma flatten_eq (r : range (range T)) rs xss : r ▷ rs -> Forall2 shows rs xss -> size_t (length (mjoin xss)) ->
  flatten r = Ok (Some <$> mjoin xss).
Proof.
  intros Hr Hrs Hs. assert (Hl := Forall2_length _ _ _ Hrs). unfold flatten. rewrite length_mjoin in Hs.
  assert (forall i xs, xss !! i = Some xs -> exists ri, subscript r i = Ok ri /\ ri ▷ xs) as Hget.
  { intros i xs Hx. destruct (Forall2_lookup_r _ _ _ _ _ Hrs Hx) as (ri & Hi & Hxs). exists ri.
    by rewrite (shows_get _ _ _ _ Hr Hi). }
  rewrite (tabulate_eq (length <$> xss)).
  2: by rewrite length_fmap, (shows_size _ _ Hr).
  2: { intros i n Hn. apply list_lookup_fmap_Some in Hn as (xs & -> & Hx). destruct (Hget _ _ Hx) as (ri & -> & Hxs).
       simpl. by rewrite (shows_size _ _ Hxs). }
  cbn [mbind res_bind]. rewrite (shows_size _ _ Hr), Hl.
  replace (length xss) with (length (length <$> xss)) at 1 by apply length_fmap.
  rewrite scan_sizes by done. cbn [mbind res_bind].
  rewrite (parallel_for_blocks (fun i => Some <$> default [] (xss !! i)) _ _ 0).
  - rewrite join_defaults, <- length_mjoin, scatter_all; [done|by rewrite length_uninitialized, length_fmap].
  - intros i a Hi [Ha _]. rewrite length_uninitialized in Ha.
    destruct (lookup_lt_is_Some_2 xss i Hi) as [xs Hx]. destruct (Hget _ _ Hx) as (ri & Hri & Hxs). rewrite Hx.
    assert (offset (fun i => Some <$> default [] (xss !! i)) i = list_sum (take i (length <$> xss))) as Ho.
    { rewrite <- offset_sum by lia. unfold offset. rewrite !length_mjoin, <- !list_fmap_compose. f_equal.
      apply list_fmap_ext. intros j k _. simpl. apply length_fmap. }
    rewrite (get_eq _ _ (list_sum (take i (length <$> xss)))); [|by rewrite !list_lookup_fmap, lookup_seq_lt by (by rewrite length_fmap)].
    cbn [mbind res_bind]. rewrite Hri. cbn [mbind res_bind]. rewrite (shows_size _ _ Hxs), Ho. cbn [default Nat.add].
    apply parallel_for_cells; [apply length_fmap|]. intros j z a' Hz Hl' _.
    apply list_lookup_fmap_Some in Hz as (x & -> & Hj). rewrite (shows_get _ _ _ _ Hxs Hj). cbn [mbind res_bind].
    apply assign_eq. rewrite Hl', Ha. apply lookup_lt_Some in Hj.
    rewrite <- (take_drop_middle (length <$> xss) i (length xs)) at 2 by (by rewrite list_lookup_fmap, Hx).
    rewrite list_sum_app. cbn [list_sum fold_right]. unfold id in Hj. lia.
Qed.
End flattening.

Section splitting.
Context {T : Type}.

(** [xs] cut behind each element whose flag is set *)
Fixpoint pieces (xs : list T) (bs : list bool) : list (list T) :=
  match xs, bs with
  | x :: xs, b :: bs =>
      if b : bool then [x] :: pieces xs bs
      else match pieces xs bs with p :: ps => (x :: p) :: ps | [] => [[x]] end
  | _, _ => [[]]
  end.

Definition locations (bs : list bool) : list nat := packed (seq 0 (length bs)) bs.
Definition piece_start (ls : list nat) (i : nat) : nat := match i with O => 0 | S i => S (ls !!! i) end.
Definition piece_end (ls : list nat) (n i : nat) : nat := if i =? length ls then n else S (ls !!! i).

Lemma locations_cons b bs : locations (b :: bs) = (if b then [0] else []) ++ (S <$> locations bs).
Proof.
  unfold locations. cbn [length seq packed]. rewrite <- packed_map, fmap_S_seq. by destruct b.
Qed.

Lemma length_pieces xs bs : length bs = length xs -> length (pieces xs bs) = S (length (locations bs)).
Proof.
  revert bs. induction xs as [|x xs IH]; intros [|b bs] Hl; [done..|]. injection Hl as Hl. specialize (IH _ Hl).
  rewrite locations_cons. cbn [pieces]. destruct b; simpl; rewrite length_fmap; [by rewrite IH|].
  destruct (pieces xs bs); [done|]. simpl in *. lia.
Qed.

Lemma join_pieces xs bs : length bs = length xs -> mjoin (pieces xs bs) = xs.
Proof.
  revert bs. induction xs as [|x xs IH]; intros [|b bs] Hl; [done..|]. injection Hl as Hl. specialize (IH _ Hl).
  cbn [pieces]. destruct b.
  - change (mjoin ([x] :: pieces xs bs)) with (x :: mjoin (pieces xs bs)). by rewrite IH.
  - assert (Hp := length_pieces _ _ Hl). destruct (pieces xs bs) as [|p ps]; [done|]. by rewrite <- IH.
Qed.

Lemma piece_start_S ls i : i <= length ls -> piece_start (0 :: (S <$> ls)) (S i) = S (piece_start ls i).
Proof. intros Hi. destruct i as [|i]; [done|]. unfold piece_start. f_equal.
  change ((S <$> ls) !!! i = S (ls !!! i)). by rewrite (list_lookup_total_fmap S) by lia. Qed.

Lemma piece_start_fmap ls i : S i <= length ls -> piece_start (S <$> ls) (S i) = S (piece_start ls (S i)).
Proof. intros Hi. unfold piece_start. f_equal. by rewrite (list_lookup_total_fmap S) by lia. Qed.

Lemma piece_end_fmap ls n i : i <= length ls -> piece_end (S <$> ls) (S n) i = S (piece_end ls n i).
Proof.
  intros Hi. unfold piece_end. rewrite length_fmap. destruct (Nat.eqb_spec i (length ls)); [done|].
  by rewrite (list_lookup_total_fmap S) by lia.
Qed.

Lemma slice_of_S a b (x : T) xs : slice_of (S a) (S b) (x :: xs) = slice_of a b xs.
Proof. done. Qed.

Lemma lookup_pieces xs bs i : length bs = length xs -> i <= length (locations bs) ->
  pieces xs bs !! i = Some (slice_of (piece_start (locations bs) i) (piece_end (locations bs) (length xs) i) xs).
Proof.
  revert bs i. induction xs as [|x xs IH]; intros [|b bs] i Hl Hi; [simpl in Hi; by replace i with 0 by lia|done..|].
  injection Hl as Hl. specialize (IH bs). rewrite locations_cons in *. cbn [pieces length]. destruct b; cbn [app] in *.
  - destruct i as [|i]; [done|]. cbn [lookup list_lookup]. simpl in Hi. rewrite length_fmap in Hi.
    rewrite IH, piece_start_S by (done || lia). rewrite <- slice_of_S with (x := x). do 2 f_equal.
    rewrite <- piece_end_fmap by lia. done.
  - rewrite length_fmap in Hi. rewrite piece_end_fmap by done. assert (Hp := length_pieces _ _ Hl).
    revert IH Hp. destruct (pieces xs bs) as [|p ps]; intros IH Hp; [done|]. destruct i as [|i].
    + specialize (IH 0 Hl ltac:(lia)). injection IH as ->. unfold slice_of. by rewrite !Nat.sub_0_r.
    + rewrite piece_start_fmap by done. rewrite slice_of_S. apply (IH (S i)); [done|lia].
Qed.
Lemma piece_end_le (bs : list bool) i : i <= length (locations bs) -> piece_end (locations bs) (length bs) i <= length bs.
Proof.
  intros Hi. unfold piece_end. destruct (Nat.eqb_spec i (length (locations bs))) as [|Hne]; [done|].
  assert (locations bs !!! i ∈ packed (seq 0 (length bs)) (negb <$> bs) ++ locations bs) as Hin.
  { apply elem_of_app. right. apply list_elem_of_lookup_total_2. lia. }
  unfold locations in Hin at 2. rewrite packed_perm in Hin by (by rewrite length_seq). apply elem_of_seq in Hin. lia.
Qed.
End splitting.

Lemma map_split_at_eq `{Schedule} {T B} (R : range T) (flags : range bool) xs bs (f : range T -> res B) (g : list T -> B) :
  R ▷ xs -> flags ▷ bs -> length bs = length xs -> size_t (length xs) ->
  (forall r ys, r ▷ ys -> f r = Ok (g ys)) -> map_split_at R flags f = Ok (Some <$> (g <$> pieces xs bs)).
Proof.
  intros HR Hb Hl Hs Hf. unfold map_split_at. rewrite (shows_size _ _ HR), (shows_size _ _ Hb), Hl, Nat.eqb_refl.
  cbn [assert mbind res_bind]. unfold pack_index. rewrite (pack_index_eq _ bs) by (done || by rewrite Hl). cbn [mbind res_bind].
  fold (locations bs). rewrite length_fmap. cbv zeta. set (ls := locations bs).
  apply tabulate_eq; [by rewrite length_fmap, length_pieces, Nat.add_1_r|].
  intros i y Hy. apply list_lookup_fmap_Some in Hy as (p & -> & Hp).
  assert (i <= length ls) as Hi by (apply lookup_lt_Some in Hp; rewrite length_pieces in Hp by done; fold ls in Hp; lia).
  rewrite lookup_pieces in Hp by done. fold ls in Hp. injection Hp as <-.
  assert ((if i =? 0 then Ok 0 else l ← get (Some <$> ls) (i - 1); Ok (l + 1)) = Ok (piece_start ls i)) as ->.
  { destruct i as [|i]; [done|]. cbn [Nat.eqb]. replace (S i - 1) with i by lia.
    rewrite (get_eq _ i (ls !!! i)); [simpl; by rewrite Nat.add_1_r|].
    rewrite list_lookup_fmap, (list_lookup_lookup_total_lt ls i) by lia. done. }
  cbn [mbind res_bind].
  assert ((if i =? length ls then Ok (length xs) else l ← get (Some <$> ls) i; Ok (l + 1)) = Ok (piece_end ls (length xs) i)) as ->.
  { unfold piece_end. destruct (Nat.eqb_spec i (length ls)); [done|].
    rewrite (get_eq _ i (ls !!! i)); [simpl; by rewrite Nat.add_1_r|].
    rewrite list_lookup_fmap, (list_lookup_lookup_total_lt ls i) by lia. done. }
  cbn [mbind res_bind]. apply Hf, shows_cut; [done|]. rewrite <- Hl. by apply piece_end_le.
Qed.

(** ** The theorems *)

Section theorems.
Context `{Schedule}.

(** Comparing and searching two ranges: for every schedule, [equal] says whether the ranges
    agree pairwise, [mismatch] returns the first disagreement, [lexicographical_compare] is
    the order of dictionaries, [search] returns the first and [find_end] the last occurrence
    of the second range in the first (or the end). *)
Theorem two_ranges_correct {T} (r1 r2 : range T) xs ys (p : T -> T -> bool) : r1 ▷ xs -> r2 ▷ ys ->
  0 < length ys <= length xs + 1 ->
  let occurs i := prefix_match p (drop i xs) ys in
  let d := find_index (fun c => negb (p c.1 c.2)) (zip xs ys) in
  equal r1 r2 p = Ok (all2 p xs ys) /\ mismatch r1 r2 p = Ok (d, d) /\
  lexicographical_compare r1 r2 p = Ok (lexicographic p xs ys) /\
  (exists k, search r1 r2 p = Ok k /\ is_first occurs (length xs) k) /\
  (exists k, find_end r1 r2 p = Ok k /\ is_last occurs (length xs) k).
Proof.
  intros H1 H2 Hl. cbv zeta. split; [by apply equal_eq|]. split; [by apply mismatch_eq|].
  split; [by apply lexicographical_compare_eq|]. split; [by apply search_first|by apply find_end_last].
Qed.

(** Copies and permutations: for every schedule, [reverse] and [reverse_inplace] reverse,
    [rotate] rotates, [append] and [flatten] concatenate, [remove_if] and [unique] keep
    exactly the elements they should, in order. *)
Theorem copies_correct {T} (r1 r2 : range T) (r : range (range T)) rs xs ys xss t (P : T -> bool) (eq : T -> T -> bool) :
  r1 ▷ xs -> r2 ▷ ys -> r ▷ rs -> Forall2 shows rs xss ->
  (Z.of_nat (length xs) < 2 ^ 64)%Z -> (Z.of_nat (length (mjoin xss)) < 2 ^ 64)%Z -> t <= length xs ->
  reverse r1 = Ok (Some <$> list.reverse xs) /\ reverse_inplace (Some <$> xs) = Ok (Some <$> list.reverse xs) /\
  rotate r1 t = Ok (Some <$> drop t xs ++ take t xs) /\ append r1 r2 = Ok (Some <$> xs ++ ys) /\
  remove_if r1 P = Ok (Some <$> base.filter (fun x => negb (P x)) xs) /\
  unique r1 eq = Ok (Some <$> distinct eq xs) /\
  flatten r = Ok (Some <$> mjoin xss).
Proof.
  intros H1 H2 Hr Hrs Hs Hs' Ht. split; [by apply reverse_eq|]. split; [by apply reverse_inplace_eq|].
  split; [by apply rotate_eq|]. split; [by apply append_eq|]. split; [apply remove_if_eq; [done|split; [lia|exact Hs]]|].
  split; [apply unique_eq; [done|split; [lia|exact Hs]]|]. apply (flatten_eq r rs); [done..|]. split; [lia|exact Hs'].
Qed.

(** The extreme elements: on a range that is not empty, for every schedule and every
    strict weak order, [min_element] returns the first of the least elements, [max_element]
    the first of the greatest, and [minmax_element] both. *)
Theorem extremes_correct {T} (comp : T -> T -> bool) `{!StrictWeak comp} (r : range T) xs : r ▷ xs -> xs <> [] ->
  (exists k, min_element r comp = Ok k /\ first_least comp xs k) /\
  (exists k, max_element r comp = Ok k /\ first_least (fun a b => comp b a) xs k) /\
  (exists k l, minmax_element r comp = Ok (k, l) /\ first_least comp xs k /\ first_least (fun a b => comp b a) xs l).
Proof.
  intros Hr Hne. split; [by apply min_element_eq|]. split; [|by apply minmax_element_eq].
  unfold max_element. apply min_element_eq; [apply _|done..].
Qed.

(** [map_split_at] applies the function to the pieces of the range that the flags
    separate; the pieces put together are the range, and there is one more of them than flags
    that are set. *)
Theorem split_pieces {T B} (R : range T) (flags : range bool) xs bs (f : range T -> res B) (g : list T -> B) :
  R ▷ xs -> flags ▷ bs -> length bs = length xs -> (Z.of_nat (length xs) < 2 ^ 64)%Z ->
  (forall r ys, r ▷ ys -> f r = Ok (g ys)) ->
  map_split_at R flags f = Ok (Some <$> (g <$> pieces xs bs)) /\
  mjoin (pieces xs bs) = xs /\ length (pieces xs bs) = S (count_true bs).
Proof.
  intros HR Hb Hl Hs Hf. split; [apply map_split_at_eq; [done..|split; [lia|exact Hs]|done]|]. split; [by apply join_pieces|].
  rewrite length_pieces by done. unfold locations. by rewrite length_packed by apply length_seq.
Qed.
End theorems.

(** ** Sizes that wrap around *)

(** The first read already fails. *)
Lemma find_if_index_fails `{Schedule} n p e : 0 < n -> p 0 = Err e -> find_if_index n p default_granularity = Err e.
Proof.
  intros Hn Hp. unfold find_if_index. assert (Hg := default_granularity_pos).
  destruct (default_granularity `min` n) as [|k] eqn:E; [lia|]. cbn [first_index]. by rewrite Hp.
Qed.

(** [adjacent_find] on an empty range reads elements that do not exist: the size minus one
    wraps around. *)
Theorem adjacent_find_empty `{Schedule} {T} (p : T -> T -> bool) : adjacent_find (of_list []) p = Err BadPtr.
Proof.
  unfold adjacent_find. assert (Hw := size_sub_wraps 0 1 ltac:(lia) ltac:(lia)).
  rewrite (find_if_index_fails _ _ BadPtr); [done| |done]. cbn [range_size of_list length]. lia.
Qed.

(** [find_end] with a pattern longer by two or more than the range reads out of bounds. *)
Theorem find_end_long `{Schedule} {T} (x : T) p : find_end (of_list ([] : list T)) (of_list [x; x]) p = Err BadPtr.
Proof.
  unfold find_end. cbn [range_size of_list length Nat.eqb Nat.add].
  rewrite (find_if_index_fails _ _ BadPtr); [done|lia|]. unfold matches_at. cbn [range_size of_list length first_index].
  done.
Qed.

(** [find_first_of] hands the elements to the predicate in the opposite order. *)
Theorem find_first_of_swapped : find_first_of (of_list [1]) (of_list [2]) Nat.ltb = Ok 1.
Proof. by vm_compute. Qed.

(** ** The theorems at work *)

Lemma two_ranges_correct_witness : @search backwards nat nat (of_list [7; 8; 7; 8]) (of_list [7; 8]) Nat.eqb = Ok 0 /\
  @find_end backwards nat nat (of_list [7; 8; 7; 8]) (of_list [7; 8]) Nat.eqb = Ok 2.
Proof.
  destruct (@two_ranges_correct backwards nat (of_list [7; 8; 7; 8]) (of_list [7; 8]) [7; 8; 7; 8] [7; 8] Nat.eqb
    (shows_of_list _) (shows_of_list _) ltac:(simpl; lia)) as (_ & _ & _ & (k & -> & Hk) & (l & -> & Hl)).
  split; f_equal.
  - destruct k as [|k]; [done|]. destruct Hk as (_ & Hf & _). by specialize (Hf 0 ltac:(lia)).
  - destruct Hl as [[_ Hf]|(Hl1 & Hq & Hf)]; [by specialize (Hf 0 ltac:(simpl; lia))|]. simpl in *.
    destruct l as [|[|[|[|l]]]]; [by specialize (Hf 2 ltac:(lia))|done|done|done|lia].
Defined.

Lemma copies_correct_witness : @unique backwards nat (of_list [3; 3; 4; 3]) Nat.eqb = Ok (Some <$> [3; 4; 3]) /\
  @flatten backwards nat (of_list [of_list [1]; of_list [2; 3]]) = Ok (Some <$> [1; 2; 3]).
Proof.
  destruct (@copies_correct backwards nat (of_list [3; 3; 4; 3]) (of_list []) (of_list [of_list [1]; of_list [2; 3]])
    [of_list [1]; of_list [2; 3]] [3; 3; 4; 3] [] [[1]; [2; 3]] 0 Nat.even Nat.eqb) as (_ & _ & _ & _ & _ & Hu & Hf).
  - apply shows_of_list.
  - apply shows_of_list.
  - apply shows_of_list.
  - repeat constructor; apply shows_of_list.
  - done.
  - done.
  - lia.
  - split; [exact Hu|exact Hf].
Defined.

Lemma extremes_correct_witness : @min_element backwards nat (of_list [3; 1; 2; 1]) Nat.ltb = Ok 1.
Proof.
  destruct (@extremes_correct backwards nat Nat.ltb _ (of_list [3; 1; 2; 1]) [3; 1; 2; 1] (shows_of_list _) ltac:(done))
    as ((k & -> & x & Hx & Hle & Hlt) & _).
  f_equal. destruct k as [|[|[|[|k]]]]; [|done| | |done]; injection Hx as <-.
  - by specialize (Hle 1 1 eq_refl).
  - by specialize (Hle 1 1 eq_refl).
  - by specialize (Hlt 1 1 ltac:(lia) eq_refl).
Defined.

Lemma split_pieces_witness :
  @map_split_at backwards nat nat (of_list [1; 2; 3]) (of_list [false; true; false]) (fun r => Ok (range_size r)) = Ok [Some 2; Some 1].
Proof.
  destruct (@split_pieces backwards nat nat (of_list [1; 2; 3]) (of_list [false; true; false]) [1; 2; 3] [false; true; false]
    (fun r => Ok (range_size r)) length) as (-> & _).
  - apply shows_of_list.
  - apply shows_of_list.
  - done.
  - done.
  - intros r ys Hr. by rewrite (shows_size _ _ Hr).
  - done.
Defined.
