(* ===== verification/WsDeque.v ===== *)
(** * The deque of a worker

    [src/lib/parlay/internal/work_stealing_deque.h], the deque of Arora, Blumofe and Plaxton
    that each worker of the fork-join scheduler has: its owner pushes and pops jobs at the
    bottom, any other worker may steal from the top.  One step of the model is one access to
    an atomic variable, at sequential consistency; the steps of the owner and of the thieves
    interleave. *)

From S2P Require Import Prelude.

#[local] Open Scope Z_scope.

(** [tag_t] is a 32-bit unsigned integer. *)
Definition wrap32 (x : Z) : Z := x mod 2 ^ 32.

Section deque.
Context {Job : Type}.

Record age_t := mk_age { tag : Z; top : nat }.

#[global] Instance age_eq_dec : EqDecision age_t.
Proof. solve_decision. Defined.

Definition q_size : nat := 1024.

(** Where the owner is: in [push_bottom] with the job, or in [pop_bottom]; [b] is
    [local_bot]. *)
Inductive owner :=
  | OIdle
  | OPushLoaded (job : Job) (b : nat)
  | OPushStored (job : Job) (b : nat)
  | OPopLoaded (b : nat)
  | OPopStored (b : nat)
  | OPopJob (b : nat) (job : option Job)
  | OPopAge (b : nat) (job : option Job) (old_age : age_t)
  | OPopZero (b : nat) (job : option Job) (old_age : age_t)
  | OPopFail (new_age : age_t).

(** Where a thief is in [pop_top]. *)
Inductive thief :=
  | TIdle
  | TAge (old_age : age_t)
  | TBot (old_age : age_t) (b : nat)
  | TJob (old_age : age_t) (b : nat) (job : option Job).

(** A slot that was never written holds no job. *)
Record deque := mk_deque {
  bot : nat;
  age : age_t;
  deq : list (option Job);
  d_owner : owner;
  d_thieves : list thief;
}.

Definition set_bot (b : nat) (s : deque) : deque := mk_deque b (age s) (deq s) (d_owner s) (d_thieves s).
Definition set_age (a : age_t) (s : deque) : deque := mk_deque (bot s) a (deq s) (d_owner s) (d_thieves s).
Definition set_slot (i : nat) (j : option Job) (s : deque) : deque :=
  mk_deque (bot s) (age s) (<[i := j]> (deq s)) (d_owner s) (d_thieves s).
Definition set_owner (o : owner) (s : deque) : deque := mk_deque (bot s) (age s) (deq s) o (d_thieves s).
Definition set_thief (i : nat) (t : thief) (s : deque) : deque :=
  mk_deque (bot s) (age s) (deq s) (d_owner s) (<[i := t]> (d_thieves s)).

(** [Deque()], and a number of other threads. *)
Definition new_deque (thieves : nat) : deque :=
  mk_deque 0 (mk_age 0 0) (replicate q_size None) OIdle (replicate thieves TIdle).

(** What a step returns to its caller, if it is the last one of its operation. *)
Inductive event :=
  | ENone
  | EPushed (job : Job) (first : bool)
  | EPopped (job : option Job)
  | EStolen (job : option Job) (empty : bool).

(** The next step of [push_bottom], which was called with [job] when the owner is idle. *)
Definition push_bottom (job : Job) (s : deque) : res (event * deque) :=
  match d_owner s with
  | OIdle =>
      let b := bot s in
      if (b =? q_size)%nat then Err Aborted else Ok (ENone, set_owner (OPushLoaded job b) s)
  | OPushLoaded job b => Ok (ENone, set_owner (OPushStored job b) (set_slot b (Some job) s))
  | OPushStored job b => Ok (EPushed job (S b =? 1)%nat, set_owner OIdle (set_bot (S b) s))
  | _ => Err Blocked
  end.

(** The next step of [pop_bottom]. *)
Definition pop_bottom (s : deque) : res (event * deque) :=
  match d_owner s with
  | OIdle =>
      match bot s with
      | O => Ok (EPopped None, s)
      | S b => Ok (ENone, set_owner (OPopLoaded b) s)
      end
  | OPopLoaded b => Ok (ENone, set_owner (OPopStored b) (set_bot b s))
  | OPopStored b =>
      match deq s !! b with
      | Some job => Ok (ENone, set_owner (OPopJob b job) s)
      | None => Err BadPtr
      end
  | OPopJob b job =>
      let old_age := age s in
      if (top old_age <? b)%nat then Ok (EPopped job, set_owner OIdle s)
      else Ok (ENone, set_owner (OPopAge b job old_age) s)
  | OPopAge b job old_age => Ok (ENone, set_owner (OPopZero b job old_age) (set_bot 0 s))
  | OPopZero b job old_age =>
      let new_age := mk_age (wrap32 (tag old_age + 1)) 0 in
      if (b =? top old_age)%nat && bool_decide (age s = old_age) then
        Ok (EPopped job, set_owner OIdle (set_age new_age s))
      else Ok (ENone, set_owner (OPopFail new_age) s)
  | OPopFail new_age => Ok (EPopped None, set_owner OIdle (set_age new_age s))
  | _ => Err Blocked
  end.

(** The next step of [pop_top] by the thief [i]. *)
Definition pop_top (i : nat) (s : deque) : res (event * deque) :=
  match d_thieves s !! i with
  | Some TIdle => Ok (ENone, set_thief i (TAge (age s)) s)
  | Some (TAge old_age) =>
      if (top old_age <? bot s)%nat then Ok (ENone, set_thief i (TBot old_age (bot s)) s)
      else Ok (EStolen None true, set_thief i TIdle s)
  | Some (TBot old_age b) =>
      match deq s !! top old_age with
      | Some job => Ok (ENone, set_thief i (TJob old_age b job) s)
      | None => Err BadPtr
      end
  | Some (TJob old_age b job) =>
      let new_age := mk_age (tag old_age) (S (top old_age)) in
      let empty := (b =? S (top old_age))%nat in
      if bool_decide (age s = old_age) then Ok (EStolen job empty, set_thief i TIdle (set_age new_age s))
      else Ok (EStolen None empty, set_thief i TIdle s)
  | None => Err Blocked
  end.

(** A step of the owner, which may start to push a job or to pop, or of a thief. *)
Inductive label := LPush (job : Job) | LPop | LSteal (i : nat).

Definition exec (l : label) (s : deque) : res (event * deque) :=
  match l with LPush job => push_bottom job s | LPop => pop_bottom s | LSteal i => pop_top i s end.

(** The threads follow a schedule; a step of a thread that cannot make it is left out. *)
Fixpoint exec_all (ls : list label) (s : deque) : res (list event * deque) :=
  match ls with
  | [] => Ok ([], s)
  | l :: ls =>
      match exec l s with
      | Ok (e, s') => match exec_all ls s' with Ok (es, s'') => Ok (e :: es, s'') | Err e => Err e end
      | Err Blocked => exec_all ls s
      | Err e => Err e
      end
  end.

(** ** The specification *)

(** What an operation does to the jobs, from the top to the bottom. *)
Definition deque_spec (e : event) (q : list Job) (q' : list Job) : Prop :=
  match e with
  | ENone | EStolen None _ => q' = q
  | EPushed job _ => q' = q ++ [job]
  | EPopped (Some job) => q = q' ++ [job]
  | EPopped None => q = [] /\ q' = []
  | EStolen (Some job) _ => q = job :: q'
  end.

Fixpoint deque_specs (es : list event) (q q' : list Job) : Prop :=
  match es with [] => q' = q | e :: es => exists q1, deque_spec e q q1 /\ deque_specs es q1 q' end.

(** ** The invariant *)

(** The bottom as long as the job that the owner pops has not been decided upon. *)
Definition logical_bot (s : deque) : nat :=
  match d_owner s with
  | OPopStored b | OPopJob b _ | OPopAge b _ _ | OPopZero b _ _ => S b
  | OPopFail _ => top (age s)
  | _ => bot s
  end.

(** The jobs in the deque. *)
Definition jobs (s : deque) : list (option Job) :=
  drop (top (age s)) (take (logical_bot s) (deq s)).

(** What the owner knows. *)
Definition owner_ok (s : deque) : Prop :=
  match d_owner s with
  | OIdle => True
  | OPushLoaded _ b => bot s = b /\ (b < q_size)%nat
  | OPushStored job b => bot s = b /\ (b < q_size)%nat /\ deq s !! b = Some (Some job)
  | OPopLoaded b => bot s = S b
  | OPopStored b => bot s = b /\ (b < q_size)%nat
  | OPopJob b job => bot s = b /\ deq s !! b = Some job
  | OPopAge b job old =>
      bot s = b /\ deq s !! b = Some job /\ (b <= top old <= top (age s))%nat /\ tag old = tag (age s)
  | OPopZero b job old =>
      bot s = 0%nat /\ deq s !! b = Some job /\ (b <= top old <= top (age s))%nat /\ tag old = tag (age s)
  | OPopFail new => bot s = 0%nat /\ new = mk_age (wrap32 (tag (age s) + 1)) 0
  end.

(** What a thief knows: if the age has not changed, the job it read is still at the top. *)
Definition thief_ok (s : deque) (t : thief) : Prop :=
  match t with
  | TIdle => True
  | TAge old => 0 <= tag old <= tag (age s) /\ (tag old = tag (age s) -> top old <= top (age s))%nat
  | TBot old b =>
      0 <= tag old <= tag (age s) /\ (tag old = tag (age s) -> top old <= top (age s))%nat /\
      (top old < q_size)%nat /\ (age s = old -> top old < logical_bot s)%nat
  | TJob old b job =>
      0 <= tag old <= tag (age s) /\ (tag old = tag (age s) -> top old <= top (age s))%nat /\
      (age s = old -> (top old < logical_bot s)%nat /\ deq s !! top old = Some job)
  end.

(** [n] bounds the number of resets of the tag. *)
Record inv (n : Z) (s : deque) : Prop := {
  i_size : length (deq s) = q_size;
  i_bounds : (top (age s) <= logical_bot s <= q_size)%nat;
  i_tag : 0 <= tag (age s) <= n;
  i_owner : owner_ok s;
  i_thieves : Forall (thief_ok s) (d_thieves s);
  i_jobs : exists q : list Job, jobs s = Some <$> q;
}.

Definition after (n : Z) (s : deque) (e : event) (s' : deque) : Prop :=
  inv (n + 1) s' /\ forall q, jobs s = Some <$> q -> exists q', jobs s' = Some <$> q' /\ deque_spec e q q'.

Lemma thief_keep s s' t :
  tag (age s) <= tag (age s') ->
  (tag (age s) = tag (age s') -> top (age s) <= top (age s'))%nat ->
  (age s' = age s -> (top (age s) < logical_bot s)%nat ->
    (top (age s) < logical_bot s')%nat /\ deq s' !! top (age s) = deq s !! top (age s)) ->
  thief_ok s t -> thief_ok s' t.
Proof.
  intros Htag Htop Hkeep. assert (forall old, 0 <= tag old <= tag (age s) ->
    (tag old = tag (age s) -> (top old <= top (age s))%nat) -> age s' = old -> age s = old /\ age s' = age s) as Hold.
  { intros old H1 H2 <-. assert (tag (age s) = tag (age s')) as E by lia.
    specialize (Htop E). specialize (H2 ltac:(lia)). destruct (age s), (age s'); simpl in *. subst.
    assert (top0 = top1) as -> by lia. done. }
  destruct t as [|old|old b|old b job]; simpl; [done| | |].
  - intros [H1 H2]. split; [lia|]. intros E. specialize (H2 ltac:(lia)). specialize (Htop ltac:(lia)). lia.
  - intros (H1 & H2 & H3 & H4). split_and!; [lia|lia| |done|].
    + intros E. specialize (H2 ltac:(lia)). specialize (Htop ltac:(lia)). lia.
    + intros E. destruct (Hold old H1 H2 E) as [E1 E2]. specialize (H4 E1). rewrite <- E, E2 in H4 |- *. by apply Hkeep.
  - intros (H1 & H2 & H4). split_and!; [lia|lia| |].
    + intros E. specialize (H2 ltac:(lia)). specialize (Htop ltac:(lia)). lia.
    + intros E. destruct (Hold old H1 H2 E) as [E1 E2]. destruct (H4 E1) as [H5 H6]. rewrite <- E, E2 in H5, H6 |- *.
      destruct (Hkeep E2 H5) as [H7 H8]. split; [done|by rewrite H8].
Qed.

(** A step after which the age is the same, and so are the jobs. *)
Lemma after_same n s e s' :
  inv n s -> deque_spec e = (fun q q' => q' = q) ->
  age s' = age s -> d_thieves s' = d_thieves s -> length (deq s') = length (deq s) ->
  logical_bot s' = logical_bot s ->
  (forall i, (i < logical_bot s)%nat -> deq s' !! i = deq s !! i) ->
  owner_ok s' -> after n s e s'.
Proof.
  intros I He Ha Ht Hl Hb Hd Ho. destruct I as [I1 I2 I3 I4 I5 I6].
  assert (jobs s' = jobs s) as Hj.
  { unfold jobs. rewrite Ha, Hb. f_equal. apply list_eq. intros i.
    destruct (decide (i < logical_bot s)%nat); [rewrite !lookup_take_lt by done; by apply Hd|].
    rewrite !lookup_take_ge by lia. done. }
  split.
  - split; [congruence|by rewrite Ha, Hb|rewrite Ha; lia|done| |by rewrite Hj].
    rewrite Ht. eapply Forall_impl; [|exact I5]. intros t. apply thief_keep; rewrite Ha; [lia|done|].
    intros _ H. rewrite Hb. split; [done|by apply Hd].
  - intros q Hq. exists q. rewrite Hj, He. done.
Qed.

(** The steps of the owner. *)
Lemma push_bottom_after n job s e s' :
  inv n s -> push_bottom job s = Ok (e, s') -> after n s e s'.
Proof.
  intros I H. assert (I' := I). destruct I' as [I1 I2 I3 I4 I5 [q0 I6]]. unfold push_bottom, owner_ok, logical_bot in *.
  destruct (d_owner s) as [|job0 b|job0 b|b|b|b j|b j old|b j old|new] eqn:Eo; try done.
  - destruct (Nat.eqb_spec (bot s) q_size); [done|]. injection H as <- <-.
    eapply after_same; unfold logical_bot, owner_ok; simpl; rewrite ?Eo; try done. lia.
  - injection H as <- <-. destruct I4 as [Hb Hlt].
    eapply after_same; unfold logical_bot, owner_ok; simpl; rewrite ?Eo; try done; [by rewrite length_insert| |].
    + intros i Hi. rewrite list_lookup_insert_ne; [done|lia].
    + split_and!; [done|done|]. rewrite list_lookup_insert_eq; [done|congruence].
  - injection H as <- <-. destruct I4 as (Hb & Hlt & Hslot).
    assert (jobs (set_owner OIdle (set_bot (S b) s)) = jobs s ++ [Some job0]) as Hj.
    { unfold jobs, logical_bot. simpl. rewrite Eo, Hb. rewrite (take_S_r _ _ _ Hslot), drop_app_le; [done|].
      rewrite length_take. lia. }
    split.
    + split; simpl; try done; [unfold logical_bot; simpl; lia|lia| |].
      * eapply Forall_impl; [|exact I5]. intros t. apply thief_keep; simpl; [lia|done|].
        unfold logical_bot. simpl. rewrite Eo. intros _ H. split; [lia|done].
      * exists (q0 ++ [job0]). by rewrite Hj, I6, fmap_app.
    + intros q Hq. exists (q ++ [job0]). by rewrite Hj, Hq, fmap_app.
Qed.

Lemma some_fmap_inj (q q' : list Job) : Some <$> q = Some <$> q' -> q = q'.
Proof. apply list_fmap_eq_inj. intros x y. by intros [= ->]. Qed.

(** The owner takes the last job. *)
Lemma last_taken (s : deque) b j q :
  (top (age s) <= b < length (deq s))%nat -> deq s !! b = Some j ->
  drop (top (age s)) (take (S b) (deq s)) = Some <$> q ->
  exists job q', j = Some job /\ q = q' ++ [job] /\ drop (top (age s)) (take b (deq s)) = Some <$> q'.
Proof.
  intros Hb Hj. rewrite (take_S_r _ _ _ Hj), drop_app_le by (rewrite length_take; lia).
  intros Hq. symmetry in Hq. apply fmap_app_inv in Hq as (q' & q1 & Hq' & Hq1 & ->).
  destruct q1 as [|job [|? ?]]; try done. injection Hq1 as ->. by exists job, q'.
Qed.

Lemma wrap32_small n x : 0 <= x <= n -> n + 1 < 2 ^ 32 -> wrap32 (x + 1) = x + 1.
Proof. intros H1 H2. unfold wrap32. apply Z.mod_small. lia. Qed.

(** Resetting the age: thieves that hold an older one will fail. *)
Lemma thieves_reset s s' :
  tag (age s) < tag (age s') -> Forall (thief_ok s) (d_thieves s) -> Forall (thief_ok s') (d_thieves s).
Proof.
  intros Ht H. eapply Forall_impl; [|exact H]. intros t. apply thief_keep; [lia|lia|].
  intros E. rewrite E in Ht. lia.
Qed.

Lemma pop_bottom_after n s e s' :
  inv n s -> n + 1 < 2 ^ 32 -> pop_bottom s = Ok (e, s') -> after n s e s'.
Proof.
  intros I Hn H. assert (I' := I). destruct I' as [I1 I2 I3 I4 I5 [q0 I6]]. unfold pop_bottom in H.
  unfold jobs in I6. unfold owner_ok, logical_bot in *.
  destruct (d_owner s) as [|job0 b|job0 b|b|b|b j|b j old|b j old|new] eqn:Eo; try done.
  - destruct (bot s) as [|b] eqn:Eb; injection H as <- <-.
    + split; [split; try done; unfold logical_bot, owner_ok, jobs; rewrite ?Eo, ?Eb; try done; [lia|exists q0; unfold logical_bot; by rewrite Eo, Eb]|].
      intros q Hq. exists q. split; [done|]. unfold jobs, logical_bot in Hq. rewrite Eo, Eb in Hq.
      rewrite drop_ge in Hq by (rewrite length_take; lia). symmetry in Hq. by apply fmap_nil_inv in Hq as ->.
    + eapply after_same; unfold logical_bot, owner_ok; simpl; rewrite ?Eo; try done.
  - injection H as <- <-. eapply after_same; unfold logical_bot, owner_ok; simpl; rewrite ?Eo; try done. split; [done|lia].
  - destruct (deq s !! b) as [job|] eqn:Ej; [|done]. injection H as <- <-.
    eapply after_same; unfold logical_bot, owner_ok; simpl; rewrite ?Eo; try done. split; [apply I4|done].
  - destruct I4 as [Hb Hj]. apply lookup_lt_Some in Hj as Hlt.
    destruct (Nat.ltb_spec (top (age s)) b) as [Hlt'|Hge]; injection H as <- <-.
    + destruct (last_taken s b j q0) as (job & q' & -> & -> & Hq'); [lia|done|done|].
      split.
      * split; simpl; try done; [unfold logical_bot; simpl; lia|lia| |].
        -- eapply Forall_impl; [|exact I5]. intros t. apply thief_keep; simpl; [lia|done|].
           unfold logical_bot. simpl. intros _ _. split; [lia|done].
        -- exists q'. unfold jobs, logical_bot. simpl. by rewrite Hb.
      * intros q Hq. exists q'. unfold jobs, logical_bot in Hq. rewrite Eo, I6 in Hq. apply some_fmap_inj in Hq as <-.
        split; [|done]. unfold jobs, logical_bot. simpl. by rewrite Hb.
    + eapply after_same; unfold logical_bot, owner_ok; simpl; rewrite ?Eo; try done.
  - injection H as <- <-. destruct I4 as (Hb & Hj & Ht & Htag).
    eapply after_same; unfold logical_bot, owner_ok; simpl; rewrite ?Eo; try done.
  - destruct I4 as (Hb & Hj & Ht & Htag). apply lookup_lt_Some in Hj as Hlt.
    destruct ((b =? top old)%nat && bool_decide (age s = old)) eqn:Ecas; injection H as <- <-.
    + apply andb_true_iff in Ecas as [Eb%Nat.eqb_eq Ea%bool_decide_eq_true]. subst old.
      destruct (last_taken s b j q0) as (job & q' & -> & -> & Hq'); [lia|done|done|].
      assert (q' = []) as ->. { rewrite Eb, drop_ge in Hq' by (rewrite length_take; lia). by destruct q'. }
      rewrite (wrap32_small n) by lia. split.
      * split; simpl; try done; [unfold logical_bot; simpl; lia|lia| |].
        -- apply (thieves_reset s); simpl; [lia|done].
        -- exists []. unfold jobs, logical_bot. simpl. by rewrite Hb.
      * intros q Hq. exists []. unfold jobs, logical_bot in Hq. rewrite Eo, I6 in Hq. apply some_fmap_inj in Hq as <-.
        split; [|done]. unfold jobs, logical_bot. simpl. by rewrite Hb.
    + (* the job was stolen *)
      assert (top (age s) = S b) as Htop.
      { apply andb_false_iff in Ecas as [Eb%Nat.eqb_neq|Ea%bool_decide_eq_false]; [lia|].
        destruct (decide (top old = top (age s))) as [E|E]; [|lia]. destruct Ea.
        destruct old as [tg tp], (age s) as [tg' tp']. simpl in *. subst. done. }
      eapply after_same; unfold logical_bot, owner_ok; simpl; rewrite ?Eo; try done.
      split; [done|by rewrite Htag].
  - destruct I4 as [Hb ->]. injection H as <- <-. rewrite (wrap32_small n) by lia. split.
    + split; simpl; try done; [unfold logical_bot; simpl; lia|lia| |].
      * apply (thieves_reset s); simpl; [lia|done].
      * exists []. unfold jobs, logical_bot. simpl. by rewrite Hb.
    + intros q Hq. exists []. unfold jobs, logical_bot in Hq. rewrite Eo, drop_ge in Hq by (rewrite length_take; lia).
      symmetry in Hq. apply fmap_nil_inv in Hq as ->. split; [|done]. unfold jobs, logical_bot. simpl. by rewrite Hb.
Qed.

(** The steps of a thief. *)
Lemma logical_bot_ge s : owner_ok s -> (top (age s) <= logical_bot s)%nat -> (bot s <= logical_bot s)%nat.
Proof. unfold owner_ok, logical_bot. destruct (d_owner s); simpl; lia. Qed.

(** A step that only moves the thief. *)
Lemma thief_moves n i t s e :
  inv n s -> deque_spec e = (fun q q' => q' = q) -> thief_ok s t -> after n s e (set_thief i t s).
Proof.
  intros [I1 I2 I3 I4 I5 I6] He Ht. split.
  - split; simpl; try done; [lia|]. apply Forall_insert; [|done].
    eapply Forall_impl; [|exact I5]. done.
  - intros q Hq. exists q. by rewrite He.
Qed.

Lemma pop_top_after n i s e s' :
  inv n s -> pop_top i s = Ok (e, s') -> after n s e s'.
Proof.
  intros I H. unfold pop_top in H. destruct (d_thieves s !! i) as [t|] eqn:Et; [|done].
  assert (thief_ok s t) as Ht by (eapply Forall_lookup_1; [apply I|exact Et]).
  assert (I' := I). destruct I' as [I1 I2 I3 I4 I5 [q0 I6]].
  destruct t as [|old|old b|old b job].
  - injection H as <- <-. apply thief_moves; [done|done|]. simpl. split; [lia|done].
  - destruct (Nat.ltb_spec (top old) (bot s)); injection H as <- <-; [|by apply thief_moves].
    pose proof (logical_bot_ge s I4 ltac:(lia)). apply thief_moves; [done|done|]. destruct Ht as [H1 H2].
    simpl. split_and!; [lia|lia|done|lia|]. intros _. lia.
  - destruct (deq s !! top old) as [job|] eqn:Ej; [|done]. injection H as <- <-. apply thief_moves; [done|done|].
    destruct Ht as (H1 & H2 & H3 & H4). simpl. split_and!; [lia|lia|done|]. intros E. split; [by apply H4|done].
  - destruct Ht as (H1 & H2 & H4). case_bool_decide as Ea; injection H as <- <-; [|by apply thief_moves].
    destruct (H4 Ea) as [Hlt Hj]. subst old.
    assert (logical_bot (set_thief i TIdle (set_age (mk_age (tag (age s)) (S (top (age s)))) s)) = logical_bot s) as Hb.
    { unfold logical_bot. simpl. unfold logical_bot in Hlt. destruct (d_owner s); try done. lia. }
    assert (jobs s = job :: jobs (set_thief i TIdle (set_age (mk_age (tag (age s)) (S (top (age s)))) s))) as Hjobs.
    { unfold jobs. rewrite Hb. simpl. apply drop_S. by rewrite lookup_take_lt. }
    rewrite Hjobs in I6. destruct q0 as [|j q0]; [done|]. injection I6 as -> I6. split.
    + split; simpl; try done.
      * rewrite Hb. lia.
      * lia.
      * unfold owner_ok in *. simpl. destruct (d_owner s); simpl in *; try done; intuition lia.
      * apply Forall_insert; [|done]. eapply Forall_impl; [|exact I5]. intros t.
        apply thief_keep; simpl; [lia|lia|]. intros E. exfalso. apply (f_equal top) in E. simpl in E. lia.
      * by exists q0.
    + intros q Hq. rewrite Hjobs in Hq. destruct q as [|j' q]; [done|]. injection Hq as -> Hq. by exists q.
Qed.

Lemma exec_after n l s e s' :
  inv n s -> n + 1 < 2 ^ 32 -> exec l s = Ok (e, s') -> after n s e s'.
Proof.
  intros I Hn. destruct l as [job| |i]; [by apply push_bottom_after|by apply pop_bottom_after|by apply pop_top_after].
Qed.

(** No step but a push to the last slot fails. *)
Lemma exec_err n l s err :
  inv n s -> exec l s = Err err -> err = Blocked \/ err = Aborted /\ bot s = q_size.
Proof.
  intros [I1 I2 I3 I4 I5 I6]. destruct l as [job| |i]; simpl.
  - unfold push_bottom. destruct (d_owner s); try (intros [= <-]; by left). 
    destruct (Nat.eqb_spec (bot s) q_size); intros [= <-]. by right.
  - unfold pop_bottom. unfold owner_ok in I4. destruct (d_owner s); try (intros [= <-]; by left); try done.
    + by destruct (bot s).
    + destruct (lookup_lt_is_Some_2 (deq s) b) as [x Hx]; [lia|]. by rewrite Hx.
    + by destruct (_ <? _)%nat.
    + by destruct (_ && _).
  - unfold pop_top. destruct (d_thieves s !! i) as [t|] eqn:Et; [|intros [= <-]; by left].
    assert (thief_ok s t) as Ht by (eapply Forall_lookup_1; [apply I5|exact Et]). destruct t; try done.
    + by destruct (_ <? _)%nat.
    + destruct Ht as (_ & _ & Hlt & _). destruct (lookup_lt_is_Some_2 (deq s) (top old_age)) as [x Hx]; [lia|]. by rewrite Hx.
    + by case_bool_decide.
Qed.

Lemma inv_weaken n m s : n <= m -> inv n s -> inv m s.
Proof. intros H [I1 I2 I3 I4 I5 I6]. split; try done. lia. Qed.

Lemma inv_new thieves : inv 0 (new_deque thieves).
Proof.
  split; simpl; try done.
  - unfold logical_bot. simpl. unfold q_size. lia.
  - apply Forall_replicate. done.
  - by exists [].
Qed.

Lemma exec_all_spec ls n s q :
  inv n s -> n + Z.of_nat (length ls) < 2 ^ 32 -> jobs s = Some <$> q ->
  match exec_all ls s with
  | Ok (es, s') => exists q', deque_specs es q q' /\ jobs s' = Some <$> q' /\ inv (n + Z.of_nat (length ls)) s'
  | Err err => err = Aborted
  end.
Proof.
  revert n s q. induction ls as [|l ls IH]; intros n s q I Hn Hq; simpl.
  { exists q. rewrite Z.add_0_r. by split_and!. }
  simpl length in Hn. destruct (exec l s) as [[e s1]|err] eqn:E.
  - destruct (exec_after n l s e s1 I ltac:(lia) E) as [I1 Hs]. destruct (Hs q Hq) as (q1 & Hq1 & He).
    specialize (IH (n + 1) s1 q1 I1 ltac:(lia) Hq1). destruct (exec_all ls s1) as [[es s2]|]; [|done].
    destruct IH as (q2 & Hes & Hq2 & I2). exists q2. split_and!; [by exists q1|done|].
    by replace (n + Z.of_nat (S (length ls))) with (n + 1 + Z.of_nat (length ls)) by lia.
  - destruct (exec_err n l s err I E) as [->|[-> _]]; [|done].
    specialize (IH n s q I ltac:(lia) Hq). destruct (exec_all ls s) as [[es s2]|]; [|done].
    destruct IH as (q2 & Hes & Hq2 & I2). exists q2. split_and!; [done|done|]. eapply inv_weaken; [|exact I2]. lia.
Qed.
End deque.
Arguments deque : clear implicits.
Arguments event : clear implicits.
Arguments label : clear implicits.

(** ** Properties *)

(** C23: the deque of a worker implements a double-ended queue of jobs.  Whatever the owner
    pushes and pops, and however its steps interleave with those of any number of thieves, the
    jobs that the operations return are those that a queue would return if each operation that
    returns a job took effect in its last step: pops take the last job, steals the first one, and
    an owner that finds no job does so when there is none.  The only error is an overflow of
    the 1024 slots.  (This holds for up to [2^32] steps: after that many resets of the tag, a
    thief that slept all the while may steal a wrong job.) *)
Theorem deque_linearizable {Job : Type} (thieves : nat) (ls : list (label Job)) :
  Z.of_nat (length ls) < 2 ^ 32 ->
  match exec_all ls (new_deque thieves) with
  | Ok (es, s) => exists q, deque_specs es [] q /\ jobs s = Some <$> q
  | Err e => e = Aborted
  end.
Proof.
  intros Hn. pose proof (exec_all_spec ls 0 (new_deque thieves) [] (inv_new thieves) Hn eq_refl) as H.
  destruct (exec_all _ _) as [[es s]|]; [|done]. destruct H as (q & H1 & H2 & _). by exists q.
Qed.

(** The owner pushes 7 and 8; thief 0 steals 7 while the owner pops 8. *)
Definition schedule_ex : list (label Z) :=
  [LPush 7; LPush 7; LPush 7; LPush 8; LPush 8; LPush 8; LSteal 0; LSteal 0; LPop; LPop; LPop; LSteal 0; LPop;
   LSteal 0; LSteal 0; LPop].

Theorem deque_linearizable_witness :
  match exec_all schedule_ex (new_deque 1) with
  | Ok (es, s) => (exists q, deque_specs es [] q /\ jobs s = Some <$> q) /\ EStolen (Some 7) false ∈ es
  | Err e => False
  end.
Proof.
  pose proof (deque_linearizable 1 schedule_ex eq_refl) as H.
  assert (match exec_all schedule_ex (new_deque 1) with Ok (es, s) => EStolen (Some 7) false ∈ es | Err _ => False end) as H2.
  { vm_compute. repeat constructor. }
  destruct (exec_all schedule_ex (new_deque 1)) as [[es s]|]; [by split|done].
Defined.
