(* ===== verification/ForkJoin.v ===== *)
(** * Fork and join on work-stealing workers

    [src/lib/parlay/scheduler.h] with [internal/work_stealing_job.h]: how [par_do] runs two
    thunks on a pool of workers, each with a deque of jobs ([WsDeque]).  A thunk is a tree of
    actions; a worker has a call stack; a step of a worker is one operation on a deque or on
    the flag [done] of a job, or the code in between.  The theorems say that such a pool runs
    every action once, in an order that the tree allows, that the assertions of the code
    hold, and that it never gets stuck; a deque has room for 1024 jobs, and the program is
    aborted when a worker spawns a job beyond, which a bound on the nesting of the thunks
    excludes. *)

From S2P Require Import Prelude.
From stdpp Require Import sorting.

#[local] Open Scope nat_scope.

Section fork_join.
Context {A : Type}.

(** What a thunk does: nothing, an action, two thunks in sequence, or [pardo]. *)
Inductive task :=
  | TSkip
  | TAct (a : A)
  | TSeq (t1 t2 : task)
  | TPar (left right : task) (conservative : bool).

(** A frame of a call stack: code still to run; [pardo] while [left] runs, which spawned the
    job [j] for [right]; [pardo] in [wait_until]. *)
Inductive frame :=
  | FRun (t : task)
  | FLeft (j : nat) (right : task) (conservative : bool)
  | FWait (j : nat) (conservative : bool).

(** A call [( *job)()], innermost frame first.  The call of the thunk that [par_do]s are part
    of is that of job 0. *)
Record segment := mk_segment { sg_job : nat; sg_frames : list frame }.

(** The stacks of the workers, innermost call first, and their deques, from top to bottom; the
    jobs whose flag is set; the actions that were run, in their order; and the index [bot] of
    each deque, which thieves, who take jobs from the top, do not change. *)
Record state := mk_state {
  stacks : list (list segment);
  deques : list (list (nat * task));
  done : gset nat;
  next_job : nat;
  trace : list A;
  bots : list nat;
}.

Definition set_stack (w : nat) (st : list segment) (s : state) : state :=
  mk_state (<[w := st]> (stacks s)) (deques s) (done s) (next_job s) (trace s) (bots s).
Definition set_deque (w : nat) (d : list (nat * task)) (s : state) : state :=
  mk_state (stacks s) (<[w := d]> (deques s)) (done s) (next_job s) (trace s) (bots s).
Definition set_done (j : nat) (s : state) : state :=
  mk_state (stacks s) (deques s) ({[j]} ∪ done s) (next_job s) (trace s) (bots s).
Definition add_action (a : A) (s : state) : state :=
  mk_state (stacks s) (deques s) (done s) (next_job s) (trace s ++ [a]) (bots s).
Definition fresh_job (s : state) : state :=
  mk_state (stacks s) (deques s) (done s) (S (next_job s)) (trace s) (bots s).
Definition set_bot (w : nat) (b : nat) (s : state) : state :=
  mk_state (stacks s) (deques s) (done s) (next_job s) (trace s) (<[w := b]> (bots s)).

(** The first worker is about to run [root]; the others look for work. *)
Definition initial (workers : nat) (root : task) : state :=
  mk_state ([mk_segment 0 [FRun root]] :: replicate (pred workers) []) (replicate workers []) ∅ 1 []
    (replicate workers 0).

(** The length of the array of a deque. *)
Definition q_size : nat := 1024.

(** [spawn]: push at the bottom. *)
Definition spawn (w : nat) (job : nat * task) (s : state) : res state :=
  match deques s !! w, bots s !! w with
  | Some d, Some b =>
      if b =? q_size then Err Aborted else Ok (set_bot w (S b) (set_deque w (d ++ [job]) s))
  | _, _ => Err BadPtr
  end.

(** [get_own_job]: pop from the bottom.  The deque starts again from index 0 when that
    leaves it empty. *)
Definition get_own_job (w : nat) (s : state) : res (option (nat * task) * state) :=
  match deques s !! w, bots s !! w with
  | Some d, Some b =>
      match last d with
      | Some job => Ok (Some job, set_bot w (if length d =? 1 then 0 else b - 1) (set_deque w (removelast d) s))
      | None => Ok (None, set_bot w 0 s)
      end
  | _, _ => Err BadPtr
  end.

(** [try_steal] from the worker [v]: pop from the top. *)
Definition try_steal (w v : nat) (s : state) : res (option (nat * task) * state) :=
  if w =? v then Err Blocked
  else match deques s !! v with
       | Some (job :: d) => Ok (Some job, set_deque v d s)
       | Some [] => Ok (None, s)
       | None => Err Blocked
       end.

(** [( *job)()]: the job must not be done. *)
Definition start_job (w : nat) (job : nat * task) (s : state) : res state :=
  if bool_decide (job.1 ∈ done s) then Err AssertFail
  else match stacks s !! w with
       | Some st => Ok (set_stack w (mk_segment job.1 [FRun job.2] :: st) s)
       | None => Err BadPtr
       end.

(** [get_job], after [break_early]: the own deque first, then that of [v]. *)
Definition get_job (w v : nat) (s : state) : res state :=
  match get_own_job w s with
  | Err e => Err e
  | Ok (Some job, s) => start_job w job s
  | Ok (None, s) =>
      match try_steal w v s with
      | Err e => Err e
      | Ok (Some job, s) => start_job w job s
      | Ok (None, s) => Ok s
      end
  end.

(** [pardo] calls [left] once it has spawned a job for [right]. *)
Definition pardo (w : nat) (left right : task) (conservative : bool) (j : nat) (k : list frame) (rest : list segment)
    (s : state) : res state :=
  let i := next_job s in
  spawn w (i, right) (set_stack w (mk_segment j (FRun left :: FLeft i right conservative :: k) :: rest) (fresh_job s)).

(** When [left] has returned, [pardo] runs [right] itself, unless it was stolen. *)
Definition pardo_join (w : nat) (i : nat) (right : task) (conservative : bool) (j : nat) (k : list frame)
    (rest : list segment) (s : state) : res state :=
  match get_own_job w s with
  | Err e => Err e
  | Ok (Some job, s) =>
      if job.1 =? i then Ok (set_stack w (mk_segment j (FRun right :: k) :: rest) s) else Err AssertFail
  | Ok (None, s) => Ok (set_stack w (mk_segment j (FWait i conservative :: k) :: rest) s)
  end.

(** The worker [w] goes on with its innermost call. *)
Definition continue (w : nat) (s : state) : res state :=
  match stacks s !! w with
  | Some (mk_segment j fs :: rest) =>
      let frames fs := set_stack w (mk_segment j fs :: rest) in
      match fs with
      | [] => Ok (set_stack w rest (set_done j s))
      | FRun TSkip :: k => Ok (frames k s)
      | FRun (TAct a) :: k => Ok (frames k (add_action a s))
      | FRun (TSeq t1 t2) :: k => Ok (frames (FRun t1 :: FRun t2 :: k) s)
      | FRun (TPar t1 t2 c) :: k => pardo w t1 t2 c j k rest s
      | FLeft i t c :: k => pardo_join w i t c j k rest s
      | FWait i c :: k => if bool_decide (i ∈ done s) then Ok (frames k s) else Err Blocked
      end
  | _ => Err Blocked
  end.

(** [wait_until] that is not conservative, and the loop of a worker that has no call. *)
Definition looks_for_work (st : list segment) (w : nat) : bool :=
  match st with
  | [] => negb (w =? 0)
  | mk_segment _ (FWait _ false :: _) :: _ => true
  | _ => false
  end.

Inductive label := LContinue (w : nat) | LSteal (w v : nat).

Definition exec (l : label) (s : state) : res state :=
  match l with
  | LContinue w => continue w s
  | LSteal w v =>
      match stacks s !! w with
      | Some st => if looks_for_work st w then get_job w v s else Err Blocked
      | None => Err Blocked
      end
  end.

(** The states that are reached. *)
Inductive reachable (workers : nat) (root : task) : state -> Prop :=
  | reach_init : reachable workers root (initial workers root)
  | reach_step l s s' : reachable workers root s -> exec l s = Ok s' -> reachable workers root s'.

(** ** The specification *)

Inductive shuffle : list A -> list A -> list A -> Prop :=
  | shuffle_nil : shuffle [] [] []
  | shuffle_l a l1 l2 l : shuffle l1 l2 l -> shuffle (a :: l1) l2 (a :: l)
  | shuffle_r a l1 l2 l : shuffle l1 l2 l -> shuffle l1 (a :: l2) (a :: l).

(** The orders in which the actions of a thunk may run. *)
Fixpoint traces (t : task) (l : list A) : Prop :=
  match t with
  | TSkip => l = []
  | TAct a => l = [a]
  | TSeq t1 t2 => exists l1 l2, traces t1 l1 /\ traces t2 l2 /\ l = l1 ++ l2
  | TPar t1 t2 _ => exists l1 l2, traces t1 l1 /\ traces t2 l2 /\ shuffle l1 l2 l
  end.

(** How many thunks a worker may have spawned that are pending: [par_do]s nested on the left. *)
Fixpoint nesting (t : task) : nat :=
  match t with
  | TSkip | TAct _ => 0
  | TSeq t1 t2 => nesting t1 `max` nesting t2
  | TPar t1 t2 _ => S (nesting t1) `max` nesting t2
  end.
End fork_join.

Arguments task A : clear implicits.
Arguments frame A : clear implicits.
Arguments segment A : clear implicits.
Arguments state A : clear implicits.
