(* ===== verification/ForkJoinInv.v ===== *)
(** * The invariant of fork and join

    What is left of a thunk is a tree of the calls on all stacks and of the jobs in the deques
    ([gtree]).  The invariant [inv] relates it to a state of [ForkJoin]; every step keeps it,
    and a step that fails is one that has to wait. *)

From S2P Require Import Prelude.
From stdpp Require Import sorting.
From S2P Require Import ForkJoin.

#[local] Open Scope nat_scope.

Section fork_join.
Context {A : Type}.
#[local] Abbreviation task := (task A).
#[local] Abbreviation state := (state A).
#[local] Abbreviation frame := (frame A).
#[local] Abbreviation segment := (segment A).
Implicit Types (pre : list A) (t : task) (s : state).

(** ** What is left of a thunk

    A tree of the calls: the job that was spawned by a [pardo] is a subtree of it. *)

Inductive gtree :=
  | GTask (t : task)
  | GSeq (g : gtree) (t : task)
  | GPar (g : gtree) (j : nat) (h : gtree).

Abbreviation GSkip := (GTask TSkip).

Fixpoint gtraces (g : gtree) (l : list A) : Prop :=
  match g with
  | GTask t => traces t l
  | GSeq g t => exists l1 l2, gtraces g l1 /\ traces t l2 /\ l = l1 ++ l2
  | GPar g _ h => exists l1 l2, gtraces g l1 /\ gtraces h l2 /\ shuffle l1 l2 l
  end.

(** The jobs with their subtrees. *)
Fixpoint subs (g : gtree) : list (nat * gtree) :=
  match g with
  | GTask _ => []
  | GSeq g _ => subs g
  | GPar g j h => (j, h) :: subs g ++ subs h
  end.

Definition jobs (g : gtree) : list nat := (subs g).*1.

Fixpoint update (i : nat) (x : gtree) (g : gtree) : gtree :=
  match g with
  | GTask t => GTask t
  | GSeq g t => GSeq (update i x g) t
  | GPar g j h => GPar (update i x g) j (if j =? i then x else update i x h)
  end.

(** [g'] is what is left of [g] after the actions [pre]. *)
Definition leaves (pre : list A) (g g' : gtree) : Prop := forall l, gtraces g' l -> gtraces g (pre ++ l).

(** The frames around a call. *)
Inductive gframe := KSeq (t : task) | KPar (j : nat) (h : gtree).

Fixpoint plug (c : list gframe) (g : gtree) : gtree :=
  match c with
  | [] => g
  | KSeq t :: c => plug c (GSeq g t)
  | KPar j h :: c => plug c (GPar g j h)
  end.

Fixpoint csubs (c : list gframe) : list (nat * gtree) :=
  match c with
  | [] => []
  | KSeq _ :: c => csubs c
  | KPar j h :: c => (j, h) :: subs h ++ csubs c
  end.

Definition cupdate (i : nat) (x : gtree) (k : gframe) : gframe :=
  match k with KSeq t => KSeq t | KPar j h => KPar j (if j =? i then x else update i x h) end.

Definition frame_ok (f : frame) (k : gframe) : Prop :=
  match f, k with
  | FRun t, KSeq t' => t = t'
  | FLeft j _ _, KPar j' _ => j = j'
  | FWait j _, KPar j' _ => j = j'
  | _, _ => False
  end.

Lemma shuffle_pre_l pre l1 l2 (l : list A) : shuffle l1 l2 l -> shuffle (pre ++ l1) l2 (pre ++ l).
Proof. intros H. induction pre; simpl; [done|by constructor]. Qed.

Lemma shuffle_pre_r pre l1 l2 (l : list A) : shuffle l1 l2 l -> shuffle l1 (pre ++ l2) (pre ++ l).
Proof. intros H. induction pre; simpl; [done|by constructor]. Qed.

Lemma shuffle_nil_l (l : list A) : shuffle [] l l.
Proof. induction l; by constructor. Qed.

Lemma shuffle_nil_l_inv (l1 l : list A) : shuffle [] l1 l -> l = l1.
Proof. remember [] as e eqn:E. induction 1; [done|done|]. by rewrite IHshuffle. Qed.

Lemma leaves_refl g : leaves [] g g.
Proof. by intros l. Qed.

Lemma leaves_trans p q g g' g'' : leaves p g g' -> leaves q g' g'' -> leaves (p ++ q) g g''.
Proof. intros H1 H2 l Hl. rewrite <- app_assoc. auto. Qed.

Lemma leaves_seq pre g g' t : leaves pre g g' -> leaves pre (GSeq g t) (GSeq g' t).
Proof. intros H l (l1 & l2 & H1 & H2 & ->). exists (pre ++ l1), l2. rewrite app_assoc. auto. Qed.

Lemma leaves_par_l pre g g' j h : leaves pre g g' -> leaves pre (GPar g j h) (GPar g' j h).
Proof. intros H l (l1 & l2 & H1 & H2 & Hs). exists (pre ++ l1), l2. split_and!; auto using shuffle_pre_l. Qed.

Lemma leaves_par_r pre g j h h' : leaves pre h h' -> leaves pre (GPar g j h) (GPar g j h').
Proof. intros H l (l1 & l2 & H1 & H2 & Hs). exists l1, (pre ++ l2). split_and!; auto using shuffle_pre_r. Qed.

Lemma leaves_plug pre c g g' : leaves pre g g' -> leaves pre (plug c g) (plug c g').
Proof.
  revert g g'. induction c as [|[t|j h] c IH]; intros g g' H; simpl; [done| |]; apply IH.
  - by apply leaves_seq.
  - by apply leaves_par_l.
Qed.

Lemma subs_plug c g : subs (plug c g) ≡ₚ subs g ++ csubs c.
Proof.
  revert g. induction c as [|[t|j h] c IH]; intros g; simpl; [by rewrite app_nil_r|exact (IH (GSeq g t))|].
  rewrite IH. simpl. rewrite <- app_assoc. apply Permutation_middle.
Qed.

(** Replacing the subtree of a job. *)
Lemma subs_jobs g k y : (k, y) ∈ subs g -> k ∈ jobs g /\ jobs y ⊆ jobs g.
Proof.
  unfold jobs. intros H. split; [by apply (list_elem_of_fmap_2 fst) in H|]. revert H.
  induction g as [t|g IH t|g IHg j h IHh]; simpl; [by intros ?%elem_of_nil|done|].
  rewrite elem_of_cons, elem_of_app, fmap_app. intros [[= -> ->]|[H|H]].
  - set_solver.
  - specialize (IHg H). set_solver.
  - specialize (IHh H). set_solver.
Qed.

Lemma jobs_par g j h : jobs (GPar g j h) = j :: jobs g ++ jobs h.
Proof. unfold jobs. simpl. by rewrite fmap_app. Qed.

Lemma update_fresh i x g : i ∉ jobs g -> update i x g = g.
Proof.
  induction g as [t|g IH t|g IHg j h IHh]; [done|by simpl; intros H; rewrite IH|].
  rewrite jobs_par, not_elem_of_cons, not_elem_of_app. intros (Hne & Hg & Hh). simpl.
  rewrite IHg, IHh by done. destruct (Nat.eqb_spec j i); [congruence|done].
Qed.

Record updated (pre : list A) (i : nat) (h x g g' : gtree) : Prop := {
  up_jobs : jobs g' ++ jobs h ≡ₚ jobs g ++ jobs x;
  up_same : (i, x) ∈ subs g';
  up_new p : p ∈ subs x -> p ∈ subs g';
  up_old k y : (k, y) ∈ subs g -> k <> i -> k ∉ jobs h -> (k, update i x y) ∈ subs g';
  up_leaves : leaves pre g g';
}.

Lemma gupdate_ok pre i h x g :
  (i, h) ∈ subs g -> NoDup (jobs g) -> leaves pre h x -> updated pre i h x g (update i x g).
Proof.
  induction g as [t|g IH t|g IHg j h0 IHh]; intros Hi Hnd Hl; [by apply elem_of_nil in Hi| |].
  - destruct (IH Hi Hnd Hl) as [U1 U2 U3 U4 U5]. split; simpl; try done. by apply leaves_seq.
  - rewrite jobs_par, NoDup_cons, NoDup_app, not_elem_of_app in Hnd. destruct Hnd as ((Hj1 & Hj2) & Hg & Hgh & Hh).
    simpl subs in Hi. rewrite elem_of_cons, elem_of_app in Hi. simpl update.
    assert (forall k y g0, (k, y) ∈ subs g0 -> i ∉ jobs g0 -> update i x y = y) as Hkeep.
    { intros k y g0 Hk Hg0. apply update_fresh. intros H. apply Hg0. by apply (subs_jobs g0 k y Hk). }
    destruct Hi as [[= -> ->]|[Hi|Hi]].
    + rewrite Nat.eqb_refl, (update_fresh j x g) by done. split; cbn [subs].
      * rewrite !jobs_par. cbn [app]. rewrite <- !app_assoc. f_equiv. f_equiv. apply Permutation_app_comm.
      * left.
      * intros p Hp. right. apply elem_of_app. by right.
      * intros k y Hk Hne Hkh. rewrite elem_of_cons, elem_of_app in Hk. destruct Hk as [[= -> _]|[Hk|Hk]]; [done| |].
        -- rewrite (Hkeep k y g) by done. right. apply elem_of_app. by left.
        -- by apply subs_jobs in Hk as [? _].
      * by apply leaves_par_r.
    + destruct (IHg Hi Hg Hl) as [U1 U2 U3 U4 U5]. apply subs_jobs in Hi as [Hi _].
      assert (i ∉ jobs h0) as Hi0 by by apply Hgh.
      destruct (Nat.eqb_spec j i) as [->|_]; [done|]. rewrite (update_fresh i x h0) by done. split; cbn [subs].
      * rewrite !jobs_par. cbn [app]. f_equiv. rewrite <- app_assoc, (Permutation_app_comm (jobs h0)), app_assoc, U1.
        rewrite <- !app_assoc. f_equiv. apply Permutation_app_comm.
      * right. apply elem_of_app. by left.
      * intros p Hp. right. apply elem_of_app. left. by apply U3.
      * intros k y Hk Hne Hkh. rewrite elem_of_cons, elem_of_app in Hk. destruct Hk as [[= -> ->]|[Hk|Hk]].
        -- rewrite update_fresh by done. left.
        -- right. apply elem_of_app. left. by apply U4.
        -- rewrite (Hkeep k y h0) by done. right. apply elem_of_app. by right.
      * by apply leaves_par_l.
    + destruct (IHh Hi Hh Hl) as [U1 U2 U3 U4 U5]. apply subs_jobs in Hi as [Hi _].
      assert (i ∉ jobs g) as Hig by (intros H; by apply (Hgh i)).
      destruct (Nat.eqb_spec j i) as [->|_]; [done|]. rewrite (update_fresh i x g) by done. split; cbn [subs].
      * rewrite !jobs_par. cbn [app]. f_equiv. rewrite <- !app_assoc. f_equiv. exact U1.
      * right. apply elem_of_app. by right.
      * intros p Hp. right. apply elem_of_app. right. by apply U3.
      * intros k y Hk Hne Hkh. rewrite elem_of_cons, elem_of_app in Hk. destruct Hk as [[= -> ->]|[Hk|Hk]].
        -- left.
        -- rewrite (Hkeep k y g) by done. right. apply elem_of_app. by left.
        -- right. apply elem_of_app. right. by apply U4.
      * by apply leaves_par_r.
Qed.

(** A segment stays a segment. *)
Lemma update_plug i x c : update i x (plug c GSkip) = plug (cupdate i x <$> c) GSkip.
Proof.
  assert (forall g, update i x (plug c g) = plug (cupdate i x <$> c) (update i x g)) as H; [|apply H].
  induction c as [|[t|j h] c IH]; intros g; simpl; [done|by rewrite IH|by rewrite IH].
Qed.

Lemma frames_cupdate i x fs c : Forall2 frame_ok fs c -> Forall2 frame_ok fs (cupdate i x <$> c).
Proof. induction 1 as [|f k fs c H _ IH]; simpl; constructor; [|done]. by destruct f, k. Qed.

(** ** The invariant *)

(** The [pardo]s, newest first, whose left thunk runs above the newest [wait_until]. *)
Fixpoint lefts (fs : list frame) : list (nat * task) :=
  match fs with
  | [] => []
  | FRun _ :: fs => lefts fs
  | FLeft j t _ :: fs => (j, t) :: lefts fs
  | FWait _ _ :: _ => []
  end.

Fixpoint frame_jobs (fs : list frame) : list nat :=
  match fs with
  | [] => []
  | FRun _ :: fs => frame_jobs fs
  | FLeft j _ _ :: fs | FWait j _ :: fs => j :: frame_jobs fs
  end.

Definition stack_frames (st : list segment) : list frame := mjoin (sg_frames <$> st).
Definition owners (st : list segment) : list nat := sg_job <$> st.

(** The jobs that were started and have not returned, and all jobs that have not returned. *)
Definition started (s : state) : list nat := mjoin (owners <$> stacks s).
Definition queued (s : state) : list nat := mjoin ((fun d => d.*1) <$> deques s).
Definition waiting_jobs (s : state) : list nat := mjoin ((fun st => frame_jobs (stack_frames st)) <$> stacks s).

(** [a] was started after [b], if [O] are the jobs in the order of their starts. *)
Definition later (O : list nat) (a b : nat) : Prop := exists l1 l2, O = l1 ++ l2 /\ b ∈ l1 /\ a ∈ l2.

(** What is left of the thunk is [G]: a tree of the calls of all the stacks, in which the jobs
    in the deques are untouched, and the jobs that are done have nothing left. *)
Record inv (root : task) (s : state) (G : gtree) (O : list nat) : Prop := {
  v_length : length (stacks s) = length (deques s);
  v_leaves : leaves (trace s) (GPar GSkip 0 (GSeq GSkip root)) G;
  v_shape : exists g, G = GPar GSkip 0 g;
  v_nodup : NoDup (jobs G);
  v_next j : j ∈ jobs G -> j < next_job s;
  v_segment w st j fs : stacks s !! w = Some st -> mk_segment j fs ∈ st ->
    exists c, Forall2 frame_ok fs c /\ (j, plug c GSkip) ∈ subs G;
  v_deque w d j t : deques s !! w = Some d -> (j, t) ∈ d -> (j, GTask t) ∈ subs G;
  v_done j x : j ∈ done s -> (j, x) ∈ subs G -> x = GSkip;
  v_done_next j : j ∈ done s -> j < next_job s;
  v_live : NoDup (queued s ++ started s);
  v_live_next j : j ∈ queued s ++ started s -> j < next_job s;
  v_live_done j : j ∈ queued s ++ started s -> j ∉ done s;
  v_jobs j : j ∈ jobs G -> j ∈ queued s ++ started s \/ j ∈ done s;
  v_own w st d : stacks s !! w = Some st -> deques s !! w = Some d ->
    exists p, lefts (stack_frames st) = reverse d ++ p;
  v_waiting : NoDup (waiting_jobs s);
  v_order_nodup : NoDup O;
  v_order j : j ∈ O <-> j ∈ started s;
  v_order_stack w st : stacks s !! w = Some st -> StronglySorted (later O) (owners st);
  v_order_frames w st j fs i : stacks s !! w = Some st -> mk_segment j fs ∈ st -> i ∈ frame_jobs fs -> i ∈ O ->
    later O i j;
  v_bots : length (bots s) = length (stacks s);
}.

(** *** Lists of lists *)

Lemma flat_split {X Y} (f : X -> list Y) (l : list X) w a :
  l !! w = Some a -> mjoin (f <$> l) ≡ₚ f a ++ mjoin (f <$> delete w l).
Proof.
  intros Hw. rewrite (delete_Permutation l w a Hw) at 1. done.
Qed.

Lemma flat_insert {X Y} (f : X -> list Y) (l : list X) w a b :
  l !! w = Some a -> mjoin (f <$> <[w := b]> l) ≡ₚ f b ++ mjoin (f <$> delete w l).
Proof.
  intros Hw. rewrite (flat_split f (<[w := b]> l) w b) by (apply list_lookup_insert_eq; by eapply lookup_lt_Some).
  assert (delete w (<[w := b]> l) = delete w l) as ->; [|done].
  clear Hw. revert w. induction l as [|x l IH]; intros [|w]; simpl; [done|done|done|]. f_equal. apply IH.
Qed.

Lemma elem_of_flat {X Y} (f : X -> list Y) (l : list X) y :
  y ∈ mjoin (f <$> l) <-> exists w a, l !! w = Some a /\ y ∈ f a.
Proof.
  rewrite list_elem_of_join. split.
  - intros (z & Hy & Hz). apply list_elem_of_fmap in Hz as (a & -> & Ha).
    apply list_elem_of_lookup in Ha as [w Hw]. by exists w, a.
  - intros (w & a & Hw & Hy). exists (f a). split; [done|]. apply list_elem_of_fmap. exists a. split; [done|].
    by eapply list_elem_of_lookup_2.
Qed.

Lemma flat_disjoint {X Y} (f : X -> list Y) (l : list X) v w a b k : NoDup (mjoin (f <$> l)) ->
  l !! v = Some a -> l !! w = Some b -> k ∈ f a -> k ∈ f b -> v = w.
Proof.
  revert v w. induction l as [|x l IH]; intros v w; [done|]. rewrite fmap_cons.
  change (mjoin (f x :: (f <$> l))) with (f x ++ mjoin (f <$> l)). rewrite NoDup_app. intros (_ & Hd & Hnd).
  destruct v as [|v], w as [|w]; simpl; [done| | |].
  - intros [= ->] Hw Ha Hb. destruct (Hd k Ha). apply elem_of_flat. by exists w, b.
  - intros Hv [= ->] Ha Hb. destruct (Hd k Hb). apply elem_of_flat. by exists v, a.
  - intros. f_equal. by eapply IH.
Qed.

Lemma flat_nodup {X Y} (f : X -> list Y) (l : list X) v a : NoDup (mjoin (f <$> l)) -> l !! v = Some a -> NoDup (f a).
Proof. intros Hnd Hv. rewrite (flat_split f l v a Hv) in Hnd. by apply NoDup_app in Hnd as [? _]. Qed.

(** The entries of a tree are unique. *)
Lemma subs_unique g k y y' : NoDup (jobs g) -> (k, y) ∈ subs g -> (k, y') ∈ subs g -> y = y'.
Proof.
  unfold jobs. induction (subs g) as [|[k0 y0] ps IH]; [by intros _ ?%elem_of_nil|]. rewrite fmap_cons, NoDup_cons.
  intros [Hk Hnd]. rewrite !elem_of_cons. intros [[= -> ->]|H] [[= ->]|H']; try done; auto; destruct Hk;
    [apply (list_elem_of_fmap_2 fst _ _ H')|]. subst. apply (list_elem_of_fmap_2 fst _ _ H).
Qed.

Lemma subs_trans g i h p : (i, h) ∈ subs g -> p ∈ subs h -> p ∈ subs g.
Proof.
  induction g as [t|g IH t|g IHg j h0 IHh]; simpl; [by intros ?%elem_of_nil|done|].
  rewrite !elem_of_cons, !elem_of_app. intros [[= -> ->]|[H|H]] Hp; auto.
Qed.

Lemma jobs_elem g k : k ∈ jobs g <-> exists y, (k, y) ∈ subs g.
Proof.
  unfold jobs. rewrite list_elem_of_fmap. split; [intros ([k' y] & -> & H); by exists y|intros [y H]; by exists (k, y)].
Qed.

Lemma frame_jobs_csubs fs c k : Forall2 frame_ok fs c -> k ∈ frame_jobs fs -> k ∈ (csubs c).*1.
Proof.
  induction 1 as [|f g fs c Hf _ IH]; [by intros ?%elem_of_nil|].
  destruct f, g; simpl in Hf |- *; try done; subst; rewrite ?elem_of_cons, ?fmap_app, ?elem_of_app; naive_solver.
Qed.

Lemma frame_jobs_app fs1 fs2 : frame_jobs (fs1 ++ fs2) = frame_jobs fs1 ++ frame_jobs fs2.
Proof. induction fs1 as [|[t|j t c|j c] fs1 IH]; simpl; [done|done|by rewrite IH..]. Qed.

Lemma stack_frames_cons sg st : stack_frames (sg :: st) = sg_frames sg ++ stack_frames st.
Proof. done. Qed.

Lemma elem_of_stack_jobs st k : k ∈ frame_jobs (stack_frames st) <-> exists sg, sg ∈ st /\ k ∈ frame_jobs (sg_frames sg).
Proof.
  induction st as [|sg st IH].
  - split; [by intros ?%elem_of_nil|by intros (sg & ?%elem_of_nil & _)].
  - rewrite stack_frames_cons, frame_jobs_app, elem_of_app, IH. setoid_rewrite elem_of_cons. naive_solver.
Qed.

Lemma frame_jobs_tree root s G O w st k : inv root s G O -> stacks s !! w = Some st -> k ∈ frame_jobs (stack_frames st) ->
  k ∈ jobs G.
Proof.
  intros I Hst ([j fs] & Hsg & Hk)%elem_of_stack_jobs. destruct (v_segment _ _ _ _ I _ _ _ _ Hst Hsg) as (c & Hc & Hj).
  apply (frame_jobs_csubs _ _ _ Hc) in Hk. apply jobs_elem. apply list_elem_of_fmap in Hk as ([k' y] & -> & Hy).
  exists y. eapply subs_trans; [exact Hj|]. by rewrite subs_plug.
Qed.

(** *** The innermost call of a worker goes on *)

Section top_step.
Context (root : task) (s : state) (G : gtree) (O : list nat) (w j : nat) (fs : list frame) (rest : list segment)
  (d : list (nat * task)) (c : list gframe) (I : inv root s G O)
  (Hw : stacks s !! w = Some (mk_segment j fs :: rest)) (Hd : deques s !! w = Some d)
  (Hc : Forall2 frame_ok fs c) (Hj : (j, plug c GSkip) ∈ subs G).

Definition entry (p : nat * task) : nat * gtree := (p.1, GTask p.2).

(** The frames [fs'] and the deque [d'] after the step, which ran the actions [pre], spawned
    the jobs [new], and took the subtrees [gone] away; [goneq] are those taken from the deque. *)
Context (fs' : list frame) (c' : list gframe) (pre : list A) (new : list (nat * task)) (gone : list (nat * gtree))
  (goneq : list nat) (d' : list (nat * task)) (n' : nat) (b' : list nat) (Hb' : length b' = length (bots s))
  (Hc' : Forall2 frame_ok fs' c') (Hpre : leaves pre (plug c GSkip) (plug c' GSkip))
  (Hsubs : csubs c' ++ gone ≡ₚ csubs c ++ (entry <$> new))
  (Hnew : forall p, p ∈ new -> next_job s <= p.1 < n') (Hnew_nodup : NoDup new.*1) (Hn' : next_job s <= n')
  (Hgone : forall k, k ∈ gone.*1 -> k ∈ goneq \/ k ∈ done s) (Hgoneq : forall k, k ∈ goneq -> k ∈ gone.*1)
  (Hd' : d'.*1 ++ goneq ≡ₚ d.*1 ++ new.*1) (Hd'_elem : forall p, p ∈ d' -> p ∈ d \/ p ∈ new)
  (Hown : exists p, lefts (fs' ++ stack_frames rest) = reverse d' ++ p)
  (Hframes : frame_jobs fs' ++ gone.*1 ≡ₚ frame_jobs fs ++ new.*1).

Let x := plug c' GSkip.
Let G' := update j x G.
Let s' := mk_state (<[w := mk_segment j fs' :: rest]> (stacks s)) (<[w := d']> (deques s)) (done s) n' (trace s ++ pre) b'.

Lemma ts_updated : updated pre j (plug c GSkip) x G G'.
Proof using I Hj Hpre. apply gupdate_ok; [done|apply I|done]. Qed.

Lemma ts_subs_c : subs (plug c GSkip) ≡ₚ csubs c.
Proof. by rewrite subs_plug. Qed.

Lemma ts_subs_x : subs x ≡ₚ csubs c'.
Proof. unfold x. by rewrite subs_plug. Qed.

Lemma ts_jobs : jobs G' ++ gone.*1 ≡ₚ jobs G ++ new.*1.
Proof using I Hj Hpre Hsubs.
  apply (Permutation_app_inv_r (jobs (plug c GSkip))).
  rewrite <- !app_assoc, (Permutation_app_comm gone.*1), app_assoc, (up_jobs _ _ _ _ _ _ ts_updated).
  rewrite <- !app_assoc. f_equiv. unfold jobs. rewrite ts_subs_x, ts_subs_c, <- !fmap_app, Hsubs, fmap_app, (Permutation_app_comm new.*1).
  by rewrite <- list_fmap_compose.
Qed.

Lemma ts_live : queued s' ++ started s' ++ goneq ≡ₚ queued s ++ started s ++ new.*1.
Proof using Hw Hd Hd'.
  unfold queued, started, s'. simpl.
  rewrite !(flat_insert _ _ w _ _ Hw), !(flat_insert _ _ w _ _ Hd), (flat_split _ (stacks s) w _ Hw), (flat_split _ (deques s) w _ Hd).
  simpl. set (R1 := mjoin _). set (R2 := mjoin _). set (o := owners rest).
  transitivity ((d'.*1 ++ goneq) ++ R1 ++ (j :: o) ++ R2); [|rewrite Hd'];
    apply (anti_symm submseteq); solve_submseteq.
Qed.

Lemma ts_started : started s' ≡ₚ started s.
Proof using Hw.
  unfold started, s'. simpl. by rewrite (flat_insert _ _ w _ _ Hw), (flat_split _ (stacks s) w _ Hw).
Qed.

Lemma ts_new k : k ∈ new.*1 -> next_job s <= k < n'.
Proof using All. intros (p & -> & Hp)%list_elem_of_fmap. by apply Hnew. Qed.

Lemma ts_jobs_nodup : NoDup (jobs G' ++ gone.*1).
Proof using All.
  rewrite ts_jobs. apply NoDup_app. split; [apply I|]. split; [|done].
  intros k Hk Hk'%ts_new. apply (v_next _ _ _ _ I) in Hk. lia.
Qed.

Lemma ts_live_nodup : NoDup (queued s' ++ started s' ++ goneq).
Proof using All.
  rewrite ts_live, app_assoc. apply NoDup_app. split; [apply I|]. split; [|done].
  intros k Hk Hk'%ts_new. apply (v_live_next _ _ _ _ I) in Hk. lia.
Qed.

Lemma ts_live_elem k : k ∈ queued s' ++ started s' \/ k ∈ goneq <-> k ∈ queued s ++ started s \/ k ∈ new.*1.
Proof using All. rewrite <- !elem_of_app, <- !app_assoc. by rewrite ts_live. Qed.

Lemma ts_j_live : j ∈ started s.
Proof using All.
  apply elem_of_flat. exists w, (mk_segment j fs :: rest). split; [done|]. by left.
Qed.

(** A job that is not taken away keeps its subtree. *)
Lemma ts_keep k y : (k, y) ∈ subs G -> k <> j -> k ∉ gone.*1 -> (k, y) ∈ subs G' \/ (k, update j x y) ∈ subs G'.
Proof using All.
  intros Hk Hne Hg. destruct ts_updated as [_ _ U3 U4 _].
  destruct (decide (k ∈ jobs (plug c GSkip))) as [Hin|Hout]; [|right; by apply U4].
  left. apply jobs_elem in Hin as [y' Hy']. assert (y' = y) as ->.
  { eapply subs_unique; [apply I| |exact Hk]. eapply subs_trans; [exact Hj|done]. }
  apply U3. rewrite ts_subs_x. rewrite ts_subs_c in Hy'.
  assert ((k, y) ∈ csubs c' ++ gone) as Hc1 by (rewrite Hsubs; apply elem_of_app; by left).
  apply elem_of_app in Hc1 as [|Hc1]; [done|]. destruct Hg. apply (list_elem_of_fmap_2 fst _ _ Hc1).
Qed.

Lemma ts_lookup_stack w0 st : stacks s' !! w0 = Some st ->
  (w0 = w /\ st = mk_segment j fs' :: rest) \/ (w0 <> w /\ stacks s !! w0 = Some st).
Proof using All.
  simpl. intros H. destruct (decide (w0 = w)) as [->|Hne]; [left|right].
  - rewrite list_lookup_insert_eq in H by (by eapply lookup_lt_Some). by simplify_eq.
  - by rewrite list_lookup_insert_ne in H.
Qed.

Lemma ts_lookup_deque w0 d0 : deques s' !! w0 = Some d0 ->
  (w0 = w /\ d0 = d') \/ (w0 <> w /\ deques s !! w0 = Some d0).
Proof using All.
  simpl. intros H. destruct (decide (w0 = w)) as [->|Hne]; [left|right].
  - rewrite list_lookup_insert_eq in H by (by eapply lookup_lt_Some). by simplify_eq.
  - by rewrite list_lookup_insert_ne in H.
Qed.

(** The segments but the top one of [w] are those of before, of other jobs. *)
Lemma ts_segments w0 st k fs0 : stacks s' !! w0 = Some st -> mk_segment k fs0 ∈ st ->
  (w0 = w /\ k = j /\ fs0 = fs') \/
  (k <> j /\ exists st0, stacks s !! w0 = Some st0 /\ mk_segment k fs0 ∈ st0).
Proof using All.
  intros Hst Hk. assert (NoDup (started s)) as Hnd by (eapply NoDup_app, (v_live _ _ _ _ I)).
  assert (Hjr := flat_nodup _ _ _ _ Hnd Hw). apply NoDup_cons in Hjr as [Hjr _].
  apply ts_lookup_stack in Hst as [[-> ->]|[Hne Hst]].
  - apply elem_of_cons in Hk as [[= -> ->]|Hk]; [by left|]. right. split.
    + intros ->. apply Hjr. apply (list_elem_of_fmap_2 sg_job _ _ Hk).
    + exists (mk_segment j fs :: rest). split; [done|]. by right.
  - right. split; [|by exists st]. intros ->. apply Hne. eapply flat_disjoint; [exact Hnd|exact Hst|exact Hw| |by left].
    apply (list_elem_of_fmap_2 sg_job _ _ Hk).
Qed.

Lemma ts_segment w0 st k fs0 : stacks s' !! w0 = Some st -> mk_segment k fs0 ∈ st ->
  exists c0, Forall2 frame_ok fs0 c0 /\ (k, plug c0 GSkip) ∈ subs G'.
Proof using All.
  intros Hst Hk. destruct (ts_segments _ _ _ _ Hst Hk) as [(-> & -> & ->)|(Hne & st0 & Hst0 & Hk0)].
  - exists c'. split; [done|apply ts_updated].
  - destruct (v_segment _ _ _ _ I _ _ _ _ Hst0 Hk0) as (c0 & Hc0 & Hs0).
    assert (k ∈ started s) as Hks.
    { apply elem_of_flat. exists w0, st0. split; [done|]. apply (list_elem_of_fmap_2 sg_job _ _ Hk0). }
    destruct (ts_keep _ _ Hs0 Hne) as [Hs1|Hs1].
    + intros [Hq|Hd0]%Hgone.
      * assert (k ∈ started s') as Hk' by (by rewrite ts_started). assert (Hnd := ts_live_nodup).
        apply NoDup_app in Hnd as (_ & _ & Hnd). apply NoDup_app in Hnd as (_ & Hnd & _). by apply (Hnd k).
      * revert Hd0. apply (v_live_done _ _ _ _ I). apply elem_of_app. by right.
    + by exists c0.
    + rewrite update_plug in Hs1. exists (cupdate j x <$> c0). split; [by apply frames_cupdate|done].
Qed.

Lemma ts_queued_elem w0 d0 p : deques s' !! w0 = Some d0 -> p ∈ d0 -> p.1 ∈ queued s' /\ (p ∈ new \/ exists d1, deques s !! w0 = Some d1 /\ p ∈ d1).
Proof using All.
  intros Hd0 Hp. split; [apply elem_of_flat; exists w0, d0; split; [done|by apply list_elem_of_fmap_2]|].
  apply ts_lookup_deque in Hd0 as [[-> ->]|[Hne Hd0]]; [|right; by exists d0].
  apply Hd'_elem in Hp as [|]; [right; by exists d|by left].
Qed.

Lemma ts_not_gone k : k ∈ queued s' ++ started s' -> k ∉ gone.*1.
Proof using All.
  intros Hk [Hq|Hdn]%Hgone.
  - assert (Hnd := ts_live_nodup). rewrite app_assoc in Hnd. apply NoDup_app in Hnd as (_ & Hnd & _). by apply (Hnd k).
  - destruct (proj1 (ts_live_elem k)) as [Hl|Hn]; [left; done|by apply (v_live_done _ _ _ _ I k Hl)|].
    apply ts_new in Hn. apply (v_done_next _ _ _ _ I) in Hdn. lia.
Qed.

Lemma ts_deque w0 d0 k t : deques s' !! w0 = Some d0 -> (k, t) ∈ d0 -> (k, GTask t) ∈ subs G'.
Proof using All.
  intros Hd0 Hk. destruct (ts_queued_elem _ _ _ Hd0 Hk) as [Hq Hold]. simpl in Hq.
  assert (k ∉ gone.*1) as Hng by (apply ts_not_gone, elem_of_app; by left). destruct Hold as [Hn|(d1 & Hd1 & Hk1)].
  - apply (up_new _ _ _ _ _ _ ts_updated). rewrite ts_subs_x.
    assert ((k, GTask t) ∈ csubs c' ++ gone) as Hc1.
    { rewrite Hsubs. apply elem_of_app. right. apply (list_elem_of_fmap_2 entry _ _ Hn). }
    apply elem_of_app in Hc1 as [|Hc1]; [done|]. destruct Hng. apply (list_elem_of_fmap_2 fst _ _ Hc1).
  - assert (k <> j) as Hne.
    { intros ->. assert (Hnd := v_live _ _ _ _ I). apply NoDup_app in Hnd as (_ & Hnd & _). apply (Hnd j); [|by apply ts_j_live].
      apply elem_of_flat. exists w0, d1. split; [done|]. apply (list_elem_of_fmap_2 fst _ _ Hk1). }
    destruct (ts_keep k (GTask t)) as [|]; [by eapply (v_deque _ _ _ _ I)|done..].
Qed.

Lemma ts_done k y : k ∈ done s -> (k, y) ∈ subs G' -> y = GSkip.
Proof using All.
  intros Hk Hy. assert (k ∈ jobs G') as HG' by (apply jobs_elem; by exists y). assert (Hnd := ts_jobs_nodup).
  assert (k ∈ jobs G) as [y0 Hy0]%jobs_elem.
  { assert (k ∈ jobs G ++ new.*1) as Hin by (rewrite <- ts_jobs; apply elem_of_app; by left).
    apply elem_of_app in Hin as [|Hin%ts_new]; [done|]. apply (v_done_next _ _ _ _ I) in Hk. lia. }
  assert (y0 = GSkip) as -> by (by eapply (v_done _ _ _ _ I)).
  apply NoDup_app in Hnd as (Hnd & Hg & _). eapply subs_unique; [exact Hnd|exact Hy|].
  destruct (ts_keep _ _ Hy0) as [|]; [|by apply Hg|done..].
  intros ->. apply (v_live_done _ _ _ _ I j); [apply elem_of_app; right; by apply ts_j_live|done].
Qed.

Lemma ts_all_jobs k : k ∈ jobs G' -> k ∈ queued s' ++ started s' \/ k ∈ done s.
Proof using All.
  intros Hk. assert (Hnd := ts_jobs_nodup). apply NoDup_app in Hnd as (_ & Hg & _). specialize (Hg k Hk).
  assert (k ∈ jobs G ++ new.*1) as Hin by (rewrite <- ts_jobs; apply elem_of_app; by left).
  assert (k ∈ queued s ++ started s \/ k ∈ new.*1 -> k ∈ queued s' ++ started s') as Hlive.
  { intros [Hl|Hl]%ts_live_elem; [done|]. by apply Hgoneq in Hl. }
  apply elem_of_app in Hin as [Hin|Hin]; [|left; auto]. apply (v_jobs _ _ _ _ I) in Hin as [Hin|Hin]; auto.
Qed.

Lemma ts_waiting : waiting_jobs s' ++ gone.*1 ≡ₚ waiting_jobs s ++ new.*1.
Proof using All.
  unfold waiting_jobs, s'. simpl. rewrite (flat_insert _ _ w _ _ Hw), (flat_split _ (stacks s) w _ Hw).
  rewrite !stack_frames_cons, !frame_jobs_app. set (R := mjoin _). set (r := frame_jobs (stack_frames rest)).
  transitivity ((frame_jobs fs' ++ gone.*1) ++ r ++ R); [|rewrite Hframes];
    apply (anti_symm submseteq); solve_submseteq.
Qed.

Lemma ts_waiting_nodup : NoDup (waiting_jobs s').
Proof using All.
  assert (NoDup (waiting_jobs s' ++ gone.*1)) as Hnd; [|by apply NoDup_app in Hnd as [? _]].
  rewrite ts_waiting. apply NoDup_app. split; [apply I|]. split; [|done].
  intros k (w0 & st & Hst & Hk)%elem_of_flat Hn%ts_new. apply (frame_jobs_tree _ _ _ _ _ _ _ I Hst), (v_next _ _ _ _ I) in Hk. lia.
Qed.

Lemma ts_order_frames w0 st k fs0 i : stacks s' !! w0 = Some st -> mk_segment k fs0 ∈ st -> i ∈ frame_jobs fs0 -> i ∈ O ->
  later O i k.
Proof using All.
  intros Hst Hk Hi HO. destruct (ts_segments _ _ _ _ Hst Hk) as [(-> & -> & ->)|(_ & st0 & Hst0 & Hk0)];
    [|by apply (v_order_frames _ _ _ _ I w0 st0 k fs0)].
  apply (v_order_frames _ _ _ _ I w (mk_segment j fs :: rest) j fs); [done|by left| |done].
  assert (i ∈ frame_jobs fs ++ new.*1) as Hin by (rewrite <- Hframes; apply elem_of_app; by left).
  apply elem_of_app in Hin as [|Hin%ts_new]; [done|]. apply (v_order _ _ _ _ I) in HO.
  assert (i < next_job s) by (apply (v_live_next _ _ _ _ I), elem_of_app; by right). lia.
Qed.

Lemma ts_own w0 st d0 : stacks s' !! w0 = Some st -> deques s' !! w0 = Some d0 ->
  exists p, lefts (stack_frames st) = reverse d0 ++ p.
Proof using All.
  intros Hst Hd0. apply ts_lookup_stack in Hst as [[-> ->]|[Hne Hst]]; apply ts_lookup_deque in Hd0 as [[? ->]|[? Hd0]]; try done.
  by apply (v_own _ _ _ _ I w0).
Qed.

Lemma ts_order_stack w0 st : stacks s' !! w0 = Some st -> StronglySorted (later O) (owners st).
Proof using All.
  intros [[-> ->]|[Hne Hst]]%ts_lookup_stack; [|by apply (v_order_stack _ _ _ _ I w0)].
  exact (v_order_stack _ _ _ _ I w _ Hw).
Qed.

Lemma top_step_inv : inv root s' G' O.
Proof using All.
  assert (Hnd := ts_live_nodup). rewrite app_assoc in Hnd. apply NoDup_app in Hnd as (Hnd & _ & _).
  assert (forall k, k ∈ queued s' ++ started s' -> k ∈ queued s ++ started s \/ k ∈ new.*1) as Hlive
    by (intros k Hk; apply ts_live_elem; by left).
  split.
  - simpl. rewrite !length_insert. apply I.
  - eapply leaves_trans; [apply I|apply ts_updated].
  - destruct (v_shape _ _ _ _ I) as [g Hg]. unfold G'. rewrite Hg. simpl. by eexists.
  - assert (Hj' := ts_jobs_nodup). by apply NoDup_app in Hj' as [? _].
  - intros k Hk. simpl. assert (k ∈ jobs G ++ new.*1) as Hin by (rewrite <- ts_jobs; apply elem_of_app; by left).
    apply elem_of_app in Hin as [Hin%(v_next _ _ _ _ I)|Hin%ts_new]; lia.
  - apply ts_segment.
  - apply ts_deque.
  - apply ts_done.
  - intros k Hk%(v_done_next _ _ _ _ I). simpl. lia.
  - done.
  - intros k [Hk%(v_live_next _ _ _ _ I)|Hk%ts_new]%Hlive; simpl; lia.
  - intros k [Hk%(v_live_done _ _ _ _ I)|Hk%ts_new]%Hlive; [done|]. intros Hdn%(v_done_next _ _ _ _ I). lia.
  - apply ts_all_jobs.
  - apply ts_own.
  - apply ts_waiting_nodup.
  - apply I.
  - intros k. rewrite (v_order _ _ _ _ I). by rewrite ts_started.
  - apply ts_order_stack.
  - apply ts_order_frames.
  - simpl. rewrite length_insert, Hb'. apply I.
Qed.
End top_step.

(** What a step must do *)
Definition step_ok (root : task) (r : res state) : Prop :=
  match r with Ok s' => exists G' O', inv root s' G' O' | Err e => e = Blocked \/ e = Aborted end.

Lemma state_eq s w st d n pre b :
  deques s !! w = Some d ->
  mk_state (<[w := st]> (stacks s)) (deques s) (done s) n (trace s ++ pre) b =
  mk_state (<[w := st]> (stacks s)) (<[w := d]> (deques s)) (done s) n (trace s ++ pre) b.
Proof. intros Hd. by rewrite (list_insert_id (deques s)). Qed.

Lemma inv_deque root s G O w st : inv root s G O -> stacks s !! w = Some st -> exists d, deques s !! w = Some d.
Proof. intros I Hw. apply lookup_lt_is_Some_2. rewrite <- (v_length _ _ _ _ I). by eapply lookup_lt_Some. Qed.

Lemma inv_bot root s G O w st : inv root s G O -> stacks s !! w = Some st -> exists b, bots s !! w = Some b.
Proof. intros I Hw. apply lookup_lt_is_Some_2. rewrite (v_bots _ _ _ _ I). by eapply lookup_lt_Some. Qed.

(** The invariant does not depend on the indices of the deques. *)
Lemma inv_set_bot root s G O w b : inv root s G O -> inv root (set_bot w b s) G O.
Proof. intros I. destruct I. split; try done. simpl. by rewrite length_insert. Qed.

Section cases.
Context (root : task) (s : state) (G : gtree) (O : list nat) (w j : nat) (rest : list segment)
  (d : list (nat * task)) (I : inv root s G O) (Hd : deques s !! w = Some d).

Lemma plug_seq t k g pre : leaves pre (GSeq GSkip t) g -> leaves pre (plug (KSeq t :: k) GSkip) (plug k g).
Proof. intros H. by apply (leaves_plug pre k). Qed.

(** Only the frames change. *)
Lemma frames_step fs c fs' c' pre gone b' :
  stacks s !! w = Some (mk_segment j fs :: rest) -> Forall2 frame_ok fs c -> (j, plug c GSkip) ∈ subs G ->
  Forall2 frame_ok fs' c' -> leaves pre (plug c GSkip) (plug c' GSkip) -> csubs c' ++ gone ≡ₚ csubs c ->
  (forall k, k ∈ gone.*1 -> k ∈ done s) -> frame_jobs fs' ++ gone.*1 ≡ₚ frame_jobs fs ->
  (exists p, lefts (fs' ++ stack_frames rest) = reverse d ++ p) -> length b' = length (bots s) ->
  exists G' O', inv root (mk_state (<[w := mk_segment j fs' :: rest]> (stacks s)) (deques s) (done s) (next_job s) (trace s ++ pre) b') G' O'.
Proof.
  intros Hw Hc Hj Hc' Hpre Hsubs Hgone Hframes Hown Hb'. rewrite (state_eq s w _ d) by done. do 2 eexists.
  apply (top_step_inv root s G O w j fs rest d c I Hw Hd Hc Hj fs' c' pre [] gone [] d (next_job s) b'); simpl;
    rewrite ?app_nil_r; auto; try done.
  - by intros p ?%elem_of_nil.
  - constructor.
  - by intros k ?%elem_of_nil.
Qed.

(** The thunk on top is replaced by the thunks [ts]. *)
Lemma plug_app k1 k2 g : plug (k1 ++ k2) g = plug k2 (plug k1 g).
Proof. revert g. induction k1 as [|[t|i h] k1 IH]; intros g; simpl; auto. Qed.

Lemma run_step t ts pre k : stacks s !! w = Some (mk_segment j (FRun t :: k) :: rest) ->
  leaves pre (GSeq GSkip t) (plug (KSeq <$> ts) GSkip) ->
  exists G' O', inv root (mk_state (<[w := mk_segment j ((FRun <$> ts) ++ k) :: rest]> (stacks s))
    (deques s) (done s) (next_job s) (trace s ++ pre) (bots s)) G' O'.
Proof using I Hd.
  intros Hw Hpre. destruct (v_segment _ _ _ _ I w _ j _ Hw ltac:(by left)) as (c0 & Hc & Hj).
  destruct (v_own _ _ _ _ I w _ _ Hw Hd) as [p Hp]. rewrite stack_frames_cons in Hp. simpl in Hp.
  inversion Hc as [|? [t'|] ? c1 Hf Hc1]; [|done]. simplify_eq/=.
  assert (Forall2 frame_ok (FRun <$> ts) (KSeq <$> ts)) as Hts by (clear; induction ts; [constructor|by constructor]).
  assert (csubs ((KSeq <$> ts) ++ c1) = csubs c1) as Hcs by (clear; induction ts; done).
  assert (frame_jobs ((FRun <$> ts) ++ k) = frame_jobs k) as Hfj by (clear; induction ts; done).
  assert (lefts (((FRun <$> ts) ++ k) ++ stack_frames rest) = lefts (k ++ stack_frames rest)) as Hle
    by (clear; induction ts; done).
  eapply (frames_step (FRun t' :: k) (KSeq t' :: c1) _ ((KSeq <$> ts) ++ c1) pre [] (bots s)); try done.
  - by apply Forall2_app.
  - rewrite plug_app. by apply (leaves_plug pre c1).
  - by rewrite app_nil_r, Hcs.
  - by intros ? ?%elem_of_nil.
  - by rewrite app_nil_r, Hfj.
  - rewrite Hle. by exists p.
Qed.

Lemma pardo_ok left_ right_ cv k : stacks s !! w = Some (mk_segment j (FRun (TPar left_ right_ cv) :: k) :: rest) ->
  step_ok root (pardo w left_ right_ cv j k rest s).
Proof using I Hd.
  intros Hw. unfold pardo, spawn. simpl. rewrite Hd.
  destruct (inv_bot _ _ _ _ _ _ I Hw) as [b Hb]. rewrite Hb. destruct (b =? q_size); [by right|]. cbn [step_ok]. set (i := next_job s).
  destruct (v_segment _ _ _ _ I w _ j _ Hw ltac:(by left)) as (c0 & Hc & Hj).
  destruct (v_own _ _ _ _ I w _ _ Hw Hd) as [p Hp]. rewrite stack_frames_cons in Hp. simpl in Hp.
  inversion Hc as [|? [t'|] ? c1 Hf Hc1]; [|done]. simplify_eq/=.
  unfold set_deque. simpl. rewrite <- (app_nil_r (trace s)). do 2 eexists.
  apply (top_step_inv root s G O w j (FRun (TPar left_ right_ cv) :: k) rest d (KSeq (TPar left_ right_ cv) :: c1) I Hw Hd Hc Hj
    (FRun left_ :: FLeft i right_ cv :: k) (KSeq left_ :: KPar i (GTask right_) :: c1) [] [(i, right_)] [] [] (d ++ [(i, right_)]) (S i) _ (length_insert _ _ _)).
  - by constructor; [|constructor].
  - apply (leaves_plug [] c1). intros l. simpl. intros (l1 & l2 & (l3 & l4 & -> & Hl4 & ->) & H2 & Hs). exists [], l.
    split; [done|]. split; [|done]. by exists l4, l2.
  - simpl. rewrite app_nil_r. apply (Permutation_app_comm [(i, GTask right_)]).
  - intros q ->%list_elem_of_singleton. simpl. unfold i. lia.
  - apply NoDup_singleton.
  - unfold i. lia.
  - by intros q ?%elem_of_nil.
  - by intros q ?%elem_of_nil.
  - by rewrite fmap_app, app_nil_r.
  - intros q Hq. by apply elem_of_app in Hq.
  - exists p. rewrite reverse_app. simpl. by rewrite Hp.
  - simpl. rewrite app_nil_r. apply (Permutation_app_comm [i]).
Qed.

(** The job of [pardo] is the last one of the deque, or was stolen. *)
Lemma pardo_join_ok i t cv k : stacks s !! w = Some (mk_segment j (FLeft i t cv :: k) :: rest) ->
  step_ok root (pardo_join w i t cv j k rest s).
Proof using I Hd.
  intros Hw. unfold pardo_join, get_own_job. rewrite Hd. destruct (inv_bot _ _ _ _ _ _ I Hw) as [b Hb]. rewrite Hb.
  destruct (v_segment _ _ _ _ I w _ j _ Hw ltac:(by left)) as (c0 & Hc & Hj).
  destruct (v_own _ _ _ _ I w _ _ Hw Hd) as [p Hp]. rewrite stack_frames_cons in Hp. simpl in Hp.
  inversion Hc as [|? [|i' h] ? c1 Hf Hc1]; [done|]. simplify_eq/=.
  destruct (last d) as [job|] eqn:El.
  - apply last_Some in El as [d0 ->]. rewrite reverse_snoc in Hp. injection Hp as <- Hp. cbn [fst]. rewrite Nat.eqb_refl. cbn [step_ok].
    rewrite removelast_last. unfold set_bot, set_deque, set_stack. simpl. rewrite <- (app_nil_r (trace s)).
    assert (h = GTask t) as ->.
    { eapply subs_unique; [apply I| |by eapply (v_deque _ _ _ _ I w _ i' t Hd), elem_of_app; right; left].
      eapply subs_trans; [exact Hj|]. rewrite subs_plug. simpl. by left. }
    do 2 eexists.
    apply (top_step_inv root s G O w j (FLeft i' t cv :: k) rest _ (KPar i' (GTask t) :: c1) I Hw Hd Hc Hj
      (FRun t :: k) (KSeq t :: c1) [] [] [(i', GTask t)] [i'] d0 (next_job s) _ (length_insert _ _ _)).
    + by constructor.
    + apply (leaves_plug [] c1). intros l. simpl. intros (l1 & l2 & -> & H2 & ->). exists [], l2.
      split; [done|]. split; [done|]. apply shuffle_nil_l.
    + simpl. rewrite app_nil_r. apply (Permutation_app_comm _ [(i', GTask t)]).
    + by intros q ?%elem_of_nil.
    + constructor.
    + done.
    + intros q Hq. by left.
    + done.
    + by rewrite fmap_app, app_nil_r.
    + intros q Hq. left. apply elem_of_app. by left.
    + by exists p.
    + simpl. rewrite app_nil_r. apply (Permutation_app_comm _ [i']).
  - apply last_None in El. cbn [step_ok]. unfold set_bot, set_stack. simpl. rewrite <- (app_nil_r (trace s)).
    eapply (frames_step (FLeft i' t cv :: k) (KPar i' h :: c1) (FWait i' cv :: k) (KPar i' h :: c1) [] []); try done.
    + by constructor.
    + apply leaves_refl.
    + by rewrite app_nil_r.
    + by intros q ?%elem_of_nil.
    + by rewrite app_nil_r.
    + rewrite El. by eexists.
    + by rewrite length_insert.
Qed.

Lemma wait_ok i cv k : stacks s !! w = Some (mk_segment j (FWait i cv :: k) :: rest) -> i ∈ done s ->
  d = [] -> exists G' O', inv root (set_stack w (mk_segment j k :: rest) s) G' O'.
Proof using I Hd.
  intros Hw Hi. unfold set_stack. rewrite <- (app_nil_r (trace s)).
  destruct (v_segment _ _ _ _ I w _ j _ Hw ltac:(by left)) as (c0 & Hc & Hj).
  inversion Hc as [|? [|i' h] ? c1 Hf Hc1]; [done|]. simplify_eq/=.
  intros Hnil. assert (h = GSkip) as ->.
  { apply (v_done _ _ _ _ I i'); [done|]. eapply subs_trans; [exact Hj|]. rewrite subs_plug. simpl. by left. }
  eapply (frames_step (FWait i' cv :: k) (KPar i' GSkip :: c1) k c1 [] [(i', GSkip)] (bots s)); try done.
  - apply (leaves_plug [] c1). intros l ->. exists [], []. repeat split. constructor.
  - apply (Permutation_app_comm _ [(i', GSkip)]).
  - by intros q ->%list_elem_of_singleton.
  - apply (Permutation_app_comm _ [i']).
  - rewrite Hnil. by eexists.
Qed.

Lemma wait_deque i cv k : stacks s !! w = Some (mk_segment j (FWait i cv :: k) :: rest) -> d = [].
Proof using I Hd.
  intros Hw. destruct (v_own _ _ _ _ I w _ _ Hw Hd) as [p Hp]. simpl in Hp.
  symmetry in Hp. apply app_eq_nil in Hp as [Hp _]. apply (f_equal reverse) in Hp. by rewrite reverse_involutive in Hp.
Qed.

End cases.

(** *** A call returns *)

Lemma later_filter O a b j : later O a b -> a <> j -> b <> j -> later (base.filter (fun k => k <> j) O) a b.
Proof.
  intros (l1 & l2 & -> & Hb & Ha) Hne1 Hne2. exists (base.filter (fun k => k <> j) l1), (base.filter (fun k => k <> j) l2).
  rewrite filter_app, !list_elem_of_filter. done.
Qed.

Lemma sorted_impl_in {X} (R R' : X -> X -> Prop) l :
  (forall a b, a ∈ l -> b ∈ l -> R a b -> R' a b) -> StronglySorted R l -> StronglySorted R' l.
Proof.
  intros HR. induction 1 as [|a l Hl IH Ha]; constructor.
  - apply IH. intros. apply HR; [by right..|done].
  - apply Forall_forall. intros b Hb. apply HR; [by left|by right|]. by eapply Forall_forall in Ha.
Qed.

Section finish.
Context (root : task) (s : state) (G : gtree) (O : list nat) (w j : nat) (rest : list segment) (I : inv root s G O)
  (Hw : stacks s !! w = Some (mk_segment j [] :: rest)).
Let s' := set_stack w rest (set_done j s).
Let O' := base.filter (fun k => k <> j) O.

Lemma fin_started : started s ≡ₚ j :: started s'.
Proof using Hw. unfold started, s'. simpl. by rewrite (flat_insert _ _ w _ _ Hw), (flat_split _ (stacks s) w _ Hw). Qed.

Lemma fin_live k : k ∈ queued s' ++ started s' -> k ∈ queued s ++ started s /\ k <> j.
Proof using All.
  intros Hk. change (queued s') with (queued s) in Hk. assert (Hnd := v_live _ _ _ _ I).
  rewrite fin_started in Hnd |- *. rewrite elem_of_app, elem_of_cons in *. apply NoDup_app in Hnd as (_ & Hnd & Hj).
  apply NoDup_cons in Hj as [Hj _]. split; [naive_solver|]. intros ->. destruct Hk as [Hk|]; [|done].
  apply (Hnd j Hk). by left.
Qed.

Lemma fin_lookup w0 st : stacks s' !! w0 = Some st -> exists st0, stacks s !! w0 = Some st0 /\
  (st0 = st \/ w0 = w /\ st0 = mk_segment j [] :: st).
Proof using Hw.
  simpl. intros H. destruct (decide (w0 = w)) as [->|Hne].
  - rewrite list_lookup_insert_eq in H by (by eapply lookup_lt_Some). simplify_eq. eexists. split; [done|]. by right.
  - rewrite list_lookup_insert_ne in H by done. exists st. auto.
Qed.

Lemma fin_segment w0 st k fs : stacks s' !! w0 = Some st -> mk_segment k fs ∈ st ->
  (exists st0, stacks s !! w0 = Some st0 /\ mk_segment k fs ∈ st0) /\ k <> j.
Proof using All.
  intros Hst Hk. assert (k ∈ started s') as Hks.
  { apply elem_of_flat. exists w0, st. split; [done|]. apply (list_elem_of_fmap_2 sg_job _ _ Hk). }
  split; [|apply fin_live, elem_of_app; by right]. destruct (fin_lookup _ _ Hst) as (st0 & Hst0 & [->|[-> ->]]); [by exists st|].
  eexists. split; [done|]. by right.
Qed.

Lemma finish_inv : inv root s' G O'.
Proof using All.
  destruct (v_segment _ _ _ _ I w _ j _ Hw ltac:(by left)) as (c & Hc & Hj). inversion Hc; subst c.
  assert (j < next_job s) as Hjn by (apply (v_next _ _ _ _ I), jobs_elem; by eexists).
  split.
  - simpl. rewrite length_insert. apply I.
  - apply I.
  - apply I.
  - apply I.
  - apply I.
  - intros w0 st k fs Hst Hk. destruct (fin_segment _ _ _ _ Hst Hk) as [(st0 & Hst0 & Hk0) _]. by apply (v_segment _ _ _ _ I w0 st0).
  - apply (v_deque _ _ _ _ I).
  - intros k y Hk Hy. simpl in Hk. apply elem_of_union in Hk as [->%elem_of_singleton|Hk]; [|by apply (v_done _ _ _ _ I k)].
    eapply subs_unique; [apply I|exact Hy|exact Hj].
  - intros k Hk. simpl in *. apply elem_of_union in Hk as [->%elem_of_singleton|Hk]; [done|by apply (v_done_next _ _ _ _ I)].
  - assert (Hnd := v_live _ _ _ _ I). rewrite fin_started in Hnd. rewrite <- Permutation_middle in Hnd. by apply NoDup_cons in Hnd as [_ Hnd].
  - intros k [Hk _]%fin_live. by apply (v_live_next _ _ _ _ I).
  - intros k [Hk Hne]%fin_live. simpl. rewrite not_elem_of_union, not_elem_of_singleton. split; [done|]. by apply (v_live_done _ _ _ _ I).
  - intros k Hk. simpl. destruct (decide (k = j)) as [->|Hne]; [right; set_solver|].
    apply (v_jobs _ _ _ _ I) in Hk as [Hk|Hk]; [left|right; set_solver]. change (queued s') with (queued s).
    rewrite elem_of_app in Hk |- *. rewrite fin_started, elem_of_cons in Hk. naive_solver.
  - intros w0 st d Hst Hd. destruct (fin_lookup _ _ Hst) as (st0 & Hst0 & Hor).
    destruct (v_own _ _ _ _ I w0 st0 d Hst0 Hd) as [p Hp]. exists p. by destruct Hor as [->|[-> ->]].
  - assert (Hnd := v_waiting _ _ _ _ I). unfold waiting_jobs, s' in *. simpl. rewrite (flat_insert _ _ w _ _ Hw).
    by rewrite (flat_split _ (stacks s) w _ Hw) in Hnd.
  - apply NoDup_filter, I.
  - intros k. unfold O'. rewrite list_elem_of_filter, (v_order _ _ _ _ I), fin_started, elem_of_cons.
    assert (k ∈ started s' -> k <> j) by (intros Hk; apply fin_live, elem_of_app; by right). naive_solver.
  - intros w0 st Hst. destruct (fin_lookup _ _ Hst) as (st0 & Hst0 & Hor). assert (Hso := v_order_stack _ _ _ _ I w0 st0 Hst0).
    assert (StronglySorted (later O) (owners st)) as Hso'.
    { destruct Hor as [->|[-> ->]]; [done|]. by apply StronglySorted_inv in Hso as [? _]. }
    assert (forall a, a ∈ owners st -> a <> j) as Hne.
    { intros a Ha. apply list_elem_of_fmap in Ha as ([a' fs] & -> & Ha). by eapply fin_segment. }
    eapply sorted_impl_in; [|exact Hso']. intros a b Ha Hb Hl. apply later_filter; auto.
  - intros w0 st k fs i Hst Hk Hi HO. apply list_elem_of_filter in HO as [Hne HO].
    destruct (fin_segment _ _ _ _ Hst Hk) as [(st0 & Hst0 & Hk0) Hkj]. apply later_filter; [|done..].
    by apply (v_order_frames _ _ _ _ I w0 st0 k fs).
  - simpl. rewrite length_insert. apply I.
Qed.
End finish.

(** *** A job is stolen and called *)

Lemma later_snoc O a b i : later O a b -> later (O ++ [i]) a b.
Proof. intros (l1 & l2 & -> & Hb & Ha). exists l1, (l2 ++ [i]). rewrite app_assoc. set_solver. Qed.

Lemma later_last O b i : b ∈ O -> later (O ++ [i]) i b.
Proof. intros Hb. exists O, [i]. set_solver. Qed.

Section steal.
Context (root : task) (s : state) (G : gtree) (O : list nat) (w v i : nat) (t : task) (st : list segment) (dv : list (nat * task))
  (I : inv root s G O) (Hw : stacks s !! w = Some st) (Hv : deques s !! v = Some ((i, t) :: dv)) (b' : list nat) (Hb' : length b' = length (bots s)).
Let s' := mk_state (<[w := mk_segment i [FRun t] :: st]> (stacks s)) (<[v := dv]> (deques s)) (done s) (next_job s) (trace s) b'.
Let x := GSeq GSkip t.
Let G' := update i x G.
Let O' := O ++ [i].

Lemma st_queued : queued s ≡ₚ i :: queued s'.
Proof using All. unfold queued, s'. simpl. by rewrite (flat_insert _ _ v _ _ Hv), (flat_split _ (deques s) v _ Hv). Qed.

Lemma st_started : started s' ≡ₚ i :: started s.
Proof using All. unfold started, s'. simpl. by rewrite (flat_insert _ _ w _ _ Hw), (flat_split _ (stacks s) w _ Hw). Qed.

Lemma st_live : queued s' ++ started s' ≡ₚ queued s ++ started s.
Proof using All. rewrite st_queued, st_started. symmetry. apply Permutation_middle. Qed.

Lemma st_i_queued : i ∈ queued s.
Proof using All. rewrite st_queued. by left. Qed.

Lemma st_sub : (i, GTask t) ∈ subs G.
Proof using All. apply (v_deque _ _ _ _ I v _ i t Hv). by left. Qed.

Lemma st_updated : updated [] i (GTask t) x G G'.
Proof using All.
  apply gupdate_ok; [apply st_sub|apply I|]. intros l (l1 & l2 & -> & H2 & ->). exact H2.
Qed.

Lemma st_jobs : jobs G' ≡ₚ jobs G.
Proof using All. assert (Hu := up_jobs _ _ _ _ _ _ st_updated). simpl in Hu. by rewrite !app_nil_r in Hu. Qed.

Lemma st_keep k y : (k, y) ∈ subs G -> k <> i -> (k, update i x y) ∈ subs G'.
Proof using All. intros Hk Hne. apply (up_old _ _ _ _ _ _ st_updated); [done..|]. by intros ?%elem_of_nil. Qed.

Lemma st_not_started : i ∉ started s.
Proof using All. intros Hi. assert (Hnd := v_live _ _ _ _ I). apply NoDup_app in Hnd as (_ & Hnd & _). apply (Hnd i); [apply st_i_queued|done]. Qed.

Lemma st_lookup w0 st0 : stacks s' !! w0 = Some st0 ->
  (w0 = w /\ st0 = mk_segment i [FRun t] :: st) \/ (w0 <> w /\ stacks s !! w0 = Some st0).
Proof using All.
  simpl. intros H. destruct (decide (w0 = w)) as [->|Hne]; [left|right].
  - rewrite list_lookup_insert_eq in H by (by eapply lookup_lt_Some). by simplify_eq.
  - by rewrite list_lookup_insert_ne in H.
Qed.

Lemma st_lookup_deque w0 d0 : deques s' !! w0 = Some d0 ->
  exists d1, deques s !! w0 = Some d1 /\ (d1 = d0 \/ d1 = (i, t) :: d0).
Proof using All.
  simpl. intros H. destruct (decide (w0 = v)) as [->|Hne].
  - rewrite list_lookup_insert_eq in H by (by eapply lookup_lt_Some). simplify_eq. eexists. split; [done|]. by right.
  - rewrite list_lookup_insert_ne in H by done. exists d0. auto.
Qed.

Lemma st_segments w0 st0 k fs : stacks s' !! w0 = Some st0 -> mk_segment k fs ∈ st0 ->
  (k = i /\ fs = [FRun t]) \/ (exists st1, stacks s !! w0 = Some st1 /\ mk_segment k fs ∈ st1) /\ k ∈ started s.
Proof using All.
  intros Hst Hk. assert (forall st1, stacks s !! w0 = Some st1 -> mk_segment k fs ∈ st1 -> k ∈ started s) as Hin.
  { intros st1 Hst1 Hk1. apply elem_of_flat. exists w0, st1. split; [done|]. apply (list_elem_of_fmap_2 sg_job _ _ Hk1). }
  apply st_lookup in Hst as [[-> ->]|[Hne Hst]]; [|right; split; [by exists st0|by eapply Hin]].
  apply elem_of_cons in Hk as [[= -> ->]|Hk]; [by left|]. right. split; [by exists st|by eapply Hin].
Qed.

Lemma steal_inv : inv root s' G' O'.
Proof using All.
  assert (Hi := st_not_started). split.
  - simpl. rewrite !length_insert. apply I.
  - rewrite <- (app_nil_r (trace s')). eapply leaves_trans; [apply I|apply st_updated].
  - destruct (v_shape _ _ _ _ I) as [g Hg]. unfold G'. rewrite Hg. simpl. by eexists.
  - rewrite st_jobs. apply I.
  - intros k. rewrite st_jobs. apply I.
  - intros w0 st0 k fs Hst Hk. destruct (st_segments _ _ _ _ Hst Hk) as [[-> ->]|[(st1 & Hst1 & Hk1) Hks]].
    + exists [KSeq t]. split; [by constructor|]. apply (up_same _ _ _ _ _ _ st_updated).
    + destruct (v_segment _ _ _ _ I _ _ _ _ Hst1 Hk1) as (c & Hc & Hs). exists (cupdate i x <$> c).
      split; [by apply frames_cupdate|]. rewrite <- update_plug. apply st_keep; [done|]. by intros ->.
  - intros w0 d0 k u Hd Hk. assert (k ∈ queued s') as Hkq.
    { apply elem_of_flat. exists w0, d0. split; [done|]. apply (list_elem_of_fmap_2 fst _ _ Hk). }
    destruct (st_lookup_deque _ _ Hd) as (d1 & Hd1 & Hor). apply (st_keep k (GTask u)).
    + apply (v_deque _ _ _ _ I w0 d1); [done|]. destruct Hor as [->| ->]; [done|by right].
    + intros ->. assert (Hnd := v_live _ _ _ _ I). rewrite st_queued in Hnd. simpl in Hnd. apply NoDup_cons in Hnd as [Hnd _].
      apply Hnd, elem_of_app. by left.
  - intros k y Hk Hy. assert (NoDup (jobs G')) as Hnd by (rewrite st_jobs; apply I).
    assert (k ∈ jobs G') as Hkj by (apply jobs_elem; by exists y). rewrite st_jobs in Hkj. apply jobs_elem in Hkj as [y0 Hy0].
    assert (y0 = GSkip) as -> by (by eapply (v_done _ _ _ _ I)). eapply subs_unique; [exact Hnd|exact Hy|].
    apply (st_keep k GSkip); [done|]. intros ->. apply (v_live_done _ _ _ _ I i); [apply elem_of_app; left; apply st_i_queued|done].
  - apply I.
  - rewrite st_live. apply I.
  - intros k. rewrite st_live. apply I.
  - intros k. rewrite st_live. apply I.
  - intros k. rewrite st_jobs, st_live. apply I.
  - intros w0 st0 d0 Hst Hd. destruct (st_lookup_deque _ _ Hd) as (d1 & Hd1 & Hor).
    assert (exists st1, stacks s !! w0 = Some st1 /\ lefts (stack_frames st0) = lefts (stack_frames st1)) as (st1 & Hst1 & ->).
    { apply st_lookup in Hst as [[-> ->]|[Hne Hst]]; [by exists st|by exists st0]. }
    destruct (v_own _ _ _ _ I w0 st1 d1 Hst1 Hd1) as [p ->]. destruct Hor as [->| ->]; [by exists p|].
    exists ((i, t) :: p). rewrite reverse_cons, <- app_assoc. done.
  - assert (Hnd := v_waiting _ _ _ _ I). unfold waiting_jobs, s' in *. simpl. rewrite (flat_insert _ _ w _ _ Hw).
    by rewrite (flat_split _ (stacks s) w _ Hw) in Hnd.
  - apply NoDup_app. split; [apply I|]. split; [|apply NoDup_singleton].
    intros k Hk ->%list_elem_of_singleton. by apply (v_order _ _ _ _ I) in Hk.
  - intros k. unfold O'. rewrite st_started, elem_of_app, list_elem_of_singleton, elem_of_cons, (v_order _ _ _ _ I). tauto.
  - intros w0 st0 Hst. apply st_lookup in Hst as [[-> ->]|[Hne Hst]].
    + assert (Hso := v_order_stack _ _ _ _ I w st Hw). constructor.
      * eapply sorted_impl_in; [|exact Hso]. intros a b _ _. apply later_snoc.
      * apply Forall_forall. intros k Hk. apply later_last, (v_order _ _ _ _ I). apply elem_of_flat. by exists w, st.
    + eapply sorted_impl_in; [|exact (v_order_stack _ _ _ _ I w0 st0 Hst)]. intros a b _ _. apply later_snoc.
  - intros w0 st0 k fs a Hst Hk Ha HO. destruct (st_segments _ _ _ _ Hst Hk) as [[-> ->]|[(st1 & Hst1 & Hk1) Hks]]; [by apply elem_of_nil in Ha|].
    apply elem_of_app in HO as [HO| ->%list_elem_of_singleton]; [by apply later_snoc, (v_order_frames _ _ _ _ I w0 st1 k fs)|].
    by apply later_last, (v_order _ _ _ _ I).
  - simpl. rewrite length_insert, Hb'. apply I.
Qed.
End steal.

(** ** Every step keeps the invariant *)

Lemma initial_inv workers root : 0 < workers -> inv root (initial workers root) (GPar GSkip 0 (GSeq GSkip root)) [0].
Proof.
  intros Hn. assert (Hs : forall w st, stacks (initial workers root) !! w = Some st -> st = [] \/ w = 0 /\ st = [mk_segment 0 [FRun root]]).
  { intros [|w] st; simpl; [intros [= <-]; by right|]. intros [-> _]%lookup_replicate. by left. }
  assert (Hd : forall w d, deques (initial workers root) !! w = Some d -> d = []).
  { intros w d. simpl. by intros [-> _]%lookup_replicate. }
  assert (Hst : started (initial workers root) = [0]).
  { unfold started. simpl. f_equal. rewrite fmap_replicate. by induction (pred workers). }
  assert (Hq : queued (initial workers root) = []) by (unfold queued; simpl; rewrite fmap_replicate; clear; induction workers as [|n IH]; [done|exact IH]).
  assert (Hwj : waiting_jobs (initial workers root) = []) by (unfold waiting_jobs; simpl; rewrite fmap_replicate; clear; induction (pred workers) as [|n IH]; [done|exact IH]).
  split; rewrite ?Hst, ?Hq, ?Hwj; simpl.
  - rewrite !length_replicate. destruct workers; [lia|done].
  - apply leaves_refl.
  - by eexists.
  - apply NoDup_singleton.
  - intros j ->%list_elem_of_singleton. simpl. lia.
  - intros w st j fs [->|[-> ->]]%Hs Hk; [by apply elem_of_nil in Hk|]. apply list_elem_of_singleton in Hk as [= -> ->].
    exists [KSeq root]. split; [by constructor|by left].
  - intros w d j t ->%Hd Hk. by apply elem_of_nil in Hk.
  - set_solver.
  - set_solver.
  - apply NoDup_singleton.
  - intros j ->%list_elem_of_singleton. lia.
  - set_solver.
  - intros j Hj. by left.
  - intros w st d [->|[-> ->]]%Hs ->%Hd; by exists [].
  - constructor.
  - apply NoDup_singleton.
  - done.
  - intros w st [->|[-> ->]]%Hs; [constructor|]. repeat constructor.
  - intros w st j fs i [->|[-> ->]]%Hs Hk Hi; [by apply elem_of_nil in Hk|]. apply list_elem_of_singleton in Hk as [= -> ->].
    by apply elem_of_nil in Hi.
  - rewrite !length_replicate. destruct workers; [lia|done].
Qed.

Lemma continue_ok root s G O w : inv root s G O -> step_ok root (continue w s).
Proof.
  intros I. unfold continue. destruct (stacks s !! w) as [[|[j fs] rest]|] eqn:Hw; [by left| |by left].
  destruct (inv_deque _ _ _ _ _ _ I Hw) as [d Hd]. destruct fs as [|[t|i t cv|i cv] k].
  - cbn [step_ok]. do 2 eexists. by apply (finish_inv root s G O).
  - assert (forall l : list A, gtraces GSkip l -> l = []) as Hskip by done. destruct t as [|a|t1 t2|t1 t2 cv].
    + unfold set_stack. rewrite <- (app_nil_r (trace s)). apply (run_step root s G O w j rest d I Hd TSkip [] [] k Hw).
      intros l ->. by exists [], [].
    + apply (run_step root s G O w j rest d I Hd (TAct a) [] [a] k Hw). intros l ->. by exists [], [a].
    + unfold set_stack. rewrite <- (app_nil_r (trace s)). apply (run_step root s G O w j rest d I Hd (TSeq t1 t2) [t1; t2] [] k Hw).
      intros l. simpl. intros (l1 & l2 & (l3 & l4 & -> & H4 & ->) & H2 & ->). exists [], (l4 ++ l2). split; [done|]. split; [|done]. by exists l4, l2.
    + by apply (pardo_ok root s G O w j rest d I Hd).
  - by apply (pardo_join_ok root s G O w j rest d I Hd).
  - case_bool_decide as Hi; [|by left]. apply (wait_ok root s G O w j rest d I Hd i cv k); [done..|].
    by apply (wait_deque root s G O w j rest d I Hd i cv k).
Qed.

(** A worker that looks for work has nothing of its own. *)
Lemma looks_deque root s G O w st d : inv root s G O -> stacks s !! w = Some st -> deques s !! w = Some d ->
  looks_for_work st w = true -> d = [].
Proof.
  intros I Hw Hd Hl. destruct (v_own _ _ _ _ I w st d Hw Hd) as [p Hp].
  assert (lefts (stack_frames st) = []) as He by (destruct st as [|[j [|[t|i t cv|i []] k]] st]; done).
  rewrite He in Hp. symmetry in Hp. apply app_eq_nil in Hp as [Hp _]. apply (f_equal reverse) in Hp. by rewrite reverse_involutive in Hp.
Qed.

Lemma get_job_ok root s G O w v st : inv root s G O -> stacks s !! w = Some st -> looks_for_work st w = true ->
  step_ok root (get_job w v s).
Proof.
  intros I Hw Hl. destruct (inv_deque _ _ _ _ _ _ I Hw) as [d Hd]. destruct (inv_bot _ _ _ _ _ _ I Hw) as [b Hb].
  unfold get_job, get_own_job. rewrite Hd, Hb, (looks_deque _ _ _ _ _ _ _ I Hw Hd Hl). cbn [last].
  unfold try_steal. destruct (Nat.eqb_spec w v) as [|Hne]; [by left|]. cbn [set_bot deques].
  destruct (deques s !! v) as [[|[i t] dv]|] eqn:Hv; [|  |by left].
  { cbn [step_ok]. do 2 eexists. by apply inv_set_bot. }
  unfold start_job. cbn [fst snd set_deque set_bot stacks done]. rewrite Hw. case_bool_decide as Hi.
  - exfalso. apply (v_live_done _ _ _ _ I i); [|done]. apply elem_of_app. left. apply elem_of_flat. eexists v, _. split; [done|]. by left.
  - cbn [step_ok]. do 2 eexists. by apply (steal_inv root s G O w v i t st dv I Hw Hv _ (length_insert _ _ _)).
Qed.

Lemma exec_ok root s G O l : inv root s G O -> step_ok root (exec l s).
Proof.
  intros I. destruct l as [w|w v]; simpl; [by eapply continue_ok|].
  destruct (stacks s !! w) as [st|] eqn:Hw; [|by left]. destruct (looks_for_work st w) eqn:Hl; [|by left].
  by eapply get_job_ok.
Qed.

Lemma reachable_inv workers root s : 0 < workers -> reachable workers root s -> exists G O, inv root s G O.
Proof.
  intros Hn. induction 1 as [|l s s' Hr IH Hex]; [do 2 eexists; by apply initial_inv|].
  destruct IH as (G & O & I). assert (Hok := exec_ok _ _ _ _ l I). by rewrite Hex in Hok.
Qed.
End fork_join.
