(* ===== verification/ForkJoinBound.v ===== *)
(** * Fork and join: the deques do not overflow

    Every job in a deque was spawned by a [par_do] whose left thunk still runs above the last
    job its worker took, so that the index [bot] of a deque is at most the number of those
    [par_do]s, and they are nested in each other.  If no thunk nests more of them than a deque
    has room for, no worker is aborted. *)

From S2P Require Import Prelude.
From stdpp Require Import sorting.
From S2P Require Import ForkJoin ForkJoinInv.

#[local] Open Scope nat_scope.

Section bound.
Context {A : Type}.
Implicit Types (t root : task A) (s : state A).

Definition frame_nesting (f : frame A) : nat :=
  match f with FRun t => nesting t | FLeft _ t _ => 1 `max` nesting t | FWait _ _ => 0 end.

(** However a call goes on, at most [D] of its [par_do]s will be pending. *)
Fixpoint nested (D : nat) (fs : list (frame A)) : Prop :=
  match fs with
  | [] => True
  | f :: k => length (lefts k) + frame_nesting f <= D /\ nested D k
  end.

(** The pending [par_do]s of the innermost call. *)
Definition pending (st : list (segment A)) : nat :=
  match st with [] => 0 | sg :: _ => length (lefts (sg_frames sg)) end.

Record bounded (D : nat) (s : state A) : Prop := {
  bd_bot w st b : stacks s !! w = Some st -> bots s !! w = Some b -> b <= pending st;
  bd_nested w st sg : stacks s !! w = Some st -> sg ∈ st -> nested D (sg_frames sg);
  bd_jobs w d p : deques s !! w = Some d -> p ∈ d -> nesting p.2 <= D;
}.

Lemma initial_bounded workers root : bounded (nesting root) (initial workers root).
Proof.
  split.
  - intros w st b _. simpl. intros [-> _]%lookup_replicate. lia.
  - intros [|w] st sg; simpl.
    + intros [= <-] ->%list_elem_of_singleton. simpl. lia.
    + intros [-> _]%lookup_replicate Hsg. by apply elem_of_nil in Hsg.
  - intros w d p. simpl. intros [-> _]%lookup_replicate Hp. by apply elem_of_nil in Hp.
Qed.

(** A new stack, with an index that it justifies. *)
Lemma bounded_stack D s w st st' b :
  bounded D s -> stacks s !! w = Some st -> b <= pending st' ->
  (forall sg, sg ∈ st' -> nested D (sg_frames sg)) -> bounded D (set_bot w b (set_stack w st' s)).
Proof.
  intros [B1 B2 B3] Hw Hb Hn. split; [| |exact B3].
  - intros w' st0 b0. simpl. destruct (decide (w' = w)) as [->|Hne].
    + rewrite list_lookup_insert_eq by (by eapply lookup_lt_Some). intros [= <-] Hb0.
      apply list_lookup_insert_Some in Hb0 as [(_ & <- & _)|[? _]]; [done|done].
    + rewrite !list_lookup_insert_ne by done. apply B1.
  - intros w' st0 sg. simpl. destruct (decide (w' = w)) as [->|Hne].
    + rewrite list_lookup_insert_eq by (by eapply lookup_lt_Some). intros [= <-]. apply Hn.
    + rewrite list_lookup_insert_ne by done. apply B2.
Qed.

(** A new deque, without new jobs but [new]. *)
Lemma bounded_deque D s w d d' (new : list (nat * task A)) :
  bounded D s -> deques s !! w = Some d -> (forall p, p ∈ d' -> p ∈ d \/ p ∈ new) ->
  (forall p, p ∈ new -> nesting p.2 <= D) -> bounded D (set_deque w d' s).
Proof.
  intros [B1 B2 B3] Hd Hd' Hnew. split; [exact B1|exact B2|].
  intros w' d0 p. simpl. destruct (decide (w' = w)) as [->|Hne].
  - rewrite list_lookup_insert_eq by (by eapply lookup_lt_Some). intros [= <-] [Hp|Hp]%Hd'; [by eapply B3|by apply Hnew].
  - rewrite list_lookup_insert_ne by done. apply B3.
Qed.

(** The frames of the innermost call change, and the index does not. *)
Lemma bounded_frames D s w j fs fs' rest :
  bounded D s -> stacks s !! w = Some (mk_segment j fs :: rest) ->
  length (lefts fs) <= length (lefts fs') -> (nested D fs -> nested D fs') ->
  bounded D (set_stack w (mk_segment j fs' :: rest) s).
Proof.
  intros [B1 B2 B3] Hw Hl Hn. split; [| |exact B3].
  - intros w' st0 b0. simpl. destruct (decide (w' = w)) as [->|Hne].
    + rewrite list_lookup_insert_eq by (by eapply lookup_lt_Some). intros [= <-] Hb.
      specialize (B1 w _ _ Hw Hb). simpl in *. lia.
    + rewrite list_lookup_insert_ne by done. apply B1.
  - intros w' st0 sg. simpl. destruct (decide (w' = w)) as [->|Hne].
    + rewrite list_lookup_insert_eq by (by eapply lookup_lt_Some). intros [= <-] [->|Hsg]%elem_of_cons.
      * apply Hn. apply (B2 w _ (mk_segment j fs) Hw). by left.
      * apply (B2 w _ sg Hw). by right.
    + rewrite list_lookup_insert_ne by done. apply B2.
Qed.

Lemma bounded_same D s s' :
  stacks s' = stacks s -> deques s' = deques s -> bots s' = bots s -> bounded D s -> bounded D s'.
Proof. intros E1 E2 E3 [B1 B2 B3]. split; rewrite ?E1, ?E2, ?E3; done. Qed.

(** Spawning the right thunk of a [par_do] *)
Lemma pardo_bounded D root s G O w t1 t2 c j k rest :
  D <= q_size -> inv root s G O -> bounded D s -> stacks s !! w = Some (mk_segment j (FRun (TPar t1 t2 c) :: k) :: rest) ->
  exists s', pardo w t1 t2 c j k rest s = Ok s' /\ bounded D s'.
Proof.
  intros HD I B Hw. destruct (inv_deque _ _ _ _ _ _ I Hw) as [d Hd]. destruct (inv_bot _ _ _ _ _ _ I Hw) as [b Hb].
  assert (nested D (FRun (TPar t1 t2 c) :: k)) as Hn by (apply (bd_nested _ _ B w _ (mk_segment j _) Hw); by left).
  assert (b <= length (lefts k)) as Hle by exact (bd_bot _ _ B w _ _ Hw Hb).
  destruct Hn as [Hn Hk]. simpl in Hn. unfold pardo, spawn. simpl. rewrite Hd, Hb.
  destruct (Nat.eqb_spec b q_size) as [->|_]; [lia|]. eexists. split; [done|].
  set (i := next_job s).
  assert (bounded D (set_deque w (d ++ [(i, t2)]) s)) as B'.
  { apply (bounded_deque D s w d _ [(i, t2)]); [done|done|intros p; by rewrite elem_of_app|].
    intros p ->%list_elem_of_singleton. simpl. lia. }
  eapply bounded_same; [| | |apply (bounded_stack D _ w _ (mk_segment j (FRun t1 :: FLeft i t2 c :: k) :: rest) (S b) B' Hw)]; [done..| |].
  - simpl. lia.
  - intros sg [->|Hsg]%elem_of_cons; [simpl; split_and!; [lia..|done]|].
    apply (bd_nested _ _ B w _ sg Hw). by right.
Qed.

Lemma elem_of_removelast {X} (p : X) l : p ∈ removelast l -> p ∈ l.
Proof.
  induction l as [|x [|y l] IH]; [done|by intros ?%elem_of_nil|]. change (removelast (x :: y :: l)) with (x :: removelast (y :: l)).
  intros [->|Hp]%elem_of_cons; [by left|]. right. by apply IH.
Qed.

(** The worker takes its own job, or there is none. *)
Lemma own_job_bounded D root s G O w j i t cv k rest p s' :
  inv root s G O -> bounded D s -> stacks s !! w = Some (mk_segment j (FLeft i t cv :: k) :: rest) ->
  get_own_job w s = Ok (p, s') ->
  exists b d', deques s !! w = Some d' /\ b <= length (lefts k) /\ (p = None -> b = 0) /\
    s' = set_bot w b (match p with Some _ => set_deque w (removelast d') s | None => s end).
Proof.
  intros I B Hw. destruct (inv_deque _ _ _ _ _ _ I Hw) as [d Hd]. destruct (inv_bot _ _ _ _ _ _ I Hw) as [b Hb].
  assert (b <= S (length (lefts k))) as Hle by exact (bd_bot _ _ B w _ _ Hw Hb).
  unfold get_own_job. rewrite Hd, Hb. destruct (last d) as [job|]; intros [= <- <-].
  - exists (if length d =? 1 then 0 else b - 1), d. destruct (length d =? 1); split_and!; (done || lia).
  - exists 0, d. split_and!; (done || lia).
Qed.

Lemma pardo_join_bounded D root s s' G O w i t cv j k rest :
  inv root s G O -> bounded D s -> stacks s !! w = Some (mk_segment j (FLeft i t cv :: k) :: rest) ->
  pardo_join w i t cv j k rest s = Ok s' -> bounded D s'.
Proof.
  intros I B Hw. assert (nested D (FLeft i t cv :: k)) as [Hn Hk] by (apply (bd_nested _ _ B w _ (mk_segment j _) Hw); by left).
  simpl in Hn. unfold pardo_join. destruct (get_own_job w s) as [[p s1]|] eqn:E; [|done].
  destruct (own_job_bounded D root s G O w j i t cv k rest p s1 I B Hw E) as (b & d & Hd & Hb & Hb0 & ->).
  assert (forall fs sg, nested D fs -> sg ∈ mk_segment j fs :: rest -> nested D (sg_frames sg)) as Hseg.
  { intros fs sg Hfs [->|Hsg]%elem_of_cons; [done|]. apply (bd_nested _ _ B w _ sg Hw). by right. }
  destruct p as [job|].
  - destruct (job.1 =? i); [|done]. intros [= <-].
    assert (bounded D (set_deque w (removelast d) s)) as B'.
    { apply (bounded_deque D s w d _ []); [done|done| |by intros p ?%elem_of_nil]. intros p Hp. left. by apply elem_of_removelast. }
    eapply bounded_same; [| | |apply (bounded_stack D _ w _ (mk_segment j (FRun t :: k) :: rest) b B' Hw)]; [done..|done|].
    intros sg. apply Hseg. simpl. split; [lia|done].
  - intros [= <-]. rewrite (Hb0 eq_refl).
    eapply bounded_same; [| | |apply (bounded_stack D _ w _ (mk_segment j (FWait i cv :: k) :: rest) 0 B Hw)]; [done..|simpl; lia|].
    intros sg. apply Hseg. simpl. split; [lia|done].
Qed.

Lemma continue_bounded D root s G O w :
  D <= q_size -> inv root s G O -> bounded D s ->
  continue w s <> Err Aborted /\ forall s', continue w s = Ok s' -> bounded D s'.
Proof.
  intros HD I B. unfold continue. destruct (stacks s !! w) as [[|[j fs] rest]|] eqn:Hw; [done| |done].
  assert (forall fs', length (lefts fs) <= length (lefts fs') -> (nested D fs -> nested D fs') ->
    bounded D (set_stack w (mk_segment j fs' :: rest) s)) as Hfs by (intros; by eapply bounded_frames).
  destruct fs as [|[[|a|t1 t2|t1 t2 cv]|i t cv|i cv] k].
  - split; [done|]. intros s' [= <-]. destruct B as [B1 B2 B3]. split; [| |exact B3].
    + intros w' st b. simpl. destruct (decide (w' = w)) as [->|Hne].
      * rewrite list_lookup_insert_eq by (by eapply lookup_lt_Some). intros [= <-] Hb.
        specialize (B1 w _ _ Hw Hb). simpl in B1. lia.
      * rewrite list_lookup_insert_ne by done. apply B1.
    + intros w' st sg. simpl. destruct (decide (w' = w)) as [->|Hne].
      * rewrite list_lookup_insert_eq by (by eapply lookup_lt_Some). intros [= <-] Hsg. apply (B2 w _ sg Hw). by right.
      * rewrite list_lookup_insert_ne by done. apply B2.
  - split; [done|]. intros s' [= <-]. apply Hfs; [done|by intros [_ Hk]].
  - split; [done|]. intros s' [= <-]. eapply bounded_same; [| | |apply (Hfs k)]; [done..|by intros [_ Hk]].
  - split; [done|]. intros s' [= <-]. apply Hfs; [done|]. simpl. intros [Hn Hk]. split_and!; [lia..|done].
  - destruct (pardo_bounded D root s G O w t1 t2 cv j k rest) as (s' & -> & B'); [done..|].
    split; [done|]. by intros s0 [= <-].
  - split; [|intros s'; by eapply pardo_join_bounded]. unfold pardo_join, get_own_job.
    destruct (deques s !! w); [|done]. destruct (bots s !! w); [|done]. destruct (last _); [|done]. by destruct (_ =? i).
  - case_bool_decide; [|done]. split; [done|]. intros s' [= <-]. apply Hfs; [simpl; lia|by intros [_ Hk]].
Qed.

(** A worker that looks for work has index 0 already. *)
Lemma looks_bot D root s G O w st : inv root s G O -> bounded D s -> stacks s !! w = Some st -> looks_for_work st w = true ->
  get_own_job w s = Ok (None, s) /\ set_bot w 0 s = s.
Proof.
  intros I B Hw Hl. destruct (inv_deque _ _ _ _ _ _ I Hw) as [d Hd]. destruct (inv_bot _ _ _ _ _ _ I Hw) as [b Hb].
  assert (b = 0) as ->.
  { assert (Hle := bd_bot _ _ B w _ _ Hw Hb). assert (pending st = 0) as Hp; [|lia].
    by destruct st as [|[j [|[t|i t cv|i []] k]] st]. }
  assert (set_bot w 0 s = s) as E by (unfold set_bot; rewrite list_insert_id by done; by destruct s).
  split; [|done]. unfold get_own_job. by rewrite Hd, Hb, (looks_deque _ _ _ _ _ _ _ I Hw Hd Hl), E.
Qed.

Lemma get_job_bounded D root s G O w v st : inv root s G O -> bounded D s ->
  stacks s !! w = Some st -> looks_for_work st w = true ->
  get_job w v s <> Err Aborted /\ forall s', get_job w v s = Ok s' -> bounded D s'.
Proof.
  intros I B Hw Hl. destruct (looks_bot _ _ _ _ _ _ _ I B Hw Hl) as [Eo Eb]. unfold get_job. rewrite Eo.
  unfold try_steal. destruct (w =? v); [done|]. destruct (deques s !! v) as [[|[i t] d]|] eqn:Hv; [|  |done].
  { split; [done|]. by intros s' [= <-]. }
  unfold start_job. cbn [fst snd set_deque stacks done]. rewrite Hw. case_bool_decide; [done|].
  split; [done|]. intros s' [= <-]. assert (B' : bounded D (set_deque v d s)).
  { apply (bounded_deque D s v ((i, t) :: d) d []); [done|exact Hv| |by intros p ?%elem_of_nil]. intros p Hp. left. by right. }
  rewrite <- Eb. eapply bounded_same; [| | |apply (bounded_stack D _ w _ (mk_segment i [FRun t] :: st) 0 B' Hw)]; [done..|simpl; lia|].
  intros sg [->|Hsg]%elem_of_cons; [|by apply (bd_nested _ _ B w _ sg Hw)]. simpl. split; [|done].
  apply (bd_jobs _ _ B v _ (i, t) Hv). by left.
Qed.

Lemma exec_bounded D root s G O l : D <= q_size -> inv root s G O -> bounded D s ->
  exec l s <> Err Aborted /\ forall s', exec l s = Ok s' -> bounded D s'.
Proof.
  intros HD I B. destruct l as [w|w v]; simpl; [by eapply continue_bounded|].
  destruct (stacks s !! w) as [st|] eqn:Hw; [|done]. destruct (looks_for_work st w) eqn:Hl; [|done].
  by eapply get_job_bounded.
Qed.

(** What holds of every state that is reached *)
Lemma reachable_bounded workers root s : 0 < workers -> nesting root <= q_size -> reachable workers root s ->
  exists G O, inv root s G O /\ bounded (nesting root) s.
Proof.
  intros Hn HD. induction 1 as [|l s s' Hr IH Hex].
  - do 2 eexists. split; [by apply initial_inv|apply initial_bounded].
  - destruct IH as (G & O & I & B). assert (Hok := exec_ok _ _ _ _ l I). rewrite Hex in Hok.
    destruct Hok as (G' & O' & I'). exists G', O'. split; [done|].
    by apply (exec_bounded _ _ _ _ _ l HD I B).
Qed.
End bound.
