(* ===== verification/ForkJoinCorrect.v ===== *)
(** * Fork and join: what a pool of workers achieves

    Every step makes something smaller ([measure]), and as long as the thunk has not returned
    some worker can go on: the worker with the job that was started last waits for nobody.
    At the end come the parallel loops of [scheduler.h] and [parallel.h] as thunks. *)

From S2P Require Import Prelude.
From stdpp Require Import sorting.
From S2P Require Import ForkJoin ForkJoinInv ForkJoinBound.

#[local] Open Scope nat_scope.

Section measure.
Context {A : Type}.
Implicit Types (t root : task A) (s : state A).

Fixpoint task_size t : nat :=
  match t with
  | TSkip | TAct _ => 1
  | TSeq t1 t2 => S (task_size t1 + task_size t2)
  | TPar t1 t2 _ => 5 + task_size t1 + task_size t2
  end.

Definition frame_size (f : frame A) : nat :=
  match f with FRun t => task_size t | FLeft _ _ _ => 2 | FWait _ _ => 1 end.
Definition frames_size (fs : list (frame A)) : nat := list_sum (frame_size <$> fs).
Definition segment_size (sg : segment A) : nat := S (frames_size (sg_frames sg)).
Definition stack_size (st : list (segment A)) : nat := list_sum (segment_size <$> st).
Definition deque_size (d : list (nat * task A)) : nat := list_sum ((fun p => 2 + task_size p.2) <$> d).

Definition measure s : nat := list_sum (stack_size <$> stacks s) + list_sum (deque_size <$> deques s).

Lemma task_size_pos t : 0 < task_size t.
Proof. destruct t; simpl; lia. Qed.

Lemma deque_size_app d d' : deque_size (d ++ d') = deque_size d + deque_size d'.
Proof. unfold deque_size. by rewrite fmap_app, list_sum_app. Qed.

Lemma deque_size_cons p d : deque_size (p :: d) = 2 + task_size p.2 + deque_size d.
Proof. done. Qed.

Lemma deque_size_1 p : deque_size [p] = 2 + task_size p.2.
Proof. rewrite deque_size_cons. unfold deque_size. simpl. lia. Qed.

Lemma measure_stack w st st' s : stacks s !! w = Some st ->
  measure (set_stack w st' s) + stack_size st = measure s + stack_size st'.
Proof. intros Hw. unfold measure. simpl. assert (Hs := sum_insert stack_size _ w st st' Hw). lia. Qed.

Lemma measure_deque w d d' s : deques s !! w = Some d ->
  measure (set_deque w d' s) + deque_size d = measure s + deque_size d'.
Proof. intros Hw. unfold measure. simpl. assert (Hs := sum_insert deque_size _ w d d' Hw). lia. Qed.

Lemma stack_size_cons j fs (rest : list (segment A)) : stack_size (mk_segment j fs :: rest) = S (frames_size fs) + stack_size rest.
Proof. done. Qed.

Lemma frames_size_cons f fs : frames_size (f :: fs) = frame_size f + frames_size fs.
Proof. done. Qed.

Lemma own_job_measure w s p s' : get_own_job w s = Ok (p, s') ->
  stacks s' = stacks s /\
  match p with Some job => measure s' + 2 + task_size job.2 = measure s | None => s' = set_bot w 0 s end.
Proof.
  unfold get_own_job. destruct (deques s !! w) as [d|] eqn:Hd; [|done]. destruct (bots s !! w); [|done].
  destruct (last d) as [job|] eqn:El.
  - intros [= <- <-]. split; [done|]. apply last_Some in El as [d0 ->]. rewrite removelast_last.
    assert (Hm := measure_deque w _ d0 s Hd). rewrite deque_size_app, deque_size_1 in Hm.
    unfold measure in *. simpl in *. lia.
  - by intros [= <- <-].
Qed.

Lemma steal_measure w v s p s' : try_steal w v s = Ok (p, s') ->
  stacks s' = stacks s /\
  match p with Some job => measure s' + 2 + task_size job.2 = measure s | None => s' = s end.
Proof.
  unfold try_steal. destruct (w =? v); [done|]. destruct (deques s !! v) as [[|job d]|] eqn:Hd; [by intros [= <- <-]| |done].
  intros [= <- <-]. split; [done|]. assert (Hm := measure_deque v _ d s Hd). rewrite deque_size_cons in Hm. lia.
Qed.

Lemma start_measure w job s s' st : stacks s !! w = Some st -> start_job w job s = Ok s' -> measure s' = measure s + 1 + task_size job.2.
Proof.
  intros Hw. unfold start_job. case_bool_decide; [done|]. rewrite Hw. intros [= <-].
  assert (Hm := measure_stack w st (mk_segment job.1 [FRun job.2] :: st) s Hw). rewrite stack_size_cons in Hm.
  unfold frames_size in Hm. simpl in Hm. lia.
Qed.

(** A worker that takes a job *)
Lemma get_job_measure D root w v s s' G O st : inv root s G O -> bounded D s ->
  stacks s !! w = Some st -> looks_for_work st w = true -> get_job w v s = Ok s' -> s' = s \/ measure s' < measure s.
Proof.
  intros I B Hw Hl. destruct (looks_bot _ _ _ _ _ _ _ I B Hw Hl) as [Eo _]. unfold get_job. rewrite Eo.
  destruct (try_steal w v s) as [[p s2]|] eqn:Et; [|done]. apply steal_measure in Et as [Hst2 Ht].
  destruct p as [job|]; [|intros [= <-]; by left].
  intros Hj. right. eapply start_measure in Hj; [|by rewrite Hst2]. lia.
Qed.

(** The job that [pardo] finds is its own. *)
Lemma own_job_right root s s' G O w j i t cv k rest job : inv root s G O ->
  stacks s !! w = Some (mk_segment j (FLeft i t cv :: k) :: rest) -> get_own_job w s = Ok (Some job, s') -> job = (i, t).
Proof.
  intros I Hw. unfold get_own_job. destruct (deques s !! w) as [d|] eqn:Hd; [|done]. destruct (bots s !! w); [|done].
  destruct (last d) as [job'|] eqn:El; [|done]. intros [= -> _]. destruct (v_own _ _ _ _ I w _ _ Hw Hd) as [p Hp].
  apply last_Some in El as [d0 ->]. rewrite reverse_snoc in Hp. by injection Hp as <- _.
Qed.

Lemma continue_measure root s s' G O w : inv root s G O -> continue w s = Ok s' -> measure s' < measure s.
Proof.
  intros I.
  unfold continue. destruct (stacks s !! w) as [[|[j fs] rest]|] eqn:Hw; [done| |done].
  assert (forall s0 fs', stacks s0 = stacks s -> measure s0 = measure s -> frames_size fs' < frames_size fs ->
    measure (set_stack w (mk_segment j fs' :: rest) s0) < measure s) as Hfs.
  { intros s0 fs' Hs0 Hm0 Hlt. assert (Hm := measure_stack w (mk_segment j fs :: rest) (mk_segment j fs' :: rest) s0).
    rewrite Hs0 in Hm. specialize (Hm Hw). rewrite !stack_size_cons in Hm. lia. }
  destruct fs as [|[[|a|t1 t2|t1 t2 cv]|i t cv|i cv] k].
  - intros [= <-]. assert (Hm := measure_stack w (mk_segment j [] :: rest) rest s Hw). rewrite stack_size_cons in Hm.
    unfold measure, frames_size in *. simpl in *. lia.
  - intros [= <-]. apply Hfs; rewrite ?frames_size_cons; simpl; [done..|lia].
  - intros [= <-]. apply Hfs; rewrite ?frames_size_cons; simpl; [done..|lia].
  - intros [= <-]. apply Hfs; rewrite ?frames_size_cons; simpl; [done..|lia].
  - unfold pardo, spawn. simpl. destruct (deques s !! w) as [d|] eqn:Hd; [|done]. destruct (bots s !! w) as [b|]; [|done].
    destruct (b =? q_size); [done|]. intros [= <-].
    set (s1 := set_stack w _ (fresh_job s)).
    assert (Hm1 := measure_stack w _ (mk_segment j (FRun t1 :: FLeft (next_job s) t2 cv :: k) :: rest) (fresh_job s) Hw).
    assert (Hm2 := measure_deque w d (d ++ [(next_job s, t2)]) s1 Hd). fold s1 in Hm1. rewrite deque_size_app, deque_size_1 in Hm2.
    rewrite !stack_size_cons, !frames_size_cons in Hm1. unfold measure at 2 in Hm1. simpl in *.
    unfold measure in *. simpl in *. lia.
  - unfold pardo_join. destruct (get_own_job w s) as [[[job|] s1]|] eqn:Eo; [| |done].
    + assert (job = (i, t)) as -> by (eapply own_job_right; [exact I|exact Hw|exact Eo]). apply own_job_measure in Eo as [Hst Ho]. cbn [fst].
      rewrite Nat.eqb_refl. intros [= <-].
      assert (Hm := measure_stack w (mk_segment j (FLeft i t cv :: k) :: rest) (mk_segment j (FRun t :: k) :: rest) s1).
      rewrite Hst in Hm. specialize (Hm Hw). rewrite !stack_size_cons, !frames_size_cons in Hm. simpl in *. lia.
    + apply own_job_measure in Eo as [_ ->]. intros [= <-]. apply Hfs; rewrite ?frames_size_cons; simpl; [done..|lia].
  - case_bool_decide; [|done]. intros [= <-]. apply Hfs; rewrite ?frames_size_cons; simpl; [done..|lia].
Qed.

(** A step makes the state smaller, unless a worker looks for work in vain. *)
Lemma exec_measure D root s s' G O l : inv root s G O -> bounded D s -> exec l s = Ok s' -> s' = s \/ measure s' < measure s.
Proof.
  intros I B. destruct l as [w|w v]; simpl; [intros Hc; right; by eapply continue_measure|].
  destruct (stacks s !! w) as [st|] eqn:Hw; [|done]. destruct (looks_for_work st w) eqn:Hl; [|done]. by eapply get_job_measure.
Qed.

(** ** Somebody can go on *)

(** The job that was started last waits for nobody. *)
Lemma last_job_continues D root s G O k : D <= q_size -> inv root s (A := A) G O -> bounded D s -> last O = Some k ->
  exists w s', continue w s = Ok s'.
Proof.
  intros HD I B Hk. apply last_Some in Hk as [O0 ->]. assert (k ∈ started s) as Hst by (apply (v_order _ _ _ _ I); set_solver).
  apply elem_of_flat in Hst as (w & st & Hw & Hkst). exists w.
  assert (forall a, ~ later (O0 ++ [k]) a k) as Hnl.
  { intros a (l1 & l2 & He & Hk1 & Ha). assert (Hnd := v_order_nodup _ _ _ _ I). rewrite He in Hnd.
    apply NoDup_app in Hnd as (_ & Hnd & _). apply (Hnd k Hk1). destruct l2 as [|b l2 _] using rev_ind; [by apply elem_of_nil in Ha|].
    rewrite app_assoc in He. apply app_inj_tail in He as [_ ->]. set_solver. }
  assert (exists fs rest, st = mk_segment k fs :: rest) as (fs & rest & ->).
  { destruct st as [|[j fs] rest]; [by apply elem_of_nil in Hkst|]. assert (Hso := v_order_stack _ _ _ _ I w _ Hw).
    apply elem_of_cons in Hkst as [->|Hkst]; [by exists fs, rest|].
    apply StronglySorted_inv in Hso as [_ Hso]. eapply Forall_forall in Hso; [|exact Hkst]. by apply Hnl in Hso. }
  destruct (inv_deque _ _ _ _ _ _ I Hw) as [d Hd]. destruct (inv_bot _ _ _ _ _ _ I Hw) as [b Hb].
  assert (Hok := continue_ok _ _ _ _ w I). destruct (continue_bounded D root s G _ w HD I B) as [Hna _].
  destruct (continue w s) as [s'|e] eqn:Ec; [by exists s'|]. exfalso. simpl in Hok.
  assert (e = Blocked) as -> by (destruct Hok as [| ->]; done). clear Hok Hna. revert Ec. unfold continue. rewrite Hw.
  destruct fs as [|[[|a|t1 t2|t1 t2 cv]|i t cv|i cv] k']; try done.
  - unfold pardo, spawn. simpl. rewrite Hd, Hb. by destruct (b =? q_size).
  - unfold pardo_join. destruct (get_own_job w s) as [[[job|] s1]|e] eqn:Eo; [by destruct (_ =? _)|done|].
    unfold get_own_job in Eo. rewrite Hd, Hb in Eo. by destruct (last d).
  - case_bool_decide as Hi; [done|]. intros _.
    assert (i ∈ frame_jobs (stack_frames (mk_segment k (FWait i cv :: k') :: rest))) as Hif by by left.
    assert (i ∈ jobs G) as Hij by (by eapply frame_jobs_tree).
    destruct (v_jobs _ _ _ _ I i Hij) as [Hl|]; [|done]. apply elem_of_app in Hl as [Hq|Hs].
    + apply elem_of_flat in Hq as (w' & d' & Hd' & Hi').
      assert (exists st', stacks s !! w' = Some st') as [st' Hw'].
      { apply lookup_lt_is_Some_2. rewrite (v_length _ _ _ _ I). by eapply lookup_lt_Some. }
      destruct (v_own _ _ _ _ I w' st' d' Hw' Hd') as [p Hp].
      assert (i ∈ frame_jobs (stack_frames st')) as Hi2.
      { assert (i ∈ (lefts (stack_frames st')).*1) as Hl.
        { rewrite Hp, fmap_app, elem_of_app, fmap_reverse. left. by apply elem_of_reverse. }
        revert Hl. clear. induction (stack_frames st') as [|[t|j t c|j c] fs IH]; simpl; [by intros ?%elem_of_nil|done| |by intros ?%elem_of_nil].
        rewrite !elem_of_cons. naive_solver. }
      assert (w' = w) as -> by (eapply flat_disjoint; [exact (v_waiting _ _ _ _ I)|exact Hw'|exact Hw|exact Hi2|exact Hif]).
      simplify_eq. simpl in Hp. symmetry in Hp. apply app_eq_nil in Hp as [Hp _].
      apply (f_equal reverse) in Hp. rewrite reverse_involutive in Hp. rewrite Hp in Hi'. by apply elem_of_nil in Hi'.
    + apply (v_order _ _ _ _ I) in Hs. apply (Hnl i).
      apply (v_order_frames _ _ _ _ I w _ k (FWait i cv :: k') i Hw); [by left|by left|done].
Qed.
End measure.

(** ** The pool *)

Section pool.
Context {A : Type}.
Implicit Types (t root : task A) (s : state A).

(** Effective steps, and how many *)
Inductive steps : nat -> state A -> state A -> Prop :=
  | steps_0 s : steps 0 s s
  | steps_S n l s s1 s2 : exec l s = Ok s1 -> s1 <> s -> steps n s1 s2 -> steps (S n) s s2.

Lemma steps_reachable workers root n s s' : reachable workers root s -> steps n s s' -> reachable workers root s'.
Proof. intros Hr. induction 1 as [|n l s s1 s2 Hex _ _ IH]; [done|]. apply IH. by eapply reach_step. Qed.

(** When the first call has returned, nothing is left. *)
Lemma done_empty root s G O : inv root s G O -> 0 ∈ done s ->
  traces root (trace s) /\ queued s ++ started s = [].
Proof.
  intros I H0. destruct (v_shape _ _ _ _ I) as [g ->].
  assert (g = GTask TSkip) as -> by (apply (v_done _ _ _ _ I 0); [done|by left]). split.
  - assert (Hl := v_leaves _ _ _ _ I []). rewrite app_nil_r in Hl. destruct Hl as (l1 & l2 & -> & Hl2 & Hs).
    + exists [], []. repeat split. constructor.
    + apply shuffle_nil_l_inv in Hs as ->. destruct Hl2 as (l3 & l4 & -> & H4 & ->). done.
  - assert (forall k, k ∉ queued s ++ started s) as Hn; [|by apply elem_of_nil_inv].
    intros k Hk. apply (v_live_done _ _ _ _ I k Hk). assert (k ∈ jobs (GPar (A := A) (GTask TSkip) 0 (GTask TSkip))) as Hj.
    { apply elem_of_app in Hk as [Hk|Hk]; apply elem_of_flat in Hk as (w & st & Hst & Hk);
        apply list_elem_of_fmap in Hk as ([k' fs] & -> & Hk); apply jobs_elem.
      - eexists. by eapply (v_deque _ _ _ _ I).
      - destruct (v_segment _ _ _ _ I _ _ _ _ Hst Hk) as (c & _ & Hc). by eexists. }
    by apply list_elem_of_singleton in Hj as ->.
Qed.

Lemma flat_nil {X Y} (f : X -> list Y) (l : list X) w a : mjoin (f <$> l) = [] -> l !! w = Some a -> f a = [].
Proof.
  intros He Hw. assert (Hp := flat_split f l w a Hw). rewrite He in Hp. apply Permutation_nil in Hp.
  by apply app_eq_nil in Hp as [? _].
Qed.

(** C29: [par_do] on a pool of work-stealing workers, for every thunk that nests at most 1024
    [par_do]s on the left (what a deque has room for) and every interleaving: the assertions of
    the code hold, no deque overflows and a step fails only because it has to wait; and when the
    thunk has returned, its actions have run, each exactly once and in an order that the nesting of
    [par_do]s allows, and no job is left on a stack or in a deque. *)
Theorem fork_join_correct workers root s : 0 < workers -> nesting root <= q_size -> reachable workers root s ->
  (forall l e, exec l s = Err e -> e = Blocked) /\
  (0 ∈ done s -> traces root (trace s) /\
    (forall w st, stacks s !! w = Some st -> st = []) /\ (forall w d, deques s !! w = Some d -> d = [])).
Proof.
  intros Hn HD Hr. destruct (reachable_bounded _ _ _ Hn HD Hr) as (G & O & I & B). split.
  - intros l e He. assert (Hok := exec_ok _ _ _ _ l I). destruct (exec_bounded _ _ _ _ _ l HD I B) as [Hna _].
    rewrite He in Hok, Hna. by destruct Hok as [| ->].
  - intros H0. destruct (done_empty _ _ _ _ I H0) as [Ht He]. split; [done|]. apply app_eq_nil in He as [Hq Hst]. split.
    + intros w st Hw. apply (flat_nil owners _ _ _ Hst) in Hw. by apply fmap_nil_inv in Hw.
    + intros w d Hw. apply (flat_nil (fun d => d.*1) _ _ _ Hq) in Hw. by apply fmap_nil_inv in Hw.
Qed.

Lemma steps_measure D root n s s' G O : D <= q_size -> inv root s G O -> bounded D s -> steps n s s' -> n + measure s' <= measure s.
Proof.
  intros HD I B Hs. revert G O I B. induction Hs as [|n l s s1 s2 Hex Hne _ IH]; intros G O I B; [done|].
  assert (Hok := exec_ok _ _ _ _ l I). rewrite Hex in Hok. destruct Hok as (G' & O' & I').
  specialize (IH _ _ I' (proj2 (exec_bounded _ _ _ _ _ l HD I B) _ Hex)).
  destruct (exec_measure _ _ _ _ _ _ _ I B Hex); [done|lia].
Qed.

Lemma progress workers root s : 0 < workers -> nesting root <= q_size -> reachable workers root s -> 0 ∉ done s ->
  exists w s', continue w s = Ok s'.
Proof.
  intros Hn HD Hr H0. destruct (reachable_bounded _ _ _ Hn HD Hr) as (G & O & I & B).
  assert (exists k, last O = Some k) as [k Hk]; [|by eapply last_job_continues].
  destruct (v_shape _ _ _ _ I) as [g Hg]. assert (0 ∈ jobs G) as Hj by (rewrite Hg; by left).
  destruct (last O) as [k|] eqn:El; [by exists k|exfalso]. apply last_None in El as ->.
  assert (started s = []) as Hst.
  { apply elem_of_nil_inv. intros k. rewrite <- (v_order _ _ _ _ I). by intros ?%elem_of_nil. }
  destruct (v_jobs _ _ _ _ I 0 Hj) as [Hl|]; [|done]. rewrite Hst, app_nil_r in Hl. apply elem_of_flat in Hl as (w & d & Hd & Hin).
  assert (exists st, stacks s !! w = Some st) as [st Hw].
  { apply lookup_lt_is_Some_2. rewrite (v_length _ _ _ _ I). by eapply lookup_lt_Some. }
  destruct (v_own _ _ _ _ I w st d Hw Hd) as [p Hp]. apply (flat_nil owners _ _ _ Hst), fmap_nil_inv in Hw as ->.
  symmetry in Hp. apply app_eq_nil in Hp as [Hp _]. apply (f_equal reverse) in Hp. rewrite reverse_involutive in Hp.
  rewrite Hp in Hin. by apply elem_of_nil in Hin.
Qed.

Lemma steps_complete workers root n s : 0 < workers -> nesting root <= q_size -> measure s <= n -> reachable workers root s ->
  exists m s', steps m s s' /\ 0 ∈ done s'.
Proof.
  intros Hn HD. revert s. induction n as [|n IH]; intros s Hm Hr.
  - destruct (decide (0 ∈ done s)); [exists 0, s; split; [constructor|done]|].
    destruct (progress _ _ _ Hn HD Hr) as (w & s' & Hc); [done|]. destruct (reachable_inv _ _ _ Hn Hr) as (G & O & I).
    apply (continue_measure _ _ _ _ _ _ I) in Hc. lia.
  - destruct (decide (0 ∈ done s)); [exists 0, s; split; [constructor|done]|].
    destruct (progress _ _ _ Hn HD Hr) as (w & s1 & Hc); [done|]. destruct (reachable_inv _ _ _ Hn Hr) as (G & O & I).
    assert (Hlt := continue_measure _ _ _ _ _ _ I Hc). destruct (IH s1) as (m & s' & Hs & H0).
    + lia.
    + by apply (reach_step _ _ (LContinue w) s).
    + exists (S m), s'. split; [|done]. apply (steps_S _ (LContinue w) s s1); [done| |done]. intros ->. lia.
Qed.

(** C30: the pool neither gets stuck nor runs forever, for every thunk that nests at most 1024
    [par_do]s on the left (beyond, a worker may be aborted) and every interleaving: until the thunk
    has returned some worker can go on without stealing, every run has a bounded number of
    steps but for vain attempts to steal, and it can always be continued until the thunk has
    returned. *)
Theorem fork_join_terminates workers root s : 0 < workers -> nesting root <= q_size -> reachable workers root s ->
  (0 ∉ done s -> exists w s', continue w s = Ok s') /\
  (forall n s', steps n s s' -> n <= measure s) /\
  (exists n s', steps n s s' /\ 0 ∈ done s').
Proof.
  intros Hn HD Hr. split; [by eapply progress|]. split; [|by apply (steps_complete workers root (measure s))].
  intros n s' Hs. destruct (reachable_bounded _ _ _ Hn HD Hr) as (G & O & I & B).
  assert (Hm := steps_measure _ _ _ _ _ _ _ HD I B Hs). lia.
Qed.
End pool.

(** ** Parallel loops

    The loops of [fork_join_scheduler] and of [parallel.h], with a thunk [f i] for each index.
    [clock k] says whether round [k] of [get_granularity] takes less than 1000 ticks. *)

Section loops.
Context {A : Type} (f : nat -> task A).

(** [for (i = start; i < start + n; i++) f(i)] *)
Fixpoint loop (start n : nat) : task A :=
  match n with O => TSkip | S n => TSeq (f start) (loop (S start) n) end.

(** Returns how many iterations it has run.  A round runs at least one. *)
Fixpoint get_granularity (clock : nat -> bool) (fuel k start end_ done sz : nat) : option (task A * nat) :=
  match fuel with
  | O => None
  | S fuel =>
      let sz := sz `min` (end_ - (start + done)) in
      let t := loop (start + done) sz in
      let done := done + sz in
      let sz := sz * 2 in
      if clock k && (done <? end_ - start) then
        '(t', done) ← get_granularity clock fuel (S k) start end_ done sz; Some (TSeq t t', done)
      else Some (t, done)
  end.

(** Each half is smaller. *)
Fixpoint parfor_ (fuel start end_ granularity : nat) (conservative : bool) : option (task A) :=
  match fuel with
  | O => None
  | S fuel =>
      if end_ - start <=? granularity then Some (loop start (end_ - start))
      else
        let n := end_ - start in
        let mid := start + (9 * (n + 1)) / 16 in
        left ← parfor_ fuel start mid granularity conservative;
        right ← parfor_ fuel mid end_ granularity conservative;
        Some (TPar left right conservative)
  end.

Definition parfor (num_threads : nat) (clock : nat -> bool) (start end_ granularity : nat) (conservative : bool) : option (task A) :=
  if end_ <=? start then Some TSkip
  else if granularity =? 0 then
    '(t, done) ← get_granularity clock (end_ - start) 0 start end_ 0 1;
    let granularity := done `max` ((end_ - start) / (128 * num_threads)) in
    let start := start + done in
    t' ← parfor_ (S (end_ - start)) start end_ granularity conservative;
    Some (TSeq t t')
  else parfor_ (S (end_ - start)) start end_ granularity conservative.

Definition parallel_for (num_threads : nat) (clock : nat -> bool) (start end_ granularity : nat) (conservative : bool) : option (task A) :=
  if start + 1 =? end_ then Some (f start)
  else if end_ - start <=? granularity then Some (loop start (end_ - start))
  else if start <? end_ then parfor num_threads clock start end_ granularity conservative
  else Some TSkip.
End loops.

(** With the index as the action: *)
Section indices.
#[local] Abbreviation act := (fun i : nat => TAct i).

Lemma shuffle_perm {A} (l1 l2 l : list A) : shuffle l1 l2 l -> l ≡ₚ l1 ++ l2.
Proof. induction 1; simpl; [done|by f_equiv|]. rewrite <- Permutation_middle. by f_equiv. Qed.

Lemma loop_traces start n l : traces (loop act start n) l -> l = seq start n.
Proof.
  revert start l. induction n as [|n IH]; intros start l; simpl; [done|].
  intros (l1 & l2 & -> & H2 & ->). by rewrite (IH _ _ H2).
Qed.

Lemma parfor__ok fuel start end_ g c : 0 < g -> end_ - start < fuel ->
  exists t, parfor_ act fuel start end_ g c = Some t /\ forall l, traces t l -> l ≡ₚ seq start (end_ - start).
Proof.
  intros Hg. revert start end_. induction fuel as [|fuel IH]; intros start end_ Hf; [lia|]. cbn [parfor_].
  destruct (Nat.leb_spec (end_ - start) g) as [Hle|Hgt].
  - eexists. split; [done|]. intros l Hl%loop_traces. by rewrite Hl.
  - cbv zeta. set (mid := start + 9 * (end_ - start + 1) / 16).
    assert (start < mid < end_) as Hmid.
    { unfold mid. assert (9 * (end_ - start + 1) / 16 < end_ - start) by (apply Nat.Div0.div_lt_upper_bound; lia).
      assert (0 < 9 * (end_ - start + 1) / 16) by (apply Nat.div_str_pos; lia). lia. }
    destruct (IH start mid) as (t1 & -> & H1); [lia|]. destruct (IH mid end_) as (t2 & -> & H2); [lia|].
    cbn [mbind option_bind]. eexists. split; [done|]. intros l (l1 & l2 & Hl1 & Hl2 & Hs%shuffle_perm).
    rewrite Hs, (H1 _ Hl1), (H2 _ Hl2). replace (end_ - start) with ((mid - start) + (end_ - mid)) by lia.
    rewrite seq_app. by replace (start + (mid - start)) with mid by lia.
Qed.

Lemma get_granularity_ok clock fuel k start end_ d0 sz : d0 < end_ - start -> 0 < sz -> end_ - start - d0 <= fuel ->
  exists t d, get_granularity act clock fuel k start end_ d0 sz = Some (t, d) /\ d0 < d <= end_ - start /\
    forall l, traces t l -> l = seq (start + d0) (d - d0).
Proof.
  revert k d0 sz. induction fuel as [|fuel IH]; intros k d0 sz Hd Hsz Hf; [lia|]. cbn [get_granularity]. cbv zeta.
  set (n := sz `min` (end_ - (start + d0))).
  destruct (clock k && (d0 + n <? end_ - start)) eqn:E.
  - apply andb_true_iff in E as [_ E%Nat.ltb_lt].
    destruct (IH (S k) (d0 + n) (n * 2)) as (t & d & -> & Hd' & Ht); [lia..|]. cbn [mbind option_bind].
    eexists _, d. split; [done|]. split; [lia|]. intros l (l1 & l2 & Hl1%loop_traces & Hl2%Ht & ->). rewrite Hl1, Hl2.
    replace (d - d0) with (n + (d - (d0 + n))) by lia. rewrite seq_app. by rewrite Nat.add_assoc.
  - eexists _, _. split; [done|]. split; [lia|]. intros l Hl%loop_traces. rewrite Hl. f_equal. lia.
Qed.

Lemma parfor_ok workers clock start end_ g c : 0 < workers ->
  exists t, parfor act workers clock start end_ g c = Some t /\ forall l, traces t l -> l ≡ₚ seq start (end_ - start).
Proof.
  intros Hw. unfold parfor. destruct (Nat.leb_spec end_ start) as [Hle|Hlt].
  { eexists. split; [done|]. intros l ->. by replace (end_ - start) with 0 by lia. }
  destruct (Nat.eqb_spec g 0) as [->|Hg]; [|apply parfor__ok; lia].
  destruct (get_granularity_ok clock (end_ - start) 0 start end_ 0 1) as (t & d & -> & Hd & Ht); [lia..|].
  cbn [mbind option_bind].
  destruct (parfor__ok (S (end_ - (start + d))) (start + d) end_ (d `max` ((end_ - start) / (128 * workers))) c) as (t' & -> & Ht'); [lia..|].
  cbn [mbind option_bind]. eexists. split; [done|]. intros l (l1 & l2 & Hl1%Ht & Hl2%Ht' & ->). rewrite Hl1, Hl2.
  rewrite Nat.add_0_r, Nat.sub_0_r. replace (end_ - start) with (d + (end_ - (start + d))) by lia. by rewrite seq_app.
Qed.

Lemma parallel_for_ok workers clock start end_ g c : 0 < workers ->
  exists t, parallel_for act workers clock start end_ g c = Some t /\ forall l, traces t l -> l ≡ₚ seq start (end_ - start).
Proof.
  intros Hw. unfold parallel_for. destruct (Nat.eqb_spec (start + 1) end_) as [<-|Hne].
  { eexists. split; [done|]. intros l ->. by replace (start + 1 - start) with 1 by lia. }
  destruct (Nat.leb_spec (end_ - start) g) as [Hle|Hgt].
  { eexists. split; [done|]. intros l Hl%loop_traces. by rewrite Hl. }
  destruct (Nat.ltb_spec start end_) as [Hlt|Hge]; [by apply parfor_ok|].
  eexists. split; [done|]. intros l ->. by replace (end_ - start) with 0 by lia.
Qed.

(** *** The nesting of a loop is logarithmic *)

Lemma loop_nesting start n : nesting (loop act start n) = 0.
Proof. revert start. induction n as [|n IH]; intros start; simpl; auto. Qed.

Lemma get_granularity_nesting clock fuel k start end_ d sz t d' :
  get_granularity act clock fuel k start end_ d sz = Some (t, d') -> nesting t = 0.
Proof.
  revert k d sz t d'. induction fuel as [|fuel IH]; intros k d sz t d'; [done|]. cbn [get_granularity]. cbv zeta.
  destruct (clock k && _); [|intros [= <- <-]; apply loop_nesting].
  destruct (get_granularity _ _ _ _ _ _ _ _) as [[t1 d1]|] eqn:E; [|done]. cbn [mbind option_bind]. intros [= <- <-].
  simpl. by rewrite loop_nesting, (IH _ _ _ _ _ E).
Qed.

(** How many iterations [k] nested splits can handle: the larger half has 9/16 of them. *)
Fixpoint splits (k : nat) : N := match k with O => 1 | S k => (16 * splits k + 15) / 9 - 1 end.

Lemma splits_pos k : (1 <= splits k)%N.
Proof. induction k as [|k IH]; [done|]. cbn [splits]. zify. Z.to_euclidean_division_equations. lia. Qed.

Lemma split_sizes n b : (1 <= b)%N -> (N.of_nat n <= (16 * b + 15) / 9 - 1)%N ->
  (N.of_nat (9 * (n + 1) / 16) <= b /\ N.of_nat (n - 9 * (n + 1) / 16) <= b)%N.
Proof.
  intros Hb Hn. set (m := 9 * (n + 1) / 16).
  assert (16 * m <= 9 * (n + 1) < 16 * m + 16) as Hm.
  { subst m. pose proof (Nat.div_mod_eq (9 * (n + 1)) 16). pose proof (Nat.mod_upper_bound (9 * (n + 1)) 16). lia. }
  assert (9 * (N.of_nat n + 1) <= 16 * b + 15)%N as Hn'.
  { pose proof (N.Div0.mul_div_le (16 * b + 15) 9). lia. }
  lia.
Qed.

Lemma parfor__nesting k fuel start end_ g c t : 0 < g -> (N.of_nat (end_ - start) <= splits k)%N ->
  parfor_ act fuel start end_ g c = Some t -> nesting t <= k.
Proof.
  intros Hg. revert fuel start end_ t. induction k as [|k IH]; intros [|fuel] start end_ t; try done; cbn [parfor_ splits]; intros Hn.
  - destruct (Nat.leb_spec (end_ - start) g); [|lia]. intros [= <-]. by rewrite loop_nesting.
  - destruct (Nat.leb_spec (end_ - start) g); [intros [= <-]; rewrite loop_nesting; lia|]. cbv zeta.
    set (mid := start + _). assert (Hp := splits_pos k).
    assert (N.of_nat (mid - start) <= splits k /\ N.of_nat (end_ - mid) <= splits k)%N as [H1 H2].
    { destruct (split_sizes (end_ - start) (splits k) Hp Hn) as [H1 H2]. split.
      - by replace (mid - start) with (9 * (end_ - start + 1) / 16) by (subst mid; lia).
      - by replace (end_ - mid) with (end_ - start - 9 * (end_ - start + 1) / 16) by (subst mid; lia). }
    destruct (parfor_ act fuel start mid g c) as [t1|] eqn:E1; [|done].
    destruct (parfor_ act fuel mid end_ g c) as [t2|] eqn:E2; [|done]. cbn [mbind option_bind]. intros [= <-].
    specialize (IH fuel). assert (IH1 := IH _ _ _ H1 E1). assert (IH2 := IH _ _ _ H2 E2). simpl. lia.
Qed.

Lemma parallel_for_nesting workers clock start end_ g c t : (N.of_nat end_ < 2 ^ 64)%N ->
  parallel_for act workers clock start end_ g c = Some t -> nesting t <= q_size.
Proof.
  intros He. assert (forall fuel start g t, 0 < g -> parfor_ act fuel start end_ g c = Some t -> nesting t <= q_size) as Hpar.
  { intros fuel s g' t' Hg H. transitivity 100; [|unfold q_size; lia]. eapply (parfor__nesting 100); [exact Hg| |exact H].
    transitivity (2 ^ 64)%N; [lia|]. by vm_compute. }
  unfold parallel_for. destruct (start + 1 =? end_); [intros [= <-]; simpl; lia|].
  destruct (end_ - start <=? g); [intros [= <-]; rewrite loop_nesting; lia|].
  destruct (start <? end_) eqn:Hlt; [|intros [= <-]; simpl; lia]. apply Nat.ltb_lt in Hlt.
  unfold parfor. destruct (end_ <=? start); [intros [= <-]; simpl; lia|].
  destruct (Nat.eqb_spec g 0) as [->|Hg]; [|apply Hpar; lia].
  destruct (get_granularity_ok clock (end_ - start) 0 start end_ 0 1) as (t1 & d & E1 & Hd & _); [lia..|].
  rewrite E1. cbn [mbind option_bind].
  destruct (parfor_ act _ _ _ _ _) as [t2|] eqn:E2; [|done]. cbn [mbind option_bind]. intros [= <-].
  simpl. rewrite (get_granularity_nesting _ _ _ _ _ _ _ _ _ E1). eapply Hpar; [|exact E2]. lia.
Qed.

End indices.

(** ** The theorems at work *)

(** Two workers; the second one steals the right thunk. *)
Definition ex_root : task nat := TPar (TAct 1) (TSeq (TAct 2) (TAct 3)) false.
Definition ex_schedule : list label :=
  [LContinue 0; LSteal 1 0; LContinue 1; LContinue 1; LContinue 0; LContinue 0; LContinue 1; LContinue 1; LContinue 0; LContinue 0].

Fixpoint exec_all {A} (ls : list label) (s : state A) : res (state A) :=
  match ls with [] => Ok s | l :: ls => s ← exec l s; exec_all ls s end.

Lemma exec_all_reachable {A} workers (root : task A) ls s s' :
  reachable workers root s -> exec_all ls s = Ok s' -> reachable workers root s'.
Proof.
  revert s. induction ls as [|l ls IH]; intros s Hr; simpl; [by intros [= <-]|].
  destruct (exec l s) as [s1|] eqn:E; [|done]. simpl. apply IH. by eapply reach_step.
Qed.

Definition ex_state : state nat :=
  match exec_all ex_schedule (initial 2 ex_root) with Ok s => s | Err _ => initial 2 ex_root end.

Lemma ex_reachable : reachable 2 ex_root ex_state.
Proof.
  eapply (exec_all_reachable 2 ex_root ex_schedule); [apply reach_init|].
  assert (match exec_all ex_schedule (initial 2 ex_root) with Ok _ => true | Err _ => false end = true) as E by by vm_compute.
  unfold ex_state. by destruct (exec_all _ _).
Qed.

Lemma ex_done : bool_decide (0 ∈ done ex_state) = true /\ trace ex_state = [2; 1; 3].
Proof. by vm_compute. Qed.

Lemma fork_join_correct_witness : 0 ∈ done ex_state /\ traces ex_root [2; 1; 3].
Proof.
  destruct (fork_join_correct 2 ex_root ex_state ltac:(lia) ltac:(by apply Nat.leb_le) ex_reachable) as [_ H].
  destruct ex_done as [H0 Ht]. apply bool_decide_eq_true in H0. split; [exact H0|].
  destruct (H H0) as [Htr _]. rewrite <- Ht. exact Htr.
Defined.

Lemma fork_join_terminates_witness : exists n s', steps n (initial 2 ex_root) s' /\ 0 ∈ done s'.
Proof.
  destruct (fork_join_terminates 2 ex_root (initial 2 ex_root) ltac:(lia) ltac:(by apply Nat.leb_le) (reach_init 2 ex_root)) as (_ & _ & H). exact H.
Defined.


(** One more [par_do] on the left than a deque has room for, and the program is aborted, when
    nobody steals in time. *)
Theorem deep_nesting_aborts :
  exec_all (replicate 1025 (LContinue 0)) (initial 1 (Nat.iter 1025 (fun t => TPar t (TAct 0) false) (TAct 1))) =
    Err Aborted.
Proof. by vm_compute. Qed.
