(* ===== verification/Relocation.v ===== *)
(** * Relocation of objects

    [src/lib/parlay/relocation.h] and the type traits it asks for.  A buffer is an array of
    cells, [None] where no object lives.  To construct over a live object forgets it without
    running its destructor, which is an error unless the type is trivially destructible; to
    read or destroy an object that is not there is an error.  A relocated object is gone from
    its source. *)

From S2P Require Import Prelude.
From stdpp Require Import list.
From S2P Require Import ParArray SequenceOps.

#[local] Open Scope nat_scope.

(** What the code asks the compiler about the element type and the allocator. *)
Class Traits (T : Type) := {
  sizeof : nat;
  is_trivial : bool;
  is_trivially_copyable : bool;
  is_trivially_default_constructible : bool;
  is_trivially_destructible : bool;
  is_trivially_relocatable : bool;
  is_trivial_allocator : bool;
  EnableSSO : bool;
  value_initialized : T
}.

(** The loops that work on chunks of this many bytes need types that are not larger. *)
Class FitsChunk T `{!Traits T} : Prop := chunk_size_pos : 0 < chunk_bytes / sizeof.

Lemma scatter_middle {C} (zs a b c : list C) : length b = length zs -> scatter (block (length a) zs) (a ++ b ++ c) = a ++ zs ++ c.
Proof.
  intros Hb. apply list_eq. intros i. rewrite scatter_block by (rewrite !length_app; lia).
  destruct (decide (length a <= i < length a + length zs)) as [Hi|Hi].
  - rewrite (lookup_app_r a) by lia. rewrite lookup_app_l by lia. done.
  - destruct (decide (i < length a)); [by rewrite !lookup_app_l|]. rewrite !(lookup_app_r a) by lia.
    rewrite !lookup_app_r by lia. by rewrite Hb.
Qed.

(** A parallel loop runs its iterations in the order of some list [l]. *)
Ltac par_run l Hl :=
  lazymatch goal with |- parallel_for ?s ?e ?f ?g ?x = _ =>
    destruct (parallel_for_run s e f g x) as (l & Hl & ->)
  end.

Section relocation.
Context {T : Type} `{!Traits T}.
Implicit Types (a src dst : array T) (xs : list T).

Definition overwrite a (p : nat) (c : option T) : res (array T) :=
  match a !! p with
  | None => Err BadPtr
  | Some None => Ok (<[p := c]> a)
  | Some (Some _) => if is_trivially_destructible then Ok (<[p := c]> a) else Err AssertFail
  end.

Definition initialize a (p : nat) (v : T) : res (array T) := overwrite a p (Some v).

Definition destroy a (p : nat) : res (array T) :=
  match a !! p with
  | None => Err BadPtr
  | Some (Some _) => if is_trivially_destructible then Ok a else Ok (<[p := None]> a)
  | Some None => if is_trivially_destructible then Ok a else Err BadPtr
  end.

(** [memcpy] of the bytes of one cell *)
Definition copy_bytes (source dest : nat) (m : array T * array T) : res (array T * array T) :=
  let '(src, dst) := m in
  match src !! source with
  | None => Err BadPtr
  | Some c => dst ← overwrite dst dest c; Ok (<[source := None]> src, dst)
  end.

(** Move construction, and destruction of what was moved from *)
Definition move_and_destroy (source dest : nat) (m : array T * array T) : res (array T * array T) :=
  let '(src, dst) := m in
  x ← get src source; dst ← initialize dst dest x; Ok (<[source := None]> src, dst).

Definition relocate_at (source dest : nat) (m : array T * array T) : res (array T * array T) :=
  if is_trivially_relocatable then copy_bytes source dest m else move_and_destroy source dest m.

(** The branches for pointers, which are contiguous iterators *)
Definition uninitialized_relocate_n `{!Schedule} (first n result : nat) (m : array T * array T) : res (array T * array T) :=
  if is_trivially_relocatable then
    let chunk_size := chunk_bytes / sizeof in
    if chunk_size =? 0 then Err DivZero else
    let n_chunks := (n + chunk_size - 1) / chunk_size in
    parallel_for 0 n_chunks (fun i m =>
      let n_objects := chunk_size `min` (n - i * chunk_size) in
      for_ 0 n_objects (fun j => copy_bytes (first + i * chunk_size + j) (result + i * chunk_size + j)) m) 1 m
  else parallel_for 0 n (fun i => relocate_at (first + i) (result + i)) 0 m.

(** ** Correctness *)

(** A cell in which an object may be constructed *)
Definition vacant (c : option T) : Prop := is_trivially_destructible = true \/ c = None.

#[export] Instance vacant_dec c : Decision (vacant c).
Proof. unfold vacant. destruct c; [destruct is_trivially_destructible eqn:E|]; [left|right|left]; naive_solver. Defined.

Lemma vacant_None : vacant None.
Proof. by right. Qed.

Lemma Forall_vacant_None n : Forall vacant (replicate n None).
Proof. apply Forall_replicate, vacant_None. Qed.

Lemma overwrite_eq a p c d : a !! p = Some d -> vacant d -> overwrite a p c = Ok (<[p := c]> a).
Proof. intros Hp [Hd| ->]; unfold overwrite; rewrite Hp; [rewrite Hd; by destruct d|done]. Qed.

Lemma initialize_eq a p v c : a !! p = Some c -> vacant c -> initialize a p v = Ok (<[p := Some v]> a).
Proof. apply overwrite_eq. Qed.

Lemma destroy_vacant a p x : a !! p = Some (Some x) -> exists c, vacant c /\ destroy a p = Ok (<[p := c]> a).
Proof.
  intros Hp. unfold destroy. rewrite Hp. destruct is_trivially_destructible eqn:E.
  - exists (Some x). split; [by left|]. by rewrite list_insert_id.
  - exists None. split; [apply vacant_None|done].
Qed.

Lemma copy_bytes_eq src dst i j x c : src !! i = Some (Some x) -> dst !! j = Some c -> vacant c ->
  copy_bytes i j (src, dst) = Ok (<[i := None]> src, <[j := Some x]> dst).
Proof. intros Hi Hj Hc. simpl. rewrite Hi. by rewrite (overwrite_eq _ _ _ c). Qed.

Lemma move_and_destroy_eq src dst i j x c : src !! i = Some (Some x) -> dst !! j = Some c -> vacant c ->
  move_and_destroy i j (src, dst) = Ok (<[i := None]> src, <[j := Some x]> dst).
Proof. intros Hi Hj Hc. simpl. rewrite (get_eq _ _ _ Hi). simpl. by rewrite (initialize_eq _ _ _ c). Qed.

Lemma relocate_at_eq src dst i j x c : src !! i = Some (Some x) -> dst !! j = Some c -> vacant c ->
  relocate_at i j (src, dst) = Ok (<[i := None]> src, <[j := Some x]> dst).
Proof.
  intros Hi Hj Hc. unfold relocate_at.
  destruct is_trivially_relocatable; [by eapply copy_bytes_eq|by eapply move_and_destroy_eq].
Qed.

(** [m] becomes [m'] when the objects [xs] move from the cells [first ..] to the cells [result ..]. *)
Definition relocatable (first result : nat) xs (m : array T * array T) : Prop :=
  (forall i x, xs !! i = Some x -> m.1 !! (first + i) = Some (Some x)) /\
  (forall i, i < length xs -> exists c, m.2 !! (result + i) = Some c /\ vacant c).

Definition relocated (first result : nat) xs (m : array T * array T) : array T * array T :=
  (scatter (block first (replicate (length xs) None)) m.1, scatter (block result (Some <$> xs)) m.2).

Lemma relocatable_agree first result xs m m' :
  agree (block first (replicate (length xs) (@None T))) m.1 m'.1 -> agree (block result (Some <$> xs)) m.2 m'.2 ->
  relocatable first result xs m -> relocatable first result xs m'.
Proof.
  intros H1 H2 [Hx Hc]. split.
  - intros i x Hi. rewrite (agree_block _ _ _ _ i H1); [by apply Hx|].
    rewrite length_replicate. by eapply lookup_lt_Some.
  - intros i Hi. rewrite (agree_block _ _ _ _ i H2); [by apply Hc|by rewrite length_fmap].
Qed.

(** A loop whose iterations relocate one block each relocates everything. *)
Lemma run_relocate k l xs first result body m : 0 < k -> l ≡ₚ seq 0 (num_blocks (length xs) k) ->
  (forall i m, i < num_blocks (length xs) k -> relocatable (first + i * k) (result + i * k) (block_of k xs i) m ->
     body i m = Ok (relocated (first + i * k) (result + i * k) (block_of k xs i) m)) ->
  relocatable first result xs m -> run l body m = Ok (relocated first result xs m).
Proof.
  intros Hk Hl Hb [Hx Hc]. destruct m as [src dst]. unfold relocated. simpl in *.
  set (W i := block (first + i * k) (replicate (length (block_of k xs i)) (@None T))).
  set (V i := block (result + i * k) (Some <$> block_of k xs i)).
  assert (mjoin (W <$> seq 0 (num_blocks (length xs) k)) = block first (replicate (length xs) None)) as HW.
  { set (ns := replicate (length xs) (@None T)). assert (length ns = length xs) as Hn by apply length_replicate.
    rewrite <- Hn. rewrite <- (join_all_blocks k Hk ns) at 2. rewrite <- join_blocks. f_equal.
    apply list_fmap_ext. intros j i Hi%lookup_seq. unfold W.
    rewrite offset_block_of, length_block_of, <- Hn, <- length_block_of by (done || lia). f_equal.
    rewrite block_of_take. unfold ns. by rewrite drop_replicate, take_replicate, length_replicate. }
  assert (mjoin (V <$> seq 0 (num_blocks (length xs) k)) = block result (Some <$> xs)) as HV.
  { rewrite <- (join_all_blocks k Hk (Some <$> xs)) at 1. rewrite length_fmap, <- join_blocks. f_equal.
    apply list_fmap_ext. intros j i Hi%lookup_seq. unfold V. rewrite block_of_fmap.
    rewrite <- (block_of_fmap k Some), offset_block_of by (rewrite ?length_fmap; done || lia). done. }
  assert (NoDup (mjoin (W <$> l)).*1 /\ NoDup (mjoin (V <$> l)).*1) as [ND1 ND2].
  { rewrite (join_perm W _ _ Hl), (join_perm V _ _ Hl), HW, HV, !block_keys. split; apply NoDup_seq. }
  rewrite (run_scatter2 W V); [|intros i a b Hi Ha Hb'|done..].
  - rewrite <- HW, <- HV. do 2 f_equal; apply scatter_perm; done || by apply join_perm.
  - rewrite Hl in Hi. apply elem_of_seq in Hi as [_ Hi]. apply Hb; [done|].
    apply (relocatable_agree _ _ _ (src, dst)); [done..|]. simpl. split; simpl.
    + intros j x Hj. rewrite <- Nat.add_assoc. apply Hx. rewrite block_of_take in Hj.
      apply lookup_take_Some in Hj as [Hj _]. by rewrite lookup_drop in Hj.
    + intros j Hj. rewrite <- Nat.add_assoc. apply Hc. rewrite length_block_of in Hj. lia.
Qed.

Lemma block_of_1 xs i x : xs !! i = Some x -> block_of 1 xs i = [x].
Proof. intros Hi. rewrite block_of_take, Nat.mul_1_r, (drop_S _ _ _ Hi). cbn [take]. by rewrite take_0. Qed.

Lemma num_blocks_1 n : num_blocks n 1 = n.
Proof. unfold num_blocks. destruct (Nat.eqb_spec n 0); [done|]. rewrite Nat.div_1_r. lia. Qed.

Lemma run_relocate_1 l xs first result body m : l ≡ₚ seq 0 (length xs) ->
  (forall i src dst x c, src !! (first + i) = Some (Some x) -> dst !! (result + i) = Some c -> vacant c ->
     body i (src, dst) = Ok (<[first + i := None]> src, <[result + i := Some x]> dst)) ->
  relocatable first result xs m -> run l body m = Ok (relocated first result xs m).
Proof.
  intros Hl Hb. apply (run_relocate 1); [lia|by rewrite num_blocks_1|]. rewrite num_blocks_1. intros i [src dst] Hi.
  destruct (lookup_lt_is_Some_2 xs i Hi) as [x Hx]. rewrite (block_of_1 _ _ _ Hx), Nat.mul_1_r.
  intros [Hsrc Hdst]. simpl in *. destruct (Hdst 0 ltac:(lia)) as (c & Hc & Hv). specialize (Hsrc 0 x eq_refl).
  rewrite Nat.add_0_r in *. by rewrite (Hb i src dst x c).
Qed.

Lemma relocate_n_eq `{!Schedule} xs first result m :
  FitsChunk T -> relocatable first result xs m ->
  uninitialized_relocate_n first (length xs) result m = Ok (relocated first result xs m).
Proof.
  intros Hk Hm. unfold uninitialized_relocate_n. destruct is_trivially_relocatable.
  - unfold FitsChunk in Hk. set (k := chunk_bytes / sizeof) in *. clearbody k.
    destruct (Nat.eqb_spec k 0); [lia|]. rewrite ceil_div by lia.
    par_run l Hl. rewrite Nat.sub_0_r in Hl.
    apply (run_relocate k); [done..| |done]. clear m Hm. intros i m Hi Hm.
    replace (k `min` (length xs - i * k)) with (length (block_of k xs i)) by (rewrite length_block_of; lia).
    unfold for_. rewrite Nat.sub_0_r. apply run_relocate_1; [done|intros; by eapply copy_bytes_eq|done].
  - par_run l Hl. rewrite Nat.sub_0_r in Hl.
    apply run_relocate_1; [done|intros; by eapply relocate_at_eq|done].
Qed.

(** [chunk_size] is zero when one object is larger than a chunk. *)
Lemma relocate_large `{!Schedule} first n result m : is_trivially_relocatable = true -> chunk_bytes < sizeof ->
  uninitialized_relocate_n first n result m = Err DivZero.
Proof. intros Ht Hs. unfold uninitialized_relocate_n. by rewrite Ht, Nat.div_small. Qed.

(** ** Buffers laid out from the front *)

Lemma relocatable_middle a ys b c v d : length v = length ys -> Forall vacant v ->
  relocatable (length a) (length c) ys (a ++ (Some <$> ys) ++ b, c ++ v ++ d).
Proof.
  intros Hl Hv. split; simpl.
  - intros i x Hi. rewrite lookup_app_r by lia. replace (length a + i - length a) with i by lia.
    apply lookup_app_l_Some. by rewrite list_lookup_fmap, Hi.
  - intros i Hi. destruct (lookup_lt_is_Some_2 v i) as [z Hz]; [lia|]. exists z. split.
    + rewrite lookup_app_r by lia. replace (length c + i - length c) with i by lia. by apply lookup_app_l_Some.
    + by eapply Forall_lookup_1.
Qed.

Lemma relocated_middle a ys b c v d : length v = length ys ->
  relocated (length a) (length c) ys (a ++ (Some <$> ys) ++ b, c ++ v ++ d) =
    (a ++ replicate (length ys) None ++ b, c ++ (Some <$> ys) ++ d).
Proof. intros Hl. unfold relocated. simpl. by rewrite !scatter_middle by (rewrite ?length_replicate, ?length_fmap; done). Qed.

(** The objects [ys] leave the middle of one buffer for the vacant cells [v] of another. *)
Lemma relocate_middle `{!Schedule, !FitsChunk T} a ys b c v d : length v = length ys -> Forall vacant v ->
  uninitialized_relocate_n (length a) (length ys) (length c) (a ++ (Some <$> ys) ++ b, c ++ v ++ d) =
    Ok (a ++ replicate (length ys) None ++ b, c ++ (Some <$> ys) ++ d).
Proof.
  intros Hl Hv. rewrite relocate_n_eq; [by rewrite relocated_middle|done|by apply relocatable_middle].
Qed.

(** All objects of a buffer move to a new one, in either way that the allocator may ask for. *)
Lemma relocate_front `{!Schedule, !FitsChunk T} xs rest n : length xs <= n ->
  (if is_trivial_allocator then uninitialized_relocate_n 0 (length xs) 0 ((Some <$> xs) ++ rest, uninitialized n)
   else parallel_for 0 (length xs) (fun i => move_and_destroy i i) 0 ((Some <$> xs) ++ rest, uninitialized n)) =
    Ok (replicate (length xs) None ++ rest, (Some <$> xs) ++ uninitialized (n - length xs)).
Proof.
  intros Hn. assert (uninitialized n = [] ++ replicate (length xs) (@None T) ++ uninitialized (n - length xs)) as ->.
  { unfold uninitialized. simpl. rewrite <- replicate_add. f_equal. lia. }
  destruct is_trivial_allocator.
  - apply (relocate_middle [] xs rest []); [apply length_replicate|apply Forall_vacant_None].
  - par_run l Hl. rewrite Nat.sub_0_r in Hl. rewrite (run_relocate_1 l xs 0 0).
    + by rewrite (relocated_middle [] xs rest []) by apply length_replicate.
    + done.
    + intros. by eapply move_and_destroy_eq.
    + apply (relocatable_middle [] xs rest []); [apply length_replicate|apply Forall_vacant_None].
Qed.

(** Constructing [xs] in the vacant cells [v], whatever the order. *)
Lemma construct_all `{!Schedule} (f : nat -> res T) xs a v d g : length v = length xs -> Forall vacant v ->
  (forall i x, xs !! i = Some x -> f i = Ok x) ->
  parallel_for 0 (length xs) (fun i b => x ← f i; initialize b (length a + i) x) g (a ++ v ++ d) =
    Ok (a ++ (Some <$> xs) ++ d).
Proof.
  intros Hl Hv Hf. rewrite (parallel_for_cells (Some <$> xs) _ g (length a)); [|by rewrite length_fmap|].
  - by rewrite scatter_middle by (by rewrite length_fmap).
  - intros i z b Hz Hb Hi. apply list_lookup_fmap_Some in Hz as (x & -> & Hx). rewrite (Hf i x Hx). simpl.
    assert (i < length v) as Hiv by (rewrite Hl; by eapply lookup_lt_Some).
    destruct (lookup_lt_is_Some_2 v i Hiv) as [c Hc]. apply (initialize_eq _ _ _ c); [|by eapply Forall_lookup_1].
    rewrite Hi, lookup_app_r by lia. replace (length a + i - length a) with i by lia. by apply lookup_app_l_Some.
Qed.

(** Destroying the objects [ys], whatever the order. *)
Lemma destroy_middle `{!Schedule} a ys b g : is_trivially_destructible = false ->
  parallel_for (length a) (length a + length ys) (fun i c => destroy c i) g (a ++ (Some <$> ys) ++ b) =
    Ok (a ++ replicate (length ys) None ++ b).
Proof.
  intros Ht. assert (forall o n, mjoin ((fun i => [(i, @None T)]) <$> seq o n) = block o (replicate n None)) as Hj.
  { intros o n. revert o. induction n as [|n IH]; intros o; [done|]. cbn [seq replicate fmap list_fmap mjoin list_join]. by rewrite IH. }
  rewrite (parallel_for_scatter (fun i => [(i, None)])).
  - replace (length a + length ys - length a) with (length ys) by lia.
    rewrite Hj, scatter_middle by (by rewrite length_replicate, length_fmap). done.
  - intros i c Hi [_ Hc]. unfold destroy. rewrite Hc by (simpl; by left). rewrite lookup_app_r by lia.
    destruct (lookup_lt_is_Some_2 ys (i - length a)) as [y Hy]; [lia|].
    rewrite lookup_app_l by (rewrite length_fmap; lia). by rewrite list_lookup_fmap, Hy, Ht.
  - rewrite Hj, block_keys. apply NoDup_seq.
Qed.
End relocation.
