(* ===== verification/HeapLogic.v ===== *)
(** * A separation logic for heap programs

    Assertions about the part of a heap that a program owns, for the programs of the monad
    [M] of [Prelude].  They form a logic of bunched implications, so that the Iris proof mode
    can be used on them.  The logic is linear: a program that is proved to own nothing at the
    end has freed what it allocated.  [pre m Q] holds of the heaps that [m] runs on without
    error, whatever else is in memory, to a result and a heap that satisfy [Q]. *)

From S2P Require Import Prelude.
From iris.bi Require Import interface.
From iris.proofmode Require Import proofmode.

Record hprop (N : Type) := HProp { owns : gmap loc N -> Prop }.
Arguments HProp {N} owns.
Arguments owns {N} P h : rename.
Add Printing Constructor hprop.

Section assertions.
Context {N : Type}.
Implicit Types (P Q R : hprop N) (h : gmap loc N).

#[local] Instance hprop_equiv : Equiv (hprop N) := fun P Q => forall h, owns P h <-> owns Q h.
#[local] Instance hprop_equivalence : Equivalence (≡@{hprop N}).
Proof. split; unfold equiv, hprop_equiv; repeat intro; naive_solver. Qed.
#[warnings="-redundant-canonical-projection"]
Canonical Structure hpropO := discreteO (hprop N).

Record entails P Q : Prop := Entails { entails_at h : owns P h -> owns Q h }.
Definition h_emp : hprop N := HProp (fun h => h = ∅).
Definition h_pure (phi : Prop) : hprop N := HProp (fun _ => phi).
Definition h_and P Q : hprop N := HProp (fun h => owns P h /\ owns Q h).
Definition h_or P Q : hprop N := HProp (fun h => owns P h \/ owns Q h).
Definition h_impl P Q : hprop N := HProp (fun h => owns P h -> owns Q h).
Definition h_forall {A} (F : A -> hprop N) : hprop N := HProp (fun h => forall a, owns (F a) h).
Definition h_exist {A} (F : A -> hprop N) : hprop N := HProp (fun h => exists a, owns (F a) h).
Definition h_sep P Q : hprop N := HProp (fun h => exists h1 h2, h = h1 ∪ h2 /\ h1 ##ₘ h2 /\ owns P h1 /\ owns Q h2).
Definition h_wand P Q : hprop N := HProp (fun h => forall h', h ##ₘ h' -> owns P h' -> owns Q (h ∪ h')).
Definition h_pers P : hprop N := h_pure (entails h_emp P).

Lemma h_bi_mixin :
  BiMixin entails h_emp h_pure h_and h_or h_impl (@h_forall) (@h_exist) h_sep h_wand.
Proof.
  split.
  - split; [by intros P; split|]. intros P Q R [HPQ] [HQR]. split=> h HP. by apply HQR, HPQ.
  - intros P Q. split; [intros E; split; split=> h; apply E|]. intros [[H1] [H2]] h. split; [apply H1|apply H2].
  - intros n phi psi Hp h. done.
  - intros n P P' HP Q Q' HQ h. simpl. by rw (HP h) (HQ h).
  - intros n P P' HP Q Q' HQ h. simpl. by rw (HP h) (HQ h).
  - intros n P P' HP Q Q' HQ h. simpl. by rw (HP h) (HQ h).
  - intros A n F G HF h. simpl. split; intros H a; [rw -(HF a h)|rw (HF a h)]; apply H.
  - intros A n F G HF h. simpl. by split; intros [a H]; exists a; [rw -(HF a h)|rw (HF a h)].
  - intros n P P' HP Q Q' HQ h. simpl.
    by split; intros (h1 & h2 & E & D & H1 & H2); exists h1, h2;
      [rw -(HP h1) -(HQ h2)|rw (HP h1) (HQ h2)].
  - intros n P P' HP Q Q' HQ h. simpl.
    split; intros H h' D Hh.
    + rw -(HQ (h ∪ h')). apply H; [done|]. by rw (HP h').
    + rw (HQ (h ∪ h')). apply H; [done|]. by rw -(HP h').
  - by intros phi P Hp.
  - intros phi P HP. split=> h Hp. by apply HP.
  - intros P Q. by split=> h [HP _].
  - intros P Q. by split=> h [_ HQ].
  - intros P Q R [HQ] [HR]. split=> h HP. split; [by apply HQ|by apply HR].
  - intros P Q. split=> h HP. by left.
  - intros P Q. split=> h HQ. by right.
  - intros P Q R [HP] [HQ]. split=> h [H|H]; [by apply HP|by apply HQ].
  - intros P Q R [HR]. split=> h HP HQ. by apply HR.
  - intros P Q R [HR]. split=> h [HP HQ]. by apply HR.
  - intros A P F HF. split=> h HP a. by apply HF.
  - intros A F a. by split=> h HF.
  - intros A F a. split=> h HF. by exists a.
  - intros A F Q HF. split=> h [a Ha]. by apply (HF a).
  - intros P P' Q Q' [HP] [HQ]. split; intros h (h1 & h2 & E & D & H1 & H2). exists h1, h2.
    repeat split; [done..|by apply HP|by apply HQ].
  - intros P. split=> h HP. exists ∅, h. repeat split; [by rw (left_id_L ∅ (∪))|apply map_disjoint_empty_l|done].
  - intros P. split; intros h (h1 & h2 & -> & _ & -> & HP). by rw (left_id_L ∅ (∪)).
  - intros P Q. split; intros h (h1 & h2 & -> & D & HP & HQ). exists h2, h1. repeat split; [by apply map_union_comm|done..].
  - intros P Q R. split; intros h (h12 & h3 & -> & D & (h1 & h2 & -> & D' & HP & HQ) & HR).
    apply map_disjoint_union_l in D as [D1 D2]. exists h1, (h2 ∪ h3).
    repeat split; [by rw (assoc_L (∪))|by apply map_disjoint_union_r|done|].
    by exists h2, h3.
  - intros P Q R [HR]. split=> h HP h' D HQ. apply HR. by exists h, h'.
  - intros P Q R [HR]. split; intros h (h1 & h2 & -> & D & HP & HQ). by apply HR.
Qed.

Lemma h_pers_mixin : BiPersistentlyMixin entails h_emp h_and (@h_exist) h_sep h_pers.
Proof.
  eapply bi_persistently_mixin_discrete, h_bi_mixin; [done| |done].
  intros A F [HF]. destruct (HF ∅ eq_refl) as [a Ha]. exists a. by split; intros h ->.
Qed.

Lemma h_later_mixin :
  BiLaterMixin entails h_pure h_or h_impl (@h_forall) (@h_exist) h_sep h_pers (fun P => P).
Proof. eapply bi_later_mixin_id, h_bi_mixin. done. Qed.

Canonical Structure hpropI : bi :=
  {| bi_ofe_mixin := ofe_mixin_of (hprop N); bi_bi_mixin := h_bi_mixin;
     bi_bi_persistently_mixin := h_pers_mixin; bi_bi_later_mixin := h_later_mixin |}.

#[export] Instance hprop_pure_forall : BiPureForall hpropI.
Proof. intros A phi. split=> h H a. apply H. Qed.
#[warnings="-redundant-canonical-projection"]
End assertions.
Arguments hpropO N : clear implicits.
Arguments hpropI N : clear implicits.

(** ** Points-to and programs *)

Section programs.
Context {N : Type}.
Implicit Types (P R : hpropI N) (h : gmap loc N).

Definition points_to (l : loc) (v : N) : hpropI N := HProp (fun h => h = {[l := v]}).

Definition pre {A} (m : M N A) (Q : A -> hpropI N) : hpropI N :=
  HProp (fun h => forall hf, h ##ₘ hf ->
    wp m (fun a h' => exists h1, h' = h1 ∪ hf /\ h1 ##ₘ hf /\ owns (Q a) h1) (h ∪ hf)).

(** A proof about a program that owns [P] to begin with is a fact about its runs. *)
Lemma pre_sound {A} P (m : M N A) Q h hf :
  (P ⊢ pre m Q) -> owns P h -> h ##ₘ hf ->
  wp m (fun a h' => exists h1, h' = h1 ∪ hf /\ h1 ##ₘ hf /\ owns (Q a) h1) (h ∪ hf).
Proof. intros [H] HP. by apply H. Qed.

Lemma pre_ret {A} (a : A) Q : Q a ⊢ pre (mret a) Q.
Proof. split=> h HQ hf D. apply wp_ret. by exists h. Qed.

Lemma pre_bind {A B} (m : M N A) (f : A -> M N B) Q : pre m (fun a => pre (f a) Q) ⊢ pre (m ≫= f) Q.
Proof.
  split=> h H hf D. apply wp_bind. eapply wp_mono; [|by apply H]. intros a h' (h1 & -> & D1 & H1). by apply H1.
Qed.

Lemma pre_assoc {A B C} (m : M N A) (f : A -> M N B) (g : B -> M N C) Q :
  pre ((m ≫= f) ≫= g) Q ⊢ pre (m ≫= fun a => f a ≫= g) Q.
Proof.
  split=> h H hf D. destruct (H hf D) as (c & h' & E & HQ). exists c, h'. split; [|done].
  unfold mbind, M_bind in *. by destruct (m _) as [[a h1]|].
Qed.

Lemma pre_assoc_r {A B C} (m : M N A) (f : A -> M N B) (g : B -> M N C) Q :
  pre (m ≫= fun a => f a ≫= g) Q ⊢ pre ((m ≫= f) ≫= g) Q.
Proof.
  split=> h H hf D. destruct (H hf D) as (c & h' & E & HQ). exists c, h'. split; [|done].
  unfold mbind, M_bind in *. by destruct (m _) as [[a h1]|].
Qed.

Lemma pre_mono {A} (m : M N A) Q Q' : (forall a, Q a ⊢ Q' a) -> pre m Q ⊢ pre m Q'.
Proof.
  intros HQ. split=> h H hf D. eapply wp_mono; [|by apply H]. intros a h' (h1 & -> & D1 & H1). exists h1.
  repeat split; [done|]. by apply HQ.
Qed.

Lemma pre_frame {A} (m : M N A) Q R : R ∗ pre m Q ⊢ pre m (fun a => R ∗ Q a).
Proof.
  split; intros h (h1 & h2 & -> & D & HR & H) hf D'. apply map_disjoint_union_l in D' as [D1 D2].
  rw (map_union_comm h1 h2) // -(assoc_L (∪)).
  eapply wp_mono; [|apply H, map_disjoint_union_r; split; [by symmetry|done]].
  intros a h' (h3 & -> & D3 & HQ). apply map_disjoint_union_r in D3 as [D3 D4].
  exists (h1 ∪ h3). repeat split.
  - rw (assoc_L (∪)) (map_union_comm h1 h3) //.
  - by apply map_disjoint_union_l.
  - exists h1, h3. by repeat split.
Qed.

Lemma pre_wand {A} (m : M N A) Q Q' : pre m Q ⊢ (∀ a, Q a -∗ Q' a) -∗ pre m Q'.
Proof.
  iIntros "H HQ". iDestruct (pre_frame m Q (∀ a, Q a -∗ Q' a) with "[$HQ $H]") as "H". iApply (pre_mono with "H").
  iIntros (a) "[HQ Ha]". by iApply "HQ".
Qed.

#[export] Instance pre_proper {A} (m : M N A) : Proper (pointwise_relation A (⊢) ==> (⊢)) (pre m).
Proof. intros Q Q' HQ. by apply pre_mono. Qed.

#[export] Instance frame_pre p {A} (m : M N A) R Q Q' :
  (forall a, Frame p R (Q a) (Q' a)) -> Frame p R (pre m Q) (pre m Q') | 2.
Proof.
  rw /Frame => HF. iIntros "[HR H]". iApply (pre_wand with "H"). iIntros (a) "H". iApply HF. iFrame.
Qed.

Lemma pre_new v Q : (∀ l, points_to l v -∗ Q (Some l)) ⊢ pre (new v) Q.
Proof.
  split=> h H hf D. apply wp_new. intros l [Hl Hl']%lookup_union_None.
  exists (h ∪ {[l := v]}). repeat split.
  - rw insert_union_singleton_l (assoc_L (∪)) (map_union_comm {[l := v]} h) //. by apply map_disjoint_singleton_l.
  - apply map_disjoint_union_l. split; [done|]. by apply map_disjoint_singleton_l.
  - apply H; [|done]. by apply map_disjoint_singleton_r.
Qed.

(** Running a program on the one cell it needs. *)
Lemma points_to_run {A} l v (m : M N A) a (P : hpropI N) Q :
  (forall h, h !! l = Some v -> exists h1, m h = Ok (a, h1 ∪ delete l h) /\ owns P h1 /\ dom h1 ⊆ {[l]}) ->
  points_to l v ⊢ (P -∗ Q a) -∗ pre m Q.
Proof.
  intros Hm. split; intros h1 -> h2 D HQ hf D'. rw map_disjoint_singleton_l in D.
  apply map_disjoint_union_l in D' as [D1 D2]. rw map_disjoint_singleton_l in D1.
  destruct (Hm ({[l := v]} ∪ h2 ∪ hf)) as (h3 & E & HP & Hd).
  { rw -(assoc_L (∪)). apply lookup_union_Some_l, lookup_singleton_eq. }
  assert (delete l ({[l := v]} ∪ h2 ∪ hf) = h2 ∪ hf) as Hdel.
  { rw -(assoc_L (∪)) delete_union delete_singleton_eq (left_id_L ∅ (∪)) delete_id //. by apply lookup_union_None. }
  rw Hdel in E. assert (h3 ##ₘ h2 /\ h3 ##ₘ hf) as [D3 D4].
  { split; apply map_disjoint_dom; intros i ->%Hd%elem_of_singleton; by apply not_elem_of_dom. }
  exists a, (h3 ∪ (h2 ∪ hf)). split; [done|]. exists (h2 ∪ h3). repeat split.
  - rw (assoc_L (∪)) (map_union_comm h3 h2) //.
  - by apply map_disjoint_union_l.
  - apply HQ; [by symmetry|done].
Qed.

Lemma pre_load l v Q : points_to l v ⊢ (points_to l v -∗ Q v) -∗ pre (load (Some l)) Q.
Proof.
  apply points_to_run. intros h Hl. exists {[l := v]}. unfold load. rw Hl.
  repeat split; [|by rw dom_singleton_L]. do 2 f_equal. by rw -insert_union_singleton_l insert_delete_id.
Qed.

Lemma pre_store l v f Q : points_to l v ⊢ (points_to l (f v) -∗ Q tt) -∗ pre (store (Some l) f) Q.
Proof.
  apply points_to_run. intros h Hl. exists {[l := f v]}. unfold store. rw Hl.
  repeat split; [|by rw dom_singleton_L]. do 2 f_equal. by rw -insert_union_singleton_l insert_delete_eq.
Qed.

Lemma pre_free l v Q : points_to l v ⊢ Q tt -∗ pre (free (Some l)) Q.
Proof.
  iIntros "Hl HQ". iApply (points_to_run l v (free (Some l)) tt emp Q with "Hl [HQ]"); [|by iIntros].
  intros h Hl. exists ∅. unfold free. rw Hl. by rw (left_id_L ∅ (∪)).
Qed.
End programs.

(** [P] is enough to run [m] and to end with [Q]. *)
Abbreviation triple P m Q := (forall R, P%I ⊢ (∀ a, Q%I a -∗ R a) -∗ pre m R) (only parsing).

(** A fact that owns nothing *)
Notation "⟦ phi ⟧" := (bi_affinely (bi_pure phi)) (at level 0, phi at level 200) : bi_scope.
Notation "l ↦ v" := (points_to l v) (at level 20) : bi_scope.
