(* ===== verification/SequenceBase.v ===== *)
(** * Storage of sequences

    [src/lib/parlay/internal/sequence_base.h].  A sequence keeps its elements in a buffer on
    the heap, or, if its type allows it, inside the object ([short_seq]).  A heap buffer is an
    array of cells whose length is the capacity in its header; [ptr] is the address of the
    header.  The object is passed by value and every method returns what it has become. *)

From S2P Require Import Prelude.
From iris.proofmode Require Import proofmode.
From S2P Require Import ParArray SequenceOps Relocation HeapLogic.

#[local] Open Scope nat_scope.

(** The field of [k] bits that [n] is stored in *)
Definition bits (k : Z) (n : nat) : nat := Z.to_nat (Z.of_nat n mod 2 ^ k).

Lemma bits_id k n : (0 <= k)%Z -> (Z.of_nat n < 2 ^ k)%Z -> bits k n = n.
Proof. intros Hk Hn. unfold bits. rw Z.mod_small; lia. Qed.

Inductive storage_impl (T : Type) :=
  | short_seq (elements : array T) (small_n : nat)
  | long_seq (buffer : ptr) (n : nat).
Arguments short_seq {T} elements small_n.
Arguments long_seq {T} buffer n.

(** Where [data()] points: into the object, nowhere, or into a heap buffer *)
Inductive base := inline_buffer | no_buffer | heap_buffer (b : loc).

#[export] Instance base_eq_dec : EqDecision base.
Proof. solve_decision. Defined.

Definition lift {N A} (r : res A) : M N A := fun h => a ← r; Ok (a, h).

Section storage.
Context {T : Type} `{!Traits T, !Schedule}.
Implicit Types (s other : storage_impl T) (c : array T).

Definition use_sso : bool := EnableSSO && is_trivial.
Definition _max_size : Z := (Z.shiftl 1 48 - 1)%Z.
(** [(sizeof(capacitated_buffer) + sizeof(uint64_t) - 1) / sizeof(value_type)] *)
Definition short_capacity : nat := (8 + 8 - 1) / sizeof.
Definition copy_granularity : nat := if is_trivially_copyable then 1 + chunk_bytes / sizeof else 0.
Definition initialization_granularity : nat := if is_trivially_default_constructible then 1 + chunk_bytes / sizeof else 0.

Definition set_to_empty_representation : storage_impl T :=
  if use_sso then short_seq (uninitialized short_capacity) 0 else long_seq None 0.

Definition is_small s : bool := match s with short_seq _ _ => true | long_seq _ _ => false end.
Definition size s : nat := match s with short_seq _ n => n | long_seq _ n => n end.

(** [header::create] and [free_buffer] *)
Definition capacitated_buffer (capacity : nat) : M (array T) ptr := new (uninitialized capacity).
Definition free_buffer (buffer : ptr) : M (array T) unit :=
  match buffer with None => mret tt | Some _ => free buffer end.
Definition get_capacity (buffer : ptr) : M (array T) nat :=
  match buffer with None => mret 0 | Some _ => a ← load buffer; mret (length a) end.

Definition capacity s : M (array T) nat :=
  match s with short_seq _ _ => mret short_capacity | long_seq buffer _ => get_capacity buffer end.

Definition data s : base :=
  match s with
  | short_seq _ _ => inline_buffer
  | long_seq None _ => no_buffer
  | long_seq (Some b) _ => heap_buffer b
  end.

(** The cells at [data()], and a computation on them *)
Definition cells s : M (array T) (array T) :=
  match s with
  | short_seq elements _ => mret elements
  | long_seq None _ => mret []
  | long_seq (Some b) _ => load (Some b)
  end.

Definition with_cells s (f : array T -> res (array T)) : M (array T) (storage_impl T) :=
  match s with
  | short_seq elements n => elements ← lift (f elements); mret (short_seq elements n)
  | long_seq None n => _ ← lift (f []); mret s
  | long_seq (Some b) n => a ← load (Some b); a ← lift (f a); _ ← store (Some b) (fun _ => a); mret s
  end.

Definition at_index s (i : nat) : M (array T) T := c ← cells s; lift (get c i).

Definition set_size s (new_size : nat) : M (array T) (storage_impl T) :=
  k ← capacity s;
  _ ← lift (assert (new_size <=? k));
  mret match s with
       | short_seq elements _ => short_seq elements (bits 7 new_size)
       | long_seq buffer _ => long_seq buffer (bits 48 new_size)
       end.

Definition destroy_all s : M (array T) (storage_impl T) :=
  if negb is_trivially_destructible
  then with_cells s (parallel_for 0 (size s) (fun i a => destroy a i) 0)
  else mret s.

Definition free_long s : M (array T) unit :=
  match s with short_seq _ _ => mret tt | long_seq buffer _ => free_buffer buffer end.

Definition clear s : M (array T) (storage_impl T) :=
  _ ← (if negb (is_small s) then s ← destroy_all s; free_long s else mret tt);
  mret set_to_empty_representation.

Definition clear_without_destruction s : M (array T) (storage_impl T) :=
  _ ← (if negb (is_small s) then free_long s else mret tt);
  mret set_to_empty_representation.

(** The object may not own a buffer yet. *)
Definition initialize_capacity (desired : nat) : M (array T) (storage_impl T) :=
  s ← (if use_sso then
         if short_capacity <? desired then b ← capacitated_buffer desired; mret (long_seq b 0)
         else mret set_to_empty_representation
       else b ← capacitated_buffer desired; mret (long_seq b 0));
  k ← capacity s; _ ← lift (assert (desired <=? k)); mret s.

Definition copy_constructor other : M (array T) (storage_impl T) :=
  if is_small other then mret other
  else
    let n := size other in
    s ← initialize_capacity n;
    other_buffer ← cells other;
    s ← with_cells s (parallel_for 0 n (fun i buffer => x ← get other_buffer i; initialize buffer i x) copy_granularity);
    set_size s n.

(** The new object, and what [other] becomes *)
Definition move_from other : storage_impl T * storage_impl T := (other, set_to_empty_representation).
Definition storage_swap s other : storage_impl T * storage_impl T := (other, s).

Definition move_assign s other : M (array T) (storage_impl T * storage_impl T) :=
  _ ← clear s; mret (move_from other).

Definition ensure_capacity s (desired : nat) : M (array T) (storage_impl T) :=
  current ← capacity s;
  s ← (if current <? desired then
         let new_capacity := desired `max` (5 * current / 2) in
         new_buffer ← capacitated_buffer new_capacity;
         let n := size s in
         dest_buffer ← load new_buffer;
         current_buffer ← cells s;
         m ← lift (if is_trivial_allocator then uninitialized_relocate_n 0 n 0 (current_buffer, dest_buffer)
                   else parallel_for 0 n (fun i => move_and_destroy i i) 0 (current_buffer, dest_buffer));
         s ← with_cells s (fun _ => Ok m.1);
         _ ← store new_buffer (fun _ => m.2);
         _ ← free_long s;
         mret (long_seq new_buffer (bits 48 n))
       else mret s);
  k ← capacity s; _ ← lift (assert (desired <=? k)); mret s.

(** ** Ownership of a buffer

    [buf s c]: the object [s] owns the cells [c], which are all the cells of its buffer. *)

Definition buf s c : hpropI (array T) :=
  match s with
  | short_seq elements _ => ⟦elements = c /\ length c = short_capacity /\ use_sso = true⟧
  | long_seq None _ => ⟦c = [] /\ use_sso = false⟧
  | long_seq (Some b) _ => b ↦ c
  end%I.

Lemma pre_lift {A} (r : res A) a (Q : A -> hpropI (array T)) : r = Ok a -> Q a ⊢ pre (lift r) Q.
Proof. intros ->. apply pre_ret. Qed.

Lemma cells_spec s c : triple (buf s c) (cells s) (fun a => ⟦a = c⟧ ∗ buf s c).
Proof.
  iIntros (R) "Hb HR". destruct s as [el n|[b|] n]; simpl.
  - iDestruct "Hb" as %(-> & Hl & Hu). iApply pre_ret. iApply "HR". by iSplit.
  - iApply (pre_load with "Hb"). iIntros "Hb". iApply "HR". by iFrame.
  - iDestruct "Hb" as %(-> & Hu). iApply pre_ret. iApply "HR". by iSplit.
Qed.

Lemma with_cells_spec s c f c' : f c = Ok c' -> length c' = length c ->
  triple (buf s c) (with_cells s f) (fun t => ⟦size t = size s /\ data t = data s⟧ ∗ buf t c').
Proof.
  iIntros (Hf Hl R) "Hb HR". destruct s as [el n|[b|] n]; simpl.
  - iDestruct "Hb" as %(-> & Hs & Hu). iApply pre_bind. iApply pre_lift; [done|]. iApply pre_ret. iApply "HR".
    simpl. rw Hl. by iSplit.
  - iApply pre_bind. iApply (pre_load with "Hb"). iIntros "Hb". iApply pre_bind. iApply pre_lift; [done|].
    iApply pre_bind. iApply (pre_store with "Hb"). iIntros "Hb". iApply pre_ret. iApply "HR". by iFrame.
  - iDestruct "Hb" as %(-> & Hu). apply nil_length_inv in Hl as ->. iApply pre_bind. iApply pre_lift; [done|].
    iApply pre_ret. iApply "HR". by iSplit.
Qed.

Lemma capacity_spec s c : triple (buf s c) (capacity s) (fun k => ⟦k = length c⟧ ∗ buf s c).
Proof.
  iIntros (R) "Hb HR". destruct s as [el n|[b|] n]; simpl.
  - iDestruct "Hb" as %(-> & Hs & Hu). iApply pre_ret. iApply "HR". by iSplit.
  - iApply pre_bind. iApply (pre_load with "Hb"). iIntros "Hb". iApply pre_ret. iApply "HR". by iFrame.
  - iDestruct "Hb" as %(-> & Hu). iApply pre_ret. iApply "HR". by iSplit.
Qed.

Lemma free_long_spec s c : triple (buf s c) (free_long s) (fun _ => emp).
Proof.
  iIntros (R) "Hb HR". destruct s as [el n|[b|] n]; simpl.
  - iClear "Hb". iApply pre_ret. by iApply "HR".
  - iApply (pre_free with "Hb"). by iApply "HR".
  - iClear "Hb". iApply pre_ret. by iApply "HR".
Qed.

Lemma buf_small s c : is_small s = true -> buf s c ⊢ ⟦length c = short_capacity /\ use_sso = true⟧.
Proof. destruct s; [|done]. iIntros (_) "H". by iDestruct "H" as %(_ & Hl & Hu). Qed.

Lemma buf_empty : ⊢ ∃ c, ⟦Forall vacant c⟧ ∗ buf set_to_empty_representation c.
Proof.
  unfold set_to_empty_representation. destruct use_sso eqn:Hu; simpl.
  - iExists (uninitialized short_capacity). iSplit; iPureIntro; [apply Forall_vacant_None|].
    by rw length_uninitialized.
  - iExists []. by iSplit.
Qed.

Definition fits (n : nat) : Prop := (Z.of_nat n <= _max_size)%Z.

Lemma fits_lt n : fits n <-> (Z.of_nat n < 2 ^ 48)%Z.
Proof. unfold fits. replace _max_size with (2 ^ 48 - 1)%Z by done. lia. Qed.

(** [s] is a sequence of the elements [xs], with the capacity [k]. *)
Definition sequence_at s (xs : list T) (k : nat) : hpropI (array T) :=
  (∃ rest, ⟦size s = length xs /\ Forall vacant rest /\ k = length xs + length rest /\ fits (length xs)⟧ ∗
    buf s ((Some <$> xs) ++ rest))%I.

Lemma short_capacity_le : short_capacity <= 15.
Proof. unfold short_capacity. destruct sizeof; [simpl; lia|]. apply Nat.Div0.div_le_upper_bound. lia. Qed.

Lemma set_size_spec s c n : n <= length c -> fits n ->
  triple (buf s c) (set_size s n) (fun t => ⟦size t = n /\ data t = data s /\ is_small t = is_small s⟧ ∗ buf t c).
Proof.
  iIntros (Hn Hf R) "Hb HR". unfold set_size. iApply pre_bind. iApply (capacity_spec with "Hb").
  iIntros (k) "[-> Hb]". iApply pre_bind. iApply (pre_lift _ tt); [by rw (proj2 (Nat.leb_le _ _) Hn)|].
  iApply pre_ret. iApply "HR". destruct s as [el m|[b|] m]; simpl.
  - iDestruct "Hb" as %(-> & Hl & Hu). assert (Hc := short_capacity_le). rw bits_id; [by iSplit|done|lia].
  - iFrame. iPureIntro. split; [|done]. apply bits_id; [done|]. by apply fits_lt.
  - iDestruct "Hb" as %[-> Hu]. iSplit; [|done]. iPureIntro. simpl in Hn. by assert (n = 0) as -> by lia.
Qed.

(** [assert(capacity() >= desired)] *)
Lemma capacity_check s c n : n <= length c ->
  triple (buf s c) (k ← capacity s; _ ← lift (assert (n <=? k)); mret s) (fun t => ⟦t = s⟧ ∗ buf s c).
Proof.
  iIntros (Hn R) "Hb HR". iApply pre_bind. iApply (capacity_spec with "Hb"). iIntros (k) "[-> Hb]".
  iApply pre_bind. iApply (pre_lift _ tt); [by rw (proj2 (Nat.leb_le _ _) Hn)|]. iApply pre_ret. iApply "HR".
  by iFrame.
Qed.

Lemma destroy_all_spec s xs k :
  triple (sequence_at s xs k) (destroy_all s) (fun t => ∃ c, ⟦is_small t = is_small s⟧ ∗ buf t c).
Proof.
  iIntros (R) "(%rest & (%Hs & %Hv & _) & Hb) HR". unfold destroy_all. destruct is_trivially_destructible eqn:Ht; simpl.
  { iApply pre_ret. iApply "HR". iExists _. by iFrame. }
  rw Hs. iApply (with_cells_spec with "Hb").
  { apply (parallel_for_cells (replicate (length xs) None) _ _ 0); [apply length_replicate|]. intros i z a Hz Ha Hi.
    apply lookup_replicate in Hz as [-> Hz]. destruct (lookup_lt_is_Some_2 xs i Hz) as [x Hx].
    unfold destroy. rw Hi lookup_app_l ?length_fmap //. by rw list_lookup_fmap Hx Ht. }
  { by rw length_scatter. }
  iIntros (t) "[[%Hst %Hd] Hb]". iApply "HR". iExists _. iFrame. iPureIntro. by destruct s as [|[]], t as [|[]].
Qed.

Lemma clear_without_destruction_spec s c :
  triple (buf s c) (clear_without_destruction s) (fun t => ⟦t = set_to_empty_representation⟧).
Proof.
  iIntros (R) "Hb HR". unfold clear_without_destruction. iApply pre_bind. destruct (is_small s) eqn:Hs; simpl.
  - iApply pre_ret. iDestruct (buf_small with "Hb") as "_"; [done|]. iApply pre_ret. by iApply "HR".
  - iApply (free_long_spec with "Hb"). iIntros (_) "_". iApply pre_ret. by iApply "HR".
Qed.

(** [clear] frees what the sequence owns. *)
Lemma clear_spec s xs k : triple (sequence_at s xs k) (clear s) (fun t => ⟦t = set_to_empty_representation⟧).
Proof.
  iIntros (R) "Hs HR". unfold clear. iApply pre_bind. destruct (is_small s) eqn:Hs; simpl.
  - iApply pre_ret. iDestruct "Hs" as (rest) "[_ Hb]". iDestruct (buf_small with "Hb") as "_"; [done|].
    iApply pre_ret. by iApply "HR".
  - iApply pre_bind. iApply (destroy_all_spec with "Hs"). iIntros (t) "(%c & %Ht & Hb)".
    iApply (free_long_spec with "Hb"). iIntros (_) "_". iApply pre_ret. by iApply "HR".
Qed.

Lemma fits_0 : fits 0.
Proof. unfold fits, _max_size. by vm_compute. Qed.

Lemma sequence_at_empty : ⊢ ∃ k, sequence_at set_to_empty_representation [] k.
Proof.
  iDestruct buf_empty as (c) "[%Hv Hb]". iExists (length c), c. iSplit; [iPureIntro|by simpl].
  split; [by unfold set_to_empty_representation; destruct use_sso|]. split; [done|]. split; [done|]. apply fits_0.
Qed.

Lemma initialize_capacity_spec n :
  triple emp (initialize_capacity n) (fun s => ∃ c, ⟦Forall vacant c /\ n <= length c /\ size s = 0⟧ ∗ buf s c).
Proof.
  iIntros (R) "_ HR". unfold initialize_capacity. iApply pre_bind.
  iApply (pre_wand _ (fun s => ∃ c, ⟦Forall vacant c /\ n <= length c /\ size s = 0⟧ ∗ buf s c) with "[]")%I.
  - assert (⊢ pre (b ← capacitated_buffer n; mret (long_seq b 0))
      (fun s => ∃ c, ⟦Forall vacant c /\ n <= length c /\ size s = 0⟧ ∗ buf s c)) as Hlong.
    { iApply pre_bind. iApply pre_new. iIntros (b) "Hb". iApply pre_ret. iExists (uninitialized n). iFrame. iPureIntro.
      split; [apply Forall_vacant_None|]. by rw length_uninitialized. }
    destruct use_sso eqn:Hu; [destruct (Nat.ltb_spec short_capacity n)|]; [done| |done].
    iApply pre_ret. unfold set_to_empty_representation. rw Hu. iExists (uninitialized short_capacity).
    rw /= length_uninitialized. iPureIntro. split; [|done]. split; [apply Forall_vacant_None|done].
  - iIntros (s) "(%c & (%Hv & %Hn & %Hs) & Hb)". iApply (capacity_check with "Hb"); [done|].
    iIntros (t) "[-> Hb]". iApply "HR". iExists c. by iFrame.
Qed.

Lemma copy_constructor_spec other xs k :
  triple (sequence_at other xs k) (copy_constructor other)
    (fun s => sequence_at other xs k ∗ ∃ l, sequence_at s xs l).
Proof.
  iIntros (R) "(%rest & (%Hs & %Hv & %Hk & %Hf) & Hb) HR". unfold copy_constructor.
  destruct (is_small other) eqn:Ho; simpl.
  { iDestruct (buf_small with "Hb") as %[Hl Hu]; [done|]. destruct other as [el n|]; [|done]. iDestruct "Hb" as %(-> & _).
    iApply pre_ret. iApply "HR". iSplitL; [|iExists k]; iExists rest; by iSplit. }
  rw Hs. iApply pre_bind. iApply (initialize_capacity_spec with "[//]"). iIntros (s) "(%c & (%Hvc & %Hc & %Hs0) & Hc)".
  iApply pre_bind. iApply (cells_spec with "Hb"). iIntros (ob) "[-> Hb]".
  assert (c = [] ++ take (length xs) c ++ drop (length xs) c) as Ec by (by rw /= take_drop).
  iApply pre_bind. iApply (with_cells_spec _ _ _ ((Some <$> xs) ++ drop (length xs) c) with "Hc").
  { rw {1}Ec. apply (construct_all _ xs [] (take (length xs) c)); [by rw length_take; lia|by apply Forall_take|].
    intros i x Hx. apply get_eq, lookup_app_l_Some. by rw list_lookup_fmap Hx. }
  { rw length_app length_fmap length_drop. lia. }
  iIntros (t) "[_ Hc]". iApply (set_size_spec with "Hc"); [rw length_app length_fmap; lia|done|].
  iIntros (u) "[(%Hu & _) Hc]". iApply "HR". iSplitL "Hb"; [iExists rest; by iFrame|].
  iExists _, _. iFrame. iPureIntro. repeat split; [done|by apply Forall_drop|done].
Qed.

(** [ensure_capacity] makes room, and does nothing if there is room. *)
Definition grown (k desired : nat) : nat := if k <? desired then desired `max` (5 * k / 2) else k.

Lemma grown_id k desired : desired <= k -> grown k desired = k.
Proof. intros Hd. unfold grown. destruct (Nat.ltb_spec k desired); lia. Qed.

Lemma grown_le k desired : desired <= grown k desired.
Proof. unfold grown. destruct (Nat.ltb_spec k desired); lia. Qed.

Lemma grown_ge k desired : k <= grown k desired.
Proof. unfold grown. destruct (Nat.ltb_spec k desired); [|lia]. assert (k <= 5 * k / 2); [|lia]. apply Nat.div_le_lower_bound; lia. Qed.

Context `{!FitsChunk T}.

Lemma ensure_capacity_spec s xs k desired :
  triple (sequence_at s xs k) (ensure_capacity s desired)
    (fun t => ⟦desired <= k -> t = s⟧ ∗ sequence_at t xs (grown k desired)).
Proof.
  iIntros (R) "(%rest & (%Hs & %Hv & %Hk & %Hf) & Hb) HR". unfold ensure_capacity, grown.
  iApply pre_bind. iApply (capacity_spec with "Hb"). iIntros (k') "[-> Hb]".
  rw length_app length_fmap -Hk. iApply pre_bind. destruct (Nat.ltb_spec k desired) as [Hd|Hd].
  - set (cap := desired `max` (5 * k / 2)). assert (length xs <= cap) as Hcap by lia.
    iApply pre_bind. iApply pre_new. iIntros (b) "Hn". rw Hs.
    iApply pre_bind. iApply (pre_load with "Hn"). iIntros "Hn".
    iApply pre_bind. iApply (cells_spec with "Hb"). iIntros (cb) "[-> Hb]".
    iApply pre_bind. iApply pre_lift; [by apply relocate_front|].
    iApply pre_bind. iApply (with_cells_spec with "Hb"); [done|by rw !length_app length_replicate length_fmap|].
    iIntros (t) "[[_ %Ht] Hb]". iApply pre_bind. iApply (pre_store with "Hn"). iIntros "Hn".
    iApply pre_bind. iApply (free_long_spec with "Hb"). iIntros (_) "_". iApply pre_ret. iApply (capacity_check (long_seq (Some b) _) with "Hn").
    { simpl. rw length_app length_fmap length_uninitialized. lia. }
    iIntros (u) "[-> Hn]". iApply "HR". iSplit; [iPureIntro; lia|]. iExists (uninitialized (cap - length xs)). iFrame.
    iPureIntro. rw length_uninitialized. repeat split; [|apply Forall_vacant_None|lia|done].
    apply bits_id; [done|]. by apply fits_lt.
  - iApply pre_ret. iApply (capacity_check with "Hb"); [by rw length_app length_fmap -Hk|].
    iIntros (t) "[-> Hb]". iApply "HR". iSplit; [done|]. iExists rest. by iFrame.
Qed.
End storage.
