(* ===== verification/Sequence.v ===== *)
(** * Sequences

    The container of [src/lib/parlay/sequence.h].  A method takes the object and returns what
    it has become, after its result.  An iterator is a pointer, where the buffer begins and an
    index, so that it can dangle; a [const value_type&] may be a reference to an element of a
    sequence, which is read when the code reads it.  What a temporary owns is freed where its
    destructor runs. *)

From S2P Require Import Prelude.
From iris.proofmode Require Import proofmode.
From S2P Require Import ParArray SequenceOps Relocation HeapLogic SequenceBase.

#[local] Open Scope nat_scope.

Definition iterator : Type := base * nat.

(** [last - first] *)
Definition distance (first last : iterator) : res nat :=
  if decide (first.1 = last.1) then Ok (size_sub last.2 first.2) else Err BadPtr.

(** [const value_type&] *)
Inductive argument (T : Type) := value (x : T) | element (p : iterator).
Arguments value {T} x.
Arguments element {T} p.

(** The elements between two iterators, by the category of the iterators *)
Inductive source (T : Type) := random_access (r : range T) | forward (xs : list T) | input (xs : list T).
Arguments random_access {T} r.
Arguments forward {T} xs.
Arguments input {T} xs.

Section sequence.
Context {T : Type} `{!Traits T, !Schedule}.
Abbreviation sequence := (storage_impl T) (only parsing).
Abbreviation M := (M (array T)) (only parsing).
Implicit Types (s r : sequence) (p q : iterator) (v : argument T).

Definition begin s : iterator := (data s, 0).
Definition end_ s : iterator := (data s, size s).
Definition empty s : bool := size s =? 0.
Definition max_size : Z := if (2 ^ 64 - 1 <? _max_size)%Z then (2 ^ 64 - 1)%Z else _max_size.

(** [at]; [operator[]] does not look at the size. *)
Definition at_ s (i : nat) : M T := if size s <=? i then fail Thrown else at_index s i.
(** [s[i] = x] *)
Definition assign_index s (i : nat) (x : T) : M sequence := with_cells s (fun c => assign c i x).

Definition read_argument s v : M T :=
  match v with
  | value x => mret x
  | element (inline_buffer, i) => match s with short_seq elements _ => lift (get elements i) | long_seq _ _ => fail BadPtr end
  | element (no_buffer, i) => fail NullDeref
  | element (heap_buffer b, i) => c ← load (Some b); lift (get c i)
  end.

(** [n] copies of [v] at [end()]; without one, [v] is not read. *)
Definition fill_end s (n : nat) v : M sequence :=
  if n =? 0 then mret s
  else
    x ← read_argument s v;
    with_cells s (parallel_for 0 n (fun i c => initialize c (size s + i) x) copy_granularity).

(** ** Construction *)

Definition uninitialized_sequence (n : nat) : M sequence := s ← initialize_capacity n; set_size s n.

Definition from_function (n : nat) (f : nat -> res T) (granularity : nat) : M sequence :=
  s ← initialize_capacity n;
  s ← set_size s n;
  with_cells s (parallel_for 0 n (fun i c => x ← f i; initialize c i x) granularity).

Definition initialize_default (n : nat) : M sequence :=
  s ← initialize_capacity n;
  s ← with_cells s (parallel_for 0 n (fun i c => initialize c i value_initialized) initialization_granularity);
  set_size s n.

Definition initialize_fill (n : nat) v : M sequence :=
  s ← initialize_capacity n;
  s ← fill_end s n v;
  set_size s n.

Definition emplace_back s v : M (iterator * sequence) :=
  s ← ensure_capacity s (size s + 1);
  x ← read_argument s v;
  s ← with_cells s (fun c => initialize c (size s) x);
  s ← set_size s (size s + 1);
  mret ((data s, size_sub (size s) 1), s).

Definition push_back := emplace_back.

Fixpoint push_all s (xs : list T) : M sequence :=
  match xs with
  | [] => mret s
  | x :: xs => '(_, s) ← push_back s (value x); push_all s xs
  end.

Definition initialize_range (src : source T) : M sequence :=
  match src with
  | random_access r =>
      let n := range_size r in
      s ← initialize_capacity n;
      s ← with_cells s (parallel_for 0 n (fun i c => x ← subscript r i; initialize c i x) copy_granularity);
      set_size s n
  | forward xs =>
      let n := length xs in
      s ← initialize_capacity n;
      s ← with_cells s (for_ 0 n (fun i c => x ← get (Some <$> xs) i; initialize c i x));
      set_size s n
  | input xs => push_all set_to_empty_representation xs
  end.

(** ** Appending *)

Definition append_n s (n : nat) v : M (iterator * sequence) :=
  s ← ensure_capacity s (size s + n);
  let it := end_ s in
  s ← fill_end s n v;
  s ← set_size s (size s + n);
  mret (it, s).

Definition append_range s (src : source T) : M (iterator * sequence) :=
  match src with
  | random_access r =>
      let n := range_size r in
      s ← ensure_capacity s (size s + n);
      let it := end_ s in
      s ← with_cells s (parallel_for 0 n (fun i c => x ← subscript r i; initialize c (size s + i) x) copy_granularity);
      s ← set_size s (size s + n);
      mret (it, s)
  | forward xs =>
      let n := length xs in
      s ← ensure_capacity s (size s + n);
      let it := end_ s in
      s ← with_cells s (for_ 0 n (fun i c => x ← get (Some <$> xs) i; initialize c (size s + i) x));
      s ← set_size s (size s + n);
      mret (it, s)
  | input xs => s ← push_all s xs; mret ((data s, size_sub (size s) (length xs)), s)
  end.

(** [n] objects from [first] in the buffer of [s] go to [result] in the buffer of [r]. *)
Definition relocate_between s (first n : nat) r (result : nat) : M (sequence * sequence) :=
  a ← cells s; b ← cells r;
  m ← lift (uninitialized_relocate_n first n result (a, b));
  s ← with_cells s (fun _ => Ok m.1);
  r ← with_cells r (fun _ => Ok m.2);
  mret (s, r).

(** [append(sequence_type&& r)], with what is left of [r] *)
Definition append_move s r : M (iterator * sequence * sequence) :=
  k ← capacity s;
  if empty s && (k <=? size r) then
    let '(b, r) := move_from r in
    let '(s, b) := storage_swap s b in
    _ ← clear b;
    mret (begin s, s, r)
  else
    let new_size := size s + size r in
    s ← ensure_capacity s new_size;
    let append_begin := end_ s in
    '(r, s) ← relocate_between r 0 (size r) s (size s);
    r ← clear_without_destruction r;
    _ ← lift (assert (empty r));
    s ← set_size s new_size;
    mret (append_begin, s, r).

(** The elements from [p] on, and the sequence without them *)
Definition pop_tail s p : M (sequence * sequence) :=
  if decide (p = end_ s) then mret (set_to_empty_representation, s)
  else
    n ← lift (distance p (end_ s));
    the_tail ← uninitialized_sequence n;
    pos ← lift (distance (begin s) p);
    '(s, the_tail) ← relocate_between s pos n the_tail 0;
    s ← set_size s pos;
    mret (the_tail, s).

(** ** Insertion and removal *)

Definition emplace s p v : M (iterator * sequence) :=
  if decide (p = end_ s) then emplace_back s v
  else
    pos ← lift (distance (begin s) p);
    s ← ensure_capacity s (size s + 1);
    let p := (data s, pos) in
    '(the_tail, s) ← pop_tail s p;
    '(it, s) ← emplace_back s v;
    '(_, s, the_tail) ← append_move s the_tail;
    _ ← clear the_tail;
    mret (it, s).

Definition insert := emplace.

Definition insert_n s p (n : nat) v : M (iterator * sequence) :=
  pos ← lift (distance (begin s) p);
  s ← ensure_capacity s (size s + n);
  let p := (data s, pos) in
  '(the_tail, s) ← pop_tail s p;
  '(it, s) ← append_n s n v;
  '(_, s, the_tail) ← append_move s the_tail;
  _ ← clear the_tail;
  mret (it, s).

Definition insert_range s p (src : source T) : M (iterator * sequence) :=
  '(the_tail, s) ← pop_tail s p;
  '(it, s) ← append_range s src;
  pos ← lift (distance (begin s) it);
  '(_, s, the_tail) ← append_move s the_tail;
  _ ← clear the_tail;
  mret ((data s, pos), s).

Definition insert_move s p r : M (iterator * sequence * sequence) :=
  idx ← lift (distance (begin s) p);
  '(the_tail, s) ← pop_tail s p;
  '(_, s, r) ← append_move s r;
  '(_, s, the_tail) ← append_move s the_tail;
  _ ← clear the_tail;
  mret ((data s, idx), s, r).

Definition pop_back s : M sequence :=
  s ← with_cells s (fun c => destroy c (size_sub (size s) 1));
  set_size s (size_sub (size s) 1).

Definition resize s (new_size : nat) v : M sequence :=
  let current := size s in
  s ← (if new_size <? current then
         if negb is_trivially_destructible
         then with_cells s (parallel_for new_size current (fun i c => destroy c i) 0)
         else mret s
       else
         s ← ensure_capacity s new_size;
         k ← capacity s; _ ← lift (assert (new_size <=? k));
         fill_end s (new_size - current) v);
  set_size s new_size.

Definition reserve s (amount : nat) : M sequence :=
  s ← ensure_capacity s amount;
  k ← capacity s; _ ← lift (assert (amount <=? k)); mret s.

Definition erase s q : M (iterator * sequence) :=
  if decide (q = (data s, size_sub (size s) 1)) then
    s ← pop_back s; mret (end_ s, s)
  else
    pos ← lift (distance (begin s) q);
    '(the_tail, s) ← pop_tail s (q.1, q.2 + 1);
    s ← pop_back s;
    '(_, s, the_tail) ← append_move s the_tail;
    _ ← clear the_tail;
    mret ((data s, pos), s).

Definition erase_range s (q1 q2 : iterator) : M (iterator * sequence) :=
  pos ← lift (distance (begin s) q1);
  '(the_tail, s) ← pop_tail s q2;
  d ← lift (distance q1 q2);
  s ← resize s (size_sub (size s) d) (value value_initialized);
  '(_, s, the_tail) ← append_move s the_tail;
  _ ← clear the_tail;
  mret ((data s, pos), s).

(** ** Assignment *)

Definition assign_range s (src : source T) : M sequence := _ ← clear s; initialize_range src.
Definition assign_fill s (n : nat) v : M sequence := _ ← clear s; initialize_fill n v.

(** [operator=(sequence_type b)] of a copy, and of something moved *)
Definition copy_assign s other : M sequence :=
  b ← copy_constructor other;
  let '(s, b) := storage_swap s b in
  _ ← clear b; mret s.

Definition move_assign_sequence s other : M (sequence * sequence) :=
  let '(b, other) := move_from other in
  let '(s, b) := storage_swap s b in
  _ ← clear b; mret (s, other).

(** ** Reading *)

Definition view s : M (range T) := c ← cells s; mret (Range (size s) (get c)).

(** [to_sequence(cut(s, e))] *)
Definition subseq s (ss ee : nat) : M sequence := r ← view s; initialize_range (random_access (cut r ss ee)).
Definition substr s (pos count : nat) : M sequence := subseq s pos (pos + count).

Section equality.
Context (eqb : T -> T -> bool).

Fixpoint equal_prefix (self other : range T) (i n : nat) : res bool :=
  match n with
  | 0 => Ok true
  | S n => x ← subscript self i; y ← subscript other i;
           if eqb x y then equal_prefix self other (i + 1) n else Ok false
  end.

Fixpoint equal_blocks (fuel : nat) (self other : range T) (n granularity start block_size : nat) (matches : bool) : res bool :=
  match fuel with
  | 0 => Err OutOfFuel
  | S fuel =>
      if start <? n then
        let last := n `min` (start + block_size) in
        matches ← parallel_for start last (fun j (matches : bool) =>
          x ← subscript self j; y ← subscript other j; Ok (if eqb x y then matches else false)) granularity matches;
        if (matches : bool) then equal_blocks fuel self other n granularity (start + block_size) (block_size * 2) matches else Ok false
      else Ok matches
  end.

Definition compare_equal (fuel : nat) (self other : range T) (granularity : nat) : res bool :=
  let granularity := if granularity =? 0 then chunk_bytes / sizeof else granularity in
  let n := range_size self in
  let i := granularity `min` n in
  b ← equal_prefix self other 0 i;
  if negb (b : bool) then Ok false
  else if i =? n then Ok true
  else equal_blocks fuel self other n granularity granularity (2 * granularity) true.

Definition operator_eq (fuel : nat) s other : M bool :=
  if size s =? size other
  then self ← view s; o ← view other; lift (compare_equal fuel self o 0)
  else mret false.
End equality.

(** [std::hash] *)
Fixpoint hash_from (hash : T -> Z) (h : Z) (xs : list T) : Z :=
  match xs with
  | [] => h
  | x :: xs => hash_from hash (wrap64 (wrap64 (wrap64 (Z.shiftl h 5) + h) + hash x)) xs
  end.
Definition hash_sequence (hash : T -> Z) s : M Z :=
  c ← cells s; xs ← lift (elements (take (size s) c)); mret (hash_from hash 5381 xs).
End sequence.
