(* ===== verification/SequenceSpec.v ===== *)
(** * The methods of sequences, one by one

    [sequence_at s xs k] says that the object [s] owns the elements [xs] in a buffer of [k]
    cells.  Each method is proved to run without error on what the sequence owns, to end with
    the elements that the method's contract says, and to return an iterator into the new
    buffer.  The logic is linear, so nothing is leaked. *)

From S2P Require Import Prelude.
From iris.proofmode Require Import proofmode.
From S2P Require Import ParArray SequenceOps Relocation HeapLogic SequenceBase Sequence.

#[local] Open Scope nat_scope.

(** [src] yields the elements [xs]. *)
Definition yields {T} (src : source T) (xs : list T) : Prop :=
  match src with random_access r => r ▷ xs | forward ys | input ys => ys = xs end.

Section spec.
Context {T : Type} `{!Traits T, !Schedule, !FitsChunk T}.
Implicit Types (s r : storage_impl T) (xs ys : list T) (c : array T).

(** Weakening the capacity *)
Definition sequence_of s xs : hpropI (array T) := (∃ k, ⟦length xs <= k⟧ ∗ sequence_at s xs k)%I.

Lemma sequence_at_of s xs k : sequence_at s xs k ⊢ sequence_of s xs.
Proof.
  iIntros "(%rest & (%H1 & %H2 & %H3 & %H4) & Hb)". iExists k. iSplit; [iPureIntro; lia|]. iExists rest. by iFrame.
Qed.

Lemma sequence_at_size s xs k : sequence_at s xs k ⊢ ⟦size s = length xs /\ length xs <= k /\ fits (length xs)⟧ ∗ sequence_at s xs k.
Proof.
  iIntros "(%rest & (%H1 & %H2 & %H3 & %H4) & Hb)". iSplit; [iPureIntro; repeat split; done || lia|]. iExists rest. by iFrame.
Qed.

Lemma fits_le m n : m <= n -> fits n -> fits m.
Proof. unfold fits. lia. Qed.

Lemma sequence_at_intro s xs rest : size s = length xs -> Forall vacant rest -> fits (length xs) ->
  buf s ((Some <$> xs) ++ rest) ⊢ sequence_at s xs (length xs + length rest).
Proof. iIntros (Hs Hv Hf) "Hb". iExists rest. by iFrame. Qed.

Lemma clear_empty : triple emp (clear set_to_empty_representation) (fun t : storage_impl T => ⟦t = set_to_empty_representation⟧).
Proof.
  iIntros (R) "_ HR". iDestruct sequence_at_empty as (k) "H". iApply (clear_spec with "H"). done.
Qed.

Lemma distance_begin s i : distance (begin s) (data s, i) = Ok i.
Proof. unfold distance. simpl. rw decide_True // size_sub_le; [|lia]. by rw Nat.sub_0_r. Qed.

Lemma distance_same b i j : i <= j -> distance (b, i) (b, j) = Ok (j - i).
Proof. intros Hij. unfold distance. simpl. rw decide_True // size_sub_le //. Qed.

(** ** Writing to the vacant cells *)

Lemma lookup_end {X} xs ys (f : T -> X) rest i : ((f <$> xs) ++ rest) !! (length xs + i) = rest !! i.
Proof. rw lookup_app_r length_fmap; [|lia]. f_equal. lia. Qed.

(** A length that is at most another one that fits *)
Ltac solve_fits := eapply fits_le; [|eassumption]; rw /= ?length_app /=; lia.

(** A computation on the cells behind the last element that constructs [ys] there *)
Definition constructs_at (n : nat) ys (f : array T -> res (array T)) : Prop :=
  forall a v d, length a = n -> length v = length ys -> Forall vacant v -> f (a ++ v ++ d) = Ok (a ++ (Some <$> ys) ++ d).

Lemma constructs_one x s xs : size s = length xs -> constructs_at (length xs) [x] (fun c => initialize c (size s) x).
Proof.
  intros Hs a v d Ha Hv Hvac. rw Hs. destruct v as [|z [|]]; try done. apply Forall_cons in Hvac as [Hz _].
  rw (initialize_eq _ _ _ z) //; rw -Ha.
  - by rw insert_app_r_alt // Nat.sub_diag.
  - by rw lookup_app_r // Nat.sub_diag.
Qed.

Lemma constructs_parallel (f : nat -> res T) ys n g m : m = length ys -> (forall i x, ys !! i = Some x -> f i = Ok x) ->
  constructs_at n ys (parallel_for 0 m (fun i c => x ← f i; initialize c (n + i) x) g).
Proof. intros -> Hf a v d <- Hl Hv. by apply construct_all. Qed.

Lemma constructs_for ys n : constructs_at n ys (for_ 0 (length ys) (fun i c => x ← get (Some <$> ys) i; initialize c (n + i) x)).
Proof.
  intros a v d Ha Hl Hv. destruct (decide (length ys = 1)) as [H1|H1].
  { destruct ys as [|y []]; try done. destruct v as [|z [|]]; try done. apply Forall_cons in Hv as [Hz _].
    unfold for_. simpl. rw Nat.add_0_r (initialize_eq _ _ _ z) //; rw -Ha.
    - by rw /= insert_app_r_alt // Nat.sub_diag.
    - by rw lookup_app_r // Nat.sub_diag. }
  rw -(construct_all (get (Some <$> ys)) ys a v d (length ys)) //.
  - unfold parallel_for. destruct (Nat.eqb_spec (0 + 1) (length ys)); [lia|]. by rw Nat.sub_0_r Nat.leb_refl Ha.
  - intros i x Hi. apply get_eq. by rw list_lookup_fmap Hi.
Qed.

Lemma construct_spec s xs k ys f (m : storage_impl T -> nat) :
  constructs_at (length xs) ys f -> length xs + length ys <= k -> fits (length xs + length ys) ->
  (forall t, size t = length xs -> m t = length xs + length ys) ->
  triple (sequence_at s xs k) (t ← with_cells s f; set_size t (m t))
    (fun t => ⟦data t = data s⟧ ∗ sequence_at t (xs ++ ys) k).
Proof.
  iIntros (Hf Hk Hfit Hm R) "(%rest & (%Hs & %Hv & %Hkk & %Hxs) & Hb) HR".
  assert (exists v d, rest = v ++ d /\ length v = length ys) as (v & d & -> & Hl).
  { exists (take (length ys) rest), (drop (length ys) rest). split; [by rw take_drop|]. rw length_take. lia. }
  apply Forall_app in Hv as [Hv Hd]. rw length_app in Hkk.
  iApply pre_bind. iApply (with_cells_spec with "Hb"); [apply Hf; [by rw length_fmap|done..]|rw !length_app !length_fmap; lia|].
  iIntros (t) "[[%Hst %Hdt] Hb]". rw Hm; [|by rw Hst].
  iApply (set_size_spec with "Hb"); [rw !length_app !length_fmap; lia|done|].
  iIntros (u) "[(%Hu & %Hdu & _) Hb]". iApply "HR". iSplit; [by rw Hdu Hdt|]. iExists d.
  rw fmap_app -(assoc_L (++)). iFrame. iPureIntro. rw length_app. repeat split; done || lia.
Qed.

Lemma construct_then {A} s xs k ys f (m : storage_impl T -> nat) (g : storage_impl T -> M (array T) A) R :
  constructs_at (length xs) ys f -> length xs + length ys <= k -> fits (length xs + length ys) ->
  (forall t, size t = length xs -> m t = length xs + length ys) ->
  sequence_at s xs k ⊢ (∀ t, ⟦data t = data s⟧ -∗ sequence_at t (xs ++ ys) k -∗ pre (g t) R) -∗
    pre (t ← with_cells s f; t ← set_size t (m t); g t) R.
Proof.
  iIntros (Hf Hk Hfit Hm) "Hs HR".
  iApply (pre_assoc (with_cells s f) (fun t => set_size t (m t)) g). iApply pre_bind.
  iApply (construct_spec with "Hs"); [done..|]. iIntros (t) "[Hd Hs]". iApply ("HR" with "Hd Hs").
Qed.

Lemma relocate_between_spec s r (a b c d v : array T) ys i n j : i = length a -> n = length ys -> j = length c ->
  length v = length ys -> Forall vacant v ->
  triple (buf s (a ++ (Some <$> ys) ++ b) ∗ buf r (c ++ v ++ d)) (relocate_between s i n r j)
    (fun t => ⟦size t.1 = size s /\ data t.1 = data s /\ size t.2 = size r /\ data t.2 = data r⟧ ∗
      buf t.1 (a ++ replicate (length ys) None ++ b) ∗ buf t.2 (c ++ (Some <$> ys) ++ d)).
Proof.
  iIntros (-> -> -> Hl Hv R) "[Hs Hr] HR". unfold relocate_between.
  iApply pre_bind. iApply (cells_spec with "Hs"). iIntros (x) "[-> Hs]".
  iApply pre_bind. iApply (cells_spec with "Hr"). iIntros (x) "[-> Hr]".
  iApply pre_bind. iApply pre_lift; [by apply relocate_middle|].
  iApply pre_bind. iApply (with_cells_spec with "Hs"); [done|rw /= !length_app length_replicate length_fmap; lia|].
  iIntros (t) "[[%H1 %H2] Hs]".
  iApply pre_bind. iApply (with_cells_spec with "Hr"); [done|rw /= !length_app length_fmap; lia|].
  iIntros (u) "[[%H3 %H4] Hr]". iApply pre_ret. iApply "HR". by iFrame.
Qed.

Lemma uninitialized_sequence_spec n : fits n ->
  triple emp (uninitialized_sequence n) (fun t => ∃ c, ⟦size t = n /\ n <= length c /\ Forall vacant c⟧ ∗ buf t c).
Proof.
  iIntros (Hn R) "_ HR". iApply pre_bind. iApply (initialize_capacity_spec with "[//]").
  iIntros (s) "(%c & (%Hv & %Hc & _) & Hb)". iApply (set_size_spec with "Hb"); [done|done|].
  iIntros (t) "[(%Ht & _) Hb]". iApply "HR". iExists c. by iFrame.
Qed.

(** [pop_tail] splits the sequence; iterators into what is left of it stay valid. *)
Lemma pop_tail_spec s xs ys k :
  triple (sequence_at s (xs ++ ys) k) (pop_tail s (data s, length xs))
    (fun t => ⟦data t.2 = data s⟧ ∗ sequence_of t.1 ys ∗ sequence_at t.2 xs k).
Proof.
  iIntros (R) "Hs HR". iDestruct (sequence_at_size with "Hs") as "[(%Hs & %Hk & %Hf) Hs]". rw length_app in Hs Hk Hf.
  unfold pop_tail, end_. destruct (decide _) as [E|E].
  - injection E as E. assert (ys = []) as -> by (apply nil_length_inv; lia). rw app_nil_r. iApply pre_ret. iApply "HR".
    iSplit; [done|]. iFrame. iDestruct sequence_at_empty as (k') "He". by iApply sequence_at_of.
  - iApply pre_bind. iApply pre_lift; [apply distance_same; lia|].
    replace (size s - length xs) with (length ys) by lia.
    iApply pre_bind. iApply (uninitialized_sequence_spec with "[//]"); [by solve_fits|].
    iIntros (t) "(%c & (%Ht & %Hc & %Hv) & Hc)".
    iApply pre_bind. iApply pre_lift; [apply distance_begin|].
    iDestruct "Hs" as (rest) "[(%Hs' & %Hvr & %Hkr & _) Hb]". rw fmap_app -(assoc_L (++)).
    iApply pre_bind. rw -(take_drop (length ys) c).
    iApply (relocate_between_spec _ _ (Some <$> xs) rest [] (drop (length ys) c) (take (length ys) c) ys with "[$Hb $Hc]");
      [by rw length_fmap|done|done|rw length_take; lia|by apply Forall_take|].
    iIntros ([u w]) "((%H1 & %H2 & %H3 & %H4) & Hb & Hc)". simpl in *.
    iApply pre_bind. iApply (set_size_spec with "Hb"); [rw length_app length_fmap; lia|by solve_fits|].
    iIntros (z) "[(%Hz & %Hdz & _) Hb]". iApply pre_ret. iApply "HR". simpl. iSplit; [by rw Hdz H2|]. iSplitL "Hc".
    + iApply sequence_at_of. iApply (sequence_at_intro with "Hc"); [by rw H3|by apply Forall_drop|by solve_fits].
    + iExists (replicate (length ys) None ++ rest). iFrame. iPureIntro. rw length_app length_replicate. rw length_app in Hkr.
      repeat split; [done|apply Forall_app; split; [apply Forall_vacant_None|done]|lia|by solve_fits].
Qed.

(** [append(sequence_type&&)]: iterators stay valid if there is room, except when the whole
    buffer of [r] is taken over. *)
Lemma append_move_spec s r xs ys k : fits (length xs + length ys) ->
  triple (sequence_at s xs k ∗ sequence_of r ys) (append_move s r)
    (fun t => ⟦t.2 = set_to_empty_representation /\ t.1.1 = (data t.1.2, length xs) /\
         (length xs + length ys <= k -> xs <> [] \/ length ys < k -> data t.1.2 = data s)⟧ ∗
      ∃ k', ⟦k <= k'⟧ ∗ sequence_at t.1.2 (xs ++ ys) k').
Proof.
  iIntros (Hf R) "[Hs (%kr & %Hkr & Hr)] HR". unfold append_move.
  iDestruct (sequence_at_size with "Hs") as "[(%Hsz & %Hk & _) Hs]".
  iDestruct (sequence_at_size with "Hr") as "[(%Hrz & _ & _) Hr]".
  iDestruct "Hs" as (rest) "[(%Hs & %Hv & %Hkk & %Hfx) Hb]". iApply pre_bind. iApply (capacity_spec with "Hb").
  iIntros (k') "[-> Hb]". rw length_app length_fmap -Hkk. unfold empty. destruct (_ && _) eqn:E.
  - apply andb_true_iff in E as [E1%Nat.eqb_eq E2%Nat.leb_le]. assert (xs = []) as -> by (apply nil_length_inv; lia).
    simpl. iApply pre_bind. iApply (clear_spec s [] k with "[Hb]"); [iExists rest; by iFrame|]. iIntros (t) "->".
    iApply pre_ret. iApply "HR". simpl. iSplit.
    + iPureIntro. repeat split; [done..|]. intros _ [?|?]; [done|]. lia.
    + iExists kr. iFrame. iPureIntro. lia.
  - iAssert (sequence_at s xs k) with "[Hb]" as "Hs"; [iExists rest; by iFrame|].
    iApply pre_bind. iApply (ensure_capacity_spec with "Hs"). iIntros (t) "[%Ht Hs]". rw Hsz Hrz in Ht |- *.
    assert (Hg := grown_le k (length xs + length ys)). assert (Hg' := grown_ge k (length xs + length ys)).
    set (k2 := grown k (length xs + length ys)) in *.
    iDestruct "Hs" as (rest2) "[(%Hs2 & %Hv2 & %Hk2 & _) Hb]". iDestruct "Hr" as (rest3) "[(%Hs3 & %Hv3 & _) Hr]".
    iApply pre_bind. rw -(take_drop (length ys) rest2).
    iApply (relocate_between_spec _ _ [] rest3 (Some <$> xs) (drop (length ys) rest2) (take (length ys) rest2) ys with "[$Hr $Hb]");
      [done|done|by rw length_fmap|rw length_take; lia|by apply Forall_take|].
    iIntros ([u w]) "((%H1 & %H2 & %H3 & %H4) & Hr & Hb)". simpl in *.
    iApply pre_bind. iApply (clear_without_destruction_spec with "Hr"). iIntros (x) "->".
    iApply pre_bind. iApply (pre_lift _ tt); [unfold set_to_empty_representation; by destruct use_sso|].
    iApply pre_bind. iApply (set_size_spec with "Hb"); [rw !length_app !length_fmap; lia|done|].
    iIntros (z) "[(%Hz & %Hdz & _) Hb]". iApply pre_ret. iApply "HR". simpl. iSplit.
    + iPureIntro. unfold end_. rw Hdz H4 Hs2. repeat split. intros Hroom _. by rw (Ht Hroom).
    + iExists k2. iSplit; [done|]. iExists (drop (length ys) rest2). rw fmap_app -(assoc_L (++)). iFrame. iPureIntro.
      rw !length_app length_drop. repeat split; [done|by apply Forall_drop|lia|done].
Qed.

(** ** Appending *)

Definition appended s xs ys k : iterator * storage_impl T -> hpropI (array T) := fun t =>
  (⟦t.1 = (data t.2, length xs) /\ (length xs + length ys <= k -> data t.2 = data s)⟧ ∗
    sequence_at t.2 (xs ++ ys) (grown k (length xs + length ys)))%I.

Lemma emplace_back_spec s xs k x : fits (length xs + 1) ->
  triple (sequence_at s xs k) (emplace_back s (value x)) (appended s xs [x] k).
Proof.
  iIntros (Hf R) "Hs HR". iDestruct (sequence_at_size with "Hs") as "[(%Hsz & %Hk & _) Hs]".
  iApply pre_bind. iApply (ensure_capacity_spec with "Hs"). iIntros (t) "[%Ht Hs]". rw Hsz in Ht |- *.
  iDestruct (sequence_at_size with "Hs") as "[(%Htz & _) Hs]".
  iApply pre_bind. iApply pre_ret.
  iApply (construct_then _ _ _ [x] _ (fun t => size t + 1) with "Hs");
    [by apply constructs_one|by apply (grown_le k (length xs + 1))|done|by intros u ->|].
  iIntros (u) "%Hd Hs". iDestruct (sequence_at_size with "Hs") as "[(%Hu & _) Hs]". iApply pre_ret. iApply "HR". iFrame.
  iPureIntro. simpl. rw Hu length_app /= size_sub_le; [|lia]. rw Nat.add_sub. split; [done|]. intros Hroom. by rw Hd Ht.
Qed.

Lemma fill_end_spec s xs k n x (m : storage_impl T -> nat) :
  length xs + n <= k -> fits (length xs + n) -> (forall t, size t = length xs -> m t = length xs + n) ->
  triple (sequence_at s xs k) (t ← fill_end s n (value x); set_size t (m t))
    (fun t => ⟦data t = data s⟧ ∗ sequence_at t (xs ++ replicate n x) k).
Proof.
  iIntros (Hk Hf Hm R) "Hs HR". unfold fill_end. destruct (Nat.eqb_spec n 0) as [->|Hn].
  - iApply pre_bind. iApply pre_ret. iDestruct "Hs" as (rest) "[(%Hs & %Hv & %Hkk & %Hxs) Hb]". rw Hm // Nat.add_0_r.
    iApply (set_size_spec with "Hb"); [rw length_app length_fmap; lia|done|].
    iIntros (t) "[(%Ht & %Hd & _) Hb]". iApply "HR". iSplit; [done|]. rw /= app_nil_r. iExists rest. by iFrame.
  - iDestruct (sequence_at_size with "Hs") as "[(%Hsz & _) Hs]".
    iApply (construct_spec _ _ _ (replicate n x) with "Hs"); rw ?length_replicate //.
    rw Hsz. apply (constructs_parallel (fun _ => Ok x) (replicate n x)); [by rw length_replicate|].
    by intros i y [-> _]%lookup_replicate.
Qed.

Lemma append_n_spec s xs k n x : fits (length xs + n) ->
  triple (sequence_at s xs k) (append_n s n (value x)) (appended s xs (replicate n x) k).
Proof.
  iIntros (Hf R) "Hs HR". iDestruct (sequence_at_size with "Hs") as "[(%Hsz & %Hk & _) Hs]".
  iApply pre_bind. iApply (ensure_capacity_spec with "Hs"). iIntros (t) "[%Ht Hs]". rw Hsz in Ht |- *.
  iDestruct (sequence_at_size with "Hs") as "[(%Htz & _) Hs]".
  iApply (pre_assoc (fill_end t n (value x)) (fun t => set_size t (size t + n))). iApply pre_bind.
  iApply (fill_end_spec _ _ _ _ _ (fun t => size t + n) with "Hs"); [by apply grown_le|done|by intros u ->|].
  iIntros (u) "[%Hd Hs]". iApply pre_ret. iApply "HR". unfold appended. rw length_replicate. iFrame. iPureIntro. simpl.
  unfold end_. rw Htz Hd. split; [done|]. intros Hroom. by rw Ht.
Qed.

Lemma push_all_spec s xs ys : fits (length xs + length ys) ->
  triple (sequence_of s xs) (push_all s ys) (fun t => sequence_of t (xs ++ ys)).
Proof.
  revert s xs. induction ys as [|y ys IH]; intros s xs Hf R; iIntros "Hs HR"; simpl.
  - rw app_nil_r. iApply pre_ret. by iApply "HR".
  - iDestruct "Hs" as (k) "[_ Hs]". iApply pre_bind. simpl in Hf.
    iApply (emplace_back_spec with "Hs"); [solve_fits|]. iIntros ([it t]) "[_ Hs]". simpl.
    iApply (IH _ (xs ++ [y]) with "[Hs]"); [solve_fits|by iApply sequence_at_of|].
    rw -(assoc_L (++)). iApply "HR".
Qed.

Lemma append_range_spec s xs ys src : yields src ys -> fits (length xs + length ys) ->
  triple (sequence_of s xs) (append_range s src) (fun t => ⟦t.1 = (data t.2, length xs)⟧ ∗ sequence_of t.2 (xs ++ ys)).
Proof.
  iIntros (Hsrc Hf R) "Hs HR". destruct src as [r|zs|zs]; simpl in Hsrc |- *; cycle 2.
  { subst zs. iApply pre_bind. iApply (push_all_spec with "Hs"); [done|]. iIntros (t) "(%k & %Hk & Hs)".
    iDestruct (sequence_at_size with "Hs") as "[(%Ht & _) Hs]". iApply pre_ret. iApply "HR". simpl.
    rw Ht length_app size_sub_le; [|lia]. rw Nat.add_sub. iSplit; [done|]. iExists k. by iFrame. }
  all: iDestruct "Hs" as (k) "[_ Hs]"; iDestruct (sequence_at_size with "Hs") as "[(%Hsz & _) Hs]".
  all: iApply pre_bind; iApply (ensure_capacity_spec with "Hs"); iIntros (t) "[_ Hs]".
  all: iDestruct (sequence_at_size with "Hs") as "[(%Ht & _) Hs]".
  - assert (Hr := shows_size _ _ Hsrc). rw Hr Hsz.
    iApply (construct_then _ _ _ ys _ (fun t => size t + length ys) with "Hs").
    { rw Ht. apply (constructs_parallel (subscript r)); [done|]. intros i x Hi. by eapply shows_get. }
    { apply grown_le. } { done. } { by intros u ->. }
    iIntros (u) "%Hd Hs". iApply pre_ret. iApply "HR". simpl. unfold end_. rw Ht Hd. iSplit; [done|]. by iApply sequence_at_of.
  - subst zs. rw Hsz. iApply (construct_then _ _ _ ys _ (fun t => size t + length ys) with "Hs").
    { rw Ht. apply constructs_for. } { apply grown_le. } { done. } { by intros u ->. }
    iIntros (u) "%Hd Hs". iApply pre_ret. iApply "HR". simpl. unfold end_. rw Ht Hd. iSplit; [done|]. by iApply sequence_at_of.
Qed.

(** ** Construction *)

Lemma initialize_capacity_at n : triple emp (initialize_capacity n) (fun s => ∃ k, ⟦n <= k⟧ ∗ sequence_at s [] k).
Proof.
  iIntros (R) "_ HR". iApply (initialize_capacity_spec with "[//]"). iIntros (s) "(%c & (%Hv & %Hc & %Hs) & Hb)".
  iApply "HR". iExists (length c). iSplit; [done|]. iApply (sequence_at_intro s [] c with "Hb"); [done|done|apply fits_0].
Qed.

Lemma sequence_of_empty : ⊢ sequence_of (set_to_empty_representation : storage_impl T) [].
Proof. iDestruct sequence_at_empty as (k) "H". by iApply sequence_at_of. Qed.

Lemma initialize_range_spec src ys : yields src ys -> fits (length ys) ->
  triple emp (initialize_range src) (fun t => sequence_of t ys).
Proof.
  iIntros (Hsrc Hf R) "_ HR". destruct src as [r|zs|zs]; simpl in Hsrc |- *; cycle 2.
  { subst zs. iApply (push_all_spec _ [] with "[]"); [done|iApply sequence_of_empty|done]. }
  all: iApply pre_bind; iApply (initialize_capacity_at with "[//]"); iIntros (s) "(%k & %Hk & Hs)".
  - assert (Hr := shows_size _ _ Hsrc). rw Hr in Hk |- *.
    iApply (construct_spec _ _ _ ys _ (fun _ => length ys) with "Hs").
    { apply (constructs_parallel (subscript r) ys 0); [done|]. intros i x Hi. by eapply shows_get. }
    { simpl. lia. } { done. } { done. }
    iIntros (t) "[_ Hs]". iApply "HR". by iApply sequence_at_of.
  - subst zs. iApply (construct_spec _ _ _ ys _ (fun _ => length ys) with "Hs").
    { apply (constructs_for ys 0). } { simpl. lia. } { done. } { done. }
    iIntros (t) "[_ Hs]". iApply "HR". by iApply sequence_at_of.
Qed.

Lemma initialize_default_spec n : fits n ->
  triple emp (initialize_default n) (fun t => sequence_of t (replicate n value_initialized)).
Proof.
  iIntros (Hf R) "_ HR". iApply pre_bind. iApply (initialize_capacity_at with "[//]"). iIntros (s) "(%k & %Hk & Hs)".
  iApply (construct_spec _ _ _ (replicate n value_initialized) _ (fun _ => n) with "Hs"); rw /= ?length_replicate //.
  - apply (constructs_parallel (fun _ => Ok value_initialized) _ 0); [by rw length_replicate|].
    by intros i y [-> _]%lookup_replicate.
  - iIntros (t) "[_ Hs]". iApply "HR". by iApply sequence_at_of.
Qed.

Lemma initialize_fill_spec n x : fits n ->
  triple emp (initialize_fill n (value x)) (fun t => sequence_of t (replicate n x)).
Proof.
  iIntros (Hf R) "_ HR". iApply pre_bind. iApply (initialize_capacity_at with "[//]"). iIntros (s) "(%k & %Hk & Hs)".
  iApply (fill_end_spec _ _ _ n x (fun _ => n) with "Hs"); [done..|].
  iIntros (t) "[_ Hs]". iApply "HR". by iApply sequence_at_of.
Qed.

Lemma from_function_spec n f (g : nat -> T) gran : fits n -> (forall i, i < n -> f i = Ok (g i)) ->
  triple emp (from_function n f gran) (fun t => sequence_of t (g <$> seq 0 n)).
Proof.
  iIntros (Hf Hg R) "_ HR". iApply (pre_assoc (initialize_capacity n) (fun s => set_size s n)).
  iApply pre_bind. iApply (uninitialized_sequence_spec with "[//]"); [done|].
  iIntros (s) "(%c & (%Hs & %Hc & %Hv) & Hb)".
  assert (length (g <$> seq 0 n) = n) as Hl by (by rw length_fmap length_seq).
  iApply (with_cells_spec _ _ _ ((Some <$> (g <$> seq 0 n)) ++ drop n c) with "Hb").
  - rw -{1}(take_drop n c). rw -{1}Hl.
    apply (construct_all f (g <$> seq 0 n) [] (take n c)); [rw Hl length_take; lia|by apply Forall_take|].
    intros i x Hi. apply list_lookup_fmap_Some in Hi as (j & -> & [-> Hj]%lookup_seq). by apply Hg.
  - rw length_app length_fmap Hl length_drop. lia.
  - iIntros (t) "[[%Ht %Hd] Hb]". iApply "HR". iApply sequence_at_of.
    iApply (sequence_at_intro with "Hb"); [by rw Ht Hl|by apply Forall_drop|by rw Hl].
Qed.

(** ** Insertion *)

Lemma sequence_of_at s xs : sequence_of s xs ⊢ ∃ k, ⟦size s = length xs /\ length xs <= k /\ fits (length xs)⟧ ∗ sequence_at s xs k.
Proof.
  iIntros "(%k & %Hk & Hs)". iDestruct (sequence_at_size with "Hs") as "[H Hs]". iExists k. iFrame.
Qed.

(** What the methods end with that cut off the tail and append it again *)
Lemma append_tail_then {A} s r xs ys k (g : storage_impl T -> M (array T) A) R : fits (length xs + length ys) ->
  sequence_at s xs k ∗ sequence_of r ys ⊢
    (∀ t, ⟦length xs + length ys <= k -> xs <> [] \/ length ys < k -> data t = data s⟧ -∗
       sequence_of t (xs ++ ys) -∗ pre (g t) R) -∗
    pre ('(_, s, r) ← append_move s r; _ ← clear r; g s) R.
Proof.
  iIntros (Hf) "H HR". iApply pre_bind. iApply (append_move_spec with "H"); [done|].
  iIntros ([[it t] u]) "[(%Hu & _ & %Hd) (%k' & _ & Hs)]". simpl in *. subst u.
  iApply pre_bind. iApply (clear_empty with "[//]"). iIntros (x) "_". iApply ("HR" with "[//]"). by iApply sequence_at_of.
Qed.

Lemma emplace_spec s xs ys x : fits (length xs + 1 + length ys) ->
  triple (sequence_of s (xs ++ ys)) (emplace s (data s, length xs) (value x))
    (fun t => ⟦t.1 = (data t.2, length xs)⟧ ∗ sequence_of t.2 (xs ++ [x] ++ ys)).
Proof.
  iIntros (Hf R) "Hs HR". iDestruct (sequence_of_at with "Hs") as (k) "[(%Hs & %Hk & _) Hs]". rw length_app in Hs Hk.
  unfold emplace, end_. destruct (decide _) as [E|E].
  - injection E as E. assert (ys = []) as -> by (apply nil_length_inv; lia). rw app_nil_r.
    rw app_nil_r. iApply (emplace_back_spec with "Hs"); [solve_fits|]. iIntros ([it t]) "[[%Hit _] Hs]". iApply "HR". iSplit; [done|].
    by iApply sequence_at_of.
  - assert (length ys <> 0) as Hy by (intros H0; apply E; f_equal; lia).
    iApply pre_bind. iApply pre_lift; [apply distance_begin|].
    iApply pre_bind. iApply (ensure_capacity_spec with "Hs"). iIntros (t) "[_ Hs]". rw Hs.
    set (k1 := grown k _). assert (length xs + length ys + 1 <= k1) as Hk1 by apply grown_le.
    iApply pre_bind. iApply (pop_tail_spec with "Hs"). iIntros ([tl u]) "(%Hd1 & Ht & Hs)". simpl in *.
    iApply pre_bind. iApply (emplace_back_spec with "Hs"); [solve_fits|].
    iIntros ([it v]) "[[%Hit %Hd2] Hs]". simpl in *. rw grown_id; [|lia].
    iApply (append_tail_then with "[$Hs $Ht]"); [solve_fits|]. iIntros (w) "%Hd3 Hs". iApply pre_ret. iApply "HR". simpl.
    rw -(assoc_L (++)). iFrame. iPureIntro. rw Hit Hd3 // ?length_app /=; [lia|left; by destruct xs].
Qed.

(** The iterator dangles if nothing is inserted into a full sequence at its beginning:
    then [append] takes over the buffer of the tail. *)
Lemma insert_n_spec s xs ys k n x : fits (length xs + n + length ys) ->
  triple (sequence_at s (xs ++ ys) k) (insert_n s (data s, length xs) n (value x))
    (fun t => ⟦n <> 0 \/ xs <> [] \/ length ys < k -> t.1 = (data t.2, length xs)⟧ ∗ sequence_of t.2 (xs ++ replicate n x ++ ys)).
Proof.
  iIntros (Hf R) "Hs HR". iDestruct (sequence_at_size with "Hs") as "[(%Hs & %Hk & _) Hs]". rw length_app in Hs Hk.
  iApply pre_bind. iApply pre_lift; [apply distance_begin|].
  iApply pre_bind. iApply (ensure_capacity_spec with "Hs"). iIntros (t) "[_ Hs]". rw Hs.
  assert (Hk1 := grown_le k (length xs + length ys + n)). assert (Hk2 := grown_ge k (length xs + length ys + n)).
  set (k1 := grown k _) in *.
  iApply pre_bind. iApply (pop_tail_spec with "Hs"). iIntros ([tl u]) "(%Hd1 & Ht & Hs)". simpl in *.
  iApply pre_bind. iApply (append_n_spec with "Hs"); [solve_fits|].
  iIntros ([it v]) "[[%Hit %Hd2] Hs]". rw length_replicate in Hd2 |- *. simpl in *. rw grown_id; [|lia].
  iApply (append_tail_then with "[$Hs $Ht]"); [rw length_app length_replicate; solve_fits|].
  iIntros (w) "%Hd3 Hs". iApply pre_ret. iApply "HR". simpl. rw -(assoc_L (++)). iFrame. iPureIntro. intros Hn.
  rw Hit Hd3 // ?length_app ?length_replicate; [lia|].
  destruct Hn as [Hn|[Hn|Hn]]; [left|left; by destruct xs|right; lia]. destruct xs; [by destruct n|done].
Qed.

Lemma insert_range_spec s xs ys src zs : yields src zs -> fits (length xs + length zs + length ys) ->
  triple (sequence_of s (xs ++ ys)) (insert_range s (data s, length xs) src)
    (fun t => ⟦t.1 = (data t.2, length xs)⟧ ∗ sequence_of t.2 (xs ++ zs ++ ys)).
Proof.
  iIntros (Hsrc Hf R) "(%k & _ & Hs) HR".
  iApply pre_bind. iApply (pop_tail_spec with "Hs"). iIntros ([tl u]) "(%Hd1 & Ht & Hs)". simpl in *.
  iApply pre_bind. iApply (append_range_spec _ xs _ _ Hsrc with "[Hs]"); [solve_fits|by iApply sequence_at_of|].
  iIntros ([it v]) "[%Hit Hs]". simpl in *. subst it. iApply pre_bind. iApply pre_lift; [apply distance_begin|].
  iDestruct "Hs" as (k2) "[_ Hs]".
  iApply (append_tail_then with "[$Hs $Ht]"); [solve_fits|]. iIntros (w) "_ Hs". iApply pre_ret. iApply "HR". simpl.
  rw -(assoc_L (++)). by iFrame.
Qed.

Lemma insert_move_spec s r xs ys zs : fits (length xs + length zs + length ys) ->
  triple (sequence_of s (xs ++ ys) ∗ sequence_of r zs) (insert_move s (data s, length xs) r)
    (fun t => ⟦t.1.1 = (data t.1.2, length xs) /\ t.2 = set_to_empty_representation⟧ ∗ sequence_of t.1.2 (xs ++ zs ++ ys)).
Proof.
  iIntros (Hf R) "[(%k & _ & Hs) Hr] HR". iApply pre_bind. iApply pre_lift; [apply distance_begin|].
  iApply pre_bind. iApply (pop_tail_spec with "Hs"). iIntros ([tl u]) "(%Hd1 & Ht & Hs)". simpl in *.
  iApply pre_bind. iApply (append_move_spec _ _ xs zs with "[$Hs $Hr]"); [solve_fits|].
  iIntros ([[it v] w]) "[(%Hw & _ & _) (%k' & _ & Hs)]". simpl in *.
  iApply (append_tail_then with "[$Hs $Ht]"); [solve_fits|]. iIntros (z) "_ Hs". iApply pre_ret. iApply "HR". simpl.
  rw -(assoc_L (++)). by iFrame.
Qed.

(** ** Removal *)

Lemma pop_back_spec s xs x k :
  triple (sequence_at s (xs ++ [x]) k) (pop_back s) (fun t => ⟦data t = data s⟧ ∗ sequence_at t xs k).
Proof.
  iIntros (R) "(%rest & (%Hs & %Hv & %Hk & %Hf) & Hb) HR". rw length_app /= in Hs Hk Hf.
  rw fmap_app -(assoc_L (++)). unfold pop_back. rw Hs size_sub_le; [|lia]. rw Nat.add_sub.
  destruct (destroy_vacant ((Some <$> xs) ++ [Some x] ++ rest) (length xs) x) as (c & Hc & Hd).
  { rw lookup_app_r length_fmap // Nat.sub_diag //. }
  iApply pre_bind. iApply (with_cells_spec with "Hb"); [done|by rw length_insert|]. iIntros (t) "[[%Ht %Hdt] Hb]".
  rw Ht Hs size_sub_le; [|lia]. rw Nat.add_sub. rw insert_app_r_alt length_fmap // Nat.sub_diag /=.
  iApply (set_size_spec with "Hb"); [rw length_app length_fmap; lia|solve_fits|].
  iIntros (u) "[(%Hu & %Hdu & _) Hb]". iApply "HR". iSplit; [by rw Hdu Hdt|]. iExists (c :: rest). iFrame. iPureIntro.
  simpl. repeat split; [done|by constructor|lia|solve_fits].
Qed.

(** What remains after the last elements are destroyed *)
Lemma shrink_spec s xs c rest : size s = length xs + length c -> Forall vacant c -> Forall vacant rest -> fits (length xs) ->
  triple (buf s ((Some <$> xs) ++ c ++ rest)) (set_size s (length xs))
    (fun t => ⟦data t = data s⟧ ∗ sequence_at t xs (length xs + length c + length rest)).
Proof.
  iIntros (Hs Hc Hv Hf R) "Hb HR". iApply (set_size_spec with "Hb"); [rw !length_app length_fmap; lia|done|].
  iIntros (u) "[(%Hu & %Hdu & _) Hb]". iApply "HR". iSplit; [done|]. iExists (c ++ rest). iFrame. iPureIntro.
  rw length_app. repeat split; [done|by apply Forall_app|lia|done].
Qed.

Lemma resize_shrink_spec s xs ys k v :
  triple (sequence_at s (xs ++ ys) k) (resize s (length xs) v) (fun t => ⟦data t = data s⟧ ∗ sequence_at t xs k).
Proof.
  iIntros (R) "Hs HR". unfold resize. destruct (decide (ys = [])) as [->|Hy].
  { rw app_nil_r. iDestruct (sequence_at_size with "Hs") as "[(%Hs & %Hk & %Hf) Hs]".
    rw Hs Nat.ltb_irrefl. iApply pre_bind. iApply pre_bind. iApply (ensure_capacity_spec with "Hs").
    iIntros (t) "[%Ht Hs]". rw Ht // grown_id //. iDestruct "Hs" as (rest) "[(%Hs1 & %Hv & %Hk1 & _) Hb]".
    iApply pre_bind. iApply (capacity_spec with "Hb"). iIntros (k') "[-> Hb]". rw length_app length_fmap -Hk1.
    iApply pre_bind. iApply (pre_lift _ tt); [by rw (proj2 (Nat.leb_le _ _) Hk)|].
    rw /fill_end Nat.sub_diag /=. iApply pre_ret. rw Hk1. iApply (shrink_spec _ _ [] rest with "Hb"); [rw /=; lia|done..|].
    by rw /= Nat.add_0_r. }
  iDestruct "Hs" as (rest) "[(%Hs & %Hv & %Hk & %Hf) Hb]". rw length_app in Hs Hk.
  assert (length ys <> 0) as Hly by (by destruct ys). assert (size s = length xs + length ys) as Hs' by done.
  assert ((length xs <? size s) = true) as -> by (apply Nat.ltb_lt; lia).
  iApply pre_bind. rw fmap_app -(assoc_L (++)) Hk. destruct is_trivially_destructible eqn:E; simpl.
  - iApply pre_ret. rw -(length_fmap Some ys).
    iApply (shrink_spec with "Hb"); [by rw length_fmap|by apply Forall_forall; left|done|solve_fits|done].
  - rw Hs. iApply (with_cells_spec _ _ _ ((Some <$> xs) ++ replicate (length ys) None ++ rest) with "Hb");
      [|rw !length_app length_replicate !length_fmap; lia|].
    { rw -{1 2}(length_fmap Some xs). by apply (destroy_middle (Some <$> xs) ys rest). }
    iIntros (t) "[[%Ht %Hd] Hb]".
    iApply (shrink_spec t xs (replicate (length ys) None) rest with "Hb");
      [by rw length_replicate Ht|apply Forall_vacant_None|done|solve_fits|].
    by rw Hd length_replicate.
Qed.

Lemma resize_grow_spec s xs k n x : length xs <= n -> fits n ->
  triple (sequence_at s xs k) (resize s n (value x))
    (fun t => ⟦n <= k -> data t = data s⟧ ∗ sequence_at t (xs ++ replicate (n - length xs) x) (grown k n)).
Proof.
  iIntros (Hn Hf R) "Hs HR". iDestruct (sequence_at_size with "Hs") as "[(%Hs & %Hk & _) Hs]".
  unfold resize. rw Hs (proj2 (Nat.ltb_ge _ _) Hn).
  iApply pre_assoc_r. iApply pre_bind. iApply (ensure_capacity_spec with "Hs"). iIntros (t) "[%Ht Hs]".
  assert (Hg := grown_le k n). set (k1 := grown k n) in *.
  iDestruct "Hs" as (rest) "[(%Hs1 & %Hv & %Hk1 & %Hf1) Hb]".
  iApply pre_assoc_r. iApply pre_bind. iApply (capacity_spec with "Hb"). iIntros (k') "[-> Hb]". rw length_app length_fmap -Hk1.
  iApply pre_assoc_r. iApply pre_bind. iApply (pre_lift _ tt); [by rw (proj2 (Nat.leb_le _ _) Hg)|].
  iApply (fill_end_spec t xs k1 (n - length xs) x (fun _ => n) with "[Hb]"); [lia| |intros; lia|iExists rest; by iFrame|].
  { by replace (length xs + (n - length xs)) with n by lia. }
  iIntros (u) "[%Hu Hs]". iApply "HR". iFrame. iPureIntro. intros Hroom. by rw Hu Ht.
Qed.

Lemma reserve_spec s xs k n : triple (sequence_at s xs k) (reserve s n) (fun t => sequence_at t xs (grown k n)).
Proof.
  iIntros (R) "Hs HR". iApply pre_bind. iApply (ensure_capacity_spec with "Hs"). iIntros (t) "[_ Hs]".
  assert (Hg := grown_le k n). set (k1 := grown k n) in *.
  iDestruct "Hs" as (rest) "[(%Hs1 & %Hv & %Hk1 & %Hf1) Hb]". iApply pre_bind. iApply (capacity_spec with "Hb").
  iIntros (k') "[-> Hb]". rw length_app length_fmap -Hk1.
  iApply pre_bind. iApply (pre_lift _ tt); [by rw (proj2 (Nat.leb_le _ _) Hg)|]. iApply pre_ret. iApply "HR".
  iExists rest. by iFrame.
Qed.

(** Both branches of [erase] *)
Lemma erase_spec s xs y ys :
  triple (sequence_of s (xs ++ y :: ys)) (erase s (data s, length xs))
    (fun t => ⟦t.1 = (data t.2, length xs)⟧ ∗ sequence_of t.2 (xs ++ ys)).
Proof.
  iIntros (R) "Hs HR". iDestruct (sequence_of_at with "Hs") as (k) "[(%Hs & %Hk & %Hf) Hs]". rw length_app /= in Hs Hk Hf.
  unfold erase. rw Hs size_sub_le; [|lia]. destruct (decide _) as [E|E].
  - injection E as E. assert (ys = []) as -> by (apply nil_length_inv; lia). iApply pre_bind.
    iApply (pop_back_spec with "Hs"). iIntros (t) "[%Hd Hs]". iApply pre_ret. iApply "HR".
    iDestruct (sequence_at_size with "Hs") as "[(%Ht & _) Hs]". rw app_nil_r /= /end_ Ht. iSplit; [done|].
    by iApply sequence_at_of.
  - iApply pre_bind. iApply pre_lift; [apply distance_begin|]. iApply pre_bind.
    assert ((data s, length xs + 1) = (data s, length (xs ++ [y]))) as Ep by (by rw length_app).
    rw /= Ep (_ : xs ++ y :: ys = (xs ++ [y]) ++ ys); [|by rw -(assoc_L (++))].
    iApply (pop_tail_spec with "Hs"). iIntros ([tl u]) "(%Hd1 & Ht & Hs)". simpl in *.
    iApply pre_bind. iApply (pop_back_spec with "Hs"). iIntros (v) "[%Hd2 Hs]".
    iApply (append_tail_then with "[$Hs $Ht]"); [solve_fits|]. iIntros (w) "_ Hs". iApply pre_ret. iApply "HR". by iFrame.
Qed.

Lemma erase_range_spec s xs ys zs :
  triple (sequence_of s (xs ++ ys ++ zs)) (erase_range s (data s, length xs) (data s, length xs + length ys))
    (fun t => ⟦t.1 = (data t.2, length xs)⟧ ∗ sequence_of t.2 (xs ++ zs)).
Proof.
  iIntros (R) "Hs HR". iDestruct (sequence_of_at with "Hs") as (k) "[(%Hs & %Hk & %Hf) Hs]". rw !length_app /= in Hs Hk Hf.
  iApply pre_bind. iApply pre_lift; [apply distance_begin|]. rw -length_app (assoc_L (++)).
  iApply pre_bind. iApply (pop_tail_spec with "Hs"). iIntros ([tl u]) "(%Hd1 & Ht & Hs)". simpl in *.
  iApply pre_bind. iApply pre_lift; [apply distance_same; rw length_app; lia|].
  iDestruct (sequence_at_size with "Hs") as "[(%Hu & _) Hs]". rw Hu length_app size_sub_le; [|lia].
  replace (length xs + length ys - (length xs + length ys - length xs)) with (length xs) by lia.
  iApply pre_bind. iApply (resize_shrink_spec with "Hs"). iIntros (v) "[%Hd2 Hs]".
  iApply (append_tail_then with "[$Hs $Ht]"); [solve_fits|]. iIntros (w) "_ Hs". iApply pre_ret. iApply "HR". by iFrame.
Qed.

(** ** Assignment, destruction and access *)

Lemma clear_of_spec s xs : triple (sequence_of s xs) (clear s) (fun t => ⟦t = set_to_empty_representation⟧).
Proof. iIntros (R) "(%k & _ & Hs)". iApply (clear_spec with "Hs"). Qed.

Lemma assign_range_spec s xs src ys : yields src ys -> fits (length ys) ->
  triple (sequence_of s xs) (assign_range s src) (fun t => sequence_of t ys).
Proof.
  iIntros (Hsrc Hf R) "Hs HR". iApply pre_bind. iApply (clear_of_spec with "Hs"). iIntros (t) "_".
  by iApply (initialize_range_spec with "[//]").
Qed.

Lemma assign_fill_spec s xs n x : fits n ->
  triple (sequence_of s xs) (assign_fill s n (value x)) (fun t => sequence_of t (replicate n x)).
Proof.
  iIntros (Hf R) "Hs HR". iApply pre_bind. iApply (clear_of_spec with "Hs"). iIntros (t) "_".
  by iApply (initialize_fill_spec with "[//]").
Qed.

Lemma copy_assign_spec s other xs ys :
  triple (sequence_of s xs ∗ sequence_of other ys) (copy_assign s other)
    (fun t => sequence_of t ys ∗ sequence_of other ys).
Proof.
  iIntros (R) "[Hs (%k & %Hk & Ho)] HR". iApply pre_bind. iApply (copy_constructor_spec with "Ho").
  iIntros (b) "[Ho (%l & Hb)]". simpl. iApply pre_bind. iApply (clear_of_spec with "Hs"). iIntros (t) "_".
  iApply pre_ret. iApply "HR". iSplitL "Hb"; by iApply sequence_at_of.
Qed.

Lemma move_assign_spec s other xs ys :
  triple (sequence_of s xs ∗ sequence_of other ys) (move_assign_sequence s other)
    (fun t => ⟦t.2 = set_to_empty_representation⟧ ∗ sequence_of t.1 ys).
Proof.
  iIntros (R) "[Hs Ho] HR". simpl. iApply pre_bind. iApply (clear_of_spec with "Hs"). iIntros (t) "_".
  iApply pre_ret. iApply "HR". by iFrame.
Qed.

Lemma at_spec s xs i x : xs !! i = Some x ->
  triple (sequence_of s xs) (at_ s i) (fun y => ⟦y = x⟧ ∗ sequence_of s xs).
Proof.
  iIntros (Hi R) "Hs HR". iDestruct (sequence_of_at with "Hs") as (k) "[(%Hs & _) Hs]".
  assert (Hl := lookup_lt_Some _ _ _ Hi). unfold at_. rw Hs (proj2 (Nat.leb_gt _ _) Hl).
  iDestruct "Hs" as (rest) "[(%Hs1 & %Hv & %Hk1 & %Hf1) Hb]". iApply pre_bind. iApply (cells_spec with "Hb").
  iIntros (c) "[-> Hb]". iApply pre_lift.
  { apply get_eq, lookup_app_l_Some. by rw list_lookup_fmap Hi. }
  iApply "HR". iSplit; [done|]. iApply (sequence_at_of _ _ k). iExists rest. by iFrame.
Qed.

Lemma at_out_of_range s i h : size s <= i -> at_ s i h = Err Thrown.
Proof. intros Hi. unfold at_. by rw (proj2 (Nat.leb_le _ _) Hi). Qed.

Lemma assign_index_spec s xs i x : i < length xs ->
  triple (sequence_of s xs) (assign_index s i x) (fun t => sequence_of t (<[i := x]> xs)).
Proof.
  iIntros (Hi R) "(%k & _ & (%rest & (%Hs1 & %Hv & %Hk1 & %Hf1) & Hb)) HR".
  destruct (lookup_lt_is_Some_2 xs i Hi) as [y Hy].
  iApply (with_cells_spec _ _ _ ((Some <$> <[i := x]> xs) ++ rest) with "Hb").
  - unfold assign. rw (get_eq _ _ y) /=; last by (apply lookup_app_l_Some; rw list_lookup_fmap Hy).
    by rw insert_app_l ?length_fmap // list_fmap_insert.
  - by rw !length_app !length_fmap length_insert.
  - iIntros (t) "[[%Ht _] Hb]". iApply "HR". iApply (sequence_at_of _ _ k). iExists rest. iFrame. iPureIntro.
    rw length_insert. repeat split; done || lia.
Qed.

Lemma view_spec s xs : triple (sequence_of s xs) (view s) (fun rg => ⟦rg ▷ xs⟧ ∗ sequence_of s xs).
Proof.
  iIntros (R) "Hs HR". iDestruct (sequence_of_at with "Hs") as (k) "[(%Hs & _) Hs]".
  iDestruct "Hs" as (rest) "[(%Hs1 & %Hv & %Hk1 & %Hf1) Hb]". iApply pre_bind. iApply (cells_spec with "Hb").
  iIntros (c) "[-> Hb]". iApply pre_ret. iApply "HR". iSplit.
  - iPureIntro. split; [done|]. intros i x Hi. simpl. apply get_eq, lookup_app_l_Some. by rw list_lookup_fmap Hi.
  - iApply (sequence_at_of _ _ k). iExists rest. by iFrame.
Qed.

Lemma subseq_spec s xs ss ee : ee <= length xs ->
  triple (sequence_of s xs) (subseq s ss ee) (fun t => sequence_of t (slice_of ss ee xs) ∗ sequence_of s xs).
Proof.
  iIntros (He R) "Hs HR". iDestruct (sequence_of_at with "Hs") as (k) "[(_ & _ & %Hf) Hs]".
  iApply pre_bind. iApply (view_spec with "[Hs]"); [by iApply sequence_at_of|]. iIntros (rg) "[%Hr Hs]".
  iApply (initialize_range_spec _ (slice_of ss ee xs) with "[//]"); [by apply shows_cut|rw length_slice_of //; solve_fits|].
  iIntros (t) "Ht". iApply "HR". iFrame.
Qed.
End spec.
