(* ===== verification/SequenceCorrect.v ===== *)
(** * Sequences are lists

    [run_all] performs a list of method calls on one sequence, building and destroying the
    sequences that are passed to them; [contract] says what each call does to a list and what
    it returns.  The main theorem is that every program within the contract runs to the
    answers of the contract and leaves the rest of memory as it was. *)

From S2P Require Import Prelude.
From iris.proofmode Require Import proofmode.
From S2P Require Import ParArray SequenceOps Relocation HeapLogic SequenceBase Sequence SequenceSpec.

#[local] Open Scope nat_scope.

(** ** Equality *)

Section equality.
Context {T : Type} `{!Traits T, !Schedule, !EqDecision T}.
Implicit Types (xs ys : list T).

Definition eqb (x y : T) : bool := bool_decide (x = y).

(** The elements at [i], ..., [n - 1] are equal. *)
Definition same_from xs ys (i n : nat) : Prop := forall j, i <= j < n -> xs !! j = ys !! j.

Lemma same_from_split xs ys i m n : i <= m -> m <= n -> same_from xs ys i n <-> same_from xs ys i m /\ same_from xs ys m n.
Proof.
  intros Hi Hm. split; [intros HE; split; intros j Hj; apply HE; lia|]. intros [H1 H2] j Hj.
  destruct (decide (j < m)); [apply H1; lia|apply H2; lia].
Qed.

Lemma same_from_all xs ys : length xs = length ys -> same_from xs ys 0 (length xs) <-> xs = ys.
Proof.
  intros Hl. split; [|by intros ->]. intros HE. apply list_eq. intros i. destruct (decide (i < length xs)); [apply HE; lia|].
  rw !lookup_ge_None_2 //; lia.
Qed.

Context (self other : range T) (xs ys : list T).
Context (Hself : self ▷ xs) (Hother : other ▷ ys) (Hlen : length xs = length ys).

Lemma read_both j : j < length xs -> exists x y,
  subscript self j = Ok x /\ subscript other j = Ok y /\ (eqb x y = true <-> xs !! j = ys !! j).
Proof using Hself Hother Hlen.
  intros Hj. destruct (lookup_lt_is_Some_2 xs j) as [x Hx]; [lia|]. destruct (lookup_lt_is_Some_2 ys j) as [y Hy]; [lia|].
  exists x, y. split; [by eapply shows_get|]. split; [by eapply shows_get|]. unfold eqb. rw bool_decide_eq_true Hx Hy.
  split; [by intros ->|by intros [=]].
Qed.

Lemma equal_prefix_eq n i : i + n <= length xs ->
  exists b, equal_prefix eqb self other i n = Ok b /\ (b = true <-> same_from xs ys i (i + n)).
Proof using Hself Hother Hlen.
  revert i. induction n as [|n IH]; intros i Hi; simpl.
  { exists true. split; [done|]. split; [intros _ j Hj; lia|done]. }
  destruct (read_both i) as (x & y & -> & -> & He); [lia|]. simpl. destruct (IH (i + 1)) as (b & Hb & Hs); [lia|].
  replace (i + S n) with (i + 1 + n) by lia. assert (Hsp := same_from_split xs ys i (i + 1) (i + 1 + n)).
  assert (same_from xs ys i (i + 1) <-> xs !! i = ys !! i) as H1.
  { split; [intros HE; apply HE; lia|]. intros HE j Hj. by replace j with i by lia. }
  rw H1 in Hsp. clear H1. specialize (Hsp ltac:(lia) ltac:(lia)).
  destruct (eqb x y); [exists b|exists false]; (split; [done|]); naive_solver.
Qed.

Lemma equal_block_ok start last g matches : last <= length xs ->
  ok (parallel_for start last (fun j (matches : bool) =>
        x ← subscript self j; y ← subscript other j; Ok (if eqb x y then matches else false)) g matches)
     (fun b => b = true <-> matches = true /\ same_from xs ys start last).
Proof using Hself Hother Hlen.
  intros Hl. eapply ok_mono; [apply (ok_parallel_for (fun d b => b = true <-> matches = true /\ forall j, j ∈ d -> xs !! j = ys !! j))|].
  - split; [intros ->; split; [done|]; by intros j Hj%not_elem_of_nil|naive_solver].
  - intros d j b Hj _ Hb. destruct (read_both j) as (x & y & -> & -> & He); [lia|]. simpl. apply ok_ret.
    setoid_rewrite elem_of_app. setoid_rewrite list_elem_of_singleton. destruct (eqb x y); naive_solver.
  - intros b (d & Hd & Hb). rw Hb. split; intros [Hm HE]; (split; [done|]).
    + intros j Hj. apply HE. rw Hd. apply elem_of_seq. lia.
    + intros j. rw Hd elem_of_seq => Hj. apply HE. lia.
Qed.

Lemma equal_blocks_eq fuel g start block_size : length xs - start < fuel -> 0 < block_size ->
  ok (equal_blocks eqb fuel self other (length xs) g start block_size true) (fun b => b = true <-> same_from xs ys start (length xs)).
Proof using Hself Hother Hlen.
  revert start block_size. induction fuel as [|fuel IH]; intros start bs Hf Hbs; [lia|]. simpl.
  destruct (Nat.ltb_spec start (length xs)) as [Hs|Hs].
  - apply ok_bind. eapply ok_mono; [apply equal_block_ok; lia|]. intros b Hb.
    set (last := length xs `min` (start + bs)) in *. assert (Hsp := same_from_split xs ys start last (length xs) ltac:(lia) ltac:(lia)).
    destruct b; [|apply ok_ret; naive_solver]. apply proj1 in Hb. specialize (Hb eq_refl) as [_ Hb].
    eapply ok_mono; [apply IH; lia|]. intros b Hb'. rw Hb'. destruct (decide (start + bs <= length xs)) as [Hle|Hle].
    + replace last with (start + bs) in * by lia. naive_solver.
    + replace last with (length xs) in * by lia. split; [done|]. intros _ j Hj. lia.
  - apply ok_ret. split; [|done]. intros _ j Hj. lia.
Qed.

(** [compare_equal] decides equality, whatever blocks the loop compares in parallel. *)
Lemma compare_equal_eq `{!FitsChunk T} fuel g : length xs < fuel ->
  compare_equal eqb fuel self other g = Ok (bool_decide (xs = ys)).
Proof using Hself Hother Hlen.
  intros Hf. apply ok_exact. unfold compare_equal. rw (shows_size _ _ Hself).
  set (gr := if g =? 0 then _ else g). assert (0 < gr) as Hg.
  { unfold gr. destruct (Nat.eqb_spec g 0); [apply chunk_size_pos|lia]. }
  clearbody gr. destruct (equal_prefix_eq (gr `min` length xs) 0) as (b & -> & Hb); [lia|]. simpl in *.
  assert (xs = ys <-> same_from xs ys 0 (gr `min` length xs) /\ same_from xs ys (gr `min` length xs) (length xs)) as Heq.
  { rw -(same_from_all _ _ Hlen) (same_from_split _ _ 0 (gr `min` length xs)) //; lia. }
  destruct b; simpl; [|apply ok_ret; symmetry; apply bool_decide_eq_false; naive_solver].
  destruct (Nat.eqb_spec (gr `min` length xs) (length xs)) as [E|E].
  - apply ok_ret. symmetry. apply bool_decide_eq_true, Heq. split; [naive_solver|]. rw E. intros j Hj. lia.
  - replace (gr `min` length xs) with gr in * by lia. eapply ok_mono; [apply equal_blocks_eq; lia|]. intros b Hb'.
    destruct b; symmetry; [apply bool_decide_eq_true|apply bool_decide_eq_false]; naive_solver.
Qed.

(** Elements that are larger than a chunk: the blocks are empty, and the loop makes no progress. *)
Lemma compare_equal_diverges fuel : chunk_bytes < sizeof -> 0 < length xs ->
  compare_equal eqb fuel self other 0 = Err OutOfFuel.
Proof using Hself.
  clear Hother Hlen. intros Hs Hl. unfold compare_equal. rw (shows_size _ _ Hself) Nat.div_small //=.
  destruct (length xs) as [|n] eqn:E; [lia|].
  enough (forall f, equal_blocks eqb f self other (S n) 0 0 0 true = Err OutOfFuel) as Hb by apply Hb.
  by induction f as [|f IH].
Qed.
End equality.

(** ** Programs *)

(** How a range that is passed gives access to its elements *)
Inductive category := by_random_access | by_forward | by_input.

Definition source_of {T} (k : category) (xs : list T) : source T :=
  match k with by_random_access => random_access (of_list xs) | by_forward => forward xs | by_input => input xs end.

Lemma yields_source_of {T} k (xs : list T) : yields (source_of k xs) xs.
Proof. destruct k; [apply shows_of_list|done..]. Qed.

(** Calls; positions stand for [begin() + i], and a sequence that is passed is built first. *)
Inductive command (T : Type) :=
  | Push_back (x : T)
  | Append_n (n : nat) (x : T)
  | Append_range (k : category) (ys : list T)
  | Append_sequence (k : category) (ys : list T)
  | Emplace (i : nat) (x : T)
  | Insert_n (i n : nat) (x : T)
  | Insert_range (i : nat) (k : category) (ys : list T)
  | Insert_sequence (i : nat) (k : category) (ys : list T)
  | Pop_back
  | Erase (i : nat)
  | Erase_range (i j : nat)
  | Resize (n : nat) (x : T)
  | Reserve (n : nat)
  | Clear
  | Assign_fill (n : nat) (x : T)
  | Assign_range (k : category) (ys : list T)
  | Copy_assign (k : category) (ys : list T)
  | Move_assign (k : category) (ys : list T)
  | Set_at (i : nat) (x : T)
  | Get (i : nat)
  | Subseq (i j : nat)
  | Equals (k : category) (ys : list T).
Arguments Push_back {T} x.
Arguments Append_n {T} n x.
Arguments Append_range {T} k ys.
Arguments Append_sequence {T} k ys.
Arguments Emplace {T} i x.
Arguments Insert_n {T} i n x.
Arguments Insert_range {T} i k ys.
Arguments Insert_sequence {T} i k ys.
Arguments Pop_back {T}.
Arguments Erase {T} i.
Arguments Erase_range {T} i j.
Arguments Resize {T} n x.
Arguments Reserve {T} n.
Arguments Clear {T}.
Arguments Assign_fill {T} n x.
Arguments Assign_range {T} k ys.
Arguments Copy_assign {T} k ys.
Arguments Move_assign {T} k ys.
Arguments Set_at {T} i x.
Arguments Get {T} i.
Arguments Subseq {T} i j.
Arguments Equals {T} k ys.

(** What a call returns; an iterator is reported as its distance from [begin()]. *)
Inductive answer (T : Type) := nothing | position (i : nat) | item (x : T) | truth (b : bool) | items (xs : list T).
Arguments nothing {T}.
Arguments position {T} i.
Arguments item {T} x.
Arguments truth {T} b.
Arguments items {T} xs.

Section programs.
Context {T : Type} `{!Traits T, !Schedule, !FitsChunk T, !EqDecision T}.
Implicit Types (s : storage_impl T) (xs ys : list T).

(** The contract of a call, [None] outside of it.  Inserting no copies at the beginning is
    outside: the iterator that is returned may dangle. *)
Definition answered xs (a : answer T) : option (list T * answer T) :=
  if decide (fits (length xs)) then Some (xs, a) else None.

Definition if_valid {A} (P : Prop) `{!Decision P} (o : option A) : option A := if decide P then o else None.

Definition contract xs (c : command T) : option (list T * answer T) :=
  match c with
  | Push_back x => answered (xs ++ [x]) (position (length xs))
  | Append_n n x => answered (xs ++ replicate n x) (position (length xs))
  | Append_range _ ys => answered (xs ++ ys) (position (length xs))
  | Append_sequence _ ys => answered (xs ++ ys) (position (length xs))
  | Emplace i x => if_valid (i <= length xs) (answered (take i xs ++ [x] ++ drop i xs) (position i))
  | Insert_n i n x =>
      if_valid (i <= length xs /\ (n <> 0 \/ i <> 0)) (answered (take i xs ++ replicate n x ++ drop i xs) (position i))
  | Insert_range i _ ys => if_valid (i <= length xs) (answered (take i xs ++ ys ++ drop i xs) (position i))
  | Insert_sequence i _ ys => if_valid (i <= length xs) (answered (take i xs ++ ys ++ drop i xs) (position i))
  | Pop_back => if_valid (xs <> []) (answered (take (length xs - 1) xs) nothing)
  | Erase i => if_valid (i < length xs) (answered (take i xs ++ drop (i + 1) xs) (position i))
  | Erase_range i j => if_valid (i <= j /\ j <= length xs) (answered (take i xs ++ drop j xs) (position i))
  | Resize n x => answered (take n xs ++ replicate (n - length xs) x) nothing
  | Reserve n => answered xs nothing
  | Clear => answered [] nothing
  | Assign_fill n x => answered (replicate n x) nothing
  | Assign_range _ ys => answered ys nothing
  | Copy_assign _ ys => answered ys nothing
  | Move_assign _ ys => answered ys nothing
  | Set_at i x => if_valid (i < length xs) (answered (<[i := x]> xs) nothing)
  | Get i => x ← xs !! i; answered xs (item x)
  | Subseq i j => if_valid (j <= length xs) (answered xs (items (slice_of i j xs)))
  | Equals _ ys => if_valid (fits (length ys)) (answered xs (truth (bool_decide (xs = ys))))
  end.

Fixpoint contract_all xs (cs : list (command T)) : option (list T * list (answer T)) :=
  match cs with
  | [] => Some (xs, [])
  | c :: cs => '(xs, a) ← contract xs c; '(xs, l) ← contract_all xs cs; Some (xs, a :: l)
  end.

(** The elements, as a client would read them *)
Definition contents s : M (array T) (list T) := c ← cells s; lift (elements (take (size s) c)).

Definition at_position (r : iterator * storage_impl T) : M (array T) (answer T * storage_impl T) :=
  i ← lift (distance (begin r.2) r.1); mret (position i, r.2).
Definition silently (m : M (array T) (storage_impl T)) : M (array T) (answer T * storage_impl T) :=
  s ← m; mret (nothing, s).

Definition perform s (c : command T) : M (array T) (answer T * storage_impl T) :=
  match c with
  | Push_back x => r ← push_back s (value x); at_position r
  | Append_n n x => r ← append_n s n (value x); at_position r
  | Append_range k ys => r ← append_range s (source_of k ys); at_position r
  | Append_sequence k ys =>
      r ← initialize_range (source_of k ys);
      '(it, s, r) ← append_move s r; _ ← clear r; at_position (it, s)
  | Emplace i x => r ← insert s (data s, i) (value x); at_position r
  | Insert_n i n x => r ← insert_n s (data s, i) n (value x); at_position r
  | Insert_range i k ys => r ← insert_range s (data s, i) (source_of k ys); at_position r
  | Insert_sequence i k ys =>
      r ← initialize_range (source_of k ys);
      '(it, s, r) ← insert_move s (data s, i) r; _ ← clear r; at_position (it, s)
  | Pop_back => silently (pop_back s)
  | Erase i => r ← erase s (data s, i); at_position r
  | Erase_range i j => r ← erase_range s (data s, i) (data s, j); at_position r
  | Resize n x => silently (resize s n (value x))
  | Reserve n => silently (reserve s n)
  | Clear => silently (clear s)
  | Assign_fill n x => silently (assign_fill s n (value x))
  | Assign_range k ys => silently (assign_range s (source_of k ys))
  | Copy_assign k ys =>
      other ← initialize_range (source_of k ys); s ← copy_assign s other; _ ← clear other; mret (nothing, s)
  | Move_assign k ys =>
      other ← initialize_range (source_of k ys);
      '(s, other) ← move_assign_sequence s other; _ ← clear other; mret (nothing, s)
  | Set_at i x => silently (assign_index s i x)
  | Get i => x ← at_ s i; mret (item x, s)
  | Subseq i j => t ← subseq s i j; xs ← contents t; _ ← clear t; mret (items xs, s)
  | Equals k ys =>
      other ← initialize_range (source_of k ys);
      b ← operator_eq eqb (size s + 1) s other; _ ← clear other; mret (truth b, s)
  end.

Fixpoint perform_all s (cs : list (command T)) : M (array T) (list (answer T) * storage_impl T) :=
  match cs with
  | [] => mret ([], s)
  | c :: cs => '(a, s) ← perform s c; '(l, s) ← perform_all s cs; mret (a :: l, s)
  end.

(** A sequence is created, used, read and destroyed. *)
Definition program (cs : list (command T)) : M (array T) (list T * list (answer T)) :=
  '(l, s) ← perform_all set_to_empty_representation cs;
  xs ← contents s;
  _ ← clear s;
  mret (xs, l).

(** ** Every call meets its contract *)

Definition outcome (xs : list T) (a : answer T) : answer T * storage_impl T -> hpropI (array T) :=
  fun t => (⟦t.1 = a⟧ ∗ sequence_of t.2 xs)%I.

Lemma at_position_spec (P : hpropI (array T)) (m : M (array T) (iterator * storage_impl T)) i xs :
  triple P m (fun t => ⟦t.1 = (data t.2, i)⟧ ∗ sequence_of t.2 xs) ->
  triple P (r ← m; at_position r) (outcome xs (position i)).
Proof.
  iIntros (Hm R) "HP HR". iApply pre_bind. iApply (Hm with "HP"). iIntros ([it t]) "[%Hit Hs]". simpl in *. subst it.
  iApply pre_bind. iApply pre_lift; [apply distance_begin|]. iApply pre_ret. iApply "HR". by iFrame.
Qed.

Lemma silently_spec (P : hpropI (array T)) (m : M (array T) (storage_impl T)) xs :
  triple P m (fun t => sequence_of t xs) -> triple P (silently m) (outcome xs nothing).
Proof.
  iIntros (Hm R) "HP HR". iApply pre_bind. iApply (Hm with "HP"). iIntros (t) "Hs". iApply pre_ret. iApply "HR". by iFrame.
Qed.

Lemma contents_spec s xs : triple (sequence_of s xs) (contents s) (fun ys => ⟦ys = xs⟧ ∗ sequence_of s xs).
Proof.
  iIntros (R) "(%k & _ & (%rest & (%Hs & %Hv & %Hk & %Hf) & Hb)) HR". iApply pre_bind. iApply (cells_spec with "Hb").
  iIntros (c) "[-> Hb]". iApply pre_lift.
  { rw Hs -(length_fmap Some xs) take_app_length. apply elements_eq. }
  iApply "HR". iSplit; [done|]. iApply (sequence_at_of _ _ k). iExists rest. by iFrame.
Qed.

Lemma operator_eq_spec s other xs ys fuel : length xs < fuel ->
  triple (sequence_of s xs ∗ sequence_of other ys) (operator_eq eqb fuel s other)
    (fun b => ⟦b = bool_decide (xs = ys)⟧ ∗ sequence_of s xs ∗ sequence_of other ys).
Proof.
  iIntros (Hfuel R) "[Hs Ho] HR". iDestruct (sequence_of_at with "Hs") as (k) "[(%Hs & _) Hs]".
  iDestruct (sequence_of_at with "Ho") as (l) "[(%Ho & _) Ho]". rw !sequence_at_of. unfold operator_eq. rw Hs Ho.
  destruct (Nat.eqb_spec (length xs) (length ys)) as [E|E].
  - iApply pre_bind. iApply (view_spec with "Hs"). iIntros (r1) "[%H1 Hs]".
    iApply pre_bind. iApply (view_spec with "Ho"). iIntros (r2) "[%H2 Ho]".
    iApply pre_lift; [by apply (compare_equal_eq _ _ xs ys)|]. iApply "HR". by iFrame.
  - iApply pre_ret. iApply "HR". iFrame. iPureIntro. symmetry. apply bool_decide_eq_false. by intros ->.
Qed.

(** A sequence that is built for a call and destroyed after it *)
Lemma with_temporary {B} (P : hpropI (array T)) k ys (m : storage_impl T -> M (array T) B) Q : fits (length ys) ->
  (forall t, triple (P ∗ sequence_of t ys) (m t) Q) ->
  triple P (t ← initialize_range (source_of k ys); m t) Q.
Proof.
  iIntros (Hf Hm R) "HP HR". iApply pre_bind.
  iApply (initialize_range_spec _ _ (yields_source_of k ys) Hf with "[//]"). iIntros (t) "Ht".
  iApply (Hm with "[$HP $Ht] HR").
Qed.

Lemma answered_Some xs a ys b : answered xs a = Some (ys, b) -> ys = xs /\ b = a /\ fits (length xs).
Proof. unfold answered. case_decide; [|done]. by intros [= -> ->]. Qed.

Lemma fits_app xs ys : fits (length (xs ++ ys)) -> fits (length xs + length ys).
Proof. by rw length_app. Qed.

Lemma fits_app_3 xs ys zs : fits (length (xs ++ ys ++ zs)) -> fits (length xs + length ys + length zs).
Proof. by rw !length_app Nat.add_assoc. Qed.

(** The elements before and after a position *)
Lemma split_at xs i : i <= length xs -> exists ys zs, xs = ys ++ zs /\ i = length ys /\ take i xs = ys /\ drop i xs = zs.
Proof. intros Hi. exists (take i xs), (drop i xs). rw take_drop length_take. repeat split; [lia]. Qed.

Lemma append_spec s xs k ys : fits (length (xs ++ ys)) ->
  triple (sequence_of s xs) (perform s (Append_sequence k ys)) (outcome (xs ++ ys) (position (length xs))).
Proof.
  intros Hf%fits_app. apply with_temporary; [by eapply fits_le; [|exact Hf]; lia|].
  iIntros (r R) "[(%l & _ & Hs) Hr] HR". iApply pre_bind. iApply (append_move_spec with "[$Hs $Hr]"); [done|].
  iIntros ([[it t] u]) "[(%Hu & %Hit & _) (%k' & _ & Hs)]". simpl in *. subst u it.
  iApply pre_bind. iApply (clear_empty with "[//]"). iIntros (x) "_".
  iApply pre_bind. iApply pre_lift; [apply distance_begin|]. iApply pre_ret. iApply "HR". iSplit; [done|].
  by iApply sequence_at_of.
Qed.

Lemma insert_sequence_spec s xs zs k ys : fits (length (xs ++ ys ++ zs)) ->
  triple (sequence_of s (xs ++ zs)) (perform s (Insert_sequence (length xs) k ys)) (outcome (xs ++ ys ++ zs) (position (length xs))).
Proof.
  intros Hf%fits_app_3. apply with_temporary; [by eapply fits_le; [|exact Hf]; lia|].
  iIntros (r R) "H HR". iApply pre_bind. iApply (insert_move_spec with "H"); [done|].
  iIntros ([[it t] u]) "[[%Hit %Hu] Hs]". simpl in *. subst u it.
  iApply pre_bind. iApply (clear_empty with "[//]"). iIntros (x) "_".
  iApply pre_bind. iApply pre_lift; [apply distance_begin|]. iApply pre_ret. iApply "HR". by iFrame.
Qed.

Lemma copy_assign_temporary s xs k ys : fits (length ys) ->
  triple (sequence_of s xs) (perform s (Copy_assign k ys)) (outcome ys nothing).
Proof.
  intros Hf. apply with_temporary; [done|]. iIntros (r R) "H HR". iApply pre_bind.
  iApply (copy_assign_spec with "H"). iIntros (t) "[Ht Hr]". iApply pre_bind. iApply (clear_of_spec with "Hr").
  iIntros (x) "_". iApply pre_ret. iApply "HR". by iFrame.
Qed.

Lemma move_assign_temporary s xs k ys : fits (length ys) ->
  triple (sequence_of s xs) (perform s (Move_assign k ys)) (outcome ys nothing).
Proof.
  intros Hf. apply with_temporary; [done|]. iIntros (r R) "H HR". iApply pre_bind.
  iApply (move_assign_spec with "H"). iIntros ([t u]) "[%Hu Ht]". simpl in *. subst u.
  iApply pre_bind. iApply (clear_empty with "[//]"). iIntros (x) "_". iApply pre_ret. iApply "HR". by iFrame.
Qed.

Lemma equals_temporary s xs k ys : fits (length ys) ->
  triple (sequence_of s xs) (perform s (Equals k ys)) (outcome xs (truth (bool_decide (xs = ys)))).
Proof.
  intros Hf. apply with_temporary; [done|]. iIntros (r R) "[Hs Hr] HR".
  iDestruct (sequence_of_at with "Hs") as (l) "[(%Hs & _) Hs]". rw sequence_at_of.
  iApply pre_bind. iApply (operator_eq_spec with "[$Hs $Hr]"); [lia|]. iIntros (b) "[-> [Hs Hr]]".
  iApply pre_bind. iApply (clear_of_spec with "Hr"). iIntros (x) "_". iApply pre_ret. iApply "HR". by iFrame.
Qed.

Lemma subseq_temporary s xs i j : j <= length xs ->
  triple (sequence_of s xs) (perform s (Subseq i j)) (outcome xs (items (slice_of i j xs))).
Proof.
  iIntros (Hj R) "Hs HR". iApply pre_bind. iApply (subseq_spec with "Hs"); [done|]. iIntros (t) "[Ht Hs]".
  iApply pre_bind. iApply (contents_spec with "Ht"). iIntros (ys) "[-> Ht]".
  iApply pre_bind. iApply (clear_of_spec with "Ht"). iIntros (x) "_". iApply pre_ret. iApply "HR". by iFrame.
Qed.

(** [resize] in both directions *)
Lemma resize_spec s xs n x : fits (length (take n xs ++ replicate (n - length xs) x)) ->
  triple (sequence_of s xs) (resize s n (value x)) (fun t => sequence_of t (take n xs ++ replicate (n - length xs) x)).
Proof.
  iIntros (Hf R) "(%k & _ & Hs) HR". destruct (decide (n <= length xs)) as [Hn|Hn].
  - destruct (split_at xs n Hn) as (ys & zs & -> & -> & -> & _). rw (proj2 (Nat.sub_0_le _ _) Hn) app_nil_r.
    iApply (resize_shrink_spec with "Hs"). iIntros (t) "[_ Hs]". iApply "HR". by iApply sequence_at_of.
  - rw take_ge in Hf |- *; [|lia..]. iApply (resize_grow_spec with "Hs"); [lia| |].
    { rw length_app length_replicate in Hf. eapply fits_le; [|exact Hf]. lia. }
    iIntros (t) "[_ Hs]". iApply "HR". by iApply sequence_at_of.
Qed.

Lemma insert_n_contract s xs i n x ys a : contract xs (Insert_n i n x) = Some (ys, a) ->
  triple (sequence_of s xs) (perform s (Insert_n i n x)) (outcome ys a).
Proof.
  intros Hc. simpl in Hc. unfold if_valid in Hc. case_decide as Hi; [|done]. apply answered_Some in Hc as (-> & -> & Hf).
  destruct Hi as [Hi Hn]. destruct (split_at xs i Hi) as (xs1 & xs2 & -> & -> & E1 & E2). rw !E1 !E2 in Hf |- *.
  apply at_position_spec. iIntros (R) "(%k & _ & Hs) HR". apply fits_app_3 in Hf. rw length_replicate in Hf.
  iApply (insert_n_spec with "Hs"); [done|]. iIntros (t) "[%Ht Hs]". iApply "HR". iFrame. iPureIntro. apply Ht.
  destruct Hn as [Hn|Hn]; [by left|right; left]. by destruct xs1.
Qed.

Lemma pop_back_contract s xs ys a : contract xs Pop_back = Some (ys, a) ->
  triple (sequence_of s xs) (perform s Pop_back) (outcome ys a).
Proof.
  intros Hc. simpl in Hc. unfold if_valid in Hc. case_decide as Hi; [|done]. apply answered_Some in Hc as (-> & -> & _).
  destruct xs as [|x xs _] using rev_ind; [done|]. rw length_app /= Nat.add_sub take_app_length.
  apply silently_spec. iIntros (R) "(%k & _ & Hs) HR". iApply (pop_back_spec with "Hs"). iIntros (t) "[_ Hs]". iApply "HR".
  by iApply sequence_at_of.
Qed.

Lemma erase_contract s xs i ys a : contract xs (Erase i) = Some (ys, a) ->
  triple (sequence_of s xs) (perform s (Erase i)) (outcome ys a).
Proof.
  intros Hc. simpl in Hc. unfold if_valid in Hc. case_decide as Hi; [|done]. apply answered_Some in Hc as (-> & -> & _).
  destruct (split_at xs i) as (xs1 & xs2 & -> & -> & E1 & _); [lia|]. destruct xs2 as [|y xs2]; [rw app_nil_r in Hi; lia|].
  rw E1 -(drop_drop _ 1 (length xs1)) drop_app_length. apply at_position_spec, erase_spec.
Qed.

Lemma erase_range_contract s xs i j ys a : contract xs (Erase_range i j) = Some (ys, a) ->
  triple (sequence_of s xs) (perform s (Erase_range i j)) (outcome ys a).
Proof.
  intros Hc. simpl in Hc. unfold if_valid in Hc. case_decide as Hi; [|done]. apply answered_Some in Hc as (-> & -> & _).
  destruct (split_at xs i) as (xs1 & xs2 & -> & -> & E1 & _); [lia|]. rw length_app in Hi.
  destruct (split_at xs2 (j - length xs1)) as (xs3 & xs4 & -> & Hj & _); [lia|].
  assert (j = length xs1 + length xs3) as -> by lia. rw E1 -(drop_drop _ (length xs3) (length xs1)) !drop_app_length.
  apply at_position_spec, erase_range_spec.
Qed.

(** Insertions of [zs] between the elements before and after [i] *)
Lemma insertion_contract s xs i zs ys a m :
  if_valid (i <= length xs) (answered (take i xs ++ zs ++ drop i xs) (position i)) = Some (ys, a) ->
  (forall xs1 xs2, xs = xs1 ++ xs2 -> i = length xs1 -> fits (length xs1 + length zs + length xs2) ->
     triple (sequence_of s xs) m (outcome (xs1 ++ zs ++ xs2) (position i))) ->
  triple (sequence_of s xs) m (outcome ys a).
Proof.
  intros Hc Hm. unfold if_valid in Hc. case_decide as Hi; [|done]. apply answered_Some in Hc as (-> & -> & Hf).
  destruct (split_at xs i Hi) as (xs1 & xs2 & Ex & Ei & E1 & E2). rw !E1 !E2 in Hf |- *. apply Hm; [done..|].
  by apply fits_app_3.
Qed.

Lemma perform_append s xs c ys a : contract xs c = Some (ys, a) ->
  (exists x, c = Push_back x) \/ (exists n x, c = Append_n n x) \/ (exists k zs, c = Append_range k zs \/ c = Append_sequence k zs) ->
  triple (sequence_of s xs) (perform s c) (outcome ys a).
Proof.
  intros Hc [[x ->]|[(n & x & ->)|(k & zs & [->| ->])]]; apply answered_Some in Hc as (-> & -> & Hf); last by apply append_spec.
  all: apply fits_app in Hf; apply at_position_spec; iIntros (R) "(%l & %Hl & Hs) HR".
  - iApply (emplace_back_spec with "Hs"); [done|]. iIntros (t) "[[%Ht _] Hs]". iApply "HR". iSplit; [done|].
    by iApply sequence_at_of.
  - rw length_replicate in Hf. iApply (append_n_spec with "Hs"); [done|]. iIntros (t) "[[%Ht _] Hs]". iApply "HR".
    iSplit; [done|]. by iApply sequence_at_of.
  - iApply (append_range_spec _ _ _ _ (yields_source_of k zs) Hf with "[Hs] HR"). iExists l. by iFrame.
Qed.

Lemma perform_spec s xs c ys a : contract xs c = Some (ys, a) ->
  triple (sequence_of s xs) (perform s c) (outcome ys a).
Proof.
  intros Hc. destruct c as [x|n x|k zs|k zs|i x|i n x|i k zs|i k zs| |i|i j|n x|n| |n x|k zs|k zs|k zs|i x|i|i j|k zs].
  - apply perform_append; [done|naive_solver].
  - apply perform_append; [done|naive_solver].
  - apply perform_append; [done|right; right; eauto].
  - apply perform_append; [done|right; right; eauto].
  - apply (insertion_contract _ _ _ _ _ _ _ Hc). intros xs1 xs2 -> -> Hf. by apply at_position_spec, emplace_spec.
  - by apply insert_n_contract.
  - apply (insertion_contract _ _ _ _ _ _ _ Hc). intros xs1 xs2 -> -> Hf.
    apply at_position_spec, insert_range_spec; [apply yields_source_of|done].
  - apply (insertion_contract _ _ _ _ _ _ _ Hc). intros xs1 xs2 -> -> Hf. apply insert_sequence_spec.
    by rw !length_app Nat.add_assoc.
  - by apply pop_back_contract.
  - by apply erase_contract.
  - by apply erase_range_contract.
  - apply answered_Some in Hc as (-> & -> & Hf). by apply silently_spec, resize_spec.
  - apply answered_Some in Hc as (-> & -> & Hf). apply silently_spec. iIntros (R) "(%k & _ & Hs) HR".
    iApply (reserve_spec with "Hs"). iIntros (t) "Hs". iApply "HR". by iApply sequence_at_of.
  - apply answered_Some in Hc as (-> & -> & Hf). apply silently_spec. iIntros (R) "Hs HR".
    iApply (clear_of_spec with "Hs"). iIntros (t) "->". iApply "HR". iApply sequence_of_empty.
  - apply answered_Some in Hc as (-> & -> & Hf). rw length_replicate in Hf. by apply silently_spec, assign_fill_spec.
  - apply answered_Some in Hc as (-> & -> & Hf). apply silently_spec, assign_range_spec; [apply yields_source_of|done].
  - apply answered_Some in Hc as (-> & -> & Hf). by apply copy_assign_temporary.
  - apply answered_Some in Hc as (-> & -> & Hf). by apply move_assign_temporary.
  - simpl in Hc. unfold if_valid in Hc. case_decide; [|done]. apply answered_Some in Hc as (-> & -> & Hf).
    by apply silently_spec, assign_index_spec.
  - simpl in Hc. destruct (xs !! i) as [x|] eqn:Hx; [|done]. apply answered_Some in Hc as (-> & -> & Hf).
    iIntros (R) "Hs HR". iApply pre_bind. iApply (at_spec with "Hs"); [done|]. iIntros (y) "[-> Hs]".
    iApply pre_ret. iApply "HR". by iFrame.
  - simpl in Hc. unfold if_valid in Hc. case_decide; [|done]. apply answered_Some in Hc as (-> & -> & Hf).
    by apply subseq_temporary.
  - simpl in Hc. unfold if_valid in Hc. case_decide; [|done]. apply answered_Some in Hc as (-> & -> & Hf).
    by apply equals_temporary.
Qed.

Lemma perform_all_spec s xs cs ys l : contract_all xs cs = Some (ys, l) ->
  triple (sequence_of s xs) (perform_all s cs) (fun t => ⟦t.1 = l⟧ ∗ sequence_of t.2 ys).
Proof.
  revert s xs l. induction cs as [|c cs IH]; intros s xs l Hc R; iIntros "Hs HR"; simpl in Hc |- *.
  - injection Hc as -> <-. iApply pre_ret. iApply "HR". by iFrame.
  - destruct (contract xs c) as [[xs1 a]|] eqn:E1; [|done]. simpl in Hc.
    destruct (contract_all xs1 cs) as [[xs2 l2]|] eqn:E2; [|done]. injection Hc as -> <-.
    iApply pre_bind. iApply (perform_spec with "Hs"); [done|]. iIntros ([b t]) "[%Hb Hs]". simpl in *. subst b.
    iApply pre_bind. iApply (IH with "Hs"); [done|]. iIntros ([l' u]) "[%Hl Hs]". simpl in *. subst l'.
    iApply pre_ret. iApply "HR". by iFrame.
Qed.

(** C33: A sequence of elements of at most 8192 bytes behaves like a list.  Every program of
    method calls that respects the [contract] (positions within the sequence, [pop_back] only
    when there is an element, at most [_max_size] elements, no [insert] of 0 copies at the
    beginning, which returns an iterator into a freed buffer; and the values and ranges passed
    to a call are not parts of the sequence itself, since [push_back(s[0])] reads a freed
    element) runs without undefined behaviour, whether the elements are kept inside the object or on the heap,
    trivially relocatable or not, and in whatever order the parallel loops run; its calls
    return what the list operations return, with iterators that point into the new buffer;
    and when the sequence is destroyed, the heap is exactly what it was. *)
Theorem sequence_refines_list cs xs l h :
  contract_all [] cs = Some (xs, l) -> program cs h = Ok ((xs, l), h).
Proof.
  intros Hc. assert (emp ⊢ pre (program cs) (fun r => ⟦r = (xs, l)⟧)) as Hpre.
  { iIntros "_". iApply pre_bind. iApply (perform_all_spec with "[]"); [done|iApply sequence_of_empty|].
    iIntros ([l' s]) "[%Hl Hs]". simpl in *. subst l'. iApply pre_bind. iApply (contents_spec with "Hs").
    iIntros (ys) "[-> Hs]". iApply pre_bind. iApply (clear_of_spec with "Hs"). iIntros (t) "_". by iApply pre_ret. }
  destruct (pre_sound emp (program cs) (fun r => ⟦r = (xs, l)⟧)%I ∅ h Hpre) as (r & h' & Hrun & h1 & -> & _ & Hr);
    [done|apply map_disjoint_empty_l|].
  destruct Hr as [He Hr]. rw (left_id_L ∅ (∪)) in Hrun. rw Hrun Hr.
  simpl in He. by rw He (left_id_L ∅ (∪)).
Qed.
End programs.

(** ** Two kinds of elements

    [chars], which is kept inside the object while it is short, and a class with a destructor
    and 32 bytes, such as a string. *)

Definition chars : Traits nat :=
  {| sizeof := 1; is_trivial := true; is_trivially_copyable := true; is_trivially_default_constructible := true;
     is_trivially_destructible := true; is_trivially_relocatable := true; is_trivial_allocator := true;
     EnableSSO := true; value_initialized := 0 |}.

Definition strings : Traits nat :=
  {| sizeof := 32; is_trivial := false; is_trivially_copyable := false; is_trivially_default_constructible := false;
     is_trivially_destructible := false; is_trivially_relocatable := false; is_trivial_allocator := true;
     EnableSSO := false; value_initialized := 0 |}.

Definition example_program : list (command nat) :=
  [Append_range by_input [1; 2; 3]; Emplace 1 7; Insert_n 0 2 9; Insert_sequence 6 by_forward [4; 5];
   Append_sequence by_random_access [10; 11; 12; 13; 14; 15; 16; 17; 18; 19]; Erase 2; Erase_range 3 9; Get 3;
   Resize 5 0; Pop_back; Equals by_forward [9; 9; 7; 13]; Subseq 1 3; Copy_assign by_input [6; 6]; Push_back 8].

Definition example_answers : list (answer nat) :=
  [position 0; position 1; position 0; position 6; position 8; position 2; position 3; item 12; nothing; nothing;
   truth false; items [9; 7]; nothing; position 2].

Definition chars_fit : FitsChunk (Traits0 := chars) nat := ltac:(unfold FitsChunk; vm_compute; lia).
Definition strings_fit : FitsChunk (Traits0 := strings) nat := ltac:(unfold FitsChunk; vm_compute; lia).

Lemma sequence_refines_list_witness :
  program (Traits0 := strings) (H := backwards) example_program {[5%positive := [Some 1]]} =
    Ok (([6; 6; 8], example_answers), {[5%positive := [Some 1]]}) /\
  program (Traits0 := chars) (H := in_order) example_program ∅ = Ok (([6; 6; 8], example_answers), ∅).
Proof.
  split.
  - apply (sequence_refines_list (Traits0 := strings) (FitsChunk0 := strings_fit)). vm_compute. reflexivity.
  - apply (sequence_refines_list (Traits0 := chars) (FitsChunk0 := chars_fit)). vm_compute. reflexivity.
Defined.

(** ** Where sequences differ from [std::vector] *)

(** [push_back(s[0])] on a full sequence: the buffer that the reference points into is
    replaced before the reference is read, on the heap and inside the object. *)
Definition push_back_own (tr : Traits nat) (n : nat) : M (list (option nat)) (iterator * storage_impl nat) :=
  s ← initialize_range (source_of by_forward (seq 0 n));
  push_back s (element (begin s)).

Example push_back_own_element :
  push_back_own strings 2 ∅ = Err BadPtr /\ push_back_own chars 15 ∅ = Err BadPtr.
Proof. split; vm_compute; reflexivity. Qed.

(** [insert(begin(), 0, x)] on a full sequence returns an iterator into a freed buffer. *)
Definition insert_nothing : M (list (option nat)) nat :=
  s ← initialize_range (Traits0 := strings) (source_of by_forward [1; 2]);
  '(it, s) ← insert_n (Traits0 := strings) s (begin s) 0 (value 9);
  lift (distance (begin s) it).

Example insert_n_dangles : insert_nothing ∅ = Err BadPtr.
Proof. vm_compute. reflexivity. Qed.
