(* ===== verification/Hashing.v ===== *)
(** * Hash functions of integers

    The functions of [src/lib/parlay/utilities.h] that scramble 32- and 64-bit words, on
    integers with the wrap-around written out.  [hash64] and [hash64_2] lose nothing: each
    step can be undone. *)

From S2P Require Import Prelude.

#[local] Open Scope Z_scope.

(** [uint32_t] *)
Definition w32 (x : Z) : Z := x mod 2 ^ 32.

Definition hash32 (a : Z) : Z :=
  let a := w32 (w32 (a + 0x7ed55d16) + w32 (Z.shiftl a 12)) in
  let a := Z.lxor (Z.lxor a 0xc761c23c) (Z.shiftr a 19) in
  let a := w32 (w32 (a + 0x165667b1) + w32 (Z.shiftl a 5)) in
  let a := Z.lxor (w32 (a + 0xd3a2646c)) (w32 (Z.shiftl a 9)) in
  let a := w32 (w32 (a + 0xfd7046c5) + w32 (Z.shiftl a 3)) in
  Z.lxor (Z.lxor a 0xb55a4f09) (Z.shiftr a 16).

(** The constants are [unsigned long], so the products are of 64-bit words. *)
Definition hash32_2 (a : Z) : Z :=
  let z := w32 (wrap64 (a + 0x6D2B79F5)) in
  let z := w32 (wrap64 (Z.lxor z (Z.shiftr z 15) * Z.lor z 1)) in
  let z := w32 (Z.lxor z (wrap64 (z + wrap64 (Z.lxor z (Z.shiftr z 7) * Z.lor z 61)))) in
  Z.lxor z (Z.shiftr z 14).

Definition hash32_3 (a : Z) : Z :=
  let z := w32 (a + 0x9e3779b9) in
  let z := Z.lxor z (Z.shiftr z 15) in
  let z := w32 (z * 0x85ebca6b) in
  let z := Z.lxor z (Z.shiftr z 13) in
  let z := w32 (z * 0xc2b2ae3d) in
  Z.lxor z (Z.shiftr z 16).

(** [v ^= v >> k] and [v ^= v << k] *)
Definition xor_shr (v k : Z) : Z := Z.lxor v (Z.shiftr v k).
Definition xor_shl (v k : Z) : Z := Z.lxor v (wrap64 (Z.shiftl v k)).

Definition hash64 (u : Z) : Z :=
  let v := wrap64 (wrap64 (u * 3935559000370003845) + 2691343689449507681) in
  let v := xor_shr v 21 in
  let v := xor_shl v 37 in
  let v := xor_shr v 4 in
  let v := wrap64 (v * 4768777513237032717) in
  let v := xor_shl v 20 in
  let v := xor_shr v 41 in
  xor_shl v 5.

Definition hash64_2 (x : Z) : Z :=
  let x := wrap64 (xor_shr x 30 * 0xbf58476d1ce4e5b9) in
  let x := wrap64 (xor_shr x 27 * 0x94d049bb133111eb) in
  xor_shr x 31.

Definition hash_combine (seed v : Z) : Z :=
  Z.lxor seed (wrap64 (wrap64 (wrap64 (v + 0x9e3779b9) + wrap64 (Z.shiftl seed 6)) + Z.shiftr seed 2)).

(** ** Words *)

Lemma u64_testbit x : u64 x <-> 0 <= x /\ forall i, 64 <= i -> Z.testbit x i = false.
Proof.
  unfold u64, two64. split.
  - intros [H0 Hx]. split; [done|]. intros i Hi. destruct (decide (x = 0)) as [->|Hne]; [apply Z.bits_0|].
    apply Z.bits_above_log2; [done|]. assert (Z.log2 x < 64); [|lia]. apply Z.log2_lt_pow2; lia.
  - intros [H0 Hb]. split; [done|]. destruct (decide (x = 0)) as [->|Hne]; [lia|].
    apply Z.log2_lt_pow2; [lia|]. destruct (Z_lt_le_dec (Z.log2 x) 64) as [|Hle]; [done|].
    apply Hb in Hle. rewrite Z.bit_log2 in Hle by lia. done.
Qed.

Lemma u64_lxor x y : u64 x -> u64 y -> u64 (Z.lxor x y).
Proof.
  rewrite !u64_testbit. intros [Hx Hxb] [Hy Hyb]. split; [by apply Z.lxor_nonneg|].
  intros i Hi. by rewrite Z.lxor_spec, Hxb, Hyb.
Qed.

Lemma u64_shiftr x k : u64 x -> 0 <= k -> u64 (Z.shiftr x k).
Proof.
  rewrite !u64_testbit. intros [Hx Hxb] Hk. split; [by apply Z.shiftr_nonneg|].
  intros i Hi. rewrite Z.shiftr_spec by lia. apply Hxb. lia.
Qed.

Create HintDb words.
#[export] Hint Resolve wrap64_u64 u64_lxor u64_shiftr : words.

(** A function that keeps apart the words that it maps to words *)
Definition scrambles (f : Z -> Z) : Prop :=
  (forall x, u64 x -> u64 (f x)) /\ forall x y, u64 x -> u64 y -> f x = f y -> x = y.

Lemma scrambles_compose f g : scrambles f -> scrambles g -> scrambles (fun x => g (f x)).
Proof. intros [Hf Hf'] [Hg Hg']. split; auto 6. Qed.

Lemma lxor_exchange x y s t : Z.lxor x s = Z.lxor y t -> Z.lxor x y = Z.lxor s t.
Proof.
  intros E. apply Z.bits_inj'. intros n Hn. apply (f_equal (fun z => Z.testbit z n)) in E.
  rewrite !Z.lxor_spec in *. by destruct (Z.testbit x n), (Z.testbit y n), (Z.testbit s n), (Z.testbit t n).
Qed.

Lemma xorshift_right k : 0 < k -> scrambles (fun v => xor_shr v k).
Proof.
  intros Hk. unfold xor_shr, xor_shl. split; [auto with lia words|]. intros x y Hx Hy E%lxor_exchange. rewrite <- Z.shiftr_lxor in E.
  apply Z.lxor_eq. assert (u64 (Z.lxor x y)) as [Hd _] by auto with words. revert Hd E. generalize (Z.lxor x y). intros d Hd E.
  destruct (decide (d = 0)) as [|Hne]; [done|]. rewrite Z.shiftr_div_pow2 in E by lia.
  assert (d / 2 ^ k < d); [|lia]. apply Z.div_lt; [lia|]. apply Z.pow_gt_1; lia.
Qed.

Lemma testbit_wrap64 x i : 0 <= i -> Z.testbit (wrap64 x) i = if decide (i < 64) then Z.testbit x i else false.
Proof.
  intros Hi. unfold wrap64, two64. case_decide; [by apply Z.mod_pow2_bits_low|by apply Z.mod_pow2_bits_high; lia].
Qed.

Lemma xorshift_left k : 0 < k -> scrambles (fun v => xor_shl v k).
Proof.
  intros Hk. unfold xor_shr, xor_shl. split; [auto with words|]. intros x y Hx Hy E%lxor_exchange. apply Z.lxor_eq.
  assert (forall i, 0 <= i -> Z.testbit (Z.lxor x y) i = false) as Hb; [|apply Z.bits_inj'; intros i Hi; by rewrite Z.bits_0, Hb].
  intros i Hi. refine (Z_lt_induction (fun i => 0 <= i -> Z.testbit (Z.lxor x y) i = false) _ i Hi Hi).
  intros j IH Hj. rewrite E, Z.lxor_spec, !testbit_wrap64 by done.
  case_decide; [|done]. rewrite !Z.shiftl_spec by done. destruct (decide (j < k)) as [Hik|Hik].
  - by rewrite !Z.testbit_neg_r by lia.
  - rewrite <- Z.lxor_spec. apply IH; lia.
Qed.

(** An odd factor has an inverse modulo [2 ^ 64]. *)
Lemma multiply_odd a b c : a * b mod two64 = 1 -> scrambles (fun v => wrap64 (wrap64 (v * a) + c)).
Proof.
  intros Hab. split; [auto with words|]. intros x y Hx Hy E. unfold wrap64 in E.
  rewrite !Z.add_mod_idemp_l in E by done.
  assert (forall z, u64 z -> ((z * a + c) mod two64 - c) * b mod two64 = z) as Hinv.
  { intros z Hz. rewrite Z.mul_mod, Zminus_mod_idemp_l by done. rewrite <- Z.mul_mod by done.
    replace ((z * a + c - c) * b) with (z * (a * b)) by lia. rewrite Z.mul_mod, Hab, Z.mul_1_r, Z.mod_mod by done.
    by apply Z.mod_small. }
  rewrite <- (Hinv x), <- (Hinv y) by done. by rewrite E.
Qed.

Lemma multiply_odd_0 a b : a * b mod two64 = 1 -> scrambles (fun v => wrap64 (v * a)).
Proof.
  intros Hab. destruct (multiply_odd a b 0 Hab) as [H1 H2]. split; [auto with words|]. intros x y Hx Hy E. apply H2; [done..|].
  by rewrite E.
Qed.

Lemma scrambles_all g (fs : list (Z -> Z)) : (forall x, g x = foldl (fun v f => f v) x fs) -> Forall scrambles fs -> scrambles g.
Proof.
  intros Hg Hfs. assert (scrambles (fun x => foldl (fun v f => f v) x fs)) as [H1 H2].
  { clear g Hg. induction Hfs as [|f fs Hf _ IH]; [by split|]. simpl.
    apply (scrambles_compose f (fun v => foldl (fun v f => f v) v fs) Hf IH). }
  split; [intros x Hx; rewrite Hg; auto|]. intros x y Hx Hy. rewrite !Hg. auto.
Qed.

Lemma hash64_scrambles : scrambles hash64.
Proof.
  apply (scrambles_all _ [fun u => wrap64 (wrap64 (u * 3935559000370003845) + 2691343689449507681);
    fun v => xor_shr v 21; fun v => xor_shl v 37; fun v => xor_shr v 4; fun v => wrap64 (v * 4768777513237032717);
    fun v => xor_shl v 20; fun v => xor_shr v 41; fun v => xor_shl v 5]); [intros x; unfold hash64; cbn [foldl]; reflexivity|].
  repeat apply List.Forall_cons; [|..|apply List.Forall_nil].
  - by apply (multiply_odd _ 13700500150304694605).
  - by apply (xorshift_right 21).
  - by apply (xorshift_left 37).
  - by apply (xorshift_right 4).
  - by apply (multiply_odd_0 _ 1615231051170002885).
  - by apply (xorshift_left 20).
  - by apply (xorshift_right 41).
  - by apply (xorshift_left 5).
Qed.

Lemma hash64_2_scrambles : scrambles hash64_2.
Proof.
  apply (scrambles_all _ [fun v => xor_shr v 30; fun v => wrap64 (v * 0xbf58476d1ce4e5b9);
    fun v => xor_shr v 27; fun v => wrap64 (v * 0x94d049bb133111eb); fun v => xor_shr v 31]);
    [intros x; unfold hash64_2; cbn [foldl]; reflexivity|].
  repeat apply List.Forall_cons; [|..|apply List.Forall_nil].
  - by apply (xorshift_right 30).
  - by apply (multiply_odd_0 _ 10871156337175269513).
  - by apply (xorshift_right 27).
  - by apply (multiply_odd_0 _ 3573116690164977347).
  - by apply (xorshift_right 31).
Qed.

(** [hash64] and [hash64_2] are permutations of the 64-bit words: they map words to
    words, and different words to different words. *)
Theorem hash64_permutes x y : u64 x -> u64 y ->
  (u64 (hash64 x) /\ (hash64 x = hash64 y -> x = y)) /\ (u64 (hash64_2 x) /\ (hash64_2 x = hash64_2 y -> x = y)).
Proof. intros Hx Hy. destruct hash64_scrambles as [H1 H2], hash64_2_scrambles as [H3 H4]. auto. Qed.

Lemma hash64_permutes_witness : (u64 (hash64 7) /\ (hash64 7 = hash64 8 -> 7 = 8)) /\ (u64 (hash64_2 7) /\ (hash64_2 7 = hash64_2 8 -> 7 = 8)).
Proof. apply (hash64_permutes 7 8); by vm_compute. Defined.
