(* ===== verification/HashTableCorrect.v ===== *)
(** * The hash table is determined by its keys

    The invariant of prioritized linear probing: on the way from the first index of an
    element to its cell there are only elements of higher priority.  Every step of every
    thread keeps it; it determines where each key is, makes searches right, and leaves a free
    cell for every insertion to end at. *)

From S2P Require Import Prelude.
From stdpp Require Import list sets relations.
From S2P Require Import ParArray Monoid SequenceOps Hashing HashTable.

#[local] Open Scope nat_scope.

(** ** Going around the table *)

(** Case analysis on the comparisons of indices *)
Ltac cases_nat := repeat match goal with
  | |- context [Nat.leb ?x ?y] => destruct (Nat.leb_spec x y)
  | |- context [Nat.eqb ?x ?y] => destruct (Nat.eqb_spec x y)
  end.

Section cyclic.
Context (m : nat).

(** The number of increments from [i] to [j] *)
Definition dist (i j : nat) : nat := if i <=? j then j - i else j + m - i.

Lemma dist_lt i j : i < m -> j < m -> dist i j < m.
Proof. unfold dist. intros. cases_nat; lia. Qed.

Lemma dist_inj i j k : i < m -> j < m -> k < m -> dist i j = dist i k -> j = k.
Proof. unfold dist. intros Hi Hj Hk. cases_nat; lia. Qed.

Lemma incrementIndex_lt i : i < m -> incrementIndex m i < m.
Proof. unfold incrementIndex. intros. cases_nat; lia. Qed.

(** One step further from [a], unless that is a whole round *)
Lemma dist_increment a i : a < m -> i < m -> dist a (incrementIndex m i) = 0 \/ dist a (incrementIndex m i) = S (dist a i).
Proof.
  unfold dist, incrementIndex. intros. cases_nat; lia.
Qed.

(** One step closer to [e] *)
Lemma dist_from_increment i e : i < m -> e < m -> i <> e -> dist i e = S (dist (incrementIndex m i) e).
Proof.
  unfold dist, incrementIndex. intros. cases_nat; lia.
Qed.
End cyclic.

Section table.
Context {E K : Type} `{!EqDecision E, !HashStruct E K, !HashLaws E K}.
Implicit Types (TA TB : list E) (v c w : E) (k : K) (us : list K).

Lemma cmp_refl k : cmp k k = 0%Z.
Proof. by apply cmp_eq. Qed.

Lemma cmp_cases a b : (0 < cmp a b)%Z \/ a = b \/ (0 < cmp b a)%Z.
Proof. destruct (Z.lt_trichotomy (cmp a b) 0) as [H|[H|H]]; [right; right; by apply cmp_sym|right; left; by apply cmp_eq|by left]. Qed.

Lemma cmp_irrefl k : ~ (0 < cmp k k)%Z.
Proof. rewrite cmp_refl. lia. Qed.

(** ** The invariant *)

(** Cell [p] has priority over the key [k]. *)
Definition higher TA k p : Prop := exists c, TA !! p = Some c /\ c <> empty /\ (0 < cmp (getKey c) k)%Z.

(** The cells from the first index of [k] up to [i], without [i], have priority over [k]. *)
Definition covered TA k i : Prop :=
  forall p, p < length TA -> dist (length TA) (firstIndex (length TA) k) p < dist (length TA) (firstIndex (length TA) k) i ->
  higher TA k p.

Definition ordered TA : Prop := forall j c, TA !! j = Some c -> c <> empty -> covered TA (getKey c) j.

Definition key_at TA (j : nat) : option K := c ← TA !! j; if decide (c = empty) then None else Some (getKey c).
Definition has_key TA k : Prop := exists j, key_at TA j = Some k.

Lemma key_at_Some TA j k : key_at TA j = Some k <-> exists c, TA !! j = Some c /\ c <> empty /\ getKey c = k.
Proof.
  unfold key_at. destruct (TA !! j) as [c|]; simpl; [|naive_solver]. case_decide; naive_solver.
Qed.

Lemma firstIndex_lt m k : 0 < m -> firstIndex m k < m.
Proof. intros Hm. unfold firstIndex, hashToRange. assert (Hb := Z.mod_pos_bound (hash k) (Z.of_nat m)). lia. Qed.

Lemma key_at_lt TA j k : key_at TA j = Some k -> j < length TA.
Proof. intros (c & Hc & _)%key_at_Some. by eapply lookup_lt_Some. Qed.

(** Uniqueness: where a key is follows from what is before it. *)
Lemma covered_key TA k i j : ordered TA -> i < length TA -> covered TA k i -> ~ higher TA k i -> key_at TA j = Some k -> i = j.
Proof.
  intros Ho Hi Hc Hn Hk. assert (Hj := key_at_lt _ _ _ Hk). set (m := length TA) in *. set (h := firstIndex m k).
  assert (h < m) as Hh by (apply firstIndex_lt; lia). apply key_at_Some in Hk as (c & Hcj & Hce & Hck).
  apply (dist_inj m h); [done..|]. destruct (Nat.lt_trichotomy (dist m h i) (dist m h j)) as [Hlt|[?|Hlt]]; [|done|].
  - destruct Hn. specialize (Ho j c Hcj Hce i Hi). rewrite Hck in Ho. by apply Ho.
  - destruct (Hc j Hj Hlt) as (c' & Hc' & _ & Hp). assert (c' = c) as -> by congruence. rewrite Hck in Hp. by apply cmp_irrefl in Hp.
Qed.

Lemma key_not_higher TA k j : key_at TA j = Some k -> ~ higher TA k j.
Proof. intros (c & Hc & _ & <-)%key_at_Some (c' & Hc' & _ & Hp). assert (c' = c) as -> by congruence. by apply cmp_irrefl in Hp. Qed.

Lemma ordered_covered TA k j : ordered TA -> key_at TA j = Some k -> covered TA k j.
Proof. intros Ho (c & Hc & Hce & <-)%key_at_Some. by apply Ho. Qed.

Lemma key_unique TA k i j : ordered TA -> key_at TA i = Some k -> key_at TA j = Some k -> i = j.
Proof.
  intros Ho Hi Hj. apply (covered_key TA k); [done|by eapply key_at_lt|by apply ordered_covered|by apply key_not_higher|done].
Qed.

Lemma ordered_new n : ordered (replicate n empty).
Proof. intros j c [-> _]%lookup_replicate. done. Qed.

(** ** History independence *)

(** The number of keys of the table with priority over [k] *)
Definition rank (us : list K) k : nat := length (base.filter (fun u => (0 < cmp u k)%Z) us).

Lemma rank_lt us k l : k ∈ us -> (0 < cmp k l)%Z -> rank us k < rank us l.
Proof.
  intros Hk Hl. unfold rank. apply (Nat.lt_le_trans _ (length (k :: base.filter (fun u => (0 < cmp u k)%Z) us))); [simpl; lia|].
  induction us as [|u us IH]; [by apply not_elem_of_nil in Hk|]. apply elem_of_cons in Hk as [<-|Hk].
  - rewrite (filter_cons_False _ k) by apply cmp_irrefl. rewrite (filter_cons_True _ k) by done. simpl. apply le_n_S.
    clear IH. induction us as [|u us IH]; [done|]. rewrite !filter_cons.
    destruct (decide (0 < cmp u k)%Z) as [Hu|Hu]; destruct (decide (0 < cmp u l)%Z) as [Hu'|Hu']; simpl; try lia.
    destruct Hu'. by eapply cmp_trans.
  - specialize (IH Hk). rewrite !filter_cons.
    destruct (decide (0 < cmp u k)%Z) as [Hu|Hu]; destruct (decide (0 < cmp u l)%Z) as [Hu'|Hu']; simpl in *; try lia.
    destruct Hu'. by eapply cmp_trans.
Qed.

Lemma rank_le us k : rank us k <= length us.
Proof. apply length_filter. Qed.

(** If the keys with priority over [k] are in the same places, [k] is not earlier in [TB]. *)
Lemma layout_step TA TB k i j : ordered TA -> length TA = length TB ->
  (forall l p, (0 < cmp l k)%Z -> key_at TA p = Some l -> key_at TB p = Some l) ->
  key_at TA i = Some k -> key_at TB j = Some k ->
  dist (length TA) (firstIndex (length TA) k) i <= dist (length TA) (firstIndex (length TA) k) j.
Proof.
  intros HA Hl IH Hi Hj. apply Nat.nlt_ge. intros Hlt.
  destruct (ordered_covered TA k i HA Hi j) as (c & Hc & Hce & Hp); [rewrite Hl; by eapply key_at_lt|done|].
  assert (key_at TB j = Some (getKey c)) as Hj' by (apply IH; [done|]; apply key_at_Some; by exists c).
  assert (getKey c = k) as Ek by congruence. rewrite Ek in Hp. by apply cmp_irrefl in Hp.
Qed.

(** Two tables with the same keys have them in the same places. *)
Lemma layout_unique TA TB us : ordered TA -> ordered TB -> length TA = length TB ->
  (forall k, has_key TA k <-> has_key TB k) -> (forall k, has_key TA k -> k ∈ us) ->
  forall p, key_at TA p = key_at TB p.
Proof.
  intros HA HB Hl Hk Hus. assert (forall n k, rank us k < n -> forall p, key_at TA p = Some k <-> key_at TB p = Some k) as Hn.
  { induction n as [|n IH]; intros k Hr; [lia|].
    assert (forall l p, (0 < cmp l k)%Z -> key_at TA p = Some l <-> key_at TB p = Some l) as Hhigh.
    { intros l p Hlk. split; intros Hp; (apply IH; [|done]).
      - assert (rank us l < rank us k); [|lia]. apply rank_lt; [|done]. apply Hus. by exists p.
      - assert (rank us l < rank us k); [|lia]. apply rank_lt; [|done]. apply Hus, Hk. by exists p. }
    assert (forall i j, key_at TA i = Some k -> key_at TB j = Some k -> i = j) as Heq.
    { intros i j Hi Hj. assert (Hil := key_at_lt _ _ _ Hi). assert (Hjl := key_at_lt _ _ _ Hj). rewrite <- Hl in Hjl.
      apply (dist_inj (length TA) (firstIndex (length TA) k)); [apply firstIndex_lt; lia|done|done|]. apply Nat.le_antisymm.
      - apply (layout_step TA TB k); [done..| |done|done]. intros l p Hlk. by apply Hhigh.
      - rewrite Hl. apply (layout_step TB TA k); [done..| |done|done]. intros l p Hlk. by apply Hhigh. }
    intros p. split; intros Hp.
    - destruct (proj1 (Hk k)) as [j Hj]; [by exists p|]. by rewrite (Heq p j).
    - destruct (proj2 (Hk k)) as [i Hi]; [by exists p|]. by rewrite <- (Heq i p). }
  intros p. apply option_eq. intros k. apply (Hn (S (rank us k))). lia.
Qed.

(** ** Searching *)

Lemma higher_dec TA k p : {higher TA k p} + {~ higher TA k p}.
Proof.
  unfold higher. destruct (TA !! p) as [c|] eqn:Hc; [|right; naive_solver].
  destruct (decide (c = empty)) as [->|Hce]; [right; naive_solver|].
  destruct (decide (0 < cmp (getKey c) k)%Z); [left; by exists c|right; naive_solver].
Qed.

Lemma covered_increment TA k i : i < length TA -> covered TA k i -> higher TA k i -> covered TA k (incrementIndex (length TA) i).
Proof.
  intros Hi Hc Hh p Hp Hd. set (m := length TA) in *.
  destruct (dist_increment m (firstIndex m k) i) as [Ed|Ed]; [apply firstIndex_lt; lia|done| |]; rewrite Ed in Hd; [lia|].
  destruct (decide (dist m (firstIndex m k) p = dist m (firstIndex m k) i)) as [Eq|].
  - apply (dist_inj m) in Eq; [by subst|apply firstIndex_lt; lia|done..].
  - apply Hc; [done|]. fold m. lia.
Qed.

(** From a cell that the search may be at, it ends at the first cell that has no priority. *)
Lemma find_from_correct fuel TA k i e : ordered TA -> i < length TA -> e < length TA -> covered TA k i -> ~ higher TA k e ->
  dist (length TA) i e < fuel ->
  exists r, find_from fuel TA k i = Ok r /\
    match r with Some (j, c) => TA !! j = Some c /\ c <> empty /\ getKey c = k | None => ~ has_key TA k end.
Proof.
  intros Ho. revert i. induction fuel as [|fuel IH]; intros i Hi He Hc Hn Hd; [lia|]. simpl. unfold cell.
  destruct (lookup_lt_is_Some_2 TA i Hi) as [c Hci]. rewrite Hci. simpl.
  assert (~ higher TA k i -> key_at TA i <> Some k -> ~ has_key TA k) as Hno.
  { intros Hni Hki [j Hj]. assert (i = j) as -> by (by apply (covered_key TA k)). done. }
  destruct (decide (c = empty)) as [->|Hce].
  { exists None. split; [done|]. apply Hno.
    - intros (c & Hc' & Hc'' & _). congruence.
    - intros (c & Hc' & Hc'' & _)%key_at_Some. congruence. }
  destruct (cmp_cases k (getKey c)) as [Hp|[->|Hp]].
  - rewrite decide_True by lia. rewrite decide_True by done. exists None. split; [done|]. apply Hno.
    + intros (c' & Hc' & _ & Hp'). assert (c' = c) as -> by congruence. apply (cmp_irrefl k). by eapply cmp_trans.
    + intros (c' & Hc' & _ & <-)%key_at_Some. assert (c' = c) as -> by congruence. by apply cmp_irrefl in Hp.
  - rewrite cmp_refl. simpl. by exists (Some (i, c)).
  - rewrite decide_False by (apply cmp_sym in Hp; lia). assert (higher TA k i) as Hh by (by exists c).
    assert (i <> e) as Hne by (by intros ->). rewrite (dist_from_increment _ i e) in Hd by done.
    apply IH; [by apply incrementIndex_lt|done|by apply covered_increment|done|lia].
Qed.

Lemma covered_first TA k : covered TA k (firstIndex (length TA) k).
Proof. intros p _ Hp. unfold dist in Hp. destruct (Nat.leb_spec (firstIndex (length TA) k) (firstIndex (length TA) k)); lia. Qed.

(** A cell without priority, where every search for [k] and every insertion of it can end *)
Definition has_room TA : Prop := exists e, TA !! e = Some empty.

Lemma room_not_higher TA k e : TA !! e = Some empty -> ~ higher TA k e.
Proof. intros He (c & Hc & Hce & _). congruence. Qed.

Lemma search_correct TA k fuel : ordered TA -> has_room TA -> length TA <= fuel ->
  exists r, find_from fuel TA k (firstIndex (length TA) k) = Ok r /\
    match r with Some (j, c) => TA !! j = Some c /\ c <> empty /\ getKey c = k | None => ~ has_key TA k end.
Proof.
  intros Ho [e He] Hf. assert (e < length TA) as Hel by (by eapply lookup_lt_Some).
  assert (firstIndex (length TA) k < length TA) as Hfl by (apply firstIndex_lt; lia).
  apply (find_from_correct _ _ _ _ e); [done..|apply covered_first|by apply room_not_higher|].
  assert (dist (length TA) (firstIndex (length TA) k) e < length TA) by (by apply dist_lt). lia.
Qed.

(** ** Writing to a cell *)

(** [w] may replace [c]: the cell was free, or has the same key, or a key that [w] has priority over. *)
Definition may_replace w c : Prop := c = empty \/ getKey w = getKey c \/ (0 < cmp (getKey w) (getKey c))%Z.

Section write.
Context (TA : list E) (i : nat) (c w : E).
Context (Hi : TA !! i = Some c) (Hw : w <> empty) (Hr : may_replace w c).

Lemma write_higher k p : higher TA k p -> higher (<[i := w]> TA) k p.
Proof using Hi Hw Hr HashLaws0.
  intros (d & Hd & Hde & Hp). destruct (decide (i = p)) as [<-|Hne].
  - assert (d = c) as -> by congruence. exists w. rewrite list_lookup_insert_eq by (by eapply lookup_lt_Some).
    repeat split; [done|]. destruct Hr as [->|[->|Hwc]]; [done|done|]. by eapply cmp_trans.
  - exists d. by rewrite list_lookup_insert_ne.
Qed.

Lemma write_covered k j : covered TA k j -> covered (<[i := w]> TA) k j.
Proof using Hi Hw Hr HashLaws0.
  intros Hc p. rewrite length_insert. intros Hp Hd. by apply write_higher, Hc.
Qed.

Lemma write_ordered : ordered TA -> covered TA (getKey w) i -> ordered (<[i := w]> TA).
Proof using Hi Hw Hr HashLaws0.
  intros Ho Hc j d Hj Hd. apply write_covered. destruct (decide (i = j)) as [<-|Hne].
  - rewrite list_lookup_insert_eq in Hj by (by eapply lookup_lt_Some). by injection Hj as <-.
  - rewrite list_lookup_insert_ne in Hj by done. by apply Ho.
Qed.

Lemma write_key_at j : key_at (<[i := w]> TA) j = if decide (j = i) then Some (getKey w) else key_at TA j.
Proof using Hi Hw.
  unfold key_at. case_decide as Hj.
  - subst j. rewrite list_lookup_insert_eq by (by eapply lookup_lt_Some). simpl. by rewrite decide_False.
  - by rewrite list_lookup_insert_ne by done.
Qed.

(** The keys afterwards are those before, that of [w], and not that of [c] unless it is the same. *)
Lemma write_has_key k : has_key (<[i := w]> TA) k \/ (c <> empty /\ getKey c = k) <-> has_key TA k \/ getKey w = k.
Proof using Hi Hw.
  unfold has_key. setoid_rewrite write_key_at. split.
  - intros [[j Hj]|[Hc Hk]].
    + case_decide; [right; congruence|left; by exists j].
    + left. exists i. apply key_at_Some. by exists c.
  - intros [[j Hj]|Hk].
    + destruct (decide (j = i)) as [->|Hne]; [|left; exists j; by rewrite decide_False].
      right. apply key_at_Some in Hj as (d & Hd & ? & ?). assert (d = c) as -> by congruence. done.
    + left. exists i. by rewrite decide_True, Hk.
Qed.
End write.

(** ** The steps of a thread *)

Section phase.
Context (combine : E -> E -> E).
(** An element that takes the place of one with the same key has that key. *)
Definition combines : Prop := forall c v, c <> empty -> v <> empty -> getKey c = getKey v ->
  combine c v <> empty /\ getKey (combine c v) = getKey v.
Context (Hcombine : combines).

Definition pc_ok TA (p : pc E) : Prop :=
  match p with
  | reading v i => v <> empty /\ i < length TA /\ covered TA (getKey v) i
  | swapping v i c => v <> empty /\ i < length TA /\ covered TA (getKey v) i /\ may_replace v c
  | returned _ => True
  end.

Definition carries (p : pc E) k : Prop :=
  match p with reading v _ | swapping v _ _ => getKey v = k | returned _ => False end.

Inductive transition TA : pc E -> list E -> pc E -> Prop :=
  | t_candidate v i c : TA !! i = Some c -> may_replace v c -> transition TA (reading v i) TA (swapping v i c)
  | t_duplicate v i : key_at TA i = Some (getKey v) -> transition TA (reading v i) TA (returned false)
  | t_forward v i : higher TA (getKey v) i -> transition TA (reading v i) TA (reading v (incrementIndex (length TA) i))
  | t_retry v i c : TA !! i <> Some c -> transition TA (swapping v i c) TA (reading v i)
  | t_store v i c w : TA !! i = Some c -> w <> empty -> getKey w = getKey v -> c = empty \/ getKey c = getKey v ->
      transition TA (swapping v i c) (<[i := w]> TA) (returned true)
  | t_displace v i c : TA !! i = Some c -> c <> empty -> (0 < cmp (getKey v) (getKey c))%Z ->
      transition TA (swapping v i c) (<[i := v]> TA) (reading c (incrementIndex (length TA) i)).

Lemma insert_step_transition TA p : pc_ok TA p -> (forall b, p <> returned b) ->
  exists TA' p', insert_step combine TA p = Ok (TA', p') /\ transition TA p TA' p'.
Proof using Hcombine HashLaws0.
  intros Hp Hnr. destruct p as [v i|v i c|b]; [| |by destruct (Hnr b)].
  - destruct Hp as (Hv & Hi & Hc). destruct (lookup_lt_is_Some_2 TA i Hi) as [c Hci]. simpl. unfold cell. rewrite Hci. simpl.
    eexists _, _. split; [done|]. destruct (decide (c = empty)) as [->|Hce]; [apply t_candidate; [done|by left]|].
    destruct (cmp_cases (getKey v) (getKey c)) as [Hk|[Hk|Hk]].
    + rewrite decide_False, decide_False by lia. apply t_candidate; [done|by right; right].
    + rewrite decide_True by (by apply cmp_eq). destruct (replaceQ v c); simpl; [apply t_candidate; [done|by right; left]|].
      apply t_duplicate, key_at_Some. by exists c.
    + apply cmp_sym in Hk. rewrite decide_False, decide_True by lia. apply t_forward. exists c. repeat split; [done..|by apply cmp_sym].
  - destruct Hp as (Hv & Hi & Hc & Hr). destruct (lookup_lt_is_Some_2 TA i Hi) as [d Hd]. simpl. unfold cas, cell. rewrite Hd. simpl.
    destruct (decide (d = c)) as [->|Hne]; simpl; eexists _, _; (split; [done|]); [|apply t_retry; congruence].
    destruct (decide (c = empty)) as [->|Hce]; [apply t_store with (c := empty); [done..|by left]|].
    case_bool_decide as Hk.
    + apply cmp_eq in Hk. destruct (Hcombine c v) as [H1 H2]; [done..|]. apply t_store with (c := c); [done..|by right].
    + apply t_displace with (c := c); [done..|]. destruct Hr as [?|[Hr|?]]; [done| |done]. destruct Hk. by apply cmp_eq.
Qed.

Lemma transition_ok TA p TA' p' : transition TA p TA' p' -> ordered TA -> pc_ok TA p ->
  ordered TA' /\ pc_ok TA' p' /\ length TA' = length TA /\
  (forall q, pc_ok TA q -> pc_ok TA' q) /\
  (forall k, has_key TA' k \/ carries p' k <-> has_key TA k \/ carries p k).
Proof using HashLaws0.
  intros Ht Ho Hp. destruct Ht as [v i c Hi Hr|v i Hk|v i Hh|v i c Hi|v i c w Hi Hw Hwk Hc|v i c Hi Hc Hvc]; simpl in Hp.
  - destruct Hp as (Hv & Hl & Hcv). done.
  - split; [done|]. split; [done|]. split; [done|]. split; [done|]. intros k. simpl. split; [naive_solver|].
    intros [?|<-]; [by left|left; by exists i].
  - destruct Hp as (Hv & Hl & Hcv). repeat split; try done.
    + by apply incrementIndex_lt.
    + by apply covered_increment.
  - destruct Hp as (Hv & Hl & Hcv & _). done.
  - destruct Hp as (Hv & Hl & Hcv & _). rewrite <- Hwk in Hcv.
    assert (may_replace w c) as Hr by (destruct Hc as [->|Hc]; [by left|right; left; congruence]).
    split; [by apply (write_ordered TA i c w)|]. split; [done|]. split; [apply length_insert|]. split.
    + intros [x j|x j d|b]; simpl; rewrite ?length_insert; [| |done].
      * intros (? & ? & ?). repeat split; [done..|by apply (write_covered TA i c w)].
      * intros (? & ? & ? & ?). repeat split; [done..|by apply (write_covered TA i c w)|done].
    + intros k. simpl. rewrite <- Hwk, <- (write_has_key TA i c w Hi Hw). split; [naive_solver|].
      intros [?|[Hce Hck]]; [by left|]. left. exists i. rewrite (write_key_at TA i c w) by done.
      rewrite decide_True by done. f_equal. destruct Hc as [?|Hc]; congruence.
  - destruct Hp as (Hv & Hl & Hcv & Hr). split; [by apply (write_ordered TA i c v)|].
    assert (higher (<[i := v]> TA) (getKey c) i) as Hh.
    { exists v. by rewrite list_lookup_insert_eq. }
    split; [|split; [apply length_insert|split]].
    + simpl. rewrite length_insert. repeat split; [done|by apply incrementIndex_lt|].
      rewrite <- (length_insert TA i v). apply covered_increment; [by rewrite length_insert| |done].
      apply (write_covered TA i c v); [done..|]. by apply Ho.
    + intros [x j|x j d|b]; simpl; rewrite ?length_insert; [| |done].
      * intros (? & ? & ?). repeat split; [done..|by apply (write_covered TA i c v)].
      * intros (? & ? & ? & ?). repeat split; [done..|by apply (write_covered TA i c v)|done].
    + intros k. simpl. rewrite <- (write_has_key TA i c v Hi Hv). naive_solver.
Qed.
End phase.
End table.
