(* ===== verification/HashTablePhase.v ===== *)
(** * Phases of insertions

    All threads together: what a phase leaves in the table does not depend on how the threads
    interleave ([table_determined]), and a phase ends after a bounded number of steps
    ([insertions_terminate]). *)

From S2P Require Import Prelude.
From stdpp Require Import list sets relations.
From S2P Require Import ParArray Monoid SequenceOps Hashing HashTable HashTableCorrect.

#[local] Open Scope nat_scope.

Section table.
Context {E K : Type} `{!EqDecision E, !HashStruct E K, !HashLaws E K}.
Implicit Types (TA TB : list E) (v c w : E) (k : K) (us : list K) (s : state E) (p q : pc E).

(** ** The invariant of the states *)

Definition ok_state s : Prop := ordered (table s) /\ forall t p, threads s !! t = Some p -> pc_ok (table s) p.

(** The keys that are in the table or on the way to it *)
Definition carried s k : Prop := exists t p, threads s !! t = Some p /\ carries p k.
Definition present s k : Prop := has_key (table s) k \/ carried s k.

Lemma carried_insert TA (ps : list (pc E)) t p p' k : ps !! t = Some p ->
  carried (State TA (<[t := p']> ps)) k <-> carries p' k \/ exists u q, u <> t /\ ps !! u = Some q /\ carries q k.
Proof.
  intros Ht. unfold carried. simpl. split.
  - intros (u & q & Hu & Hq). destruct (decide (t = u)) as [<-|Hne].
    + rewrite list_lookup_insert_eq in Hu by (by eapply lookup_lt_Some). injection Hu as <-. by left.
    + rewrite list_lookup_insert_ne in Hu by done. right. by exists u, q.
  - intros [Hp|(u & q & Hne & Hu & Hq)].
    + exists t, p'. by rewrite list_lookup_insert_eq by (by eapply lookup_lt_Some).
    + exists u, q. by rewrite list_lookup_insert_ne by done.
Qed.

Section phase.
Context (combine : E -> E -> E) (Hcombine : combines combine).

Lemma step_transition s s' : ok_state s -> step combine s s' ->
  exists t p p', threads s !! t = Some p /\ transition (table s) p (table s') p' /\ threads s' = <[t := p']> (threads s).
Proof using Hcombine HashLaws0.
  intros [_ Hp] Hs. destruct Hs as [s t p p' TA Ht Hi]. exists t, p, p'. split; [done|]. simpl.
  destruct (insert_step_transition combine Hcombine (table s) p) as (TA' & q & Hi' & Htr); [by eapply Hp|by intros b ->|].
  rewrite Hi in Hi'. by injection Hi' as <- <-.
Qed.

Lemma step_ok s s' : ok_state s -> step combine s s' ->
  ok_state s' /\ length (table s') = length (table s) /\ length (threads s') = length (threads s) /\
  forall k, present s' k <-> present s k.
Proof using Hcombine HashLaws0.
  intros Hok Hs. destruct (step_transition s s' Hok Hs) as (t & p & p' & Ht & Htr & Ets). destruct Hok as [Ho Hp].
  destruct (transition_ok (table s) p (table s') p' Htr Ho (Hp t p Ht)) as (Ho' & Hp' & Hl & Hothers & Hkeys).
  destruct s' as [TA' ps']. simpl in *. subst ps'. repeat split; [done| |done|apply length_insert| |].
  - intros u q Hu. simpl in *. apply list_lookup_insert_Some in Hu as [(<- & -> & _)|[_ Hu]]; [done|]. by eapply Hothers, Hp.
  - unfold present. rewrite (carried_insert TA' _ t p) by done. simpl. intros [Hk|[Hk|(u & q & _ & Hu & Hq)]].
    + destruct (proj1 (Hkeys k)) as [?|?]; [by left|by left|right; by exists t, p].
    + destruct (proj1 (Hkeys k)) as [?|?]; [by right|by left|right; by exists t, p].
    + right. by exists u, q.
  - unfold present. rewrite (carried_insert TA' _ t p) by done. simpl. intros [Hk|(u & q & Hu & Hq)].
    + destruct (proj2 (Hkeys k)); [by left|by left|by right; left].
    + destruct (decide (u = t)) as [->|Hne]; [|right; right; by exists u, q].
      assert (q = p) as -> by congruence. destruct (proj2 (Hkeys k)); [by right|by left|by right; left].
Qed.

Lemma steps_ok s s' : ok_state s -> rtc (step combine) s s' ->
  ok_state s' /\ length (table s') = length (table s) /\ forall k, present s' k <-> present s k.
Proof using Hcombine HashLaws0.
  intros Hok. induction 1 as [s|s s1 s' Hs _ IH]; [done|].
  destruct (step_ok s s1 Hok Hs) as (Hok1 & Hl1 & _ & Hk1). destruct (IH Hok1) as (Hok' & Hl' & Hk').
  split; [done|]. split; [lia|]. intros k. by rewrite Hk', Hk1.
Qed.
End phase.

(** The keys of the table and of the elements to insert *)
Definition keys_of TA (vs : list E) k : Prop := has_key TA k \/ exists v, v ∈ vs /\ getKey v = k.

Lemma begin_ok TA vs : ordered TA -> 0 < length TA -> Forall (fun v => v <> empty) vs ->
  ok_state (begin_phase TA vs) /\ forall k, present (begin_phase TA vs) k <-> keys_of TA vs k.
Proof.
  intros Ho Hm Hvs. split; [split; [done|]|].
  - simpl. intros t p Ht. apply list_lookup_fmap_Some in Ht as (v & -> & Hv). simpl. split; [|split].
    + apply (Forall_lookup_1 _ _ _ _ Hvs Hv).
    + by apply firstIndex_lt.
    + apply covered_first.
  - intros k. unfold present, keys_of, carried. simpl. apply or_iff_compat_l. split.
    + intros (t & p & Ht & Hp). apply list_lookup_fmap_Some in Ht as (v & -> & Hv). exists v. split; [by eapply list_elem_of_lookup_2|done].
    + intros (v & (t & Hv)%list_elem_of_lookup & Hk). exists t, (start_insert (length TA) v). by rewrite list_lookup_fmap, Hv.
Qed.

Lemma finished_carried s k : finished s -> ~ carried s k.
Proof. intros Hf (t & p & Ht & Hp). destruct (Hf p) as [b ->]; [by eapply list_elem_of_lookup_2|done]. Qed.

Lemma phase_table combine TA vs s : combines combine -> ordered TA -> 0 < length TA -> Forall (fun v => v <> empty) vs ->
  rtc (step combine) (begin_phase TA vs) s -> finished s ->
  ordered (table s) /\ length (table s) = length TA /\ forall k, has_key (table s) k <-> keys_of TA vs k.
Proof.
  intros Hc Ho Hm Hvs Hs Hf. destruct (begin_ok TA vs Ho Hm Hvs) as [Hok Hk].
  destruct (steps_ok combine Hc _ _ Hok Hs) as ([Ho' _] & Hl & Hk'). split; [done|]. split; [done|].
  intros k. rewrite <- Hk, <- Hk'. unfold present. assert (Hn := finished_carried s k Hf). tauto.
Qed.

Lemma has_key_elem TA k : has_key TA k -> k ∈ getKey <$> TA.
Proof. intros (j & (c & Hc & _ & <-)%key_at_Some). apply list_elem_of_fmap. exists c. split; [done|]. by eapply list_elem_of_lookup_2. Qed.

(** ** Termination *)

Section termination.
Context (us : list K).

Lemma room_left TA : ordered TA -> (forall k, has_key TA k -> k ∈ us) -> length us < length TA -> has_room TA.
Proof.
  intros Ho Hk Hl. destruct (decide (empty ∈ TA)) as [[e He]%list_elem_of_lookup|Hne]; [by exists e|]. exfalso.
  assert (forall j c, TA !! j = Some c -> key_at TA j = Some (getKey c)) as Hat.
  { intros j c Hc. apply key_at_Some. exists c. repeat split; [done|]. intros ->. apply Hne. by eapply list_elem_of_lookup_2. }
  assert (getKey <$> TA ⊆+ us) as Hsub.
  { apply NoDup_submseteq.
    - apply NoDup_alt. intros i j k Hi Hj. apply list_lookup_fmap_Some in Hi as (c & -> & Hc).
      apply list_lookup_fmap_Some in Hj as (d & Hcd & Hd). apply (key_unique TA (getKey c)); [done|by apply Hat|]. rewrite Hcd. by apply Hat.
    - intros k (c & -> & [j Hj]%list_elem_of_lookup)%list_elem_of_fmap. apply Hk. exists j. by apply Hat. }
  apply submseteq_length in Hsub. rewrite length_fmap in Hsub. lia.
Qed.

(** A free cell, where the thread that reads [TA[i]] would end *)
Definition free TA : nat := from_option fst 0 (list_find (fun c => c = empty) TA).

Lemma free_empty TA : has_room TA -> TA !! free TA = Some empty.
Proof.
  intros [e He]. unfold free. destruct (list_find_elem_of (fun c => c = empty) TA empty) as [[i c] Hf]; [by eapply list_elem_of_lookup_2|done|].
  rewrite Hf. apply list_find_Some in Hf as (Hi & -> & _). done.
Qed.

(** How far a thread is from changing something, or from its end *)
Definition delay TA p : nat :=
  match p with
  | reading v i => S (dist (length TA) i (free TA))
  | swapping v i c => if decide (TA !! i = Some c) then 0 else S (S (dist (length TA) i (free TA)))
  | returned _ => 0
  end.

Definition active p : nat := match p with returned _ => 0 | _ => 1 end.

(** Cells only ever go up in priority. *)
Definition weight c : nat := if decide (c = empty) then S (length us) else rank us (getKey c).

Definition work s : nat := list_sum (weight <$> table s) + list_sum (active <$> threads s).
Definition delays s : nat := list_sum (delay (table s) <$> threads s).
Definition rounds s : nat := length (threads s) * S (length (table s)).
Definition measure s : nat := work s * S (rounds s) + delays s.

Lemma delay_bound TA p : has_room TA -> pc_ok TA p -> delay TA p <= S (length TA).
Proof.
  intros Hr%free_empty Hp. assert (free TA < length TA) as Hf by (by eapply lookup_lt_Some).
  destruct p as [v i|v i c|b]; simpl in *; [| |lia].
  - destruct Hp as (_ & Hi & _). assert (dist (length TA) i (free TA) < length TA) by (by apply dist_lt). lia.
  - destruct Hp as (_ & Hi & _). case_decide; [lia|]. assert (dist (length TA) i (free TA) < length TA) by (by apply dist_lt). lia.
Qed.

Lemma delays_bound s : has_room (table s) -> ok_state s -> delays s <= rounds s.
Proof.
  intros Hr [_ Hp]. apply sum_bound. intros p (t & Ht)%list_elem_of_lookup. apply delay_bound; [done|by eapply Hp].
Qed.

(** A transition brings its thread closer, or takes work from the table. *)
Lemma transition_work TA p TA' p' : transition TA p TA' p' -> has_room TA -> pc_ok TA p -> (forall k, carries p k -> k ∈ us) ->
  (TA' = TA /\ active p' <= active p /\ delay TA p' < delay TA p) \/
  list_sum (weight <$> TA') + active p' < list_sum (weight <$> TA) + active p.
Proof using HashLaws0.
  intros Ht Hr Hp Hk. apply free_empty in Hr as He. assert (free TA < length TA) as Hf by (by eapply lookup_lt_Some).
  destruct Ht as [v i c Hi Hrep|v i Hkey|v i Hh|v i c Hi|v i c w Hi Hw Hwk Hc|v i c Hi Hc Hvc]; simpl in Hp.
  - left. split; [done|]. simpl. rewrite decide_True by done. lia.
  - left. split; [done|]. simpl. lia.
  - left. split; [done|]. simpl. split; [done|]. assert (i <> free TA) as Hne by (intros ->; by eapply room_not_higher).
    rewrite (dist_from_increment _ i (free TA)) by naive_solver. lia.
  - left. split; [done|]. simpl. rewrite decide_False by done. lia.
  - right. simpl. assert (Hs := sum_insert weight TA i c w Hi). assert (weight w <= weight c) as Hle; [|lia].
    unfold weight. rewrite decide_False by done. case_decide as Hce; [assert (Hrk := rank_le us (getKey w)); lia|].
    destruct Hc as [?|Hc]; [done|]. by rewrite Hwk, Hc.
  - right. simpl. assert (Hs := sum_insert weight TA i c v Hi). assert (weight v < weight c) as Hlt; [|lia].
    unfold weight. rewrite decide_False by naive_solver. rewrite decide_False by done. apply rank_lt; [|done]. by apply Hk.
Qed.

(** What a phase keeps while [us] has all keys *)
Definition fits s : Prop := ok_state s /\ (forall k, present s k -> k ∈ us) /\ length us < length (table s).

Lemma fits_room s : fits s -> has_room (table s).
Proof. intros ([Ho _] & Hk & Hl). apply room_left; [done| |done]. intros k Hh. apply Hk. by left. Qed.

Section steps.
Context (combine : E -> E -> E) (Hcombine : combines combine).

Lemma fits_step s s' : fits s -> step combine s s' -> fits s'.
Proof using Hcombine HashLaws0.
  intros (Hok & Hk & Hl) Hs. destruct (step_ok combine Hcombine s s' Hok Hs) as (Hok' & Hl' & _ & Hk').
  split; [done|]. split; [|lia]. intros k Hp. by apply Hk, Hk'.
Qed.

Lemma step_measure s s' : fits s -> step combine s s' -> measure s' < measure s.
Proof using Hcombine HashLaws0.
  intros Hfits Hs. assert (fits s') as Hfits' by (by eapply fits_step). assert (Hr := fits_room s Hfits).
  destruct (step_ok combine Hcombine s s' (proj1 Hfits) Hs) as (_ & Hl & Hlt & _).
  destruct (step_transition combine Hcombine s s' (proj1 Hfits) Hs) as (t & p & p' & Ht & Htr & Ets).
  assert (rounds s' = rounds s) as Er by (unfold rounds; congruence).
  assert (Ha := sum_insert active (threads s) t p p' Ht). rewrite <- Ets in Ha. unfold measure. rewrite Er.
  destruct (transition_work (table s) p (table s') p' Htr Hr) as [(Et & Hact & Hd)|Hw].
  - by eapply Hfits.
  - intros k Hk. apply Hfits. right. by exists t, p.
  - assert (Hds := sum_insert (delay (table s)) (threads s) t p p' Ht). rewrite <- Ets in Hds. unfold delays. rewrite Et.
    assert (work s' <= work s) as Hw by (unfold work; rewrite Et; lia). apply Nat.add_le_lt_mono; [|lia]. by apply Nat.mul_le_mono_r.
  - assert (S (work s') <= work s) as Hw' by (unfold work; lia). assert (delays s' <= rounds s) as Hd.
    { rewrite <- Er. apply delays_bound; [by apply fits_room|apply Hfits']. }
    apply (Nat.mul_le_mono_r _ _ (S (rounds s))) in Hw'. simpl in Hw'. lia.
Qed.

Lemma phase_measure n s s' : fits s -> nsteps (step combine) n s s' -> fits s' /\ n + measure s' <= measure s.
Proof using Hcombine HashLaws0.
  intros Hf. induction 1 as [s|n s s1 s' Hs _ IH]; [done|]. destruct (IH (fits_step s s1 Hf Hs)) as [Hf' Hm].
  split; [done|]. assert (Hlt := step_measure s s1 Hf Hs). lia.
Qed.

Lemma finished_dec s : {finished s} + {exists t p, threads s !! t = Some p /\ forall b, p <> returned b}.
Proof.
  destruct s as [TA ps]. unfold finished. simpl. induction ps as [|p ps IH]; [left; by intros p ?%not_elem_of_nil|].
  destruct IH as [IH|IH]; [|right; destruct IH as (t & q & Ht & Hq); by exists (S t), q].
  destruct p as [v i|v i c|b]; [right; by exists 0, (reading v i)|right; by exists 0, (swapping v i c)|].
  left. intros q [->|Hq]%elem_of_cons; [by exists b|by apply IH].
Qed.

(** A thread that has not returned can take a step. *)
Lemma unfinished_step s : ok_state s -> ~ finished s -> exists s', step combine s s'.
Proof using Hcombine HashLaws0.
  intros [_ Hp] Hf. destruct (finished_dec s) as [?|(t & p & Ht & Hnr)]; [done|].
  destruct (insert_step_transition combine Hcombine (table s) p) as (TA & p' & Hi & _); [by eapply Hp|done|].
  exists (State TA (<[t := p']> (threads s))). by eapply thread_step.
Qed.

Lemma finish_phase s : fits s -> exists s', rtc (step combine) s s' /\ finished s'.
Proof using Hcombine HashLaws0.
  remember (measure s) as n eqn:En. revert s En. induction (lt_wf n) as [n _ IH]. intros s -> Hf.
  destruct (finished_dec s) as [?|(t & p & Ht & Hnr)]; [by exists s|].
  destruct (unfinished_step s) as [s1 Hs]; [apply Hf|intros Hfin; destruct (Hfin p) as [b ->]; [by eapply list_elem_of_lookup_2|by eapply Hnr]|].
  destruct (IH (measure s1)) with (s := s1) as (s' & Hs' & Hfin); [by apply step_measure|done|by eapply fits_step|].
  exists s'. split; [by eapply rtc_l|done].
Qed.
End steps.
End termination.

(** The most steps that [T] threads can take in a table of [m] cells with [u] keys *)
Definition insertion_bound (m u T : nat) : nat := (m * S u + T) * S (T * S m) + T * S m.

Lemma begin_measure us TA vs : fits us (begin_phase TA vs) -> measure us (begin_phase TA vs) <= insertion_bound (length TA) (length us) (length vs).
Proof using HashLaws0.
  intros Hf. assert (Hd := delays_bound _ (fits_room us _ Hf) (proj1 Hf)).
  assert (rounds (begin_phase TA vs) = length vs * S (length TA)) as Er by (unfold rounds; simpl; by rewrite length_fmap).
  unfold measure, insertion_bound. rewrite Er in *. apply Nat.add_le_mono; [|done]. apply Nat.mul_le_mono_r. unfold work. apply Nat.add_le_mono.
  - apply sum_bound. intros c _. unfold weight. case_decide; [done|]. assert (Hr := rank_le us (getKey c)). lia.
  - rewrite <- (length_fmap (start_insert (length TA)) vs), <- (Nat.mul_1_r (length (_ <$> vs))). apply sum_bound. intros [| |] _; simpl; lia.
Qed.

Lemma begin_fits us TA vs : ordered TA -> Forall (fun v => v <> empty) vs -> (forall k, keys_of TA vs k -> k ∈ us) ->
  length us < length TA -> fits us (begin_phase TA vs).
Proof.
  intros Ho Hvs Hk Hl. destruct (begin_ok TA vs Ho) as [Hok Hp]; [lia|done|]. split; [done|]. split; [|done]. intros k Hpk. by apply Hk, Hp.
Qed.

(** ** The theorems *)

(** C34: the hash table is history independent.  Take two phases of insertions (or of updates) with any
    interleaving of the reads and compare-and-swaps of their threads, started from tables of the same
    size in which probing is in order, such that the keys of each table together with those to insert
    are the same.  When all threads have returned, each table has exactly those keys, and both have them
    in the same cells; so if a key determines its element the tables are equal. *)
Theorem table_determined combine TA TB vs ws s s' :
  combines combine -> ordered TA -> ordered TB -> length TA = length TB -> 0 < length TA ->
  Forall (fun v => v <> empty) vs -> Forall (fun w => w <> empty) ws ->
  (forall k, keys_of TA vs k <-> keys_of TB ws k) ->
  rtc (step combine) (begin_phase TA vs) s -> finished s ->
  rtc (step combine) (begin_phase TB ws) s' -> finished s' ->
  (forall k, has_key (table s) k <-> keys_of TA vs k) /\
  (forall j, key_at (table s) j = key_at (table s') j) /\
  (Inj (=) (=) getKey -> table s = table s').
Proof.
  intros Hc HA HB Hl Hm Hvs Hws Hkeys Hs Hf Hs' Hf'.
  destruct (phase_table combine TA vs s Hc HA Hm Hvs Hs Hf) as (Ho & Hl1 & Hk).
  destruct (phase_table combine TB ws s' Hc HB) as (Ho' & Hl2 & Hk'); [lia|done..|].
  assert (forall j, key_at (table s) j = key_at (table s') j) as Hat.
  { apply (layout_unique (table s) (table s') (getKey <$> table s)); [done|done|lia| |apply has_key_elem]. intros k. by rewrite Hk, Hk'. }
  split; [done|]. split; [done|]. intros Hinj. apply list_eq. intros j. specialize (Hat j). unfold key_at in Hat.
  destruct (table s !! j) as [c|] eqn:Hp, (table s' !! j) as [d|] eqn:Hp'; simpl in Hat.
  - f_equal. do 2 case_decide; [congruence|done|done|]. injection Hat as Hat. by apply Hinj.
  - apply lookup_lt_Some in Hp. apply lookup_ge_None in Hp'. lia.
  - apply lookup_lt_Some in Hp'. apply lookup_ge_None in Hp. lia.
  - done.
Qed.

(** C35: if the table and the elements to insert have fewer distinct keys than the table has cells, the
    insertions end whatever the schedule: from every state that a phase reaches it can finish, as long as
    a thread has not returned some thread can take a step, and no run takes more than [insertion_bound]
    steps, failed compare-and-swaps included. *)
Theorem insertions_terminate combine us TA vs :
  combines combine -> ordered TA -> Forall (fun v => v <> empty) vs ->
  (forall k, keys_of TA vs k -> k ∈ us) -> length us < length TA ->
  (forall n s, nsteps (step combine) n (begin_phase TA vs) s -> n <= insertion_bound (length TA) (length us) (length vs)) /\
  (forall s, rtc (step combine) (begin_phase TA vs) s ->
    (~ finished s -> exists s', step combine s s') /\ exists s', rtc (step combine) s s' /\ finished s').
Proof.
  intros Hc Ho Hvs Hk Hl. assert (fits us (begin_phase TA vs)) as Hf by (by apply begin_fits). split.
  - intros n s Hs. destruct (phase_measure us combine Hc n _ s Hf Hs) as [_ Hm]. assert (Hb := begin_measure us TA vs Hf). lia.
  - intros s [n Hs]%rtc_nsteps_1. destruct (phase_measure us combine Hc n _ s Hf Hs) as [Hfs _]. split.
    + apply unfinished_step; [done|apply Hfs].
    + by apply (finish_phase us).
Qed.
End table.
