(* ===== verification/HashTableMap.v ===== *)
(** * The hash table as a map

    What one thread sees: [insert] and [update] change what [find] returns for the key of the
    element and for no other key, [count] and [entries] are those of the elements stored, and
    [get_index] numbers them ([insert_find], [entries_correct]). *)

From S2P Require Import Prelude.
From stdpp Require Import list sets relations.
From S2P Require Import ParArray Monoid SequenceOps PrimitivesSpec Hashing HashTable HashTableCorrect HashTablePhase.

#[local] Open Scope nat_scope.

Section table.
Context {E K : Type} `{!EqDecision E, !HashStruct E K, !HashLaws E K}.
Implicit Types (TA TB : list E) (v c w : E) (k : K) (p : pc E).

(** ** What is stored under a key *)

Definition stored TA k : E := from_option snd empty (list_find (fun c => c <> empty /\ cmp (getKey c) k = 0%Z) TA).

Lemma stored_at TA j c : ordered TA -> TA !! j = Some c -> c <> empty -> stored TA (getKey c) = c.
Proof.
  intros Ho Hj Hc. unfold stored.
  destruct (list_find_elem_of (fun d => d <> empty /\ cmp (getKey d) (getKey c) = 0%Z) TA c) as [[i d] Hf].
  - by eapply list_elem_of_lookup_2.
  - split; [done|apply cmp_refl].
  - rewrite Hf. simpl. apply list_find_Some in Hf as (Hi & [Hd Hk%cmp_eq] & _).
    assert (i = j) as ->; [|congruence]. apply (key_unique TA (getKey c)); [done|..]; apply key_at_Some; naive_solver.
Qed.

Lemma stored_none TA k : ~ has_key TA k -> stored TA k = empty.
Proof.
  intros Hk. unfold stored. destruct (list_find _ TA) as [[i d]|] eqn:Hf; [|done]. destruct Hk.
  apply list_find_Some in Hf as (Hi & [Hd Hk%cmp_eq] & _). exists i. apply key_at_Some. by exists d.
Qed.

(** Either the key is absent, or it is where [stored] says. *)
Lemma stored_cases TA k : ordered TA ->
  (~ has_key TA k /\ stored TA k = empty) \/ (exists j, TA !! j = Some (stored TA k) /\ stored TA k <> empty /\ getKey (stored TA k) = k).
Proof.
  intros Ho. destruct (list_find (fun c => c <> empty /\ cmp (getKey c) k = 0%Z) TA) as [[i d]|] eqn:Hf.
  - right. unfold stored. rewrite Hf. apply list_find_Some in Hf as (Hi & [Hd Hk%cmp_eq] & _). by exists i.
  - left. assert (~ has_key TA k) as Hk; [|split; [done|by apply stored_none]]. intros (j & (c & Hj & Hc & Ek)%key_at_Some).
    apply list_find_None in Hf. rewrite Forall_forall in Hf. apply (Hf c); [by eapply list_elem_of_lookup_2|]. by rewrite Ek, cmp_refl.
Qed.

Lemma has_key_stored TA k : ordered TA -> has_key TA k <-> stored TA k <> empty.
Proof.
  intros Ho. destruct (stored_cases TA k Ho) as [[Hn Hs]|(j & Hj & Hs & Hk)]; [tauto|]. split; [done|].
  intros _. exists j. apply key_at_Some. by eexists.
Qed.

Lemma find_stored TA k fuel : ordered TA -> has_room TA -> length TA <= fuel -> find fuel TA k = Ok (stored TA k).
Proof.
  intros Ho Hr Hf. unfold find. destruct (search_correct TA k fuel Ho Hr Hf) as (r & -> & Hs). simpl.
  destruct r as [[j c]|]; [|by rewrite stored_none].
  destruct Hs as (Hj & Hc & <-). by rewrite (stored_at TA j c).
Qed.

Lemma stored_write TA i c w k : ordered TA -> ordered (<[i := w]> TA) -> TA !! i = Some c -> w <> empty ->
  stored (<[i := w]> TA) k =
    if decide (cmp (getKey w) k = 0%Z) then w
    else if decide (c <> empty /\ cmp (getKey c) k = 0%Z) then empty else stored TA k.
Proof.
  intros Ho Ho' Hi Hw. assert (<[i := w]> TA !! i = Some w) as Hi' by (apply list_lookup_insert_eq; by eapply lookup_lt_Some).
  case_decide as Hwk; [apply cmp_eq in Hwk as <-; by eapply stored_at|]. case_decide as Hck.
  - destruct Hck as [Hc Hk%cmp_eq]. apply stored_none. intros [j Hj]. rewrite (write_key_at TA i c w) in Hj by done.
    case_decide as Hji; [apply Hwk, cmp_eq; congruence|]. destruct Hji. apply (key_unique TA k); [done|done|].
    apply key_at_Some. by exists c.
  - destruct (stored_cases TA k Ho) as [[Hn ->]|(j & Hj & Hs & Hk)].
    + apply stored_none. intros Hh. apply Hn. destruct (proj1 (write_has_key TA i c w Hi Hw k)) as [?|Hk]; [by left|done|].
      destruct Hwk. by apply cmp_eq.
    + rewrite <- Hk at 1. apply (stored_at _ j); [done| |done]. rewrite list_lookup_insert_ne; [done|]. intros ->.
      assert (stored TA k = c) as Ec by congruence. apply Hck. rewrite <- Ec. split; [done|]. by apply cmp_eq.
Qed.

(** ** Insertion by one thread *)

Section insertion.
Context (combine : E -> E -> E) (Hcombine : combines combine).

(** Whether [v] is stored, and what is stored under [k] after it was inserted *)
Definition accepts TA v : bool :=
  let c := stored TA (getKey v) in if decide (c = empty) then true else replaceQ v c.

Definition inserted TA v k : E :=
  if decide (cmp (getKey v) k = 0%Z)
  then let c := stored TA k in if decide (c = empty) then v else if replaceQ v c then combine c v else c
  else stored TA k.

Definition outcome TA p : bool := match p with reading v _ | swapping v _ _ => accepts TA v | returned b => b end.
Definition contents TA p k : E := match p with reading v _ | swapping v _ _ => inserted TA v k | returned _ => stored TA k end.

(** With no other thread, a cell is as it was read. *)
Definition current TA p : Prop :=
  match p with
  | swapping v i c => TA !! i = Some c /\ (c <> empty -> getKey v = getKey c -> replaceQ v c = true)
  | _ => True
  end.

(** An element that reached a cell without priority and of another key is not in the table. *)
Lemma not_stored TA v i : ordered TA -> i < length TA -> covered TA (getKey v) i -> ~ higher TA (getKey v) i ->
  key_at TA i <> Some (getKey v) -> stored TA (getKey v) = empty.
Proof.
  intros Ho Hi Hc Hn Hk. apply stored_none. intros [j Hj]. assert (i = j) as -> by (by apply (covered_key TA (getKey v))). done.
Qed.

Lemma not_higher_read TA v i c : TA !! i = Some c -> may_replace v c -> ~ higher TA (getKey v) i.
Proof.
  intros Hi Hr (d & Hd & Hde & Hp). assert (d = c) as -> by congruence. destruct Hr as [?|[Hr|Hr]]; [done| |].
  - rewrite Hr in Hp. by apply cmp_irrefl in Hp.
  - apply (cmp_irrefl (getKey c)). by eapply cmp_trans.
Qed.

Definition same_effect TA p TA' p' : Prop :=
  outcome TA' p' = outcome TA p /\ forall k, contents TA' p' k = contents TA p k.

Lemma read_effect TA v i TA' p' : ordered TA -> pc_ok TA (reading v i) -> insert_step combine TA (reading v i) = Ok (TA', p') ->
  current TA' p' /\ same_effect TA (reading v i) TA' p'.
Proof using HashLaws0.
  intros Ho (Hv & Hi & Hc) Hs. simpl in Hs. unfold cell in Hs. destruct (lookup_lt_is_Some_2 TA i Hi) as [c Hci].
  rewrite Hci in Hs. simpl in Hs. injection Hs as <- Hp'. destruct (decide (c = empty)) as [->|Hce]; [by subst p'|].
  destruct (decide (cmp (getKey v) (getKey c) = 0%Z)) as [Hk|Hk].
  - apply cmp_eq in Hk. destruct (replaceQ v c) eqn:Hr; simpl in Hp'; subst p'; [done|]. split; [done|].
    assert (stored TA (getKey v) = c) as Es by (rewrite Hk; by eapply stored_at). split; simpl.
    + unfold accepts. by rewrite Es, decide_False, Hr.
    + intros k. unfold inserted. case_decide as Hvk; [|done]. apply cmp_eq in Hvk as <-. by rewrite Es, decide_False, Hr.
  - destruct (decide (cmp (getKey v) (getKey c) < 0)%Z); subst p'; [done|]. split; [|done]. split; [done|]. intros _ Hkc.
    destruct Hk. by apply cmp_eq.
Qed.

Lemma swap_effect TA v i c TA' p' : ordered TA -> pc_ok TA (swapping v i c) -> current TA (swapping v i c) ->
  insert_step combine TA (swapping v i c) = Ok (TA', p') -> ordered TA' -> same_effect TA (swapping v i c) TA' p'.
Proof using HashLaws0 Hcombine.
  intros Ho (Hv & Hi & Hc & Hr) [Hci Hq] Hs Ho'. simpl in Hs. unfold cas, cell in Hs. rewrite Hci in Hs. simpl in Hs.
  rewrite decide_True in Hs by done. injection Hs as <- <-. simpl. unfold same_effect.
  assert (Hn := not_higher_read TA v i c Hci Hr). destruct (decide (c = empty)) as [->|Hce].
  - assert (stored TA (getKey v) = empty) as Es.
    { apply (not_stored TA v i); [done..|]. intros (d & Hd & Hde & _)%key_at_Some. congruence. }
    split; simpl; [unfold accepts; by rewrite Es, decide_True|]. intros k. rewrite (stored_write TA i empty v) by done.
    unfold inserted. destruct (decide (cmp (getKey v) k = 0%Z)) as [Hk|Hk].
    + apply cmp_eq in Hk as <-. by rewrite Es, decide_True.
    + by rewrite decide_False by naive_solver.
  - destruct (bool_decide (cmp (getKey v) (getKey c) = 0%Z)) eqn:Eb.
    + assert (Hk := Eb). apply bool_decide_eq_true, cmp_eq in Hk. destruct (Hcombine c v) as [Hw Hwk]; [done..|]. specialize (Hq Hce Hk).
      assert (stored TA (getKey v) = c) as Es by (rewrite Hk; by eapply stored_at).
      split; simpl; [unfold accepts; by rewrite Es, decide_False|]. intros k. rewrite (stored_write TA i c (combine c v)) by done.
      rewrite Hwk, <- Hk. unfold inserted. destruct (decide (cmp (getKey v) k = 0%Z)) as [Hvk|Hvk].
      * apply cmp_eq in Hvk as <-. by rewrite Es, decide_False, Hq.
      * by rewrite decide_False by naive_solver.
    + apply bool_decide_eq_false in Eb.
      assert (getKey v <> getKey c) as Hne by (intros Hk; apply Eb; by apply cmp_eq).
      assert (stored TA (getKey v) = empty) as Es.
      { apply (not_stored TA v i); [done..|]. intros (d & Hd & Hde & Hdk)%key_at_Some. congruence. }
      assert (stored (<[i := v]> TA) (getKey c) = empty) as Ec.
      { rewrite (stored_write TA i c v) by done. rewrite decide_False by done. rewrite decide_True; [done|]. split; [done|apply cmp_refl]. }
      split; simpl; [unfold accepts; by rewrite Ec, Es, !decide_True|]. intros k. unfold inserted at 1.
      destruct (decide (cmp (getKey c) k = 0%Z)) as [Hk|Hk].
      * apply cmp_eq in Hk as <-. rewrite Ec, decide_True by done. unfold inserted. rewrite decide_False by done.
        symmetry. by eapply stored_at.
      * rewrite (stored_write TA i c v) by done. unfold inserted. destruct (decide (cmp (getKey v) k = 0%Z)) as [Hvk|Hvk].
        -- apply cmp_eq in Hvk as <-. by rewrite Es, decide_True.
        -- by rewrite decide_False by naive_solver.
Qed.

Lemma run_insert_correct us fuel TA p : fits us (State TA [p]) -> current TA p -> measure us (State TA [p]) < fuel ->
  exists TA', run_insert combine fuel TA p = Ok (TA', outcome TA p) /\ ordered TA' /\ has_room TA' /\
    length TA' = length TA /\ forall k, stored TA' k = contents TA p k.
Proof using HashLaws0 Hcombine.
  revert TA p. induction fuel as [|fuel IH]; intros TA p Hf Hc Hm; [lia|]. assert (Hroom := fits_room us _ Hf).
  assert (Hok := Hf). destruct Hok as ([Ho Hp] & Hk & Hl). specialize (Hp 0 p eq_refl) as Hok. simpl in *.
  destruct (match p with returned _ => true | _ => false end) eqn:Hret.
  { destruct p; try done. exists TA. done. }
  destruct (insert_step_transition combine Hcombine TA p Hok) as (TA1 & p1 & Hs & Ht); [by intros b ->|].
  assert (step combine (State TA [p]) (State TA1 [p1])) as Hstep by (by apply (thread_step combine (State TA [p]) 0 p p1 TA1)).
  assert (fits us (State TA1 [p1])) as Hf1 by (by eapply fits_step).
  assert (measure us (State TA1 [p1]) < measure us (State TA [p])) as Hm1 by (by apply (step_measure us combine)).
  destruct (transition_ok TA p TA1 p1 Ht Ho Hok) as (Ho1 & _ & Hl1 & _).
  assert (current TA1 p1 /\ same_effect TA p TA1 p1) as [Hc1 [Hout Hcont]].
  { destruct p as [v i|v i c|b]; [by apply read_effect| |done]. split; [|by apply swap_effect].
    simpl in Hs. unfold cas, cell in Hs. rewrite (proj1 Hc) in Hs. simpl in Hs. rewrite decide_True in Hs by done.
    injection Hs as _ <-. simpl. by repeat case_decide; try case_bool_decide. }
  destruct (IH TA1 p1 Hf1 Hc1) as (TA' & Hr & Ho' & Hroom' & Hl' & Hst); [lia|]. exists TA'. rewrite <- Hout. split.
  - destruct p; [| |done]; cbn [run_insert]; rewrite Hs; exact Hr.
  - split; [done|]. split; [done|]. split; [lia|]. intros k. by rewrite Hst, Hcont.
Qed.
End insertion.

Lemma insert_combines : combines (fun _ v => v).
Proof. by intros c v Hc Hv Hk. Qed.

Lemma update_combines : combines update_value.
Proof. intros c v Hc Hv Hk. destruct (update_key c v Hc Hv) as [H1 H2]. split; [done|]. by rewrite H2. Qed.

Lemma run_start combine us TA v fuel : combines combine -> ordered TA -> v <> empty -> (forall k, keys_of TA [v] k -> k ∈ us) ->
  length us < length TA -> insertion_bound (length TA) (length us) 1 < fuel ->
  exists TA', run_insert combine fuel TA (start_insert (length TA) v) = Ok (TA', accepts TA v) /\ ordered TA' /\ has_room TA' /\
    length TA' = length TA /\ forall k, stored TA' k = inserted combine TA v k.
Proof.
  intros Hc Ho Hv Hk Hl Hfu. assert (fits us (begin_phase TA [v])) as Hf by (apply begin_fits; [done|by apply List.Forall_cons|done|done]).
  assert (Hb := begin_measure us TA [v] Hf). apply (run_insert_correct combine Hc us); [done|done|].
  change [start_insert (length TA) v] with (start_insert (length TA) <$> [v]). simpl in Hb. unfold begin_phase in Hb. simpl in *. lia.
Qed.

(** C36: the operations of one thread are those of a map.  With room for one more key and enough fuel
    ([insertion_bound]) [insert] and [update] terminate; they return false exactly if an element with the
    same key is stored and [replaceQ] keeps it.  Afterwards [find] returns, for the key of the new element,
    that element ([update]: the old one updated with it) or the one that was kept, and for every other
    key what it returned before, although displaced elements moved. *)
Theorem insert_find us TA v fuel :
  ordered TA -> v <> empty -> (forall k, keys_of TA [v] k -> k ∈ us) -> length us < length TA ->
  insertion_bound (length TA) (length us) 1 < fuel ->
  (exists TA', insert fuel TA v = Ok (TA', accepts TA v) /\ ordered TA' /\ length TA' = length TA /\
    forall k n, length TA <= n -> find n TA' k = Ok (inserted (fun _ v => v) TA v k)) /\
  (exists TA', update fuel TA v = Ok (TA', accepts TA v) /\ ordered TA' /\ length TA' = length TA /\
    forall k n, length TA <= n -> find n TA' k = Ok (inserted update_value TA v k)) /\
  (forall k n, length TA <= n -> find n TA k = Ok (stored TA k)).
Proof.
  intros Ho Hv Hk Hl Hf. assert (has_room TA) as Hroom.
  { apply (room_left us); [done| |done]. intros k Hh. apply Hk. by left. }
  split; [|split].
  - destruct (run_start (fun _ v => v) us TA v fuel insert_combines Ho Hv Hk Hl Hf) as (TA' & Hr & Ho' & Hr' & Hl' & Hs).
    exists TA'. repeat split; [done..|]. intros k n Hn. rewrite (find_stored TA') by (done || lia). by rewrite Hs.
  - destruct (run_start update_value us TA v fuel update_combines Ho Hv Hk Hl Hf) as (TA' & Hr & Ho' & Hr' & Hl' & Hs).
    exists TA'. repeat split; [done..|]. intros k n Hn. rewrite (find_stored TA') by (done || lia). by rewrite Hs.
  - intros k n Hn. by apply find_stored.
Qed.

(** ** The entries *)

Section collections.
Context `{H : !Schedule}.

Lemma clear_all g n v : clear g n (uninitialized n) v = Ok (Some <$> replicate n v).
Proof.
  unfold clear. rewrite (parallel_for_cells (Some <$> replicate n v) _ _ 0).
  - rewrite <- (length_replicate n v) at 2. by rewrite uninitialized_all.
  - by rewrite length_fmap, length_replicate.
  - intros i z a Hz Hl _. apply list_lookup_fmap_Some in Hz as (y & -> & [-> Hy]%lookup_replicate).
    apply assign_eq. by rewrite Hl, length_uninitialized.
Qed.

Definition is_full_at c : nat := if decide (c = empty) then 0 else 1.

Lemma is_full_lookup TA i c : TA !! i = Some c -> is_full TA i = Ok (is_full_at c).
Proof. intros Hi. unfold is_full, cell. by rewrite Hi. Qed.

Lemma full_sum TA : list_sum (is_full_at <$> TA) = length (base.filter (fun c => c <> empty) TA).
Proof.
  induction TA as [|c TA IH]; [done|]. rewrite fmap_cons, filter_cons. unfold is_full_at at 1. unfold list_sum in *. simpl. rewrite IH.
  by repeat case_decide.
Qed.

Lemma full_sum_le TA : list_sum (is_full_at <$> TA) <= length TA.
Proof. rewrite full_sum. apply length_filter. Qed.

Lemma shows_full TA : (delayed_tabulate (length TA) (is_full TA) ▷ (is_full_at <$> TA))%par.
Proof.
  split; [by rewrite length_fmap|]. intros i x (c & -> & Hc)%list_lookup_fmap_Some. by apply is_full_lookup.
Qed.

Lemma full_sizes TA : size_t (length TA) -> Forall size_t (is_full_at <$> TA).
Proof.
  intros Hs. apply Forall_forall. intros x Hx. eapply size_t_le, Hs. etrans; [by apply list_sum_elem|]. apply full_sum_le.
Qed.

Lemma entries_NoDup TA :
  (forall i j c d, TA !! i = Some c -> TA !! j = Some d -> c <> empty -> d <> empty -> getKey c = getKey d -> i = j) ->
  NoDup (getKey <$> base.filter (fun c => c <> empty) TA).
Proof.
  induction TA as [|c TA IH]; intros Hk; [constructor|]. rewrite filter_cons.
  assert (NoDup (getKey <$> base.filter (fun c => c <> empty) TA)) as Hnd.
  { apply IH. intros i j d e Hi Hj Hd He Hde. assert (S i = S j) as [= ->]; [|done]. by eapply (Hk (S i) (S j)). }
  case_decide as Hc; [|done]. rewrite fmap_cons. constructor; [|done].
  intros (d & Hcd & [Hd [j Hj]%list_elem_of_lookup]%list_elem_of_filter)%list_elem_of_fmap.
  by assert (0 = S j) by (by apply (Hk 0 (S j) c d)).
Qed.

(** [count] is the number of stored elements and [entries] lists them in the order of their cells,
    for every schedule; [get_index] is, for each cell, the number of elements before it. *)
Theorem entries_correct TA : size_t (length TA) ->
  let es := base.filter (fun c => c <> empty) TA in
  count TA = Ok (length es) /\ entries TA = Ok es /\
  get_index TA = Ok (Some <$> ((fun i => length (base.filter (fun c => c <> empty) (take i TA))) <$> seq 0 (length TA))) /\
  (ordered TA -> NoDup (getKey <$> es) /\ forall c, c ∈ es <-> c <> empty /\ stored TA (getKey c) = c).
Proof using HashLaws0.
  intros Hs es. split; [|split; [|split]].
  - unfold count. rewrite (reduce_eq plus_size size_t size_add _ (is_full_at <$> TA)); [|apply shows_full|by apply full_sizes].
    rewrite (foldl_identity plus_size size_t size_add) by (by apply full_sizes). f_equal.
    transitivity (foldl size_add 0 (is_full_at <$> TA)); [by destruct TA|].
    rewrite foldl_size_add; [|eapply size_t_le, Hs; apply full_sum_le]. apply full_sum.
  - unfold entries. rewrite (filter_eq _ _ TA); [|apply shows_of_list|done]. simpl. rewrite elements_eq. f_equal. apply list_filter_iff.
    intros c. apply bool_decide_spec.
  - unfold get_index. change from_function with (@tabulate H nat). rewrite (tabulate_eq (is_full_at <$> TA)).
    + simpl. rewrite !length_fmap. rewrite <- (length_fmap is_full_at TA) at 1. rewrite scan_sizes; [|eapply size_t_le, Hs; apply full_sum_le].
      simpl. rewrite length_fmap. do 2 f_equal. apply list_fmap_ext. intros i k Hk. by rewrite <- fmap_take, full_sum.
    + by rewrite length_fmap.
    + intros i y (c & -> & Hc)%list_lookup_fmap_Some. by apply is_full_lookup.
  - intros Ho. split.
    + apply entries_NoDup. intros i j c d Hi Hj Hc Hd Hk. apply (key_unique TA (getKey c)); [done|..]; apply key_at_Some; naive_solver.
    + intros c. unfold es. rewrite list_elem_of_filter. split.
      * intros [Hc [j Hj]%list_elem_of_lookup]. split; [done|]. by eapply stored_at.
      * intros [Hc Hst]. split; [done|]. destruct (stored_cases TA (getKey c) Ho) as [[_ Hn]|(j & Hj & _)]; [congruence|].
        rewrite Hst in Hj. by eapply list_elem_of_lookup_2.
Qed.
End collections.
End table.
