(* ===== verification/HashTableDelete.v ===== *)
(** * Deletion from the hash table

    [deleteVal] by one thread.  The cell of the deleted key is a hole that moves along the
    table until it meets a free cell; apart from the hole probing stays in order
    ([ordered_except]).  The comparison of cyclic indices [lessIndex] is right only while no
    run of full cells goes around half of the table: [deleteVal_correct] holds for tables at
    most half full, and [deleteVal_loses_a_key] is a table, within the size it was made for,
    where a deletion hides another key. *)

From S2P Require Import Prelude.
From stdpp Require Import list sets relations.
From S2P Require Import ParArray Monoid SequenceOps PrimitivesSpec Hashing HashTable HashTableCorrect HashTablePhase HashTableMap.

#[local] Open Scope nat_scope.

Lemma filter_ext_elem {X} (P Q : X -> Prop) `{!forall z, Decision (P z), !forall z, Decision (Q z)} (l : list X) :
  (forall x, x ∈ l -> P x <-> Q x) -> base.filter P l = base.filter Q l.
Proof.
  induction l as [|x l IH]; intros HPQ; [done|]. rewrite !filter_cons, IH by (intros y Hy; apply HPQ; by right).
  assert (P x <-> Q x) as Hx by (apply HPQ; left). by repeat case_decide; naive_solver.
Qed.

(** ** Cyclic indices *)

Section cyclic.
Context (m : nat).
Implicit Types (a b f i j p q : nat).

Lemma decrementIndex_lt i : i < m -> decrementIndex m i < m.
Proof. unfold decrementIndex. intros. cases_nat; lia. Qed.

Lemma decrement_increment i : i < m -> decrementIndex m (incrementIndex m i) = i.
Proof. unfold decrementIndex, incrementIndex. intros. destruct (Nat.eqb_spec (i + 1) m); cases_nat; lia. Qed.

Lemma dist_0 i j : i < m -> j < m -> dist m i j = 0 <-> i = j.
Proof. unfold dist. intros. cases_nat; lia. Qed.

Lemma dist_decrement i j : i < m -> j < m -> i <> j -> dist m i j = S (dist m i (decrementIndex m j)).
Proof. unfold dist, decrementIndex. intros. cases_nat; lia. Qed.

Lemma dist_increment_ne i j : i < m -> j < m -> incrementIndex m j <> i -> dist m i (incrementIndex m j) = S (dist m i j).
Proof. unfold dist, incrementIndex. intros. cases_nat; lia. Qed.

(** [lessIndex a b]: [b] is ahead of [a] by less than half of the table. *)
Lemma lessIndex_dist a b : a < m -> b < m -> lessIndex m a b = true <-> 0 < dist m a b /\ 2 * dist m a b < m.
Proof.
  unfold lessIndex, dist. intros Ha Hb. destruct (Nat.ltb_spec a b), (Nat.leb_spec a b); rewrite ?Nat.ltb_lt; lia.
Qed.

(** [f] is ahead of [j] by less than half of the table exactly if the way from [f] to [q] does not pass [j]. *)
Lemma lessIndex_passes j q f : j < m -> q < m -> f < m -> j <> q -> 2 * dist m j q < m -> 2 * dist m f q < m ->
  lessIndex m j f = true <-> ~ dist m f j < dist m f q.
Proof.
  intros Hj Hq Hf Hne H1 H2. rewrite lessIndex_dist by done. revert H1 H2. unfold dist. cases_nat; lia.
Qed.

(** The way from [f] to [q] over [j] also goes over what is between [j] and [q]. *)
Lemma dist_via f j p q : f < m -> j < m -> p < m -> q < m -> dist m f j < dist m f q -> dist m j p < dist m j q -> dist m f p < dist m f q.
Proof. unfold dist. cases_nat; lia. Qed.
End cyclic.

Section table.
Context {E K : Type} `{!EqDecision E, !HashStruct E K, !HashLaws E K}.
Implicit Types (TA : list E) (v c d x y : E) (k : K).

#[local] Instance key_eq_dec : EqDecision K.
Proof. intros a b. refine (cast_if (decide (cmp a b = 0%Z))); by rewrite <- cmp_eq. Defined.

(** ** Runs of full cells *)

Definition full TA (p : nat) : Prop := exists c, TA !! p = Some c /\ c <> empty.

Definition short_runs TA : Prop := forall a q, a < length TA -> q < length TA ->
  (forall p, p < length TA -> dist (length TA) a p <= dist (length TA) a q -> full TA p) -> 2 * dist (length TA) a q < length TA.

Lemma higher_full TA k p : higher TA k p -> full TA p.
Proof. intros (c & Hc & Hce & _). by exists c. Qed.

(** The indices of the full cells *)
Definition full_cells TA : list nat := base.filter (fun p => from_option (fun c => bool_decide (c <> empty)) false (TA !! p) = true) (seq 0 (length TA)).

Lemma elem_of_full_cells TA p : p ∈ full_cells TA <-> full TA p.
Proof.
  unfold full_cells, full. rewrite list_elem_of_filter, elem_of_seq. split.
  - intros [Hp _]. destruct (TA !! p) as [c|]; [|done]. exists c. split; [done|]. by apply bool_decide_eq_true in Hp.
  - intros (c & Hc & Hce). rewrite Hc. simpl. split; [by apply bool_decide_eq_true|]. apply lookup_lt_Some in Hc. lia.
Qed.

Lemma length_full_cells TA : length (full_cells TA) = length (base.filter (fun c => c <> empty) TA).
Proof.
  unfold full_cells. induction TA as [|c TA IH] using rev_ind; [done|].
  rewrite length_app, Nat.add_1_r, seq_S, !filter_app, !length_app. f_equal.
  - rewrite <- IH. f_equal. apply filter_ext_elem. intros p Hp%elem_of_seq. by rewrite lookup_app_l by lia.
  - simpl. rewrite !filter_cons, !filter_nil. rewrite lookup_app_r, Nat.sub_diag by done. simpl.
    rewrite (decide_ext _ (c <> empty)) by (by rewrite bool_decide_eq_true). by case_decide.
Qed.

(** A table that is at most half full has short runs. *)
Lemma half_full_runs TA : 2 * length (base.filter (fun c => c <> empty) TA) <= length TA -> short_runs TA.
Proof.
  intros Ho a q Ha Hq Hrun. rewrite <- length_full_cells in Ho. set (m := length TA) in *. set (n := S (dist m a q)).
  assert (dist m a q < m) as Hd by (by apply dist_lt).
  set (at_ := fun t => (a + t) mod m). assert (forall t, t < n -> at_ t < m /\ dist m a (at_ t) = t) as Hat.
  { intros t Ht. unfold at_. split; [apply Nat.mod_upper_bound; lia|]. unfold dist. destruct (decide (a + t < m)).
    - rewrite Nat.mod_small by done. cases_nat; lia.
    - replace (a + t) with (a + t - m + 1 * m) by lia. rewrite Nat.Div0.mod_add, Nat.mod_small by lia. cases_nat; lia. }
  assert (at_ <$> seq 0 n ⊆+ full_cells TA) as Hsub%submseteq_length.
  { apply NoDup_submseteq.
    - apply NoDup_fmap_2_strong; [|apply NoDup_seq]. intros s t [_ Hs]%elem_of_seq [_ Ht]%elem_of_seq Est.
      destruct (Hat s) as [_ <-]; [lia|]. destruct (Hat t) as [_ <-]; [lia|]. by rewrite Est.
    - intros p (t & -> & [_ Ht]%elem_of_seq)%list_elem_of_fmap. apply elem_of_full_cells. destruct (Hat t) as [H1 H2]; [lia|].
      apply Hrun; [done|]. rewrite H2. unfold n in Ht. lia. }
  rewrite length_fmap, length_seq in Hsub. unfold n in Hsub. lia.
Qed.

(** ** The hole *)

(** Apart from cell [j] and what it has to do with others, probing is in order. *)
Definition ordered_except TA (j : nat) : Prop := forall q d, q <> j -> TA !! q = Some d -> d <> empty ->
  forall p, p < length TA -> dist (length TA) (firstIndex (length TA) (getKey d)) p < dist (length TA) (firstIndex (length TA) (getKey d)) q ->
  p = j \/ higher TA (getKey d) p.

Lemma ordered_ordered_except TA j : ordered TA -> ordered_except TA j.
Proof. intros Ho q d _ Hq Hd p Hp Hlt. right. by eapply Ho. Qed.

(** The elements from [j] to [jj], both excluded, do not pass [j]. *)
Definition none_between TA (j jj : nat) : Prop := forall p d, dist (length TA) j p < dist (length TA) j jj -> p <> j -> TA !! p = Some d ->
  d <> empty /\ ~ dist (length TA) (firstIndex (length TA) (getKey d)) j < dist (length TA) (firstIndex (length TA) (getKey d)) p.

Lemma getKey_first_lt TA d : 0 < length TA -> firstIndex (length TA) (getKey d) < length TA.
Proof. apply firstIndex_lt. Qed.

Section hole.
Context (TA : list E) (j : nat) (c : E).
Context (Hj : TA !! j = Some c) (Ho : ordered_except TA j).
#[local] Abbreviation m := (length TA).
#[local] Abbreviation home d := (firstIndex (length TA) (getKey d)).

Lemma hole_lt : j < m.
Proof using Hj. by eapply lookup_lt_Some. Qed.

Lemma first_lt d : home d < m.
Proof using Hj. apply firstIndex_lt. assert (Hl := hole_lt). lia. Qed.

(** An element that passes the hole and is not between it and [jj] passes [jj]. *)
Lemma passes_next jj q d : jj < m -> jj <> j -> none_between TA j jj -> q <> j -> TA !! q = Some d -> d <> empty ->
  dist m (home d) j < dist m (home d) q -> q = jj \/ higher TA (getKey d) jj.
Proof using Hj Ho.
  intros Hjj Hne Hb Hq Hqd Hd Hlt. assert (q < m) as Hql by (by eapply lookup_lt_Some).
  destruct (Nat.lt_trichotomy (dist m j q) (dist m j jj)) as [Hlt'|[Heq|Hgt]].
  - destruct (Hb q d Hlt' Hq Hqd) as [_ Hn]. done.
  - left. apply (dist_inj m j); [apply hole_lt|done..].
  - right. destruct (Ho q d Hq Hqd Hd jj) as [?|?]; [done| |done|done].
    apply (dist_via m _ j jj q); [apply first_lt|apply hole_lt|done..].
Qed.

(** Another element in the cell of the hole *)
Lemma hole_filled x k p : p <> j -> higher TA k p -> higher (<[j := x]> TA) k p.
Proof using Type.
  intros Hp (d & Hd & Hde & Hk). exists d. by rewrite list_lookup_insert_ne.
Qed.

(** The next element that passes the hole fills it and leaves a hole. *)
Lemma move_hole jj x : TA !! jj = Some x -> jj <> j -> none_between TA j jj -> x <> empty -> dist m (home x) j < dist m (home x) jj ->
  ordered_except (<[j := x]> TA) jj.
Proof using Hj Ho.
  intros Hjj Hne Hb Hx Hpass q d Hq Hqd Hd p. rewrite !length_insert in *. intros Hp Hlt.
  assert (jj < m) as Hjjl by (by eapply lookup_lt_Some). apply list_lookup_insert_Some in Hqd as [(<- & -> & _)|[Hqj Hqd]].
  - right. destruct (decide (p = j)) as [->|Hpj]; [lia|]. apply hole_filled; [done|].
    destruct (Ho jj d Hne Hjj Hd p Hp) as [?|?]; [lia|done|done].
  - destruct (decide (p = j)) as [->|Hpj].
    + right. destruct (passes_next jj q d) as [?|Hh]; [done..|by apply not_eq_sym|done|done|done|done|]. destruct Hh as (x' & Hx' & _ & Hk). assert (x' = x) as -> by congruence.
      exists x. by rewrite list_lookup_insert_eq by apply hole_lt.
    + right. apply hole_filled; [done|]. by destruct (Ho q d (not_eq_sym Hqj) Hqd Hd p Hp Hlt) as [?|?].
Qed.

(** At a free cell the hole disappears. *)
Lemma close_hole jj : TA !! jj = Some empty -> jj <> j -> none_between TA j jj -> ordered (<[j := empty]> TA).
Proof using Hj Ho.
  intros Hjj Hne Hb q d Hqd Hd p. rewrite !length_insert. intros Hp Hlt.
  apply list_lookup_insert_Some in Hqd as [(_ & Hde & _)|[Hqj Hqd]]; [congruence|]. destruct (decide (p = j)) as [->|Hpj].
  - assert (jj < m) as Hjjl by (by eapply lookup_lt_Some).
    destruct (passes_next jj q d Hjjl Hne Hb (not_eq_sym Hqj) Hqd Hd Hlt) as [->|(e & He & Hee & _)]; congruence.
  - apply hole_filled; [done|]. by destruct (Ho q d (not_eq_sym Hqj) Hqd Hd p Hp Hlt) as [?|?].
Qed.

(** ** The search for an element to fill the hole *)

Section search.
Context (e : nat) (Hce : c <> empty) (He : TA !! e = Some empty) (Hruns : short_runs TA).

Lemma free_lt : e < m.
Proof using He. by eapply lookup_lt_Some. Qed.

Lemma none_between_mono q jj : none_between TA j jj -> dist m j q <= dist m j jj -> none_between TA j q.
Proof using Type. intros Hb Hle p d Hp. apply Hb. lia. Qed.

(** The comparison of indices is right about an element after the hole. *)
Lemma less_cell q d : TA !! q = Some d -> d <> empty -> q <> j -> none_between TA j q ->
  lessIndex m j (home d) = true <-> ~ dist m (home d) j < dist m (home d) q.
Proof using Hj Ho Hce Hruns.
  intros Hq Hd Hqj Hb. assert (q < m) as Hql by (by eapply lookup_lt_Some).
  apply lessIndex_passes; [apply hole_lt|done|apply first_lt|by apply not_eq_sym|..]; apply Hruns; try done; try apply hole_lt; try apply first_lt; intros p Hp Hle.
  - destruct (decide (p = j)) as [->|Hpj]; [by exists c|]. destruct (decide (p = q)) as [->|Hpq]; [by exists d|].
    destruct (lookup_lt_is_Some_2 TA p Hp) as [x Hx]. exists x. split; [done|]. apply (Hb p x); [|done|done].
    assert (dist m j p <> dist m j q); [|lia]. intros Heq. apply Hpq. by apply (dist_inj m j); [apply hole_lt|..].
  - destruct (decide (p = q)) as [->|Hpq]; [by exists d|].
    assert (dist m (home d) p <> dist m (home d) q) by (intros Heq; apply Hpq; by apply (dist_inj m (home d)); [apply first_lt|..]).
    destruct (Ho q d Hqj Hq Hd p Hp) as [->|Hh]; [lia|by exists c|by eapply higher_full].
Qed.

Lemma next_ok fuel jj x : TA !! jj = Some x -> jj <> j -> none_between TA j jj -> dist m j jj <= dist m j e -> dist m jj e < fuel ->
  exists jj' x', next_available fuel TA j jj x = Ok (jj', x') /\ TA !! jj' = Some x' /\ jj' <> j /\ none_between TA j jj' /\
    dist m j jj' <= dist m j e /\ (x' = empty \/ dist m (home x') j < dist m (home x') jj').
Proof using Hj Ho Hce He Hruns.
  revert jj x. induction fuel as [|fuel IH]; intros jj x Hjj Hne Hb Hle Hf; [lia|]. simpl.
  destruct (decide (x = empty)) as [->|Hx].
  { rewrite bool_decide_eq_true_2 by done. simpl. exists jj, empty. auto 10. }
  rewrite bool_decide_eq_false_2 by done. simpl. assert (Hless := less_cell jj x Hjj Hx Hne Hb).
  destruct (lessIndex m j (home x)) eqn:El.
  2:{ exists jj, x. split; [done|]. split; [done|]. split; [done|]. split; [done|]. split; [done|]. right. destruct (decide (dist m (home x) j < dist m (home x) jj)); [done|]. naive_solver. }
  assert (jj < m) as Hjl by (by eapply lookup_lt_Some). assert (Hjm := hole_lt). assert (Hem := free_lt).
  assert (jj <> e) as Hje by congruence.
  assert (dist m j jj <> dist m j e) as Hde by (intros Heq; apply Hje; by apply (dist_inj m j)).
  assert (incrementIndex m jj <> j) as Hij.
  { intros Hij. assert (dist m j e < m) by (by apply dist_lt). assert (dist m j jj = m - 1); [|lia].
    revert Hij. unfold incrementIndex, dist. cases_nat; lia. }
  assert (dist m j (incrementIndex m jj) = S (dist m j jj)) as Hinc by (by apply dist_increment_ne).
  destruct (lookup_lt_is_Some_2 TA (incrementIndex m jj)) as [y Hy]; [by apply incrementIndex_lt|]. unfold cell. rewrite Hy. simpl.
  apply IH; [done|done| |lia|].
  - intros p d Hp Hpj Hd. destruct (decide (p = jj)) as [->|Hpjj].
    + assert (d = x) as -> by congruence. split; [done|]. by apply Hless.
    + apply (Hb p d); [|done|done]. assert (p < m) as Hpl by (by eapply lookup_lt_Some).
      assert (dist m j p <> dist m j jj) by (intros Heq; apply Hpjj; by apply (dist_inj m j)). lia.
  - rewrite (dist_from_increment m jj e) in Hf by done. lia.
Qed.

(** No other thread has moved an element: the way back finds nothing. *)
Lemma last_ok fuel jjj jj x : none_between TA j jj -> jjj < m -> dist m j jjj < dist m j jj -> dist m j jjj < fuel ->
  last_available fuel TA j jjj jj x = Ok (jj, x).
Proof using Hj Ho Hce Hruns.
  intros Hb. revert jjj. induction fuel as [|fuel IH]; intros jjj Hl Hd Hf; [lia|]. simpl.
  destruct (Nat.eqb_spec jjj j) as [->|Hne]; [done|]. destruct (lookup_lt_is_Some_2 TA jjj Hl) as [y Hy]. unfold cell. rewrite Hy. simpl.
  destruct (Hb jjj y Hd Hne Hy) as [Hye Hyp]. rewrite bool_decide_eq_false_2 by done.
  rewrite (proj2 (less_cell jjj y Hy Hye Hne (none_between_mono jjj jj Hb (Nat.lt_le_incl _ _ Hd)))) by done. simpl.
  rewrite (dist_decrement m j jjj) in Hd, Hf by (done || apply hole_lt || by apply not_eq_sym).
  apply IH; [by apply decrementIndex_lt|lia|lia].
Qed.
End search.
End hole.

(** ** The whole deletion *)

Lemma runs_ext TA TA' : length TA' = length TA -> (forall p, full TA' p -> full TA p) -> short_runs TA -> short_runs TA'.
Proof.
  intros Hl Hfull Hr a q. rewrite Hl. intros Ha Hq Hrun. apply Hr; [done..|]. intros p Hp Hd. by apply Hfull, Hrun.
Qed.

Lemma incrementIndex_ne m j e : j < m -> e < m -> j <> e -> incrementIndex m j <> j.
Proof. unfold incrementIndex. cases_nat; lia. Qed.

Lemma cmp_to_key c : c <> empty -> cmp_to (getKey c) c = 0%Z.
Proof. intros Hc. unfold cmp_to. rewrite decide_False by done. apply cmp_refl. Qed.

(** One element is moved into the hole, or the hole is closed. *)
Lemma fill_step bound TA j c e : TA !! j = Some c -> c <> empty -> ordered_except TA j -> TA !! e = Some empty -> short_runs TA ->
  length TA <= bound ->
  exists y jj x, cell TA (incrementIndex (length TA) j) = Ok y /\
    next_available bound TA j (incrementIndex (length TA) j) y = Ok (jj, x) /\
    last_available bound TA j (decrementIndex (length TA) jj) jj x = Ok (jj, x) /\
    TA !! jj = Some x /\ jj <> j /\ none_between TA j jj /\ dist (length TA) j jj <= dist (length TA) j e /\
    (x = empty \/ dist (length TA) (firstIndex (length TA) (getKey x)) j < dist (length TA) (firstIndex (length TA) (getKey x)) jj).
Proof.
  intros Hj Hc Ho He Hr Hbd. assert (Hjm := hole_lt TA j c Hj). assert (Hem := free_lt TA e He). set (m := length TA) in *.
  assert (j <> e) as Hje by congruence. assert (incrementIndex m j <> j) as Hne by (by eapply incrementIndex_ne).
  assert (dist m j j = 0) as Hjj by (by apply dist_0).
  assert (dist m j (incrementIndex m j) = 1) as Hd1 by (rewrite dist_increment_ne by done; by rewrite Hjj).
  assert (incrementIndex m j < m) as Hil by (by apply incrementIndex_lt).
  assert (0 < dist m j e) as Hpos by (assert (dist m j e <> 0); [by rewrite dist_0|lia]).
  destruct (lookup_lt_is_Some_2 TA _ Hil) as [y Hy]. exists y.
  destruct (next_ok TA j c Hj Ho e Hc He Hr bound (incrementIndex m j) y) as (jj & x & Hn & Hx & Hxj & Hb & Hle & Hpass); [done|done| | | |].
  - intros p d Hp Hpj Hd. fold m in Hp. rewrite Hd1 in Hp. destruct Hpj. symmetry. apply (dist_0 m); [done| |lia]. by eapply lookup_lt_Some.
  - fold m. lia.
  - assert (dist m (incrementIndex m j) e < m) by (by apply dist_lt). fold m. lia.
  - assert (jj < m) as Hxl by (by eapply lookup_lt_Some).
    assert (dist m j jj = S (dist m j (decrementIndex m jj))) as Hdec by (by apply dist_decrement; [..|apply not_eq_sym]).
    assert (dist m j jj < m) by (by apply dist_lt).
    exists jj, x. split; [unfold cell; by rewrite Hy|]. split; [done|]. split; [|done].
    apply (last_ok TA j c Hj Ho Hc Hr); [done|by apply decrementIndex_lt|fold m; lia|fold m; lia].
Qed.

Lemma delete_found bound fuel TA i j c e : TA !! j = Some c -> c <> empty -> ordered_except TA j -> TA !! e = Some empty -> short_runs TA ->
  length TA <= bound -> dist (length TA) j e < fuel ->
  exists TA', delete_loop bound fuel TA (getKey c) i j c 0 = Ok (TA', true) /\ ordered TA' /\ length TA' = length TA /\
    TA' !! e = Some empty /\ forall d, d <> empty -> d ∈ TA' <-> exists q, q <> j /\ TA !! q = Some d.
Proof.
  revert TA i j c. induction fuel as [|fuel IH]; intros TA i j c Hj Hc Ho He Hr Hbd Hf; [lia|].
  destruct (fill_step bound TA j c e Hj Hc Ho He Hr Hbd) as (y & jj & x & Hy & Hn & Hl & Hx & Hxj & Hb & Hle & Hpass).
  cbn [delete_loop]. simpl. rewrite Hy. simpl. rewrite Hn. simpl. rewrite Hl. simpl. unfold cas.
  assert (cell TA j = Ok c) as -> by (unfold cell; by rewrite Hj). simpl. rewrite decide_True by done. simpl.
  assert (j < length TA) as Hjl by (by eapply lookup_lt_Some). assert (j <> e) as Hje by congruence.
  destruct (decide (x = empty)) as [->|Hxe].
  - rewrite bool_decide_eq_true_2 by done. exists (<[j := empty]> TA). split; [done|]. split; [by eapply close_hole|].
    split; [apply length_insert|]. split; [by rewrite list_lookup_insert_ne|]. intros d Hd. rewrite list_elem_of_lookup.
    split; intros (q & Hq).
    + apply list_lookup_insert_Some in Hq as [(_ & ? & _)|[Hne Hq]]; [congruence|]. exists q. split; [by apply not_eq_sym|done].
    + exists q. destruct Hq as [Hne Hq]. by rewrite list_lookup_insert_ne by (by apply not_eq_sym).
  - rewrite bool_decide_eq_false_2 by done. destruct Hpass as [?|Hpass]; [done|].
    assert (<[j := x]> TA !! jj = Some x) as Hx' by (by rewrite list_lookup_insert_ne by (by apply not_eq_sym)).
    unfold cell. rewrite Hx'. simpl. rewrite cmp_to_key by done.
    assert (jj < length TA) as Hxl by (by eapply lookup_lt_Some). assert (e < length TA) as Hel by (by eapply lookup_lt_Some).
    assert (jj <> e) as Hxne by congruence.
    assert (dist (length TA) jj e < dist (length TA) j e) as Hprog.
    { assert (dist (length TA) j jj <> dist (length TA) j e) as Hne by (intros Heq; apply Hxne; by apply (dist_inj (length TA) j)).
      assert (dist (length TA) j jj <> 0) as Hnz by (rewrite dist_0 by done; by apply not_eq_sym).
      revert Hle Hne Hnz. unfold dist. cases_nat; lia. }
    destruct (IH (<[j := x]> TA) (firstIndex (length TA) (getKey x)) jj x) as (TA' & Hd' & Ho' & Hl' & He' & Hel').
    + done.
    + done.
    + by apply (move_hole TA j c).
    + by rewrite list_lookup_insert_ne.
    + apply (runs_ext TA); [apply length_insert| |done]. intros p (d & Hd & Hde).
      apply list_lookup_insert_Some in Hd as [(<- & _)|[_ Hd]]; [by exists c|by exists d].
    + by rewrite length_insert.
    + rewrite length_insert. lia.
    + exists TA'. split; [done|]. split; [done|]. split; [by rewrite Hl', length_insert|]. split; [done|]. intros d Hd. rewrite Hel' by done. split.
      * intros (q & Hq & Hqd). apply list_lookup_insert_Some in Hqd as [(<- & -> & _)|[Hne Hqd]]; [by exists jj|].
        exists q. split; [by apply not_eq_sym|done].
      * intros (q & Hq & Hqd). destruct (decide (q = jj)) as [->|Hne].
        -- exists j. split; [by apply not_eq_sym|]. rewrite list_lookup_insert_eq by done. congruence.
        -- exists q. split; [done|]. by rewrite list_lookup_insert_ne by (by apply not_eq_sym).
Qed.

Lemma cmp_to_higher TA k j c : TA !! j = Some c -> (cmp_to k c < 0)%Z <-> higher TA k j.
Proof.
  intros Hj. unfold cmp_to, higher. split.
  - intros Hc. case_decide as Hce; [done|]. exists c. split; [done|]. split; [done|]. by apply cmp_sym.
  - intros (d & Hd & Hde & Hk). assert (d = c) as -> by congruence. rewrite decide_False by done. by apply cmp_sym.
Qed.

Lemma first_location_ok fuel TA k j c e : j < length TA -> e < length TA -> TA !! e = Some empty -> TA !! j = Some c -> covered TA k j ->
  dist (length TA) j e < fuel ->
  exists j' c', first_location fuel TA k j c = Ok (j', c') /\ TA !! j' = Some c' /\ covered TA k j' /\ ~ higher TA k j'.
Proof.
  revert j c. induction fuel as [|fuel IH]; intros j c Hj He Hee Hc Hcov Hd; [lia|]. simpl.
  destruct (decide (cmp_to k c < 0)%Z) as [Hlt|Hge].
  - rewrite (cmp_to_higher TA k j c Hc) in Hlt. assert (j <> e) as Hje by (intros ->; by eapply room_not_higher).
    destruct (lookup_lt_is_Some_2 TA (incrementIndex (length TA) j)) as [y Hy]; [by apply incrementIndex_lt|]. unfold cell. rewrite Hy. simpl.
    rewrite (dist_from_increment _ j e) in Hd by done. apply IH; [by apply incrementIndex_lt|done|done|done|by apply covered_increment|lia].
  - exists j, c. rewrite (cmp_to_higher TA k j c Hc) in Hge. done.
Qed.

(** A key that is not where it would be is not in the table; the search for a copy goes back to its first index. *)
Lemma delete_absent bound fuel TA k j c (z : Z) : j < length TA -> covered TA k j -> z <> 0%Z ->
  dist (length TA) (firstIndex (length TA) k) j < fuel ->
  delete_loop bound fuel TA k (firstIndex (length TA) k) j c z = Ok (TA, true).
Proof.
  revert j c z. induction fuel as [|fuel IH]; intros j c z Hj Hcov Hx Hd; [lia|]. cbn [delete_loop]. simpl.
  rewrite (proj2 (Z.eqb_neq z 0) Hx). simpl. destruct (Nat.eqb_spec j (firstIndex (length TA) k)) as [|Hne]; [done|].
  assert (firstIndex (length TA) k < length TA) as Hfl by (apply firstIndex_lt; lia).
  rewrite (dist_decrement _ _ j) in Hd by (done || by apply not_eq_sym).
  assert (decrementIndex (length TA) j < length TA) as Hdl by (by apply decrementIndex_lt).
  assert (dist (length TA) (firstIndex (length TA) k) j = S (dist (length TA) (firstIndex (length TA) k) (decrementIndex (length TA) j))) as Edec
    by (by apply dist_decrement; [..|apply not_eq_sym]).
  destruct (Hcov (decrementIndex (length TA) j)) as (d & Hdj & Hde & Hk); [done|lia|]. unfold cell. rewrite Hdj. simpl.
  apply IH; [done| | |lia].
  - intros p Hp Hlt. apply Hcov; [done|lia].
  - assert (cmp_to k d < 0)%Z; [|lia]. apply (cmp_to_higher TA k (decrementIndex (length TA) j) d Hdj). by exists d.
Qed.

Lemma half_full_room TA : 0 < length TA -> 2 * length (base.filter (fun c => c <> empty) TA) <= length TA -> has_room TA.
Proof.
  intros Hm Hh. destruct (decide (empty ∈ TA)) as [[e He]%list_elem_of_lookup|Hne]; [by exists e|].
  assert (base.filter (fun c => c <> empty) TA = TA) as E1; [|rewrite E1 in Hh; lia].
  clear Hm Hh. induction TA as [|c TA IH]; [done|]. rewrite filter_cons_True by (intros ->; apply Hne; left). f_equal. apply IH.
  intros Hin. apply Hne. by right.
Qed.

Definition only_without TA k TA' : Prop := forall c, c <> empty -> c ∈ TA' <-> c ∈ TA /\ getKey c <> k.

Lemma deleteVal_contents bound fuel TA k : ordered TA -> 0 < length TA -> 2 * length (base.filter (fun c => c <> empty) TA) <= length TA ->
  length TA <= bound -> length TA <= fuel ->
  exists TA', deleteVal bound fuel TA k = Ok (TA', true) /\ ordered TA' /\ length TA' = length TA /\ has_room TA' /\ only_without TA k TA'.
Proof.
  intros Ho Hm Hh Hb Hf. destruct (half_full_room TA Hm Hh) as [e He]. assert (e < length TA) as Hel by (by eapply lookup_lt_Some).
  assert (firstIndex (length TA) k < length TA) as Hi by (by apply firstIndex_lt). unfold deleteVal.
  destruct (lookup_lt_is_Some_2 TA _ Hi) as [c0 Hc0]. assert (cell TA (firstIndex (length TA) k) = Ok c0) as -> by (unfold cell; by rewrite Hc0). simpl.
  assert (forall j, j < length TA -> covered TA k j -> ~ higher TA k j -> key_at TA j <> Some k -> only_without TA k TA) as Habs.
  { intros j Hj Hcov Hnh Hk c Hc. split; [|naive_solver]. intros Hin. split; [done|]. intros Hck. apply list_elem_of_lookup in Hin as [q Hq].
    assert (key_at TA q = Some k) as Hqk by (apply key_at_Some; by exists c).
    assert (j = q) as -> by (by apply (covered_key TA k)). done. }
  destruct (decide (c0 = empty)) as [->|Hce].
  { exists TA. do 3 (split; [done|]). split; [by exists e|]. apply (Habs (firstIndex (length TA) k)); [done|apply covered_first| |].
    - by apply room_not_higher.
    - intros (c & Hc & Hc' & _)%key_at_Some. congruence. }
  destruct (first_location_ok bound TA k (firstIndex (length TA) k) c0 e) as (j & c & Hfirst & Hjc & Hcov & Hnh);
    [done|done|done|done|apply covered_first|assert (dist (length TA) (firstIndex (length TA) k) e < length TA) by (by apply dist_lt); lia|].
  rewrite Hfirst. simpl. assert (j < length TA) as Hj by (by eapply lookup_lt_Some).
  destruct (decide (key_at TA j = Some k)) as [Hk|Hk].
  - apply key_at_Some in Hk as (d & Hd & Hde & <-). assert (d = c) as -> by congruence. rewrite cmp_to_key by done.
    destruct (delete_found bound fuel TA (firstIndex (length TA) (getKey c)) j c e) as (TA' & Hdel & Ho' & Hl' & He' & Hel');
      [done|done|by apply ordered_ordered_except|done|by apply half_full_runs|done|assert (dist (length TA) j e < length TA) by (by apply dist_lt); lia|].
    exists TA'. do 3 (split; [done|]). split; [by exists e|]. intros x Hx. rewrite Hel' by done. rewrite list_elem_of_lookup. split.
    + intros (q & Hqj & Hq). split; [by exists q|]. intros Hk. apply Hqj. apply (key_unique TA (getKey c)); [done|..]; apply key_at_Some; naive_solver.
    + intros [[q Hq] Hk]. exists q. split; [|done]. intros ->. assert (x = c) by congruence. by subst.
  - rewrite delete_absent; [|done|done| |].
    + exists TA. do 3 (split; [done|]). split; [by exists e|]. by apply (Habs j).
    + unfold cmp_to. case_decide as Hc; [done|]. intros Hz%cmp_eq. apply Hk, key_at_Some. by exists c.
    + assert (dist (length TA) (firstIndex (length TA) k) j < length TA) by (by apply dist_lt). lia.
Qed.

(** C37: on a table that is at most half full, [deleteVal] by one thread terminates, returns true and
    removes exactly the elements with the given key: probing is in order again, [find] returns [empty] for
    that key, and for every other key what it returned before, although elements moved. *)
Theorem deleteVal_correct bound fuel TA k : ordered TA -> 0 < length TA ->
  2 * length (base.filter (fun c => c <> empty) TA) <= length TA -> length TA <= bound -> length TA <= fuel ->
  exists TA', deleteVal bound fuel TA k = Ok (TA', true) /\ ordered TA' /\ length TA' = length TA /\ only_without TA k TA' /\
    forall l n, length TA <= n -> find n TA' l = Ok (if decide (cmp k l = 0%Z) then empty else stored TA l).
Proof.
  intros Ho Hm Hh Hb Hf. destruct (deleteVal_contents bound fuel TA k Ho Hm Hh Hb Hf) as (TA' & Hd & Ho' & Hl & Hroom & Hw).
  exists TA'. do 4 (split; [done|]). intros l n Hn. rewrite find_stored by (done || lia). f_equal.
  destruct (stored_cases TA' l Ho') as [[Hno Hs]|(j & Hj & Hs & Hk)].
  - rewrite Hs. case_decide as Hkl; [done|]. destruct (stored_cases TA l Ho) as [[_ ->]|(q & Hq & Hqe & Hqk)]; [done|].
    destruct Hno. assert (stored TA l ∈ TA') as [p Hp]%list_elem_of_lookup.
    { apply Hw; [done|]. split; [by eapply list_elem_of_lookup_2|]. rewrite Hqk. intros ->. by rewrite cmp_refl in Hkl. }
    exists p. apply key_at_Some. by exists (stored TA l).
  - destruct (proj1 (Hw _ Hs)) as [Hin Hne]; [by eapply list_elem_of_lookup_2|]. rewrite Hk in Hne.
    rewrite decide_False by (by intros Hz%cmp_eq). apply list_elem_of_lookup in Hin as [q Hq].
    rewrite <- Hk at 2. symmetry. by eapply stored_at.
Qed.
End table.
