(* ===== verification/HashTableRuns.v ===== *)
(** * Runs of the hash table

    The integer tables ([hash_numeric]) at concrete inputs, where the theorems on the hash
    table apply, and two runs that show what it does not mean to do: [insert] can return false
    for an element that it inserted ([insert_returns_false]), and a deletion from a table that
    is more than half full can hide another key ([deleteVal_loses_a_key]). *)

From S2P Require Import Prelude.
From stdpp Require Import list sets relations.
From S2P Require Import ParArray Monoid SequenceOps Hashing HashTable HashTableCorrect HashTablePhase HashTableMap HashTableDelete.

#[local] Open Scope nat_scope.

(** ** Laws of tables of integers *)

Lemma compare_eq (a b : Z) : (if b <? a then 1 else if a =? b then 0 else -1)%Z = 0%Z <-> a = b.
Proof. destruct (Z.ltb_spec b a), (Z.eqb_spec a b); lia. Qed.

Lemma compare_pos (a b : Z) : (0 < (if b <? a then 1 else if a =? b then 0 else -1))%Z <-> (b < a)%Z.
Proof. destruct (Z.ltb_spec b a), (Z.eqb_spec a b); lia. Qed.

Lemma compare_neg (a b : Z) : ((if b <? a then 1 else if a =? b then 0 else -1) < 0)%Z <-> (a < b)%Z.
Proof. destruct (Z.ltb_spec b a), (Z.eqb_spec a b); lia. Qed.

#[local] Existing Instance hash_numeric.

#[local] Instance hash_numeric_laws : HashLaws Z Z.
Proof.
  split; simpl.
  - apply compare_eq.
  - intros a b. rewrite compare_pos, compare_neg. done.
  - intros a b c. rewrite !compare_pos. lia.
  - done.
Qed.

(** ** Schedules *)

(** The threads [ts] take steps one after the other. *)
Fixpoint run_schedule (ts : list nat) (s : state Z) : option (state Z) :=
  match ts with
  | [] => Some s
  | t :: ts =>
      p ← threads s !! t;
      match insert_step (fun _ v => v) (table s) p with
      | Ok (TA, p') => run_schedule ts (State TA (<[t := p']> (threads s)))
      | Err _ => None
      end
  end.

Lemma run_schedule_steps ts s s' : run_schedule ts s = Some s' -> nsteps (step (fun _ v => v)) (length ts) s s'.
Proof.
  revert s. induction ts as [|t ts IH]; intros s Hs; simpl in *; [injection Hs as <-; constructor|].
  destruct (threads s !! t) as [p|] eqn:Ht; [|done]. simpl in Hs.
  destruct (insert_step (fun _ v => v) (table s) p) as [[TA p']|] eqn:Hp; [|done].
  eapply nsteps_l; [by eapply thread_step|by apply IH].
Qed.

Lemma run_schedule_rtc ts s s' : run_schedule ts s = Some s' -> rtc (step (fun _ v => v)) s s'.
Proof. intros Hs%run_schedule_steps. by eapply rtc_nsteps_2. Qed.

Definition is_returned (p : pc Z) : bool := match p with returned _ => true | _ => false end.

Lemma returned_finished (s : state Z) : forallb is_returned (threads s) = true -> finished s.
Proof.
  rewrite forallb_forall. intros Hf p Hp%list_elem_of_In. specialize (Hf p Hp). destruct p; try done. by eexists.
Qed.

(** Three keys with the first index 65, by one thread after the other and in turns *)
Definition one_by_one : list nat := [0; 0; 1; 1; 1; 1; 2; 2; 2; 2; 2; 2].
Definition in_turns : list nat := [0; 1; 2; 0; 1; 2; 1; 2; 1; 2; 1; 2; 2; 2; 2; 2].

Definition run_phase (ts : list nat) (TA vs : list Z) : state Z := default (State [] []) (run_schedule ts (begin_phase TA vs)).

Lemma run_phase_rtc ts TA vs s : run_schedule ts (begin_phase TA vs) = Some s ->
  rtc (step (fun _ v => v)) (begin_phase TA vs) (run_phase ts TA vs).
Proof. intros Hs. apply run_schedule_rtc with ts. unfold run_phase. by rewrite Hs. Qed.

Lemma hashtable_ordered n : ordered (hashtable (E := Z) n).
Proof. apply ordered_new. Qed.

Lemma some_nonempty (vs : list Z) : forallb (fun v => bool_decide (v <> empty)) vs = true -> Forall (fun v => v <> empty) vs.
Proof. rewrite forallb_forall, Forall_forall. intros Hv v Hin%list_elem_of_In. specialize (Hv v Hin). by apply bool_decide_eq_true in Hv. Qed.

Lemma new_keys n (vs : list Z) k : keys_of (hashtable n) vs k <-> k ∈ vs.
Proof.
  unfold keys_of. split; [intros [[j (c & Hc & Hce & _)%key_at_Some]|(v & Hv & <-)]|intros Hk].
  - by apply lookup_replicate in Hc as [-> _].
  - done.
  - right. by exists k.
Qed.

Lemma table_determined_witness :
  table (run_phase one_by_one (hashtable 0) [42; 109; 196]%Z) = table (run_phase in_turns (hashtable 0) [196; 42; 109]%Z).
Proof.
  refine (proj2 (proj2 (table_determined (fun _ v => v) (hashtable 0) (hashtable 0) [42; 109; 196]%Z [196; 42; 109]%Z
    (run_phase one_by_one (hashtable 0) [42; 109; 196]%Z) (run_phase in_turns (hashtable 0) [196; 42; 109]%Z)
    _ _ _ _ _ _ _ _ _ _ _ _)) _).
  - apply insert_combines.
  - apply hashtable_ordered.
  - apply hashtable_ordered.
  - reflexivity.
  - vm_compute. lia.
  - apply some_nonempty. by vm_compute.
  - apply some_nonempty. by vm_compute.
  - intros k. rewrite !new_keys. set_solver.
  - eapply run_phase_rtc. by vm_compute.
  - apply returned_finished. by vm_compute.
  - eapply run_phase_rtc. by vm_compute.
  - apply returned_finished. by vm_compute.
Defined.

Lemma insertions_terminate_witness :
  length in_turns <= insertion_bound 100 3 3 /\
  exists s, rtc (step (fun _ v => v)) (begin_phase (hashtable 0) [196; 42; 109]%Z) s /\ finished s.
Proof.
  destruct (insertions_terminate (fun _ v => v) [196; 42; 109]%Z (hashtable 0) [196; 42; 109]%Z) as [Hbound Hend].
  - apply insert_combines.
  - apply hashtable_ordered.
  - apply some_nonempty. by vm_compute.
  - intros k. by rewrite new_keys.
  - vm_compute. lia.
  - split.
    + destruct (run_schedule in_turns (begin_phase (hashtable 0) [196; 42; 109]%Z)) as [s|] eqn:Hs; [|by vm_compute in Hs].
      apply (Hbound (length in_turns) s). by apply run_schedule_steps.
    + apply (Hend (begin_phase (hashtable 0) [196; 42; 109]%Z)). apply rtc_refl.
Defined.

(** ** One thread *)

Lemma insert_find_witness : exists TA, insert (insertion_bound 100 1 1 + 1) (hashtable 0) 42%Z = Ok (TA, true) /\
  find 100 TA 42%Z = Ok 42%Z /\ find 100 TA 109%Z = Ok empty.
Proof.
  destruct (insert_find [42%Z] (hashtable 0) 42%Z (insertion_bound 100 1 1 + 1)) as [(TA & Hi & _ & _ & Hf) _].
  - apply hashtable_ordered.
  - by vm_compute.
  - intros k. by rewrite new_keys.
  - vm_compute. lia.
  - change (length (hashtable 0)) with 100. change (length [42%Z]) with 1. lia.
  - exists TA. split; [exact Hi|]. split; rewrite Hf by reflexivity; by vm_compute.
Defined.

#[local] Instance backwards_schedule : Schedule := backwards.

Lemma entries_correct_witness : count (42 :: 109 :: hashtable 0)%Z = Ok 2 /\ entries (42 :: 109 :: hashtable 0)%Z = Ok [42; 109]%Z.
Proof.
  destruct (entries_correct (42 :: 109 :: hashtable 0)%Z) as (Hcount & Hentries & _); [by vm_compute|].
  split; [exact Hcount|exact Hentries].
Defined.

Definition with_three : list Z := table (run_phase one_by_one (hashtable 0) [42; 109; 196]%Z).

Lemma with_three_ordered : ordered with_three.
Proof.
  refine (proj1 (phase_table (fun _ v => v) (hashtable 0) [42; 109; 196]%Z _ _ _ _ _ _ _)).
  - apply insert_combines.
  - apply hashtable_ordered.
  - vm_compute. lia.
  - apply some_nonempty. by vm_compute.
  - eapply run_phase_rtc. by vm_compute.
  - apply returned_finished. by vm_compute.
Qed.

(** The element of highest priority is deleted, and the two behind it move. *)
Lemma deleteVal_correct_witness : exists TA, deleteVal 100 100 with_three 196%Z = Ok (TA, true) /\
  find 100 TA 196%Z = Ok empty /\ find 100 TA 109%Z = Ok 109%Z /\ find 100 TA 42%Z = Ok 42%Z.
Proof.
  destruct (deleteVal_correct 100 100 with_three 196%Z) as (TA & Hd & _ & _ & _ & Hf).
  - apply with_three_ordered.
  - vm_compute. lia.
  - vm_compute. lia.
  - vm_compute. lia.
  - vm_compute. lia.
  - exists TA. split; [exact Hd|]. assert (length with_three <= 100) by (vm_compute; lia).
    repeat split; rewrite Hf by done; by vm_compute.
Defined.

(** ** What the table does not mean to do *)

(** Two threads insert 109 and 42 into a table with 42.  The first displaces 42, whose cell 109 takes;
    before it stores 42 again the second thread has inserted its own 42, so the first finds an equal key
    and returns false, "not inserted", although 109 was not in the table before and is now. *)
Lemma insert_returns_false :
  let TA := <[65 := 42%Z]> (hashtable 0) in
  let s := run_phase [0; 0; 1; 1; 1; 0] TA [109; 42]%Z in
  rtc (step (fun _ v => v)) (begin_phase TA [109; 42]%Z) s /\ threads s = [returned false; returned true] /\
  ~ has_key TA 109%Z /\ key_at (table s) 65 = Some 109%Z.
Proof.
  intros TA s. split; [eapply run_phase_rtc; by vm_compute|]. split; [by vm_compute|]. split; [|by vm_compute].
  intros [j (c & Hc & _ & Hk)%key_at_Some]. simpl in Hk. apply list_lookup_insert_Some in Hc as [(_ & Hc & _)|[_ [Hc _]%lookup_replicate]]; by subst c.
Qed.

(** Tables of integers that all have the same hash *)
Definition hash_constant : HashStruct Z Z :=
  {| empty := (two64 - 1)%Z; getKey := id; hash _ := 0%Z;
     cmp v b := (if b <? v then 1 else if v =? b then 0 else -1)%Z;
     replaceQ _ _ := false; update_value v _ := v |}.

Definition insert_all (S_ : HashStruct Z Z) (TA : list Z) (vs : list Z) : res (list Z) :=
  foldl (fun r v => TA ← r; '(TA, _) ← insert (HashStruct0 := S_) 1000 TA v; Ok TA) (Ok TA) vs.

(** The table made for 210 elements, of the load factor 1.5, with the elements 1 to 210, all in one run:
    deleting 2 leaves its cell free and 1 behind it, where [find] does not look any more. *)
Lemma deleteVal_loses_a_key :
  exists TA TA', insert_all hash_constant (hashtable (HashStruct0 := hash_constant) 315) (Z.of_nat <$> reverse (seq 1 210)) = Ok TA /\
    find (HashStruct0 := hash_constant) 1000 TA 1%Z = Ok 1%Z /\
    deleteVal (HashStruct0 := hash_constant) 1000 1000 TA 2%Z = Ok (TA', true) /\
    1%Z ∈ TA' /\ find (HashStruct0 := hash_constant) 1000 TA' 1%Z = Ok (two64 - 1)%Z.
Proof.
  eexists _, _. split; [by vm_compute|]. split; [by vm_compute|]. split; [by vm_compute|]. split; [|by vm_compute].
  apply (list_elem_of_lookup_2 _ 209). by vm_compute.
Qed.
