(* ===== verification/MemRelocation.v ===== *)
(** * Relocation in the memory of the sorting routines

    [uninitialized_relocate] of [src/lib/parlay/relocation.h] on the memory of [ParMem], as
    the sorts call it, for pointers.  Elements that are trivially relocatable are copied in
    chunks by [memcpy], and there the size of an element matters: the chunks of elements of
    more than 8192 bytes have 0 elements, and the number of chunks is found by dividing by it.
    [memcpy] between slices that overlap is undefined.  The sorts only use it with a source
    and a destination that are apart, or the same: what the platform does then is the
    parameter [memcpy_in_place]. *)

From S2P Require Import Prelude.
From stdpp Require Import list.
From S2P Require Import ParArray ParMem SequenceOps Merge.

#[local] Open Scope nat_scope.

Definition overlap (A R : slice) : bool :=
  bool_decide (arr A = arr R) && (s_begin A <? s_end R) && (s_begin R <? s_end A).

#[export] Instance slice_eq_dec : EqDecision slice.
Proof. solve_decision. Defined.

Section program.
Context `{Schedule} {T : Type} (sizeof : nat) (trivially_relocatable : bool).
Context (memcpy_in_place : slice -> mem T -> res (mem T)).
Implicit Types (m : mem T).

(** The bytes of the objects of [A] *)
Definition memcpy (A R : slice) m : res (mem T) :=
  if bool_decide (A = R) then memcpy_in_place A m
  else if overlap A R then Err BadPtr
  else for_ 0 (slice_size A) (fun j m => relocate_at (nth A j) (nth R j) m) m.

(** [uninitialized_relocate(A.begin(), A.end(), R.begin())] *)
Definition uninitialized_relocate (A R : slice) m : res (mem T) :=
  let n := slice_size A in
  if trivially_relocatable then
    let chunk_size := chunk_bytes / sizeof in
    if chunk_size =? 0 then Err DivZero
    else
      let n_chunks := (n + chunk_size - 1) / chunk_size in
      parallel_for 0 n_chunks (fun i m =>
        let n_objects := chunk_size `min` (n - i * chunk_size) in
        let s := i * chunk_size in
        memcpy (scut A s (s + n_objects)) (scut R s (s + n_objects)) m) 1 m
  else parallel_for 0 n (fun i m => assign_dispatch uninitialized_relocate_tag (nth R i) (nth A i) m) 0 m.
End program.

(** What the code relies on: a chunk has room for one object at least. *)
Definition fits_chunk (sizeof : nat) (trivially_relocatable : bool) : Prop :=
  trivially_relocatable = true -> 0 < sizeof <= chunk_bytes.

(** Elements that are relocated by [memcpy], and [memcpy] of bytes to where they are leaves
    them there: C does not say so, the implementations in use do. *)
Definition stays_in_place {T} (trivially_relocatable : bool) (memcpy_in_place : slice -> mem T -> res (mem T)) : Prop :=
  trivially_relocatable = true /\ forall A m, memcpy_in_place A m = Ok m.

(** ** Runs of runs *)

Section runs.
Context {S : Type}.

Lemma run_fmap (h : nat -> nat) l (f : nat -> S -> res S) s : run (h <$> l) f s = run l (fun i => f (h i)) s.
Proof. revert s. induction l as [|i l IH]; intros s; [done|]. simpl. destruct (f (h i) s); [apply IH|done]. Qed.

Lemma run_join (h : nat -> list nat) l (f : nat -> S -> res S) s : run l (fun i => run (h i) f) s = run (mjoin (h <$> l)) f s.
Proof.
  revert s. induction l as [|i l IH]; intros s; [done|]. cbn [fmap list_fmap mjoin list_join run]. rewrite run_app.
  destruct (run (h i) f s); [apply IH|done].
Qed.
End runs.

Section relocation.
Context `{Schedule} {T : Type} (sizeof : nat) (trivially_relocatable : bool).
Context (memcpy_in_place : slice -> mem T -> res (mem T)).
Implicit Types (m : mem T) (A R : slice) (xs : list T).

Abbreviation relocate := (uninitialized_relocate sizeof trivially_relocatable memcpy_in_place) (only parsing).

(** One element after the other, in any order *)
Lemma relocate_run A R xs l : apart [A] [R] -> l ≡ₚ seq 0 (length xs) ->
  triple [A; R] (fun m => holds A (Some <$> xs) m /\ holds R (replicate (length xs) None) m)
    (run l (fun i m => relocate_at (nth A i) (nth R i) m))
    (fun m => holds A (replicate (length xs) None) m /\ holds R (Some <$> xs) m).
Proof.
  intros Hap Hl m0 (HA & HR).
  assert (replicate (length xs) (@None T) = (fun _ => None) <$> xs) as Hrep by (symmetry; by apply const_fmap).
  pose (I (d : list nat) (m : mem T) := same_outside [A; R] m0 m /\
    holds A (marked (fun _ => None) Some d xs) m /\ holds R (marked Some (fun _ => None) d xs) m).
  eapply ok_mono; [apply (ok_iterate I)|].
  - split; [done|]. by rewrite !marked_nil, <- Hrep.
  - intros d i d' m -> (Hs & HA' & HR').
    assert (i ∉ d) as Hd.
    { assert (NoDup (d ++ i :: d')) as Hnd by (rewrite Hl; apply NoDup_seq).
      apply NoDup_app in Hnd as (_ & Hnd & _). intros Hi. apply (Hnd i Hi). by left. }
    assert (i ∈ seq 0 (length xs)) as Hi%elem_of_seq by (rewrite <- Hl; set_solver).
    destruct (lookup_lt_is_Some_2 xs i) as [x Hx]; [lia|].
    eapply ok_mono; [eapply (dispatch_spec uninitialized_relocate_tag A R _ _ m i i x eq_refl Hap HA');
      [by rewrite (lookup_marked _ _ _ _ _ x)|exact HR'|by rewrite (lookup_marked _ _ _ _ _ x)]|].
    intros m' (Hs' & HA2 & HR2). change (left_over uninitialized_relocate_tag x) with (@None T) in HA2.
    rewrite (marked_insert (fun _ => None) Some d xs i x Hx) in HA2. rewrite (marked_insert Some _ d xs i x Hx) in HR2.
    split; [by eapply same_outside_trans|done].
  - intros m (Hs & HA' & HR'). split; [done|].
    rewrite !marked_all in * by (intros i Hi; rewrite Hl; apply elem_of_seq; lia). by rewrite Hrep.
Qed.

(** The chunks of the elements, in any order *)
Lemma chunks_perm k n l : 0 < k -> l ≡ₚ seq 0 (num_blocks n k) ->
  mjoin ((fun i => seq (i * k) (k `min` (n - i * k))) <$> l) ≡ₚ seq 0 n.
Proof.
  intros Hk Hl. rewrite (fmap_Permutation _ _ _ Hl). assert (E := join_all_blocks k Hk (seq 0 n)). rewrite length_seq in E.
  rewrite <- E at 1. erewrite list_fmap_ext; [done|]. intros j i Hi. simpl. by rewrite block_of_take, drop_seq, take_seq.
Qed.

(** A chunk is copied to a place that is apart, element by element. *)
Lemma memcpy_apart A R s k m : apart [A] [R] -> slice_size A = slice_size R -> 0 < k -> s + k <= slice_size A ->
  memcpy memcpy_in_place (scut A s (s + k)) (scut R s (s + k)) m = run (seq s k) (fun i m => relocate_at (nth A i) (nth R i) m) m.
Proof.
  intros Hap Hsz Hk Hs. unfold memcpy.
  assert (forall p, in_slice p (scut A s (s + k)) -> ~ in_slice p (scut R s (s + k))) as Hap'.
  { intros p HA HR. apply (apart_in A R p Hap); [by eapply in_scut|]. eapply in_scut; [|exact HR]. lia. }
  rewrite bool_decide_false.
  2: { intros E. apply (Hap' (nth A s)); [|rewrite <- E]; (split; simpl; [done|lia]). }
  assert (overlap (scut A s (s + k)) (scut R s (s + k)) = false) as ->.
  { apply not_true_is_false. unfold overlap. rewrite !andb_true_iff, bool_decide_eq_true, !Nat.ltb_lt. simpl. intros [[E H1] H2].
    apply (Hap' (arr A, (s_begin A + s) `max` (s_begin R + s))); (split; simpl; [done|lia]). }
  unfold for_. assert (slice_size (scut A s (s + k)) - 0 = k) as -> by (unfold slice_size; simpl; lia).
  assert (seq s k = Nat.add s <$> seq 0 k) as -> by (by rewrite fmap_add_seq, Nat.add_0_r). rewrite run_fmap. apply run_ext. intros i m' _. unfold nth. simpl. by rewrite !Nat.add_assoc.
Qed.

Lemma relocate_ok A R xs : fits_chunk sizeof trivially_relocatable -> apart [A] [R] ->
  triple [A; R] (fun m => holds A (Some <$> xs) m /\ holds R (replicate (length xs) None) m) (relocate A R)
    (fun m => holds A (replicate (length xs) None) m /\ holds R (Some <$> xs) m).
Proof.
  intros Hf Hap m [HA HR]. assert (slice_size A = length xs) as HsA by (by rewrite (holds_size _ _ _ HA), length_fmap).
  assert (slice_size R = length xs) as HsR by (by rewrite (holds_size _ _ _ HR), length_replicate).
  unfold uninitialized_relocate. rewrite HsA. destruct trivially_relocatable.
  - destruct (Hf eq_refl) as [Hpos Hle]. assert (0 < chunk_bytes / sizeof) as Hk by (apply Nat.div_str_pos; lia).
    set (k := chunk_bytes / sizeof) in *. clearbody k. destruct (Nat.eqb_spec k 0); [lia|]. rewrite ceil_div by done.
    match goal with |- ok (parallel_for 0 ?e ?f ?g m) _ => destruct (parallel_for_run 0 e f g m) as (l & Hl & ->) end.
    rewrite Nat.sub_0_r in Hl.
    rewrite (run_ext _ _ (fun i => run (seq (i * k) (k `min` (length xs - i * k))) (fun i m => relocate_at (nth A i) (nth R i) m))).
    + rewrite run_join. by apply (relocate_run A R xs); [|apply chunks_perm|split].
    + intros i m' Hi. rewrite Hl in Hi. apply elem_of_seq in Hi as [_ Hi].
      assert (i * k < length xs) by (by apply num_blocks_lower). apply memcpy_apart; [done|congruence|lia|lia].
  - eapply ok_mono; [by apply (dispatch_parallel uninitialized_relocate_tag)|]. intros m' (Hs & HA' & HR').
    by rewrite left_over_relocate in HA'.
Qed.

(** Elements that are where they should be already, if copying their bytes leaves them there *)
Lemma relocate_self A m : fits_chunk sizeof trivially_relocatable -> stays_in_place trivially_relocatable memcpy_in_place ->
  relocate A A m = Ok m.
Proof.
  intros Hf [Ht Hm]. destruct (Hf Ht) as [Hpos Hle]. unfold uninitialized_relocate. rewrite Ht.
  assert (0 < chunk_bytes / sizeof) as Hk by (apply Nat.div_str_pos; lia).
  destruct (Nat.eqb_spec (chunk_bytes / sizeof) 0); [lia|].
  match goal with |- parallel_for 0 ?e ?f ?g m = _ => destruct (parallel_for_run 0 e f g m) as (l & _ & ->) end.
  induction l as [|i l IH]; [done|]. simpl. unfold memcpy. by rewrite bool_decide_true, Hm.
Qed.

(** The division by zero *)
Lemma relocate_too_large A R m : trivially_relocatable = true -> chunk_bytes < sizeof -> relocate A R m = Err DivZero.
Proof. intros Ht Hs. unfold uninitialized_relocate. by rewrite Ht, Nat.div_small. Qed.
End relocation.
