(* ===== verification/CountingSort.v ===== *)
(** * Counting sort

    [src/lib/parlay/internal/counting_sort.h], on the memory of [ParMem]: elements with small
    keys are counted, and each is sent to its place, block by block and the blocks in any
    order.  A sequence of keys is a function that may read memory ([keys]), since the keys of
    [integer_sort.h] are computed from elements while these are moved away.  Counters are
    natural numbers: they are at most the number of elements.  [group_by_small_int] is not
    modelled. *)

From Stdlib Require Import Sorted.
From S2P Require Import Prelude.
From stdpp Require Import list.
From S2P Require Import ParArray ParMem Monoid SequenceOps Merge PrimitivesSpec MemRelocation.

#[local] Open Scope nat_scope.

(** ** The program *)

Definition SEQ_THRESHOLD : nat := Nat.shiftl 1 13.

Section program.
Context `{Schedule} {T : Type} (sizeof num_threads : nat).

Definition keys : Type := nat -> mem T -> res nat.
(** [Keys.cut(start, end)] *)
Definition cut_keys (Keys : keys) (start : nat) : keys := fun j => Keys (start + j).

(** The counts are written to [counts + base]. *)
Definition seq_count_ (n : nat) (Keys : keys) (counts : array nat) (base num_buckets : nat) (m : mem T) : res (array nat) :=
  local_counts ← for_ 0 n (fun j local_counts =>
    k ← Keys j m; _ ← assert (k <? num_buckets); Ok (alter S k local_counts)) (replicate num_buckets 0);
  for_ 0 num_buckets (fun i counts => c ← get (Some <$> local_counts) i; assign_uninitialized counts (base + i) c) counts.

Definition seq_write_ (tag : assignment_tag) (In Out : slice) (Keys : keys) (offsets : array nat) (base num_buckets : nat) (m : mem T)
    : res (mem T) :=
  local_offsets ← for_ 0 num_buckets (fun i local_offsets => o ← get offsets (base + i); assign_uninitialized local_offsets i o)
    (uninitialized num_buckets);
  '(_, m) ← for_ 0 (slice_size In) (fun j '(local_offsets, m) =>
    k ← Keys j m; o ← get local_offsets k; local_offsets ← assign_uninitialized local_offsets k (o + 1);
    m ← assign_dispatch tag (nth Out o) (nth In j) m; Ok (local_offsets, m)) (local_offsets, m);
  Ok m.

Definition seq_write_down_ (tag : assignment_tag) (In Out : slice) (Keys : keys) (offsets : array nat) (m : mem T)
    : res (array nat * mem T) :=
  run (reverse (seq 0 (slice_size In))) (fun j '(offsets, m) =>
    k ← Keys j m; o ← get offsets k; let k' := size_sub o 1 in offsets ← assign_uninitialized offsets k k';
    m ← assign_dispatch tag (nth Out k') (nth In j) m; Ok (offsets, m)) (offsets, m).

Definition seq_count_sort_ (tag : assignment_tag) (In Out : slice) (Keys : keys) (counts : array nat) (num_buckets : nat) (m : mem T)
    : res (array nat * mem T) :=
  counts ← seq_count_ (slice_size In) Keys counts 0 num_buckets m;
  '(_, counts) ← for_ 0 num_buckets (fun i '(s, counts) =>
    c ← get counts i; let s := s + c in counts ← assign_uninitialized counts i s; Ok (s, counts)) (0, counts);
  seq_write_down_ tag In Out Keys counts m.

Definition seq_count_sort (tag : assignment_tag) (In Out : slice) (Keys : keys) (num_buckets : nat) (m : mem T)
    : res (array nat * mem T) :=
  '(counts, m) ← seq_count_sort_ tag In Out Keys (uninitialized (num_buckets + 1)) num_buckets m;
  counts ← assign_uninitialized counts num_buckets (slice_size In); Ok (counts, m).

(** The result also has a flag: everything is in one bucket and nothing has been moved. *)
Definition count_sort_ (tag : assignment_tag) (In Out : slice) (Keys : keys) (num_buckets : nat) (skip_if_in_one : bool) (m : mem T)
    : res (array nat * bool * mem T) :=
  let n := slice_size In in
  let num_blocks := 1 + n * sizeof / Nat.max (num_buckets * 500) 5000 in
  if (n <? SEQ_THRESHOLD) || (num_blocks =? 1) || (num_threads =? 1) then
    '(counts, m) ← seq_count_sort tag In Out Keys num_buckets m; Ok (counts, false, m)
  else
    let block_size := (n - 1) / num_blocks + 1 in
    let start i := Nat.min (i * block_size) n in
    let end_ i := Nat.min (start i + block_size) n in
    counts ← parallel_for 0 num_blocks (fun i counts =>
      seq_count_ (end_ i - start i) (cut_keys Keys (start i)) counts (i * num_buckets) num_buckets m) 1
      (uninitialized (num_blocks * num_buckets));
    bucket_offsets ← parallel_for 0 num_buckets (fun i bucket_offsets =>
      v ← for_ 0 num_blocks (fun j v => c ← get counts (j * num_buckets + i); Ok (v + c)) 0;
      assign_uninitialized bucket_offsets i v) (1 + 1024 / num_blocks) (uninitialized (num_buckets + 1));
    bucket_offsets ← assign_uninitialized bucket_offsets num_buckets 0;
    num_non_zero ← for_ 0 num_buckets (fun i s => o ← get bucket_offsets i; Ok (s + (if 0 <? o then 1 else 0))) 0;
    '(total, bucket_offsets) ← scan_inplace plus_size 0 (num_buckets + 1) no_flag bucket_offsets;
    if skip_if_in_one && (num_non_zero =? 1) then Ok (bucket_offsets, true, m)
    else
      _ ← assert (total =? n);
      dest_offsets ← parallel_for 0 num_buckets (fun i dest_offsets =>
        v ← get bucket_offsets i;
        '(_, dest_offsets) ← for_ 0 num_blocks (fun j '(v, dest_offsets) =>
          dest_offsets ← assign_uninitialized dest_offsets (j * num_buckets + i) v;
          c ← get counts (j * num_buckets + i); Ok (v + c, dest_offsets)) (v, dest_offsets);
        Ok dest_offsets) (1 + 1024 / num_blocks) (uninitialized (num_blocks * num_buckets));
      m ← parallel_for 0 num_blocks (fun i m =>
        seq_write_ tag (scut In (start i) (end_ i)) Out (cut_keys Keys (start i)) dest_offsets (i * num_buckets) num_buckets m) 1 m;
      Ok (bucket_offsets, false, m).

(** [keys_size] is [Keys.size()]; the counters have 4 bytes if that is enough. *)
Definition count_sort (tag : assignment_tag) (In Out : slice) (Keys : keys) (keys_size num_buckets : nat) (skip_if_in_one : bool) (m : mem T)
    : res (array nat * bool * mem T) :=
  _ ← assert (slice_size In =? slice_size Out);
  _ ← assert (slice_size In =? keys_size);
  count_sort_ tag In Out Keys num_buckets skip_if_in_one m.

Definition count_sort_copy (In : slice) (Keys : keys) (keys_size num_buckets : nat) (m : mem T) : res (slice * array nat * mem T) :=
  let '(Out, m) := allocate (slice_size In) m in
  '(offsets, _, m) ← count_sort uninitialized_copy_tag In Out Keys keys_size num_buckets false m;
  Ok (Out, offsets, m).

(** How [uninitialized_relocate] relocates the elements ([MemRelocation]) *)
Context (trivially_relocatable : bool) (memcpy_in_place : slice -> mem T -> res (mem T)).

Definition count_sort_inplace (In : slice) (Keys : keys) (keys_size num_buckets : nat) (m : mem T) : res (array nat * mem T) :=
  let '(Tmp, m) := allocate (slice_size In) m in
  '(offsets, _, m) ← count_sort uninitialized_relocate_tag In Tmp Keys keys_size num_buckets false m;
  m ← uninitialized_relocate sizeof trivially_relocatable memcpy_in_place Tmp In m; Ok (offsets, deallocate Tmp m).

(** *** [counting_sort] and [counting_sort_inplace] of [primitives.h]

    The keys are [delayed_map(in, key)], of elements that may be moved away. *)

Definition element_keys (In : slice) (key : T -> nat) : keys := fun i m => x ← read (nth In i) m; Ok (key x).

Definition counting_sort (In : slice) (num_buckets : nat) (key : T -> nat) (m : mem T) : res (slice * array nat * mem T) :=
  count_sort_copy In (element_keys In key) (slice_size In) num_buckets m.

Definition counting_sort_inplace (In : slice) (num_buckets : nat) (key : T -> nat) (m : mem T) : res (array nat * mem T) :=
  count_sort_inplace In (element_keys In key) (slice_size In) num_buckets m.
End program.
#[global] Opaque SEQ_THRESHOLD.

Lemma list_sum_submseteq (ls ls' : list nat) : ls ⊆+ ls' -> list_sum ls <= list_sum ls'.
Proof. unfold list_sum. induction 1; simpl in *; lia. Qed.

(** ** Buckets *)

Section buckets.
Context {T : Type}.
Implicit Types (xs : list T) (ks : list nat).

Definition is_key (b : nat) ks : list bool := (fun k => k =? b) <$> ks.
Definition bucket xs ks (b : nat) : list T := packed xs (is_key b ks).
(** The number of elements in the bucket, and in the buckets before it *)
Definition in_bucket ks (b : nat) : nat := count_true (is_key b ks).
Definition start ks (b : nat) : nat := count_true ((fun k => k <? b) <$> ks).
(** The stable sort by key *)
Definition by_buckets xs ks (n : nat) : list T := mjoin (bucket xs ks <$> seq 0 n).
(** Where element [p] goes *)
Definition dest ks (p : nat) : nat :=
  let k := default 0 (ks !! p) in start ks k + in_bucket (take p ks) k.

Lemma start_0 ks : start ks 0 = 0.
Proof. unfold start. induction ks as [|k ks IH]; [done|]. rewrite fmap_cons, count_true_cons, IH. done. Qed.

Lemma start_S ks b : start ks (S b) = start ks b + in_bucket ks b.
Proof.
  unfold start, in_bucket, is_key. induction ks as [|k ks IH]; [done|]. rewrite !fmap_cons, !count_true_cons, IH.
  destruct (Nat.ltb_spec k (S b)), (Nat.ltb_spec k b), (Nat.eqb_spec k b); simpl; lia.
Qed.

Lemma start_mono ks a b : a <= b -> start ks a <= start ks b.
Proof. induction 1 as [|b _ IH]; [done|]. rewrite start_S. lia. Qed.

Lemma start_all ks n : Forall (fun k => k < n) ks -> start ks n = length ks.
Proof.
  unfold start. induction 1 as [|k ks Hk _ IH]; [done|]. rewrite fmap_cons, count_true_cons, IH.
  apply Nat.ltb_lt in Hk. by rewrite Hk.
Qed.

Lemma start_le ks b : start ks b <= length ks.
Proof. unfold start. rewrite <- (length_fmap (fun k => k <? b) ks). apply count_true_le. Qed.

Lemma in_bucket_app ks ls b : in_bucket (ks ++ ls) b = in_bucket ks b + in_bucket ls b.
Proof. unfold in_bucket, is_key. by rewrite fmap_app, count_true_app. Qed.

Lemma in_bucket_take_S ks p k b : ks !! p = Some k -> in_bucket (take (S p) ks) b = in_bucket (take p ks) b + (if k =? b then 1 else 0).
Proof.
  intros Hk. rewrite (take_S_r _ _ _ Hk), in_bucket_app. unfold in_bucket at 2, is_key. rewrite fmap_cons, count_true_cons. by destruct (k =? b).
Qed.

Lemma in_bucket_take_le ks p b : in_bucket (take p ks) b <= in_bucket ks b.
Proof. rewrite <- (take_drop p ks) at 2. rewrite in_bucket_app. lia. Qed.

Lemma in_bucket_take_lt ks p k : ks !! p = Some k -> in_bucket (take p ks) k < in_bucket ks k.
Proof.
  intros Hk. assert (H1 := in_bucket_take_S ks p k k Hk). rewrite Nat.eqb_refl in H1. assert (H2 := in_bucket_take_le ks (S p) k). lia.
Qed.

Lemma dest_eq ks p k : ks !! p = Some k -> dest ks p = start ks k + in_bucket (take p ks) k.
Proof. intros Hk. unfold dest. by rewrite Hk. Qed.

Lemma dest_bound ks p k : ks !! p = Some k -> start ks k <= dest ks p < start ks (S k).
Proof. intros Hk. rewrite (dest_eq _ _ _ Hk), start_S. assert (Hlt := in_bucket_take_lt ks p k Hk). lia. Qed.

Lemma dest_lt ks p : p < length ks -> dest ks p < length ks.
Proof.
  intros [k Hk]%lookup_lt_is_Some_2. assert (Hb := dest_bound ks p k Hk). assert (Hs := start_le ks (S k)). lia.
Qed.

Lemma in_bucket_take_mono ks p q k : p < q -> ks !! p = Some k -> in_bucket (take p ks) k < in_bucket (take q ks) k.
Proof.
  intros Hpq Hk. assert (take p ks = take p (take q ks)) as -> by (rewrite take_take; f_equal; lia).
  apply in_bucket_take_lt. by rewrite lookup_take_lt.
Qed.

Lemma dest_inj ks p q : p < length ks -> q < length ks -> dest ks p = dest ks q -> p = q.
Proof.
  intros [k Hk]%lookup_lt_is_Some_2 [l Hl]%lookup_lt_is_Some_2 Heq.
  assert (Hp := dest_bound ks p k Hk). assert (Hq := dest_bound ks q l Hl).
  destruct (Nat.lt_trichotomy k l) as [Hlt|[->|Hlt]].
  - assert (Hm := start_mono ks (S k) l Hlt). lia.
  - rewrite (dest_eq _ _ _ Hk), (dest_eq _ _ _ Hl) in Heq. destruct (Nat.lt_trichotomy p q) as [Hpq|[?|Hpq]]; [|done|].
    + assert (Hm := in_bucket_take_mono ks p q l Hpq Hk). lia.
    + assert (Hm := in_bucket_take_mono ks q p l Hpq Hl). lia.
  - assert (Hm := start_mono ks (S l) k Hlt). lia.
Qed.

(** Every place is taken. *)
Lemma dest_surj ks i : i < length ks -> exists p, p < length ks /\ dest ks p = i.
Proof.
  intros Hi. assert (i ∈ dest ks <$> seq 0 (length ks)) as (p & -> & Hp%elem_of_seq)%list_elem_of_fmap; [|exists p; split; [lia|done]].
  assert (dest ks <$> seq 0 (length ks) ≡ₚ seq 0 (length ks)) as ->; [|apply elem_of_seq; lia].
  apply submseteq_length_Permutation.
  - apply NoDup_submseteq.
    + apply NoDup_fmap_2_strong; [|apply NoDup_seq]. intros p q Hp%elem_of_seq Hq%elem_of_seq. apply dest_inj; lia.
    + intros j (p & -> & Hp%elem_of_seq)%list_elem_of_fmap. apply elem_of_seq. assert (Hd := dest_lt ks p). lia.
  - by rewrite length_fmap.
Qed.

(** *** The sorted list *)

Lemma length_bucket xs ks b : length xs = length ks -> length (bucket xs ks b) = in_bucket ks b.
Proof. intros Hl. apply length_packed. unfold is_key. by rewrite length_fmap. Qed.

Lemma offset_bucket xs ks b : length xs = length ks -> offset (bucket xs ks) b = start ks b.
Proof.
  intros Hl. induction b as [|b IH]; [by rewrite start_0|]. by rewrite offset_S, start_S, IH, length_bucket.
Qed.

Lemma lookup_packed xs bs p x : length xs = length bs -> xs !! p = Some x -> bs !! p = Some true ->
  packed xs bs !! count_true (take p bs) = Some x.
Proof.
  revert bs p. induction xs as [|y xs IH]; intros [|b bs] p Hl Hx Hb; try done. destruct p as [|p]; simpl in *.
  - injection Hx as ->. by injection Hb as ->.
  - rewrite count_true_cons. specialize (IH bs p ltac:(lia) Hx Hb). destruct b; [exact IH|exact IH].
Qed.

Lemma lookup_join_offset {X} (ys : nat -> list X) n b i x : b < n -> ys b !! i = Some x ->
  mjoin (ys <$> seq 0 n) !! (offset ys b + i) = Some x.
Proof.
  intros Hb Hx. replace n with (b + (1 + (n - b - 1))) by lia. rewrite !seq_app, !fmap_app, !join_app. simpl.
  unfold offset. rewrite lookup_app_r, Nat.add_comm, Nat.add_sub by lia. rewrite app_nil_r. by apply lookup_app_l_Some.
Qed.

Lemma lookup_by_buckets xs ks n p : length xs = length ks -> Forall (fun k => k < n) ks -> p < length ks ->
  by_buckets xs ks n !! dest ks p = xs !! p.
Proof.
  intros Hl Hn Hp. destruct (lookup_lt_is_Some_2 ks p Hp) as [k Hk]. destruct (lookup_lt_is_Some_2 xs p) as [x Hx]; [lia|].
  rewrite (dest_eq _ _ _ Hk), Hx, <- (offset_bucket xs ks k Hl). apply lookup_join_offset.
  - rewrite Forall_lookup in Hn. by eapply Hn.
  - unfold bucket, in_bucket, is_key. rewrite fmap_take. apply lookup_packed; [by rewrite length_fmap|done|].
    by rewrite list_lookup_fmap, Hk; simpl; rewrite Nat.eqb_refl.
Qed.

Lemma length_by_buckets xs ks n : length xs = length ks -> Forall (fun k => k < n) ks -> length (by_buckets xs ks n) = length xs.
Proof.
  intros Hl Hn. change (length (by_buckets xs ks n)) with (offset (bucket xs ks) n). by rewrite offset_bucket, start_all.
Qed.
End buckets.

(** ** Counting *)

Section counting.
Context `{Schedule} {T : Type}.
Implicit Types (m : mem T) (ks : list nat) (a : array nat).

Definition counts_of ks (n : nat) : list nat := in_bucket ks <$> seq 0 n.

Definition keys_show (Keys : keys) ks m : Prop := forall j k, ks !! j = Some k -> Keys j m = Ok k.

Lemma length_counts_of ks n : length (counts_of ks n) = n.
Proof. unfold counts_of. by rewrite length_fmap, length_seq. Qed.

Lemma lookup_counts_of ks n b : b < n -> counts_of ks n !! b = Some (in_bucket ks b).
Proof. intros Hb. unfold counts_of. rewrite list_lookup_fmap, lookup_seq_lt by done. done. Qed.

Lemma counts_of_snoc ks n k : k < n -> counts_of (ks ++ [k]) n = alter S k (counts_of ks n).
Proof.
  intros Hk. apply list_eq. intros b. destruct (decide (b < n)) as [Hb|Hb].
  - rewrite lookup_counts_of by done. rewrite in_bucket_app. unfold in_bucket at 2. simpl. unfold count_true. simpl.
    destruct (decide (b = k)) as [->|Hne].
    + rewrite list_lookup_alter_eq, lookup_counts_of by done. simpl. rewrite Nat.eqb_refl. simpl. f_equal. lia.
    + rewrite list_lookup_alter_ne, lookup_counts_of by (done || by apply not_eq_sym). destruct (Nat.eqb_spec k b); [lia|]. simpl. f_equal. lia.
  - rewrite !lookup_ge_None_2; [done|rewrite length_alter, length_counts_of; lia|rewrite length_counts_of; lia].
Qed.

Lemma counts_of_nil n : counts_of [] n = replicate n 0.
Proof.
  unfold counts_of. rewrite <- (length_seq n 0) at 2. by rewrite <- const_fmap with (l := seq 0 n) (f := fun _ => 0).
Qed.

(** Writing a list to an array, one element after the other *)
Lemma for_write (f : nat -> res nat) (ys : list nat) o (a : array nat) : (forall i y, ys !! i = Some y -> f i = Ok y) -> o + length ys <= length a ->
  for_ 0 (length ys) (fun i a => y ← f i; assign_uninitialized a (o + i) y) a = Ok (scatter (block o (Some <$> ys)) a).
Proof.
  intros Hf Hl. apply ok_exact. eapply ok_mono; [apply (ok_for (fun i a' => a' = scatter (block o (Some <$> take i ys)) a))|].
  - lia.
  - by rewrite take_0.
  - intros i a' [_ Hi] ->. destruct (lookup_lt_is_Some_2 ys i Hi) as [y Hy]. rewrite (Hf _ _ Hy). simpl.
    rewrite assign_eq by (rewrite length_scatter; lia). apply ok_ret. rewrite Nat.add_1_r, (take_S_r _ _ _ Hy), fmap_app. simpl.
    rewrite block_snoc, length_fmap, length_take. do 2 f_equal. lia.
  - intros a' ->. by rewrite firstn_all.
Qed.

Lemma seq_count_eq Keys ks n a base m : keys_show Keys ks m -> Forall (fun k => k < n) ks -> base + n <= length a ->
  seq_count_ (length ks) Keys a base n m = Ok (scatter (block base (Some <$> counts_of ks n)) a).
Proof.
  intros HK Hks Hl. unfold seq_count_.
  assert (for_ 0 (length ks) (fun j local_counts => k ← Keys j m; _ ← assert (k <? n); Ok (alter S k local_counts)) (replicate n 0) =
    Ok (counts_of ks n)) as ->.
  { apply ok_exact. eapply ok_mono; [apply (ok_for (fun j l => l = counts_of (take j ks) n))|].
    - lia.
    - by rewrite take_0, counts_of_nil.
    - intros j l [_ Hj] ->. destruct (lookup_lt_is_Some_2 ks j Hj) as [k Hk]. rewrite (HK _ _ Hk). simpl.
      rewrite Forall_lookup in Hks. assert (k < n) as Hkn by (by eapply Hks). apply Nat.ltb_lt in Hkn as Hkb. rewrite Hkb. simpl.
      apply ok_ret. by rewrite Nat.add_1_r, (take_S_r _ _ _ Hk), counts_of_snoc.
    - intros l ->. by rewrite firstn_all. }
  simpl. rewrite <- (length_counts_of ks n) at 1. apply for_write.
  - intros i y Hy. apply get_eq. by rewrite list_lookup_fmap, Hy.
  - by rewrite length_counts_of.
Qed.

(** The loop that turns counts into the ends of the buckets *)
Lemma prefix_sums ks n a : n <= length a -> (forall b, b < n -> a !! b = Some (Some (in_bucket ks b))) ->
  ok (for_ 0 n (fun i '(s, counts) => c ← get counts i; let s := s + c in counts ← assign_uninitialized counts i s; Ok (s, counts)) (0, a))
    (fun '(_, a') => length a' = length a /\ forall b, b < n -> a' !! b = Some (Some (start ks (S b)))).
Proof.
  intros Hl Ha. eapply ok_mono; [apply (ok_for (fun i '(s, a') => s = start ks i /\ length a' = length a /\
    (forall b, b < i -> a' !! b = Some (Some (start ks (S b)))) /\ (forall b, i <= b < n -> a' !! b = Some (Some (in_bucket ks b)))))|].
  - lia.
  - repeat split; [by rewrite start_0|intros; lia|intros b [_ Hb]; by apply Ha].
  - intros i [s a'] [_ Hi] (-> & Hl' & Hlo & Hhi). rewrite (get_eq a' i (in_bucket ks i)) by (apply Hhi; lia). simpl.
    rewrite assign_eq by lia. apply ok_ret. rewrite length_insert. repeat split; [by rewrite Nat.add_1_r, start_S|done| |].
    + intros b Hb. destruct (decide (b = i)) as [->|Hne].
      * rewrite list_lookup_insert_eq by lia. by rewrite start_S.
      * rewrite list_lookup_insert_ne by lia. apply Hlo. lia.
    + intros b Hb. rewrite list_lookup_insert_ne by lia. apply Hhi. lia.
  - intros [s a'] (_ & Hl' & Hlo & _). done.
Qed.
End counting.

(** ** Moving elements to their places *)

Section moving.
Context `{Schedule} {T : Type} (tag : assignment_tag) (Htag : constructs tag = true).
Context (In Out : slice) (xs : list T) (ks : list nat) (n : nat) (m0 : mem T).
Context (Hap : apart [In] [Out]) (Hlen : length xs = length ks) (Hks : Forall (fun k => k < n) ks).
Implicit Types (m : mem T) (d : list nat) (a : array nat).

(** The elements at [d] have been sent. *)
Definition moved d m : Prop := same_outside [In; Out] m0 m /\ holds In (marked (left_over tag) Some d xs) m /\
  holds Out (marked Some (fun _ => None) (dest ks <$> d) (by_buckets xs ks n)) m.

Lemma moved_nil : holds In (Some <$> xs) m0 -> holds Out (replicate (length xs) None) m0 -> moved [] m0.
Proof using Hlen Hks.
  intros HIn HOut. split; [done|]. simpl. rewrite !marked_nil. split; [done|].
  assert ((fun _ => @None T) <$> by_buckets xs ks n = replicate (length xs) None) as ->; [|done].
  rewrite <- (length_by_buckets xs ks n) by done. by apply const_fmap.
Qed.

Lemma move_one d p m : p < length ks -> p ∉ d -> (forall q, q ∈ d -> q < length ks) -> moved d m ->
  ok (assign_dispatch tag (nth Out (dest ks p)) (nth In p) m) (moved (d ++ [p])).
Proof using Hap Hlen Hks Htag.
  intros Hp Hd Hdl (Hs & HIn & HOut). destruct (lookup_lt_is_Some_2 xs p) as [x Hx]; [lia|].
  assert (by_buckets xs ks n !! dest ks p = Some x) as Hy by (by rewrite lookup_by_buckets).
  assert (dest ks p ∉ dest ks <$> d) as Hnd.
  { intros (q & Hq & Hqd)%list_elem_of_fmap. apply Hd. assert (p = q) as ->; [|done]. apply (dest_inj ks); [done|by apply Hdl|done]. }
  eapply ok_mono; [eapply (dispatch_spec tag In Out _ _ m p (dest ks p) x Htag Hap HIn);
    [by apply lookup_marked|exact HOut|by rewrite (lookup_marked _ _ _ _ _ x)]|].
  intros m' (Hs' & HIn' & HOut'). rewrite marked_insert in HIn', HOut' by done. split; [by eapply same_outside_trans|].
    split; [done|]. by rewrite fmap_app.
Qed.

Lemma moved_all d m : d ≡ₚ seq 0 (length ks) -> moved d m ->
  same_outside [In; Out] m0 m /\ holds In (left_over tag <$> xs) m /\ holds Out (Some <$> by_buckets xs ks n) m.
Proof using Hlen Hks.
  intros Hd (Hs & HIn & HOut). split; [done|].
  rewrite marked_all in HIn by (intros i Hi; rewrite Hd; apply elem_of_seq; lia). split; [done|].
  rewrite marked_all in HOut; [done|]. intros i Hi. rewrite length_by_buckets in Hi by done.
  destruct (dest_surj ks i) as (p & Hp & <-); [lia|]. apply list_elem_of_fmap. exists p. split; [done|]. rewrite Hd. apply elem_of_seq. lia.
Qed.

(** The keys of the elements that have not been sent can be read. *)
Definition keys_left (Keys : keys) : Prop := forall d m p k, moved d m -> p ∉ d -> ks !! p = Some k -> Keys p m = Ok k.

Lemma keys_left_show Keys m : keys_left Keys -> moved [] m -> keys_show Keys ks m.
Proof. intros HK Hm j k Hk. by apply (HK []); [|apply not_elem_of_nil|]. Qed.

(** Backwards from the ends of the buckets *)
Lemma write_down Keys j d a m : keys_left Keys -> j <= length ks -> n <= length a -> (forall q, q ∈ d -> j <= q < length ks) -> moved d m ->
  (forall b, b < n -> a !! b = Some (Some (start ks b + in_bucket (take j ks) b))) ->
  ok (run (reverse (seq 0 j)) (fun j '(offsets, m) =>
      k ← Keys j m; o ← get offsets k; let k' := size_sub o 1 in offsets ← assign_uninitialized offsets k k';
      m ← assign_dispatch tag (nth Out k') (nth In j) m; Ok (offsets, m)) (a, m))
    (fun '(a', m') => length a' = length a /\ (forall b, b < n -> a' !! b = Some (Some (start ks b))) /\ moved (d ++ reverse (seq 0 j)) m').
Proof using Hap Hlen Hks Htag.
  intros HK Hj Hl Hd Hm Ha. revert d a m Hj Hl Hd Hm Ha. induction j as [|j IH]; intros d a m Hj Hl Hd Hm Ha.
  { apply ok_ret. split; [done|]. split; [|by rewrite app_nil_r]. intros b Hb. rewrite Ha by done. unfold in_bucket. simpl. do 2 f_equal. unfold count_true. simpl. lia. }
  assert (reverse (seq 0 (S j)) = j :: reverse (seq 0 j)) as -> by (by rewrite seq_S, reverse_app).
  destruct (lookup_lt_is_Some_2 ks j) as [k Hk]; [lia|]. assert (k < n) as Hkn by (rewrite Forall_lookup in Hks; by eapply Hks).
  assert (j ∉ d) as Hjd by (intros Hin; apply Hd in Hin; lia).
  cbn [run]. rewrite (HK d m j k Hm Hjd Hk). simpl. rewrite (get_eq _ _ _ (Ha k Hkn)). simpl.
  rewrite assign_eq by lia. simpl.
  assert (size_sub (start ks k + in_bucket (take (S j) ks) k) 1 = dest ks j) as ->.
  { rewrite (in_bucket_take_S _ _ _ k Hk), Nat.eqb_refl. rewrite (dest_eq _ _ _ Hk). unfold size_sub.
    destruct (Nat.leb_spec 1 (start ks k + (in_bucket (take j ks) k + 1))); lia. }
  destruct (move_one d j m) as (m1 & Hm1 & Hm1'); [lia|done|intros q Hq; apply Hd in Hq; lia|done|]. rewrite Hm1. simpl.
  eapply ok_mono; [apply (IH (d ++ [j]))|].
  - lia.
  - by rewrite length_insert.
  - intros q [Hq| ->%list_elem_of_singleton]%elem_of_app; [apply Hd in Hq|]; lia.
  - done.
  - intros b Hb. destruct (decide (b = k)) as [->|Hne].
    + rewrite list_lookup_insert_eq by lia. by rewrite (dest_eq _ _ _ Hk).
    + rewrite list_lookup_insert_ne by (by apply not_eq_sym). rewrite Ha by done. rewrite (in_bucket_take_S _ _ _ b Hk).
      destruct (Nat.eqb_spec k b); [lia|]. do 2 f_equal. lia.
  - intros [a' m'] (Hl' & Ha' & Hm'). rewrite length_insert in Hl'. by rewrite <- app_assoc in Hm'.
Qed.

(** Forwards, a block of elements from [s] to [e], from the offsets of the block *)
Lemma write_block Keys s e d base a m : keys_left Keys -> s <= e <= length ks -> (forall q, q ∈ d -> q < length ks /\ ~ s <= q < e) -> moved d m ->
  (forall b, b < n -> a !! (base + b) = Some (Some (start ks b + in_bucket (take s ks) b))) ->
  slice_size In = length ks ->
  ok (seq_write_ tag (scut In s e) Out (cut_keys Keys s) a base n m) (moved (d ++ seq s (e - s))).
Proof using Hap Hlen Hks Htag.
  intros HK Hse Hd Hm Ha HsIn. unfold seq_write_.
  set (offs j := (fun b => start ks b + in_bucket (take j ks) b) <$> seq 0 n).
  assert (forall j, length (offs j) = n) as Hlo by (intros j; unfold offs; by rewrite length_fmap, length_seq).
  assert (forall j b, b < n -> offs j !! b = Some (start ks b + in_bucket (take j ks) b)) as Hoff.
  { intros j b Hb. unfold offs. by rewrite list_lookup_fmap, lookup_seq_lt. }
  assert (for_ 0 n (fun i local_offsets => o ← get a (base + i); assign_uninitialized local_offsets i o) (uninitialized n) =
    Ok (Some <$> offs s)) as ->.
  { rewrite <- (Hlo s) at 1. rewrite (for_write (fun i => get a (base + i)) (offs s) 0).
    - rewrite <- (Hlo s) at 1. by rewrite uninitialized_all.
    - intros i y Hy. assert (i < n) as Hi by (rewrite <- (Hlo s); by eapply lookup_lt_Some).
      rewrite Hoff in Hy by done. injection Hy as <-. by apply get_eq, Ha.
    - by rewrite Hlo, length_uninitialized. }
  cbn [mbind res_bind]. assert (slice_size (scut In s e) = e - s) as -> by (unfold slice_size, scut; simpl; lia).
  eapply ok_bind, ok_mono; [apply (ok_for (fun j '(l, m) => l = Some <$> offs (s + j) /\ moved (d ++ seq s j) m))|].
  - lia.
  - rewrite Nat.add_0_r. simpl. by rewrite app_nil_r.
  - intros j [l m'] [_ Hj] [-> Hm']. destruct (lookup_lt_is_Some_2 ks (s + j)) as [k Hk]; [lia|].
    assert (k < n) as Hkn by (rewrite Forall_lookup in Hks; by eapply Hks).
    assert (s + j ∉ d ++ seq s j) as Hnd.
    { intros [Hin|Hin%elem_of_seq]%elem_of_app; [apply Hd in Hin|]; lia. }
    unfold cut_keys. rewrite (HK _ m' (s + j) k Hm' Hnd Hk). simpl.
    rewrite (get_eq _ _ (start ks k + in_bucket (take (s + j) ks) k)) by (by rewrite list_lookup_fmap, Hoff). simpl.
    rewrite assign_eq by (by rewrite length_fmap, Hlo). simpl. rewrite <- (dest_eq _ _ _ Hk).
    assert (nth (scut In s e) j = nth In (s + j)) as -> by (unfold nth, scut; simpl; f_equal; lia).
    destruct (move_one (d ++ seq s j) (s + j) m') as (m1 & Hm1 & Hm1'); [lia|done| |done|].
    { intros q [Hq|Hq%elem_of_seq]%elem_of_app; [apply Hd in Hq|]; lia. }
    rewrite Hm1. simpl. apply ok_ret. split.
    + apply list_eq. intros b. destruct (decide (b < n)) as [Hb|Hb].
      2:{ rewrite !lookup_ge_None_2; [done|rewrite length_fmap, Hlo; lia|rewrite length_insert, length_fmap, Hlo; lia]. }
      rewrite (list_lookup_fmap _ (offs (s + (j + 1)))), Hoff by done. simpl.
      replace (s + (j + 1)) with (S (s + j)) by lia. rewrite (in_bucket_take_S _ _ _ b Hk). destruct (decide (b = k)) as [->|Hne].
      * rewrite list_lookup_insert_eq by (by rewrite length_fmap, Hlo). rewrite Nat.eqb_refl, (dest_eq _ _ _ Hk). do 2 f_equal. lia.
      * rewrite list_lookup_insert_ne by (by apply not_eq_sym). rewrite list_lookup_fmap, Hoff by done. simpl.
        destruct (Nat.eqb_spec k b); [lia|]. do 2 f_equal. lia.
    + rewrite seq_app. simpl. by rewrite app_assoc.
  - intros [l m'] [_ Hm']. by apply ok_ret.
Qed.

(** *** One block *)

Definition sent m : Prop :=
  same_outside [In; Out] m0 m /\ holds In (left_over tag <$> xs) m /\ holds Out (Some <$> by_buckets xs ks n) m.

Context (Hin : holds In (Some <$> xs) m0) (Hout : holds Out (replicate (length xs) None) m0).

Lemma size_in : slice_size In = length ks.
Proof using Hin Hlen. by rewrite (holds_size _ _ _ Hin), length_fmap. Qed.

Lemma seq_count_sort__ok Keys a : keys_left Keys -> n <= length a ->
  ok (seq_count_sort_ tag In Out Keys a n m0) (fun '(a', m') =>
    length a' = length a /\ (forall b, b < n -> a' !! b = Some (Some (start ks b))) /\ sent m').
Proof using Hap Hlen Hks Htag Hin Hout.
  intros HK Hl. unfold seq_count_sort_. rewrite size_in.
  rewrite (seq_count_eq Keys ks n); [|by apply keys_left_show, moved_nil|done|done]. simpl.
  apply ok_bind. eapply ok_mono; [apply (prefix_sums ks n)|].
  - by rewrite length_scatter.
  - intros b Hb. rewrite scatter_block by (rewrite length_fmap, length_counts_of; lia).
    rewrite decide_True by (rewrite length_fmap, length_counts_of; lia). by rewrite Nat.sub_0_r, list_lookup_fmap, lookup_counts_of.
  - intros [s a1] [Hl1 Ha1]. rewrite length_scatter in Hl1. unfold seq_write_down_. rewrite size_in.
    eapply ok_mono; [apply (write_down Keys (length ks) []); [done|done|lia|by intros q ?%not_elem_of_nil|by apply moved_nil|]|].
    + intros b Hb. rewrite Ha1, firstn_all, start_S by done. done.
    + intros [a2 m2] (Hl2 & Ha2 & Hm2). split; [lia|]. split; [done|]. apply (moved_all _ _ (reverse_Permutation _) Hm2).
Qed.

Definition offsets_of : list nat := start ks <$> seq 0 (n + 1).

Lemma length_offsets_of : length offsets_of = n + 1.
Proof using Hlen. unfold offsets_of. by rewrite length_fmap, length_seq. Qed.

Lemma lookup_offsets_of b : b <= n -> offsets_of !! b = Some (start ks b).
Proof using Hlen. intros Hb. unfold offsets_of. rewrite list_lookup_fmap, lookup_seq_lt by lia. done. Qed.

Lemma offsets_of_intro a : length a = n + 1 -> (forall b, b < n -> a !! b = Some (Some (start ks b))) -> a !! n = Some (Some (length ks)) ->
  a = Some <$> offsets_of.
Proof using Hks Hlen.
  intros Hl Ha Hn. apply list_eq. intros b. rewrite list_lookup_fmap. destruct (Nat.lt_trichotomy b n) as [Hb|[->|Hb]].
  - rewrite lookup_offsets_of by lia. by apply Ha.
  - rewrite lookup_offsets_of by lia. by rewrite Hn, start_all.
  - rewrite !lookup_ge_None_2; [done|rewrite length_offsets_of; lia|lia].
Qed.

Lemma seq_count_sort_ok Keys : keys_left Keys ->
  ok (seq_count_sort tag In Out Keys n m0) (fun '(a, m') => a = Some <$> offsets_of /\ sent m').
Proof using Hap Hlen Hks Htag Hin Hout.
  intros HK. unfold seq_count_sort. apply ok_bind. eapply ok_mono; [apply (seq_count_sort__ok Keys); [done|rewrite length_uninitialized; lia]|].
  intros [a m'] (Hl & Ha & Hs). rewrite length_uninitialized in Hl. rewrite assign_eq by lia. apply ok_ret. split; [|done].
  apply offsets_of_intro.
  - by rewrite length_insert.
  - intros b Hb. rewrite list_lookup_insert_ne by lia. by apply Ha.
  - rewrite list_lookup_insert_eq by lia. by rewrite size_in.
Qed.

(** *** Many blocks *)

Section blocks.
Context (N B : nat) (HB : length ks <= N * B).
#[local] Abbreviation L := (length ks).

Definition block_start (i : nat) : nat := Nat.min (i * B) L.
Definition block_keys_of (i : nat) : list nat := take (block_start (S i) - block_start i) (drop (block_start i) ks).

Lemma block_end i : Nat.min (block_start i + B) L = block_start (S i).
Proof using All. unfold block_start. simpl. lia. Qed.

Lemma block_start_le i j : i <= j -> block_start i <= block_start j.
Proof using All. intros Hij. unfold block_start. apply Nat.min_le_compat_r. nia. Qed.

Lemma block_start_bound i : block_start i <= L.
Proof using All. unfold block_start. lia. Qed.

Lemma block_start_N : block_start N = L.
Proof using All. unfold block_start. lia. Qed.

Lemma take_block i : take (block_start (S i)) ks = take (block_start i) ks ++ block_keys_of i.
Proof using All.
  unfold block_keys_of. assert (Hle := block_start_le i (S i) (Nat.le_succ_diag_r i)).
  rewrite <- (take_drop (block_start i) (take (block_start (S i)) ks)) at 1. rewrite take_take, skipn_firstn_comm. do 2 f_equal. lia.
Qed.

Lemma length_block_keys i : length (block_keys_of i) = block_start (S i) - block_start i.
Proof using All. unfold block_keys_of. assert (Hb := block_start_bound (S i)). rewrite length_take, length_drop. lia. Qed.

(** The table of counts, a row for each block *)
Definition count_rows : array nat := mjoin ((fun i => Some <$> counts_of (block_keys_of i) n) <$> seq 0 N).

Lemma count_offset i : i <= N -> offset (fun i => Some <$> counts_of (block_keys_of i) n) i = i * n.
Proof using All. intros Hi. apply (offset_const _ _ N); [|done]. intros j _. by rewrite length_fmap, length_counts_of. Qed.

Lemma lookup_count_rows j b : j < N -> b < n -> count_rows !! (j * n + b) = Some (Some (in_bucket (block_keys_of j) b)).
Proof using All.
  intros Hj Hb. rewrite <- count_offset by lia. apply lookup_join_offset; [done|]. by rewrite list_lookup_fmap, lookup_counts_of.
Qed.

Lemma count_blocks_eq Keys g : keys_left Keys ->
  parallel_for 0 N (fun i counts => seq_count_ (Nat.min (block_start i + B) L - block_start i) (cut_keys Keys (block_start i)) counts (i * n) n m0) g
    (uninitialized (N * n)) = Ok count_rows.
Proof using All.
  intros HK. rewrite (parallel_for_blocks (fun i => Some <$> counts_of (block_keys_of i) n) N g 0).
  - assert (length count_rows = N * n) as Hc by (by apply count_offset). rewrite scatter_all; [done|]. by rewrite length_uninitialized, <- Hc.
  - intros i a Hi [Hla _]. rewrite block_end, <- length_block_keys. rewrite (seq_count_eq _ (block_keys_of i) n).
    + rewrite <- count_offset by lia. done.
    + intros j k Hk. unfold cut_keys. apply (keys_left_show Keys m0 HK); [by apply moved_nil|].
      unfold block_keys_of in Hk. apply lookup_take_Some in Hk as [Hk _]. by rewrite lookup_drop in Hk.
    + unfold block_keys_of. by apply Forall_take, Forall_drop.
    + rewrite Hla, length_uninitialized. nia.
Qed.

Lemma in_bucket_block i b : in_bucket (take (block_start (S i)) ks) b = in_bucket (take (block_start i) ks) b + in_bucket (block_keys_of i) b.
Proof using All. by rewrite take_block, in_bucket_app. Qed.

(** The number of elements in a bucket *)
Lemma sum_rows b : b < n -> for_ 0 N (fun j v => c ← get count_rows (j * n + b); Ok (v + c)) 0 = Ok (in_bucket ks b).
Proof using All.
  intros Hb. apply ok_exact. eapply ok_mono; [apply (ok_for (fun j v => v = in_bucket (take (block_start j) ks) b))|].
  - lia.
  - unfold block_start. simpl. done.
  - intros j v [_ Hj] ->. rewrite (get_eq _ _ _ (lookup_count_rows j b Hj Hb)). simpl. apply ok_ret.
    by rewrite Nat.add_1_r, in_bucket_block.
  - intros v ->. by rewrite block_start_N, firstn_all.
Qed.

Lemma bucket_sizes_eq g a : length a = n + 1 ->
  parallel_for 0 n (fun i bucket_offsets =>
    v ← for_ 0 N (fun j v => c ← get count_rows (j * n + i); Ok (v + c)) 0; assign_uninitialized bucket_offsets i v) g a =
  Ok (scatter (block 0 (Some <$> counts_of ks n)) a).
Proof using All.
  intros Hl. rewrite (parallel_for_cells (Some <$> counts_of ks n) _ _ 0); [done|by rewrite length_fmap, length_counts_of|].
  intros i z a' Hz Hl' _. assert (i < n) as Hi by (rewrite <- (length_counts_of ks n), <- (length_fmap Some); by eapply lookup_lt_Some).
  rewrite list_lookup_fmap, lookup_counts_of in Hz by done. injection Hz as <-. rewrite sum_rows by done. simpl. apply assign_eq. lia.
Qed.

(** Where each block starts in each bucket *)
Definition dest_at (a : array nat) (i : nat) : Prop :=
  forall j, j < N -> a !! (j * n + i) = Some (Some (start ks i + in_bucket (take (block_start j) ks) i)).

Lemma dest_column i a : i < n -> length a = N * n ->
  ok (for_ 0 N (fun j '(v, dest_offsets) =>
      dest_offsets ← assign_uninitialized dest_offsets (j * n + i) v; c ← get count_rows (j * n + i); Ok (v + c, dest_offsets)) (start ks i, a))
    (fun '(_, a') => length a' = N * n /\ dest_at a' i /\ forall i', i' < n -> i' <> i -> dest_at a i' -> dest_at a' i').
Proof using All.
  intros Hi Hl. eapply ok_mono; [apply (ok_for (fun k '(v, a') => v = start ks i + in_bucket (take (block_start k) ks) i /\ length a' = N * n /\
    (forall j, j < k -> a' !! (j * n + i) = Some (Some (start ks i + in_bucket (take (block_start j) ks) i))) /\
    (forall i', i' < n -> i' <> i -> dest_at a i' -> dest_at a' i')))|].
  - lia.
  - unfold block_start at 1. simpl. unfold in_bucket at 1, count_true. simpl. repeat split; [lia|done|intros; lia|done].
  - intros k [v a'] [_ Hk] (-> & Hl' & Hlo & Hother). rewrite assign_eq by nia. simpl.
    rewrite (get_eq _ _ _ (lookup_count_rows k i Hk Hi)). simpl. apply ok_ret. split; [|split; [by rewrite length_insert|split]].
    + rewrite Nat.add_1_r, in_bucket_block. lia.
    + intros j Hj. destruct (decide (j = k)) as [->|Hne]; [by rewrite list_lookup_insert_eq by nia|].
      rewrite list_lookup_insert_ne by nia. apply Hlo. lia.
    + intros i' Hi' Hne Hd j Hj. rewrite list_lookup_insert_ne; [by apply Hother|]. intros Heq. apply Hne.
      assert (j = k) as -> by nia. lia.
  - intros [v a'] (_ & Hl' & Hlo & Hother). done.
Qed.

Lemma dest_offsets_ok g : ok (parallel_for 0 n (fun i dest_offsets =>
      v ← get (Some <$> offsets_of) i;
      '(_, dest_offsets) ← for_ 0 N (fun j '(v, dest_offsets) =>
        dest_offsets ← assign_uninitialized dest_offsets (j * n + i) v; c ← get count_rows (j * n + i); Ok (v + c, dest_offsets)) (v, dest_offsets);
      Ok dest_offsets) g (uninitialized (N * n)))
    (fun a => forall i, i < n -> dest_at a i).
Proof using All.
  eapply ok_mono; [apply (ok_parallel_for (fun d a => length a = N * n /\ forall i, i ∈ d -> i < n /\ dest_at a i))|].
  - split; [apply length_uninitialized|]. by intros i ?%not_elem_of_nil.
  - intros d i a [_ Hi] Hd [Hl Ha]. rewrite (get_eq _ _ (start ks i)) by (rewrite list_lookup_fmap, lookup_offsets_of by lia; done).
    simpl. apply ok_bind. eapply ok_mono; [by apply dest_column|]. intros [v a'] (Hl' & Hi' & Hother). apply ok_ret. split; [done|].
    intros i' [Hid| ->%list_elem_of_singleton]%elem_of_app; [|done]. destruct (Ha i' Hid) as [Hn' Hd']. split; [done|].
    apply Hother; [done|by intros ->|done].
  - intros a (d & Hd & _ & Ha) i Hi. apply Ha. rewrite Hd. apply elem_of_seq. lia.
Qed.

Definition range (i : nat) : list nat := seq (block_start i) (block_start (S i) - block_start i).

Lemma join_ranges k : mjoin (range <$> seq 0 k) = seq 0 (block_start k).
Proof using All.
  induction k as [|k IH]; [by unfold block_start|]. rewrite seq_S, fmap_app, join_app, IH. simpl. rewrite app_nil_r. unfold range.
  assert (Hle := block_start_le k (S k) (Nat.le_succ_diag_r k)).
  replace (block_start (S k)) with (block_start k + (block_start (S k) - block_start k)) at 2 by lia. by rewrite seq_app.
Qed.

(** The blocks in any order *)
Lemma write_blocks Keys a g : keys_left Keys -> (forall i, i < n -> dest_at a i) ->
  ok (parallel_for 0 N (fun i m => seq_write_ tag (scut In (block_start i) (Nat.min (block_start i + B) L)) Out
      (cut_keys Keys (block_start i)) a (i * n) n m) g m0) sent.
Proof using All.
  intros HK Ha.
  eapply ok_mono; [apply (ok_parallel_for (fun d m => Forall (fun i => i < N) d /\ moved (mjoin (range <$> d)) m))|].
  - split; [done|]. by apply moved_nil.
  - intros d i m [_ Hi] Hd [HdN Hm]. rewrite block_end. assert (Hle := block_start_le i (S i) (Nat.le_succ_diag_r i)). assert (HbL := block_start_bound (S i)).
    eapply ok_mono; [apply (write_block Keys (block_start i) (block_start (S i)) (mjoin (range <$> d)))|].
    + done.
    + done.
    + intros q (l & Hq & Hl)%list_elem_of_join. apply list_elem_of_fmap in Hl as (j & -> & Hj). apply elem_of_seq in Hq.
      assert (j <> i) as Hne by (by intros ->). assert (HbJ := block_start_bound (S j)).
      split; [lia|]. destruct (Nat.lt_ge_cases j i) as [Hji|Hij].
      * assert (Hm' := block_start_le (S j) i Hji). lia.
      * assert (Hm' := block_start_le (S i) j ltac:(lia)). lia.
    + done.
    + intros b Hb. by apply Ha.
    + apply size_in.
    + intros m' Hm'. split; [apply Forall_app; split; [done|by apply Forall_singleton]|]. rewrite fmap_app, join_app. simpl. by rewrite app_nil_r.
  - intros m (d & Hd & _ & Hm). rewrite Nat.sub_0_r in Hd. apply (moved_all (mjoin (range <$> d))); [|done].
    by rewrite (join_perm range _ _ Hd), join_ranges, block_start_N.
Qed.
End blocks.

(** *** The whole sort *)

Definition non_empty (b : nat) : nat := if 0 <? in_bucket ks b then 1 else 0.

Lemma non_empty_key k : k ∈ ks -> non_empty k = 1.
Proof using All.
  intros [p Hp]%list_elem_of_lookup. assert (Hlt := in_bucket_take_lt ks p k Hp). unfold non_empty.
  destruct (Nat.ltb_spec 0 (in_bucket ks k)); [done|lia].
Qed.

Lemma one_bucket k : k ∈ ks -> list_sum (non_empty <$> seq 0 n) = 1 -> Forall (fun l => l = k) ks.
Proof using All.
  intros Hk H1. apply Forall_forall. intros l Hl. destruct (decide (l = k)) as [|Hne]; [done|]. exfalso.
  assert (Hks' := Hks). rewrite Forall_forall in Hks'. assert (Hkn := Hks' k Hk). assert (Hln := Hks' l Hl).
  assert ([l; k] ⊆+ seq 0 n) as Hsub.
  { apply NoDup_submseteq; [repeat constructor; set_solver|]. intros b Hb. apply elem_of_seq. set_solver by lia. }
  apply (fmap_submseteq non_empty), list_sum_submseteq in Hsub. simpl in Hsub. rewrite !non_empty_key in Hsub by done. lia.
Qed.

(** Elements with one key are in their places. *)
Lemma by_buckets_one k : Forall (fun l => l = k) ks -> by_buckets xs ks n = xs.
Proof using All.
  intros Hall. assert (start ks k = 0) as Hs.
  { clear - Hall. unfold start. induction Hall as [|l ls -> _ IH]; [done|]. rewrite fmap_cons, count_true_cons, IH, Nat.ltb_irrefl. done. }
  assert (forall p, p <= length ks -> in_bucket (take p ks) k = p) as Hb.
  { clear - Hall. induction Hall as [|l ls -> _ IH]; intros [|p] Hp; simpl in *; [done|lia|done|].
    unfold in_bucket, is_key in *. rewrite fmap_cons, count_true_cons, IH, Nat.eqb_refl by lia. done. }
  apply list_eq. intros p. destruct (decide (p < length ks)) as [Hp|Hp].
  - rewrite <- (lookup_by_buckets xs ks n p) by done. f_equal. destruct (lookup_lt_is_Some_2 ks p Hp) as [l Hl].
    assert (l = k) as -> by (rewrite Forall_lookup in Hall; by eapply Hall). rewrite (dest_eq _ _ _ Hl), Hs, Hb by lia. done.
  - rewrite !lookup_ge_None_2; [done|lia|rewrite length_by_buckets by done; lia].
Qed.

Lemma sum_counts_start b : b <= n -> list_sum (take b (counts_of ks n ++ [0])) = start ks b.
Proof using All.
  induction b as [|b IH]; intros Hb; [by rewrite start_0|].
  assert ((counts_of ks n ++ [0]) !! b = Some (in_bucket ks b)) as Hc.
  { rewrite lookup_app_l by (rewrite length_counts_of; lia). apply lookup_counts_of. lia. }
  rewrite (take_S_r _ _ _ Hc), list_sum_app, IH, start_S by lia. simpl. lia.
Qed.

Lemma counts_sum : list_sum (counts_of ks n ++ [0]) = length ks.
Proof using All.
  rewrite <- (start_all ks n Hks), <- (sum_counts_start n) by done. rewrite list_sum_app. simpl.
  rewrite take_app_le, take_ge by (rewrite length_counts_of; lia). lia.
Qed.

(** What a counting sort leaves: the offsets of the buckets; and, unless all elements are in one bucket and
    that was to be left alone, the sorted elements in [Out] *)
Definition count_sorted (skip : bool) (r : array nat * bool * mem T) : Prop :=
  let '(a, one, m') := r in a = Some <$> offsets_of /\
  if one : bool then skip = true /\ m' = m0 /\ by_buckets xs ks n = xs /\ exists k, Forall (fun l => l = k) ks else sent m'.

Lemma scan_counts_offsets : size_t (length ks) ->
  scan_inplace plus_size 0 (n + 1) no_flag (Some <$> (counts_of ks n ++ [0])) = Ok (length ks, Some <$> offsets_of).
Proof using All.
  intros Hsz. assert (length (counts_of ks n ++ [0]) = n + 1) as Hl by (by rewrite length_app, length_counts_of).
  rewrite <- Hl at 1. rewrite scan_sizes by (by rewrite counts_sum). rewrite counts_sum, Hl. do 2 f_equal.
  unfold offsets_of. f_equal. apply list_fmap_ext. intros i b Hb%lookup_seq. apply sum_counts_start. lia.
Qed.

Lemma count_sort__ok sizeof num_threads skip Keys : keys_left Keys -> size_t (length ks) ->
  ok (count_sort_ sizeof num_threads tag In Out Keys n skip m0) (count_sorted skip).
Proof using All.
  intros HK Hsz. unfold count_sort_. cbv zeta. rewrite size_in. set (N := 1 + length ks * sizeof / Nat.max (n * 500) 5000).
  destruct ((length ks <? SEQ_THRESHOLD) || (N =? 1) || (num_threads =? 1)) eqn:Eseq.
  { apply ok_bind. eapply ok_mono; [by apply seq_count_sort_ok|]. intros [a m'] [-> Hs]. by apply ok_ret. }
  set (B := (length ks - 1) / N + 1).
  assert (length ks <= N * B) as HB.
  { unfold B. assert (N <> 0) as HN by (unfold N; lia). assert (Hd := Nat.div_mod (length ks - 1) N HN).
    assert (Hm := Nat.mod_upper_bound (length ks - 1) N HN). nia. }
  change (fun i => Nat.min (i * B) (length ks)) with (block_start B).
  assert (Hcounts := count_blocks_eq N B HB Keys 1 HK). unfold block_start at 1 2 3 in Hcounts. rewrite Hcounts. clear Hcounts. cbn [mbind res_bind].
  rewrite (bucket_sizes_eq N B HB) by apply length_uninitialized. cbn [mbind res_bind].
  rewrite assign_eq by (rewrite length_scatter, length_uninitialized; lia). cbn [mbind res_bind].
  assert (<[n := Some 0]> (scatter (block 0 (Some <$> counts_of ks n)) (uninitialized (n + 1))) = Some <$> (counts_of ks n ++ [0])) as ->.
  { rewrite <- (length_counts_of ks n) at 1. rewrite <- (length_fmap Some (counts_of ks n)), <- (Nat.add_0_l (length _)), <- block_snoc.
    rewrite fmap_app. apply scatter_all. rewrite length_uninitialized, length_app, length_fmap, length_counts_of. done. }
  assert (for_ 0 n (fun i s => o ← get (Some <$> (counts_of ks n ++ [0])) i; Ok (s + (if 0 <? o then 1 else 0))) 0 =
    Ok (list_sum (non_empty <$> seq 0 n))) as ->.
  { apply ok_exact. eapply ok_mono; [apply (ok_for (fun i s => s = list_sum (non_empty <$> seq 0 i)))|].
    - lia.
    - done.
    - intros i s [_ Hi] ->. rewrite (get_eq _ _ (in_bucket ks i)).
      2:{ rewrite list_lookup_fmap, lookup_app_l, lookup_counts_of by (rewrite ?length_counts_of; lia). done. }
      simpl. apply ok_ret. rewrite Nat.add_1_r, seq_S, fmap_app, list_sum_app. simpl. unfold non_empty. lia.
    - done. }
  cbn [mbind res_bind]. rewrite scan_counts_offsets by done. cbn [mbind res_bind].
  destruct (skip && (list_sum (non_empty <$> seq 0 n) =? 1)) eqn:Eskip.
  - apply andb_true_iff in Eskip as [-> H1%Nat.eqb_eq]. apply ok_ret. split; [done|].
    destruct (decide (length ks = 0)) as [H0|H0].
    + apply length_zero_iff_nil in H0 as Ek. split; [done|]. split; [done|]. split.
      * apply (by_buckets_one 0). rewrite Ek. constructor.
      * exists 0. rewrite Ek. constructor.
    + destruct (lookup_lt_is_Some_2 ks 0) as [k Hk]; [lia|]. apply list_elem_of_lookup_2 in Hk.
      assert (Hone := one_bucket k Hk H1). split; [done|]. split; [done|]. split; [by apply (by_buckets_one k)|by exists k].
  - rewrite Nat.eqb_refl. cbn [assert mbind res_bind]. apply ok_bind.
    eapply ok_mono; [apply (dest_offsets_ok N B HB)|]. intros a Ha.
    apply ok_bind. eapply ok_mono; [by apply (write_blocks N B HB Keys a)|]. intros m' Hs. by apply ok_ret.
Qed.
End moving.

(** ** Stable sorts by key *)

Section sorts.
Context {T : Type} (key : T -> nat).
Implicit Types (xs ys : list T).

Definition before (x y : T) : bool := key x <? key y.
Definition sorts xs ys : Prop := stable_sort_of before xs ys.
Definition with_key (b : nat) xs : list T := List.filter (fun x => key x =? b) xs.

Lemma bucket_with_key xs b : bucket xs (key <$> xs) b = with_key b xs.
Proof.
  unfold bucket, is_key, with_key. induction xs as [|x xs IH]; [done|]. rewrite !fmap_cons. simpl. rewrite IH. by destruct (key x =? b).
Qed.

Lemma by_buckets_with_key xs n : by_buckets xs (key <$> xs) n = mjoin ((fun b => with_key b xs) <$> seq 0 n).
Proof. unfold by_buckets. f_equal. apply list_fmap_ext. intros i b _. apply bucket_with_key. Qed.

Lemma elem_of_with_key x b xs : x ∈ with_key b xs <-> x ∈ xs /\ key x = b.
Proof. unfold with_key. rewrite !list_elem_of_In, List.filter_In, Nat.eqb_eq. done. Qed.

Lemma equiv_before x y : equiv_by before x y = (key x =? key y).
Proof. unfold equiv_by, before. destruct (Nat.ltb_spec (key x) (key y)), (Nat.ltb_spec (key y) (key x)), (Nat.eqb_spec (key x) (key y)); simpl; lia || done. Qed.

Lemma le_before x y : le_by before x y <-> key x <= key y.
Proof. unfold le_by, before. rewrite Nat.ltb_ge. done. Qed.

Lemma buckets_sorted xs s n : sorted_by before (mjoin ((fun b => with_key b xs) <$> seq s n)).
Proof.
  revert s. induction n as [|n IH]; intros s; [constructor|]. rewrite <- cons_seq, fmap_cons. change (mjoin (?x :: ?l)) with (x ++ mjoin l).
  apply sorted_app. split; [|split; [apply IH|]].
  - clear IH. induction xs as [|x xs IHxs]; [constructor|]. unfold with_key. simpl. destruct (Nat.eqb_spec (key x) s) as [Hx|]; [|exact IHxs].
    constructor; [exact IHxs|]. apply Forall_forall. intros y [_ Hy]%elem_of_with_key. apply le_before. lia.
  - intros x y [_ Hx]%elem_of_with_key (l & Hy & Hl)%list_elem_of_join. apply list_elem_of_fmap in Hl as (b & -> & Hb%elem_of_seq).
    apply elem_of_with_key in Hy as [_ Hy]. apply le_before. lia.
Qed.

Lemma join_none {X} (f : nat -> list X) l : (forall b, b ∈ l -> f b = []) -> mjoin (f <$> l) = [].
Proof.
  induction l as [|b l IH]; intros Hl; [done|]. simpl. rewrite Hl by left. apply IH. intros b' Hb'. apply Hl. by right.
Qed.

Lemma join_buckets_one {X} (f : nat -> list X) k n : k < n -> (forall b, b <> k -> f b = []) -> mjoin (f <$> seq 0 n) = f k.
Proof.
  intros Hk Hf. replace n with (k + (1 + (n - k - 1))) by lia. rewrite !seq_app, !fmap_app, !join_app. simpl.
  rewrite !join_none; [by rewrite !app_nil_r|..]; intros b Hb%elem_of_seq; apply Hf; lia.
Qed.

Lemma buckets_perm xs n : Forall (fun x => key x < n) xs -> mjoin ((fun b => with_key b xs) <$> seq 0 n) ≡ₚ xs.
Proof.
  induction 1 as [|x xs Hx _ IH]; [by rewrite join_none|].
  trans (mjoin ((fun b => (if key x =? b then [x] else []) ++ with_key b xs) <$> seq 0 n)).
  - apply reflexive_eq. f_equal. apply list_fmap_ext. intros i b _. unfold with_key. simpl. by destruct (key x =? b).
  - rewrite join_app_perm, IH, (join_buckets_one _ (key x)); [by rewrite Nat.eqb_refl|done|].
    intros b Hb. destruct (Nat.eqb_spec (key x) b); [lia|done].
Qed.

Lemma filter_join {X} (P : X -> bool) (lss : list (list X)) : List.filter P (mjoin lss) = mjoin (List.filter P <$> lss).
Proof. induction lss as [|ls lss IH]; [done|]. simpl. by rewrite List.filter_app, IH. Qed.

Lemma by_buckets_sorts xs n : Forall (fun x => key x < n) xs -> sorts xs (by_buckets xs (key <$> xs) n).
Proof.
  intros Hn. rewrite by_buckets_with_key. split; [apply buckets_sorted|]. split; [by apply buckets_perm|]. intros z.
  rewrite filter_join, <- list_fmap_compose.
  assert (forall b, b <> key z -> List.filter (equiv_by before z) (with_key b xs) = []) as Hnil.
  { intros b Hb. apply filter_none, Forall_forall. intros x [_ Hx]%elem_of_with_key. rewrite equiv_before. apply Nat.eqb_neq. lia. }
  destruct (decide (key z < n)) as [Hz|Hz].
  - rewrite (join_buckets_one _ (key z)) by done. simpl. unfold with_key. clear. induction xs as [|x xs IH]; [done|]. simpl.
    rewrite equiv_before, (Nat.eqb_sym (key z)). destruct (key x =? key z) eqn:E; simpl; [|done]. rewrite equiv_before, Nat.eqb_sym, E. by rewrite IH.
  - rewrite (filter_none _ xs).
    + apply join_none. intros b Hb%elem_of_seq. apply Hnil. lia.
    + eapply Forall_impl; [exact Hn|]. intros x Hx. rewrite equiv_before. apply Nat.eqb_neq. simpl in Hx. lia.
Qed.

(** Only one list is the stable sort. *)
Lemma stable_sort_unique xs ys zs : sorts xs ys -> sorts xs zs -> ys = zs.
Proof.
  intros (HS1 & _ & HF1) (HS2 & _ & HF2).
  assert (forall z, List.filter (equiv_by before z) ys = List.filter (equiv_by before z) zs) as HF by (intros z; by rewrite HF1, HF2).
  clear HF1 HF2. unfold sorted_by in *. revert zs HS2 HF. induction HS1 as [|y ys HS1 IH Hy]; intros zs HS2 HF.
  - destruct zs as [|z zs]; [done|]. specialize (HF z). simpl in HF. by rewrite equiv_before, Nat.eqb_refl in HF.
  - destruct zs as [|z zs]; [specialize (HF y); simpl in HF; by rewrite equiv_before, Nat.eqb_refl in HF|].
    assert (Hin : forall x us vs, List.filter (equiv_by before x) (x :: us) = List.filter (equiv_by before x) vs -> x ∈ vs).
    { intros x us vs Hx. apply list_elem_of_In, (List.filter_In (equiv_by before x)). rewrite <- Hx. simpl.
      rewrite equiv_before, Nat.eqb_refl. by left. }
    apply StronglySorted_inv in HS2 as [HS2 Hz].
    assert (key y = key z) as Hk.
    { rewrite Forall_forall in Hy, Hz. apply Nat.le_antisymm.
      - assert (z ∈ y :: ys) as [->|Hzy]%elem_of_cons by (by apply (Hin z zs)); [done|]. by apply le_before, Hy.
      - assert (y ∈ z :: zs) as [->|Hyz]%elem_of_cons by (by apply (Hin y ys)); [done|]. by apply le_before, Hz. }
    assert (y = z) as ->.
    { specialize (HF y). simpl in HF. rewrite !equiv_before, <- Hk, Nat.eqb_refl in HF. by injection HF. }
    f_equal. apply IH; [done|]. intros x. specialize (HF x). simpl in HF. destruct (equiv_by before x z); [by injection HF|done].
Qed.
End sorts.

(** ** Scratch memory *)

Section scratch.
Context {T : Type}.
Implicit Types (m : mem T).

Lemma holds_same_cells s cs m m' p : holds s cs m -> holds s cs m' -> in_slice p s -> m' !! p = m !! p.
Proof.
  intros H1 H2 [Ha Hp]. destruct (lookup_lt_is_Some_2 cs (p.2 - s_begin s)) as [c Hc]; [destruct H1; lia|].
  assert (nth s (p.2 - s_begin s) = p) as <- by (unfold nth; rewrite <- Ha; destruct p; simpl in *; f_equal; lia).
  by rewrite (proj2 H1 _ _ Hc), (proj2 H2 _ _ Hc).
Qed.

Lemma scratch_same n In B cs m m1 m2 : allocate n m = (B, m1) -> holds In cs m -> same_outside [In; B] m1 m2 ->
  same_outside [In] m (deallocate B m2).
Proof.
  intros Ha HIn Hs p Hp. destruct (allocate_spec _ _ _ _ Ha) as (_ & _ & _ & Hsame & Hfresh).
  rewrite lookup_deallocate. destruct (decide (p.1 = arr B)) as [E|E]; [by rewrite Hfresh|].
  rewrite Hs; [by apply Hsame|]. rewrite !covers_cons. intros [Hc|[Hc|Hc]].
  - apply Hp. exists In. split; [left|done].
  - by apply E, Hc.
  - by apply covers_nil in Hc.
Qed.

Lemma scratch_holds n In B cs ds m m1 m2 : allocate n m = (B, m1) -> holds In cs m -> holds In ds m2 -> length ds = length cs ->
  holds In ds (deallocate B m2).
Proof.
  intros Ha HIn HIn2 Hl. destruct (allocate_spec _ _ _ _ Ha) as (_ & _ & _ & _ & Hfresh). split; [apply HIn2|].
  intros i c Hi. rewrite lookup_deallocate, decide_False; [by apply HIn2|]. intros E.
  destruct (lookup_lt_is_Some_2 cs i) as [d Hd]; [rewrite <- Hl; by eapply lookup_lt_Some|].
  assert (Hm := proj2 HIn i d Hd). by rewrite Hfresh in Hm.
Qed.
End scratch.

(** ** Counting sort of a sequence *)

Section counting_sort.
Context `{Schedule} {T : Type} (sizeof num_threads : nat) (key : T -> nat).
Implicit Types (m : mem T) (xs ys : list T).

(** Where the buckets start, and the number of elements *)
Definition bucket_starts xs (n : nat) : list nat := (fun b => length (List.filter (fun x => key x <? b) xs)) <$> seq 0 (n + 1).

Lemma start_filter xs b : start (key <$> xs) b = length (List.filter (fun x => key x <? b) xs).
Proof.
  unfold start. induction xs as [|x xs IH]; [done|]. rewrite !fmap_cons, count_true_cons, IH. simpl. by destruct (key x <? b).
Qed.

Lemma offsets_starts xs n : offsets_of (key <$> xs) n = bucket_starts xs n.
Proof. unfold offsets_of, bucket_starts. apply list_fmap_ext. intros i b _. apply start_filter. Qed.

Lemma element_keys_left tag In Out xs n m0 : keys_left tag In Out xs (key <$> xs) n m0 (element_keys In key).
Proof.
  intros d m p k (_ & HIn & _) Hp Hk. apply list_lookup_fmap_Some in Hk as (x & -> & Hx). unfold element_keys.
  rewrite (holds_read _ _ _ _ x HIn); [done|]. by apply lookup_marked.
Qed.

Lemma count_sort_ok tag In Out xs n skip m : constructs tag = true -> apart [In] [Out] ->
  holds In (Some <$> xs) m -> holds Out (replicate (length xs) None) m -> Forall (fun x => key x < n) xs -> size_t (length xs) ->
  ok (count_sort sizeof num_threads tag In Out (element_keys In key) (length xs) n skip m)
    (count_sorted tag In Out xs (key <$> xs) n m skip).
Proof.
  intros Ht Hap HIn HOut Hn Hsz. unfold count_sort. rewrite (holds_size _ _ _ HIn), (holds_size _ _ _ HOut), length_fmap, length_replicate.
  rewrite Nat.eqb_refl. simpl. apply count_sort__ok; try done.
  - by rewrite length_fmap.
  - by apply Forall_fmap.
  - apply element_keys_left.
  - by rewrite length_fmap.
Qed.

(** C38: counting sort, for every schedule and number of blocks.  If every key is below [num_buckets],
    [counting_sort] leaves its input alone and returns a new sequence with the stable sort of its elements by
    key, and where each bucket starts (at the end the number of elements); [counting_sort_inplace] puts the
    same sequence where the input was, by moving elements only, returns its scratch memory and changes
    nothing else.  Elements that are trivially relocatable have at most 8192 bytes (beyond, the
    in-place sort divides by zero). *)
Theorem counting_sort_correct (trivially_relocatable : bool) (memcpy_in_place : slice -> mem T -> res (mem T)) In xs n m :
  fits_chunk sizeof trivially_relocatable -> holds In (Some <$> xs) m -> Forall (fun x => key x < n) xs -> size_t (length xs) ->
  ok (counting_sort sizeof num_threads In n key m) (fun '(Out, offsets, m') => exists ys, sorts key xs ys /\
    holds Out (Some <$> ys) m' /\ offsets = Some <$> bucket_starts xs n /\
    holds In (Some <$> xs) m' /\ forall p, p.1 <> arr Out -> m' !! p = m !! p) /\
  ok (counting_sort_inplace sizeof num_threads trivially_relocatable memcpy_in_place In n key m) (fun '(offsets, m') => exists ys, sorts key xs ys /\
    holds In (Some <$> ys) m' /\ offsets = Some <$> bucket_starts xs n /\
    forall p, ~ in_slice p In -> m' !! p = m !! p).
Proof.
  intros Hf HIn Hn Hsz. assert (slice_size In = length xs) as HsI by (by rewrite (holds_size _ _ _ HIn), length_fmap).
  assert (Hys := by_buckets_sorts key xs n Hn). set (ys := by_buckets xs (key <$> xs) n) in *.
  assert (length ys = length xs) as Hly by (destruct Hys as (_ & Hp & _); by rewrite Hp).
  unfold counting_sort, count_sort_copy, counting_sort_inplace, count_sort_inplace. rewrite HsI.
  destruct (allocate (length xs) m) as [B m1] eqn:Ha. destruct (allocate_spec _ _ _ _ Ha) as (HB & HsB & Hother & Hsame & Hfresh).
  destruct (Hother _ _ HIn) as [Hap HIn1]. split; apply ok_bind.
  - eapply ok_mono; [by apply (count_sort_ok uninitialized_copy_tag)|]. intros [[a one] m2] [-> Hm2].
    destruct one; [by destruct Hm2 as [? _]|]. destruct Hm2 as (Hs2 & HIn2 & HB2). apply ok_ret. exists ys. split; [done|]. split; [done|].
    split; [by rewrite offsets_starts|]. assert (holds In (Some <$> xs) m2) as HIn3 by (by rewrite (list_fmap_ext _ Some) in HIn2).
    split; [done|]. intros p Hp. destruct (decide (in_slice p In)) as [Hi|Hni]; [by eapply holds_same_cells|].
    rewrite Hs2; [by apply Hsame|]. rewrite !covers_cons. intros [Hc|[Hc|Hc]]; [done|by apply Hp, Hc|by apply covers_nil in Hc].
  - eapply ok_mono; [by apply (count_sort_ok uninitialized_relocate_tag)|]. intros [[a one] m2] [-> Hm2].
    destruct one; [by destruct Hm2 as [? _]|]. destruct Hm2 as (Hs2 & HIn2 & HB2). rewrite left_over_relocate, <- Hly in HIn2.
    apply ok_bind. eapply ok_mono; [apply (relocate_ok sizeof trivially_relocatable memcpy_in_place B In ys); [done|by apply apart_sym|by split]|]. intros m3 (Hs3 & _ & HIn3).
    apply ok_ret. exists ys. split; [done|]. split; [|split; [by rewrite offsets_starts|]].
    + eapply scratch_holds; [exact Ha|exact HIn|done|]. by rewrite !length_fmap.
    + intros p Hp. apply (scratch_same _ _ _ _ _ _ m3 Ha HIn).
      * eapply same_outside_trans; [exact Hs2|]. eapply same_outside_mono, Hs3. intros q. rewrite !covers_cons. tauto.
      * rewrite covers_cons. intros [Hc|Hc]; [done|by apply covers_nil in Hc].
Qed.
End counting_sort.

(** 5, 3 and 4 by their remainders modulo 4 *)
Lemma counting_sort_correct_witness : exists Out m', @counting_sort backwards nat 8 4 ex_slice 4 (fun x => x mod 4) ex_mem = Ok (Out, Some <$> [0; 1; 2; 2; 3], m') /\
  holds Out (Some <$> [4; 5; 3]) m' /\ holds ex_slice (Some <$> [5; 3; 4]) m'.
Proof.
  destruct (@counting_sort_correct backwards nat 8 4 (fun x => x mod 4) true (fun _ _ => Err BadPtr) ex_slice [5; 3; 4] 4 ex_mem) as [H1 _];
    [intros _; unfold chunk_bytes; lia|exact ex_holds|by repeat constructor|done|].
  destruct H1 as ([[Out offsets] m'] & He & ys & Hys & HOut & Ho & HIn & _). exists Out, m'. rewrite He, Ho. split; [done|]. split; [|done].
  assert (ys = [4; 5; 3]) as <-; [|done]. apply (stable_sort_unique (fun x => x mod 4) [5; 3; 4]); [done|].
  split; [|split].
  - unfold sorted_by. repeat constructor; apply le_before, Nat.leb_le; done.
  - by rewrite (Permutation_cons_append [5; 3] 4).
  - intros z. cbn [List.filter]. rewrite !equiv_before. cbv beta. generalize (z mod 4) as k. by intros [|[|[|[|k]]]].
Defined.
