(* ===== verification/IntegerSort.v ===== *)
(** * Integer sort

    [src/lib/parlay/internal/integer_sort.h], on the memory of [ParMem]: a radix sort that
    goes from the high digits to the low ones, in parallel, down to a sequential one that goes
    the other way.  Elements move back and forth between the input and scratch space.  Keys
    are natural numbers ([g] returns an unsigned integer); the share of the processors that a
    call has, a [float] that only chooses between the two sorts, is a class ([Parallelism]).
    The theorem: it sorts stably ([integer_sort_correct]).  [fuel] is one more than the bits
    left.  Three conditions are needed.  Fewer elements than the base case, or elements that can be
    relocated by copying bytes and a [memcpy] that leaves bytes alone that are copied to where
    they are, which C leaves undefined: otherwise the sort can relocate elements onto themselves
    ([integer_sort_self_relocation]).  Elements of at most 8192 bytes, if they are relocated by
    copying bytes ([MemRelocation]).  And no key that is the greatest [size_t], if the number
    of bits is not given ([greatest_key_wraps]).  The offsets that [integer_sort_r] returns if
    [num_buckets] is positive are in the definition; the theorems are about [num_buckets == 0],
    which is what the sorts pass. *)

From Stdlib Require Import Sorted.
From S2P Require Import Prelude.
From stdpp Require Import list.
From S2P Require Import ParArray ParMem Monoid SequenceOps Merge PrimitivesSpec MemRelocation CountingSort.

#[local] Open Scope nat_scope.

(** ** The program *)

Definition radix : nat := 8.
Definition max_buckets : nat := Nat.shiftl 1 radix.

(** [log2_up] of [utilities.h]; a [size_t] has 64 bits. *)
Fixpoint count_bits (fuel : nat) (b a : nat) : nat :=
  match fuel with
  | 0 => a
  | S fuel => if 0 <? b then count_bits fuel (Nat.shiftr b 1) (a + 1) else a
  end.
Definition log2_up (i : nat) : res nat := _ ← assert (0 <? i); Ok (count_bits 64 (i - 1) 0).

(** The share of the processors that a call has: a [float] *)
Class Parallelism := {
  float : Type;
  whole : float;
  (** [(parallelism * static_cast<float>(k)) / static_cast<float>(n + 1)] *)
  share : float -> nat -> nat -> float;
  (** [parallelism < .0001] *)
  negligible : float -> bool
}.

Section program.
Context `{Schedule, Parallelism} {T : Type} (sizeof num_threads : nat).
(** How elements are relocated ([MemRelocation]), and [PARLAY_INTEGER_SORT_BASE_CASE_SIZE] *)
Context (trivially_relocatable : bool) (memcpy_in_place : slice -> mem T -> res (mem T)) (base_case : nat).
Implicit Types (m : mem T) (g : T -> nat).

Abbreviation relocate := (uninitialized_relocate sizeof trivially_relocatable memcpy_in_place) (only parsing).

(** [(g(x) >> bit_offset) & mask] *)
Definition digit g (bit_offset mask : nat) (x : T) : nat := Nat.land (Nat.shiftr (g x) bit_offset) mask.

(** The rounds of [seq_radix_sort_]; at most [bits] of them *)
Fixpoint radix_rounds (fuel : nat) (In Out : slice) g (bits bit_offset : nat) (swapped : bool) (counts : array nat) (m : mem T) : res (bool * mem T) :=
  match fuel with
  | 0 => Err OutOfFuel
  | S fuel =>
      if bits =? 0 then Ok (swapped, m)
      else
        let round_bits := Nat.min radix bits in
        let num_buckets := Nat.shiftl 1 round_bits in
        let mask := num_buckets - 1 in
        let '(from, to) := if swapped then (Out, In) else (In, Out) in
        '(counts, m) ← seq_count_sort_ uninitialized_relocate_tag from to (element_keys from (digit g bit_offset mask)) counts num_buckets m;
        radix_rounds fuel In Out g (bits - round_bits) (bit_offset + round_bits) (negb swapped) counts m
  end.

Definition seq_radix_sort_ (In Out : slice) g (bits : nat) (inplace : bool) (m : mem T) : res (mem T) :=
  if slice_size In =? 0 then Ok m
  else
    '(swapped, m) ← radix_rounds (bits + 1) In Out g bits 0 false (uninitialized (max_buckets + 1)) m;
    if (swapped : bool) && inplace then relocate Out In m
    else if negb swapped && negb inplace then relocate In Out m
    else Ok m.

Definition is_relocate (tag : assignment_tag) : bool := match tag with uninitialized_relocate_tag => true | _ => false end.

(** [if constexpr (is_same_v<assignment_tag, uninitialized_relocate_tag>)]: relocation or a loop of copies *)
Definition transfer (tag : assignment_tag) (A R : slice) (m : mem T) : res (mem T) :=
  if is_relocate tag then relocate A R m
  else for_ 0 (slice_size A) (fun i m => assign_dispatch uninitialized_copy_tag (nth R i) (nth A i) m) m.

Definition seq_radix_sort (inplace : bool) (tag : assignment_tag) (In Out Tmp : slice) g (key_bits : nat) (m : mem T) : res (mem T) :=
  if inplace then seq_radix_sort_ In Out g key_bits true m
  else
    let odd := Nat.odd ((key_bits - 1) / radix) in
    if odd then m ← transfer tag In Tmp m; seq_radix_sort_ Tmp Out g key_bits false m
    else m ← transfer tag In Out m; seq_radix_sort_ Out Tmp g key_bits true m.

Definition base_bits (n : nat) : res nat :=
  let sz := N.to_nat (2 * N.of_nat sizeof * N.of_nat n / 1000000) in
  b ← (if 0 <? sz then log2_up sz else Ok 0); Ok (Nat.max 8 (Nat.min 13 b)).

(** The recursion is on fewer bits.  The result is the offsets of the buckets, if they are asked for. *)
Fixpoint integer_sort_r (fuel : nat) (inplace : bool) (tag : assignment_tag) (In Out Tmp : slice) g (key_bits num_buckets : nat)
    (parallelism : float) (m : mem T) : res (array nat * mem T) :=
  match fuel with
  | 0 => Err OutOfFuel
  | S fuel =>
      let n := slice_size In in
      base_bits ← base_bits n;
      let return_offsets := 0 <? num_buckets in
      if key_bits =? 0 then
        m ← (if inplace then Ok m
             else if is_relocate tag then relocate In Out m
             else parallel_for 0 n (fun i m => assign_dispatch uninitialized_copy_tag (nth Out i) (nth In i) m) 0 m);
        Ok ([], m)
      else if ((n <? base_case) || negligible parallelism) && negb return_offsets then
        m ← seq_radix_sort inplace tag In Out Tmp g key_bits m; Ok ([], m)
      else if key_bits <=? base_bits then
        let mask := Nat.shiftl 1 key_bits - 1 in
        let num_bkts := if num_buckets =? 0 then Nat.shiftl 1 key_bits else num_buckets in
        '(offsets, one_bucket, m) ← count_sort sizeof num_threads tag In Out (element_keys In (fun x => Nat.land (g x) mask)) n num_bkts inplace m;
        m ← (if inplace && negb one_bucket then relocate Out In m else Ok m);
        Ok (if return_offsets then offsets else [], m)
      else
        let shift_bits := key_bits - 8 in
        let num_outer_buckets := Nat.shiftl 1 8 in
        let num_inner_buckets := if return_offsets then Nat.shiftl 1 shift_bits else 0 in
        let mask := num_outer_buckets - 1 in
        '(offsets, one_bucket, m) ← count_sort sizeof num_threads tag In Out (element_keys In (digit g shift_bits mask)) n num_outer_buckets
          (negb return_offsets) m;
        if (one_bucket : bool) then integer_sort_r fuel inplace tag In Out Tmp g shift_bits 0 parallelism m
        else
          inner_offsets ← (if return_offsets then assign_uninitialized (Some <$> replicate (num_buckets + 1) 0) num_buckets n else Ok []);
          parallel_for 0 num_outer_buckets (fun i '(inner_offsets, m) =>
            start ← get offsets i; end_ ← get offsets (i + 1);
            let a := scut Out start end_ in
            let b := scut Tmp start end_ in
            '(r, m) ← integer_sort_r fuel (negb inplace) uninitialized_relocate_tag a b a g shift_bits num_inner_buckets
              (share parallelism (end_ - start) n) m;
            inner_offsets ← (if return_offsets then
                let bstart := Nat.min (i * num_inner_buckets) num_buckets in
                let bend := Nat.min ((i + 1) * num_inner_buckets) num_buckets in
                for_ 0 (bend - bstart) (fun j inner_offsets => x ← get r j; assign_uninitialized inner_offsets (bstart + j) (start + x)) inner_offsets
              else Ok inner_offsets);
            Ok (inner_offsets, m)) 1 (inner_offsets, m)
  end.

Definition integer_sort_ (inplace : bool) (tag : assignment_tag) (In Out Tmp : slice) g (bits num_buckets : nat) (m : mem T) : res (array nat * mem T) :=
  bits ← (if bits =? 0
          then max ← reduce (pure_monoid Nat.max 0) (delayed_tabulate (slice_size In) (fun i => x ← read (nth In i) m; Ok (g x))) no_flag;
               log2_up (size_add max 1)
          else Ok bits);
  integer_sort_r (bits + 1) inplace tag In Out Tmp g bits num_buckets whole m.

Definition integer_sort_inplace (In : slice) g (bits : nat) (m : mem T) : res (mem T) :=
  let '(Tmp, m) := allocate (slice_size In) m in
  '(_, m) ← integer_sort_ true uninitialized_relocate_tag In Tmp In g bits 0 m; Ok (deallocate Tmp m).

Definition integer_sort (In : slice) g (bits : nat) (m : mem T) : res (slice * mem T) :=
  let '(Out, m) := allocate (slice_size In) m in
  let '(Tmp, m) := allocate (slice_size In) m in
  '(_, m) ← integer_sort_ false uninitialized_copy_tag In Out Tmp g bits 0 m; Ok (Out, deallocate Tmp m).
End program.

(** ** Sorting by several digits *)

Section digits.
Context {T : Type}.
Implicit Types (key : T -> nat) (xs ys zs : list T).

Lemma sorts_perm key xs ys : sorts key xs ys -> ys ≡ₚ xs.
Proof. by intros (_ & ? & _). Qed.

Lemma sorts_length key xs ys : sorts key xs ys -> length ys = length xs.
Proof. by intros ->%sorts_perm. Qed.

Lemma filter_same (P Q : T -> bool) xs : (forall x, P x = Q x) -> List.filter P xs = List.filter Q xs.
Proof. intros HPQ. induction xs as [|x xs IH]; [done|]. simpl. by rewrite HPQ, IH. Qed.

Lemma filter_twice (P Q : T -> bool) xs : List.filter P (List.filter Q xs) = List.filter (fun x => P x && Q x) xs.
Proof. induction xs as [|x xs IH]; [done|]. simpl. destruct (Q x); simpl; rewrite IH; by destruct (P x). Qed.

Lemma filter_comm (P Q : T -> bool) xs : List.filter P (List.filter Q xs) = List.filter Q (List.filter P xs).
Proof. rewrite !filter_twice. apply filter_same. intros x. apply andb_comm. Qed.

Lemma sorted_ext (k k' : T -> nat) xs : (forall x, k x = k' x) -> sorted_by (before k) xs -> sorted_by (before k') xs.
Proof.
  intros Hk. unfold sorted_by. induction 1 as [|x l _ IH Hx]; [constructor|]. constructor; [done|].
  eapply Forall_impl; [exact Hx|]. intros y. rewrite !le_before, !Hk. done.
Qed.

Lemma sorts_ext (k k' : T -> nat) xs ys : (forall x, k x = k' x) -> sorts k xs ys -> sorts k' xs ys.
Proof.
  intros Hk (HS & HP & HF). split; [by eapply sorted_ext|]. split; [done|].
  intros z. rewrite !(filter_same (equiv_by (before k') z) (equiv_by (before k) z)); [done|..]; intros x; by rewrite !equiv_before, !Hk.
Qed.

(** Only the keys of the elements matter. *)
Lemma sorts_on (k k' : T -> nat) xs ys : Forall (fun x => k x = k' x) xs -> sorts k xs ys -> sorts k' xs ys.
Proof.
  intros Hk (HS & HP & HF). rewrite Forall_forall in Hk.
  assert (forall x, x ∈ ys -> k x = k' x) as Hk' by (intros x Hx; apply Hk; by rewrite <- HP).
  assert (forall z l, (forall x, x ∈ l -> k x = k' x) -> k z = k' z ->
    List.filter (equiv_by (before k') z) l = List.filter (equiv_by (before k) z) l) as Hsame.
  { intros z l Hl Hz. apply List.filter_ext_in. intros x Hx%list_elem_of_In. by rewrite !equiv_before, Hz, Hl. }
  split; [|split; [done|]].
  - clear - HS Hk'. unfold sorted_by in *. induction HS as [|x l _ IH Hx]; [constructor|]. constructor; [apply IH; intros y Hy; apply Hk'; by right|].
    rewrite Forall_forall in Hx. apply Forall_forall. intros y Hy. assert (Hxy := Hx y Hy). rewrite !le_before in *.
    rewrite <- (Hk' x), <- (Hk' y); [done|by right|by left].
  - intros z. destruct (List.filter (equiv_by (before k') z) xs) as [|x l] eqn:Ex.
    + apply filter_none, Forall_forall. intros y Hy. rewrite HP in Hy. destruct (equiv_by (before k') z y) eqn:Ey; [|done].
      assert (List.In y []) as []. rewrite <- Ex. apply List.filter_In. split; [by apply list_elem_of_In|done].
    + assert (List.In x (List.filter (equiv_by (before k') z) xs)) as [Hx Hzx]%List.filter_In by (rewrite Ex; by left).
      rewrite equiv_before in Hzx. apply Nat.eqb_eq in Hzx. apply list_elem_of_In in Hx. rewrite <- Ex.
      assert (forall l, List.filter (equiv_by (before k') z) l = List.filter (equiv_by (before k') x) l) as Hzx'.
      { intros l'. apply filter_same. intros y. by rewrite !equiv_before, Hzx. }
      rewrite !Hzx', !Hsame by (done || by apply Hk). apply HF.
Qed.

(** With the same key everything is sorted. *)
Lemma sorts_const key xs : (forall x y, x ∈ xs -> y ∈ xs -> key x = key y) -> sorts key xs xs.
Proof.
  intros Hk. split; [|done]. unfold sorted_by. induction xs as [|x xs IH]; [constructor|]. constructor.
  - apply IH. intros y z Hy Hz. apply Hk; by right.
  - apply Forall_forall. intros y Hy. apply le_before. by rewrite (Hk x y); [|left|right].
Qed.

(** The key made of the digits [hi] and [lo] *)
Definition joined_key (C : nat) hi lo (x : T) : nat := hi x * C + lo x.

Section joined.
Context (C : nat) (hi lo : T -> nat) (Hlo : forall x, lo x < C).

Lemma joined_le x y : joined_key C hi lo x <= joined_key C hi lo y <-> hi x < hi y \/ (hi x = hi y /\ lo x <= lo y).
Proof using Hlo. unfold joined_key. assert (Hx := Hlo x). assert (Hy := Hlo y). nia. Qed.

Lemma joined_equiv z x : equiv_by (before (joined_key C hi lo)) z x = equiv_by (before lo) z x && equiv_by (before hi) z x.
Proof using Hlo.
  rewrite !equiv_before. unfold joined_key. assert (Hx := Hlo x). assert (Hz := Hlo z).
  destruct (Nat.eqb_spec (hi z) (hi x)) as [->|Hhi].
  - rewrite andb_true_r. destruct (Nat.eqb_spec (lo z) (lo x)), (Nat.eqb_spec (hi x * C + lo z) (hi x * C + lo x)); lia || done.
  - rewrite andb_false_r. apply Nat.eqb_neq. intros Heq. apply Hhi. nia.
Qed.

Lemma joined_sorted xs : sorted_by (before hi) xs -> (forall b, sorted_by (before lo) (with_key hi b xs)) -> sorted_by (before (joined_key C hi lo)) xs.
Proof using Hlo.
  unfold sorted_by. induction 1 as [|x l HS IH Hx]; intros Hb; [constructor|]. constructor.
  - apply IH. intros b. specialize (Hb b). unfold with_key in Hb. simpl in Hb. destruct (hi x =? b); [|done]. by apply StronglySorted_inv in Hb as [? _].
  - specialize (Hb (hi x)). unfold with_key in Hb. simpl in Hb. rewrite Nat.eqb_refl in Hb. apply StronglySorted_inv in Hb as [_ Hb].
    rewrite Forall_forall in Hx, Hb. apply Forall_forall. intros y Hy. apply le_before, joined_le.
    assert (Hxy := Hx y Hy). apply le_before in Hxy. destruct (decide (hi x = hi y)) as [Heq|Hne]; [right|left; lia]. split; [done|].
    apply le_before, Hb. apply (elem_of_with_key hi). by split.
Qed.

Lemma with_key_filter b xs z : hi z = b -> with_key hi b xs = List.filter (equiv_by (before hi) z) xs.
Proof using Type. intros <-. apply filter_same. intros x. rewrite equiv_before. apply Nat.eqb_sym. Qed.

(** From the low digit to the high one *)
Lemma sorts_compose xs ys zs : sorts lo xs ys -> sorts hi ys zs -> sorts (joined_key C hi lo) xs zs.
Proof using Hlo.
  intros (HS1 & HP1 & HF1) (HS2 & HP2 & HF2). split; [|split; [by rewrite HP2|]].
  - apply joined_sorted; [done|]. intros b. destruct (with_key hi b zs) as [|z l] eqn:Ez; [constructor|]. rewrite <- Ez.
    assert (hi z = b) as Hz by (apply (elem_of_with_key hi z b zs); rewrite Ez; left).
    rewrite (with_key_filter b zs z Hz), HF2. clear - HS1. unfold sorted_by in *.
    induction HS1 as [|y l _ IH Hy]; [constructor|]. simpl. destruct (equiv_by (before hi) z y); [|done]. constructor; [done|].
    rewrite Forall_forall in Hy. apply Forall_forall. intros x [Hx _]%list_elem_of_In%List.filter_In. by apply Hy, list_elem_of_In.
  - intros z. rewrite !(filter_same _ _ _ (joined_equiv z)), <- !filter_twice, HF2.
    by rewrite (filter_comm _ _ ys), (filter_comm _ _ xs), HF1.
Qed.

(** From the high digit to the low one: each bucket is sorted. *)
Lemma sorts_buckets xs n (zs : nat -> list T) : Forall (fun x => hi x < n) xs -> (forall b, b < n -> sorts lo (with_key hi b xs) (zs b)) ->
  sorts (joined_key C hi lo) xs (mjoin (zs <$> seq 0 n)).
Proof using Hlo.
  intros Hn Hz.
  assert (forall b x, b < n -> x ∈ zs b -> hi x = b) as Hin.
  { intros b x Hb Hx. rewrite (sorts_perm _ _ _ (Hz b Hb)) in Hx. by apply elem_of_with_key in Hx as [_ ?]. }
  split; [|split].
  - assert (forall s k, s + k <= n -> sorted_by (before (joined_key C hi lo)) (mjoin (zs <$> seq s k))) as Hall; [|by apply Hall].
    intros s k. revert s. induction k as [|k IH]; intros s Hs; [constructor|]. rewrite <- cons_seq, fmap_cons. change (mjoin (?x :: ?l)) with (x ++ mjoin l).
    apply sorted_app. split; [|split; [apply IH; lia|]].
    + assert (forall x, x ∈ zs s -> hi x = s) as Hs' by (intros x; apply Hin; lia). assert (Hz' := Hz s ltac:(lia)). destruct Hz' as (HS & _ & _).
      clear - HS Hs' Hlo. unfold sorted_by in *. induction HS as [|x l _ IH Hx]; [constructor|]. constructor; [apply IH; intros y Hy; apply Hs'; by right|].
      rewrite Forall_forall in Hx. apply Forall_forall. intros y Hy. apply le_before, joined_le. right.
      split; [rewrite (Hs' x), (Hs' y); [done|by right|by left]|by apply le_before, Hx].
    + intros x y Hx (l & Hy & Hl)%list_elem_of_join. apply list_elem_of_fmap in Hl as (b & -> & Hb%elem_of_seq).
      apply le_before, joined_le. left. rewrite (Hin s x), (Hin b y) by (done || lia). lia.
  - trans (mjoin ((fun b => with_key hi b xs) <$> seq 0 n)); [|by apply buckets_perm]. clear - Hz. assert (forall s k, s + k <= n -> mjoin (zs <$> seq s k) ≡ₚ mjoin ((fun b => with_key hi b xs) <$> seq s k)) as Hall; [|by apply Hall].
    intros s k. revert s. induction k as [|k IH]; intros s Hs; [done|]. rewrite <- cons_seq, !fmap_cons. simpl. rewrite IH by lia. f_equiv. apply (sorts_perm lo), Hz. lia.
  - intros z. rewrite (filter_same _ _ xs (joined_equiv z)), filter_join, <- list_fmap_compose.
    assert (forall b, b < n -> b <> hi z -> List.filter (equiv_by (before (joined_key C hi lo)) z) (zs b) = []) as Hnil.
    { intros b Hb Hne. apply filter_none, Forall_forall. intros x Hx. rewrite joined_equiv, (equiv_before hi), (Hin b x Hb Hx).
      destruct (Nat.eqb_spec (hi z) b); [lia|]. apply andb_false_r. }
    destruct (decide (hi z < n)) as [Hzn|Hzn].
    + trans (List.filter (equiv_by (before (joined_key C hi lo)) z) (zs (hi z))).
      * replace n with (hi z + (1 + (n - hi z - 1))) by lia. rewrite !seq_app, !fmap_app, !join_app. simpl.
        rewrite !join_none; [by rewrite !app_nil_r|..]; intros b Hb%elem_of_seq; apply Hnil; lia.
      * rewrite <- (filter_twice (equiv_by (before lo) z) (equiv_by (before hi) z) xs), <- (with_key_filter (hi z) xs z eq_refl).
        destruct (Hz (hi z) Hzn) as (_ & _ & <-). apply List.filter_ext_in. intros x Hx%list_elem_of_In.
        rewrite joined_equiv, (equiv_before hi), (Hin _ _ Hzn Hx), Nat.eqb_refl. apply andb_true_r.
    + rewrite join_none by (intros b Hb%elem_of_seq; apply Hnil; lia). symmetry. apply filter_none.
      eapply Forall_impl; [exact Hn|]. intros x Hx. simpl in Hx. rewrite (equiv_before hi). destruct (Nat.eqb_spec (hi z) (hi x)); [lia|]. apply andb_false_r.
Qed.
End joined.
End digits.

(** *** The sorted list *)

Section sorted_list.
Context {T : Type} (g : T -> nat).
Implicit Types (xs ys zs : list T).

(** The low bits of the key *)
Definition low (bits : nat) (x : T) : nat := g x mod 2 ^ bits.
(** The stable sort by them *)
Definition sort_by (key : T -> nat) (n : nat) xs : list T := mjoin ((fun b => with_key key b xs) <$> seq 0 n).
Definition low_sort (bits : nat) xs : list T := sort_by (low bits) (2 ^ bits) xs.

Lemma low_lt bits x : low bits x < 2 ^ bits.
Proof. apply Nat.mod_upper_bound. by apply Nat.pow_nonzero. Qed.

Lemma sort_by_buckets key n xs : sort_by key n xs = by_buckets xs (key <$> xs) n.
Proof. by rewrite by_buckets_with_key. Qed.

Lemma sort_by_sorts key n xs : Forall (fun x => key x < n) xs -> sorts key xs (sort_by key n xs).
Proof. intros Hn. rewrite sort_by_buckets. by apply by_buckets_sorts. Qed.

Lemma low_sort_sorts bits xs : sorts (low bits) xs (low_sort bits xs).
Proof. apply sort_by_sorts, Forall_forall. intros x _. apply low_lt. Qed.

Lemma low_sort_unique bits xs ys : sorts (low bits) xs ys -> ys = low_sort bits xs.
Proof. intros Hs. apply (stable_sort_unique (low bits) xs); [done|apply low_sort_sorts]. Qed.

Lemma length_low_sort bits xs : length (low_sort bits xs) = length xs.
Proof. eapply sorts_length, low_sort_sorts. Qed.

Lemma mask_ones r : Nat.shiftl 1 r - 1 = Nat.ones r.
Proof. rewrite Nat.shiftl_1_l, Nat.ones_equiv. lia. Qed.

Lemma land_mask r x : Nat.land (g x) (Nat.shiftl 1 r - 1) = low r x.
Proof. by rewrite mask_ones, Nat.land_ones. Qed.

Lemma digit_eq off r x : digit g off (Nat.shiftl 1 r - 1) x = (g x / 2 ^ off) mod 2 ^ r.
Proof. unfold digit. by rewrite mask_ones, Nat.land_ones, Nat.shiftr_div_pow2. Qed.

Lemma digit_lt off r x : digit g off (Nat.shiftl 1 r - 1) x < Nat.shiftl 1 r.
Proof. rewrite digit_eq, Nat.shiftl_1_l. apply Nat.mod_upper_bound. by apply Nat.pow_nonzero. Qed.

Lemma low_add off r x : low (off + r) x = joined_key (2 ^ off) (digit g off (Nat.shiftl 1 r - 1)) (low off) x.
Proof. unfold low, joined_key. rewrite digit_eq, Nat.pow_add_r, Nat.Div0.mod_mul_r. lia. Qed.

(** One round of the sort from the low digits to the high ones *)
Lemma low_sort_round off r xs :
  low_sort (off + r) xs = sort_by (digit g off (Nat.shiftl 1 r - 1)) (Nat.shiftl 1 r) (low_sort off xs).
Proof.
  symmetry. apply low_sort_unique. eapply sorts_ext; [symmetry; apply low_add|].
  eapply sorts_compose; [apply low_lt|apply low_sort_sorts|]. apply sort_by_sorts, Forall_forall. intros x _. apply digit_lt.
Qed.

(** The recursion of the sort from the high digits to the low ones *)
Lemma low_sort_buckets off r xs :
  low_sort (off + r) xs = mjoin ((fun b => low_sort off (with_key (digit g off (Nat.shiftl 1 r - 1)) b xs)) <$> seq 0 (Nat.shiftl 1 r)).
Proof.
  symmetry. apply low_sort_unique. eapply sorts_ext; [symmetry; apply low_add|].
  apply sorts_buckets; [apply low_lt|apply Forall_forall; intros x _; apply digit_lt|]. intros b _. apply low_sort_sorts.
Qed.

(** If the high digits are equal *)
Lemma low_sort_one off r d xs : Forall (fun x => digit g off (Nat.shiftl 1 r - 1) x = d) xs -> low_sort (off + r) xs = low_sort off xs.
Proof.
  intros Hd. symmetry. apply low_sort_unique. eapply sorts_ext; [symmetry; apply low_add|].
  eapply sorts_compose; [apply low_lt|apply low_sort_sorts|]. apply sorts_const. rewrite Forall_forall in Hd.
  intros x y Hx Hy. rewrite (sorts_perm _ _ _ (low_sort_sorts off xs)) in Hx, Hy. by rewrite (Hd x), (Hd y).
Qed.

Lemma low_sort_0 xs : low_sort 0 xs = xs.
Proof. symmetry. apply low_sort_unique, sorts_const. intros x y _ _. unfold low. by rewrite !Nat.mod_1_r. Qed.

(** The high bits do not matter if they are 0. *)
Lemma low_small bits x : g x < 2 ^ bits -> low bits x = g x.
Proof. apply Nat.mod_small. Qed.
End sorted_list.

(** ** The sequential radix sort *)

Abbreviation full A xs := (holds A (Some <$> xs)) (only parsing).
Abbreviation empty_for A xs := (holds A (replicate (length xs) None)) (only parsing).

Section radix_sort.
Context `{Schedule} {T : Type} (sizeof : nat) (trivially_relocatable : bool).
Context (memcpy_in_place : slice -> mem T -> res (mem T)) (Hfits : fits_chunk sizeof trivially_relocatable) (g : T -> nat).
Implicit Types (m : mem T) (xs ys : list T) (A R In Out Tmp : slice).

(** A counting sort moves everything. *)
Lemma count_step A R xs key n counts m : apart [A] [R] -> full A xs m -> empty_for R xs m -> Forall (fun x => key x < n) xs -> n <= length counts ->
  ok (seq_count_sort_ uninitialized_relocate_tag A R (element_keys A key) counts n m) (fun '(counts', m') =>
    length counts' = length counts /\ same_outside [A; R] m m' /\ empty_for A xs m' /\ full R (sort_by key n xs) m').
Proof.
  intros Hap HA HR Hn Hl.
  eapply ok_mono; [apply (seq_count_sort__ok uninitialized_relocate_tag eq_refl A R xs (key <$> xs) n m)|].
  - done.
  - by rewrite length_fmap.
  - by apply Forall_fmap.
  - done.
  - done.
  - apply element_keys_left.
  - done.
  - intros [counts' m'] (Hl' & _ & Hs & HA' & HR'). rewrite left_over_relocate in HA'. by rewrite sort_by_buckets.
Qed.

Lemma empty_length A xs ys m : length ys = length xs -> empty_for A xs m -> empty_for A ys m.
Proof. by intros ->. Qed.

Lemma covers_swap A R p : covers [A; R] p <-> covers [R; A] p.
Proof. rewrite !covers_cons. tauto. Qed.

Lemma same_outside_swap A R m m' : same_outside [A; R] m m' -> same_outside [R; A] m m'.
Proof. apply same_outside_mono. intros p. apply covers_swap. Qed.

(** After some rounds the elements are in [In] or [Out], sorted by their low digits. *)
Definition at_round In Out (swapped : bool) xs m : Prop :=
  if swapped then full Out xs m /\ empty_for In xs m else full In xs m /\ empty_for Out xs m.

Lemma radix_rounds_ok In Out xs off bits swapped counts fuel m : apart [In] [Out] -> bits < fuel -> max_buckets <= length counts ->
  at_round In Out swapped (low_sort g off xs) m ->
  ok (radix_rounds fuel In Out g bits off swapped counts m) (fun '(swapped', m') =>
    same_outside [In; Out] m m' /\ at_round In Out swapped' (low_sort g (off + bits) xs) m').
Proof.
  intros Hap. revert off bits swapped counts m. induction fuel as [|fuel IH]; intros off bits swapped counts m Hf Hl Hr; [lia|]. cbn [radix_rounds]. cbv zeta.
  destruct (Nat.eqb_spec bits 0) as [->|Hb]; [apply ok_ret; by rewrite Nat.add_0_r|].
  set (r := Nat.min radix bits). assert (0 < r <= 8 /\ r <= bits) as Hrb by (unfold r, radix; lia).
  assert (Nat.shiftl 1 r <= max_buckets) as Hmax.
  { unfold max_buckets, radix. rewrite !Nat.shiftl_1_l. apply Nat.pow_le_mono_r; lia. }
  set (from := if swapped then Out else In). set (to := if swapped then In else Out).
  assert ((if swapped then (Out, In) else (In, Out)) = (from, to)) as -> by (by destruct swapped).
  assert (apart [from] [to]) as Hap' by (unfold from, to; destruct swapped; [by apply apart_sym|done]).
  assert (full from (low_sort g off xs) m /\ empty_for to (low_sort g off xs) m) as [HA HR] by (unfold from, to; by destruct swapped).
  apply ok_bind. eapply ok_mono; [apply (count_step from to (low_sort g off xs)); [done|done|done| |]|].
  - apply Forall_forall. intros x _. apply digit_lt.
  - lia.
  - intros [counts' m'] (Hl' & Hs & HA' & HR'). rewrite <- low_sort_round in HR'.
    apply (empty_length _ _ (low_sort g (off + r) xs)) in HA'; [|by rewrite !length_low_sort].
    eapply ok_mono; [apply IH; [lia|lia|by destruct swapped]|].
    intros [swapped' m''] [Hs' Hr']. replace (off + bits) with (off + r + (bits - r)) by lia. split; [|done].
    eapply same_outside_trans, Hs'. unfold from, to in Hs. destruct swapped; [by apply same_outside_swap|done].
Qed.

Lemma seq_radix_sort__ok In Out xs bits inplace : apart [In] [Out] ->
  triple [In; Out] (fun m => full In xs m /\ empty_for Out xs m) (seq_radix_sort_ sizeof trivially_relocatable memcpy_in_place In Out g bits inplace)
    (at_round In Out (negb inplace) (low_sort g bits xs)).
Proof.
  intros Hap m [HIn HOut]. unfold seq_radix_sort_. assert (slice_size In = length xs) as -> by (by rewrite (holds_size _ _ _ HIn), length_fmap).
  destruct (Nat.eqb_spec (length xs) 0) as [->%length_zero_iff_nil|Hne].
  { apply ok_ret. split; [done|]. assert (low_sort g bits [] = []) as -> by (apply length_zero_iff_nil; by rewrite length_low_sort).
    by destruct inplace. }
  apply ok_bind. eapply ok_mono; [apply (radix_rounds_ok In Out xs 0 bits false); [done|lia|rewrite length_uninitialized; lia|]|].
  { by rewrite low_sort_0. }
  intros [swapped m1] [Hs1 Hr1]. simpl in Hr1. destruct swapped, inplace; simpl.
  - eapply ok_mono; [apply (relocate_ok sizeof trivially_relocatable memcpy_in_place Out In (low_sort g bits xs)); [done|by apply apart_sym|done]|].
    intros m2 [Hs2 [HOut2 HIn2]]. split; [|done]. by eapply same_outside_trans, same_outside_swap.
  - by apply ok_ret.
  - by apply ok_ret.
  - eapply ok_mono; [apply (relocate_ok sizeof trivially_relocatable memcpy_in_place In Out (low_sort g bits xs)); done|].
    intros m2 [Hs2 [HIn2 HOut2]]. split; [|done]. by eapply same_outside_trans.
Qed.
End radix_sort.

(** ** The modes of the sort *)

Section modes.
Context `{Schedule} {T : Type} (sizeof : nat) (trivially_relocatable : bool).
Context (memcpy_in_place : slice -> mem T -> res (mem T)) (Hfits : fits_chunk sizeof trivially_relocatable) (g : T -> nat).
Implicit Types (m : mem T) (xs ys : list T) (A R In Out Tmp : slice).

(** The comment on [integer_sort_r]: in place, the scratch space is [Out]; otherwise the elements are moved
    from [In], which is then the scratch space, or copied from it, and [Tmp] is the scratch space. *)
Definition mode (inplace : bool) (tag : assignment_tag) In Out Tmp : Prop :=
  apart [In] [Out] /\
  ((tag = uninitialized_relocate_tag /\ Tmp = In) \/
   (tag = uninitialized_copy_tag /\ inplace = false /\ apart [In] [Tmp] /\ apart [Out] [Tmp])).

Definition precondition (tag : assignment_tag) In Out Tmp xs m : Prop :=
  full In xs m /\ empty_for Out xs m /\ (is_relocate tag = false -> empty_for Tmp xs m).

(** [ys] is the result. *)
Definition postcondition (inplace : bool) (tag : assignment_tag) In Out Tmp xs ys m : Prop :=
  if inplace then full In ys m /\ empty_for Out xs m
  else full Out ys m /\ empty_for Tmp xs m /\ (is_relocate tag = false -> full In xs m).

Lemma mode_tag inplace tag In Out Tmp : mode inplace tag In Out Tmp -> constructs tag = true.
Proof. by intros [_ [[-> _]|[-> _]]]. Qed.

(** A loop that copies *)
Lemma copies_ok A R xs : apart [A] [R] ->
  triple [A; R] (fun m => full A xs m /\ empty_for R xs m)
    (for_ 0 (length xs) (fun i m => assign_dispatch uninitialized_copy_tag (nth R i) (nth A i) m)) (fun m => full A xs m /\ full R xs m).
Proof.
  intros Hap m [HA HR].
  eapply ok_mono; [apply (ok_for (fun i m' => same_outside [A; R] m m' /\ full A xs m' /\
    holds R ((Some <$> take i xs) ++ replicate (length xs - i) None) m'))|].
  - lia.
  - by rewrite take_0, Nat.sub_0_r.
  - intros i m' [_ Hi] (Hs & HA' & HR'). destruct (lookup_lt_is_Some_2 xs i Hi) as [x Hx].
    eapply ok_mono; [apply (dispatch_spec uninitialized_copy_tag A R (Some <$> xs) ((Some <$> take i xs) ++ replicate (length xs - i) None) m' i i x eq_refl Hap HA'); [by rewrite list_lookup_fmap, Hx|done|]|].
    + assert (length (Some <$> take i xs) = i) as Hi' by (rewrite length_fmap, length_take; lia).
      rewrite lookup_app_r, Hi', Nat.sub_diag by lia. apply lookup_replicate_2. lia.
    + intros m'' (Hs' & HA'' & HR''). split; [by eapply same_outside_trans|]. split.
      * rewrite list_insert_id in HA''; [done|]. by rewrite list_lookup_fmap, Hx.
      * rewrite Nat.add_1_r, (take_S_r _ _ _ Hx), fmap_app, <- app_assoc.
        assert (i = length (Some <$> take i xs) + 0) as Hi0 by (rewrite length_fmap, length_take; lia).
        rewrite Hi0 in HR'' at 1. rewrite insert_app_r in HR''. by replace (length xs - i) with (S (length xs - S i)) in HR'' by lia.
  - intros m' (Hs & HA' & HR'). split; [done|]. split; [done|]. by rewrite firstn_all, Nat.sub_diag, app_nil_r in HR'.
Qed.

Lemma transfer_copy A R xs : apart [A] [R] ->
  triple [A; R] (fun m => full A xs m /\ empty_for R xs m) (transfer sizeof trivially_relocatable memcpy_in_place uninitialized_copy_tag A R) (fun m => full A xs m /\ full R xs m).
Proof.
  intros Hap m [HA HR]. unfold transfer. simpl. rewrite (holds_size _ _ _ HA), length_fmap. by apply copies_ok.
Qed.

(** What is apart from the slices a command works on is left alone. *)
Lemma holds_others A R1 R2 cs m m' : holds A cs m -> same_outside [R1; R2] m m' -> apart [A] [R1] -> apart [A] [R2] -> holds A cs m'.
Proof.
  intros HA Hs H1 H2. eapply holds_same_outside; [exact HA|exact Hs|]. intros p Hp. assert (covers [A] p) as Hc by (apply covers_cons; by left).
  rewrite !covers_cons. intros [Hq|[Hq|Hq]]; [apply (H1 p Hc), covers_cons; by left|apply (H2 p Hc), covers_cons; by left|by apply covers_nil in Hq].
Qed.

Lemma same_outside_two (F : list slice) A R m m' : A ∈ F -> R ∈ F -> same_outside [A; R] m m' -> same_outside F m m'.
Proof.
  intros HA HR. apply same_outside_mono. intros p (s & Hs & Hp). exists s. split; [|done].
  by apply elem_of_cons in Hs as [->| ->%list_elem_of_singleton].
Qed.

(** The last steps of [seq_radix_sort]: sort between two slices, and then the elements are in the right one. *)
Lemma move_and_sort (F : list slice) (move : mem T -> res (mem T)) A R B xs bits inplace (P Q : mem T -> Prop) :
  triple [A; R] P move (fun m => full R xs m /\ empty_for B xs m /\ Q m) -> apart [R] [B] -> A ∈ F -> R ∈ F -> B ∈ F ->
  (forall m m', same_outside [R; B] m m' -> Q m -> Q m') ->
  triple F P (fun m => m ← move m; seq_radix_sort_ sizeof trivially_relocatable memcpy_in_place R B g bits inplace m)
    (fun m => full (if inplace then R else B) (low_sort g bits xs) m /\ empty_for (if inplace then B else R) xs m /\ Q m).
Proof.
  intros Hmove Hap HA HR HB HQ m HP. apply ok_bind. eapply ok_mono; [by apply Hmove|]. intros m1 [Hs1 (H1 & H2 & H3)].
  eapply ok_mono; [by apply (seq_radix_sort__ok sizeof trivially_relocatable memcpy_in_place Hfits g R B xs bits inplace)|]. intros m2 [Hs2 Hr].
  assert (Hl := length_low_sort g bits xs). split; [|split; [|split; [|by eapply HQ]]].
  - eapply same_outside_trans; [by apply (same_outside_two F A R)|by apply (same_outside_two F R B)].
  - by destruct inplace, Hr.
  - destruct inplace, Hr; by eapply empty_length.
Qed.

Lemma seq_radix_sort_ok inplace tag In Out Tmp xs bits : mode inplace tag In Out Tmp ->
  stays_in_place trivially_relocatable memcpy_in_place \/ inplace = true \/ is_relocate tag = false ->
  triple [In; Out; Tmp] (precondition tag In Out Tmp xs) (seq_radix_sort sizeof trivially_relocatable memcpy_in_place inplace tag In Out Tmp g bits)
    (postcondition inplace tag In Out Tmp xs (low_sort g bits xs)).
Proof.
  intros [Hap Hmode] Htriv. assert (In ∈ [In; Out; Tmp] /\ Out ∈ [In; Out; Tmp] /\ Tmp ∈ [In; Out; Tmp]) as (HI & HO & HT) by (repeat split; set_solver).
  unfold seq_radix_sort. destruct inplace.
  { destruct Hmode as [[-> ->]|(_ & ? & _)]; [|done]. intros m (HIn & HOut & _).
    eapply ok_mono; [by apply (seq_radix_sort__ok sizeof trivially_relocatable memcpy_in_place Hfits g In Out xs bits true)|].
    intros m' [Hs [H1 H2]]. split; [by apply (same_outside_two _ In Out)|]. split; [done|]. eapply empty_length, H2. symmetry. apply length_low_sort. }
  unfold precondition, postcondition. destruct Hmode as [[-> ->]|(-> & _ & Hap1 & Hap2)]; simpl.
  - destruct Htriv as [Htriv|[?|?]]; [|done..]. unfold transfer. simpl. destruct (Nat.odd _).
    + eapply triple_conseq; [apply (move_and_sort [In; Out; In] _ In In Out xs bits false (fun m => full In xs m /\ empty_for Out xs m) (fun _ => True)); try done|done|simpl; naive_solver|simpl; naive_solver].
      intros m [HIn HOut]. rewrite relocate_self by done. by apply ok_ret.
    + eapply triple_conseq; [apply (move_and_sort [In; Out; In] _ In Out In xs bits true (fun m => full In xs m /\ empty_for Out xs m) (fun _ => True)); try done|done|simpl; naive_solver|simpl; naive_solver].
      * eapply triple_conseq; [by apply (relocate_ok sizeof trivially_relocatable memcpy_in_place In Out xs)|done|done|simpl; naive_solver].
      * by apply apart_sym.
  - assert (forall R, apart [In] [R] -> forall B, apart [B] [In] -> apart [B] [R] ->
      triple [In; R] (fun m => full In xs m /\ empty_for R xs m /\ empty_for B xs m) (transfer sizeof trivially_relocatable memcpy_in_place uninitialized_copy_tag In R)
        (fun m => full R xs m /\ empty_for B xs m /\ full In xs m)) as Hcopy.
    { intros R HR B HB1 HB2 m (H1 & H2 & H3). eapply ok_mono; [by apply (transfer_copy In R xs)|]. intros m' [Hs [H4 H5]].
      split; [done|]. split; [done|]. split; [|done]. by eapply holds_others. }
    destruct (Nat.odd _).
    + eapply triple_conseq; [apply (move_and_sort [In; Out; Tmp] _ In Tmp Out xs bits false (fun m => full In xs m /\ empty_for Tmp xs m /\ empty_for Out xs m) (full In xs)); try done|done|simpl; naive_solver|simpl; naive_solver].
      * apply Hcopy; [done|by apply apart_sym|done].
      * by apply apart_sym.
      * intros m m' Hs HIn. by eapply holds_others.
    + eapply triple_conseq; [apply (move_and_sort [In; Out; Tmp] _ In Out Tmp xs bits true (fun m => full In xs m /\ empty_for Out xs m /\ empty_for Tmp xs m) (full In xs)); try done|done|simpl; naive_solver|simpl; naive_solver].
      * apply Hcopy; [done|by apply apart_sym|by apply apart_sym].
      * intros m m' Hs HIn. by eapply holds_others.
Qed.
End modes.

(** ** Pieces of a slice, one for each bucket *)

Section pieces.
Context {T : Type}.
Implicit Types (m : mem T) (A R : slice) (ws vs : nat -> list T).

Definition piece A ws (b : nat) : slice := scut A (offset ws b) (offset ws (S b)).

Lemma offset_mono ws a b : a <= b -> offset ws a <= offset ws b.
Proof. induction 1 as [|b _ IH]; [done|]. rewrite offset_S. lia. Qed.

Lemma offset_ext ws vs b : (forall a, length (vs a) = length (ws a)) -> offset vs b = offset ws b.
Proof. intros Hl. induction b as [|b IH]; [done|]. by rewrite !offset_S, IH, Hl. Qed.

Lemma piece_ext A ws vs b : (forall a, length (vs a) = length (ws a)) -> piece A vs b = piece A ws b.
Proof. intros Hl. unfold piece. by rewrite !(offset_ext ws vs). Qed.

Lemma lookup_join_inv {X} (ws : nat -> list X) n i x : mjoin (ws <$> seq 0 n) !! i = Some x ->
  exists b j, b < n /\ i = offset ws b + j /\ ws b !! j = Some x.
Proof.
  induction n as [|n IH]; [done|]. rewrite seq_S, fmap_app, join_app. simpl. rewrite app_nil_r.
  intros [Hx|[Hle Hx]]%lookup_app_Some.
  - destruct (IH Hx) as (b & j & Hb & ? & ?). exists b, j. split; [lia|done].
  - exists n, (i - length (mjoin (ws <$> seq 0 n))). split; [lia|]. split; [unfold offset; lia|done].
Qed.

Lemma holds_pieces (f : T -> option T) A ws n m : holds A (f <$> mjoin (ws <$> seq 0 n)) m <->
  s_end A = s_begin A + offset ws n /\ forall b, b < n -> holds (piece A ws b) (f <$> ws b) m.
Proof.
  unfold holds at 1. rewrite length_fmap. change (length (mjoin (ws <$> seq 0 n))) with (offset ws n). split.
  - intros [He Hm]. split; [done|]. intros b Hb. split; [rewrite length_fmap; simpl; rewrite offset_S; lia|].
    intros i c (x & -> & Hx)%list_lookup_fmap_Some.
    rewrite <- (Hm (offset ws b + i)); [unfold nth, piece; simpl; do 2 f_equal; lia|].
    by rewrite list_lookup_fmap, (lookup_join_offset _ _ _ _ _ Hb Hx).
  - intros [He Hm]. split; [done|]. intros i c (x & -> & Hx)%list_lookup_fmap_Some.
    destruct (lookup_join_inv _ _ _ _ Hx) as (b & j & Hb & -> & Hj). rewrite <- (proj2 (Hm b Hb) j); [unfold nth, piece; simpl; do 2 f_equal; lia|].
    by rewrite list_lookup_fmap, Hj.
Qed.

Lemma pieces_empty A ws n m : holds A (replicate (length (mjoin (ws <$> seq 0 n))) None) m <->
  s_end A = s_begin A + offset ws n /\ forall b, b < n -> empty_for (piece A ws b) (ws b) m.
Proof.
  rewrite <- (const_fmap (fun _ => None) (mjoin (ws <$> seq 0 n)) None), holds_pieces by done.
  split; intros [He Hb]; (split; [done|]); intros b Hbn; [rewrite <- (const_fmap (fun _ => None)) by done|rewrite (const_fmap (fun _ => None) _ None) by done]; by apply Hb.
Qed.

Lemma in_piece A ws n b p : s_end A = s_begin A + offset ws n -> b < n -> in_slice p (piece A ws b) -> in_slice p A.
Proof.
  intros He Hb [Ha Hp]. split; [done|]. simpl in Hp. assert (Hm := offset_mono ws (S b) n ltac:(lia)). lia.
Qed.

Lemma pieces_apart A ws b c p : b <> c -> in_slice p (piece A ws b) -> ~ in_slice p (piece A ws c).
Proof.
  intros Hne [_ Hp] [_ Hq]. simpl in Hp, Hq. destruct (Nat.lt_trichotomy b c) as [Hlt|[?|Hlt]]; [|done|].
  - assert (Hm := offset_mono ws (S b) c Hlt). lia.
  - assert (Hm := offset_mono ws (S c) b Hlt). lia.
Qed.

(** Iterations that change different slices *)
Lemma triple_parallel `{Schedule} {X} (x : X) (F : nat -> list slice) (G : list slice) (P Q : nat -> mem T -> Prop) N body k :
  (forall b m, b < N -> P b m -> ok (body b (x, m)) (fun '(y, m') => y = x /\ same_outside (F b) m m' /\ Q b m')) ->
  (forall b c, b < N -> c < N -> b <> c -> apart (F b) (F c)) -> (forall b p, b < N -> covers (F b) p -> covers G p) ->
  (forall b, stable (F b) (P b)) -> (forall b, stable (F b) (Q b)) ->
  forall m, (forall b, b < N -> P b m) ->
  ok (parallel_for 0 N body k (x, m)) (fun '(y, m') => y = x /\ same_outside G m m' /\ forall b, b < N -> Q b m').
Proof.
  intros Hbody Hap HG HP HQ m Hm.
  eapply ok_mono; [apply (ok_parallel_for (fun d '(y, m') => y = x /\ same_outside G m m' /\
    forall b, b < N -> (b ∈ d -> Q b m') /\ (b ∉ d -> P b m')))|].
  - split; [done|]. split; [done|]. intros b Hb. split; [by intros ?%not_elem_of_nil|by intros _; apply Hm].
  - intros d i [y m1] [_ Hi] Hd (-> & Hs & Hb1). eapply ok_mono; [apply Hbody; [done|by apply Hb1]|].
    intros [y m2] (-> & Hs2 & HQ2). split; [done|]. split; [eapply same_outside_trans; [exact Hs|]; eapply same_outside_mono, Hs2; by intros p; apply HG|].
    intros b Hb. destruct (decide (b = i)) as [->|Hne].
    { split; [done|]. intros Hni. exfalso. apply Hni, elem_of_app. right. by left. }
    assert (same_on (F b) m1 m2) as Hon by (intros p Hp; apply Hs2; intros Hq; by apply (Hap b i Hb Hi Hne p Hp)).
    split.
    + intros [Hbd|?%list_elem_of_singleton]%elem_of_app; [|done]. eapply HQ; [exact Hon|]. by apply Hb1.
    + intros Hni. eapply HP; [exact Hon|]. apply Hb1; [done|]. intros Hbd. apply Hni, elem_of_app. by left.
  - intros [y m1] (d & Hd & -> & Hs & Hb1). split; [done|]. split; [done|]. intros b Hb. apply Hb1; [done|]. rewrite Hd. apply elem_of_seq. lia.
Qed.
End pieces.

(** ** The recursive radix sort *)

Lemma count_bits_spec fuel b a : b < 2 ^ fuel -> exists k, count_bits fuel b a = a + k /\ b < 2 ^ k /\ k <= fuel.
Proof.
  revert b a. induction fuel as [|fuel IH]; intros b a Hb; simpl.
  - exists 0. simpl in *. lia.
  - destruct (Nat.ltb_spec 0 b) as [Hpos|Hz].
    + rewrite Nat.div2_div. destruct (IH (b / 2) (a + 1)) as (k & -> & Hk & Hf).
      { apply Nat.Div0.div_lt_upper_bound. simpl in Hb. lia. }
      exists (S k). split; [lia|]. split; [|lia]. assert (Hd := Nat.div_mod b 2 ltac:(lia)). assert (Hm := Nat.mod_upper_bound b 2 ltac:(lia)).
      simpl. lia.
    + exists 0. simpl. lia.
Qed.

(** [2 ^ log2_up(i)] is at least [i]. *)
Lemma log2_up_spec i : 0 < i -> i - 1 < 2 ^ 64 -> exists k, log2_up i = Ok k /\ i <= 2 ^ k /\ k <= 64.
Proof.
  intros Hi Hb. unfold log2_up. apply Nat.ltb_lt in Hi as Hib. rewrite Hib. cbn [assert mbind res_bind].
  destruct (count_bits_spec 64 (i - 1) 0 Hb) as (k & -> & Hk & Hf). exists k. split; [done|]. split; [lia|done].
Qed.

Lemma covers_two (A R : slice) (p : addr) : covers [A; R] p <-> in_slice p A \/ in_slice p R.
Proof. rewrite !covers_cons. split; [intros [?|[?|Hc]]; [by left|by right|by apply covers_nil in Hc]|tauto]. Qed.

Section recursive.
Context `{Schedule, Parallelism} {T : Type} (sizeof num_threads : nat).
Context (trivially_relocatable : bool) (memcpy_in_place : slice -> mem T -> res (mem T)) (base_case : nat) (g : T -> nat).
Context (Hfits : fits_chunk sizeof trivially_relocatable).
Implicit Types (m : mem T) (xs ys : list T) (A R In Out Tmp : slice).

(** Whatever the size of the elements, the few bits of one counting sort are at least a digit. *)
Lemma base_bits_spec n : exists b, base_bits sizeof n = Ok b /\ 8 <= b.
Proof.
  unfold base_bits. generalize (N.to_nat (2 * N.of_nat sizeof * N.of_nat n / 1000000)) as sz. intros sz.
  destruct (Nat.ltb_spec 0 sz) as [Hpos|_]; [|by eexists; split; [done|lia]].
  unfold log2_up. apply Nat.ltb_lt in Hpos as ->. cbn [assert mbind res_bind]. eexists. split; [done|lia].
Qed.

(** Copies in parallel *)
Lemma copy_all In Out xs : apart [In] [Out] ->
  triple [In; Out] (fun m => full In xs m /\ empty_for Out xs m)
    (fun m => parallel_for 0 (length xs) (fun i m => assign_dispatch uninitialized_copy_tag (nth Out i) (nth In i) m) 0 m)
    (fun m => full In xs m /\ full Out xs m).
Proof.
  intros Hap m Hm. eapply ok_mono; [by apply (dispatch_parallel uninitialized_copy_tag eq_refl In Out xs 0)|].
  intros m' [Hs [HIn HOut]]. split; [done|]. split; [|done]. by rewrite (list_fmap_ext _ Some) in HIn.
Qed.

Lemma sort_by_ext (key key' : T -> nat) n xs : (forall x, key x = key' x) -> sort_by key n xs = sort_by key' n xs.
Proof. intros Hk. unfold sort_by. f_equal. apply list_fmap_ext. intros i b _. apply filter_same. intros x. by rewrite Hk. Qed.

(** What a counting sort leaves, in every mode *)
Lemma count_result inplace tag In Out Tmp xs key n skip m : mode inplace tag In Out Tmp -> precondition tag In Out Tmp xs m ->
  Forall (fun x => key x < n) xs -> size_t (length xs) ->
  ok (count_sort sizeof num_threads tag In Out (element_keys In key) (slice_size In) n skip m) (fun '(a, one, m') =>
    a = Some <$> bucket_starts key xs n /\
    if one : bool then skip = true /\ m' = m /\ sort_by key n xs = xs /\ exists k, Forall (fun x => key x = k) xs
    else same_outside [In; Out] m m' /\ full Out (sort_by key n xs) m' /\ empty_for Tmp xs m' /\ (is_relocate tag = false -> full In xs m')).
Proof.
  intros Hmode (HIn & HOut & HTmp) Hn Hsz. assert (Ht := mode_tag _ _ _ _ _ Hmode). destruct Hmode as [Hap Hmode].
  rewrite (holds_size _ _ _ HIn), length_fmap.
  eapply ok_mono; [by apply (count_sort_ok sizeof num_threads key tag In Out xs n skip m)|]. intros [[a one] m'] [-> Hm'].
  rewrite offsets_starts. split; [done|]. rewrite <- sort_by_buckets in Hm'. destruct one.
  - destruct Hm' as (? & ? & ? & k & Hk). split; [done|]. split; [done|]. split; [done|]. exists k. by apply Forall_fmap in Hk.
  - destruct Hm' as (Hs & HIn' & HOut'). rewrite <- sort_by_buckets in HOut'. split; [done|]. split; [done|]. destruct Hmode as [[-> ->]|(-> & _ & Hap1 & Hap2)].
    + by rewrite left_over_relocate in HIn'.
    + rewrite (list_fmap_ext _ Some) in HIn' by done. split; [|done]. eapply holds_others; [by apply HTmp|exact Hs|by apply apart_sym|by apply apart_sym].
Qed.

Lemma result_in_out (inplace : bool) tag In Out Tmp xs ys m m' : same_outside [In; Out] m m' -> postcondition inplace tag In Out Tmp xs ys m' ->
  same_outside [In; Out; Tmp] m m' /\ postcondition inplace tag In Out Tmp xs ys m'.
Proof. intros Hs Hp. split; [|done]. apply (same_outside_two _ In Out); [by left|by right; left|done]. Qed.

Lemma zero_bits_ok (inplace : bool) tag In Out Tmp xs m : mode inplace tag In Out Tmp -> precondition tag In Out Tmp xs m ->
  ok (if inplace then Ok m else if is_relocate tag then uninitialized_relocate sizeof trivially_relocatable memcpy_in_place In Out m
      else parallel_for 0 (slice_size In) (fun i m => assign_dispatch uninitialized_copy_tag (nth Out i) (nth In i) m) 0 m)
    (fun m' => same_outside [In; Out; Tmp] m m' /\ postcondition inplace tag In Out Tmp xs xs m').
Proof.
  intros [Hap Hmode] (HIn & HOut & HTmp). destruct inplace; [by apply ok_ret|]. destruct Hmode as [[-> ->]|(-> & _ & Hap1 & Hap2)]; cbn [is_relocate].
  - eapply ok_mono; [by apply (relocate_ok sizeof trivially_relocatable memcpy_in_place In Out xs)|]. intros m' [Hs [HIn' HOut']]. apply result_in_out; [done|].
    by split; [|split].
  - rewrite (holds_size _ _ _ HIn), length_fmap. eapply ok_mono; [by apply (copy_all In Out xs)|]. intros m' [Hs [HIn' HOut']].
    apply result_in_out; [done|]. split; [done|]. split; [|done].
    eapply holds_others; [by apply HTmp|exact Hs|by apply apart_sym|by apply apart_sym].
Qed.

Lemma few_bits_ok (inplace : bool) tag In Out Tmp xs bits m : mode inplace tag In Out Tmp -> precondition tag In Out Tmp xs m -> size_t (length xs) ->
  ok ('(offsets, one_bucket, m) ← count_sort sizeof num_threads tag In Out (element_keys In (fun x => Nat.land (g x) (Nat.shiftl 1 bits - 1)))
        (slice_size In) (Nat.shiftl 1 bits) inplace m;
      m ← (if inplace && negb one_bucket then uninitialized_relocate sizeof trivially_relocatable memcpy_in_place Out In m else Ok m); Ok (@nil (option nat), m))
    (fun '(a, m') => a = [] /\ same_outside [In; Out; Tmp] m m' /\ postcondition inplace tag In Out Tmp xs (low_sort g bits xs) m').
Proof.
  intros Hmode Hpre Hsz. assert (Hmode' := Hmode). destruct Hmode as [Hap _].
  assert (low_sort g bits xs = sort_by (fun x => Nat.land (g x) (Nat.shiftl 1 bits - 1)) (Nat.shiftl 1 bits) xs) as Hsort.
  { unfold low_sort. rewrite Nat.shiftl_1_l. apply sort_by_ext. intros x. by rewrite <- Nat.shiftl_1_l, land_mask. }
  assert (Hl := length_low_sort g bits xs).
  apply ok_bind. eapply ok_mono; [apply (count_result inplace tag In Out Tmp xs); [done|done| |done]|].
  { apply Forall_forall. intros x _. rewrite land_mask, Nat.shiftl_1_l. apply low_lt. }
  intros [[a one] m1] [_ Hone]. rewrite <- Hsort in Hone. destruct one.
  - destruct Hone as (-> & -> & -> & _). simpl. apply ok_ret. destruct Hpre as (? & ? & _). done.
  - destruct Hone as (Hs & HOut & HTmp & HIn). destruct inplace; cbn [andb negb].
    + destruct Hmode' as [_ [[-> ->]|(_ & ? & _)]]; [|done]. apply ok_bind.
      eapply ok_mono; [apply (relocate_ok sizeof trivially_relocatable memcpy_in_place Out In (low_sort g bits xs)); [done|by apply apart_sym|]|].
      { split; [done|]. by eapply empty_length. }
      intros m2 [Hs2 [HOut2 HIn2]]. apply ok_ret. split; [done|]. apply result_in_out; [by eapply same_outside_trans, same_outside_swap|].
      split; [done|]. by eapply empty_length.
    + apply ok_ret. split; [done|]. by apply result_in_out.
Qed.

(** The loop over the buckets, for any way of sorting one of them between [Out] and [Tmp] *)
Lemma buckets_ok (sort_bucket : slice -> slice -> float -> mem T -> res (array nat * mem T)) (inplace : bool) Out Tmp (ws vs : nat -> list T)
    N (offsets : array nat) parallelism n m :
  apart [Out] [Tmp] -> (forall b, length (vs b) = length (ws b)) -> (forall b, b <= N -> get offsets b = Ok (offset ws b)) ->
  (forall b a r p m, b < N -> apart [a] [r] -> full a (ws b) m -> empty_for r (ws b) m -> ok (sort_bucket a r p m)
    (fun '(_, m') => same_outside [a; r; a] m m' /\ postcondition (negb inplace) uninitialized_relocate_tag a r a (ws b) (vs b) m')) ->
  full Out (mjoin (ws <$> seq 0 N)) m -> empty_for Tmp (mjoin (ws <$> seq 0 N)) m ->
  ok (parallel_for 0 N (fun i '(inner_offsets, m) =>
      start ← get offsets i; end_ ← get offsets (i + 1);
      '(r, m) ← sort_bucket (scut Out start end_) (scut Tmp start end_) (share parallelism (end_ - start) n) m;
      inner_offsets ← Ok inner_offsets; Ok (inner_offsets, m)) 1 ([] : array nat, m))
    (fun '(o, m') => o = [] /\ same_outside [Out; Tmp] m m' /\ full (if inplace then Tmp else Out) (mjoin (vs <$> seq 0 N)) m' /\
      empty_for (if inplace then Out else Tmp) (mjoin (ws <$> seq 0 N)) m').
Proof.
  intros Hap Hl Hoff Hsort [HeO HOut]%holds_pieces [HeT HTmp]%pieces_empty.
  assert (forall b c p, b < N -> c < N -> in_slice p (piece Out ws b) -> ~ in_slice p (piece Tmp ws c)) as Happ.
  { intros b c p Hb Hc Hp Hq. apply (Hap p); apply covers_cons; left; [by apply (in_piece Out ws N b)|by apply (in_piece Tmp ws N c)]. }
  set (F b := [piece Out ws b; piece Tmp ws b]).
  assert (forall b c, b < N -> c < N -> b <> c -> apart (F b) (F c)) as HF.
  { intros b c Hb Hc Hne p Hp Hq. apply covers_two in Hp, Hq. destruct Hp as [Hp|Hp], Hq as [Hq|Hq].
    - by apply (pieces_apart _ _ _ _ _ Hne Hp).
    - by apply (Happ b c p).
    - by apply (Happ c b p).
    - by apply (pieces_apart _ _ _ _ _ Hne Hp). }
  eapply ok_mono; [apply (triple_parallel ([] : array nat) F [Out; Tmp]
    (fun b m => full (piece Out ws b) (ws b) m /\ empty_for (piece Tmp ws b) (ws b) m)
    (fun b m => full (piece (if inplace then Tmp else Out) ws b) (vs b) m /\ empty_for (piece (if inplace then Out else Tmp) ws b) (ws b) m))|].
  - intros b m1 Hb [HO HT]. rewrite !Hoff by lia. cbn [mbind res_bind]. rewrite Nat.add_1_r. apply ok_bind.
    eapply ok_mono; [apply (Hsort b (piece Out ws b) (piece Tmp ws b)); [done| |done|done]|].
    { intros p (s & ->%list_elem_of_singleton & Hp) (s' & ->%list_elem_of_singleton & Hq). by apply (Happ b b p). }
    intros [r m2] [Hs Hpost]. apply ok_ret. split; [done|]. split.
    + eapply same_outside_mono, Hs. intros p. unfold F. rewrite covers_cons, !covers_two. tauto.
    + destruct inplace; simpl in *; by destruct_and?.
  - done.
  - intros b p Hb (s & Hs & Hp). apply elem_of_cons in Hs as [->| ->%list_elem_of_singleton]; apply covers_two; [left|right]; by eapply (in_piece _ ws N b).
  - intros b. apply stable_and; apply holds_stable; [by left|by right; left].
  - intros b. apply stable_and; destruct inplace; apply holds_stable; first [by left|by right; left].
  - intros b Hb. split; [by apply HOut|by apply HTmp].
  - intros [o m1] (-> & Hs & Hm1). split; [done|]. split; [done|]. split.
    + apply holds_pieces. rewrite (offset_ext ws vs) by done. split; [by destruct inplace|]. intros b Hb. rewrite (piece_ext _ ws vs) by done. by apply Hm1.
    + apply pieces_empty. split; [by destruct inplace|]. intros b Hb. by apply Hm1.
Qed.

Lemma get_starts key xs N b : Forall (fun x => key x < N) xs -> b <= N ->
  get (Some <$> bucket_starts key xs N) b = Ok (offset (fun b => with_key key b xs) b).
Proof.
  intros HN Hb. apply get_eq. unfold bucket_starts. rewrite !list_lookup_fmap, lookup_seq_lt by lia. simpl. do 2 f_equal.
  rewrite <- start_filter, <- (offset_bucket xs) by (by rewrite length_fmap). unfold offset. do 2 f_equal.
  apply list_fmap_ext. intros i c _. apply bucket_with_key.
Qed.

Lemma length_with_key key b xs : length (with_key key b xs) <= length xs.
Proof. unfold with_key. induction xs as [|x xs IH]; [done|]. simpl. destruct (key x =? b); simpl; lia. Qed.

Lemma integer_sort_r_ok fuel inplace tag In Out Tmp xs bits parallelism m : mode inplace tag In Out Tmp -> bits < fuel -> size_t (length xs) ->
  stays_in_place trivially_relocatable memcpy_in_place \/ (length xs < base_case /\ (inplace = true \/ is_relocate tag = false)) ->
  precondition tag In Out Tmp xs m ->
  ok (integer_sort_r sizeof num_threads trivially_relocatable memcpy_in_place base_case fuel inplace tag In Out Tmp g bits 0 parallelism m) (fun '(o, m') =>
    o = [] /\ same_outside [In; Out; Tmp] m m' /\ postcondition inplace tag In Out Tmp xs (low_sort g bits xs) m').
Proof.
  revert inplace tag In Out Tmp xs bits parallelism m. induction fuel as [|fuel IH]; intros inplace tag In Out Tmp xs bits parallelism m Hmode Hf Hsz Htriv Hpre; [lia|].
  cbn [integer_sort_r]. cbv zeta. destruct (base_bits_spec (slice_size In)) as (bb & -> & Hbb). cbn [mbind res_bind].
  change (0 <? 0) with false. cbn [negb]. destruct (Nat.eqb_spec bits 0) as [->|Hbits].
  { apply ok_bind. eapply ok_mono; [by apply zero_bits_ok|]. intros m' Hm'. apply ok_ret. by rewrite low_sort_0. }
  rewrite andb_true_r. assert (slice_size In = length xs) as Hsize by (destruct Hpre as [HIn _]; by rewrite (holds_size _ _ _ HIn), length_fmap).
  destruct ((slice_size In <? base_case) || negligible parallelism) eqn:Ebase.
  { apply ok_bind. eapply ok_mono; [apply (seq_radix_sort_ok sizeof trivially_relocatable memcpy_in_place Hfits g inplace tag In Out Tmp xs bits Hmode); [tauto|done]|].
    intros m' Hm'. by apply ok_ret. }
  apply orb_false_iff in Ebase as [Ebase%Nat.ltb_ge _]. assert (stays_in_place trivially_relocatable memcpy_in_place) as Ht by (destruct Htriv as [?|[? _]]; [done|lia]).
  destruct (Nat.leb_spec bits bb) as [Hle|Hlt]; [by apply few_bits_ok|].
  set (off := bits - 8). set (key := digit g off (Nat.shiftl 1 8 - 1)). assert (bits = off + 8) as Hoff by (unfold off; lia).
  assert (Forall (fun x => key x < Nat.shiftl 1 8) xs) as Hkey by (apply Forall_forall; intros x _; apply digit_lt).
  apply ok_bind. eapply ok_mono; [by apply (count_result inplace tag In Out Tmp xs key)|]. intros [[offsets one] m1] [-> Hone].
  destruct one.
  - destruct Hone as (_ & -> & _ & k & Hk). assert (low_sort g bits xs = low_sort g off xs) as -> by (rewrite Hoff; by apply (low_sort_one g off 8 k xs)). apply IH; [done|lia|done|done|done].
  - destruct Hone as (Hs1 & HOut1 & HTmp1 & HIn1). cbn [mbind res_bind]. set (ws b := with_key key b xs).
    assert (length (mjoin (ws <$> seq 0 (Nat.shiftl 1 8))) = length xs) as Hlw by (eapply sorts_length, sort_by_sorts, Hkey).
    assert (low_sort g bits xs = mjoin ((fun b => low_sort g off (ws b)) <$> seq 0 (Nat.shiftl 1 8))) as -> by (rewrite Hoff; apply low_sort_buckets).
    eapply ok_mono; [apply (buckets_ok (fun a r p m => integer_sort_r sizeof num_threads trivially_relocatable memcpy_in_place base_case fuel (negb inplace)
      uninitialized_relocate_tag a r a g off 0 p m) inplace Out Tmp ws (fun b => low_sort g off (ws b)))|].
    + destruct Hmode as [Hap [[-> ->]|(_ & _ & _ & ?)]]; [by apply apart_sym|done].
    + intros b. apply length_low_sort.
    + intros b Hb. by apply get_starts.
    + intros b a r p m2 Hb Har Ha Hr. eapply ok_mono; [apply (IH (negb inplace) uninitialized_relocate_tag a r a (ws b)); [|lia| |by left|done]|].
      * split; [done|]. by left.
      * eapply size_t_le; [|exact Hsz]. apply length_with_key.
      * intros [o m3] (_ & Hs & Hpost). done.
    + done.
    + by rewrite Hlw.
    + intros [o m2] (-> & Hs2 & Hfull & Hempty). rewrite Hlw in Hempty. split; [done|]. split.
      * apply (same_outside_trans _ m m1 m2); [apply (same_outside_two _ In Out)|apply (same_outside_two _ Out Tmp)]; try done;
          first [by left|by right; left|by right; right; left].
      * unfold postcondition. destruct inplace.
        -- by destruct Hmode as [_ [[_ ->]|(_ & ? & _)]].
        -- split; [done|]. split; [done|]. intros Hcopy. destruct Hmode as [Hap [[-> _]|(_ & _ & Hap1 & _)]]; [done|].
           eapply holds_others; [by apply HIn1|exact Hs2|done|done].
Qed.
End recursive.

(** ** The whole sort *)

#[export] Instance max_size_laws : MonoidLaws (pure_monoid Nat.max 0) (fun _ => True) Nat.max.
Proof. apply pure_laws; intros; lia || done. Qed.

Lemma size_t_pow x : size_t x <-> x < 2 ^ 64.
Proof. unfold size_t, u64, two64. rewrite Nat2Z.inj_lt, Nat2Z.inj_pow. change (Z.of_nat 2 ^ Z.of_nat 64)%Z with (2 ^ 64)%Z. lia. Qed.

Section integer_sort.
Context `{Schedule, Parallelism} {T : Type} (sizeof num_threads : nat).
Context (trivially_relocatable : bool) (memcpy_in_place : slice -> mem T -> res (mem T)) (base_case : nat) (g : T -> nat).
Context (Hfits : fits_chunk sizeof trivially_relocatable).
Implicit Types (m : mem T) (xs ys : list T) (In Out Tmp : slice).

Abbreviation run_integer_sort_ := (integer_sort_ sizeof num_threads trivially_relocatable memcpy_in_place base_case) (only parsing).

(** What it sorts by: the key, or as many of its low bits as the caller says it has *)
Definition sort_key (bits : nat) (x : T) : nat := if bits =? 0 then g x else low g bits x.

Lemma foldl_max_le xs x0 : x0 <= foldl Nat.max x0 (g <$> xs) /\ Forall (fun x => g x <= foldl Nat.max x0 (g <$> xs)) xs.
Proof.
  revert x0. induction xs as [|x xs IH]; intros x0; [done|]. rewrite fmap_cons. cbn [foldl]. destruct (IH (Nat.max x0 (g x))) as [Hle Hall].
  split; [lia|]. constructor; [lia|done].
Qed.

Lemma foldl_max_size xs x0 : size_t (x0 + 1) -> Forall (fun x => size_t (g x + 1)) xs -> size_t (foldl Nat.max x0 (g <$> xs) + 1).
Proof.
  revert x0. induction xs as [|x xs IH]; intros x0 Hx0 Hxs; [done|]. rewrite fmap_cons. cbn [foldl]. inversion Hxs. apply IH; [|done].
  by destruct (Nat.max_spec x0 (g x)) as [[_ ->]|[_ ->]].
Qed.

Abbreviation greatest_key In m :=
  (reduce (pure_monoid Nat.max 0) (delayed_tabulate (slice_size In) (fun i => x ← read (nth In i) m; Ok (g x))) no_flag) (only parsing).

Lemma greatest_key_eq In xs m : full In xs m -> greatest_key In m = Ok (foldl Nat.max 0 (g <$> xs)).
Proof.
  intros HIn. rewrite (reduce_eq (pure_monoid Nat.max 0) (fun _ => True) Nat.max _ (g <$> xs)).
  - by destruct xs.
  - split; [simpl; by rewrite (holds_size _ _ _ HIn), !length_fmap|]. intros i k (x & -> & Hx)%list_lookup_fmap_Some. simpl.
    by rewrite (holds_read _ _ _ _ x HIn) by (by rewrite list_lookup_fmap, Hx).
  - by apply Forall_true.
Qed.

(** [bits == 0]: as many bits as the greatest key has *)
Lemma max_key_bits In xs m : full In xs m -> Forall (fun x => size_t (g x + 1)) xs -> exists b,
  (max ← greatest_key In m; log2_up (size_add max 1)) = Ok b /\ b <= 64 /\ Forall (fun x => g x < 2 ^ b) xs.
Proof.
  intros HIn Hxs. rewrite (greatest_key_eq In xs m HIn). cbn [mbind res_bind].
  assert (size_t (foldl Nat.max 0 (g <$> xs) + 1)) as Hsz by (by apply foldl_max_size).
  rewrite size_add_small by done. destruct (foldl_max_le xs 0) as [_ Hall].
  destruct (log2_up_spec (foldl Nat.max 0 (g <$> xs) + 1)) as (k & -> & Hk & Hk64); [lia|apply size_t_pow in Hsz; lia|].
  exists k. split; [done|]. split; [done|]. eapply Forall_impl; [exact Hall|]. simpl. lia.
Qed.

(** If a key is the greatest [size_t], adding 1 to it gives 0, which [log2_up] does not take. *)
Lemma greatest_key_wraps inplace tag In Out Tmp xs x n m : full In xs m -> x ∈ xs -> Z.of_nat (g x) = (two64 - 1)%Z ->
  Forall (fun x => size_t (g x)) xs -> run_integer_sort_ inplace tag In Out Tmp g 0 n m = Err AssertFail.
Proof.
  intros HIn Hx Hgx Hxs. unfold integer_sort_. simpl. rewrite (greatest_key_eq In xs m HIn). cbn [mbind res_bind].
  assert (foldl Nat.max 0 (g <$> xs) = g x) as ->.
  { apply Nat.le_antisymm.
    - assert (forall x0 l, x0 <= g x -> Forall (fun y => size_t (g y)) l -> foldl Nat.max x0 (g <$> l) <= g x) as Hle; [|apply Hle; [lia|done]].
      intros x0 l. revert x0. induction l as [|y l IH]; intros x0 Hx0 Hl; [done|]. rewrite fmap_cons. cbn [foldl]. inversion Hl as [|? ? Hy]. subst.
      apply IH; [|done]. unfold size_t, u64 in Hy. lia.
    - destruct (foldl_max_le xs 0) as [_ Hall]. rewrite Forall_forall in Hall. by apply Hall. }
  assert (size_add (g x) 1 = 0) as ->; [|done]. unfold size_add. rewrite Nat2Z.inj_add, Hgx. done.
Qed.

Lemma integer_sort__ok inplace tag In Out Tmp xs bits m : mode inplace tag In Out Tmp -> size_t (length xs) ->
  (bits = 0 -> Forall (fun x => size_t (g x + 1)) xs) ->
  stays_in_place trivially_relocatable memcpy_in_place \/ (length xs < base_case /\ (inplace = true \/ is_relocate tag = false)) ->
  precondition tag In Out Tmp xs m ->
  ok (run_integer_sort_ inplace tag In Out Tmp g bits 0 m) (fun '(_, m') =>
    exists ys, sorts (sort_key bits) xs ys /\ same_outside [In; Out; Tmp] m m' /\ postcondition inplace tag In Out Tmp xs ys m').
Proof.
  intros Hmode Hsz Hkeys Htriv Hpre. unfold integer_sort_, sort_key. destruct (Nat.eqb_spec bits 0) as [->|Hne].
  - destruct (max_key_bits In xs m) as (b & Hb & _ & Hxs); [apply Hpre|by apply Hkeys|]. rewrite Hb. cbn [mbind res_bind].
    eapply ok_mono; [by apply integer_sort_r_ok; [..|lia|done|done|done]|]. intros [o m'] (_ & Hs & Hpost).
    exists (low_sort g b xs). split; [|done]. apply (sorts_on (low g b)); [|apply low_sort_sorts].
    eapply Forall_impl; [exact Hxs|]. intros x. apply low_small.
  - cbn [mbind res_bind]. eapply ok_mono; [by apply integer_sort_r_ok; [..|lia|done|done|done]|]. intros [o m'] (_ & Hs & Hpost).
    exists (low_sort g bits xs). split; [apply low_sort_sorts|done].
Qed.

Lemma integer_sort_ok In xs bits m : full In xs m -> size_t (length xs) ->
  (bits = 0 -> Forall (fun x => size_t (g x + 1)) xs) -> stays_in_place trivially_relocatable memcpy_in_place \/ length xs < base_case ->
  ok (integer_sort sizeof num_threads trivially_relocatable memcpy_in_place base_case In g bits m) (fun '(Out, m') =>
    exists ys, sorts (sort_key bits) xs ys /\ full Out ys m' /\ full In xs m' /\ forall p, p.1 <> arr Out -> m' !! p = m !! p).
Proof.
  intros HIn Hsz Hkeys Htriv. unfold integer_sort. rewrite (holds_size _ _ _ HIn), length_fmap. destruct (allocate (length xs) m) as [B m1] eqn:Ha1.
  destruct (allocate_spec _ _ _ _ Ha1) as (HB & _ & Hother & Hsame & Hfresh). destruct (Hother _ _ HIn) as [Hap HIn1].
  destruct (allocate (length xs) m1) as [D m2] eqn:Ha2. destruct (allocate_spec _ _ _ _ Ha2) as (HD & _ & Hother2 & Hsame2 & Hfresh2).
  destruct (Hother2 _ _ HIn1) as [HapD HIn2]. destruct (Hother2 _ _ HB) as [HapBD HB2].
  apply ok_bind. eapply ok_mono; [apply (integer_sort__ok false uninitialized_copy_tag In B D xs bits m2); [|done|done| |done]|].
  { split; [done|]. right. done. }
  { destruct Htriv as [?|?]; [by left|right]. split; [done|by right]. }
  intros [o m3] (ys & Hys & Hs & HB3 & HD3 & HIn3). specialize (HIn3 eq_refl). apply ok_ret. exists ys. split; [done|].
  assert (length ys = length xs) as Hly by (by eapply sorts_length).
  assert (full In xs (deallocate D m3)) as HIn4 by (by eapply scratch_holds).
  split; [by eapply (scratch_holds _ B); [exact Ha2|exact HB|done|rewrite length_fmap, length_replicate]|]. split; [done|].
  intros p Hp. destruct (decide (in_slice p In)) as [Hi|Hni]; [by eapply holds_same_cells|]. rewrite lookup_deallocate.
  destruct (decide (p.1 = arr D)) as [HpD|HpD]; [by rewrite <- Hsame, Hfresh2|]. rewrite Hs; [by rewrite Hsame2, Hsame|].
  rewrite covers_cons, covers_two. intros [Hc|[[Hc _]|[Hc _]]]; done.
Qed.

Lemma integer_sort_inplace_ok In xs bits m : full In xs m -> size_t (length xs) ->
  (bits = 0 -> Forall (fun x => size_t (g x + 1)) xs) -> stays_in_place trivially_relocatable memcpy_in_place \/ length xs < base_case ->
  ok (integer_sort_inplace sizeof num_threads trivially_relocatable memcpy_in_place base_case In g bits m) (fun m' =>
    exists ys, sorts (sort_key bits) xs ys /\ full In ys m' /\ forall p, ~ in_slice p In -> m' !! p = m !! p).
Proof.
  intros HIn Hsz Hkeys Htriv. unfold integer_sort_inplace. rewrite (holds_size _ _ _ HIn), length_fmap. destruct (allocate (length xs) m) as [B m1] eqn:Ha1.
  destruct (allocate_spec _ _ _ _ Ha1) as (HB & _ & Hother & Hsame & Hfresh). destruct (Hother _ _ HIn) as [Hap HIn1].
  apply ok_bind. eapply ok_mono; [apply (integer_sort__ok true uninitialized_relocate_tag In B In xs bits m1); [|done|done| |done]|].
  { split; [done|]. by left. }
  { destruct Htriv as [?|?]; [by left|right]. split; [done|by left]. }
  intros [o m3] (ys & Hys & Hs & HIn3 & HB3). apply ok_ret. exists ys. split; [done|].
  assert (length ys = length xs) as Hly by (by eapply sorts_length). split; [eapply scratch_holds; [exact Ha1|exact HIn|done|by rewrite !length_fmap]|].
  intros p Hp. apply (scratch_same _ _ _ _ _ _ m3 Ha1 HIn).
  + eapply same_outside_mono, Hs. intros q. rewrite !covers_cons. tauto.
  + rewrite covers_cons. intros [Hc|Hc]; [done|by apply covers_nil in Hc].
Qed.

(** C39: [integer_sort] and [integer_sort_inplace], for every schedule, number of blocks and threads, and share
    of the processors: the stable sort by the low [bits] bits of the keys, or by the whole
    keys if [bits] is 0 and no key is the greatest [size_t].  The first leaves its input alone and returns a
    new sequence; the second puts the elements where they were, by moving them only.  Nothing else is
    changed, and scratch memory is returned.  The elements are fewer than the base case, or they are trivially
    relocatable and [memcpy] leaves bytes alone that are copied to where they are (the sort relies on it, and
    C does not promise it); and trivially relocatable elements have at most 8192 bytes (beyond, the relocation
    divides by zero). *)
Theorem integer_sort_correct In xs bits m : full In xs m -> size_t (length xs) -> bits <= 64 ->
  (bits = 0 -> Forall (fun x => size_t (g x + 1)) xs) -> stays_in_place trivially_relocatable memcpy_in_place \/ length xs < base_case ->
  ok (integer_sort sizeof num_threads trivially_relocatable memcpy_in_place base_case In g bits m) (fun '(Out, m') =>
    exists ys, sorts (sort_key bits) xs ys /\ full Out ys m' /\ full In xs m' /\ forall p, p.1 <> arr Out -> m' !! p = m !! p) /\
  ok (integer_sort_inplace sizeof num_threads trivially_relocatable memcpy_in_place base_case In g bits m) (fun m' =>
    exists ys, sorts (sort_key bits) xs ys /\ full In ys m' /\ forall p, ~ in_slice p In -> m' !! p = m !! p).
Proof. intros ? ? _ ? ?. split; [by apply integer_sort_ok|by apply integer_sort_inplace_ok]. Qed.
End integer_sort.

(** ** Runs *)

#[local] Instance ex_parallelism : Parallelism := {| float := unit; whole := tt; share _ _ _ := tt; negligible _ := false |}.

(** 5, 3 and 4, as numbers of 9 bits, by a counting sort and recursion *)
Lemma integer_sort_correct_witness : exists Out m',
  @integer_sort backwards ex_parallelism nat 8 4 true (fun _ m => Ok m) 2 ex_slice id 9 ex_mem = Ok (Out, m') /\
  holds Out (Some <$> [3; 4; 5]) m' /\ holds ex_slice (Some <$> [5; 3; 4]) m'.
Proof.
  destruct (@integer_sort_correct backwards ex_parallelism nat 8 4 true (fun _ m => Ok m) 2 id) with (In := ex_slice) (xs := [5; 3; 4]) (bits := 9) (m := ex_mem) as [H1 _];
    [intros _; unfold chunk_bytes; lia|exact ex_holds|done|lia|done|by left|].
  destruct H1 as ([Out m'] & He & ys & Hys & HOut & HIn & _). exists Out, m'. rewrite He. split; [done|]. split; [|done].
  assert (ys = [3; 4; 5]) as <-; [|done]. apply (stable_sort_unique (sort_key id 9) [5; 3; 4]); [done|].
  split; [|split].
  - unfold sorted_by. repeat constructor; apply le_before, Nat.leb_le; by vm_compute.
  - by rewrite (Permutation_cons_append [3; 4] 5).
  - intros z. cbn [List.filter]. rewrite !equiv_before. change (sort_key id 9 3) with 3. change (sort_key id 9 4) with 4. change (sort_key id 9 5) with 5.
    generalize (sort_key id 9 z) as k. by intros [|[|[|[|[|[|k]]]]]].
Defined.

Definition ex_mem4 : mem nat := <[(0, 0) := Some 1]> (<[(0, 1) := Some 0]> (<[(0, 2) := Some 1]> (<[(0, 3) := Some 0]> ∅))).

(** Four elements with keys of 17 bits that are not relocated by copying bytes, and a base case of 3: the
    sort of a bucket relocates its elements "to [Tmp]", which is where they are, and so over live objects.
    Elements that are relocated by copying bytes are copied onto themselves, with [memcpy]. *)
Lemma integer_sort_self_relocation :
  @integer_sort_inplace backwards ex_parallelism nat 8 4 false (fun _ m => Ok m) 3 (Slice 0 0 4) (fun x => Nat.shiftl x 9) 17 ex_mem4 = Err AssertFail /\
  @integer_sort_inplace backwards ex_parallelism nat 8 4 true (fun _ _ => Err BadPtr) 3 (Slice 0 0 4) (fun x => Nat.shiftl x 9) 17 ex_mem4 = Err BadPtr /\
  exists m', @integer_sort_inplace backwards ex_parallelism nat 8 4 true (fun _ m => Ok m) 3 (Slice 0 0 4) (fun x => Nat.shiftl x 9) 17 ex_mem4 = Ok m' /\
    (fun i => m' !! (0, i)) <$> seq 0 4 = Some <$> (Some <$> [0; 0; 1; 1]).
Proof. split; [by vm_compute|]. split; [by vm_compute|]. eexists. split; [by vm_compute|]. by vm_compute. Qed.
