(* ===== verification/IntegerCounts.v ===== *)
(** * Integer sort with counts

    [get_counts] and [integer_sort_with_counts] of [src/lib/parlay/internal/integer_sort.h]: how many
    elements each key has, from where the key changes in the sorted sequence. *)

From Stdlib Require Import Sorted.
From S2P Require Import Prelude.
From stdpp Require Import list.
From S2P Require Import ParArray ParMem Monoid SequenceOps Merge PrimitivesSpec MemRelocation CountingSort IntegerSort.

#[local] Open Scope nat_scope.

Section program.
Context `{Schedule, Parallelism} {T : Type} (sizeof num_threads : nat).
Context (trivially_relocatable : bool) (memcpy_in_place : slice -> mem T -> res (mem T)) (base_case : nat).
Implicit Types (m : mem T) (g : T -> nat).

Definition get_counts (In : slice) g (num_buckets : nat) (m : mem T) : res (array nat) :=
  let n := slice_size In in
  if n =? 0 then Ok []
  else
    '(starts, ends) ← parallel_for 0 (n - 1) (fun i '(starts, ends) =>
      x ← read (nth In i) m; y ← read (nth In (i + 1)) m;
      if g x =? g y then Ok (starts, ends)
      else starts ← assign starts (g y) (i + 1); ends ← assign ends (g x) (i + 1); Ok (starts, ends)) 0
      (replicate num_buckets (Some 0), replicate num_buckets (Some 0));
    x ← read (nth In (n - 1)) m;
    ends ← assign ends (g x) n;
    tabulate num_buckets (fun i => e ← get ends i; s ← get starts i; Ok (size_sub e s)) 0.

Definition integer_sort_with_counts (In : slice) g (num_buckets : nat) (m : mem T) : res (slice * array nat * mem T) :=
  if slice_size In =? 0 then let '(R, m) := allocate 0 m in Ok (R, replicate num_buckets (Some 0), m)
  else
    _ ← assert (0 <? num_buckets);
    bits ← log2_up num_buckets;
    '(R, m) ← integer_sort sizeof num_threads trivially_relocatable memcpy_in_place base_case In g bits m;
    counts ← get_counts R g num_buckets m;
    Ok (R, counts, m).
End program.

(** ** Where the keys of a sorted list change *)

Section changes.
Implicit Types (ks : list nat).

Definition ascending ks : Prop := StronglySorted le ks.

Lemma start_none ks b : Forall (fun k => b <= k) ks -> start ks b = 0.
Proof.
  unfold start. induction 1 as [|k ks Hk _ IH]; [done|]. rewrite fmap_cons, count_true_cons, IH. destruct (Nat.ltb_spec k b); [lia|done].
Qed.

(** Before [start ks b] are the keys below [b]. *)
Lemma ascending_start ks p k b : ascending ks -> ks !! p = Some k -> (k < b <-> p < start ks b).
Proof.
  intros Ha. revert p. induction Ha as [|x ks Ha IH Hx]; intros p Hp; [done|].
  assert (start (x :: ks) b = (if x <? b then 1 else 0) + start ks b) as ->.
  { unfold start. rewrite fmap_cons, count_true_cons. by destruct (x <? b). }
  destruct (Nat.ltb_spec x b) as [Hlt|Hge].
  - destruct p as [|p]; simpl in Hp; [injection Hp as <-; lia|]. rewrite (IH p Hp). lia.
  - rewrite start_none.
    + assert (b <= k); [|lia]. destruct p as [|p]; simpl in Hp; [injection Hp as <-; lia|].
      rewrite Forall_forall in Hx. assert (x <= k) by (apply Hx; by eapply list_elem_of_lookup_2). lia.
    + eapply Forall_impl; [exact Hx|]. simpl. lia.
Qed.

Lemma in_bucket_pos ks k : k ∈ ks <-> start ks k < start ks (S k).
Proof.
  rewrite start_S. split.
  - intros [p Hp]%list_elem_of_lookup. assert (Hlt := in_bucket_take_lt ks p k Hp). lia.
  - intros Hpos. assert (0 < in_bucket ks k) as Hin by lia. clear Hpos. unfold in_bucket, is_key in Hin.
    induction ks as [|x ks IH]; [exfalso; unfold count_true in Hin; simpl in Hin; lia|]. rewrite fmap_cons, count_true_cons in Hin.
    destruct (Nat.eqb_spec x k) as [->|]; [by left|]. right. by apply IH.
Qed.

Section array.
Context (ks : list nat) (n : nat) (target : nat -> nat) (at_ : nat -> nat -> Prop).

(** The iterations in [d] have been run; iteration [i] writes [target k] to cell [k] if [at_ i k]. *)
Definition partly_written (d : list nat) (a : array nat) : Prop :=
  length a = n /\ forall k, k < n -> exists v, a !! k = Some (Some v) /\ (v = 0 \/ (v = target k /\ k ∈ ks)) /\ forall i, i ∈ d -> at_ i k -> v = target k.

Lemma written_nil : partly_written [] (replicate n (Some 0)).
Proof.
  split; [by rewrite length_replicate|]. intros k Hk. exists 0. split; [by apply lookup_replicate_2|]. split; [by left|]. by intros i ?%not_elem_of_nil.
Qed.

Lemma written_skip d i a : partly_written d a -> (forall k, ~ at_ i k) -> partly_written (d ++ [i]) a.
Proof.
  intros [Hl Ha] Hi. split; [done|]. intros k Hk. destruct (Ha k Hk) as (v & Hv & Hv' & Hd). exists v. split; [done|]. split; [done|].
  intros j [Hj| ->%list_elem_of_singleton]%elem_of_app Hat; [by eapply Hd|by apply Hi in Hat].
Qed.

Lemma written_one d i k0 a : partly_written d a -> (forall k, at_ i k -> k = k0) -> k0 < n -> k0 ∈ ks ->
  ok (assign a k0 (target k0)) (partly_written (d ++ [i])).
Proof.
  intros [Hl Ha] Hi Hk0 Hin. destruct (Ha k0 Hk0) as (v & Hv & _). unfold assign. rewrite (get_eq _ _ _ Hv). apply ok_ret.
  split; [by rewrite length_insert|]. intros k Hk. destruct (decide (k = k0)) as [->|Hne].
  - exists (target k0). rewrite list_lookup_insert_eq by lia. split; [done|]. split; [by right|done].
  - rewrite list_lookup_insert_ne by done. destruct (Ha k Hk) as (w & Hw & Hw' & Hd). exists w. split; [done|]. split; [done|].
    intros j [Hj| ->%list_elem_of_singleton]%elem_of_app Hat; [by eapply Hd|by apply Hi in Hat].
Qed.
End array.

(** The keys at [i] and [i + 1] differ, and [k] is the second, or the first. *)
Definition opens ks (i k : nat) : Prop := exists k', ks !! i = Some k' /\ ks !! S i = Some k /\ k' <> k.
Definition closes ks (i k : nat) : Prop := exists k', ks !! i = Some k /\ ks !! S i = Some k' /\ k' <> k.

Lemma ascending_le ks i j k l : ascending ks -> i <= j -> ks !! i = Some k -> ks !! j = Some l -> k <= l.
Proof.
  intros Ha Hij Hk Hl. destruct (Nat.le_gt_cases k l) as [|Hlt]; [done|]. assert (Hi := proj1 (ascending_start _ _ _ _ Ha Hl) Hlt).
  assert (i < start ks k) as Hi' by lia. apply (ascending_start _ _ _ _ Ha Hk) in Hi'. lia.
Qed.

Lemma change_starts ks i k k' : ascending ks -> ks !! i = Some k -> ks !! S i = Some k' -> k <> k' ->
  start ks k' = S i /\ start ks (S k) = S i.
Proof.
  intros Ha Hk Hk' Hne. assert (k <= k') as Hle by (eapply (ascending_le ks i (S i)); [done|lia|done|done]).
  assert (H1 := ascending_start _ _ _ k' Ha Hk). assert (H2 := ascending_start _ _ _ k' Ha Hk').
  assert (H3 := ascending_start _ _ _ (S k) Ha Hk). assert (H4 := ascending_start _ _ _ (S k) Ha Hk'). lia.
Qed.

(** The last key is the one whose bucket ends at the end. *)
Lemma last_key_unique ks l k i : ascending ks -> l ∈ ks -> start ks (S l) = length ks -> ks !! i = Some k -> S i = length ks -> l = k.
Proof.
  intros Ha Hl Hs Hk Hi. assert (Hkl := ascending_start _ _ _ (S l) Ha Hk). apply list_elem_of_lookup in Hl as [p Hp].
  assert (Hpl := lookup_lt_Some _ _ _ Hp). assert (l <= k) by (eapply (ascending_le ks p i); [done|lia|done|done]). lia.
Qed.

Lemma opens_at ks k : ascending ks -> k ∈ ks -> start ks k <> 0 -> opens ks (start ks k - 1) k.
Proof.
  intros Ha Hk Hs. assert (Hpos := proj1 (in_bucket_pos ks k) Hk). assert (Hle := start_le ks (S k)).
  destruct (lookup_lt_is_Some_2 ks (start ks k - 1)) as [k' Hk']; [lia|]. destruct (lookup_lt_is_Some_2 ks (start ks k)) as [l Hl]; [lia|].
  assert (H1 := ascending_start _ _ _ k Ha Hk'). assert (H2 := ascending_start _ _ _ k Ha Hl). assert (H3 := ascending_start _ _ _ (S k) Ha Hl).
  exists k'. replace (S (start ks k - 1)) with (start ks k) by lia. assert (l = k) as -> by lia. split; [done|]. split; [done|lia].
Qed.

Lemma closes_at ks k : ascending ks -> k ∈ ks -> start ks (S k) <> length ks -> closes ks (start ks (S k) - 1) k.
Proof.
  intros Ha Hk Hs. assert (Hpos := proj1 (in_bucket_pos ks k) Hk). assert (Hle := start_le ks (S k)).
  destruct (lookup_lt_is_Some_2 ks (start ks (S k) - 1)) as [l Hl]; [lia|]. destruct (lookup_lt_is_Some_2 ks (start ks (S k))) as [k' Hk']; [lia|].
  assert (H1 := ascending_start _ _ _ k Ha Hl). assert (H2 := ascending_start _ _ _ (S k) Ha Hl). assert (H3 := ascending_start _ _ _ (S k) Ha Hk').
  exists k'. replace (S (start ks (S k) - 1)) with (start ks (S k)) by lia. assert (l = k) as -> by lia. split; [done|]. split; [done|lia].
Qed.
End changes.

(** ** The counts *)

Section counts.
Context `{Schedule, Parallelism} {T : Type} (sizeof num_threads : nat).
Context (trivially_relocatable : bool) (memcpy_in_place : slice -> mem T -> res (mem T)) (base_case : nat) (g : T -> nat).
Context (Hfits : fits_chunk sizeof trivially_relocatable).
Implicit Types (m : mem T) (xs ys : list T) (In : slice).

Lemma ascending_keys xs : sorted_by (before g) xs -> ascending (g <$> xs).
Proof.
  unfold sorted_by, ascending. induction 1 as [|x xs _ IH Hx]; [constructor|]. rewrite fmap_cons. constructor; [done|].
  apply Forall_fmap. eapply Forall_impl; [exact Hx|]. intros y. apply le_before.
Qed.

Lemma get_counts_eq In xs n m : full In xs m -> sorted_by (before g) xs -> xs <> [] -> Forall (fun x => g x < n) xs ->
  get_counts In g n m = Ok (Some <$> counts_of (g <$> xs) n).
Proof.
  intros HIn Hs Hne Hn. set (ks := g <$> xs). assert (ascending ks) as Ha by (by apply ascending_keys).
  assert (length ks = length xs) as Hlk by apply length_fmap. assert (0 < length xs) as Hpos by (destruct xs; [done|simpl; lia]).
  assert (forall i k, ks !! i = Some k -> k < n /\ k ∈ ks /\ exists x, read (nth In i) m = Ok x /\ g x = k) as Hks.
  { intros i k Hk. assert (Hk' := Hk). unfold ks in Hk'. apply list_lookup_fmap_Some in Hk' as (x & -> & Hx). split; [|split].
    - rewrite Forall_lookup in Hn. by eapply Hn.
    - by eapply list_elem_of_lookup_2.
    - exists x. split; [|done]. eapply holds_read; [exact HIn|]. by rewrite list_lookup_fmap, Hx. }
  apply ok_exact. unfold get_counts. rewrite (holds_size _ _ _ HIn), length_fmap. destruct (Nat.eqb_spec (length xs) 0) as [?|_]; [lia|].
  apply ok_bind. eapply ok_mono; [apply (ok_parallel_for (fun d '(starts, ends) =>
    partly_written ks n (start ks) (opens ks) d starts /\ partly_written ks n (fun k => start ks (S k)) (closes ks) d ends))|].
  - split; apply written_nil.
  - intros d i [starts ends] [_ Hi] Hd [Hst Hen]. destruct (lookup_lt_is_Some_2 ks i) as [k Hk]; [lia|]. destruct (lookup_lt_is_Some_2 ks (S i)) as [k' Hk']; [lia|].
    destruct (Hks _ _ Hk) as (Hkn & Hkin & x & Hx & Hgx). destruct (Hks _ _ Hk') as (Hkn' & Hkin' & y & Hy & Hgy).
    rewrite Hx, Nat.add_1_r, Hy. cbn [mbind res_bind]. rewrite Hgx, Hgy. destruct (Nat.eqb_spec k k') as [<-|Hkk].
    + apply ok_ret. split; apply written_skip; [done| |done|]; intros l (l' & H1 & H2 & H3); congruence.
    + destruct (change_starts ks i k k' Ha Hk Hk' Hkk) as [H1 H2]. rewrite <- H1 at 1. apply ok_bind.
      eapply ok_mono; [apply (written_one ks n (start ks) (opens ks) d i k'); [done| |done|done]|].
      { intros l (l' & ? & ? & ?). congruence. }
      intros starts' Hst'. rewrite <- H2 at 1. apply ok_bind.
      eapply ok_mono; [apply (written_one ks n (fun k => start ks (S k)) (closes ks) d i k); [done| |done|done]|].
      { intros l (l' & ? & ? & ?). congruence. }
      intros ends' Hen'. by apply ok_ret.
  - intros [starts ends] (d & Hd & [Hls Hst] & [Hle Hen]). rewrite Nat.sub_0_r in Hd.
    destruct (lookup_lt_is_Some_2 ks (length xs - 1)) as [k Hk]; [lia|]. destruct (Hks _ _ Hk) as (Hkn & Hkin & x & Hx & Hgx).
    rewrite Hx. cbn [mbind res_bind]. rewrite Hgx. destruct (Hen k Hkn) as (v & Hv & _). unfold assign. rewrite (get_eq _ _ _ Hv). cbn [mbind res_bind].
    exists (Some <$> counts_of ks n). split; [|done]. apply tabulate_eq; [apply length_counts_of|].
    intros l c Hc. assert (l < n) as Hln by (rewrite <- (length_counts_of ks n); by eapply lookup_lt_Some).
    rewrite lookup_counts_of in Hc by done. injection Hc as <-. destruct (Hst l Hln) as (s & Hs' & Hs0 & Hsd). destruct (Hen l Hln) as (e & He & He0 & Hed).
    rewrite (get_eq starts _ _ Hs').
    assert (Hb := start_S ks l). assert (Hpos' := in_bucket_pos ks l).
    assert (l ∈ ks -> s = start ks l) as Hs1.
    { intros Hlin. destruct (decide (start ks l = 0)) as [E|E]; [lia|]. apply (Hsd (start ks l - 1)); [|by apply opens_at].
      rewrite Hd. apply elem_of_seq. assert (start ks (S l) <= length ks) by apply start_le. assert (Hlt := proj1 Hpos' Hlin). lia. }
    assert (last_key : start ks (S k) = length ks).
    { apply Nat.le_antisymm; [apply start_le|]. assert (H1 := ascending_start ks _ _ (S k) Ha Hk). lia. }
    assert (exists e', get (<[k := Some (length xs)]> ends) l = Ok e' /\ (e' = 0 \/ (e' = start ks (S l) /\ l ∈ ks)) /\ (l ∈ ks -> e' = start ks (S l))) as (e' & -> & He0' & He1).
    { destruct (decide (l = k)) as [->|Hlk'].
      - exists (length xs). rewrite (get_eq _ _ (length xs)) by (by rewrite list_lookup_insert_eq by lia). rewrite last_key. split; [done|]. split; [by right|done].
      - exists e. rewrite (get_eq _ _ e) by (by rewrite list_lookup_insert_ne). split; [done|]. split; [done|]. intros Hlin.
        assert (start ks (S l) <> length ks) as Hlast by (intros E; by apply Hlk', (last_key_unique ks l k (length xs - 1)); [..|lia]).
        assert (Hsl := start_le ks (S l)). assert (Hlt := proj1 Hpos' Hlin).
        apply (Hed (start ks (S l) - 1)); [|by apply closes_at]. rewrite Hd. apply elem_of_seq. lia. }
    cbn [mbind res_bind]. destruct (decide (l ∈ ks)) as [Hlin|Hlin].
    + rewrite Hs1, He1, size_sub_le by (done || lia). f_equal. lia.
    + assert (s = 0) as -> by (by destruct Hs0 as [?|[_ ?]]). assert (e' = 0) as -> by (by destruct He0' as [?|[_ ?]]). rewrite size_sub_le by done. rewrite Hpos' in Hlin. f_equal. lia.
Qed.

Lemma with_key_perm b xs ys : xs ≡ₚ ys -> length (with_key g b xs) = length (with_key g b ys).
Proof. unfold with_key. induction 1; simpl; repeat (destruct (_ =? _)); simpl; lia. Qed.

Lemma counts_of_keys xs ys n : ys ≡ₚ xs -> counts_of (g <$> ys) n = (fun b => length (with_key g b xs)) <$> seq 0 n.
Proof.
  intros Hp. unfold counts_of. apply list_fmap_ext. intros i b _.
  rewrite <- (length_bucket ys) by (by rewrite length_fmap). rewrite bucket_with_key. by apply with_key_perm.
Qed.

(** C40: [integer_sort_with_counts], for every schedule: if every key is below [num_buckets], it returns the stable
    sort by key as a new sequence and how many elements each key has, and changes nothing else.  As for
    [integer_sort], the elements are fewer than the base case, or they are trivially relocatable and [memcpy] leaves
    bytes alone that are copied to where they are; and trivially relocatable elements have at most 8192 bytes. *)
Theorem integer_sort_with_counts_correct In xs n m : full In xs m -> Forall (fun x => g x < n) xs -> size_t (length xs) -> size_t n ->
  stays_in_place trivially_relocatable memcpy_in_place \/ length xs < base_case ->
  ok (integer_sort_with_counts sizeof num_threads trivially_relocatable memcpy_in_place base_case In g n m) (fun '(R, counts, m') =>
    exists ys, sorts g xs ys /\ full R ys m' /\ counts = Some <$> ((fun b => length (with_key g b xs)) <$> seq 0 n) /\
      full In xs m' /\ forall p, p.1 <> arr R -> m' !! p = m !! p).
Proof.
  intros HIn Hn Hsz Hszn Htriv. unfold integer_sort_with_counts. rewrite (holds_size _ _ _ HIn), length_fmap.
  destruct (Nat.eqb_spec (length xs) 0) as [->%length_zero_iff_nil|Hne].
  { destruct (allocate 0 m) as [R m'] eqn:Ha. destruct (allocate_spec _ _ _ _ Ha) as (HR & _ & Hother & Hsame & _). apply ok_ret.
    exists []. split; [by repeat split; constructor|]. split; [exact HR|]. split; [|split; [by apply Hother|done]].
    rewrite <- list_fmap_compose. rewrite <- (length_seq n 0) at 1. symmetry. by apply const_fmap. }
  assert (0 < n) as Hpos by (destruct Hn; [done|lia]). apply Nat.ltb_lt in Hpos as Hposb. rewrite Hposb. cbn [assert mbind res_bind].
  destruct (log2_up_spec n Hpos) as (bits & -> & Hbits & _); [apply size_t_pow in Hszn; lia|]. cbn [mbind res_bind].
  assert (Forall (fun x => size_t (g x + 1)) xs) as Hkeys.
  { eapply Forall_impl; [exact Hn|]. intros x Hx. eapply size_t_le; [|exact Hszn]. simpl in Hx. lia. }
  apply ok_bind. eapply ok_mono; [by apply integer_sort_ok|]. intros [R m'] (ys & Hys & HR & HIn' & Hsame).
  assert (sorts g xs ys) as Hys'.
  { apply (sorts_on (sort_key g bits)); [|done]. eapply Forall_impl; [exact Hn|]. intros x Hx. unfold sort_key.
    destruct (bits =? 0); [done|]. apply low_small. simpl in Hx. lia. }
  assert (ys ≡ₚ xs) as Hp by (by eapply sorts_perm).
  rewrite (get_counts_eq R ys n m'); [|done|apply Hys'| |by rewrite Hp].
  - cbn [mbind res_bind]. apply ok_ret. exists ys. split; [done|]. split; [done|]. split; [by rewrite (counts_of_keys xs)|done].
  - intros ->. apply Permutation_nil in Hp as ->. done.
Qed.
End counts.

#[local] Instance ex_parallelism : Parallelism := {| float := unit; whole := tt; share _ _ _ := tt; negligible _ := false |}.

Lemma integer_sort_with_counts_correct_witness : exists R m',
  @integer_sort_with_counts backwards ex_parallelism nat 8 4 true (fun _ m => Ok m) 2 ex_slice (fun x => x mod 4) 4 ex_mem = Ok (R, Some <$> [1; 1; 0; 1], m') /\
  holds ex_slice (Some <$> [5; 3; 4]) m'.
Proof.
  destruct (@integer_sort_with_counts_correct backwards ex_parallelism nat 8 4 true (fun _ m => Ok m) 2 (fun x => x mod 4)
    ltac:(intros _; unfold chunk_bytes; lia) ex_slice [5; 3; 4] 4 ex_mem ex_holds)
    as ([[R counts] m'] & He & ys & _ & _ & -> & HIn & _); [by repeat constructor|done|done|by left|].
  exists R, m'. split; [exact He|exact HIn].
Defined.
